(* ===== verification/_CoqProject ===== *)
-Q . S2P
Prelude.v
RustStd.v
Types.v
Overload.v
Coverage.v
Ledger.v
LedgerSpec.v
LedgerHistory.v
Loss.v
Reconstruct.v
ReconstructProps.v
Ports.v
SharedLedger.v
Naming.v
Coordinator.v
CoordinatorProps.v
DrainSystem.v
Engine.v
EngineProps.v
Seal.v
SealProps.v
Stager.v
StagerProps.v
HotStore.v
Daemon.v
Rolling.v
Pipeline.v
PipelineProps.v
System.v
Otlp.v
Accept.v
Ducklake.v
DucklakeProps.v
DucklakeRace.v
Conformance.v
Hrw.v
Routing.v
Fencing.v
Wire.v
PeerApply.v
Receipt.v
Cluster.v
Boot.v
Takeover.v
Wiring.v
Serving.v
WiringProps.v
BTree.v
Verdict.v
Evidence.v
Journal.v
RunManifest.v
FinalState.v
ZeroAckedLost.v
WatermarkHonesty.v
LatestView.v
RetentionHonesty.v
CacheTransparency.v
FaultLedger.v
RunSummary.v
Loadgen.v
LoadgenProps.v
Vacuity.v
Runner.v
WatermarkWitness.v
ReplicationWitness.v
StagingWitness.v
LakeWitness.v
AcceptWitness.v
JudgeWitness.v
Link.v
Fleet.v
Fault.v
FaultProps.v
FaultEnds.v
RunLog.v
FleetSetup.v
FleetRun.v
Ctk.v
FleetWitness.v
