(* ===== verification/Prelude.v ===== *)
(** * DuckSpout: a verification development

    DuckSpout accepts OTLP batches, stages them durably in a hot DuckDB store on
    every node, replicates the staged ranges between nodes, and drains closed
    micro-windows into a lake, whose watermark tells readers up to which window a
    partition is complete.  A judge reads what a recorded run left behind and
    decides whether it kept those promises.  This library models the parts of the
    workspace [crates/] that carry them and proves what makes them correct.

    ** The parts, and where they are

    - [crates/duckspout-types]: identifiers, manifests and watermark rows
      ([Types.v]); the overload ladder and the error table ([Overload.v]); the
      data of the ports and the computation seam [WatermarkBookkeeping] as a
      class with its laws ([Ports.v]).  The other ports are classes or call types
      in the file of the component that calls them.
    - [crates/duckspout-watermark]: [coverage.rs] is [Coverage.v] (a [SeqSet] is a
      list of ranges, its meaning the set of its members); [ledger.rs] is
      [Ledger.v] (a map from partitions to [PartitionState], one definition per
      method); [loss.rs] is [Loss.v]; [reconstruct.rs] is [Reconstruct.v];
      [port.rs] is [SharedLedger.v], the instance of the bookkeeping class.
      [LedgerSpec.v] is the ledger's specification without caches,
      [LedgerHistory.v] sequences of calls and the ledger's claims,
      [ReconstructProps.v] those of the reconstruction.
    - [crates/duckspout-drain]: [naming.rs] and [schedule.rs] are
      [Naming.v], [coordinator.rs] is [Coordinator.v]: a program over port calls,
      one definition per method.  [CoordinatorProps.v] has the claims about every
      run whatever the ports answer; [DrainSystem.v] runs the program against any
      bookkeeping with the port's laws and a lake that behaves as documented.
    - [crates/duckspout-staging]: [naming.rs] is in [Naming.v] too; [engine.rs] is
      [Engine.v] (the tables of the hot database, the writer's mirrors, the open
      transaction as a state-and-error monad); [seal.rs] is [Seal.v]; [stager.rs]
      is [Stager.v].  [EngineProps.v], [SealProps.v] and [StagerProps.v] have the
      invariants and the behaviour of each operation, [HotStore.v] the whole store
      as a state machine with crashes and reopens.
    - [crates/duckspout-accept]: [otlp.rs] is [Otlp.v]; [server.rs] is [Accept.v], a
      request as a program whose atomic operations on the shared in-flight counter
      are calls.
    - [crates/duckspout-lake-ducklake]: [Ducklake.v], the catalog's tables and one
      definition per operation, every statement of which may fail;
      [DucklakeProps.v] has the behaviour of one committer, [DucklakeRace.v] several
      committers on one catalog.  [crates/duckspout-lake-contract] is
      [Conformance.v], the suite as a program over the port and the harness, with
      DuckLake as an instance of the port.
    - [crates/duckspout-daemon]: [system.rs], [config.rs] and [manifest.rs]
      are [System.v]; [wiring.rs] is [Wiring.v] (membership, settings,
      the boot, the ring and the status) with [WiringProps.v], and its drain loop
      [Daemon.v]; [serving.rs] is [Serving.v], handler programs that run together;
      [Rolling.v] has the staging calls in flight beside the loop and proves that the
      stager's windows and the loop's closed windows
      fit; [Pipeline.v] is one node from staging to the lake as a step relation
      with crashes and boots, [PipelineProps.v] its invariant.
    - [crates/duckspout-replication]: [hrw.rs] is [Hrw.v], [routing.rs] is
      [Routing.v], [fencing.rs] and [claims.rs] are [Fencing.v], [wire.rs] is
      [Wire.v], [peer_apply.rs] is [PeerApply.v], [receipt.rs] is [Receipt.v],
      [forward.rs] is in [Cluster.v], [boot.rs] is [Boot.v], [takeover.rs] is
      [Takeover.v].  [Cluster.v] also puts the handlers together as a network of
      nodes that lose, repeat and reorder messages and reboot.
    - [crates/duckspout-judge]: [BTree.v] has its ordered maps; [verdict.rs] is
      [Verdict.v]; the evidence's formats are [Evidence.v]; [journal.rs],
      [final_state.rs], [fault_ledger.rs] and [summary.rs] are [Journal.v],
      [FinalState.v], [FaultLedger.v] and [RunSummary.v], [read_log.rs] and
      [run_manifest.rs] are [RunManifest.v]; the predicates are [ZeroAckedLost.v],
      [WatermarkHonesty.v], [LatestView.v],
      [RetentionHonesty.v] and [CacheTransparency.v]; [vacuity.rs] is [Vacuity.v];
      [runner.rs] is [Runner.v].
    - [crates/duckspout-loadgen]: [Loadgen.v], a run as a step relation over the
      loop that spawns requests and the tasks that send them; [LoadgenProps.v].
    - [crates/duckspout-fleet]: [Link.v] is the fault link ([link.rs]), its accept
      loop, connections and pumps as a step relation; [Fleet.v] has the nodes
      ([topology.rs]), their catalog addresses ([dsn.rs]) and the links the armed
      faults need ([main.rs]); [Fault.v] the fault log and the injectors
      ([faultlog.rs], [process.rs], [fault.rs]) as programs over the links, the
      clock, the nodes and the operating system, which run concurrently, with
      [FaultProps.v] and [FaultEnds.v]; [RunLog.v] the journal sampler and the run manifest
      ([runlog.rs], [capture_run_manifest] of [main.rs]), with the journal writer of a
      node ([trace_writer.rs] of the test kit); [FleetSetup.v] the load, the
      configuration of a node, the probe of the backends, the boot and the shutdown of
      the processes ([load.rs], [topology.rs], [backend_check.rs], [process.rs],
      [main.rs]); [FleetRun.v] the whole of [run] and the exit code ([main.rs]), as a
      machine whose phases run their futures side by side.
    - [crates/duckspout-ctk]: [Ctk.v], the injector ledger, the virtual clock, the
      seeded scheduler, the storage and the network of the tests; and the daemon's
      [FsStorage] ([system.rs]).
    - [RustStd.v] has what the sources use of Rust's strings and floats.
    - [WatermarkWitness.v] (also the drain), [ReplicationWitness.v], [StagingWitness.v]
      (also the pipeline), [LakeWitness.v] (also the daemon), [AcceptWitness.v] (also
      the load generator), [JudgeWitness.v] and [FleetWitness.v] (also the test
      kit) apply the claims with hypotheses at concrete inputs, with every parameter
      instantiated (the byte encoding they use is in [BTree.v]).

    An export is decoded ([Otlp.decode_logs]) and goes through
    [Stager.stage_blocking] into a window's table; its coverage is forwarded
    ([Cluster.forward_to_peers]), applied by peers ([PeerApply.apply_forward]),
    receipted ([Receipt.record]) and acknowledged ([Receipt.client_ack_ready]).  A
    closed window is sealed ([Seal.seal_blocking]), committed to the lake
    ([Ducklake.commit_files_blocking]) and recorded in the ledger
    ([Coordinator.drain_window], [Ledger.record_commit]), then dropped from the hot store as far as the commit
    covers it ([Seal.drop_blocking]).

    ** What the theorems show

    - The pipeline: over concurrent staging calls, crashes, boots, failed
      calls and interrupted passes, every staged row is in the hot store or in the
      lake, provided that no call takes as long as the lateness hold from choosing its window
      to its commit ([no_staged_row_lost]); without that a row can be lost, as the run
      of [StagingWitness.straggler_lost] shows.
    - The accept side: the columns of a decoded export are its log records in
      order ([decode_flattens]); the bytes of the requests at the staging port stay within
      the cap however requests interleave, those of cancelled requests excepted
      ([inflight_bounded], [AcceptWitness.overrun_reachable]); an acknowledged export is durable
      in the hot store ([export_ack_durable]).
    - The watermark: it passes a window only if every sequence number up to it is
      committed or excused by a loss row it accepted ([watermark_honest]); it never goes back, and it
      does not stay behind what its rule allows ([watermark_not_parked]); no row is
      committed twice; the cached, incremental ledger refines the specification
      that recomputes from scratch ([ledger_refines_spec]) and its loop ends by its
      own test; a reconstruction from the lake equals the
      live ledger, and a partial one is conservative.
    - The hot store: a call stages all of its rows, densely numbered, or nothing
      ([stage_all_or_nothing]); a retry within the dedup window replays the stored
      outcome, over crashes and reopens ([stage_exactly_once]); the mirrors, the
      numbering and the ladder's measure are right in every reachable state
      ([hot_store_consistent]); a sealed part covers exactly the rows it
      represents ([seal_sound]); a drop takes covered rows only
      ([drop_covered_only]); a guarded scan aborts and never truncates.
    - The drain: it drops a window only on a commit that stands, commits at most
      once, records what landed, and a window it requeues is untouched; against a
      documented lake the one read-back after an indeterminate commit decides
      rightly ([drain_decides]).
    - The lake: the DuckLake committer's answers are the ones its port documents
      ([ducklake_implements_port]); of two drains of one window at most one lands,
      whichever catalog connection they use ([single_drain_commit]); the commit
      rows read back are the manifests committed ([read_manifests_roundtrip]); it passes
      the conformance suite of the port, its race in every interleaving
      ([ducklake_conforms]).
    - Replication: an acknowledged range is applied at as many nodes as the
      replication factor asks ([client_ack_durable]), whatever the network does;
      peers apply without gaps and receipt honestly; placement moves only the
      partitions of a removed node; a boot persists an incarnation above every
      earlier one before it permits anything, and over a storage that crashes
      and tears writes it never starts over from an older one as long as the file was
      durable at the crash, which a failed sync or a kill inside a boot undoes
      ([boot_crash_safe]); a takeover triggers once, and its
      residue is exactly what the winner did not cover.
    - The judge: a pass means that every predicate holds of the evidence and no
      rule found the run vacuous ([judge_pass_exact]), a violation that one fails; each predicate's answer is the property it
      stands for, over the records themselves (the [_exact] theorems); ingestion reads
      every line or refuses ([ingest_exact]).
    - The daemon: a boot that succeeds has a ledger that holds exactly the commits
      and losses of the lake, whatever order they are read in ([boot_recovers]);
      nodes with the same members place every partition alike ([ring_agreement]);
      a scan is answered with everything its query yields, within its budget and its
      deadline, or refused ([scan_answered_whole]), and the scans that hold a permit never
      exceed the cap and every permit comes back, however the handlers interleave
      ([scan_permits_bounded]).
    - The load generator: what the client journals as an ack is a commit of the hot
      store ([loadgen_ack_durable]); a run accounts for every request it sends, and
      what its summary leaves open is what the judge reports ([loadgen_accounted]);
      the judge reads its journal back as the run was ([loadgen_journal_judged]).
    - The fault link: a connection delivers a prefix of what was sent, and all of it
      when it ends by itself, and the counters are what happened ([link_faithful]); a connection under a cut forwards at
      most what it had already read ([link_cut_bounded]).
    - The fault injection: the judge reads the log of a run as the faults that were
      armed, started and ended ([fault_log_judged]); a window that has started holds
      its links under its conditions until it releases them, and no link stays
      conditioned after the run ([fault_windows_hold]); the links an armed fault
      needs are on the paths of the load and of the node ([fault_links_on_path]), and a
      rewritten catalog address is read back and keeps its other fields
      ([dsn_rewrite_roundtrip], a lemma).
    - The fleet run: however it ends, no node it spawned is left, and each was shut
      down but for a panic and two errors ([run_leaves_no_node]); the exit code says that every
      node no fault exempts took its whole load, and whether a drained window was seen
      before the time to settle was over ([exit_code_honest]); over a clock that keeps
      time and surroundings that answer every part of a run ends ([fleet_run_ends]).  Lemmas: the load's records have event times in the past that
      no two share ([load_times_apart]) and decode to a row each ([smoke_rows]), and
      no value of a rendered configuration reaches past its line
      ([node_config_lines]).  The judge reads the journals of the nodes as what they journaled, a
      killed node's too, or refuses them all if one stops inside a line, and the manifest
      as the samples were, and its continuity
      rule convicts a node only of a silence the samples show
      ([run_evidence_judged]).
    - The test kit: [run_until_idle] ends, with no task left or the number of those
      stuck ([run_until_idle_ends]); its network delivers in order what no blackhole
      takes, and counts what it drops ([network_faithful]).
    - Names of parts and tables are injective; the throttle delay and the scan
      budget stay within their bounds.

    ** Modelling choices

    [u64] and [i64] values are [N] and [Z] with [is_u64] and [is_i64] as typing
    predicates; checked, saturating and wrapping operations are written out
    ([u64_add] wraps, as an unchecked sum does in a release build).  An [f64] is a
    [SpecFloat].  A [BTreeMap] or [HashMap] is a [gmap]; where the source iterates
    in key order the model does too ([btree_entries]).  Fallible code returns
    [result].  What runs under one lock is one step.  In the pipeline a staging call takes
    three: its admission, the choice of its window (under the lock of the open windows),
    and its transaction, which holds the writer from [begin] to [commit]; the
    statements of a seal and of a drop are steps of their own, and other calls may come
    between any two.  Noting the closed windows of a tick, the reading of the clock
    included, is one step.  [HotStore.hot_step], the state machine of the claims about the
    store alone, runs a whole staging call or drop as one step: those claims are about one call,
    or about what is kept under the writer's lock.  The statements of
    [Ducklake.ensure_fence] are taken as one step too.

    Fuel: [Ledger.extend_loop] runs with one more than the number of windows, and
    [extend_terminates] shows that the loop then stops by its own test;
    [RustStd.trim_start] runs with the length of its string, and every round removes
    at least one byte.  The polling and reading loops of [Fault.v] and [FleetSetup.v] take a fuel and
    are [Stuck] without it (a panic is [Panic], which ends the run): a stuck program makes no call
    and returns nothing, so what is proved of every run, for every fuel, is proved of
    the loops' prefixes; [fleet_run_ends] shows how much fuel the timeouts of the
    command line ask for, and that with it no loop is cut short.
    [Ctk.run_until_idle] takes a fuel: [run_until_idle_ends] shows that twice what the
    tasks and deadlines have left to do, plus one, is enough.  Everything else is structural.

    Code outside the repository is a parameter with its documented behaviour as
    laws: Arrow's batches, IPC reader and writer ([Engine.Arrow],
    [Stager.StagerLibs], [Accept.IpcRoundtrip]), prost and the text
    [serde_json] renders ([Otlp.OtlpLibs]), DuckDB ([Engine.DuckDb]: it may fail any
    statement, a failed statement has no effect, a transaction is atomic and
    durable at [COMMIT]), the payload columns and [ORDER BY] of the seal queries
    ([Seal.SealLibs]), DuckLake ([Ducklake.LakeLibs]: the text of a failure is a
    function of the statement; a commit is refused if a row it updates was written
    since its snapshot; an answer may be lost), the parts written by Parquet
    ([Pipeline]), [serde_json] ([Wire.Json], [Evidence.Serde] and the stored
    outcome), the files of a run, SHA-256, the replica log, the storage, the
    registry and the transport behind their ports.

    ** What is not modelled

    The daemon's accept loops, timers and shutdown order, and the reading of its
    configuration file (the [BootWorld] of a boot is a parameter: what the
    environment, the storage and the lake answer); the system clock, the fault seam and
    the command line.  Of the process fleet, logging, the printed summary, the
    parsing of the command line and the HTTP request for a node's status.  The control client prints one HTTP answer and is not
    modelled. *)

From stdpp Require Export base gmap strings list sorting pretty.
From Stdlib Require Export NArith ZArith Lia.

(** ** Notation scope of the development *)

Declare Scope rust_scope.
Delimit Scope rust_scope with rust.
#[global] Open Scope rust_scope.

(** Rust's [Result<T, E>]. *)
Inductive result (A E : Type) : Type :=
| Ok (a : A)
| Err (e : E).
Arguments Ok {A E} a.
Arguments Err {A E} e.

#[global] Instance result_eq_dec {A E} `{EqDecision A, EqDecision E} :
  EqDecision (result A E).
Proof. solve_decision. Defined.

(** The [?] operator: continue on [Ok], return the error otherwise. *)
Notation "'let?' x ':=' c 'in' k" :=
  (match c with Ok x => k | Err e => Err e end)
  (at level 10, x pattern, k at level 200) : rust_scope.

(** [Result::map_err]. *)
Definition map_err {A E F} (f : E → F) (r : result A E) : result A F :=
  match r with Ok a => Ok a | Err e => Err (f e) end.

(** [Result::is_ok]. *)
Definition is_ok {A E} (r : result A E) : bool := match r with Ok _ => true | Err _ => false end.

(** ** Machine integers

    A [u64] is an [N]; an [i64] is a [Z]. *)

Definition u64_max : N := 18446744073709551615.
Definition i64_max : Z := 9223372036854775807.
Definition i64_min : Z := -9223372036854775808.

Definition is_u64 (n : N) : Prop := (n ≤ u64_max)%N.
Definition is_i64 (z : Z) : Prop := (i64_min ≤ z ≤ i64_max)%Z.

(** [x + 1] on [u64] (release arithmetic wraps). *)
Definition u64_succ (n : N) : N := if (n =? u64_max)%N then 0%N else (n + 1)%N.
(** [x * y] and [x + y] on [u64] (release arithmetic wraps). *)
Definition u64_mul (x y : N) : N := ((x * y) mod (u64_max + 1))%N.
Definition u64_add (x y : N) : N := ((x + y) mod (u64_max + 1))%N.
(** [x.saturating_add(y)] on [u64]. *)
Definition u64_sat_add (x y : N) : N := N.min (x + y) u64_max.
(** [x.saturating_add(1)] on [u64]. *)
Definition sat_succ (n : N) : N := N.min (n + 1) u64_max.
(** [x.saturating_add(y)] on [i64]. *)
Definition i64_sat_add (x y : Z) : Z := Z.max i64_min (Z.min (x + y) i64_max).

Lemma u64_succ_small n : (n < u64_max)%N → u64_succ n = (n + 1)%N.
Proof. unfold u64_succ. intros H. destruct (N.eqb_spec n u64_max); lia. Qed.

Lemma u64_succ_mod n : (u64_succ (n mod 2 ^ 64) = (n + 1) mod 2 ^ 64)%N.
Proof.
  pose proof (N.mod_lt n (2 ^ 64) ltac:(done)) as Hlt.
  rewrite <-(N.Div0.add_mod_idemp_l n 1). revert Hlt. generalize (n mod 2 ^ 64)%N. intros m Hlt.
  unfold u64_succ. destruct (N.eqb_spec m u64_max) as [->|E]; [done|].
  rewrite (N.mod_small (m + 1)); [done|]. unfold u64_max in E.
  change (2 ^ 64)%N with 18446744073709551616%N in *. lia.
Qed.

Lemma sat_succ_small n : (n < u64_max)%N → sat_succ n = (n + 1)%N.
Proof. unfold sat_succ. lia. Qed.

Lemma sat_succ_max : sat_succ u64_max = u64_max.
Proof. reflexivity. Qed.

Lemma i64_sat_add_exact x y :
  is_i64 (x + y) → i64_sat_add x y = (x + y)%Z.
Proof. unfold is_i64, i64_sat_add. lia. Qed.

(** The sum of a list, [iter().sum()] before it is cut to a width. *)
Fixpoint sum_N (l : list N) : N :=
  match l with [] => 0 | x :: l => x + sum_N l end%N.

Lemma sum_N_app l k : sum_N (l ++ k) = (sum_N l + sum_N k)%N.
Proof. induction l as [|x l IH]; simpl; [done|]. rewrite IH. lia. Qed.

(** ** Tactics *)

(** Case analysis on every [if] on a boolean test, with the test as a
    proposition. *)
Ltac bool_tests :=
  repeat match goal with
  | H : (_ && _)%bool = true |- _ => apply andb_true_iff in H; destruct H
  | H : (_ && _)%bool = false |- _ => apply andb_false_iff in H
  | H : (_ || _)%bool = true |- _ => apply orb_true_iff in H
  | H : (_ || _)%bool = false |- _ => apply orb_false_iff in H; destruct H
  | H : negb _ = true |- _ => apply negb_true_iff in H
  | H : negb _ = false |- _ => apply negb_false_iff in H
  | H : (_ =? _)%N = true |- _ => apply N.eqb_eq in H
  | H : (_ =? _)%N = false |- _ => apply N.eqb_neq in H
  | H : (_ <=? _)%N = true |- _ => apply N.leb_le in H
  | H : (_ <=? _)%N = false |- _ => apply N.leb_gt in H
  | H : (_ <? _)%N = true |- _ => apply N.ltb_lt in H
  | H : (_ <? _)%N = false |- _ => apply N.ltb_ge in H
  | H : (_ =? _)%Z = true |- _ => apply Z.eqb_eq in H
  | H : (_ =? _)%Z = false |- _ => apply Z.eqb_neq in H
  | H : (_ <=? _)%Z = true |- _ => apply Z.leb_le in H
  | H : (_ <=? _)%Z = false |- _ => apply Z.leb_gt in H
  | H : (_ <? _)%Z = true |- _ => apply Z.ltb_lt in H
  | H : (_ <? _)%Z = false |- _ => apply Z.ltb_ge in H
  | H : bool_decide _ = true |- _ => apply bool_decide_eq_true in H
  | H : bool_decide _ = false |- _ => apply bool_decide_eq_false in H
  end.

Ltac case_if :=
  match goal with
  | |- context [if ?b then _ else _] =>
      match type of b with bool => destruct b eqn:? end
  | H : context [if ?b then _ else _] |- _ =>
      match type of b with bool => destruct b eqn:? end
  end; bool_tests.

(** ** Lists: pairwise relations and sorting *)

Section pairwise.
Context {A : Type} (R : relation A).

(** [pairwise l]: every two elements at different positions are related in
    both directions. *)
Definition pairwise (l : list A) : Prop :=
  ForallOrdPairs (λ x y, R x y ∨ R y x) l.

Lemma pairwise_nil : pairwise [].
Proof. constructor. Qed.

Lemma pairwise_cons x l :
  pairwise (x :: l) ↔ (∀ y, y ∈ l → R x y ∨ R y x) ∧ pairwise l.
Proof.
  unfold pairwise. split.
  - inversion 1 as [|? ? HF Hl]; subst. split; [|done]. by apply Forall_forall.
  - intros [Hx Hl]. constructor; [|done]. by apply Forall_forall.
Qed.

Lemma pairwise_perm l k : Permutation l k → pairwise l → pairwise k.
Proof.
  induction 1 as [|x l k Hlk IH|x y l|l k m _ IH1 _ IH2]; auto.
  - rewrite !pairwise_cons. intros [Hx Hl]. split; [|auto].
    intros y Hy. apply Hx. by rewrite Hlk.
  - rewrite !pairwise_cons. intros [Hy [Hx Hl]]. repeat split.
    + intros z [->|Hz]%elem_of_cons; [|auto].
      destruct (Hy x) as [?|?]; [by left|by right|by left].
    + intros z Hz. apply Hy. by right.
    + done.
Qed.

Lemma pairwise_snoc x l :
  pairwise (l ++ [x]) ↔ (∀ y, y ∈ l → R x y ∨ R y x) ∧ pairwise l.
Proof.
  assert (Permutation (l ++ [x]) (x :: l)) as Hp
    by (symmetry; apply Permutation_cons_append).
  rewrite <-pairwise_cons. split; apply pairwise_perm; by symmetry in Hp || done.
Qed.

Lemma pairwise_lookup l i j x y :
  pairwise l → l !! i = Some x → l !! j = Some y → i ≠ j → R x y ∨ R y x.
Proof.
  revert i j. induction l as [|z l IH]; intros i j; [done|].
  rewrite pairwise_cons. intros [Hz Hl] Hi Hj Hne. destruct i as [|i], j as [|j]; simplify_eq/=.
  - apply Hz. by eapply list_elem_of_lookup_2.
  - destruct (Hz x) as [?|?]; [by eapply list_elem_of_lookup_2|by right|by left].
  - eapply IH; eauto.
Qed.

(** Sorting by an order the relation [R] refines makes a pairwise list
    strongly sorted for [R]. *)
Lemma pairwise_sorted (Le : relation A) (P : A → Prop) l :
  (∀ x y, P x → P y → R y x → ¬ Le x y) → Forall P l →
  StronglySorted Le l → pairwise l → StronglySorted R l.
Proof.
  intros HR HP Hs. revert HP. induction Hs as [|x l Hl IH HF]; [constructor|].
  rewrite Forall_cons, pairwise_cons. intros [Px HP] [Hx Hp]. constructor; [by apply IH|].
  rewrite Forall_forall in HF, HP |- *. intros y Hy.
  destruct (Hx y Hy) as [?|HR']; [done|].
  exfalso. exact (HR _ _ Px (HP y Hy) HR' (HF _ Hy)).
Qed.

Lemma sorted_pairwise l : StronglySorted R l → pairwise l.
Proof.
  induction 1 as [|x l Hl IH HF]; [constructor|].
  apply pairwise_cons. split; [|done]. rewrite Forall_forall in HF. auto.
Qed.

Lemma StronglySorted_snoc_inv x l :
  StronglySorted R (l ++ [x]) → StronglySorted R l ∧ ∀ y, y ∈ l → R y x.
Proof.
  induction l as [|z l IH]; simpl; [by split; [constructor|intros y ?%elem_of_nil]|].
  intros [Hs HF]%StronglySorted_inv. apply IH in Hs as [Hs Hx].
  rewrite Forall_app, Forall_singleton in HF. destruct HF as [HF Hz].
  split; [by constructor|]. intros y [->|?]%elem_of_cons; auto.
Qed.

Lemma StronglySorted_app_before l1 x l2 y :
  StronglySorted R (l1 ++ x :: l2) → y ∈ l1 → R y x.
Proof.
  induction l1 as [|z l1 IH]; simpl; [by intros _ ?%elem_of_nil|].
  intros [Hs HF]%StronglySorted_inv [->|Hy]%elem_of_cons; [|auto].
  rewrite Forall_app, Forall_cons in HF. naive_solver.
Qed.

Lemma StronglySorted_app_remove l1 x l2 :
  StronglySorted R (l1 ++ x :: l2) → StronglySorted R (l1 ++ l2).
Proof.
  induction l1 as [|z l1 IH]; simpl; intros [Hs HF]%StronglySorted_inv; [done|].
  constructor; [by apply IH|]. rewrite Forall_app, Forall_cons in *. naive_solver.
Qed.

End pairwise.

(** Lexicographic order on [(u64, u64)], the order [sort_unstable] uses. *)
Definition pair_le (x y : N * N) : Prop :=
  (x.1 < y.1)%N ∨ (x.1 = y.1 ∧ (x.2 ≤ y.2)%N).

#[global] Instance pair_le_dec : RelDecision pair_le.
Proof. unfold pair_le. intros x y. apply _. Defined.

#[global] Instance pair_le_total : Total pair_le.
Proof. intros [a b] [c d]. unfold pair_le; simpl. lia. Qed.

#[global] Instance pair_le_trans : Transitive pair_le.
Proof. intros [a b] [c d] [e f]. unfold pair_le; simpl. lia. Qed.

(** [Vec::sort_unstable] on pairs. *)
Definition sort_pairs (l : list (N * N)) : list (N * N) := merge_sort pair_le l.

Lemma sort_pairs_perm l : Permutation (sort_pairs l) l.
Proof. apply merge_sort_Permutation. Qed.

Lemma sort_pairs_sorted l : StronglySorted pair_le (sort_pairs l).
Proof. apply StronglySorted_merge_sort; apply _. Qed.

Lemma elem_of_sort_pairs x l : x ∈ sort_pairs l ↔ x ∈ l.
Proof. by rewrite sort_pairs_perm. Qed.

(** ** [BTreeMap]: a finite map iterated in key order

    A [BTreeMap<K, V>] whose keys are identifier strings is a [gmap]; where
    the code iterates it, the entries come in the byte-wise order of the
    keys. *)

Definition key_le {V : Type} (x y : string * V) : Prop := String.le x.1 y.1.

#[global] Instance key_le_dec {V} : RelDecision (key_le (V:=V)).
Proof. unfold key_le. intros ??. apply _. Defined.

#[global] Instance key_le_total {V} : Total (key_le (V:=V)).
Proof. intros x y. apply (total String.le). Qed.

#[global] Instance key_le_trans {V} : Transitive (key_le (V:=V)).
Proof. intros x y z. unfold key_le. apply transitivity. Qed.

(** [BTreeMap::iter] *)
Definition btree_entries {V : Type} (m : gmap string V) : list (string * V) :=
  merge_sort key_le (map_to_list m).

Lemma elem_of_btree_entries {V} (m : gmap string V) k v :
  (k, v) ∈ btree_entries m ↔ m !! k = Some v.
Proof.
  unfold btree_entries. by rewrite merge_sort_Permutation, elem_of_map_to_list.
Qed.

Lemma btree_entries_keys {V} (m : gmap string V) : NoDup (btree_entries m).*1.
Proof.
  unfold btree_entries. rewrite merge_sort_Permutation. apply NoDup_fst_map_to_list.
Qed.

Lemma btree_entries_sorted {V} (m : gmap string V) :
  StronglySorted key_le (btree_entries m).
Proof. apply StronglySorted_merge_sort; apply _. Qed.

Lemma bind_nil {A B} (f : A → list B) l : (l ≫= f) = [] ↔ ∀ x, x ∈ l → f x = [].
Proof.
  rewrite <-Forall_forall. induction l as [|y l IH].
  - split; [constructor|done].
  - rewrite bind_cons, app_nil, Forall_cons, IH. done.
Qed.

(** ** [BTreeMap<u64, V>::last_key_value] *)

Section last_key.
Context {V : Type}.

Definition last_key (m : gmap N V) : option N :=
  foldr (λ k acc, Some (N.max k (default k acc))) None (map_to_list m).*1.

Lemma foldr_max_spec (l : list N) r :
  foldr (λ k acc, Some (N.max k (default k acc))) None l = r →
  match r with
  | None => l = []
  | Some k => k ∈ l ∧ ∀ k', k' ∈ l → (k' ≤ k)%N
  end.
Proof.
  revert r. induction l as [|x l IH]; intros r <-; simpl; [done|].
  specialize (IH _ eq_refl). destruct (foldr _ None l) as [k|]; simpl.
  - destruct IH as [Hin Hmax]. split.
    + destruct (N.max_spec x k) as [[_ ->]|[_ ->]]; [by right|by left].
    + intros k' [->|Hk]%elem_of_cons; [lia|]. specialize (Hmax k' Hk). lia.
  - subst. rewrite N.max_id. split; [by left|].
    intros k' ->%list_elem_of_singleton. done.
Qed.

Lemma elem_of_keys (m : gmap N V) k : k ∈ (map_to_list m).*1 ↔ is_Some (m !! k).
Proof.
  rewrite list_elem_of_fmap. split.
  - intros ([k' v] & -> & Hin%elem_of_map_to_list). by eexists.
  - intros [v Hv]. exists (k, v). by rewrite elem_of_map_to_list.
Qed.

(** The greatest key, when there is one. *)
Lemma last_key_Some m k :
  last_key m = Some k →
  is_Some (m !! k) ∧ ∀ k', is_Some (m !! k') → (k' ≤ k)%N.
Proof.
  intros H. apply foldr_max_spec in H as [Hin Hmax].
  setoid_rewrite <-elem_of_keys. done.
Qed.

Lemma last_key_None m : last_key m = None → m = ∅.
Proof.
  intros H. apply foldr_max_spec in H. apply fmap_nil_inv in H.
  by apply map_to_list_empty_iff.
Qed.

Lemma last_key_unique m k :
  is_Some (m !! k) → (∀ k', is_Some (m !! k') → (k' ≤ k)%N) → last_key m = Some k.
Proof.
  intros Hk Hmax. destruct (last_key m) as [k'|] eqn:E.
  - apply last_key_Some in E as [Hk' Hmax']. f_equal.
    apply N.le_antisymm; auto.
  - apply last_key_None in E. subst. by destruct Hk.
Qed.

End last_key.

(** ** [Iterator::max_by_key]: the last of the maximal elements *)

Section max_by.
Context {A : Type} (leb : A → A → bool).

Definition max_by_step (acc : option A) (x : A) : option A :=
  match acc with
  | None => Some x
  | Some m => if leb m x then Some x else Some m
  end.

Definition max_by (l : list A) : option A := foldl max_by_step None l.

Lemma max_by_None l : max_by l = None ↔ l = [].
Proof.
  split; [|by intros ->]. destruct l as [|x l] using rev_ind; [done|]. unfold max_by.
  rewrite foldl_app. simpl. unfold max_by_step. by repeat case_match.
Qed.

Context (leb_total : ∀ x y, leb x y = true ∨ leb y x = true)
        (leb_trans : ∀ x y z, leb x y = true → leb y z = true → leb x z = true).

Lemma max_by_Some l m : max_by l = Some m → m ∈ l ∧ ∀ x, x ∈ l → leb x m = true.
Proof.
  revert m. induction l as [|y l IH] using rev_ind; intros m; [done|].
  unfold max_by in *. rewrite foldl_app. simpl.
  destruct (foldl max_by_step None l) as [m0|] eqn:E; simpl.
  - destruct (IH m0 eq_refl) as [Hin Hmax]. destruct (leb m0 y) eqn:Hle; intros [= <-].
    + split; [apply elem_of_app; right; by left|].
      intros x [Hx| ->%list_elem_of_singleton]%elem_of_app; [eauto|].
      by destruct (leb_total y y).
    + split; [apply elem_of_app; by left|].
      intros x [Hx| ->%list_elem_of_singleton]%elem_of_app; [eauto|].
      destruct (leb_total y m0); congruence.
  - intros [= <-]. apply (max_by_None l) in E as ->. split; [by left|].
    intros x ->%list_elem_of_singleton. by destruct (leb_total y y).
Qed.

End max_by.

(** ** [slice::sort_by_key]: a stable sort on a [u64] key *)

Section sort_by_key.
Context {A : Type} (key : A → N).

Fixpoint insert_by_key (x : A) (l : list A) : list A :=
  match l with
  | [] => [x]
  | y :: l => if (key x <=? key y)%N then x :: y :: l else y :: insert_by_key x l
  end.

Definition sort_by_key (l : list A) : list A := foldr insert_by_key [] l.

Lemma insert_by_key_perm x l : insert_by_key x l ≡ₚ x :: l.
Proof.
  induction l as [|y l IH]; simpl; [done|]. case_if; [done|]. rewrite IH. by constructor.
Qed.

Lemma sort_by_key_perm l : sort_by_key l ≡ₚ l.
Proof. induction l as [|x l IH]; simpl; [done|]. by rewrite insert_by_key_perm, IH. Qed.

Lemma sort_by_key_sorted l : StronglySorted (λ x y, key x ≤ key y)%N (sort_by_key l).
Proof.
  induction l as [|x l IH]; simpl; [constructor|].
  induction IH as [|y k Hk IHk HF]; simpl; [by repeat constructor|]. case_if.
  - constructor; [by constructor|]. constructor; [done|].
    eapply Forall_impl; [done|]. simpl. lia.
  - constructor; [done|]. rewrite insert_by_key_perm. constructor; [lia|done].
Qed.

End sort_by_key.

(** ** The hint database of the development *)

Create HintDb spout.
#[export] Hint Resolve max_by_None sort_by_key_perm sort_by_key_sorted
  sort_pairs_perm sort_pairs_sorted pairwise_nil : spout.
