(* ===== verification/RustStd.v ===== *)
(** * Strings and floats of the Rust standard library

    What the components use of [str] and [f64].  A string is its bytes; an [f64]
    is a [spec_float], the binary64 of the standard rounded to nearest even. *)

From Stdlib Require Import Ascii SpecFloat.
From S2P Require Import Prelude.

(** ** Reading a number

    [std::str::from_utf8], [str::trim] and [str::parse::<u64>]. *)

Definition byte_between (lo hi : N) (c : ascii) : bool :=
  ((lo <=? N_of_ascii c) && (N_of_ascii c <=? hi))%N.

Definition is_continuation (c : ascii) : bool := byte_between 128 191 c.

(** [std::str::from_utf8] succeeds: well-formed UTF-8 (Unicode, table 3-7). *)
Fixpoint is_utf8 (s : string) : bool :=
  match s with
  | EmptyString => true
  | String c s =>
      if byte_between 0 127 c then is_utf8 s
      else match s with
           | EmptyString => false
           | String c1 s =>
               if byte_between 194 223 c then is_continuation c1 && is_utf8 s
               else match s with
                    | EmptyString => false
                    | String c2 s =>
                        if byte_between 224 239 c then
                          byte_between (if (N_of_ascii c =? 224)%N then 160 else 128)
                                       (if (N_of_ascii c =? 237)%N then 159 else 191) c1
                          && is_continuation c2 && is_utf8 s
                        else match s with
                             | EmptyString => false
                             | String c3 s =>
                                 byte_between 240 244 c &&
                                 byte_between (if (N_of_ascii c =? 240)%N then 144 else 128)
                                              (if (N_of_ascii c =? 244)%N then 143 else 191) c1
                                 && is_continuation c2 && is_continuation c3 && is_utf8 s
                             end
                    end
           end
  end.

Definition bytes_of (l : list N) : string :=
  foldr (λ n s, String (ascii_of_N n) s) "" l.

(** The UTF-8 encodings of the characters with the [White_Space] property. *)
Definition white_spaces : list string :=
  bytes_of <$>
  [[9]; [10]; [11]; [12]; [13]; [32]; [194; 133]; [194; 160]; [225; 154; 128];
   [226; 128; 128]; [226; 128; 129]; [226; 128; 130]; [226; 128; 131]; [226; 128; 132];
   [226; 128; 133]; [226; 128; 134]; [226; 128; 135]; [226; 128; 136]; [226; 128; 137];
   [226; 128; 138]; [226; 128; 168]; [226; 128; 169]; [226; 128; 175]; [226; 129; 159];
   [227; 128; 128]]%N.

Fixpoint strip_prefix (w s : string) : option string :=
  match w, s with
  | EmptyString, _ => Some s
  | String c w, String d s => if Ascii.eqb c d then strip_prefix w s else None
  | String _ _, EmptyString => None
  end.

(** Drop one leading white-space character. *)
Definition strip_space (s : string) : option string :=
  foldr (λ w acc, match strip_prefix w s with Some rest => Some rest | None => acc end) None
    white_spaces.

(** [str::trim_start]; each round drops at least one byte. *)
Fixpoint trim_start (fuel : nat) (s : string) : string :=
  match fuel with
  | O => s
  | S fuel => match strip_space s with Some rest => trim_start fuel rest | None => s end
  end.

Definition is_empty_string (s : string) : bool :=
  match s with EmptyString => true | _ => false end.

(** [str::trim_end]: cut where only white space follows. *)
Fixpoint trim_end (s : string) : string :=
  if is_empty_string (trim_start (String.length s) s) then ""
  else match s with EmptyString => "" | String c s => String c (trim_end s) end.

(** [str::trim] *)
Definition trim (s : string) : string := trim_end (trim_start (String.length s) s).

Inductive IntErrorKind := Empty | InvalidDigit | PosOverflow.

Definition digit_of (c : ascii) : option N :=
  if byte_between 48 57 c then Some (N_of_ascii c - 48)%N else None.

Fixpoint parse_digits (acc : N) (s : string) : result N IntErrorKind :=
  match s with
  | EmptyString => Ok acc
  | String c s =>
      match digit_of c with
      | None => Err InvalidDigit
      | Some d =>
          if (u64_max <? acc * 10 + d)%N then Err PosOverflow else parse_digits (acc * 10 + d) s
      end
  end.

(** [str::parse::<u64>] *)
Definition parse_u64 (s : string) : result N IntErrorKind :=
  match s with
  | EmptyString => Err Empty
  | String c rest =>
      if Ascii.eqb c "+" then
        match rest with EmptyString => Err InvalidDigit | _ => parse_digits 0 rest end
      else parse_digits 0 s
  end.

(** ** [str::lines] *)

Definition newline : Ascii.ascii := Ascii.ascii_of_nat 10.
Definition carriage_return : Ascii.ascii := Ascii.ascii_of_nat 13.

(** [strip_suffix('\r')] *)
Fixpoint strip_cr (s : string) : string :=
  match s with
  | EmptyString => EmptyString
  | String c EmptyString => if Ascii.eqb c carriage_return then EmptyString else s
  | String c s => String c (strip_cr s)
  end.

(** The lines of [acc ++ s], where [acc] holds no newline. *)
Fixpoint lines_from (acc s : string) : list string :=
  match s with
  | EmptyString => match acc with EmptyString => [] | _ => [acc] end
  | String c s =>
      if Ascii.eqb c newline then strip_cr acc :: lines_from EmptyString s
      else lines_from (acc +:+ String c EmptyString) s
  end.

Definition str_lines (text : string) : list string := lines_from EmptyString text.

(** [c] does not occur in [s]. *)
Fixpoint free_of (c : ascii) (s : string) : bool :=
  match s with
  | EmptyString => true
  | String d s => negb (bool_decide (c = d)) && free_of c s
  end.

Lemma free_of_app c s1 s2 : free_of c (s1 +:+ s2) = free_of c s1 && free_of c s2.
Proof. induction s1 as [|d s1 IH]; simpl; [done|]. by rewrite IH, andb_assoc. Qed.

(** The text of some lines. *)
Fixpoint text_of (lines : list string) : string :=
  match lines with
  | [] => ""
  | line :: lines => line +:+ String newline (text_of lines)
  end.

Lemma string_app_assoc (a b c : string) : (a +:+ b) +:+ c = a +:+ b +:+ c.
Proof. induction a as [|x a IH]; [done|]. by apply (f_equal (String x)) in IH. Qed.

Lemma string_app_nil (a : string) : a +:+ "" = a.
Proof. induction a as [|x a IH]; [done|]. by apply (f_equal (String x)) in IH. Qed.

Lemma text_of_snoc lines line :
  text_of (lines ++ [line]) = text_of lines +:+ line +:+ String newline "".
Proof.
  induction lines as [|l lines IH]; [done|]. cbn [app text_of]. rewrite IH.
  rewrite string_app_assoc. f_equal.
Qed.

Lemma lines_from_line acc line rest : free_of newline line = true →
  lines_from acc (line +:+ String newline rest) = strip_cr (acc +:+ line) :: lines_from "" rest.
Proof.
  revert acc. induction line as [|c line IH]; intros acc; simpl.
  - by rewrite string_app_nil.
  - intros [Hc Hl]%andb_prop. change (String c line +:+ String newline rest)
      with (String c (line +:+ String newline rest)). simpl.
    assert (Ascii.eqb c newline = false) as ->.
    { by destruct (Ascii.eqb_spec c newline) as [->|]. }
    rewrite IH by done. by rewrite string_app_assoc.
Qed.

Lemma strip_cr_free line : free_of carriage_return line = true → strip_cr line = line.
Proof.
  induction line as [|c line IH]; [done|]. simpl. intros [Hc Hl]%andb_prop.
  destruct line as [|d line].
  - destruct (Ascii.eqb_spec c carriage_return) as [->|]; done.
  - by rewrite IH.
Qed.

Lemma str_lines_text lines :
  Forall (λ l, free_of newline l = true ∧ free_of carriage_return l = true) lines →
  str_lines (text_of lines) = lines.
Proof.
  unfold str_lines. induction 1 as [|l lines [Hn Hc] _ IH]; [done|]. cbn [text_of].
  rewrite lines_from_line, IH by done. f_equal. by apply strip_cr_free.
Qed.

(** ** Prefixes, suffixes and splits *)

(** [str::starts_with] *)
Definition starts_with (w s : string) : bool :=
  match strip_prefix w s with Some _ => true | None => false end.

(** [str::strip_suffix] with a one-byte character. *)
Fixpoint strip_suffix (c : ascii) (s : string) : option string :=
  match s with
  | EmptyString => None
  | String d EmptyString => if Ascii.eqb c d then Some "" else None
  | String d s => String d <$> strip_suffix c s
  end.

(** [Path::join]: an absolute path replaces the base. *)
Definition path_join (base part : string) : string :=
  if is_empty_string base || starts_with "/" part then part
  else match strip_suffix "/" base with
       | Some _ => base +:+ part
       | None => base +:+ "/" +:+ part
       end.

(** [str::split_once] with a one-byte character: the text before its first
    occurrence, and after it. *)
Fixpoint split_once (c : ascii) (s : string) : option (string * string) :=
  match s with
  | EmptyString => None
  | String d s =>
      if Ascii.eqb c d then Some ("", s)
      else (λ '(a, b), (String d a, b)) <$> split_once c s
  end.

(** [str::rsplit_once]: at its last occurrence. *)
Fixpoint rsplit_once (c : ascii) (s : string) : option (string * string) :=
  match s with
  | EmptyString => None
  | String d s =>
      match rsplit_once c s with
      | Some (a, b) => Some (String d a, b)
      | None => if Ascii.eqb c d then Some ("", s) else None
      end
  end.

(** [str::contains] with a one-byte character. *)
Definition contains_char (c : ascii) (s : string) : bool :=
  match split_once c s with Some _ => true | None => false end.

(** ** A rendered number is read back *)

Fixpoint all_digits (s : string) : bool :=
  match s with
  | EmptyString => true
  | String c s => byte_between 48 57 c && all_digits s
  end.

Lemma digit_of_char n : (n < 10)%N → digit_of (pretty_N_char n) = Some n.
Proof.
  intros Hn. assert (n = 0 ∨ n = 1 ∨ n = 2 ∨ n = 3 ∨ n = 4 ∨ n = 5 ∨ n = 6 ∨ n = 7 ∨ n = 8 ∨ n = 9)%N
    as Hc by lia.
  by repeat destruct Hc as [->|Hc]; [..|subst].
Qed.

Lemma pretty_char_digit n : byte_between 48 57 (pretty_N_char n) = true.
Proof. unfold pretty_N_char. by repeat case_match. Qed.

Lemma pretty_go_digits n s : all_digits s = true → all_digits (pretty_N_go n s) = true.
Proof.
  revert s. induction (N.lt_wf_0 n) as [n _ IH]; intros s Hs.
  destruct (decide (n = 0)%N) as [->|Hn]; [by rewrite pretty_N_go_0|].
  rewrite pretty_N_go_step by lia. apply IH; [apply N.div_lt; lia|]. simpl.
  by rewrite pretty_char_digit.
Qed.

Lemma pretty_digits (n : N) : all_digits (pretty n) = true.
Proof. unfold pretty, pretty_N. destruct (decide _); [done|]. by apply pretty_go_digits. Qed.

Lemma parse_digits_go n s :
  is_u64 n → parse_digits 0 (pretty_N_go n s) = parse_digits n s.
Proof.
  revert s. induction (N.lt_wf_0 n) as [n _ IH]; intros s Hn.
  destruct (decide (n = 0)%N) as [->|Hz]; [by rewrite pretty_N_go_0|].
  rewrite pretty_N_go_step by lia. rewrite IH; [|apply N.div_lt; lia|].
  - cbn [parse_digits]. rewrite digit_of_char by by apply N.mod_lt.
    replace (n / 10 * 10 + n `mod` 10)%N with n by (pose proof (N.div_mod n 10); lia).
    unfold is_u64 in Hn. by destruct (N.ltb_spec u64_max n); [lia|].
  - unfold is_u64 in *. pose proof (N.div_lt n 10). lia.
Qed.

Lemma digit_not_space c s : byte_between 48 57 c = true → strip_space (String c s) = None.
Proof. destruct c as [[] [] [] [] [] [] [] []]; done. Qed.

Lemma trim_start_digits n s : all_digits s = true → trim_start n s = s.
Proof.
  destruct n, s as [|c s]; try done. intros [Hc _]%andb_true_iff. simpl.
  by rewrite digit_not_space.
Qed.

Lemma trim_digits s : all_digits s = true → trim s = s.
Proof.
  intros Hs. unfold trim. rewrite trim_start_digits by done.
  induction s as [|c s IH]; [done|]. pose proof Hs as [Hc Hs']%andb_true_iff.
  cbn [trim_end]. rewrite trim_start_digits by done. simpl. by rewrite IH.
Qed.

Lemma utf8_digits s : all_digits s = true → is_utf8 s = true.
Proof.
  induction s as [|c s IH]; [done|]. simpl. rewrite andb_true_iff. intros [Hc Hs].
  unfold byte_between at 1 in Hc. bool_tests. unfold byte_between at 1.
  destruct (N.leb_spec 0 (N_of_ascii c)), (N.leb_spec (N_of_ascii c) 127); try lia. auto.
Qed.

Lemma parse_pretty n : is_u64 n → parse_u64 (pretty n) = Ok n.
Proof.
  intros Hn. assert (parse_digits 0 (pretty n) = Ok n) as Hp.
  { unfold pretty, pretty_N. destruct (decide _); [by subst|]. by rewrite parse_digits_go. }
  pose proof (pretty_digits n) as Hd. destruct (pretty n) as [|c s] eqn:E; simpl in Hp.
  - by simplify_eq.
  - unfold parse_u64. simpl in Hd. apply andb_true_iff in Hd as [Hc _].
    destruct (Ascii.eqb_spec c "+"); [by subst|]. done.
Qed.

(** ** [f64] *)

Definition f64_prec : Z := 53.
Definition f64_emax : Z := 1024.

(** [n as f64] *)
Definition f64_of_u64 (n : N) : spec_float := binary_normalize f64_prec f64_emax (Z.of_N n) 0 false.
(** [x / y] and [x > y] on [f64] *)
Definition f64_div (x y : spec_float) : spec_float := SFdiv f64_prec f64_emax x y.
Definition f64_gt (x y : spec_float) : bool := SFltb y x.
(** [x * y] on [f64] *)
Definition f64_mul (x y : spec_float) : spec_float := SFmul f64_prec f64_emax x y.

(** [x as u64]: truncated, saturating, zero for a NaN. *)
Definition f64_as_u64 (x : spec_float) : N :=
  match x with
  | S754_zero _ | S754_nan | S754_infinity true | S754_finite true _ _ => 0
  | S754_infinity false => u64_max
  | S754_finite false m e => N.min u64_max (Z.to_N (Z.shiftl (Z.pos m) e))
  end.

(** A text whose last line has no newline has that line too. *)
Lemma lines_from_rest acc line : free_of newline line = true → acc +:+ line ≠ "" →
  lines_from acc line = [acc +:+ line].
Proof.
  revert acc. induction line as [|c line IH]; intros acc; simpl.
  - rewrite string_app_nil. by destruct acc.
  - intros [Hc Hl]%andb_prop Hne. assert (Ascii.eqb c newline = false) as ->.
    { by destruct (Ascii.eqb_spec c newline) as [->|]. }
    rewrite IH; [|done|]; rewrite string_app_assoc; done.
Qed.

Lemma str_lines_unterminated lines line :
  Forall (λ l, free_of newline l = true ∧ free_of carriage_return l = true) lines →
  free_of newline line = true → line ≠ "" →
  str_lines (text_of lines +:+ line) = lines ++ [line].
Proof.
  intros Hls Hn Hne. unfold str_lines. induction Hls as [|l lines [Hl Hc] _ IH]; simpl.
  - by rewrite lines_from_rest.
  - rewrite string_app_assoc. change (String newline (text_of lines) +:+ line)
      with (String newline (text_of lines +:+ line)).
    rewrite lines_from_line, IH by done. f_equal. by apply strip_cr_free.
Qed.

(** What the file system makes of one [writeln!] and [flush]: it fails after some
    bytes of the line reached the file, perhaps all. *)
Inductive WriteOutcome := Written | WriteFailed (reached : nat).
