(* ===== verification/Types.v ===== *)
(** * Domain types

    Models [crates/duckspout-types]: identifier newtypes ([ids.rs]), the frozen
    window manifest ([manifest.rs]), the watermark and loss-ledger rows
    ([watermark.rs]), and the data that crosses the ports ([ports.rs]).  The
    string newtypes are transparent wrappers in the source
    ([#[serde(transparent)]]) and are strings here. *)

From S2P Require Import Prelude.

Abbreviation DatasetId := string (only parsing).
Abbreviation TenantId := string (only parsing).
Abbreviation PartitionId := string (only parsing).
Abbreviation NodeId := string (only parsing).
Abbreviation PartName := string (only parsing).
Abbreviation WindowId := N (only parsing).
Abbreviation StoragePath := string (only parsing).
(** A byte string ([bytes::Bytes]), a byte an [ascii]. *)
Abbreviation Bytes := string (only parsing).

(** [PartitionId::from_tenant_shard] *)
Definition from_tenant_shard (tenant : TenantId) (shard : N) : PartitionId :=
  tenant +:+ "." +:+ pretty shard.

(** ** manifest.rs *)

Inductive PartKind := Primary | Supplement | Snapshot.

Record OriginSeqRange := {
  origin : NodeId;
  first_seq : N;
  last_seq : N;
}.

Record WindowManifest := {
  m_dataset : DatasetId;
  m_partition : PartitionId;
  m_window_id : WindowId;
  m_origin_coverage : list OriginSeqRange;
  m_rows : N;
  m_event_time_min_ms : Z;
  m_event_time_max_ms : Z;
  m_dedup_removed : N;
  m_parts : list PartName;
}.

(** ** watermark.rs *)

Record WatermarkRow := {
  wr_partition : PartitionId;
  wr_complete_through_ms : Z;
}.

Record AppliedWatermarkRow := {
  aw_partition : PartitionId;
  aw_origin : NodeId;
  aw_applied_seq : N;
}.

Record LostRange := {
  lr_partition : PartitionId;
  lr_origin : NodeId;
  lr_first_seq : N;
  lr_last_seq : N;
}.

Record DeclareLossRequest := {
  dl_ranges : list LostRange;
  dl_accept_data_loss : bool;
}.

Record LossLedgerRow := {
  ll_range : LostRange;
  ll_declared_at_ms : Z;
}.

Record ReplicaCoverage := {
  rc_node : NodeId;
  rc_partition : PartitionId;
  rc_origin : NodeId;
  rc_replicated_thru : N;
}.

#[global] Instance PartKind_eq_dec : EqDecision PartKind.
Proof. solve_decision. Defined.
#[global] Instance OriginSeqRange_eq_dec : EqDecision OriginSeqRange.
Proof. solve_decision. Defined.
#[global] Instance WindowManifest_eq_dec : EqDecision WindowManifest.
Proof. solve_decision. Defined.
#[global] Instance WatermarkRow_eq_dec : EqDecision WatermarkRow.
Proof. solve_decision. Defined.
#[global] Instance LostRange_eq_dec : EqDecision LostRange.
Proof. solve_decision. Defined.
#[global] Instance LossLedgerRow_eq_dec : EqDecision LossLedgerRow.
Proof. solve_decision. Defined.

(** A range as the wire types declare it: both ends are [u64]. *)
Definition range_typed (r : OriginSeqRange) : Prop :=
  is_u64 (first_seq r) ∧ is_u64 (last_seq r).

(** A manifest whose fields fit their machine types, and whose window is not
    the last representable one (the ledger computes [window_id + 1]). *)
Record manifest_typed (m : WindowManifest) : Prop := {
  mt_window : (m_window_id m < u64_max)%N;
  mt_ranges : Forall range_typed (m_origin_coverage m);
}.

Definition loss_typed (row : LossLedgerRow) : Prop :=
  is_u64 (lr_last_seq (ll_range row)).
