(* ===== verification/Overload.v ===== *)
(** * The overload ladder and the error table

    Models [crates/duckspout-types/src/status.rs] (the rung of the overload
    ladder, the growing throttle delay, the fill-scaled query budget) and
    [otlp.rs] (the closed table of refusals).  A [u64] product in a [u128] is
    exact, and a [u64] product or sum that the source leaves unchecked wraps. *)

From S2P Require Import Prelude.

(** ** status.rs *)

Definition LADDER_DISCLOSE_PERCENT : N := 80.
Definition LADDER_THROTTLE_PERCENT : N := 95.
Definition LADDER_REFUSE_PERCENT : N := 100.
Definition THROTTLE_RETRY_MIN_MS : N := 1000.
Definition THROTTLE_RETRY_MAX_MS : N := 30000.
Definition QUERY_BUDGET_MAX_SCALE : N := 2.

(** [OverloadStatus] *)
Inductive OverloadStatus :=
| Normal | StagingPressure | DrainStalled | Throttling | RefusingIngest.

#[global] Instance OverloadStatus_eq_dec : EqDecision OverloadStatus.
Proof. solve_decision. Defined.

(** [NodeStatus] *)
Record NodeStatus := { ns_overload : OverloadStatus; ns_replication_degraded : bool }.

(** The closure [at] of [from_measure]. *)
Definition at_percent (staged_bytes max_bytes percent : N) : bool :=
  (max_bytes * percent <=? staged_bytes * 100)%N.

(** [OverloadStatus::from_measure] *)
Definition from_measure (staged_bytes max_bytes : N) (drain_stalled : bool) : OverloadStatus :=
  if (max_bytes =? 0)%N then RefusingIngest
  else if at_percent staged_bytes max_bytes LADDER_REFUSE_PERCENT then RefusingIngest
  else if at_percent staged_bytes max_bytes LADDER_THROTTLE_PERCENT then Throttling
  else if at_percent staged_bytes max_bytes LADDER_DISCLOSE_PERCENT then
    if drain_stalled then DrainStalled else StagingPressure
  else Normal.

(** [u64::try_from(x).unwrap_or(u64::MAX)] for an [x : u128]. *)
Definition u64_try_from (x : N) : N := if (x <=? u64_max)%N then x else u64_max.

(** The fill ratio in permille that both functions below compute. *)
Definition permille (staged_bytes max_bytes : N) : N :=
  u64_try_from (staged_bytes * 1000 / max_bytes).

(** [throttle_retry_delay_ms] ([N]'s subtraction saturates at 0). *)
Definition throttle_retry_delay_ms (staged_bytes max_bytes : N) : N :=
  if (max_bytes =? 0)%N then THROTTLE_RETRY_MAX_MS
  else
    let permille := permille staged_bytes max_bytes in
    let floor := u64_mul LADDER_THROTTLE_PERCENT 10 in
    let ceiling := u64_mul LADDER_REFUSE_PERCENT 10 in
    if (ceiling <=? permille)%N then THROTTLE_RETRY_MAX_MS
    else
      let position := (permille - floor)%N in
      let span := (ceiling - floor)%N in
      u64_add THROTTLE_RETRY_MIN_MS
        (u64_mul (THROTTLE_RETRY_MAX_MS - THROTTLE_RETRY_MIN_MS) position / span).

(** [fill_scaled_budget] *)
Definition fill_scaled_budget (base_bytes staged_bytes max_bytes : N) : N :=
  if (max_bytes =? 0)%N then base_bytes
  else
    let permille := permille staged_bytes max_bytes in
    let onset := u64_mul LADDER_DISCLOSE_PERCENT 10 in
    if (permille <=? onset)%N then base_bytes
    else
      let span := (u64_mul LADDER_REFUSE_PERCENT 10 - onset)%N in
      let position := N.min (permille - onset) span in
      let extra := u64_try_from (base_bytes * (QUERY_BUDGET_MAX_SCALE - 1) * position / span) in
      u64_sat_add base_bytes extra.

(** ** otlp.rs *)

(** [GrpcCode] *)
Inductive GrpcCode := InvalidArgument | Unavailable | ResourceExhausted.

#[global] Instance GrpcCode_eq_dec : EqDecision GrpcCode.
Proof. solve_decision. Defined.

(** [GrpcCode::code] *)
Definition code (c : GrpcCode) : N :=
  match c with InvalidArgument => 3 | ResourceExhausted => 8 | Unavailable => 14 end.

(** [OtlpErrorClass] *)
Inductive OtlpErrorClass :=
| MalformedPermanent | PayloadTooLarge | InflightOverCap | Throttled | RefusingIngestClass
| ReceiptShortfall | DuplicateInFlight | StorageFailure.

(** [OtlpErrorClass::grpc_code] *)
Definition grpc_code (c : OtlpErrorClass) : GrpcCode :=
  match c with
  | MalformedPermanent => InvalidArgument
  | PayloadTooLarge => ResourceExhausted
  | InflightOverCap | Throttled | RefusingIngestClass | ReceiptShortfall | DuplicateInFlight
  | StorageFailure => Unavailable
  end.

(** [OtlpErrorClass::carries_retry_info] *)
Definition carries_retry_info (c : OtlpErrorClass) : bool :=
  bool_decide (grpc_code c = Unavailable).

(** ** Arithmetic *)

(** The number of the rung a status belongs to. *)
Definition rung (s : OverloadStatus) : N :=
  match s with
  | Normal => 0 | StagingPressure | DrainStalled => 1 | Throttling => 2 | RefusingIngest => 3
  end.

(** The rung a fill ratio [staged / max] calls for, by its thresholds. *)
Definition rung_spec (staged max n : N) : Prop :=
  (n = 3 ∧ max * 100 ≤ staged * 100 ∨
   n = 2 ∧ max * 95 ≤ staged * 100 < max * 100 ∨
   n = 1 ∧ max * 80 ≤ staged * 100 < max * 95 ∨
   n = 0 ∧ staged * 100 < max * 80)%N.

Lemma from_measure_rung staged max stalled :
  rung_spec staged max (rung (from_measure staged max stalled)).
Proof.
  unfold from_measure, rung_spec, at_percent, LADDER_REFUSE_PERCENT, LADDER_THROTTLE_PERCENT,
    LADDER_DISCLOSE_PERCENT.
  repeat case_if; bool_tests; simpl; lia.
Qed.

Lemma permille_spec staged max k :
  (max ≠ 0)%N → (k ≤ u64_max)%N → (k ≤ permille staged max ↔ max * k ≤ staged * 1000)%N.
Proof.
  intros Hm Hk. unfold permille, u64_try_from.
  assert (k ≤ staged * 1000 / max ↔ max * k ≤ staged * 1000)%N as Hd.
  { split; intros H.
    - etrans; [by apply N.mul_le_mono_l|]. by apply N.Div0.mul_div_le.
    - by apply N.div_le_lower_bound. }
  case_if; bool_tests; [done|]. split; intros; [|done]. apply Hd. lia.
Qed.

Lemma permille_mono staged staged' max max' :
  (max' ≠ 0)%N → (staged ≤ staged')%N → (max' ≤ max)%N →
  (permille staged max ≤ permille staged' max')%N.
Proof.
  intros H0 Hs Hm.
  assert (permille staged max ≤ u64_max)%N as Hb
    by (unfold permille, u64_try_from; case_if; bool_tests; lia).
  apply permille_spec; [done..|].
  transitivity (max * permille staged max)%N; [by apply N.mul_le_mono_r|].
  transitivity (staged * 1000)%N; [|lia]. by apply permille_spec; [lia|..].
Qed.

Lemma u64_mul_exact x y : (x * y ≤ u64_max)%N → u64_mul x y = (x * y)%N.
Proof. intros H. unfold u64_mul. apply N.mod_small. lia. Qed.

Lemma u64_add_exact x y : (x + y ≤ u64_max)%N → u64_add x y = (x + y)%N.
Proof. intros H. unfold u64_add. apply N.mod_small. lia. Qed.

Lemma u64_try_from_min x : u64_try_from x = N.min x u64_max.
Proof. unfold u64_try_from. case_if; bool_tests; lia. Qed.

(** The delay as a function of the position in the throttling band: below the
    ceiling nothing wraps. *)
Lemma throttle_delay_formula staged max :
  throttle_retry_delay_ms staged max =
  if (max =? 0)%N || (1000 <=? permille staged max)%N then 30000%N
  else (1000 + 29000 * (permille staged max - 950) / 50)%N.
Proof.
  unfold throttle_retry_delay_ms, THROTTLE_RETRY_MAX_MS, THROTTLE_RETRY_MIN_MS.
  change (u64_mul LADDER_REFUSE_PERCENT 10) with 1000%N.
  change (u64_mul LADDER_THROTTLE_PERCENT 10) with 950%N.
  destruct (max =? 0)%N; simpl; [done|]. case_if; bool_tests; [done|].
  change (1000 - 950)%N with 50%N. change (30000 - 1000)%N with 29000%N.
  assert (29000 * (permille staged max - 950) / 50 ≤ 29000)%N as Hq
    by (apply N.Div0.div_le_upper_bound; lia).
  rewrite u64_mul_exact by (unfold u64_max; lia).
  apply u64_add_exact. unfold u64_max. lia.
Qed.

Lemma delay_step_mono p q :
  (p ≤ q)%N → (29000 * (p - 950) / 50 ≤ 29000 * (q - 950) / 50)%N.
Proof. intros H. apply N.Div0.div_le_mono. lia. Qed.

(** The budget as a function of the fill above the onset. *)
Definition budget_extra (base p : N) : N := (base * N.min (p - 800) 200 / 200)%N.

Lemma budget_formula base staged max :
  is_u64 base →
  fill_scaled_budget base staged max =
  if (max =? 0)%N then base else N.min (base + budget_extra base (permille staged max)) u64_max.
Proof.
  unfold is_u64, fill_scaled_budget, u64_sat_add, budget_extra, QUERY_BUDGET_MAX_SCALE. intros Hb.
  change (u64_mul LADDER_REFUSE_PERCENT 10) with 1000%N.
  change (u64_mul LADDER_DISCLOSE_PERCENT 10) with 800%N.
  destruct (max =? 0)%N; [done|]. rewrite u64_try_from_min. case_if; bool_tests.
  - replace (permille staged max - 800)%N with 0%N by lia.
    change (N.min 0 200) with 0%N. rewrite N.mul_0_r. change (0 / 200)%N with 0%N. lia.
  - change (1000 - 800)%N with 200%N. change (2 - 1)%N with 1%N. rewrite N.mul_1_r. lia.
Qed.

Lemma budget_extra_bounds base p :
  (budget_extra base p ≤ base)%N ∧ ((p ≤ 800)%N → budget_extra base p = 0%N) ∧
  ((1000 ≤ p)%N → budget_extra base p = base).
Proof.
  unfold budget_extra. split; [|split].
  - apply N.Div0.div_le_upper_bound. rewrite (N.mul_comm 200). apply N.mul_le_mono_l. lia.
  - intros H. replace (p - 800)%N with 0%N by lia. by rewrite N.min_l, N.mul_0_r by lia.
  - intros H. rewrite N.min_r by lia. by apply N.div_mul.
Qed.

Lemma budget_extra_mono base p q : (p ≤ q)%N → (budget_extra base p ≤ budget_extra base q)%N.
Proof. intros H. apply N.Div0.div_le_mono, N.mul_le_mono_l. lia. Qed.

(** ** Claims *)

(** The ladder is exact and monotone.  The rung is decided by the exact
    thresholds 80, 95 and 100 percent, whatever the drain's state, and more
    staged bytes or less capacity never lower it. *)
Theorem ladder_monotone (staged staged' max max' : N) (stalled stalled' : bool) :
  (staged ≤ staged')%N → (max' ≤ max)%N →
  let r := rung (from_measure staged max stalled) in
  rung_spec staged max r ∧ (r ≤ rung (from_measure staged' max' stalled'))%N.
Proof.
  intros Hs Hm r. pose proof (from_measure_rung staged max stalled) as H1.
  pose proof (from_measure_rung staged' max' stalled') as H2.
  split; [done|]. subst r. unfold rung_spec in *. lia.
Qed.

Lemma ladder_monotone_witness :
  (95 ≤ 99)%N ∧ (100 ≤ 100)%N ∧
  rung_spec 95 100 (rung (from_measure 95 100 true)) ∧
  from_measure 95 100 true = Throttling ∧ from_measure 94 100 true = DrainStalled.
Proof.
  assert (95 ≤ 99)%N as Hs by lia. assert (100 ≤ 100)%N as Hm by lia.
  split; [exact Hs|]. split; [exact Hm|].
  split; [apply (ladder_monotone 95 99 100 100 true false Hs Hm)|]. split; reflexivity.
Defined.

(** The throttle delay follows the ladder.  It lies between its floor and
    its ceiling, stands at the ceiling exactly on the top rung, leaves the floor
    only on the throttling rungs, and never shrinks as the measure grows. *)
Theorem throttle_delay_ladder (staged staged' max max' : N) (stalled : bool) :
  (staged ≤ staged')%N → (max' ≤ max)%N →
  let d := throttle_retry_delay_ms staged max in
  (THROTTLE_RETRY_MIN_MS ≤ d ≤ THROTTLE_RETRY_MAX_MS)%N ∧
  (d = THROTTLE_RETRY_MAX_MS ↔ from_measure staged max stalled = RefusingIngest) ∧
  ((THROTTLE_RETRY_MIN_MS < d)%N → (2 ≤ rung (from_measure staged max stalled))%N) ∧
  (d ≤ throttle_retry_delay_ms staged' max')%N.
Proof.
  intros Hs Hm d. unfold THROTTLE_RETRY_MIN_MS, THROTTLE_RETRY_MAX_MS.
  pose proof (throttle_delay_formula staged max) as Hd. fold d in Hd.
  rewrite (throttle_delay_formula staged' max').
  pose proof (from_measure_rung staged max stalled) as Hr.
  pose proof (permille_spec staged max 1000) as Hp.
  pose proof (permille_spec staged max 951) as Hp1.
  assert (rung (from_measure staged max stalled) = 3%N ↔ from_measure staged max stalled = RefusingIngest)
    as Htop by (destruct (from_measure staged max stalled); naive_solver).
  rewrite <-Htop. unfold rung_spec in Hr.
  destruct (N.eqb_spec max 0) as [->|H0]; simpl in Hd.
  { replace max' with 0%N by lia. simpl. lia. }
  assert (1000 ≤ u64_max)%N as Hu by (unfold u64_max; lia).
  specialize (Hp H0 Hu). specialize (Hp1 H0 ltac:(lia)).
  assert (permille staged max < 1000 → 29000 * (permille staged max - 950) / 50 < 29000)%N as Hlt.
  { intros H. apply N.Div0.div_lt_upper_bound. lia. }
  assert (1000 < d → 951 ≤ permille staged max)%N as Hfloor.
  { intros Hgt. destruct (N.le_gt_cases 951 (permille staged max)) as [|Hsm]; [done|exfalso].
    rewrite (proj2 (N.leb_gt _ _)) in Hd by lia.
    replace (permille staged max - 950)%N with 0%N in Hd by lia. rewrite N.mul_0_r in Hd.
    change (0 / 50)%N with 0%N in Hd. lia. }
  assert (max' ≠ 0 → permille staged max ≤ permille staged' max')%N as Hmono
    by (intros; by apply permille_mono).
  pose proof (delay_step_mono (permille staged max) (permille staged' max')) as Hstep.
  revert Hd Hlt Hstep. generalize (29000 * (permille staged max - 950) / 50)%N.
  generalize (29000 * (permille staged' max' - 950) / 50)%N. intros q' q Hd Hlt Hstep.
  destruct (N.eqb_spec max' 0) as [->|H0']; simpl;
    destruct (N.leb_spec 1000 (permille staged max)); try case_if; bool_tests; lia.
Qed.

Lemma throttle_delay_ladder_witness :
  (97 ≤ 98)%N ∧ (100 ≤ 100)%N ∧ throttle_retry_delay_ms 97 100 = 12600%N ∧
  (throttle_retry_delay_ms 97 100 ≤ throttle_retry_delay_ms 98 100)%N.
Proof.
  assert (97 ≤ 98)%N as Hs by lia. assert (100 ≤ 100)%N as Hm by lia.
  split; [exact Hs|]. split; [exact Hm|]. split; [vm_compute; reflexivity|].
  apply (throttle_delay_ladder 97 98 100 100 false Hs Hm).
Defined.

(** The query budget scales with the pressure.  It is at least its base and
    at most twice it (saturating), is the base below the disclosure rung and
    without capacity, is twice the base on the top rung, and never shrinks as
    the staged bytes grow. *)
Theorem query_budget_scaled (base staged staged' max : N) (stalled : bool) :
  is_u64 base → (staged ≤ staged')%N →
  let b := fill_scaled_budget base staged max in
  (base ≤ b ≤ N.min (QUERY_BUDGET_MAX_SCALE * base) u64_max)%N ∧
  (max = 0%N ∨ from_measure staged max stalled = Normal → b = base) ∧
  (max ≠ 0%N → from_measure staged max stalled = RefusingIngest →
     b = N.min (QUERY_BUDGET_MAX_SCALE * base) u64_max) ∧
  (b ≤ fill_scaled_budget base staged' max)%N.
Proof.
  intros Hb Hs b. subst b. rewrite !budget_formula by done. unfold QUERY_BUDGET_MAX_SCALE.
  unfold is_u64 in Hb. destruct (N.eqb_spec max 0) as [->|H0]; [simpl; lia|].
  destruct (budget_extra_bounds base (permille staged max)) as (Hle & Hlow & Htop).
  pose proof (budget_extra_mono base _ _ (permille_mono staged staged' max max H0 Hs (N.le_refl _))).
  pose proof (from_measure_rung staged max stalled) as Hr. unfold rung_spec in Hr.
  pose proof (permille_spec staged max 1000 H0 ltac:(unfold u64_max; lia)).
  pose proof (permille_spec staged max 801 H0 ltac:(unfold u64_max; lia)).
  split; [lia|]. split; [|split; [|lia]].
  - intros [?|E]; [done|]. rewrite E in Hr. simpl in Hr. rewrite Hlow by lia. lia.
  - intros _ E. rewrite E in Hr. simpl in Hr. rewrite Htop by lia. lia.
Qed.

Lemma query_budget_scaled_witness :
  is_u64 64 ∧ (90 ≤ 95)%N ∧ fill_scaled_budget 64 90 100 = 96%N ∧
  (fill_scaled_budget 64 90 100 ≤ fill_scaled_budget 64 95 100)%N.
Proof.
  assert (is_u64 64) as Hb by (unfold is_u64, u64_max; lia). assert (90 ≤ 95)%N as Hs by lia.
  split; [exact Hb|]. split; [exact Hs|]. split; [vm_compute; reflexivity|].
  apply (query_budget_scaled 64 90 95 100 false Hb Hs).
Defined.

(** What is retryable says so.  A refusal carries retry information exactly
    when its status code is 14, and the two refusals without it are those a
    retry cannot cure: malformed and over-cap payloads. *)
Theorem retry_info_table (c : OtlpErrorClass) :
  (carries_retry_info c = true ↔ code (grpc_code c) = 14%N) ∧
  (carries_retry_info c = false ↔ c = MalformedPermanent ∨ c = PayloadTooLarge).
Proof. destruct c; vm_compute; naive_solver. Qed.
