(* ===== verification/Coverage.v ===== *)
(** * Coalesced sequence-range sets and the coverage-completeness check

    Models [crates/duckspout-watermark/src/coverage.rs]: [SeqSet], a sorted
    vector of inclusive [u64] ranges, with [overlaps], [insert], [gaps] and
    [uncovered], and [unexcused_gaps], the check behind the watermark's
    advance rule.  The meaning of a [SeqSet] is the set of its members
    ([mem]); every operation is specified against that meaning, and the
    representation is shown to be canonical. *)

From S2P Require Import Prelude.

Abbreviation range := (N * N)%type (only parsing).

Module SeqSet.

(** The vector [SeqSet::ranges]. *)
Abbreviation t := (list (N * N)) (only parsing).

(** [SeqSet::overlaps] *)
Definition overlaps (s : t) (first last : N) : bool :=
  existsb (λ r, (first <=? r.2)%N && (r.1 <=? last)%N) s.

(** One iteration of the loop of [SeqSet::insert]. *)
Definition insert_step (st : range * t) (r : range) : range * t :=
  let '(merged, out) := st in
  if (r.1 <=? sat_succ merged.2)%N && (merged.1 <=? sat_succ r.2)%N
  then ((N.min merged.1 r.1, N.max merged.2 r.2), out)
  else (merged, out ++ [r]).

(** [SeqSet::insert] *)
Definition insert (s : t) (first last : N) : t :=
  let '(merged, out) := foldl insert_step ((first, last), []) s in
  sort_pairs (out ++ [merged]).

(** The loop of [SeqSet::gaps], from [next]. *)
Fixpoint gaps_from (next : N) (s : t) : list range :=
  match s with
  | [] => []
  | (a, b) :: s =>
      (if (next <? a)%N then [(next, a - 1)%N] else []) ++ gaps_from (sat_succ b) s
  end.

(** [SeqSet::gaps] *)
Definition gaps (s : t) : list range := gaps_from 1 s.

(** The loop of [SeqSet::uncovered], with its [break] and [continue], and the
    push after the loop. *)
Fixpoint uncovered_from (next last : N) (s : t) : list range :=
  match s with
  | [] => if (next <=? last)%N then [(next, last)] else []
  | (a, b) :: s =>
      if (last <? next)%N then
        if (next <=? last)%N then [(next, last)] else []
      else if (b <? next)%N then uncovered_from next last s
      else
        (if (next <? a)%N then [(next, N.min (a - 1) last)] else [])
          ++ uncovered_from (sat_succ b) last s
  end.

(** [SeqSet::uncovered] *)
Definition uncovered (s : t) (first last : N) : list range :=
  uncovered_from first last s.

(** ** Meaning and well-formedness *)

Definition in_range (x : N) (r : range) : Prop := (r.1 ≤ x ≤ r.2)%N.

Definition mem (x : N) (s : t) : Prop := ∃ r, r ∈ s ∧ in_range x r.

(** [r1] lies left of [r2], with at least one sequence number between. *)
Definition sep (r1 r2 : range) : Prop := (r1.2 + 1 < r2.1)%N.

Definition range_ok (r : range) : Prop := (1 ≤ r.1)%N ∧ (r.1 ≤ r.2)%N ∧ is_u64 r.2.

(** The invariant of the field [ranges]: sorted by start, pairwise disjoint
    and non-adjacent, every range valid, 1-based and of width 64. *)
Record wf (s : t) : Prop := {
  wf_ok : Forall range_ok s;
  wf_sorted : StronglySorted sep s;
}.

#[global] Instance in_range_dec x r : Decision (in_range x r).
Proof. unfold in_range. apply _. Defined.

#[global] Instance mem_dec x s : Decision (mem x s).
Proof.
  refine (cast_if (decide (Exists (in_range x) s)));
    unfold mem; rewrite Exists_exists in *; done.
Defined.

#[global] Instance range_ok_dec r : Decision (range_ok r).
Proof. unfold range_ok, is_u64. apply _. Defined.

#[global] Instance sep_dec : RelDecision sep.
Proof. unfold sep. intros ??. apply _. Defined.

#[global] Instance wf_dec s : Decision (wf s).
Proof.
  refine (cast_if (decide (Forall range_ok s ∧ StronglySorted sep s)));
    [destruct_and!; by constructor|intros []; tauto].
Defined.

Lemma wf_nil : wf [].
Proof. repeat constructor. Qed.

Lemma wf_cons r s :
  wf (r :: s) ↔ range_ok r ∧ (∀ r', r' ∈ s → sep r r') ∧ wf s.
Proof.
  split.
  - intros [Hok Hs]. apply Forall_cons in Hok as [??].
    apply StronglySorted_inv in Hs as [? HF]. rewrite Forall_forall in HF.
    split; [done|]. split; [done|]. by split.
  - intros (? & ? & [??]). split; constructor; auto. by apply Forall_forall.
Qed.

Lemma mem_nil x : ¬ mem x [].
Proof. intros (r & Hr & _). by apply elem_of_nil in Hr. Qed.

Lemma mem_cons x r s : mem x (r :: s) ↔ in_range x r ∨ mem x s.
Proof.
  unfold mem. setoid_rewrite elem_of_cons. naive_solver.
Qed.

Lemma mem_app x s1 s2 : mem x (s1 ++ s2) ↔ mem x s1 ∨ mem x s2.
Proof. unfold mem. setoid_rewrite elem_of_app. naive_solver. Qed.

Lemma mem_perm x s1 s2 : Permutation s1 s2 → mem x s1 ↔ mem x s2.
Proof. intros Hp. unfold mem. by setoid_rewrite Hp. Qed.

(** Every member of a well-formed tail lies beyond the head range. *)
Lemma wf_tail_beyond r s x : wf (r :: s) → mem x s → (r.2 + 1 < x)%N.
Proof.
  intros (_ & Hsep & _)%wf_cons (r' & Hr' & Hx).
  specialize (Hsep r' Hr'). unfold sep, in_range in *. lia.
Qed.

Lemma wf_mem_bounds s x : wf s → mem x s → (1 ≤ x)%N ∧ is_u64 x.
Proof.
  intros [Hok _] (r & Hr & Hx). rewrite Forall_forall in Hok.
  destruct (Hok r Hr) as (? & ? & ?). unfold in_range, is_u64 in *. lia.
Qed.

(** ** [insert] *)

(** Two ranges coalesce exactly when neither lies left of the other; the
    saturation of [saturating_add] never changes that. *)
Lemma coalesce_spec m r :
  range_ok m → range_ok r →
  (r.1 <=? sat_succ m.2)%N && (m.1 <=? sat_succ r.2)%N = true
    ↔ ¬ (sep m r ∨ sep r m).
Proof.
  unfold range_ok, sep, sat_succ, is_u64. intros (? & ? & ?) (? & ? & ?).
  rewrite andb_true_iff, !N.leb_le. lia.
Qed.

(** The state of [insert]'s loop after some ranges ([out]) with the ranges
    [rest] still to visit. *)
Record loop_inv (m : range) (out rest : t) : Prop := {
  li_merged : range_ok m;
  li_wf : wf (out ++ rest);
  li_apart : ∀ o, o ∈ out → sep m o ∨ sep o m;
}.

Lemma insert_step_inv m out r rest :
  loop_inv m out (r :: rest) →
  let '(m', out') := insert_step (m, out) r in
  loop_inv m' out' rest ∧
  ∀ x, (in_range x m' ∨ mem x out') ↔ (in_range x m ∨ mem x out ∨ in_range x r).
Proof.
  intros [Hm [Hok Hs] Hap]. simpl.
  pose proof Hok as [Hoko Hokr]%Forall_app.
  apply Forall_cons in Hokr as [Hr Hrest].
  destruct (_ && _)%bool eqn:E.
  - apply coalesce_spec in E; [|done..].
    assert (∀ o, o ∈ out → sep o r) as Hor
      by (intros o Ho; eapply StronglySorted_app_before; eauto).
    split; [split|].
    + unfold range_ok, is_u64 in *; simpl; lia.
    + split.
      * by apply Forall_app.
      * by eapply StronglySorted_app_remove.
    + intros o Ho. specialize (Hap o Ho). specialize (Hor o Ho).
      unfold sep, range_ok in *; simpl in *. rewrite Forall_forall in Hoko.
      specialize (Hoko o Ho). unfold range_ok in *. lia.
    + intros x. unfold in_range, range_ok, sep in *. simpl. naive_solver lia.
  - assert (sep m r ∨ sep r m) as Hsep.
    { apply not_true_iff_false in E. rewrite coalesce_spec in E by done.
      destruct (decide (sep m r ∨ sep r m)); tauto. }
    split; [split|].
    + done.
    + rewrite <-app_assoc. by split.
    + intros o [?| ->%list_elem_of_singleton]%elem_of_app; auto.
    + intros x. rewrite mem_app, mem_cons. pose proof (mem_nil x). tauto.
Qed.

Lemma insert_loop rest m out :
  loop_inv m out rest →
  let '(m', out') := foldl insert_step (m, out) rest in
  loop_inv m' out' [] ∧
  ∀ x, (in_range x m' ∨ mem x out') ↔ (in_range x m ∨ mem x out ∨ mem x rest).
Proof.
  revert m out. induction rest as [|r rest IH]; intros m out Hinv.
  - simpl. split; [done|]. intros x. pose proof (mem_nil x). tauto.
  - cbn [foldl]. pose proof (insert_step_inv _ _ _ _ Hinv) as Hstep.
    destruct (insert_step (m, out) r) as [m1 out1]. destruct Hstep as [Hinv1 Hx1].
    specialize (IH m1 out1 Hinv1). destruct (foldl _ _ _) as [m' out'].
    destruct IH as [Hinv' Hx']. split; [done|].
    intros x. rewrite Hx', mem_cons. specialize (Hx1 x). tauto.
Qed.

Lemma insert_sound s first last :
  wf s → range_ok (first, last) →
  wf (insert s first last) ∧
  ∀ x, mem x (insert s first last) ↔ mem x s ∨ (first ≤ x ≤ last)%N.
Proof.
  intros Hs Hr. unfold insert.
  pose proof (insert_loop s (first, last) []) as H.
  destruct (foldl insert_step _ _) as [m out].
  destruct H as [[Hm [Hok Hsrt] Hap] Hmem].
  { split; [done..|]. by intros o ?%elem_of_nil. }
  rewrite app_nil_r in *. split; [split|].
  - rewrite sort_pairs_perm, Forall_app, Forall_singleton. done.
  - eapply (pairwise_sorted sep pair_le range_ok); [| |apply sort_pairs_sorted|].
    + intros [a b] [c d]. unfold sep, pair_le, range_ok; simpl. lia.
    + rewrite sort_pairs_perm, Forall_app, Forall_singleton. done.
    + eapply pairwise_perm; [symmetry; apply sort_pairs_perm|].
      apply pairwise_snoc. split; [|by apply sorted_pairwise].
      intros y Hy. destruct (Hap y Hy); auto.
  - intros x. rewrite (mem_perm x _ _ (sort_pairs_perm _)), mem_app, mem_cons.
    specialize (Hmem x). pose proof (mem_nil x). unfold in_range in *; simpl in *. tauto.
Qed.

(** ** Canonicity: the vector is determined by its members *)

Lemma wf_head_le r s x : wf (r :: s) → mem x (r :: s) → (r.1 ≤ x)%N.
Proof.
  intros Hwf [Hx|Hx]%mem_cons; [by destruct Hx|].
  pose proof (wf_tail_beyond _ _ _ Hwf Hx).
  apply wf_cons in Hwf as ((? & ? & ?) & _). lia.
Qed.

Lemma mem_head r s x : (r.1 ≤ x ≤ r.2)%N → mem x (r :: s).
Proof. intros ?. apply mem_cons. by left. Qed.

(** One direction of the comparison of two heads. *)
Lemma head_incl r1 r2 s1 s2 :
  wf (r1 :: s1) → wf (r2 :: s2) → (∀ x, mem x (r1 :: s1) → mem x (r2 :: s2)) →
  (r2.1 ≤ r1.1)%N ∧ (r2.1 = r1.1 → r1.2 ≤ r2.2)%N.
Proof.
  intros H1 H2 Hx. pose proof H1 as ((? & ? & ?) & _)%wf_cons.
  split.
  - eapply wf_head_le, Hx; [done|]. apply mem_head. lia.
  - intros Heq. destruct (decide (r1.2 ≤ r2.2)%N); [done|]. exfalso.
    pose proof H2 as ((? & ? & ?) & _)%wf_cons.
    assert (mem (r2.2 + 1)%N (r2 :: s2)) as Hm by (apply Hx, mem_head; lia).
    apply mem_cons in Hm as [[? ?]|Hm]; [lia|].
    pose proof (wf_tail_beyond _ _ _ H2 Hm). lia.
Qed.

Lemma wf_nonempty r s : wf (r :: s) → mem r.1 (r :: s).
Proof. intros ((? & ? & ?) & _)%wf_cons. apply mem_head. lia. Qed.

Lemma canonical s1 s2 :
  wf s1 → wf s2 → (∀ x, mem x s1 ↔ mem x s2) → s1 = s2.
Proof.
  revert s2. induction s1 as [|r1 s1 IH]; intros [|r2 s2] H1 H2 Hx; [done| | |].
  - exfalso. eapply mem_nil, Hx, wf_nonempty, H2.
  - exfalso. eapply mem_nil, Hx, wf_nonempty, H1.
  - destruct (head_incl r1 r2 s1 s2) as [? Hle1]; [naive_solver..|].
    destruct (head_incl r2 r1 s2 s1) as [? Hle2]; [naive_solver..|].
    assert (r1 = r2) as <-.
    { apply injective_projections; [lia|]. apply N.le_antisymm; [apply Hle1|apply Hle2]; lia. }
    f_equal. apply IH.
    + by apply wf_cons in H1 as (_ & _ & ?).
    + by apply wf_cons in H2 as (_ & _ & ?).
    + intros x. specialize (Hx x). rewrite !mem_cons in Hx.
      split; intros Hm.
      * pose proof (wf_tail_beyond _ _ _ H1 Hm). unfold in_range in Hx. naive_solver lia.
      * pose proof (wf_tail_beyond _ _ _ H2 Hm). unfold in_range in Hx. naive_solver lia.
Qed.

(** ** [overlaps], [gaps] and [uncovered] *)

Lemma overlaps_spec s first last :
  wf s → (first ≤ last)%N →
  overlaps s first last = true ↔ ∃ x, (first ≤ x ≤ last)%N ∧ mem x s.
Proof.
  intros [Hok _] Hle. unfold overlaps, mem, in_range. rewrite existsb_exists.
  rewrite Forall_forall in Hok. split.
  - intros (r & Hr%list_elem_of_In & Ht). bool_tests. destruct (Hok r Hr) as (? & ? & ?).
    exists (N.max first r.1). split; [lia|]. exists r. split; [done|lia].
  - intros (x & ? & r & Hr & ?). exists r. split; [by apply list_elem_of_In|].
    rewrite andb_true_iff, !N.leb_le. lia.
Qed.

(** The rest of a set that starts after [b] starts after [sat_succ b]. *)
Lemma sat_succ_tail a b s r :
  wf ((a, b) :: s) → r ∈ s → sat_succ b = (b + 1)%N ∧ (b + 1 < r.1)%N.
Proof.
  intros (_ & Hsep & [Hok _])%wf_cons Hr. rewrite Forall_forall in Hok.
  specialize (Hsep r Hr). destruct (Hok r Hr) as (? & ? & ?).
  unfold sep, is_u64 in *; simpl in *. split; [apply sat_succ_small|]; lia.
Qed.

Lemma gaps_from_spec s next x :
  wf s → (∀ r, r ∈ s → next ≤ r.1)%N →
  mem x (gaps_from next s) ↔
    (next ≤ x)%N ∧ ¬ mem x s ∧ ∃ y, mem y s ∧ (x < y)%N.
Proof.
  revert next. induction s as [|[a b] s IH]; intros next Hwf Hge; simpl.
  { split; [by intros ?%mem_nil|]. intros (_ & _ & y & []%mem_nil & _). }
  pose proof Hwf as ((? & Hab & ?) & _ & Hwf')%wf_cons. simpl in *.
  assert (next ≤ a)%N by (apply (Hge (a, b)); left).
  rewrite mem_app, IH; [|done|].
  2:{ intros r Hr. destruct (sat_succ_tail _ _ _ _ Hwf Hr) as [-> ?]. lia. }
  assert (mem x (if (next <? a)%N then [(next, a - 1)%N] else []) ↔ (next ≤ x < a)%N) as ->.
  { case_if; rewrite ?mem_cons; unfold in_range; simpl; pose proof (mem_nil x); intuition lia. }
  setoid_rewrite mem_cons. unfold in_range; simpl.
  assert (∀ y, mem y s → sat_succ b = (b + 1)%N ∧ (b + 1 < y)%N) as Hs.
  { intros y (r & Hr & ?). destruct (sat_succ_tail _ _ _ _ Hwf Hr). unfold in_range in *. lia. }
  split.
  - intros [?|(Hn & Hx & y & Hy & ?)].
    + split; [lia|]. split; [intros [?|Hx]; [lia|destruct (Hs x Hx); lia]|].
      exists a. split; [left|]; lia.
    + destruct (Hs y Hy) as [E ?]. rewrite E in Hn.
      split; [lia|]. split; [intros [?|?]; [lia|done]|]. eauto.
  - intros (? & Hx & y & [?|Hy] & ?); [left; lia|].
    destruct (Hs y Hy) as [E ?]. destruct (decide (x < a)%N); [left; lia|right].
    rewrite E. split; [|split; [tauto|eauto]].
    destruct (decide (x ≤ b)%N); [|lia]. destruct Hx. left. lia.
Qed.

Lemma gaps_spec s x :
  wf s →
  mem x (gaps s) ↔ (1 ≤ x)%N ∧ ¬ mem x s ∧ ∃ y, mem y s ∧ (x < y)%N.
Proof.
  intros Hwf. apply gaps_from_spec; [done|]. intros r Hr.
  destruct Hwf as [Hok _]. rewrite Forall_forall in Hok. by destruct (Hok r Hr).
Qed.

(** The ranges [gaps] reports are valid and end below [u64::MAX]. *)
Lemma gaps_from_ok s next r :
  wf s → (1 ≤ next)%N → r ∈ gaps_from next s → range_ok r ∧ (r.2 < u64_max)%N.
Proof.
  revert next. induction s as [|[a b] s IH]; intros next Hwf Hn; simpl.
  { by intros ?%elem_of_nil. }
  pose proof Hwf as ((? & ? & ?) & _ & Hwf')%wf_cons. unfold is_u64 in *; simpl in *.
  intros [Hr|Hr]%elem_of_app.
  - case_if; [|by apply elem_of_nil in Hr]. apply list_elem_of_singleton in Hr as ->.
    unfold range_ok, is_u64; simpl. lia.
  - eapply IH; [done| |done]. unfold sat_succ, u64_max in *. lia.
Qed.

Lemma gaps_ok s r : wf s → r ∈ gaps s → range_ok r ∧ (r.2 < u64_max)%N.
Proof. intros. eapply gaps_from_ok; eauto; lia. Qed.

Lemma uncovered_from_spec s next last x :
  wf s → (last < u64_max)%N →
  mem x (uncovered_from next last s) ↔ (next ≤ x ≤ last)%N ∧ ¬ mem x s.
Proof.
  revert next. induction s as [|[a b] s IH]; intros next Hwf Hl; simpl.
  { pose proof (mem_nil x). case_if; rewrite ?mem_cons; unfold in_range; simpl; intuition lia. }
  pose proof Hwf as ((? & Hab & ?) & _ & Hwf')%wf_cons. simpl in *.
  pose proof (wf_tail_beyond (a, b) s x Hwf) as Htl. simpl in Htl.
  rewrite mem_cons. unfold in_range; simpl.
  destruct (last <? next)%N eqn:E1; bool_tests.
  { case_if; [lia|]. pose proof (mem_nil x). intuition lia. }
  destruct (b <? next)%N eqn:E2; bool_tests.
  { rewrite IH by done. intuition lia. }
  rewrite mem_app, IH by done.
  assert (mem x (if (next <? a)%N then [(next, N.min (a - 1) last)] else [])
    ↔ (next ≤ x < a)%N ∧ (x ≤ last)%N) as ->.
  { case_if; rewrite ?mem_cons; unfold in_range; simpl; pose proof (mem_nil x); intuition lia. }
  destruct (decide (mem x s)) as [Hm|Hm]; [specialize (Htl Hm); unfold sat_succ; intuition lia|].
  unfold sat_succ, is_u64 in *.
  destruct (decide (x < a)%N), (decide (x ≤ b)%N); intuition lia.
Qed.

Lemma uncovered_from_nonempty s next last r :
  r ∈ uncovered_from next last s → (r.1 ≤ r.2)%N.
Proof.
  assert (∀ n r, r ∈ (if (n <=? last)%N then [(n, last)] else []) → (r.1 ≤ r.2)%N) as Hend.
  { intros n r'. case_if; [intros ->%list_elem_of_singleton; simpl; lia|by intros ?%elem_of_nil]. }
  revert next. induction s as [|[a b] s IH]; intros next; simpl; [by apply Hend|].
  destruct (last <? next)%N eqn:?; [by apply Hend|].
  destruct (b <? next)%N eqn:?; bool_tests; [by apply IH|].
  intros [Hr|Hr%IH]%elem_of_app; [|done].
  case_if; [|by apply elem_of_nil in Hr].
  apply list_elem_of_singleton in Hr as ->; simpl. lia.
Qed.

Lemma uncovered_spec s first last x :
  wf s → (last < u64_max)%N →
  mem x (uncovered s first last) ↔ (first ≤ x ≤ last)%N ∧ ¬ mem x s.
Proof. apply uncovered_from_spec. Qed.

(** At the last [u64] the saturating step of [uncovered] does not leave a range
    that ends there: a covered number is reported as uncovered. *)
Lemma uncovered_saturates :
  mem u64_max [(1, u64_max)%N] ∧
  uncovered [(1, u64_max)%N] u64_max u64_max = [(u64_max, u64_max)].
Proof.
  split; [|by vm_compute]. exists (1, u64_max)%N. split; [by left|].
  unfold in_range, u64_max. simpl. lia.
Qed.

End SeqSet.

(** ** Per-origin coverage *)

(** [OriginCoverage], a [BTreeMap<NodeId, SeqSet>]. *)
Abbreviation OriginCoverage := (gmap string (list (N * N))) (only parsing).

(** [cov.entry(origin).or_default().insert(first, last)] *)
Definition cov_insert (cov : OriginCoverage) (origin : string) (first last : N) :
    OriginCoverage :=
  <[origin := SeqSet.insert (default [] (cov !! origin)) first last]> cov.

(** [unexcused_gaps] *)
Definition unexcused_gaps (coverage losses : OriginCoverage) : list (string * N * N) :=
  btree_entries coverage ≫= λ '(origin, set),
    SeqSet.gaps set ≫= λ '(first, last),
      match losses !! origin with
      | Some excuse => (λ '(a, b), (origin, a, b)) <$> SeqSet.uncovered excuse first last
      | None => [(origin, first, last)]
      end.

(** Sequence number [x] of [origin] is covered. *)
Definition cov_mem (cov : OriginCoverage) (origin : string) (x : N) : Prop :=
  SeqSet.mem x (default [] (cov !! origin)).

(** Every entry is a non-empty well-formed set ([or_default] is always
    followed by an insertion). *)
Definition cov_wf (cov : OriginCoverage) : Prop :=
  map_Forall (λ _ s, SeqSet.wf s ∧ s ≠ []) cov.

(** Completeness of a coverage up to its per-origin maximum, the losses
    excusing. *)
Definition complete (cov losses : OriginCoverage) : Prop :=
  ∀ o x y, cov_mem cov o y → (1 ≤ x ≤ y)%N → cov_mem cov o x ∨ cov_mem losses o x.

(** A sequence number lies in a reported gap. *)
Definition gap_mem (gs : list (string * N * N)) (o : string) (x : N) : Prop :=
  ∃ a b, (o, a, b) ∈ gs ∧ (a ≤ x ≤ b)%N.

Lemma cov_wf_empty : cov_wf ∅.
Proof. apply map_Forall_empty. Qed.

Lemma cov_wf_default cov o : cov_wf cov → SeqSet.wf (default [] (cov !! o)).
Proof.
  intros Hwf. destruct (cov !! o) as [s|] eqn:E; simpl; [|apply SeqSet.wf_nil].
  by destruct (Hwf _ _ E).
Qed.

Lemma cov_mem_empty o x : ¬ cov_mem ∅ o x.
Proof. unfold cov_mem. rewrite lookup_empty. apply SeqSet.mem_nil. Qed.

Lemma insert_nonempty s first last : SeqSet.insert s first last ≠ [].
Proof.
  unfold SeqSet.insert. destruct (foldl _ _ _) as [m out]. intros E.
  pose proof (sort_pairs_perm (out ++ [m])) as Hp. rewrite E in Hp.
  apply Permutation_nil in Hp. by destruct out.
Qed.

Lemma cov_insert_wf cov o first last :
  cov_wf cov → SeqSet.range_ok (first, last) → cov_wf (cov_insert cov o first last).
Proof.
  intros Hwf Hr. apply map_Forall_insert_2; [|done].
  split; [|apply insert_nonempty]. by apply SeqSet.insert_sound, Hr; apply cov_wf_default.
Qed.

Lemma cov_mem_insert cov o first last o' x :
  cov_wf cov → SeqSet.range_ok (first, last) →
  cov_mem (cov_insert cov o first last) o' x ↔
    cov_mem cov o' x ∨ (o' = o ∧ (first ≤ x ≤ last)%N).
Proof.
  intros Hwf Hr. unfold cov_mem, cov_insert.
  destruct (decide (o = o')) as [<-|Hne].
  - rewrite lookup_insert_eq; simpl.
    rewrite (proj2 (SeqSet.insert_sound _ _ _ (cov_wf_default _ o Hwf) Hr)). naive_solver.
  - rewrite lookup_insert_ne by done. naive_solver.
Qed.

(** Coverages with the same members are the same map. *)
Lemma cov_ext cov1 cov2 :
  cov_wf cov1 → cov_wf cov2 → (∀ o x, cov_mem cov1 o x ↔ cov_mem cov2 o x) →
  cov1 = cov2.
Proof.
  intros H1 H2 Hx. apply map_eq. intros o.
  assert (default [] (cov1 !! o) = default [] (cov2 !! o)) as E.
  { apply SeqSet.canonical; [by apply cov_wf_default..|]. intros x. apply (Hx o x). }
  destruct (cov1 !! o) as [s1|] eqn:E1, (cov2 !! o) as [s2|] eqn:E2; simpl in E; subst; auto.
  - by destruct (H1 _ _ E1).
  - by destruct (H2 _ _ E2).
Qed.

(** The gaps reported for one range of one origin. *)
Lemma gap_of_range losses o first last o' a b x :
  cov_wf losses → (last < u64_max)%N → (a ≤ x ≤ b)%N →
  (o', a, b) ∈ match losses !! o with
               | Some excuse => (λ '(a, b), (o, a, b)) <$> SeqSet.uncovered excuse first last
               | None => [(o, first, last)]
               end →
  o' = o ∧ (first ≤ x ≤ last)%N ∧ ¬ cov_mem losses o x.
Proof.
  intros Hwf Hl Hx. unfold cov_mem.
  pose proof (cov_wf_default _ o Hwf) as Hs.
  destruct (losses !! o) as [excuse|]; simpl in *.
  - intros ([a' b'] & Heq & Hin)%list_elem_of_fmap. simplify_eq.
    split; [done|]. rewrite <-(SeqSet.uncovered_spec excuse first last x Hs Hl).
    eexists. split; [exact Hin|]. done.
  - intros [= -> -> ->]%list_elem_of_singleton. split; [done|]. split; [done|].
    apply SeqSet.mem_nil.
Qed.

Lemma gap_of_range_complete losses o first last x :
  cov_wf losses → (last < u64_max)%N → (first ≤ x ≤ last)%N → ¬ cov_mem losses o x →
  gap_mem match losses !! o with
          | Some excuse => (λ '(a, b), (o, a, b)) <$> SeqSet.uncovered excuse first last
          | None => [(o, first, last)]
          end o x.
Proof.
  intros Hwf Hl Hx. unfold cov_mem, gap_mem.
  pose proof (cov_wf_default _ o Hwf) as Hs.
  destruct (losses !! o) as [excuse|]; simpl in *.
  - intros Hn. destruct (proj2 (SeqSet.uncovered_spec excuse first last x Hs Hl)) as ([a b] & Hin & ?);
      [done|]. exists a, b. split; [|done]. apply list_elem_of_fmap. by exists (a, b).
  - intros _. exists first, last. split; [by apply list_elem_of_singleton|done].
Qed.

(** [unexcused_gaps] reports exactly the missing sequence numbers below an
    origin's maximum that no loss row excuses. *)
Lemma unexcused_gaps_mem cov losses o x :
  cov_wf cov → cov_wf losses →
  gap_mem (unexcused_gaps cov losses) o x ↔
    (1 ≤ x)%N ∧ ¬ cov_mem cov o x ∧ (∃ y, cov_mem cov o y ∧ (x < y)%N)
      ∧ ¬ cov_mem losses o x.
Proof.
  intros Hc Hl. split.
  - intros (a & b & Hin & Hx). unfold unexcused_gaps in Hin.
    apply list_elem_of_bind in Hin as ([o' s] & Hin & Hos%elem_of_btree_entries).
    apply list_elem_of_bind in Hin as ([f l] & Hin & Hfl).
    destruct (Hc _ _ Hos) as [Hs _].
    destruct (SeqSet.gaps_ok _ _ Hs Hfl) as [_ Hlm].
    destruct (gap_of_range _ _ _ _ _ _ _ _ Hl Hlm Hx Hin) as (-> & Hxr & Hnl).
    destruct (proj1 (SeqSet.gaps_spec s x Hs)) as (? & ? & ?); [by exists (f, l)|].
    unfold cov_mem at 1 2. rewrite Hos; simpl. tauto.
  - intros (Hx & Hn & (y & Hy & Hxy) & Hnl). unfold cov_mem in Hn, Hy.
    destruct (cov !! o) as [s|] eqn:Hos; simpl in *; [|by apply SeqSet.mem_nil in Hy].
    destruct (Hc _ _ Hos) as [Hs _].
    assert (SeqSet.mem x (SeqSet.gaps s)) as ([f l] & Hfl & Hxr).
    { apply SeqSet.gaps_spec; eauto. }
    destruct (SeqSet.gaps_ok _ _ Hs Hfl) as [_ Hlm].
    destruct (gap_of_range_complete losses o f l x Hl Hlm Hxr Hnl) as (a & b & Hin & Hab).
    exists a, b. split; [|done]. unfold unexcused_gaps.
    apply list_elem_of_bind. exists (o, s). split; [|by apply elem_of_btree_entries].
    apply list_elem_of_bind. by exists (f, l).
Qed.

(** No reported gap is empty. *)
Lemma unexcused_gaps_nonempty cov losses o a b :
  cov_wf cov → (o, a, b) ∈ unexcused_gaps cov losses → (a ≤ b)%N.
Proof.
  intros Hc Hin. unfold unexcused_gaps in Hin.
  apply list_elem_of_bind in Hin as ([o' s] & Hin & Hos%elem_of_btree_entries).
  apply list_elem_of_bind in Hin as ([f l] & Hin & Hfl).
  destruct (losses !! o').
  - apply list_elem_of_fmap in Hin as ([a' b'] & Heq & Hin). simplify_eq.
    exact (SeqSet.uncovered_from_nonempty _ _ _ _ Hin).
  - apply list_elem_of_singleton in Hin as [= -> -> ->].
    destruct (Hc _ _ Hos) as [Hs _]. by destruct (SeqSet.gaps_ok _ _ Hs Hfl) as [(? & ? & ?) _].
Qed.

(** The test of the advance rule: no unexcused gap, iff the coverage is
    complete up to losses. *)
Lemma unexcused_gaps_nil cov losses :
  cov_wf cov → cov_wf losses → unexcused_gaps cov losses = [] ↔ complete cov losses.
Proof.
  intros Hc Hl. split.
  - intros E o x y Hy Hxy.
    destruct (decide (SeqSet.mem x (default [] (cov !! o)))) as [|Hn]; [by left|].
    destruct (decide (SeqSet.mem x (default [] (losses !! o)))) as [|Hnl]; [by right|].
    exfalso. assert (gap_mem (unexcused_gaps cov losses) o x) as (a & b & Hin & _).
    { apply unexcused_gaps_mem; [done..|]. split; [lia|]. split; [done|].
      split; [|done]. exists y. split; [done|].
      destruct (decide (x = y)) as [->|]; [done|lia]. }
    rewrite E in Hin. by apply elem_of_nil in Hin.
  - intros Hcomp. destruct (unexcused_gaps cov losses) as [|[[o a] b] gs] eqn:E; [done|].
    exfalso. assert ((o, a, b) ∈ unexcused_gaps cov losses) as Hin by (rewrite E; left).
    pose proof (unexcused_gaps_nonempty _ _ _ _ _ Hc Hin).
    assert (gap_mem (unexcused_gaps cov losses) o a) as Hg by (exists a, b; split; [done|lia]).
    apply unexcused_gaps_mem in Hg as (? & ? & (y & Hy & ?) & ?); [|done..].
    destruct (Hcomp o a y Hy); [lia|done..].
Qed.

(** Recording further losses never uncovers a complete coverage. *)
Lemma complete_losses_mono cov l1 l2 :
  (∀ o x, cov_mem l1 o x → cov_mem l2 o x) → complete cov l1 → complete cov l2.
Proof. intros Hsub Hc o x y Hy Hxy. destruct (Hc o x y Hy Hxy); auto. Qed.
