(* ===== verification/Ledger.v ===== *)
(** * The watermark ledger

    Models [crates/duckspout-watermark/src/ledger.rs]: the per-partition state
    with its cached advance cursor, the advance rule [extend], and the ledger's
    operations.  A mutating method returns its [Result] and the ledger after
    the call; the ledger is a map from partitions to states. *)

From S2P Require Import Prelude Types Coverage.

(** [AdvanceError] *)
Inductive AdvanceError :=
| DatasetMismatch (partition : PartitionId) (recorded got : DatasetId)
| WindowNotNext (partition : PartitionId) (expected got : WindowId)
| InvalidSeqRange (origin : NodeId) (first_seq last_seq : N)
| InvalidEventTimeRange (min_ms max_ms : Z)
| CoverageOverlap (origin : NodeId) (first_seq last_seq : N).

(** [WindowRecord] *)
Record WindowRecord := {
  w_origin_coverage : list OriginSeqRange;
  w_event_time_max_ms : Z;
  w_dedup_removed : N;
}.

(** [PartitionState] *)
Record PartitionState := {
  dataset : option DatasetId;
  windows : gmap N WindowRecord;
  committed : OriginCoverage;
  losses : OriginCoverage;
  done_cov : OriginCoverage;
  done_through : option N;
  complete_through_ms : option Z;
}.

#[global] Instance AdvanceError_eq_dec : EqDecision AdvanceError.
Proof. solve_decision. Defined.
#[global] Instance WindowRecord_eq_dec : EqDecision WindowRecord.
Proof. solve_decision. Defined.
#[global] Instance PartitionState_eq_dec : EqDecision PartitionState.
Proof. solve_decision. Defined.

(** [PartitionState::default] *)
Definition PartitionState_default : PartitionState := {|
  dataset := None; windows := ∅; committed := ∅; losses := ∅; done_cov := ∅;
  done_through := None; complete_through_ms := None |}.

(** [PartitionState::next_window_id] *)
Definition next_window_id (st : PartitionState) : N :=
  match last_key (windows st) with None => 0 | Some id => u64_succ id end.

(** The inner [for] loop of [extend]: fold one window's ranges into [cov]. *)
Definition add_coverage (cov : OriginCoverage) (rs : list OriginSeqRange) : OriginCoverage :=
  foldl (λ c r, cov_insert c (origin r) (first_seq r) (last_seq r)) cov rs.

(** [event_max.map_or(e, |current| current.max(e))], wrapped in [Some]. *)
Definition raise_max (acc : option Z) (e : Z) : option Z :=
  Some (match acc with None => e | Some current => Z.max current e end).

Definition is_empty {A} (l : list A) : bool := match l with [] => true | _ => false end.

(** The [while let] loop of [PartitionState::extend]. *)
Fixpoint extend_loop (fuel : nat) (st : PartitionState) (cov : OriginCoverage)
    (event_max : option Z) (next : N) : PartitionState :=
  match fuel with
  | O => st
  | S fuel =>
      match windows st !! next with
      | None => st
      | Some record =>
          let cov := add_coverage cov (w_origin_coverage record) in
          let event_max := raise_max event_max (w_event_time_max_ms record) in
          let st :=
            if is_empty (unexcused_gaps cov (losses st)) then
              {| dataset := dataset st; windows := windows st; committed := committed st;
                 losses := losses st; done_cov := cov; done_through := Some next;
                 complete_through_ms := event_max |}
            else st in
          extend_loop fuel st cov event_max (u64_succ next)
      end
  end.

(** [PartitionState::extend]: the loop visits each recorded window at most
    once, so the number of windows bounds its iterations. *)
Definition extend (st : PartitionState) : PartitionState :=
  extend_loop (S (size (windows st))) st (done_cov st) (complete_through_ms st)
    (match done_through st with None => 0 | Some done => u64_succ done end).

(** [PartitionState::watermark_row] *)
Definition watermark_row (st : PartitionState) (partition : PartitionId) :
    option WatermarkRow :=
  (λ ms, {| wr_partition := partition; wr_complete_through_ms := ms |})
    <$> complete_through_ms st.

(** [WatermarkLedger]: its field [partitions]. *)
Abbreviation WatermarkLedger := (gmap string PartitionState) (only parsing).

(** [WatermarkLedger::new] *)
Definition new_ledger : WatermarkLedger := ∅.

(** The validation loop of [record_commit]: [probe] starts empty and holds,
    per origin touched, the committed coverage plus the manifest's earlier
    ranges. *)
Fixpoint probe_ranges (known probe : OriginCoverage) (rs : list OriginSeqRange) :
    result OriginCoverage AdvanceError :=
  match rs with
  | [] => Ok probe
  | r :: rs =>
      if (first_seq r =? 0)%N || (last_seq r <? first_seq r)%N then
        Err (InvalidSeqRange (origin r) (first_seq r) (last_seq r))
      else
        let set :=
          match probe !! origin r with
          | Some set => set
          | None => default [] (known !! origin r)
          end in
        if SeqSet.overlaps set (first_seq r) (last_seq r) then
          Err (CoverageOverlap (origin r) (first_seq r) (last_seq r))
        else
          probe_ranges known
            (<[origin r := SeqSet.insert set (first_seq r) (last_seq r)]> probe) rs
  end.

Definition record_of (m : WindowManifest) : WindowRecord := {|
  w_origin_coverage := m_origin_coverage m;
  w_event_time_max_ms := m_event_time_max_ms m;
  w_dedup_removed := m_dedup_removed m |}.

(** The mutations of [record_commit], once every check has passed. *)
Definition commit_state (st : PartitionState) (m : WindowManifest) (probe : OriginCoverage) :
    PartitionState :=
  extend {|
    dataset := Some (default (m_dataset m) (dataset st));
    windows := <[m_window_id m := record_of m]> (windows st);
    committed := probe ∪ committed st;
    losses := losses st;
    done_cov := done_cov st;
    done_through := done_through st;
    complete_through_ms := complete_through_ms st |}.

(** The dataset guard of [record_commit]: the recorded dataset, when it is not
    the manifest's. *)
Definition dataset_conflict (state : option PartitionState) (m : WindowManifest) :
    option DatasetId :=
  match state ≫= dataset with
  | Some recorded => if bool_decide (recorded = m_dataset m) then None else Some recorded
  | None => None
  end.

(** [WatermarkLedger::record_commit] *)
Definition record_commit (l : WatermarkLedger) (m : WindowManifest) :
    result (option WatermarkRow) AdvanceError * WatermarkLedger :=
  if (m_event_time_max_ms m <? m_event_time_min_ms m)%Z then
    (Err (InvalidEventTimeRange (m_event_time_min_ms m) (m_event_time_max_ms m)), l)
  else
    let state := l !! m_partition m in
    match dataset_conflict state m with
    | Some recorded => (Err (DatasetMismatch (m_partition m) recorded (m_dataset m)), l)
    | None =>
        let expected := match state with None => 0%N | Some st => next_window_id st end in
        if negb (m_window_id m =? expected)%N then
          (Err (WindowNotNext (m_partition m) expected (m_window_id m)), l)
        else
          let known := match state with None => ∅ | Some st => committed st end in
          match probe_ranges known ∅ (m_origin_coverage m) with
          | Err e => (Err e, l)
          | Ok probe =>
              let st := commit_state (default PartitionState_default state) m probe in
              (Ok (watermark_row st (m_partition m)), <[m_partition m := st]> l)
          end
    end.

(** [WatermarkLedger::advance_for]: [record_commit] on a clone. *)
Definition advance_for (l : WatermarkLedger) (m : WindowManifest) :
    result (option WatermarkRow) AdvanceError :=
  fst (record_commit l m).

(** The mutations of [record_loss]. *)
Definition loss_state (st : PartitionState) (r : LostRange) : PartitionState :=
  extend {|
    dataset := dataset st;
    windows := windows st;
    committed := committed st;
    losses := cov_insert (losses st) (lr_origin r) (lr_first_seq r) (lr_last_seq r);
    done_cov := done_cov st;
    done_through := done_through st;
    complete_through_ms := complete_through_ms st |}.

(** [WatermarkLedger::record_loss] *)
Definition record_loss (l : WatermarkLedger) (row : LossLedgerRow) :
    result (option WatermarkRow) AdvanceError * WatermarkLedger :=
  let r := ll_range row in
  if (lr_first_seq r =? 0)%N || (lr_last_seq r <? lr_first_seq r)%N then
    (Err (InvalidSeqRange (lr_origin r) (lr_first_seq r) (lr_last_seq r)), l)
  else
    let st := loss_state (default PartitionState_default (l !! lr_partition r)) r in
    (Ok (watermark_row st (lr_partition r)), <[lr_partition r := st]> l).

(** ** The queries *)

(** [WatermarkLedger::complete_through_ms] *)
Definition ledger_complete_through (l : WatermarkLedger) (p : PartitionId) : option Z :=
  l !! p ≫= complete_through_ms.

(** [WatermarkLedger::covers] *)
Definition covers (l : WatermarkLedger) (p : PartitionId) (instant_ms : Z) : bool :=
  match ledger_complete_through l p with
  | Some complete_through => (instant_ms <=? complete_through)%Z
  | None => false
  end.

(** [WatermarkLedger::advanced_through] *)
Definition advanced_through (l : WatermarkLedger) (p : PartitionId) : option WindowId :=
  l !! p ≫= done_through.

(** [WatermarkLedger::recorded_through] *)
Definition recorded_through (l : WatermarkLedger) (p : PartitionId) : option WindowId :=
  l !! p ≫= λ st, last_key (windows st).

(** [WatermarkLedger::next_window] *)
Definition next_window (l : WatermarkLedger) (p : PartitionId) : WindowId :=
  match l !! p with None => 0%N | Some st => next_window_id st end.

(** [WatermarkLedger::dataset] *)
Definition ledger_dataset (l : WatermarkLedger) (p : PartitionId) : option DatasetId :=
  l !! p ≫= dataset.

(** [WatermarkLedger::window_record] *)
Definition window_record (l : WatermarkLedger) (p : PartitionId) (w : WindowId) :
    option WindowRecord :=
  l !! p ≫= λ st, windows st !! w.

(** [WatermarkLedger::rows] *)
Definition rows (l : WatermarkLedger) : list WatermarkRow :=
  omap (λ '(p, st), watermark_row st p) (btree_entries l).

(** [WatermarkLedger::blocking_gaps] *)
Definition blocking_gaps (l : WatermarkLedger) (p : PartitionId) : list (NodeId * N * N) :=
  match l !! p with
  | Some st => unexcused_gaps (committed st) (losses st)
  | None => []
  end.
