(* ===== verification/LedgerSpec.v ===== *)
(** * The ledger's abstract specification

    What the watermark ledger promises, stated without its caches: a partition
    is the list of windows committed so far (in dense order) and the list of
    ranges declared lost, and the watermark is recomputed from them from
    scratch.  The lemmas here relate the coalesced sets, the incremental cursor
    and the [probe] of [Ledger] to these lists. *)

From S2P Require Import Prelude Types Coverage Ledger.

(** ** Coverage of windows and losses *)

Definition range_valid (r : OriginSeqRange) : Prop :=
  SeqSet.range_ok (first_seq r, last_seq r).

Definition in_osr (o : NodeId) (x : N) (r : OriginSeqRange) : Prop :=
  origin r = o ∧ (first_seq r ≤ x ≤ last_seq r)%N.

Definition lost_valid (r : LostRange) : Prop :=
  SeqSet.range_ok (lr_first_seq r, lr_last_seq r).

(** Every range of every window, in commit order. *)
Definition ranges_of (ws : list WindowRecord) : list OriginSeqRange :=
  ws ≫= w_origin_coverage.

(** Sequence number [x] of origin [o] is committed by one of the windows. *)
Definition covered (ws : list WindowRecord) (o : NodeId) (x : N) : Prop :=
  ∃ r, r ∈ ranges_of ws ∧ in_osr o x r.

(** Sequence number [x] of origin [o] is declared lost. *)
Definition lost (ls : list LostRange) (o : NodeId) (x : N) : Prop :=
  ∃ r, r ∈ ls ∧ lr_origin r = o ∧ (lr_first_seq r ≤ x ≤ lr_last_seq r)%N.

(** Up to its highest committed sequence number, every origin's sequence is
    committed or declared lost. *)
Definition gap_free (ws : list WindowRecord) (ls : list LostRange) : Prop :=
  ∀ o x y, covered ws o y → (1 ≤ x ≤ y)%N → covered ws o x ∨ lost ls o x.

Definition prefix_cov (ws : list WindowRecord) : OriginCoverage :=
  foldl (λ c w, add_coverage c (w_origin_coverage w)) ∅ ws.

Definition loss_cov (ls : list LostRange) : OriginCoverage :=
  foldl (λ c r, cov_insert c (lr_origin r) (lr_first_seq r) (lr_last_seq r)) ∅ ls.

Definition windows_valid (ws : list WindowRecord) : Prop :=
  Forall range_valid (ranges_of ws).

Lemma add_coverage_app c rs1 rs2 :
  add_coverage c (rs1 ++ rs2) = add_coverage (add_coverage c rs1) rs2.
Proof. apply foldl_app. Qed.

Lemma add_coverage_sound rs c :
  cov_wf c → Forall range_valid rs →
  cov_wf (add_coverage c rs) ∧
  ∀ o x, cov_mem (add_coverage c rs) o x ↔ cov_mem c o x ∨ ∃ r, r ∈ rs ∧ in_osr o x r.
Proof.
  revert c. induction rs as [|r rs IH]; intros c Hc Hv; cbn [add_coverage foldl].
  { split; [done|]. intros o x. setoid_rewrite elem_of_nil. naive_solver. }
  apply Forall_cons in Hv as [Hr Hv].
  destruct (IH (cov_insert c (origin r) (first_seq r) (last_seq r))) as [Hwf Hm];
    [by apply cov_insert_wf|done|].
  split; [done|]. intros o x. unfold add_coverage in Hm.
  rewrite Hm, cov_mem_insert by done.
  setoid_rewrite elem_of_cons. unfold in_osr. naive_solver.
Qed.

Lemma prefix_cov_ranges ws : prefix_cov ws = add_coverage ∅ (ranges_of ws).
Proof.
  unfold prefix_cov, ranges_of. generalize (∅ : OriginCoverage).
  induction ws as [|w ws IH]; intros c; [done|].
  rewrite bind_cons, add_coverage_app, <-IH. done.
Qed.

Lemma prefix_cov_wf ws : windows_valid ws → cov_wf (prefix_cov ws).
Proof.
  intros Hv. rewrite prefix_cov_ranges. apply add_coverage_sound; [apply cov_wf_empty|done].
Qed.

Lemma prefix_cov_mem ws o x :
  windows_valid ws → cov_mem (prefix_cov ws) o x ↔ covered ws o x.
Proof.
  intros Hv. rewrite prefix_cov_ranges.
  rewrite (proj2 (add_coverage_sound _ _ cov_wf_empty Hv)). unfold covered.
  pose proof (cov_mem_empty o x). naive_solver.
Qed.

Lemma loss_cov_snoc ls r :
  loss_cov (ls ++ [r]) =
  cov_insert (loss_cov ls) (lr_origin r) (lr_first_seq r) (lr_last_seq r).
Proof. unfold loss_cov. by rewrite foldl_app. Qed.

Lemma loss_cov_sound ls :
  Forall lost_valid ls →
  cov_wf (loss_cov ls) ∧ ∀ o x, cov_mem (loss_cov ls) o x ↔ lost ls o x.
Proof.
  induction ls as [|r ls IH] using rev_ind; intros Hv.
  { split; [apply cov_wf_empty|]. intros o x. unfold lost. setoid_rewrite elem_of_nil.
    pose proof (cov_mem_empty o x). naive_solver. }
  apply Forall_app in Hv as [Hv [Hr _]%Forall_cons]. destruct (IH Hv) as [Hwf Hm].
  rewrite loss_cov_snoc. split; [by apply cov_insert_wf|].
  intros o x. rewrite cov_mem_insert, Hm by done. unfold lost. split.
  - intros [(r' & ? & ?)|[-> ?]]; [exists r'|exists r]; (split; [|done]);
      apply elem_of_app; [by left|by right; left].
  - intros (r' & [?| ->%list_elem_of_singleton]%elem_of_app & Ho & ?);
      [left; by exists r'|by right].
Qed.

Lemma complete_gap_free ws ls :
  windows_valid ws → Forall lost_valid ls →
  complete (prefix_cov ws) (loss_cov ls) ↔ gap_free ws ls.
Proof.
  intros Hw Hl. unfold complete, gap_free.
  setoid_rewrite (λ o x, prefix_cov_mem ws o x Hw).
  by setoid_rewrite (λ o x, proj2 (loss_cov_sound ls Hl) o x).
Qed.

(** ** The watermark, from scratch *)

(** The test of the advance rule on a prefix of the windows. *)
Definition prefix_ok (ls : list LostRange) (ws : list WindowRecord) : bool :=
  is_empty (unexcused_gaps (prefix_cov ws) (loss_cov ls)).

(** The highest window index below [n] whose prefix passes the test. *)
Fixpoint best_upto (ls : list LostRange) (ws : list WindowRecord) (n : nat) : option nat :=
  match n with
  | O => None
  | S k => if prefix_ok ls (take (S k) ws) then Some k else best_upto ls ws k
  end.

Definition best (ls : list LostRange) (ws : list WindowRecord) : option nat :=
  best_upto ls ws (length ws).

Definition running_max (ws : list WindowRecord) : option Z :=
  foldl (λ acc w, raise_max acc (w_event_time_max_ms w)) None ws.

Definition cursor_cov (ws : list WindowRecord) (b : option nat) : OriginCoverage :=
  match b with None => ∅ | Some i => prefix_cov (take (S i) ws) end.

Definition cursor_max (ws : list WindowRecord) (b : option nat) : option Z :=
  b ≫= λ i, running_max (take (S i) ws).

Lemma is_empty_true {A} (l : list A) : is_empty l = true ↔ l = [].
Proof. by destruct l. Qed.

Lemma windows_valid_take n ws : windows_valid ws → windows_valid (take n ws).
Proof.
  unfold windows_valid, ranges_of. rewrite !Forall_bind. apply Forall_take.
Qed.

Lemma windows_valid_snoc ws w :
  windows_valid (ws ++ [w]) ↔ windows_valid ws ∧ Forall range_valid (w_origin_coverage w).
Proof.
  unfold windows_valid, ranges_of. rewrite bind_app, Forall_app, bind_singleton. done.
Qed.

Lemma prefix_ok_spec ls ws :
  windows_valid ws → Forall lost_valid ls → prefix_ok ls ws = true ↔ gap_free ws ls.
Proof.
  intros Hw Hl. unfold prefix_ok. rewrite is_empty_true, <-complete_gap_free by done.
  apply unexcused_gaps_nil; [by apply prefix_cov_wf|by apply loss_cov_sound].
Qed.

Lemma best_upto_Some ls ws n i :
  best_upto ls ws n = Some i ↔
    (i < n)%nat ∧ prefix_ok ls (take (S i) ws) = true ∧
    ∀ j, (i < j < n)%nat → prefix_ok ls (take (S j) ws) = false.
Proof.
  induction n as [|n IH]; [simpl; naive_solver lia|].
  cbn [best_upto]. destruct (prefix_ok ls (take (S n) ws)) eqn:E.
  - split.
    + intros [= <-]. split; [lia|]. split; [done|]. intros j ?. lia.
    + intros (? & ? & Hj). destruct (decide (i = n)) as [->|]; [done|].
      rewrite Hj in E by lia. done.
  - rewrite IH. split; intros (? & ? & Hj).
    + split; [lia|]. split; [done|]. intros j ?.
      destruct (decide (j = n)) as [->|]; [done|]. apply Hj. lia.
    + assert (i ≠ n) by congruence. split; [lia|]. split; [done|].
      intros j ?. apply Hj. lia.
Qed.

Lemma best_upto_None ls ws n :
  best_upto ls ws n = None ↔ ∀ j, (j < n)%nat → prefix_ok ls (take (S j) ws) = false.
Proof.
  induction n as [|n IH]; [simpl; naive_solver lia|].
  cbn [best_upto]. destruct (prefix_ok ls (take (S n) ws)) eqn:E.
  - split; [done|]. intros H. rewrite H in E by lia. done.
  - rewrite IH. split; intros Hj j ?; [|apply Hj; lia].
    destruct (decide (j = n)) as [->|]; [done|]. apply Hj. lia.
Qed.

(** ** The abstract ledger *)

(** A partition: its dataset, the committed windows in dense order, and the
    declared losses in the order they were recorded. *)
Record SpecPartition := {
  sp_dataset : option DatasetId;
  sp_windows : list WindowRecord;
  sp_losses : list LostRange;
}.

Definition sp_empty : SpecPartition :=
  {| sp_dataset := None; sp_windows := []; sp_losses := [] |}.

Abbreviation SpecLedger := (gmap string SpecPartition) (only parsing).

Definition spec_watermark (sp : SpecPartition) : option Z :=
  cursor_max (sp_windows sp) (best (sp_losses sp) (sp_windows sp)).

Definition spec_row (sp : SpecPartition) (p : PartitionId) : option WatermarkRow :=
  (λ ms, {| wr_partition := p; wr_complete_through_ms := ms |}) <$> spec_watermark sp.

(** Two ranges of one origin share a sequence number. *)
Definition intersects (r q : OriginSeqRange) : bool :=
  bool_decide (origin r = origin q) && (first_seq r <=? last_seq q)%N
    && (first_seq q <=? last_seq r)%N.

(** The first malformed or already-committed range of a manifest, given every
    range committed before it. *)
Fixpoint spec_check (taken rs : list OriginSeqRange) : option AdvanceError :=
  match rs with
  | [] => None
  | r :: rs =>
      if (first_seq r =? 0)%N || (last_seq r <? first_seq r)%N then
        Some (InvalidSeqRange (origin r) (first_seq r) (last_seq r))
      else if existsb (intersects r) taken then
        Some (CoverageOverlap (origin r) (first_seq r) (last_seq r))
      else spec_check (taken ++ [r]) rs
  end.

Definition spec_commit (a : SpecLedger) (m : WindowManifest) :
    result (option WatermarkRow) AdvanceError * SpecLedger :=
  let sp := default sp_empty (a !! m_partition m) in
  if (m_event_time_max_ms m <? m_event_time_min_ms m)%Z then
    (Err (InvalidEventTimeRange (m_event_time_min_ms m) (m_event_time_max_ms m)), a)
  else if bool_decide (sp_dataset sp = Some (default (m_dataset m) (sp_dataset sp))
                       ∧ default (m_dataset m) (sp_dataset sp) ≠ m_dataset m) then
    (Err (DatasetMismatch (m_partition m) (default (m_dataset m) (sp_dataset sp)) (m_dataset m)), a)
  else if negb (m_window_id m =? N.of_nat (length (sp_windows sp)))%N then
    (Err (WindowNotNext (m_partition m) (N.of_nat (length (sp_windows sp))) (m_window_id m)), a)
  else
    match spec_check (ranges_of (sp_windows sp)) (m_origin_coverage m) with
    | Some e => (Err e, a)
    | None =>
        let sp := {| sp_dataset := Some (default (m_dataset m) (sp_dataset sp));
                     sp_windows := sp_windows sp ++ [record_of m];
                     sp_losses := sp_losses sp |} in
        (Ok (spec_row sp (m_partition m)), <[m_partition m := sp]> a)
    end.

Definition spec_loss (a : SpecLedger) (row : LossLedgerRow) :
    result (option WatermarkRow) AdvanceError * SpecLedger :=
  let r := ll_range row in
  let sp := default sp_empty (a !! lr_partition r) in
  if (lr_first_seq r =? 0)%N || (lr_last_seq r <? lr_first_seq r)%N then
    (Err (InvalidSeqRange (lr_origin r) (lr_first_seq r) (lr_last_seq r)), a)
  else
    let sp := {| sp_dataset := sp_dataset sp; sp_windows := sp_windows sp;
                 sp_losses := sp_losses sp ++ [r] |} in
    (Ok (spec_row sp (lr_partition r)), <[lr_partition r := sp]> a).

(** ** The representation relation *)

(** The abstract state is one the operations can produce on typed inputs. *)
Record sp_ok (sp : SpecPartition) : Prop := {
  ok_windows : windows_valid (sp_windows sp);
  ok_losses : Forall lost_valid (sp_losses sp);
  ok_width : (N.of_nat (length (sp_windows sp)) ≤ u64_max)%N;
}.

Record rep (sp : SpecPartition) (st : PartitionState) : Prop := {
  rep_dataset : dataset st = sp_dataset sp;
  rep_windows : ∀ k, windows st !! k = sp_windows sp !! N.to_nat k;
  rep_committed : committed st = prefix_cov (sp_windows sp);
  rep_losses : losses st = loss_cov (sp_losses sp);
  rep_done_cov : done_cov st = cursor_cov (sp_windows sp) (best (sp_losses sp) (sp_windows sp));
  rep_done_through : done_through st = N.of_nat <$> best (sp_losses sp) (sp_windows sp);
  rep_complete : complete_through_ms st = spec_watermark sp;
}.

Definition refines (l : WatermarkLedger) (a : SpecLedger) : Prop :=
  ∀ p, match l !! p, a !! p with
       | Some st, Some sp => rep sp st ∧ sp_ok sp
       | None, None => True
       | _, _ => False
       end.

(** A concrete state is determined by the abstract one. *)
Lemma rep_unique sp st1 st2 : rep sp st1 → rep sp st2 → st1 = st2.
Proof.
  intros [] []. destruct st1, st2; simpl in *. f_equal; try congruence.
  apply map_eq. intros k. congruence.
Qed.

Lemma refines_functional l1 l2 a : refines l1 a → refines l2 a → l1 = l2.
Proof.
  intros H1 H2. apply map_eq. intros p. specialize (H1 p). specialize (H2 p).
  destruct (l1 !! p) as [st1|], (l2 !! p) as [st2|], (a !! p) as [sp|]; try done.
  destruct H1, H2. f_equal. by eapply rep_unique.
Qed.

Lemma sp_ok_empty : sp_ok sp_empty.
Proof. split; simpl; [constructor..|]. unfold u64_max. lia. Qed.

Lemma rep_empty : rep sp_empty PartitionState_default.
Proof. by split. Qed.

Lemma refines_new : refines new_ledger ∅.
Proof. intros p. unfold new_ledger. by rewrite !lookup_empty. Qed.

Lemma refines_default l a p :
  refines l a →
  rep (default sp_empty (a !! p)) (default PartitionState_default (l !! p))
  ∧ sp_ok (default sp_empty (a !! p)).
Proof.
  intros H. specialize (H p). destruct (l !! p), (a !! p); simpl; try done.
  split; [apply rep_empty|apply sp_ok_empty].
Qed.

Lemma refines_insert l a p sp st :
  refines l a → rep sp st → sp_ok sp → refines (<[p := st]> l) (<[p := sp]> a).
Proof.
  intros H Hr Hok q. destruct (decide (p = q)) as [<-|Hne].
  - by rewrite !lookup_insert_eq.
  - rewrite !lookup_insert_ne by done. apply H.
Qed.

Lemma rep_next_window sp st :
  rep sp st → sp_ok sp →
  next_window_id st = N.of_nat (length (sp_windows sp)).
Proof.
  intros Hr [_ _ Hw]. unfold next_window_id.
  destruct (last_key (windows st)) as [k|] eqn:E.
  - apply last_key_Some in E as [[w Hk] Hmax].
    rewrite (rep_windows _ _ Hr) in Hk. apply lookup_lt_Some in Hk as Hlt.
    assert (N.of_nat (length (sp_windows sp)) - 1 ≤ k)%N.
    { apply Hmax. rewrite (rep_windows _ _ Hr). apply lookup_lt_is_Some. lia. }
    rewrite u64_succ_small by lia. lia.
  - apply last_key_None in E. pose proof (rep_windows _ _ Hr 0) as H0.
    rewrite E, lookup_empty in H0. symmetry in H0.
    destruct (sp_windows sp); [done|]. done.
Qed.

(** ** The advance rule *)

(** The cached cursor of a state stands at [b]. *)
Record at_cursor (ws : list WindowRecord) (b : option nat) (st : PartitionState) : Prop := {
  ac_cov : done_cov st = cursor_cov ws b;
  ac_through : done_through st = N.of_nat <$> b;
  ac_max : complete_through_ms st = cursor_max ws b;
}.

(** [extend] touches nothing but the cursor. *)
Record same_base (st st' : PartitionState) : Prop := {
  sb_dataset : dataset st' = dataset st;
  sb_windows : windows st' = windows st;
  sb_committed : committed st' = committed st;
  sb_losses : losses st' = losses st;
}.

Lemma dense_size (m : gmap N WindowRecord) n :
  (∀ i, (i < n)%nat → is_Some (m !! N.of_nat i)) → (n ≤ size m)%nat.
Proof.
  revert m. induction n as [|n IH]; intros m Hm; [lia|].
  destruct (Hm n) as [w Hw]; [lia|].
  rewrite <-(insert_delete_id m (N.of_nat n) w Hw), map_size_insert_None
    by apply lookup_delete_eq.
  apply le_n_S, IH. intros i Hi. rewrite lookup_delete_ne by lia. apply Hm. lia.
Qed.

Lemma extend_loop_spec ws ls fuel n b st :
  (∀ k, windows st !! k = ws !! N.to_nat k) → losses st = loss_cov ls →
  (N.of_nat (length ws) ≤ u64_max)%N → (n ≤ length ws < n + fuel)%nat →
  best_upto ls ws n = b → at_cursor ws b st →
  let st' := extend_loop fuel st (prefix_cov (take n ws)) (running_max (take n ws))
               (N.of_nat n) in
  same_base st st' ∧ at_cursor ws (best ls ws) st'.
Proof.
  revert n b st. induction fuel as [|fuel IH]; intros n b st Hw Hl Hmax Hn Hb Hc; [lia|].
  cbn [extend_loop]. rewrite Hw, Nat2N.id. destruct (ws !! n) as [r|] eqn:E.
  2:{ apply lookup_ge_None in E. assert (n = length ws) as -> by lia.
      unfold best. rewrite Hb. done. }
  apply lookup_lt_Some in E as Hlt.
  pose proof (take_S_r ws n r E) as Htk.
  assert (add_coverage (prefix_cov (take n ws)) (w_origin_coverage r)
    = prefix_cov (take (S n) ws)) as ->.
  { rewrite Htk. unfold prefix_cov. by rewrite foldl_app. }
  assert (raise_max (running_max (take n ws)) (w_event_time_max_ms r)
    = running_max (take (S n) ws)) as ->.
  { rewrite Htk. unfold running_max. by rewrite foldl_app. }
  rewrite u64_succ_small, Hl by lia.
  replace (N.of_nat n + 1)%N with (N.of_nat (S n)) by lia.
  fold (prefix_ok ls (take (S n) ws)).
  assert (best_upto ls ws (S n)
    = if prefix_ok ls (take (S n) ws) then Some n else b) as HbS by (simpl; by rewrite Hb).
  destruct (prefix_ok ls (take (S n) ws)) eqn:Hok.
  - match goal with |- context [extend_loop fuel ?s _ _ _] => set (st1 := s) end.
    destruct (IH (S n) (Some n) st1) as [[? ? ? ?] Hac]; try done; try lia.
    split; [|exact Hac]. split; [done..|]. by rewrite Hl.
  - apply (IH (S n) b); try done; lia.
Qed.

Lemma extend_spec ws ls b st :
  (∀ k, windows st !! k = ws !! N.to_nat k) → losses st = loss_cov ls →
  (N.of_nat (length ws) ≤ u64_max)%N → at_cursor ws b st →
  match b with
  | None => True
  | Some i => (i < length ws)%nat ∧ prefix_ok ls (take (S i) ws) = true
  end →
  same_base st (extend st) ∧ at_cursor ws (best ls ws) (extend st).
Proof.
  intros Hw Hl Hmax Hc Hb. unfold extend.
  assert (length ws ≤ size (windows st))%nat.
  { apply dense_size. intros i Hi. rewrite Hw, Nat2N.id. by apply lookup_lt_is_Some. }
  pose proof Hc as [-> -> ->].
  destruct b as [i|]; cbn [cursor_cov cursor_max fmap option_fmap option_map mbind option_bind].
  - destruct Hb as [Hi Hok]. rewrite u64_succ_small by lia.
    replace (N.of_nat i + 1)%N with (N.of_nat (S i)) by lia.
    apply (extend_loop_spec ws ls _ (S i) (Some i) st); try done; [lia|].
    simpl. by rewrite Hok.
  - apply (extend_loop_spec ws ls _ 0 None st); try done. lia.
Qed.

(** ** The validation loop of [record_commit] *)

Lemma intersects_spec r q :
  intersects r q = true ↔
    origin r = origin q ∧ (first_seq r ≤ last_seq q)%N ∧ (first_seq q ≤ last_seq r)%N.
Proof.
  unfold intersects. rewrite !andb_true_iff, bool_decide_eq_true, !N.leb_le. tauto.
Qed.

(** The coalesced overlap test agrees with the pairwise one. *)
Lemma overlaps_intersects taken r :
  Forall range_valid taken → range_valid r →
  SeqSet.overlaps (default [] (add_coverage ∅ taken !! origin r)) (first_seq r) (last_seq r)
  = existsb (intersects r) taken.
Proof.
  intros Ht (Hr1 & Hr2 & Hr3). simpl in *.
  destruct (add_coverage_sound taken ∅ cov_wf_empty Ht) as [Hwf Hm].
  apply eq_iff_eq_true.
  rewrite SeqSet.overlaps_spec by (done || by apply cov_wf_default).
  rewrite existsb_exists. split.
  - intros (x & Hx & Hmem). fold (cov_mem (add_coverage ∅ taken) (origin r) x) in Hmem.
    apply Hm in Hmem as [[]%cov_mem_empty|(q & Hq & Ho & ?)].
    exists q. split; [by apply list_elem_of_In|]. apply intersects_spec.
    split; [done|]. lia.
  - intros (q & Hq%list_elem_of_In & (Ho & ? & ?)%intersects_spec).
    rewrite Forall_forall in Ht. destruct (Ht q Hq) as (? & ? & ?); simpl in *.
    exists (N.max (first_seq r) (first_seq q)). split; [lia|].
    apply (Hm (origin r)). right. exists q. split; [done|]. split; [done|]. lia.
Qed.

(** The probe holds, next to the known coverage, exactly the committed ranges
    and the ranges visited so far; the loop fails where the pairwise check
    fails, with the same error. *)
Lemma probe_ranges_spec known taken rs probe :
  Forall range_valid taken → Forall range_typed rs →
  probe ∪ known = add_coverage ∅ taken →
  match probe_ranges known probe rs, spec_check taken rs with
  | Ok probe', None =>
      probe' ∪ known = add_coverage ∅ (taken ++ rs) ∧ Forall range_valid rs
  | Err e, Some e' => e = e'
  | _, _ => False
  end.
Proof.
  revert taken probe. induction rs as [|r rs IH]; intros taken probe Ht Hty Hp; simpl.
  { by rewrite app_nil_r. }
  apply Forall_cons in Hty as [[_ Hr] Hty].
  destruct (_ || _)%bool eqn:Einv; [done|]. bool_tests.
  assert (range_valid r) as Hv by (split; simpl; [lia|split; [lia|done]]).
  assert (match probe !! origin r with Some set => set | None => default [] (known !! origin r) end
    = default [] (add_coverage ∅ taken !! origin r)) as ->.
  { rewrite <-Hp, lookup_union. by destruct (probe !! origin r), (known !! origin r). }
  rewrite overlaps_intersects by done. destruct (existsb _ _); [done|].
  set (set' := SeqSet.insert _ _ _).
  assert (<[origin r := set']> probe ∪ known = add_coverage ∅ (taken ++ [r])) as Hp'.
  { rewrite <-insert_union_l, Hp, add_coverage_app. done. }
  specialize (IH (taken ++ [r]) (<[origin r := set']> probe)).
  rewrite <-app_assoc in IH; simpl in IH.
  assert (Forall range_valid (taken ++ [r])) as Ht' by (apply Forall_app; auto).
  specialize (IH Ht' Hty Hp').
  destruct (probe_ranges known _ rs), (spec_check (taken ++ [r]) rs); try done.
  destruct IH. auto.
Qed.

(** ** The operations refine the specification *)

Lemma commit_state_rep sp st m probe :
  rep sp st → sp_ok sp → (m_window_id m < u64_max)%N →
  m_window_id m = N.of_nat (length (sp_windows sp)) →
  probe ∪ committed st = add_coverage ∅ (ranges_of (sp_windows sp) ++ m_origin_coverage m) →
  Forall range_valid (m_origin_coverage m) →
  let sp' := {| sp_dataset := Some (default (m_dataset m) (sp_dataset sp));
                sp_windows := sp_windows sp ++ [record_of m];
                sp_losses := sp_losses sp |} in
  rep sp' (commit_state st m probe) ∧ sp_ok sp'.
Proof.
  intros Hr Hok Hw Hid Hp Hv. pose proof Hok as [Hok1 Hok2 Hok3].
  set (ws' := sp_windows sp ++ [record_of m]).
  assert (length ws' = S (length (sp_windows sp))) as Hlen
    by (unfold ws'; rewrite length_app; simpl; lia).
  assert (windows_valid ws') as Hws' by by apply windows_valid_snoc.
  unfold commit_state. match goal with |- context [extend ?s] => set (st1 := s) end.
  assert (∀ k, windows st1 !! k = ws' !! N.to_nat k) as Hwin.
  { intros k. subst st1 ws'; simpl. destruct (decide (k = m_window_id m)) as [->|Hne].
    - rewrite lookup_insert_eq, Hid, Nat2N.id. by rewrite lookup_app_r, Nat.sub_diag by lia.
    - rewrite lookup_insert_ne, (rep_windows _ _ Hr) by done.
      destruct (decide (N.to_nat k < length (sp_windows sp))%nat).
      + by rewrite lookup_app_l.
      + rewrite !(proj2 (lookup_ge_None _ _)); [done|rewrite length_app; simpl; lia|lia]. }
  set (b := best (sp_losses sp) (sp_windows sp)).
  assert (match b with
          | None => True
          | Some i => (i < length (sp_windows sp))%nat ∧ prefix_ok (sp_losses sp) (take (S i) ws') = true
          end ∧ at_cursor ws' b st1) as [Hb Hac].
  { destruct Hr as [_ _ _ _ Hdc Hdt Hct]. unfold spec_watermark in Hct.
    fold b in Hdc, Hdt, Hct. destruct b as [i|] eqn:Eb.
    - apply best_upto_Some in Eb as (Hi & Hpo & _).
      assert (take (S i) ws' = take (S i) (sp_windows sp)) as Htk by (apply take_app_le; lia).
      rewrite Htk. split; [done|]. split; simpl; rewrite ?Htk; done.
    - split; [done|]. split; done. }
  destruct (extend_spec ws' (sp_losses sp) b st1) as [[? ? ? ?] [? ? ?]].
  1: done. 1: apply (rep_losses _ _ Hr). 1: lia. 1: done.
  1: { destruct b; [|done]. destruct Hb. split; [lia|done]. }
  split; [|by split; simpl; rewrite ?Hlen; auto; lia].
  split; simpl; try done.
  - rewrite sb_dataset0. simpl. by rewrite (rep_dataset _ _ Hr).
  - intros k. by rewrite sb_windows0.
  - rewrite sb_committed0; simpl. rewrite Hp, prefix_cov_ranges. unfold ws', ranges_of.
    by rewrite bind_app, bind_singleton.
  - rewrite sb_losses0; simpl. apply (rep_losses _ _ Hr).
Qed.

Lemma prefix_ok_losses_mono ls r ws :
  windows_valid ws → Forall lost_valid (ls ++ [r]) →
  prefix_ok ls ws = true → prefix_ok (ls ++ [r]) ws = true.
Proof.
  intros Hw Hl. assert (Forall lost_valid ls) as Hl0 by (by apply Forall_app in Hl as [? _]).
  rewrite !prefix_ok_spec by done. intros Hg o x y Hy Hxy.
  destruct (Hg o x y Hy Hxy) as [?|(q & ? & ?)]; [by left|right].
  exists q. split; [apply elem_of_app; by left|done].
Qed.

Lemma loss_state_rep sp st r :
  rep sp st → sp_ok sp → lost_valid r →
  let sp' := {| sp_dataset := sp_dataset sp; sp_windows := sp_windows sp;
                sp_losses := sp_losses sp ++ [r] |} in
  rep sp' (loss_state st r) ∧ sp_ok sp'.
Proof.
  intros Hr [Hok1 Hok2 Hok3] Hv.
  assert (Forall lost_valid (sp_losses sp ++ [r])) as Hls by (apply Forall_app; auto).
  unfold loss_state. match goal with |- context [extend ?s] => set (st1 := s) end.
  set (b := best (sp_losses sp) (sp_windows sp)).
  destruct (extend_spec (sp_windows sp) (sp_losses sp ++ [r]) b st1) as [[? ? ? ?] [? ? ?]].
  - apply (rep_windows _ _ Hr).
  - subst st1; simpl. by rewrite loss_cov_snoc, (rep_losses _ _ Hr).
  - done.
  - split; apply Hr.
  - destruct b as [i|] eqn:Eb; [|done]. apply best_upto_Some in Eb as (Hi & Hpo & _).
    split; [done|]. apply prefix_ok_losses_mono; [by apply windows_valid_take|done..].
  - split; [|by split].
    split; simpl; try done.
    + rewrite sb_dataset0. apply (rep_dataset _ _ Hr).
    + intros k. rewrite sb_windows0. apply (rep_windows _ _ Hr).
    + rewrite sb_committed0. apply (rep_committed _ _ Hr).
    + rewrite sb_losses0; simpl. by rewrite loss_cov_snoc, (rep_losses _ _ Hr).
Qed.

Lemma watermark_row_rep sp st p : rep sp st → watermark_row st p = spec_row sp p.
Proof. intros Hr. unfold watermark_row, spec_row. by rewrite (rep_complete _ _ Hr). Qed.

(** The dataset guard of the code and of the specification. *)
Lemma dataset_conflict_spec sp st state m :
  rep sp st → default PartitionState_default state = st →
  dataset_conflict state m =
  if bool_decide (sp_dataset sp = Some (default (m_dataset m) (sp_dataset sp))
                  ∧ default (m_dataset m) (sp_dataset sp) ≠ m_dataset m)
  then sp_dataset sp else None.
Proof.
  intros Hr Hst. unfold dataset_conflict.
  assert (state ≫= dataset = sp_dataset sp) as ->.
  { rewrite <-(rep_dataset _ _ Hr), <-Hst. by destruct state. }
  destruct (sp_dataset sp) as [d|]; simpl.
  - destruct (decide (d = m_dataset m)) as [->|Hne].
    + rewrite bool_decide_eq_true_2 by done. by rewrite bool_decide_eq_false_2 by naive_solver.
    + rewrite bool_decide_eq_false_2 by done. by rewrite bool_decide_eq_true_2.
  - by repeat case_match.
Qed.

Lemma commit_refines l a m :
  refines l a → manifest_typed m →
  fst (record_commit l m) = fst (spec_commit a m) ∧
  refines (snd (record_commit l m)) (snd (spec_commit a m)).
Proof.
  intros Hl [Hw Hty]. unfold record_commit, spec_commit.
  destruct (refines_default l a (m_partition m) Hl) as [Hr Hok].
  set (sp := default sp_empty (a !! m_partition m)) in *.
  destruct (_ <? _)%Z; [done|].
  rewrite (dataset_conflict_spec sp _ _ m Hr eq_refl).
  destruct (bool_decide (_ ∧ _)) eqn:Eds.
  { bool_tests. destruct Eds as [-> _]; simpl. done. }
  assert (match l !! m_partition m with None => 0%N | Some st => next_window_id st end
    = N.of_nat (length (sp_windows sp))) as ->.
  { rewrite <-(rep_next_window _ _ Hr Hok). by destruct (l !! m_partition m). }
  destruct (negb _) eqn:Eid; [done|]. bool_tests.
  assert (match l !! m_partition m with None => ∅ | Some st => committed st end
    = committed (default PartitionState_default (l !! m_partition m))) as ->
    by by destruct (l !! m_partition m).
  pose proof (probe_ranges_spec (committed (default PartitionState_default (l !! m_partition m)))
    (ranges_of (sp_windows sp)) (m_origin_coverage m) ∅ (ok_windows _ Hok) Hty) as Hp.
  rewrite (left_id_L ∅ (∪)), <-prefix_cov_ranges in Hp.
  specialize (Hp (rep_committed _ _ Hr)).
  destruct (probe_ranges _ ∅ _) as [probe|e], (spec_check _ _) as [e'|]; try done.
  2:{ by subst. }
  destruct Hp as [Hp Hv].
  destruct (commit_state_rep sp _ m probe Hr Hok Hw Eid Hp Hv) as [Hr' Hok']. simpl.
  split; [f_equal; by apply watermark_row_rep|]. by apply refines_insert.
Qed.

Lemma loss_refines l a row :
  refines l a → loss_typed row →
  fst (record_loss l row) = fst (spec_loss a row) ∧
  refines (snd (record_loss l row)) (snd (spec_loss a row)).
Proof.
  intros Hl Hty. unfold record_loss, spec_loss.
  destruct (refines_default l a (lr_partition (ll_range row)) Hl) as [Hr Hok].
  destruct (_ || _)%bool eqn:E; [done|]. bool_tests.
  destruct (loss_state_rep _ _ (ll_range row) Hr Hok) as [Hr' Hok'].
  { split; simpl; [lia|split; [lia|done]]. }
  simpl. split; [f_equal; by apply watermark_row_rep|]. by apply refines_insert.
Qed.
