(* ===== verification/LedgerHistory.v ===== *)
(** * Histories of ledger operations

    Sequences of [record_commit] and [record_loss] calls on one ledger, the
    state they reach in the code and in the specification, and what a fully
    accepted history looks like per partition. *)

From S2P Require Import Prelude Types Coverage Ledger LedgerSpec.

Inductive ledger_op :=
| OpCommit (m : WindowManifest)
| OpLoss (row : LossLedgerRow).

Definition op_typed (op : ledger_op) : Prop :=
  match op with OpCommit m => manifest_typed m | OpLoss row => loss_typed row end.

Abbreviation op_result := (result (option WatermarkRow) AdvanceError) (only parsing).

Definition step (l : WatermarkLedger) (op : ledger_op) : op_result * WatermarkLedger :=
  match op with OpCommit m => record_commit l m | OpLoss row => record_loss l row end.

Definition spec_step (a : SpecLedger) (op : ledger_op) : op_result * SpecLedger :=
  match op with OpCommit m => spec_commit a m | OpLoss row => spec_loss a row end.

(** The ledger after a sequence of calls; a rejected call leaves it alone. *)
Definition run (l : WatermarkLedger) (ops : list ledger_op) : WatermarkLedger :=
  foldl (λ l op, snd (step l op)) l ops.

Definition spec_run (a : SpecLedger) (ops : list ledger_op) : SpecLedger :=
  foldl (λ a op, snd (spec_step a op)) a ops.

(** The results the calls return, in order. *)
Fixpoint outputs (l : WatermarkLedger) (ops : list ledger_op) : list op_result :=
  match ops with
  | [] => []
  | op :: ops => fst (step l op) :: outputs (snd (step l op)) ops
  end.

Fixpoint spec_outputs (a : SpecLedger) (ops : list ledger_op) : list op_result :=
  match ops with
  | [] => []
  | op :: ops => fst (spec_step a op) :: spec_outputs (snd (spec_step a op)) ops
  end.

(** Every call succeeds. *)
Definition all_accepted (l : WatermarkLedger) (ops : list ledger_op) : Prop :=
  Forall (λ r, is_ok r = true) (outputs l ops).

Lemma step_refines l a op :
  refines l a → op_typed op →
  fst (step l op) = fst (spec_step a op) ∧ refines (snd (step l op)) (snd (spec_step a op)).
Proof. destruct op; [apply commit_refines|apply loss_refines]. Qed.

Lemma run_refines l a ops :
  refines l a → Forall op_typed ops →
  outputs l ops = spec_outputs a ops ∧ refines (run l ops) (spec_run a ops).
Proof.
  revert l a. induction ops as [|op ops IH]; intros l a Hl Hty; [done|].
  apply Forall_cons in Hty as [Hop Hty]. destruct (step_refines l a op Hl Hop) as [E Hl'].
  destruct (IH _ _ Hl' Hty) as [Eo Hr]. simpl. by rewrite E, Eo.
Qed.

Lemma typed_snoc ops op :
  Forall op_typed ops → op_typed op → Forall op_typed (ops ++ [op]).
Proof. intros Hty Hop. apply Forall_app. split; [done|]. by apply Forall_singleton. Qed.

Lemma run_snoc l ops op : run l (ops ++ [op]) = snd (step (run l ops) op).
Proof. unfold run. by rewrite foldl_app. Qed.

Lemma run_app l ops1 ops2 : run l (ops1 ++ ops2) = run (run l ops1) ops2.
Proof. apply foldl_app. Qed.

Lemma spec_run_app a ops1 ops2 : spec_run a (ops1 ++ ops2) = spec_run (spec_run a ops1) ops2.
Proof. apply foldl_app. Qed.

Lemma outputs_app l ops1 ops2 :
  outputs l (ops1 ++ ops2) = outputs l ops1 ++ outputs (run l ops1) ops2.
Proof. revert l. induction ops1 as [|op ops1 IH]; intros l; simpl; [done|]. by rewrite IH. Qed.

Lemma all_accepted_app l ops1 ops2 :
  all_accepted l (ops1 ++ ops2) ↔ all_accepted l ops1 ∧ all_accepted (run l ops1) ops2.
Proof. unfold all_accepted. by rewrite outputs_app, Forall_app. Qed.

Definition op_partition (op : ledger_op) : PartitionId :=
  match op with OpCommit m => m_partition m | OpLoss row => lr_partition (ll_range row) end.

(** A call touches its own partition only. *)
Lemma step_other l op p :
  op_partition op ≠ p → snd (step l op) !! p = l !! p.
Proof.
  destruct op as [m|row]; simpl; unfold record_commit, record_loss; intros Hne;
    repeat (case_match; simpl; try done); by rewrite lookup_insert_ne.
Qed.

Lemma run_other l ops p :
  Forall (λ op, op_partition op ≠ p) ops → run l ops !! p = l !! p.
Proof.
  intros H. revert l. induction H as [|op ops Hne _ IH]; intros l; simpl; [done|].
  rewrite IH. by apply step_other.
Qed.

(** ** The history of one partition *)

Definition commits (p : PartitionId) (ops : list ledger_op) : list WindowManifest :=
  omap (λ op, match op with
              | OpCommit m => if decide (m_partition m = p) then Some m else None
              | OpLoss _ => None
              end) ops.

Definition loss_ranges (p : PartitionId) (ops : list ledger_op) : list LostRange :=
  omap (λ op, match op with
              | OpCommit _ => None
              | OpLoss row => if decide (lr_partition (ll_range row) = p)
                              then Some (ll_range row) else None
              end) ops.

Lemma commits_app p ops1 ops2 : commits p (ops1 ++ ops2) = commits p ops1 ++ commits p ops2.
Proof. apply omap_app. Qed.

Lemma loss_ranges_app p ops1 ops2 :
  loss_ranges p (ops1 ++ ops2) = loss_ranges p ops1 ++ loss_ranges p ops2.
Proof. apply omap_app. Qed.

(** The manifest [m] may follow the manifests [ms] of its partition. *)
Record may_follow (ms : list WindowManifest) (m : WindowManifest) : Prop := {
  mf_time : (m_event_time_min_ms m ≤ m_event_time_max_ms m)%Z;
  mf_dataset : ∀ m0, head ms = Some m0 → m_dataset m0 = m_dataset m;
  mf_window : m_window_id m = N.of_nat (length ms);
  mf_ranges : spec_check (ranges_of (record_of <$> ms)) (m_origin_coverage m) = None;
}.

(** A dense history: each manifest may follow the ones before it. *)
Definition dense_history (ms : list WindowManifest) : Prop :=
  ∀ k m, ms !! k = Some m → may_follow (take k ms) m.

Lemma dense_history_nil : dense_history [].
Proof. intros k m Hk. by rewrite lookup_nil in Hk. Qed.

Lemma dense_history_snoc ms m :
  dense_history (ms ++ [m]) ↔ dense_history ms ∧ may_follow ms m.
Proof.
  split.
  - intros H. split.
    + intros k m' Hk. pose proof (lookup_lt_Some _ _ _ Hk).
      specialize (H k m'). rewrite lookup_app_l, take_app_le in H by lia. auto.
    + specialize (H (length ms) m). rewrite lookup_app_r, Nat.sub_diag, take_app_length in H by lia.
      by apply H.
  - intros [H Hm] k m' Hk. destruct (decide (k < length ms)%nat).
    + rewrite lookup_app_l in Hk by lia. rewrite take_app_le by lia. auto.
    + apply lookup_app_Some in Hk as [Hk|[? Hk]]; [apply lookup_lt_Some in Hk; lia|].
      destruct (k - length ms)%nat eqn:E; [|done]. injection Hk as <-.
      replace k with (length ms) by lia. by rewrite take_app_length.
Qed.

(** The abstract partition a history of manifests and losses amounts to. *)
Definition sp_of (ms : list WindowManifest) (ls : list LostRange) : SpecPartition := {|
  sp_dataset := m_dataset <$> head ms;
  sp_windows := record_of <$> ms;
  sp_losses := ls |}.

Definition lost_range_ok (r : LostRange) : bool :=
  negb ((lr_first_seq r =? 0)%N || (lr_last_seq r <? lr_first_seq r)%N).

(** A commit is accepted exactly when the manifest may follow the history. *)
Lemma spec_commit_accepts a m ms ls :
  default sp_empty (a !! m_partition m) = sp_of ms ls →
  (is_ok (fst (spec_commit a m)) = true ↔ may_follow ms m) ∧
  (may_follow ms m →
   snd (spec_commit a m) = <[m_partition m := sp_of (ms ++ [m]) ls]> a).
Proof.
  intros Hsp. unfold spec_commit. rewrite Hsp. cbn [sp_windows sp_of sp_dataset sp_losses].
  rewrite length_fmap.
  assert (sp_of (ms ++ [m]) ls
    = {| sp_dataset := Some (default (m_dataset m) (m_dataset <$> head ms));
         sp_windows := (record_of <$> ms) ++ [record_of m]; sp_losses := ls |}) as Hsp'.
  { unfold sp_of. rewrite fmap_app. by destruct ms. }
  destruct (_ <? _)%Z eqn:E1; bool_tests.
  { simpl. split; [split; [done|intros []; lia]|intros []; lia]. }
  destruct (bool_decide _) eqn:E2; bool_tests.
  { simpl. destruct ms as [|m0 ms]; simpl in *; [naive_solver|].
    destruct E2 as [_ Hne]. split; [split; [done|intros [_ Hds _ _]]|intros [_ Hds _ _]];
      destruct Hne; by apply Hds. }
  destruct (negb _) eqn:E3; bool_tests.
  { simpl. split; [split; [done|intros []; done]|intros []; done]. }
  destruct (spec_check _ _) eqn:E4.
  { simpl. split; [split; [done|intros []; congruence]|intros []; congruence]. }
  simpl. rewrite Hsp'. split; [|done]. split; [|done]. intros _.
  split; try done. intros m0 Hm0. destruct ms; simplify_eq/=.
  destruct (decide (m_dataset m0 = m_dataset m)); naive_solver.
Qed.

(** ** Fully accepted histories *)

(** A partition no operation touched is absent from the ledger. *)
Definition spec_of (ms : list WindowManifest) (ls : list LostRange) : option SpecPartition :=
  match ms, ls with [], [] => None | _, _ => Some (sp_of ms ls) end.

Lemma default_spec_of ms ls : default sp_empty (spec_of ms ls) = sp_of ms ls.
Proof. by destruct ms, ls. Qed.

Definition op_loss_ok (op : ledger_op) : Prop :=
  match op with OpCommit _ => True | OpLoss row => lost_range_ok (ll_range row) = true end.

(** The histories every call of which succeeds. *)
Record good_history (ops : list ledger_op) : Prop := {
  gh_dense : ∀ p, dense_history (commits p ops);
  gh_losses : Forall op_loss_ok ops;
}.

Definition tracks (a : SpecLedger) (ops : list ledger_op) : Prop :=
  ∀ p, a !! p = spec_of (commits p ops) (loss_ranges p ops).

Lemma tracks_default a ops p :
  tracks a ops → default sp_empty (a !! p) = sp_of (commits p ops) (loss_ranges p ops).
Proof. intros Ht. by rewrite Ht, default_spec_of. Qed.

Lemma tracks_commit a ops m :
  tracks a ops →
  (is_ok (fst (spec_commit a m)) = true ↔ may_follow (commits (m_partition m) ops) m) ∧
  (may_follow (commits (m_partition m) ops) m →
   tracks (snd (spec_commit a m)) (ops ++ [OpCommit m])).
Proof.
  intros Ht. destruct (spec_commit_accepts a m _ _ (tracks_default a ops _ Ht)) as [Hok Hst].
  split; [done|]. intros Hf q. rewrite (Hst Hf), commits_app, loss_ranges_app; simpl.
  rewrite app_nil_r. destruct (decide (m_partition m = q)) as [<-|Hne].
  - rewrite lookup_insert_eq. by destruct (commits (m_partition m) ops).
  - rewrite lookup_insert_ne, app_nil_r by done. apply Ht.
Qed.

Lemma tracks_loss a ops row :
  tracks a ops →
  is_ok (fst (spec_loss a row)) = lost_range_ok (ll_range row) ∧
  (lost_range_ok (ll_range row) = true →
   tracks (snd (spec_loss a row)) (ops ++ [OpLoss row])).
Proof.
  intros Ht. unfold spec_loss, lost_range_ok. destruct (_ || _)%bool; simpl; [done|].
  split; [done|]. intros _ q. rewrite commits_app, loss_ranges_app; simpl. rewrite app_nil_r.
  destruct (decide (lr_partition (ll_range row) = q)) as [<-|Hne].
  - rewrite lookup_insert_eq, (tracks_default a ops _ Ht). unfold spec_of, sp_of; simpl.
    by destruct (commits _ ops), (loss_ranges _ ops).
  - rewrite lookup_insert_ne, app_nil_r by done. apply Ht.
Qed.

Lemma good_history_snoc ops op :
  good_history (ops ++ [op]) ↔
  good_history ops ∧
  match op with
  | OpCommit m => may_follow (commits (m_partition m) ops) m
  | OpLoss row => lost_range_ok (ll_range row) = true
  end.
Proof.
  split.
  - intros [Hd Hl]. apply Forall_app in Hl as [Hl [Ho _]%Forall_cons].
    setoid_rewrite commits_app in Hd. destruct op as [m|row]; simpl in *.
    + split; [split; [|done]|].
      * intros p. specialize (Hd p). case_decide; [|by rewrite app_nil_r in Hd].
        by apply dense_history_snoc in Hd as [? _].
      * specialize (Hd (m_partition m)). rewrite decide_True in Hd by done.
        by apply dense_history_snoc in Hd as [_ ?].
    + split; [split; [|done]|done]. intros p. specialize (Hd p). by rewrite app_nil_r in Hd.
  - intros [[Hd Hl] Hop]. split.
    + intros p. rewrite commits_app. destruct op as [m|row]; simpl; [|by rewrite app_nil_r].
      case_decide as E; [|by rewrite app_nil_r]. subst p. by apply dense_history_snoc.
    + apply Forall_app. split; [done|]. apply Forall_singleton. by destruct op.
Qed.

(** The accepted histories are the good ones, and the ledger they reach is a
    function of each partition's manifests and losses. *)
Lemma accepted_history ops :
  Forall op_typed ops →
  (all_accepted new_ledger ops ↔ good_history ops) ∧
  (good_history ops → tracks (spec_run ∅ ops) ops).
Proof.
  induction ops as [|op ops IH] using rev_ind; intros Hty.
  { split; [|intros _ p; apply lookup_empty].
    split; [intros _; split; [intros p; apply dense_history_nil|constructor]|constructor]. }
  apply Forall_app in Hty as [Hty [Hop _]%Forall_cons]. destruct (IH Hty) as [Hacc Htr].
  rewrite all_accepted_app, good_history_snoc, Hacc.
  assert (good_history ops →
    (all_accepted (run new_ledger ops) [op] ↔
      match op with
      | OpCommit m => may_follow (commits (m_partition m) ops) m
      | OpLoss row => lost_range_ok (ll_range row) = true
      end) ∧
    (match op with
      | OpCommit m => may_follow (commits (m_partition m) ops) m
      | OpLoss row => lost_range_ok (ll_range row) = true
      end → tracks (spec_run ∅ (ops ++ [op])) (ops ++ [op]))) as Hstep.
  { intros Hg. specialize (Htr Hg).
    destruct (run_refines new_ledger ∅ ops refines_new Hty) as [_ Hr].
    destruct (step_refines _ _ op Hr Hop) as [E _].
    unfold all_accepted; simpl. rewrite Forall_singleton, E, spec_run_app.
    destruct op as [m|row]; simpl.
    - by apply tracks_commit.
    - destruct (tracks_loss _ _ row Htr) as [-> Ht]. done. }
  split; [|intros [Hg Hop']; by apply Hstep].
  split; intros [Hg ?]; (split; [done|]); by apply Hstep.
Qed.

(** ** Equal histories per partition reach the same ledger *)

(** Losses recorded in any order have the same effect. *)
Lemma loss_cov_perm ls1 ls2 :
  Permutation ls1 ls2 → Forall lost_valid ls1 → loss_cov ls1 = loss_cov ls2.
Proof.
  intros Hp H1. assert (Forall lost_valid ls2) as H2 by by rewrite <-Hp.
  destruct (loss_cov_sound ls1 H1) as [Hw1 Hm1], (loss_cov_sound ls2 H2) as [Hw2 Hm2].
  apply cov_ext; [done..|]. intros o x. rewrite Hm1, Hm2. unfold lost. by setoid_rewrite Hp.
Qed.

Lemma best_losses_ext ls1 ls2 ws : loss_cov ls1 = loss_cov ls2 → best ls1 ws = best ls2 ws.
Proof.
  intros E. unfold best. induction (length ws) as [|n IH]; simpl; [done|].
  unfold prefix_ok. by rewrite E, IH.
Qed.

Lemma rep_losses_perm ms ls1 ls2 st :
  Permutation ls1 ls2 → Forall lost_valid ls1 →
  rep (sp_of ms ls1) st → rep (sp_of ms ls2) st.
Proof.
  intros Hp Hv []; simpl in *. pose proof (loss_cov_perm _ _ Hp Hv) as E.
  split; simpl; try done.
  - congruence.
  - by rewrite <-(best_losses_ext _ _ _ E).
  - by rewrite <-(best_losses_ext _ _ _ E).
  - unfold spec_watermark in *; simpl in *. by rewrite <-(best_losses_ext _ _ _ E).
Qed.

Lemma same_history_same_ledger ops1 ops2 :
  Forall op_typed ops1 → Forall op_typed ops2 → good_history ops1 → good_history ops2 →
  (∀ p, commits p ops1 = commits p ops2 ∧
        Permutation (loss_ranges p ops1) (loss_ranges p ops2)) →
  run new_ledger ops1 = run new_ledger ops2.
Proof.
  intros Hty1 Hty2 Hg1 Hg2 Hsame.
  destruct (run_refines new_ledger ∅ ops1 refines_new Hty1) as [_ Hr1].
  destruct (run_refines new_ledger ∅ ops2 refines_new Hty2) as [_ Hr2].
  pose proof (proj2 (accepted_history ops1 Hty1) Hg1) as Ht1.
  pose proof (proj2 (accepted_history ops2 Hty2) Hg2) as Ht2.
  apply map_eq. intros p. specialize (Hr1 p). specialize (Hr2 p).
  rewrite Ht1 in Hr1. rewrite Ht2 in Hr2. destruct (Hsame p) as [Hc Hl]. rewrite Hc in Hr1.
  assert (spec_of (commits p ops2) (loss_ranges p ops1) = None ↔
          spec_of (commits p ops2) (loss_ranges p ops2) = None) as Hnone.
  { destruct (commits p ops2); [|done].
    destruct (loss_ranges p ops1) eqn:E1, (loss_ranges p ops2) eqn:E2; try done.
    - by apply Permutation_nil in Hl.
    - symmetry in Hl. by apply Permutation_nil in Hl. }
  pose proof (default_spec_of (commits p ops2) (loss_ranges p ops1)) as D1.
  pose proof (default_spec_of (commits p ops2) (loss_ranges p ops2)) as D2.
  destruct (run new_ledger ops1 !! p) as [st1|], (run new_ledger ops2 !! p) as [st2|];
    destruct (spec_of _ (loss_ranges p ops1)), (spec_of _ (loss_ranges p ops2));
    simpl in *; subst; try done; try naive_solver.
  destruct Hr1 as [Hr1 Hok1], Hr2 as [Hr2 _]. f_equal. eapply rep_unique; [|done].
  eapply rep_losses_perm; [done| |done]. apply Hok1.
Qed.

(** * Properties of the watermark ledger

    The claims about [crates/duckspout-watermark/src/ledger.rs] and
    [coverage.rs], over every sequence of [record_commit] and [record_loss]
    calls on typed inputs. *)

(** ** Lemmas on the recomputed watermark *)

Lemma running_max_spec ws :
  match running_max ws with
  | None => ws = []
  | Some ms => (∀ w, w ∈ ws → w_event_time_max_ms w ≤ ms)%Z ∧
               ∃ w, w ∈ ws ∧ w_event_time_max_ms w = ms
  end.
Proof.
  induction ws as [|w ws IH] using rev_ind; [done|].
  unfold running_max in *. rewrite foldl_app; simpl.
  destruct (foldl _ None ws) as [ms|]; simpl.
  - destruct IH as [Hmax (w0 & Hw0 & Hm)]. split.
    + intros v [Hv| ->%list_elem_of_singleton]%elem_of_app; [specialize (Hmax v Hv)|]; lia.
    + destruct (Z.max_spec ms (w_event_time_max_ms w)) as [[_ ->]|[_ ->]].
      * exists w. split; [apply elem_of_app; right; by left|done].
      * exists w0. split; [apply elem_of_app; by left|done].
  - subst. split; [by intros v ->%list_elem_of_singleton|]. exists w. split; [by left|done].
Qed.

Lemma running_max_mono ws n m ms :
  (n ≤ m)%nat → running_max (take n ws) = Some ms →
  ∃ ms', running_max (take m ws) = Some ms' ∧ (ms ≤ ms')%Z.
Proof.
  intros Hnm Hn. pose proof (running_max_spec (take n ws)) as Hs. rewrite Hn in Hs.
  destruct Hs as [_ (w & Hw & <-)]. pose proof (running_max_spec (take m ws)) as Hs.
  assert (w ∈ take m ws) as Hw'.
  { apply elem_of_take in Hw as (k & Hk & ?). apply elem_of_take. exists k. split; [done|lia]. }
  destruct (running_max (take m ws)) as [ms'|].
  - exists ms'. split; [done|]. by apply Hs.
  - rewrite Hs in Hw'. by apply elem_of_nil in Hw'.
Qed.

Lemma best_upto_ge ls ws n i :
  (i < n)%nat → prefix_ok ls (take (S i) ws) = true →
  ∃ j, best_upto ls ws n = Some j ∧ (i ≤ j)%nat.
Proof.
  intros Hi Hok. destruct (best_upto ls ws n) as [j|] eqn:E.
  - exists j. split; [done|]. apply best_upto_Some in E as (? & ? & Hj).
    destruct (decide (i ≤ j)%nat); [done|]. rewrite Hj in Hok by lia. done.
  - rewrite best_upto_None in E. by rewrite E in Hok.
Qed.

(** The watermark of a longer history of a partition is at least as high. *)
Definition sp_extends (sp sp' : SpecPartition) : Prop :=
  (∃ ws, sp_windows sp' = sp_windows sp ++ ws) ∧
  (∀ o x, lost (sp_losses sp) o x → lost (sp_losses sp') o x).

Lemma best_extends sp sp' i :
  sp_ok sp → sp_ok sp' → sp_extends sp sp' →
  best (sp_losses sp) (sp_windows sp) = Some i →
  ∃ j, best (sp_losses sp') (sp_windows sp') = Some j ∧ (i ≤ j)%nat.
Proof.
  intros [Hw Hl _] [Hw' Hl' _] [[ws Hws] Hlost] Hb.
  apply best_upto_Some in Hb as (Hi & Hok & _). apply best_upto_ge.
  { rewrite Hws, length_app. lia. }
  rewrite prefix_ok_spec in Hok |- * by (done || by apply windows_valid_take).
  rewrite Hws, take_app_le by lia. intros o x y Hy Hxy.
  destruct (Hok o x y Hy Hxy); auto.
Qed.

Lemma watermark_extends sp sp' ms :
  sp_ok sp → sp_ok sp' → sp_extends sp sp' → spec_watermark sp = Some ms →
  ∃ ms', spec_watermark sp' = Some ms' ∧ (ms ≤ ms')%Z.
Proof.
  intros Hok Hok' Hext. unfold spec_watermark, cursor_max.
  destruct (best (sp_losses sp) (sp_windows sp)) as [i|] eqn:Hb; [|done]. simpl. intros Hm.
  destruct (best_extends sp sp' i Hok Hok' Hext Hb) as (j & -> & Hij). simpl.
  apply best_upto_Some in Hb as (Hi & _). destruct Hext as [[ws ->] _].
  apply running_max_mono with (n := S i); [lia|]. by rewrite take_app_le by lia.
Qed.

Lemma sp_extends_refl sp : sp_extends sp sp.
Proof. split; [exists []; by rewrite app_nil_r|done]. Qed.

Lemma spec_step_extends a op p :
  sp_extends (default sp_empty (a !! p)) (default sp_empty (snd (spec_step a op) !! p)).
Proof.
  destruct op as [m|row]; simpl; unfold spec_commit, spec_loss.
  - repeat (case_match; simpl; try apply sp_extends_refl).
    destruct (decide (m_partition m = p)) as [<-|Hne].
    + rewrite lookup_insert_eq; simpl. split; [by eexists|done].
    + rewrite lookup_insert_ne by done. apply sp_extends_refl.
  - repeat (case_match; simpl; try apply sp_extends_refl).
    destruct (decide (lr_partition (ll_range row) = p)) as [<-|Hne].
    + rewrite lookup_insert_eq; simpl. split; [exists []; by rewrite app_nil_r|].
      intros o x (r & ? & ?). exists r. split; [apply elem_of_app; by left|done].
    + rewrite lookup_insert_ne by done. apply sp_extends_refl.
Qed.

(** ** Reading the ledger through the specification *)

Section reached.
Context (ops : list ledger_op) (Hty : Forall op_typed ops).

(** The abstract partition behind the ledger the calls [ops] reach. *)
Definition reached (p : PartitionId) : SpecPartition :=
  default sp_empty (spec_run ∅ ops !! p).

Lemma reached_rep p :
  rep (reached p) (default PartitionState_default (run new_ledger ops !! p)) ∧ sp_ok (reached p).
Proof.
  apply refines_default. by destruct (run_refines new_ledger ∅ ops refines_new Hty).
Qed.

Lemma reached_default {A} (f : PartitionState → option A) p :
  f PartitionState_default = None →
  run new_ledger ops !! p ≫= f = f (default PartitionState_default (run new_ledger ops !! p)).
Proof. intros Hf. by destruct (run new_ledger ops !! p). Qed.

Lemma reached_window p k :
  window_record (run new_ledger ops) p k = sp_windows (reached p) !! N.to_nat k.
Proof.
  unfold window_record. rewrite (reached_default (λ st, windows st !! k)) by done.
  apply rep_windows. apply reached_rep.
Qed.

Lemma reached_through p :
  advanced_through (run new_ledger ops) p
  = N.of_nat <$> best (sp_losses (reached p)) (sp_windows (reached p)).
Proof.
  unfold advanced_through. rewrite reached_default by done.
  apply rep_done_through. apply reached_rep.
Qed.

Lemma reached_watermark p :
  ledger_complete_through (run new_ledger ops) p = spec_watermark (reached p).
Proof.
  unfold ledger_complete_through. rewrite reached_default by done.
  apply rep_complete. apply reached_rep.
Qed.

Lemma reached_dataset p : ledger_dataset (run new_ledger ops) p = sp_dataset (reached p).
Proof.
  unfold ledger_dataset. rewrite reached_default by done. apply rep_dataset. apply reached_rep.
Qed.

Lemma reached_next p :
  next_window (run new_ledger ops) p = N.of_nat (length (sp_windows (reached p))).
Proof.
  destruct (reached_rep p) as [Hr Hok]. rewrite <-(rep_next_window _ _ Hr Hok).
  unfold next_window. by destruct (run new_ledger ops !! p).
Qed.

End reached.

(** A call the ledger answers with [Ok], at its place in the history. *)
Definition accepted_at (ops : list ledger_op) (op : ledger_op) : Prop :=
  ∃ before after, ops = before ++ op :: after ∧
    is_ok (fst (step (run new_ledger before) op)) = true.

Lemma accepted_at_snoc ops op op' : accepted_at ops op → accepted_at (ops ++ [op']) op.
Proof.
  intros (before & after & -> & Hok). exists before, (after ++ [op']).
  by rewrite <-app_assoc.
Qed.

(** The losses of an abstract partition were all recorded by a call that the
    ledger accepted. *)
Lemma spec_run_losses ops p r :
  Forall op_typed ops →
  r ∈ sp_losses (default sp_empty (spec_run ∅ ops !! p)) →
  ∃ row, accepted_at ops (OpLoss row) ∧ ll_range row = r ∧ lr_partition r = p.
Proof.
  induction ops as [|op ops IH] using rev_ind.
  { simpl. rewrite lookup_empty. by intros _ ?%elem_of_nil. }
  rewrite spec_run_app; simpl. intros [Hty Hop]%Forall_app Hr.
  rewrite Forall_singleton in Hop.
  assert (r ∈ sp_losses (default sp_empty (spec_run ∅ ops !! p))
    ∨ ∃ row, op = OpLoss row ∧ ll_range row = r ∧ lr_partition r = p ∧
        is_ok (fst (spec_step (spec_run ∅ ops) op)) = true) as [Ho|(row & -> & Er & Ep & Hok)].
  { destruct op as [m|row]; simpl in Hr |- *; unfold spec_commit, spec_loss in *.
    - repeat (case_match; simpl in Hr; try (by left)).
      destruct (decide (m_partition m = p)) as [<-|Hne];
        [rewrite lookup_insert_eq in Hr|rewrite lookup_insert_ne in Hr by done]; by left.
    - case_match; simpl in Hr; [by left|].
      destruct (decide (lr_partition (ll_range row) = p)) as [<-|Hne];
        [rewrite lookup_insert_eq in Hr|rewrite lookup_insert_ne in Hr by done; by left].
      simpl in Hr. apply elem_of_app in Hr as [?| ->%list_elem_of_singleton]; [by left|].
      right. exists row. repeat (split; [done|]). done. }
  - destruct (IH Hty Ho) as (row & Hacc & ?). exists row. split; [by apply accepted_at_snoc|done].
  - exists row. split; [|done]. exists ops, []. split; [done|].
    destruct (run_refines new_ledger ∅ ops refines_new Hty) as [_ Hrun].
    destruct (step_refines _ _ (OpLoss row) Hrun Hop) as [-> _]. done.
Qed.

(** Sequence number [x] of origin [o] is in the coverage of a recorded window
    at or below [i]. *)
Definition recorded (l : WatermarkLedger) (p : PartitionId) (i : WindowId) (o : NodeId) (x : N) :
    Prop :=
  ∃ k w r, window_record l p k = Some w ∧ (k ≤ i)%N ∧ r ∈ w_origin_coverage w ∧ in_osr o x r.

(** A loss row that the ledger accepted among the calls excuses sequence number
    [x] of origin [o]; a refused row excuses nothing. *)
Definition excused (ops : list ledger_op) (p : PartitionId) (o : NodeId) (x : N) : Prop :=
  ∃ row, accepted_at ops (OpLoss row) ∧ lr_partition (ll_range row) = p ∧ lr_origin (ll_range row) = o ∧
         (lr_first_seq (ll_range row) ≤ x ≤ lr_last_seq (ll_range row))%N.

Lemma recorded_covered ops p i o x :
  Forall op_typed ops →
  recorded (run new_ledger ops) p (N.of_nat i) o x ↔
  covered (take (S i) (sp_windows (reached ops p))) o x.
Proof.
  intros Hty. unfold recorded, covered, ranges_of.
  setoid_rewrite list_elem_of_bind. setoid_rewrite (reached_window ops Hty p). split.
  - intros (k & w & r & Hk & ? & Hr & Hx). exists r. split; [|done]. exists w. split; [done|].
    apply elem_of_take. exists (N.to_nat k). split; [done|lia].
  - intros (r & (w & Hr & Hw) & Hx). apply elem_of_take in Hw as (k & Hk & ?).
    exists (N.of_nat k), w, r. rewrite Nat2N.id. split; [done|]. split; [lia|done].
Qed.

(** C8: watermark honesty.  After any sequence of commits and losses (rejected
    calls included), if the watermark of a partition stands at window [i] with
    instant [ms], then every sequence number of every origin, from 1 up to the
    highest one committed in windows [0..=i], is committed in those windows or
    excused by a loss row that a call of the sequence recorded (a row that the
    ledger refused excuses nothing); and [ms] is the greatest event-time maximum
    of those windows. *)
Theorem watermark_honest (ops : list ledger_op) (Hty : Forall op_typed ops)
    (p : PartitionId) (i : WindowId) (ms : Z) :
  advanced_through (run new_ledger ops) p = Some i →
  ledger_complete_through (run new_ledger ops) p = Some ms →
  (∀ o x y, recorded (run new_ledger ops) p i o y → (1 ≤ x ≤ y)%N →
     recorded (run new_ledger ops) p i o x ∨ excused ops p o x) ∧
  (∀ k w, window_record (run new_ledger ops) p k = Some w → (k ≤ i)%N →
     (w_event_time_max_ms w ≤ ms)%Z) ∧
  (∃ k w, window_record (run new_ledger ops) p k = Some w ∧ (k ≤ i)%N ∧
     w_event_time_max_ms w = ms).
Proof.
  rewrite reached_through, reached_watermark by done. unfold spec_watermark, cursor_max.
  destruct (reached_rep ops Hty p) as [_ [Hw Hl _]].
  destruct (best _ _) as [b|] eqn:Hb; simpl; [|done]. intros [= <-] Hms.
  apply best_upto_Some in Hb as (Hlt & Hok & _).
  apply prefix_ok_spec in Hok; [|by apply windows_valid_take|done].
  pose proof (running_max_spec (take (S b) (sp_windows (reached ops p)))) as Hmax.
  rewrite Hms in Hmax. destruct Hmax as [Hmax (w & Hw0 & Hm)]. split; [|split].
  - intros o x y Hy Hxy. rewrite recorded_covered in Hy |- * by done.
    destruct (Hok o x y Hy Hxy) as [?|(r & Hr & Ho & Hx)]; [by left|right].
    apply spec_run_losses in Hr as (row & ? & <- & ?); [|done]. by exists row.
  - intros k v Hk Hkb. rewrite reached_window in Hk by done. apply Hmax, elem_of_take.
    exists (N.to_nat k). split; [done|lia].
  - apply elem_of_take in Hw0 as (k & Hk & ?). exists (N.of_nat k), w.
    rewrite reached_window, Nat2N.id by done. split; [done|]. split; [lia|done].
Qed.

(** C22: the watermark is as high as the record allows.  A recorded window above
    the advance cursor is never withheld without cause: the windows up to it
    leave some sequence number, below a committed one of the same origin,
    neither committed nor excused. *)
Theorem watermark_not_parked (ops : list ledger_op) (Hty : Forall op_typed ops)
    (p : PartitionId) (j : WindowId) :
  is_Some (window_record (run new_ledger ops) p j) →
  (∀ i, advanced_through (run new_ledger ops) p = Some i → (i < j)%N) →
  ¬ (∀ o x y, recorded (run new_ledger ops) p j o y → (1 ≤ x ≤ y)%N →
       recorded (run new_ledger ops) p j o x ∨ lost (sp_losses (reached ops p)) o x).
Proof.
  rewrite reached_window, reached_through by done. intros Hj Habove Hgf.
  apply lookup_lt_is_Some in Hj. destruct (reached_rep ops Hty p) as [_ [Hw Hl _]].
  assert (prefix_ok (sp_losses (reached ops p)) (take (S (N.to_nat j)) (sp_windows (reached ops p)))
    = true) as Hok.
  { apply prefix_ok_spec; [by apply windows_valid_take|done|]. intros o x y Hy Hxy.
    rewrite <-recorded_covered, N2Nat.id in Hy |- * by done. eauto. }
  destruct (best_upto_ge _ _ _ _ Hj Hok) as (i & Hi & ?).
  fold (best (sp_losses (reached ops p)) (sp_windows (reached ops p))) in Hi.
  rewrite Hi in Habove. specialize (Habove (N.of_nat i) eq_refl). lia.
Qed.

(** C16: the incremental ledger refines the specification that recomputes
    everything from the list of windows and losses: every sequence of calls
    returns the same results, errors included, in the code and in the
    specification. *)
Theorem ledger_refines_spec (ops : list ledger_op) :
  Forall op_typed ops → outputs new_ledger ops = spec_outputs ∅ ops.
Proof. intros Hty. by destruct (run_refines new_ledger ∅ ops refines_new Hty). Qed.

Lemma reached_extends ops op p : sp_extends (reached ops p) (reached (ops ++ [op]) p).
Proof. unfold reached. rewrite spec_run_app. apply spec_step_extends. Qed.

Lemma step_watermark_mono ops op p ms :
  Forall op_typed (ops ++ [op]) →
  ledger_complete_through (run new_ledger ops) p = Some ms →
  ∃ ms', ledger_complete_through (run new_ledger (ops ++ [op])) p = Some ms' ∧ (ms ≤ ms')%Z.
Proof.
  intros Hty. pose proof Hty as [Hty0 _]%Forall_app. rewrite !reached_watermark by done.
  apply watermark_extends; [by apply reached_rep..|apply reached_extends].
Qed.

(** Monotonicity.  No call, accepted or rejected, lowers a partition's
    watermark instant or its advance cursor. *)
Theorem watermark_monotone (ops : list ledger_op) (op : ledger_op) (p : PartitionId) :
  Forall op_typed (ops ++ [op]) →
  (∀ ms, ledger_complete_through (run new_ledger ops) p = Some ms →
     ∃ ms', ledger_complete_through (run new_ledger (ops ++ [op])) p = Some ms' ∧ (ms ≤ ms')%Z) ∧
  (∀ i, advanced_through (run new_ledger ops) p = Some i →
     ∃ j, advanced_through (run new_ledger (ops ++ [op])) p = Some j ∧ (i ≤ j)%N).
Proof.
  intros Hty. pose proof Hty as [Hty0 _]%Forall_app.
  destruct (reached_rep ops Hty0 p) as [_ Hok], (reached_rep (ops ++ [op]) Hty p) as [_ Hok'].
  pose proof (reached_extends ops op p) as Hext.
  split; [intros ms; by apply step_watermark_mono|]. rewrite !reached_through by done.
  intros i. destruct (best (sp_losses (reached ops p)) _) as [b|] eqn:Hb; simpl; [|done].
  intros [= <-]. destruct (best_extends _ _ _ Hok Hok' Hext Hb) as (j & -> & ?).
  exists (N.of_nat j). split; [done|lia].
Qed.

(** Window ids are dense: a window is recorded exactly when its id is below
    the next id the ledger accepts. *)
Theorem windows_dense (ops : list ledger_op) (p : PartitionId) (k : WindowId) :
  Forall op_typed ops →
  is_Some (window_record (run new_ledger ops) p k) ↔ (k < next_window (run new_ledger ops) p)%N.
Proof.
  intros Hty. rewrite reached_window, reached_next, lookup_lt_is_Some by done. lia.
Qed.

(** ** Single commit of every sequence number *)

Definition apart (r q : OriginSeqRange) : Prop := intersects r q = false.

(** No two windows, and no two ranges of one window, share a sequence
    number. *)
Definition committed_once (ws : list WindowRecord) : Prop :=
  pairwise (λ w v, ∀ r q, r ∈ w_origin_coverage w → q ∈ w_origin_coverage v → apart r q) ws ∧
  Forall (λ w, pairwise apart (w_origin_coverage w)) ws.

Lemma apart_sym r q : apart r q → apart q r.
Proof.
  unfold apart. rewrite <-!not_true_iff_false, !intersects_spec. intros Hn (? & ? & ?).
  by apply Hn.
Qed.

(** The pairwise check passes exactly on well-formed ranges disjoint from each
    other and from the ones taken. *)
Lemma spec_check_apart taken rs :
  spec_check taken rs = None ↔
  (∀ r q, r ∈ rs → q ∈ taken → apart r q) ∧ pairwise apart rs ∧
  Forall (λ r, 1 ≤ first_seq r ≤ last_seq r)%N rs.
Proof.
  revert taken. induction rs as [|r rs IH]; intros taken; simpl.
  { split; [|done]. intros _. split; [by intros ?? ?%elem_of_nil|].
    split; [apply pairwise_nil|constructor]. }
  rewrite pairwise_cons, Forall_cons. destruct (_ || _)%bool eqn:Ev.
  { split; [done|]. intros (_ & _ & Hr & _). bool_tests. destruct Ev; bool_tests; lia. }
  bool_tests. destruct (existsb _ _) eqn:E.
  - split; [done|]. intros (Hap & _). apply existsb_exists in E as (q & Hq%list_elem_of_In & Hi).
    specialize (Hap r q (list_elem_of_here _ _) Hq). unfold apart in Hap. congruence.
  - assert (∀ q, q ∈ taken → apart r q) as Hr.
    { intros q Hq. unfold apart. destruct (intersects r q) eqn:Ei; [|done]. rewrite <-E. symmetry.
      apply existsb_exists. exists q. split; [by apply list_elem_of_In|done]. }
    rewrite IH. split.
    + intros (Hap & Hpw & HF). split; [|split; [|split; [lia|done]]].
      * intros r' q [->|Hr']%elem_of_cons Hq; [auto|]. apply Hap; [done|]. apply elem_of_app. by left.
      * split; [|done]. intros q Hq. right. apply Hap; [done|]. apply elem_of_app. right. by left.
    + intros (Hap & (Hrs & Hpw) & _ & HF). split; [|done].
      intros r' q Hr' [Hq| ->%list_elem_of_singleton]%elem_of_app; [apply Hap; [by right|done]|].
      destruct (Hrs r' Hr'); auto using apart_sym.
Qed.

Lemma spec_step_once a op p :
  committed_once (sp_windows (default sp_empty (a !! p))) →
  committed_once (sp_windows (default sp_empty (snd (spec_step a op) !! p))).
Proof.
  intros Ho. destruct op as [m|row]; simpl; unfold spec_commit, spec_loss.
  - repeat (case_match; simpl; try done).
    destruct (decide (m_partition m = p)) as [<-|Hne];
      [rewrite lookup_insert_eq|by rewrite lookup_insert_ne]. simpl.
    match goal with Hc : spec_check _ _ = None |- _ =>
      apply spec_check_apart in Hc as (Hap & Hpw & _) end.
    destruct Ho as [Hp HF]. split.
    + apply pairwise_snoc. split; [|done]. intros w Hw. left. intros r q Hr Hq.
      apply Hap; [done|]. apply list_elem_of_bind. eauto.
    + apply Forall_app. split; [done|]. by apply Forall_singleton.
  - repeat (case_match; simpl; try done).
    destruct (decide (lr_partition (ll_range row) = p)) as [<-|Hne];
      [by rewrite lookup_insert_eq|by rewrite lookup_insert_ne].
Qed.

Lemma reached_once ops p : committed_once (sp_windows (reached ops p)).
Proof.
  unfold reached. induction ops as [|op ops IH] using rev_ind.
  - simpl. rewrite lookup_empty. split; [apply pairwise_nil|constructor].
  - rewrite spec_run_app. by apply spec_step_once.
Qed.

Lemma apart_in_osr r q o x : apart r q → in_osr o x r → ¬ in_osr o x q.
Proof.
  intros Hap [? ?] [? ?]. unfold apart in Hap.
  assert (intersects r q = true) as E; [|congruence].
  apply intersects_spec. split; [congruence|]. lia.
Qed.

(** A sequence number is committed at most once.  Whatever commits were
    attempted, no two windows of a partition, and no two ranges of one window,
    record the same sequence number of the same origin. *)
Theorem single_commit (ops : list ledger_op) (p : PartitionId) (k1 k2 : WindowId)
    (w1 w2 : WindowRecord) (i1 i2 : nat) (r1 r2 : OriginSeqRange) (o : NodeId) (x : N) :
  Forall op_typed ops →
  window_record (run new_ledger ops) p k1 = Some w1 →
  window_record (run new_ledger ops) p k2 = Some w2 →
  w_origin_coverage w1 !! i1 = Some r1 → w_origin_coverage w2 !! i2 = Some r2 →
  in_osr o x r1 → in_osr o x r2 → k1 = k2 ∧ i1 = i2.
Proof.
  intros Hty. rewrite !reached_window by done. intros Hw1 Hw2 Hr1 Hr2 Hx1 Hx2.
  destruct (reached_once ops p) as [Hpw HF].
  destruct (decide (k1 = k2)) as [<-|Hne].
  - split; [done|]. simplify_eq. destruct (decide (i1 = i2)) as [|Hi]; [done|].
    exfalso. eapply Forall_lookup_1 in HF; [|exact Hw1].
    destruct (pairwise_lookup _ _ _ _ _ _ HF Hr1 Hr2 Hi) as [Ha|Ha];
      [exact (apart_in_osr _ _ _ _ Ha Hx1 Hx2)|exact (apart_in_osr _ _ _ _ Ha Hx2 Hx1)].
  - exfalso. assert (N.to_nat k1 ≠ N.to_nat k2) as Hn by lia.
    apply list_elem_of_lookup_2 in Hr1, Hr2.
    destruct (pairwise_lookup _ _ _ _ _ _ Hpw Hw1 Hw2 Hn) as [Ha|Ha].
    + exact (apart_in_osr _ _ _ _ (Ha _ _ Hr1 Hr2) Hx1 Hx2).
    + exact (apart_in_osr _ _ _ _ (Ha _ _ Hr2 Hr1) Hx2 Hx1).
Qed.

(** A rejected call leaves the ledger as it was, whatever the ledger. *)
Theorem rejected_unchanged (l : WatermarkLedger) (op : ledger_op) :
  is_ok (fst (step l op)) = false → snd (step l op) = l.
Proof.
  destruct op as [m|row]; simpl; unfold record_commit, record_loss;
    by repeat (case_match; simpl; try done).
Qed.

Lemma spec_commit_ok a m :
  let sp := default sp_empty (a !! m_partition m) in
  is_ok (fst (spec_commit a m)) = true ↔
    (m_event_time_min_ms m ≤ m_event_time_max_ms m)%Z ∧
    (∀ d, sp_dataset sp = Some d → d = m_dataset m) ∧
    m_window_id m = N.of_nat (length (sp_windows sp)) ∧
    spec_check (ranges_of (sp_windows sp)) (m_origin_coverage m) = None.
Proof.
  unfold spec_commit. set (sp := default sp_empty _). simpl.
  destruct (_ <? _)%Z eqn:E1; bool_tests; [split; [done|intros []; lia]|].
  destruct (bool_decide _) eqn:E2; bool_tests.
  { split; [done|]. intros (_ & Hd & _). destruct (sp_dataset sp) as [d|]; simpl in *; naive_solver. }
  destruct (negb _) eqn:E3; bool_tests; [naive_solver|].
  destruct (spec_check _ _) eqn:E4; simpl; [naive_solver|].
  split; [|done]. intros _. split; [done|]. split; [|done].
  intros d Hd. rewrite Hd in E2. simpl in E2. destruct (decide (d = m_dataset m)); naive_solver.
Qed.

(** What a commit must satisfy.  After any calls, [record_commit] accepts a
    manifest exactly when its event-time range is ordered, its dataset is the
    partition's (when one is recorded), its window is the next one, and its
    ranges are 1-based, ordered, pairwise disjoint, and disjoint
    from every range the partition already recorded. *)
Theorem commit_accepted_iff (ops : list ledger_op) (m : WindowManifest) :
  Forall op_typed ops → manifest_typed m →
  let l := run new_ledger ops in
  is_ok (fst (record_commit l m)) = true ↔
    (m_event_time_min_ms m ≤ m_event_time_max_ms m)%Z ∧
    (∀ d, ledger_dataset l (m_partition m) = Some d → d = m_dataset m) ∧
    m_window_id m = next_window l (m_partition m) ∧
    Forall (λ r, 1 ≤ first_seq r ≤ last_seq r)%N (m_origin_coverage m) ∧
    pairwise apart (m_origin_coverage m) ∧
    (∀ k w r q, window_record l (m_partition m) k = Some w → q ∈ w_origin_coverage w →
       r ∈ m_origin_coverage m → apart r q).
Proof.
  intros Hty Hm l. destruct (run_refines new_ledger ∅ ops refines_new Hty) as [_ Hr].
  destruct (step_refines _ _ (OpCommit m) Hr Hm) as [E _]. simpl in E. unfold l. rewrite E.
  rewrite spec_commit_ok. fold (reached ops (m_partition m)).
  rewrite reached_next, reached_dataset, spec_check_apart by done.
  setoid_rewrite reached_window; [|done].
  assert ((∀ r q, r ∈ m_origin_coverage m → q ∈ ranges_of (sp_windows (reached ops (m_partition m))) →
             apart r q) ↔
          (∀ k w r q, sp_windows (reached ops (m_partition m)) !! N.to_nat k = Some w →
             q ∈ w_origin_coverage w → r ∈ m_origin_coverage m → apart r q)) as ->; [|tauto].
  split.
  - intros Hap k w r q Hk Hq Hrm. apply Hap; [done|]. apply list_elem_of_bind. exists w.
    split; [done|]. by eapply list_elem_of_lookup_2.
  - intros Hap r q Hrm (w & Hq & [k Hk]%list_elem_of_lookup_1)%list_elem_of_bind.
    apply (Hap (N.of_nat k) w); by rewrite ?Nat2N.id.
Qed.

(** ** The advance loop leaves by its condition *)

(** [extend_run st cov event_max next k st']: the [while let] loop of
    [PartitionState::extend], started from these locals, makes [k] iterations,
    leaves because no window [next] is recorded, and ends with [st'].  No fuel
    is involved. *)
Inductive extend_run :
    PartitionState → OriginCoverage → option Z → N → nat → PartitionState → Prop :=
| extend_run_exit st cov event_max next :
    windows st !! next = None → extend_run st cov event_max next 0 st
| extend_run_iter st cov event_max next record k st' :
    windows st !! next = Some record →
    let cov' := add_coverage cov (w_origin_coverage record) in
    let event_max' := raise_max event_max (w_event_time_max_ms record) in
    extend_run
      (if is_empty (unexcused_gaps cov' (losses st)) then
         {| dataset := dataset st; windows := windows st; committed := committed st;
            losses := losses st; done_cov := cov'; done_through := Some next;
            complete_through_ms := event_max' |}
       else st) cov' event_max' (u64_succ next) k st' →
    extend_run st cov event_max next (S k) st'.

(** The window ids the loop has looked up after [j] iterations. *)
Definition probed_from (start : N) (j : nat) : list N :=
  (λ i, (start + N.of_nat i) mod 2 ^ 64)%N <$> seq 0 j.

Lemma probed_from_NoDup start j : (N.of_nat j ≤ 2 ^ 64)%N → NoDup (probed_from start j).
Proof.
  intros Hj. apply NoDup_fmap_2_strong; [|apply NoDup_seq].
  intros x y Hx%elem_of_seq Hy%elem_of_seq E.
  pose proof (N.div_mod' (start + N.of_nat x) (2 ^ 64)).
  pose proof (N.div_mod' (start + N.of_nat y) (2 ^ 64)). rewrite E in *. nia.
Qed.

Lemma NoDup_keys_size {A} (m : gmap N A) (l : list N) :
  NoDup l → (∀ k, k ∈ l → is_Some (m !! k)) → (length l ≤ size m)%nat.
Proof.
  intros Hl Hm. rewrite <-size_dom, <-(size_list_to_set (C := gset N) l) by done.
  apply subseteq_size. intros k Hk%elem_of_list_to_set. by apply elem_of_dom, Hm.
Qed.

Lemma extend_loop_run start fuel j st cov event_max :
  (N.of_nat (size (windows st)) < 2 ^ 64)%N →
  (j + fuel = S (size (windows st)))%nat →
  (∀ k, k ∈ probed_from start j → is_Some (windows st !! k)) →
  ∃ k, (k < fuel)%nat ∧
    extend_run st cov event_max ((start + N.of_nat j) mod 2 ^ 64)%N k
      (extend_loop fuel st cov event_max ((start + N.of_nat j) mod 2 ^ 64)%N).
Proof.
  revert j st cov event_max. induction fuel as [|fuel IH]; intros j st cov em Hsz Hj Hseen.
  { apply NoDup_keys_size in Hseen; [|apply probed_from_NoDup; lia].
    unfold probed_from in Hseen. rewrite length_fmap, length_seq in Hseen. lia. }
  cbn [extend_loop]. set (next := ((start + N.of_nat j) mod 2 ^ 64)%N).
  destruct (windows st !! next) as [record|] eqn:E.
  2:{ exists 0%nat. split; [lia|]. by constructor. }
  assert (u64_succ next = (start + N.of_nat (S j)) mod 2 ^ 64)%N as Hnext.
  { unfold next. rewrite u64_succ_mod. f_equal. lia. }
  rewrite Hnext. match goal with |- context [extend_loop fuel ?s ?c ?e _] => set (st1 := s) end.
  assert (windows st1 = windows st) as Hw by (unfold st1; by destruct (is_empty _)).
  destruct (IH (S j) st1 (add_coverage cov (w_origin_coverage record))
              (raise_max em (w_event_time_max_ms record))) as (k & Hk & Hrun).
  - by rewrite Hw.
  - rewrite Hw. lia.
  - rewrite Hw. intros k. unfold probed_from. rewrite seq_S, fmap_app, elem_of_app.
    intros [Hk| ->%list_elem_of_singleton]; [by apply Hseen|by exists record].
  - exists (S k). split; [lia|]. econstructor; [done|]. by rewrite Hnext.
Qed.

(** The advance loop terminates.  From any partition state with fewer than
    [2^64] windows, the [while let] loop of [extend] leaves by its own condition
    after at most one iteration per recorded window, wherever the window ids lie
    and even when they wrap, and the state it leaves is the one [extend]
    returns. *)
Theorem extend_terminates (st : PartitionState) :
  (N.of_nat (size (windows st)) < 2 ^ 64)%N →
  (∀ done, done_through st = Some done → (done < 2 ^ 64)%N) →
  ∃ k, (k ≤ size (windows st))%nat ∧
    extend_run st (done_cov st) (complete_through_ms st)
      (match done_through st with None => 0 | Some done => u64_succ done end)%N k (extend st).
Proof.
  intros Hsz Hd.
  set (start := match done_through st with None => 0 | Some d => u64_succ d end%N).
  assert (start = (start + N.of_nat 0) mod 2 ^ 64)%N as Hs.
  { rewrite N.add_0_r. symmetry. apply N.mod_small. unfold start.
    destruct (done_through st) as [d|]; [|lia].
    rewrite <-(N.mod_small d (2 ^ 64)), u64_succ_mod by auto. apply N.mod_lt. lia. }
  destruct (extend_loop_run start (S (size (windows st))) 0 st (done_cov st)
              (complete_through_ms st)) as (k & Hk & Hrun); [done|lia| |].
  { intros k Hk. by apply elem_of_nil in Hk. }
  exists k. split; [lia|]. rewrite <-Hs in Hrun. exact Hrun.
Qed.
