(* ===== verification/Loss.v ===== *)
(** * The DeclareLoss guard

    Models [crates/duckspout-watermark/src/loss.rs]: the two guards of the
    loss ceremony, run before anything is recorded. *)

From S2P Require Import Prelude Types Ledger.

(** [LossRefusal] *)
Inductive LossRefusal :=
| ConsentNotGiven
| EmptyRequest
| InvalidRange (index : nat) (partition : PartitionId) (origin : NodeId)
    (first_seq last_seq : N)
| StillRecoverable (index : nat) (partition : PartitionId) (origin : NodeId)
    (first_seq last_seq : N) (covering_node : NodeId) (covering_thru : N).

#[global] Instance LossRefusal_eq_dec : EqDecision LossRefusal.
Proof. solve_decision. Defined.

(** [live_coverage.iter().filter(..).max_by_key(|c| c.replicated_thru)] *)
Definition covering (live_coverage : list ReplicaCoverage) (range : LostRange) :
    option ReplicaCoverage :=
  max_by (λ a b, rc_replicated_thru a <=? rc_replicated_thru b)%N
    (filter (λ c, rc_partition c = lr_partition range ∧ rc_origin c = lr_origin range)
       live_coverage).

(** The checks on the range at [index]. *)
Definition check_range (live_coverage : list ReplicaCoverage) (index : nat) (range : LostRange) :
    result unit LossRefusal :=
  if (lr_first_seq range =? 0)%N || (lr_last_seq range <? lr_first_seq range)%N then
    Err (InvalidRange index (lr_partition range) (lr_origin range)
           (lr_first_seq range) (lr_last_seq range))
  else
    match covering live_coverage range with
    | Some c =>
        if (lr_first_seq range <=? rc_replicated_thru c)%N then
          Err (StillRecoverable index (lr_partition range) (lr_origin range)
                 (lr_first_seq range) (lr_last_seq range) (rc_node c) (rc_replicated_thru c))
        else Ok tt
    | None => Ok tt
    end.

(** The [for (index, range) in request.ranges.iter().enumerate()] loop. *)
Fixpoint check_ranges (live_coverage : list ReplicaCoverage) (index : nat)
    (ranges : list LostRange) : result unit LossRefusal :=
  match ranges with
  | [] => Ok tt
  | range :: ranges =>
      let? _ := check_range live_coverage index range in
      check_ranges live_coverage (S index) ranges
  end.

(** [check_declare_loss] *)
Definition check_declare_loss (request : DeclareLossRequest)
    (live_coverage : list ReplicaCoverage) : result unit LossRefusal :=
  if negb (dl_accept_data_loss request) then Err ConsentNotGiven
  else if is_empty (dl_ranges request) then Err EmptyRequest
  else check_ranges live_coverage 0 (dl_ranges request).

(** ** What the guard means *)

(** Some live replica still holds sequence number [x] of the origin: its
    advertised coverage is the prefix [1..=replicated_thru]. *)
Definition recoverable (live : list ReplicaCoverage) (p : PartitionId) (o : NodeId) (x : N) :
    Prop :=
  ∃ c, c ∈ live ∧ rc_partition c = p ∧ rc_origin c = o ∧ (1 ≤ x ≤ rc_replicated_thru c)%N.

(** A range an accepted request may name. *)
Definition declarable (live : list ReplicaCoverage) (r : LostRange) : Prop :=
  (1 ≤ lr_first_seq r ≤ lr_last_seq r)%N ∧
  ∀ x, (lr_first_seq r ≤ x ≤ lr_last_seq r)%N →
    ¬ recoverable live (lr_partition r) (lr_origin r) x.

Lemma covering_Some live r c :
  covering live r = Some c →
  c ∈ live ∧ rc_partition c = lr_partition r ∧ rc_origin c = lr_origin r ∧
  ∀ d, d ∈ live → rc_partition d = lr_partition r → rc_origin d = lr_origin r →
    (rc_replicated_thru d ≤ rc_replicated_thru c)%N.
Proof.
  intros H. apply max_by_Some in H as [Hin Hmax].
  - apply list_elem_of_filter in Hin as [[??] ?]. repeat (split; [done|]).
    intros d ???. apply N.leb_le, Hmax, list_elem_of_filter. done.
  - intros x y. rewrite !N.leb_le. lia.
  - intros x y z. rewrite !N.leb_le. lia.
Qed.

Lemma covering_None live r c :
  covering live r = None → c ∈ live → rc_partition c = lr_partition r →
  rc_origin c ≠ lr_origin r.
Proof.
  intros H Hc Hp Ho. apply max_by_None in H.
  assert (c ∈ ([] : list ReplicaCoverage)) as Hn; [|by apply elem_of_nil in Hn].
  rewrite <-H. by apply list_elem_of_filter.
Qed.

(** A single range passes exactly when it is declarable. *)
Lemma check_range_spec live i r : check_range live i r = Ok tt ↔ declarable live r.
Proof.
  unfold check_range, declarable. case_if.
  - split; [done|]. intros [? _]. destruct Heqb as [?|?]; bool_tests; lia.
  - bool_tests. destruct (covering live r) as [c|] eqn:Hc.
    + apply covering_Some in Hc as (Hin & Hp & Ho & Hmax). case_if.
      * split; [done|]. intros [_ Hno]. destruct (Hno (lr_first_seq r)); [lia|].
        exists c. repeat (split; [done|]). lia.
      * split; [|done]. intros _. split; [lia|]. intros x Hx (d & Hd & Hdp & Hdo & ?).
        specialize (Hmax d Hd Hdp Hdo). lia.
    + split; [|done]. intros _. split; [lia|]. intros x Hx (d & Hd & Hdp & Hdo & ?).
      by destruct (covering_None live r d).
Qed.

(** The error of a refused range names that range. *)
Definition refuses (i : nat) (r : LostRange) (e : LossRefusal) : Prop :=
  match e with
  | InvalidRange j p o f l | StillRecoverable j p o f l _ _ =>
      (j, p, o, f, l) = (i, lr_partition r, lr_origin r, lr_first_seq r, lr_last_seq r)
  | _ => False
  end.

Lemma check_range_err live i r e : check_range live i r = Err e → refuses i r e.
Proof. unfold check_range. intros H. repeat case_match; by simplify_eq. Qed.

(** The loop stops at the first range that is not declarable. *)
Lemma check_ranges_spec live i rs :
  match check_ranges live i rs with
  | Ok _ => Forall (declarable live) rs
  | Err e => ∃ k r, rs !! k = Some r ∧ refuses (i + k) r e ∧ ¬ declarable live r ∧
               check_range live (i + k) r = Err e ∧ Forall (declarable live) (take k rs)
  end.
Proof.
  revert i. induction rs as [|r rs IH]; intros i; simpl; [constructor|].
  destruct (check_range live i r) as [[]|e] eqn:E.
  - apply check_range_spec in E. specialize (IH (S i)).
    destruct (check_ranges live (S i) rs) as [[]|e].
    + by constructor.
    + destruct IH as (k & r' & Hk & Hr & Hd & He & HF). exists (S k), r'.
      rewrite Nat.add_succ_comm in Hr, He. repeat (split; [done|]). by constructor.
  - exists 0%nat, r. rewrite Nat.add_0_r. split; [done|].
    split; [by eapply check_range_err|]. rewrite <-(check_range_spec live i r), E.
    split; [done|]. by split.
Qed.

(** A loss declaration passes exactly when the consent is given, the
    request names a range, and every range it names is well-formed (1-based,
    first no greater than last) and holds no sequence number that a live
    replica's advertised prefix for the same partition and origin still
    covers. *)
Theorem declare_loss_sound (request : DeclareLossRequest) (live : list ReplicaCoverage) :
  check_declare_loss request live = Ok tt ↔
    dl_accept_data_loss request = true ∧ dl_ranges request ≠ [] ∧
    Forall (declarable live) (dl_ranges request).
Proof.
  unfold check_declare_loss. destruct (dl_accept_data_loss request); simpl; [|naive_solver].
  destruct (dl_ranges request) as [|r rs] eqn:E; [naive_solver|]. simpl is_empty. cbv iota.
  pose proof (check_ranges_spec live 0 (r :: rs)) as Hs.
  destruct (check_ranges live 0 (r :: rs)) as [[]|e]; [naive_solver|].
  split; [done|]. intros (_ & _ & HF). destruct Hs as (k & r' & Hk & _ & Hd & _).
  destruct Hd. by eapply Forall_lookup_1 in HF.
Qed.

(** A refusal past the consent and the emptiness checks names the first
    range of the request that may not be declared lost, by its index, with the
    reason found there; all ranges before it may be. *)
Theorem declare_loss_refusal (request : DeclareLossRequest) (live : list ReplicaCoverage)
    (e : LossRefusal) :
  check_declare_loss request live = Err e →
  (e = ConsentNotGiven ∧ dl_accept_data_loss request = false) ∨
  (e = EmptyRequest ∧ dl_ranges request = []) ∨
  (∃ k r, dl_ranges request !! k = Some r ∧ refuses k r e ∧ ¬ declarable live r ∧
     check_range live k r = Err e ∧ Forall (declarable live) (take k (dl_ranges request))).
Proof.
  unfold check_declare_loss. destruct (dl_accept_data_loss request); simpl; [|naive_solver].
  destruct (dl_ranges request) as [|r rs] eqn:E; [naive_solver|]. simpl is_empty. cbv iota.
  pose proof (check_ranges_spec live 0 (r :: rs)) as Hs. intros Hc. rewrite Hc in Hs.
  right; right. destruct Hs as (k & r' & Hs). exists k, r'. exact Hs.
Qed.
