(* ===== verification/Reconstruct.v ===== *)
(** * Watermark reconstruction

    Models [crates/duckspout-watermark/src/reconstruct.rs]: the ledger rebuilt
    from the lake's manifests and the loss ledger, the stalls and the manifests
    deferred behind a missing window.  The properties are in
    [ReconstructProps.v]. *)

From S2P Require Import Prelude Types Coverage Ledger LedgerSpec LedgerHistory.

(** [ReconstructError] *)
Inductive ReconstructError :=
| ManifestError (partition : PartitionId) (window : WindowId) (source : AdvanceError)
| LossError (partition : PartitionId) (source : AdvanceError).

(** [CoverageHole] *)
Record CoverageHole := {
  ch_origin : NodeId;
  ch_first_seq : N;
  ch_last_seq : N;
  ch_in_hot : bool;
}.

(** [StallReason] *)
Inductive StallReason :=
| MissingWindow (expected : WindowId)
| CoverageHoles (holes : list CoverageHole).

(** [Stall] *)
Record Stall := {
  s_partition : PartitionId;
  s_reason : StallReason;
}.

(** [Reconstruction] *)
Record Reconstruction := {
  re_ledger : WatermarkLedger;
  re_stalls : list Stall;
  re_deferred : list WindowManifest;
}.

(** The first loop: replay the loss ledger. *)
Fixpoint replay_losses (ledger : WatermarkLedger) (losses : list LossLedgerRow) :
    result WatermarkLedger ReconstructError :=
  match losses with
  | [] => Ok ledger
  | row :: losses =>
      match record_loss ledger row with
      | (Ok _, ledger) => replay_losses ledger losses
      | (Err source, _) => Err (LossError (lr_partition (ll_range row)) source)
      end
  end.

(** [by_partition.entry(partition).or_default().push(manifest)], over all the
    manifests. *)
Definition push_manifest (groups : gmap string (list WindowManifest)) (m : WindowManifest) :
    gmap string (list WindowManifest) :=
  <[m_partition m := default [] (groups !! m_partition m) ++ [m]]> groups.

Definition by_partition (manifests : list WindowManifest) :
    gmap string (list WindowManifest) :=
  foldl push_manifest ∅ manifests.

(** The inner loop, over one partition's manifests in window order. *)
Fixpoint replay_wins (partition : PartitionId) (wins : list WindowManifest) (gap_hit : bool)
    (re : Reconstruction) : result Reconstruction ReconstructError :=
  match wins with
  | [] => Ok re
  | manifest :: wins =>
      if gap_hit then
        replay_wins partition wins gap_hit
          {| re_ledger := re_ledger re; re_stalls := re_stalls re;
             re_deferred := re_deferred re ++ [manifest] |}
      else
        let expected := next_window (re_ledger re) partition in
        if (expected <? m_window_id manifest)%N then
          replay_wins partition wins true
            {| re_ledger := re_ledger re;
               re_stalls := re_stalls re ++
                 [{| s_partition := partition; s_reason := MissingWindow expected |}];
               re_deferred := re_deferred re ++ [manifest] |}
        else
          match record_commit (re_ledger re) manifest with
          | (Ok _, ledger) =>
              replay_wins partition wins gap_hit
                {| re_ledger := ledger; re_stalls := re_stalls re;
                   re_deferred := re_deferred re |}
          | (Err source, _) => Err (ManifestError partition (m_window_id manifest) source)
          end
  end.

(** The derived order on [Option<WindowId>]: [None] is below [Some]. *)
Definition opt_lt (x y : option WindowId) : bool :=
  match x, y with
  | None, Some _ => true
  | Some a, Some b => (a <? b)%N
  | _, None => false
  end.

(** A blocking gap, classified against live hot coverage. *)
Definition hole_of (staging : list AppliedWatermarkRow) (partition : PartitionId)
    (gap : NodeId * N * N) : CoverageHole :=
  let '(origin, first, last) := gap in
  {| ch_origin := origin; ch_first_seq := first; ch_last_seq := last;
     ch_in_hot :=
       existsb (λ row, bool_decide (aw_partition row = partition) &&
                       bool_decide (aw_origin row = origin) &&
                       (last <=? aw_applied_seq row)%N) staging |}.

(** The stall pushed after a partition's manifests were replayed. *)
Definition coverage_stall (staging : list AppliedWatermarkRow) (partition : PartitionId)
    (ledger : WatermarkLedger) : list Stall :=
  if opt_lt (advanced_through ledger partition) (recorded_through ledger partition) then
    [{| s_partition := partition;
        s_reason := CoverageHoles (hole_of staging partition <$> blocking_gaps ledger partition) |}]
  else [].

(** The body of [for (partition, mut wins) in by_partition]. *)
Definition replay_partition (staging : list AppliedWatermarkRow) (partition : PartitionId)
    (wins : list WindowManifest) (re : Reconstruction) :
    result Reconstruction ReconstructError :=
  let? re := replay_wins partition (sort_by_key m_window_id wins) false re in
  Ok {| re_ledger := re_ledger re;
        re_stalls := re_stalls re ++ coverage_stall staging partition (re_ledger re);
        re_deferred := re_deferred re |}.

Fixpoint replay_partitions (staging : list AppliedWatermarkRow)
    (entries : list (PartitionId * list WindowManifest)) (re : Reconstruction) :
    result Reconstruction ReconstructError :=
  match entries with
  | [] => Ok re
  | (partition, wins) :: entries =>
      let? re := replay_partition staging partition wins re in
      replay_partitions staging entries re
  end.

(** [WatermarkLedger::reconstruct] *)
Definition reconstruct (manifests : list WindowManifest) (losses : list LossLedgerRow)
    (staging : list AppliedWatermarkRow) : result Reconstruction ReconstructError :=
  let? ledger := replay_losses new_ledger losses in
  replay_partitions staging (btree_entries (by_partition manifests))
    {| re_ledger := ledger; re_stalls := []; re_deferred := [] |}.

(** ** Grouping and ordering the manifests *)

Lemma by_partition_lookup ms p :
  by_partition ms !! p =
    match filter (λ m, m_partition m = p) ms with [] => None | l => Some l end.
Proof.
  unfold by_partition. induction ms as [|m ms IH] using rev_ind; [done|].
  rewrite foldl_app, filter_app; simpl. unfold push_manifest at 1.
  rewrite filter_cons, filter_nil. destruct (decide (m_partition m = p)) as [<-|Hne].
  - rewrite lookup_insert_eq, IH. destruct (filter _ ms); done.
  - rewrite lookup_insert_ne, IH, app_nil_r by done. done.
Qed.

(** The manifests a partition replays, in order. *)
Definition wins_of (ms : list WindowManifest) (p : PartitionId) : list WindowManifest :=
  sort_by_key m_window_id (filter (λ m, m_partition m = p) ms).

(** The dense prefix the inner loop replays from window [n] on, and what it
    defers. *)
Fixpoint dense_split (n : N) (wins : list WindowManifest) :
    list WindowManifest * list WindowManifest :=
  match wins with
  | [] => ([], [])
  | m :: wins =>
      if (n <? m_window_id m)%N then ([], m :: wins)
      else let '(a, b) := dense_split (n + 1) wins in (m :: a, b)
  end.

Lemma dense_split_app n wins :
  (dense_split n wins).1 ++ (dense_split n wins).2 = wins.
Proof.
  revert n. induction wins as [|m wins IH]; intros n; simpl; [done|].
  case_if; [done|]. specialize (IH (n + 1)%N). destruct (dense_split _ _); simpl in *. by rewrite IH.
Qed.

(** ** The replay is a history of ledger calls *)

Lemma replay_losses_spec ls l :
  match replay_losses l ls with
  | Ok l' => all_accepted l (OpLoss <$> ls) ∧ l' = run l (OpLoss <$> ls)
  | Err _ => ¬ all_accepted l (OpLoss <$> ls)
  end.
Proof.
  revert l. unfold all_accepted. induction ls as [|row ls IH]; intros l; simpl; [by split; [constructor|]|].
  destruct (record_loss l row) as [[o|e] l'] eqn:E; simpl.
  - specialize (IH l'). destruct (replay_losses l' ls).
    + destruct IH as [HF ->]. split; [by constructor|done].
    + by intros [_ ?]%Forall_cons.
  - by intros [? _]%Forall_cons.
Qed.

Lemma good_history_app ops1 ops2 : good_history (ops1 ++ ops2) → good_history ops1.
Proof.
  induction ops2 as [|op ops2 IH] using rev_ind; [by rewrite app_nil_r|].
  rewrite app_assoc. intros [Hg _]%good_history_snoc. auto.
Qed.

(** After a good history the next window is the number of commits. *)
Lemma good_next_window ops p :
  Forall op_typed ops → good_history ops →
  next_window (run new_ledger ops) p = N.of_nat (length (commits p ops)).
Proof.
  intros Hty Hg. pose proof (proj2 (accepted_history ops Hty) Hg p) as Ht.
  destruct (run_refines new_ledger ∅ ops refines_new Hty) as [_ Hr].
  destruct (refines_default _ _ p Hr) as [Hrep Hok].
  rewrite Ht, default_spec_of in Hrep, Hok.
  pose proof (rep_next_window _ _ Hrep Hok) as Hn. simpl in Hn. rewrite length_fmap in Hn.
  rewrite <-Hn. unfold next_window. by destruct (run new_ledger ops !! p).
Qed.

Lemma replay_wins_deferred p wins re :
  replay_wins p wins true re =
    Ok {| re_ledger := re_ledger re; re_stalls := re_stalls re;
          re_deferred := re_deferred re ++ wins |}.
Proof.
  revert re. induction wins as [|m wins IH]; intros [l st df]; simpl; [by rewrite app_nil_r|].
  rewrite IH; simpl. by rewrite <-app_assoc.
Qed.

Definition missing_stall (p : PartitionId) (n : nat) (b : list WindowManifest) : list Stall :=
  match b with
  | [] => []
  | _ => [{| s_partition := p; s_reason := MissingWindow (N.of_nat n) |}]
  end.

Lemma good_commit ops m :
  Forall op_typed ops → good_history ops → manifest_typed m →
  is_ok (fst (record_commit (run new_ledger ops) m)) = true ↔
  good_history (ops ++ [OpCommit m]).
Proof.
  intros Hty Hg Hm.
  pose proof (typed_snoc ops (OpCommit m) Hty Hm) as Hty'.
  rewrite <-(proj1 (accepted_history _ Hty')), all_accepted_app, (proj1 (accepted_history _ Hty)).
  unfold all_accepted; simpl. rewrite Forall_singleton. naive_solver.
Qed.

Lemma commits_map p wins :
  Forall (λ m, m_partition m = p) wins → commits p (OpCommit <$> wins) = wins.
Proof.
  induction 1 as [|m wins Hm _ IH]; [done|]. cbn. rewrite decide_True by done.
  f_equal. exact IH.
Qed.

(** The inner loop commits the dense prefix, in order, and defers the rest. *)
Lemma replay_wins_spec p wins ops re :
  Forall op_typed ops → good_history ops → Forall manifest_typed wins →
  Forall (λ m, m_partition m = p) wins → re_ledger re = run new_ledger ops →
  let '(a, b) := dense_split (N.of_nat (length (commits p ops))) wins in
  match replay_wins p wins false re with
  | Ok re' =>
      good_history (ops ++ (OpCommit <$> a)) ∧
      re' = {| re_ledger := run new_ledger (ops ++ (OpCommit <$> a));
               re_stalls := re_stalls re ++ missing_stall p (length (commits p ops) + length a) b;
               re_deferred := re_deferred re ++ b |}
  | Err _ => ¬ good_history (ops ++ (OpCommit <$> a))
  end.
Proof.
  revert ops re. induction wins as [|m wins IH]; intros ops [l st df] Hty Hg Hwt Hwp Hl; simpl in *.
  { rewrite !app_nil_r. by subst. }
  apply Forall_cons in Hwt as [Hm Hwt]. apply Forall_cons in Hwp as [Hp Hwp].
  subst l. rewrite good_next_window by done. case_if.
  { rewrite replay_wins_deferred. simpl. rewrite !app_nil_r, Nat.add_0_r, <-!app_assoc. done. }
  pose proof (good_commit ops m Hty Hg Hm) as Hacc.
  destruct (record_commit (run new_ledger ops) m) as [[o|e] l'] eqn:E; simpl in Hacc.
  - pose proof (typed_snoc ops (OpCommit m) Hty Hm) as Hty'.
    assert (l' = run new_ledger (ops ++ [OpCommit m])) as El
      by (rewrite run_app; simpl; by rewrite E).
    specialize (IH (ops ++ [OpCommit m]) {| re_ledger := l'; re_stalls := st; re_deferred := df |}
      Hty' (proj1 Hacc eq_refl) Hwt Hwp El).
    rewrite commits_app in IH. simpl in IH. rewrite decide_True, length_app in IH by done.
    simpl in IH. replace (N.of_nat (length (commits p ops) + 1)) with
      (N.of_nat (length (commits p ops)) + 1)%N in IH by lia.
    destruct (dense_split _ wins) as [a b].
    change (OpCommit <$> m :: a) with ([OpCommit m] ++ (OpCommit <$> a)).
    rewrite app_assoc. simpl length. replace (length (commits p ops) + S (length a))%nat with
      (length (commits p ops) + 1 + length a)%nat by lia. done.
  - destruct (dense_split _ wins) as [a b].
    change (OpCommit <$> m :: a) with ([OpCommit m] ++ (OpCommit <$> a)). rewrite app_assoc.
    intros Hg'%good_history_app. by apply Hacc in Hg'.
Qed.
