(* ===== verification/ReconstructProps.v ===== *)
(** * Properties of the watermark reconstruction

    The replay of [reconstruct] seen as a history of ledger calls, and the
    claims about it: it rebuilds the live ledger, drops nothing, and is
    conservative on a partial record. *)

From S2P Require Import Prelude Types Coverage Ledger LedgerSpec LedgerHistory.
From S2P Require Import Reconstruct.

(** ** All partitions *)

Abbreviation entry := (string * list WindowManifest)%type (only parsing).

(** What the entries commit, and what they defer. *)
Definition replayed (entries : list entry) : list WindowManifest :=
  entries ≫= λ e, (dense_split 0 (sort_by_key m_window_id e.2)).1.

Definition postponed (entries : list entry) : list WindowManifest :=
  entries ≫= λ e, (dense_split 0 (sort_by_key m_window_id e.2)).2.

Lemma replayed_cons p wins entries :
  replayed ((p, wins) :: entries)
  = (dense_split 0 (sort_by_key m_window_id wins)).1 ++ replayed entries.
Proof. reflexivity. Qed.

Lemma postponed_cons p wins entries :
  postponed ((p, wins) :: entries)
  = (dense_split 0 (sort_by_key m_window_id wins)).2 ++ postponed entries.
Proof. reflexivity. Qed.

(** The stalls of one entry, given the rebuilt ledger. *)
Definition entry_stalls (staging : list AppliedWatermarkRow) (l : WatermarkLedger) (e : entry) :
    list Stall :=
  let '(a, b) := dense_split 0 (sort_by_key m_window_id e.2) in
  missing_stall e.1 (length a) b ++ coverage_stall staging e.1 l.

Definition entry_ok (e : entry) : Prop :=
  Forall manifest_typed e.2 ∧ Forall (λ m, m_partition m = e.1) e.2.

Lemma coverage_stall_ext staging p l l' :
  l !! p = l' !! p → coverage_stall staging p l = coverage_stall staging p l'.
Proof.
  unfold coverage_stall, advanced_through, recorded_through, blocking_gaps. by intros ->.
Qed.

Lemma entry_split_partition e :
  entry_ok e →
  let '(a, b) := dense_split 0 (sort_by_key m_window_id e.2) in
  entry_ok (e.1, a) ∧ entry_ok (e.1, b).
Proof.
  intros [Ht Hp]. pose proof (dense_split_app 0 (sort_by_key m_window_id e.2)) as Happ.
  destruct (dense_split _ _) as [a b]; simpl in *.
  rewrite <-(sort_by_key_perm m_window_id e.2), <-Happ, Forall_app in Ht, Hp.
  unfold entry_ok; simpl. tauto.
Qed.

Lemma replayed_other entries p :
  Forall entry_ok entries → p ∉ entries.*1 →
  Forall (λ op, op_partition op ≠ p) (OpCommit <$> replayed entries).
Proof.
  intros Hok Hp. apply Forall_fmap, Forall_forall. intros m Hm; simpl. intros <-. apply Hp.
  unfold replayed in Hm. apply list_elem_of_bind in Hm as (e & Hm & He).
  rewrite Forall_forall in Hok. pose proof (entry_split_partition e (Hok e He)) as Hs.
  destruct (dense_split _ _) as [a b]; simpl in *. destruct Hs as [[_ Ha] _]. simpl in Ha.
  rewrite Forall_forall in Ha. rewrite (Ha m Hm). apply list_elem_of_fmap. by exists e.
Qed.

Lemma commits_other p ops :
  Forall (λ op, op_partition op ≠ p) ops → commits p ops = [].
Proof.
  induction 1 as [|op ops Hne _ IH]; [done|]. unfold commits in *. simpl.
  destruct op; simpl in *; [by rewrite decide_False|done].
Qed.

Lemma typed_commits ms : Forall manifest_typed ms → Forall op_typed (OpCommit <$> ms).
Proof. intros. by apply Forall_fmap. Qed.

(** The outer loop commits every partition's dense prefix and defers the
    rest. *)
Lemma replay_partitions_spec staging entries ops re :
  Forall op_typed ops → good_history ops → Forall entry_ok entries → NoDup entries.*1 →
  (∀ p, p ∈ entries.*1 → commits p ops = []) → re_ledger re = run new_ledger ops →
  match replay_partitions staging entries re with
  | Ok re' =>
      good_history (ops ++ (OpCommit <$> replayed entries)) ∧
      re' = {| re_ledger := run new_ledger (ops ++ (OpCommit <$> replayed entries));
               re_stalls := re_stalls re ++
                 (entries ≫= entry_stalls staging
                    (run new_ledger (ops ++ (OpCommit <$> replayed entries))));
               re_deferred := re_deferred re ++ postponed entries |}
  | Err _ => ¬ good_history (ops ++ (OpCommit <$> replayed entries))
  end.
Proof.
  revert ops re. induction entries as [|[p wins] entries IH];
    intros ops re Hty Hg Hok Hnd Hfresh Hl; cbn [replay_partitions].
  { rewrite !app_nil_r. by destruct re; simpl in *; subst. }
  apply Forall_cons in Hok as [Hp Hok].
  rewrite fmap_cons in Hnd, Hfresh. apply NoDup_cons in Hnd as [Hnin Hnd].
  unfold replay_partition. destruct Hp as [Ht Hpt]; simpl in Ht, Hpt.
  pose proof (replay_wins_spec p (sort_by_key m_window_id wins) ops re Hty Hg) as Hw.
  rewrite (Hfresh p (list_elem_of_here _ _)) in Hw. change (N.of_nat (length [])) with 0%N in Hw.
  pose proof (sort_by_key_perm m_window_id wins) as Hperm.
  specialize (Hw (proj2 (Forall_Permutation _ _ (λ _, iff_refl _) _ _ Hperm) Ht)
    (proj2 (Forall_Permutation _ _ (λ _, iff_refl _) _ _ Hperm) Hpt) Hl).
  pose proof (entry_split_partition (p, wins) (conj Ht Hpt)) as Hsp. simpl in Hsp.
  rewrite replayed_cons, postponed_cons.
  destruct (dense_split 0 _) as [a b] eqn:Hab. rewrite fmap_app. cbn [fst snd].
  destruct (replay_wins p _ false re) as [re1|e].
  - destruct Hw as [Hg1 Hre1]. destruct Hsp as [[Ha Hap] _]. simpl in Ha, Hap.
    specialize (IH (ops ++ (OpCommit <$> a))
      {| re_ledger := re_ledger re1;
         re_stalls := re_stalls re1 ++ coverage_stall staging p (re_ledger re1);
         re_deferred := re_deferred re1 |}).
    rewrite <-app_assoc in IH.
    assert (∀ q, q ∈ entries.*1 → commits q (ops ++ (OpCommit <$> a)) = []) as Hfr.
    { intros q Hq. rewrite commits_app, Hfresh by by right. apply commits_other, Forall_fmap.
      eapply Forall_impl; [exact Hap|]. intros m <- E. simpl in E. by subst. }
    specialize (IH (proj2 (Forall_app _ _ _) (conj Hty (typed_commits a Ha))) Hg1 Hok Hnd Hfr).
    rewrite Hre1 in IH |- *. cbn [re_ledger re_stalls re_deferred] in IH |- *.
    specialize (IH eq_refl).
    destruct (replay_partitions _ _ _) as [re'|]; [|done]. destruct IH as [Hg' ->]. cbn [re_ledger].
    rewrite bind_cons. unfold entry_stalls at 2. cbn [fst snd]. rewrite Hab.
    split; [done|]. f_equal; [|by rewrite <-app_assoc].
    rewrite <-!app_assoc. do 2 f_equal. f_equal. apply coverage_stall_ext.
    rewrite app_assoc, (run_app _ (ops ++ _)). symmetry. apply run_other. by apply replayed_other.
  - rewrite app_assoc. by intros ?%good_history_app.
Qed.

(** ** The whole reconstruction *)

Definition all_commits (ops : list ledger_op) : list WindowManifest :=
  omap (λ op, match op with OpCommit m => Some m | OpLoss _ => None end) ops.

Definition all_losses (ops : list ledger_op) : list LossLedgerRow :=
  omap (λ op, match op with OpCommit _ => None | OpLoss row => Some row end) ops.

(** The calls [reconstruct] makes, when it succeeds. *)
Definition replay_ops (manifests : list WindowManifest) (losses : list LossLedgerRow) :
    list ledger_op :=
  (OpLoss <$> losses) ++ (OpCommit <$> replayed (btree_entries (by_partition manifests))).

Lemma commits_losses p ls : commits p (OpLoss <$> ls) = [].
Proof. by induction ls. Qed.

Lemma btree_entry_wins ms e :
  e ∈ btree_entries (by_partition ms) →
  e.2 = filter (λ m, m_partition m = e.1) ms.
Proof.
  destruct e as [p wins]. rewrite elem_of_btree_entries, by_partition_lookup. simpl.
  destruct (filter _ ms); naive_solver.
Qed.

Lemma btree_entries_ok ms :
  Forall manifest_typed ms → Forall entry_ok (btree_entries (by_partition ms)).
Proof.
  intros Hty. apply Forall_forall. intros e He. split; rewrite (btree_entry_wins ms e He).
  - rewrite Forall_forall in Hty |- *. intros m [_ ?]%list_elem_of_filter. auto.
  - apply Forall_forall. by intros m [? _]%list_elem_of_filter.
Qed.

Lemma reconstruct_spec ms ls staging :
  Forall manifest_typed ms → Forall loss_typed ls →
  match reconstruct ms ls staging with
  | Ok re =>
      good_history (replay_ops ms ls) ∧
      re = {| re_ledger := run new_ledger (replay_ops ms ls);
              re_stalls := btree_entries (by_partition ms)
                ≫= entry_stalls staging (run new_ledger (replay_ops ms ls));
              re_deferred := postponed (btree_entries (by_partition ms)) |}
  | Err _ => ¬ good_history (replay_ops ms ls)
  end.
Proof.
  intros Hm Hl. unfold reconstruct, replay_ops.
  assert (Forall op_typed (OpLoss <$> ls)) as Hty by (by apply Forall_fmap).
  pose proof (replay_losses_spec ls new_ledger) as Hls.
  destruct (replay_losses new_ledger ls) as [l|e].
  - destruct Hls as [Hg ->]. apply (accepted_history _ Hty) in Hg.
    apply (replay_partitions_spec staging _ (OpLoss <$> ls)
      {| re_ledger := run new_ledger (OpLoss <$> ls); re_stalls := []; re_deferred := [] |});
      auto using btree_entries_ok, btree_entries_keys, commits_losses.
  - intros Hg%good_history_app. by apply Hls, (accepted_history _ Hty).
Qed.

(** The commits of a partition in the replay are the dense prefix of its
    manifests in window order. *)
Lemma commits_replay_ops ms ls p :
  Forall manifest_typed ms →
  commits p (replay_ops ms ls) = (dense_split 0 (wins_of ms p)).1.
Proof.
  intros Hm. unfold replay_ops. rewrite commits_app, commits_losses. simpl.
  pose proof (btree_entries_ok ms Hm) as Hok. pose proof (btree_entries_keys (by_partition ms)) as Hnd.
  assert (∀ e, e ∈ btree_entries (by_partition ms) → e.2 = filter (λ m, m_partition m = e.1) ms)
    as Hwins by apply btree_entry_wins.
  assert (p ∉ (btree_entries (by_partition ms)).*1 → filter (λ m, m_partition m = p) ms = []) as Hout.
  { intros Hp. destruct (filter _ ms) as [|m l] eqn:E; [done|]. exfalso. apply Hp.
    apply list_elem_of_fmap. exists (p, m :: l). split; [done|].
    by rewrite elem_of_btree_entries, by_partition_lookup, E. }
  unfold wins_of. induction (btree_entries (by_partition ms)) as [|[q wins] es IH].
  { rewrite Hout by apply not_elem_of_nil. done. }
  rewrite replayed_cons, fmap_app, commits_app.
  apply Forall_cons in Hok as [Hq Hok]. rewrite fmap_cons in Hnd. apply NoDup_cons in Hnd as [Hnin Hnd].
  pose proof (Hwins _ (list_elem_of_here _ _)) as Hqw. simpl in Hqw.
  pose proof (entry_split_partition _ Hq) as Hs. simpl in Hs.
  destruct (dense_split 0 (sort_by_key m_window_id wins)) as [a b] eqn:Hab. simpl.
  destruct Hs as [[_ Ha] _]. simpl in Ha. destruct (decide (q = p)) as [->|Hne].
  - rewrite (commits_map p a), (commits_other p (OpCommit <$> replayed es)), app_nil_r
      by (try apply replayed_other; done).
    by rewrite <-Hqw, Hab.
  - rewrite (commits_other p (OpCommit <$> a)).
    + apply IH; [done..|set_solver|]. intros Hp. apply Hout. rewrite fmap_cons. simpl. set_solver.
    + apply Forall_fmap. eapply Forall_impl; [exact Ha|]. by intros m <-.
Qed.

Lemma elem_of_wins_of ms p m : m ∈ wins_of ms p ↔ m ∈ ms ∧ m_partition m = p.
Proof.
  unfold wins_of. rewrite sort_by_key_perm, list_elem_of_filter. tauto.
Qed.

(** The windows of the ledger a good history reaches. *)
Lemma good_window_record ops p k :
  Forall op_typed ops → good_history ops →
  window_record (run new_ledger ops) p k = record_of <$> commits p ops !! N.to_nat k.
Proof.
  intros Hty Hg. rewrite reached_window by done. unfold reached.
  rewrite (tracks_default _ ops) by by apply accepted_history. simpl. by rewrite list_lookup_fmap.
Qed.

Lemma replay_ops_typed ms ls :
  Forall manifest_typed ms → Forall loss_typed ls → Forall op_typed (replay_ops ms ls).
Proof.
  intros Hm Hl. unfold replay_ops. apply Forall_app. split; [by apply Forall_fmap|].
  apply typed_commits. apply Forall_forall. intros m Hin. unfold replayed in Hin.
  apply list_elem_of_bind in Hin as (e & Hin & He).
  pose proof (btree_entries_ok ms Hm) as Hok. rewrite Forall_forall in Hok.
  pose proof (entry_split_partition e (Hok e He)) as Hs.
  destruct (dense_split _ _) as [a b]; simpl in *. destruct Hs as [[Ha _] _].
  rewrite Forall_forall in Ha. auto.
Qed.

Lemma elem_of_postponed ms m :
  m ∈ postponed (btree_entries (by_partition ms)) ↔
  m ∈ (dense_split 0 (wins_of ms (m_partition m))).2 ∧ m ∈ ms.
Proof.
  unfold postponed. rewrite list_elem_of_bind. split.
  - intros (e & Hm & He). pose proof (btree_entry_wins ms e He) as Hw. rewrite Hw in Hm.
    assert (m ∈ wins_of ms e.1) as [Hin Hp]%elem_of_wins_of.
    { unfold wins_of. rewrite <-(dense_split_app 0). apply elem_of_app. by right. }
    rewrite Hp. split; [exact Hm|done].
  - intros [Hm Hin]. exists (m_partition m, filter (λ m', m_partition m' = m_partition m) ms).
    split; [exact Hm|]. rewrite elem_of_btree_entries, by_partition_lookup.
    destruct (filter _ ms) eqn:E; [|done]. exfalso.
    assert (m ∈ filter (λ m', m_partition m' = m_partition m) ms) as Hf by by apply list_elem_of_filter.
    rewrite E in Hf. by apply elem_of_nil in Hf.
Qed.

Lemma dense_split_deferred n wins m :
  StronglySorted (λ x y, m_window_id x ≤ m_window_id y)%N wins →
  m ∈ (dense_split n wins).2 →
  (n + N.of_nat (length (dense_split n wins).1) < m_window_id m)%N.
Proof.
  revert n. induction wins as [|w wins IH]; intros n Hs; simpl; [by intros ?%elem_of_nil|].
  apply StronglySorted_inv in Hs as [Hs HF]. case_if; simpl.
  - intros [->|Hm]%elem_of_cons; [lia|]. rewrite Forall_forall in HF. specialize (HF m Hm). lia.
  - specialize (IH (n + 1)%N Hs). destruct (dense_split _ _); simpl in *. intros Hm.
    specialize (IH Hm). lia.
Qed.

(** In a dense history the manifest at position [k] is window [k]. *)
Lemma dense_history_lookup ms m :
  dense_history ms → m ∈ ms ↔ ms !! N.to_nat (m_window_id m) = Some m.
Proof.
  intros Hd. split; [|apply list_elem_of_lookup_2].
  intros [k Hk]%list_elem_of_lookup_1. pose proof (mf_window _ _ (Hd k m Hk)) as Hw.
  rewrite length_take_le in Hw by (apply Nat.lt_le_incl; by eapply lookup_lt_Some).
  by rewrite Hw, Nat2N.id.
Qed.

(** The dense split of a sublist of a dense history is a prefix of it. *)
Lemma dense_split_prefix n wins ms :
  StronglySorted (λ x y, m_window_id x ≤ m_window_id y)%N wins → NoDup wins →
  (∀ m, m ∈ wins → ms !! N.to_nat (m_window_id m) = Some m ∧ (N.of_nat n ≤ m_window_id m)%N) →
  (dense_split (N.of_nat n) wins).1
  = take (length (dense_split (N.of_nat n) wins).1) (drop n ms).
Proof.
  revert n. induction wins as [|w wins IH]; intros n Hs Hnd Hin; simpl; [done|].
  apply StronglySorted_inv in Hs as [Hs HF]. apply NoDup_cons in Hnd as [Hnw Hnd].
  case_if; [done|]. destruct (Hin w (list_elem_of_here _ _)) as [Hw Hge].
  assert (m_window_id w = N.of_nat n) as Hn by lia. rewrite Hn, Nat2N.id in Hw.
  replace (N.of_nat n + 1)%N with (N.of_nat (S n)) by lia.
  specialize (IH (S n) Hs Hnd). destruct (dense_split (N.of_nat (S n)) wins) as [a b]; simpl in *.
  rewrite (drop_S _ _ _ Hw). simpl. f_equal. apply IH. intros m Hm.
  destruct (Hin m (list_elem_of_further _ _ _ Hm)) as [Hlook ?]. split; [done|].
  destruct (decide (m_window_id m = N.of_nat n)) as [E|]; [|lia].
  rewrite E, Nat2N.id, Hw in Hlook. injection Hlook as ->. done.
Qed.

Lemma commits_all_commits p ops :
  commits p ops = filter (λ m, m_partition m = p) (all_commits ops).
Proof.
  induction ops as [|[m|row] ops IH]; [done| |exact IH]. cbn.
  destruct (decide _); cbn; [f_equal|]; exact IH.
Qed.

Lemma elem_of_commits p ops m : m ∈ commits p ops ↔ m ∈ all_commits ops ∧ m_partition m = p.
Proof. rewrite commits_all_commits, list_elem_of_filter. tauto. Qed.

(** What a partial record replays, per partition: a prefix of the true
    history. *)
Lemma partial_replay_prefix ops ms ls p :
  good_history ops → NoDup ms → ms ⊆ all_commits ops → Forall manifest_typed ms →
  ∃ k, commits p (replay_ops ms ls) = take k (commits p ops).
Proof.
  intros Hg Hnd Hsub Hty. rewrite commits_replay_ops by done.
  eexists. rewrite <-(drop_0 (commits p ops)). apply (dense_split_prefix 0).
  - apply sort_by_key_sorted.
  - unfold wins_of. rewrite sort_by_key_perm. by apply NoDup_filter.
  - intros m [Hin Hp]%elem_of_wins_of. split; [|lia].
    apply dense_history_lookup; [apply Hg|]. apply elem_of_commits. auto.
Qed.

Lemma dense_history_take ms k : dense_history ms → dense_history (take k ms).
Proof.
  intros Hd i m Hi. apply lookup_take_Some in Hi as [Hi Hk].
  rewrite take_take, Nat.min_l by lia. auto.
Qed.

Lemma partial_replay_good ops ms ls :
  good_history ops → NoDup ms → ms ⊆ all_commits ops → Forall manifest_typed ms →
  ls ⊆ all_losses ops → good_history (replay_ops ms ls).
Proof.
  intros Hg Hnd Hsub Hty Hls. split.
  - intros p. destruct (partial_replay_prefix ops ms ls p) as [k ->]; [done..|].
    apply dense_history_take, Hg.
  - apply Forall_app. split; apply Forall_fmap, Forall_forall; [|done].
    intros row Hrow. apply Hls in Hrow. apply list_elem_of_omap in Hrow as (op & Hop & E).
    destruct op; simplify_eq. pose proof (gh_losses _ Hg) as HF. rewrite Forall_forall in HF.
    exact (HF _ Hop).
Qed.

Lemma loss_ranges_all p ops :
  loss_ranges p ops = filter (λ r, lr_partition r = p) (ll_range <$> all_losses ops).
Proof.
  induction ops as [|[m|row] ops IH]; [done|exact IH|]. cbn.
  destruct (decide _); cbn; [f_equal|]; exact IH.
Qed.

Lemma all_losses_replay ms ls : all_losses (replay_ops ms ls) = ls.
Proof.
  unfold replay_ops, all_losses. rewrite omap_app. induction ls as [|row ls IH]; cbn.
  - by induction (replayed _).
  - f_equal. exact IH.
Qed.

Lemma dense_split_dense n ms :
  (∀ k m, ms !! k = Some m → m_window_id m = N.of_nat (n + k)) →
  dense_split (N.of_nat n) ms = (ms, []).
Proof.
  revert n. induction ms as [|m ms IH]; intros n Hid; simpl; [done|].
  rewrite (Hid 0%nat m eq_refl), Nat.add_0_r, N.ltb_irrefl.
  replace (N.of_nat n + 1)%N with (N.of_nat (S n)) by lia. rewrite IH; [done|].
  intros k m' Hk. rewrite (Hid (S k) m' Hk). lia.
Qed.

Lemma dense_history_ids ms k m :
  dense_history ms → ms !! k = Some m → m_window_id m = N.of_nat k.
Proof.
  intros Hd Hk. pose proof (mf_window _ _ (Hd k m Hk)) as Hw.
  by rewrite length_take_le in Hw by (apply Nat.lt_le_incl; by eapply lookup_lt_Some).
Qed.

Lemma dense_history_sorted ms n :
  (∀ k m, ms !! k = Some m → m_window_id m = N.of_nat (n + k)) →
  StronglySorted (λ x y, m_window_id x ≤ m_window_id y)%N ms.
Proof.
  revert n. induction ms as [|m ms IH]; intros n Hid; constructor.
  - apply (IH (S n)). intros k m' Hk. rewrite (Hid (S k) m' Hk). lia.
  - apply Forall_lookup_2. intros k m' Hk.
    rewrite (Hid 0%nat m eq_refl), (Hid (S k) m' Hk). lia.
Qed.

(** The full record, in any order, sorts back to the history. *)
Lemma wins_of_full ops ms p :
  good_history ops → ms ≡ₚ all_commits ops → wins_of ms p = commits p ops.
Proof.
  intros Hg Hp. pose proof (gh_dense _ Hg p) as Hd.
  assert (wins_of ms p ≡ₚ commits p ops) as Hperm.
  { unfold wins_of. by rewrite sort_by_key_perm, Hp, commits_all_commits. }
  apply (StronglySorted_unique_strong (λ x y, m_window_id x ≤ m_window_id y)%N); [| | |done].
  - intros x y Hx Hy ? ?. rewrite Hperm in Hx. apply dense_history_lookup in Hx, Hy; [|done..].
    assert (m_window_id x = m_window_id y) as E by lia. rewrite E in Hx. congruence.
  - apply sort_by_key_sorted.
  - apply (dense_history_sorted _ 0). intros k m. by apply dense_history_ids.
Qed.

Lemma full_dense_split ops ms p :
  good_history ops → ms ≡ₚ all_commits ops →
  dense_split 0 (wins_of ms p) = (commits p ops, []).
Proof.
  intros Hg Hp. rewrite (wins_of_full ops) by done. apply (dense_split_dense 0).
  intros k m. apply dense_history_ids, Hg.
Qed.

Lemma commits_typed ops : Forall op_typed ops → Forall manifest_typed (all_commits ops).
Proof.
  rewrite !Forall_forall. intros H m (op & Hop & E)%list_elem_of_omap.
  destruct op; simplify_eq. exact (H _ Hop).
Qed.

Lemma losses_typed ops : Forall op_typed ops → Forall loss_typed (all_losses ops).
Proof.
  rewrite !Forall_forall. intros H m (op & Hop & E)%list_elem_of_omap.
  destruct op; simplify_eq. exact (H _ Hop).
Qed.

Lemma reconstruct_live (ops : list ledger_op) (manifests : list WindowManifest)
    (losses : list LossLedgerRow) (staging : list AppliedWatermarkRow) :
  Forall op_typed ops → all_accepted new_ledger ops →
  manifests ≡ₚ all_commits ops → losses ≡ₚ all_losses ops →
  ∃ re, reconstruct manifests losses staging = Ok re ∧
        re_ledger re = run new_ledger ops ∧ re_deferred re = [].
Proof.
  intros Hty Hacc Hm Hl. apply accepted_history in Hacc as Hg; [|done].
  assert (Forall manifest_typed manifests) as Hmt by (rewrite Hm; by apply commits_typed).
  assert (Forall loss_typed losses) as Hlt by (rewrite Hl; by apply losses_typed).
  assert (∀ p, commits p (replay_ops manifests losses) = commits p ops) as Hc.
  { intros p. by rewrite commits_replay_ops, (full_dense_split ops) by done. }
  assert (good_history (replay_ops manifests losses)) as Hg'.
  { split; [intros p; rewrite Hc; apply Hg|]. apply Forall_app.
    split; apply Forall_fmap; [|by apply Forall_true].
    rewrite Hl, Forall_forall. intros row (op & Hop & E)%list_elem_of_omap.
    destruct op; simplify_eq. pose proof (gh_losses _ Hg) as HF. rewrite Forall_forall in HF.
    exact (HF _ Hop). }
  pose proof (reconstruct_spec manifests losses staging Hmt Hlt) as Hs.
  destruct (reconstruct manifests losses staging) as [re|]; [|done].
  destruct Hs as [_ ->]. eexists. split; [done|]. simpl. split.
  - apply same_history_same_ledger; [by apply replay_ops_typed|done..|].
    intros p. split; [done|]. by rewrite !loss_ranges_all, all_losses_replay, Hl.
  - apply bind_nil. intros e He. rewrite (btree_entry_wins _ _ He).
    fold (wins_of manifests e.1). by rewrite (full_dense_split ops).
Qed.

(** C21: reconstruction rebuilds the live ledger.  When every call of a history
    was accepted, [reconstruct] run on the same manifests and the same loss
    rows, each in any order, succeeds, yields exactly the live ledger, and
    defers nothing. *)
Theorem reconstruct_matches_live (ops : list ledger_op) (manifests : list WindowManifest)
    (losses : list LossLedgerRow) (staging : list AppliedWatermarkRow) :
  Forall op_typed ops → all_accepted new_ledger ops →
  manifests ≡ₚ all_commits ops → losses ≡ₚ all_losses ops →
  ∃ re, reconstruct manifests losses staging = Ok re ∧
        re_ledger re = run new_ledger ops ∧ re_deferred re = [].
Proof. apply reconstruct_live. Qed.

(** Reconstruction drops nothing.  On success every manifest of the record
    is either recorded in the rebuilt ledger at its own window, or deferred; a
    deferred manifest lies beyond the next window of its partition, and a stall
    reports that missing window. *)
Theorem reconstruct_nothing_dropped (manifests : list WindowManifest)
    (losses : list LossLedgerRow) (staging : list AppliedWatermarkRow) (re : Reconstruction)
    (m : WindowManifest) :
  Forall manifest_typed manifests → Forall loss_typed losses →
  reconstruct manifests losses staging = Ok re → m ∈ manifests →
  let p := m_partition m in
  let next := next_window (re_ledger re) p in
  window_record (re_ledger re) p (m_window_id m) = Some (record_of m) ∨
  (m ∈ re_deferred re ∧ (next < m_window_id m)%N ∧
   {| s_partition := p; s_reason := MissingWindow next |} ∈ re_stalls re).
Proof.
  intros Hmt Hlt Hr Hm. pose proof (reconstruct_spec manifests losses staging Hmt Hlt) as Hs.
  rewrite Hr in Hs. destruct Hs as [Hg ->]. simpl.
  pose proof (replay_ops_typed _ _ Hmt Hlt) as Hty. set (ops := replay_ops manifests losses) in *.
  rewrite good_window_record, good_next_window by done.
  assert (commits (m_partition m) ops = (dense_split 0 (wins_of manifests (m_partition m))).1) as Hc
    by by apply commits_replay_ops.
  assert (m ∈ wins_of manifests (m_partition m)) as Hin by by apply elem_of_wins_of.
  rewrite <-(dense_split_app 0) in Hin. apply elem_of_app in Hin as [Ha|Hb]; [left|right].
  - rewrite <-Hc in Ha. apply dense_history_lookup in Ha; [by rewrite Ha|]. apply Hg.
  - split; [by apply elem_of_postponed|]. rewrite Hc. split.
    + pose proof (dense_split_deferred 0 _ m (sort_by_key_sorted _ _) Hb). by rewrite N.add_0_l in H.
    + apply list_elem_of_bind.
      assert (m ∈ postponed (btree_entries (by_partition manifests))) as Hpp
        by by apply elem_of_postponed.
      apply list_elem_of_bind in Hpp as (e & Hme & He). pose proof (btree_entry_wins _ _ He) as Hw.
      exists e. split; [|done].
      assert (m ∈ wins_of manifests e.1) as [_ Hp]%elem_of_wins_of.
      { unfold wins_of. rewrite <-Hw, <-(dense_split_app 0). apply elem_of_app. by right. }
      unfold entry_stalls. rewrite Hw, Hp. unfold wins_of in Hb |- *.
      rewrite Hp in *. destruct (dense_split 0 _) as [a b]; simpl in *.
      apply elem_of_app. left. destruct b; [by apply elem_of_nil in Hb|by left].
Qed.

(** Reconstruction is conservative.  From any part of an accepted history's
    record (some of its manifests, some of its loss rows), [reconstruct]
    succeeds, and each partition's rebuilt watermark exists only if the live
    one does and is not above it. *)
Theorem reconstruct_conservative (ops : list ledger_op) (manifests : list WindowManifest)
    (losses : list LossLedgerRow) (staging : list AppliedWatermarkRow) :
  Forall op_typed ops → all_accepted new_ledger ops →
  NoDup manifests → manifests ⊆ all_commits ops → losses ⊆ all_losses ops →
  ∃ re, reconstruct manifests losses staging = Ok re ∧
    ∀ p ms, ledger_complete_through (re_ledger re) p = Some ms →
      ∃ ms', ledger_complete_through (run new_ledger ops) p = Some ms' ∧ (ms ≤ ms')%Z.
Proof.
  intros Hty Hacc Hnd Hm Hl. apply accepted_history in Hacc as Hg; [|done].
  assert (Forall manifest_typed manifests) as Hmt.
  { pose proof (commits_typed _ Hty) as HF. rewrite Forall_forall in HF |- *. auto. }
  assert (Forall loss_typed losses) as Hlt.
  { pose proof (losses_typed _ Hty) as HF. rewrite Forall_forall in HF |- *. auto. }
  pose proof (partial_replay_good ops manifests losses Hg Hnd Hm Hmt Hl) as Hg'.
  pose proof (replay_ops_typed _ _ Hmt Hlt) as Hty'.
  pose proof (reconstruct_spec manifests losses staging Hmt Hlt) as Hs.
  destruct (reconstruct manifests losses staging) as [re|]; [|done].
  destruct Hs as [_ ->]. eexists. split; [done|]. simpl. intros p ms.
  rewrite !reached_watermark by done. apply watermark_extends; [by apply reached_rep..|].
  unfold reached. rewrite (tracks_default _ (replay_ops manifests losses)), (tracks_default _ ops)
    by by apply accepted_history.
  destruct (partial_replay_prefix ops manifests losses p Hg Hnd Hm Hmt) as [k Hk]. split; simpl.
  - exists (record_of <$> drop k (commits p ops)). by rewrite Hk, <-fmap_app, take_drop.
  - intros o x (r & Hr & Hx). exists r. split; [|done].
    rewrite loss_ranges_all, all_losses_replay in Hr. rewrite loss_ranges_all.
    apply list_elem_of_filter in Hr as [Hp (row & -> & Hrow)%list_elem_of_fmap].
    apply list_elem_of_filter. split; [done|]. apply list_elem_of_fmap. eauto.
Qed.
