(* ===== verification/Ports.v ===== *)
(** * The ports

    Models the data and the traits of [crates/duckspout-types/src/ports.rs]
    that the drain and the watermark ledger meet at, the dataset declarations
    of [dataset.rs] and the journaled events of [trace.rs].  The computation
    seam [WatermarkBookkeeping] is a class of operations with a class of laws;
    the other ports are called through the command type of [Coordinator.v]. *)

From S2P Require Import Prelude Types.

(** ** dataset.rs *)

Inductive DatasetKind := Event | Changelog.

Record DatasetDeclaration := {
  dd_dataset : DatasetId;
  dd_kind : DatasetKind;
  dd_key_cols : list string;
  dd_sort_key : option (list string);
}.

(** ** trace.rs *)

Inductive TraceEvent :=
| EvAccept | EvDedupCheck | EvStageCommit | EvClientAck | EvThrottle | EvRefuse | EvForward
| EvPeerApply | EvReceipt | EvSealPart | EvPutPart | EvLakeCommitOk | EvLakeCommitAbort
| EvLakeCommitIndeterminate | EvReconcile | EvExpire | EvDemote | EvEvict | EvDropWindow
| EvSnapshotSeal | EvClaimAdvertise | EvHeartbeat | EvFenceBoot | EvDegradedBoot
| EvTakeoverDrain | EvDeclareLoss | EvEvolveSchema | EvClientTimeout.

#[global] Instance TraceEvent_eq_dec : EqDecision TraceEvent.
Proof. solve_decision. Defined.

(** ** Storage *)

Inductive StorageError :=
| NotFound (path : StoragePath)
| FsyncFailed (path : StoragePath)
| TornWrite (path : StoragePath)
| StorageBackend (msg : string).

(** ** StageCommitter *)

(** [StagedCoverage] *)
Record StagedCoverage := { sc_partition : PartitionId; sc_range : OriginSeqRange }.

(** [DecodedBatch] *)
Record DecodedBatch := {
  bt_dataset : DatasetId;
  bt_kind : DatasetKind;
  bt_tenant : TenantId;
  bt_idempotency_key : option string;
  bt_records : Bytes;
}.

(** [StageError] *)
Inductive StageError :=
| MalformedRecords (msg : string)
| StageBackend (msg : string)
| StageThrottled (retry_after_ms : N)
| StageRefusing (retry_after_ms : N).

(** [StageOutcome] *)
Inductive StageOutcome :=
| StageCommitted (coverage : list StagedCoverage)
| StageDuplicateAcked (coverage : list StagedCoverage)
| StageDuplicateInFlight.

#[global] Instance StagedCoverage_eq_dec : EqDecision StagedCoverage.
Proof. solve_decision. Defined.

(** ** SealSurface *)

Record DrainableWindow := {
  dw_dataset : DatasetId;
  dw_partition : PartitionId;
  dw_window : WindowId;
  dw_closed_at_ms : Z;
}.

Record SealRequest := {
  sr_dataset : DatasetId;
  sr_partition : PartitionId;
  sr_window : WindowId;
  sr_order_by : list string;
  sr_event_time_column : string;
  sr_dedup_key : option (list string);
}.

Record SealedPart := {
  sl_path : StoragePath;
  sl_rows : N;
  sl_event_time_min_ms : Z;
  sl_event_time_max_ms : Z;
  sl_dedup_removed : N;
  sl_origin_coverage : list OriginSeqRange;
}.

Inductive SealError :=
| UnknownWindow (dataset : DatasetId) (partition : PartitionId) (window : WindowId)
| SealBackend (msg : string).

Inductive DropOutcome :=
| Dropped
| ResidueKept (rows : N)
| AlreadyGone.

(** ** LakeCommitter *)

Inductive CommitOutcome := Committed | Aborted | Indeterminate.

Inductive LakeError :=
| NotImplemented (op : string)
| Misconfigured (msg : string)
| LakeBackend (msg : string).

#[global] Instance StorageError_eq_dec : EqDecision StorageError.
Proof. solve_decision. Defined.
#[global] Instance SealedPart_eq_dec : EqDecision SealedPart.
Proof. solve_decision. Defined.
#[global] Instance SealError_eq_dec : EqDecision SealError.
Proof. solve_decision. Defined.
#[global] Instance DropOutcome_eq_dec : EqDecision DropOutcome.
Proof. solve_decision. Defined.
#[global] Instance CommitOutcome_eq_dec : EqDecision CommitOutcome.
Proof. solve_decision. Defined.
#[global] Instance LakeError_eq_dec : EqDecision LakeError.
Proof. solve_decision. Defined.

(** ** WatermarkBookkeeping *)

Inductive LedgerRejection :=
| NotNext (partition : PartitionId) (expected got : WindowId)
| Rejected (msg : string).

#[global] Instance LedgerRejection_eq_dec : EqDecision LedgerRejection.
Proof. solve_decision. Defined.

(** The trait.  Its methods take [&self] and synchronize internally: each call
    is one atomic step on the state [L]. *)
Class WatermarkBookkeeping (L : Type) := {
  wb_next_window : L → PartitionId → WindowId;
  wb_complete_through_ms : L → PartitionId → option Z;
  wb_advance_for : L → WindowManifest → result (option WatermarkRow) LedgerRejection;
  wb_record_commit : L → WindowManifest → result (option WatermarkRow) LedgerRejection * L;
  wb_recorded_coverage : L → PartitionId → WindowId → option (list OriginSeqRange);
}.

(** What the trait's documentation promises of an implementation, on the states
    [good] its operations keep it in. *)
Class BookkeepingLaws (L : Type) `{WatermarkBookkeeping L} := {
  wb_good : L → Prop;
  wb_good_record l m :
    wb_good l → manifest_typed m → wb_good (snd (wb_record_commit l m));
  (** [advance_for] computes the row without recording anything. *)
  wb_preview l m :
    wb_advance_for l m = fst (wb_record_commit l m);
  (** On an error the bookkeeping is unchanged. *)
  wb_rejected l m e :
    fst (wb_record_commit l m) = Err e → snd (wb_record_commit l m) = l;
  (** Only the dense-next window is recorded, and the fence then moves on; the
      recorded coverage is the manifest's, and the row is the watermark. *)
  wb_recorded l m row :
    wb_good l → manifest_typed m → fst (wb_record_commit l m) = Ok row →
    m_window_id m = wb_next_window l (m_partition m) ∧
    wb_next_window (snd (wb_record_commit l m)) (m_partition m) = (m_window_id m + 1)%N ∧
    wb_recorded_coverage (snd (wb_record_commit l m)) (m_partition m) (m_window_id m)
      = Some (m_origin_coverage m) ∧
    row = (λ ms, {| wr_partition := m_partition m; wr_complete_through_ms := ms |})
            <$> wb_complete_through_ms (snd (wb_record_commit l m)) (m_partition m);
  (** The fence error names the fence and the window offered. *)
  wb_fence l m p expected got :
    fst (wb_record_commit l m) = Err (NotNext p expected got) →
    p = m_partition m ∧ expected = wb_next_window l p ∧ got = m_window_id m ∧ got ≠ expected;
  (** A window is recorded exactly below the fence. *)
  wb_dense l p w :
    wb_good l → is_Some (wb_recorded_coverage l p w) ↔ (w < wb_next_window l p)%N;
  (** The watermark never moves backwards. *)
  wb_monotone l m p ms :
    wb_good l → manifest_typed m → wb_complete_through_ms l p = Some ms →
    ∃ ms', wb_complete_through_ms (snd (wb_record_commit l m)) p = Some ms' ∧ (ms ≤ ms')%Z;
  (** Other partitions are untouched. *)
  wb_other l m p :
    p ≠ m_partition m →
    wb_complete_through_ms (snd (wb_record_commit l m)) p = wb_complete_through_ms l p ∧
    wb_next_window (snd (wb_record_commit l m)) p = wb_next_window l p;
  wb_other_preview l m m' :
    m_partition m' ≠ m_partition m →
    wb_advance_for (snd (wb_record_commit l m)) m' = wb_advance_for l m';
  (** Recorded windows stay as they are. *)
  wb_stable l m p w cov :
    wb_good l → manifest_typed m → wb_recorded_coverage l p w = Some cov →
    wb_recorded_coverage (snd (wb_record_commit l m)) p w = Some cov;
}.

(** ** Recovery

    What boot recovery needs of a bookkeeping: [wb_history new lake l] is the
    bookkeeping after the manifests of [lake], newest first, were recorded from
    an empty one. *)

Inductive wb_history {L} `{WatermarkBookkeeping L} (new : L) : list WindowManifest → L → Prop :=
| HistoryEmpty : wb_history new [] new
| HistoryRecord lake l m row :
    wb_history new lake l → manifest_typed m → fst (wb_record_commit l m) = Ok row →
    wb_history new (m :: lake) (snd (wb_record_commit l m)).

(** The bookkeeping keeps a state per partition, and can be rebuilt from the
    manifests of a lake. *)
Class BookkeepingRecovery (L : Type) `{BookkeepingLaws L} := {
  wb_new : L;
  wb_new_good : wb_good wb_new;
  wb_new_next p : wb_next_window wb_new p = 0%N;
  wb_new_complete p : wb_complete_through_ms wb_new p = None;
  (** Operations read and write the state of their partition only. *)
  wb_state : Type;
  wb_at : L → PartitionId → wb_state;
  wb_at_reads l l' p :
    wb_at l p = wb_at l' p →
    wb_next_window l p = wb_next_window l' p ∧
    wb_complete_through_ms l p = wb_complete_through_ms l' p ∧
    ∀ w, wb_recorded_coverage l p w = wb_recorded_coverage l' p w;
  wb_at_record l l' m :
    wb_at l (m_partition m) = wb_at l' (m_partition m) →
    fst (wb_record_commit l m) = fst (wb_record_commit l' m) ∧
    wb_at (snd (wb_record_commit l m)) (m_partition m) =
      wb_at (snd (wb_record_commit l' m)) (m_partition m);
  wb_at_other l m p :
    p ≠ m_partition m → wb_at (snd (wb_record_commit l m)) p = wb_at l p;
  (** Recovery, in whatever order the manifests are read. *)
  wb_rebuild : list WindowManifest → option L;
  wb_rebuild_history lake l ms :
    wb_history wb_new lake l → ms ≡ₚ lake → wb_rebuild ms = Some l;
}.
