(* ===== verification/SharedLedger.v ===== *)
(** * The ledger behind the bookkeeping port

    Models [crates/duckspout-watermark/src/port.rs]: [SharedLedger], the
    projection of the ledger's errors onto the port's two cases, and the proof
    that the ledger keeps the port's promises.  The mutex makes each method
    one step; a poisoned lock panics and is not modelled. *)

From S2P Require Import Prelude Types Coverage Ledger LedgerSpec LedgerHistory.
From S2P Require Import Reconstruct ReconstructProps Ports.

(** The rendering [thiserror] derives for [AdvanceError] ([ledger.rs]). *)
Definition AdvanceError_to_string (e : AdvanceError) : string :=
  match e with
  | DatasetMismatch partition recorded got =>
      "dataset mismatch for partition " +:+ partition +:+ ": ledger has " +:+ recorded +:+
      ", manifest has " +:+ got
  | WindowNotNext partition expected got =>
      "window " +:+ pretty got +:+ " is not the dense-next window of partition " +:+ partition +:+
      " (expected " +:+ pretty expected +:+ ")"
  | InvalidSeqRange origin first_seq last_seq =>
      "invalid seq range " +:+ pretty first_seq +:+ "..=" +:+ pretty last_seq +:+
      " for origin " +:+ origin +:+ " (seqs are 1-based, first ≤ last)"
  | InvalidEventTimeRange min_ms max_ms =>
      "invalid event-time range: min " +:+ pretty min_ms +:+ " > max " +:+ pretty max_ms
  | CoverageOverlap origin first_seq last_seq =>
      "coverage " +:+ pretty first_seq +:+ "..=" +:+ pretty last_seq +:+ " for origin " +:+
      origin +:+ " intersects already-committed coverage"
  end.

(** [rejection] *)
Definition rejection (e : AdvanceError) : LedgerRejection :=
  match e with
  | WindowNotNext partition expected got => NotNext partition expected got
  | other => Rejected (AdvanceError_to_string other)
  end.

(** [impl WatermarkBookkeeping for SharedLedger] *)
#[global] Instance SharedLedger : WatermarkBookkeeping (gmap string PartitionState) := {|
  wb_next_window := next_window;
  wb_complete_through_ms := ledger_complete_through;
  wb_advance_for l m := map_err rejection (advance_for l m);
  wb_record_commit l m :=
    let '(r, l') := record_commit l m in (map_err rejection r, l');
  wb_recorded_coverage l p w := w_origin_coverage <$> window_record l p w;
|}.

(** ** The laws *)

(** The ledgers the operations reach. *)
Definition reachable_ledger (l : WatermarkLedger) : Prop :=
  ∃ ops, Forall op_typed ops ∧ l = run new_ledger ops.

Lemma reachable_record l m :
  reachable_ledger l → manifest_typed m → reachable_ledger (snd (record_commit l m)).
Proof.
  intros (ops & Hty & ->) Hm. exists (ops ++ [OpCommit m]).
  rewrite run_snoc. split; [by apply typed_snoc|done].
Qed.

Lemma record_commit_rejected l m e :
  fst (record_commit l m) = Err e → snd (record_commit l m) = l.
Proof. unfold record_commit. by repeat (case_match; simpl; try done). Qed.

Lemma record_commit_other l m p :
  p ≠ m_partition m → snd (record_commit l m) !! p = l !! p.
Proof. intros Hne. by apply (step_other l (OpCommit m)). Qed.

(** A preview reads the manifest's partition only. *)
Lemma advance_for_local l l' m : l !! m_partition m = l' !! m_partition m → advance_for l m = advance_for l' m.
Proof.
  intros E. unfold advance_for, record_commit. rewrite E.
  by repeat (case_match; simpl; try done).
Qed.

Lemma record_commit_ok l m row :
  fst (record_commit l m) = Ok row →
  m_window_id m = next_window l (m_partition m) ∧
  ∃ probe, let st := commit_state (default PartitionState_default (l !! m_partition m)) m probe in
    snd (record_commit l m) = <[m_partition m := st]> l ∧ row = watermark_row st (m_partition m).
Proof.
  unfold record_commit, next_window. intros H.
  repeat (case_match; simpl in *; simplify_eq); bool_tests; eauto.
Qed.

Lemma probe_ranges_err known probe rs e :
  probe_ranges known probe rs = Err e → ∀ p x g, e ≠ WindowNotNext p x g.
Proof.
  revert probe. induction rs as [|r rs IH]; intros probe; simpl; [done|].
  case_if; [by intros [= <-]|]. case_if; [by intros [= <-]|]. apply IH.
Qed.

Lemma record_commit_fence l m p expected got :
  fst (record_commit l m) = Err (WindowNotNext p expected got) →
  p = m_partition m ∧ expected = next_window l p ∧ got = m_window_id m ∧ got ≠ expected.
Proof.
  unfold record_commit, next_window. case_if; [done|]. case_match; [done|].
  case_if; [intros [= <- <- <-]; done|]. destruct (probe_ranges _ _ _) eqn:E; [done|].
  simpl. intros [= ->]. by destruct (probe_ranges_err _ _ _ _ E p expected got).
Qed.

Lemma reached_snoc_commit ops m row :
  Forall op_typed ops → manifest_typed m →
  fst (record_commit (run new_ledger ops) m) = Ok row →
  sp_windows (reached (ops ++ [OpCommit m]) (m_partition m))
  = sp_windows (reached ops (m_partition m)) ++ [record_of m].
Proof.
  intros Hty Hm Hok. unfold reached. rewrite spec_run_app. simpl.
  destruct (run_refines new_ledger ∅ ops refines_new Hty) as [_ Hr].
  destruct (step_refines _ _ (OpCommit m) Hr Hm) as [E _]. simpl in E. rewrite Hok in E.
  unfold spec_commit in *. repeat (case_match; simpl in *; try done).
  by rewrite lookup_insert_eq.
Qed.

Lemma commit_law_recorded l m row :
  reachable_ledger l → manifest_typed m → fst (record_commit l m) = Ok row →
  let l' := snd (record_commit l m) in
  m_window_id m = next_window l (m_partition m) ∧
  next_window l' (m_partition m) = (m_window_id m + 1)%N ∧
  w_origin_coverage <$> window_record l' (m_partition m) (m_window_id m)
    = Some (m_origin_coverage m) ∧
  row = (λ ms, {| wr_partition := m_partition m; wr_complete_through_ms := ms |})
          <$> ledger_complete_through l' (m_partition m).
Proof.
  intros (ops & Hty & ->) Hm Hok l'. pose proof (typed_snoc ops (OpCommit m) Hty Hm) as Hty'.
  destruct (record_commit_ok _ _ _ Hok) as [Hw (probe & Hl' & Hrow)].
  split; [done|]. rewrite reached_next in Hw by done.
  assert (l' = run new_ledger (ops ++ [OpCommit m])) as El by by rewrite run_snoc.
  pose proof (reached_snoc_commit ops m row Hty Hm Hok) as Hws. repeat split.
  - rewrite El, reached_next, Hws, length_app by done. simpl. lia.
  - rewrite El, reached_window, Hws, Hw, Nat2N.id by done. by rewrite lookup_app_r, Nat.sub_diag.
  - unfold l'. rewrite Hrow, Hl'. unfold ledger_complete_through. by rewrite lookup_insert_eq.
Qed.

Lemma commit_law_dense l p w :
  reachable_ledger l → is_Some (w_origin_coverage <$> window_record l p w) ↔ (w < next_window l p)%N.
Proof.
  intros (ops & Hty & ->). rewrite fmap_is_Some, reached_window, reached_next by done.
  split; [intros H%lookup_lt_is_Some_1; lia|intros ?; apply lookup_lt_is_Some_2; lia].
Qed.

Lemma commit_law_stable l m p w cov :
  reachable_ledger l → manifest_typed m → w_origin_coverage <$> window_record l p w = Some cov →
  w_origin_coverage <$> window_record (snd (record_commit l m)) p w = Some cov.
Proof.
  intros (ops & Hty & ->) Hm. pose proof (typed_snoc ops (OpCommit m) Hty Hm) as Hty'.
  change (snd (record_commit (run new_ledger ops) m)) with (snd (step (run new_ledger ops) (OpCommit m))).
  rewrite <-run_snoc, !reached_window by done.
  destruct (reached_extends ops (OpCommit m) p) as [[ws ->] _].
  intros (r & Hr & ->)%fmap_Some_1. by rewrite (lookup_app_l_Some _ _ _ _ Hr).
Qed.

#[global] Program Instance SharedLedger_laws : BookkeepingLaws (gmap string PartitionState) := {|
  wb_good := reachable_ledger;
|}.
Next Obligation.
  intros l m Hl Hm. simpl. pose proof (reachable_record l m Hl Hm). by destruct (record_commit l m).
Qed.
Next Obligation. intros l m. simpl. unfold advance_for. by destruct (record_commit l m). Qed.
Next Obligation.
  intros l m e. simpl. pose proof (record_commit_rejected l m) as Hr.
  destruct (record_commit l m) as [[row|e'] l']; simpl in *; [done|]. by intros _; eapply Hr.
Qed.
Next Obligation.
  intros l m row Hl Hm. simpl. pose proof (λ r, commit_law_recorded l m r Hl Hm) as Hr.
  destruct (record_commit l m) as [[r|e'] l']; simpl in *; [|done].
  intros [= <-]. by apply Hr.
Qed.
Next Obligation.
  intros l m p expected got. simpl. pose proof (record_commit_fence l m p expected got) as Hf.
  destruct (record_commit l m) as [[row|e] l']; simpl in *; [done|].
  intros E. apply Hf. f_equal. destruct e; by simplify_eq/=.
Qed.
Next Obligation. intros l p w Hl. by apply commit_law_dense. Qed.
Next Obligation.
  intros l m p ms (ops & Hty & ->) Hm Hms. simpl in *.
  pose proof (step_watermark_mono ops (OpCommit m) p ms (typed_snoc ops (OpCommit m) Hty Hm) Hms) as Hmono.
  rewrite run_snoc in Hmono. simpl in Hmono. by destruct (record_commit _ m).
Qed.
Next Obligation.
  intros l m p Hne. simpl. pose proof (record_commit_other l m p) as Ho.
  destruct (record_commit l m) as [r l']; simpl in *.
  unfold ledger_complete_through, next_window. by rewrite Ho.
Qed.
Next Obligation.
  intros l m m' Hne. simpl. pose proof (record_commit_other l m (m_partition m') Hne) as Ho.
  destruct (record_commit l m) as [r l']; simpl in *. f_equal. by apply advance_for_local.
Qed.
Next Obligation.
  intros l m p w cov Hl Hm Hc. simpl in *. pose proof (commit_law_stable l m p w cov Hl Hm Hc).
  by destruct (record_commit l m).
Qed.

(** ** Recovery

    The manifests of a history, in the order they were recorded, are an accepted
    sequence of calls. *)

Lemma history_ops lake l :
  wb_history new_ledger lake l →
  Forall op_typed (OpCommit <$> reverse lake) ∧ all_accepted new_ledger (OpCommit <$> reverse lake) ∧
  l = run new_ledger (OpCommit <$> reverse lake).
Proof.
  induction 1 as [|lake l m row _ (Hty & Hacc & ->) Hm Hok]; [by split_and!; [constructor..|]|].
  rewrite reverse_cons, fmap_app. split_and!.
  - apply Forall_app. split; [done|]. by apply Forall_singleton.
  - apply all_accepted_app. split; [done|]. apply Forall_singleton. simpl in *.
    by destruct (record_commit _ m) as [[]].
  - csimpl. rewrite run_snoc. simpl. by destruct (record_commit _ m).
Qed.

Lemma all_commits_fmap ms : all_commits (OpCommit <$> ms) = ms.
Proof. unfold all_commits. induction ms as [|m ms IH]; [done|]. csimpl. by rewrite IH. Qed.

Lemma all_losses_fmap ms : all_losses (OpCommit <$> ms) = [].
Proof. unfold all_losses. by induction ms. Qed.

#[global] Program Instance SharedLedger_recovery : BookkeepingRecovery (gmap string PartitionState) := {|
  wb_new := new_ledger;
  wb_state := option PartitionState;
  wb_at l p := l !! p;
  wb_rebuild ms := match reconstruct ms [] [] with Ok re => Some (re_ledger re) | Err _ => None end;
|}.
Next Obligation. exists []. by split. Qed.
Next Obligation. done. Qed.
Next Obligation. done. Qed.
Next Obligation.
  intros l l' p E. simpl. unfold next_window, ledger_complete_through, window_record. by rewrite E.
Qed.
Next Obligation.
  intros l l' m E. simpl. unfold record_commit. rewrite E.
  repeat (case_match; simpl; simplify_eq; rewrite ?lookup_insert_eq; try done).
Qed.
Next Obligation.
  intros l m p Hne. simpl. pose proof (record_commit_other l m p Hne). by destruct (record_commit l m).
Qed.
Next Obligation.
  intros lake l ms (Hty & Hacc & ->)%history_ops Hms. simpl.
  destruct (reconstruct_live (OpCommit <$> reverse lake) ms [] [] Hty Hacc) as (re & -> & -> & _); [| |done].
  - by rewrite all_commits_fmap, reverse_Permutation.
  - by rewrite all_losses_fmap.
Qed.
