(* ===== verification/Naming.v ===== *)
(** * Deterministic part names

    Models [crates/duckspout-drain/src/naming.rs]: the encoding of an
    identifier into [a-z0-9_] and the object name of a part, and proves that a
    name determines what it names. *)

From Stdlib Require Import Ascii.
From S2P Require Import Prelude RustStd Types Ports.

(** [PartDiscriminator] *)
Inductive PartDiscriminator :=
| DWindow
| DSupplement (origin : NodeId) (first_seq last_seq : N)
| DSnapshot (as_of_seq : N).

(** [PartDiscriminator::kind] *)
Definition kind (d : PartDiscriminator) : PartKind :=
  match d with
  | DWindow => Primary
  | DSupplement _ _ _ => Supplement
  | DSnapshot _ => Snapshot
  end.

(** [b'a'..=b'z' | b'0'..=b'9'] *)
Definition is_plain (c : ascii) : bool :=
  let n := N_of_ascii c in
  ((97 <=? n) && (n <=? 122) || (48 <=? n) && (n <=? 57))%N.

(** A lowercase hexadecimal digit, of a number below 16. *)
Definition hex_digit (n : N) : ascii :=
  ascii_of_N (if (n <? 10)%N then 48 + n else 87 + n).

(** [write!(out, "_{other:02x}")] *)
Definition escape (c : ascii) : string :=
  let n := N_of_ascii c in
  String "_" (String (hex_digit (n / 16)) (String (hex_digit (n mod 16)) "")).

(** [encode_component] *)
Fixpoint encode_component (raw : string) : string :=
  match raw with
  | EmptyString => ""
  | String c raw => (if is_plain c then String c "" else escape c) +:+ encode_component raw
  end.

(** The discriminator part of [part_name]. *)
Definition suffix (d : PartDiscriminator) : string :=
  match d with
  | DWindow => "primary"
  | DSupplement origin first_seq last_seq =>
      "supplement-" +:+ encode_component origin +:+ "-" +:+ pretty first_seq +:+ "-" +:+
      pretty last_seq
  | DSnapshot as_of_seq => "snapshot-" +:+ pretty as_of_seq
  end.

(** [part_name] *)
Definition part_name (dataset : DatasetId) (partition : PartitionId) (window : WindowId)
    (discriminator : PartDiscriminator) : PartName :=
  encode_component dataset +:+ "/" +:+ encode_component partition +:+ "/w" +:+ pretty window +:+
  "-" +:+ suffix discriminator +:+ ".parquet".

(** ** Strings up to a separator *)

(** Two strings whose prefixes lack the separator that follows them split at
    the same place. *)
Lemma split_at_sep c a1 a2 b1 b2 :
  free_of c a1 = true → free_of c a2 = true →
  a1 +:+ String c b1 = a2 +:+ String c b2 → a1 = a2 ∧ b1 = b2.
Proof.
  revert a2. induction a1 as [|d a1 IH]; intros [|e a2]; simpl; intros H1 H2 E; simplify_eq; [done| | |].
  - by rewrite bool_decide_eq_true_2 in H2.
  - by rewrite bool_decide_eq_true_2 in H1.
  - bool_tests. destruct (IH a2) as [-> ->]; done.
Qed.

Lemma length_string_app (s t : string) :
  String.length (s +:+ t) = (String.length s + String.length t)%nat.
Proof.
  induction s as [|c s IH]; [done|].
  change (S (String.length (s +:+ t)) = S (String.length s + String.length t)%nat). by rewrite IH.
Qed.

Lemma app_inv_suffix (s1 s2 t : string) : s1 +:+ t = s2 +:+ t → s1 = s2.
Proof.
  revert s2. induction s1 as [|c s1 IH]; intros [|d s2] E; [done| | |].
  - apply (f_equal String.length) in E. rewrite ?length_string_app in E. simpl in E. lia.
  - apply (f_equal String.length) in E. rewrite ?length_string_app in E. simpl in E. lia.
  - injection E as -> E. by rewrite (IH s2 E).
Qed.

(** ** The encoding *)

Lemma hex_digit_inj n m : (n < 16)%N → (m < 16)%N → hex_digit n = hex_digit m → n = m.
Proof.
  intros Hn Hm E. apply (f_equal N_of_ascii) in E. unfold hex_digit in E.
  destruct (N.ltb_spec n 10), (N.ltb_spec m 10);
    rewrite !N_ascii_embedding in E by lia; lia.
Qed.

Lemma escape_inj c d : escape c = escape d → c = d.
Proof.
  intros [= H1 H2]. pose proof (N_ascii_bounded c) as Hc. pose proof (N_ascii_bounded d) as Hd.
  apply hex_digit_inj in H1; [|apply N.Div0.div_lt_upper_bound; lia..].
  apply hex_digit_inj in H2; [|by apply N.mod_lt..].
  rewrite <-(ascii_N_embedding c), <-(ascii_N_embedding d). f_equal.
  rewrite (N.div_mod (N_of_ascii c) 16), (N.div_mod (N_of_ascii d) 16) by done. congruence.
Qed.

Lemma plain_not_underscore c : is_plain c = true → c ≠ "_"%char.
Proof. by intros Hc ->. Qed.

(** The encoding of an identifier determines it. *)
Lemma encode_component_inj a b : encode_component a = encode_component b → a = b.
Proof.
  revert b. induction a as [|c a IH]; intros [|d b]; simpl; intros E; [done| | |].
  - by destruct (is_plain d).
  - by destruct (is_plain c).
  - destruct (is_plain c) eqn:Hc, (is_plain d) eqn:Hd; simpl in E.
    + injection E as -> E. by rewrite (IH b E).
    + injection E as -> E. by destruct (plain_not_underscore _ Hc).
    + injection E as <- E. by destruct (plain_not_underscore _ Hd).
    + injection E as H1 H2 E. rewrite (escape_inj c d), (IH b E); [done|].
      unfold escape. congruence.
Qed.

Lemma hex_digit_plain n : (n < 16)%N → is_plain (hex_digit n) = true.
Proof.
  intros Hn. unfold is_plain, hex_digit. rewrite N_ascii_embedding by (destruct (N.ltb_spec n 10); lia).
  destruct (N.ltb_spec n 10); apply orb_true_iff; rewrite !andb_true_iff, !N.leb_le; lia.
Qed.

(** The encoding stays within [a-z0-9_]. *)
Lemma encode_component_free c raw :
  is_plain c = false → c ≠ "_"%char → free_of c (encode_component raw) = true.
Proof.
  intros Hc Hu. induction raw as [|d raw IH]; simpl; [done|].
  assert (∀ e, is_plain e = true → bool_decide (c = e) = false) as Hne.
  { intros e He. apply bool_decide_eq_false. by intros ->; rewrite He in Hc. }
  pose proof (N_ascii_bounded d). destruct (is_plain d) eqn:Hd; simpl.
  - by rewrite Hne.
  - rewrite (bool_decide_eq_false_2 _ Hu), !(Hne (hex_digit _)); [done| |];
      apply hex_digit_plain; [by apply N.mod_lt|apply N.Div0.div_lt_upper_bound; lia].
Qed.

(** ** Decimal numbers *)

Definition is_digit (c : ascii) : bool :=
  let n := N_of_ascii c in ((48 <=? n) && (n <=? 57))%N.

Lemma pretty_N_char_digit n : is_digit (pretty_N_char n) = true.
Proof. unfold pretty_N_char. by repeat case_match. Qed.

Lemma pretty_N_go_free c n s :
  is_digit c = false → free_of c s = true → free_of c (pretty_N_go n s) = true.
Proof.
  intros Hc. revert s. induction (N.lt_wf_0 n) as [n _ IH]; intros s Hs.
  destruct (decide (n = 0)%N) as [->|Hn]; [by rewrite pretty_N_go_0|].
  rewrite pretty_N_go_step by lia. apply IH; [apply N.div_lt; lia|]. simpl.
  rewrite bool_decide_eq_false_2; [done|]. intros ->. by rewrite pretty_N_char_digit in Hc.
Qed.

(** A decimal rendering holds digits only. *)
Lemma pretty_free c (n : N) : is_digit c = false → free_of c (pretty n) = true.
Proof.
  intros Hc. unfold pretty, pretty_N. destruct (decide _).
  - simpl. rewrite bool_decide_eq_false_2; [done|]. by intros ->.
  - by apply pretty_N_go_free.
Qed.

Lemma suffix_inj d d' : suffix d = suffix d' → d = d'.
Proof.
  destruct d as [|o f l|a], d' as [|o' f' l'|a']; simpl; intros E; try done.
  - injection E as E. apply split_at_sep in E as [Ho E]; [|by apply encode_component_free..].
    apply split_at_sep in E as [Hf Hl]; [|by apply pretty_free..].
    apply encode_component_inj in Ho as ->. apply (inj pretty) in Hf as ->, Hl as ->. done.
  - injection E as E. change (pretty a = pretty a') in E. by apply (inj pretty) in E as ->.
Qed.

Lemma part_name_inj d d' p p' w w' k k' :
  part_name d p w k = part_name d' p' w' k' → d = d' ∧ p = p' ∧ w = w' ∧ k = k'.
Proof.
  unfold part_name. intros E.
  apply split_at_sep in E as [Hd E]; [|by apply encode_component_free..].
  apply split_at_sep in E as [Hp E]; [|by apply encode_component_free..].
  injection E as E. apply split_at_sep in E as [Hw E]; [|by apply pretty_free..].
  apply app_inv_suffix in E. apply encode_component_inj in Hd as ->, Hp as ->.
  apply (inj pretty) in Hw as ->. by apply suffix_inj in E as ->.
Qed.

(** Part names are injective.  Two parts with the same object name have the
    same dataset, partition, window and discriminator, so a re-PUT under a name
    can only concern the same part. *)
Theorem part_name_injective (d d' : DatasetId) (p p' : PartitionId) (w w' : WindowId)
    (k k' : PartDiscriminator) :
  part_name d p w k = part_name d' p' w' k' → d = d' ∧ p = p' ∧ w = w' ∧ k = k'.
Proof. apply part_name_inj. Qed.

(** Tenant-pure prefixes.  The name of a part starts with its dataset's and
    its partition's encodings, each a path segment of its own: no encoding
    contains [/], and a prefix for one partition is no prefix for another. *)
Theorem part_name_tenant_prefix (d : DatasetId) (p p' : PartitionId) (w : WindowId)
    (k : PartDiscriminator) (rest : string) :
  part_name d p w k = encode_component d +:+ "/" +:+ encode_component p' +:+ "/" +:+ rest →
  p = p'.
Proof.
  unfold part_name. intros E.
  apply split_at_sep in E as [_ E]; [|by apply encode_component_free..].
  apply split_at_sep in E as [Hp _]; [|by apply encode_component_free..].
  by apply encode_component_inj.
Qed.

(** * Drain scheduling

    Models [crates/duckspout-drain/src/schedule.rs]: the lateness hold on a
    closed window and the filter that applies it. *)

(** [DrainConfig] *)
Record DrainConfig := { allowed_lateness_ms : Z }.

(** [DrainConfig::DEFAULT_ALLOWED_LATENESS_MS] *)
Definition DEFAULT_ALLOWED_LATENESS_MS : Z := 15 * 60 * 1000.

(** [DrainConfig::default] *)
Definition DrainConfig_default : DrainConfig :=
  {| allowed_lateness_ms := DEFAULT_ALLOWED_LATENESS_MS |}.

(** [hold_elapsed] *)
Definition hold_elapsed (now_ms allowed_lateness_ms closed_at_ms : Z) : bool :=
  (i64_sat_add closed_at_ms allowed_lateness_ms <=? now_ms)%Z.

(** [eligible] *)
Definition eligible (now_ms : Z) (config : DrainConfig) (windows : list DrainableWindow) :
    list DrainableWindow :=
  List.filter (λ w, hold_elapsed now_ms (allowed_lateness_ms config) (dw_closed_at_ms w)) windows.

(** The saturating comparison, as plain arithmetic: the hold has elapsed when
    [now] has reached [closed + lateness], or the sum is past the end of time
    and now is that end (a sum below [i64::MIN] has always elapsed). *)
Lemma hold_elapsed_spec now lateness closed :
  is_i64 now →
  hold_elapsed now lateness closed = true ↔
    (closed + lateness ≤ now)%Z ∨ now = i64_max.
Proof.
  unfold is_i64, hold_elapsed, i64_sat_add. rewrite Z.leb_le. lia.
Qed.

(** The lateness hold.  A window is drained only once the hold past its
    close has elapsed (or the clock stands at the last instant), every offered
    window whose hold has elapsed is kept, and the order is preserved. *)
Theorem eligible_spec (now : Z) (config : DrainConfig) (windows : list DrainableWindow) :
  is_i64 now →
  eligible now config windows `sublist_of` windows ∧
  ∀ w, w ∈ eligible now config windows ↔
    w ∈ windows ∧
    ((dw_closed_at_ms w + allowed_lateness_ms config ≤ now)%Z ∨ now = i64_max).
Proof.
  intros Hn. split.
  - unfold eligible. induction windows as [|w ws IH]; simpl; [done|].
    destruct (hold_elapsed _ _ _); [by apply sublist_skip|by apply sublist_cons].
  - intros w. unfold eligible. rewrite list_elem_of_In, filter_In, <-list_elem_of_In.
    by rewrite hold_elapsed_spec.
Qed.

(** Time only helps.  With a non-negative hold no window becomes eligible
    before it closed, and an eligible window stays eligible as the clock
    advances. *)
Theorem eligible_monotone (now now' : Z) (config : DrainConfig) (windows : list DrainableWindow)
    (w : DrainableWindow) :
  is_i64 now → is_i64 now' → (now ≤ now')%Z → (0 ≤ allowed_lateness_ms config)%Z →
  is_i64 (dw_closed_at_ms w) → w ∈ eligible now config windows →
  (dw_closed_at_ms w ≤ now)%Z ∧ w ∈ eligible now' config windows.
Proof.
  intros Hn Hn' Hle Hl Hc. unfold eligible.
  rewrite !list_elem_of_In, !filter_In, !hold_elapsed_spec by done.
  unfold is_i64 in *. intros [Hw He]. split; [lia|]. split; [done|]. lia.
Qed.

(** * Micro-window table names

    Models [crates/duckspout-staging/src/naming.rs]: the name of the table that
    holds one (dataset, partition, window), and proves that the name determines
    the window although the separator [__] may run into an escape. *)

(** [encode_component] of the staging crate: its own copy of the encoding. *)
Fixpoint table_component (raw : string) : string :=
  match raw with
  | EmptyString => ""
  | String c raw => (if is_plain c then String c "" else escape c) +:+ table_component raw
  end.

(** [window_table_name] *)
Definition window_table_name (dataset : DatasetId) (partition : PartitionId)
    (window : WindowId) : string :=
  "s_" +:+ table_component dataset +:+ "__" +:+ table_component partition +:+ "__w" +:+
  pretty window.

(** A unit of the encoding is a plain character or an escape, whose second
    character is a digit and not [_]: reading from the left, the first [__]
    after a whole unit is the separator. *)
Lemma table_component_split a b s t :
  table_component a +:+ String "_" (String "_" s) = table_component b +:+ String "_" (String "_" t) →
  a = b ∧ s = t.
Proof.
  assert (∀ c, hex_digit (N_of_ascii c / 16) ≠ "_"%char) as Hhex.
  { intros c. apply plain_not_underscore, hex_digit_plain, N.Div0.div_lt_upper_bound.
    pose proof (N_ascii_bounded c). lia. }
  revert b. induction a as [|c a IH]; intros [|d b]; simpl; intros E.
  - by injection E.
  - destruct (is_plain d) eqn:Hd; simpl in E; injection E as E0 E1.
    + by destruct (plain_not_underscore _ Hd).
    + by destruct (Hhex d).
  - destruct (is_plain c) eqn:Hc; simpl in E; injection E as E0 E1.
    + by destruct (plain_not_underscore _ Hc).
    + by destruct (Hhex c).
  - destruct (is_plain c) eqn:Hc, (is_plain d) eqn:Hd; simpl in E.
    + injection E as -> E. by destruct (IH b E) as [-> ->].
    + injection E as -> E. by destruct (plain_not_underscore _ Hc).
    + injection E as <- E. by destruct (plain_not_underscore _ Hd).
    + injection E as H1 H2 E. destruct (IH b E) as [-> ->].
      by rewrite (escape_inj c d) by (unfold escape; congruence).
Qed.

Lemma window_table_name_inj d1 p1 w1 d2 p2 w2 :
  window_table_name d1 p1 w1 = window_table_name d2 p2 w2 → d1 = d2 ∧ p1 = p2 ∧ w1 = w2.
Proof.
  unfold window_table_name. intros E. apply (inj (String.app "s_")) in E.
  apply table_component_split in E as [-> E]. apply table_component_split in E as [-> E].
  injection E as E. by apply (inj pretty) in E as ->.
Qed.

(** Table names are injective.  Two micro-windows with the same staging
    table have the same dataset, partition and window id, so no window's rows
    are ever staged, sealed or dropped under another's name. *)
Theorem window_table_name_injective (d1 d2 : DatasetId) (p1 p2 : PartitionId) (w1 w2 : WindowId) :
  window_table_name d1 p1 w1 = window_table_name d2 p2 w2 ↔ d1 = d2 ∧ p1 = p2 ∧ w1 = w2.
Proof. split; [apply window_table_name_inj|]. by intros (-> & -> & ->). Qed.
