(* ===== verification/Coordinator.v ===== *)
(** * The drain coordinator

    Models [crates/duckspout-drain/src/coordinator.rs].  The coordinator
    reaches its neighbours only through ports, so it is a program over port
    calls: a call, and a continuation for each answer the port may give.  The
    environment (other tasks included) may answer anything at every call; the
    properties in [CoordinatorProps.v] quantify over all answers, and
    [DrainSystem.v] runs the program against the real ledger. *)

From S2P Require Import Prelude Types Ports Naming.

(** The [object_store] crate: its error and path types, and the conversion of a
    part name to a path. *)
Class ObjectStore := {
  store_error : Type;
  object_path : Type;
  path_from : string → object_path;
}.

(** [RequeueReason] *)
Inductive RequeueReason := RejectedByBackend | CommitLost | Unproven | CatalogUnavailable.

(** [DrainOutcome] *)
Inductive DrainOutcome :=
| OCommitted (watermark : option WatermarkRow)
| OAlreadyCommitted
| ORequeue (reason : RequeueReason).

(** [DrainError] *)
Inductive DrainError `{ObjectStore} :=
| WindowAhead (partition : PartitionId) (expected got : WindowId)
| DSeal (e : SealError)
| DLedger (e : LedgerRejection)
| DScratch (e : StorageError)
| DPut (e : store_error)
| DLake (e : LakeError).

(** [DatasetDrainPlan] *)
Record DatasetDrainPlan := {
  order_by : list string;
  event_time_column : string;
  dedup_key : option (list string);
}.

(** [DatasetDrainPlan::from_declaration] *)
Definition from_declaration (decl : DatasetDeclaration) (event_time_column : string) :
    DatasetDrainPlan :=
  let '(default_order_by, dedup_key) :=
    match dd_kind decl with
    | Event => ([event_time_column], None)
    | Changelog => (dd_key_cols decl ++ ["origin"] ++ ["seq"], Some (dd_key_cols decl))
    end in
  {| order_by := default default_order_by (dd_sort_key decl);
     event_time_column := event_time_column;
     dedup_key := dedup_key |}.

(** [Unsettled] *)
Inductive Unsettled := UAborted | UIndeterminate.

(** ** Programs over port calls *)

Section prog.
Context `{ObjectStore}.

(** The port calls the coordinator makes: [WatermarkBookkeeping],
    [SealSurface], [Storage] (the scratch), the object store, [LakeCommitter],
    [Clock] and [TraceSink]. *)
Inductive call :=
| NextWindow (partition : PartitionId)
| CompleteThroughMs (partition : PartitionId)
| AdvanceFor (manifest : WindowManifest)
| RecordCommit (manifest : WindowManifest)
| RecordedCoverage (partition : PartitionId) (window : WindowId)
| DrainableWindows
| SealWindow (request : SealRequest)
| DropWindow (dataset : DatasetId) (partition : PartitionId) (window : WindowId)
    (covered : list OriginSeqRange)
| ScratchGet (path : StoragePath)
| ScratchDelete (path : StoragePath)
| PutObject (location : object_path) (data : Bytes)
| CommitFiles (manifest : WindowManifest) (watermarks : list WatermarkRow)
| ReadWatermarks (partitions : list PartitionId)
| WallUnixMs
| Journal (event : TraceEvent).

Definition answer (c : call) : Type :=
  match c with
  | NextWindow _ => WindowId
  | CompleteThroughMs _ => option Z
  | AdvanceFor _ | RecordCommit _ => result (option WatermarkRow) LedgerRejection
  | RecordedCoverage _ _ => option (list OriginSeqRange)
  | DrainableWindows => result (list DrainableWindow) SealError
  | SealWindow _ => result SealedPart SealError
  | DropWindow _ _ _ _ => result DropOutcome SealError
  | ScratchGet _ => result Bytes StorageError
  | ScratchDelete _ => result unit StorageError
  | PutObject _ _ => result unit store_error
  | CommitFiles _ _ => result CommitOutcome LakeError
  | ReadWatermarks _ => result (list WatermarkRow) LakeError
  | WallUnixMs => Z
  | Journal _ => unit
  end.

Inductive prog (A : Type) : Type :=
| Ret (a : A)
| Do (c : call) (k : answer c → prog A).
Arguments Ret {A} a.
Arguments Do {A} c k.

Fixpoint bind {A B : Type} (p : prog A) (f : A → prog B) : prog B :=
  match p with
  | Ret a => f a
  | Do c k => Do c (λ r, bind (k r) f)
  end.

End prog.

Arguments prog {_} A.
Arguments Ret {_ A} a.
Arguments Do {_ A} c k.

Notation "'do!' x ':=' c 'in' k" := (Do c (λ x, k))
  (at level 10, x name, k at level 200) : rust_scope.
Notation "'let!' x ':=' p 'in' k" := (bind p (λ x, k))
  (at level 10, x name, k at level 200) : rust_scope.
Notation "'do?' x ':=' c 'orelse' f 'in' k" :=
  (Do c (λ r, match r with Ok x => k | Err e => Ret (Err (f e)) end))
  (at level 10, x name, f at level 0, k at level 200) : rust_scope.

(** ** The coordinator's methods *)

Section coordinator.
Context `{ObjectStore}.

Abbreviation attempt A := (prog (result A DrainError)) (only parsing).

(** [DrainCoordinator::eligible_windows] *)
Definition eligible_windows (config : DrainConfig) : attempt (list DrainableWindow) :=
  do? offered := DrainableWindows orelse DSeal in
  do! now := WallUnixMs in
  Ret (Ok (eligible now config offered)).

(** [!matches!(dropped, DropOutcome::AlreadyGone)] *)
Definition rows_left (dropped : DropOutcome) : bool :=
  match dropped with AlreadyGone => false | _ => true end.

Definition nonempty {A} (l : list A) : bool := match l with [] => false | _ => true end.

(** A [LedgerRejection] that says the commit already stands:
    [WindowNotNext] with [got < expected]. *)
Definition already_stands (e : LedgerRejection) : bool :=
  match e with NotNext _ expected got => (got <? expected)%N | Rejected _ => false end.

(** [DrainCoordinator::finish_committed], from the drop on; [watermark] is the
    row it returns. *)
Definition finish_drop (manifest : WindowManifest) (scratch : StoragePath)
    (watermark : option WatermarkRow) : attempt (option WatermarkRow) :=
  do! _ := ScratchDelete scratch in
  do? dropped := DropWindow (m_dataset manifest) (m_partition manifest) (m_window_id manifest)
                   (m_origin_coverage manifest) orelse DSeal in
  if nonempty (m_origin_coverage manifest) && rows_left dropped then
    do! _ := Journal EvDropWindow in Ret (Ok watermark)
  else Ret (Ok watermark).

(** [DrainCoordinator::finish_committed] *)
Definition finish_committed (manifest : WindowManifest) (scratch : StoragePath) :
    attempt (option WatermarkRow) :=
  do! recorded := RecordCommit manifest in
  match recorded with
  | Ok row => finish_drop manifest scratch row
  | Err e =>
      if already_stands e then
        do! current := CompleteThroughMs (m_partition manifest) in
        finish_drop manifest scratch
          ((λ ms, {| wr_partition := m_partition manifest; wr_complete_through_ms := ms |})
             <$> current)
      else Ret (Err (DLedger e))
  end.

(** [DrainCoordinator::finish_already_committed], after the scratch cleanup. *)
Definition finish_recorded (dataset : DatasetId) (partition : PartitionId) (window : WindowId) :
    attempt DrainOutcome :=
  do! recorded := RecordedCoverage partition window in
  let covered := default [] recorded in
  do? dropped := DropWindow dataset partition window covered orelse DSeal in
  if nonempty covered && rows_left dropped then
    do! _ := Journal EvDropWindow in Ret (Ok OAlreadyCommitted)
  else Ret (Ok OAlreadyCommitted).

(** [DrainCoordinator::finish_already_committed] *)
Definition finish_already_committed (dataset : DatasetId) (partition : PartitionId)
    (window : WindowId) (scratch : option StoragePath) : attempt DrainOutcome :=
  match scratch with
  | Some path => do! _ := ScratchDelete path in finish_recorded dataset partition window
  | None => finish_recorded dataset partition window
  end.

(** [previewed.map(|row| row.complete_through_ms).filter(..)]: the advance the
    commit carried, when it is strictly above the prior watermark. *)
Definition strict_advance (previewed : option WatermarkRow) (prior : option Z) : option Z :=
  match wr_complete_through_ms <$> previewed with
  | Some advanced =>
      match prior with
      | None => Some advanced
      | Some p => if (p <? advanced)%Z then Some advanced else None
      end
  | None => None
  end.

(** [rows.iter().find(|row| row.partition == *partition)] *)
Definition read_back_of (rows : list WatermarkRow) (partition : PartitionId) : option Z :=
  wr_complete_through_ms <$> List.find (λ row, bool_decide (wr_partition row = partition)) rows.

(** [read_back.is_some_and(|v| v >= advanced)] *)
Definition reaches (read_back : option Z) (advanced : Z) : bool :=
  match read_back with Some v => (advanced <=? v)%Z | None => false end.

(** [DrainCoordinator::reconcile], once the read-back has answered. *)
Definition resolve (unsettled : Unsettled) (manifest : WindowManifest) (sealed : SealedPart)
    (previewed : option WatermarkRow) (prior : option Z) (rows : list WatermarkRow) :
    attempt DrainOutcome :=
  match strict_advance previewed prior with
  | Some advanced =>
      if reaches (read_back_of rows (m_partition manifest)) advanced then
        let! finished := finish_committed manifest (sl_path sealed) in
        match finished with
        | Ok watermark =>
            match unsettled with
            | UIndeterminate => Ret (Ok (OCommitted watermark))
            | UAborted => Ret (Ok OAlreadyCommitted)
            end
        | Err e => Ret (Err e)
        end
      else
        do! _ := ScratchDelete (sl_path sealed) in
        Ret (Ok (ORequeue
          match unsettled with UAborted => RejectedByBackend | UIndeterminate => CommitLost end))
  | None =>
      do! _ := ScratchDelete (sl_path sealed) in Ret (Ok (ORequeue Unproven))
  end.

(** [DrainCoordinator::reconcile] *)
Definition reconcile (unsettled : Unsettled) (manifest : WindowManifest) (sealed : SealedPart)
    (previewed : option WatermarkRow) (prior : option Z) : attempt DrainOutcome :=
  do! answered := ReadWatermarks [m_partition manifest] in
  match answered with
  | Err _ =>
      do! _ := ScratchDelete (sl_path sealed) in Ret (Ok (ORequeue CatalogUnavailable))
  | Ok rows =>
      match unsettled with
      | UIndeterminate =>
          do! _ := Journal EvReconcile in
          resolve unsettled manifest sealed previewed prior rows
      | UAborted => resolve unsettled manifest sealed previewed prior rows
      end
  end.

(** The manifest [drain_window] builds from the sealed part. *)
Definition manifest_of (dataset : DatasetId) (partition : PartitionId) (window : WindowId)
    (sealed : SealedPart) : WindowManifest := {|
  m_dataset := dataset; m_partition := partition; m_window_id := window;
  m_origin_coverage := sl_origin_coverage sealed; m_rows := sl_rows sealed;
  m_event_time_min_ms := sl_event_time_min_ms sealed;
  m_event_time_max_ms := sl_event_time_max_ms sealed;
  m_dedup_removed := sl_dedup_removed sealed;
  m_parts := [part_name dataset partition window DWindow] |}.

(** [DrainCoordinator::drain_window], steps 4 and 5: the PUT and the commit. *)
Definition put_and_commit (manifest : WindowManifest) (part : PartName) (sealed : SealedPart)
    (previewed : option WatermarkRow) (prior : option Z) : attempt DrainOutcome :=
  do? data := ScratchGet (sl_path sealed) orelse DScratch in
  do? _ := PutObject (path_from part) data orelse DPut in
  do! _ := Journal EvPutPart in
  do? outcome := CommitFiles manifest (option_list previewed) orelse DLake in
  match outcome with
  | Committed =>
      do! _ := Journal EvLakeCommitOk in
      let! finished := finish_committed manifest (sl_path sealed) in
      match finished with
      | Ok watermark => Ret (Ok (OCommitted watermark))
      | Err e => Ret (Err e)
      end
  | Aborted =>
      do! _ := Journal EvLakeCommitAbort in
      reconcile UAborted manifest sealed previewed prior
  | Indeterminate =>
      do! _ := Journal EvLakeCommitIndeterminate in
      reconcile UIndeterminate manifest sealed previewed prior
  end.

(** [DrainCoordinator::drain_window] *)
Definition drain_window (dataset : DatasetId) (partition : PartitionId) (window : WindowId)
    (plan : DatasetDrainPlan) : attempt DrainOutcome :=
  do! expected := NextWindow partition in
  if (window <? expected)%N then finish_already_committed dataset partition window None
  else if (expected <? window)%N then Ret (Err (WindowAhead partition expected window))
  else
    do! prior := CompleteThroughMs partition in
    do? sealed := SealWindow {| sr_dataset := dataset; sr_partition := partition;
                                sr_window := window; sr_order_by := order_by plan;
                                sr_event_time_column := event_time_column plan;
                                sr_dedup_key := dedup_key plan |} orelse DSeal in
    do! _ := Journal EvSealPart in
    let part := part_name dataset partition window DWindow in
    let manifest := manifest_of dataset partition window sealed in
    do! previewed := AdvanceFor manifest in
    match previewed with
    | Ok row => put_and_commit manifest part sealed row prior
    | Err e =>
        if already_stands e then
          finish_already_committed dataset partition window (Some (sl_path sealed))
        else Ret (Err (DLedger e))
    end.

End coordinator.
