(* ===== verification/CoordinatorProps.v ===== *)
(** * Properties of the drain coordinator

    What one drain attempt may do, whatever its ports answer.  A run of a
    program is the list of its calls with the answers they got; the claims are
    about every run of [drain_window]. *)

From S2P Require Import Prelude Types Ports Naming Coordinator.

Section runs.
Context `{ObjectStore}.

(** A call and the answer it got. *)
Inductive event := Ev (c : call) (r : answer c).

(** [exec p t a]: the program [p] can make the calls [t], answered as [t] says,
    and return [a]. *)
Fixpoint exec {A} (p : prog A) (t : list event) (a : A) : Prop :=
  match p with
  | Ret b => t = [] ∧ a = b
  | Do c k => ∃ r t', t = Ev c r :: t' ∧ exec (k r) t' a
  end.

(** Every run of [p], started after the calls [tr], ends in [Q]. *)
Fixpoint always {A} (Q : list event → A → Prop) (tr : list event) (p : prog A) : Prop :=
  match p with
  | Ret a => Q tr a
  | Do c k => ∀ r, always Q (tr ++ [Ev c r]) (k r)
  end.

Lemma always_exec {A} (Q : list event → A → Prop) tr (p : prog A) t a :
  always Q tr p → exec p t a → Q (tr ++ t) a.
Proof.
  revert tr t. induction p as [b|c k IH]; simpl; intros tr t Hq.
  - intros [-> ->]. by rewrite app_nil_r.
  - intros (r & t' & -> & He). rewrite cons_middle, app_assoc. by eapply IH.
Qed.

Lemma exec_always {A} (p : prog A) (Q : list event → A → Prop) :
  always Q [] p → ∀ t a, exec p t a → Q t a.
Proof. intros Hq t a He. exact (always_exec Q [] p t a Hq He). Qed.

Lemma always_bind {A B} (Q : list event → B → Prop) tr (p : prog A) (f : A → prog B) :
  always Q tr (bind p f) ↔ always (λ tr' a, always Q tr' (f a)) tr p.
Proof.
  revert tr. induction p as [a|c k IH]; intros tr; simpl; [done|].
  split; intros Hq r; by apply IH.
Qed.

Lemma always_mono {A} (Q Q' : list event → A → Prop) tr (p : prog A) :
  (∀ t a, Q t a → Q' t a) → always Q tr p → always Q' tr p.
Proof. intros HQ. revert tr. induction p; simpl; intros tr Hq; eauto. Qed.

(** ** What a run did *)

Definition committed_by (e : event) :
    option (WindowManifest * list WatermarkRow * result CommitOutcome LakeError) :=
  match e with Ev (CommitFiles m ws) r => Some (m, ws, r) | _ => None end.

Definition read_back_by (e : event) : option (result (list WatermarkRow) LakeError) :=
  match e with Ev (ReadWatermarks _) r => Some r | _ => None end.

Definition put_by (e : event) : option (object_path * Bytes * result unit store_error) :=
  match e with Ev (PutObject l d) r => Some (l, d, r) | _ => None end.

Definition dropped_by (e : event) :
    option (DatasetId * PartitionId * WindowId * list OriginSeqRange) :=
  match e with Ev (DropWindow d p w cov) _ => Some (d, p, w, cov) | _ => None end.

Definition recorded_by (e : event) : option WindowManifest :=
  match e with Ev (RecordCommit m) _ => Some m | _ => None end.

Definition journaled_by (e : event) : option TraceEvent :=
  match e with Ev (Journal ev) _ => Some ev | _ => None end.

(** What the answers of a run prove about the commit of [m]: it was reported
    durable, or the one read-back shows the strict advance it carried. *)
Definition landed_evidence (t : list event) (m : WindowManifest) : Prop :=
  ∃ previewed prior,
    Ev (CompleteThroughMs (m_partition m)) prior ∈ t ∧
    Ev (AdvanceFor m) (Ok previewed) ∈ t ∧
    (Ev (CommitFiles m (option_list previewed)) (Ok Committed) ∈ t ∨
     ∃ outcome rows advanced,
       Ev (CommitFiles m (option_list previewed)) (Ok outcome) ∈ t ∧ outcome ≠ Committed ∧
       omap read_back_by t = [Ok rows] ∧ strict_advance previewed prior = Some advanced ∧
       reaches (read_back_of rows (m_partition m)) advanced = true).

End runs.

Abbreviation commits_in t := (omap committed_by t).
Abbreviation read_backs_in t := (omap read_back_by t).
Abbreviation puts_in t := (omap put_by t).
Abbreviation drops_in t := (omap dropped_by t).
Abbreviation records_in t := (omap recorded_by t).
Abbreviation journal_of t := (omap journaled_by t).

(** The branches of the coordinator's programs, one goal per run. *)
Ltac drain_runs :=
  unfold drain_window, finish_already_committed, finish_recorded, put_and_commit, reconcile,
    resolve, finish_committed, finish_drop;
  repeat (cbn [always bind app];
    match goal with
    | |- ∀ _ : answer _, _ => let r := fresh "r" in intros r
    | |- always _ _ _ => case_match
    end).

(** Decide membership in the calls of a concrete run. *)
Ltac in_run :=
  repeat match goal with
  | Hin : _ ∈ [] |- _ => by apply elem_of_nil in Hin
  | Hin : _ ∈ _ :: _ |- _ => apply elem_of_cons in Hin as [Hin|Hin]; [try discriminate Hin|]
  | |- _ ∈ _ :: _ => first [by apply list_elem_of_here | apply list_elem_of_further]
  end.

(** The evidence of a landed commit, found among the calls of a run. *)
Ltac evidence :=
  eexists _, _; split; [in_run|]; split; [in_run|];
  first [ left; by in_run
        | right; eexists _, _, _; split; [in_run|]; do 2 (split; [done|]); by split ].

(** A sublist of the calls of a concrete run. *)
Ltac sublist_run :=
  repeat first [ apply sublist_nil_l | eapply sublist_skip | apply sublist_cons ].

Section drain.
Context `{ObjectStore} (dataset : DatasetId) (partition : PartitionId) (window : WindowId)
  (plan : DatasetDrainPlan).

Abbreviation attempt := (drain_window dataset partition window plan).

(** No blind retry.  In one drain attempt, whatever the ports answer, there
    is at most one PUT, at most one lake commit and at most one read-back; a
    read-back follows a commit that came back aborted or indeterminate. *)
Theorem drain_single_commit :
  ∀ t a, exec attempt t a →
  (length (puts_in t) ≤ 1 ∧ length (commits_in t) ≤ 1 ∧ length (read_backs_in t) ≤ 1)%nat ∧
  (read_backs_in t ≠ [] → ∃ m ws o, commits_in t = [(m, ws, Ok o)] ∧ o ≠ Committed).
Proof.
  apply exec_always. drain_runs; simpl; (split; [lia|]); intros Hr; try done;
    eexists _, _, _; by split.
Qed.

(** Acked rows leave staging only with authority.  Every drop of an attempt
    is of the attempt's own window, and its coverage is either that of the
    manifest this attempt committed, with evidence in hand that the commit
    landed, or (no commit made) the coverage the bookkeeping reported recorded
    for the window. *)
Theorem drain_drop_authority :
  ∀ t a, exec attempt t a →
  ∀ d p w cov, (d, p, w, cov) ∈ drops_in t →
    (d, p, w) = (dataset, partition, window) ∧
    ((∃ m, cov = m_origin_coverage m ∧ m_partition m = p ∧ m_window_id m = w ∧
       landed_evidence t m) ∨
     (commits_in t = [] ∧ ∃ r, Ev (RecordedCoverage partition window) r ∈ t ∧ cov = default [] r)).
Proof.
  refine (exec_always _ _ _). drain_runs; simpl; intros d p w cov Hin; in_run.
  all: simplify_eq; split; [done|].
  all: match goal with
       | |- context [CommitFiles ?m _] => left; exists m; do 3 (split; [done|]); evidence
       | |- _ => right; split; [done|]; eexists; split; [|done]; in_run
       end.
Qed.

(** A commit is recorded in the ledger only with evidence that it landed,
    and only the manifest this attempt committed is recorded. *)
Theorem drain_record_landed :
  ∀ t a, exec attempt t a → ∀ m, m ∈ records_in t → landed_evidence t m.
Proof.
  refine (exec_always _ _ _). drain_runs; simpl; intros m Hin; in_run.
  all: subst; evidence.
Qed.

(** A requeued window is untouched.  When an attempt ends in a requeue it
    recorded nothing and dropped nothing, and the lake was asked to commit
    exactly once with an outcome other than [Committed]. *)
Theorem drain_requeue_untouched :
  ∀ t a, exec attempt t a → ∀ reason, a = Ok (ORequeue reason) →
  drops_in t = [] ∧ records_in t = [] ∧
  ∃ m ws o, commits_in t = [(m, ws, Ok o)] ∧ o ≠ Committed.
Proof.
  refine (exec_always _ _ _). drain_runs; simpl; intros reason E; simplify_eq.
  all: do 2 (split; [done|]); by eexists _, _, _.
Qed.

(** What is committed is what was sealed.  Before a lake commit the attempt
    sealed its window, previewed the manifest built from that part, read the
    sealed bytes and stored exactly those bytes under the window's part name;
    the commit carries that manifest and the previewed watermark row. *)
Theorem drain_commits_sealed :
  ∀ t a, exec attempt t a → ∀ m ws r, (m, ws, r) ∈ commits_in t →
  ∃ sealed data previewed plan_request,
    m = manifest_of dataset partition window sealed ∧ ws = option_list previewed ∧
    sr_window plan_request = window ∧ sr_partition plan_request = partition ∧
    [Ev (SealWindow plan_request) (Ok sealed);
     Ev (AdvanceFor m) (Ok previewed);
     Ev (ScratchGet (sl_path sealed)) (Ok data);
     Ev (PutObject (path_from (part_name dataset partition window DWindow)) data) (Ok tt);
     Ev (CommitFiles m ws) r] `sublist_of` t.
Proof.
  refine (exec_always _ _ _). drain_runs; simpl; intros m ws res Hin; in_run.
  all: simplify_eq; repeat match goal with u : () |- _ => destruct u end.
  all: eexists _, _, _, _; do 2 (split; [done|]); refine (conj _ (conj _ _));
    [..|sublist_run]; done.
Qed.

(** The order of the fence.  A window below the dense-next one is never
    sealed, put or committed; a window above it is refused before anything is
    done, with no call after the fence check. *)
Theorem drain_fence :
  ∀ t a, exec attempt t a → ∃ expected t', t = Ev (NextWindow partition) expected :: t' ∧
  ((window < expected)%N → commits_in t = [] ∧ puts_in t = [] ∧ records_in t = [] ∧
     ∀ outcome, a = Ok outcome → outcome = OAlreadyCommitted) ∧
  ((expected < window)%N → t' = [] ∧ a = Err (WindowAhead partition expected window)).
Proof.
  refine (exec_always _ _ _). drain_runs; simpl; eexists _, _; (split; [done|]); bool_tests;
    repeat match goal with r : answer (NextWindow _) |- _ => cbn [answer] in r end.
  all: split; intros Hlt; try lia.
  all: repeat (split; [done|]); intros; by simplify_eq.
Qed.

(** An attempt is finite: it makes at most seventeen port calls. *)
Theorem drain_bounded : ∀ t a, exec attempt t a → (length t ≤ 17)%nat.
Proof. refine (exec_always _ _ _). drain_runs; simpl; lia. Qed.

End drain.
