(* ===== verification/DrainSystem.v ===== *)
(** * The drain against its ledger and its lake

    The coordinator of [crates/duckspout-drain/src/coordinator.rs] run against
    any bookkeeping that keeps the port's laws (the watermark ledger does,
    [SharedLedger.v]) and any lake that behaves as [LakeCommitter] is
    documented ([crates/duckspout-types/src/ports.rs]): [Committed] means the
    files are registered and the watermark rows stored, [Aborted] means nothing
    changed, [Indeterminate] means either.  The one read-back then decides
    rightly whether the commit stands. *)

From S2P Require Import Prelude Types Ports Naming Coordinator.

Section system.
Context `{ObjectStore, BookkeepingLaws L}.

(** The bookkeeping, the manifests registered in the lake, and the watermark
    rows the lake stores. *)
Record World := {
  w_ledger : L;
  w_lake : list WindowManifest;
  w_rows : gmap string Z;
}.

Definition with_ledger (w : World) (l : L) : World :=
  {| w_ledger := l; w_lake := w_lake w; w_rows := w_rows w |}.

(** The commit of [m] lands: its files are registered and the rows stored, in
    one transaction. *)
Definition land (w : World) (m : WindowManifest) (ws : list WatermarkRow) : World :=
  {| w_ledger := w_ledger w; w_lake := m :: w_lake w;
     w_rows := foldl (λ rs row, <[wr_partition row := wr_complete_through_ms row]> rs)
                 (w_rows w) ws |}.

(** The answers a call may get in a world, and the world after it.  The ports
    that hold neither watermarks nor registrations may answer anything; a
    sealed part fits the machine types. *)
Definition answers (w : World) (c : call) : answer c → World → Prop :=
  match c return answer c → World → Prop with
  | NextWindow p => λ r w', r = wb_next_window (w_ledger w) p ∧ w' = w
  | CompleteThroughMs p => λ r w', r = wb_complete_through_ms (w_ledger w) p ∧ w' = w
  | AdvanceFor m => λ r w', r = wb_advance_for (w_ledger w) m ∧ w' = w
  | RecordCommit m => λ r w',
      r = fst (wb_record_commit (w_ledger w) m) ∧
      w' = with_ledger w (snd (wb_record_commit (w_ledger w) m))
  | RecordedCoverage p k => λ r w', r = wb_recorded_coverage (w_ledger w) p k ∧ w' = w
  | CommitFiles m ws => λ r w',
      match r with
      | Ok Committed => w' = land w m ws
      | Ok Aborted | Err _ => w' = w
      | Ok Indeterminate => w' = w ∨ w' = land w m ws
      end
  | ReadWatermarks ps => λ r w',
      w' = w ∧
      match r with
      | Ok rows => ∀ p, p ∈ ps → read_back_of rows p = w_rows w !! p
      | Err _ => True
      end
  | SealWindow q => λ r w',
      w' = w ∧
      match r with
      | Ok sealed => manifest_typed (manifest_of (sr_dataset q) (sr_partition q) (sr_window q) sealed)
      | Err _ => True
      end
  | _ => λ _ w', w' = w
  end.

(** Every run of a program from [w] ends in [Q]. *)
Fixpoint ensures {A} (Q : World → A → Prop) (w : World) (p : prog A) : Prop :=
  match p with
  | Ret a => Q w a
  | Do c k => ∀ r w', answers w c r w' → ensures Q w' (k r)
  end.

(** [runs w p w' a]: from [w], the program can end in [w'] and return [a]. *)
Fixpoint runs {A} (w : World) (p : prog A) (w' : World) (a : A) : Prop :=
  match p with
  | Ret b => w' = w ∧ a = b
  | Do c k => ∃ r w1, answers w c r w1 ∧ runs w1 (k r) w' a
  end.

Lemma ensures_runs {A} (Q : World → A → Prop) w (p : prog A) w' a :
  ensures Q w p → runs w p w' a → Q w' a.
Proof.
  revert w. induction p as [b|c k IH]; simpl; intros w Hq.
  - by intros [-> ->].
  - intros (r & w1 & Hans & Hr). eapply IH; [|exact Hr]. by apply Hq.
Qed.

Lemma ensures_bind {A B} (Q : World → B → Prop) w (p : prog A) (f : A → prog B) :
  ensures Q w (bind p f) ↔ ensures (λ w' a, ensures Q w' (f a)) w p.
Proof.
  revert w. induction p as [a|c k IH]; intros w; simpl; [done|].
  split; intros Hq r w' Ha; apply IH; auto.
Qed.

Lemma ensures_mono {A} (Q Q' : World → A → Prop) w (p : prog A) :
  (∀ w' a, Q w' a → Q' w' a) → ensures Q w p → ensures Q' w p.
Proof. intros HQ. revert w. induction p; simpl; eauto. Qed.

(** ** The bookkeeping agrees with the lake

    What boot recovery establishes (the ledger rebuilt from the lake's
    manifests) and every settled attempt keeps. *)

Record synced (w : World) : Prop := {
  sy_good : wb_good (w_ledger w);
  (** The lake stores the watermark the ledger computed. *)
  sy_rows : ∀ p, w_rows w !! p = wb_complete_through_ms (w_ledger w) p;
  (** Every registered window is recorded, with its coverage. *)
  sy_recorded : ∀ m, m ∈ w_lake w →
    wb_recorded_coverage (w_ledger w) (m_partition m) (m_window_id m) = Some (m_origin_coverage m);
  (** Every window below the fence is registered. *)
  sy_registered : ∀ p k, (k < wb_next_window (w_ledger w) p)%N →
    ∃ m, m ∈ w_lake w ∧ m_partition m = p ∧ m_window_id m = k;
  (** A window is registered once. *)
  sy_once : NoDup ((λ m, (m_partition m, m_window_id m)) <$> w_lake w);
}.

(** The lake after the commit of [m] landed, the ledger not yet told. *)
Definition landed (w : World) (m : WindowManifest) (previewed : option WatermarkRow) : World :=
  land w m (option_list previewed).

Definition row_of (p : PartitionId) (ms : Z) : WatermarkRow :=
  {| wr_partition := p; wr_complete_through_ms := ms |}.

(** Recording the landed manifest brings the ledger back in step. *)
Lemma record_synced w m previewed :
  synced w → manifest_typed m → wb_advance_for (w_ledger w) m = Ok previewed →
  fst (wb_record_commit (w_ledger w) m) = Ok previewed ∧
  synced (with_ledger (landed w m previewed) (snd (wb_record_commit (w_ledger w) m))) ∧
  previewed = row_of (m_partition m)
    <$> wb_complete_through_ms (snd (wb_record_commit (w_ledger w) m)) (m_partition m).
Proof.
  intros [Hg Hrows Hrec Hreg Honce] Hm. rewrite wb_preview. intros Hok.
  destruct (wb_recorded _ _ _ Hg Hm Hok) as (Hw & Hnext & Hcov & Hrow).
  set (l' := snd (wb_record_commit (w_ledger w) m)) in *.
  split; [done|]. split; [|done]. split; simpl.
  - by apply wb_good_record.
  - intros p. destruct (decide (p = m_partition m)) as [->|Hne].
    + rewrite Hrow. destruct (wb_complete_through_ms l' (m_partition m)) as [ms|] eqn:E; simpl.
      * by rewrite lookup_insert_eq.
      * rewrite Hrows. destruct (wb_complete_through_ms (w_ledger w) (m_partition m)) eqn:E0; [|done].
        destruct (wb_monotone _ m _ _ Hg Hm E0) as (? & ? & _). unfold l' in E. congruence.
    + destruct (wb_other (w_ledger w) m p Hne) as [Ho _]. fold l' in Ho. rewrite Ho, <-Hrows, Hrow.
      destruct (wb_complete_through_ms l' (m_partition m)) as [ms|]; simpl; [|done].
      by rewrite lookup_insert_ne.
  - intros m' [->|Hm']%elem_of_cons; [done|]. apply wb_stable; auto.
  - intros p k Hk. destruct (decide (p = m_partition m)) as [->|Hne].
    + rewrite Hnext in Hk. destruct (decide (k = m_window_id m)) as [->|].
      * exists m. split; [by left|done].
      * destruct (Hreg (m_partition m) k) as (m' & ? & ?); [lia|].
        exists m'. split; [by right|done].
    + destruct (wb_other (w_ledger w) m p Hne) as [_ Ho]. fold l' in Ho. rewrite Ho in Hk.
      destruct (Hreg p k Hk) as (m' & ? & ?). exists m'. split; [by right|done].
  - apply NoDup_cons. split; [|done]. intros (m' & E & Hm')%list_elem_of_fmap.
    injection E as Ep Ew. specialize (Hrec m' Hm'). rewrite <-Ep, <-Ew in Hrec.
    assert (m_window_id m < wb_next_window (w_ledger w) (m_partition m))%N; [|lia].
    apply wb_dense; [done|]. by rewrite Hrec.
Qed.

(** ** The coordinator's steps *)

(** A landed commit shows through the read-back exactly when it carried a
    strict advance. *)
Lemma landed_rows w m previewed advanced :
  (∀ row, previewed = Some row → wr_partition row = m_partition m) →
  strict_advance previewed (w_rows w !! m_partition m) = Some advanced →
  w_rows (landed w m previewed) !! m_partition m = Some advanced.
Proof.
  unfold strict_advance. destruct previewed as [[q ms]|]; simpl; [|done].
  intros Hq. specialize (Hq _ eq_refl). simpl in Hq. subst q.
  rewrite lookup_insert_eq. repeat case_match; naive_solver.
Qed.

Lemma strict_advance_above previewed prior advanced :
  strict_advance previewed prior = Some advanced → reaches prior advanced = false.
Proof.
  unfold strict_advance, reaches. intros E. repeat case_match; simplify_eq; bool_tests; [|done..].
  apply Z.leb_gt. lia.
Qed.

Lemma reaches_refl z : reaches (Some z) z = true.
Proof. simpl. apply Z.leb_refl. Qed.

(** Take one call of the program: its answer [r], the world [w'] after it. *)
Tactic Notation "step" ident(r) ident(w') ident(Ha) :=
  cbn [ensures]; intros r w' Ha; cbn [answers answer] in r, Ha.

Lemma finish_drop_spec w m path row :
  ensures (λ w' a, w' = w ∧ ∀ wm, a = Ok wm → wm = row) w (finish_drop m path row).
Proof.
  unfold finish_drop. step r w1 Ha. subst. step r' w2 Ha. subst.
  destruct r'; cbn [ensures]; [|by split].
  case_match; cbn [ensures answers]; [intros _ ? ->|]; split; try done; congruence.
Qed.

Lemma finish_recorded_spec w d p k :
  ensures (λ w' a, w' = w ∧ ∀ o, a = Ok o → o = OAlreadyCommitted) w (finish_recorded d p k).
Proof.
  unfold finish_recorded. step r w1 Ha. destruct Ha as [-> ->]. step r w2 Ha. subst.
  destruct r; cbn [ensures]; [|by split].
  case_match; cbn [ensures answers]; [intros _ ? ->|]; split; try done; congruence.
Qed.

(** Finishing a landed commit records it and brings ledger and lake in step. *)
Lemma finish_committed_spec w m path previewed :
  synced w → manifest_typed m → wb_advance_for (w_ledger w) m = Ok previewed →
  ensures (λ w' a, synced w' ∧ w_lake w' = m :: w_lake w ∧
             ∀ wm, a = Ok wm → wm = row_of (m_partition m) <$> w_rows w' !! m_partition m)
    (landed w m previewed) (finish_committed m path).
Proof.
  intros Hs Hm Hadv. destruct (record_synced w m previewed Hs Hm Hadv) as (Hok & Hs' & Hrow).
  unfold finish_committed. step r w1 Ha. destruct Ha as [-> ->]. cbn [w_ledger landed land]. rewrite Hok.
  eapply ensures_mono; [|apply finish_drop_spec]. intros w' a [-> Ha].
  split; [done|]. split; [done|]. intros wm E. rewrite (Ha wm E).
  pose proof (sy_rows _ Hs' (m_partition m)) as Hr. simpl in Hr |- *. by rewrite Hr.
Qed.

(** What an attempt may leave behind. *)
Definition attempt_post (w : World) (p : PartitionId) (k : WindowId) (w' : World)
    (a : result DrainOutcome DrainError) : Prop :=
  match a with
  | Ok (OCommitted wm) =>
      synced w' ∧ wm = row_of p <$> w_rows w' !! p ∧
      ∃ m, w_lake w' = m :: w_lake w ∧ m_partition m = p ∧ m_window_id m = k
  | Ok OAlreadyCommitted => w' = w ∧ (k < wb_next_window (w_ledger w) p)%N
  | Ok (ORequeue (RejectedByBackend | CommitLost)) => w' = w
  | Ok (ORequeue (Unproven | CatalogUnavailable)) =>
      w_ledger w' = w_ledger w ∧
      (w' = w ∨ ∃ m, w_lake w' = m :: w_lake w ∧ m_partition m = p ∧ m_window_id m = k)
  | Err _ => synced w'
  end.

(** The resolution of an unsettled commit, [w1] being the lake as it really
    is. *)
Lemma reconcile_spec u w w1 m sealed previewed :
  synced w → manifest_typed m → wb_advance_for (w_ledger w) m = Ok previewed →
  w1 = w ∨ (u = UIndeterminate ∧ w1 = landed w m previewed) →
  ensures (attempt_post w (m_partition m) (m_window_id m)) w1
    (reconcile u m sealed previewed (wb_complete_through_ms (w_ledger w) (m_partition m))).
Proof.
  intros Hs Hm Hadv Hw1. destruct (record_synced w m previewed Hs Hm Hadv) as (_ & _ & Hrow).
  assert (w_ledger w1 = w_ledger w ∧
    (w1 = w ∨ ∃ m', w_lake w1 = m' :: w_lake w ∧ m_partition m' = m_partition m ∧
       m_window_id m' = m_window_id m)) as Hleft.
  { destruct Hw1 as [->|[_ ->]]; (split; [done|]); [by left|right; by exists m]. }
  unfold reconcile. step r w2 Ha. destruct Ha as [-> Hread]. destruct r as [rows|e].
  2: { step r w2 Ha. subst. exact Hleft. }
  specialize (Hread (m_partition m) (list_elem_of_here _ _)).
  assert (ensures (attempt_post w (m_partition m) (m_window_id m)) w1
    (resolve u m sealed previewed (wb_complete_through_ms (w_ledger w) (m_partition m)) rows))
    as Hresolve; [|destruct u; [done|step r w2 Ha; by subst]].
  unfold resolve. rewrite <-(sy_rows _ Hs).
  destruct (strict_advance _ _) as [advanced|] eqn:Hsa; [|step r w2 Ha; by subst].
  rewrite Hread. destruct Hw1 as [->|[-> ->]].
  - rewrite (strict_advance_above _ _ _ Hsa). step r w2 Ha. subst. by destruct u.
  - rewrite (landed_rows w m previewed advanced), reaches_refl;
      [|by rewrite Hrow; destruct (wb_complete_through_ms _ _); intros; simplify_eq/=|done].
    apply ensures_bind. eapply ensures_mono; [|by apply finish_committed_spec].
    intros w' [wm|e] (Hs' & Hlake & Hwm); simpl; [|done].
    split; [done|]. split; [by apply Hwm|]. by exists m.
Qed.

(** At the fence no rejection says that the commit already stands. *)
Lemma advance_err_ahead w m e :
  (wb_next_window (w_ledger w) (m_partition m) ≤ m_window_id m)%N →
  wb_advance_for (w_ledger w) m = Err e → already_stands e = false.
Proof.
  intros Hle. rewrite wb_preview. destruct e as [p x g|msg]; [|done]. intros E.
  destruct (wb_fence _ _ _ _ _ E) as (-> & -> & -> & _). by apply N.ltb_ge.
Qed.

Lemma put_and_commit_spec w m part sealed previewed :
  synced w → manifest_typed m → wb_advance_for (w_ledger w) m = Ok previewed →
  ensures (attempt_post w (m_partition m) (m_window_id m)) w
    (put_and_commit m part sealed previewed
       (wb_complete_through_ms (w_ledger w) (m_partition m))).
Proof.
  intros Hs Hm Hadv. unfold put_and_commit.
  step r w1 Ha. subst. destruct r as [data|e]; [|done].
  step r w1 Ha. subst. destruct r as [u|e]; [|done].
  step r w1 Ha. subst. step r' w1 Ha. destruct r' as [[]|e]; [..|by subst].
  - subst. step r' w2 Ha. subst. apply ensures_bind.
    eapply ensures_mono; [|by apply (finish_committed_spec w)].
    intros w' [wm|e] (Hs' & Hlake & Hwm); simpl; [|done].
    split; [done|]. split; [by apply Hwm|]. by exists m.
  - subst. step r' w2 Ha. subst. apply reconcile_spec; auto.
  - step r' w2 Hj. subst. apply reconcile_spec; [done..|]. destruct Ha; auto.
Qed.

(** C12: a drain attempt decides rightly.  From a world where the bookkeeping
    agrees with the lake, an attempt that reports [Committed] has registered
    exactly its window, once, the ledger again agrees with the lake and the
    reported row is the lake's watermark; [AlreadyCommitted] means the window
    was registered before and nothing changed; a requeue for a rejected or a
    lost commit means the lake is unchanged; a requeue that proves nothing
    leaves the ledger as it was; and after any error ledger and lake agree. *)
Theorem drain_decides (w w' : World) (dataset : DatasetId) (partition : PartitionId)
    (window : WindowId) (plan : DatasetDrainPlan) (a : result DrainOutcome DrainError) :
  synced w → runs w (drain_window dataset partition window plan) w' a →
  attempt_post w partition window w' a.
Proof.
  intros Hs. apply ensures_runs. unfold drain_window. step r w1 Ha. destruct Ha as [-> ->].
  destruct (window <? _)%N eqn:Hlt; bool_tests.
  { unfold finish_already_committed. eapply ensures_mono; [|apply finish_recorded_spec].
    intros w1 [o|e] [-> Ho]; simpl; [|done]. by rewrite (Ho o eq_refl). }
  destruct (_ <? window)%N; [done|]. step r w1 Ha. destruct Ha as [-> ->].
  step r w1 Ha. destruct Ha as [-> Hty]. destruct r as [sealed|e]; [|done]. simpl in Hty.
  step u w1 Ha. subst. set (m := manifest_of dataset partition window sealed) in *.
  step r w1 Ha. destruct Ha as [-> ->].
  destruct (wb_advance_for _ m) as [previewed|e] eqn:Hadv.
  - by apply (put_and_commit_spec w m).
  - rewrite (advance_err_ahead w m e) by done. done.
Qed.

End system.
