(* ===== verification/Engine.v ===== *)
(** * The staging engine

    Models [crates/duckspout-staging/src/engine.rs]: the hot database, the
    writer's in-memory mirrors of its metadata tables, and the [StageCommit]
    transaction.  The SQL statements are modelled by what they do to the tables;
    DuckDB may fail any of them ([fault]), a failed statement has no effect, and
    a transaction becomes visible and durable as a whole at its [COMMIT].  The
    write mutex makes a transaction one atomic step of the engine.  Record
    batches are Arrow's: their rows and sizes are a parameter. *)

From S2P Require Import Prelude Types Ports Overload Naming.

(** ** Arrow *)

Inductive TimeUnit := Second | Millisecond | Microsecond | Nanosecond.

(** [arrow::datatypes::DataType], with the types outside the staging subset
    under one constructor. *)
Inductive DataType :=
| TBoolean | TInt8 | TInt16 | TInt32 | TInt64 | TUInt8 | TUInt16 | TUInt32 | TUInt64
| TFloat32 | TFloat64 | TUtf8 | TBinary
| TTimestamp (unit : TimeUnit) (timezone : option string)
| TOther (rendered : string).

Record Field := { f_name : string; f_type : DataType; f_nullable : bool }.

(** A record batch: its schema, its rows, and the content size of each column
    ([ArrayData::get_slice_memory_size]). *)
Class Arrow := {
  RecordBatch : Type;
  Payload : Type;
  arrow_error : Type;
  rb_schema : RecordBatch → list Field;
  rb_rows : RecordBatch → list Payload;
  rb_column_sizes : RecordBatch → list (result N arrow_error);
  (** [RecordBatch::try_new] on the batch with the system columns. *)
  rb_try_new : RecordBatch → result unit arrow_error;
}.

(** ** The database *)

(** A staged row: the two system columns and the payload. *)
Record Row `{Arrow} := { r_origin : NodeId; r_seq : N; r_payload : Payload }.

(** A row of [duckspout_dedup], by its primary key (tenant, dedup_key). *)
Record DedupRow := { de_acked : bool; de_outcome : string; de_created_wall_ms : Z }.

Abbreviation WindowKey := (string * string * N)%type (only parsing).

(** The tables of the hot database: the metadata tables by their primary keys,
    and the micro-window tables by name. *)
Record Db `{Arrow} := {
  db_wal_epoch : N;
  db_applied : gmap (string * string) N;
  db_windows : gmap WindowKey (string * N);
  db_dedup : gmap (string * string) DedupRow;
  db_window_hw : gmap (string * string) N;
  db_tables : gmap string (list Row);
}.

(** A [duckdb::Error]: a failure DuckDB reports on its own account, or one the
    statement runs into (a missing or existing table, a violated primary key, an
    integer overflow). *)
Inductive DuckdbError :=
| EngineFault (msg : string)
| CatalogError (table : string)
| ConstraintError
| OutOfRange.

(** The statements the writer runs. *)
Inductive Stmt :=
| SBegin | SCommit
| SCreateTable (table : string) | SInsertWindow (key : WindowKey) | SUpsertHw (key : WindowKey)
| SAppend (table : string) | SUpdateBytes (key : WindowKey)
| SUpsertApplied (partition : PartitionId)
| SDedupSelect (tenant : TenantId) (key : string) | SDedupUpsert (tenant : TenantId) (key : string)
| SDedupMark (tenant : TenantId) (key : string) | SDedupExpire | SDedupCount | SDedupTrim
| SDropTable (table : string) | SDeleteWindow (key : WindowKey) | SDeleteRows (table : string)
| SRollback | SCheckpoint | SBumpEpoch | SSelect (table : string)
| SOpen | SSetThreshold | SClone.

(** [StagingError] *)
Inductive StagingError `{Arrow} :=
| EngineError (e : DuckdbError)
| IoError (msg : string)
| StorageFailed (e : StorageError)
| ArrowFailed (e : arrow_error)
| UnsupportedColumnType (column : string) (datatype : DataType)
| ReservedColumn (column : string)
| SeqExhausted (partition : PartitionId)
| WriterPoisoned
| Corrupt (msg : string)
| ScanBudgetExceeded (scanned_bytes budget_bytes : N)
| ScanDeadlineExceeded (deadline_ms : N).

(** [WindowMeta] *)
Record WindowMeta := { wm_table : string; wm_bytes : N }.

(** [StagingEngine] with its [WriterInner]: the database and the mirrors. *)
Record Engine `{Arrow} := {
  en_db : Db;
  en_origin : NodeId;
  en_applied : gmap string N;
  en_windows : gmap WindowKey WindowMeta;
  en_window_hw : gmap (string * string) N;
  en_staged_bytes : N;
}.

(** [StageTxn]: the database as the transaction sees it, and what is pending. *)
Record StageTxn `{Arrow} := {
  tx_db : Db;
  tx_applied : gmap string (N * N);
  tx_windows : list (WindowKey * string);
  tx_bytes : gmap WindowKey N;
}.

(** [DedupEntry] *)
Record DedupEntry := { dedup_acked : bool; dedup_outcome_json : string }.

(** [WindowRef] *)
Record WindowRef := {
  wf_dataset : DatasetId; wf_partition : PartitionId; wf_window : WindowId; wf_table_name : string;
}.

(** [ScanGuards] *)
Record ScanGuards := { sg_max_bytes : N; sg_deadline_nanos : N }.

(** ** Pure helpers *)

(** [staging_sql_type] *)
Definition staging_sql_type (t : DataType) : option string :=
  match t with
  | TBoolean => Some "BOOLEAN"
  | TInt8 => Some "TINYINT" | TInt16 => Some "SMALLINT"
  | TInt32 => Some "INTEGER" | TInt64 => Some "BIGINT"
  | TUInt8 => Some "UTINYINT" | TUInt16 => Some "USMALLINT"
  | TUInt32 => Some "UINTEGER" | TUInt64 => Some "UBIGINT"
  | TFloat32 => Some "FLOAT" | TFloat64 => Some "DOUBLE"
  | TUtf8 => Some "VARCHAR" | TBinary => Some "BLOB"
  | TTimestamp Microsecond None => Some "TIMESTAMP"
  | TTimestamp _ _ | TOther _ => None
  end.

(** [u8::to_ascii_lowercase], on a string. *)
Definition ascii_lower (c : Ascii.ascii) : Ascii.ascii :=
  let n := Ascii.N_of_ascii c in
  if ((65 <=? n) && (n <=? 90))%N then Ascii.ascii_of_N (n + 32) else c.

Fixpoint lowercase (s : string) : string :=
  match s with EmptyString => "" | String c s => String (ascii_lower c) (lowercase s) end.

(** [str::eq_ignore_ascii_case] *)
Definition eq_ignore_ascii_case (a b : string) : bool := bool_decide (lowercase a = lowercase b).

(** [checked_add] on [u64]. *)
Definition checked_add (x y : N) : option N :=
  if (x + y <=? u64_max)%N then Some (x + y)%N else None.

(** [i64::saturating_sub] *)
Definition i64_sat_sub (x y : Z) : Z := Z.max i64_min (Z.min (x - y) i64_max).

(** ** A state-and-error monad over the open transaction *)

Section txn.
Context `{Arrow}.

Definition ME (E A : Type) : Type := StageTxn → result A E * StageTxn.

Definition ret {E A} (a : A) : ME E A := λ tx, (Ok a, tx).
Definition mbind {E A B} (m : ME E A) (k : A → ME E B) : ME E B :=
  λ tx, match m tx with (Ok a, tx) => k a tx | (Err e, tx) => (Err e, tx) end.
Definition get {E A} (f : StageTxn → A) : ME E A := λ tx, (Ok (f tx), tx).
Definition modify {E} (f : StageTxn → StageTxn) : ME E unit := λ tx, (Ok tt, f tx).
(** [?] on a result that does not change the transaction. *)
Definition lift {E A} (r : result A E) : ME E A := λ tx, (r, tx).
Definition map_err_m {E F A} (f : E → F) (m : ME E A) : ME F A :=
  λ tx, let '(r, tx) := m tx in (map_err f r, tx).

End txn.

(** An operation of the engine's transaction. *)
Abbreviation M A := (ME StagingError A) (only parsing).

Notation "'let*' x ':=' m 'in' k" := (mbind m (λ x, k))
  (at level 10, x name, k at level 200) : rust_scope.

(** ** Updates of the records *)

Section updates.
Context `{Arrow}.

Definition set_db (db : Db) (tx : StageTxn) : StageTxn :=
  {| tx_db := db; tx_applied := tx_applied tx; tx_windows := tx_windows tx; tx_bytes := tx_bytes tx |}.
Definition set_applied (a : gmap (string * string) N) (db : Db) : Db :=
  {| db_wal_epoch := db_wal_epoch db; db_applied := a; db_windows := db_windows db;
     db_dedup := db_dedup db; db_window_hw := db_window_hw db; db_tables := db_tables db |}.
Definition set_windows (w : gmap WindowKey (string * N)) (db : Db) : Db :=
  {| db_wal_epoch := db_wal_epoch db; db_applied := db_applied db; db_windows := w;
     db_dedup := db_dedup db; db_window_hw := db_window_hw db; db_tables := db_tables db |}.
Definition set_dedup (d : gmap (string * string) DedupRow) (db : Db) : Db :=
  {| db_wal_epoch := db_wal_epoch db; db_applied := db_applied db; db_windows := db_windows db;
     db_dedup := d; db_window_hw := db_window_hw db; db_tables := db_tables db |}.
Definition set_hw (h : gmap (string * string) N) (db : Db) : Db :=
  {| db_wal_epoch := db_wal_epoch db; db_applied := db_applied db; db_windows := db_windows db;
     db_dedup := db_dedup db; db_window_hw := h; db_tables := db_tables db |}.
Definition set_tables (t : gmap string (list Row)) (db : Db) : Db :=
  {| db_wal_epoch := db_wal_epoch db; db_applied := db_applied db; db_windows := db_windows db;
     db_dedup := db_dedup db; db_window_hw := db_window_hw db; db_tables := t |}.
Definition bump_epoch (db : Db) : Db :=
  {| db_wal_epoch := db_wal_epoch db + 1; db_applied := db_applied db; db_windows := db_windows db;
     db_dedup := db_dedup db; db_window_hw := db_window_hw db; db_tables := db_tables db |}.

End updates.

(** ** DuckDB *)

(** Which statements fail on which database, and how [ORDER BY created_wall_ms
    ASC LIMIT n] resolves ties. *)
Class DuckDb `{Arrow} := {
  fault : Db → Stmt → option DuckdbError;
  oldest : gmap (string * string) DedupRow → N → list (string * string);
}.

(** What SQL promises of that selection: distinct rows, as many as asked for (or
    all), none of them younger than a row left out. *)
Class DuckDbLaws `{DuckDb} := {
  oldest_nodup m n : NoDup (oldest m n);
  oldest_rows m n k : k ∈ oldest m n → is_Some (m !! k);
  oldest_length m n : length (oldest m n) = Nat.min (N.to_nat n) (size m);
  oldest_first m n k r k' r' :
    m !! k = Some r → m !! k' = Some r' → k ∈ oldest m n → k' ∉ oldest m n →
    (de_created_wall_ms r ≤ de_created_wall_ms r')%Z;
}.

Section engine.
Context `{DuckDb}.

(** One statement: DuckDB's own failure, or its effect. *)
Definition run_stmt (s : Stmt) (effect : Db → result Db DuckdbError) (db : Db) :
    result Db DuckdbError :=
  match fault db s with Some e => Err e | None => effect db end.

(** [self.writer.conn.execute(..)?] inside the transaction. *)
Definition exec (s : Stmt) (effect : Db → result Db DuckdbError) : M unit :=
  λ tx, match run_stmt s effect (tx_db tx) with
        | Ok db => (Ok tt, set_db db tx)
        | Err e => (Err (EngineError e), tx)
        end.

(** ** The SQL of the transaction *)

(** [CREATE TABLE {table} (..)] *)
Definition create_table (table : string) (db : Db) : result Db DuckdbError :=
  match db_tables db !! table with
  | Some _ => Err (CatalogError table)
  | None => Ok (set_tables (<[table := []]> (db_tables db)) db)
  end.

(** [INSERT INTO duckspout_windows ..]; [staged_bytes] defaults to 0. *)
Definition insert_window (key : WindowKey) (table : string) (db : Db) : result Db DuckdbError :=
  match db_windows db !! key with
  | Some _ => Err ConstraintError
  | None => Ok (set_windows (<[key := (table, 0%N)]> (db_windows db)) db)
  end.

(** [INSERT INTO duckspout_window_hw .. ON CONFLICT .. greatest(hw, excluded.hw)] *)
Definition upsert_hw (key : WindowKey) (db : Db) : result Db DuckdbError :=
  let '(dataset, partition, window) := key in
  let hw := match db_window_hw db !! (dataset, partition) with
            | Some hw => N.max hw window
            | None => window
            end in
  Ok (set_hw (<[(dataset, partition) := hw]> (db_window_hw db)) db).

(** The appender: [append_record_batch] and [flush]. *)
Definition append_rows (table : string) (rows : list Row) (db : Db) : result Db DuckdbError :=
  match db_tables db !! table with
  | None => Err (CatalogError table)
  | Some old => Ok (set_tables (<[table := old ++ rows]> (db_tables db)) db)
  end.

(** [UPDATE duckspout_windows SET staged_bytes = staged_bytes + ? ..]: no row, no
    update; a sum past [UBIGINT] is an error. *)
Definition update_bytes (key : WindowKey) (bytes : N) (db : Db) : result Db DuckdbError :=
  match db_windows db !! key with
  | None => Ok db
  | Some (table, staged) =>
      if (staged + bytes <=? u64_max)%N
      then Ok (set_windows (<[key := (table, staged + bytes)%N]> (db_windows db)) db)
      else Err OutOfRange
  end.

(** ** Appending *)

(** [record_batch_content_bytes] *)
Fixpoint sum_sizes (bytes : N) (sizes : list (result N arrow_error)) : result N StagingError :=
  match sizes with
  | [] => Ok bytes
  | Ok n :: sizes => sum_sizes (u64_add bytes n) sizes
  | Err e :: _ => Err (ArrowFailed e)
  end.

Definition record_batch_content_bytes (batch : RecordBatch) : result N StagingError :=
  sum_sizes 0 (rb_column_sizes batch).

(** The column loop of [ensure_window]. *)
Fixpoint check_columns (fields : list Field) : result unit StagingError :=
  match fields with
  | [] => Ok tt
  | f :: fields =>
      if eq_ignore_ascii_case (f_name f) "origin" || eq_ignore_ascii_case (f_name f) "seq" then
        Err (ReservedColumn (f_name f))
      else
        match staging_sql_type (f_type f) with
        | None => Err (UnsupportedColumnType (f_name f) (f_type f))
        | Some _ => check_columns fields
        end
  end.

(** [self.pending_windows.push((key, table))] *)
Definition push_window (key : WindowKey) (table : string) (tx : StageTxn) : StageTxn :=
  {| tx_db := tx_db tx; tx_applied := tx_applied tx; tx_windows := tx_windows tx ++ [(key, table)];
     tx_bytes := tx_bytes tx |}.

(** [StageTxn::ensure_window] *)
Definition ensure_window (e : Engine) (dataset : DatasetId) (partition : PartitionId)
    (window : WindowId) (schema : list Field) : M string :=
  let key := (dataset, partition, window) in
  match en_windows e !! key with
  | Some existing => ret (wm_table existing)
  | None =>
      let* pending := get tx_windows in
      match List.find (λ kt, bool_decide (kt.1 = key)) pending with
      | Some (_, table) => ret table
      | None =>
          let table := window_table_name dataset partition window in
          let* _ := lift (check_columns schema) in
          let* _ := exec (SCreateTable table) (create_table table) in
          let* _ := exec (SInsertWindow key) (insert_window key table) in
          let* _ := exec (SUpsertHw key) (upsert_hw key) in
          let* _ := modify (push_window key table) in
          ret table
      end
  end.

(** [augment_batch]: the system columns [origin] and [seq = first..=last]. *)
Fixpoint stamp (origin : NodeId) (seq : N) (payloads : list Payload) : list Row :=
  match payloads with
  | [] => []
  | x :: payloads => {| r_origin := origin; r_seq := seq; r_payload := x |}
                     :: stamp origin (seq + 1) payloads
  end.

Definition augment_batch (batch : RecordBatch) (origin : NodeId) (first : N) :
    result (list Row) StagingError :=
  let? _ := map_err ArrowFailed (rb_try_new batch) in
  Ok (stamp origin first (rb_rows batch)).

(** The sequence number appends go on from. *)
Definition seq_base (e : Engine) (tx : StageTxn) (partition : PartitionId) : N :=
  match tx_applied tx !! partition with
  | Some (_, last) => last
  | None => default 0%N (en_applied e !! partition)
  end.

(** [*self.pending_bytes.entry(key).or_insert(0) += bytes] *)
Definition pend_bytes (key : WindowKey) (bytes : N) (tx : StageTxn) : StageTxn :=
  {| tx_db := tx_db tx; tx_applied := tx_applied tx; tx_windows := tx_windows tx;
     tx_bytes := <[key := u64_add (default 0%N (tx_bytes tx !! key)) bytes]> (tx_bytes tx) |}.

(** [self.pending_applied.entry(..).and_modify(..).or_insert((first, last))] *)
Definition pend_applied (partition : PartitionId) (first last : N) (tx : StageTxn) : StageTxn :=
  {| tx_db := tx_db tx;
     tx_applied := <[partition := match tx_applied tx !! partition with
                                  | Some (f, _) => (f, last)
                                  | None => (first, last)
                                  end]> (tx_applied tx);
     tx_windows := tx_windows tx; tx_bytes := tx_bytes tx |}.

(** [base.checked_add(n).ok_or_else(SeqExhausted)] *)
Definition checked_seq (base n : N) (partition : PartitionId) : result N StagingError :=
  match checked_add base n with Some s => Ok s | None => Err (SeqExhausted partition) end.

(** [StageTxn::append] *)
Definition append (e : Engine) (dataset : DatasetId) (partition : PartitionId) (window : WindowId)
    (batch : RecordBatch) : M unit :=
  let* table := ensure_window e dataset partition window (rb_schema batch) in
  let rows := N.of_nat (length (rb_rows batch)) in
  if (rows =? 0)%N then ret tt
  else
    let* base := get (λ tx, seq_base e tx partition) in
    let* first := lift (checked_seq base 1 partition) in
    let* last := lift (checked_seq base rows partition) in
    let* augmented := lift (augment_batch batch (en_origin e) first) in
    let* _ := exec (SAppend table) (append_rows table augmented) in
    let* bytes := lift (record_batch_content_bytes batch) in
    let key := (dataset, partition, window) in
    let* _ := exec (SUpdateBytes key) (update_bytes key bytes) in
    let* _ := modify (pend_bytes key bytes) in
    modify (pend_applied partition first last).

(** ** Committing *)

(** [StageTxn::pending_coverage] *)
Definition pending_coverage (e : Engine) (tx : StageTxn) : list StagedCoverage :=
  (λ '(partition, (first, last)),
     {| sc_partition := partition;
        sc_range := {| origin := en_origin e; first_seq := first; last_seq := last |} |})
    <$> btree_entries (tx_applied tx).

(** The [INSERT .. ON CONFLICT] loop of [commit]. *)
Fixpoint upsert_applied (origin : NodeId) (pending : list (string * (N * N))) (db : Db) :
    result Db DuckdbError :=
  match pending with
  | [] => Ok db
  | (partition, (_, last)) :: pending =>
      let? db := run_stmt (SUpsertApplied partition)
                   (λ db, Ok (set_applied (<[(partition, origin) := last]> (db_applied db)) db)) db in
      upsert_applied origin pending db
  end.

(** The mirrors after the windows the transaction created. *)
Definition merge_hw (hw : gmap (string * string) N) (kt : WindowKey * string) :
    gmap (string * string) N :=
  let '(dataset, partition, window) := kt.1 in
  <[(dataset, partition) := match hw !! (dataset, partition) with
                            | Some h => N.max h window
                            | None => window
                            end]> hw.

Definition merge_window (ws : gmap WindowKey WindowMeta) (kt : WindowKey * string) :
    gmap WindowKey WindowMeta :=
  <[kt.1 := {| wm_table := kt.2; wm_bytes := 0 |}]> ws.

(** The mirrors after the bytes the transaction appended. *)
Definition merge_bytes (ws : gmap WindowKey WindowMeta) (kb : WindowKey * N) :
    gmap WindowKey WindowMeta :=
  match ws !! kb.1 with
  | Some meta => <[kb.1 := {| wm_table := wm_table meta; wm_bytes := u64_add (wm_bytes meta) kb.2 |}]> ws
  | None => ws
  end.

(** [StageTxn::commit]; on an error the transaction is dropped, which rolls it
    back. *)
Definition commit (e : Engine) (tx : StageTxn) : result (list StagedCoverage) StagingError * Engine :=
  match upsert_applied (en_origin e) (btree_entries (tx_applied tx)) (tx_db tx) with
  | Err err => (Err (EngineError err), e)
  | Ok db =>
      match run_stmt SCommit Ok db with
      | Err err => (Err (EngineError err), e)
      | Ok db =>
          (Ok (pending_coverage e tx),
           {| en_db := db;
              en_origin := en_origin e;
              en_applied := (snd <$> tx_applied tx) ∪ en_applied e;
              en_windows := foldl merge_bytes (foldl merge_window (en_windows e) (tx_windows tx))
                              (map_to_list (tx_bytes tx));
              en_window_hw := foldl merge_hw (en_window_hw e) (tx_windows tx);
              en_staged_bytes := foldl u64_add (en_staged_bytes e) (map_to_list (tx_bytes tx)).*2 |})
      end
  end.

(** [StageTxn::rollback] *)
Definition rollback (e : Engine) (tx : StageTxn) : result unit StagingError * Engine :=
  match run_stmt SRollback Ok (tx_db tx) with
  | Err err => (Err (EngineError err), e)
  | Ok _ => (Ok tt, e)
  end.

(** [StagingEngine::begin] *)
Definition begin (e : Engine) : result StageTxn StagingError :=
  let? db := map_err EngineError (run_stmt SBegin Ok (en_db e)) in
  Ok {| tx_db := db; tx_applied := ∅; tx_windows := []; tx_bytes := ∅ |}.

(** ** The dedup window *)

(** [StageTxn::dedup_lookup] *)
Definition dedup_lookup (tenant : TenantId) (dedup_key : string) (min_created_wall_ms : Z) :
    M (option DedupEntry) :=
  let* _ := exec (SDedupSelect tenant dedup_key) Ok in
  get (λ tx,
    match db_dedup (tx_db tx) !! (tenant, dedup_key) with
    | Some r => if (min_created_wall_ms <=? de_created_wall_ms r)%Z
                then Some {| dedup_acked := de_acked r; dedup_outcome_json := de_outcome r |}
                else None
    | None => None
    end).

(** [StageTxn::dedup_insert] *)
Definition dedup_insert (tenant : TenantId) (dedup_key : string) (acked : bool)
    (outcome_json : string) (created_wall_ms : Z) : M unit :=
  exec (SDedupUpsert tenant dedup_key)
    (λ db, Ok (set_dedup (<[(tenant, dedup_key) := {| de_acked := acked; de_outcome := outcome_json;
                                                      de_created_wall_ms := created_wall_ms |}]>
                            (db_dedup db)) db)).

(** [StageTxn::dedup_mark_acked] *)
Definition dedup_mark_acked (tenant : TenantId) (dedup_key : string) : M unit :=
  exec (SDedupMark tenant dedup_key)
    (λ db, Ok (set_dedup (alter (λ r, {| de_acked := true; de_outcome := de_outcome r;
                                         de_created_wall_ms := de_created_wall_ms r |})
                            (tenant, dedup_key) (db_dedup db)) db)).

(** [DELETE FROM duckspout_dedup WHERE created_wall_ms < cutoff] *)
Definition live_since (cutoff : Z) (d : gmap (string * string) DedupRow) :
    gmap (string * string) DedupRow :=
  filter (λ kr : string * string * DedupRow, cutoff ≤ de_created_wall_ms kr.2)%Z d.

(** [DELETE FROM duckspout_dedup WHERE (tenant, dedup_key) IN (..)] *)
Definition delete_keys (ks : list (string * string)) (d : gmap (string * string) DedupRow) :
    gmap (string * string) DedupRow :=
  foldr delete d ks.

(** [StageTxn::dedup_evict] *)
Definition dedup_evict (wall_now_ms ttl_ms : Z) (max_entries : N) : M N :=
  let cutoff := i64_sat_sub wall_now_ms ttl_ms in
  let* _ := exec SDedupExpire (λ db, Ok (set_dedup (live_since cutoff (db_dedup db)) db)) in
  let* _ := exec SDedupCount Ok in
  let* entries := get (λ tx, db_dedup (tx_db tx)) in
  let count := N.of_nat (size entries) in
  if (count <=? max_entries)%N then ret 0%N
  else
    let excess := (count - max_entries)%N in
    let* _ := exec SDedupTrim
                (λ db, Ok (set_dedup (delete_keys (oldest (db_dedup db) excess) (db_dedup db)) db)) in
    get (λ tx, (count - N.of_nat (size (db_dedup (tx_db tx))))%N).

(** ** The engine's other operations *)

(** [AtomicU64::fetch_sub] *)
Definition u64_sub (x y : N) : N := ((x + (u64_max + 1) - y) mod (u64_max + 1))%N.

(** [drop_window_txn]: [DROP TABLE] and the registry delete, one commit. *)
Definition drop_window_txn (key : WindowKey) (table : string) (db : Db) : result Db DuckdbError :=
  let? db := run_stmt SBegin Ok db in
  let? db := run_stmt (SDropTable table)
               (λ db, match db_tables db !! table with
                      | None => Err (CatalogError table)
                      | Some _ => Ok (set_tables (delete table (db_tables db)) db)
                      end) db in
  let? db := run_stmt (SDeleteWindow key)
               (λ db, Ok (set_windows (delete key (db_windows db)) db)) db in
  run_stmt SCommit Ok db.

(** [StagingEngine::drop_window] *)
Definition drop_window (e : Engine) (dataset : DatasetId) (partition : PartitionId)
    (window : WindowId) : result bool StagingError * Engine :=
  let key := (dataset, partition, window) in
  match en_windows e !! key with
  | None => (Ok false, e)
  | Some meta =>
      match drop_window_txn key (wm_table meta) (en_db e) with
      | Err err => (Err (EngineError err), e)
      | Ok db =>
          (Ok true,
           {| en_db := db; en_origin := en_origin e; en_applied := en_applied e;
              en_windows := delete key (en_windows e);
              en_window_hw := en_window_hw e;
              en_staged_bytes := u64_sub (en_staged_bytes e) (wm_bytes meta) |})
      end
  end.

(** The engine with another database: a write that the mirrors do not follow. *)
Definition with_db (e : Engine) (db : Db) : Engine :=
  {| en_db := db; en_origin := en_origin e; en_applied := en_applied e; en_windows := en_windows e;
     en_window_hw := en_window_hw e; en_staged_bytes := en_staged_bytes e |}.

(** [StagingEngine::delete_covered_rows], with its predicate as a test. *)
Definition delete_covered_rows (e : Engine) (table : string) (covered : Row → bool) :
    result unit StagingError * Engine :=
  match run_stmt (SDeleteRows table)
          (λ db, match db_tables db !! table with
                 | None => Err (CatalogError table)
                 | Some rows =>
                     Ok (set_tables (<[table := List.filter (λ r, negb (covered r)) rows]>
                                       (db_tables db)) db)
                 end) (en_db e) with
  | Err err => (Err (EngineError err), e)
  | Ok db => (Ok tt, with_db e db)
  end.

(** [StagingEngine::checkpoint]; [fsync] is what the storage port answers. *)
Definition checkpoint (fsync : result unit StorageError) (e : Engine) :
    result unit StagingError * Engine :=
  match run_stmt SCheckpoint Ok (en_db e) with
  | Err err => (Err (EngineError err), e)
  | Ok db =>
      match run_stmt SBumpEpoch (λ db, Ok (bump_epoch db)) db with
      | Err err => (Err (EngineError err), with_db e db)
      | Ok db => (map_err StorageFailed fsync, with_db e db)
      end
  end.

(** The rows [load_applied] collects. *)
Definition applied_of (origin : NodeId) (db : Db) : gmap string N :=
  map_fold (λ '(p, o) seq applied, if bool_decide (o = origin) then <[p := seq]> applied else applied)
    ∅ (db_applied db).

(** [load_applied] *)
Definition load_applied (origin : NodeId) (db : Db) : result (gmap string N) DuckdbError :=
  let? db := run_stmt (SSelect "duckspout_applied") Ok db in Ok (applied_of origin db).

(** The rows [load_windows] collects. *)
Definition windows_of (db : Db) : gmap WindowKey WindowMeta :=
  (λ '(table, bytes), {| wm_table := table; wm_bytes := bytes |}) <$> db_windows db.

(** [load_windows] *)
Definition load_windows (db : Db) : result (gmap WindowKey WindowMeta) DuckdbError :=
  let? db := run_stmt (SSelect "duckspout_windows") Ok db in Ok (windows_of db).

(** [load_window_hw] *)
Definition load_window_hw (db : Db) : result (gmap (string * string) N) DuckdbError :=
  let? db := run_stmt (SSelect "duckspout_window_hw") Ok db in Ok (db_window_hw db).

(** The engine the loaded mirrors make, on the bootstrapped database. *)
Definition load_engine (origin : NodeId) (db : Db) : result Engine DuckdbError :=
  let? applied := load_applied origin db in
  let? windows := load_windows db in
  let? window_hw := load_window_hw db in
  Ok {| en_db := db; en_origin := origin; en_applied := applied; en_windows := windows;
        en_window_hw := window_hw;
        en_staged_bytes := foldl u64_add 0%N (wm_bytes <$> (map_to_list windows).*2) |}.

(** The bootstrap transaction: the metadata tables exist and the epoch moves. *)
Definition bootstrap (db : Db) : result Db DuckdbError :=
  let? db := run_stmt SOpen Ok db in
  let? db := run_stmt SSetThreshold Ok db in
  run_stmt SBumpEpoch (λ db, Ok (bump_epoch db)) db.

(** [StagingEngine::open], on the database found on the hot volume: [mkdir] and
    [fsync] are the answers of the file system and of the storage port.  The
    second component is the database left on the volume. *)
Definition open (mkdir : result unit string) (fsync : result unit StorageError) (origin : NodeId)
    (db : Db) : result Engine StagingError * Db :=
  match mkdir with
  | Err msg => (Err (IoError msg), db)
  | Ok _ =>
      match bootstrap db with
      | Err err => (Err (EngineError err), db)
      | Ok db =>
          match load_engine origin db, fsync with
          | Err err, _ => (Err (EngineError err), db)
          | Ok _, Err err => (Err (StorageFailed err), db)
          | Ok e, Ok _ => (Ok e, db)
          end
      end
  end.

(** ** Queries *)

(** [StagingEngine::window_table] *)
Definition window_table (e : Engine) (dataset : DatasetId) (partition : PartitionId)
    (window : WindowId) : option string :=
  wm_table <$> en_windows e !! (dataset, partition, window).

(** [StagingEngine::applied_seq] *)
Definition applied_seq (e : Engine) (partition : PartitionId) : option N := en_applied e !! partition.

(** [StagingEngine::highest_window_id] *)
Definition highest_window_id (e : Engine) (dataset : DatasetId) (partition : PartitionId) :
    option WindowId :=
  en_window_hw e !! (dataset, partition).

(** The order of [list_windows]: by dataset, partition and window. *)
Definition window_le (a b : WindowRef) : Prop :=
  String.le (wf_dataset a) (wf_dataset b) ∧
  (wf_dataset a = wf_dataset b →
   String.le (wf_partition a) (wf_partition b) ∧
   (wf_partition a = wf_partition b → wf_window a ≤ wf_window b)%N).

#[global] Instance window_le_dec : RelDecision window_le.
Proof. unfold window_le. intros a b. apply _. Defined.

(** [StagingEngine::list_windows] *)
Definition list_windows (e : Engine) : list WindowRef :=
  merge_sort window_le
    ((λ '((d, p, w), meta), {| wf_dataset := d; wf_partition := p; wf_window := w;
                               wf_table_name := wm_table meta |}) <$> map_to_list (en_windows e)).

(** [StagingReader::count_window] *)
Definition count_window (e : Engine) (dataset : DatasetId) (partition : PartitionId)
    (window : WindowId) : result N StagingError :=
  let table := window_table_name dataset partition window in
  match fault (en_db e) (SSelect table), db_tables (en_db e) !! table with
  | Some err, _ => Err (EngineError err)
  | None, None => Err (EngineError (CatalogError table))
  | None, Some rows => Ok (N.of_nat (length rows))
  end.

(** The loop of [StagingReader::query_arrow_guarded]: the batches DuckDB
    produces, each with the clock's reading after it. *)
Fixpoint scan_loop (guards : ScanGuards) (started scanned_bytes : N)
    (stream : list (RecordBatch * N)) : result (list RecordBatch) StagingError :=
  match stream with
  | [] => Ok []
  | (batch, now) :: stream =>
      let? bytes := record_batch_content_bytes batch in
      let scanned_bytes := u64_sat_add scanned_bytes bytes in
      if (sg_max_bytes guards <? scanned_bytes)%N then
        Err (ScanBudgetExceeded scanned_bytes (sg_max_bytes guards))
      else if (sg_deadline_nanos guards <? now - started)%N then
        Err (ScanDeadlineExceeded (sg_deadline_nanos guards / 1000000))
      else
        let? batches := scan_loop guards started scanned_bytes stream in
        Ok (batch :: batches)
  end.

(** [StagingReader::query_arrow_guarded] *)
Definition query_arrow_guarded (guards : ScanGuards) (started : N)
    (stream : result (list (RecordBatch * N)) DuckdbError) : result (list RecordBatch) StagingError :=
  let? stream := map_err EngineError stream in
  scan_loop guards started 0 stream.

End engine.
