(* ===== verification/EngineProps.v ===== *)
(** * The staging engine's invariant

    What the hot database and the writer's mirrors satisfy between
    transactions, what the open transaction satisfies between its operations,
    and that every operation keeps them. *)

From S2P Require Import Prelude Types Ports Overload Naming Engine.

(** ** Running the transaction monad *)

Section monad.
Context `{DuckDb}.

Lemma mbind_ok {E A B} (m : ME E A) (k : A → ME E B) tx b tx' :
  mbind m k tx = (Ok b, tx') ↔ ∃ a tx1, m tx = (Ok a, tx1) ∧ k a tx1 = (Ok b, tx').
Proof.
  unfold mbind. destruct (m tx) as [[a|e] tx1].
  - split; [by eauto|]. by intros (? & ? & [= <- <-] & ?).
  - split; [done|]. by intros (? & ? & [=] & _).
Qed.

Lemma exec_ok s f tx u tx' :
  exec s f tx = (Ok u, tx') → ∃ db, f (tx_db tx) = Ok db ∧ tx' = set_db db tx.
Proof.
  unfold exec, run_stmt. destruct (fault _ _); [done|]. destruct (f (tx_db tx)) as [db|]; [|done].
  intros [= _ <-]. by exists db.
Qed.

Lemma run_stmt_ok s f db db' : run_stmt s f db = Ok db' → f db = Ok db'.
Proof. unfold run_stmt. by destruct (fault _ _). Qed.

Lemma map_err_m_ok {E F A} (f : E → F) (m : ME E A) tx a tx' :
  map_err_m f m tx = (Ok a, tx') ↔ m tx = (Ok a, tx').
Proof. unfold map_err_m. destruct (m tx) as [[]]; simpl; naive_solver. Qed.

End monad.

(** Opens every step of a run that succeeded. *)
Ltac inv_m :=
  repeat match goal with
  | H : mbind _ _ _ = (Ok _, _) |- _ => apply mbind_ok in H as (? & ? & ? & H)
  | H : exec _ _ _ = (Ok _, _) |- _ => apply exec_ok in H as (? & H & ->)
  | H : map_err_m _ _ _ = (Ok _, _) |- _ => apply map_err_m_ok in H
  | H : ret _ _ = (Ok _, _) |- _ => injection H as <- <-
  | H : get _ _ = (Ok _, _) |- _ => injection H as <- <-
  | H : modify _ _ = (Ok _, _) |- _ => injection H as <- <-
  | H : lift _ _ = (Ok _, _) |- _ => injection H as H <-
  end.

(** ** The invariants *)

Section invariant.
Context `{Arrow}.

Definition table_of (k : WindowKey) : string := window_table_name k.1.1 k.1.2 k.2.

(** The rows staged for a window. *)
Definition rows_of (db : Db) (k : WindowKey) : list Row := default [] (db_tables db !! table_of k).

(** The origin and the sequence number of a row. *)
Definition row_id (r : Row) : NodeId * N := (r_origin r, r_seq r).

(** The registry, the tables and the sequence numbers agree: [last] bounds the
    sequence numbers of a partition and an origin, and none is used twice. *)
Record db_ok (last : PartitionId → NodeId → N) (db : Db) : Prop := {
  ok_registered k t b :
    db_windows db !! k = Some (t, b) →
    t = table_of k ∧ is_Some (db_tables db !! t) ∧ (b ≤ u64_max)%N;
  ok_tables t : is_Some (db_tables db !! t) → ∃ k, t = table_of k ∧ is_Some (db_windows db !! k);
  ok_hw d p w :
    is_Some (db_windows db !! (d, p, w)) → ∃ h, db_window_hw db !! (d, p) = Some h ∧ (w ≤ h)%N;
  ok_seqs k r : r ∈ rows_of db k → (1 ≤ r_seq r ≤ last k.1.2 (r_origin r))%N;
  ok_bound p o : (last p o ≤ u64_max)%N;
  ok_nodup k : NoDup (row_id <$> rows_of db k);
  ok_once k1 k2 r1 r2 :
    k1.1.2 = k2.1.2 → r1 ∈ rows_of db k1 → r2 ∈ rows_of db k2 → row_id r1 = row_id r2 → k1 = k2;
}.

Definition applied_last (db : Db) (p : PartitionId) (o : NodeId) : N :=
  default 0%N (db_applied db !! (p, o)).

(** The bytes accounted to the live windows. *)
Definition total_bytes (ws : gmap WindowKey WindowMeta) : N :=
  map_fold (λ _ m acc, wm_bytes m + acc)%N 0%N ws.

(** The writer's mirrors are the metadata tables. *)
Record mirror (e : Engine) : Prop := {
  mi_applied p : en_applied e !! p = db_applied (en_db e) !! (p, en_origin e);
  mi_windows : en_windows e = windows_of (en_db e);
  mi_hw : en_window_hw e = db_window_hw (en_db e);
  mi_bytes : en_staged_bytes e = (total_bytes (en_windows e) mod (u64_max + 1))%N;
}.

Record engine_ok (e : Engine) : Prop := {
  eo_mirror : mirror e;
  eo_db : db_ok (applied_last (en_db e)) (en_db e);
}.

(** The windows once the transaction's own are added. *)
Definition merged (e : Engine) (tx : StageTxn) : gmap WindowKey WindowMeta :=
  foldl merge_window (en_windows e) (tx_windows tx).

Definition pending (tx : StageTxn) (k : WindowKey) : N := default 0%N (tx_bytes tx !! k).

Definition txn_last (e : Engine) (tx : StageTxn) (p : PartitionId) (o : NodeId) : N :=
  if decide (o = en_origin e) then seq_base e tx p else applied_last (en_db e) p o.

(** The open transaction. *)
Record txn_ok (e : Engine) (tx : StageTxn) : Prop := {
  tk_applied : db_applied (tx_db tx) = db_applied (en_db e);
  tk_db : db_ok (txn_last e tx) (tx_db tx);
  tk_seqs p f l :
    tx_applied tx !! p = Some (f, l) →
    f = (default 0 (en_applied e !! p) + 1)%N ∧ (f ≤ l ≤ u64_max)%N;
  tk_new : NoDup (tx_windows tx).*1;
  tk_fresh k t : (k, t) ∈ tx_windows tx → en_windows e !! k = None ∧ t = table_of k;
  tk_windows k :
    db_windows (tx_db tx) !! k = (λ m, (wm_table m, wm_bytes m + pending tx k)%N) <$> merged e tx !! k;
  tk_bytes k : is_Some (tx_bytes tx !! k) → is_Some (merged e tx !! k);
  tk_hw : db_window_hw (tx_db tx) = foldl merge_hw (en_window_hw e) (tx_windows tx);
}.

Lemma table_of_inj k1 k2 : table_of k1 = table_of k2 → k1 = k2.
Proof.
  destruct k1 as [[d1 p1] w1], k2 as [[d2 p2] w2].
  unfold table_of. simpl. intros E. by apply window_table_name_inj in E as (-> & -> & ->).
Qed.

(** A transaction starts from the committed state. *)
Lemma begin_ok `{!DuckDb} e tx :
  engine_ok e → begin e = Ok tx → txn_ok e tx ∧ tx_db tx = en_db e ∧ tx_applied tx = ∅.
Proof.
  intros [[Ha Hw Hh Hb] Hd] Hbeg. unfold begin in Hbeg.
  destruct (run_stmt SBegin Ok (en_db e)) as [db|] eqn:Hr; [|done].
  apply run_stmt_ok in Hr as [= <-]. simpl in Hbeg. injection Hbeg as <-. split; [|done].
  assert (∀ p o, txn_last e {| tx_db := en_db e; tx_applied := ∅; tx_windows := []; tx_bytes := ∅ |} p o
    = applied_last (en_db e) p o) as Hlast.
  { intros p o. unfold txn_last, applied_last, seq_base. simpl. case_decide; [|done].
    subst. by rewrite lookup_empty, Ha. }
  split; simpl; [done| | |constructor| | | |done].
  - destruct Hd as [? ? ? Hs Hbd ? ?]. split; try done; intros; rewrite Hlast; [by apply Hs|apply Hbd].
  - intros p f l Hl. by rewrite lookup_empty in Hl.
  - intros k t Hk. by apply elem_of_nil in Hk.
  - intros k. unfold merged, pending. simpl. rewrite lookup_empty, Hw. unfold windows_of.
    rewrite lookup_fmap. destruct (db_windows (en_db e) !! k) as [[t b]|]; [|done].
    simpl. by rewrite N.add_0_r.
  - intros k [? Hk]. by rewrite lookup_empty in Hk.
Qed.


(** ** The windows of a transaction *)

Lemma merge_windows_other ws l k :
  k ∉ l.*1 → foldl merge_window ws l !! k = ws !! k.
Proof.
  revert ws. induction l as [|kt l IH]; intros ws Hk; [done|].
  simpl in *. rewrite not_elem_of_cons in Hk. destruct Hk as [Hk1 Hk2].
  rewrite IH by done. unfold merge_window. by rewrite lookup_insert_ne.
Qed.

Lemma merge_windows_in ws l k :
  k ∈ l.*1 → is_Some (foldl merge_window ws l !! k).
Proof.
  induction l as [|kt l IH] using rev_ind; simpl; [by intros ?%elem_of_nil|].
  rewrite fmap_app, foldl_snoc, elem_of_app. unfold merge_window at 1.
  destruct (decide (kt.1 = k)) as [<-|Hne]; [by rewrite lookup_insert_eq|].
  intros [Hk|Hk]; [rewrite lookup_insert_ne by done; auto|].
  apply list_elem_of_singleton in Hk. done.
Qed.

Lemma txn_window_table e tx k :
  txn_ok e tx → is_Some (merged e tx !! k) →
  (∀ m, merged e tx !! k = Some m → wm_table m = table_of k) ∧ is_Some (db_tables (tx_db tx) !! table_of k).
Proof.
  intros Htx [m Hm]. pose proof (tk_windows _ _ Htx k) as Hw. rewrite Hm in Hw. simpl in Hw.
  apply (ok_registered _ _ (tk_db _ _ Htx)) in Hw as (Ht & Htab & _). rewrite Ht in Htab.
  split; [|done]. intros m' Hm'. by simplify_eq.
Qed.

(** Opening a window's table leaves every window's rows as they were. *)
Lemma create_window_rows (db : Db) t k :
  db_tables db !! t = None → default [] (<[t := ([] : list Row)]> (db_tables db) !! table_of k) = rows_of db k.
Proof.
  intros Hn. unfold rows_of. destruct (decide (t = table_of k)) as [<-|Hne].
  - by rewrite lookup_insert_eq, Hn.
  - by rewrite lookup_insert_ne.
Qed.

Lemma upsert_hw_mono h k d p w :
  h !! (d, p) = Some w →
  ∃ w', merge_hw h k !! (d, p) = Some w' ∧ (w ≤ w')%N.
Proof.
  intros Hh. destruct k as [[[d' p'] w'] t]. unfold merge_hw. simpl.
  destruct (decide ((d', p') = (d, p))) as [[= -> ->]|Hne].
  - rewrite lookup_insert_eq, Hh. eexists; split; [done|lia].
  - rewrite lookup_insert_ne by done. by exists w.
Qed.

(** What [ensure_window] writes for a window it opens. *)
Definition created (k : WindowKey) (db : Db) : Db :=
  set_hw (merge_hw (db_window_hw db) (k, table_of k))
    (set_windows (<[k := (table_of k, 0%N)]> (db_windows db))
       (set_tables (<[table_of k := []]> (db_tables db)) db)).

Lemma created_rows k db k' :
  db_tables db !! table_of k = None → rows_of (created k db) k' = rows_of db k'.
Proof. apply create_window_rows. Qed.

Lemma created_ok last db k :
  db_ok last db → db_tables db !! table_of k = None → db_ok last (created k db).
Proof.
  intros Hok Hn. pose proof (λ k', created_rows k db k' Hn) as Hrows. split.
  - intros k' t b. simpl. destruct (decide (k = k')) as [<-|Hne].
    + rewrite lookup_insert_eq. intros [= <- <-]. rewrite lookup_insert_eq. repeat split; [done|lia].
    + rewrite lookup_insert_ne by done. intros Hk. destruct (ok_registered _ _ Hok _ _ _ Hk) as (-> & Ht & Hb).
      repeat split; [|done]. apply lookup_insert_is_Some'. by right.
  - intros t. simpl. rewrite lookup_insert_is_Some'. intros [<-|Ht].
    + exists k. split; [done|]. rewrite lookup_insert_eq. done.
    + destruct (ok_tables _ _ Hok _ Ht) as (k' & -> & Hk'). exists k'. split; [done|].
      apply lookup_insert_is_Some'. by right.
  - intros d p w. simpl. rewrite lookup_insert_is_Some'. intros [->|Hw].
    + unfold merge_hw. simpl. rewrite lookup_insert_eq. eexists. split; [done|].
      destruct (db_window_hw db !! (d, p)); lia.
    + destruct (ok_hw _ _ Hok _ _ _ Hw) as (h & Hh & Hle).
      destruct (upsert_hw_mono _ (k, table_of k) _ _ _ Hh) as (h' & Hh' & Hle').
      exists h'. split; [done|lia].
  - intros k' r. rewrite Hrows. apply (ok_seqs _ _ Hok).
  - apply (ok_bound _ _ Hok).
  - intros k'. rewrite Hrows. apply (ok_nodup _ _ Hok).
  - intros k1 k2 r1 r2. rewrite !Hrows. apply (ok_once _ _ Hok).
Qed.

End invariant.

(** ** The operations of a transaction *)

Section operations.
Context `{DuckDb}.

Lemma open_window_ok e tx k :
  txn_ok e tx → en_windows e !! k = None → k ∉ (tx_windows tx).*1 →
  db_tables (tx_db tx) !! table_of k = None →
  txn_ok e (push_window k (table_of k) (set_db (created k (tx_db tx)) tx)).
Proof.
  intros Htx He Hk Hn.
  assert (merged e tx !! k = None) as Hmk by (unfold merged; by rewrite merge_windows_other).
  assert (tx_bytes tx !! k = None) as Hbk.
  { apply eq_None_not_Some. intros Hs. apply (tk_bytes _ _ Htx) in Hs as [? Hs]. congruence. }
  assert (∀ tx', tx_windows tx' = tx_windows tx ++ [(k, table_of k)] →
    merged e tx' = <[k := {| wm_table := table_of k; wm_bytes := 0 |}]> (merged e tx)) as Hm.
  { intros tx' E. unfold merged. by rewrite E, foldl_snoc. }
  split; simpl.
  - apply (tk_applied _ _ Htx).
  - apply (created_ok (txn_last e tx)); [apply (tk_db _ _ Htx)|done].
  - apply (tk_seqs _ _ Htx).
  - rewrite fmap_app. apply NoDup_app. split_and!; [apply (tk_new _ _ Htx)| |by apply NoDup_singleton].
    intros k' Hk' ->%list_elem_of_singleton. done.
  - intros k' t' [Hin|[= -> ->]%list_elem_of_singleton]%elem_of_app; [|done].
    by apply (tk_fresh _ _ Htx).
  - intros k'. rewrite Hm by done. unfold pending. simpl. destruct (decide (k = k')) as [<-|Hne].
    + by rewrite !lookup_insert_eq, Hbk.
    + rewrite !lookup_insert_ne by done. apply (tk_windows _ _ Htx).
  - intros k' Hs. rewrite Hm by done. apply lookup_insert_is_Some'. right. by apply (tk_bytes _ _ Htx).
  - rewrite foldl_snoc. by rewrite (tk_hw _ _ Htx).
Qed.

(** The high-water marks once the window [k] may have been created. *)
Definition hw_grown (k : WindowKey) (h h' : gmap (string * string) N) : Prop :=
  h' = h ∨ h' = merge_hw h (k, table_of k).

Lemma hw_grown_trans k h1 h2 h3 : hw_grown k h1 h2 → hw_grown k h2 h3 → hw_grown k h1 h3.
Proof.
  destruct k as [[d p] w]. intros [->| ->] [->| ->]; [by left|by right..|right].
  unfold merge_hw. simpl. rewrite lookup_insert_eq, insert_insert_eq. f_equal.
  case_match; by rewrite ?N.max_id, <-?N.max_assoc, ?N.max_id.
Qed.

Lemma ensure_window_ok e d p w schema tx t tx' :
  txn_ok e tx → ensure_window e d p w schema tx = (Ok t, tx') →
  txn_ok e tx' ∧ t = table_of (d, p, w) ∧ is_Some (merged e tx' !! (d, p, w)) ∧
  (∀ k, rows_of (tx_db tx') k = rows_of (tx_db tx) k) ∧
  tx_applied tx' = tx_applied tx ∧ db_dedup (tx_db tx') = db_dedup (tx_db tx) ∧
  hw_grown (d, p, w) (db_window_hw (tx_db tx)) (db_window_hw (tx_db tx')).
Proof.
  intros Htx. unfold ensure_window. destruct (en_windows e !! (d, p, w)) as [m|] eqn:Hm.
  { intros E. inv_m. assert (merged e tx !! (d, p, w) = Some m) as Hme.
    { unfold merged. rewrite merge_windows_other; [done|].
      intros ([k t] & Ek & Hin)%list_elem_of_fmap. simpl in Ek. subst k.
      apply (tk_fresh _ _ Htx) in Hin as [Hk _]. congruence. }
    destruct (txn_window_table e tx (d, p, w) Htx) as [Ht _]; [by rewrite Hme|].
    split_and!; try done; [by apply Ht|by left]. }
  intros E. apply mbind_ok in E as (pw & tx1 & [= <- <-] & E).
  destruct (List.find _ _) as [[k t0]|] eqn:Hf.
  { inv_m. apply find_some in Hf as [Hin Hk%bool_decide_eq_true]. simpl in Hk. subst k.
    apply list_elem_of_In in Hin.
    pose proof (tk_fresh _ _ Htx _ _ Hin) as [_ ->]. split_and!; try done; [|by left].
    apply merge_windows_in, list_elem_of_fmap. by exists (d, p, w, table_of (d, p, w)). }
  change (window_table_name d p w) with (table_of (d, p, w)) in E. inv_m. simpl in *.
  repeat match goal with u : unit |- _ => destruct u end.
  repeat match goal with
  | H : create_table _ _ = Ok _ |- _ => unfold create_table in H
  | H : insert_window _ _ _ = Ok _ |- _ => unfold insert_window in H; simpl in H
  end.
  destruct (db_tables (tx_db tx) !! table_of (d, p, w)) eqn:Hn; [done|]. simplify_eq.
  simpl in *. destruct (db_windows (tx_db tx) !! (d, p, w)) eqn:Hwn; [done|]. simplify_eq.
  assert ((d, p, w) ∉ (tx_windows tx).*1) as Hnew.
  { intros ([k t] & Ek & Hin)%list_elem_of_fmap. simpl in Ek. subst k.
    apply list_elem_of_In in Hin. pose proof (find_none _ _ Hf _ Hin) as Hb. simpl in Hb.
    by rewrite bool_decide_eq_true_2 in Hb. }
  pose proof (open_window_ok e tx (d, p, w) Htx Hm Hnew Hn) as Hok.
  split_and!; [exact Hok|done| |intros k; by apply created_rows|done|done|by right].
  apply merge_windows_in. simpl. rewrite fmap_app. apply elem_of_app. right. by left.
Qed.
(** ** Appending *)

Lemma stamp_length o s l : length (stamp o s l) = length l.
Proof. revert s. induction l as [|x l IH]; intros s; simpl; [done|]. by rewrite IH. Qed.

Lemma stamp_lookup o s l i r :
  stamp o s l !! i = Some r → r_origin r = o ∧ r_seq r = (s + N.of_nat i)%N ∧ l !! i = Some (r_payload r).
Proof.
  revert s i. induction l as [|x l IH]; intros s [|i]; simpl; [done|done| |].
  - intros [= <-]. simpl. by rewrite N.add_0_r.
  - intros (-> & -> & ->)%IH. split_and!; [done|lia|done].
Qed.

Lemma elem_of_stamp o s l r :
  r ∈ stamp o s l → r_origin r = o ∧ (s ≤ r_seq r < s + N.of_nat (length l))%N.
Proof.
  intros (i & Hi)%list_elem_of_lookup. pose proof (lookup_lt_Some _ _ _ Hi) as Hlt.
  rewrite stamp_length in Hlt. apply stamp_lookup in Hi as (-> & -> & _). split; [done|lia].
Qed.

Lemma stamp_nodup o s l : NoDup (row_id <$> stamp o s l).
Proof.
  revert s. induction l as [|x l IH]; intros s; csimpl; constructor; [|apply IH].
  intros (r & E & Hr)%list_elem_of_fmap. apply elem_of_stamp in Hr as [_ Hr].
  injection E as _ E. lia.
Qed.

Lemma stamp_app o s l1 l2 :
  stamp o s (l1 ++ l2) = stamp o s l1 ++ stamp o (s + N.of_nat (length l1)) l2.
Proof.
  revert s. induction l1 as [|x l1 IH]; intros s; simpl; [by rewrite N.add_0_r|].
  rewrite IH. do 3 f_equal. lia.
Qed.

Definition appended (k : WindowKey) (rows : list Row) (db : Db) : Db :=
  set_tables (<[table_of k := rows_of db k ++ rows]> (db_tables db)) db.

Lemma rows_of_appended k rows db k' :
  rows_of (appended k rows db) k' = if decide (k = k') then rows_of db k ++ rows else rows_of db k'.
Proof.
  unfold rows_of at 1, appended. simpl. case_decide as Hk; [subst; by rewrite lookup_insert_eq|].
  rewrite lookup_insert_ne; [done|]. by intros ?%table_of_inj.
Qed.

Lemma appended_ok last last' db k o s l :
  db_ok last db → is_Some (db_tables db !! table_of k) →
  (∀ p o, last p o ≤ last' p o ≤ u64_max)%N → last k.1.2 o = s → (s + N.of_nat (length l) ≤ last' k.1.2 o)%N →
  db_ok last' (appended k (stamp o (s + 1) l) db).
Proof.
  intros Hok Htab Hle Hs Hl. split.
  - intros k' t b Hk. destruct (ok_registered _ _ Hok _ _ _ Hk) as (-> & Ht & Hb).
    split_and!; [done| |done]. simpl. apply lookup_insert_is_Some'. by right.
  - intros t. simpl. rewrite lookup_insert_is_Some'. intros [<-|Ht]; apply (ok_tables _ _ Hok); done.
  - apply (ok_hw _ _ Hok).
  - intros k' r. rewrite rows_of_appended. case_decide as Hk; [subst k'|].
    + rewrite elem_of_app. intros [Hr|(i & Hi)%list_elem_of_lookup].
      * pose proof (ok_seqs _ _ Hok _ _ Hr). pose proof (Hle k.1.2 (r_origin r)). lia.
      * pose proof (lookup_lt_Some _ _ _ Hi) as Hlt. rewrite stamp_length in Hlt.
        apply stamp_lookup in Hi as (-> & -> & _). lia.
    + intros Hr. pose proof (ok_seqs _ _ Hok _ _ Hr). pose proof (Hle k'.1.2 (r_origin r)). lia.
  - intros p' o'. by apply Hle.
  - intros k'. rewrite rows_of_appended. case_decide as Hk; [subst k'|apply (ok_nodup _ _ Hok)].
    rewrite fmap_app. apply NoDup_app. split_and!; [apply (ok_nodup _ _ Hok)| |apply stamp_nodup].
    intros x (r1 & -> & Hr1)%list_elem_of_fmap (r2 & E & Hr2)%list_elem_of_fmap.
    injection E as Eo Es. apply (ok_seqs _ _ Hok) in Hr1. apply elem_of_stamp in Hr2 as [Ho Hlt].
    rewrite Eo, Ho, Hs in Hr1. lia.
  - assert (∀ k' r, r ∈ rows_of (appended k (stamp o (s + 1) l) db) k' →
      r ∈ rows_of db k' ∨ k' = k ∧ r_origin r = o ∧ (s < r_seq r)%N) as Hsplit.
    { intros k' r. rewrite rows_of_appended. case_decide; [subst k'|by left].
      rewrite elem_of_app. intros [?|[??]%elem_of_stamp]; [by left|]. right. split_and!; [done|done|lia]. }
    assert (∀ k' r, k'.1.2 = k.1.2 → r ∈ rows_of db k' → r_origin r = o → (r_seq r ≤ s)%N) as Hold.
    { intros k' r Hk Hi Ho. apply (ok_seqs _ _ Hok) in Hi. rewrite Hk, Ho, Hs in Hi. lia. }
    intros k1 k2 r1 r2 Hp [Hi|(-> & Ho1 & Hs1)]%Hsplit [Hj|(-> & Ho2 & Hs2)]%Hsplit E;
      injection E as Eo Es.
    + apply (ok_once _ _ Hok k1 k2 r1 r2); [done..|]. unfold row_id. congruence.
    + pose proof (Hold k1 r1 Hp Hi ltac:(congruence)). lia.
    + pose proof (Hold k2 r2 ltac:(done) Hj ltac:(congruence)). lia.
    + done.
Qed.

Lemma bytes_ok last db k t b n :
  db_ok last db → db_windows db !! k = Some (t, b) → (b + n ≤ u64_max)%N →
  db_ok last (set_windows (<[k := (t, b + n)%N]> (db_windows db)) db).
Proof.
  intros Hok Hk Hn. destruct (ok_registered _ _ Hok _ _ _ Hk) as (Et & Ht & _).
  assert (∀ k', is_Some (<[k := (t, b + n)%N]> (db_windows db) !! k') ↔ is_Some (db_windows db !! k')) as Hdom.
  { intros k'. rewrite lookup_insert_is_Some'. naive_solver. }
  split; simpl.
  - intros k' t' b'. destruct (decide (k = k')) as [<-|Hne].
    + rewrite lookup_insert_eq. by intros [= <- <-].
    + rewrite lookup_insert_ne by done. apply (ok_registered _ _ Hok).
  - intros t' (k' & ? & ?)%(ok_tables _ _ Hok). exists k'. by rewrite Hdom.
  - intros d p w. rewrite Hdom. apply (ok_hw _ _ Hok).
  - apply (ok_seqs _ _ Hok).
  - apply (ok_bound _ _ Hok).
  - apply (ok_nodup _ _ Hok).
  - apply (ok_once _ _ Hok).
Qed.

(** The pending sequence numbers after an append. *)
Lemma seq_base_pend e tx p f l p' :
  seq_base e (pend_applied p f l tx) p' = if decide (p = p') then l else seq_base e tx p'.
Proof.
  unfold seq_base, pend_applied. simpl. case_decide as Hp; [subst|by rewrite lookup_insert_ne].
  rewrite lookup_insert_eq. by destruct (tx_applied tx !! p') as [[]|].
Qed.

(** The bookkeeping that ends an append keeps the transaction consistent, given
    that the rows are in and the registry row carries the bytes. *)
Lemma pend_ok e tx k n first last db :
  txn_ok e tx → is_Some (merged e tx !! k) →
  db_applied db = db_applied (tx_db tx) → db_window_hw db = db_window_hw (tx_db tx) →
  (∃ t b, db_windows (tx_db tx) !! k = Some (t, b) ∧ (b + n ≤ u64_max)%N ∧
     db_windows db = <[k := (t, b + n)%N]> (db_windows (tx_db tx))) →
  first = (seq_base e tx k.1.2 + 1)%N → (first ≤ last ≤ u64_max)%N →
  let tx' := pend_applied k.1.2 first last (pend_bytes k n (set_db db tx)) in
  db_ok (txn_last e tx') db → txn_ok e tx'.
Proof.
  intros Htx Hk Ha Hh (t & b & Hkb & Hn & Hwin) Hf Hl tx' Hdb.
  assert (merged e tx' = merged e tx) as Hm by done.
  destruct Hk as [m Hkm]. pose proof (tk_windows _ _ Htx k) as Hw. rewrite Hkb, Hkm in Hw.
  injection Hw as Et Eb.
  split; [|done| |apply (tk_new _ _ Htx)|apply (tk_fresh _ _ Htx)| | |].
  - simpl. rewrite Ha. apply (tk_applied _ _ Htx).
  - intros p f l. simpl. destruct (decide (k.1.2 = p)) as [<-|Hne].
    + rewrite lookup_insert_eq. intros E. unfold seq_base in Hf.
      destruct (tx_applied tx !! k.1.2) as [[f0 l0]|] eqn:E0; simplify_eq.
      * destruct (tk_seqs _ _ Htx _ _ _ E0). lia.
      * lia.
    + rewrite lookup_insert_ne by done. apply (tk_seqs _ _ Htx).
  - intros k'. rewrite Hm. simpl. rewrite Hwin. unfold pending. simpl.
    destruct (decide (k = k')) as [<-|Hne].
    + rewrite !lookup_insert_eq, Hkm. simpl. fold (pending tx k). rewrite u64_add_exact by lia.
      do 2 f_equal; [done|lia].
    + rewrite !lookup_insert_ne by done. apply (tk_windows _ _ Htx).
  - intros k'. rewrite Hm. simpl. rewrite lookup_insert_is_Some'. intros [<-|Hs]; [by rewrite Hkm|].
    by apply (tk_bytes _ _ Htx).
  - simpl. rewrite Hh. apply (tk_hw _ _ Htx).
Qed.

Lemma checked_seq_ok b n p s : checked_seq b n p = Ok s → s = (b + n)%N ∧ (s ≤ u64_max)%N.
Proof.
  unfold checked_seq, checked_add. case_if; bool_tests; [|done]. intros [= <-]. done.
Qed.

Lemma augment_ok b o s rows : augment_batch b o s = Ok rows → rows = stamp o s (rb_rows b).
Proof. unfold augment_batch. destruct (rb_try_new b); simpl; [|done]. by intros [= <-]. Qed.

Lemma append_rows_ok k rows db db' :
  append_rows (table_of k) rows db = Ok db' → is_Some (db_tables db !! table_of k) ∧ db' = appended k rows db.
Proof.
  unfold append_rows, appended, rows_of. destruct (db_tables db !! table_of k); [|done].
  intros [= <-]. done.
Qed.

Lemma update_bytes_ok k n db db' :
  is_Some (db_windows db !! k) → update_bytes k n db = Ok db' →
  ∃ t b, db_windows db !! k = Some (t, b) ∧ (b + n ≤ u64_max)%N ∧
    db' = set_windows (<[k := (t, b + n)%N]> (db_windows db)) db.
Proof.
  unfold update_bytes. intros [[t b] ->]. case_if; bool_tests; [|done]. intros [= <-]. by exists t, b.
Qed.

(** What an append does. *)
Definition grown (e : Engine) (tx : StageTxn) (k : WindowKey) (l : list Payload) (tx' : StageTxn) : Prop :=
  (∀ k', rows_of (tx_db tx') k' =
     if decide (k = k') then rows_of (tx_db tx) k ++ stamp (en_origin e) (seq_base e tx k.1.2 + 1) l
     else rows_of (tx_db tx) k') ∧
  (∀ p, seq_base e tx' p =
     if decide (k.1.2 = p) then (seq_base e tx p + N.of_nat (length l))%N else seq_base e tx p) ∧
  (∀ p, k.1.2 ≠ p → tx_applied tx' !! p = tx_applied tx !! p) ∧
  (l ≠ [] → is_Some (tx_applied tx' !! k.1.2)) ∧
  (is_Some (tx_applied tx !! k.1.2) → is_Some (tx_applied tx' !! k.1.2)) ∧
  db_dedup (tx_db tx') = db_dedup (tx_db tx) ∧
  hw_grown k (db_window_hw (tx_db tx)) (db_window_hw (tx_db tx')).

Lemma append_ok e d p w b tx u tx' :
  txn_ok e tx → append e d p w b tx = (Ok u, tx') →
  txn_ok e tx' ∧ grown e tx (d, p, w) (rb_rows b) tx'.
Proof.
  intros Htx Ha. unfold append in Ha. apply mbind_ok in Ha as (t & tx1 & He & Ha).
  apply ensure_window_ok in He as (Htx1 & -> & Hk & Hrows & Happ & Hdd & Hhw); [|done].
  assert (∀ p', seq_base e tx1 p' = seq_base e tx p') as Hbase
    by (intros p'; unfold seq_base; by rewrite Happ).
  case_if; bool_tests.
  { inv_m. assert (rb_rows b = []) as Hb by (destruct (rb_rows b); simpl in *; [done|lia]).
    split; [done|]. unfold grown. rewrite Hb. simpl. split_and!; try done.
    - intros k'. rewrite Hrows. case_decide; subst; [by rewrite app_nil_r|done].
    - intros p'. rewrite Hbase. case_decide; lia.
    - intros p' _. by rewrite Happ.
    - by rewrite Happ. }
  inv_m. simpl in *.
  repeat match goal with
  | H : checked_seq _ _ _ = Ok _ |- _ => apply checked_seq_ok in H as [-> ?]
  | H : augment_batch _ _ _ = Ok _ |- _ => apply augment_ok in H as ->
  | H : append_rows _ _ _ = Ok _ |- _ => apply append_rows_ok in H as [Htab ->]
  end.
  match goal with H : update_bytes _ _ _ = Ok _ |- _ => apply update_bytes_ok in H
    as (t & n0 & Hkb & Hn & ->) end;
    [|simpl; rewrite (tk_windows _ _ Htx1); by apply fmap_is_Some].
  set (l := rb_rows b) in *. set (s := seq_base e tx1 p) in *.
  split.
  - eapply (pend_ok e tx1 (d, p, w)); [done|done|done|done| |done|lia|].
    { by exists t, n0. }
    apply bytes_ok; [|done|done].
    apply (appended_ok (txn_last e tx1)); [apply (tk_db _ _ Htx1)|done| | |]; unfold txn_last; simpl.
    + intros p' o. pose proof (ok_bound _ _ (tk_db _ _ Htx1) p' o) as Hbd. unfold txn_last in Hbd.
      case_decide; [|done]. rewrite seq_base_pend. case_decide; [subst; fold s; lia|done].
    + by rewrite decide_True.
    + rewrite decide_True, seq_base_pend, decide_True by done. done.
  - unfold grown. split_and!.
    + intros k'. rewrite <-!Hrows. simpl. rewrite <-Hbase. apply rows_of_appended.
    + intros p'. rewrite seq_base_pend, <-!Hbase. simpl. case_decide; [by subst|done].
    + intros p' Hne. simpl in *. by rewrite lookup_insert_ne, Happ.
    + intros _. simpl. by rewrite lookup_insert_eq.
    + intros _. simpl. by rewrite lookup_insert_eq.
    + done.
    + done.
Qed.

(** ** Committing *)

Lemma upsert_applied_ok o l db db' :
  upsert_applied o l db = Ok db' →
  db' = set_applied (foldl (λ a (x : string * (N * N)), <[(x.1, o) := x.2.2]> a) (db_applied db) l) db.
Proof.
  revert db. induction l as [|[p [f s]] l IH]; intros db; simpl; [by intros [= <-]; destruct db|].
  destruct (run_stmt _ _ db) as [db1|] eqn:E; [|done]. apply run_stmt_ok in E as [= <-].
  intros ->%IH. done.
Qed.

Lemma applied_upserts (o : string) (l : list (string * (N * N))) (a : gmap (string * string) N)
    (p o' : string) :
  NoDup l.*1 →
  foldl (λ a (x : string * (N * N)), <[(x.1, o) := x.2.2]> a) a l !! (p, o') =
  match (list_to_map l : gmap string (N * N)) !! p with
  | Some (_, s) => if decide (o' = o) then Some s else a !! (p, o')
  | None => a !! (p, o')
  end.
Proof.
  revert a. induction l as [|[q [f s]] l IH]; intros a Hnd; [done|].
  apply NoDup_cons in Hnd as [Hq Hnd]. simpl in *. rewrite IH by done.
  destruct (decide (q = p)) as [->|Hne].
  - rewrite lookup_insert_eq, (not_elem_of_list_to_map_1 l p) by done. case_decide.
    + subst. by rewrite lookup_insert_eq.
    + rewrite lookup_insert_ne; [done|]. naive_solver.
  - rewrite (lookup_insert_ne a (q, o) (p, o')) by naive_solver. by rewrite lookup_insert_ne.
Qed.

Lemma btree_to_map {V} (m : gmap string V) : (list_to_map (btree_entries m) : gmap string V) = m.
Proof.
  etrans; [|apply list_to_map_to_list]. apply list_to_map_proper; [apply btree_entries_keys|].
  unfold btree_entries. apply merge_sort_Permutation.
Qed.

Lemma merge_bytes_other ws l k : k ∉ l.*1 → foldl merge_bytes ws l !! k = ws !! k.
Proof.
  revert ws. induction l as [|kb l IH]; intros ws Hk; [done|].
  simpl in *. apply not_elem_of_cons in Hk as [Hk1 Hk2]. rewrite IH by done.
  unfold merge_bytes. destruct (ws !! kb.1); [|done]. by rewrite lookup_insert_ne.
Qed.

Lemma merge_bytes_lookup ws l k n :
  NoDup l.*1 → (k, n) ∈ l →
  foldl merge_bytes ws l !! k =
    (λ m, {| wm_table := wm_table m; wm_bytes := u64_add (wm_bytes m) n |}) <$> ws !! k.
Proof.
  revert ws. induction l as [|[k' n'] l IH]; intros ws Hnd Hin; [by apply elem_of_nil in Hin|].
  simpl in *. apply NoDup_cons in Hnd as [Hk Hnd]. apply elem_of_cons in Hin as [[= <- <-]|Hin].
  - rewrite merge_bytes_other by done. unfold merge_bytes. simpl.
    destruct (ws !! k) eqn:E; simpl; [by rewrite lookup_insert_eq|done].
  - assert (k' ≠ k) by (intros ->; apply Hk, list_elem_of_fmap; by exists (k, n)).
    rewrite IH by done. unfold merge_bytes. simpl. destruct (ws !! k'); [|done].
    by rewrite lookup_insert_ne.
Qed.

(** ** The accounted bytes *)


Lemma foldl_u64_add (x : N) (l : list N) :
  foldl u64_add (x mod (u64_max + 1))%N l = ((x + sum_N l) mod (u64_max + 1))%N.
Proof.
  revert x. induction l as [|y l IH]; intros x; simpl; [by rewrite N.add_0_r|].
  unfold u64_add at 2. rewrite N.Div0.add_mod_idemp_l. rewrite IH. f_equal. lia.
Qed.

Lemma total_insert_new ws k m :
  ws !! k = None → total_bytes (<[k := m]> ws) = (wm_bytes m + total_bytes ws)%N.
Proof. intros Hk. unfold total_bytes. apply (map_fold_insert_L (λ _ m acc, wm_bytes m + acc)%N); [intros; lia|done]. Qed.

Lemma total_delete ws k m :
  ws !! k = Some m → total_bytes ws = (wm_bytes m + total_bytes (delete k ws))%N.
Proof. intros Hk. unfold total_bytes. apply (map_fold_delete_L (λ _ m acc, wm_bytes m + acc)%N); [intros; lia|done]. Qed.

Lemma total_insert ws k m m' :
  ws !! k = Some m → (total_bytes (<[k := m']> ws) + wm_bytes m = total_bytes ws + wm_bytes m')%N.
Proof.
  intros Hk. rewrite <-insert_delete_eq, total_insert_new by apply lookup_delete_eq.
  rewrite (total_delete ws k m Hk). lia.
Qed.

Lemma total_merge_windows ws l :
  NoDup l.*1 → (∀ k t, (k, t) ∈ l → ws !! k = None) →
  total_bytes (foldl merge_window ws l) = total_bytes ws.
Proof.
  revert ws. induction l as [|[k t] l IH]; intros ws Hnd Hnew; [done|].
  simpl in *. apply NoDup_cons in Hnd as [Hk Hnd]. rewrite IH; [|done|].
  - unfold merge_window. rewrite total_insert_new; [done|]. apply (Hnew k t). by left.
  - intros k' t' Hin. unfold merge_window. simpl. rewrite lookup_insert_ne.
    + apply (Hnew k' t'). by right.
    + intros ->. apply Hk, list_elem_of_fmap. by exists (k', t').
Qed.

Lemma total_merge_bytes ws l :
  NoDup l.*1 → (∀ k n, (k, n) ∈ l → ∃ m, ws !! k = Some m ∧ (wm_bytes m + n ≤ u64_max)%N) →
  total_bytes (foldl merge_bytes ws l) = (total_bytes ws + sum_N l.*2)%N.
Proof.
  revert ws. induction l as [|[k n] l IH]; intros ws Hnd Hin; csimpl; [by rewrite N.add_0_r|].
  csimpl in *. apply NoDup_cons in Hnd as [Hk Hnd].
  destruct (Hin k n ltac:(by left)) as (m & Hm & Hn).
  set (m' := {| wm_table := wm_table m; wm_bytes := u64_add (wm_bytes m) n |}).
  assert (merge_bytes ws (k, n) = <[k := m']> ws) as -> by (unfold merge_bytes; simpl; by rewrite Hm).
  rewrite IH; [|done|].
  - pose proof (total_insert ws k m m' Hm) as Ht. simpl in Ht. rewrite u64_add_exact in Ht by done.
    csimpl. lia.
  - intros k' n' Hin'. rewrite lookup_insert_ne; [apply Hin; by right|].
    intros ->. apply Hk, list_elem_of_fmap. by exists (k', n').
Qed.

(** The windows of the mirror after a commit. *)
Lemma committed_windows e tx k :
  txn_ok e tx →
  foldl merge_bytes (merged e tx) (map_to_list (tx_bytes tx)) !! k = windows_of (tx_db tx) !! k.
Proof.
  intros Htx. unfold windows_of. rewrite lookup_fmap, (tk_windows _ _ Htx). unfold pending.
  destruct (tx_bytes tx !! k) as [n|] eqn:Hn.
  - rewrite (merge_bytes_lookup _ _ k n); [|apply NoDup_fst_map_to_list|by apply elem_of_map_to_list].
    destruct (merged e tx !! k) as [m|] eqn:Hm; [|done]. simpl.
    assert (wm_bytes m + n ≤ u64_max)%N as Hb.
    { pose proof (tk_windows _ _ Htx k) as Hw. rewrite Hm in Hw. unfold pending in Hw. rewrite Hn in Hw.
      by apply (ok_registered _ _ (tk_db _ _ Htx)) in Hw as (_ & _ & ?). }
    by rewrite u64_add_exact.
  - rewrite merge_bytes_other.
    + destruct (merged e tx !! k) as [[t b]|]; [|done]. simpl. by rewrite N.add_0_r.
    + intros ([k' n] & Ek & Hin)%list_elem_of_fmap. simpl in Ek. subst k'.
      apply elem_of_map_to_list in Hin. congruence.
Qed.

Lemma committed_bytes e tx :
  mirror e → txn_ok e tx →
  foldl u64_add (en_staged_bytes e) (map_to_list (tx_bytes tx)).*2 =
  (total_bytes (foldl merge_bytes (merged e tx) (map_to_list (tx_bytes tx))) mod (u64_max + 1))%N.
Proof.
  intros Hmi Htx. rewrite (mi_bytes _ Hmi), foldl_u64_add, total_merge_bytes.
  - unfold merged. rewrite total_merge_windows; [done|apply (tk_new _ _ Htx)|].
    intros k t Hin. by apply (tk_fresh _ _ Htx) in Hin as [? _].
  - apply NoDup_fst_map_to_list.
  - intros k n Hin%elem_of_map_to_list. destruct (tk_bytes _ _ Htx k) as [m Hm]; [by rewrite Hin|].
    exists m. split; [done|]. pose proof (tk_windows _ _ Htx k) as Hw. rewrite Hm in Hw.
    unfold pending in Hw. rewrite Hin in Hw.
    by apply (ok_registered _ _ (tk_db _ _ Htx)) in Hw as (_ & _ & ?).
Qed.

(** What a commit makes of the engine. *)
Record committed (e : Engine) (tx : StageTxn) (e' : Engine) : Prop := {
  cm_origin : en_origin e' = en_origin e;
  cm_rows k : rows_of (en_db e') k = rows_of (tx_db tx) k;
  cm_dedup : db_dedup (en_db e') = db_dedup (tx_db tx);
  cm_applied p o : applied_last (en_db e') p o = txn_last e tx p o;
  cm_hw : db_window_hw (en_db e') = db_window_hw (tx_db tx);
}.

Lemma commit_ok e tx cov e' :
  engine_ok e → txn_ok e tx → commit e tx = (Ok cov, e') →
  engine_ok e' ∧ cov = pending_coverage e tx ∧ committed e tx e'.
Proof.
  intros [Hmi _] Htx. unfold commit.
  destruct (upsert_applied _ _ _) as [db|] eqn:Hu; [|done]. apply upsert_applied_ok in Hu.
  destruct (run_stmt SCommit Ok db) as [db'|] eqn:Hr; [|done].
  apply run_stmt_ok in Hr as [= <-]. intros [= <- <-].
  assert (∀ p o, db_applied db !! (p, o) =
    match tx_applied tx !! p with
    | Some (_, s) => if decide (o = en_origin e) then Some s else db_applied (en_db e) !! (p, o)
    | None => db_applied (en_db e) !! (p, o)
    end) as Hap.
  { intros p o. subst db. simpl. rewrite applied_upserts by apply btree_entries_keys.
    by rewrite btree_to_map, (tk_applied _ _ Htx). }
  assert (∀ p o, applied_last db p o = txn_last e tx p o) as Hlast.
  { intros p o. unfold applied_last, txn_last, seq_base. rewrite Hap, (mi_applied _ Hmi).
    destruct (tx_applied tx !! p) as [[f s]|]; case_decide; by subst. }
  assert (db_ok (applied_last db) db) as Hok.
  { destruct (tk_db _ _ Htx) as [Ho1 Ho2 Ho3 Ho4 Ho5 Ho6 Ho7]. subst db. split; try done.
    - intros k r Hr. rewrite Hlast. by apply Ho4.
    - intros p o. rewrite Hlast. apply Ho5. }
  assert (db_windows db = db_windows (tx_db tx)) as Hwin by by subst.
  split_and!; [|done|by subst]. split; [|done]. split; simpl.
  - intros p. rewrite Hap, lookup_union, lookup_fmap, (mi_applied _ Hmi).
    destruct (tx_applied tx !! p) as [[f s]|]; simpl; [|by rewrite option_union_left_id].
    rewrite decide_True by done. by destruct (db_applied (en_db e) !! _).
  - apply map_eq. intros k. etrans; [by apply committed_windows|]. unfold windows_of. by rewrite Hwin.
  - rewrite (mi_hw _ Hmi). subst db. simpl. by rewrite (tk_hw _ _ Htx), (mi_hw _ Hmi).
  - by apply committed_bytes.
Qed.

(** ** The dedup window *)

Lemma set_dedup_ok e tx d : txn_ok e tx → txn_ok e (set_db (set_dedup d (tx_db tx)) tx).
Proof.
  intros [? [] ? ? ? ? ? ?]. split; try done.
Qed.

Lemma same_db tx : set_db (tx_db tx) tx = tx.
Proof. by destruct tx. Qed.

(** ** Dropping and deleting rows *)

Lemma sublist_filter {A} (f : A → bool) (l : list A) : sublist (List.filter f l) l.
Proof. induction l as [|x l IH]; simpl; [constructor|]. by destruct (f x); constructor. Qed.

(** A database whose windows lost some rows, or were dropped, is consistent. *)
Lemma shrink_ok last db db' :
  db_ok last db →
  (∀ k t b, db_windows db' !! k = Some (t, b) → db_windows db !! k = Some (t, b) ∧ is_Some (db_tables db' !! t)) →
  (∀ t, is_Some (db_tables db' !! t) → ∃ k, t = table_of k ∧ is_Some (db_windows db' !! k)) →
  db_window_hw db' = db_window_hw db →
  (∀ k, sublist (rows_of db' k) (rows_of db k)) →
  db_ok last db'.
Proof.
  intros Hok Hw Ht Hh Hr.
  assert (∀ k r, r ∈ rows_of db' k → r ∈ rows_of db k) as Hsub
    by (intros k r Hin; by eapply elem_of_sublist).
  split.
  - intros k t b [Hk Htab]%Hw. by destruct (ok_registered _ _ Hok _ _ _ Hk) as (-> & _ & ?).
  - done.
  - intros d p w [[t b] [Hk _]%Hw]. rewrite Hh. apply (ok_hw _ _ Hok). by rewrite Hk.
  - intros k r Hin%Hsub. by apply (ok_seqs _ _ Hok).
  - apply (ok_bound _ _ Hok).
  - intros k. eapply sublist_NoDup; [apply (ok_nodup _ _ Hok k)|]. by apply fmap_sublist.
  - intros k1 k2 r1 r2 Hp H1%Hsub H2%Hsub. by apply (ok_once _ _ Hok).
Qed.

Lemma u64_sub_mod a b : u64_sub ((a + b) mod (u64_max + 1)) b = (a mod (u64_max + 1))%N ∨ (u64_max < b)%N.
Proof.
  destruct (N.le_gt_cases b u64_max) as [Hb|]; [left|by right]. unfold u64_sub.
  set (m := (u64_max + 1)%N). assert (0 < m)%N by (subst m; lia). assert (b < m)%N by (subst m; lia).
  rewrite <-N.add_sub_assoc by lia.
  rewrite N.Div0.add_mod_idemp_l. replace (a + b + (m - b))%N with (a + 1 * m)%N by lia.
  apply N.Div0.mod_add.
Qed.

(** What [DropWindow] makes of the database. *)
Definition dropped (k : WindowKey) (db : Db) : Db :=
  set_windows (delete k (db_windows db)) (set_tables (delete (table_of k) (db_tables db)) db).

Lemma dropped_rows k db k' :
  rows_of (dropped k db) k' = if decide (k' = k) then [] else rows_of db k'.
Proof.
  unfold rows_of, dropped. simpl. case_decide; [subst; by rewrite lookup_delete_eq|].
  rewrite lookup_delete_ne; [done|]. by intros ?%table_of_inj.
Qed.

Lemma drop_window_txn_ok k t db db' :
  drop_window_txn k t db = Ok db' →
  db' = set_windows (delete k (db_windows db)) (set_tables (delete t (db_tables db)) db).
Proof.
  unfold drop_window_txn. destruct (run_stmt SBegin Ok db) as [db1|] eqn:E1; [|done].
  apply run_stmt_ok in E1 as [= <-].
  destruct (run_stmt (SDropTable t) _ db) as [db2|] eqn:E2; [|done]. apply run_stmt_ok in E2.
  destruct (db_tables db !! t); [|done]. injection E2 as <-.
  destruct (run_stmt (SDeleteWindow k) _ _) as [db3|] eqn:E3; [|done]. apply run_stmt_ok in E3 as [= <-].
  intros E4. apply run_stmt_ok in E4 as [= <-]. done.
Qed.

Lemma dropped_ok last db k : db_ok last db → db_ok last (dropped k db).
Proof.
  intros Hok. apply (shrink_ok last db); [done| | |done|].
  - intros k' t b. simpl. destruct (decide (k = k')) as [<-|Hne]; [by rewrite lookup_delete_eq|].
    rewrite lookup_delete_ne by done. intros Hk. split; [done|].
    destruct (ok_registered _ _ Hok _ _ _ Hk) as (-> & Ht & _).
    rewrite lookup_delete_ne; [done|]. by intros ?%table_of_inj.
  - intros t. simpl. intros [rows [Hne Ht]%lookup_delete_Some].
    destruct (ok_tables _ _ Hok t) as (k' & -> & Hk'); [by rewrite Ht|].
    exists k'. split; [done|]. rewrite lookup_delete_ne; [done|]. by intros ->.
  - intros k'. rewrite dropped_rows. case_decide; [apply sublist_nil_l|done].
Qed.

Lemma drop_window_ok e d p w r e' :
  engine_ok e → drop_window e d p w = (r, e') →
  engine_ok e' ∧ db_applied (en_db e') = db_applied (en_db e) ∧
  db_dedup (en_db e') = db_dedup (en_db e) ∧ db_window_hw (en_db e') = db_window_hw (en_db e) ∧
  en_origin e' = en_origin e ∧
  (r = Ok true ∧ is_Some (en_windows e !! (d, p, w)) ∧ en_windows e' = delete (d, p, w) (en_windows e) ∧
   (∀ k, rows_of (en_db e') k = if decide (k = (d, p, w)) then [] else rows_of (en_db e) k) ∨
   r ≠ Ok true ∧ e' = e ∧ (r = Ok false → en_windows e !! (d, p, w) = None)).
Proof.
  intros Hok. pose proof Hok as [Hmi Hdb]. unfold drop_window.
  destruct (en_windows e !! (d, p, w)) as [m|] eqn:Hm;
    [|by intros [= <- <-]; split_and!; try done; right].
  destruct (drop_window_txn _ _ _) as [db|] eqn:Hd;
    [|by intros [= <- <-]; split_and!; try done; right].
  intros [= <- <-]. apply drop_window_txn_ok in Hd as ->.
  pose proof Hm as Hm'. rewrite (mi_windows _ Hmi) in Hm'. unfold windows_of in Hm'.
  rewrite lookup_fmap in Hm'. destruct (db_windows (en_db e) !! (d, p, w)) as [[t b]|] eqn:Hw; [|done].
  injection Hm' as <-. simpl.
  destruct (ok_registered _ _ Hdb _ _ _ Hw) as (-> & _ & Hb).
  split_and!; try done; [|left; split_and!; try done; apply dropped_rows].
  split; [split; simpl; try apply Hmi|].
  - rewrite (mi_windows _ Hmi). unfold windows_of. by rewrite <-fmap_delete.
  - rewrite (mi_bytes _ Hmi), (total_delete _ _ _ Hm). simpl. rewrite (N.add_comm b).
    destruct (u64_sub_mod (total_bytes (delete (d, p, w) (en_windows e))) b) as [?|?]; [done|lia].
  - apply (dropped_ok _ _ (d, p, w) Hdb).
Qed.

Definition deleted (k : WindowKey) (covered : Row → bool) (db : Db) : Db :=
  set_tables (<[table_of k := List.filter (λ r, negb (covered r)) (rows_of db k)]> (db_tables db)) db.

Lemma deleted_rows k covered db k' :
  rows_of (deleted k covered db) k' =
  if decide (k' = k) then List.filter (λ r, negb (covered r)) (rows_of db k') else rows_of db k'.
Proof.
  unfold rows_of at 1, deleted. simpl. case_decide; [subst; by rewrite lookup_insert_eq|].
  rewrite lookup_insert_ne; [done|]. by intros ?%table_of_inj.
Qed.

Lemma with_db_ok e db :
  engine_ok e → db_applied db = db_applied (en_db e) → db_windows db = db_windows (en_db e) →
  db_window_hw db = db_window_hw (en_db e) → db_ok (applied_last db) db → engine_ok (with_db e db).
Proof.
  intros [[Ha Hw Hh Hb] _] Ea Ew Eh Hok. split; [|done]. split; simpl; [|..|done].
  - intros p. by rewrite Ha, Ea.
  - rewrite Hw. unfold windows_of. by rewrite Ew.
  - by rewrite Hh, Eh.
Qed.

Lemma delete_covered_rows_ok e k covered r e' :
  engine_ok e → delete_covered_rows e (table_of k) covered = (r, e') →
  engine_ok e' ∧ db_applied (en_db e') = db_applied (en_db e) ∧
  db_dedup (en_db e') = db_dedup (en_db e) ∧ db_window_hw (en_db e') = db_window_hw (en_db e) ∧
  en_windows e' = en_windows e ∧ en_origin e' = en_origin e ∧
  (r = Ok tt ∧ (∀ k', rows_of (en_db e') k' =
     if decide (k' = k) then List.filter (λ r, negb (covered r)) (rows_of (en_db e) k')
     else rows_of (en_db e) k') ∨
   (∃ err, r = Err err) ∧ e' = e).
Proof.
  intros Hok. pose proof Hok as [_ Hdb]. unfold delete_covered_rows.
  destruct (run_stmt _ _ _) as [db|] eqn:Hr;
    [|intros [= <- <-]; split_and!; try done; right; eauto].
  apply run_stmt_ok in Hr. destruct (db_tables (en_db e) !! table_of k) as [rows|] eqn:Ht; [|done].
  assert (rows = rows_of (en_db e) k) as Hrows by (unfold rows_of; by rewrite Ht).
  assert (db = deleted k covered (en_db e)) as -> by (injection Hr as <-; by rewrite Hrows).
  intros [= <- <-]. split_and!; try done; [|left; split; [done|intros k'; apply deleted_rows]].
  apply with_db_ok; try done. apply (shrink_ok _ (en_db e)); [done| | |done|].
  - intros k' t b Hk. split; [done|]. destruct (ok_registered _ _ Hdb _ _ _ Hk) as (-> & Hs & _).
    simpl. apply lookup_insert_is_Some'. by right.
  - intros t. simpl. rewrite lookup_insert_is_Some'. intros [<-|Hs]; apply (ok_tables _ _ Hdb); [|done].
    by rewrite Ht.
  - intros k'. rewrite deleted_rows. case_decide; [apply sublist_filter|done].
Qed.

(** A database that differs in its epoch only. *)
Lemma bump_epoch_ok db : db_ok (applied_last db) db → db_ok (applied_last (bump_epoch db)) (bump_epoch db).
Proof. intros []. by split. Qed.

Lemma checkpoint_ok fsync e r e' :
  engine_ok e → checkpoint fsync e = (r, e') →
  engine_ok e' ∧ (e' = e ∨ e' = with_db e (bump_epoch (en_db e))).
Proof.
  intros Hok. assert (with_db e (en_db e) = e) as Hid by by destruct e.
  unfold checkpoint. destruct (run_stmt SCheckpoint _ _) as [db|] eqn:E1;
    [apply run_stmt_ok in E1 as [= <-]|intros [= _ <-]; auto].
  destruct (run_stmt SBumpEpoch _ _) as [db|] eqn:E2; [apply run_stmt_ok in E2 as [= <-]|].
  - intros [= _ <-]. split; [|by right]. apply with_db_ok; try done. apply bump_epoch_ok, Hok.
  - rewrite Hid. intros [= _ <-]. auto.
Qed.

Lemma applied_of_lookup o db p : applied_of o db !! p = db_applied db !! (p, o).
Proof.
  unfold applied_of. revert p.
  apply (map_fold_weak_ind (λ (a : gmap string N) (m : gmap (string * string) N), ∀ p, a !! p = m !! (p, o)));
    [done|].
  intros [p' o'] n m a Hm IH p. case_bool_decide as Ho.
  - subst o'. destruct (decide (p' = p)) as [->|Hne]; [by rewrite !lookup_insert_eq|].
    rewrite !lookup_insert_ne by naive_solver. done.
  - rewrite lookup_insert_ne by naive_solver. done.
Qed.

Lemma total_bytes_sum ws : total_bytes ws = sum_N (wm_bytes <$> (map_to_list ws).*2).
Proof.
  unfold total_bytes. rewrite map_fold_foldr. induction (map_to_list ws) as [|[k m] l IH]; csimpl; [done|].
  by rewrite IH.
Qed.

Lemma bootstrap_ok db db' : bootstrap db = Ok db' → db' = bump_epoch db.
Proof.
  unfold bootstrap. destruct (run_stmt SOpen _ _) as [d1|] eqn:E1; [|done]. apply run_stmt_ok in E1 as [= <-].
  simpl. destruct (run_stmt SSetThreshold _ _) as [d2|] eqn:E2; [|done]. apply run_stmt_ok in E2 as [= <-].
  simpl. intros E3. by apply run_stmt_ok in E3 as [= <-].
Qed.

Lemma load_engine_ok o db e :
  load_engine o db = Ok e →
  e = {| en_db := db; en_origin := o; en_applied := applied_of o db; en_windows := windows_of db;
         en_window_hw := db_window_hw db;
         en_staged_bytes := foldl u64_add 0%N (wm_bytes <$> (map_to_list (windows_of db)).*2) |}.
Proof.
  unfold load_engine, load_applied, load_windows, load_window_hw.
  destruct (run_stmt (SSelect "duckspout_applied") _ _) as [d1|] eqn:E1; [|done]. apply run_stmt_ok in E1 as [= <-].
  simpl. destruct (run_stmt (SSelect "duckspout_windows") _ _) as [d2|] eqn:E2; [|done].
  apply run_stmt_ok in E2 as [= <-]. simpl.
  destruct (run_stmt (SSelect "duckspout_window_hw") _ _) as [d3|] eqn:E3; [|done].
  apply run_stmt_ok in E3 as [= <-]. simpl. by intros [= <-].
Qed.

(** Opening, failed or not, changes nothing but the epoch. *)
Lemma open_db mkdir fsync o db r db' :
  open mkdir fsync o db = (r, db') → db' = db ∨ db' = bump_epoch db.
Proof.
  unfold open. destruct mkdir; [|intros [= _ <-]; by left].
  destruct (bootstrap db) as [db1|] eqn:E; [|intros [= _ <-]; by left]. apply bootstrap_ok in E as ->.
  destruct (load_engine _ _); [destruct fsync|]; intros [= _ <-]; by right.
Qed.

(** Opening finds everything that was committed. *)
Lemma open_ok mkdir fsync o db e db' :
  db_ok (applied_last db) db → open mkdir fsync o db = (Ok e, db') →
  engine_ok e ∧ en_origin e = o ∧ en_db e = db' ∧ db' = bump_epoch db.
Proof.
  intros Hok. unfold open. destruct mkdir; [|done].
  destruct (bootstrap db) as [db1|] eqn:E; [|done]. apply bootstrap_ok in E as ->.
  destruct (load_engine _ _) as [e1|] eqn:El; [|done]. apply load_engine_ok in El as ->.
  destruct fsync; [|done]. intros [= <- <-]. split_and!; try done.
  split; [split; simpl; try done|by apply bump_epoch_ok].
  - intros p. apply (applied_of_lookup o (bump_epoch db)).
  - rewrite total_bytes_sum. by apply (foldl_u64_add 0).
Qed.

End operations.
