(* ===== verification/Seal.v ===== *)
(** * The seal surface

    Models [crates/duckspout-staging/src/seal.rs]: the close log, the sealing
    of a window into one part, and the coverage-guarded drop.  A reader's
    statements each see the database as committed when they run, so an
    operation takes the database of each of its statements; the sealed file is
    the list of its rows.  The key and the event time of a payload, and the
    order of the sealed file, are DuckDB's and are parameters. *)

From S2P Require Import Prelude Types Ports Overload Naming Engine.

(** What DuckDB computes on payloads. *)
Class SealLibs `{Arrow} := {
  Key : Type;
  Key_eq_dec :: EqDecision Key;
  (** The columns a window is deduplicated by. *)
  row_key : list string → Payload → Key;
  (** [epoch_ms] of a column, [None] for a NULL. *)
  event_ms : string → Payload → option Z;
  (** [ORDER BY] a list of columns. *)
  order_rows : list string → list Row → list Row;
  (** The rendering of errors. *)
  duckdb_text : DuckdbError → string;
  staging_text : StagingError → string;
}.

(** [ORDER BY] neither adds nor removes rows. *)
Class SealLibsLaws `{SealLibs} := {
  order_rows_perm cols l : order_rows cols l ≡ₚ l;
}.

Section seal.
Context `{DuckDb, !SealLibs}.

(** ** The close log *)

Abbreviation Closes := (gmap WindowKey Z) (only parsing).

(** [EngineSealSurface::note_closed]: the first instant noted wins. *)
Definition note_closed (closes : Closes) (k : WindowKey) (at_ms : Z) : Closes :=
  match closes !! k with Some _ => closes | None => <[k := at_ms]> closes end.

(** [EngineSealSurface::forget_close] *)
Definition forget_close (closes : Closes) (k : WindowKey) : Closes := delete k closes.

(** [EngineSealSurface::drainable_blocking] *)
Definition drainable_blocking (e : Engine) (closes : Closes) : list DrainableWindow :=
  omap (λ w, (λ at_ms, {| dw_dataset := wf_dataset w; dw_partition := wf_partition w;
                          dw_window := wf_window w; dw_closed_at_ms := at_ms |})
             <$> closes !! (wf_dataset w, wf_partition w, wf_window w))
    (list_windows e).

(** ** Sealing *)

(** A read of a table: the fault of the statement, a missing table, or the rows. *)
Definition select (db : Db) (table : string) : result (list Row) SealError :=
  match fault db (SSelect table), db_tables db !! table with
  | Some err, _ => Err (SealBackend (duckdb_text err))
  | None, None => Err (SealBackend (duckdb_text (CatalogError table)))
  | None, Some rows => Ok rows
  end.

(** [self.engine.reader()]: a clone of the write connection. *)
Definition reader (e : Engine) : result unit SealError :=
  match fault (en_db e) SClone with
  | Some err => Err (SealBackend (staging_text (EngineError err)))
  | None => Ok tt
  end.

Definition count_rows (rows : list Row) : N := N.of_nat (length rows).

(** [row_number() OVER (PARTITION BY origin ORDER BY seq)]; (origin, seq) is
    unique in a window's table ([EngineProps.db_ok]), so there are no ties. *)
Definition row_number (rows : list Row) (r : Row) : N :=
  count_rows (List.filter (λ r', bool_decide (r_origin r' = r_origin r) && (r_seq r' <=? r_seq r)%N) rows).

(** [CAST(seq AS HUGEINT) - row_number() .. AS run], with its origin. *)
Definition run_of (rows : list Row) (r : Row) : NodeId * Z :=
  (r_origin r, (Z.of_N (r_seq r) - Z.of_N (row_number rows r))%Z).

(** [SELECT origin, min(seq), max(seq) .. GROUP BY origin, run], one group. *)
Definition run_range (rows : list Row) (g : NodeId * Z) : OriginSeqRange :=
  let seqs := r_seq <$> List.filter (λ r, bool_decide (run_of rows r = g)) rows in
  {| origin := g.1; first_seq := foldr N.min u64_max seqs; last_seq := foldr N.max 0%N seqs |}.

(** [ORDER BY origin, first_seq] *)
Definition range_le (a b : OriginSeqRange) : Prop :=
  String.le (origin a) (origin b) ∧ (origin a = origin b → first_seq a ≤ first_seq b)%N.

#[global] Instance range_le_dec : RelDecision range_le.
Proof. unfold range_le. intros a b. apply _. Defined.

(** [coverage_runs] *)
Definition coverage_runs (rows : list Row) : list OriginSeqRange :=
  merge_sort range_le (run_range rows <$> remove_dups (run_of rows <$> rows)).

(** [min(..)] and [max(..)] of a column: NULLs are ignored, [None] of no value. *)
Definition fold_ms (f : Z → Z → Z) (l : list Z) : option Z :=
  match l with [] => None | x :: l => Some (foldl f x l) end.

(** [event_time_bounds] *)
Definition event_time_bounds (rows : list Row) (column : string) : Z * Z :=
  let times := omap (λ r, event_ms column (r_payload r)) rows in
  (default 0%Z (fold_ms Z.min times), default 0%Z (fold_ms Z.max times)).

(** The order of the dedup winner: [ORDER BY origin, seq]. *)
Definition row_lt (a b : Row) : bool :=
  bool_decide (String.le (r_origin a) (r_origin b)) &&
  (negb (bool_decide (r_origin a = r_origin b)) || (r_seq a <? r_seq b)%N).

(** The sealed row set: with a key, the row numbered 1 under each key, which is
    the one no other row of that key precedes. *)
Definition sealed_rows (dedup_key : option (list string)) (rows : list Row) : list Row :=
  match dedup_key with
  | None => rows
  | Some cols =>
      List.filter (λ r, negb (existsb (λ r', bool_decide (row_key cols (r_payload r') = row_key cols (r_payload r))
                                             && row_lt r' r) rows)) rows
  end.

(** [SEAL_SCRATCH_DIR] *)
Definition SEAL_SCRATCH_DIR : string := "seal".

(** The databases the statements of [seal_blocking] see. *)
Record SealSnapshots := {
  ss_total : Db; ss_coverage : Db; ss_times : Db; ss_count : Db; ss_copy : Db;
}.

(** [EngineSealSurface::seal_blocking], which returns the part and the rows of
    the file it wrote. *)
Definition seal_blocking (e : Engine) (snaps : SealSnapshots) (mkdir : result unit string)
    (request : SealRequest) : result (SealedPart * list Row) SealError :=
  match window_table e (sr_dataset request) (sr_partition request) (sr_window request) with
  | None => Err (UnknownWindow (sr_dataset request) (sr_partition request) (sr_window request))
  | Some table =>
      let? _ := reader e in
      let? total_rows := select (ss_total snaps) table in
      let? coverage_rows := select (ss_coverage snaps) table in
      let? time_rows := select (ss_times snaps) table in
      let? counted_rows := select (ss_count snaps) table in
      let? _ := map_err (λ msg, SealBackend ("seal scratch dir: " +:+ msg)) mkdir in
      let? copied_rows := select (ss_copy snaps) table in
      let '(min_ms, max_ms) := event_time_bounds time_rows (sr_event_time_column request) in
      let rows := count_rows (sealed_rows (sr_dedup_key request) counted_rows) in
      Ok ({| sl_path := SEAL_SCRATCH_DIR +:+ "/" +:+ table +:+ ".parquet";
             sl_rows := rows;
             sl_event_time_min_ms := min_ms;
             sl_event_time_max_ms := max_ms;
             sl_dedup_removed := u64_sub (count_rows total_rows) rows;
             sl_origin_coverage := coverage_runs coverage_rows |},
          order_rows (sr_order_by request) (sealed_rows (sr_dedup_key request) copied_rows))
  end.

(** ** Dropping *)

(** [coverage_predicate]: the test it spells in SQL. *)
Definition coverage_predicate (covered : list OriginSeqRange) (r : Row) : bool :=
  existsb (λ c, bool_decide (r_origin r = origin c) &&
                (first_seq c <=? r_seq r)%N && (r_seq r <=? last_seq c)%N) covered.

(** [EngineSealSurface::drop_blocking]; [looked] is the engine when the window is
    looked up, [counted] the database the residue is counted on, and [e] the engine when
    the rows go.  The three statements are no transaction. *)
Definition drop_blocking (looked e : Engine) (closes : Closes) (counted : Db) (dataset : DatasetId)
    (partition : PartitionId) (window : WindowId) (covered : list OriginSeqRange) :
    result DropOutcome SealError * Engine * Closes :=
  match window_table looked dataset partition window with
  | None => (Ok AlreadyGone, e, closes)
  | Some table =>
      match (let? _ := reader looked in select counted table) with
      | Err err => (Err err, e, closes)
      | Ok rows =>
          let residue := count_rows (List.filter (λ r, negb (coverage_predicate covered r)) rows) in
          if (residue =? 0)%N then
            match drop_window e dataset partition window with
            | (Err err, e) => (Err (SealBackend (staging_text err)), e, closes)
            | (Ok _, e) => (Ok Dropped, e, forget_close closes (dataset, partition, window))
            end
          else
            match delete_covered_rows e table (coverage_predicate covered) with
            | (Err err, e) => (Err (SealBackend (staging_text err)), e, closes)
            | (Ok _, e) => (Ok (ResidueKept residue), e, closes)
            end
      end
  end.

End seal.
