(* ===== verification/SealProps.v ===== *)
(** * Properties of the seal surface

    The sealed coverage is exactly the rows of the window, the sealed file holds
    one row per key (all rows without a key), and a drop only takes covered
    rows. *)

From S2P Require Import Prelude Types Ports Overload Naming Engine EngineProps Seal.

(** ** Counting *)

(** Distinct numbers of an interval that are as many as it holds are all of it. *)
Lemma interval_full (l : list N) (a b x : N) :
  NoDup l → (∀ y, y ∈ l → a < y ≤ b)%N → N.of_nat (length l) = (b - a)%N → (a < x ≤ b)%N → x ∈ l.
Proof.
  intros Hnd Hin Hlen Hx.
  set (all := (λ i, (a + 1 + N.of_nat i)%N) <$> seq 0 (N.to_nat (b - a))).
  assert (∀ y, y ∈ all ↔ (a < y ≤ b)%N) as Hall.
  { intros y. unfold all. rewrite list_elem_of_fmap. split.
    - intros (i & -> & Hi%elem_of_seq). lia.
    - intros Hy. exists (N.to_nat (y - a - 1)). split; [lia|]. apply elem_of_seq. lia. }
  assert (all ≡ₚ l) as Hperm.
  { symmetry. apply submseteq_length_Permutation.
    - apply NoDup_submseteq; [done|]. intros y Hy. by apply Hall, Hin.
    - unfold all. rewrite length_fmap, length_seq. lia. }
  rewrite <-Hperm. by apply Hall.
Qed.

Lemma foldr_min_spec (l : list N) d :
  (∀ x, x ∈ l → foldr N.min d l ≤ x)%N ∧ (foldr N.min d l = d ∨ foldr N.min d l ∈ l).
Proof.
  induction l as [|y l [IH1 IH2]]; simpl; [split; [by intros ? ?%elem_of_nil|by left]|]. split.
  - intros x [->|Hx]%elem_of_cons; [lia|]. specialize (IH1 x Hx). lia.
  - destruct (N.min_spec y (foldr N.min d l)) as [[_ ->]|[_ ->]]; [right; by left|].
    destruct IH2; [by left|right; by right].
Qed.

Lemma foldr_max_N_spec (l : list N) d :
  (∀ x, x ∈ l → x ≤ foldr N.max d l)%N ∧ (foldr N.max d l = d ∨ foldr N.max d l ∈ l).
Proof.
  induction l as [|y l [IH1 IH2]]; simpl; [split; [by intros ? ?%elem_of_nil|by left]|]. split.
  - intros x [->|Hx]%elem_of_cons; [lia|]. specialize (IH1 x Hx). lia.
  - destruct (N.max_spec y (foldr N.max d l)) as [[_ ->]|[_ ->]]; [|right; by left].
    destruct IH2; [by left|right; by right].
Qed.

Lemma elem_of_filter_bool {A} (f : A → bool) (l : list A) x : x ∈ List.filter f l ↔ f x = true ∧ x ∈ l.
Proof. rewrite !list_elem_of_In, filter_In. tauto. Qed.

Lemma filter_split {A} (f g h : A → bool) (l : list A) :
  (∀ x, f x = g x || h x) → (∀ x, g x && h x = false) →
  length (List.filter f l) = (length (List.filter g l) + length (List.filter h l))%nat.
Proof.
  intros Hf Hgh. induction l as [|x l IH]; simpl; [done|]. rewrite Hf. specialize (Hgh x).
  destruct (g x), (h x); simpl in *; lia || done.
Qed.

(** ** The coverage of a window *)

(** A sequence number of an origin that a list of ranges covers. *)
Definition covers_seq (cs : list OriginSeqRange) (o : NodeId) (x : N) : Prop :=
  ∃ c, c ∈ cs ∧ origin c = o ∧ (first_seq c ≤ x ≤ last_seq c)%N.

Section coverage.
Context `{DuckDb, !SealLibs}.

Definition row_between (o : NodeId) (a b : N) (r : Row) : bool :=
  bool_decide (r_origin r = o) && (a <? r_seq r)%N && (r_seq r <=? b)%N.

Lemma row_number_between rows ra rb :
  r_origin ra = r_origin rb → (r_seq ra ≤ r_seq rb)%N →
  row_number rows rb =
  (row_number rows ra + N.of_nat (length (List.filter (row_between (r_origin ra) (r_seq ra) (r_seq rb)) rows)))%N.
Proof.
  intros Ho Hle. unfold row_number, count_rows.
  rewrite (filter_split _ (λ r', bool_decide (r_origin r' = r_origin ra) && (r_seq r' <=? r_seq ra)%N)
             (row_between (r_origin ra) (r_seq ra) (r_seq rb))); [lia| |].
  - intros r. unfold row_between. rewrite <-Ho. destruct (bool_decide _); simpl; [|done].
    apply eq_true_iff_eq. rewrite orb_true_iff, andb_true_iff, !N.leb_le, N.ltb_lt. lia.
  - intros r. unfold row_between. destruct (bool_decide _); simpl; [|done].
    apply not_true_iff_false. rewrite !andb_true_iff, !N.leb_le, N.ltb_lt. lia.
Qed.

(** Two rows of the same run: every number between them is staged. *)
Lemma run_contiguous rows ra rb x :
  NoDup (row_id <$> rows) → run_of rows ra = run_of rows rb → (r_seq ra < x ≤ r_seq rb)%N →
  ∃ r, r ∈ rows ∧ r_origin r = r_origin ra ∧ r_seq r = x.
Proof.
  intros Hnd Hrun Hx. injection Hrun as Ho Hr.
  pose proof (row_number_between rows ra rb Ho ltac:(lia)) as Hn.
  set (mid := List.filter (row_between (r_origin ra) (r_seq ra) (r_seq rb)) rows) in *.
  assert (∀ r, r ∈ mid → r ∈ rows ∧ r_origin r = r_origin ra ∧ (r_seq ra < r_seq r ≤ r_seq rb)%N) as Hmid.
  { intros r [Hb Hin]%elem_of_filter_bool. unfold row_between in Hb.
    rewrite !andb_true_iff, bool_decide_eq_true, N.ltb_lt, N.leb_le in Hb. naive_solver. }
  assert (x ∈ r_seq <$> mid) as (r & -> & Hin)%list_elem_of_fmap.
  { apply (interval_full _ (r_seq ra) (r_seq rb)).
    - apply (NoDup_fmap_1 (pair (r_origin ra))). rewrite <-list_fmap_compose.
      rewrite <-(Forall_fmap_ext_1 row_id).
      + eapply sublist_NoDup; [exact Hnd|]. apply fmap_sublist, sublist_filter.
      + apply Forall_forall. intros r Hin. apply Hmid in Hin as (_ & Hor & _).
        unfold row_id. simpl. by rewrite Hor.
    - intros y (r & -> & Hy)%list_elem_of_fmap. by apply Hmid.
    - rewrite length_fmap. lia.
    - done. }
  exists r. apply Hmid in Hin. naive_solver.
Qed.

Lemma group_bounds rows r :
  r ∈ rows → (∀ r', r' ∈ rows → is_u64 (r_seq r')) →
  let c := run_range rows (run_of rows r) in
  origin c = r_origin r ∧ (first_seq c ≤ r_seq r ≤ last_seq c)%N ∧
  (∃ ra, run_of rows ra = run_of rows r ∧ ra ∈ rows ∧ r_seq ra = first_seq c) ∧
  (∃ rb, run_of rows rb = run_of rows r ∧ rb ∈ rows ∧ r_seq rb = last_seq c).
Proof.
  intros Hin Hu c. subst c. simpl.
  set (seqs := r_seq <$> List.filter (λ r', bool_decide (run_of rows r' = run_of rows r)) rows).
  assert (∀ x, x ∈ seqs ↔ ∃ r', run_of rows r' = run_of rows r ∧ r' ∈ rows ∧ r_seq r' = x) as Hseqs.
  { intros x. unfold seqs. rewrite list_elem_of_fmap. setoid_rewrite elem_of_filter_bool.
    setoid_rewrite bool_decide_eq_true. split; [intros (r' & -> & ? & ?); by exists r'|intros (r' & ? & ? & <-); by exists r']. }
  assert (r_seq r ∈ seqs) as Hr by (apply Hseqs; by exists r).
  destruct (foldr_min_spec seqs u64_max) as [Hmin1 Hmin2], (foldr_max_N_spec seqs 0) as [Hmax1 Hmax2].
  specialize (Hmin1 _ Hr). specialize (Hmax1 _ Hr). pose proof (Hu r Hin) as Hur. unfold is_u64 in Hur.
  split_and!; [done|done|done| |]; apply Hseqs.
  - destruct Hmin2 as [E|?]; [|done]. replace (foldr N.min u64_max seqs) with (r_seq r) by lia. done.
  - destruct Hmax2 as [E|?]; [|done]. replace (foldr N.max 0%N seqs) with (r_seq r) by lia. done.
Qed.

(** The ranges of [coverage_runs] cover exactly the staged numbers. *)
Lemma coverage_runs_spec rows o x :
  NoDup (row_id <$> rows) → (∀ r, r ∈ rows → is_u64 (r_seq r)) →
  covers_seq (coverage_runs rows) o x ↔ ∃ r, r ∈ rows ∧ r_origin r = o ∧ r_seq r = x.
Proof.
  intros Hnd Hu. unfold covers_seq, coverage_runs. setoid_rewrite merge_sort_Permutation.
  setoid_rewrite list_elem_of_fmap. setoid_rewrite elem_of_remove_dups.
  setoid_rewrite list_elem_of_fmap. split.
  - intros (c & (g & -> & (r & -> & Hr)) & Ho & Hx).
    destruct (group_bounds rows r Hr Hu) as (Hor & _ & (ra & Hra & Hina & Ea) & (rb & Hrb & Hinb & Eb)).
    destruct (decide (x = r_seq ra)) as [->|Hne].
    + exists ra. split_and!; [done| |done]. injection Hra as Hra _. congruence.
    + destruct (run_contiguous rows ra rb x) as (r' & ? & Ho' & ?); [done|congruence|lia|].
      exists r'. split_and!; [done| |done]. injection Hra as Hra _. congruence.
  - intros (r & Hr & <- & <-). exists (run_range rows (run_of rows r)).
    destruct (group_bounds rows r Hr Hu) as (Ho & Hx & _). split; [|by split].
    exists (run_of rows r). split; [done|]. by exists r.
Qed.

(** ** The sealed rows *)

Lemma row_lt_spec a b :
  row_lt a b = true ↔
  String.le (r_origin a) (r_origin b) ∧ (r_origin a ≠ r_origin b ∨ (r_seq a < r_seq b)%N).
Proof.
  unfold row_lt. by rewrite andb_true_iff, orb_true_iff, negb_true_iff, bool_decide_eq_true,
    bool_decide_eq_false, N.ltb_lt.
Qed.

Lemma row_lt_irrefl a : row_lt a a = false.
Proof. apply not_true_iff_false. rewrite row_lt_spec. intros [_ [?|?]]; [done|lia]. Qed.

Lemma row_lt_trans a b c : row_lt a b = true → row_lt b c = true → row_lt a c = true.
Proof.
  rewrite !row_lt_spec. intros [Hl1 Hd1] [Hl2 Hd2]. split; [by trans (r_origin b)|].
  destruct (decide (r_origin a = r_origin c)) as [E|]; [right|by left].
  assert (r_origin a = r_origin b) as E2 by (apply (anti_symm String.le); [done|by rewrite E]).
  destruct Hd1 as [?|?]; [done|]. destruct Hd2 as [?|?]; [congruence|lia].
Qed.

Lemma row_lt_total a b : row_lt a b = false → row_lt b a = false → row_id a = row_id b.
Proof.
  rewrite <-!not_true_iff_false, !row_lt_spec. intros Hn1 Hn2.
  destruct (decide (r_origin a = r_origin b)) as [E|Hne].
  - unfold row_id. rewrite E in *. f_equal.
    destruct (N.lt_trichotomy (r_seq a) (r_seq b)) as [?|[?|?]]; [|done|]; exfalso; naive_solver.
  - destruct (total String.le (r_origin a) (r_origin b)); exfalso; naive_solver.
Qed.

(** Below a row that satisfies a test there is a least one that does. *)
Lemma least_row (f : Row → bool) (rows : list Row) r :
  f r = true →
  ∃ m, (m = r ∨ m ∈ rows ∧ f m = true ∧ row_lt m r = true) ∧
       ∀ x, x ∈ rows → f x = true → row_lt x m = false.
Proof.
  intros Hr. induction rows as [|y rows (m & Hm & Hleast)].
  { exists r. split; [by left|]. by intros ? ?%elem_of_nil. }
  destruct (f y && row_lt y m) eqn:Hy.
  - apply andb_true_iff in Hy as [Hfy Hlt]. exists y. split.
    + right. split_and!; [by left|done|]. destruct Hm as [->|(_ & _ & ?)]; [done|by eapply row_lt_trans].
    + intros x [->|Hx]%elem_of_cons Hfx; [apply row_lt_irrefl|]. apply not_true_iff_false. intros Hxy.
      specialize (Hleast x Hx Hfx). rewrite (row_lt_trans x y m) in Hleast; done.
  - exists m. split.
    + destruct Hm as [?|(? & ? & ?)]; [by left|right]. split_and!; [by right|done..].
    + intros x [->|Hx]%elem_of_cons Hfx; [|by apply Hleast]. by rewrite Hfx in Hy.
Qed.

Lemma nodup_fmap_eq {A B} (f : A → B) (l : list A) x y :
  NoDup (f <$> l) → x ∈ l → y ∈ l → f x = f y → x = y.
Proof.
  intros Hnd (i & Hi)%list_elem_of_lookup (j & Hj)%list_elem_of_lookup E.
  assert (i = j) as ->; [|congruence].
  apply (NoDup_lookup _ _ _ (f x) Hnd); rewrite list_lookup_fmap; [by rewrite Hi|rewrite Hj].
  by rewrite E.
Qed.

Lemma sealed_rows_sublist key rows : sublist (sealed_rows key rows) rows.
Proof. destruct key; simpl; [apply sublist_filter|done]. Qed.

Lemma sealed_rows_key cols rows r :
  r ∈ sealed_rows (Some cols) rows ↔
  r ∈ rows ∧ ∀ r', r' ∈ rows → row_key cols (r_payload r') = row_key cols (r_payload r) → row_lt r' r = false.
Proof.
  simpl. rewrite elem_of_filter_bool, negb_true_iff, <-not_true_iff_false, existsb_exists.
  setoid_rewrite <-list_elem_of_In. setoid_rewrite andb_true_iff. setoid_rewrite bool_decide_eq_true.
  setoid_rewrite <-not_true_iff_false. naive_solver.
Qed.

(** Every row is represented: by itself, or by the first row of its key. *)
Definition represents (key : option (list string)) (r r' : Row) : Prop :=
  match key with
  | None => r' = r
  | Some cols => row_key cols (r_payload r') = row_key cols (r_payload r) ∧ row_lt r r' = false
  end.

Lemma sealed_rows_represent key (rows : list Row) r :
  r ∈ rows → ∃ r', r' ∈ sealed_rows key rows ∧ represents key r r'.
Proof.
  intros Hr. destruct key as [cols|]; [|by exists r].
  set (f r' := bool_decide (row_key cols (r_payload r') = row_key cols (r_payload r))).
  destruct (least_row f rows r) as (m & Hm & Hleast); [by apply bool_decide_eq_true|].
  assert (f m = true ∧ m ∈ rows ∧ row_lt r m = false) as (Hfm & Hin & Hlt).
  { destruct Hm as [->|(? & ? & Hlt)].
    - split_and!; [by apply bool_decide_eq_true|done|apply row_lt_irrefl].
    - split_and!; [done..|]. apply not_true_iff_false. intros Hrm.
      pose proof (row_lt_trans _ _ _ Hlt Hrm) as Hc. by rewrite row_lt_irrefl in Hc. }
  apply bool_decide_eq_true in Hfm. exists m. split; [|done]. apply sealed_rows_key.
  split; [done|]. intros r' Hr' E. apply Hleast; [done|]. apply bool_decide_eq_true. congruence.
Qed.

Lemma sealed_rows_once cols rows r1 r2 :
  NoDup (row_id <$> rows) → r1 ∈ sealed_rows (Some cols) rows → r2 ∈ sealed_rows (Some cols) rows →
  row_key cols (r_payload r1) = row_key cols (r_payload r2) → r1 = r2.
Proof.
  rewrite !sealed_rows_key. intros Hnd [Hi1 Hm1] [Hi2 Hm2] E.
  apply (nodup_fmap_eq row_id rows); [done..|]. apply row_lt_total; [by apply Hm2|by apply Hm1].
Qed.

End coverage.

Section claims.
Context `{DuckDb, !SealLibs, !SealLibsLaws}.

Lemma select_ok db k rows : select db (table_of k) = Ok rows → rows = rows_of db k.
Proof.
  unfold select, rows_of. destruct (fault _ _); [done|]. destruct (db_tables db !! table_of k); [|done].
  by intros [= ->].
Qed.

Lemma window_table_ok e d p w t : engine_ok e → window_table e d p w = Some t → t = table_of (d, p, w).
Proof.
  intros [Hmi Hdb]. unfold window_table. rewrite (mi_windows _ Hmi). unfold windows_of.
  rewrite lookup_fmap. destruct (db_windows (en_db e) !! (d, p, w)) as [[t' b]|] eqn:Hw; [|done].
  intros [= <-]. by destruct (ok_registered _ _ Hdb _ _ _ Hw) as (-> & _).
Qed.


Lemma coverage_predicate_spec cs r : coverage_predicate cs r = true ↔ covers_seq cs (r_origin r) (r_seq r).
Proof.
  unfold coverage_predicate, covers_seq. rewrite existsb_exists. setoid_rewrite <-list_elem_of_In.
  setoid_rewrite andb_true_iff. setoid_rewrite andb_true_iff. setoid_rewrite bool_decide_eq_true.
  setoid_rewrite N.leb_le. naive_solver.
Qed.

Lemma count_rows_zero rows : count_rows rows = 0%N ↔ rows = [].
Proof. unfold count_rows. destruct rows; simpl; [done|]. split; [lia|done]. Qed.

(** What a drop may change: in the window [k], the rows [covered] covers. *)
Definition drops_only (covered : list OriginSeqRange) (k : WindowKey) (db db' : Db) : Prop :=
  (∀ k' row, row ∈ rows_of db k' →
     row ∈ rows_of db' k' ∨ k' = k ∧ covers_seq covered (r_origin row) (r_seq row)) ∧
  (∀ k', k' ≠ k → rows_of db' k' = rows_of db k').

(** A window without residue may go as a whole. *)
Lemma drops_only_window covered k db db' :
  (∀ k', rows_of db' k' = if decide (k' = k) then [] else rows_of db k') →
  List.filter (λ row, negb (coverage_predicate covered row)) (rows_of db k) = [] →
  drops_only covered k db db'.
Proof.
  intros Hrows Hres. split.
  - intros k' row Hin. rewrite Hrows. case_decide as Hk; [right|by left]. subst k'. split; [done|].
    apply coverage_predicate_spec. destruct (coverage_predicate covered row) eqn:Hc; [done|].
    assert (row ∈ List.filter (λ row, negb (coverage_predicate covered row)) (rows_of db k)) as Hf
      by (apply elem_of_filter_bool; by rewrite Hc).
    rewrite Hres in Hf. by apply elem_of_nil in Hf.
  - intros k' Hne. rewrite Hrows. by rewrite decide_False.
Qed.

(** Deleting by the coverage predicate keeps every uncovered row. *)
Lemma drops_only_covered covered k db db' :
  (∀ k', rows_of db' k' = if decide (k' = k)
     then List.filter (λ row, negb (coverage_predicate covered row)) (rows_of db k') else rows_of db k') →
  drops_only covered k db db'.
Proof.
  intros Hrows. split.
  - intros k' row Hin. rewrite Hrows. case_decide as Hk; [|by left]. subst k'.
    destruct (coverage_predicate covered row) eqn:Hc.
    + right. split; [done|]. by apply coverage_predicate_spec.
    + left. apply elem_of_filter_bool. by rewrite Hc.
  - intros k' Hne. rewrite Hrows. by rewrite decide_False.
Qed.

Lemma drops_only_refl covered k db : drops_only covered k db db.
Proof. split; auto. Qed.

(** A window that is not registered has no rows. *)
Lemma unregistered_empty e k : engine_ok e → en_windows e !! k = None → rows_of (en_db e) k = [].
Proof.
  intros [Hmi Hdb] Hn. unfold rows_of. destruct (db_tables (en_db e) !! table_of k) as [rows|] eqn:Ht; [|done].
  destruct (ok_tables _ _ Hdb (table_of k)) as (k' & E & [[t b] Hk']); [by rewrite Ht|].
  apply table_of_inj in E as <-. rewrite (mi_windows _ Hmi) in Hn. unfold windows_of in Hn.
  by rewrite lookup_fmap, Hk' in Hn.
Qed.

Lemma drop_blocking_spec (looked e : Engine) (closes : gmap WindowKey Z) (counted : Db) (d : DatasetId)
    (p : PartitionId) (w : WindowId) (covered : list OriginSeqRange) (r : result DropOutcome SealError)
    (e' : Engine) (closes' : gmap WindowKey Z) :
  let k := (d, p, w) in
  engine_ok looked → engine_ok e → rows_of counted k = rows_of (en_db e) k →
  drop_blocking looked e closes counted d p w covered = (r, e', closes') →
  engine_ok e' ∧
  drops_only covered k (en_db e) (en_db e') ∧
  match r with
  | Ok Dropped => window_table e' d p w = None ∧ rows_of (en_db e') k = []
  | Ok (ResidueKept n) =>
      rows_of (en_db e') k = List.filter (λ row, negb (coverage_predicate covered row)) (rows_of (en_db e) k) ∧
      n = count_rows (rows_of (en_db e') k) ∧ n ≠ 0%N
  | Ok AlreadyGone => window_table looked d p w = None ∧ e' = e
  | Err _ => e' = e
  end.
Proof.
  intros k Hl He Hsame. unfold drop_blocking.
  destruct (window_table looked d p w) as [t|] eqn:Ht; [|by intros [= <- <- <-]; split_and!; [|apply drops_only_refl|..]].
  apply window_table_ok in Ht as Et; [|done]. subst t.
  destruct (reader looked) as [[]|]; [simpl|by intros [= <- <- <-]; split_and!; [|apply drops_only_refl|..]].
  destruct (select counted _) as [rows|] eqn:Hs; [|by intros [= <- <- <-]; split_and!; [|apply drops_only_refl|..]].
  apply select_ok in Hs as ->. fold k. rewrite Hsame. case_if; bool_tests.
  - apply count_rows_zero in Heqb. destruct (drop_window e d p w) as [[b|err] e1] eqn:Hd.
    all: apply drop_window_ok in Hd as (Hok & _ & _ & _ & _ & Hcase); [|done].
    + intros [= <- <- <-]. destruct Hcase as [(Hb & Hreg & Hwin & Hrows)|(Hb & -> & Hnone)].
      * split_and!; [done|by apply drops_only_window| |by rewrite Hrows, decide_True].
        unfold window_table. by rewrite Hwin, lookup_delete_eq.
      * destruct b; [done|]. specialize (Hnone eq_refl). split_and!; [done|apply drops_only_refl| |].
        -- unfold window_table. by rewrite Hnone.
        -- by apply unregistered_empty.
    + intros [= <- <- <-]. destruct Hcase as [(? & _)|(_ & -> & _)]; [done|].
      by split_and!; [|apply drops_only_refl|].
  - destruct (delete_covered_rows e _ _) as [[u|err] e1] eqn:Hd.
    all: apply delete_covered_rows_ok in Hd as (Hok & _ & _ & _ & _ & _ & Hcase); [|done].
    + intros [= <- <- <-]. destruct Hcase as [[_ Hrows]|[[? ?] _]]; [|done].
      split; [done|]. split; [by apply drops_only_covered|]. by rewrite Hrows, decide_True.
    + intros [= <- <- <-]. destruct Hcase as [[? _]|[_ ->]]; [done|].
      by split_and!; [|apply drops_only_refl|].
Qed.

(** A drop takes covered rows only.  As long as nothing is appended to the
    window between the count of the residue and the drop, every row that leaves
    staging is one the given coverage covers, in the dropped window; the outcome
    tells what happened: [Dropped] leaves the window gone, [ResidueKept n] leaves
    exactly its [n] uncovered rows, and any other outcome leaves everything. *)
Theorem drop_covered_only (looked e : Engine) (closes : gmap WindowKey Z) (counted : Db) (d : DatasetId)
    (p : PartitionId) (w : WindowId) (covered : list OriginSeqRange) (r : result DropOutcome SealError)
    (e' : Engine) (closes' : gmap WindowKey Z) :
  let k := (d, p, w) in
  engine_ok looked → engine_ok e → rows_of counted k = rows_of (en_db e) k →
  drop_blocking looked e closes counted d p w covered = (r, e', closes') →
  engine_ok e' ∧
  drops_only covered k (en_db e) (en_db e') ∧
  match r with
  | Ok Dropped => window_table e' d p w = None ∧ rows_of (en_db e') k = []
  | Ok (ResidueKept n) =>
      rows_of (en_db e') k = List.filter (λ row, negb (coverage_predicate covered row)) (rows_of (en_db e) k) ∧
      n = count_rows (rows_of (en_db e') k) ∧ n ≠ 0%N
  | Ok AlreadyGone => window_table looked d p w = None ∧ e' = e
  | Err _ => e' = e
  end.
Proof. apply drop_blocking_spec. Qed.

End claims.
