(* ===== verification/Stager.v ===== *)
(** * The stager

    Models [crates/duckspout-staging/src/stager.rs]: the [StageCommitter] port
    over the engine.  A call of [stage_blocking] is admitted by the overload
    ladder, decoded, given a window, and resolved by the dedup window or staged
    in one transaction.  The clock's readings are arguments; Arrow's stream
    reader, SHA-256, the JSON of a stored outcome and the rendering of errors
    are parameters. *)

From Stdlib Require Import Ascii.
From S2P Require Import Prelude Types Ports Overload Naming Engine.

(** The libraries the stager calls. *)
Class StagerLibs `{Arrow} := {
  (** [StreamReader::try_new], then the record batches it yields. *)
  stream_reader : Bytes → result (list (result RecordBatch string)) string;
  sha256 : Bytes → Bytes;
  coverage_to_json : list StagedCoverage → result string string;
  coverage_of_json : string → result (list StagedCoverage) string;
  (** [StagingError::to_string] *)
  staging_error_text : StagingError → string;
}.

(** [serde_json] decodes what it encoded. *)
Class StagerLibsLaws `{StagerLibs} := {
  coverage_json_roundtrip cov text :
    coverage_to_json cov = Ok text → coverage_of_json text = Ok cov;
}.

(** [StagerConfig] *)
Record StagerConfig := {
  window_nanos : N;
  dedup_ttl_ms : Z;
  dedup_max_entries : N;
  hot_max_bytes : N;
}.

(** [OpenWindow] *)
Record OpenWindow := { ow_id : WindowId; ow_opened_at : N }.

(** [EngineStager]: its engine and its in-memory state. *)
Record Stager `{Arrow} := {
  st_engine : Engine;
  st_open_windows : gmap (string * string) OpenWindow;
  st_dedup_cap_evictions : N;
}.

(** [EngineStager::new] *)
Definition stager_new `{Arrow} (e : Engine) : Stager :=
  {| st_engine := e; st_open_windows := ∅; st_dedup_cap_evictions := 0 |}.

(** [AT_RF_V01] *)
Definition AT_RF_V01 : bool := true.

Section stager.
Context `{DuckDb, !StagerLibs}.

(** [backend] *)
Definition backend (e : StagingError) : StageError := StageBackend (staging_error_text e).

(** [EngineStager::admit] *)
Definition admit_stage (cfg : StagerConfig) (e : Engine) : result unit StageError :=
  let staged := en_staged_bytes e in
  let max := hot_max_bytes cfg in
  match from_measure staged max false with
  | RefusingIngest => Err (StageRefusing (throttle_retry_delay_ms staged max))
  | Throttling => Err (StageThrottled (throttle_retry_delay_ms staged max))
  | Normal | StagingPressure | DrainStalled => Ok tt
  end.

(** [EngineStager::status] *)
Definition status (cfg : StagerConfig) (st : Stager) (drain_stalled : bool) : NodeStatus :=
  {| ns_overload := from_measure (en_staged_bytes (st_engine st)) (hot_max_bytes cfg) drain_stalled;
     ns_replication_degraded := false |}.

(** [EngineStager::current_window], at the clock reading [now]. *)
Definition current_window (cfg : StagerConfig) (st : Stager) (dataset : DatasetId)
    (partition : PartitionId) (now : N) : WindowId * Stager :=
  let roll :=
    let id := match highest_window_id (st_engine st) dataset partition with
              | None => 0%N
              | Some w => u64_succ w
              end in
    (id, {| st_engine := st_engine st;
            st_open_windows := <[(dataset, partition) := {| ow_id := id; ow_opened_at := now |}]>
                                 (st_open_windows st);
            st_dedup_cap_evictions := st_dedup_cap_evictions st |}) in
  match st_open_windows st !! (dataset, partition) with
  | Some open => if (now - ow_opened_at open <? window_nanos cfg)%N then (ow_id open, st) else roll
  | None => roll
  end.

(** The bytes of the digest in hexadecimal ([{byte:02x}]). *)
Fixpoint hex_bytes (bytes : Bytes) : string :=
  match bytes with
  | EmptyString => ""
  | String c bytes =>
      let n := N_of_ascii c in
      String (hex_digit (n / 16)) (String (hex_digit (n mod 16)) (hex_bytes bytes))
  end.

(** [dedup_key] *)
Definition dedup_key (batch : DecodedBatch) : string :=
  match bt_idempotency_key batch with
  | Some token => "t:" +:+ token
  | None => "h:" +:+ hex_bytes (sha256 (bt_records batch))
  end.

(** [parse_outcome] *)
Definition parse_outcome (outcome_json : string) : result (list StagedCoverage) StagingError :=
  map_err (λ msg, Corrupt ("dedup stored outcome is not decodable coverage: " +:+ msg))
    (coverage_of_json outcome_json).

(** [resolve_duplicate] *)
Definition resolve_duplicate (tenant : TenantId) (key : string) (entry : DedupEntry) (at_rf : bool) :
    M StageOutcome :=
  if dedup_acked entry then
    let* coverage := lift (parse_outcome (dedup_outcome_json entry)) in
    ret (StageDuplicateAcked coverage)
  else if at_rf then
    let* _ := dedup_mark_acked tenant key in
    let* coverage := lift (parse_outcome (dedup_outcome_json entry)) in
    ret (StageDuplicateAcked coverage)
  else ret StageDuplicateInFlight.

(** [coverage_json] *)
Definition coverage_json (e : Engine) : ME StageError string :=
  let* coverage := get (pending_coverage e) in
  lift (map_err (λ msg, StageBackend ("stored-outcome encoding: " +:+ msg)) (coverage_to_json coverage)).

(** The append loop of [stage_blocking]. *)
Fixpoint append_all (e : Engine) (dataset : DatasetId) (partition : PartitionId) (window : WindowId)
    (batches : list RecordBatch) : M unit :=
  match batches with
  | [] => ret tt
  | batch :: batches =>
      let* _ := append e dataset partition window batch in
      append_all e dataset partition window batches
  end.

(** The [for record_batch in reader] loop. *)
Fixpoint collect_batches (l : list (result RecordBatch string)) :
    result (list RecordBatch) StageError :=
  match l with
  | [] => Ok []
  | Err msg :: _ => Err (MalformedRecords msg)
  | Ok batch :: l => let? batches := collect_batches l in Ok (batch :: batches)
  end.

(** Decoding the batch's record stream. *)
Definition decode_records (records : Bytes) : result (list RecordBatch) StageError :=
  let? stream := map_err MalformedRecords (stream_reader records) in
  collect_batches stream.

(** The rows of the decoded batches. *)
Definition total_rows (batches : list RecordBatch) : nat :=
  list_sum ((λ b, length (rb_rows b)) <$> batches).

(** A fresh batch: the rows, the dedup entry with its stored outcome, and the
    bounds of the dedup window, all in the open transaction. *)
Definition stage_fresh (cfg : StagerConfig) (e : Engine) (batch : DecodedBatch)
    (batches : list RecordBatch) (window : WindowId) (wall_now_ms : Z) : ME StageError N :=
  let partition := from_tenant_shard (bt_tenant batch) 0 in
  let* _ := map_err_m backend (append_all e (bt_dataset batch) partition window batches) in
  let* outcome_json := coverage_json e in
  let* _ := map_err_m backend
              (dedup_insert (bt_tenant batch) (dedup_key batch) AT_RF_V01 outcome_json wall_now_ms) in
  map_err_m backend (dedup_evict wall_now_ms (dedup_ttl_ms cfg) (dedup_max_entries cfg)).

(** What a call answers: its result, the stager after it, and what it journaled. *)
Abbreviation stage_answer := (result StageOutcome StageError * Stager * list TraceEvent)%type.

Definition with_engine (st : Stager) (e : Engine) : Stager :=
  {| st_engine := e; st_open_windows := st_open_windows st;
     st_dedup_cap_evictions := st_dedup_cap_evictions st |}.

(** The transaction of [stage_blocking], from [begin] on.  An error drops the
    transaction. *)
Definition stage_txn (cfg : StagerConfig) (st : Stager) (batch : DecodedBatch)
    (batches : list RecordBatch) (window : WindowId) (wall_now_ms : Z) : stage_answer :=
  let e := st_engine st in
  let key := dedup_key batch in
  let fail err := (Err err, st, [EvAccept]) in
  match begin e with
  | Err err => fail (backend err)
  | Ok tx =>
      match dedup_lookup (bt_tenant batch) key (i64_sat_sub wall_now_ms (dedup_ttl_ms cfg)) tx with
      | (Err err, _) => fail (backend err)
      | (Ok (Some entry), tx) =>
          match resolve_duplicate (bt_tenant batch) key entry AT_RF_V01 tx with
          | (Err err, _) => fail (backend err)
          | (Ok outcome, tx) =>
              match commit e tx with
              | (Err err, _) => fail (backend err)
              | (Ok _, e) => (Ok outcome, with_engine st e, [EvAccept; EvDedupCheck])
              end
          end
      | (Ok None, tx) =>
          match stage_fresh cfg e batch batches window wall_now_ms tx with
          | (Err err, _) => fail err
          | (Ok cap_evicted, tx) =>
              match commit e tx with
              | (Err err, _) => fail (backend err)
              | (Ok coverage, e) =>
                  (Ok (StageCommitted coverage),
                   {| st_engine := e; st_open_windows := st_open_windows st;
                      st_dedup_cap_evictions := u64_add (st_dedup_cap_evictions st) cap_evicted |},
                   [EvAccept; EvStageCommit])
              end
          end
      end
  end.

(** [EngineStager::stage_blocking], at the clock readings [mono_now] and
    [wall_now_ms]. *)
Definition stage_blocking (cfg : StagerConfig) (st : Stager) (mono_now : N) (wall_now_ms : Z)
    (batch : DecodedBatch) : stage_answer :=
  match admit_stage cfg (st_engine st) with
  | Err err => (Err err, st, [])
  | Ok _ =>
      match decode_records (bt_records batch) with
      | Err err => (Err err, st, [])
      | Ok batches =>
          if (total_rows batches =? 0)%nat then (Ok (StageCommitted []), st, [])
          else
            let '(window, st) := current_window cfg st (bt_dataset batch)
                                   (from_tenant_shard (bt_tenant batch) 0) mono_now in
            stage_txn cfg st batch batches window wall_now_ms
      end
  end.

End stager.
