(* ===== verification/StagerProps.v ===== *)
(** * Properties of the stager

    A call that fails stages nothing; a call that commits stages exactly its
    rows, densely numbered; a call that finds a live dedup entry replays its
    stored outcome.  [HotStore.v] puts the calls together. *)

From S2P Require Import Prelude Types Ports Overload Naming.
From S2P Require Import Engine EngineProps Stager Seal SealProps.

Section stage.
Context `{DuckDb, !StagerLibs}.

(** ** Appending a batch *)

Lemma grown_refl e tx k : grown e tx k [] tx.
Proof.
  unfold grown. simpl. split_and!; try done.
  - intros k'. case_decide; [subst; by rewrite app_nil_r|done].
  - intros p. case_decide; lia.
  - by left.
Qed.

Lemma grown_trans e tx1 k l1 tx2 l2 tx3 :
  grown e tx1 k l1 tx2 → grown e tx2 k l2 tx3 → grown e tx1 k (l1 ++ l2) tx3.
Proof.
  intros (Hr1 & Hs1 & Ho1 & Hn1 & Hk1 & Hd1 & Hh1) (Hr2 & Hs2 & Ho2 & Hn2 & Hk2 & Hd2 & Hh2).
  unfold grown. split_and!.
  - intros k'. rewrite Hr2, !Hr1. case_decide as Hk; [|done].
    rewrite decide_True by done. rewrite stamp_app, app_assoc, Hs1, decide_True by done.
    do 2 f_equal. lia.
  - intros p. rewrite Hs2, Hs1, length_app. case_decide; [subst; lia|done].
  - intros p Hp. by rewrite Ho2, Ho1.
  - intros Hne. destruct (decide (l1 = [])) as [->|]; [|auto]. apply Hn2. by rewrite app_nil_l in Hne.
  - auto.
  - by rewrite Hd2.
  - by eapply hw_grown_trans.
Qed.

Lemma append_all_ok e d p w bs tx u tx' :
  txn_ok e tx → append_all e d p w bs tx = (Ok u, tx') →
  txn_ok e tx' ∧ grown e tx (d, p, w) (bs ≫= rb_rows) tx'.
Proof.
  revert tx. induction bs as [|b bs IH]; intros tx Htx E; cbn [append_all] in E.
  - inv_m. split; [done|]. apply grown_refl.
  - apply mbind_ok in E as (u1 & tx1 & E1 & E). apply append_ok in E1 as [Htx1 Hg1]; [|done].
    apply IH in E as [Htx' Hg2]; [|done]. split; [done|]. rewrite bind_cons. by eapply grown_trans.
Qed.

(** ** The dedup window *)

(** The entries once a call has inserted its own and trimmed the window. *)
Definition evicted (cutoff : Z) (max_entries : N) (d : gmap (string * string) DedupRow) :
    gmap (string * string) DedupRow :=
  let live := live_since cutoff d in
  if (N.of_nat (size live) <=? max_entries)%N then live
  else delete_keys (oldest live (N.of_nat (size live) - max_entries)) live.

Lemma dedup_evict_ok e wall ttl cap tx n tx' :
  txn_ok e tx → dedup_evict wall ttl cap tx = (Ok n, tx') →
  txn_ok e tx' ∧
  tx' = set_db (set_dedup (evicted (i64_sat_sub wall ttl) cap (db_dedup (tx_db tx))) (tx_db tx)) tx.
Proof.
  intros Htx. unfold dedup_evict, evicted. intros E. inv_m. simpl in *. simplify_eq. simpl in *.
  case_if; inv_m; simpl in *; simplify_eq; simpl in *.
  - split; [|done]. apply (set_dedup_ok e tx _ Htx).
  - split; [|done]. apply (set_dedup_ok e tx _ Htx).
Qed.

Lemma dedup_lookup_ok tenant key since tx o tx' :
  dedup_lookup tenant key since tx = (Ok o, tx') →
  tx' = tx ∧
  o = match db_dedup (tx_db tx) !! (tenant, key) with
      | Some r => if (since <=? de_created_wall_ms r)%Z
                  then Some {| dedup_acked := de_acked r; dedup_outcome_json := de_outcome r |} else None
      | None => None
      end.
Proof.
  unfold dedup_lookup. intros E. inv_m. simpl in *. simplify_eq. by rewrite same_db.
Qed.

(** ** One call *)

(** The range a call adds to a partition. *)
Definition staged_range (e : Engine) (p : PartitionId) (n : nat) : StagedCoverage :=
  let base := applied_last (en_db e) p (en_origin e) in
  {| sc_partition := p;
     sc_range := {| origin := en_origin e; first_seq := base + 1; last_seq := base + N.of_nat n |} |}.

(** The engine grew by the rows [l] in window [k], numbered on from the last
    sequence number of the partition. *)
Record staged (e : Engine) (k : WindowKey) (l : list Payload) (e' : Engine) : Prop := {
  sg_ok : engine_ok e';
  sg_origin : en_origin e' = en_origin e;
  sg_rows k' : rows_of (en_db e') k' =
    if decide (k = k')
    then rows_of (en_db e) k ++ stamp (en_origin e) (applied_last (en_db e) k.1.2 (en_origin e) + 1) l
    else rows_of (en_db e) k';
  sg_applied p o : applied_last (en_db e') p o =
    if decide ((k.1.2, en_origin e) = (p, o))
    then (applied_last (en_db e) p o + N.of_nat (length l))%N else applied_last (en_db e) p o;
  sg_hw : hw_grown k (db_window_hw (en_db e)) (db_window_hw (en_db e'));
}.

Lemma seq_base_begin e tx p :
  engine_ok e → tx_applied tx = ∅ → seq_base e tx p = applied_last (en_db e) p (en_origin e).
Proof.
  intros [Hmi _] E. unfold seq_base, applied_last. by rewrite E, lookup_empty, (mi_applied _ Hmi).
Qed.

Lemma commit_staged e tx k l tx' d cov e' :
  engine_ok e → tx_db tx = en_db e → tx_applied tx = ∅ → txn_ok e tx' → grown e tx k l tx' →
  commit e (set_db (set_dedup d (tx_db tx')) tx') = (Ok cov, e') →
  staged e k l e' ∧ db_dedup (en_db e') = d ∧ cov = pending_coverage e tx'.
Proof.
  intros He Hdb Hap Htx' Hg Hc.
  apply commit_ok in Hc as (Hok & Hcov & [Hor Hrows Hded Happ Hhw]); [|done|by apply set_dedup_ok].
  split; [|done]. destruct Hg as (Hgr & Hgs & _ & _ & _ & _ & Hgh). split; [done|done| | |].
  - intros k'. rewrite Hrows. etrans; [apply Hgr|]. rewrite Hdb, seq_base_begin by done. done.
  - intros p o. rewrite Happ. unfold txn_last. simpl. case_decide as Ho.
    + subst o. etrans; [apply Hgs|]. rewrite seq_base_begin by done.
      case_decide; case_decide; naive_solver.
    + rewrite decide_False; [done|]. naive_solver.
  - rewrite Hhw, <-Hdb. exact Hgh.
Qed.

(** The coverage of a transaction that appended to one partition. *)
Lemma grown_coverage e tx k l tx' :
  engine_ok e → tx_applied tx = ∅ → txn_ok e tx' → grown e tx k l tx' → l ≠ [] →
  pending_coverage e tx' = [staged_range e k.1.2 (length l)].
Proof.
  intros He Hap Htx' (_ & Hgs & Hgo & Hgn & _) Hl.
  destruct (Hgn Hl) as [[f s] Hp].
  assert (tx_applied tx' = {[k.1.2 := (f, s)]}) as E.
  { apply map_eq. intros p. destruct (decide (k.1.2 = p)) as [<-|Hne].
    - by rewrite lookup_singleton_eq.
    - rewrite lookup_singleton_ne, Hgo, Hap by done. apply lookup_empty. }
  destruct (tk_seqs _ _ Htx' _ _ _ Hp) as [Hf _].
  pose proof (Hgs k.1.2) as Hs. rewrite decide_True, (seq_base_begin e tx) in Hs by done.
  unfold seq_base in Hs. rewrite Hp in Hs.
  unfold pending_coverage, staged_range. rewrite E. unfold btree_entries. rewrite map_to_list_singleton.
  simpl. do 3 f_equal; [|done]. rewrite Hf. unfold applied_last.
  by rewrite (mi_applied _ (eo_mirror _ He)).
Qed.

Lemma pending_coverage_set_db e db tx : pending_coverage e (set_db db tx) = pending_coverage e tx.
Proof. done. Qed.

(** What a call that found no live entry leaves. *)
Definition stage_fresh_post (cfg : StagerConfig) (e : Engine) (batch : DecodedBatch)
    (bs : list RecordBatch) (w : WindowId) (wall : Z) (cov : list StagedCoverage) (e' : Engine) : Prop :=
  let p := from_tenant_shard (bt_tenant batch) 0 in
  let cutoff := i64_sat_sub wall (dedup_ttl_ms cfg) in
  staged e (bt_dataset batch, p, w) (bs ≫= rb_rows) e' ∧
  ((bs ≫= rb_rows) ≠ [] → cov = [staged_range e p (length (bs ≫= rb_rows))]) ∧
  ∃ json, coverage_to_json cov = Ok json ∧
    db_dedup (en_db e') =
      evicted cutoff (dedup_max_entries cfg)
        (<[(bt_tenant batch, dedup_key batch) :=
            {| de_acked := true; de_outcome := json; de_created_wall_ms := wall |}]> (db_dedup (en_db e))).

(** What a call that found a live entry leaves. *)
Definition stage_duplicate_post (cfg : StagerConfig) (e : Engine) (batch : DecodedBatch) (wall : Z)
    (cov : list StagedCoverage) (e' : Engine) : Prop :=
  ∃ row, db_dedup (en_db e) !! (bt_tenant batch, dedup_key batch) = Some row ∧
    (i64_sat_sub wall (dedup_ttl_ms cfg) ≤ de_created_wall_ms row)%Z ∧
    coverage_of_json (de_outcome row) = Ok cov ∧
    (∀ k, staged e k [] e') ∧ db_window_hw (en_db e') = db_window_hw (en_db e) ∧
    (∀ key, (λ r, (de_outcome r, de_created_wall_ms r)) <$> db_dedup (en_db e') !! key
            = (λ r, (de_outcome r, de_created_wall_ms r)) <$> db_dedup (en_db e) !! key).

Lemma stage_fresh_ok cfg e batch bs w wall tx n tx' cov e' :
  engine_ok e → begin e = Ok tx →
  stage_fresh cfg e batch bs w wall tx = (Ok n, tx') → commit e tx' = (Ok cov, e') →
  stage_fresh_post cfg e batch bs w wall cov e'.
Proof.
  intros He Hb Hf Hc. apply begin_ok in Hb as (Htx & Hdb & Hap); [|done].
  unfold stage_fresh in Hf. apply mbind_ok in Hf as (u & tx1 & E1 & Hf).
  apply map_err_m_ok in E1. apply append_all_ok in E1 as [Htx1 Hg]; [|done].
  unfold coverage_json in Hf. inv_m. unfold dedup_insert in *. inv_m. simplify_eq.
  apply (dedup_evict_ok e) in Hf as [_ ->]; [|by apply set_dedup_ok].
  apply (commit_staged e tx _ _ tx1 _ cov e' He Hdb Hap Htx1 Hg) in Hc as (Hst & Hd & ->).
  split; [done|]. split; [intros; by apply (grown_coverage e tx _ _ tx1 He Hap Htx1 Hg)|].
  destruct (coverage_to_json (pending_coverage e tx1)) as [json|] eqn:Hj; [|done]. simpl in *. simplify_eq.
  eexists. split; [done|]. rewrite Hd. simpl. destruct Hg as (_ & _ & _ & _ & _ & -> & _). by rewrite Hdb.
Qed.

Lemma stage_duplicate_ok cfg e batch wall tx entry outcome tx' cov e' :
  engine_ok e → begin e = Ok tx →
  dedup_lookup (bt_tenant batch) (dedup_key batch) (i64_sat_sub wall (dedup_ttl_ms cfg)) tx
    = (Ok (Some entry), tx) →
  resolve_duplicate (bt_tenant batch) (dedup_key batch) entry AT_RF_V01 tx = (Ok outcome, tx') →
  commit e tx' = (Ok cov, e') →
  ∃ cov', outcome = StageDuplicateAcked cov' ∧ stage_duplicate_post cfg e batch wall cov' e'.
Proof.
  intros He Hb Hl Hr Hc. apply begin_ok in Hb as (Htx & Hdb & Hap); [|done].
  apply dedup_lookup_ok in Hl as [_ Hl]. rewrite Hdb in Hl.
  destruct (db_dedup (en_db e) !! _) as [row|] eqn:Hrow; [|done]. case_if; bool_tests; [|done].
  injection Hl as ->.
  assert (∃ cov' d, outcome = StageDuplicateAcked cov' ∧ coverage_of_json (de_outcome row) = Ok cov' ∧
    tx' = set_db (set_dedup d (tx_db tx)) tx ∧
    ∀ key, (λ r, (de_outcome r, de_created_wall_ms r)) <$> d !! key =
           (λ r, (de_outcome r, de_created_wall_ms r)) <$> db_dedup (tx_db tx) !! key)
    as (cov' & d & -> & Hcov & -> & Hd).
  { unfold resolve_duplicate, parse_outcome, dedup_mark_acked, AT_RF_V01 in Hr. simpl in Hr.
    destruct (de_acked row); inv_m; simplify_eq;
      (destruct (coverage_of_json (de_outcome row)) as [c|]; simpl in *; [simplify_eq|done]).
    - eexists _, (db_dedup (tx_db tx)). split_and!; try done. by destruct tx as [[] ? ? ?].
    - eexists _, _. split_and!; [done..|]. intros key. simpl.
      destruct (decide (key = (bt_tenant batch, dedup_key batch))) as [->|Hne].
      + rewrite lookup_alter_eq. by destruct (db_dedup (tx_db tx) !! _).
      + by rewrite lookup_alter_ne. }
  exists cov'. split; [done|]. exists row. split_and!; [done..| | |].
  - intros k. by apply (commit_staged e tx k [] tx _ cov e' He Hdb Hap Htx (grown_refl e tx k)) in Hc as (? & _).
  - apply commit_ok in Hc as (_ & _ & Hcm); [|done|by apply set_dedup_ok].
    rewrite (cm_hw _ _ _ Hcm). simpl. by rewrite Hdb.
  - intros key.
    apply (commit_staged e tx _ [] tx _ cov e' He Hdb Hap Htx (grown_refl e tx ("", "", 0%N))) in Hc as (_ & -> & _).
    by rewrite Hd, Hdb.
Qed.


Lemma total_rows_length bs : total_rows bs = length (bs ≫= rb_rows).
Proof.
  unfold total_rows. induction bs as [|b bs IH]; [done|].
  by rewrite bind_cons, length_app, <-IH.
Qed.

(** The entries of the dedup window a call of this batch would find. *)
Definition live_entry (cfg : StagerConfig) (e : Engine) (batch : DecodedBatch) (wall : Z) : Prop :=
  ∃ row, db_dedup (en_db e) !! (bt_tenant batch, dedup_key batch) = Some row ∧
    (i64_sat_sub wall (dedup_ttl_ms cfg) ≤ de_created_wall_ms row)%Z.

Lemma stage_txn_spec cfg st batch bs w wall r st' evs :
  engine_ok (st_engine st) → stage_txn cfg st batch bs w wall = (r, st', evs) →
  st_open_windows st' = st_open_windows st ∧
  match r with
  | Err _ => st' = st ∧ evs = [EvAccept]
  | Ok (StageCommitted cov) =>
      ¬ live_entry cfg (st_engine st) batch wall ∧
      stage_fresh_post cfg (st_engine st) batch bs w wall cov (st_engine st') ∧
      evs = [EvAccept; EvStageCommit]
  | Ok (StageDuplicateAcked cov) =>
      stage_duplicate_post cfg (st_engine st) batch wall cov (st_engine st') ∧
      evs = [EvAccept; EvDedupCheck]
  | Ok StageDuplicateInFlight => False
  end.
Proof.
  intros He. unfold stage_txn. destruct (begin _) as [tx|] eqn:Hb; [|by intros [= <- <- <-]].
  destruct (dedup_lookup _ _ _ tx) as [[[entry|]|] tx1] eqn:Hl; [| |by intros [= <- <- <-]].
  - assert (tx1 = tx) as -> by by apply dedup_lookup_ok in Hl as [-> _].
    destruct (resolve_duplicate _ _ _ _ tx) as [[o|] tx2] eqn:Hr; [|by intros [= <- <- <-]].
    destruct (commit _ tx2) as [[c|] e'] eqn:Hc; [|by intros [= <- <- <-]].
    intros [= <- <- <-]. split; [done|].
    by destruct (stage_duplicate_ok cfg _ batch wall tx entry o tx2 c e' He Hb Hl Hr Hc) as (cov & -> & Hp).
  - assert (tx1 = tx) as -> by by apply dedup_lookup_ok in Hl as [-> _].
    destruct (stage_fresh cfg _ batch bs w wall tx) as [[n|] tx2] eqn:Hf; [|by intros [= <- <- <-]].
    destruct (commit _ tx2) as [[c|] e'] eqn:Hc; [|by intros [= <- <- <-]].
    intros [= <- <- <-]. split; [done|]. split; [|split; [|done]].
    + intros (row & Hrow & Hlive). apply dedup_lookup_ok in Hl as [_ Hl].
      apply begin_ok in Hb as (_ & Hdb & _); [|done]. rewrite Hdb, Hrow in Hl.
      by rewrite (proj2 (Z.leb_le _ _)) in Hl.
    + simpl. by eapply stage_fresh_ok.
Qed.

Lemma current_window_engine cfg st d p now : st_engine (snd (current_window cfg st d p now)) = st_engine st.
Proof. unfold current_window. destruct (st_open_windows st !! _); [|done]. by case_if. Qed.

(** The window a call stages into. *)
Definition window_for (cfg : StagerConfig) (st : Stager) (batch : DecodedBatch) (mono : N) : WindowId :=
  fst (current_window cfg st (bt_dataset batch) (from_tenant_shard (bt_tenant batch) 0) mono).

Lemma stage_blocking_spec cfg st mono wall batch r st' evs :
  engine_ok (st_engine st) → stage_blocking cfg st mono wall batch = (r, st', evs) →
  match r with
  | Err _ => st_engine st' = st_engine st ∧ (evs = [] ∨ evs = [EvAccept])
  | Ok (StageCommitted cov) =>
      ∃ bs, decode_records (bt_records batch) = Ok bs ∧
      ((bs ≫= rb_rows) = [] ∧ cov = [] ∧ st' = st ∧ evs = [] ∨
       (bs ≫= rb_rows) ≠ [] ∧ ¬ live_entry cfg (st_engine st) batch wall ∧
       stage_fresh_post cfg (st_engine st) batch bs (window_for cfg st batch mono) wall cov (st_engine st') ∧
       evs = [EvAccept; EvStageCommit])
  | Ok (StageDuplicateAcked cov) =>
      stage_duplicate_post cfg (st_engine st) batch wall cov (st_engine st') ∧ evs = [EvAccept; EvDedupCheck]
  | Ok StageDuplicateInFlight => False
  end.
Proof.
  intros He. unfold stage_blocking. destruct (admit_stage _ _); [|intros [= <- <- <-]; auto].
  destruct (decode_records _) as [bs|]; [|intros [= <- <- <-]; auto].
  pose proof (total_rows_length bs) as Hlen. destruct (Nat.eqb_spec (total_rows bs) 0) as [Hz|Hz].
  { intros [= <- <- <-]. exists bs. split; [done|]. left. split_and!; try done.
    apply nil_length_inv. lia. }
  assert ((bs ≫= rb_rows) ≠ []) as Hne by (intros E; rewrite E in Hlen; simpl in Hlen; lia).
  unfold window_for. pose proof (current_window_engine cfg st (bt_dataset batch)
    (from_tenant_shard (bt_tenant batch) 0) mono) as Hw.
  destruct (current_window _ _ _ _ _) as [w st1]. simpl in *. intros Hs.
  apply stage_txn_spec in Hs as [_ Hs]; [|by rewrite Hw]. rewrite Hw in Hs.
  destruct r as [[cov|cov|]|err]; [|done|done|].
  - exists bs. split; [done|]. right. naive_solver.
  - destruct Hs as [-> ->]. auto.
Qed.

End stage.
