(* ===== verification/HotStore.v ===== *)
(** * The hot store as a state machine

    The stager and the seal surface share one engine.  Calls, drops, close
    notes, checkpoints, crashes and reopens act on it in any order; a crash
    leaves the committed database, and a failed reopen leaves the node down.  A
    staging call and a drop are whole here, one operation each: the claims are about
    one call among others, or about what the writer's lock guards.  [Rolling.v] and
    [Pipeline.v] take the calls apart and let them overlap. *)

From S2P Require Import Prelude Types Ports Overload Naming.
From S2P Require Import Engine EngineProps Stager Seal SealProps StagerProps.

Section hot.
Context `{DuckDb, !StagerLibs, !SealLibs}.

Inductive Hot :=
| HotUp (st : Stager) (closes : gmap WindowKey Z)
| HotDown (db : Db).

Inductive hot_op :=
| OpStage (mono : N) (wall : Z) (batch : DecodedBatch)
| OpNoteClosed (k : WindowKey) (at_ms : Z)
| OpDrop (dataset : DatasetId) (partition : PartitionId) (window : WindowId)
    (covered : list OriginSeqRange)
| OpCheckpoint (fsync : result unit StorageError)
| OpCrash
| OpOpen (mkdir : result unit string) (fsync : result unit StorageError) (origin : NodeId).

Definition empty_db : Db :=
  {| db_wal_epoch := 0; db_applied := ∅; db_windows := ∅; db_dedup := ∅; db_window_hw := ∅;
     db_tables := ∅ |}.

Definition hot_empty : Hot := HotDown empty_db.

Definition hot_db (s : Hot) : Db :=
  match s with HotUp st _ => en_db (st_engine st) | HotDown db => db end.

(** One operation, nothing coming between its statements. *)
Definition hot_step (cfg : StagerConfig) (s : Hot) (op : hot_op) : Hot :=
  match s, op with
  | HotUp st closes, OpStage mono wall batch =>
      let '(_, st, _) := stage_blocking cfg st mono wall batch in HotUp st closes
  | HotUp st closes, OpNoteClosed k at_ms => HotUp st (note_closed closes k at_ms)
  | HotUp st closes, OpDrop d p w covered =>
      let '(_, e, closes) := drop_blocking (st_engine st) (st_engine st) closes (en_db (st_engine st)) d p w covered in
      HotUp (with_engine st e) closes
  | HotUp st closes, OpCheckpoint fsync =>
      let '(_, e) := checkpoint fsync (st_engine st) in HotUp (with_engine st e) closes
  | HotUp st _, OpCrash => HotDown (en_db (st_engine st))
  | HotDown db, OpOpen mkdir fsync origin =>
      match open mkdir fsync origin db with
      | (Ok e, _) => HotUp (stager_new e) ∅
      | (Err _, db) => HotDown db
      end
  | _, _ => s
  end.

Definition hot_run (cfg : StagerConfig) (s : Hot) (ops : list hot_op) : Hot := foldl (hot_step cfg) s ops.

(** ** The invariant *)

Definition hot_ok (s : Hot) : Prop :=
  match s with
  | HotUp st _ => engine_ok (st_engine st)
  | HotDown db => db_ok (applied_last db) db
  end.

Lemma hot_ok_db s : hot_ok s → db_ok (applied_last (hot_db s)) (hot_db s).
Proof. destruct s; [by intros []|done]. Qed.

Lemma hot_empty_ok : hot_ok hot_empty.
Proof.
  split; unfold rows_of, applied_last; simpl.
  - intros k t b Hk. by rewrite lookup_empty in Hk.
  - intros t [? Hs]. by rewrite lookup_empty in Hs.
  - intros d p w [? Hs]. by rewrite lookup_empty in Hs.
  - intros k r. rewrite lookup_empty. by intros ?%elem_of_nil.
  - intros p o. rewrite lookup_empty. simpl. lia.
  - intros k. rewrite lookup_empty. constructor.
  - intros k1 k2 r1 r2 _. rewrite lookup_empty. by intros ?%elem_of_nil.
Qed.

(** What no operation undoes: sequence numbers only advance. *)
Definition seqs_grow (db db' : Db) : Prop := ∀ p o, (applied_last db p o ≤ applied_last db' p o)%N.

Lemma staged_grow e k l e' : staged e k l e' → seqs_grow (en_db e) (en_db e').
Proof. intros [_ _ _ Ha _] p o. rewrite Ha. case_decide; lia. Qed.

Lemma stage_step_ok cfg st mono wall batch r st' evs :
  engine_ok (st_engine st) → stage_blocking cfg st mono wall batch = (r, st', evs) →
  engine_ok (st_engine st') ∧ seqs_grow (en_db (st_engine st)) (en_db (st_engine st')).
Proof.
  intros He Hs. apply stage_blocking_spec in Hs; [|done]. destruct r as [[cov|cov|]|err].
  - destruct Hs as (bs & _ & [(_ & _ & -> & _)|(_ & _ & (Hst & _) & _)]); [split; [done|by intros ??]|].
    split; [apply (sg_ok _ _ _ _ Hst)|by eapply staged_grow].
  - destruct Hs as [(row & _ & _ & _ & Hst & _) _]. specialize (Hst ("", "", 0%N)).
    split; [apply (sg_ok _ _ _ _ Hst)|by eapply staged_grow].
  - done.
  - destruct Hs as [-> _]. split; [done|by intros ??].
Qed.

Lemma drop_step_ok looked e closes counted d p w covered r e' closes' :
  engine_ok looked → engine_ok e →
  drop_blocking looked e closes counted d p w covered = (r, e', closes') →
  engine_ok e' ∧ db_applied (en_db e') = db_applied (en_db e) ∧ db_dedup (en_db e') = db_dedup (en_db e).
Proof.
  intros Hl He. unfold drop_blocking. destruct (window_table looked d p w) as [t|] eqn:Ht; [|by intros [= _ <- _]].
  apply window_table_ok in Ht as ->; [|done].
  destruct (reader looked) as [[]|]; [simpl|by intros [= _ <- _]].
  destruct (select _ _) as [rows|]; [|by intros [= _ <- _]]. case_if.
  - destruct (drop_window e d p w) as [[b|err] e1] eqn:Hd; intros [= _ <- _];
      apply drop_window_ok in Hd as (? & ? & ? & _); done.
  - destruct (delete_covered_rows e _ _) as [[b|err] e1] eqn:Hd; intros [= _ <- _];
      apply delete_covered_rows_ok in Hd as (? & ? & ? & _); done.
Qed.

Lemma hot_step_ok cfg s op : hot_ok s → hot_ok (hot_step cfg s op) ∧ seqs_grow (hot_db s) (hot_db (hot_step cfg s op)).
Proof.
  intros Hs. destruct s as [st closes|db], op as [mono wall batch|k at_ms|d p w cov|fsync| |mkdir fsync o];
    simpl; try (split; [done|by intros ??]).
  - destruct (stage_blocking cfg st mono wall batch) as [[r st'] evs] eqn:E. by eapply stage_step_ok.
  - destruct (drop_blocking _ _ _ _ _ _ _ _) as [[r e'] closes'] eqn:E.
    apply drop_step_ok in E as (He & Ha & _); [|done..]. split; [done|]. intros ??. simpl.
    unfold applied_last. by rewrite Ha.
  - destruct (checkpoint fsync (st_engine st)) as [r e'] eqn:E.
    apply checkpoint_ok in E as [He Hc]; [|done]. split; [done|]. simpl.
    destruct Hc as [->| ->]; by intros ??.
  - split; [apply Hs|by intros ??].
  - destruct (open mkdir fsync o db) as [[e|err] db'] eqn:E.
    + apply open_ok in E as (He & _ & Hdb & ->); [|done]. split; [done|]. intros ??. simpl. by rewrite Hdb.
    + apply open_db in E as [->| ->]; (split; [|by intros ??]); [done|by apply bump_epoch_ok].
Qed.

Lemma hot_run_ok cfg s ops : hot_ok s → hot_ok (hot_run cfg s ops) ∧ seqs_grow (hot_db s) (hot_db (hot_run cfg s ops)).
Proof.
  revert s. induction ops as [|op ops IH]; intros s Hs; [split; [done|by intros ??]|].
  destruct (hot_step_ok cfg s op Hs) as [Hok Hg]. destruct (IH _ Hok) as [Hok' Hg'].
  split; [done|]. intros p o. etrans; [apply Hg|apply Hg'].
Qed.

(** C19: the hot store is consistent in every state it can reach, through calls,
    drops, checkpoints, crashes and reopens in any order and whatever fails.  No
    two staged rows of a partition carry the same origin and sequence number, the
    numbers lie between 1 and the applied one, the writer's mirrors are the
    metadata tables, the measure of the overload ladder is the bytes of the live
    windows, and later operations never lower an applied number. *)
Theorem hot_store_consistent (cfg : StagerConfig) (ops later : list hot_op) :
  let s := hot_run cfg hot_empty ops in
  let db := hot_db s in
  (∀ k1 k2 i j r1 r2, k1.1.2 = k2.1.2 → rows_of db k1 !! i = Some r1 → rows_of db k2 !! j = Some r2 →
     row_id r1 = row_id r2 → k1 = k2 ∧ i = j) ∧
  (∀ k r, r ∈ rows_of db k → (1 ≤ r_seq r ≤ applied_last db k.1.2 (r_origin r))%N) ∧
  (∀ st closes, s = HotUp st closes →
     let e := st_engine st in
     (∀ p, applied_seq e p = db_applied db !! (p, en_origin e)) ∧ en_windows e = windows_of db ∧
     en_window_hw e = db_window_hw db ∧
     en_staged_bytes e = (total_bytes (windows_of db) mod (u64_max + 1))%N) ∧
  (∀ p o, (applied_last db p o ≤ applied_last (hot_db (hot_run cfg s later)) p o)%N).
Proof.
  intros s db. destruct (hot_run_ok cfg hot_empty ops hot_empty_ok) as [Hok _]. fold s in Hok.
  pose proof (hot_ok_db _ Hok) as Hdb. fold db in Hdb. split_and!.
  - intros k1 k2 i j r1 r2 Hp Hi Hj E.
    pose proof (list_elem_of_lookup_2 _ _ _ Hi) as Hi'. pose proof (list_elem_of_lookup_2 _ _ _ Hj) as Hj'.
    pose proof (ok_once _ _ Hdb _ _ _ _ Hp Hi' Hj' E) as <-. split; [done|].
    apply (NoDup_lookup _ _ _ (row_id r1) (ok_nodup _ _ Hdb k1)); rewrite list_lookup_fmap;
      [by rewrite Hi|rewrite Hj; simpl; by rewrite E].
  - intros k r. apply (ok_seqs _ _ Hdb).
  - intros st closes Hs e. unfold db. rewrite Hs in Hok |- *. destruct Hok as [[Ha Hw Hh Hb] _].
    split_and!; [apply Ha|done|done|]. fold e in Hb, Hw. by rewrite Hb, Hw.
  - by apply (hot_run_ok cfg s later).
Qed.


(** C14: staging is all or nothing.  A call that fails leaves the engine as it was
    and journals no commit; a call that commits adds exactly the rows of its batch,
    to one window of the tenant's partition, numbered on densely from the
    partition's last number, and its coverage is that range; a duplicate adds
    nothing; and no call answers that a duplicate is in flight. *)
Theorem stage_all_or_nothing (cfg : StagerConfig) (ops : list hot_op) (st st' : Stager)
    (closes : gmap WindowKey Z) (mono : N) (wall : Z) (batch : DecodedBatch)
    (r : result StageOutcome StageError) (evs : list TraceEvent) :
  hot_run cfg hot_empty ops = HotUp st closes →
  stage_blocking cfg st mono wall batch = (r, st', evs) →
  let e := st_engine st in
  let e' := st_engine st' in
  let p := from_tenant_shard (bt_tenant batch) 0 in
  let base := applied_last (en_db e) p (en_origin e) in
  match r with
  | Err _ => e' = e ∧ EvStageCommit ∉ evs
  | Ok (StageCommitted cov) =>
      ∃ bs, decode_records (bt_records batch) = Ok bs ∧
      let l := bs ≫= rb_rows in
      (l = [] ∧ cov = [] ∧ e' = e ∨
       l ≠ [] ∧
       cov = [{| sc_partition := p; sc_range := {| origin := en_origin e; first_seq := base + 1;
                                                   last_seq := base + N.of_nat (length l) |} |}] ∧
       ∀ k, rows_of (en_db e') k =
         if decide ((bt_dataset batch, p, window_for cfg st batch mono) = k)
         then rows_of (en_db e) k ++ stamp (en_origin e) (base + 1) l else rows_of (en_db e) k)
  | Ok (StageDuplicateAcked _) => ∀ k, rows_of (en_db e') k = rows_of (en_db e) k
  | Ok StageDuplicateInFlight => False
  end.
Proof.
  intros Hrun Hs e e' p base. pose proof (hot_run_ok cfg hot_empty ops hot_empty_ok) as [Hok _].
  rewrite Hrun in Hok. apply stage_blocking_spec in Hs; [|done]. destruct r as [[cov|cov|]|err].
  - destruct Hs as (bs & Hbs & Hs). exists bs. split; [done|].
    destruct Hs as [(Hl & -> & -> & _)|(Hl & _ & (Hst & Hcov & _) & _)]; [by left|right].
    split; [done|]. split; [by rewrite Hcov|]. intros k. rewrite (sg_rows _ _ _ _ Hst). simpl.
    case_decide as Hk; [rewrite decide_True by done; by rewrite <-Hk|by rewrite decide_False].
  - destruct Hs as [(row & _ & _ & _ & Hst & _) _]. intros k.
    rewrite (sg_rows _ _ _ _ (Hst k)). rewrite decide_True by done. simpl. apply app_nil_r.
  - done.
  - destruct Hs as [Hs [->| ->]]; (split; [exact Hs|set_solver]).
Qed.

(** A crash loses nothing that was committed.  Over crashes and reopens,
    failed ones included and under whatever identity, the staged rows, the applied
    numbers, the dedup entries, the live windows and the window high-water marks
    all stand. *)
Theorem crash_keeps_committed (cfg : StagerConfig) (s : Hot) (ops : list hot_op) :
  Forall (λ op, match op with OpCrash | OpOpen _ _ _ => True | _ => False end) ops →
  hot_ok s →
  let db := hot_db s in
  let db' := hot_db (hot_run cfg s ops) in
  (∀ k, rows_of db' k = rows_of db k) ∧ db_applied db' = db_applied db ∧ db_dedup db' = db_dedup db ∧
  db_windows db' = db_windows db ∧ db_window_hw db' = db_window_hw db.
Proof.
  intros Hops. revert s. induction Hops as [|op ops Hop _ IH]; intros s Hs db db'; [done|].
  destruct (hot_step_ok cfg s op Hs) as [Hok _]. specialize (IH _ Hok). cbv zeta in IH.
  subst db db'. destruct IH as (IH1 & IH2 & IH3 & IH4 & IH5).
  assert (∃ n, hot_db (hot_step cfg s op) = {| db_wal_epoch := n; db_applied := db_applied (hot_db s);
    db_windows := db_windows (hot_db s); db_dedup := db_dedup (hot_db s);
    db_window_hw := db_window_hw (hot_db s); db_tables := db_tables (hot_db s) |}) as [n Hn].
  { assert (∀ db : Db, db = {| db_wal_epoch := db_wal_epoch db; db_applied := db_applied db;
      db_windows := db_windows db; db_dedup := db_dedup db; db_window_hw := db_window_hw db;
      db_tables := db_tables db |}) as Heta by by intros [].
    destruct s as [st closes|db], op as [| | | | |mkdir fsync o]; try done; [by eexists..| |].
    - by eexists.
    - simpl. destruct (open mkdir fsync o db) as [[e|err] db'] eqn:E.
      + apply open_ok in E as (_ & _ & Hdb & ->); [|done]. simpl. rewrite Hdb. by eexists.
      + apply open_db in E as [->| ->]; by eexists. }
  simpl. rewrite Hn in *. unfold rows_of in *. simpl in *. done.
Qed.

(** ** The dedup window over time *)

Context `{!DuckDbLaws, !StagerLibsLaws}.

Lemma size_delete_keys (ks : list (string * string)) (m : gmap (string * string) DedupRow) :
  NoDup ks → (∀ k, k ∈ ks → is_Some (m !! k)) → (size (delete_keys ks m) + length ks = size m)%nat.
Proof.
  induction ks as [|k ks IH]; intros Hnd Hin; simpl; [lia|].
  apply NoDup_cons in Hnd as [Hk Hnd].
  assert (is_Some (delete_keys ks m !! k)) as Hs.
  { assert (delete_keys ks m !! k = m !! k) as ->; [|apply Hin; by left].
    clear -Hk. induction ks as [|k' ks IH]; simpl; [done|].
    apply not_elem_of_cons in Hk as [? ?]. rewrite lookup_delete_ne; auto. }
  rewrite map_size_delete_Some by done. pose proof (IH Hnd (λ k' Hk', Hin k' ltac:(by right))) as IH'.
  assert (size (delete_keys ks m) ≠ 0%nat); [|lia].
  apply map_size_non_empty_iff. intros E. rewrite E, lookup_empty in Hs. by destruct Hs.
Qed.

(** A window below its cap was not trimmed. *)
Lemma evicted_below cutoff cap d :
  (N.of_nat (size (evicted cutoff cap d)) < cap)%N → evicted cutoff cap d = live_since cutoff d.
Proof.
  unfold evicted. case_if; bool_tests; [done|]. set (m := live_since cutoff d) in *. intros Hlt. exfalso.
  pose proof (size_delete_keys (oldest m (N.of_nat (size m) - cap)) m (oldest_nodup _ _) (oldest_rows m _)).
  rewrite oldest_length in *. lia.
Qed.

Lemma live_since_lookup cutoff d k r :
  d !! k = Some r → (cutoff ≤ de_created_wall_ms r)%Z → live_since cutoff d !! k = Some r.
Proof. intros Hk Hr. unfold live_since. by apply map_lookup_filter_Some. Qed.


(** The entry that guards a staged batch. *)
Definition guarded (tenant : TenantId) (key : string) (cov : list StagedCoverage) (since : Z) (db : Db) : Prop :=
  ∃ row, db_dedup db !! (tenant, key) = Some row ∧ coverage_of_json (de_outcome row) = Ok cov ∧
    de_created_wall_ms row = since.

(** A run in which the entries made at [since] stay within the dedup window: no
    call's cutoff passes [since], and the window stays below its cap. *)
Fixpoint within_window (cfg : StagerConfig) (since : Z) (s : Hot) (ops : list hot_op) : Prop :=
  (N.of_nat (size (db_dedup (hot_db s))) < dedup_max_entries cfg)%N ∧
  match ops with
  | [] => True
  | op :: ops =>
      match op with
      | OpStage _ wall _ => (i64_sat_sub wall (dedup_ttl_ms cfg) ≤ since)%Z
      | _ => True
      end ∧ within_window cfg since (hot_step cfg s op) ops
  end.

Lemma stage_guarded cfg st mono wall batch r st' evs tenant key cov since :
  engine_ok (st_engine st) → stage_blocking cfg st mono wall batch = (r, st', evs) →
  (i64_sat_sub wall (dedup_ttl_ms cfg) ≤ since)%Z →
  (N.of_nat (size (db_dedup (en_db (st_engine st')))) < dedup_max_entries cfg)%N →
  guarded tenant key cov since (en_db (st_engine st)) → guarded tenant key cov since (en_db (st_engine st')).
Proof.
  intros He Hs Hcut Hcap Hg. apply stage_blocking_spec in Hs; [|done].
  destruct Hg as (row & Hrow & Hcov & Hcr). destruct r as [[cov'|cov'|]|err].
  - destruct Hs as (bs & _ & [(_ & _ & -> & _)|(_ & Hnl & (_ & _ & json & _ & Hd) & _)]); [by exists row|].
    rewrite Hd in Hcap. apply evicted_below in Hcap. exists row. rewrite Hd, Hcap. split; [|done].
    apply live_since_lookup; [|lia]. rewrite lookup_insert_ne; [done|]. intros E.
    apply Hnl. exists row. rewrite E. split; [done|lia].
  - destruct Hs as [(row0 & _ & _ & _ & _ & _ & Hd) _]. specialize (Hd (tenant, key)). rewrite Hrow in Hd.
    destruct (db_dedup (en_db (st_engine st')) !! (tenant, key)) as [row'|] eqn:Hr'; [|done].
    injection Hd as Ho Hc. exists row'. split; [done|]. by rewrite Ho, Hc.
  - done.
  - destruct Hs as [-> _]. by exists row.
Qed.

Lemma step_guarded cfg s op tenant key cov since :
  hot_ok s → match op with OpStage _ wall _ => (i64_sat_sub wall (dedup_ttl_ms cfg) ≤ since)%Z | _ => True end →
  (N.of_nat (size (db_dedup (hot_db (hot_step cfg s op)))) < dedup_max_entries cfg)%N →
  guarded tenant key cov since (hot_db s) → guarded tenant key cov since (hot_db (hot_step cfg s op)).
Proof.
  intros Hs Hcut Hcap Hg.
  destruct s as [st closes|db], op as [mono wall batch|k at_ms|d p w c|fsync| |mkdir fsync o];
    simpl in *; try done.
  - destruct (stage_blocking cfg st mono wall batch) as [[r st'] evs] eqn:E. by eapply stage_guarded.
  - destruct (drop_blocking _ _ _ _ _ _ _ _) as [[r e'] closes'] eqn:E.
    apply drop_step_ok in E as (_ & _ & Hd); [|done..]. unfold guarded. simpl. by rewrite Hd.
  - destruct (checkpoint fsync (st_engine st)) as [r e'] eqn:E.
    by apply checkpoint_ok in E as [_ [->| ->]].
  - destruct (open mkdir fsync o db) as [[e|err] db'] eqn:E.
    + apply open_ok in E as (_ & _ & Hdb & ->); [|done]. simpl. by rewrite Hdb.
    + by apply open_db in E as [->| ->].
Qed.

Lemma run_guarded cfg since s ops tenant key cov :
  hot_ok s → within_window cfg since s ops → guarded tenant key cov since (hot_db s) →
  guarded tenant key cov since (hot_db (hot_run cfg s ops)).
Proof.
  revert s. induction ops as [|op ops IH]; intros s Hs Hw Hg; [done|].
  destruct Hw as (_ & Hcut & Hw). apply (IH (hot_step cfg s op)); [by apply hot_step_ok|done|].
  apply step_guarded; [done|done| |done]. by destruct ops; destruct Hw.
Qed.

(** C9: exactly once.  A batch that was committed is staged once however often its
    client retries it: after the commit, whatever calls, drops, checkpoints,
    crashes and reopens follow, as long as the entry's time to live has not passed
    and the dedup window has stayed below its cap, a call with the same tenant and
    the same dedup key that succeeds replays the coverage of the original commit
    and adds no row. *)
Theorem stage_exactly_once (cfg : StagerConfig) (ops later : list hot_op) (st st1 st2 st3 : Stager)
    (closes closes2 : gmap WindowKey Z) (mono mono2 : N) (wall wall2 : Z) (batch retry : DecodedBatch)
    (cov : list StagedCoverage) (outcome : StageOutcome) (evs evs2 : list TraceEvent)
    (bs2 : list RecordBatch) :
  (0 ≤ dedup_ttl_ms cfg)%Z → is_i64 wall →
  hot_run cfg hot_empty ops = HotUp st closes →
  stage_blocking cfg st mono wall batch = (Ok (StageCommitted cov), st1, evs) → cov ≠ [] →
  hot_run cfg (HotUp st1 closes) later = HotUp st2 closes2 →
  within_window cfg wall (HotUp st1 closes) later →
  bt_tenant retry = bt_tenant batch → dedup_key retry = dedup_key batch →
  (i64_sat_sub wall2 (dedup_ttl_ms cfg) ≤ wall)%Z →
  decode_records (bt_records retry) = Ok bs2 → (bs2 ≫= rb_rows) ≠ [] →
  stage_blocking cfg st2 mono2 wall2 retry = (Ok outcome, st3, evs2) →
  outcome = StageDuplicateAcked cov ∧
  ∀ k, rows_of (en_db (st_engine st3)) k = rows_of (en_db (st_engine st2)) k.
Proof.
  intros Httl Hwall Hrun Hstage Hcov Hlater Hwin Ht Hk Hcut Hdec Hne Hretry.
  pose proof (hot_run_ok cfg hot_empty ops hot_empty_ok) as [Hok _]. rewrite Hrun in Hok. simpl in Hok.
  assert (hot_ok (HotUp st1 closes)) as Hok1 by by eapply stage_step_ok.
  pose proof (hot_run_ok cfg _ later Hok1) as [Hok2 _]. rewrite Hlater in Hok2. simpl in Hok2.
  assert (guarded (bt_tenant batch) (dedup_key batch) cov wall (en_db (st_engine st1))) as Hg.
  { apply stage_blocking_spec in Hstage; [|done].
    destruct Hstage as (bs & _ & [(_ & -> & _)|(_ & _ & (_ & _ & json & Hj & Hd) & _)]); [done|].
    assert (N.of_nat (size (db_dedup (en_db (st_engine st1)))) < dedup_max_entries cfg)%N as Hcap
      by (by destruct later; destruct Hwin).
    rewrite Hd in Hcap. apply evicted_below in Hcap.
    apply coverage_json_roundtrip in Hj.
    exists {| de_acked := true; de_outcome := json; de_created_wall_ms := wall |}.
    rewrite Hd, Hcap. split; [|done]. apply live_since_lookup; [apply lookup_insert_eq|]. simpl.
    unfold i64_sat_sub, is_i64 in *. lia. }
  apply (run_guarded cfg wall (HotUp st1 closes) later) in Hg as (row & Hrow & Hjson & Hcr); [|done..].
  rewrite Hlater in Hrow. simpl in Hrow.
  apply stage_blocking_spec in Hretry; [|done]. destruct outcome as [cov2|cov2|]; [| |done].
  - exfalso. destruct Hretry as (bs & Hbs & [(Hl & _)|(_ & Hnl & _)]).
    { rewrite Hdec in Hbs. by injection Hbs as <-. }
    apply Hnl. exists row. rewrite Ht, Hk. split; [done|lia].
  - destruct Hretry as [(row2 & Hrow2 & _ & Hj2 & Hst & _) _]. rewrite Ht, Hk in Hrow2.
    assert (cov2 = cov) as -> by congruence. split; [done|]. intros k.
    rewrite (sg_rows _ _ _ _ (Hst k)). rewrite decide_True by done. simpl. apply app_nil_r.
Qed.

(** ** Guarded scans *)

Lemma scan_loop_ok guards started scanned stream batches :
  scan_loop guards started scanned stream = Ok batches → (scanned ≤ u64_max)%N →
  (scanned ≤ sg_max_bytes guards)%N →
  batches = stream.*1 ∧
  Forall (λ bn : RecordBatch * N, bn.2 - started ≤ sg_deadline_nanos guards)%N stream ∧
  ∃ sizes, Forall2 (λ bn s, record_batch_content_bytes bn.1 = Ok s) stream sizes ∧
    (N.min (scanned + sum_N sizes) u64_max ≤ sg_max_bytes guards)%N.
Proof.
  revert scanned batches. induction stream as [|[b now] stream IH]; intros scanned batches; simpl.
  { intros [= <-] Hs Hm. split_and!; [done|done|]. exists []. split; [done|]. simpl. lia. }
  destruct (record_batch_content_bytes b) as [n|] eqn:Hn; [|done].
  case_if; bool_tests; [done|]. case_if; bool_tests; [done|].
  destruct (scan_loop _ _ _ stream) as [bs|] eqn:E; [|done]. intros [= <-] Hs Hm.
  apply IH in E as (-> & Hdl & sizes & Hsz & Hsum); [|unfold u64_sat_add; lia|done].
  split_and!; [done|by constructor|]. exists (n :: sizes). split; [by constructor|].
  unfold u64_sat_add in *. simpl. lia.
Qed.

(** A scan whose batches are all within the guards succeeds. *)
Lemma scan_loop_succeeds guards started scanned stream sizes :
  Forall2 (λ (bn : RecordBatch * N) s, record_batch_content_bytes bn.1 = Ok s) stream sizes →
  Forall (λ bn : RecordBatch * N, bn.2 - started ≤ sg_deadline_nanos guards)%N stream →
  (scanned ≤ u64_max)%N →
  (N.min (scanned + sum_N sizes) u64_max ≤ sg_max_bytes guards)%N →
  ∃ batches, scan_loop guards started scanned stream = Ok batches.
Proof.
  intros Hsz. revert scanned. induction Hsz as [|[b now] n stream sizes Hn _ IH]; intros scanned Hdl Hs Hm.
  { by exists []. }
  apply Forall_cons in Hdl as [Hd Hdl]. simpl in *. rewrite Hn.
  destruct (IH (u64_sat_add scanned n)) as [out Hout]; [done|unfold u64_sat_add; lia|unfold u64_sat_add; lia|].
  destruct (N.ltb_spec (sg_max_bytes guards) (u64_sat_add scanned n)) as [Hlt|_].
  { unfold u64_sat_add in Hlt. lia. }
  destruct (N.ltb_spec (sg_deadline_nanos guards) (now - started)) as [Hlt|_]; [lia|].
  rewrite Hout. by eexists.
Qed.

(** A guarded scan never truncates.  A scan that succeeds returns every batch
    DuckDB produced; their content together fits the byte budget, and each was
    produced within the deadline. *)
Theorem scan_never_truncates (guards : ScanGuards) (started : N) (stream : list (RecordBatch * N))
    (batches : list RecordBatch) :
  query_arrow_guarded guards started (Ok stream) = Ok batches →
  batches = stream.*1 ∧
  Forall (λ bn : RecordBatch * N, bn.2 - started ≤ sg_deadline_nanos guards)%N stream ∧
  ∃ sizes, Forall2 (λ bn s, record_batch_content_bytes bn.1 = Ok s) stream sizes ∧
    (N.min (sum_N sizes) u64_max ≤ sg_max_bytes guards)%N.
Proof. intros Hq. apply (scan_loop_ok guards started 0); [done|lia..]. Qed.

End hot.
