(* ===== verification/Daemon.v ===== *)
(** * The daemon's drain loop

    Models the drain loop of [crates/duckspout-daemon/src/wiring.rs]: the
    derivation of closed windows, the one built-in drain plan, and the pass that
    drains every eligible window.  The pass is a program over the coordinator's
    port calls; what it logs is not modelled. *)

From S2P Require Import Prelude Types Ports Naming Coordinator.
From S2P Require Import Engine Seal.

(** [OTLP_LOGS_DATASET] *)
Definition OTLP_LOGS_DATASET : DatasetId := "otlp_logs".

(** [otlp_logs_drain_plan] *)
Definition otlp_logs_drain_plan : DatasetDrainPlan :=
  from_declaration {| dd_dataset := OTLP_LOGS_DATASET; dd_kind := Event; dd_key_cols := [];
                      dd_sort_key := None |} "ts".

(** [drain_plan_for] *)
Definition drain_plan_for (dataset : DatasetId) : option DatasetDrainPlan :=
  if bool_decide (dataset = OTLP_LOGS_DATASET) then Some otlp_logs_drain_plan else None.

(** [note_closed_windows] *)
Definition note_closed_windows `{Arrow} (e : Engine) (now_ms : Z) (closes : gmap (string * string * N) Z) :
    gmap (string * string * N) Z :=
  foldl (λ closes w,
      match highest_window_id e (wf_dataset w) (wf_partition w) with
      | Some high_water =>
          if (wf_window w <? high_water)%N
          then note_closed closes (wf_dataset w, wf_partition w, wf_window w) now_ms
          else closes
      | None => closes
      end) closes (list_windows e).

(** [DrainTickReport] *)
Record DrainTickReport := { tr_eligible : nat; tr_committed : nat; tr_requeued : nat }.

Section loop.
Context `{ObjectStore}.

(** What one attempt adds to the report, and whether it stalls the drain. *)
Definition tally (r : result DrainOutcome DrainError) (report : DrainTickReport) (stalled : bool) :
    DrainTickReport * bool :=
  match r with
  | Ok (OCommitted _) | Ok OAlreadyCommitted =>
      ({| tr_eligible := tr_eligible report; tr_committed := S (tr_committed report);
          tr_requeued := tr_requeued report |}, stalled)
  | Ok (ORequeue reason) =>
      ({| tr_eligible := tr_eligible report; tr_committed := tr_committed report;
          tr_requeued := S (tr_requeued report) |},
       match reason with CatalogUnavailable => true | _ => stalled end)
  | Err _ =>
      ({| tr_eligible := tr_eligible report; tr_committed := tr_committed report;
          tr_requeued := S (tr_requeued report) |}, stalled)
  end.

(** The [for window in &eligible] loop of [drain_once]. *)
Fixpoint drain_each (windows : list DrainableWindow) (report : DrainTickReport) (stalled : bool) :
    prog (DrainTickReport * bool) :=
  match windows with
  | [] => Ret (report, stalled)
  | w :: windows =>
      match drain_plan_for (dw_dataset w) with
      | None => drain_each windows report stalled
      | Some plan =>
          let! r := drain_window (dw_dataset w) (dw_partition w) (dw_window w) plan in
          let '(report, stalled) := tally r report stalled in
          drain_each windows report stalled
      end
  end.

(** [DaemonCore::drain_once] after [note_closed_windows]: the report, and the
    value stored in [drain_stalled]. *)
Definition drain_once (config : DrainConfig) : prog (DrainTickReport * bool) :=
  let! offered := eligible_windows config in
  match offered with
  | Err _ => Ret ({| tr_eligible := 0; tr_committed := 0; tr_requeued := 0 |}, true)
  | Ok eligible =>
      drain_each eligible {| tr_eligible := length eligible; tr_committed := 0; tr_requeued := 0 |} false
  end.

End loop.
