(* ===== verification/Rolling.v ===== *)
(** * Window rolling

    The stager rolls a partition's window by arrival time, and the daemon derives
    from the high-water mark which windows are closed.  A staging call chooses its
    window before its transaction begins, and calls run side by side, so a call may
    still be on its way to a window that has closed since.  Here it is proved that once
    a window is closed and no call is on its way to it, its rows stay as they are until
    the drain drops them; and that, as long as no call takes longer than the lateness
    hold, this is so for every window the drain finds eligible. *)

From stdpp Require Import relations.
From S2P Require Import Prelude Types Ports Overload Naming.
From S2P Require Import Engine EngineProps Stager Seal SealProps StagerProps HotStore.
From S2P Require Import Coordinator Daemon.

Section rolling.
Context `{DuckDb, !StagerLibs, !SealLibs}.

(** A window below the high-water mark of its dataset and partition. *)
Definition closed_window (db : Db) (k : WindowKey) : Prop :=
  ∃ h, db_window_hw db !! k.1 = Some h ∧ (k.2 < h)%N.

(** The window a partition may be writing to, given its high-water mark: the
    highest one, or the next one if it has not committed anything yet. *)
Definition current_id (hw : option N) (w : WindowId) : Prop :=
  match hw with None => w = 0%N | Some h => w = h ∨ w = (h + 1)%N end ∧ is_u64 w.

Record hot_inv (s : Hot) : Prop := {
  hi_ok : hot_ok s;
  hi_hw dp h : db_window_hw (hot_db s) !! dp = Some h → is_u64 h;
  hi_closes st closes k z : s = HotUp st closes → closes !! k = Some z → closed_window (hot_db s) k;
  hi_open st closes dp o :
    s = HotUp st closes → st_open_windows st !! dp = Some o →
    current_id (db_window_hw (hot_db s) !! dp) (ow_id o);
}.

(** Window ids do not run out. *)
Definition ids_left (db : Db) : Prop := ∀ dp h, db_window_hw db !! dp = Some h → (h < u64_max)%N.

(** ** The current window *)

Lemma current_window_id cfg st d p now w st1 :
  engine_ok (st_engine st) → ids_left (en_db (st_engine st)) →
  (∀ dp o, st_open_windows st !! dp = Some o → current_id (db_window_hw (en_db (st_engine st)) !! dp) (ow_id o)) →
  current_window cfg st d p now = (w, st1) →
  current_id (db_window_hw (en_db (st_engine st)) !! (d, p)) w ∧
  (ow_id <$> st_open_windows st1 !! (d, p)) = Some w ∧
  (∀ o, st_open_windows st !! (d, p) = Some o → (ow_id o ≤ w)%N) ∧
  (∀ dp, dp ≠ (d, p) → st_open_windows st1 !! dp = st_open_windows st !! dp).
Proof.
  intros [Hmi _] Hids Hopen. unfold current_window, highest_window_id. rewrite (mi_hw _ Hmi).
  set (hw := db_window_hw (en_db (st_engine st)) !! (d, p)).
  assert (current_id hw (match hw with Some w => u64_succ w | None => 0%N end)) as Hroll.
  { unfold current_id, is_u64, u64_succ. destruct hw as [h|] eqn:Eh; [|split; [done|lia]].
    specialize (Hids _ _ Eh). case_match; bool_tests; lia. }
  assert (∀ o : option OpenWindow, o = st_open_windows st !! (d, p) →
    (match hw with Some w => u64_succ w | None => 0%N end,
     {| st_engine := st_engine st;
        st_open_windows := <[(d, p) := {| ow_id := match hw with Some w => u64_succ w | None => 0%N end;
                                          ow_opened_at := now |}]> (st_open_windows st);
        st_dedup_cap_evictions := st_dedup_cap_evictions st |}) = (w, st1) →
    current_id hw w ∧ (ow_id <$> st_open_windows st1 !! (d, p)) = Some w ∧
    (∀ o, st_open_windows st !! (d, p) = Some o → (ow_id o ≤ w)%N) ∧
    (∀ dp, dp ≠ (d, p) → st_open_windows st1 !! dp = st_open_windows st !! dp)) as Hrolled.
  { intros _ _ [= <- <-]. simpl. split; [done|]. split; [by rewrite lookup_insert_eq|]. split.
    - intros o Ho. specialize (Hopen _ _ Ho). fold hw in Hopen. destruct Hopen as [Hc _].
      destruct hw as [h|] eqn:Eh; [|lia]. specialize (Hids _ _ Eh). rewrite u64_succ_small by done. lia.
    - intros dp Hne. by rewrite lookup_insert_ne. }
  destruct (st_open_windows st !! (d, p)) as [o|] eqn:Ho; [|by apply (Hrolled None)].
  case_if; [|by apply (Hrolled (Some o))]. intros [= <- <-]. split; [by apply Hopen|].
  rewrite Ho. split; [done|]. split; [by intros o' [= <-]|done].
Qed.

(** ** Calls in flight *)

(** A staging call inside [EngineStager::stage_blocking]: admitted; or its records decoded
    and its window chosen, at the reading [placed_at] of the wall clock, and its transaction
    not yet begun. *)
Inductive Call :=
| CallAdmitted (batch : DecodedBatch)
| CallPlaced (batch : DecodedBatch) (batches : list RecordBatch) (window : WindowId) (placed_at : Z).

(** The dataset and partition a batch goes to. *)
Definition lane (batch : DecodedBatch) : DatasetId * PartitionId :=
  (bt_dataset batch, from_tenant_shard (bt_tenant batch) 0).

(** The window a call is on its way to, and since when. *)
Definition bound_for (c : Call) : option (WindowKey * Z) :=
  match c with
  | CallAdmitted _ => None
  | CallPlaced batch _ window placed_at => Some ((lane batch, window), placed_at)
  end.

(** The hot store, the staging calls in flight ([BlockingStager] runs each on a thread of
    its own), and the wall clock. *)
Record Front := { fr_hot : Hot; fr_calls : list Call; fr_clock : Z }.

Definition with_hot (f : Front) (h : Hot) : Front :=
  {| fr_hot := h; fr_calls := fr_calls f; fr_clock := fr_clock f |}.

(** What happens beside a drain pass.  A staging call takes three steps: it is admitted,
    it decodes its records and chooses its window, and it runs its transaction, for which it
    holds the writer from [begin] to [commit]; other calls, and the drain, may come between
    any two of them. *)
Inductive env_step (cfg : StagerConfig) : Front → Front → Prop :=
| EnvAdmit f st closes batch :
    fr_hot f = HotUp st closes → admit_stage cfg (st_engine st) = Ok tt →
    env_step cfg f {| fr_hot := fr_hot f; fr_calls := CallAdmitted batch :: fr_calls f; fr_clock := fr_clock f |}
(** Records that do not decode, or hold no row, end the call. *)
| EnvLeave f before batch after :
    fr_calls f = before ++ CallAdmitted batch :: after →
    match decode_records (bt_records batch) with Ok batches => total_rows batches = 0 | Err _ => True end →
    env_step cfg f {| fr_hot := fr_hot f; fr_calls := before ++ after; fr_clock := fr_clock f |}
| EnvPlace f st closes before batch after batches mono window st' :
    fr_hot f = HotUp st closes → fr_calls f = before ++ CallAdmitted batch :: after →
    ids_left (en_db (st_engine st)) →
    decode_records (bt_records batch) = Ok batches → total_rows batches ≠ 0 →
    current_window cfg st (lane batch).1 (lane batch).2 mono = (window, st') →
    env_step cfg f
      {| fr_hot := HotUp st' closes;
         fr_calls := before ++ CallPlaced batch batches window (fr_clock f) :: after; fr_clock := fr_clock f |}
| EnvStage f st closes before batch batches window placed_at after wall r st' evs :
    fr_hot f = HotUp st closes →
    fr_calls f = before ++ CallPlaced batch batches window placed_at :: after →
    stage_txn cfg st batch batches window wall = (r, st', evs) →
    env_step cfg f {| fr_hot := HotUp st' closes; fr_calls := before ++ after; fr_clock := fr_clock f |}
(** A tick notes the windows that closed, at its reading of the clock. *)
| EnvNote f st closes :
    fr_hot f = HotUp st closes →
    env_step cfg f (with_hot f (HotUp st (note_closed_windows (st_engine st) (fr_clock f) closes)))
| EnvCheckpoint f st closes fsync r e :
    fr_hot f = HotUp st closes → checkpoint fsync (st_engine st) = (r, e) →
    env_step cfg f (with_hot f (HotUp (with_engine st e) closes))
(** The wall clock does not go back. *)
| EnvTime f now :
    (fr_clock f ≤ now)%Z →
    env_step cfg f {| fr_hot := fr_hot f; fr_calls := fr_calls f; fr_clock := now |}.

(** No call in flight chose its window as long ago as the lateness hold is long. *)
Definition prompt (config : DrainConfig) (f : Front) : bool :=
  forallb (λ c, match bound_for c with
                | Some (_, placed_at) => negb (hold_elapsed (fr_clock f) (allowed_lateness_ms config) placed_at)
                | None => true
                end) (fr_calls f).

Lemma prompt_spec config f c k at_ms :
  prompt config f = true → c ∈ fr_calls f → bound_for c = Some (k, at_ms) →
  hold_elapsed (fr_clock f) (allowed_lateness_ms config) at_ms = false.
Proof.
  unfold prompt. rewrite forallb_forall. intros Hp Hc Hb. apply list_elem_of_In in Hc.
  specialize (Hp c Hc). rewrite Hb in Hp. by apply negb_true_iff in Hp.
Qed.

(** The calls of a front, one taken out. *)
Lemma calls_without {A} (l before after : list A) x c :
  l = before ++ x :: after → c ∈ before ++ after → c ∈ l.
Proof. intros ->. rewrite !elem_of_app, elem_of_cons. tauto. Qed.

(** A call whose steps nothing comes between is [stage_blocking], whatever other calls are
    in flight. *)
Lemma stage_blocking_steps cfg config f st closes batch mono wall r st' evs :
  fr_hot f = HotUp st closes → ids_left (en_db (st_engine st)) →
  hold_elapsed (fr_clock f) (allowed_lateness_ms config) (fr_clock f) = false →
  stage_blocking cfg st mono wall batch = (r, st', evs) →
  rtc (λ f1 f2, env_step cfg f1 f2 ∧ prompt config f2 = prompt config f) f (with_hot f (HotUp st' closes)).
Proof.
  intros Eh Hids Hhold. unfold stage_blocking. destruct f as [h calls now]. simpl in *. subst h.
  destruct (admit_stage cfg (st_engine st)) as [[]|] eqn:Ea; [|intros [= _ <- _]; apply rtc_refl].
  set (front h calls := {| fr_hot := h; fr_calls := calls; fr_clock := now |}). fold (front (HotUp st closes) calls).
  intros Hs. eapply rtc_l; [split; [by apply (EnvAdmit _ (front (HotUp st closes) calls) st closes batch)|done]|].
  assert (match decode_records (bt_records batch) with Ok bs => total_rows bs = 0 | Err _ => True end →
    rtc (λ f1 f2, env_step cfg f1 f2 ∧ prompt config f2 = prompt config (front (HotUp st closes) calls))
      (front (HotUp st closes) (CallAdmitted batch :: calls)) (front (HotUp st closes) calls)) as Hleave.
  { intros Hd. apply rtc_once. split; [|done].
    by apply (EnvLeave cfg (front (HotUp st closes) (CallAdmitted batch :: calls)) [] batch calls). }
  destruct (decode_records (bt_records batch)) as [batches|] eqn:Ed; [|injection Hs as _ <- _; by apply Hleave].
  destruct (Nat.eqb_spec (total_rows batches) 0) as [Et|Et]; [injection Hs as _ <- _; by apply Hleave|].
  destruct (current_window _ _ _ _ _) as [w st1] eqn:Ew. eapply rtc_l; [split|].
  - by eapply (EnvPlace cfg (front (HotUp st closes) (CallAdmitted batch :: calls)) st closes [] batch calls batches mono w st1).
  - unfold prompt. simpl. by rewrite Hhold.
  - apply rtc_once. split; [|done].
    by apply (EnvStage cfg (front (HotUp st1 closes) (CallPlaced batch batches w now :: calls)) st1 closes []
      batch batches w now calls wall r st' evs).
Qed.

(** ** What a transaction does to its window *)

(** A transaction appends to the window it was given, if to any. *)
Lemma txn_appends cfg st batch bs w wall r st' evs :
  let k := (lane batch, w) in
  engine_ok (st_engine st) → stage_txn cfg st batch bs w wall = (r, st', evs) →
  engine_ok (st_engine st') ∧ st_open_windows st' = st_open_windows st ∧
  hw_grown k (db_window_hw (en_db (st_engine st))) (db_window_hw (en_db (st_engine st'))) ∧
  (∀ k', k' ≠ k → rows_of (en_db (st_engine st')) k' = rows_of (en_db (st_engine st)) k') ∧
  (∀ x, x ∈ rows_of (en_db (st_engine st)) k → x ∈ rows_of (en_db (st_engine st')) k).
Proof.
  intros k He Hs. apply stage_txn_spec in Hs as [Ho Hs]; [|done].
  assert (∀ l, staged (st_engine st) k l (st_engine st') →
    engine_ok (st_engine st') ∧ st_open_windows st' = st_open_windows st ∧
    hw_grown k (db_window_hw (en_db (st_engine st))) (db_window_hw (en_db (st_engine st'))) ∧
    (∀ k', k' ≠ k → rows_of (en_db (st_engine st')) k' = rows_of (en_db (st_engine st)) k') ∧
    (∀ x, x ∈ rows_of (en_db (st_engine st)) k → x ∈ rows_of (en_db (st_engine st')) k)) as Hgrow.
  { intros l [Hok _ Hrows _ Hhw]. split_and!; [done..| |].
    - intros k' Hne. by rewrite Hrows, decide_False.
    - intros x Hx. rewrite Hrows, decide_True by done. apply elem_of_app. by left. }
  destruct r as [[cov|cov|]|err]; [| |done|].
  - destruct Hs as (_ & (Hst & _) & _). by eapply Hgrow.
  - destruct Hs as [(row & _ & _ & _ & Hst & _) _]. by eapply Hgrow.
  - destruct Hs as [-> _]. split_and!; try done. by left.
Qed.

(** High-water marks after an append, for a lane whose open window is [o]. *)
Lemma open_grown k h h' o :
  hw_grown k h h' → current_id (h !! k.1) o → (k.2 ≤ o)%N →
  (∀ dp, dp ≠ k.1 → h' !! dp = h !! dp) ∧ current_id (h' !! k.1) o ∧
  (∀ x, h !! k.1 = Some x → ∃ x', h' !! k.1 = Some x' ∧ (x ≤ x')%N) ∧
  (∀ x, h' !! k.1 = Some x → is_u64 x ∨ h !! k.1 = Some x).
Proof.
  destruct k as [[d p] w]. intros [->| ->] [Hw Hu] Hle; simpl in *.
  - split_and!; [done|by split|by eauto|by eauto].
  - unfold merge_hw. simpl. rewrite lookup_insert_eq. split_and!.
    + intros dp Hne. by rewrite lookup_insert_ne.
    + split; [|done]. simpl. destruct (h !! (d, p)); lia.
    + intros x Hx. rewrite Hx. eexists. split; [done|]. lia.
    + unfold is_u64 in *. intros x. destruct (h !! (d, p)) as [y|]; intros [= <-]; [|left; lia].
      destruct (decide (y ≤ w)%N); [left; rewrite N.max_r; lia|right; by rewrite N.max_l by lia].
Qed.

(** ** Frozen windows *)

(** A closed window no call is on its way to. *)
Definition frozen (f : Front) (k : WindowKey) : Prop :=
  closed_window (hot_db (fr_hot f)) k ∧ ∀ c at_ms, c ∈ fr_calls f → bound_for c ≠ Some (k, at_ms).

(** The window was noted as closed at [z]. *)
Definition noted (f : Front) (k : WindowKey) (z : Z) : Prop :=
  ∃ st closes, fr_hot f = HotUp st closes ∧ closes !! k = Some z.

(** What may happen to the hot store without touching a frozen window. *)
Record rolls (f f' : Front) : Prop := {
  ro_closed k : closed_window (hot_db (fr_hot f)) k → closed_window (hot_db (fr_hot f')) k;
  ro_settled k : frozen f k → frozen f' k;
  ro_frozen k : frozen f k → rows_of (hot_db (fr_hot f')) k = rows_of (hot_db (fr_hot f)) k;
  ro_rows k r : r ∈ rows_of (hot_db (fr_hot f)) k → r ∈ rows_of (hot_db (fr_hot f')) k;
}.

Lemma rolls_refl f : rolls f f.
Proof. by split. Qed.

(** Steps that leave the database alone and add no call. *)
Lemma rolls_same f f' :
  db_window_hw (hot_db (fr_hot f')) = db_window_hw (hot_db (fr_hot f)) →
  db_tables (hot_db (fr_hot f')) = db_tables (hot_db (fr_hot f)) →
  (∀ c, c ∈ fr_calls f' → bound_for c = None ∨ c ∈ fr_calls f) → rolls f f'.
Proof.
  intros Eh Et Hc.
  assert (∀ k, closed_window (hot_db (fr_hot f)) k → closed_window (hot_db (fr_hot f')) k) as Hcl
    by (intros k; unfold closed_window; by rewrite Eh).
  split; [done| |by intros k _; unfold rows_of; rewrite Et|by intros k r; unfold rows_of; rewrite Et].
  intros k [Hk Hno]. split; [by apply Hcl|]. intros c at_ms [->|?]%Hc; [done|by apply Hno].
Qed.

Record front_inv (config : DrainConfig) (f : Front) : Prop := {
  fv_hot : hot_inv (fr_hot f);
  fv_down db : fr_hot f = HotDown db → fr_calls f = [];
  (** A call is on its way to a window that was the open one when it was chosen: the
      lane's open window has not gone back since, and the window was noted as closed,
      if it was, no earlier than it was chosen. *)
  fv_placed st closes c dp w at_ms :
    fr_hot f = HotUp st closes → c ∈ fr_calls f → bound_for c = Some ((dp, w), at_ms) →
    (at_ms ≤ fr_clock f)%Z ∧ (∃ o, st_open_windows st !! dp = Some o ∧ (w ≤ ow_id o)%N) ∧
    (∀ z, closes !! (dp, w) = Some z → (at_ms ≤ z)%Z);
  fv_prompt : prompt config f = true;
}.

(** A window whose hold has elapsed is frozen. *)
Lemma hold_frozen config f k z :
  front_inv config f → noted f k z →
  hold_elapsed (fr_clock f) (allowed_lateness_ms config) z = true → frozen f k.
Proof.
  intros Hf (st & closes & Eh & Hz) He. split; [by apply (hi_closes _ (fv_hot _ _ Hf) st closes k z)|].
  intros c at_ms Hc Hb. destruct k as [dp w].
  destruct (fv_placed _ _ Hf st closes c dp w at_ms Eh Hc Hb) as (_ & _ & Hle). specialize (Hle z Hz).
  pose proof (prompt_spec _ _ _ _ _ (fv_prompt _ _ Hf) Hc Hb) as Hp. revert Hp He.
  unfold hold_elapsed, i64_sat_add. intros ?%Z.leb_gt ?%Z.leb_le. lia.
Qed.

(** A state whose engine only moved on by rolling windows. *)
Lemma hot_inv_up st closes st' closes' :
  hot_inv (HotUp st closes) → engine_ok (st_engine st') →
  (∀ dp h, db_window_hw (en_db (st_engine st')) !! dp = Some h → is_u64 h) →
  (∀ k z, closes' !! k = Some z → closed_window (en_db (st_engine st')) k) →
  (∀ dp o, st_open_windows st' !! dp = Some o →
     current_id (db_window_hw (en_db (st_engine st')) !! dp) (ow_id o)) →
  hot_inv (HotUp st' closes').
Proof. intros [] He Hhw Hc Ho. split; simpl; [done|done|by intros ???? [= -> ->]; apply Hc|by intros ???? [= -> ->]; apply Ho]. Qed.

Lemma note_closed_windows_spec e now closes k z :
  engine_ok e → note_closed_windows e now closes !! k = Some z →
  closes !! k = Some z ∨ z = now ∧ closed_window (en_db e) k.
Proof.
  intros [Hmi _]. unfold note_closed_windows. revert closes.
  induction (list_windows e) as [|w ws IH]; intros closes; simpl; [by left|].
  intros Hz. apply IH in Hz as [Hz|?]; [|by right]. revert Hz.
  unfold highest_window_id. rewrite (mi_hw _ Hmi).
  destruct (db_window_hw (en_db e) !! _) as [h|] eqn:Hh; [|by left].
  case_if; bool_tests; [|by left]. unfold note_closed.
  destruct (closes !! _) eqn:Hc; [by left|].
  destruct (decide (k = (wf_dataset w, wf_partition w, wf_window w))) as [->|Hne].
  - rewrite lookup_insert_eq. intros [= <-]. right. split; [done|]. by exists h.
  - rewrite lookup_insert_ne by done. by left.
Qed.

(** The first noted instant wins. *)
Lemma note_closed_windows_keeps e now closes k z :
  closes !! k = Some z → note_closed_windows e now closes !! k = Some z.
Proof.
  unfold note_closed_windows. revert closes. induction (list_windows e) as [|w ws IH]; intros closes Hz; simpl; [done|].
  apply IH. case_match; [|done]. case_if; [|done]. unfold note_closed.
  destruct (closes !! (wf_dataset w, wf_partition w, wf_window w)) eqn:E; [done|].
  rewrite lookup_insert_ne; [done|]. intros <-. by rewrite Hz in E.
Qed.

(** ** The steps of the environment *)

Section env.
Context (cfg : StagerConfig) (config : DrainConfig).

Lemma place_ok f st closes before batch after batches mono w st' :
  let f' := {| fr_hot := HotUp st' closes;
               fr_calls := before ++ CallPlaced batch batches w (fr_clock f) :: after;
               fr_clock := fr_clock f |} in
  front_inv config f → fr_hot f = HotUp st closes → fr_calls f = before ++ CallAdmitted batch :: after →
  ids_left (en_db (st_engine st)) → current_window cfg st (lane batch).1 (lane batch).2 mono = (w, st') →
  prompt config f' = true → front_inv config f' ∧ rolls f f'.
Proof.
  intros f' Hf Eh Ec Hids Hw Hp. pose proof (fv_hot _ _ Hf) as Hinv. rewrite Eh in Hinv.
  pose proof (hi_ok _ Hinv) as He. simpl in He.
  pose proof (current_window_engine cfg st (lane batch).1 (lane batch).2 mono) as Ee. rewrite Hw in Ee. simpl in Ee.
  apply (current_window_id cfg st) in Hw as (Hcur & Hopen & Hgrow & Hother);
    [|done..|by intros dp o; apply (hi_open _ Hinv _ _ dp o eq_refl)].
  rewrite <-surjective_pairing in Hcur, Hopen, Hgrow, Hother.
  assert (¬ closed_window (en_db (st_engine st)) (lane batch, w)) as Hnc.
  { intros (h & Hh & Hlt). simpl in Hh, Hlt. destruct Hcur as [Hc _]. rewrite Hh in Hc. lia. }
  assert (∀ c, c ∈ fr_calls f' → c = CallPlaced batch batches w (fr_clock f) ∨ c ∈ fr_calls f) as Hin.
  { intros c. rewrite Ec. simpl. rewrite !elem_of_app, !elem_of_cons. tauto. }
  split.
  - split; [|done| |done].
    + apply (hot_inv_up st closes); rewrite ?Ee; [done|done|by apply (hi_hw _ Hinv)| |].
      * intros k z Hz. by apply (hi_closes _ Hinv st closes k z).
      * intros dp o Ho. destruct (decide (dp = lane batch)) as [->|Hne].
        -- rewrite Ho in Hopen. by injection Hopen as ->.
        -- rewrite Hother in Ho by done. by apply (hi_open _ Hinv st closes dp o).
    + intros s1 cl c dp w' at_ms [= <- <-] [->|Hc]%Hin Hb.
      * injection Hb as <- <- <-. simpl. split_and!; [done| |].
        -- destruct (st_open_windows st' !! lane batch) as [o|]; [|done]. injection Hopen as <-. by exists o.
        -- intros z Hz. destruct Hnc. by apply (hi_closes _ Hinv st closes _ z).
      * destruct (fv_placed _ _ Hf st closes c dp w' at_ms Eh Hc Hb) as (Ht & (o & Ho & Hle) & Hz).
        split_and!; [done| |done]. destruct (decide (dp = lane batch)) as [->|Hne].
        -- destruct (st_open_windows st' !! lane batch) as [o'|]; [|done]. injection Hopen as <-.
           exists o'. split; [done|]. specialize (Hgrow o Ho). lia.
        -- rewrite Hother by done. by exists o.
  - split; unfold frozen; rewrite ?Eh; simpl; rewrite ?Ee; try done. intros k [Hk Hno]. split; [done|].
    intros c at_ms [->|Hc]%Hin; [|by apply Hno]. simpl. by intros [= <- _].
Qed.

Lemma stage_txn_ok f st closes before batch batches w at_ms after wall r st' evs :
  let f' := {| fr_hot := HotUp st' closes; fr_calls := before ++ after; fr_clock := fr_clock f |} in
  front_inv config f → fr_hot f = HotUp st closes →
  fr_calls f = before ++ CallPlaced batch batches w at_ms :: after →
  stage_txn cfg st batch batches w wall = (r, st', evs) →
  prompt config f' = true → front_inv config f' ∧ rolls f f'.
Proof.
  intros f' Hf Eh Ec Hs Hp. pose proof (fv_hot _ _ Hf) as Hinv. rewrite Eh in Hinv.
  pose proof (hi_ok _ Hinv) as He. simpl in He. set (k := (lane batch, w)).
  apply txn_appends in Hs as (He' & Hopen & Hgrown & Hothers & Hkeep); [|done]. fold k in Hgrown, Hothers, Hkeep.
  assert (CallPlaced batch batches w at_ms ∈ fr_calls f) as Hcall
    by (rewrite Ec; apply elem_of_app; right; left).
  destruct (fv_placed _ _ Hf st closes _ (lane batch) w at_ms Eh Hcall eq_refl) as (_ & (o & Ho & Hle) & _).
  pose proof (hi_open _ Hinv st closes _ o eq_refl Ho) as Hcur. simpl in Hcur.
  destruct (open_grown k _ _ (ow_id o) Hgrown Hcur Hle) as (Hne & Hcur' & Hmono & Hu).
  assert (∀ k', closed_window (en_db (st_engine st)) k' → closed_window (en_db (st_engine st')) k') as Hcl.
  { intros k' (h & Hh & Hlt). destruct (decide (k'.1 = k.1)) as [E|Hd].
    - rewrite E in Hh. destruct (Hmono h Hh) as (h' & Hh' & Hge). exists h'. rewrite E. split; [done|lia].
    - exists h. by rewrite Hne. }
  split.
  - split; [|done| |done].
    + apply (hot_inv_up st closes); [done|done| | |].
      * intros dp h Hh. destruct (decide (dp = k.1)) as [->|Hd].
        -- destruct (Hu h Hh) as [?|Hh0]; [done|]. by eapply (hi_hw _ Hinv).
        -- rewrite Hne in Hh by done. by eapply (hi_hw _ Hinv).
      * intros k' z Hz. apply Hcl. by apply (hi_closes _ Hinv st closes k' z).
      * intros dp o' Ho'. rewrite Hopen in Ho'. destruct (decide (dp = k.1)) as [->|Hd].
        -- simpl in Ho'. rewrite Ho in Ho'. by injection Ho' as <-.
        -- rewrite Hne by done. by apply (hi_open _ Hinv st closes dp o').
    + intros s1 cl c dp w' t [= <- <-] Hc Hb. rewrite Hopen.
      apply (fv_placed _ _ Hf st closes c); [done|by eapply calls_without|done].
  - split; rewrite ?Eh; simpl; [done| | |].
    + intros k' [Hk' Hno]. rewrite Eh in Hk'. split; [by apply Hcl|]. intros c t Hc. apply Hno. by eapply calls_without.
    + intros k' [_ Hno]. apply Hothers. intros ->. by apply (Hno _ at_ms Hcall).
    + intros k' x Hx. destruct (decide (k' = k)) as [->|Hd]; [by apply Hkeep|by rewrite Hothers].
Qed.

(** A step that leaves the engine's windows and rows, and what calls there are. *)
Lemma same_front_inv f f' :
  front_inv config f → hot_inv (fr_hot f') → prompt config f' = true →
  (∀ c, c ∈ fr_calls f' → bound_for c = None ∨ c ∈ fr_calls f) → (fr_clock f ≤ fr_clock f')%Z →
  (∀ db, fr_hot f' = HotDown db → fr_calls f' = []) →
  (∀ st' closes', fr_hot f' = HotUp st' closes' → ∃ st closes, fr_hot f = HotUp st closes ∧
     st_open_windows st' = st_open_windows st ∧
     ∀ k z, closes' !! k = Some z → closes !! k = Some z ∨ (fr_clock f ≤ z)%Z) →
  front_inv config f'.
Proof.
  intros Hf Hh Hp Hc Ht Hdown Hup. split; [done|done| |done].
  intros st' closes' c dp w at_ms Eh Hin Hb.
  destruct (Hup st' closes' Eh) as (st & closes & Eh0 & Eo & Hcl).
  destruct (Hc c Hin) as [E|Hin0]; [by rewrite E in Hb|].
  destruct (fv_placed _ _ Hf st closes c dp w at_ms Eh0 Hin0 Hb) as (Hle & Ho & Hz). rewrite Eo.
  split_and!; [lia|done|]. intros z Hz'. destruct (Hcl _ z Hz') as [?|?]; [by apply Hz|lia].
Qed.

Lemma checkpoint_hot st closes fsync r e :
  hot_inv (HotUp st closes) → checkpoint fsync (st_engine st) = (r, e) →
  hot_inv (HotUp (with_engine st e) closes) ∧
  db_window_hw (en_db e) = db_window_hw (en_db (st_engine st)) ∧
  db_tables (en_db e) = db_tables (en_db (st_engine st)).
Proof.
  intros Hinv Hc. pose proof (hi_ok _ Hinv) as He. apply checkpoint_ok in Hc as [He' Hc]; [|done].
  assert (db_window_hw (en_db e) = db_window_hw (en_db (st_engine st)) ∧
          db_tables (en_db e) = db_tables (en_db (st_engine st))) as [Hh Ht] by (by destruct Hc as [->| ->]).
  split; [|done]. apply (hot_inv_up st closes); simpl; [done|done| | |]; rewrite ?Hh.
  - by apply (hi_hw _ Hinv).
  - intros k z Hz. unfold closed_window. rewrite Hh. by apply (hi_closes _ Hinv st closes k z).
  - intros dp o Ho. by apply (hi_open _ Hinv st closes dp o).
Qed.

Lemma env_ok f f' :
  front_inv config f → env_step cfg f f' → prompt config f' = true →
  front_inv config f' ∧ rolls f f' ∧ ∀ k z, noted f k z → noted f' k z.
Proof.
  intros Hf Hstep Hp. pose proof (fv_hot _ _ Hf) as Hinv.
  destruct Hstep as [f st closes batch Eh _|f before batch after Ec _
    |f st closes before batch after batches mono w st' Eh Ec Hids _ _ Hw
    |f st closes before batch batches w at_ms after wall r st' evs Eh Ec Hs
    |f st closes Eh|f st closes fsync r e Eh Hc|f now Ht].
  - assert (∀ c, c ∈ CallAdmitted batch :: fr_calls f → bound_for c = None ∨ c ∈ fr_calls f) as Hin
      by (intros c [->|?]%elem_of_cons; [by left|by right]).
    split_and!; [apply (same_front_inv f); try done; simpl|by apply rolls_same|done].
    + by rewrite Eh.
    + intros st' closes' Eh'. exists st', closes'. split_and!; [done..|by left].
  - assert (∀ c, c ∈ before ++ after → bound_for c = None ∨ c ∈ fr_calls f) as Hin
      by (intros c Hc; right; by eapply calls_without).
    split_and!; [apply (same_front_inv f); try done; simpl|by apply rolls_same|done].
    + intros db Eh. pose proof (fv_down _ _ Hf db Eh) as E. rewrite Ec in E. by destruct before.
    + intros st' closes' Eh'. exists st', closes'. split_and!; [done..|by left].
  - destruct (place_ok f st closes before batch after batches mono w st') as [? ?]; try done.
    split_and!; try done. intros k z (s1 & cl & E & Hz). rewrite Eh in E. injection E as <- <-. by exists st', closes.
  - destruct (stage_txn_ok f st closes before batch batches w at_ms after wall r st' evs) as [? ?]; try done.
    split_and!; try done. intros k z (s1 & cl & E & Hz). rewrite Eh in E. injection E as <- <-. by exists st', closes.
  - rewrite Eh in Hinv. pose proof (hi_ok _ Hinv) as He. simpl in He. split_and!.
    + apply (same_front_inv f); try done; simpl; [|by right|].
      * apply (hot_inv_up st closes); [done|done|by apply (hi_hw _ Hinv)| |].
        -- intros k z Hz. apply note_closed_windows_spec in Hz as [Hz|[_ ?]]; [|done|done].
           by apply (hi_closes _ Hinv st closes k z).
        -- intros dp o Ho. by apply (hi_open _ Hinv st closes dp o).
      * intros st' closes' [= <- <-]. exists st, closes. split_and!; [done..|]. intros k z Hz.
        apply note_closed_windows_spec in Hz as [Hz|[-> _]]; [by left|by right|done].
    + apply rolls_same; [by rewrite Eh..|by right].
    + intros k z (s1 & cl & E & Hz). rewrite Eh in E. injection E as <- <-. eexists _, _. split; [done|].
      by apply note_closed_windows_keeps.
  - rewrite Eh in Hinv. destruct (checkpoint_hot _ _ _ _ _ Hinv Hc) as (Hinv' & Hh & Htb). split_and!.
    + apply (same_front_inv f); try done; simpl; [by right|].
      intros st' closes' [= <- <-]. exists st, closes. split_and!; [done..|by left].
    + apply rolls_same; [by rewrite Eh..|by right].
    + intros k z (s1 & cl & E & Hz). rewrite Eh in E. injection E as <- <-. by eexists _, _.
  - split_and!; [apply (same_front_inv f); try done; simpl|apply rolls_same; try done|done].
    + by right.
    + apply (fv_down _ _ Hf).
    + intros st' closes' Eh'. exists st', closes'. split_and!; [done..|by left].
    + by right.
Qed.

End env.

(** A drop of a closed window keeps the invariant. *)
Lemma drop_inv looked counted st closes d p w covered r e' closes' :
  hot_inv (HotUp st closes) → engine_ok looked →
  drop_blocking looked (st_engine st) closes counted d p w covered = (r, e', closes') →
  hot_inv (HotUp (with_engine st e') closes') ∧
  db_window_hw (en_db e') = db_window_hw (en_db (st_engine st)) ∧
  (∀ k z, closes' !! k = Some z → closes !! k = Some z).
Proof.
  intros Hinv Hl Hd. pose proof (hi_ok _ Hinv) as He. simpl in He.
  pose proof (drop_step_ok _ _ _ _ _ _ _ _ _ _ _ Hl He Hd) as (He' & _).
  assert (db_window_hw (en_db e') = db_window_hw (en_db (st_engine st)) ∧
    ∀ k z, closes' !! k = Some z → closes !! k = Some z) as [Hh Hcl].
  { unfold drop_blocking in Hd. destruct (window_table looked d p w) as [t|] eqn:Ht; [|by simplify_eq].
    apply window_table_ok in Ht as ->; [|done].
    destruct (reader _) as [[]|]; [simpl in Hd|by simplify_eq].
    destruct (select _ _); [|by simplify_eq]. case_if.
    - destruct (drop_window _ d p w) as [[b|err] e1] eqn:Hw; simplify_eq;
        apply drop_window_ok in Hw as (_ & _ & _ & ? & _); try done.
      split; [done|]. intros k z. unfold forget_close. by intros [_ ?]%lookup_delete_Some.
    - destruct (delete_covered_rows _ _ _) as [[b|err] e1] eqn:Hw; simplify_eq;
        apply delete_covered_rows_ok in Hw as (_ & _ & _ & ? & _); done. }
  split; [|done]. apply (hot_inv_up st closes); simpl; [done|done|rewrite Hh; by apply (hi_hw _ Hinv)| |].
  - intros k z Hz. unfold closed_window. rewrite Hh. by apply (hi_closes _ Hinv st closes k z), Hcl.
  - intros dp o Ho. rewrite Hh. by apply (hi_open _ Hinv st closes dp o).
Qed.

(** Reopening starts from no open and no closed window. *)
Lemma open_inv mkdir fsync o db r db' :
  hot_inv (HotDown db) → open mkdir fsync o db = (r, db') →
  hot_inv (match r with Ok e => HotUp (stager_new e) ∅ | Err _ => HotDown db' end) ∧
  db_window_hw db' = db_window_hw db ∧ db_tables db' = db_tables db ∧
  (∀ e, r = Ok e → en_db e = db').
Proof.
  intros Hinv E. pose proof (hi_ok _ Hinv) as Hok. simpl in Hok.
  pose proof (open_db _ _ _ _ _ _ E) as Hdb'.
  assert (db_window_hw db' = db_window_hw db ∧ db_tables db' = db_tables db) as [Hh Ht]
    by (by destruct Hdb' as [->| ->]).
  destruct r as [e|err].
  - apply open_ok in E as (He & _ & Hdb & _); [|done].
    split_and!; [|done|done|by intros e' [= <-]].
    split; simpl; [done|rewrite Hdb, Hh; by apply (hi_hw _ Hinv)| |].
    + intros st closes k z [= <- <-]. by rewrite lookup_empty.
    + intros st closes dp w [= <- <-]. simpl. by rewrite lookup_empty.
  - split_and!; try done. split; simpl; [|rewrite Hh; by apply (hi_hw _ Hinv)|done|done].
    destruct Hdb' as [->| ->]; [done|by apply bump_epoch_ok].
Qed.

End rolling.
