(* ===== verification/Pipeline.v ===== *)
(** * The node's pipeline, from staging to the lake

    One node as the daemon composes it ([crates/duckspout-daemon/src/wiring.rs]):
    the hot store with the staging calls in flight ([Rolling.Front]), the bookkeeping,
    the scratch directory and the parts store, and a lake.  A drain pass
    ([Daemon.drain_once]) runs call by call, and a seal or a drop statement by statement;
    in between staging calls are admitted, choose their windows and commit, windows are
    noted as closed, checkpoints are taken and time passes, and at any point the node may
    crash and boot again.  The seal surface
    of the pass is the one of [Seal.v] on the hot store of [HotStore.v], the
    bookkeeping is any one with the port's laws, and the lake behaves as
    [LakeCommitter] is documented and its conformance suite demands (a commit is
    atomic, and a repeated commit of the same part changes nothing). *)

From S2P Require Import Prelude Types Ports Overload Naming Coordinator DrainSystem.
From S2P Require Import Engine EngineProps Stager Seal SealProps StagerProps.
From S2P Require Import HotStore Daemon Rolling.

(** The parquet files DuckDB writes, and what a reader finds in them. *)
Class Parquet `{Arrow} := {
  parquet_bytes : list Row → Bytes;
  parquet_rows : Bytes → option (list Row);
}.

Class ParquetLaws `{Parquet} := {
  parquet_roundtrip rows : parquet_rows (parquet_bytes rows) = Some rows;
}.

(** [object_store::path::Path::from] keeps part names apart. *)
Class PartPaths `{ObjectStore} := {
  part_path_inj d p w d' p' w' :
    path_from (part_name d p w DWindow) = path_from (part_name d' p' w' DWindow) →
    part_name d p w DWindow = part_name d' p' w' DWindow;
}.

Section pipeline.
Context `{ObjectStore, BookkeepingRecovery L, DuckDb, !StagerLibs, !SealLibs, !Parquet}.

(** ** The node *)

Record Node := {
  nd_front : Front;
  nd_world : World (L:=L);
  nd_scratch : gmap string Bytes;
  nd_objects : object_path → option Bytes;
}.

Definition nd_hot (s : Node) : Hot := fr_hot (nd_front s).

Definition set_front (s : Node) (f : Front) : Node :=
  {| nd_front := f; nd_world := nd_world s; nd_scratch := nd_scratch s; nd_objects := nd_objects s |}.
Definition set_hot (s : Node) (h : Hot) : Node := set_front s (with_hot (nd_front s) h).
Definition set_world (s : Node) (w : World (L:=L)) : Node :=
  {| nd_front := nd_front s; nd_world := w; nd_scratch := nd_scratch s; nd_objects := nd_objects s |}.
Definition set_scratch (s : Node) (m : gmap string Bytes) : Node :=
  {| nd_front := nd_front s; nd_world := nd_world s; nd_scratch := m; nd_objects := nd_objects s |}.
Definition set_objects (s : Node) (o : object_path → option Bytes) : Node :=
  {| nd_front := nd_front s; nd_world := nd_world s; nd_scratch := nd_scratch s; nd_objects := o |}.

(** The node with its process gone: the calls in flight end with it. *)
Definition set_down (s : Node) (db : Db) : Node :=
  set_front s {| fr_hot := HotDown db; fr_calls := []; fr_clock := fr_clock (nd_front s) |}.

(** The object store after a PUT. *)
Definition put_object (o : object_path → option Bytes) (loc : object_path) (data : Bytes)
    (o' : object_path → option Bytes) : Prop :=
  o' loc = Some data ∧ ∀ l, l ≠ loc → o' l = o l.

(** The lake has the manifest's parts under its window already. *)
Definition registered (w : World (L:=L)) (m : WindowManifest) : Prop :=
  ∃ m', m' ∈ w_lake w ∧ m_partition m' = m_partition m ∧ m_window_id m' = m_window_id m ∧
        m_parts m' = m_parts m.

(** The engine at each statement of a seal after the lookup of the window. *)
Definition snapshots (total coverage times count copy : Engine) : SealSnapshots :=
  {| ss_total := en_db total; ss_coverage := en_db coverage; ss_times := en_db times;
     ss_count := en_db count; ss_copy := en_db copy |}.

(** The answers a call of the drain may get from the node, and the node after; [seen] is
    the engine as the statements of the call before its last found it, one by one. *)
Definition node_answers (s : Node) (seen : list Engine) (c : call) : answer c → Node → Prop :=
  match c return answer c → Node → Prop with
  | DrainableWindows => λ r s', s' = s ∧
      match nd_hot s with
      | HotUp st closes => r = Ok (drainable_blocking (st_engine st) closes)
      | HotDown _ => False
      end
  | SealWindow request => λ r s',
      ∃ looked total coverage times count copy mkdir,
        seen = [looked; total; coverage; times; count; copy] ∧
        match seal_blocking looked (snapshots total coverage times count copy) mkdir request with
        | Ok (part, file) =>
            r = Ok part ∧ s' = set_scratch s (<[sl_path part := parquet_bytes file]> (nd_scratch s))
        | Err e => r = Err e ∧ s' = s
        end
  | DropWindow d p w covered => λ r s',
      match nd_hot s with
      | HotUp st closes =>
          ∃ looked counted e' closes',
            seen = [looked; counted] ∧
            drop_blocking looked (st_engine st) closes (en_db counted) d p w covered = (r, e', closes') ∧
            s' = set_hot s (HotUp (with_engine st e') closes')
      | HotDown _ => False
      end
  | ScratchGet path => λ r s', s' = s ∧
      match r with Ok data => nd_scratch s !! path = Some data | Err _ => True end
  | ScratchDelete path => λ _ s', s' = s ∨ s' = set_scratch s (delete path (nd_scratch s))
  | PutObject loc data => λ r s',
      (∃ o', put_object (nd_objects s) loc data o' ∧ s' = set_objects s o') ∨
      (match r with Ok _ => False | Err _ => True end ∧ s' = s)
  | CommitFiles m ws => λ r s',
      match r with
      | Ok Committed => registered (nd_world s) m ∧ s' = s ∨
                        ¬ registered (nd_world s) m ∧ s' = set_world s (land (nd_world s) m ws)
      | Ok Aborted | Err _ => s' = s
      | Ok Indeterminate => s' = s ∨
                            ¬ registered (nd_world s) m ∧ s' = set_world s (land (nd_world s) m ws)
      end
  | WallUnixMs => λ r s', s' = s ∧ r = fr_clock (nd_front s)
  | Journal _ => λ _ s', s' = s
  | c => λ r s', ∃ w', answers (nd_world s) c r w' ∧ s' = set_world s w'
  end.

(** The calls that run several statements. *)
Definition looks (c : call) : Prop :=
  match c with SealWindow _ | DropWindow _ _ _ _ => True | _ => False end.

(** The drain pass a node is running, if any: what is left of it, and what the statements
    of its next call have seen so far. *)
Definition task : Type := option (prog (DrainTickReport * bool) * list Engine).

Inductive node_step (cfg : StagerConfig) (config : DrainConfig) : Node * task → Node * task → Prop :=
| StepEnv s f t :
    env_step cfg (nd_front s) f → node_step cfg config (s, t) (set_front s f, t)
| StepTick s st closes :
    nd_hot s = HotUp st closes → node_step cfg config (s, None) (s, Some (drain_once config, []))
(** A statement of a seal or a drop reads the engine. *)
| StepLook s c k seen st closes :
    looks c → nd_hot s = HotUp st closes →
    node_step cfg config (s, Some (Do c k, seen)) (s, Some (Do c k, seen ++ [st_engine st]))
| StepCall s c k seen r s' :
    node_answers s seen c r s' → node_step cfg config (s, Some (Do c k, seen)) (s', Some (k r, []))
| StepDone s a seen : node_step cfg config (s, Some (Ret a, seen)) (s, None)
(** A crash ends the pass and the calls in flight; the hot store keeps what was committed. *)
| StepCrash s t st closes :
    nd_hot s = HotUp st closes →
    node_step cfg config (s, t) (set_down s (en_db (st_engine st)), None)
(** Boot reopens the hot store and rebuilds the bookkeeping from the manifests it
    reads back from the lake, in whatever order; a boot that fails, before or after
    the hot store is open, leaves the node down. *)
| StepBoot s db mkdir fsync origin e db' ms l :
    nd_hot s = HotDown db → open mkdir fsync origin db = (Ok e, db') →
    ms ≡ₚ w_lake (nd_world s) → wb_rebuild ms = Some l →
    node_step cfg config (s, None)
      (set_world (set_hot s (HotUp (stager_new e) ∅)) (with_ledger (nd_world s) l), None)
| StepBootFailed s db mkdir fsync origin r db' :
    nd_hot s = HotDown db → open mkdir fsync origin db = (r, db') →
    node_step cfg config (s, None) (set_down s db', None).

(** A step after which no staging call has been under way for as long as the lateness
    hold since it chose its window. *)
Definition prompt_step (cfg : StagerConfig) (config : DrainConfig) (a b : Node * task) : Prop :=
  node_step cfg config a b ∧ prompt config (nd_front b.1) = true.

(** A node before its first boot, its lake empty. *)
Definition initial (s : Node) : Prop :=
  nd_hot s = hot_empty ∧ fr_calls (nd_front s) = [] ∧ nd_world s = {| w_ledger := wb_new; w_lake := []; w_rows := ∅ |}.

End pipeline.
