(* ===== verification/PipelineProps.v ===== *)
(** * No staged row is lost

    The invariant that ties the hot store, the bookkeeping, the parts store and
    the lake together, what every call of a drain pass does to it, and the claim
    that a staged row is in the hot store or in the lake, whatever happens while
    staging calls commit within the lateness hold. *)

From stdpp Require Import relations.
From S2P Require Import Prelude Types Ports Overload Naming Coordinator DrainSystem.
From S2P Require Import Engine EngineProps Stager Seal SealProps StagerProps.
From S2P Require Import HotStore Daemon Rolling Pipeline.

Section props.
Context `{ObjectStore, !PartPaths, BookkeepingRecovery L, DuckDb, !StagerLibs, !SealLibs, !SealLibsLaws}.
Context `{!Parquet, !ParquetLaws}.
Context (cfg : StagerConfig) (config : DrainConfig).

Abbreviation Node := (Node (L:=L)).
Abbreviation ledger s := (w_ledger (nd_world s)).
Abbreviation lake s := (w_lake (nd_world s)).
Abbreviation db s := (hot_db (nd_hot s)).
Abbreviation log_window p w := ((OTLP_LOGS_DATASET, p, w) : string * string * N).

(** ** What is where *)

Definition window_rows (s : Node) (k : WindowKey) : list Row := rows_of (db s) k.

(** The object a window's part is PUT at. *)
Definition part_path (k : WindowKey) : object_path := path_from (part_name k.1.1 k.1.2 k.2 DWindow).

(** A row of the window is in the parquet object of its part. *)
Definition stored (s : Node) (k : WindowKey) (r : Row) : Prop :=
  ∃ data file, nd_objects s (part_path k) = Some data ∧ parquet_rows data = Some file ∧ r ∈ file.

(** A row is in the lake: its window's part is registered, with a coverage that
    names the row, and the part's object holds it. *)
Definition in_lake (s : Node) (k : WindowKey) (r : Row) : Prop :=
  (∃ m, m ∈ lake s ∧ m_dataset m = k.1.1 ∧ m_partition m = k.1.2 ∧ m_window_id m = k.2 ∧
        m_parts m = [part_name k.1.1 k.1.2 k.2 DWindow] ∧
        covers_seq (m_origin_coverage m) (r_origin r) (r_seq r)) ∧
  stored s k r.

Definition log_key (m : WindowManifest) : WindowKey := log_window (m_partition m) (m_window_id m).

(** The part a seal of [rows] yields, and its manifest. *)
Definition part_of (k : WindowKey) (rows : list Row) : SealedPart :=
  {| sl_path := SEAL_SCRATCH_DIR +:+ "/" +:+ table_of k +:+ ".parquet";
     sl_rows := count_rows rows;
     sl_event_time_min_ms := fst (event_time_bounds rows "ts");
     sl_event_time_max_ms := snd (event_time_bounds rows "ts");
     sl_dedup_removed := u64_sub (count_rows rows) (count_rows rows);
     sl_origin_coverage := coverage_runs rows |}.

Definition manifest_for (p : PartitionId) (w : WindowId) (rows : list Row) : WindowManifest :=
  manifest_of OTLP_LOGS_DATASET p w (part_of (log_window p w) rows).

(** ** The invariant *)

(** The partition's state in [l] is the node's after it was told of the window
    that landed, if one did. *)
Definition caught_up (s : Node) (l : L) (p : PartitionId) : Prop :=
  ((∀ m, m ∈ lake s → m_partition m = p → (m_window_id m < wb_next_window (ledger s) p)%N) →
    wb_at l p = wb_at (ledger s) p) ∧
  ∀ m, m ∈ lake s → m_partition m = p → m_window_id m = wb_next_window (ledger s) p →
    wb_at l p = wb_at (snd (wb_record_commit (ledger s) m)) p.

Record base (s : Node) : Prop := {
  ba_front : front_inv config (nd_front s);
  ba_good : wb_good (ledger s);
  (** Every registered window is one of the drained dataset, closed, and no call is on
      its way to it. *)
  ba_manifest m : m ∈ lake s →
    m_dataset m = OTLP_LOGS_DATASET ∧
    m_parts m = [part_name OTLP_LOGS_DATASET (m_partition m) (m_window_id m) DWindow] ∧
    manifest_typed m ∧ frozen (nd_front s) (log_key m);
  (** It is recorded; or it is the next one, landed without the bookkeeping being
      told, and its rows are all still there. *)
  ba_settled m : m ∈ lake s →
    wb_recorded_coverage (ledger s) (m_partition m) (m_window_id m) = Some (m_origin_coverage m) ∨
    m_window_id m = wb_next_window (ledger s) (m_partition m) ∧
    m = manifest_for (m_partition m) (m_window_id m) (window_rows s (log_key m)) ∧
    ∃ pv, wb_advance_for (ledger s) m = Ok pv ∧
          w_rows (nd_world s) !! m_partition m = wr_complete_through_ms <$> pv;
  (** A registered part's object holds the covered rows that are still staged. *)
  ba_stored m r : m ∈ lake s → r ∈ window_rows s (log_key m) →
    covers_seq (m_origin_coverage m) (r_origin r) (r_seq r) → stored s (log_key m) r;
  ba_below p k : (k < wb_next_window (ledger s) p)%N →
    ∃ m, m ∈ lake s ∧ m_partition m = p ∧ m_window_id m = k;
  ba_rows p : (∀ m, m ∈ lake s → m_partition m = p → (m_window_id m < wb_next_window (ledger s) p)%N) →
    w_rows (nd_world s) !! p = wb_complete_through_ms (ledger s) p;
  (** The lake is a history, and its bookkeeping is the node's, or one landed
      window ahead of it. *)
  ba_history : ∃ l, wb_history wb_new (lake s) l ∧ ∀ p, caught_up s l p;
}.

(** A row that is not lost: staged, or in the lake below the fence. *)
Definition safe (s : Node) (k : WindowKey) (r : Row) : Prop :=
  r ∈ window_rows s k ∨
  k.1.1 = OTLP_LOGS_DATASET ∧ (k.2 < wb_next_window (ledger s) k.1.2)%N ∧ in_lake s k r.

(** A step that keeps the invariant, loses no row and thaws no window. *)
Record fine (s s' : Node) : Prop := {
  fi_base : base s';
  fi_safe k r : safe s k r → safe s' k r;
  fi_frozen k : frozen (nd_front s) k → frozen (nd_front s') k;
}.

Lemma fine_refl s : base s → fine s s.
Proof. by split. Qed.

Lemma fine_trans s1 s2 s3 : fine s1 s2 → fine s2 s3 → fine s1 s3.
Proof. intros [] []. split; auto. Qed.

(** The recorded windows of the lake are those below the fence. *)
Lemma settled_below s m :
  base s → m ∈ lake s → (m_window_id m < wb_next_window (ledger s) (m_partition m))%N →
  wb_recorded_coverage (ledger s) (m_partition m) (m_window_id m) = Some (m_origin_coverage m).
Proof. intros Hb Hm Hlt. destruct (ba_settled _ Hb m Hm) as [?|(E & _)]; [done|lia]. Qed.

Lemma settled_next s m :
  base s → m ∈ lake s → m_window_id m = wb_next_window (ledger s) (m_partition m) →
  m = manifest_for (m_partition m) (m_window_id m) (window_rows s (log_key m)) ∧
  ∃ pv, wb_advance_for (ledger s) m = Ok pv ∧
        w_rows (nd_world s) !! m_partition m = wr_complete_through_ms <$> pv.
Proof.
  intros Hb Hm E. destruct (ba_settled _ Hb m Hm) as [Hr|(_ & ? & ?)]; [|done].
  assert (m_window_id m < wb_next_window (ledger s) (m_partition m))%N; [|lia].
  apply wb_dense; [apply (ba_good _ Hb)|]. by rewrite Hr.
Qed.

(** No window of the lake lies beyond the fence. *)
Lemma lake_upto_next s m :
  base s → m ∈ lake s → (m_window_id m ≤ wb_next_window (ledger s) (m_partition m))%N.
Proof.
  intros Hb Hm. destruct (ba_settled _ Hb m Hm) as [Hr|(E & _)]; [|lia].
  apply N.lt_le_incl, wb_dense; [apply Hb|]. by rewrite Hr.
Qed.

(** Telling the bookkeeping of a landed window keeps the lake's history. *)
Lemma record_caught_up s m l p :
  base s → m ∈ lake s → m_window_id m = wb_next_window (ledger s) (m_partition m) →
  caught_up s l p →
  caught_up (set_world s (with_ledger (nd_world s) (snd (wb_record_commit (ledger s) m)))) l p.
Proof.
  intros Hb Hm Hw [Hnone Hpend]. unfold caught_up. simpl.
  destruct (ba_manifest _ Hb m Hm) as (_ & _ & Hty & _).
  destruct (settled_next _ _ Hb Hm Hw) as (_ & pv & Hadv & _). rewrite wb_preview in Hadv.
  destruct (wb_recorded _ _ _ (ba_good _ Hb) Hty Hadv) as (_ & Hnext & _ & _).
  destruct (decide (p = m_partition m)) as [->|Hne].
  - split; [by intros _; apply Hpend|]. intros m' Hm' Ep Ew. rewrite Hnext in Ew.
    pose proof (lake_upto_next _ _ Hb Hm') as Hle. rewrite Ep in Hle. lia.
  - destruct (wb_other (ledger s) m p Hne) as [_ ->]. rewrite (wb_at_other _ _ _ Hne). split; [done|].
    intros m' Hm' Ep Ew. rewrite (Hpend m' Hm' Ep Ew). subst p.
    symmetry. apply wb_at_record. by rewrite wb_at_other.
Qed.

(** A window that lands next extends the lake's history. *)
Lemma land_history s m pv l :
  base s → manifest_typed m → m_window_id m = wb_next_window (ledger s) (m_partition m) →
  (∀ m', m' ∈ lake s → m_partition m' = m_partition m → m_window_id m' ≠ m_window_id m) →
  wb_advance_for (ledger s) m = Ok pv →
  wb_history wb_new (lake s) l → (∀ p, caught_up s l p) →
  let s' := set_world s (land (nd_world s) m (option_list pv)) in
  wb_history wb_new (lake s') (snd (wb_record_commit l m)) ∧
  ∀ p, caught_up s' (snd (wb_record_commit l m)) p.
Proof.
  intros Hb Hty Hw Hfresh Hadv Hhis Hup s'. rewrite wb_preview in Hadv.
  assert (wb_at l (m_partition m) = wb_at (ledger s) (m_partition m)) as Hat.
  { apply Hup. intros m' Hm' Ep. pose proof (lake_upto_next _ _ Hb Hm') as Hle.
    specialize (Hfresh m' Hm' Ep). rewrite Ep in Hle. lia. }
  destruct (wb_at_record _ _ m Hat) as [Hfst Hsnd]. rewrite Hadv in Hfst.
  split; [by econstructor|]. intros p. unfold caught_up. simpl.
  destruct (decide (p = m_partition m)) as [->|Hne].
  - split; [intros Hall; specialize (Hall m (list_elem_of_here _ _) eq_refl); lia|].
    intros m' [->|Hm']%elem_of_cons Ep Ew; [done|]. destruct (Hfresh m' Hm' Ep). congruence.
  - rewrite (wb_at_other _ _ _ Hne). destruct (Hup p) as [Hnone Hpend]. split.
    + intros Hall. apply Hnone. intros m' Hm'. apply Hall. by right.
    + by intros m' [->|Hm']%elem_of_cons Ep; [|apply Hpend].
Qed.

(** ** Steps of the environment *)

Lemma rolls_fine s f :
  base s → front_inv config f → rolls (nd_front s) f → fine s (set_front s f).
Proof.
  intros Hb Hh Hr. split; simpl; [|intros k r [?|?]; [left; by apply (ro_rows _ _ Hr)|by right]|apply (ro_settled _ _ Hr)].
  assert (∀ m, m ∈ lake s → window_rows (set_front s f) (log_key m) = window_rows s (log_key m)) as Hfr.
  { intros m Hm. apply (ro_frozen _ _ Hr). by apply (ba_manifest _ Hb). }
  destruct Hb as [Hhot Hgood Hman Hset Hst Hbel Hrow Hhis]. split; simpl; try done.
  - intros m Hm. destruct (Hman m Hm) as (? & ? & ? & ?). split_and!; try done. by apply (ro_settled _ _ Hr).
  - intros m Hm. rewrite Hfr by done. by apply Hset.
  - intros m r Hm. rewrite Hfr by done. by apply Hst.
Qed.

(** The node between two calls, no call in flight for too long. *)
Definition env (s s' : Node) : Prop :=
  ∃ f, env_step cfg (nd_front s) f ∧ prompt config f = true ∧ s' = set_front s f.

Record moved (s s' : Node) : Prop := {
  mv_fine : fine s s';
  mv_world : nd_world s' = nd_world s;
  mv_scratch : nd_scratch s' = nd_scratch s;
  mv_objects : nd_objects s' = nd_objects s;
  mv_rows k : frozen (nd_front s) k → window_rows s' k = window_rows s k;
  mv_noted k z : noted (nd_front s) k z → noted (nd_front s') k z;
}.

Lemma moved_refl s : base s → moved s s.
Proof. intros Hb. split; [by apply fine_refl|done..]. Qed.

Lemma moved_trans s1 s2 s3 : moved s1 s2 → moved s2 s3 → moved s1 s3.
Proof.
  intros [Hf ? ? ? Hr ?] [? ? ? ? Hr' ?]. split; [by eapply fine_trans|congruence..| |auto].
  intros k Hk. rewrite Hr' by by apply (fi_frozen _ _ Hf). by apply Hr.
Qed.

Lemma env_moved s s' : base s → env s s' → moved s s'.
Proof.
  intros Hb (f & Hstep & Hp & ->).
  destruct (env_ok _ _ _ _ (ba_front _ Hb) Hstep Hp) as (Hf & Hr & Hn).
  split; [by apply rolls_fine|done..|apply (ro_frozen _ _ Hr)|done].
Qed.

(** ** The statements of a call *)

(** From [s] to [s'] with the environment running, [seen] the engine at the statements
    of the call in between. *)
Inductive reading (s : Node) : list Engine → Node → Prop :=
| reading_start : reading s [] s
| reading_env seen s1 s2 : reading s seen s1 → env s1 s2 → reading s seen s2
| reading_look seen s1 st closes :
    reading s seen s1 → nd_hot s1 = HotUp st closes → reading s (seen ++ [st_engine st]) s1.

(** What the statements saw: the frozen windows as they were. *)
Definition saw (s : Node) (e : Engine) : Prop :=
  engine_ok e ∧ ∀ k, frozen (nd_front s) k → rows_of (en_db e) k = window_rows s k.

(** The same, of one window. *)
Definition saw_window (s : Node) (k : WindowKey) (e : Engine) : Prop :=
  engine_ok e ∧ rows_of (en_db e) k = window_rows s k.

Lemma saw_frozen s s1 seen k :
  moved s s1 → Forall (saw s) seen → frozen (nd_front s) k → Forall (saw_window s1 k) seen.
Proof.
  intros Hmv Hs Hk. eapply Forall_impl; [exact Hs|]. intros e [He Hr]. split; [done|].
  rewrite (mv_rows _ _ Hmv k Hk). by apply Hr.
Qed.

Lemma reading_moved s seen s' : base s → reading s seen s' → moved s s' ∧ Forall (saw s) seen.
Proof.
  intros Hb. induction 1 as [|seen s1 s2 _ [Hmv Hs] He|seen s1 st closes _ [Hmv Hs] Eh].
  - split; [by apply moved_refl|constructor].
  - split; [|done]. eapply moved_trans; [done|]. apply env_moved; [apply Hmv|done].
  - split; [done|]. apply Forall_app. split; [done|]. apply Forall_singleton.
    pose proof (fi_base _ _ (mv_fine _ _ Hmv)) as Hb1.
    pose proof (hi_ok _ (fv_hot _ _ (ba_front _ Hb1))) as Hok.
    change (fr_hot (nd_front s1)) with (nd_hot s1) in Hok. rewrite Eh in Hok. split; [done|].
    intros k Hk. rewrite <-(mv_rows _ _ Hmv k Hk). unfold window_rows. by rewrite Eh.
Qed.

(** ** The calls of a pass *)

Lemma set_world_id (s : Node) : set_world s (nd_world s) = s.
Proof. by destruct s. Qed.

Lemma set_scratch_fine (s : Node) m : base s → fine s (set_scratch s m).
Proof. intros Hb. split; [by destruct Hb|done|done]. Qed.

(** Dropping a recorded window by its own coverage loses nothing. *)
Lemma drop_fine (s : Node) seen m r s' :
  base s → Forall (saw_window s (log_key m)) seen →
  m ∈ lake s → (m_window_id m < wb_next_window (ledger s) (m_partition m))%N →
  node_answers s seen (DropWindow OTLP_LOGS_DATASET (m_partition m) (m_window_id m) (m_origin_coverage m)) r s' →
  fine s s'.
Proof.
  intros Hb Hseen Hm Hlt. cbn [node_answers]. destruct (nd_hot s) as [st closes|] eqn:Eh; [|done].
  intros (looked & counted & e' & closes' & -> & Hd & ->).
  rewrite !Forall_cons in Hseen. destruct Hseen as ([Hlook _] & [_ Hcount] & _).
  pose proof (fv_hot _ _ (ba_front _ Hb)) as Hinv. change (fr_hot (nd_front s)) with (nd_hot s) in Hinv.
  rewrite Eh in Hinv.
  destruct (drop_inv _ _ _ _ _ _ _ _ _ _ _ Hinv Hlook Hd) as (Hinv' & Hhw & Hcloses).
  assert (db s = en_db (st_engine st)) as Edb by by rewrite Eh.
  assert (rows_of (en_db counted) (log_window (m_partition m) (m_window_id m)) =
          rows_of (en_db (st_engine st)) (log_window (m_partition m) (m_window_id m))) as Hsame.
  { by rewrite <-Edb. }
  destruct (drop_blocking_spec _ _ _ _ _ _ _ _ _ _ _ Hlook (hi_ok _ Hinv) Hsame Hd)
    as (_ & [Hkeep Hother] & Hcase).
  assert (∀ k, frozen (nd_front s) k → frozen (nd_front (set_hot s (HotUp (with_engine st e') closes'))) k) as Hcl.
  { intros k [Hk Hno]. split; [|done]. revert Hk. change (fr_hot (nd_front s)) with (nd_hot s).
    rewrite Edb. simpl. unfold closed_window. by rewrite Hhw. }
  assert (∀ k x, x ∈ rows_of (en_db e') k → x ∈ window_rows s k) as Hsub.
  { intros k x. unfold window_rows. rewrite Edb. destruct (decide (k = log_window (m_partition m) (m_window_id m))) as [->|Hne];
      [|by rewrite Hother].
    destruct r as [[|n|]|err].
    - destruct Hcase as [_ ->]. by intros ?%elem_of_nil.
    - destruct Hcase as [-> _]. by intros [_ ?]%elem_of_filter_bool.
    - by destruct Hcase as [_ ->].
    - by rewrite Hcase. }
  split; [|intros k x [Hx|?]; [|by right]|done].
  - pose proof Hb as [Hfront Hgood Hman Hset Hst Hbel Hrow]. split; simpl; try done.
    + apply (same_front_inv config (nd_front s)); try done; [apply Hfront|by right|].
      intros st' closes'' [= <- <-]. exists st, closes. split_and!; [done..|]. intros k z ?. left. by apply Hcloses.
    + intros m' Hm'. destruct (Hman m' Hm') as (? & ? & ? & ?). split_and!; auto.
    + intros m' Hm'. destruct (Hset m' Hm') as [?|(Ew & Em & Hpv)]; [by left|right].
      split; [done|]. split; [|done]. unfold window_rows in Em |- *. simpl.
      rewrite Hother; [by rewrite <-Edb|]. intros E. injection E as Ep Ew'. rewrite Ep, Ew' in Ew. lia.
    + intros m' x Hm' Hx. by apply Hst, Hsub.
  - unfold window_rows in Hx. rewrite Edb in Hx. destruct (Hkeep k x Hx) as [?|[-> Hc]]; [by left|right].
    destruct (ba_manifest _ Hb m Hm) as (? & ? & _). split_and!; [done|done|].
    split; [by exists m|]. apply (ba_stored _ Hb m); [done| |done]. unfold window_rows. by rewrite Edb.
Qed.

(** Recording a landed window brings the bookkeeping in step for its partition. *)
Lemma record_fine (s : Node) m r s' :
  base s → m ∈ lake s → m_window_id m = wb_next_window (ledger s) (m_partition m) →
  node_answers s [] (RecordCommit m) r s' →
  fine s s' ∧ lake s' = lake s ∧ (m_window_id m < wb_next_window (ledger s') (m_partition m))%N ∧
  nd_hot s' = nd_hot s ∧ ∃ row, r = Ok row.
Proof.
  intros Hb Hm Hw. cbn [node_answers answers]. intros (w' & [-> ->] & ->).
  destruct (settled_next _ _ Hb Hm Hw) as (_ & pv & Hadv & Hrows). rewrite wb_preview in Hadv.
  destruct (ba_manifest _ Hb m Hm) as (_ & _ & Hty & _).
  destruct (wb_recorded _ _ _ (ba_good _ Hb) Hty Hadv) as (_ & Hnext & Hcov & Hpv).
  set (l' := snd (wb_record_commit (ledger s) m)) in *. simpl.
  assert (∀ p, (wb_next_window (ledger s) p ≤ wb_next_window l' p)%N) as Hmono.
  { intros p. destruct (decide (p = m_partition m)) as [->|Hne]; [lia|].
    unfold l'. by destruct (wb_other (ledger s) m p Hne) as [_ ->]. }
  split; [|split_and!; [done|lia|done|by exists pv]].
  split; simpl; [|intros k x [?|(? & ? & ?)]; [by left|right; split_and!; [done| |done]]|done].
  2: { specialize (Hmono k.1.2). simpl. lia. }
  pose proof Hb as [Hhot Hgood Hman Hset Hst Hbel Hrow Hhis]. split; simpl; try done.
  - by apply wb_good_record.
  - intros m' Hm'. destruct (Hset m' Hm') as [Hrec|(Ew & Em & pv' & Hadv' & Hrows')].
    { left. by apply wb_stable. }
    destruct (decide (m_partition m' = m_partition m)) as [Ep|Hne].
    + left. assert (m' = m) as ->; [|done]. rewrite Em. destruct (settled_next _ _ Hb Hm Hw) as [-> _].
      simpl. unfold log_key. by rewrite Ep, Ew, Hw, Ep.
    + right. unfold l'. rewrite (wb_other_preview (ledger s) m m' Hne).
      destruct (wb_other (ledger s) m (m_partition m') Hne) as [_ ->]. eauto.
  - intros p k Hk. destruct (decide (p = m_partition m)) as [->|Hne].
    + rewrite Hnext in Hk. destruct (decide (k = m_window_id m)) as [->|]; [by exists m|]. apply Hbel. lia.
    + destruct (wb_other (ledger s) m p Hne) as [_ Ho]. unfold l' in Hk. rewrite Ho in Hk. by apply Hbel.
  - intros p Hall. destruct (decide (p = m_partition m)) as [->|Hne].
    + rewrite Hrows, Hpv. by destruct (wb_complete_through_ms l' _).
    + destruct (wb_other (ledger s) m p Hne) as [Hct Hnx]. unfold l'. rewrite Hct. apply Hrow.
      intros m' Hm' Ep. specialize (Hall m' Hm' Ep). unfold l' in Hall. by rewrite Hnx in Hall.
  - destruct Hhis as (l & Hl & Hup). exists l. split; [done|]. intros p. by apply record_caught_up.
Qed.

(** Sealing a closed window reads exactly its rows. *)
Definition log_request (p : PartitionId) (w : WindowId) : SealRequest :=
  {| sr_dataset := OTLP_LOGS_DATASET; sr_partition := p; sr_window := w;
     sr_order_by := order_by otlp_logs_drain_plan;
     sr_event_time_column := event_time_column otlp_logs_drain_plan;
     sr_dedup_key := Coordinator.dedup_key otlp_logs_drain_plan |}.

Lemma seal_now (s : Node) seen p w r s' :
  Forall (saw_window s (log_window p w)) seen →
  node_answers s seen (SealWindow (log_request p w)) r s' →
  (∃ err, r = Err err ∧ s' = s) ∨
  ∃ file, r = Ok (part_of (log_window p w) (window_rows s (log_window p w))) ∧
    (∀ x, x ∈ file ↔ x ∈ window_rows s (log_window p w)) ∧
    s' = set_scratch s (<[sl_path (part_of (log_window p w) (window_rows s (log_window p w)))
                          := parquet_bytes file]> (nd_scratch s)).
Proof.
  intros Hseen. cbn [node_answers].
  intros (looked & total & coverage & times & count & copy & mkdir & -> & Hs).
  rewrite !Forall_cons in Hseen.
  destruct Hseen as ([He _] & [_ E1] & [_ E2] & [_ E3] & [_ E4] & [_ E5] & _).
  unfold seal_blocking in Hs. cbn [log_request sr_dataset sr_partition sr_window] in Hs.
  destruct (window_table _ _ p w) as [t|] eqn:Ht; [|left; naive_solver].
  apply window_table_ok in Ht as ->; [|done].
  destruct (reader _) as [[]|]; [simpl in Hs|left; naive_solver].
  do 4 (destruct (select _ _) as [?|] eqn:Hsel in Hs; [simpl in Hs|left; naive_solver];
        apply select_ok in Hsel as ->).
  destruct mkdir as [u|]; [simpl in Hs|left; naive_solver].
  destruct (select _ _) as [?|] eqn:Hsel in Hs; [simpl in Hs|left; naive_solver]. apply select_ok in Hsel as ->.
  rewrite E1, E2, E3, E4, E5 in Hs. right. destruct Hs as [-> ->].
  exists (order_rows ["ts"] (window_rows s (log_window p w))).
  split_and!; [done| |done]. intros x. by rewrite order_rows_perm.
Qed.

Lemma coverage_typed (s : Node) k :
  base s → Forall range_typed (coverage_runs (window_rows s k)).
Proof.
  intros Hb. pose proof (hot_ok_db _ (hi_ok _ (fv_hot _ _ (ba_front _ Hb)))) as Hok.
  assert (∀ r, r ∈ window_rows s k → is_u64 (r_seq r)) as Hu.
  { intros r Hr. apply (ok_seqs _ _ Hok) in Hr. pose proof (ok_bound _ _ Hok k.1.2 (r_origin r)).
    unfold is_u64. lia. }
  apply Forall_forall. intros c. unfold coverage_runs. rewrite merge_sort_Permutation.
  intros (g & -> & (r & -> & Hr)%elem_of_remove_dups%list_elem_of_fmap)%list_elem_of_fmap.
  unfold range_typed. destruct (group_bounds _ r Hr Hu) as (_ & _ & (ra & _ & Ha & <-) & (rb & _ & Hb' & <-)).
  split; by apply Hu.
Qed.

Lemma manifest_for_typed (s : Node) p w :
  base s → frozen (nd_front s) (log_window p w) →
  manifest_typed (manifest_for p w (window_rows s (log_window p w))).
Proof.
  intros Hb [(h & Hh & Hlt) _]. split; simpl in *; [|by apply coverage_typed].
  pose proof (hi_hw _ (fv_hot _ _ (ba_front _ Hb)) _ _ Hh) as Hu. unfold is_u64 in Hu. lia.
Qed.

Lemma log_path_inj p w k :
  k.1.1 = OTLP_LOGS_DATASET → part_path k = part_path (log_window p w) → k = log_window p w.
Proof.
  destruct k as [[d p'] w']. unfold part_path. simpl. intros -> E. by apply part_path_inj, part_name_inj in E as (_ & -> & -> & _).
Qed.

(** A PUT of a file with all the window's rows, above the fence. *)
Lemma put_fine (s : Node) p w data file o' :
  base s → (wb_next_window (ledger s) p ≤ w)%N →
  parquet_rows data = Some file → (∀ x, x ∈ file ↔ x ∈ window_rows s (log_window p w)) →
  put_object (nd_objects s) (part_path (log_window p w)) data o' →
  fine s (set_objects s o') ∧ ∀ x, x ∈ window_rows s (log_window p w) → stored (set_objects s o') (log_window p w) x.
Proof.
  intros Hb Hw Hfile Hrows [Hput Hothers].
  assert (∀ x, x ∈ window_rows s (log_window p w) → stored (set_objects s o') (log_window p w) x) as Hst.
  { intros x Hx. exists data, file. split_and!; [done|done|by apply Hrows]. }
  assert (∀ k x, k.1.1 = OTLP_LOGS_DATASET → k ≠ log_window p w → stored s k x → stored (set_objects s o') k x) as Hkeep.
  { intros k x Hk Hne (d & f & Ho & ?). exists d, f. split; [|done]. simpl. rewrite Hothers; [done|].
    intros E. by apply Hne, log_path_inj. }
  split; [|done]. split; [|intros k x [?|(Hd & Hlt & Hm & Hx)]; [by left|right; split_and!; try done]|done].
  - destruct Hb as [Hhot Hgood Hman Hset Hsto Hbel Hrow Hhis]. split; try done.
    intros m x Hm Hx Hc. destruct (decide (log_key m = log_window p w)) as [E|Hne].
    + rewrite E in Hx |- *. by apply Hst.
    + apply Hkeep; [done|done|]. by apply Hsto.
  - split; [done|]. apply Hkeep; [done| |done]. intros ->. simpl in Hlt. lia.
Qed.

(** A commit that lands. *)
Lemma land_fine (s : Node) p w pv :
  let m := manifest_for p w (window_rows s (log_window p w)) in
  base s → frozen (nd_front s) (log_window p w) → w = wb_next_window (ledger s) p →
  (∀ x, x ∈ window_rows s (log_window p w) → stored s (log_window p w) x) →
  wb_advance_for (ledger s) m = Ok pv → ¬ registered (nd_world s) m →
  fine s (set_world s (land (nd_world s) m (option_list pv))).
Proof.
  intros m Hb Hcl Hw Hst Hadv Hnew. pose proof (manifest_for_typed s p w Hb Hcl) as Hty. fold m in Hty.
  pose proof Hadv as Hrec. rewrite wb_preview in Hrec.
  destruct (wb_recorded _ _ _ (ba_good _ Hb) Hty Hrec) as (_ & _ & _ & Hpv). simpl in Hpv.
  assert (∀ q, q ≠ p → w_rows (land (nd_world s) m (option_list pv)) !! q = w_rows (nd_world s) !! q) as Hoth.
  { intros q Hne. rewrite Hpv. simpl. destruct (wb_complete_through_ms _ _); [|done]. simpl. by rewrite lookup_insert_ne. }
  assert (∀ m', m' ∈ lake s → m_partition m' = p → m_window_id m' ≠ w) as Hfresh.
  { intros m' Hm' Ep Ew. apply Hnew. exists m'. destruct (ba_manifest _ Hb m' Hm') as (_ & Hparts & _).
    by rewrite Hparts, Ep, Ew. }
  split; [|intros k x [?|(Hd & Hlt & (m' & Hm' & ?) & Hx)]; [by left|right]|done].
  2: { split_and!; [done|done|]. split; [|done]. exists m'. split; [by right|done]. }
  pose proof Hb as [Hhot Hgood Hman Hset Hsto Hbel Hrow Hhis]. split; cbn [nd_world set_world nd_hot nd_objects] in *; try done.
  - intros m' [->|Hm']%elem_of_cons; [done|by apply Hman].
  - intros m' [->|Hm']%elem_of_cons.
    + right. split_and!; [done|done|]. exists pv. split; [done|]. simpl. rewrite Hpv.
      destruct (wb_complete_through_ms _ p) eqn:E; simpl; [by rewrite lookup_insert_eq|].
      rewrite Hrow; [|intros m' Hm' Ep].
      * destruct (wb_complete_through_ms (ledger s) p) eqn:E0; [|done].
        destruct (wb_monotone _ m _ _ Hgood Hty E0) as (? & ? & _). congruence.
      * destruct (Hset m' Hm') as [Hr|(Ew & _)].
        -- rewrite <-Ep. apply wb_dense; [done|]. by rewrite Hr.
        -- exfalso. apply (Hfresh m' Hm' Ep). by rewrite Ew, Ep.
    + destruct (Hset m' Hm') as [?|(Ew & Em & Hpv')]; [by left|right]. split_and!; [done|done|].
      rewrite Hoth; [done|]. intros Ep. apply (Hfresh m' Hm' Ep). by rewrite Ew, Ep.
  - intros m' x [->|Hm']%elem_of_cons; [by intros Hx _; apply Hst|by apply Hsto].
  - intros q k Hk. destruct (Hbel q k Hk) as (m' & ? & ?). exists m'. split; [by right|done].
  - intros q Hall. destruct (decide (q = p)) as [->|Hne].
    + exfalso. specialize (Hall m (list_elem_of_here _ _) eq_refl). simpl in Hall. lia.
    + rewrite Hoth by done. apply Hrow. intros m' Hm'. apply Hall. by right.
  - destruct Hhis as (l & Hl & Hup). exists (snd (wb_record_commit l m)). by apply land_history.
Qed.

(** ** Running a program on the node *)

(** Whatever happens between its calls and whatever they answer, every call of
    the program is fine, and it ends in [Q]. *)
Fixpoint always {A} (Q : Node → A → Prop) (s : Node) (p : prog A) : Prop :=
  ∀ seen s1, reading s seen s1 →
  match p with
  | Ret a => Q s1 a
  | Do c k => ∀ r s2, node_answers s1 seen c r s2 → fine s1 s2 ∧ always Q s2 (k r)
  end.

Lemma env_always_mono {A} (Q Q' : Node → A → Prop) s p :
  (∀ s' a, Q s' a → Q' s' a) → always Q s p → always Q' s p.
Proof.
  intros HQ. revert s. induction p as [a|c k IH]; simpl; intros s Hp seen s1 Hs1; [by eapply HQ, Hp|].
  intros r s2 Ha. destruct (Hp seen s1 Hs1 r s2 Ha). split; [done|]. by apply IH.
Qed.

Lemma env_always_bind {A B} (Q : Node → B → Prop) s (p : prog A) (f : A → prog B) :
  always (λ s' a, always Q s' (f a)) s p → always Q s (bind p f).
Proof.
  revert s. induction p as [a|c k IH]; intros s; simpl; intros Hp; [apply (Hp []); constructor|].
  intros seen s1 Hs1 r s2 Ha. destruct (Hp seen s1 Hs1 r s2 Ha). split; [done|]. by apply IH.
Qed.

(** A program that ends well from [s]. *)
Definition settles {A} (s : Node) (p : prog A) : Prop :=
  always (λ s' _, base s' ∧ ∀ k, frozen (nd_front s) k → frozen (nd_front s') k) s p.

Lemma settles_ret {A} s (a : A) : base s → settles s (Ret a).
Proof. intros Hb seen s1 He. destruct (reading_moved _ _ _ Hb He) as [[[? ? ?] _ _ _ _ _] _]. done. Qed.

Lemma settles_do {A} s c (k : answer c → prog A) :
  base s →
  (∀ s1 seen, moved s s1 → Forall (saw s) seen →
     ∀ r s2, node_answers s1 seen c r s2 → fine s1 s2 ∧ settles s2 (k r)) →
  settles s (Do c k).
Proof.
  intros Hb Hk seen s1 He r s2 Ha. destruct (reading_moved _ _ _ Hb He) as [Hmv Hsaw].
  destruct (Hk s1 seen Hmv Hsaw r s2 Ha) as [Hf Hs]. split; [done|]. eapply env_always_mono; [|exact Hs].
  intros s' _ [Hb' Hc]. split; [done|]. intros k' Hk'. by apply Hc, (fi_frozen _ _ Hf), (fi_frozen _ _ (mv_fine _ _ Hmv)).
Qed.

Lemma settles_bind {A B} s (p : prog A) (f : A → prog B) :
  settles s p →
  (∀ s' a, base s' → (∀ k, frozen (nd_front s) k → frozen (nd_front s') k) → settles s' (f a)) →
  settles s (bind p f).
Proof.
  intros Hp Hf. apply env_always_bind. eapply env_always_mono; [|exact Hp]. intros s' a [Hb Hc]. simpl.
  eapply env_always_mono; [|by apply Hf]. intros s2 _ [Hb2 Hc2]. auto.
Qed.

(** The calls that leave the node as it is. *)
Definition reads (c : call) : Prop :=
  match c with
  | NextWindow _ | CompleteThroughMs _ | AdvanceFor _ | RecordedCoverage _ _ | ReadWatermarks _
  | DrainableWindows | WallUnixMs | Journal _ | ScratchGet _ => True
  | _ => False
  end.

Lemma reads_skip c s1 seen (r : answer c) s2 :
  reads c → node_answers s1 seen c r s2 → s2 = s1 ∧ node_answers s1 [] c r s2.
Proof.
  destruct c; cbn [reads node_answers answers]; try done; intros _ Ha; (split; [|exact Ha]); revert Ha.
  all: try (intros (w' & [_ ->] & ->); apply set_world_id).
  all: try (by intros [-> _]); try done.
  intros (w' & [-> _] & ->). apply set_world_id.
Qed.

(** The calls of one statement. *)
Lemma looks_not c s1 seen (r : answer c) s2 :
  ¬ looks c → node_answers s1 seen c r s2 → node_answers s1 [] c r s2.
Proof. by destruct c; cbn [looks node_answers]. Qed.

Lemma settles_read {A} s c (k : answer c → prog A) :
  base s → reads c → (∀ s1 r, moved s s1 → node_answers s1 [] c r s1 → settles s1 (k r)) → settles s (Do c k).
Proof.
  intros Hb Hskip Hk. apply settles_do; [done|]. intros s1 seen Hmv _ r s2 Ha.
  destruct (reads_skip _ _ _ _ _ Hskip Ha) as [-> Ha']. split; [apply fine_refl, Hmv|by apply Hk].
Qed.

Lemma settles_once {A} s c (k : answer c → prog A) :
  base s → ¬ looks c →
  (∀ s1, moved s s1 → ∀ r s2, node_answers s1 [] c r s2 → fine s1 s2 ∧ settles s2 (k r)) →
  settles s (Do c k).
Proof.
  intros Hb Hc Hk. apply settles_do; [done|]. intros s1 seen Hmv _ r s2 Ha. eapply Hk; [done|by eapply looks_not].
Qed.

Lemma scratch_delete_fine s path r s' :
  base s → node_answers s [] (ScratchDelete path) r s' → fine s s' ∧ nd_world s' = nd_world s ∧ nd_hot s' = nd_hot s.
Proof.
  intros Hb [->| ->]; (split; [|done]); [by apply fine_refl|by apply set_scratch_fine].
Qed.

(** ** The methods of the coordinator *)

Lemma finish_drop_settles s m path row :
  base s → m ∈ lake s → (m_window_id m < wb_next_window (ledger s) (m_partition m))%N →
  settles s (finish_drop m path row).
Proof.
  intros Hb Hm Hlt. apply settles_once; [done|by intros []|]. intros s1 Hmv r s2 Ha.
  destruct (scratch_delete_fine _ _ _ _ (fi_base _ _ (mv_fine _ _ Hmv)) Ha) as (Hf & Hw & _). split; [done|].
  apply settles_do; [apply Hf|]. intros s3 seen Hmv3 Hsaw r' s4 Hd.
  assert (nd_world s3 = nd_world s) as Hw3 by by rewrite (mv_world _ _ Hmv3), Hw, (mv_world _ _ Hmv).
  assert (fine s3 s4) as Hf4.
  { destruct (ba_manifest _ Hb m Hm) as (Hds & _). rewrite Hds in Hd.
    eapply (drop_fine s3 seen m); [apply Hmv3| |by rewrite Hw3..|exact Hd].
    eapply saw_frozen; [exact Hmv3|exact Hsaw|]. apply (ba_manifest _ (fi_base _ _ Hf)).
    by rewrite Hw, (mv_world _ _ Hmv). }
  split; [done|]. destruct r' as [dropped|e]; [|apply settles_ret, Hf4].
  destruct (_ && _); [|apply settles_ret, Hf4].
  apply settles_read; [apply Hf4|done|]. intros s5 _ Hmv5 _. apply settles_ret, Hmv5.
Qed.

Lemma finish_recorded_settles s p w :
  base s → (w < wb_next_window (ledger s) p)%N → settles s (finish_recorded OTLP_LOGS_DATASET p w).
Proof.
  intros Hb Hlt. apply settles_read; [done|done|]. intros s1 r Hmv Hr.
  destruct Hr as (w' & [-> _] & _). destruct (ba_below _ Hb p w Hlt) as (m & Hm & <- & <-).
  assert (nd_world s1 = nd_world s) as Hw by apply Hmv.
  rewrite Hw, (settled_below s m) by done. cbn [default].
  apply settles_do; [apply Hmv|]. intros s3 seen Hmv3 Hsaw r' s4 Hd.
  assert (nd_world s3 = nd_world s) as Hw3 by by rewrite (mv_world _ _ Hmv3), Hw.
  assert (fine s3 s4) as Hf4.
  { eapply (drop_fine s3 seen m); [apply Hmv3| |by rewrite Hw3..|exact Hd].
    eapply saw_frozen; [exact Hmv3|exact Hsaw|]. apply (ba_manifest _ (fi_base _ _ (mv_fine _ _ Hmv))).
    by rewrite Hw. }
  split; [done|]. destruct r' as [dropped|e]; [|apply settles_ret, Hf4].
  destruct (_ && _); [|apply settles_ret, Hf4].
  apply settles_read; [apply Hf4|done|]. intros s5 _ Hmv5 _. apply settles_ret, Hmv5.
Qed.

Lemma finish_committed_settles s m path :
  base s → m ∈ lake s → m_window_id m = wb_next_window (ledger s) (m_partition m) →
  settles s (finish_committed m path).
Proof.
  intros Hb Hm Hw. apply settles_once; [done|by intros []|]. intros s1 Hmv r s2 Ha.
  assert (nd_world s1 = nd_world s) as Hw1 by apply Hmv.
  destruct (record_fine s1 m r s2) as (Hf & Hl & Hlt & _ & row & ->); [apply Hmv|by rewrite Hw1..|done|].
  split; [done|]. apply finish_drop_settles; [apply Hf|by rewrite Hl, Hw1|done].
Qed.

Lemma settles_delete {A} s path (p : prog A) :
  base s → (∀ s', base s' → settles s' p) → settles s (Do (ScratchDelete path) (λ _, p)).
Proof.
  intros Hb Hp. apply settles_once; [done|by intros []|]. intros s1 Hmv r s2 Ha.
  destruct (scratch_delete_fine _ _ _ _ (fi_base _ _ (mv_fine _ _ Hmv)) Ha) as [Hf _].
  split; [done|]. apply Hp, Hf.
Qed.

(** ** One attempt at the window at the fence *)

Section attempt.
Context (p : PartitionId) (w : WindowId) (rows : list Row) (pv : option WatermarkRow).

Abbreviation k := (log_window p w).
Abbreviation m := (manifest_for p w rows).
Abbreviation sealed := (part_of k rows).

(** The node while the attempt is at the window: nobody else drains it, and it
    is closed, so its rows are the ones that were sealed. *)
Record at_window (s : Node) : Prop := {
  aw_base : base s;
  aw_closed : frozen (nd_front s) k;
  aw_rows : window_rows s k = rows;
  aw_next : w = wb_next_window (ledger s) p;
  aw_advance : wb_advance_for (ledger s) m = Ok pv;
}.

Lemma at_moved s s1 : at_window s → moved s s1 → at_window s1.
Proof.
  intros [Hb Hc Hr Hn Ha] [[Hb' _ Hc'] Hw _ _ Hrows _]. split; rewrite ?Hw; auto. by rewrite Hrows.
Qed.

(** The lake's manifest of the window, if it has one, is the attempt's. *)
Lemma at_window_manifest s m' :
  at_window s → m' ∈ lake s → m_partition m' = p → m_window_id m' = w → m' = m.
Proof.
  intros [Hb _ Hr Hn _] Hm' Ep Ew. destruct (settled_next s m' Hb Hm') as [-> _]; [by rewrite Ep, Ew|].
  unfold log_key. by rewrite Ep, Ew, Hr.
Qed.

(** Unless the window landed, the lake's watermark is the bookkeeping's. *)
Lemma at_window_rows s :
  at_window s →
  m ∈ lake s ∨ w_rows (nd_world s) !! p = wb_complete_through_ms (ledger s) p.
Proof.
  intros Hat. pose proof Hat as [Hb _ _ Hn _].
  destruct (decide (Exists (λ m', m_partition m' = p ∧ m_window_id m' = w) (lake s))) as [He|Hne].
  - left. apply Exists_exists in He as (m' & Hm' & Ep & Ew).
    by rewrite <-(at_window_manifest s m' Hat Hm' Ep Ew).
  - right. apply (ba_rows _ Hb). intros m' Hm' Ep. destruct (ba_settled _ Hb m' Hm') as [Hrec|(Ew & _)].
    + rewrite <-Ep. apply wb_dense; [apply (ba_good _ Hb)|]. by rewrite Hrec.
    + exfalso. apply Hne, Exists_exists. exists m'. split_and!; [done..|]. by rewrite Ew, Ep.
Qed.

Lemma resolve_settles s u read :
  at_window s → read_back_of read p = w_rows (nd_world s) !! p →
  settles s (resolve u m sealed pv (wb_complete_through_ms (ledger s) p) read).
Proof.
  intros Hat Hread. pose proof (aw_base _ Hat) as Hb. unfold resolve. cbn [manifest_for manifest_of m_partition].
  destruct (strict_advance _ _) as [advanced|] eqn:Hsa;
    [|apply settles_delete; [done|]; intros s' Hb'; by apply settles_ret].
  rewrite Hread. destruct (at_window_rows s Hat) as [Hm|Hrow].
  - destruct (reaches _ _); [|apply settles_delete; [done|]; intros s' Hb'; by apply settles_ret].
    apply settles_bind; [apply finish_committed_settles; [done..|apply Hat]|].
    intros s' [wm|e] Hb' _; [destruct u|]; by apply settles_ret.
  - rewrite Hrow, (strict_advance_above _ _ _ Hsa).
    apply settles_delete; [done|]; intros s' Hb'. by apply settles_ret.
Qed.

Lemma reconcile_settles s u :
  at_window s → settles s (reconcile u m sealed pv (wb_complete_through_ms (ledger s) p)).
Proof.
  intros Hat. apply settles_read; [apply Hat|done|]. intros s1 r Hmv Ha.
  pose proof (at_moved _ _ Hat Hmv) as Hat1. rewrite <-(mv_world _ _ Hmv).
  destruct r as [read|e].
  2: { apply settles_delete; [apply Hat1|]. intros s' Hb'. by apply settles_ret. }
  destruct Ha as (w' & [-> Hread] & _). specialize (Hread p (list_elem_of_here _ _)).
  destruct u; [by apply resolve_settles|].
  apply settles_read; [apply Hat1|done|]. intros s2 _ Hmv2 _.
  rewrite <-(mv_world _ _ Hmv2). apply resolve_settles; [by eapply at_moved|].
  by rewrite (mv_world _ _ Hmv2).
Qed.

(** What the commit leaves: its manifest landed, or nothing changed. *)
Lemma commit_settled s r s' :
  at_window s → (∀ x, x ∈ rows → stored s k x) →
  node_answers s [] (CommitFiles m (option_list pv)) r s' →
  fine s s' ∧ at_window s' ∧ (r = Ok Committed → m ∈ lake s').
Proof.
  intros Hat Hst Ha. pose proof Hat as [Hb Hc Hr Hn Hadv].
  assert (¬ registered (nd_world s) m →
    let s1 := set_world s (land (nd_world s) m (option_list pv)) in
    fine s s1 ∧ at_window s1 ∧ m ∈ lake s1) as Hland.
  { intros Hnew. assert (fine s (set_world s (land (nd_world s) m (option_list pv)))) as Hf.
    { rewrite <-Hr. by apply land_fine; rewrite ?Hr. }
    split_and!; [done|by split; [apply Hf| |done..]|by left]. }
  assert (fine s s) as Hrefl by by apply fine_refl.
  destruct r as [[]|e]; cbn [node_answers] in Ha.
  - destruct Ha as [[(m' & Hm' & Ep & Ew & _) ->]|[Hnew ->]]; [|naive_solver].
    split_and!; [done|done|]. intros _. by rewrite <-(at_window_manifest s m' Hat Hm' Ep Ew).
  - subst. naive_solver.
  - destruct Ha as [->|[Hnew ->]]; naive_solver.
  - subst. naive_solver.
Qed.

Lemma put_and_commit_settles s file :
  at_window s → (∀ x, x ∈ file ↔ x ∈ rows) →
  nd_scratch s !! sl_path sealed = Some (parquet_bytes file) →
  settles s (put_and_commit m (part_name OTLP_LOGS_DATASET p w DWindow) sealed pv
               (wb_complete_through_ms (ledger s) p)).
Proof.
  intros Hat Hfile Hscr. apply settles_read; [apply Hat|done|]. intros s1 r Hmv [_ Hget].
  pose proof (at_moved _ _ Hat Hmv) as Hat1. rewrite <-(mv_world _ _ Hmv).
  destruct r as [data|e]; [|apply settles_ret, Hat1].
  rewrite (mv_scratch _ _ Hmv), Hscr in Hget. injection Hget as <-.
  apply settles_once; [apply Hat1|by intros []|]. intros s2 Hmv2 r s3 Ha.
  pose proof (at_moved _ _ Hat1 Hmv2) as Hat2. rewrite <-(mv_world _ _ Hmv2).
  destruct Ha as [(o' & Hput & ->)|[Hr ->]].
  2: { destruct r; [done|]. split; [apply fine_refl, Hat2|apply settles_ret, Hat2]. }
  destruct (put_fine s2 p w (parquet_bytes file) file o') as [Hf Hst];
    [apply Hat2|by rewrite <-(aw_next _ Hat2)|apply parquet_roundtrip|by rewrite (aw_rows _ Hat2)|done|].
  rewrite (aw_rows _ Hat2) in Hst. split; [done|].
  destruct r as [u|e]; [|apply settles_ret, Hf].
  assert (at_window (set_objects s2 o')) as Hat3 by (destruct Hat2; split; [apply Hf|done..]).
  apply settles_read; [apply Hf|done|]. intros s4 _ Hmv4 _.
  pose proof (at_moved _ _ Hat3 Hmv4) as Hat4.
  change (nd_world s2) with (nd_world (set_objects s2 o')). rewrite <-(mv_world _ _ Hmv4).
  apply settles_once; [apply Hat4|by intros []|]. intros s5 Hmv5 r s6 Ha.
  pose proof (at_moved _ _ Hat4 Hmv5) as Hat5. rewrite <-(mv_world _ _ Hmv5).
  destruct (commit_settled s5 r s6 Hat5) as (Hf6 & Hat6 & Hm6); [|done|].
  { intros x Hx. destruct (Hst x Hx) as (d & fl & Ho & ?). exists d, fl. split; [|done].
    by rewrite (mv_objects _ _ Hmv5), (mv_objects _ _ Hmv4). }
  split; [done|].
  assert (wb_complete_through_ms (ledger s5) p = wb_complete_through_ms (ledger s6) p) as Hct.
  { destruct r as [[]|]; cbn [node_answers] in Ha; naive_solver. }
  rewrite Hct. destruct r as [[]|e]; [| | |apply settles_ret, Hat6].
  all: apply settles_read; [apply Hat6|done|]; intros s7 _ Hmv7 _; pose proof (at_moved _ _ Hat6 Hmv7) as Hat7;
    rewrite <-?(mv_world _ _ Hmv7).
  - apply settles_bind; [apply finish_committed_settles; [apply Hat7|by rewrite (mv_world _ _ Hmv7); apply Hm6|apply Hat7]|].
    intros s' [wm|e] Hb' _; by apply settles_ret.
  - by apply reconcile_settles.
  - by apply reconcile_settles.
Qed.

End attempt.

Lemma drain_window_settles s p w :
  base s → frozen (nd_front s) (log_window p w) →
  settles s (drain_window OTLP_LOGS_DATASET p w otlp_logs_drain_plan).
Proof.
  intros Hb Hc. apply settles_read; [done|done|]. intros s1 r Hmv (? & [-> _] & _).
  pose proof (mv_fine _ _ Hmv) as [Hb1 _ Hcl1]. specialize (Hcl1 _ Hc).
  destruct (w <? _)%N eqn:Hlt; bool_tests; [by apply finish_recorded_settles|].
  destruct (_ <? w)%N eqn:Hgt; bool_tests; [by apply settles_ret|].
  assert (w = wb_next_window (ledger s1) p) as Hn by lia. clear Hlt Hgt.
  apply settles_read; [done|done|]. intros s2 r Hmv2 (? & [-> _] & _). rewrite (mv_world _ _ Hmv2).
  apply settles_do; [apply Hmv2|]. intros s3 seen Hmv3 Hsaw r s4 Ha.
  pose proof (fine_trans _ _ _ (mv_fine _ _ Hmv2) (mv_fine _ _ Hmv3)) as [Hb3 _ Hcl3]. specialize (Hcl3 _ Hcl1).
  assert (Forall (saw_window s3 (log_window p w)) seen) as Hsees
    by (eapply saw_frozen; [exact Hmv3|exact Hsaw|]; by apply (fi_frozen _ _ (mv_fine _ _ Hmv2))).
  destruct (seal_now s3 seen p w r s4 Hsees Ha) as [(e & -> & ->)|(file & -> & Hfile & ->)].
  { split; [by apply fine_refl|by apply settles_ret]. }
  set (rows := window_rows s3 (log_window p w)) in *.
  match goal with |- fine s3 ?s' ∧ _ => set (s5 := s') end.
  assert (fine s3 s5) as Hf5 by by apply set_scratch_fine. split; [done|].
  assert (nd_world s5 = nd_world s1) as Hw5
    by (by change (nd_world s5) with (nd_world s3); rewrite (mv_world _ _ Hmv3), (mv_world _ _ Hmv2)).
  apply settles_read; [apply Hf5|done|]. intros s6 _ Hmv6 _.
  apply settles_read; [apply Hmv6|done|]. intros s7 r Hmv7 (? & [-> _] & _).
  assert (nd_world s7 = nd_world s1) as Hw7 by by rewrite (mv_world _ _ Hmv7), (mv_world _ _ Hmv6).
  assert (frozen (nd_front s6) (log_window p w)) as Hcl6 by by apply (fi_frozen _ _ (mv_fine _ _ Hmv6)).
  fold (manifest_for p w rows). rewrite Hw7.
  destruct (wb_advance_for (ledger s1) (manifest_for p w rows)) as [pv|e] eqn:Hadv.
  - rewrite <-Hw7. apply (put_and_commit_settles p w rows pv s7 file); [|done|].
    + split; rewrite ?Hw7; [apply Hmv7|by apply (fi_frozen _ _ (mv_fine _ _ Hmv7))| |done|done].
      by rewrite (mv_rows _ _ Hmv7), (mv_rows _ _ Hmv6).
    + rewrite (mv_scratch _ _ Hmv7), (mv_scratch _ _ Hmv6). apply lookup_insert_eq.
  - rewrite (advance_err_ahead (nd_world s1) (manifest_for p w rows) e); [apply settles_ret, Hmv7| |done].
    simpl. lia.
Qed.

(** ** The drain pass *)

Lemma drain_each_settles s ws report stalled :
  base s → (∀ x, x ∈ ws → frozen (nd_front s) (dw_dataset x, dw_partition x, dw_window x)) →
  settles s (drain_each ws report stalled).
Proof.
  revert s report stalled. induction ws as [|x ws IH]; intros s report stalled Hb Hws; cbn [drain_each]; [by apply settles_ret|].
  assert (∀ y, y ∈ ws → frozen (nd_front s) (dw_dataset y, dw_partition y, dw_window y)) as Hws'
    by (intros y Hy; apply Hws; by right).
  unfold drain_plan_for. case_bool_decide as Hd; [|by apply IH].
  apply settles_bind.
  - rewrite Hd. apply drain_window_settles; [done|]. rewrite <-Hd. apply Hws. by left.
  - intros s' r Hb' Hcl. destruct (tally r report stalled) as [report' stalled']. apply IH; [done|].
    intros y Hy. by apply Hcl, Hws'.
Qed.

(** Every window the surface offers was noted as closed, when it says. *)
Lemma drainable_noted (s : Node) st closes x :
  nd_hot s = HotUp st closes → x ∈ drainable_blocking (st_engine st) closes →
  noted (nd_front s) (dw_dataset x, dw_partition x, dw_window x) (dw_closed_at_ms x).
Proof.
  intros Eh. unfold drainable_blocking. rewrite list_elem_of_omap. intros (v & _ & (z & Hz & ->)%fmap_Some_1).
  by exists st, closes.
Qed.

Lemma drain_once_settles s : base s → settles s (drain_once config).
Proof.
  intros Hb. unfold drain_once, eligible_windows. cbn [bind].
  apply settles_read; [done|done|]. intros s1 r Hmv [_ Hr].
  pose proof (fi_base _ _ (mv_fine _ _ Hmv)) as Hb1.
  destruct (nd_hot s1) as [st closes|] eqn:Eh; [|done]. subst r. cbn [bind].
  apply settles_read; [done|done|]. intros s2 now Hmv2 [_ ->]. cbn [bind].
  apply drain_each_settles; [apply Hmv2|]. intros x Hx. unfold eligible in Hx.
  apply elem_of_filter_bool in Hx as [Hx He].
  eapply (hold_frozen config); [apply (ba_front _ (fi_base _ _ (mv_fine _ _ Hmv2)))| |done].
  apply (mv_noted _ _ Hmv2). by eapply drainable_noted.
Qed.

(** ** The node *)

Definition node_ok (st : Node * task) : Prop :=
  base st.1 ∧
  match st.2 with
  | Some (p, seen) => ∃ s, base s ∧ reading s seen st.1 ∧ always (λ _ _, True) s p
  | None => True
  end.

Lemma initial_ok s : initial s → node_ok (s, None).
Proof.
  intros (Hh & Hc & Hw). unfold nd_hot in Hh. split; [|done]. simpl. split; rewrite ?Hw; simpl; try by intros ? ?%elem_of_nil.
  - split; [|done|rewrite Hc; by intros ?????? _ ?%elem_of_nil|unfold prompt; by rewrite Hc].
    rewrite Hh. split; [apply hot_empty_ok| |done|done]. intros dp h. simpl. by rewrite lookup_empty.
  - apply wb_new_good.
  - by intros ? ? ?%elem_of_nil.
  - intros p k Hk. rewrite wb_new_next in Hk. lia.
  - intros p _. by rewrite wb_new_complete.
  - exists wb_new. split; [constructor|]. intros p. unfold caught_up. rewrite Hw. simpl.
    split; [done|]. by intros ? ?%elem_of_nil.
Qed.

(** The bookkeeping of the lake's history, read at a partition. *)
Lemma caught_up_reads s l p :
  base s → caught_up s l p →
  w_rows (nd_world s) !! p = wb_complete_through_ms l p ∧
  (∀ m, m ∈ lake s → m_partition m = p →
    wb_recorded_coverage l p (m_window_id m) = Some (m_origin_coverage m)) ∧
  ∀ k, (k < wb_next_window l p)%N → ∃ m, m ∈ lake s ∧ m_partition m = p ∧ m_window_id m = k.
Proof.
  intros Hb [Hnone Hpend]. pose proof Hb as [_ Hg Hman Hset _ Hbel Hrows _].
  destruct (Exists_dec (λ m, m_partition m = p ∧ m_window_id m = wb_next_window (ledger s) p) (lake s))
    as [(m & Hm & <- & Ew)%Exists_exists|Hno].
  - destruct (settled_next _ _ Hb Hm Ew) as (Em & pv & Hadv & Hrow). rewrite wb_preview in Hadv.
    destruct (Hman m Hm) as (_ & _ & Hty & _).
    destruct (wb_recorded _ _ _ Hg Hty Hadv) as (_ & Hnext & Hcov & Hpv).
    destruct (wb_at_reads _ _ _ (Hpend m Hm eq_refl Ew)) as (-> & -> & Hrd). split_and!.
    + rewrite Hrow, Hpv. by destruct (wb_complete_through_ms _ _).
    + intros m' Hm' Ep. rewrite Hrd. destruct (Hset m' Hm') as [Hr|(Ew' & Em' & _)].
      * rewrite Ep in Hr. by apply wb_stable.
      * assert (m' = m) as ->; [|done]. rewrite Em', Em. unfold log_key. simpl. congruence.
    + intros k Hk. rewrite Hnext in Hk. destruct (decide (k = m_window_id m)) as [->|]; [by exists m|].
      apply Hbel. lia.
  - rewrite <-Forall_Exists_neg, Forall_forall in Hno.
    assert (∀ m, m ∈ lake s → m_partition m = p → (m_window_id m < wb_next_window (ledger s) p)%N) as Hlt.
    { intros m Hm Ep. pose proof (lake_upto_next _ _ Hb Hm). specialize (Hno m Hm). rewrite Ep in *.
      destruct (decide (m_window_id m = wb_next_window (ledger s) p)); [tauto|lia]. }
    destruct (wb_at_reads _ _ _ (Hnone Hlt)) as (-> & -> & Hrd). split_and!; [by apply Hrows| |by apply Hbel].
    intros m Hm Ep. rewrite Hrd, <-Ep. apply settled_below; [done..|]. rewrite Ep. by apply Hlt.
Qed.

(** Every manifest of a history is recorded, and its windows are distinct. *)
Lemma history_good lake l : wb_history wb_new lake l → wb_good l.
Proof. induction 1; [apply wb_new_good|by apply wb_good_record]. Qed.

Lemma history_once lake l :
  wb_history wb_new lake l → NoDup ((λ m, (m_partition m, m_window_id m)) <$> lake) ∧
  ∀ m, m ∈ lake → (m_window_id m < wb_next_window l (m_partition m))%N.
Proof.
  induction 1 as [|lake l m row Hh [IH Hlt] Hty Hok]; [split; [constructor|by intros ? ?%elem_of_nil]|].
  destruct (wb_recorded _ _ _ (history_good _ _ Hh) Hty Hok) as (Hw & Hnext & _ & _). split.
  - csimpl. apply NoDup_cons. split; [|done]. intros (m' & [= Ep Ew] & Hm')%list_elem_of_fmap.
    specialize (Hlt m' Hm'). rewrite <-Ep, <-Ew in Hlt. lia.
  - intros m' [->|Hm']%elem_of_cons; [lia|]. specialize (Hlt m' Hm').
    destruct (decide (m_partition m' = m_partition m)) as [E|Hne]; [rewrite E in *; lia|].
    by destruct (wb_other l m _ Hne) as [_ ->].
Qed.

(** Rebuilding from the lake succeeds, and the bookkeeping agrees with the lake. *)
Lemma rebuild_synced s ms :
  base s → ms ≡ₚ lake s → ∃ l, wb_rebuild ms = Some l ∧ synced (with_ledger (nd_world s) l).
Proof.
  intros Hb Hms. destruct (ba_history _ Hb) as (l & Hl & Hup). exists l.
  split; [by eapply wb_rebuild_history|]. split; simpl.
  - by eapply history_good.
  - intros p. by apply caught_up_reads.
  - intros m Hm. by apply (caught_up_reads s l (m_partition m) Hb (Hup _)).
  - intros p. by apply caught_up_reads.
  - by eapply history_once.
Qed.

(** The bookkeeping after a boot is ahead of the one before the crash. *)
Lemma boot_fine s ms l :
  base s → ms ≡ₚ lake s → wb_rebuild ms = Some l → fine s (set_world s (with_ledger (nd_world s) l)).
Proof.
  intros Hb Hms Hre. destruct (rebuild_synced s ms Hb Hms) as (l' & Hre' & [Hg Hrows Hrec Hreg _]).
  simplify_eq. simpl in *.
  assert (∀ m, m ∈ lake s → (m_window_id m < wb_next_window l (m_partition m))%N) as Hlt
    by (intros m Hm; apply wb_dense; [done|]; by rewrite (Hrec m Hm)).
  split; [|intros k r [?|(Hd & Hk & Hin)]; [by left|right; split_and!; [done| |done]]|done].
  - destruct (ba_history _ Hb) as (l' & Hl & _).
    rewrite (wb_rebuild_history _ _ _ Hl Hms) in Hre. injection Hre as ->.
    destruct Hb as [Hhot _ Hman _ Hst _ _ _]. split; simpl; try done.
    + intros m Hm. left. by apply Hrec.
    + exists l. split; [done|]. intros p. unfold caught_up. simpl. split; [done|].
      intros m Hm <- Ew. specialize (Hlt m Hm). lia.
  - destruct (ba_below _ Hb _ _ Hk) as (m & Hm & Ep & Ew). simpl. rewrite <-Ep, <-Ew. by apply Hlt.
Qed.

(** Opening and closing the hot store leaves its tables as they are. *)
Lemma same_tables_fine s f :
  base s → front_inv config f → db_window_hw (hot_db (fr_hot f)) = db_window_hw (db s) →
  db_tables (hot_db (fr_hot f)) = db_tables (db s) → fr_calls f = [] → fine s (set_front s f).
Proof.
  intros Hb Hf Ehw Et Ec. apply rolls_fine; [done|done|]. apply rolls_same; [done|done|].
  rewrite Ec. by intros c ?%elem_of_nil.
Qed.

(** The database of a store that was up is fit to be opened. *)
Lemma down_inv st closes : hot_inv (HotUp st closes) → hot_inv (HotDown (en_db (st_engine st))).
Proof. intros Hinv. split; simpl; [apply (hi_ok _ Hinv)|by apply (hi_hw _ Hinv)|done|done]. Qed.

(** A front without calls. *)
Lemma idle_inv h now : hot_inv h → front_inv config {| fr_hot := h; fr_calls := []; fr_clock := now |}.
Proof. intros Hh. split; simpl; [done|done|by intros ?????? _ ?%elem_of_nil|done]. Qed.

Lemma crash_fine s st closes :
  base s → nd_hot s = HotUp st closes → fine s (set_down s (en_db (st_engine st))).
Proof.
  intros Hb Eh. pose proof (fv_hot _ _ (ba_front _ Hb)) as Hinv.
  change (fr_hot (nd_front s)) with (nd_hot s) in Hinv. rewrite Eh in Hinv.
  apply same_tables_fine; simpl; [done|by eapply idle_inv, down_inv|by rewrite Eh..|done].
Qed.

(** What is opened, or fails to open, is the hot store as it was. *)
Lemma open_fine s d mkdir fsync o r d' :
  base s → nd_hot s = HotDown d → open mkdir fsync o d = (r, d') →
  fine s (set_down s d') ∧ ∀ e, r = Ok e → fine s (set_hot s (HotUp (stager_new e) ∅)).
Proof.
  intros Hb Eh Ho. pose proof (fv_hot _ _ (ba_front _ Hb)) as Hinv.
  change (fr_hot (nd_front s)) with (nd_hot s) in Hinv. rewrite Eh in Hinv.
  destruct (open_inv _ _ _ _ _ _ Hinv Ho) as (Hinv' & Ehw & Et & Hdb).
  assert (db s = d) as Ed by by rewrite Eh.
  assert (fr_calls (nd_front s) = []) as Ec by by apply (fv_down _ _ (ba_front _ Hb) d). split.
  - apply same_tables_fine; simpl; [done| |by rewrite Ed..|done]. apply idle_inv.
    destruct r as [e|err]; [|done]. rewrite <-(Hdb e eq_refl). by apply (down_inv (stager_new e) ∅).
  - intros e ->. specialize (Hdb e eq_refl).
    assert (with_hot (nd_front s) (HotUp (stager_new e) ∅) =
      {| fr_hot := HotUp (stager_new e) ∅; fr_calls := []; fr_clock := fr_clock (nd_front s) |}) as Ef
      by (unfold with_hot; by rewrite Ec).
    unfold set_hot. rewrite Ef.
    apply same_tables_fine; simpl; [done|by apply idle_inv|by rewrite Ed, Hdb..|done].
Qed.

Lemma node_step_ok st st' :
  node_ok st → prompt_step cfg config st st' → node_ok st' ∧ ∀ k r, safe st.1 k r → safe st'.1 k r.
Proof.
  intros [Hb Ht] [Hstep Hp]. inversion Hstep as [s f t Henv|s hs closes Eh|s c k seen hs closes _ Eh|s c k seen r s' Ha
    |s a seen|s t hs closes Eh|s d mkdir fsync o e d' ms l Eh Ho Hms Hre|s d mkdir fsync o r d' Eh Ho]; subst; simpl in *.
  - assert (env s (set_front s f)) as He by by exists f.
    destruct (env_moved _ _ Hb He) as [[Hb' Hsafe _] _ _ _ _ _]. split; [|done]. split; [done|]. simpl.
    destruct t as [[p seen]|]; [|done]. destruct Ht as (s0 & Hb0 & Hread & Hal). exists s0. split_and!; [done| |done].
    by eapply reading_env.
  - split; [|done]. split; [done|]. exists s. split_and!; [done|constructor|].
    eapply env_always_mono; [|by apply drain_once_settles]. done.
  - destruct Ht as (s0 & Hb0 & Hread & Hal). split; [|done]. split; [done|]. exists s0. split_and!; [done| |done].
    by eapply reading_look.
  - destruct Ht as (s0 & Hb0 & Hread & Hal). destruct (Hal seen s Hread r s' Ha) as [Hf Hk].
    split; [|apply Hf]. split; [apply Hf|]. exists s'. split_and!; [apply Hf|constructor|done].
  - done.
  - pose proof (crash_fine _ _ _ Hb Eh) as Hf. split; [split; [apply Hf|done]|apply Hf].
  - destruct (open_fine _ _ _ _ _ _ _ Hb Eh Ho) as [_ Hf]. specialize (Hf e eq_refl).
    assert (fine (set_hot s (HotUp (stager_new e) ∅)) (set_world (set_hot s (HotUp (stager_new e) ∅))
      (with_ledger (nd_world s) l))) as Hf'
      by exact (boot_fine (set_hot s (HotUp (stager_new e) ∅)) ms l (fi_base _ _ Hf) Hms Hre).
    pose proof (fine_trans _ _ _ Hf Hf') as [? ? ?]. by split.
  - destruct (open_fine _ _ _ _ _ _ _ Hb Eh Ho) as [Hf _]. split; [split; [apply Hf|done]|apply Hf].
Qed.

Lemma node_steps_ok st st' :
  node_ok st → rtc (prompt_step cfg config) st st' →
  node_ok st' ∧ ∀ k r, safe st.1 k r → safe st'.1 k r.
Proof.
  intros Hok Hs. induction Hs as [st|st1 st2 st3 H12 _ IH]; [done|].
  destruct (node_step_ok _ _ Hok H12) as [Hok2 Hs2]. destruct (IH Hok2) as [Hok3 Hs3]. auto.
Qed.

(** C1: no staged row is lost, as long as staging calls are prompt.  Staging calls run side by
    side with each other and with the drain: each is admitted, chooses its window and
    commits in separate steps, and the statements of a seal or a drop see the store
    between them.  Take any run in which window ids do not run out, the wall clock does not go
    back and every call commits before the lateness hold has passed since it chose its window, which is what the drop
    relies on: it counts the residue and drops the window in two statements.  Then once a
    row is staged it is found from then on,
    whatever is staged, sealed, committed, dropped, requeued, crashed or rebooted
    later and whatever the catalog answers or leaves unanswered: it is still in
    its window of the hot store, or its window's part is registered in the lake
    with a coverage that names the row, and the part's object holds the row. *)
Theorem no_staged_row_lost (s0 s s' : Node) (t t' : task) (k : WindowKey) (r : Row) :
  initial s0 → rtc (prompt_step cfg config) (s0, None) (s, t) →
  r ∈ window_rows s k → rtc (prompt_step cfg config) (s, t) (s', t') →
  r ∈ window_rows s' k ∨ in_lake s' k r.
Proof.
  intros Hini Hs Hr Hs'. destruct (node_steps_ok _ _ (initial_ok s0 Hini) Hs) as [Hok _].
  destruct (node_steps_ok _ _ Hok Hs') as [_ Hsafe].
  destruct (Hsafe k r (or_introl Hr)) as [?|(_ & _ & ?)]; auto.
Qed.

End props.
