(* ===== verification/System.v ===== *)
(** * The daemon's system primitives

    Models [crates/duckspout-daemon/src/system.rs]: the duration settings, the
    autodetected defaults and the node's identity.  The files and environment
    variables it reads are functions from names to contents. *)

From Stdlib Require Import Ascii SpecFloat.
From S2P Require Import Prelude RustStd Types.

Open Scope N_scope.

(** ** Durations

    A [Duration] is its length in nanoseconds. *)

Definition Duration : Type := N.

Definition from_secs (secs : N) : Duration := secs * 1000000000.
Definition from_millis (ms : N) : Duration := ms * 1000000.

(** [DurationParseError] *)
Record DurationParseError := { dpe_raw : string }.

(** [u64::saturating_mul] *)
Definition u64_sat_mul (x y : N) : N := N.min (x * y) u64_max.

(** The suffix and its unit in seconds. *)
Definition duration_unit (raw : string) : option (string * N) :=
  match strip_suffix "h" raw with
  | Some digits => Some (digits, 3600)
  | None =>
      match strip_suffix "m" raw with
      | Some digits => Some (digits, 60)
      | None =>
          match strip_suffix "s" raw with
          | Some digits => Some (digits, 1)
          | None => None
          end
      end
  end.

(** [parse_duration] *)
Definition parse_duration (raw : string) : result Duration DurationParseError :=
  match duration_unit raw with
  | None => Err {| dpe_raw := raw |}
  | Some (digits, unit_secs) =>
      match parse_u64 digits with
      | Err _ => Err {| dpe_raw := raw |}
      | Ok count => Ok (from_secs (u64_sat_mul count unit_secs))
      end
  end.

(** [duration_nanos_saturating] *)
Definition duration_nanos_saturating (duration : Duration) : N :=
  if duration <=? u64_max then duration else u64_max.

(** [duration_millis_saturating] *)
Definition duration_millis_saturating (duration : Duration) : Z :=
  let ms := Z.of_N (duration / 1000000) in
  if (ms <=? i64_max)%Z then ms else i64_max.

(** ** Autodetected defaults *)

(** The [std::io::Error]s seen here. *)
Inductive io_error := Unavailable (what : string) | InvalidData (msg : string) | NotFound (msg : string).

(** [std::fs::read_to_string] *)
Definition FileSystem : Type := string → result string io_error.

(** [HOT_MAX_BYTES_VOLUME_FRACTION] and [ADMISSION_MEMORY_BUDGET_FRACTION]: the
    [f64]s nearest [0.75] and [0.10] *)
Definition HOT_MAX_BYTES_VOLUME_FRACTION : spec_float := f64_div (f64_of_u64 75) (f64_of_u64 100).
Definition ADMISSION_MEMORY_BUDGET_FRACTION : spec_float := f64_div (f64_of_u64 10) (f64_of_u64 100).

(** [detect_hot_max_bytes], from what [fs4::total_space] answers. *)
Definition detect_hot_max_bytes (total_space : result N io_error) : result N io_error :=
  let? total := total_space in
  Ok (f64_as_u64 (f64_mul (f64_of_u64 total) HOT_MAX_BYTES_VOLUME_FRACTION)).

(** [str::trim_end_matches] with a pattern of two bytes. *)
Fixpoint trim_end_matches (a b : ascii) (s : string) : string :=
  match s with
  | EmptyString => EmptyString
  | String c s =>
      match trim_end_matches a b s with
      | String d EmptyString => if Ascii.eqb c a && Ascii.eqb d b then EmptyString else String c (String d EmptyString)
      | s => String c s
      end
  end.

(** The loop over the lines of [/proc/meminfo]. *)
Fixpoint mem_total (lines : list string) : option (result N io_error) :=
  match lines with
  | [] => None
  | line :: lines =>
      match strip_prefix "MemTotal:" line with
      | None => mem_total lines
      | Some rest =>
          Some (match parse_u64 (trim (trim_end_matches "k" "B" (trim rest))) with
                | Ok kib => Ok (u64_sat_mul kib 1024)
                | Err _ => Err (InvalidData "unparseable MemTotal")
                end)
      end
  end.

(** The limit of cgroup v2, if there is one. *)
Definition cgroup2_limit (fs : FileSystem) : option N :=
  match fs "/sys/fs/cgroup/memory.max" with
  | Ok raw =>
      if bool_decide (trim raw = "max") then None
      else match parse_u64 (trim raw) with Ok limit => Some limit | Err _ => None end
  | Err _ => None
  end.

(** The limit of cgroup v1, unless it stands for none. *)
Definition cgroup1_limit (fs : FileSystem) : option N :=
  match fs "/sys/fs/cgroup/memory/memory.limit_in_bytes" with
  | Ok raw =>
      match parse_u64 (trim raw) with
      | Ok limit => if limit <? 2 ^ 62 then Some limit else None
      | Err _ => None
      end
  | Err _ => None
  end.

(** [memory_budget_bytes] *)
Definition memory_budget_bytes (fs : FileSystem) : result N io_error :=
  match cgroup2_limit fs with
  | Some limit => Ok limit
  | None =>
      match cgroup1_limit fs with
      | Some limit => Ok limit
      | None =>
          let? meminfo := fs "/proc/meminfo" in
          match mem_total (str_lines meminfo) with
          | Some r => r
          | None => Err (NotFound "no memory budget source readable (cgroup v2, cgroup v1, /proc/meminfo)")
          end
      end
  end.

(** [detect_memory_budget] *)
Definition detect_memory_budget (fs : FileSystem) : result N io_error :=
  let? budget := memory_budget_bytes fs in
  Ok (f64_as_u64 (f64_mul (f64_of_u64 budget) ADMISSION_MEMORY_BUDGET_FRACTION)).

(** ** Identity *)

(** [V01_FIXED_INCARNATION] *)
Definition V01_FIXED_INCARNATION : string := "1".

(** [DUCKSPOUT_NODE_HOSTNAME_OVERRIDE] *)
Definition DUCKSPOUT_NODE_HOSTNAME_OVERRIDE : string := "DUCKSPOUT_NODE_HOSTNAME".

(** [Option::filter] on non-empty strings. *)
Definition non_empty (s : option string) : option string :=
  match s with Some EmptyString | None => None | Some s => Some s end.

Definition or_else (a b : option string) : option string :=
  match a with Some _ => a | None => b end.

(** [detect_node_id]; [env] is [std::env::var]. *)
Definition detect_node_id (env : string → option string) (fs : FileSystem) (incarnation : string) : NodeId :=
  let kernel :=
    match fs "/proc/sys/kernel/hostname" with Ok s => non_empty (Some (trim s)) | Err _ => None end in
  let host :=
    default "duckspout-node"
      (non_empty (or_else (or_else (non_empty (env DUCKSPOUT_NODE_HOSTNAME_OVERRIDE)) kernel) (env "HOSTNAME"))) in
  host +:+ "/" +:+ incarnation.

(** ** Properties *)

Lemma strip_suffix_app (c : ascii) s : strip_suffix c (s +:+ String c "") = Some s.
Proof.
  induction s as [|d s IH]; simpl; [by rewrite Ascii.eqb_refl|].
  change (String.append s (String c "")) with (s +:+ String c "").
  destruct (s +:+ String c "") eqn:E; [by destruct s|]. by rewrite IH.
Qed.

Lemma strip_suffix_Some (c : ascii) s d : strip_suffix c s = Some d → s = d +:+ String c "".
Proof.
  revert d. induction s as [|x s IH]; intros d; [done|]. destruct s as [|y s].
  - simpl. destruct (Ascii.eqb_spec c x); [|done]. by intros [= <-]; subst.
  - intros (d' & Hd & ->)%fmap_Some_1. by rewrite (IH d' Hd) at 1.
Qed.

Lemma strip_suffix_ne (c c' : ascii) s : c ≠ c' → strip_suffix c (s +:+ String c' "") = None.
Proof.
  intros Hne. destruct (strip_suffix c _) as [d|] eqn:E; [exfalso|done].
  apply strip_suffix_Some in E. revert d E. induction s as [|x s IH]; intros d E.
  - destruct d as [|y [|z d]]; by simplify_eq/=.
  - destruct d as [|y d]; [destruct s; by simplify_eq/=|]. injection E as _ E. by apply (IH d).
Qed.

(** The three documented units. *)
Definition unit_secs (c : ascii) : option N :=
  if Ascii.eqb c "s" then Some 1 else if Ascii.eqb c "m" then Some 60
  else if Ascii.eqb c "h" then Some 3600 else None.

(** [parse_duration] accepts exactly a [u64] followed by one of the units, and its
    value is the product, saturated; a number rendered with a unit is read back. *)
Theorem parse_duration_exact (raw : string) (d : Duration) :
  parse_duration raw = Ok d ↔
  ∃ digits c n unit, raw = digits +:+ String c "" ∧ unit_secs c = Some unit ∧
    parse_u64 digits = Ok n ∧ d = from_secs (u64_sat_mul n unit).
Proof.
  unfold parse_duration, duration_unit. split.
  - assert (∀ c s n u, strip_suffix c raw = Some s → unit_secs c = Some u → parse_u64 s = Ok n →
      ∃ digits c n' unit, raw = digits +:+ String c "" ∧ unit_secs c = Some unit ∧ parse_u64 digits = Ok n' ∧
        from_secs (u64_sat_mul n u) = from_secs (u64_sat_mul n' unit)) as Hex.
    { intros c s n u Hs%strip_suffix_Some ? ?. by exists s, c, n, u. }
    intros Hp. repeat case_match; simplify_eq; by eapply Hex.
  - intros (digits & c & n & unit & -> & Hu & Hn & ->). unfold unit_secs in Hu.
    destruct (Ascii.eqb_spec c "s") as [->|]; [|destruct (Ascii.eqb_spec c "m") as [->|];
      [|destruct (Ascii.eqb_spec c "h") as [->|]; [|done]]]; injection Hu as <-.
    + by rewrite !strip_suffix_ne, strip_suffix_app, Hn by done.
    + by rewrite strip_suffix_ne, strip_suffix_app, Hn by done.
    + by rewrite strip_suffix_app, Hn.
Qed.

Lemma parse_duration_unit (n unit : N) (c : ascii) :
  is_u64 n → unit_secs c = Some unit →
  parse_duration (pretty n +:+ String c "") = Ok (from_secs (u64_sat_mul n unit)).
Proof.
  intros Hn Hu. apply parse_duration_exact. exists (pretty n), c, n, unit. by rewrite parse_pretty.
Qed.

(** The conversions are total and never wrap. *)
Lemma duration_nanos_bound d : is_u64 (duration_nanos_saturating d) ∧
  (is_u64 d → duration_nanos_saturating d = d).
Proof. unfold duration_nanos_saturating, is_u64. case_match; bool_tests; split; lia. Qed.

Lemma duration_millis_bound d : is_i64 (duration_millis_saturating d).
Proof.
  unfold duration_millis_saturating, is_i64. pose proof (N2Z.is_nonneg (d / 1000000)).
  assert (i64_min ≤ 0 ≤ i64_max)%Z by done. case_match; bool_tests; lia.
Qed.

(** The node's identity is a host that is not empty, and the incarnation. *)
Theorem node_id_shape (env : string → option string) (fs : FileSystem) (incarnation : string) :
  ∃ host, host ≠ "" ∧ detect_node_id env fs incarnation = host +:+ "/" +:+ incarnation.
Proof.
  unfold detect_node_id. eexists. split; [|done]. destruct (non_empty _) as [h|] eqn:E; [|done].
  simpl. intros ->. by destruct (or_else _ _) as [[]|].
Qed.

(** * The daemon's configuration surface

    Models [crates/duckspout-daemon/src/config.rs] and [manifest.rs]: the
    settings, their defaults, and the manifest that lists them.  Reading TOML and
    the environment is the work of the [config] crate and of serde. *)

Open Scope N_scope.

Inductive TlsMode := Mutual | ServerOnly | Disabled.
Inductive ZoneAware := Auto | On | Off.

(** ** The sections *)

Record NodeConfig := {
  nc_data_dir : string;
  nc_otlp_listen : N;
  nc_flight_listen : N;
  nc_peer_listen : N;
  nc_advertise_addr : option string;
  nc_failure_domain : option string;
}.

Record ClusterConfig := { cc_rf : N; cc_zone_aware : ZoneAware; cc_seed_peers : list string }.
Record CatalogConfig := { ca_dsn : string; ca_password_file : string }.
Record TlsConfig := { tc_mode : TlsMode; tc_cert : string; tc_key : string; tc_ca : string }.

Record LakeConfig := {
  lk_committer : string;
  lk_uri : string;
  lk_s3_endpoint : option string;
  lk_s3_region : string;
  lk_s3_access_key_id : option string;
  lk_s3_secret_access_key_file : option string;
}.

Record HotConfig := { hc_window : string; hc_max_bytes : option N }.
Record DrainConfig := { dr_max_age : string; dr_part_target_bytes : N; dr_allowed_lateness : string }.
Record ReplicationConfig := { rp_receipt_timeout : string }.
Record AdmissionConfig := { ad_max_inflight_bytes : option N }.
Record DedupConfig := { dd_window_ttl : string; dd_window_max_entries : N; dd_log_identity : bool }.

Record QueryConfig := {
  qc_max_hot_bytes_per_query : option N;
  qc_hot_scan_deadline : string;
  qc_max_concurrent_hot_scans : N;
}.

Record DaemonConfig := {
  dc_node : NodeConfig;
  dc_cluster : ClusterConfig;
  dc_catalog : CatalogConfig;
  dc_tls : TlsConfig;
  dc_lake : LakeConfig;
  dc_hot : HotConfig;
  dc_drain : DrainConfig;
  dc_replication : ReplicationConfig;
  dc_admission : AdmissionConfig;
  dc_dedup : DedupConfig;
  dc_query : QueryConfig;
  dc_max_payload_bytes : N;
  dc_max_auto_columns : N;
}.

(** ** The defaults *)

Module defaults.
Definition otlp_listen : N := 4317.
Definition flight_listen : N := 8815.
Definition peer_listen : N := 7946.
Definition rf : N := 2.
Definition lake_committer : string := "ducklake".
Definition lake_s3_region : string := "us-east-1".
Definition hot_window : string := "60s".
Definition drain_max_age : string := "30m".
Definition part_target_bytes : N := 384 * 1024 * 1024.
Definition allowed_lateness : string := "15m".
Definition receipt_timeout : string := "5s".
Definition dedup_window_ttl : string := "24h".
Definition dedup_window_max_entries : N := 100000.
Definition hot_scan_deadline : string := "30s".
Definition max_concurrent_hot_scans : N := 8.
Definition max_hot_bytes_per_query : N := 2 * 1024 * 1024 * 1024.
Definition max_payload_bytes : N := 4 * 1024 * 1024.
Definition max_auto_columns : N := 1024.
End defaults.

Definition ClusterConfig_default : ClusterConfig :=
  {| cc_rf := defaults.rf; cc_zone_aware := Auto; cc_seed_peers := [] |}.
Definition HotConfig_default : HotConfig := {| hc_window := defaults.hot_window; hc_max_bytes := None |}.
Definition DrainConfig_default : DrainConfig :=
  {| dr_max_age := defaults.drain_max_age; dr_part_target_bytes := defaults.part_target_bytes;
     dr_allowed_lateness := defaults.allowed_lateness |}.
Definition ReplicationConfig_default : ReplicationConfig :=
  {| rp_receipt_timeout := defaults.receipt_timeout |}.
Definition DedupConfig_default : DedupConfig :=
  {| dd_window_ttl := defaults.dedup_window_ttl;
     dd_window_max_entries := defaults.dedup_window_max_entries; dd_log_identity := false |}.
Definition QueryConfig_default : QueryConfig :=
  {| qc_max_hot_bytes_per_query := None; qc_hot_scan_deadline := defaults.hot_scan_deadline;
     qc_max_concurrent_hot_scans := defaults.max_concurrent_hot_scans |}.

(** ** The manifest of the surface *)

Record SettingSpec := {
  ss_name : string;
  ss_value_type : string;
  ss_default : string;
  ss_since : string;
}.

Definition SINCE_SEED : string := "0.0.1".

Definition spec (name value_type default : string) : SettingSpec :=
  {| ss_name := name; ss_value_type := value_type; ss_default := default; ss_since := SINCE_SEED |}.

(** [settings] *)
Definition settings : list SettingSpec :=
  [ spec "node.data_dir" "path" "(required)";
    spec "node.otlp_listen" "port" (pretty defaults.otlp_listen);
    spec "node.flight_listen" "port" (pretty defaults.flight_listen);
    spec "node.peer_listen" "port" (pretty defaults.peer_listen);
    spec "node.advertise_addr" "string" "first non-loopback interface, with the listen ports";
    spec "node.failure_domain" "string" "zone label / config";
    spec "cluster.rf" "u16" (pretty defaults.rf);
    spec "cluster.zone_aware" "enum(auto|on|off)" "auto";
    spec "cluster.seed_peers" "list<string>" "[]";
    spec "catalog.dsn" "string" "(required)";
    spec "catalog.password_file" "path" "(required)";
    spec "tls.mode" "enum(mutual|server_only|disabled)" "(required, no default)";
    spec "tls.cert" "path" "(required, no default)";
    spec "tls.key" "path" "(required, no default)";
    spec "tls.ca" "path" "(required, no default)";
    spec "lake.committer" "string" defaults.lake_committer;
    spec "lake.uri" "string" "(required)";
    spec "lake.s3_endpoint" "string" "none (lake.uri is a local filesystem path)";
    spec "lake.s3_region" "string" defaults.lake_s3_region;
    spec "lake.s3_access_key_id" "string" "none (required when lake.s3_endpoint is set)";
    spec "lake.s3_secret_access_key_file" "path" "none (required when lake.s3_endpoint is set)";
    spec "hot.window" "duration" defaults.hot_window;
    spec "hot.max_bytes" "bytes" "75% of volume at startup";
    spec "drain.max_age" "duration" defaults.drain_max_age;
    spec "drain.part_target_bytes" "bytes" (pretty defaults.part_target_bytes);
    spec "drain.allowed_lateness" "duration" defaults.allowed_lateness;
    spec "replication.receipt_timeout" "duration" defaults.receipt_timeout;
    spec "admission.max_inflight_bytes" "bytes" "10% of the memory budget (cgroup limit, else system RAM)";
    spec "max_payload_bytes" "bytes" (pretty defaults.max_payload_bytes);
    spec "dedup.window_ttl" "duration" defaults.dedup_window_ttl;
    spec "dedup.window_max_entries" "u64" (pretty defaults.dedup_window_max_entries);
    spec "dedup.log_identity" "bool" "off";
    spec "max_auto_columns" "u32" (pretty defaults.max_auto_columns);
    spec "query.max_hot_bytes_per_query" "bytes" "2 GiB/node, fill-scaled";
    spec "query.hot_scan_deadline" "duration" defaults.hot_scan_deadline;
    spec "query.max_concurrent_hot_scans" "u32" (pretty defaults.max_concurrent_hot_scans) ].

(** ** Properties *)

(** The ratchet counts 36 settings with distinct names, and every default of a
    duration setting is one [parse_duration] accepts. *)
Theorem settings_well_formed :
  length settings = 36%nat ∧ NoDup (ss_name <$> settings) ∧
  Forall (λ s, ss_value_type s = "duration" → is_ok (parse_duration (ss_default s)) = true) settings.
Proof.
  split; [done|]. split; [apply (bool_decide_unpack (NoDup (ss_name <$> settings))); by vm_compute|].
  repeat (apply Forall_cons; split; [try (by intros [=]); intros _; by vm_compute|]). constructor.
Qed.
