(* ===== verification/Otlp.v ===== *)
(** * The OTLP logs adapter

    Models [crates/duckspout-accept/src/otlp.rs]: tenant validation, the
    flattening of a logs export into the columns of the fixed schema with its
    count of ignored string-interning references, and the error table.  The
    messages are the records prost decodes; prost, Arrow's IPC writer and the
    text [serde_json] renders a value to are parameters.  The text of a
    rejection is not modelled: a rejection carries the rule it names. *)

From Stdlib Require Import Ascii SpecFloat.
From Stdlib Require Import Ascii.
From S2P Require Import Prelude Types Overload Ports Naming Engine Stager Daemon.

(** ** The messages of [opentelemetry-proto] *)

(** [AnyValue], its oneof [any_value::Value], and [KeyValue]. *)
Inductive AnyValue := MkAnyValue (value : option PbValue)
with PbValue :=
| StringValue (s : string)
| BoolValue (b : bool)
| IntValue (i : Z)
| DoubleValue (d : spec_float)
| ArrayValue (values : list AnyValue)
| KvlistValue (values : list KeyValue)
| BytesValue (bytes : Bytes)
| StringValueStrindex (index : Z)
with KeyValue := MkKeyValue (key : string) (value : option AnyValue) (key_strindex : Z).

(** [LogRecord] *)
Record LogRecord := {
  lr_time_unix_nano : N;
  lr_observed_time_unix_nano : N;
  lr_severity_number : Z;
  lr_severity_text : string;
  lr_body : option AnyValue;
  lr_attributes : list KeyValue;
  lr_dropped_attributes_count : N;
  lr_flags : N;
  lr_trace_id : Bytes;
  lr_span_id : Bytes;
  lr_event_name : string;
}.

Record InstrumentationScope := { is_name : string; is_version : string }.
Record ScopeLogs := { sl_scope : option InstrumentationScope; sl_log_records : list LogRecord }.
(** A resource is its attributes. *)
Record ResourceLogs := { rl_resource : option (list KeyValue); rl_scope_logs : list ScopeLogs }.
(** [ExportLogsServiceRequest]: its field [resource_logs]. *)
Abbreviation ExportLogsServiceRequest := (list ResourceLogs) (only parsing).

(** ** JSON values

    [serde_json::Value]; its map is a [BTreeMap]. *)
Inductive Json :=
| JNull
| JBool (b : bool)
| JInt (i : Z)
| JFloat (d : spec_float)
| JString (s : string)
| JArray (values : list Json)
| JObject (fields : gmap string Json).

(** ** Constants *)

Definition ANONYMOUS_TENANT : TenantId := "anonymous".
Definition TENANT_MAX_LEN : nat := 150.

(** [AcceptError], with the rule a tenant violates. *)
Inductive TenantFault :=
| TenantLength (len : nat)
| TenantChar (bad : ascii)
| TenantReserved.

Inductive AcceptError :=
| Malformed (msg : string)
| InvalidTenant (fault : TenantFault).

(** [char::is_ascii_alphanumeric], or one of ['.' | '_' | '-'] *)
Definition tenant_char (c : ascii) : bool :=
  let n := N_of_ascii c in
  ((48 <=? n) && (n <=? 57) || (65 <=? n) && (n <=? 90) || (97 <=? n) && (n <=? 122) ||
   (n =? 46) || (n =? 95) || (n =? 45))%N.

(** [tenant_from_header] *)
Definition tenant_from_header (header : option string) : result TenantId AcceptError :=
  match header with
  | None => Ok ANONYMOUS_TENANT
  | Some raw =>
      if (String.length raw =? 0)%nat || (TENANT_MAX_LEN <? String.length raw)%nat
      then Err (InvalidTenant (TenantLength (String.length raw)))
      else match find (λ c, negb (tenant_char c)) (String.list_ascii_of_string raw) with
           | Some bad => Err (InvalidTenant (TenantChar bad))
           | None =>
               if String.prefix "_" raw then Err (InvalidTenant TenantReserved) else Ok raw
           end
  end.

(** ** The fixed schema *)

Definition logs_schema : list Field :=
  let field name ty nullable := {| f_name := name; f_type := ty; f_nullable := nullable |} in
  let ts name nullable := field name (TTimestamp Microsecond None) nullable in
  [ ts "ts" false; ts "observed_ts" true; field "severity_number" TInt32 false;
    field "severity_text" TUtf8 true; field "body" TUtf8 true; field "attrs" TUtf8 false;
    field "resource_attrs" TUtf8 false; field "scope_name" TUtf8 true;
    field "scope_version" TUtf8 true; field "trace_id" TUtf8 true; field "span_id" TUtf8 true;
    field "flags" TUInt32 false; field "event_name" TUtf8 true;
    field "dropped_attributes_count" TUInt32 false ].

(** [LogColumns] *)
Record LogColumns := {
  lc_ts : list Z;
  lc_observed_ts : list (option Z);
  lc_severity_number : list Z;
  lc_severity_text : list (option string);
  lc_body : list (option string);
  lc_attrs : list string;
  lc_resource_attrs : list string;
  lc_scope_name : list (option string);
  lc_scope_version : list (option string);
  lc_trace_id : list (option string);
  lc_span_id : list (option string);
  lc_flags : list N;
  lc_event_name : list (option string);
  lc_dropped_attributes_count : list N;
}.

(** [LogColumns::default] *)
Definition columns_default : LogColumns :=
  {| lc_ts := []; lc_observed_ts := []; lc_severity_number := []; lc_severity_text := [];
     lc_body := []; lc_attrs := []; lc_resource_attrs := []; lc_scope_name := [];
     lc_scope_version := []; lc_trace_id := []; lc_span_id := []; lc_flags := [];
     lc_event_name := []; lc_dropped_attributes_count := [] |}.

(** The libraries the adapter calls: the text of a JSON value, the record batch
    over a schema written as one IPC stream, and prost's decoder and size. *)
Class OtlpLibs := {
  json_to_string : Json → string;
  ipc_stream : list Field → LogColumns → result Bytes string;
  proto_decode : Bytes → result ExportLogsServiceRequest string;
  encoded_len : ExportLogsServiceRequest → N;
}.

(** ** Leaf conversions *)

(** [nanos_to_micros] *)
Definition nanos_to_micros (nanos : N) : Z :=
  let micros := Z.of_N (nanos / 1000) in
  if (micros <=? i64_max)%Z then micros else i64_max.

(** [some_nonempty] *)
Definition some_nonempty (raw : string) : option string :=
  match raw with EmptyString => None | _ => Some raw end.

(** [some_hex] *)
Definition some_hex (bytes : Bytes) : option string :=
  match bytes with EmptyString => None | _ => Some (hex_bytes bytes) end.

(** [serde_json::Number::from_f64]: a number exactly when it is finite. *)
Definition json_of_f64 (d : spec_float) : Json :=
  match d with S754_zero _ | S754_finite _ _ _ => JFloat d | _ => JNull end.

(** ** Values *)

(** A [map] whose function counts. *)
Definition map_counting {A B} (f : A → N → B * N) : list A → N → list B * N :=
  fix go (l : list A) (n : N) :=
    match l with
    | [] => ([], n)
    | x :: l => let '(y, n) := f x n in let '(ys, n) := go l n in (y :: ys, n)
    end.

(** The iteration of [kvs_to_json], with the conversion of a value as argument. *)
Definition kvs_to_json_with (f : AnyValue → N → Json * N) :
    list KeyValue → gmap string Json → N → Json * N :=
  fix go (kvs : list KeyValue) (fields : gmap string Json) (n : N) :=
    match kvs with
    | [] => (JObject fields, n)
    | MkKeyValue key value key_strindex :: kvs =>
        if (key_strindex =? 0)%Z then
          let '(j, n) := match value with None => (JNull, n) | Some v => f v n end in
          go kvs (<[key := j]> fields) n
        else go kvs fields (u64_succ n)
    end.

(** [any_value_to_json]: the value and the count of ignored references after it. *)
Fixpoint any_value_to_json (v : AnyValue) (strindex_ignored : N) : Json * N :=
  match v with
  | MkAnyValue None => (JNull, strindex_ignored)
  | MkAnyValue (Some value) =>
      match value with
      | StringValue s => (JString s, strindex_ignored)
      | BoolValue b => (JBool b, strindex_ignored)
      | IntValue i => (JInt i, strindex_ignored)
      | DoubleValue d => (json_of_f64 d, strindex_ignored)
      | ArrayValue values =>
          let '(js, n) := map_counting any_value_to_json values strindex_ignored in (JArray js, n)
      | KvlistValue values => kvs_to_json_with any_value_to_json values ∅ strindex_ignored
      | BytesValue bytes => (JString (hex_bytes bytes), strindex_ignored)
      | StringValueStrindex _ => (JNull, u64_succ strindex_ignored)
      end
  end.

(** [kvs_to_json] *)
Definition kvs_to_json (kvs : list KeyValue) (strindex_ignored : N) : Json * N :=
  kvs_to_json_with any_value_to_json kvs ∅ strindex_ignored.

Section adapter.
Context `{OtlpLibs}.

(** [body_to_string] *)
Definition body_to_string (body : AnyValue) (strindex_ignored : N) : option string * N :=
  match body with
  | MkAnyValue (Some (StringValue s)) => (Some s, strindex_ignored)
  | MkAnyValue (Some (StringValueStrindex _)) => (None, u64_succ strindex_ignored)
  | MkAnyValue (Some other) =>
      let '(j, n) := any_value_to_json (MkAnyValue (Some other)) strindex_ignored in
      (Some (json_to_string j), n)
  | MkAnyValue None => (None, strindex_ignored)
  end.

(** [LogColumns::push] *)
Definition columns_push (c : LogColumns) (record : LogRecord) (resource_attrs : string)
    (scope_name scope_version : option string) (strindex_ignored : N) : LogColumns * N :=
  let ts_nanos :=
    if (lr_time_unix_nano record =? 0)%N then lr_observed_time_unix_nano record
    else lr_time_unix_nano record in
  let observed :=
    if (lr_observed_time_unix_nano record =? 0)%N then None
    else Some (nanos_to_micros (lr_observed_time_unix_nano record)) in
  let '(body, n) :=
    match lr_body record with
    | None => (None, strindex_ignored)
    | Some b => body_to_string b strindex_ignored
    end in
  let '(attrs, n) := kvs_to_json (lr_attributes record) n in
  ({| lc_ts := lc_ts c ++ [nanos_to_micros ts_nanos];
      lc_observed_ts := lc_observed_ts c ++ [observed];
      lc_severity_number := lc_severity_number c ++ [lr_severity_number record];
      lc_severity_text := lc_severity_text c ++ [some_nonempty (lr_severity_text record)];
      lc_body := lc_body c ++ [body];
      lc_attrs := lc_attrs c ++ [json_to_string attrs];
      lc_resource_attrs := lc_resource_attrs c ++ [resource_attrs];
      lc_scope_name := lc_scope_name c ++ [scope_name];
      lc_scope_version := lc_scope_version c ++ [scope_version];
      lc_trace_id := lc_trace_id c ++ [some_hex (lr_trace_id record)];
      lc_span_id := lc_span_id c ++ [some_hex (lr_span_id record)];
      lc_flags := lc_flags c ++ [lr_flags record];
      lc_event_name := lc_event_name c ++ [some_nonempty (lr_event_name record)];
      lc_dropped_attributes_count :=
        lc_dropped_attributes_count c ++ [lr_dropped_attributes_count record] |}, n).

(** The three loops of [decode_logs], innermost first; [acc] is the columns and
    the count. *)
Definition push_records (resource_attrs : string) (scope_name scope_version : option string)
    (acc : LogColumns * N) (records : list LogRecord) : LogColumns * N :=
  foldl (λ acc record,
           columns_push acc.1 record resource_attrs scope_name scope_version acc.2) acc records.

Definition push_scopes (resource_attrs : string) (acc : LogColumns * N) (scopes : list ScopeLogs) :
    LogColumns * N :=
  foldl (λ acc scope_logs,
           let '(name, version) :=
             match sl_scope scope_logs with
             | None => (None, None)
             | Some s => (some_nonempty (is_name s), some_nonempty (is_version s))
             end in
           push_records resource_attrs name version acc (sl_log_records scope_logs)) acc scopes.

Definition push_resources (acc : LogColumns * N) (request : ExportLogsServiceRequest) :
    LogColumns * N :=
  foldl (λ acc resource_logs,
           let '(resource_attrs, n) :=
             match rl_resource resource_logs with
             | None => ("{}", acc.2)
             | Some attributes =>
                 let '(j, n) := kvs_to_json attributes acc.2 in (json_to_string j, n)
             end in
           push_scopes resource_attrs (acc.1, n) (rl_scope_logs resource_logs)) acc request.

(** [DecodedLogs] *)
Record DecodedLogs := {
  dl_batch : DecodedBatch;
  dl_rows : nat;
  dl_strindex_ignored : N;
}.

(** [OtlpGrpcAdapter::decode_logs] *)
Definition decode_logs (request : ExportLogsServiceRequest) (tenant_header : option string)
    (idempotency_key : option string) : result DecodedLogs AcceptError :=
  let? tenant := tenant_from_header tenant_header in
  let '(columns, strindex_ignored) := push_resources (columns_default, 0%N) request in
  let? records := map_err Malformed (ipc_stream logs_schema columns) in
  Ok {| dl_batch :=
          {| bt_dataset := OTLP_LOGS_DATASET; bt_kind := Event; bt_tenant := tenant;
             bt_idempotency_key := idempotency_key; bt_records := records |};
        dl_rows := length (lc_ts columns);
        dl_strindex_ignored := strindex_ignored |}.

(** [AcceptAdapter::decode] *)
Definition adapter_decode (payload : Bytes) (tenant_header idempotency_key : option string) :
    result DecodedBatch AcceptError :=
  let? message := map_err Malformed (proto_decode payload) in
  let? decoded := decode_logs message tenant_header idempotency_key in
  Ok (dl_batch decoded).

End adapter.

(** [WireError] and [AcceptAdapter::map_error] *)
Record WireError := { we_grpc_code : GrpcCode; we_retry_info : bool }.

Definition map_error (class : OtlpErrorClass) : WireError :=
  {| we_grpc_code := grpc_code class; we_retry_info := carries_retry_info class |}.

(** * What the OTLP adapter decodes

    The column builders of [otlp.rs] thread a counter through nested loops and
    a recursive conversion.  The reference here is written without either: the
    JSON of a value, the rows of a request as a list comprehension, and the
    number of interning references it holds. *)

(** ** Tenants *)

Lemma find_None_Forall {A} (f : A → bool) (l : list A) :
  find f l = None ↔ Forall (λ x, f x = false) l.
Proof.
  induction l as [|x l IH]; simpl; [split; [constructor|done]|].
  rewrite Forall_cons, <-IH. destruct (f x); naive_solver.
Qed.

(** A tenant header is accepted exactly when it has 1 to 150 characters of
    [A-Za-z0-9._-] and does not start with an underscore; it is then the tenant.
    No header is the anonymous tenant. *)
Theorem tenant_accepted_iff (header : option string) (t : TenantId) :
  tenant_from_header header = Ok t ↔
  match header with
  | None => t = ANONYMOUS_TENANT
  | Some raw =>
      t = raw ∧ (1 ≤ String.length raw ≤ 150)%nat ∧
      Forall (λ c, tenant_char c = true) (String.list_ascii_of_string raw) ∧
      String.prefix "_" raw = false
  end.
Proof.
  destruct header as [raw|]; simpl; [|naive_solver]. unfold TENANT_MAX_LEN.
  destruct (_ || _) eqn:E1; bool_tests.
  { split; [done|]. intros (_ & ? & _).
    destruct E1 as [E1%Nat.eqb_eq|E1%Nat.ltb_lt]; lia. }
  match goal with E0 : (_ =? _)%nat = _, E1 : (_ <? _)%nat = _ |- _ =>
    apply Nat.eqb_neq in E0; apply Nat.ltb_ge in E1 end.
  destruct (find _ _) as [bad|] eqn:E2.
  { split; [done|]. intros (_ & _ & Hall & _). exfalso.
    apply find_some in E2 as [Hin Hbad]. rewrite Forall_forall in Hall.
    rewrite Hall in Hbad by by apply list_elem_of_In. done. }
  apply find_None_Forall in E2.
  assert (Forall (λ c, tenant_char c = true) (String.list_ascii_of_string raw)) as Hall.
  { eapply Forall_impl; [exact E2|]. intros c Hc. by apply negb_false_iff. }
  destruct (String.prefix "_" raw); [naive_solver|].
  split; [intros [= <-]|by intros [-> _]]. repeat split; [lia|lia|done].
Qed.

(** ** Values without a counter *)

Definition field_of (f : AnyValue → Json) (kv : KeyValue) : option (string * Json) :=
  match kv with
  | MkKeyValue key value key_strindex =>
      if (key_strindex =? 0)%Z then Some (key, from_option f JNull value) else None
  end.

(** The object of an attribute list: of the pairs of one key, the last. *)
Definition fields_of (f : AnyValue → Json) (kvs : list KeyValue) : gmap string Json :=
  list_to_map (reverse (omap (field_of f) kvs)).

(** The JSON of a value. *)
Fixpoint json_of (v : AnyValue) : Json :=
  match v with
  | MkAnyValue None => JNull
  | MkAnyValue (Some value) =>
      match value with
      | StringValue s => JString s
      | BoolValue b => JBool b
      | IntValue i => JInt i
      | DoubleValue d => json_of_f64 d
      | ArrayValue values => JArray (json_of <$> values)
      | KvlistValue values => JObject (fields_of json_of values)
      | BytesValue bytes => JString (hex_bytes bytes)
      | StringValueStrindex _ => JNull
      end
  end.

Definition kv_refs (f : AnyValue → N) (kv : KeyValue) : N :=
  match kv with
  | MkKeyValue _ value key_strindex =>
      if (key_strindex =? 0)%Z then from_option f 0%N value else 1%N
  end.

(** The interning references a value holds; the value under an interned key is
    not looked into. *)
Fixpoint refs_of (v : AnyValue) : N :=
  match v with
  | MkAnyValue (Some (ArrayValue values)) => sum_N (refs_of <$> values)
  | MkAnyValue (Some (KvlistValue values)) => sum_N (kv_refs refs_of <$> values)
  | MkAnyValue (Some (StringValueStrindex _)) => 1%N
  | _ => 0%N
  end.

Definition attrs_json (kvs : list KeyValue) : Json := JObject (fields_of json_of kvs).
Definition attrs_refs (kvs : list KeyValue) : N := sum_N (kv_refs refs_of <$> kvs).

(** ** The counter *)

Definition kv_value (kv : KeyValue) : option AnyValue :=
  match kv with MkKeyValue _ value _ => value end.

(** The values directly inside a value. *)
Definition children (v : AnyValue) : list AnyValue :=
  match v with
  | MkAnyValue (Some (ArrayValue values)) => values
  | MkAnyValue (Some (KvlistValue values)) => omap kv_value values
  | _ => []
  end.

Lemma AnyValue_induct (P : AnyValue → Prop) :
  (∀ v, Forall P (children v) → P v) → ∀ v, P v.
Proof.
  intros HP. fix IH 1. intros [[p|]]; apply HP; [|constructor].
  destruct p; simpl; try constructor.
  - induction values as [|v values IHv]; constructor; [apply IH|exact IHv].
  - induction values as [|[key [v|] ix] values IHv]; simpl; [constructor|..|exact IHv].
    constructor; [apply IH|exact IHv].
Qed.

(** [f] converts to [g] and counts [h], modulo [2^64]. *)
Definition counts {A B} (f : A → N → B * N) (g : A → B) (h : A → N) (x : A) : Prop :=
  ∀ n, f x (n mod 2 ^ 64)%N = (g x, ((n + h x) mod 2 ^ 64)%N).

Lemma map_counting_counts {A B} (f : A → N → B * N) g h l :
  Forall (counts f g h) l →
  counts (map_counting f) (fmap g) (λ l, sum_N (h <$> l)) l.
Proof.
  induction 1 as [|x l Hx _ IH]; intros n; simpl; [by rewrite N.add_0_r|].
  rewrite Hx, IH. simpl. by rewrite N.add_assoc.
Qed.

Lemma fields_of_cons f kv kvs (m : gmap string Json) :
  fields_of f (kv :: kvs) ∪ m =
  fields_of f kvs ∪ match field_of f kv with Some (k, j) => <[k := j]> m | None => m end.
Proof.
  unfold fields_of. simpl. destruct (field_of f kv) as [[k j]|]; [|done].
  rewrite reverse_cons, list_to_map_app. simpl. rewrite <-(assoc_L (∪)).
  f_equal. by rewrite <-insert_union_l, (left_id_L ∅ (∪)).
Qed.

Lemma kvs_counting kvs (m : gmap string Json) n :
  Forall (counts any_value_to_json json_of refs_of) (omap kv_value kvs) →
  kvs_to_json_with any_value_to_json kvs m (n mod 2 ^ 64)%N =
  (JObject (fields_of json_of kvs ∪ m), ((n + attrs_refs kvs) mod 2 ^ 64)%N).
Proof.
  revert m n. induction kvs as [|[key value ix] kvs IH]; intros m n Hall.
  { simpl. unfold fields_of. simpl. by rewrite (left_id_L ∅ (∪)), N.add_0_r. }
  assert (Forall (counts any_value_to_json json_of refs_of) (omap kv_value kvs)) as Hall'.
  { destruct value; simpl in Hall; [by inversion Hall|done]. }
  rewrite fields_of_cons. unfold attrs_refs. simpl. destruct (Z.eqb_spec ix 0) as [->|Hix].
  - destruct value as [v|]; simpl.
    + inversion Hall as [|?? Hv _]. rewrite Hv, IH by done. by rewrite <-N.add_assoc.
    + by rewrite IH.
  - rewrite u64_succ_mod, IH by done. by rewrite <-N.add_assoc.
Qed.

Lemma any_value_counts v : counts any_value_to_json json_of refs_of v.
Proof.
  induction v as [v IH] using AnyValue_induct. intros n.
  destruct v as [[[]|]]; simpl in *; rewrite ?N.add_0_r; try done.
  - by rewrite (map_counting_counts _ json_of refs_of).
  - by rewrite kvs_counting, (right_id_L ∅ (∪)).
  - by rewrite u64_succ_mod.
Qed.

Lemma kvs_counts kvs : counts kvs_to_json attrs_json attrs_refs kvs.
Proof.
  intros n. unfold kvs_to_json. rewrite kvs_counting, (right_id_L ∅ (∪)); [done|].
  apply Forall_forall. intros v _. apply any_value_counts.
Qed.

(** ** Rows *)

Record LogRow := {
  row_ts : Z; row_observed_ts : option Z; row_severity_number : Z;
  row_severity_text : option string; row_body : option string; row_attrs : string;
  row_resource_attrs : string; row_scope_name : option string; row_scope_version : option string;
  row_trace_id : option string; row_span_id : option string; row_flags : N;
  row_event_name : option string; row_dropped_attributes_count : N;
}.

(** The columns of a list of rows. *)
Definition columns_of (rows : list LogRow) : LogColumns :=
  {| lc_ts := row_ts <$> rows; lc_observed_ts := row_observed_ts <$> rows;
     lc_severity_number := row_severity_number <$> rows;
     lc_severity_text := row_severity_text <$> rows; lc_body := row_body <$> rows;
     lc_attrs := row_attrs <$> rows; lc_resource_attrs := row_resource_attrs <$> rows;
     lc_scope_name := row_scope_name <$> rows; lc_scope_version := row_scope_version <$> rows;
     lc_trace_id := row_trace_id <$> rows; lc_span_id := row_span_id <$> rows;
     lc_flags := row_flags <$> rows; lc_event_name := row_event_name <$> rows;
     lc_dropped_attributes_count := row_dropped_attributes_count <$> rows |}.

(** The event time of a record: its own, else when it was observed. *)
Definition event_nanos (record : LogRecord) : N :=
  if (lr_time_unix_nano record =? 0)%N then lr_observed_time_unix_nano record
  else lr_time_unix_nano record.

Section rows.
Context `{OtlpLibs}.

(** The body column: a string is itself, an interning reference is absent,
    anything else is its JSON. *)
Definition body_text (body : AnyValue) : option string :=
  match body with
  | MkAnyValue None | MkAnyValue (Some (StringValueStrindex _)) => None
  | MkAnyValue (Some (StringValue s)) => Some s
  | MkAnyValue (Some _) => Some (json_to_string (json_of body))
  end.

Definition row_of (resource_attrs : string) (scope_name scope_version : option string)
    (record : LogRecord) : LogRow :=
  {| row_ts := Z.of_N (event_nanos record / 1000);
     row_observed_ts :=
       if (lr_observed_time_unix_nano record =? 0)%N then None
       else Some (Z.of_N (lr_observed_time_unix_nano record / 1000));
     row_severity_number := lr_severity_number record;
     row_severity_text := some_nonempty (lr_severity_text record);
     row_body := lr_body record ≫= body_text;
     row_attrs := json_to_string (attrs_json (lr_attributes record));
     row_resource_attrs := resource_attrs; row_scope_name := scope_name;
     row_scope_version := scope_version; row_trace_id := some_hex (lr_trace_id record);
     row_span_id := some_hex (lr_span_id record); row_flags := lr_flags record;
     row_event_name := some_nonempty (lr_event_name record);
     row_dropped_attributes_count := lr_dropped_attributes_count record |}.

Definition record_refs (record : LogRecord) : N :=
  (from_option refs_of 0 (lr_body record) + attrs_refs (lr_attributes record))%N.

Definition resource_text (rl : ResourceLogs) : string :=
  from_option (λ attributes, json_to_string (attrs_json attributes)) "{}" (rl_resource rl).

Definition scope_rows (resource_attrs : string) (sl : ScopeLogs) : list LogRow :=
  row_of resource_attrs (sl_scope sl ≫= λ s, some_nonempty (is_name s))
    (sl_scope sl ≫= λ s, some_nonempty (is_version s)) <$> sl_log_records sl.

Definition resource_rows (rl : ResourceLogs) : list LogRow :=
  rl_scope_logs rl ≫= scope_rows (resource_text rl).

(** The rows of a request: one per log record, in the order of the request. *)
Definition request_rows (request : ExportLogsServiceRequest) : list LogRow :=
  request ≫= resource_rows.

Definition scope_refs (sl : ScopeLogs) : N := sum_N (record_refs <$> sl_log_records sl).

Definition resource_refs (rl : ResourceLogs) : N :=
  (from_option attrs_refs 0 (rl_resource rl) + sum_N (scope_refs <$> rl_scope_logs rl))%N.

(** The interning references of a request. *)
Definition request_refs (request : ExportLogsServiceRequest) : N :=
  sum_N (resource_refs <$> request).

Definition record_ok (record : LogRecord) : Prop :=
  is_u64 (lr_time_unix_nano record) ∧ is_u64 (lr_observed_time_unix_nano record).

(** Every timestamp fits its type. *)
Definition request_typed (request : ExportLogsServiceRequest) : Prop :=
  Forall (λ rl, Forall (λ sl, Forall record_ok (sl_log_records sl)) (rl_scope_logs rl)) request.

Lemma nanos_to_micros_exact n : is_u64 n → nanos_to_micros n = Z.of_N (n / 1000).
Proof.
  unfold nanos_to_micros, is_u64, u64_max, i64_max. intros Hn. case_match; bool_tests; [done|].
  pose proof (N.Div0.div_le_mono n 18446744073709551615 1000 Hn) as Hd.
  change (18446744073709551615 / 1000)%N with 18446744073709551%N in Hd. lia.
Qed.

Lemma body_counts body : counts body_to_string body_text refs_of body.
Proof.
  intros n. destruct body as [[[]|]]; simpl; rewrite ?N.add_0_r; try done.
  - pose proof (any_value_counts (MkAnyValue (Some (ArrayValue values))) n) as E.
    simpl in E. by rewrite E.
  - pose proof (any_value_counts (MkAnyValue (Some (KvlistValue values))) n) as E.
    simpl in E. by rewrite E.
  - by rewrite u64_succ_mod.
Qed.

(** A step of a loop over the columns and the count. *)
Definition appends {A} (step : LogColumns * N → A → LogColumns * N) (rows : A → list LogRow)
    (refs : A → N) (x : A) : Prop :=
  ∀ done n, step (columns_of done, (n mod 2 ^ 64)%N) x =
    (columns_of (done ++ rows x), ((n + refs x) mod 2 ^ 64)%N).

Lemma foldl_appends {A} (step : LogColumns * N → A → LogColumns * N) rows refs (l : list A) :
  Forall (appends step rows refs) l →
  appends (foldl step) (λ l, l ≫= rows) (λ l, sum_N (refs <$> l)) l.
Proof.
  induction 1 as [|x l Hx _ IH]; intros d n; simpl; [by rewrite app_nil_r, N.add_0_r|].
  rewrite Hx, IH. by rewrite app_assoc, N.add_assoc.
Qed.

Lemma columns_push_spec ra sn sv record : record_ok record →
  appends (λ acc record, columns_push acc.1 record ra sn sv acc.2)
    (λ record, [row_of ra sn sv record]) record_refs record.
Proof.
  intros [Ht Ho] d n. unfold columns_push. simpl.
  assert ((match lr_body record with
           | Some b => body_to_string b (n mod 2 ^ 64)%N | None => (None, (n mod 2 ^ 64)%N) end) =
          (lr_body record ≫= body_text,
           ((n + from_option refs_of 0 (lr_body record)) mod 2 ^ 64)%N)) as ->.
  { destruct (lr_body record) as [b|]; simpl; [apply body_counts|by rewrite N.add_0_r]. }
  rewrite kvs_counts. rewrite <-N.add_assoc. fold (record_refs record). f_equal.
  unfold columns_of, row_of, event_nanos. rewrite !fmap_app. simpl.
  rewrite (nanos_to_micros_exact (lr_observed_time_unix_nano record)) by done.
  repeat case_match; rewrite ?nanos_to_micros_exact by done; done.
Qed.

Lemma push_records_spec ra sn sv records : Forall record_ok records →
  appends (push_records ra sn sv) (fmap (row_of ra sn sv)) (λ l, sum_N (record_refs <$> l)) records.
Proof.
  intros Hok d n. unfold push_records.
  rewrite (foldl_appends _ (λ record, [row_of ra sn sv record]) record_refs).
  - assert (records ≫= (λ record, [row_of ra sn sv record]) = row_of ra sn sv <$> records) as ->;
      [|done].
    clear. induction records as [|r l IH]; [done|]. rewrite bind_cons, fmap_cons, IH. done.
  - eapply Forall_impl; [exact Hok|]. intros. by apply columns_push_spec.
Qed.

Lemma push_scopes_spec ra scopes : Forall (λ sl, Forall record_ok (sl_log_records sl)) scopes →
  appends (push_scopes ra) (λ l, l ≫= scope_rows ra) (λ l, sum_N (scope_refs <$> l)) scopes.
Proof.
  intros Hok. apply foldl_appends. eapply Forall_impl; [exact Hok|]. intros sl Hsl d n.
  unfold scope_rows, scope_refs.
  destruct (sl_scope sl) as [s|]; simpl; by apply push_records_spec.
Qed.

Lemma push_resources_spec request : request_typed request →
  appends push_resources request_rows request_refs request.
Proof.
  intros Hok. apply foldl_appends. eapply Forall_impl; [exact Hok|]. intros rl Hrl d n.
  unfold resource_rows, resource_text, resource_refs.
  destruct (rl_resource rl) as [attributes|]; simpl.
  - rewrite kvs_counts, push_scopes_spec by done. by rewrite N.add_assoc.
  - rewrite push_scopes_spec by done. done.
Qed.

(** What [decode_logs] computes, whatever the request. *)
Lemma decode_logs_spec request header key : request_typed request →
  decode_logs request header key =
  let? tenant := tenant_from_header header in
  let? records := map_err Malformed (ipc_stream logs_schema (columns_of (request_rows request))) in
  Ok {| dl_batch :=
          {| bt_dataset := OTLP_LOGS_DATASET; bt_kind := Event; bt_tenant := tenant;
             bt_idempotency_key := key; bt_records := records |};
        dl_rows := length (request_rows request);
        dl_strindex_ignored := (request_refs request mod 2 ^ 64)%N |}.
Proof.
  intros Hok. unfold decode_logs. destruct (tenant_from_header header) as [tenant|]; [|done].
  change (columns_default, 0%N) with (columns_of [], (0 mod 2 ^ 64)%N).
  rewrite push_resources_spec by done. simpl. rewrite length_fmap. done.
Qed.

(** C18: Decoding flattens a logs export without losing, duplicating or reordering
    anything: the batch handed to staging is the IPC stream of one row per log
    record, in the order of the request, each with the attributes of its resource
    and its scope, over the fixed schema; the row count and the count of ignored
    interning references are those of the request; and the only failures are a
    tenant that breaks the rules and an IPC writer that fails. *)
Theorem decode_flattens (request : ExportLogsServiceRequest) (header key : option string) :
  request_typed request →
  (∀ d, decode_logs request header key = Ok d ↔
     ∃ tenant records, tenant_from_header header = Ok tenant ∧
       ipc_stream logs_schema (columns_of (request_rows request)) = Ok records ∧
       d = {| dl_batch :=
                {| bt_dataset := OTLP_LOGS_DATASET; bt_kind := Event; bt_tenant := tenant;
                   bt_idempotency_key := key; bt_records := records |};
              dl_rows := length (request_rows request);
              dl_strindex_ignored := (request_refs request mod 2 ^ 64)%N |}) ∧
  (∀ msg, decode_logs request header key = Err (Malformed msg) ↔
     (∃ tenant, tenant_from_header header = Ok tenant) ∧
     ipc_stream logs_schema (columns_of (request_rows request)) = Err msg) ∧
  (∀ fault, decode_logs request header key = Err (InvalidTenant fault) ↔
     tenant_from_header header = Err (InvalidTenant fault)).
Proof.
  intros Hok. rewrite decode_logs_spec by done.
  assert (∀ m, tenant_from_header header ≠ Err (Malformed m)) as Hm.
  { intros m. unfold tenant_from_header. repeat case_match; done. }
  destruct (tenant_from_header header) as [tenant|[m|f]] eqn:Ht; [|by destruct (Hm m)|].
  - destruct (ipc_stream _ _) as [records|msg]; simpl; naive_solver.
  - simpl. naive_solver.
Qed.

End rows.

(** Every column of the fixed schema has a staging type. *)
Lemma logs_schema_supported : Forall (λ f, is_Some (staging_sql_type (f_type f))) logs_schema.
Proof. unfold logs_schema. repeat (constructor; [by eexists|]). constructor. Qed.
