(* ===== verification/Accept.v ===== *)
(** * The OTLP logs service

    Models [crates/duckspout-accept/src/server.rs].  A call of [export] is a
    program over the shared in-flight counter, the staging port and the trace
    sink: requests run concurrently, so each atomic operation on the counter is
    a call of its own and the counter's answers are whatever the other requests
    left.  The guard's drop is the call that follows the block it guards, on
    every path, the cancelled one included: the [None] answer of the port is a
    request whose future was dropped at the [await].  The text of a status and
    of a warning is not modelled. *)

From S2P Require Import Prelude Types Overload Ports Naming Engine EngineProps Seal Stager.
From S2P Require Import StagerProps HotStore Daemon Otlp.

Definition TENANT_METADATA_KEY : string := "x-scope-orgid".
Definition IDEMPOTENCY_METADATA_KEY : string := "x-duckspout-idempotency-key".
Definition DEFAULT_RETRY_DELAY_MS : N := THROTTLE_RETRY_MIN_MS.

(** [AdmissionConfig] *)
Record AdmissionConfig := { max_payload_bytes : N; max_inflight_bytes : N }.

(** [tonic::Status]: its code and the delay of its [RetryInfo]. *)
Record Status := { s_code : GrpcCode; s_retry_info : option N }.

(** [ExportLogsPartialSuccess]; the warning names the number of references. *)
Record PartialSuccess := { ps_rejected_log_records : N; ps_warned : N }.

(** [ExportLogsServiceResponse] *)
Record Response := { rs_partial_success : option PartialSuccess }.

(** A request: what [to_str] makes of a metadata value ([None] when it is not
    text), and the message. *)
Record Request := {
  rq_metadata : string → option (option string);
  rq_message : ExportLogsServiceRequest;
}.

(** ** Programs *)

Inductive call :=
| FetchAdd (bytes : N)
| FetchSub (bytes : N)
| StageCommit (batch : DecodedBatch)
| TraceRecord (event : TraceEvent).

Definition answer (c : call) : Type :=
  match c with
  | FetchAdd _ => N
  | FetchSub _ | TraceRecord _ => unit
  | StageCommit _ => option (result StageOutcome StageError)
  end.

Inductive prog (A : Type) : Type :=
| Ret (a : A)
| Do (c : call) (k : answer c → prog A).
Arguments Ret {A} a.
Arguments Do {A} c k.

Fixpoint bind {A B : Type} (p : prog A) (f : A → prog B) : prog B :=
  match p with
  | Ret a => f a
  | Do c k => Do c (λ r, bind (k r) f)
  end.

(** ** Statuses *)

(** [OtlpGrpcAdapter::to_tonic_status] *)
Definition to_tonic_status (class : OtlpErrorClass) (retry_after_ms : N) : Status :=
  {| s_code := grpc_code class;
     s_retry_info := if carries_retry_info class then Some retry_after_ms else None |}.

(** [reject] *)
Definition reject (error : AcceptError) : Status := to_tonic_status MalformedPermanent 0.

(** [stage_status] *)
Definition stage_status (error : StageError) : Status :=
  match error with
  | StageThrottled retry_after_ms => to_tonic_status Throttled retry_after_ms
  | StageRefusing retry_after_ms => to_tonic_status RefusingIngestClass retry_after_ms
  | MalformedRecords _ | StageBackend _ => to_tonic_status StorageFailure DEFAULT_RETRY_DELAY_MS
  end.

(** [metadata_str] *)
Definition metadata_str (metadata : string → option (option string)) (key : string) :
    result (option string) Status :=
  match metadata key with
  | None => Ok None
  | Some (Some value) => Ok (Some value)
  | Some None => Err (to_tonic_status MalformedPermanent 0)
  end.

(** [strindex_warning] *)
Definition strindex_warning (strindex_ignored : N) : option PartialSuccess :=
  if (0 <? strindex_ignored)%N
  then Some {| ps_rejected_log_records := 0; ps_warned := strindex_ignored |} else None.

(** ** The in-flight guard *)

(** [InflightGuard::admit] *)
Definition admit_inflight (bytes max : N) : prog (result unit Status) :=
  Do (FetchAdd bytes) (λ previous,
    if (max <? N.min (previous + bytes) u64_max)%N
    then Do (FetchSub bytes) (λ _,
           Ret (Err (to_tonic_status InflightOverCap DEFAULT_RETRY_DELAY_MS)))
    else Ret (Ok tt)).

(** [InflightGuard::drop] *)
Definition drop_guard {A} (bytes : N) (a : A) : prog A := Do (FetchSub bytes) (λ _, Ret a).

(** [trace.record], when a sink is set. *)
Definition journal {A} (traced : bool) (event : TraceEvent) (p : prog A) : prog A :=
  if traced then Do (TraceRecord event) (λ _, p) else p.

(** What [export] makes of the port's answer, inside the guarded block; [None] is
    a request dropped at the [await]. *)
Definition respond (traced : bool) (response : Response)
    (answered : option (result StageOutcome StageError)) : prog (option (result Response Status)) :=
  match answered with
  | None => Ret None
  | Some (Err error) =>
      let status := Ret (Some (Err (stage_status error))) in
      match error with
      | StageThrottled _ => journal traced EvThrottle status
      | StageRefusing _ => journal traced EvRefuse status
      | MalformedRecords _ | StageBackend _ => status
      end
  | Some (Ok (StageCommitted _)) => journal traced EvClientAck (Ret (Some (Ok response)))
  | Some (Ok (StageDuplicateAcked _)) => Ret (Some (Ok response))
  | Some (Ok StageDuplicateInFlight) =>
      Ret (Some (Err (to_tonic_status DuplicateInFlight DEFAULT_RETRY_DELAY_MS)))
  end.

Section service.
Context `{OtlpLibs}.
Context (admission : AdmissionConfig) (traced : bool).

(** The bytes the guard accounts for. *)
Definition batch_bytes (batch : DecodedBatch) : N := N.of_nat (String.length (bt_records batch)).

(** [OtlpLogsService::export], up to the decoded batch. *)
Definition decode_request (request : Request) : result DecodedLogs Status :=
  let? tenant_header := metadata_str (rq_metadata request) TENANT_METADATA_KEY in
  let? idempotency_key := metadata_str (rq_metadata request) IDEMPOTENCY_METADATA_KEY in
  if (max_payload_bytes admission <? encoded_len (rq_message request))%N
  then Err (to_tonic_status PayloadTooLarge 0)
  else map_err reject (decode_logs (rq_message request) tenant_header idempotency_key).

(** [OtlpLogsService::export] *)
Definition export (request : Request) : prog (option (result Response Status)) :=
  match decode_request request with
  | Err status => Ret (Some (Err status))
  | Ok decoded =>
      let response := {| rs_partial_success := strindex_warning (dl_strindex_ignored decoded) |} in
      if (0 <? dl_rows decoded)%nat then
        let bytes := batch_bytes (dl_batch decoded) in
        bind (admit_inflight bytes (max_inflight_bytes admission)) (λ admitted,
          match admitted with
          | Err status => Ret (Some (Err status))
          | Ok _ =>
              Do (StageCommit (dl_batch decoded)) (λ answered,
                bind (respond traced response answered) (drop_guard bytes))
          end)
      else Ret (Some (Ok response))
  end.

End service.

(** ** Requests running concurrently *)

(** A request being served: the bytes its decoded batch takes, and what is left
    of its program. *)
Record Thread := { th_bytes : N; th_prog : prog (option (result Response Status)) }.

(** The service: the counter, the requests, the batches that blocking tasks are still
    staging although their requests were dropped, and how many were dropped there. *)
Record Pool := {
  pl_counter : N;
  pl_threads : list Thread;
  pl_orphans : list DecodedBatch;
  pl_cancelled : nat;
}.

(** A request dropped at the port leaves its staging task running: [spawn_blocking] is
    not cancelled with the future that awaits it. *)
Definition left_behind (c : call) : answer c → list DecodedBatch :=
  match c with
  | StageCommit batch => λ answered, match answered with None => [batch] | Some _ => [] end
  | FetchAdd _ | FetchSub _ | TraceRecord _ => λ _, []
  end.

(** How the shared counter answers a call and changes; the port answers anything. *)
Definition counter_step (counter : N) (c : call) : answer c → N → Prop :=
  match c with
  | FetchAdd bytes => λ r counter', r = counter ∧ counter' = ((counter + bytes) mod 2 ^ 64)%N
  | FetchSub bytes => λ _ counter', counter' = ((counter + (2 ^ 64 - bytes)) mod 2 ^ 64)%N
  | StageCommit _ | TraceRecord _ => λ _ counter', counter' = counter
  end.

(** The bytes a request in progress has decoded and not yet let go of. *)
Definition live_bytes (th : Thread) : N :=
  match th_prog th with Ret _ => 0 | Do _ _ => th_bytes th end.

Definition pool_bytes (threads : list Thread) : N := sum_N (live_bytes <$> threads).

(** The bytes of the batches at the staging port. *)
Definition staging_bytes (th : Thread) : N :=
  match th_prog th with Do (StageCommit batch) _ => batch_bytes batch | _ => 0 end.

Section pool.
Context `{OtlpLibs}.
Context (admission : AdmissionConfig) (traced : bool).

(** The bytes of the batch a request decodes to. *)
Definition request_bytes (request : Request) : N :=
  match decode_request admission request with
  | Ok decoded => batch_bytes (dl_batch decoded)
  | Err _ => 0
  end.

(** One step of the service: a request arrives, one of those in progress makes
    its next call, or a task whose request was dropped ends.  The decoded batches in progress are in memory together, so
    their bytes fit a [u64]. *)
Inductive pool_step : Pool → Pool → Prop :=
| StepArrive s request :
    let th := {| th_bytes := request_bytes request; th_prog := export admission traced request |} in
    (pool_bytes (pl_threads s ++ [th]) ≤ u64_max)%N →
    pool_step s {| pl_counter := pl_counter s; pl_threads := pl_threads s ++ [th];
                   pl_orphans := pl_orphans s; pl_cancelled := pl_cancelled s |}
| StepCall s counter' before after bytes c k r :
    pl_threads s = before ++ {| th_bytes := bytes; th_prog := Do c k |} :: after →
    counter_step (pl_counter s) c r counter' →
    pool_step s
      {| pl_counter := counter';
         pl_threads := before ++ {| th_bytes := bytes; th_prog := k r |} :: after;
         pl_orphans := left_behind c r ++ pl_orphans s;
         pl_cancelled := length (left_behind c r) + pl_cancelled s |}
| StepOrphanEnds s before batch after :
    pl_orphans s = before ++ batch :: after →
    pool_step s {| pl_counter := pl_counter s; pl_threads := pl_threads s; pl_orphans := before ++ after;
                   pl_cancelled := pl_cancelled s |}.

(** The service before its first request. *)
Definition pool_new : Pool :=
  {| pl_counter := 0; pl_threads := []; pl_orphans := []; pl_cancelled := 0 |}.

(** The states the service reaches from an idle start. *)
Inductive pool_reachable : Pool → Prop :=
| pool_idle : pool_reachable pool_new
| pool_next s s' : pool_reachable s → pool_step s s' → pool_reachable s'.

End pool.

(** ** One request, given what the counter held and how the port answers *)

Fixpoint run_prog {A} (previous : N) (port : DecodedBatch → option (result StageOutcome StageError))
    (p : prog A) : list call * A :=
  match p with
  | Ret a => ([], a)
  | Do c k =>
      let r : answer c :=
        match c with
        | FetchAdd _ => previous
        | FetchSub _ => tt
        | StageCommit batch => port batch
        | TraceRecord _ => tt
        end in
      let '(calls, a) := run_prog previous port (k r) in (c :: calls, a)
  end.

(** * Properties of the OTLP logs service

    The in-flight cap holds whatever the interleaving of the requests, and an
    acknowledged export is durable in the hot store it was staged to. *)

(** ** Accounting

    What a request holds of the counter, and how much of it was admitted. *)
Record Account := { held : N; admitted : N }.

(** When a request with account [g] may make the call [c]. *)
Definition may (bytes : N) (g : Account) (c : call) : Prop :=
  match c with
  | FetchAdd n => n = bytes ∧ held g = 0%N ∧ admitted g = 0%N
  | FetchSub n => n = bytes ∧ held g = n
  | StageCommit batch => admitted g = batch_bytes batch
  | TraceRecord _ => True
  end.

(** The account after the call. *)
Definition after_call (max : N) (g : Account) (c : call) : answer c → Account :=
  match c with
  | FetchAdd n => λ previous,
      {| held := n; admitted := if (max <? N.min (previous + n) u64_max)%N then 0 else n |}
  | FetchSub _ => λ _, {| held := 0; admitted := 0 |}
  | StageCommit _ | TraceRecord _ => λ _, g
  end.

(** The rest of the program keeps the account and settles it before it returns. *)
Fixpoint settles {A} (max bytes : N) (g : Account) (p : prog A) : Prop :=
  match p with
  | Ret _ => held g = 0%N ∧ admitted g = 0%N
  | Do c k => may bytes g c ∧ ∀ r, settles max bytes (after_call max g c r) (k r)
  end.

Definition no_account : Account := {| held := 0; admitted := 0 |}.

Lemma respond_settles traced response answered max bytes g :
  held g = bytes →
  settles max bytes g (bind (respond traced response answered) (drop_guard bytes)).
Proof.
  intros Hg. unfold respond, journal.
  destruct answered as [[[]|[]]|]; simpl; destruct traced; simpl; repeat split; done.
Qed.

Section service.
Context `{OtlpLibs} (admission : AdmissionConfig) (traced : bool).

Lemma export_settles request :
  settles (max_inflight_bytes admission) (request_bytes admission request) no_account
    (export admission traced request).
Proof.
  unfold export, request_bytes. destruct (decode_request admission request) as [d|]; [|done].
  case_match; [|done]. set (bytes := batch_bytes (dl_batch d)). unfold admit_inflight. simpl.
  split; [done|]. intros previous. destruct (_ <? _)%N eqn:E; simpl.
  - repeat split; done.
  - split; [done|]. intros answered. by apply respond_settles.
Qed.

(** A request, its account, and the bounds between them. *)
Definition thread_ok (th : Thread) (g : Account) : Prop :=
  settles (max_inflight_bytes admission) (th_bytes th) g (th_prog th) ∧
  (admitted g ≤ held g)%N ∧ (held g ≤ th_bytes th)%N.

(** The invariant of the service: the counter is what the requests hold, and what
    was admitted fits the cap. *)
Definition pool_ok (s : Pool) : Prop :=
  ∃ gs, Forall2 thread_ok (pl_threads s) gs ∧
    pl_counter s = sum_N (held <$> gs) ∧
    (sum_N (admitted <$> gs) ≤ max_inflight_bytes admission)%N ∧
    (pool_bytes (pl_threads s) ≤ u64_max)%N ∧
    (length (pl_orphans s) ≤ pl_cancelled s)%nat.

Lemma held_live th g : thread_ok th g → (held g ≤ live_bytes th)%N.
Proof.
  intros (Hs & _ & Hh). unfold live_bytes. destruct (th_prog th); [|done].
  destruct Hs as [-> _]. lia.
Qed.

Lemma held_pool threads gs : Forall2 thread_ok threads gs →
  (sum_N (held <$> gs) ≤ pool_bytes threads)%N ∧
  (sum_N (admitted <$> gs) ≤ sum_N (held <$> gs))%N.
Proof.
  unfold pool_bytes. induction 1 as [|th g threads gs Hth _ [IH1 IH2]]; csimpl; [done|].
  pose proof (held_live th g Hth). destruct Hth as (_ & ? & _). lia.
Qed.

Lemma pool_bytes_app l k : pool_bytes (l ++ k) = (pool_bytes l + pool_bytes k)%N.
Proof. unfold pool_bytes. rewrite fmap_app. apply sum_N_app. Qed.

Lemma pool_bytes_cons th l : pool_bytes (th :: l) = (live_bytes th + pool_bytes l)%N.
Proof. done. Qed.

(** A call keeps the account of the request that made it. *)
Lemma thread_step bytes g c k r :
  thread_ok {| th_bytes := bytes; th_prog := Do c k |} g →
  thread_ok {| th_bytes := bytes; th_prog := k r |}
    (after_call (max_inflight_bytes admission) g c r).
Proof.
  intros ([Hm Hk] & Ha & Hh). split; [apply Hk|]. simpl in *.
  destruct c; simpl in *; [|split; lia|done|done]. destruct Hm as (-> & _ & _). case_match; split; lia.
Qed.

Lemma pool_step_ok s s' : pool_ok s → pool_step admission traced s s' → pool_ok s'.
Proof.
  intros (gs & Hgs & Hc & Ha & Hb & Ho) Hstep. destruct Hstep as [s request th Hfit|
    s counter' before after bytes c k r Hth Hr|s before batch after Eo]; cbn [pl_counter pl_threads pl_orphans pl_cancelled] in *.
  - exists (gs ++ [no_account]). simpl. rewrite !fmap_app, !sum_N_app. csimpl. split_and!; [|lia|lia|done|done].
    apply Forall2_app; [done|]. constructor; [|constructor]. split; [apply export_settles|].
    simpl. lia.
  - rewrite Hth in Hgs, Hb. clear Hth. revert Hc Hr. generalize (pl_counter s). intros counter Hc Hr.
    apply Forall2_app_inv_l in Hgs as (gs1 & gs' & Hgs1 & Hgs' & ->).
    apply Forall2_cons_inv_l in Hgs' as (g & gs2 & Hg & Hgs2 & ->).
    pose proof (thread_step bytes g c k r Hg) as Hg'.
    exists (gs1 ++ after_call (max_inflight_bytes admission) g c r :: gs2).
    rewrite !fmap_app, !sum_N_app in *. csimpl in *.
    rewrite pool_bytes_app, pool_bytes_cons in *.
    destruct (held_pool _ _ Hgs1) as [Hp1 Ha1]. destruct (held_pool _ _ Hgs2) as [Hp2 Ha2].
    assert (live_bytes {| th_bytes := bytes; th_prog := k r |} ≤ bytes)%N as Hlive
      by (unfold live_bytes; simpl; case_match; lia).
    unfold live_bytes at 1 in Hb. simpl in Hb.
    split; [apply Forall2_app; [done|by constructor]|]. destruct Hg as ([Hm _] & Hag & Hhg).
    simpl in Hhg. unfold u64_max in *. rewrite length_app.
    destruct c as [n|n|batch|ev]; simpl in Hr, Hm |- *; [|split_and!; try lia..].
    + destruct Hr as [-> ->]. destruct Hm as (-> & H1 & H2). rewrite N.mod_small by lia.
      split_and!; [lia| |lia|lia]. unfold u64_max. destruct (N.ltb_spec (max_inflight_bytes admission)
        (N.min (counter + bytes) 18446744073709551615)); lia.
    + subst counter'. destruct Hm as (-> & H1).
      replace (counter + (2 ^ 64 - bytes))%N with
        (sum_N (held <$> gs1) + sum_N (held <$> gs2) + 1 * 2 ^ 64)%N by lia.
      rewrite N.Div0.mod_add, N.mod_small; lia.
  - exists gs. split_and!; [done..|]. simpl. rewrite Eo, !length_app in *. simpl in Ho. lia.
Qed.

Lemma pool_reachable_ok s : pool_reachable admission traced s → pool_ok s.
Proof.
  induction 1 as [|s s' _ IH Hstep]; [|by eapply pool_step_ok].
  exists []. split; [constructor|]. simpl. unfold pool_bytes. simpl. unfold u64_max. lia.
Qed.

Lemma staging_admitted threads gs : Forall2 thread_ok threads gs →
  (sum_N (staging_bytes <$> threads) ≤ sum_N (admitted <$> gs))%N.
Proof.
  induction 1 as [|th g threads gs (Hs & _ & _) _ IH]; csimpl; [done|].
  assert (staging_bytes th ≤ admitted g)%N; [|lia]. unfold staging_bytes.
  destruct (th_prog th) as [|[] k]; try lia. destruct Hs as [-> _]. done.
Qed.

Lemma returned_nothing threads gs : Forall2 thread_ok threads gs →
  Forall (λ th, ∃ a, th_prog th = Ret a) threads → sum_N (held <$> gs) = 0%N.
Proof.
  induction 1 as [|th g threads gs (Hs & _ & _) _ IH]; csimpl; [done|]. intros Hf.
  inversion Hf as [|?? [a Ha] Hf']; subst. rewrite Ha in Hs. destruct Hs as [-> _].
  by rewrite IH.
Qed.

(** C15: The in-flight cap holds under any interleaving of any number of requests,
    cancelled ones included: the batches at the staging port whose requests are still
    there together never exceed [max_inflight_bytes], the counter never wraps, and it is
    back at zero whenever every request has been answered or dropped, so no path leaks or
    releases twice.  What the cap does not bound are the batches of requests dropped at the
    port: their blocking tasks stage on with no bytes accounted.  There are never
    more of them than requests were dropped there, so without cancellation all that is being
    staged is within the cap. *)
Theorem inflight_bounded (s : Pool) :
  pool_reachable admission traced s →
  (sum_N (staging_bytes <$> pl_threads s) ≤ max_inflight_bytes admission)%N ∧
  (sum_N (staging_bytes <$> pl_threads s) ≤ pl_counter s)%N ∧
  (pl_counter s ≤ pool_bytes (pl_threads s))%N ∧
  (Forall (λ th, ∃ a, th_prog th = Ret a) (pl_threads s) → pl_counter s = 0%N) ∧
  (length (pl_orphans s) ≤ pl_cancelled s)%nat ∧
  (pl_cancelled s = 0%nat →
   (sum_N (staging_bytes <$> pl_threads s) + sum_N (batch_bytes <$> pl_orphans s)
      ≤ max_inflight_bytes admission)%N).
Proof.
  intros (gs & Hgs & Hc & Ha & Hb & Ho)%pool_reachable_ok.
  pose proof (staging_admitted _ _ Hgs). destruct (held_pool _ _ Hgs).
  split_and!; [lia|lia|lia| |done|].
  - intros Hret. rewrite Hc. by eapply returned_nothing.
  - intros E. rewrite E in Ho. destruct (pl_orphans s); [|simpl in Ho; lia]. csimpl. lia.
Qed.

End service.

(** ** From the acknowledgment to the hot store *)

(** Arrow's stream reader reads back what its writer wrote: one batch with one
    payload per row. *)
Class IpcRoundtrip `{OtlpLibs, StagerLibs} := {
  row_payload : LogRow → Payload;
  ipc_reads_back rows bytes :
    ipc_stream logs_schema (columns_of rows) = Ok bytes →
    ∃ batch, stream_reader bytes = Ok [Ok batch] ∧ rb_rows batch = row_payload <$> rows;
}.

Section durable.
Context `{DuckDb, !OtlpLibs, !StagerLibs, !SealLibs, !IpcRoundtrip}.

(** What the response of a run says of the port's answer. *)
Lemma export_ok_inv admission traced previous port request response :
  snd (run_prog previous port (export admission traced request)) = Some (Ok response) →
  ∃ d, decode_request admission request = Ok d ∧
    (dl_rows d = 0%nat ∨
     ∃ cov, port (dl_batch d) = Some (Ok (StageCommitted cov)) ∨
            port (dl_batch d) = Some (Ok (StageDuplicateAcked cov))).
Proof.
  unfold export. destruct (decode_request admission request) as [d|]; [|done].
  destruct (Nat.ltb_spec 0 (dl_rows d)) as [Hr|Hr]; [|intros _; exists d; split; [done|left; lia]].
  unfold admit_inflight. simpl. destruct (_ <? _)%N; simpl; [done|]. intros Hrun. exists d. split; [done|right].
  destruct (port (dl_batch d)) as [[[cov|cov|]|[]]|]; simpl in *; unfold journal in *;
    destruct traced; simpl in *; try done; exists cov; auto.
Qed.

(** What the answer [outcome] of the stager, which took the hot database from [db]
    to [db'], says of the rows of the batch. *)
Definition staged_as (cfg : StagerConfig) (st st' : Stager) (mono : N) (batch : DecodedBatch)
    (rows : list LogRow) (outcome : StageOutcome) : Prop :=
  let db := en_db (st_engine st) in
  let db' := en_db (st_engine st') in
  let origin := en_origin (st_engine st) in
  let p := from_tenant_shard (bt_tenant batch) 0 in
  match outcome with
  | StageCommitted _ =>
      ∀ k, rows_of db' k =
        if decide ((OTLP_LOGS_DATASET, p, window_for cfg st batch mono) = k)
        then rows_of db k ++ stamp origin (applied_last db p origin + 1) (row_payload <$> rows)
        else rows_of db k
  | StageDuplicateAcked cov =>
      (∀ k, rows_of db' k = rows_of db k) ∧
      ∃ row, db_dedup db !! (bt_tenant batch, dedup_key batch) = Some row ∧
        coverage_of_json (de_outcome row) = Ok cov
  | StageDuplicateInFlight => False
  end.

Lemma export_ok_staged (cfg : StagerConfig) (ops : list hot_op) (st : Stager)
    (closes : gmap WindowKey Z) (mono : N) (wall : Z) (admission : AdmissionConfig) (traced : bool)
    (previous : N) (request : Request) (response : Response) :
  hot_run cfg hot_empty ops = HotUp st closes →
  request_typed (rq_message request) → request_rows (rq_message request) ≠ [] →
  let port batch := Some (fst (fst (stage_blocking cfg st mono wall batch))) in
  snd (run_prog previous port (export admission traced request)) = Some (Ok response) →
  ∃ header batch outcome st' evs,
    metadata_str (rq_metadata request) TENANT_METADATA_KEY = Ok header ∧
    tenant_from_header header = Ok (bt_tenant batch) ∧
    metadata_str (rq_metadata request) IDEMPOTENCY_METADATA_KEY = Ok (bt_idempotency_key batch) ∧
    bt_dataset batch = OTLP_LOGS_DATASET ∧
    stage_blocking cfg st mono wall batch = (Ok outcome, st', evs) ∧
    staged_as cfg st st' mono batch (request_rows (rq_message request)) outcome.
Proof.
  intros Hrun Hty Hne port Hex. apply export_ok_inv in Hex as (d & Hd & Hport).
  unfold decode_request in Hd. destruct (metadata_str _ _) as [th|] eqn:Hth; [|done].
  destruct (metadata_str _ IDEMPOTENCY_METADATA_KEY) as [key|] eqn:Hkey; [|done]. destruct (_ <? _)%N; [done|].
  rewrite decode_logs_spec in Hd by done. destruct (tenant_from_header th) as [tenant|] eqn:Hten; [|done].
  destruct (ipc_stream _ _) as [records|] eqn:Hipc; [|done]. simpl in Hd. injection Hd as <-. simpl in *.
  destruct Hport as [Hz|(cov & Hport)]; [by apply nil_length_inv in Hz|].
  set (batch := {| bt_dataset := _ |}) in *. unfold port in Hport.
  destruct (stage_blocking cfg st mono wall batch) as [[r st'] evs] eqn:Hs. simpl in Hport.
  pose proof (hot_run_ok cfg hot_empty ops hot_empty_ok) as [Hok _]. rewrite Hrun in Hok.
  destruct (ipc_reads_back _ _ Hipc) as (rb & Hrb & Hrows).
  assert (∀ bs, decode_records records = Ok bs →
            (bs ≫= rb_rows) = row_payload <$> request_rows (rq_message request)) as Hbs.
  { intros bs. unfold decode_records. rewrite Hrb. simpl. intros [= <-]. simpl.
    by rewrite app_nil_r. }
  destruct Hport as [[= ->]|[= ->]]; (eexists th, batch, _, st', evs; split_and!; [done|done|done|done|exact Hs|]);
    apply stage_blocking_spec in Hs; try done; simpl.
  - destruct Hs as (bs & Hdec & Hs). apply Hbs in Hdec. rewrite Hdec in Hs.
    destruct Hs as [(Hnil & _)|(_ & _ & (Hst & _) & _)]; [by apply fmap_nil_inv in Hnil|].
    intros k. rewrite (sg_rows _ _ _ _ Hst), Hdec. simpl. repeat case_decide; by subst.
  - destruct Hs as [(row & Hrow & _ & Hcov & Hst & _) _]. split; [|by exists row]. intros k.
    rewrite (sg_rows _ _ _ _ (Hst k)). rewrite decide_True by done. simpl. apply app_nil_r.
Qed.

(** C3: An acknowledged export is durable.  When [export], over the stager of any
    reachable hot store and whatever the other requests hold of the counter,
    answers success to a request with log records, the stager has either committed
    one row per log record, in order, to one window of the partition of the tenant
    the request names, and nothing else, or found the entry of the same request
    staged before, and then nothing is added. *)
Theorem export_ack_durable (cfg : StagerConfig) (ops : list hot_op) (st : Stager)
    (closes : gmap WindowKey Z) (mono : N) (wall : Z) (admission : AdmissionConfig) (traced : bool)
    (previous : N) (request : Request) (response : Response) :
  hot_run cfg hot_empty ops = HotUp st closes →
  request_typed (rq_message request) → request_rows (rq_message request) ≠ [] →
  let port batch := Some (fst (fst (stage_blocking cfg st mono wall batch))) in
  snd (run_prog previous port (export admission traced request)) = Some (Ok response) →
  ∃ header batch outcome st' evs,
    metadata_str (rq_metadata request) TENANT_METADATA_KEY = Ok header ∧
    tenant_from_header header = Ok (bt_tenant batch) ∧
    bt_dataset batch = OTLP_LOGS_DATASET ∧
    stage_blocking cfg st mono wall batch = (Ok outcome, st', evs) ∧
    let db := en_db (st_engine st) in
    let db' := en_db (st_engine st') in
    let origin := en_origin (st_engine st) in
    let p := from_tenant_shard (bt_tenant batch) 0 in
    match outcome with
    | StageCommitted _ =>
        ∀ k, rows_of db' k =
          if decide ((OTLP_LOGS_DATASET, p, window_for cfg st batch mono) = k)
          then rows_of db k ++
                 stamp origin (applied_last db p origin + 1)
                   (row_payload <$> request_rows (rq_message request))
          else rows_of db k
    | StageDuplicateAcked cov =>
        (∀ k, rows_of db' k = rows_of db k) ∧
        ∃ row, db_dedup db !! (bt_tenant batch, dedup_key batch) = Some row ∧
          coverage_of_json (de_outcome row) = Ok cov
    | StageDuplicateInFlight => False
    end.
Proof.
  intros Hrun Hty Hne port Hex.
  destruct (export_ok_staged _ _ _ _ mono wall _ _ _ _ _ Hrun Hty Hne Hex)
    as (header & batch & outcome & st' & evs & ? & ? & _ & ? & ? & Hs).
  exists header, batch, outcome, st', evs. split_and!; [done..|]. exact Hs.
Qed.

End durable.
