(* ===== verification/Ducklake.v ===== *)
(** * The DuckLake committer

    Models [crates/duckspout-lake-ducklake/src/lib.rs].  The catalog is its
    sidecar tables, the registered data files and the dataset tables; SQL
    statements are modelled by what they read and write.  A transaction reads
    the catalog as of its [BEGIN] with its own writes on top, and its writes
    reach the catalog together at [COMMIT].  Any statement may fail with any
    text, so the classification of that text is part of the model; the text of
    [Misconfigured] and of the statements is not, except the two quoting
    functions.  The connection mutex makes the statements of one committer
    sequential. *)

From Stdlib Require Import Ascii.
From S2P Require Import Prelude Types Ports Naming Engine.

(** ** Configuration *)

(** [DuckLakeConfig]; the S3 credentials only reach [CREATE SECRET]. *)
Record DuckLakeConfig := {
  catalog_uri : string;
  data_path : string;
  multi_process : bool;
  has_s3 : bool;
}.

Inductive CatalogKind := DuckDbFile | Sqlite | Postgres.

#[global] Instance CatalogKind_eq_dec : EqDecision CatalogKind.
Proof. solve_decision. Defined.

(** [catalog_kind] *)
Definition catalog_kind (uri : string) : CatalogKind :=
  if String.prefix "postgres:" uri || String.prefix "postgresql:" uri then Postgres
  else if String.prefix "sqlite:" uri then Sqlite
  else DuckDbFile.

(** ** Text *)

(** [str::contains] *)
Fixpoint str_contains (needle hay : string) : bool :=
  String.prefix needle hay ||
  match hay with EmptyString => false | String _ hay => str_contains needle hay end.

(** [raw.replace(q, qq)]: every [q] doubled. *)
Fixpoint doubled (q : ascii) (raw : string) : string :=
  match raw with
  | EmptyString => ""
  | String c raw => if Ascii.eqb c q then String q (String q (doubled q raw))
                    else String c (doubled q raw)
  end.

Definition single_quote : ascii := "039".
Definition double_quote : ascii := "034".

(** [sql_str_body] *)
Definition sql_str_body (raw : string) : string := doubled single_quote raw.

(** [column_ident] *)
Definition column_ident (name : string) : string :=
  String double_quote (doubled double_quote name +:+ String double_quote "").

(** [dataset_table] *)
Definition dataset_table (dataset : DatasetId) : string := "ds_" +:+ table_component dataset.

(** [sql_type] *)
Definition sql_type (logical : string) : result string LakeError :=
  if decide (logical = "boolean") then Ok "BOOLEAN"
  else if decide (logical = "int8") then Ok "TINYINT"
  else if decide (logical = "int16") then Ok "SMALLINT"
  else if decide (logical = "int32") then Ok "INTEGER"
  else if decide (logical = "int64") then Ok "BIGINT"
  else if decide (logical = "uint8") then Ok "UTINYINT"
  else if decide (logical = "uint16") then Ok "USMALLINT"
  else if decide (logical = "uint32") then Ok "UINTEGER"
  else if decide (logical = "uint64") then Ok "UBIGINT"
  else if decide (logical = "float32") then Ok "FLOAT"
  else if decide (logical = "float64") then Ok "DOUBLE"
  else if decide (logical = "utf8") then Ok "VARCHAR"
  else if decide (logical = "binary") then Ok "BLOB"
  else if decide (logical = "timestamp_micros") then Ok "TIMESTAMP"
  else Err (Misconfigured logical).

(** [LakeError::to_string] *)
Definition lake_error_text (e : LakeError) : string :=
  match e with
  | NotImplemented op => "lake operation not implemented: " +:+ op
  | Misconfigured msg => "lake backend misconfigured: " +:+ msg
  | LakeBackend msg => "lake backend: " +:+ msg
  end.

(** [commit_error_outcome] *)
Definition commit_error_outcome (kind : CatalogKind) (rendered : string) : CommitOutcome :=
  if str_contains "conflict" (lowercase rendered) then Aborted
  else match kind with DuckDbFile | Sqlite => Aborted | Postgres => Indeterminate end.

(** ** The catalog *)

(** A row of [duckspout_manifests]. *)
Record ManifestRow := {
  mr_partition : PartitionId;
  mr_window_id : Z;
  mr_part_name : PartName;
  mr_dataset : DatasetId;
  mr_rows : Z;
  mr_event_time_min_ms : Z;
  mr_event_time_max_ms : Z;
  mr_dedup_removed : Z;
  mr_origin_coverage : string;
  mr_expired : bool;
}.

Record Catalog := {
  cat_watermarks : list (PartitionId * Z);
  cat_manifests : list ManifestRow;
  cat_fence : list (PartitionId * Z);
  (** The data files registered, by table; a file may be registered twice. *)
  cat_files : list (string * string);
  (** The files whose rows have left the current snapshot. *)
  cat_hidden : list (string * string);
  (** The columns of the dataset tables: name and SQL type. *)
  cat_tables : gmap string (list (string * string));
}.

Definition empty_catalog : Catalog :=
  {| cat_watermarks := []; cat_manifests := []; cat_fence := []; cat_files := [];
     cat_hidden := []; cat_tables := ∅ |}.

(** What the statements of the transactions write. *)
Inductive Write :=
| InsertFence (partition : PartitionId)
| UpdateFence (partition : PartitionId) (last_window : Z)
| AddDataFile (table path : string)
| InsertManifest (row : ManifestRow)
| UpdateWatermark (partition : PartitionId) (complete_through_ms : Z)
| InsertWatermark (partition : PartitionId) (complete_through_ms : Z)
| DeleteFile (table path : string)
| MarkExpired (part : PartName).

Definition with_expired (row : ManifestRow) (expired : bool) : ManifestRow :=
  {| mr_partition := mr_partition row; mr_window_id := mr_window_id row;
     mr_part_name := mr_part_name row; mr_dataset := mr_dataset row; mr_rows := mr_rows row;
     mr_event_time_min_ms := mr_event_time_min_ms row;
     mr_event_time_max_ms := mr_event_time_max_ms row;
     mr_dedup_removed := mr_dedup_removed row; mr_origin_coverage := mr_origin_coverage row;
     mr_expired := expired |}.

(** [UPDATE .. SET value = v WHERE partition = p] *)
Definition update_rows (p : PartitionId) (v : Z) (rows : list (PartitionId * Z)) :
    list (PartitionId * Z) :=
  (λ row, if decide (row.1 = p) then (p, v) else row) <$> rows.

Definition apply_write (c : Catalog) (w : Write) : Catalog :=
  let '(watermarks, manifests, fence, files, hidden) :=
    match w with
    | InsertFence p =>
        (cat_watermarks c, cat_manifests c, cat_fence c ++ [(p, -1)%Z], cat_files c, cat_hidden c)
    | UpdateFence p last =>
        (cat_watermarks c, cat_manifests c, update_rows p last (cat_fence c), cat_files c,
         cat_hidden c)
    | AddDataFile table path =>
        (cat_watermarks c, cat_manifests c, cat_fence c, cat_files c ++ [(table, path)],
         cat_hidden c)
    | InsertManifest row =>
        (cat_watermarks c, cat_manifests c ++ [row], cat_fence c, cat_files c, cat_hidden c)
    | UpdateWatermark p ms =>
        (update_rows p ms (cat_watermarks c), cat_manifests c, cat_fence c, cat_files c,
         cat_hidden c)
    | InsertWatermark p ms =>
        (cat_watermarks c ++ [(p, ms)], cat_manifests c, cat_fence c, cat_files c, cat_hidden c)
    | DeleteFile table path =>
        (cat_watermarks c, cat_manifests c, cat_fence c, cat_files c,
         (table, path) :: cat_hidden c)
    | MarkExpired part =>
        (cat_watermarks c,
         (λ row, if decide (mr_part_name row = part) then with_expired row true else row)
           <$> cat_manifests c,
         cat_fence c, cat_files c, cat_hidden c)
    end in
  {| cat_watermarks := watermarks; cat_manifests := manifests; cat_fence := fence;
     cat_files := files; cat_hidden := hidden; cat_tables := cat_tables c |}.

Definition apply_writes (c : Catalog) (ws : list Write) : Catalog := foldl apply_write c ws.

(** The statements that may fail, for naming the failure. *)
Inductive Stmt :=
| StEnsureFence | StBegin | StCountPart (part : PartName) | StAddFiles (part : PartName)
| StInsertManifest (part : PartName) | StUpdateWatermark (p : PartitionId)
| StInsertWatermark (p : PartitionId) | StUpdateFence | StSelectWatermark (p : PartitionId)
| StSelectManifests | StTableExists | StCreateTable | StAddColumn (column : string)
| StSelectPart (part : PartName) | StDeleteFile (part : PartName)
| StMarkExpired (part : PartName) | StCommit.

(** The failures of one operation: the text a statement fails with, if it does. *)
Abbreviation Faults := (Stmt → option string) (only parsing).

(** A failing statement is [backend(&e)]. *)
Definition exec (fault : Faults) (s : Stmt) : result unit LakeError :=
  match fault s with Some msg => Err (LakeBackend msg) | None => Ok tt end.

(** [serde_json] on the coverage column, and the order in which the rows of one
    window come out of [ORDER BY partition, window_id]. *)
Class LakeLibs := {
  ranges_to_json : list OriginSeqRange → result string string;
  ranges_of_json : string → result (list OriginSeqRange) string;
  order_manifests : list ManifestRow → list ManifestRow;
}.

(** ** Committing *)

(** [i64::try_from(n).unwrap_or(i64::MAX)] *)
Definition i64_of_u64 (n : N) : Z :=
  if (Z.of_N n <=? i64_max)%Z then Z.of_N n else i64_max.

(** The part is registered under its window, expired or not. *)
Definition part_registered (manifests : list ManifestRow) (partition : PartitionId)
    (window_id : Z) (part : PartName) : bool :=
  existsb (λ row, bool_decide (mr_partition row = partition) &&
                  (mr_window_id row =? window_id)%Z &&
                  bool_decide (mr_part_name row = part)) manifests.

(** [Staged], with the writes of the transaction. *)
Inductive Staged :=
| Wrote (writes : list Write)
| AlreadyRegistered.

Section committer.
Context `{LakeLibs}.

(** The check-before-register loop of [stage_commit_writes]. *)
Fixpoint absent_parts (fault : Faults) (c : Catalog) (partition : PartitionId) (window_id : Z)
    (parts : list PartName) : result (list PartName) LakeError :=
  match parts with
  | [] => Ok []
  | part :: parts =>
      let? _ := exec fault (StCountPart part) in
      let? absent := absent_parts fault c partition window_id parts in
      Ok (if part_registered (cat_manifests c) partition window_id part then absent
          else part :: absent)
  end.

Definition manifest_row (manifest : WindowManifest) (coverage : string) (part : PartName) :
    ManifestRow :=
  {| mr_partition := m_partition manifest; mr_window_id := i64_of_u64 (m_window_id manifest);
     mr_part_name := part; mr_dataset := m_dataset manifest;
     mr_rows := i64_of_u64 (m_rows manifest);
     mr_event_time_min_ms := m_event_time_min_ms manifest;
     mr_event_time_max_ms := m_event_time_max_ms manifest;
     mr_dedup_removed := i64_of_u64 (m_dedup_removed manifest);
     mr_origin_coverage := coverage; mr_expired := false |}.

(** The registration loop: the writes of the parts that were absent. *)
Fixpoint register_parts (fault : Faults) (config : DuckLakeConfig) (manifest : WindowManifest)
    (coverage : string) (absent : list PartName) : result (list Write) LakeError :=
  match absent with
  | [] => Ok []
  | part :: absent =>
      let? _ := exec fault (StAddFiles part) in
      let? _ := exec fault (StInsertManifest part) in
      let? writes := register_parts fault config manifest coverage absent in
      Ok (AddDataFile (dataset_table (m_dataset manifest)) (data_path config +:+ "/" +:+ part)
          :: InsertManifest (manifest_row manifest coverage part) :: writes)
  end.

(** The watermark loop: update, or insert when no row was updated; [view] is what
    the transaction sees. *)
Fixpoint upsert_watermarks (fault : Faults) (view : Catalog) (watermarks : list WatermarkRow) :
    result (list Write) LakeError :=
  match watermarks with
  | [] => Ok []
  | row :: watermarks =>
      let p := wr_partition row in
      let ms := wr_complete_through_ms row in
      let? _ := exec fault (StUpdateWatermark p) in
      let? w :=
        if bool_decide (p ∈ (cat_watermarks view).*1) then Ok (UpdateWatermark p ms)
        else let? _ := exec fault (StInsertWatermark p) in Ok (InsertWatermark p ms) in
      let? writes := upsert_watermarks fault (apply_write view w) watermarks in
      Ok (w :: writes)
  end.

(** [DuckLakeCommitter::stage_commit_writes], on the snapshot [c]. *)
Definition stage_commit_writes (fault : Faults) (config : DuckLakeConfig) (c : Catalog)
    (manifest : WindowManifest) (watermarks : list WatermarkRow) : result Staged LakeError :=
  let window_id := i64_of_u64 (m_window_id manifest) in
  let? absent := absent_parts fault c (m_partition manifest) window_id (m_parts manifest) in
  match absent, m_parts manifest with
  | [], _ :: _ => Ok AlreadyRegistered
  | _, _ =>
      let? coverage := map_err (λ msg, LakeBackend ("encode coverage: " +:+ msg))
                         (ranges_to_json (m_origin_coverage manifest)) in
      let? registered := register_parts fault config manifest coverage absent in
      let? upserted := upsert_watermarks fault c watermarks in
      let? _ := exec fault StUpdateFence in
      Ok (Wrote (registered ++ upserted ++ [UpdateFence (m_partition manifest) window_id]))
  end.

(** The [INSERT .. WHERE NOT EXISTS] that precedes the transaction. *)
Definition ensure_fence (c : Catalog) (partition : PartitionId) : Catalog :=
  if bool_decide (partition ∈ (cat_fence c).*1) then c else apply_write c (InsertFence partition).

(** How a transaction's failure before [COMMIT] resolves. *)
Definition staging_failed (error : LakeError) : result CommitOutcome LakeError :=
  let lowered := lowercase (lake_error_text error) in
  if str_contains "conflict" lowered then Ok Aborted
  else if str_contains "does not exist" lowered || str_contains "binder error" lowered ||
          str_contains "catalog error" lowered
  then Err error
  else Ok Aborted.

(** [DuckLakeCommitter::commit_files_blocking], with no other committer at work.
    [landed] says whether a statement that answered with an error and commits (the
    fence row, the [COMMIT]) landed all the same. *)
Definition commit_files_blocking (config : DuckLakeConfig) (fault : Faults) (landed : bool)
    (c : Catalog) (manifest : WindowManifest) (watermarks : list WatermarkRow) :
    result CommitOutcome LakeError * Catalog :=
  let ensured := ensure_fence c (m_partition manifest) in
  match exec fault StEnsureFence with
  | Err _ => (Ok Aborted, if landed then ensured else c)
  | Ok _ =>
      let c := ensured in
      match exec fault StBegin with
      | Err e => (Err e, c)
      | Ok _ =>
          match stage_commit_writes fault config c manifest watermarks with
          | Ok AlreadyRegistered => (Ok Committed, c)
          | Err error => (staging_failed error, c)
          | Ok (Wrote writes) =>
              match fault StCommit with
              | None => (Ok Committed, apply_writes c writes)
              | Some msg =>
                  (Ok (commit_error_outcome (catalog_kind (catalog_uri config)) msg),
                   if landed then apply_writes c writes else c)
              end
          end
      end
  end.

(** ** Reading back *)

(** [max(complete_through_ms) .. WHERE partition = ?] *)
Definition max_watermark (rows : list (PartitionId * Z)) (p : PartitionId) : option Z :=
  foldr (λ row acc, if decide (row.1 = p)
                    then Some (match acc with None => row.2 | Some m => Z.max row.2 m end)
                    else acc) None rows.

(** [DuckLakeCommitter::read_watermarks_blocking] *)
Fixpoint read_watermarks_blocking (fault : Faults) (c : Catalog) (partitions : list PartitionId) :
    result (list WatermarkRow) LakeError :=
  match partitions with
  | [] => Ok []
  | p :: partitions =>
      let? _ := exec fault (StSelectWatermark p) in
      let? rows := read_watermarks_blocking fault c partitions in
      Ok (match max_watermark (cat_watermarks c) p with
          | Some ms => {| wr_partition := p; wr_complete_through_ms := ms |} :: rows
          | None => rows
          end)
  end.

(** [u64::try_from(z).unwrap_or(d)] *)
Definition u64_of_i64 (z : Z) (d : N) : N := if (0 <=? z)%Z then Z.to_N z else d.

(** The fold of [read_manifests] over the ordered rows; [done] is newest first. *)
Fixpoint collapse_rows (done : list WindowManifest) (rows : list ManifestRow) :
    result (list WindowManifest) LakeError :=
  match rows with
  | [] => Ok (reverse done)
  | row :: rows =>
      let window_id := u64_of_i64 (mr_window_id row) u64_max in
      let open :=
        let? coverage := map_err LakeBackend (ranges_of_json (mr_origin_coverage row)) in
        collapse_rows
          ({| m_dataset := mr_dataset row; m_partition := mr_partition row;
              m_window_id := window_id; m_origin_coverage := coverage;
              m_rows := u64_of_i64 (mr_rows row) 0;
              m_event_time_min_ms := mr_event_time_min_ms row;
              m_event_time_max_ms := mr_event_time_max_ms row;
              m_dedup_removed := u64_of_i64 (mr_dedup_removed row) 0;
              m_parts := [mr_part_name row] |} :: done) rows in
      match done with
      | last :: older =>
          if bool_decide (m_partition last = mr_partition row) &&
             (m_window_id last =? window_id)%N
          then collapse_rows
                 ({| m_dataset := m_dataset last; m_partition := m_partition last;
                     m_window_id := m_window_id last;
                     m_origin_coverage := m_origin_coverage last; m_rows := m_rows last;
                     m_event_time_min_ms := m_event_time_min_ms last;
                     m_event_time_max_ms := m_event_time_max_ms last;
                     m_dedup_removed := m_dedup_removed last;
                     m_parts := m_parts last ++ [mr_part_name row] |} :: older) rows
          else open
      | [] => open
      end
  end.

(** [DuckLakeCommitter::read_manifests] *)
Definition read_manifests (fault : Faults) (c : Catalog) : result (list WindowManifest) LakeError :=
  let? _ := exec fault StSelectManifests in
  collapse_rows [] (order_manifests (cat_manifests c)).

(** ** Expiry *)

(** [DuckLakeCommitter::expire_writes]: the writes, on the transaction's view. *)
Fixpoint expire_writes (fault : Faults) (config : DuckLakeConfig) (view : Catalog)
    (parts : list PartName) : result (list Write) LakeError :=
  match parts with
  | [] => Ok []
  | part :: parts =>
      match fault (StSelectPart part), find (λ row, bool_decide (mr_part_name row = part))
                                         (cat_manifests view) with
      | None, Some row =>
          if mr_expired row then expire_writes fault config view parts
          else
            let? _ := exec fault (StDeleteFile part) in
            let? _ := exec fault (StMarkExpired part) in
            let ws := [DeleteFile (dataset_table (mr_dataset row))
                         (data_path config +:+ "/" +:+ part); MarkExpired part] in
            let? writes := expire_writes fault config (apply_writes view ws) parts in
            Ok (ws ++ writes)
      | _, _ => Err (LakeBackend ("expire: part " +:+ part +:+
                                  " is not registered in duckspout_manifests"))
      end
  end.

(** [DuckLakeCommitter::expire_blocking] *)
Definition expire_blocking (config : DuckLakeConfig) (fault : Faults) (landed : bool) (c : Catalog)
    (parts : list PartName) : result unit LakeError * Catalog :=
  match exec fault StBegin with
  | Err e => (Err e, c)
  | Ok _ =>
      match expire_writes fault config c parts with
      | Err error => (Err error, c)
      | Ok writes =>
          match fault StCommit with
          | None => (Ok tt, apply_writes c writes)
          | Some msg => (Err (LakeBackend msg), if landed then apply_writes c writes else c)
          end
      end
  end.

(** ** Schema evolution *)

Record ColumnSpec := { col_name : string; col_logical_type : string }.
Record SchemaEvolution := { ev_dataset : DatasetId; ev_columns : list ColumnSpec }.

Definition set_table (c : Catalog) (table : string) (columns : list (string * string)) : Catalog :=
  {| cat_watermarks := cat_watermarks c; cat_manifests := cat_manifests c;
     cat_fence := cat_fence c; cat_files := cat_files c; cat_hidden := cat_hidden c;
     cat_tables := <[table := columns]> (cat_tables c) |}.

(** The column list of a [CREATE TABLE]. *)
Fixpoint column_types (columns : list ColumnSpec) : result (list (string * string)) LakeError :=
  match columns with
  | [] => Ok []
  | col :: columns =>
      let? ty := sql_type (col_logical_type col) in
      let? rest := column_types columns in
      Ok ((col_name col, ty) :: rest)
  end.

(** [ADD COLUMN IF NOT EXISTS]; column names are compared without case. *)
Definition add_column (columns : list (string * string)) (name ty : string) :
    list (string * string) :=
  if existsb (λ col, eq_ignore_ascii_case col.1 name) columns then columns
  else columns ++ [(name, ty)].

(** The [ALTER TABLE] loop; each statement commits on its own. *)
Fixpoint add_columns (fault : Faults) (c : Catalog) (table : string) (columns : list ColumnSpec) :
    result unit LakeError * Catalog :=
  match columns with
  | [] => (Ok tt, c)
  | col :: columns =>
      match sql_type (col_logical_type col) with
      | Err e => (Err e, c)
      | Ok ty =>
          match exec fault (StAddColumn (col_name col)) with
          | Err e => (Err e, c)
          | Ok _ =>
              add_columns fault
                (set_table c table (add_column (default [] (cat_tables c !! table)) (col_name col) ty))
                table columns
          end
      end
  end.

(** [DuckLakeCommitter::evolve_schema_blocking] *)
Definition evolve_schema_blocking (fault : Faults) (c : Catalog) (change : SchemaEvolution) :
    result unit LakeError * Catalog :=
  let table := dataset_table (ev_dataset change) in
  match exec fault StTableExists with
  | Err e => (Err e, c)
  | Ok _ =>
      match cat_tables c !! table with
      | None =>
          match column_types (ev_columns change) with
          | Err e => (Err e, c)
          | Ok [] => (Err (Misconfigured "no column"), c)
          | Ok columns =>
              match exec fault StCreateTable with
              | Err e => (Err e, c)
              | Ok _ => (Ok tt, set_table c table columns)
              end
          end
      | Some _ => add_columns fault c table (ev_columns change)
      end
  end.

End committer.

(** [LakeCommitter::replace_files] *)
Definition replace_files (remove add : list PartName) : result CommitOutcome LakeError :=
  Err (NotImplemented "ducklake replace_files (emergency repair; lands with the operations work)").

(** ** Opening *)

(** The steps of [DuckLakeCommitter::open] that may fail, in order. *)
Inductive OpenStep :=
| OpenInMemory | LoadDucklake | DisableRetry | LoadHttpfs | CreateSecret | LoadSqlite
| Attach (journal_wal : bool) | BootstrapTables.

(** [DuckLakeCommitter::open]: what it runs for a configuration, or the refusal. *)
Definition open_plan (config : DuckLakeConfig) : result (list OpenStep) LakeError :=
  let kind := catalog_kind (catalog_uri config) in
  if multi_process config && bool_decide (kind = DuckDbFile)
  then Err (Misconfigured (catalog_uri config))
  else Ok ([OpenInMemory; LoadDucklake; DisableRetry] ++
           (if has_s3 config then [LoadHttpfs; CreateSecret] else []) ++
           (match kind with Sqlite => [LoadSqlite] | _ => [] end) ++
           [Attach (bool_decide (kind = Sqlite)); BootstrapTables]).

(** ** [AttachInfo] *)

Record AttachInfo := { ai_catalog_uri : string; ai_credentials_shape : string; ai_dialect : string }.

Definition attach_info_blocking (config : DuckLakeConfig) : AttachInfo :=
  {| ai_catalog_uri := "ducklake:" +:+ catalog_uri config;
     ai_credentials_shape :=
       match catalog_kind (catalog_uri config) with
       | Postgres => "libpq DSN via a DuckDB secret (never inline credentials)"
       | Sqlite | DuckDbFile => "none (file-backed catalog)"
       end;
     ai_dialect := "ducklake" |}.
