(* ===== verification/DucklakeProps.v ===== *)
(** * The DuckLake committer implements the lake port

    A catalog represents the lake of [DrainSystem.v]: the manifests registered
    and the watermark rows stored.  Every operation of the committer, whatever
    fails, is a step the port allows, so what [Pipeline.v] shows of a node over
    such a lake holds of a node over this one. *)

From S2P Require Import Prelude Types Ports Overload Naming Coordinator.
From S2P Require Import DrainSystem Engine Stager Seal HotStore Daemon Rolling Pipeline Ducklake.

(** ** Watermark rows *)

Lemma update_rows_keys p v rows : (update_rows p v rows).*1 = rows.*1.
Proof.
  unfold update_rows. induction rows as [|[q w] rows IH]; csimpl; [done|]. rewrite IH.
  by case_decide as E; simpl; [rewrite <-E|].
Qed.

Lemma update_rows_map p v rows :
  NoDup rows.*1 → p ∈ rows.*1 →
  list_to_map (update_rows p v rows) =@{gmap _ _} <[p := v]> (list_to_map rows).
Proof.
  intros Hnd Hp. induction rows as [|[q w] rows IH]; csimpl in *; [by apply elem_of_nil in Hp|].
  apply NoDup_cons in Hnd as [Hq Hnd]. case_decide as E; simpl in *.
  - subst q. rewrite insert_insert_eq. f_equal.
    assert (update_rows p v rows = rows) as ->; [|done].
    clear -Hq. unfold update_rows. induction rows as [|[q w] rows IH]; csimpl in *; [done|].
    apply not_elem_of_cons in Hq as [Hn Hq]. rewrite IH by done. by case_decide.
  - apply elem_of_cons in Hp as [Hp|Hp]; [congruence|].
    rewrite IH by done. by rewrite insert_insert_ne.
Qed.

Lemma max_watermark_map rows p :
  NoDup rows.*1 → max_watermark rows p = list_to_map (M:=gmap _ _) rows !! p.
Proof.
  induction rows as [|[q w] rows IH]; csimpl; intros Hnd; [done|].
  apply NoDup_cons in Hnd as [Hq Hnd]. rewrite IH by done. case_decide as E.
  - subst q. rewrite lookup_insert_eq. by rewrite (not_elem_of_list_to_map_1 _ _ Hq).
  - by rewrite lookup_insert_ne.
Qed.

(** The rows a commit stores, as [land] stores them. *)
Definition store_rows (rows : gmap string Z) (ws : list WatermarkRow) : gmap string Z :=
  foldl (λ rs row, <[wr_partition row := wr_complete_through_ms row]> rs) rows ws.

(** The watermark writes change nothing else. *)
Definition watermark_write (w : Write) : Prop :=
  match w with UpdateWatermark _ _ | InsertWatermark _ _ => True | _ => False end.

Record same_lake (c c' : Catalog) : Prop := {
  sl_manifests : cat_manifests c' = cat_manifests c;
  sl_files : cat_files c' = cat_files c;
}.

Lemma watermark_writes_same ws c : Forall watermark_write ws → same_lake c (apply_writes c ws).
Proof.
  revert c. induction ws as [|w ws IH]; intros c Hw; [done|]. inversion Hw as [|?? H1 H2]; subst.
  simpl. destruct (IH (apply_write c w) H2) as [E1 E2]. unfold apply_writes in *. simpl.
  split; rewrite ?E1, ?E2; by destruct w.
Qed.

Section upsert.

Lemma upsert_spec fault view ws writes :
  upsert_watermarks fault view ws = Ok writes → NoDup (cat_watermarks view).*1 →
  Forall watermark_write writes ∧
  NoDup (cat_watermarks (apply_writes view writes)).*1 ∧
  list_to_map (cat_watermarks (apply_writes view writes)) =
    store_rows (list_to_map (cat_watermarks view)) ws.
Proof.
  revert view writes. induction ws as [|row ws IH]; intros view writes; simpl.
  { intros [= <-] Hnd. done. }
  intros Hu Hnd. destruct (exec fault _) as [[]|]; [|done].
  set (w := if bool_decide _ then _ else _) in Hu.
  assert (∀ x, w = Ok x → watermark_write x ∧ NoDup (cat_watermarks (apply_write view x)).*1 ∧
    list_to_map (cat_watermarks (apply_write view x)) =@{gmap _ _}
      <[wr_partition row := wr_complete_through_ms row]> (list_to_map (cat_watermarks view))) as Hw.
  { intros x. unfold w. case_bool_decide as Hin.
    - intros [= <-]. simpl. rewrite update_rows_keys. split; [done|]. split; [done|].
      by apply update_rows_map.
    - destruct (exec fault _) as [[]|]; [|done]. intros [= <-]. simpl. rewrite fmap_app. split; [done|].
      split; [|by apply list_to_map_snoc]. apply NoDup_app. split; [done|]. split; [|apply NoDup_singleton].
      by intros p Hp ->%list_elem_of_singleton. }
  destruct w as [x|]; [|done]. destruct (Hw x eq_refl) as (H1 & H2 & H3).
  destruct (upsert_watermarks fault (apply_write view x) ws) as [writes'|] eqn:Hu'; [|done].
  injection Hu as <-. apply IH in Hu' as (I1 & I2 & I3); [|done].
  split; [by constructor|]. split; [done|]. simpl in *. unfold apply_writes in *. simpl.
  rewrite I3, H3. done.
Qed.

(** The upsert looks at the stored rows only. *)
Lemma upsert_view fault view view' ws :
  cat_watermarks view = cat_watermarks view' →
  upsert_watermarks fault view ws = upsert_watermarks fault view' ws.
Proof.
  revert view view'. induction ws as [|row ws IH]; intros view view' E; simpl; [done|]. rewrite E.
  destruct (exec fault _) as [[]|]; [|done]. case_bool_decide.
  - rewrite (IH _ (apply_write view' (UpdateWatermark (wr_partition row) (wr_complete_through_ms row))));
      [done|]. simpl. by rewrite E.
  - destruct (exec fault _) as [[]|]; [|done].
    rewrite (IH _ (apply_write view' (InsertWatermark (wr_partition row) (wr_complete_through_ms row))));
      [done|]. simpl. by rewrite E.
Qed.

Lemma read_keys fault c ps out row :
  read_watermarks_blocking fault c ps = Ok out → row ∈ out → wr_partition row ∈ ps.
Proof.
  revert out. induction ps as [|q ps IH]; intros out; simpl; [intros [= <-]; set_solver|].
  destruct (exec fault _) as [[]|]; [|done].
  destruct (read_watermarks_blocking fault c ps) as [out'|]; [|done]. intros [= <-] Hin.
  destruct (max_watermark _ q); [apply elem_of_cons in Hin as [->|Hin]; [by left|]|]; right; by eapply IH.
Qed.

End upsert.

(** ** Representation *)

(** The counts and the window of the manifest fit the [BIGINT] columns. *)
Record manifest_fits (m : WindowManifest) : Prop := {
  mf_window : (Z.of_N (m_window_id m) ≤ i64_max)%Z;
  mf_rows : (Z.of_N (m_rows m) ≤ i64_max)%Z;
  mf_dedup : (Z.of_N (m_dedup_removed m) ≤ i64_max)%Z;
}.

Lemma i64_of_u64_fits n : (Z.of_N n ≤ i64_max)%Z → i64_of_u64 n = Z.of_N n.
Proof. unfold i64_of_u64. intros. case_match; bool_tests; lia. Qed.

Section port.
Context `{LakeLibs}.

(** The rows a manifest is recorded as. *)
Definition rows_for (m : WindowManifest) : list ManifestRow :=
  match ranges_to_json (m_origin_coverage m) with
  | Ok coverage => manifest_row m coverage <$> m_parts m
  | Err _ => []
  end.

Definition unexpired (row : ManifestRow) : ManifestRow := with_expired row false.

Definition file_of (config : DuckLakeConfig) (row : ManifestRow) : string * string :=
  (dataset_table (mr_dataset row), data_path config +:+ "/" +:+ mr_part_name row).

(** A manifest as the drain makes it: one part, in range, coverage that encodes. *)
Record drain_manifest (m : WindowManifest) : Prop := {
  dm_part : ∃ part, m_parts m = [part];
  dm_fits : manifest_fits m;
}.

(** The catalog represents the manifests and the rows of a lake. *)
Record represents (config : DuckLakeConfig) (c : Catalog) (lake : list WindowManifest)
    (rows : gmap string Z) : Prop := {
  re_manifests : unexpired <$> cat_manifests c ≡ₚ lake ≫= rows_for;
  re_shape : ∀ m, m ∈ lake → drain_manifest m ∧ ∃ text, ranges_to_json (m_origin_coverage m) = Ok text;
  re_files : cat_files c ≡ₚ file_of config <$> cat_manifests c;
  re_keys : NoDup (cat_watermarks c).*1;
  re_rows : list_to_map (cat_watermarks c) = rows;
}.

(** The manifest's part is registered under its window. *)
Definition registered_in (lake : list WindowManifest) (m : WindowManifest) : Prop :=
  ∃ m', m' ∈ lake ∧ m_partition m' = m_partition m ∧ m_window_id m' = m_window_id m ∧
        m_parts m' = m_parts m.

Lemma part_registered_spec manifests p w part :
  part_registered manifests p w part = true ↔
  ∃ row, row ∈ unexpired <$> manifests ∧ mr_partition row = p ∧ mr_window_id row = w ∧
         mr_part_name row = part.
Proof.
  unfold part_registered. rewrite existsb_exists. split.
  - intros (row & Hin & Ht). bool_tests. repeat case_bool_decide; try done.
    exists (unexpired row). split; [apply list_elem_of_fmap; exists row; split; [done|by apply list_elem_of_In]|done].
  - intros (row & (row0 & -> & Hin)%list_elem_of_fmap & <- & <- & <-). exists row0.
    split; [by apply list_elem_of_In|]. simpl. rewrite Z.eqb_refl. by rewrite !bool_decide_true.
Qed.

Lemma registered_iff config c lake rows m part :
  represents config c lake rows → m_parts m = [part] → manifest_fits m →
  part_registered (cat_manifests c) (m_partition m) (i64_of_u64 (m_window_id m)) part = true ↔
  registered_in lake m.
Proof.
  intros Hre Hp Hm. rewrite part_registered_spec. setoid_rewrite (re_manifests _ _ _ _ Hre). split.
  - intros (row & (m' & Hrow & Hin)%list_elem_of_bind & E1 & E2 & E3).
    destruct (re_shape _ _ _ _ Hre m' Hin) as [[[part' Hp'] Hf'] [text Ht]].
    unfold rows_for in Hrow. rewrite Ht, Hp' in Hrow. simpl in Hrow.
    apply list_elem_of_singleton in Hrow as ->. simpl in *.
    exists m'. split; [done|]. split; [done|]. rewrite Hp', Hp, E3. split; [|done].
    rewrite !i64_of_u64_fits in E2 by by apply mf_window. lia.
  - intros (m' & Hin & E1 & E2 & E3).
    destruct (re_shape _ _ _ _ Hre m' Hin) as [_ [text Ht]].
    exists (manifest_row m' text part). split; [|simpl; by rewrite E1, E2].
    apply list_elem_of_bind. exists m'. split; [|done]. unfold rows_for. rewrite Ht, E3, Hp.
    simpl. by left.
Qed.

Lemma same_represents config c c' lake rows :
  same_lake c c' → cat_watermarks c' = cat_watermarks c →
  represents config c lake rows → represents config c' lake rows.
Proof. intros [E1 E2] E3 []. by split; rewrite ?E1, ?E2, ?E3. Qed.

Lemma fence_represents config c lake rows p :
  represents config c lake rows → represents config (ensure_fence c p) lake rows.
Proof.
  apply same_represents; unfold ensure_fence; case_bool_decide; done.
Qed.

(** The writes of a fresh commit, applied: the manifest is registered and the rows
    are stored. *)
Lemma stage_lands fault config c lake rows m ws writes :
  represents config c lake rows → drain_manifest m →
  stage_commit_writes fault config c m ws = Ok (Wrote writes) →
  ¬ registered_in lake m ∧
  represents config (apply_writes c writes) (m :: lake) (store_rows rows ws).
Proof.
  intros Hre [[part Hp] Hf]. unfold stage_commit_writes. rewrite Hp. simpl.
  destruct (exec fault (StCountPart part)) as [[]|]; [|done].
  pose proof (registered_iff config c lake rows m part Hre Hp Hf) as Hreg.
  destruct (part_registered _ _ _ _); [done|].
  destruct (ranges_to_json (m_origin_coverage m)) as [text|] eqn:Ht; [|done]. simpl.
  destruct (exec fault (StAddFiles part)) as [[]|]; [|done].
  destruct (exec fault (StInsertManifest part)) as [[]|]; [|done].
  destruct (upsert_watermarks fault c ws) as [ups|] eqn:Hu; [|done].
  destruct (exec fault StUpdateFence) as [[]|]; [|done]. intros [= <-].
  split; [intros Hr; by apply Hreg in Hr|].
  set (c1 := {| cat_watermarks := cat_watermarks c;
    cat_manifests := cat_manifests c ++ [manifest_row m text part]; cat_fence := cat_fence c;
    cat_files := cat_files c ++ [(dataset_table (m_dataset m), data_path config +:+ "/" +:+ part)];
    cat_hidden := cat_hidden c; cat_tables := cat_tables c |}).
  assert (upsert_watermarks fault c1 ws = Ok ups) as Hu1.
  { rewrite <-Hu. apply upsert_view. done. }
  apply upsert_spec in Hu1 as (Hw & Hnd & Hmap); [|apply Hre].
  simpl. unfold apply_writes. simpl. rewrite foldl_app. simpl.
  change (foldl apply_write _ ups) with (apply_writes c1 ups).
  destruct (watermark_writes_same ups c1 Hw) as [Em Ef].
  split; simpl; rewrite ?Em, ?Ef; simpl.
  - rewrite fmap_app, (re_manifests _ _ _ _ Hre). simpl. unfold rows_for at 2. rewrite Ht, Hp. simpl.
    by rewrite Permutation_app_comm.
  - intros m' [->|Hin]%elem_of_cons; [|by apply Hre]. split; [split; [by exists part|done]|by exists text].
  - rewrite fmap_app. by apply Permutation_app; [apply Hre|].
  - done.
  - rewrite Hmap. simpl. by rewrite (re_rows _ _ _ _ Hre).
Qed.

Lemma already_registered fault config c lake rows m ws :
  represents config c lake rows → drain_manifest m →
  stage_commit_writes fault config c m ws = Ok AlreadyRegistered → registered_in lake m.
Proof.
  intros Hre [[part Hp] Hf]. unfold stage_commit_writes. rewrite Hp. simpl.
  destruct (exec fault (StCountPart part)) as [[]|]; [|done].
  pose proof (registered_iff config c lake rows m part Hre Hp Hf) as Hreg.
  destruct (part_registered _ _ _ _); [intros _; by apply Hreg|].
  destruct (ranges_to_json _); [|done]. simpl.
  destruct (exec fault (StAddFiles part)) as [[]|]; [|done].
  destruct (exec fault (StInsertManifest part)) as [[]|]; [|done].
  destruct (upsert_watermarks _ _ _) as [|]; [|done].
  by destruct (exec fault StUpdateFence) as [[]|].
Qed.

(** When the answer of a commit was lost: only a remote catalog loses one, and a
    conflict is an answer.  What the committer's documentation states of the
    catalogs. *)
Definition answer_lost (config : DuckLakeConfig) (fault : Stmt → option string) : Prop :=
  catalog_kind (catalog_uri config) = Postgres ∧
  ∀ msg, fault StCommit = Some msg → str_contains "conflict" (lowercase msg) = false.

(** What a commit does to the lake the catalog represents. *)
Lemma commit_spec config fault landed c lake rows m ws :
  represents config c lake rows → drain_manifest m →
  (landed = true → answer_lost config fault) →
  let '(r, c') := commit_files_blocking config fault landed c m ws in
  match r with
  | Ok Committed =>
      registered_in lake m ∧ represents config c' lake rows ∨
      ¬ registered_in lake m ∧ represents config c' (m :: lake) (store_rows rows ws)
  | Ok Aborted | Err _ => represents config c' lake rows
  | Ok Indeterminate =>
      represents config c' lake rows ∨
      ¬ registered_in lake m ∧ represents config c' (m :: lake) (store_rows rows ws)
  end.
Proof.
  intros Hre Hm Hlost. unfold commit_files_blocking.
  pose proof (fence_represents config c lake rows (m_partition m) Hre) as Hre'.
  destruct (exec fault StEnsureFence) as [[]|]; [|by destruct landed].
  set (c1 := ensure_fence c (m_partition m)) in *.
  destruct (exec fault StBegin) as [[]|]; [|done].
  destruct (stage_commit_writes fault config c1 m ws) as [[writes|]|error] eqn:Hs.
  - apply (stage_lands _ _ _ lake rows) in Hs as [Hn Hl]; [|done..].
    destruct (fault StCommit) as [msg|] eqn:Hc; [|by right].
    unfold commit_error_outcome. destruct (str_contains "conflict" (lowercase msg)) eqn:Hmsg.
    + destruct landed; [|done]. destruct (Hlost eq_refl) as [_ Hx]. by rewrite (Hx msg) in Hmsg.
    + destruct (catalog_kind (catalog_uri config)) eqn:Hk; destruct landed; auto;
        destruct (Hlost eq_refl) as [Hx _]; congruence.
  - left. split; [by eapply already_registered|done].
  - unfold staging_failed. repeat case_match; done.
Qed.

(** The stored watermarks read back as they stand. *)
Lemma read_spec fault c config lake rows ps out :
  represents config c lake rows → read_watermarks_blocking fault c ps = Ok out →
  ∀ p, p ∈ ps → read_back_of out p = rows !! p.
Proof.
  intros Hre. revert out. induction ps as [|q ps IH]; intros out; simpl; [set_solver|].
  destruct (exec fault _) as [[]|]; [|done].
  destruct (read_watermarks_blocking fault c ps) as [out'|] eqn:Hr; [|done]. intros [= <-] p Hp.
  specialize (IH out' eq_refl). rewrite max_watermark_map by apply Hre. rewrite (re_rows _ _ _ _ Hre).
  destruct (decide (p = q)) as [->|Hne].
  - destruct (rows !! q) as [ms|] eqn:Hq; unfold read_back_of; simpl; [by rewrite bool_decide_true|].
    fold (read_back_of out' q). destruct (decide (q ∈ ps)) as [Hin|Hin]; [by rewrite IH|].
    assert (∀ row, row ∈ out' → wr_partition row ∈ ps) as Hkeys
      by (intros row; by eapply read_keys).
    unfold read_back_of. destruct (List.find _ out') as [row|] eqn:Hf; [|done].
    apply find_some in Hf as [Hin' Hb]. apply bool_decide_eq_true in Hb. subst q.
    destruct Hin. apply Hkeys. by apply list_elem_of_In.
  - apply elem_of_cons in Hp as [?|Hp]; [done|]. rewrite <-(IH p Hp).
    destruct (rows !! q); [|done]. unfold read_back_of. simpl. by rewrite bool_decide_false.
Qed.

End port.

(** ** The node over this lake *)

Section node.
Context `{LakeLibs, ObjectStore, BookkeepingLaws L, DuckDb, !StagerLibs, !SealLibs, !Parquet}.

(** The catalog represents the lake of a node. *)
Definition lake_of (config : DuckLakeConfig) (c : Catalog) (s : Node (L:=L)) : Prop :=
  represents config c (w_lake (nd_world s)) (w_rows (nd_world s)).

(** C6: The DuckLake committer implements the lake port.  For a node whose lake the
    catalog represents, and whatever statement of the operation fails with whatever
    text, [commit_files] of a drain's manifest and [read_watermarks] answer as the
    port allows the node's lake to answer, and the catalog again represents the
    lake after the step: a commit is atomic, a repeated one changes nothing, and an
    uncertain one did all or nothing. *)
Theorem ducklake_implements_port (config : DuckLakeConfig) (c : Catalog) (s : Node (L:=L))
    (fault : Stmt → option string) (landed : bool) (m : WindowManifest) (ws : list WatermarkRow)
    (ps : list PartitionId) :
  lake_of config c s → drain_manifest m → (landed = true → answer_lost config fault) →
  (let '(r, c') := commit_files_blocking config fault landed c m ws in
   ∃ s', node_answers s [] (CommitFiles m ws) r s' ∧ lake_of config c' s') ∧
  (∃ s', node_answers s [] (ReadWatermarks ps) (read_watermarks_blocking fault c ps) s' ∧
         lake_of config c s').
Proof.
  intros Hre Hm Hlost. split.
  - pose proof (commit_spec config fault landed c _ _ m ws Hre Hm Hlost) as Hc.
    destruct (commit_files_blocking config fault landed c m ws) as [r c'].
    destruct r as [[]|]; simpl; [| | |by exists s].
    + destruct Hc as [[Hr Hc]|[Hn Hc]]; [exists s; auto|].
      exists (set_world s (land (nd_world s) m ws)). split; [right; by split|done].
    + by exists s.
    + destruct Hc as [Hc|[Hn Hc]]; [exists s; auto|].
      exists (set_world s (land (nd_world s) m ws)). split; [right; by split|done].
  - exists (set_world s (nd_world s)). split; [|done]. simpl. exists (nd_world s).
    split; [|done]. split; [done|].
    destruct (read_watermarks_blocking fault c ps) as [out|] eqn:Hr; [|done].
    by eapply read_spec.
Qed.

End node.

(** ** Boot recovery *)

(** [serde_json] decodes what it encoded, and [ORDER BY] orders the rows. *)
Class LakeLibsLaws `{LakeLibs} := {
  ranges_roundtrip ranges text :
    ranges_to_json ranges = Ok text → ranges_of_json text = Ok ranges;
  order_manifests_perm rows : order_manifests rows ≡ₚ rows;
}.

Section recovery.
Context `{LakeLibsLaws}.

Definition window_of (m : WindowManifest) : PartitionId * WindowId := (m_partition m, m_window_id m).

Definition row_window (row : ManifestRow) : PartitionId * WindowId :=
  (mr_partition row, u64_of_i64 (mr_window_id row) u64_max).

(** The row is the one row of the manifest. *)
Definition row_records (m : WindowManifest) (row : ManifestRow) : Prop :=
  drain_manifest m ∧ unexpired row ∈ rows_for m.

Lemma row_records_open m row done rows :
  row_records m row → (∀ last, head done = Some last → window_of last ≠ window_of m) →
  collapse_rows done (row :: rows) = collapse_rows (m :: done) rows.
Proof.
  intros [[[part Hp] [H1 H2 H3]] Hrow] Hne. unfold rows_for in Hrow.
  destruct (ranges_to_json (m_origin_coverage m)) as [text|] eqn:Ht; [|by apply elem_of_nil in Hrow].
  rewrite Hp in Hrow. apply list_elem_of_singleton in Hrow.
  destruct row as [rp rw rn rd rr r1 r2 rdd rc rexp]. unfold unexpired, with_expired, manifest_row in Hrow.
  simpl in Hrow. injection Hrow as -> -> -> -> -> -> -> -> ->.
  rewrite !i64_of_u64_fits by done. simpl.
  assert (∀ n d, u64_of_i64 (Z.of_N n) d = n) as Hu.
  { intros n d. unfold u64_of_i64. case_match; bool_tests; lia. }
  rewrite !Hu, (ranges_roundtrip _ _ Ht). simpl.
  assert ({| m_dataset := m_dataset m; m_partition := m_partition m; m_window_id := m_window_id m;
    m_origin_coverage := m_origin_coverage m; m_rows := m_rows m;
    m_event_time_min_ms := m_event_time_min_ms m; m_event_time_max_ms := m_event_time_max_ms m;
    m_dedup_removed := m_dedup_removed m; m_parts := [part] |} = m) as ->.
  { destruct m; simpl in *. by subst. }
  destruct done as [|last done]; [done|]. specialize (Hne last eq_refl).
  destruct (bool_decide _ && _) eqn:E; [|done]. bool_tests.
  destruct Hne. unfold window_of. congruence.
Qed.

Lemma collapse_all done rows ms :
  Forall2 row_records ms rows → NoDup (window_of <$> ms) →
  (∀ last, head done = Some last → window_of last ∉ window_of <$> ms) →
  collapse_rows done rows = Ok (reverse done ++ ms).
Proof.
  intros Hall. revert done. induction Hall as [|m row ms rows Hr _ IH]; intros done Hnd Hne.
  { simpl. by rewrite app_nil_r. }
  rewrite fmap_cons in Hnd. apply NoDup_cons in Hnd as [Hm Hnd].
  rewrite (row_records_open m row done rows Hr).
  - rewrite IH; [|done|by intros last [= <-]]. by rewrite reverse_cons, <-app_assoc.
  - intros last Hl E. apply (Hne last Hl). rewrite E, fmap_cons. by left.
Qed.

Lemma rows_match lake rows : (∀ m, m ∈ lake → drain_manifest m ∧ ∃ text, ranges_to_json (m_origin_coverage m) = Ok text) →
  (unexpired <$> rows) ≡ₚ lake ≫= rows_for → ∃ ms, ms ≡ₚ lake ∧ Forall2 row_records ms rows.
Proof.
  revert lake. induction rows as [|row rows IH]; intros lake Hshape Hp; csimpl in Hp.
  - apply Permutation_nil_l in Hp. exists []. split; [|constructor]. destruct lake as [|m lake]; [done|].
    destruct (Hshape m) as [[[part E] _] [text Ht]]; [by left|]. simpl in Hp. unfold rows_for in Hp.
    rewrite Ht, E in Hp. done.
  - assert (unexpired row ∈ lake ≫= rows_for) as (m & Hrow & Hin)%list_elem_of_bind
      by (rewrite <-Hp; by left).
    apply elem_of_Permutation in Hin as [lake' Hl]. destruct (Hshape m) as [Hd [text Ht]];
      [rewrite Hl; by left|].
    destruct (IH lake') as (ms & Hms & Hall).
    + intros m' Hm'. apply Hshape. rewrite Hl. by right.
    + rewrite Hl in Hp. simpl in Hp. destruct Hd as [[part E] _]. unfold rows_for at 1 in Hp.
      unfold rows_for in Hrow. rewrite Ht, E in Hp, Hrow. simpl in *.
      apply list_elem_of_singleton in Hrow. rewrite Hrow in Hp. by apply Permutation_cons_inv in Hp.
    + exists (m :: ms). split; [by rewrite Hms|]. by constructor.
Qed.

Lemma read_manifests_spec (config : DuckLakeConfig) (c : Catalog)
    (lake : list WindowManifest) (rows : gmap string Z) (fault : Stmt → option string) :
  represents config c lake rows → NoDup (window_of <$> lake) →
  match fault StSelectManifests with
  | Some msg => read_manifests fault c = Err (LakeBackend msg)
  | None => ∃ ms, read_manifests fault c = Ok ms ∧ ms ≡ₚ lake
  end.
Proof.
  intros Hre Hnd. unfold read_manifests, exec. destruct (fault StSelectManifests) as [msg|]; [done|].
  destruct (rows_match lake (order_manifests (cat_manifests c))) as (ms & Hms & Hall).
  - apply Hre.
  - rewrite order_manifests_perm. apply Hre.
  - exists ms. split; [|done]. rewrite (collapse_all [] _ ms Hall); [done| |by intros ? [=]].
    by rewrite Hms.
Qed.

(** C17: Boot recovery reads back what was committed.  From a catalog that represents
    a lake whose windows are registered once, [read_manifests] returns every
    committed manifest exactly once, each as it was committed, expired parts
    included, in whatever order; it fails only when its query fails. *)
Theorem read_manifests_roundtrip (config : DuckLakeConfig) (c : Catalog)
    (lake : list WindowManifest) (rows : gmap string Z) (fault : Stmt → option string) :
  represents config c lake rows → NoDup (window_of <$> lake) →
  match fault StSelectManifests with
  | Some msg => read_manifests fault c = Err (LakeBackend msg)
  | None => ∃ ms, read_manifests fault c = Ok ms ∧ ms ≡ₚ lake
  end.
Proof. apply read_manifests_spec. Qed.

End recovery.

(** ** Quoting *)

(** The reader of a quoted literal, after its opening quote: two quotes stand for
    one, one quote ends the literal. *)
Fixpoint scan_quoted (q : Ascii.ascii) (text : string) : option (string * string) :=
  match text with
  | EmptyString => None
  | String c text' =>
      if Ascii.eqb c q then
        match text' with
        | String c' rest =>
            if Ascii.eqb c' q then
              match scan_quoted q rest with
              | Some (body, rest) => Some (String q body, rest)
              | None => None
              end
            else Some ("", text')
        | EmptyString => Some ("", "")
        end
      else match scan_quoted q text' with
           | Some (body, rest) => Some (String c body, rest)
           | None => None
           end
  end.

(** The text after a literal does not start with another quote. *)
Definition not_quote (q : Ascii.ascii) (rest : string) : Prop :=
  match rest with EmptyString => True | String c _ => c ≠ q end.

(** Quoting is safe whatever the text holds: a literal or an identifier built by
    [sql_str_body] or [column_ident] is read back as the text, and ends where it was
    meant to end. *)
Theorem doubled_roundtrip (q : Ascii.ascii) (raw rest : string) :
  not_quote q rest →
  scan_quoted q (doubled q raw +:+ String q rest) = Some (raw, rest).
Proof.
  intros Hr. induction raw as [|c raw IH]; simpl.
  - rewrite Ascii.eqb_refl. destruct rest as [|c rest]; [done|]. simpl in Hr.
    destruct (Ascii.eqb_spec c q); done.
  - destruct (Ascii.eqb_spec c q) as [->|Hne]; simpl.
    + by rewrite !Ascii.eqb_refl, IH.
    + destruct (Ascii.eqb_spec c q); [done|]. by rewrite IH.
Qed.

(** ** Schema evolution *)

Lemma add_column_grows columns name ty :
  ∃ extra, add_column columns name ty = columns ++ extra ∧
    existsb (λ col, eq_ignore_ascii_case col.1 name) (columns ++ extra) = true.
Proof.
  unfold add_column. destruct (existsb _ columns) eqn:E.
  - exists []. by rewrite app_nil_r.
  - exists [(name, ty)]. split; [done|]. rewrite existsb_app. simpl.
    unfold eq_ignore_ascii_case at 2. rewrite bool_decide_true by done. by rewrite orb_true_r.
Qed.

Definition has_column (columns : list (string * string)) (col : ColumnSpec) : bool :=
  existsb (λ c, eq_ignore_ascii_case c.1 (col_name col)) columns.

Lemma has_column_app columns extra col :
  has_column columns col = true → has_column (columns ++ extra) col = true.
Proof. unfold has_column. rewrite existsb_app. by intros ->. Qed.

(** The committed data is left alone. *)
Record same_data (c c' : Catalog) : Prop := {
  sd_manifests : cat_manifests c' = cat_manifests c;
  sd_files : cat_files c' = cat_files c;
  sd_watermarks : cat_watermarks c' = cat_watermarks c;
}.

Lemma same_data_refl c : same_data c c.
Proof. by split. Qed.

Lemma same_data_trans c1 c2 c3 : same_data c1 c2 → same_data c2 c3 → same_data c1 c3.
Proof. intros [] []. split; congruence. Qed.

Lemma add_columns_spec fault c table columns r c' :
  add_columns fault c table columns = (r, c') → is_Some (cat_tables c !! table) →
  ∃ extra, cat_tables c' !! table = Some (default [] (cat_tables c !! table) ++ extra) ∧
    same_data c c' ∧
    (r = Ok tt → Forall (λ col, has_column (default [] (cat_tables c !! table) ++ extra) col = true) columns).
Proof.
  revert c. induction columns as [|col columns IH]; intros c; simpl.
  { intros [= <- <-] [cols Hc]. exists []. rewrite Hc, app_nil_r. by split_and!. }
  intros Hadd [cols Hc]. rewrite Hc in *. simpl in *.
  assert (∀ e c0, (Err e, c0) = (r, c') → c0 = c → ∃ extra : list (string * string),
    cat_tables c' !! table = Some (cols ++ extra) ∧ same_data c c' ∧
    (r = Ok tt → Forall (λ col, has_column (cols ++ extra) col = true) (col :: columns))) as Herr.
  { intros e c0 [= <- <-] ->. exists []. rewrite app_nil_r. by split_and!. }
  destruct (sql_type _) as [ty|e]; [|by eapply Herr].
  destruct (exec fault _) as [[]|e]; [|by eapply Herr].
  destruct (add_column_grows cols (col_name col) ty) as (ex1 & E1 & E2).
  apply IH in Hadd as (ex2 & H1 & H2 & H3); [|simpl; by rewrite lookup_insert_eq].
  simpl in *. rewrite lookup_insert_eq in H1, H3. simpl in H1, H3. rewrite E1 in H1, H3. exists (ex1 ++ ex2). rewrite app_assoc. split; [done|].
  split; [by eapply same_data_trans; [|exact H2]|]. intros Hr. constructor; [|by apply H3]. by apply has_column_app.
Qed.

(** Evolution only adds.  Whatever fails, the columns a table had keep their
    place, their name and their type; and when it succeeds, every requested column
    is there. *)
Theorem evolve_only_adds (fault : Stmt → option string) (c : Catalog) (change : SchemaEvolution)
    (columns : list (string * string)) :
  let table := dataset_table (ev_dataset change) in
  cat_tables c !! table = Some columns →
  let '(r, c') := evolve_schema_blocking fault c change in
  ∃ extra, cat_tables c' !! table = Some (columns ++ extra) ∧
    (r = Ok tt → Forall (λ col, has_column (columns ++ extra) col = true) (ev_columns change)).
Proof.
  intros table Hc. unfold evolve_schema_blocking. fold table. rewrite Hc.
  destruct (exec fault StTableExists) as [[]|]; [|exists []; rewrite app_nil_r; split; [done|by intros [=]]].
  destruct (add_columns fault c table (ev_columns change)) as [r c'] eqn:E.
  apply add_columns_spec in E as (extra & H1 & _ & H3); [|by rewrite Hc]. rewrite Hc in *.
  by exists extra.
Qed.

(** An existing column is never widened: asked for a wider type, evolution answers
    success and leaves the narrow one. *)
Lemma evolve_does_not_widen :
  let c := set_table empty_catalog (dataset_table "logs") [("n", "INTEGER")] in
  evolve_schema_blocking (λ _, None) c
    {| ev_dataset := "logs"; ev_columns := [{| col_name := "n"; col_logical_type := "int64" |}] |}
  = (Ok tt, c).
Proof. vm_compute. reflexivity. Qed.

(** The text of a failed statement is searched for [conflict] first, so a missing
    table whose name holds that word is answered as [Aborted]. *)
Lemma missing_table_aborts :
  staging_failed (LakeBackend "Catalog Error: Table with name ds_conflicts does not exist!")
  = Ok Aborted.
Proof. vm_compute. reflexivity. Qed.
