(* ===== verification/DucklakeRace.v ===== *)
(** * Racing drains on one catalog

    Several committers of [crates/duckspout-lake-ducklake/src/lib.rs] attempt
    commits on the same catalog: two processes after a takeover, or a zombie and
    its successor.  An attempt is cut where the catalog can change under it: the
    fence row is ensured, the transaction takes its snapshot and stages its
    writes, the [COMMIT] is answered; it may vanish at any point.  Of DuckLake
    the model takes what the module documents: with retries disabled, a commit is
    admitted only if no row it updates was written since its snapshot.  The
    fence rows are the only rows two commits of different windows both update. *)

From stdpp Require Import relations.
From S2P Require Import Prelude Types Ports Naming Engine Coordinator DrainSystem.
From S2P Require Import Ducklake DucklakeProps.

(** ** The race *)

Inductive Phase :=
| Arrived
| Ensured
(** The snapshot, how often each fence row had been written by then, and the
    staged writes. *)
| Pending (base : Catalog) (seen : PartitionId → nat) (writes : list Write)
| Answered (r : result CommitOutcome LakeError).

Record Attempt := {
  at_manifest : WindowManifest;
  at_watermarks : list WatermarkRow;
  at_phase : Phase;
}.

Record Race := {
  rc_catalog : Catalog;
  (** How often the fence row of a partition was written. *)
  rc_fence_writes : PartitionId → nat;
  rc_attempts : list Attempt;
}.

Definition in_phase (a : Attempt) (ph : Phase) : Attempt :=
  {| at_manifest := at_manifest a; at_watermarks := at_watermarks a; at_phase := ph |}.

(** The fence rows a transaction updates: those its snapshot has. *)
Definition fence_updated (base : Catalog) (writes : list Write) (p : PartitionId) : bool :=
  existsb (λ w, match w with UpdateFence q _ => bool_decide (q = p) | _ => false end) writes &&
  bool_decide (p ∈ (cat_fence base).*1).

(** No fence row the transaction updates was written since its snapshot. *)
Definition admitted (base : Catalog) (seen now : PartitionId → nat) (writes : list Write) : Prop :=
  ∀ p, fence_updated base writes p = true → now p = seen p.

Definition bump (base : Catalog) (writes : list Write) (now : PartitionId → nat) :
    PartitionId → nat :=
  λ p, if fence_updated base writes p then S (now p) else now p.

Section race.
Context `{LakeLibs} (config : DuckLakeConfig).

(** What staging makes of an attempt, on the snapshot [c]. *)
Definition staged_phase (fault : Stmt → option string) (c : Catalog)
    (now : PartitionId → nat) (a : Attempt) : Phase :=
  match Ducklake.exec fault StBegin with
  | Err e => Answered (Err e)
  | Ok _ =>
      match stage_commit_writes fault config c (at_manifest a) (at_watermarks a) with
      | Ok AlreadyRegistered => Answered (Ok Committed)
      | Err error => Answered (staging_failed error)
      | Ok (Wrote writes) => Pending c now writes
      end
  end.

Inductive race_step : Race → Race → Prop :=
(** A committer starts an attempt; a manifest names each of its parts once. *)
| RaceArrive c now attempts m ws :
    NoDup (m_parts m) →
    race_step {| rc_catalog := c; rc_fence_writes := now; rc_attempts := attempts |}
      {| rc_catalog := c; rc_fence_writes := now;
         rc_attempts := {| at_manifest := m; at_watermarks := ws; at_phase := Arrived |} :: attempts |}
| RaceEnsure c now before after a :
    at_phase a = Arrived →
    race_step {| rc_catalog := c; rc_fence_writes := now; rc_attempts := before ++ a :: after |}
      {| rc_catalog := ensure_fence c (m_partition (at_manifest a)); rc_fence_writes := now;
         rc_attempts := before ++ in_phase a Ensured :: after |}
| RaceEnsureFailed c now before after a (landed : bool) :
    at_phase a = Arrived →
    race_step {| rc_catalog := c; rc_fence_writes := now; rc_attempts := before ++ a :: after |}
      {| rc_catalog := if landed then ensure_fence c (m_partition (at_manifest a)) else c;
         rc_fence_writes := now;
         rc_attempts := before ++ in_phase a (Answered (Ok Aborted)) :: after |}
| RaceStage c now before after a fault :
    at_phase a = Ensured →
    race_step {| rc_catalog := c; rc_fence_writes := now; rc_attempts := before ++ a :: after |}
      {| rc_catalog := c; rc_fence_writes := now;
         rc_attempts := before ++ in_phase a (staged_phase fault c now a) :: after |}
| RaceCommit c now before after a base seen writes :
    at_phase a = Pending base seen writes → admitted base seen now writes →
    race_step {| rc_catalog := c; rc_fence_writes := now; rc_attempts := before ++ a :: after |}
      {| rc_catalog := apply_writes c writes; rc_fence_writes := bump base writes now;
         rc_attempts := before ++ in_phase a (Answered (Ok Committed)) :: after |}
(** The [COMMIT] answers with an error; it landed all the same only if its answer
    was lost. *)
| RaceCommitFailed c now before after a base seen writes msg :
    at_phase a = Pending base seen writes →
    race_step {| rc_catalog := c; rc_fence_writes := now; rc_attempts := before ++ a :: after |}
      {| rc_catalog := c; rc_fence_writes := now;
         rc_attempts :=
           before ++ in_phase a (Answered (Ok (commit_error_outcome
             (catalog_kind (catalog_uri config)) msg))) :: after |}
| RaceAnswerLost c now before after a base seen writes msg :
    at_phase a = Pending base seen writes → admitted base seen now writes →
    catalog_kind (catalog_uri config) = Postgres →
    str_contains "conflict" (lowercase msg) = false →
    race_step {| rc_catalog := c; rc_fence_writes := now; rc_attempts := before ++ a :: after |}
      {| rc_catalog := apply_writes c writes; rc_fence_writes := bump base writes now;
         rc_attempts :=
           before ++ in_phase a (Answered (Ok (commit_error_outcome
             (catalog_kind (catalog_uri config)) msg))) :: after |}
| RaceVanish c now before after a :
    race_step {| rc_catalog := c; rc_fence_writes := now; rc_attempts := before ++ a :: after |}
      {| rc_catalog := c; rc_fence_writes := now; rc_attempts := before ++ after |}
(** Retention expires parts, in a transaction of its own. *)
| RaceExpire c now attempts fault parts writes :
    expire_writes fault config c parts = Ok writes →
    race_step {| rc_catalog := c; rc_fence_writes := now; rc_attempts := attempts |}
      {| rc_catalog := apply_writes c writes; rc_fence_writes := now; rc_attempts := attempts |}.

Inductive race_reachable : Race → Prop :=
| race_start :
    race_reachable {| rc_catalog := empty_catalog; rc_fence_writes := λ _, O; rc_attempts := [] |}
| race_next s s' : race_reachable s → race_step s s' → race_reachable s'.

(** [commit_files_blocking] is an attempt that runs with no other step between its
    own. *)
Lemma attempt_alone fault landed c now before after a r c' :
  at_phase a = Arrived → (landed = true → answer_lost config fault) →
  commit_files_blocking config fault landed c (at_manifest a) (at_watermarks a) = (r, c') →
  ∃ now', rtc race_step
    {| rc_catalog := c; rc_fence_writes := now; rc_attempts := before ++ a :: after |}
    {| rc_catalog := c'; rc_fence_writes := now';
       rc_attempts := before ++ in_phase a (Answered r) :: after |}.
Proof.
  intros Hph Hlost. unfold commit_files_blocking. destruct (Ducklake.exec fault StEnsureFence) as [[]|].
  2:{ intros [= <- <-]. exists now. apply rtc_once. by apply RaceEnsureFailed. }
  set (c1 := ensure_fence c (m_partition (at_manifest a))). intros Hrun.
  assert (∀ now' ph, rtc race_step {| rc_catalog := c1; rc_fence_writes := now;
      rc_attempts := before ++ in_phase a (staged_phase fault c1 now a) :: after |}
    {| rc_catalog := c'; rc_fence_writes := now'; rc_attempts := before ++ in_phase a ph :: after |} →
    rtc race_step {| rc_catalog := c; rc_fence_writes := now; rc_attempts := before ++ a :: after |}
    {| rc_catalog := c'; rc_fence_writes := now'; rc_attempts := before ++ in_phase a ph :: after |})
    as Hstart.
  { intros now' ph Hr. eapply rtc_l; [by apply RaceEnsure|].
    eapply rtc_l; [by apply (RaceStage _ now before after (in_phase a Ensured) fault)|]. exact Hr. }
  unfold staged_phase in Hstart. destruct (Ducklake.exec fault StBegin) as [[]|e].
  2:{ injection Hrun as <- <-. exists now. by apply Hstart. }
  destruct (stage_commit_writes fault config c1 _ _) as [[writes|]|error].
  2,3: injection Hrun as <- <-; exists now; by apply Hstart.
  assert (admitted c1 now now writes) as Hadm by done.
  destruct (fault StCommit) as [msg|] eqn:Hc.
  - injection Hrun as <- <-. destruct landed.
    + destruct (Hlost eq_refl) as [Hk Hm]. eexists. apply Hstart, rtc_once.
      eapply (RaceAnswerLost _ now before after (in_phase a (Pending c1 now writes))); try done. by apply Hm.
    + exists now. apply Hstart, rtc_once.
      by eapply (RaceCommitFailed _ now before after (in_phase a (Pending c1 now writes))).
  - injection Hrun as <- <-. eexists. apply Hstart, rtc_once.
    by eapply (RaceCommit _ now before after (in_phase a (Pending c1 now writes))).
Qed.

(** ** What the writes of an attempt add *)

Definition row_key (row : ManifestRow) : PartitionId * Z * PartName :=
  (mr_partition row, mr_window_id row, mr_part_name row).

Definition keys (c : Catalog) : list (PartitionId * Z * PartName) := row_key <$> cat_manifests c.

Definition inserted (w : Write) : option ManifestRow :=
  match w with InsertManifest row => Some row | _ => None end.
Definition added_file (w : Write) : option (string * string) :=
  match w with AddDataFile table path => Some (table, path) | _ => None end.

(** A write of a commit transaction. *)
Definition commit_write (w : Write) : Prop :=
  match w with DeleteFile _ _ | MarkExpired _ | InsertFence _ => False | _ => True end.

Lemma commit_writes_add ws c :
  Forall commit_write ws →
  cat_manifests (apply_writes c ws) = cat_manifests c ++ omap inserted ws ∧
  cat_files (apply_writes c ws) = cat_files c ++ omap added_file ws ∧
  (cat_fence (apply_writes c ws)).*1 = (cat_fence c).*1.
Proof.
  revert c. induction ws as [|w ws IH]; intros c Hw; [by rewrite !app_nil_r|].
  inversion Hw as [|?? H1 H2]; subst. unfold apply_writes in *. simpl.
  destruct (IH (apply_write c w) H2) as (E1 & E2 & E3). rewrite E1, E2, E3.
  destruct w; simpl in *; try done; rewrite <-?app_assoc; simpl; try done.
  by rewrite update_rows_keys.
Qed.

Lemma upsert_shape fault view ws writes :
  upsert_watermarks fault view ws = Ok writes →
  Forall commit_write writes ∧ omap inserted writes = [] ∧ omap added_file writes = [].
Proof.
  revert view writes. induction ws as [|row ws IH]; intros view writes; simpl; [by intros [= <-]|].
  destruct (Ducklake.exec fault _) as [[]|]; [|done]. case_bool_decide.
  - destruct (upsert_watermarks _ _ ws) as [rest|] eqn:E; [|done]. intros [= <-].
    apply IH in E as (? & ? & ?). split; [by constructor|done].
  - destruct (Ducklake.exec fault _) as [[]|]; [|done].
    destruct (upsert_watermarks _ _ ws) as [rest|] eqn:E; [|done]. intros [= <-].
    apply IH in E as (? & ? & ?). split; [by constructor|done].
Qed.

Lemma register_shape fault m coverage absent writes :
  register_parts fault config m coverage absent = Ok writes →
  Forall commit_write writes ∧ omap inserted writes = manifest_row m coverage <$> absent ∧
  omap added_file writes = file_of config <$> (manifest_row m coverage <$> absent).
Proof.
  revert writes. induction absent as [|part absent IH]; intros writes; simpl; [by intros [= <-]|].
  destruct (Ducklake.exec fault _) as [[]|]; [|done]. destruct (Ducklake.exec fault _) as [[]|]; [|done].
  destruct (register_parts _ _ _ _ absent) as [rest|] eqn:E; [|done]. intros [= <-].
  destruct (IH rest eq_refl) as (? & H2 & H3). split; [repeat constructor; done|].
  csimpl. by rewrite H2, H3.
Qed.

Lemma absent_spec fault c p w parts absent :
  absent_parts fault c p w parts = Ok absent →
  absent = filter (λ part, part_registered (cat_manifests c) p w part = false) parts.
Proof.
  revert absent. induction parts as [|part parts IH]; intros absent; simpl; [by intros [= <-]|].
  destruct (Ducklake.exec fault _) as [[]|]; [|done].
  destruct (absent_parts fault c p w parts) as [rest|] eqn:E; [|done]. intros [= <-].
  rewrite (IH rest eq_refl), filter_cons.
  destruct (part_registered (cat_manifests c) p w part) eqn:Er;
    [rewrite decide_False by done|rewrite decide_True by done]; done.
Qed.

Lemma registered_key c p w part :
  part_registered (cat_manifests c) p w part = true ↔ (p, w, part) ∈ keys c.
Proof.
  rewrite part_registered_spec. unfold keys. rewrite list_elem_of_fmap. split.
  - intros (row & (row0 & -> & Hin)%list_elem_of_fmap & <- & <- & <-). by exists row0.
  - intros (row & [= -> -> ->] & Hin). exists (unexpired row). split; [|done].
    apply list_elem_of_fmap. by exists row.
Qed.

(** What a pending attempt for [m] would add to a catalog [c]: rows of its
    partition that are new there, with their files; and it updates its fence row. *)
Record pending_ok (m : WindowManifest) (base c : Catalog) (writes : list Write) : Prop := {
  pe_writes : Forall commit_write writes;
  pe_files : omap added_file writes = file_of config <$> omap inserted writes;
  pe_partition : ∀ row, row ∈ omap inserted writes → mr_partition row = m_partition m;
  pe_once : NoDup (row_key <$> omap inserted writes);
  pe_new : ∀ row, row ∈ omap inserted writes → row_key row ∉ keys c;
  pe_all : ∀ part, part ∈ m_parts m →
    (m_partition m, i64_of_u64 (m_window_id m), part) ∈ keys c ++ (row_key <$> omap inserted writes);
  pe_fence : fence_updated base writes (m_partition m) = true;
}.

Lemma stage_pending fault c m ws writes :
  NoDup (m_parts m) → m_partition m ∈ (cat_fence c).*1 →
  stage_commit_writes fault config c m ws = Ok (Wrote writes) → pending_ok m c c writes.
Proof.
  intros Hnd Hf. unfold stage_commit_writes. set (w := i64_of_u64 (m_window_id m)).
  destruct (absent_parts fault c (m_partition m) w (m_parts m)) as [absent|] eqn:Ha; [|done].
  apply absent_spec in Ha.
  assert (∀ b : result Staged LakeError, (match absent, m_parts m with [], _ :: _ => Ok AlreadyRegistered | _, _ => b end)
    = Ok (Wrote writes) → b = Ok (Wrote writes)) as Hb.
  { intros b. destruct absent, (m_parts m); congruence. }
  intros Hs%Hb. destruct (ranges_to_json _) as [cov|]; [|done]. simpl in Hs.
  destruct (register_parts fault config m cov absent) as [reg|] eqn:Hr; [|done].
  destruct (upsert_watermarks fault c ws) as [ups|] eqn:Hu; [|done].
  destruct (Ducklake.exec fault StUpdateFence) as [[]|]; [|done]. injection Hs as <-.
  apply register_shape in Hr as (R1 & R2 & R3). apply upsert_shape in Hu as (U1 & U2 & U3).
  assert (omap inserted (reg ++ ups ++ [UpdateFence (m_partition m) w]) = manifest_row m cov <$> absent) as Hi.
  { rewrite !omap_app, R2, U2. by rewrite app_nil_r. }
  assert (∀ part, part ∈ absent ↔ part ∈ m_parts m ∧ (m_partition m, w, part) ∉ keys c) as Habs.
  { intros part. rewrite Ha, list_elem_of_filter, <-registered_key. rewrite not_true_iff_false. naive_solver. }
  split.
  - rewrite !Forall_app. split; [done|]. split; [done|]. by repeat constructor.
  - rewrite Hi, !omap_app, R3, U3. by rewrite app_nil_r.
  - rewrite Hi. by intros row (part & -> & _)%list_elem_of_fmap.
  - rewrite Hi, <-list_fmap_compose. apply NoDup_fmap_2; [by intros ?? [= ->]|].
    rewrite Ha. by apply NoDup_filter.
  - rewrite Hi. intros row (part & -> & Hp)%list_elem_of_fmap. by apply Habs in Hp as [_ ?].
  - rewrite Hi. intros part Hp. apply elem_of_app.
    destruct (decide ((m_partition m, w, part) ∈ keys c)) as [Hk|Hk]; [by left|right].
    apply list_elem_of_fmap. exists (manifest_row m cov part). split; [done|].
    apply list_elem_of_fmap. exists part. split; [done|]. by apply Habs.
  - unfold fence_updated. rewrite !existsb_app. simpl.
    rewrite (bool_decide_true (m_partition m = m_partition m)) by done.
    rewrite (bool_decide_true _ Hf), !orb_true_r. done.
Qed.

(** ** How the catalog grows *)

Record grows (c : Catalog) (now : PartitionId → nat) (c' : Catalog) (now' : PartitionId → nat) :
    Prop := {
  gr_keys : keys c ⊆ keys c';
  gr_fence : (cat_fence c).*1 ⊆ (cat_fence c').*1;
  gr_now : ∀ p, (now p ≤ now' p)%nat;
  (** New rows of a partition come with a write of its fence row. *)
  gr_new : ∀ k, k ∈ keys c' → now' k.1.1 = now k.1.1 → k ∈ keys c;
}.

Definition attempt_ok (c : Catalog) (now : PartitionId → nat) (a : Attempt) : Prop :=
  let m := at_manifest a in
  NoDup (m_parts m) ∧
  match at_phase a with
  | Arrived => True
  | Ensured => m_partition m ∈ (cat_fence c).*1
  | Pending base seen writes =>
      (∀ p, (seen p ≤ now p)%nat) ∧ fence_updated base writes (m_partition m) = true ∧
      (now (m_partition m) = seen (m_partition m) → pending_ok m base c writes)
  | Answered (Ok Committed) =>
      ∀ part, part ∈ m_parts m → (m_partition m, i64_of_u64 (m_window_id m), part) ∈ keys c
  | Answered _ => True
  end.

Record race_ok (s : Race) : Prop := {
  ro_once : NoDup (keys (rc_catalog s));
  ro_files : cat_files (rc_catalog s) ≡ₚ file_of config <$> cat_manifests (rc_catalog s);
  ro_attempts : ∀ a, a ∈ rc_attempts s → attempt_ok (rc_catalog s) (rc_fence_writes s) a;
}.

Lemma attempt_grows c now c' now' a :
  grows c now c' now' → attempt_ok c now a → attempt_ok c' now' a.
Proof.
  intros Hg [Hnd Hph]. split; [done|]. destruct (at_phase a) as [| |base seen writes|[[]|]]; try done.
  - by apply (gr_fence _ _ _ _ Hg).
  - destruct Hph as (Hseen & Hf & Hp). split; [|split; [done|]].
    + intros p. etrans; [apply Hseen|apply Hg].
    + intros Hnow. pose proof (Hseen (m_partition (at_manifest a))).
      pose proof (gr_now _ _ _ _ Hg (m_partition (at_manifest a))).
      destruct Hp as [P1 P2 P3 P4 P5 P6 P7]; [lia|]. split; try done.
      * intros row Hrow Hk. apply (P5 row Hrow). apply (gr_new _ _ _ _ Hg); [done|].
        simpl. rewrite (P3 row Hrow). lia.
      * intros part Hpart. apply P6 in Hpart. apply elem_of_app in Hpart as [Hk|Hk]; apply elem_of_app;
          [left; by apply Hg|by right].
  - intros part Hpart. apply Hg. by apply Hph.
Qed.

Lemma grows_refl c now : grows c now c now.
Proof. split; done || lia. Qed.

Lemma ensure_grows c now p : grows c now (ensure_fence c p) now.
Proof.
  unfold ensure_fence. case_bool_decide; [apply grows_refl|]. split; try done.
  simpl. rewrite fmap_app. set_solver.
Qed.

Lemma ensured_in c p : p ∈ (cat_fence (ensure_fence c p)).*1.
Proof. unfold ensure_fence. case_bool_decide; [done|]. simpl. rewrite fmap_app. set_solver. Qed.

Lemma commit_grows m base now c writes :
  pending_ok m base c writes →
  keys (apply_writes c writes) = keys c ++ (row_key <$> omap inserted writes) ∧
  grows c now (apply_writes c writes) (bump base writes now).
Proof.
  intros [P1 P2 P3 P4 P5 P6 P7]. destruct (commit_writes_add writes c P1) as (E1 & _ & E3).
  assert (keys (apply_writes c writes) = keys c ++ (row_key <$> omap inserted writes)) as Ek.
  { unfold keys. by rewrite E1, fmap_app. }
  split; [done|]. split.
  - rewrite Ek. set_solver.
  - by rewrite E3.
  - intros p. unfold bump. case_match; lia.
  - intros k. rewrite Ek. intros [Hk|Hk]%elem_of_app Hnow; [done|].
    apply list_elem_of_fmap in Hk as (row & -> & Hrow). simpl in Hnow. rewrite (P3 row Hrow) in Hnow.
    unfold bump in Hnow. rewrite P7 in Hnow. lia.
Qed.

Definition expire_write (w : Write) : Prop :=
  match w with DeleteFile _ _ | MarkExpired _ => True | _ => False end.

Lemma expire_shape fault view parts writes :
  expire_writes fault config view parts = Ok writes → Forall expire_write writes.
Proof.
  revert view writes. induction parts as [|part parts IH]; intros view writes; simpl; [by intros [= <-]|].
  destruct (fault _); [done|]. destruct (find _ _) as [row|]; [|done].
  destruct (mr_expired row); [apply IH|]. destruct (Ducklake.exec fault _) as [[]|]; [|done].
  destruct (Ducklake.exec fault _) as [[]|]; [|done].
  destruct (expire_writes _ _ _ parts) as [rest|] eqn:E; [|done]. intros [= <-].
  repeat constructor. by eapply IH.
Qed.

Lemma expire_keeps ws c :
  Forall expire_write ws →
  keys (apply_writes c ws) = keys c ∧ cat_files (apply_writes c ws) = cat_files c ∧
  cat_fence (apply_writes c ws) = cat_fence c ∧
  file_of config <$> cat_manifests (apply_writes c ws) = file_of config <$> cat_manifests c.
Proof.
  revert c. induction ws as [|w ws IH]; intros c Hw; [done|]. inversion Hw as [|?? H1 H2]; subst.
  unfold apply_writes in *. simpl. destruct (IH (apply_write c w) H2) as (-> & -> & -> & ->).
  destruct w; try done. unfold keys. simpl. rewrite <-!list_fmap_compose.
  split_and!; try done; apply list_fmap_ext; intros _ row _; simpl; by case_decide.
Qed.

(** An attempt that moves, in a catalog that grows. *)
Lemma race_moves c now c' now' before after a ph :
  race_ok {| rc_catalog := c; rc_fence_writes := now; rc_attempts := before ++ a :: after |} →
  grows c now c' now' → NoDup (keys c') → cat_files c' ≡ₚ file_of config <$> cat_manifests c' →
  (attempt_ok c now a → attempt_ok c' now' (in_phase a ph)) →
  race_ok {| rc_catalog := c'; rc_fence_writes := now'; rc_attempts := before ++ in_phase a ph :: after |}.
Proof.
  intros Hok Hg H1 H2 Ha. split; simpl; [done..|]. intros b Hb.
  apply elem_of_app in Hb as [Hb|[->|Hb]%elem_of_cons].
  - apply (attempt_grows c now); [done|]. apply Hok. simpl. set_solver.
  - apply Ha, Hok. simpl. set_solver.
  - apply (attempt_grows c now); [done|]. apply Hok. simpl. set_solver.
Qed.

Lemma stage_ok fault c now a :
  at_phase a = Ensured → attempt_ok c now a → attempt_ok c now (in_phase a (staged_phase fault c now a)).
Proof.
  intros Hph [Hnd Hf]. rewrite Hph in Hf. split; [done|]. simpl. unfold staged_phase.
  destruct (Ducklake.exec fault StBegin) as [[]|]; [|done].
  destruct (stage_commit_writes fault config c (at_manifest a) (at_watermarks a)) as [[writes|]|error] eqn:Hs.
  - apply stage_pending in Hs; [|done..]. split; [done|]. split; [apply Hs|done].
  - intros part Hpart. apply registered_key. unfold stage_commit_writes in Hs.
    destruct (absent_parts _ _ _ _ _) as [absent|] eqn:Ha; [|done]. apply absent_spec in Ha.
    assert (absent = []) as ->.
    { destruct absent as [|x absent]; [done|]. exfalso. revert Hs.
      destruct (ranges_to_json _) as [cov|]; [|done].
      destruct (map_err _ _) as [cov'|]; [|done].
      destruct (register_parts _ _ _ _ _); [|done]. destruct (upsert_watermarks _ _ _); [|done].
      by destruct (Ducklake.exec fault StUpdateFence). }
    apply not_false_iff_true. intros E.
    assert (part ∈ @nil PartName) as Hin by (rewrite Ha; by apply list_elem_of_filter).
    by apply elem_of_nil in Hin.
  - unfold staging_failed. repeat case_match; done.
Qed.

(** A pending commit lands. *)
Lemma race_commit_ok c now before after a base seen writes ph :
  race_ok {| rc_catalog := c; rc_fence_writes := now; rc_attempts := before ++ a :: after |} →
  at_phase a = Pending base seen writes → admitted base seen now writes →
  (ph = Answered (Ok Committed) ∨ ∃ o, ph = Answered (Ok o) ∧ o ≠ Committed) →
  race_ok {| rc_catalog := apply_writes c writes; rc_fence_writes := bump base writes now;
             rc_attempts := before ++ in_phase a ph :: after |}.
Proof.
  intros Hok Hph Hadm Hnext.
  assert (attempt_ok c now a) as Ha by (apply Hok; simpl; set_solver).
  pose proof Ha as Ha'. unfold attempt_ok in Ha'. rewrite Hph in Ha'. destruct Ha' as (Hnd & _ & Hfu & Hp).
  specialize (Hp (Hadm _ Hfu)). destruct (commit_grows _ _ now _ _ Hp) as [Ek Hg].
  destruct Hp as [P1 P2 P3 P4 P5 P6 P7]. destruct (commit_writes_add writes c P1) as (E1 & E2 & _).
  apply (race_moves c now); try done.
  - rewrite Ek. apply NoDup_app. split; [apply (ro_once _ Hok)|]. split; [|done].
    intros k Hk (row & -> & Hrow)%list_elem_of_fmap. by apply (P5 row).
  - rewrite E1, E2, fmap_app, P2. by apply Permutation_app; [apply (ro_files _ Hok)|].
  - intros _. split; [done|]. simpl. destruct Hnext as [->|(o & -> & Ho)]; [|by destruct o].
    intros part Hpart. rewrite Ek. by apply P6.
Qed.

Lemma race_step_ok s s' : race_ok s → race_step s s' → race_ok s'.
Proof.
  intros Hok Hstep. destruct Hstep as [c now attempts m ws Hnd|c now before after a Hph|
    c now before after a landed Hph|c now before after a fault Hph|
    c now before after a base seen writes Hph Hadm|c now before after a base seen writes msg Hph|
    c now before after a base seen writes msg Hph Hadm Hpg Hmsg|c now before after a|
    c now attempts fault parts writes Hw].
  - destruct Hok as [H1 H2 H3]. split; simpl in *; try done. intros b [->|Hb]%elem_of_cons; [by split|auto].
  - assert (∀ p, keys (ensure_fence c p) = keys c ∧ cat_files (ensure_fence c p) = cat_files c ∧
      cat_manifests (ensure_fence c p) = cat_manifests c) as He
      by (intros p; unfold ensure_fence; by case_bool_decide).
    destruct (He (m_partition (at_manifest a))) as (K & F & M).
    apply (race_moves c now); [done|apply ensure_grows|rewrite K; apply Hok|rewrite F, M; apply Hok|].
    intros [Hnd _]. split; [done|]. apply ensured_in.
  - assert (∀ p, keys (ensure_fence c p) = keys c ∧ cat_files (ensure_fence c p) = cat_files c ∧
      cat_manifests (ensure_fence c p) = cat_manifests c) as He
      by (intros p; unfold ensure_fence; by case_bool_decide).
    destruct (He (m_partition (at_manifest a))) as (K & F & M).
    destruct landed; (apply (race_moves c now); [done|apply ensure_grows || apply grows_refl|
      rewrite ?K; apply Hok|rewrite ?F, ?M; apply Hok|by intros [Hnd _]]).
  - apply (race_moves c now); [done|apply grows_refl|apply Hok|apply Hok|]. by apply stage_ok.
  - eapply race_commit_ok; eauto.
  - apply (race_moves c now); [done|apply grows_refl|apply Hok|apply Hok|]. intros [Hnd _].
    split; [done|]. simpl. unfold commit_error_outcome. repeat case_match; done.
  - eapply race_commit_ok; eauto. right. eexists. split; [done|]. unfold commit_error_outcome.
    rewrite Hmsg, Hpg. done.
  - destruct Hok as [H1 H2 H3]. split; simpl in *; try done. intros b Hb. apply H3. set_solver.
  - apply expire_shape in Hw. destruct (expire_keeps _ c Hw) as (K & F & G & M).
    destruct Hok as [H1 H2 H3]. simpl in *. split; simpl; [by rewrite K|by rewrite F, M|].
    intros b Hb. apply (attempt_grows c now); [|by apply H3]. split; try done; by rewrite ?K, ?G.
Qed.

Lemma race_reachable_ok s : race_reachable s → race_ok s.
Proof.
  induction 1 as [|s s' _ IH Hstep]; [|by eapply race_step_ok].
  split; simpl; [constructor|done|]. intros a Ha. by apply elem_of_nil in Ha.
Qed.

(** C5: A part is committed once, whoever races.  However many committers attempt
    commits on one catalog, of the same windows and parts, interleaved at any
    point, with any statement failing, answers lost, committers vanishing and
    retention expiring parts meanwhile, no part is ever registered twice under its
    window, every manifest row has exactly one registered file and every registered
    file one manifest row, and a committer that was told [Committed] finds every
    part of its manifest registered. *)
Theorem single_drain_commit (s : Race) :
  race_reachable s →
  let c := rc_catalog s in
  NoDup (keys c) ∧ cat_files c ≡ₚ file_of config <$> cat_manifests c ∧
  (∀ a, a ∈ rc_attempts s → at_phase a = Answered (Ok Committed) →
     ∀ part, part ∈ m_parts (at_manifest a) →
       (m_partition (at_manifest a), i64_of_u64 (m_window_id (at_manifest a)), part) ∈ keys c).
Proof.
  intros [H1 H2 H3]%race_reachable_ok. split; [done|]. split; [done|].
  intros a Ha Hph. destruct (H3 a Ha) as [_ Hx]. by rewrite Hph in Hx.
Qed.

End race.
