(* ===== verification/Conformance.v ===== *)
(** * The conformance suite of the lake port

    Models [crates/duckspout-lake-contract/src/conformance.rs]: the checklist a backend
    of [LakeCommitter] is certified by, and the race of two drains.  The suite is
    written against the port; the DuckLake committer of [Ducklake.v] is an instance of
    it, and passes. *)

From stdpp Require Import relations.
From S2P Require Import Prelude Types Ports Engine.
From S2P Require Import Ducklake DucklakeProps DucklakeRace.

(** ** The port and the harness *)

(** [LakeCommitter], on the state [T] behind it. *)
Class LakeCommitter (T : Type) := {
  lc_evolve_schema : T → SchemaEvolution → result unit LakeError * T;
  lc_commit_files : T → WindowManifest → list WatermarkRow → result CommitOutcome LakeError * T;
  lc_expire : T → list PartName → result unit LakeError * T;
  lc_read_watermarks : T → list PartitionId → result (list WatermarkRow) LakeError * T;
  lc_attach_info : T → result AttachInfo LakeError * T;
}.

(** [PartMaterializer], on the harness's state. *)
Class PartMaterializer (H : Type) := materialize : H → PartName → result unit string * H.

(** [ConformanceError] *)
Inductive ConformanceError :=
| CheckFailed (check detail : string)
| Harness (msg : string).

(** ** The suite's data *)

Definition DATASET : string := "conformance".

Definition suite_schema : SchemaEvolution :=
  {| ev_dataset := DATASET;
     ev_columns := [{| col_name := "ts"; col_logical_type := "timestamp_micros" |};
                    {| col_name := "body"; col_logical_type := "utf8" |}] |}.

(** [part_name] *)
Definition suite_part (partition : string) (window : N) : PartName :=
  DATASET +:+ "/" +:+ partition +:+ "/w" +:+ pretty window +:+ "-primary.parquet".

(** [manifest]; the two products wrap in a release build. *)
Definition suite_manifest (partition : string) (window first last : N) : WindowManifest :=
  let event_time := ((1000 * i64_of_u64 (u64_succ window) + 2 ^ 63) mod 2 ^ 64 - 2 ^ 63)%Z in
  {| m_dataset := DATASET; m_partition := partition; m_window_id := window;
     m_origin_coverage := [{| origin := "conf-o1"; first_seq := first; last_seq := last |}];
     m_rows := (((last + 2 ^ 64 - first) mod 2 ^ 64 + 1) mod 2 ^ 64)%N;
     m_event_time_min_ms := event_time; m_event_time_max_ms := event_time;
     m_dedup_removed := 0; m_parts := [suite_part partition window] |}.

(** [watermark] *)
Definition suite_watermark (partition : string) (ms : Z) : WatermarkRow :=
  {| wr_partition := partition; wr_complete_through_ms := ms |}.

Definition fail (check detail : string) : ConformanceError := CheckFailed check detail.

(** [CommitOutcome] under [Debug]. *)
Definition outcome_debug (outcome : CommitOutcome) : string :=
  match outcome with Committed => "Committed" | Aborted => "Aborted" | Indeterminate => "Indeterminate" end.

(** ** The checks *)

Section suite.
Context `{LakeCommitter T} `{PartMaterializer W}.

(** A step of the suite: the backend's state and the harness's are threaded, and the
    first error ends it. *)
Definition suite (A : Type) : Type := T * W → result A ConformanceError * (T * W).

Definition pure {A} (a : A) : suite A := λ s, (Ok a, s).

Definition then_ {A B} (m : suite A) (k : A → suite B) : suite B :=
  λ s, match m s with (Ok a, s) => k a s | (Err e, s) => (Err e, s) end.

#[local] Notation "x <- m ;; k" := (then_ m (λ x, k)) (at level 100, m at next level, right associativity).
#[local] Notation "m ;;; k" := (then_ m (λ _, k)) (at level 100, right associativity).

(** A call of the port, its error rendered with [what] before it. *)
Definition ask {A} (call : T → result A LakeError * T) (check what : string) : suite A :=
  λ '(t, m), let '(r, t) := call t in
    (map_err (λ e, fail check (what +:+ lake_error_text e)) r, (t, m)).

(** [if !condition { return Err(..) }] *)
Definition require (condition : bool) (check detail : string) : suite unit :=
  λ s, (if condition then Ok tt else Err (fail check detail), s).

(** [rows.iter().find(..)] *)
Definition find_row (partition : string) (rows : list WatermarkRow) : option Z :=
  wr_complete_through_ms <$> find (λ row, bool_decide (wr_partition row = partition)) rows.

(** [read_one] *)
Definition read_one (partition check : string) : suite (option Z) :=
  rows <- ask (λ t, lc_read_watermarks t [partition]) check "read_watermarks failed: ";;
  pure (find_row partition rows).

Fixpoint materialize_parts (parts : list PartName) : suite unit :=
  match parts with
  | [] => pure tt
  | part :: parts =>
      (λ '(t, m), let '(r, m) := materialize m part in (map_err Harness r, (t, m)));;;
      materialize_parts parts
  end.

(** [commit] *)
Definition suite_commit (m : WindowManifest) (rows : list WatermarkRow) (check : string) :
    suite CommitOutcome :=
  materialize_parts (m_parts m);;;
  ask (λ t, lc_commit_files t m rows) check "commit_files errored: ".

(** A commit that must answer [Committed] and leave the watermark at [expected]. *)
Definition committed_at (m : WindowManifest) (rows : list WatermarkRow) (expected : Z)
    (check returned moved : string) : suite unit :=
  outcome <- suite_commit m rows check;;
  require (bool_decide (outcome = Committed)) check (returned +:+ outcome_debug outcome);;;
  seen <- read_one (m_partition m) check;;
  require (bool_decide (seen = Some expected)) check moved.

Definition p0 : string := "conf.p0".

Definition evolve_idempotent : suite unit :=
  let check := "evolve_idempotent" in
  ask (λ t, lc_evolve_schema t suite_schema) check "evolve_schema failed: ";;;
  ask (λ t, lc_evolve_schema t suite_schema) check "evolve_schema failed: ".

Definition commit_advances_watermark : suite unit :=
  committed_at (suite_manifest p0 0 1 10) [suite_watermark p0 1000] 1000
    "commit_advances_watermark" "first commit returned " "watermark did not advance to 1000".

Definition re_registration_short_circuits : suite unit :=
  committed_at (suite_manifest p0 0 1 10) [suite_watermark p0 1000] 1000
    "re_registration_short_circuits" "repeat commit returned " "repeat commit moved the watermark".

Definition watermark_monotone_check : suite unit :=
  committed_at (suite_manifest p0 1 11 20) [suite_watermark p0 2000] 2000
    "watermark_monotone" "second window returned " "watermark did not advance to 2000".

Definition commit_without_watermark_row : suite unit :=
  committed_at (suite_manifest p0 2 31 40) [] 2000
    "commit_without_watermark_row" "rowless commit returned " "a rowless commit moved the watermark".

Definition expire_keeps_fence : suite unit :=
  let check := "expire_keeps_fence" in
  ask (λ t, lc_expire t [suite_part p0 0]) check "expire failed: ";;;
  seen <- read_one p0 check;;
  require (bool_decide (seen = Some 2000%Z)) check "expire moved the watermark";;;
  outcome <- suite_commit (suite_manifest p0 0 1 10) [suite_watermark p0 1000] check;;
  require (negb (bool_decide (outcome = Indeterminate))) check
    "re-commit of an expired window was Indeterminate";;;
  seen <- read_one p0 check;;
  require (bool_decide (seen = Some 2000%Z)) check
    "re-commit of an expired window changed the watermark (TN-36: the fence must span lake ∪ expired)";;;
  ask (λ t, lc_expire t [suite_part p0 0]) check "re-expire failed: ".

Definition unknown_partition_has_no_row : suite unit :=
  let check := "unknown_partition_has_no_row" in
  seen <- read_one "conf.absent" check;;
  require (bool_decide (seen = None)) check "an unknown partition returned a watermark row".

Definition attach_info_answers : suite unit :=
  let check := "attach_info_answers" in
  info <- ask (λ t, lc_attach_info t) check "attach_info failed: ";;
  require (negb (bool_decide (ai_catalog_uri info = ""))) check "attach_info returned an empty catalog uri".

(** [run]: the report is the names of the checks passed. *)
Definition run : suite (list string) :=
  evolve_idempotent;;; commit_advances_watermark;;; re_registration_short_circuits;;;
  watermark_monotone_check;;; commit_without_watermark_row;;; expire_keeps_fence;;;
  unknown_partition_has_no_row;;; attach_info_answers;;;
  pure ["evolve_idempotent"; "commit_advances_watermark"; "re_registration_short_circuits";
        "watermark_monotone"; "commit_without_watermark_row"; "expire_keeps_fence";
        "unknown_partition_has_no_row"; "attach_info_answers"].

(** What the two threads of [racing_drains] answer, on the state they leave. *)
Abbreviation RaceResult := (result CommitOutcome LakeError * result CommitOutcome LakeError * T)%type.

(** The loop over the outcomes: how many committed. *)
Fixpoint count_committed (check : string) (outcomes : list (result CommitOutcome LakeError)) :
    result nat ConformanceError :=
  match outcomes with
  | [] => Ok 0
  | Ok Committed :: outcomes => let? n := count_committed check outcomes in Ok (S n)
  | Ok Aborted :: outcomes => count_committed check outcomes
  | Ok Indeterminate :: _ =>
      Err (fail check "a racing commit returned Indeterminate; the fence must resolve races definitively (§6.6)")
  | Err e :: _ => Err (fail check ("a racing commit errored: " +:+ lake_error_text e))
  end.

(** [Option<i64>] under [Debug]. *)
Definition read_debug (read : option Z) : string :=
  match read with Some ms => "Some(" +:+ pretty ms +:+ ")" | None => "None" end.

(** The loop over the committers that reads back. *)
Definition read_back (partition check : string) : suite unit :=
  rows <- ask (λ t, lc_read_watermarks t [partition]) check "read-back failed: ";;
  let read := find_row partition rows in
  require (bool_decide (read = Some 1000%Z)) check
    ("read-back saw " +:+ read_debug read +:+ ", expected 1000").

(** [racing_drains]; both committers are connected to the same state. *)
Definition racing_drains (race : T → WindowManifest → list WatermarkRow → RaceResult)
    (partition : string) : suite unit :=
  let check := "racing_drains_single_winner" in
  let evolve := ask (λ t, lc_evolve_schema t suite_schema) check "evolve_schema failed: " in
  let m := suite_manifest partition 0 1 10 in
  evolve;;; evolve;;;
  materialize_parts (m_parts m);;;
  committed <- (λ '(t, h), let '(ra, rb, t) := race t m [suite_watermark partition 1000] in
                           (count_committed check [ra; rb], (t, h)));;
  require (negb (committed =? 0)%nat) check "no racing attempt committed";;;
  read_back partition check;;; read_back partition check.
End suite.

(** ** DuckLake as a backend *)

(** No statement fails. *)
Definition calm : Stmt → option string := λ _, None.

Section ducklake.
Context `{LakeLibs} (config : DuckLakeConfig).
Context (encodes : ∀ ranges, ∃ text, ranges_to_json ranges = Ok text).

#[local] Instance ducklake_committer : LakeCommitter Catalog := {|
  lc_evolve_schema c change := evolve_schema_blocking calm c change;
  lc_commit_files c m ws := commit_files_blocking config calm false c m ws;
  lc_expire c parts := expire_blocking config calm false c parts;
  lc_read_watermarks c ps := (read_watermarks_blocking calm c ps, c);
  lc_attach_info c := (Ok (attach_info_blocking config), c);
|}.

(** The rows of a partition. *)
Definition row_of (p : string) (wm : option Z) : list (PartitionId * Z) :=
  match wm with Some ms => [(p, ms)] | None => [] end.

(** What the suite can see of a partition [p]: its watermark row, and what of it is
    registered; and that [q] has no row. *)
Record watched (p q : string) (c : Catalog) (wm : option Z) (regs : list (Z * PartName)) : Prop := {
  wt_rows : filter (λ row, row.1 = p) (cat_watermarks c) = row_of p wm;
  wt_regs : ∀ w part, part_registered (cat_manifests c) p w part = bool_decide ((w, part) ∈ regs);
  wt_absent : q ∉ (cat_watermarks c).*1;
}.

Lemma max_watermark_filter rows p :
  max_watermark rows p = max_watermark (filter (λ row, row.1 = p) rows) p.
Proof.
  induction rows as [|[k v] rows IH]; [done|]. rewrite filter_cons. unfold max_watermark in *. simpl.
  case_decide; simpl; [|done]. by rewrite decide_True, IH.
Qed.

Lemma max_watermark_absent rows p : p ∉ rows.*1 → max_watermark rows p = None.
Proof.
  induction rows as [|[k v] rows IH]; [done|]. csimpl. intros [Hk Hr]%not_elem_of_cons.
  unfold max_watermark in *. simpl. rewrite decide_False by done. by apply IH.
Qed.

(** *** The catalog *)

Lemma update_rows_filter p ms rows :
  filter (λ row, row.1 = p) (update_rows p ms rows) = (λ _, (p, ms)) <$> filter (λ row, row.1 = p) rows.
Proof.
  unfold update_rows. induction rows as [|[k v] rows IH]; csimpl; [done|]. rewrite !filter_cons. simpl.
  destruct (decide (k = p)) as [->|Hk]; simpl; [rewrite decide_True by done; csimpl; by f_equal|].
  by rewrite decide_False.
Qed.

(** The watermark a commit carries replaces the one there is. *)
Lemma upsert_watched p q c wm ws new :
  filter (λ row, row.1 = p) (cat_watermarks c) = row_of p wm → q ∉ (cat_watermarks c).*1 → p ≠ q →
  (ws = [] ∧ new = wm ∨ ∃ ms, ws = [suite_watermark p ms] ∧ new = Some ms) →
  ∃ writes, upsert_watermarks calm c ws = Ok writes ∧ Forall watermark_write writes ∧
    ∀ c', cat_watermarks c' = cat_watermarks c →
      filter (λ row, row.1 = p) (cat_watermarks (apply_writes c' writes)) = row_of p new ∧
      q ∉ (cat_watermarks (apply_writes c' writes)).*1.
Proof.
  intros Hr Ha Hpq [[-> ->]|(ms & -> & ->)]; [exists []; split; [done|]; split; [done|]; intros c' E; simpl; by rewrite E|].
  cbn [upsert_watermarks suite_watermark wr_partition wr_complete_through_ms Ducklake.exec calm].
  case_bool_decide as Hin.
  - eexists. split; [reflexivity|]. split; [by repeat constructor|]. intros c' E. simpl. rewrite E.
    rewrite update_rows_filter, update_rows_keys. split; [|done].
    destruct wm; [by rewrite Hr|]. exfalso. apply list_elem_of_fmap in Hin as (row & -> & Hin).
    assert (row ∈ filter (λ row', row'.1 = row.1) (cat_watermarks c)) as Hx by by apply list_elem_of_filter.
    rewrite Hr in Hx. by apply not_elem_of_nil in Hx.
  - eexists. split; [reflexivity|]. split; [by repeat constructor|]. intros c' E. simpl. rewrite E.
    rewrite filter_app, fmap_app. split; [|set_solver]. rewrite filter_cons, decide_True by done.
    destruct wm as [ms'|]; [|by rewrite Hr]. exfalso. apply Hin.
    assert ((p, ms') ∈ filter (λ row, row.1 = p) (cat_watermarks c)) as [_ Hx]%list_elem_of_filter
      by (rewrite Hr; by left). by apply (list_elem_of_fmap_2 fst) in Hx.
Qed.

(** The writes of a fresh commit of one part: its file, its row, the watermark, the fence. *)
Lemma stage_fresh p q c wm regs m part ws new :
  watched p q c wm regs → p ≠ q → m_partition m = p → m_parts m = [part] →
  (i64_of_u64 (m_window_id m), part) ∉ regs →
  (ws = [] ∧ new = wm ∨ ∃ ms, ws = [suite_watermark p ms] ∧ new = Some ms) →
  ∃ writes, stage_commit_writes calm config c m ws = Ok (Wrote writes) ∧
    UpdateFence p (i64_of_u64 (m_window_id m)) ∈ writes ∧
    (∀ p' last, UpdateFence p' last ∈ writes → p' = p) ∧
    ∀ c', cat_watermarks c' = cat_watermarks c → cat_manifests c' = cat_manifests c →
      watched p q (apply_writes c' writes) new ((i64_of_u64 (m_window_id m), part) :: regs).
Proof.
  intros [Hr Hg Ha] Hpq Hp Hparts Hnew Hws. set (w := i64_of_u64 (m_window_id m)) in *.
  destruct (encodes (m_origin_coverage m)) as [text Ht].
  unfold stage_commit_writes. rewrite Hparts, Hp. cbn [absent_parts Ducklake.exec calm].
  fold w. rewrite Hg, bool_decide_false by done. rewrite Ht. cbn [map_err register_parts Ducklake.exec calm].
  destruct (upsert_watched p q c wm ws new Hr Ha Hpq Hws) as (ups & -> & Hw & Hups).
  eexists. split; [reflexivity|]. split_and!.
  - rewrite !elem_of_app. right. right. by left.
  - intros p' l. rewrite !elem_of_app, !elem_of_cons. rewrite Forall_forall in Hw.
    intros [[?|[?|?%not_elem_of_nil]]|[Hx|[?|?%not_elem_of_nil]]]; simplify_eq; [|done]. by apply Hw in Hx.
  - intros c' Ew Em. rewrite app_assoc. unfold apply_writes. rewrite !foldl_app. cbn [foldl].
    match goal with |- context [foldl apply_write ?c1' ups] => set (c1 := c1') end. set (c2 := foldl apply_write c1 ups).
    assert (cat_watermarks c1 = cat_watermarks c) as E1 by done. destruct (Hups c1 E1) as [Hf Hq].
    assert (cat_manifests c2 = cat_manifests c ++ [manifest_row m text part]) as E2.
    { destruct (watermark_writes_same ups c1 Hw) as [E2 _]. unfold c2, apply_writes in *. rewrite E2. unfold c1. simpl. by rewrite Em. }
    split; [exact Hf| |exact Hq]. intros w' part'. simpl. rewrite E2.
    unfold part_registered in *. rewrite existsb_app, Hg. simpl. rewrite Hp, (bool_decide_true (p = p)) by done. simpl. fold w.
    apply eq_true_iff_eq. rewrite !orb_true_iff, andb_true_iff, Z.eqb_eq, !bool_decide_eq_true, elem_of_cons.
    naive_solver.
Qed.

Lemma watched_ensure p q c wm regs p' : watched p q c wm regs → watched p q (ensure_fence c p') wm regs.
Proof. intros []. unfold ensure_fence. by case_bool_decide. Qed.

Lemma stage_again p q c wm regs m part ws :
  watched p q c wm regs → m_partition m = p → m_parts m = [part] →
  (i64_of_u64 (m_window_id m), part) ∈ regs →
  stage_commit_writes calm config c m ws = Ok AlreadyRegistered.
Proof.
  intros [_ Hg _] Hp Hparts Hin. unfold stage_commit_writes. rewrite Hparts, Hp.
  cbn [absent_parts Ducklake.exec calm]. by rewrite Hg, bool_decide_true.
Qed.

Lemma commit_fresh p q c wm regs m part ws new :
  watched p q c wm regs → p ≠ q → m_partition m = p → m_parts m = [part] →
  (i64_of_u64 (m_window_id m), part) ∉ regs →
  (ws = [] ∧ new = wm ∨ ∃ ms, ws = [suite_watermark p ms] ∧ new = Some ms) →
  ∃ c', commit_files_blocking config calm false c m ws = (Ok Committed, c') ∧
    watched p q c' new ((i64_of_u64 (m_window_id m), part) :: regs).
Proof.
  intros Hw Hpq Hp Hparts Hnew Hws. apply (watched_ensure _ _ _ _ _ (m_partition m)) in Hw.
  destruct (stage_fresh _ _ _ _ _ m part ws new Hw Hpq Hp Hparts Hnew Hws) as (writes & Hs & _ & _ & Hland).
  unfold commit_files_blocking. cbn [Ducklake.exec calm]. rewrite Hs. eexists. split; [reflexivity|]. by apply Hland.
Qed.

Lemma commit_again p q c wm regs m part ws :
  watched p q c wm regs → m_partition m = p → m_parts m = [part] →
  (i64_of_u64 (m_window_id m), part) ∈ regs →
  ∃ c', commit_files_blocking config calm false c m ws = (Ok Committed, c') ∧ watched p q c' wm regs.
Proof.
  intros Hw Hp Hparts Hin. apply (watched_ensure _ _ _ _ _ (m_partition m)) in Hw.
  unfold commit_files_blocking. cbn [Ducklake.exec calm]. erewrite stage_again by done. eauto.
Qed.

(** Expiring a registered part hides its file, or nothing when it was expired before. *)
Lemma expire_watched p q c wm regs w part :
  watched p q c wm regs → (w, part) ∈ regs →
  ∃ c', expire_blocking config calm false c [part] = (Ok tt, c') ∧ watched p q c' wm regs.
Proof.
  intros Hw Hin. assert (part_registered (cat_manifests c) p w part = true) as Hreg
    by (rewrite (wt_regs _ _ _ _ _ Hw); by apply bool_decide_true).
  unfold expire_blocking. cbn [Ducklake.exec calm expire_writes].
  destruct (find _ (cat_manifests c)) as [row|] eqn:Ef.
  2:{ exfalso. unfold part_registered in Hreg. apply existsb_exists in Hreg as (row & Hrow & Hk).
      pose proof (find_none _ _ Ef row Hrow). apply andb_prop in Hk as [_ Hk]. congruence. }
  destruct (mr_expired row); [eauto|]. eexists. split; [reflexivity|]. simpl. destruct Hw as [Hr Hg Ha].
  split; [done| |done]. intros w' part'. rewrite <-Hg. simpl. unfold part_registered. clear.
  induction (cat_manifests c) as [|r rows IH]; csimpl; [done|]. rewrite IH. by case_decide.
Qed.

Lemma evolve_watched p q c wm regs : watched p q c wm regs →
  ∃ c', evolve_schema_blocking calm c suite_schema = (Ok tt, c') ∧ watched p q c' wm regs.
Proof.
  intros [Hr Hg Ha]. unfold evolve_schema_blocking. cbn [Ducklake.exec calm].
  destruct (cat_tables c !! _); eexists; (split; [reflexivity|]); by split.
Qed.

(** *** The suite *)

Context `{PartMaterializer W} (made : ∀ h part, (materialize h part).1 = Ok tt).

Lemma read_watched p q c wm regs check (h : W) : watched p q c wm regs →
  read_one p check (c, h) = (Ok wm, (c, h)).
Proof.
  intros [Hr _ _]. unfold read_one, then_, ask. simpl. rewrite max_watermark_filter, Hr.
  unfold find_row. destruct wm as [ms|]; simpl; [|done]. rewrite decide_True by done. simpl.
  by rewrite bool_decide_true.
Qed.

Lemma read_absent p q c wm regs check (h : W) : watched p q c wm regs → read_one q check (c, h) = (Ok None, (c, h)).
Proof.
  intros [_ _ Ha]. unfold read_one, then_, ask. simpl. by rewrite max_watermark_absent.
Qed.

Lemma materialize_made parts (s : Catalog * W) : ∃ h, materialize_parts parts s = (Ok tt, (s.1, h)).
Proof.
  revert s. induction parts as [|part parts IH]; intros [c h]; simpl; [eauto|]. unfold then_.
  destruct (materialize h part) as [r h'] eqn:E. pose proof (made h part) as Hm. rewrite E in Hm. simpl in Hm.
  subst r. simpl. destruct (IH (c, h')) as [h'' Hh]. eauto.
Qed.

Lemma suite_commit_eq m ws check c c' (h : W) :
  commit_files_blocking config calm false c m ws = (Ok Committed, c') →
  ∃ h', suite_commit m ws check (c, h) = (Ok Committed, (c', h')).
Proof.
  intros E. unfold suite_commit, then_. destruct (materialize_made (m_parts m) (c, h)) as [h' ->]. exists h'.
  simpl. by rewrite E.
Qed.

(** A commit the suite expects to be answered [Committed]: of a window known or not. *)
Lemma committed_at_ok (known : bool) p q c wm regs m part ws new check returned moved (h : W) :
  let key := (i64_of_u64 (m_window_id m), part) in
  watched p q c wm regs → bool_decide (key ∈ regs) = known → p ≠ q →
  m_partition m = p → m_parts m = [part] →
  (if known then wm = Some new
   else (ws = [] ∧ Some new = wm ∨ ∃ ms, ws = [suite_watermark p ms] ∧ Some new = Some ms)) →
  ∃ c' h', committed_at m ws new check returned moved (c, h) = (Ok tt, (c', h')) ∧
    watched p q c' (Some new) (if known then regs else key :: regs).
Proof.
  intros key Hw Hknown Hpq Hp Hparts Hcase.
  assert (∃ c', commit_files_blocking config calm false c m ws = (Ok Committed, c') ∧
    watched p q c' (Some new) (if known then regs else key :: regs)) as (c' & Hc & Hw').
  { destruct known; [apply bool_decide_eq_true in Hknown; subst wm; by eapply commit_again|].
    apply bool_decide_eq_false in Hknown. by eapply commit_fresh. }
  destruct (suite_commit_eq m ws check c c' h Hc) as [h' Es]. exists c', h'. split; [|done].
  unfold committed_at, require. unfold then_ at 1. rewrite Es. unfold then_ at 1. rewrite bool_decide_true by done.
  unfold then_. rewrite Hp, (read_watched _ _ _ _ _ _ _ Hw'). by rewrite bool_decide_true.
Qed.

(** A catalog in which a partition has left no trace. *)
Definition unknown (c : Catalog) (p : string) : Prop :=
  p ∉ (cat_watermarks c).*1 ∧ ∀ row, row ∈ cat_manifests c → mr_partition row ≠ p.

Lemma unknown_watched c p q : unknown c p → q ∉ (cat_watermarks c).*1 → watched p q c None [].
Proof.
  intros [Hw Hm] Hq. split; [| |done].
  - simpl. assert (∀ row, row ∈ cat_watermarks c → row.1 ≠ p) as Hn.
    { intros row Hr <-. by apply Hw, list_elem_of_fmap_2. }
    clear -Hn. induction (cat_watermarks c) as [|row rows IH]; [done|]. rewrite filter_cons, decide_False.
    + apply IH. intros r Hr. apply Hn. by right.
    + apply Hn. by left.
  - intros w part. rewrite bool_decide_false by apply not_elem_of_nil. apply not_true_iff_false. intros Hx.
    unfold part_registered in Hx. apply existsb_exists in Hx as (row & Hin & Hk).
    apply list_elem_of_In in Hin. apply Hm in Hin. by rewrite (bool_decide_false _ Hin) in Hk.
Qed.

Lemma then_ok {A B} (m : suite A) (k : A → suite B) (s : Catalog * W) a s' :
  m s = (Ok a, s') → then_ m k s = k a s'.
Proof. unfold then_. by intros ->. Qed.

Lemma ask_ok {A} (call : Catalog → result A LakeError * Catalog) check what a c c' (h : W) :
  call c = (Ok a, c') → ask call check what (c, h) = (Ok a, (c', h)).
Proof. unfold ask. by intros ->. Qed.

Lemma require_ok condition check detail (s : Catalog * W) :
  condition = true → require condition check detail s = (Ok tt, s).
Proof. unfold require. by intros ->. Qed.

Lemma evolve_idempotent_ok p q c wm regs (h : W) : watched p q c wm regs →
  ∃ c', evolve_idempotent (c, h) = (Ok tt, (c', h)) ∧ watched p q c' wm regs.
Proof.
  intros (c1 & E1 & (c2 & E2 & Hw)%evolve_watched)%evolve_watched. exists c2. split; [|done].
  unfold evolve_idempotent. erewrite then_ok by (by apply ask_ok). by apply ask_ok.
Qed.

Lemma expire_keeps_fence_ok q c regs (h : W) :
  watched p0 q c (Some 2000%Z) regs → p0 ≠ q → (0%Z, suite_part p0 0) ∈ regs →
  ∃ c' h', expire_keeps_fence (c, h) = (Ok tt, (c', h')) ∧ watched p0 q c' (Some 2000%Z) regs.
Proof.
  intros Hw Hpq Hin. destruct (expire_watched _ _ _ _ _ _ _ Hw Hin) as (c1 & E1 & Hw1).
  destruct (commit_again p0 q c1 _ regs (suite_manifest p0 0 1 10) _ [suite_watermark p0 1000] Hw1 eq_refl eq_refl Hin)
    as (c2 & E2 & Hw2).
  destruct (expire_watched _ _ _ _ _ _ _ Hw2 Hin) as (c3 & E3 & Hw3).
  destruct (suite_commit_eq _ _ "expire_keeps_fence" _ _ h E2) as [h' E2'].
  exists c3, h'. split; [|done]. unfold expire_keeps_fence.
  erewrite then_ok by (by apply ask_ok). erewrite then_ok by (by eapply read_watched).
  erewrite then_ok by (by apply require_ok, bool_decide_true). erewrite then_ok by exact E2'.
  erewrite then_ok by (by apply require_ok). erewrite then_ok by (by eapply read_watched).
  erewrite then_ok by (by apply require_ok, bool_decide_true). by apply ask_ok.
Qed.

Lemma run_passes c h : unknown c p0 → "conf.absent" ∉ (cat_watermarks c).*1 →
  ∃ c' h', run (c, h) = (Ok ["evolve_idempotent"; "commit_advances_watermark"; "re_registration_short_circuits";
        "watermark_monotone"; "commit_without_watermark_row"; "expire_keeps_fence";
        "unknown_partition_has_no_row"; "attach_info_answers"], (c', h')).
Proof.
  intros Hu Hq. pose proof (unknown_watched c p0 _ Hu Hq) as Hw. assert (p0 ≠ "conf.absent") as Hpq by done.
  unfold run. destruct (evolve_idempotent_ok _ _ _ _ _ h Hw) as (c1 & E1 & Hw1). erewrite then_ok by exact E1.
  destruct (committed_at_ok false p0 _ c1 _ _ (suite_manifest p0 0 1 10) (suite_part p0 0) [suite_watermark p0 1000] 1000
    "commit_advances_watermark" "first commit returned " "watermark did not advance to 1000" h Hw1 ltac:(vm_compute; reflexivity)
    Hpq eq_refl eq_refl) as (c2 & h2 & E2 & Hw2); [right; by eexists|]. erewrite then_ok by exact E2.
  destruct (committed_at_ok true p0 _ c2 _ _ (suite_manifest p0 0 1 10) (suite_part p0 0) [suite_watermark p0 1000] 1000
    "re_registration_short_circuits" "repeat commit returned " "repeat commit moved the watermark" h2 Hw2
    ltac:(vm_compute; reflexivity) Hpq eq_refl eq_refl eq_refl) as (c3 & h3 & E3 & Hw3). erewrite then_ok by exact E3.
  destruct (committed_at_ok false p0 _ c3 _ _ (suite_manifest p0 1 11 20) (suite_part p0 1) [suite_watermark p0 2000] 2000
    "watermark_monotone" "second window returned " "watermark did not advance to 2000" h3 Hw3
    ltac:(vm_compute; reflexivity) Hpq eq_refl eq_refl) as (c4 & h4 & E4 & Hw4); [right; by eexists|].
  erewrite then_ok by exact E4.
  destruct (committed_at_ok false p0 _ c4 _ _ (suite_manifest p0 2 31 40) (suite_part p0 2) [] 2000
    "commit_without_watermark_row" "rowless commit returned " "a rowless commit moved the watermark" h4 Hw4
    ltac:(vm_compute; reflexivity) Hpq eq_refl eq_refl) as (c5 & h5 & E5 & Hw5); [by left|].
  erewrite then_ok by exact E5.
  destruct (expire_keeps_fence_ok _ c5 _ h5 Hw5 Hpq) as (c6 & h6 & E6 & Hw6); [right; right; by left|].
  erewrite then_ok by exact E6. exists c6, h6. unfold unknown_partition_has_no_row.
  erewrite then_ok; [|erewrite then_ok by (by eapply read_absent); by apply require_ok].
  erewrite then_ok; [reflexivity|]. reflexivity.
Qed.

(** *** The race *)

(** Two attempts interleaved, where no statement fails but the [COMMIT] of a transaction
    whose fence row another has written since its snapshot. *)
Inductive calm_step : Race → Race → Prop :=
| CalmEnsure c now before after a :
    at_phase a = Arrived →
    calm_step {| rc_catalog := c; rc_fence_writes := now; rc_attempts := before ++ a :: after |}
      {| rc_catalog := ensure_fence c (m_partition (at_manifest a)); rc_fence_writes := now;
         rc_attempts := before ++ in_phase a Ensured :: after |}
| CalmStage c now before after a :
    at_phase a = Ensured →
    calm_step {| rc_catalog := c; rc_fence_writes := now; rc_attempts := before ++ a :: after |}
      {| rc_catalog := c; rc_fence_writes := now;
         rc_attempts := before ++ in_phase a (staged_phase config calm c now a) :: after |}
| CalmCommit c now before after a base seen writes :
    at_phase a = Pending base seen writes → admitted base seen now writes →
    calm_step {| rc_catalog := c; rc_fence_writes := now; rc_attempts := before ++ a :: after |}
      {| rc_catalog := apply_writes c writes; rc_fence_writes := bump base writes now;
         rc_attempts := before ++ in_phase a (Answered (Ok Committed)) :: after |}
| CalmConflict c now before after a base seen writes msg :
    at_phase a = Pending base seen writes → ¬ admitted base seen now writes →
    str_contains "conflict" (lowercase msg) = true →
    calm_step {| rc_catalog := c; rc_fence_writes := now; rc_attempts := before ++ a :: after |}
      {| rc_catalog := c; rc_fence_writes := now;
         rc_attempts := before ++ in_phase a (Answered (Ok (commit_error_outcome
           (catalog_kind (catalog_uri config)) msg))) :: after |}.

Lemma calm_step_race s s' : calm_step s s' → race_step config s s'.
Proof. destruct 1; by econstructor. Qed.

Definition attempt (m : WindowManifest) (ws : list WatermarkRow) (ph : Phase) : Attempt :=
  {| at_manifest := m; at_watermarks := ws; at_phase := ph |}.

(** The answers of two commits of one manifest that race, and the catalog after them. *)
Definition raced (c : Catalog) (m : WindowManifest) (ws : list WatermarkRow)
    (r : result CommitOutcome LakeError * result CommitOutcome LakeError * Catalog) : Prop :=
  ∃ now now', rtc calm_step
    {| rc_catalog := c; rc_fence_writes := now; rc_attempts := [attempt m ws Arrived; attempt m ws Arrived] |}
    {| rc_catalog := r.2; rc_fence_writes := now';
       rc_attempts := [attempt m ws (Answered r.1.1); attempt m ws (Answered r.1.2)] |}.

Section racing.
Context (p q : string) (pq : p ≠ q) (m : WindowManifest) (part : PartName) (ms : Z).
Context (m_p : m_partition m = p) (m_part : m_parts m = [part]) (c0 : Catalog).
Context (fresh : watched p q c0 None []).

Abbreviation key := (i64_of_u64 (m_window_id m), part).

(** An attempt before any has landed: what it has staged is what it would stage now. *)
Definition early (c : Catalog) (now : PartitionId → nat) (a : Attempt) : Prop :=
  at_manifest a = m ∧ at_watermarks a = [suite_watermark p ms] ∧
  match at_phase a with
  | Arrived => True
  | Ensured => p ∈ (cat_fence c).*1
  | Pending base seen writes =>
      seen p = now p ∧ fence_updated base writes p = true ∧
      (∀ p', fence_updated base writes p' = true → p' = p) ∧
      ∀ c', cat_watermarks c' = cat_watermarks c0 → cat_manifests c' = cat_manifests c0 →
        watched p q (apply_writes c' writes) (Some ms) [key]
  | Answered _ => False
  end.

(** An attempt after one has landed: what it has staged is stale. *)
Definition late (now : PartitionId → nat) (a : Attempt) : Prop :=
  at_manifest a = m ∧ at_watermarks a = [suite_watermark p ms] ∧
  match at_phase a with
  | Pending base seen writes => fence_updated base writes p = true ∧ seen p ≠ now p
  | Answered r => r = Ok Committed ∨ r = Ok Aborted
  | _ => True
  end.

Definition race_inv (s : Race) : Prop :=
  let '(c, now, attempts) := (rc_catalog s, rc_fence_writes s, rc_attempts s) in
  cat_watermarks c = cat_watermarks c0 ∧ cat_manifests c = cat_manifests c0 ∧
    (∀ a, a ∈ attempts → early c now a) ∨
  watched p q c (Some ms) [key] ∧ (∃ a, a ∈ attempts ∧ at_phase a = Answered (Ok Committed)) ∧
    (∀ a, a ∈ attempts → late now a).

Lemma ensure_fence_same c p' :
  cat_watermarks (ensure_fence c p') = cat_watermarks c ∧ cat_manifests (ensure_fence c p') = cat_manifests c ∧
  (cat_fence c).*1 ⊆ (cat_fence (ensure_fence c p')).*1.
Proof.
  unfold ensure_fence. case_bool_decide; [done|]. simpl. rewrite fmap_app. set_solver.
Qed.

(** Of the attempts, one moves. *)
Lemma moved_elem (P Q : Attempt → Prop) before after a a' :
  (∀ b, b ∈ before ++ a :: after → P b) → (∀ b, P b → Q b) → (P a → Q a') →
  ∀ b, b ∈ before ++ a' :: after → Q b.
Proof. intros HP HPQ Ha b. rewrite elem_of_app, elem_of_cons. set_solver. Qed.

Lemma moved_committed before after a a' :
  (∃ b, b ∈ before ++ a :: after ∧ at_phase b = Answered (Ok Committed)) →
  at_phase a ≠ Answered (Ok Committed) →
  ∃ b, b ∈ before ++ a' :: after ∧ at_phase b = Answered (Ok Committed).
Proof. intros (b & Hb & E) Ha. exists b. split; [|done]. set_solver. Qed.

Lemma race_ensure c now before after a : at_phase a = Arrived →
  race_inv {| rc_catalog := c; rc_fence_writes := now; rc_attempts := before ++ a :: after |} →
  race_inv {| rc_catalog := ensure_fence c (m_partition (at_manifest a)); rc_fence_writes := now;
              rc_attempts := before ++ in_phase a Ensured :: after |}.
Proof.
  intros Hph [(Ew & Em & Hall)|(Hw & Hc & Hall)]; simpl in *.
  - left. assert (early c now a) as (Ea & _) by (apply Hall; set_solver).
    destruct (ensure_fence_same c (m_partition (at_manifest a))) as (E1 & E2 & Hsub). simpl. rewrite E1, E2.
    split; [done|]. split; [done|]. eapply moved_elem; [exact Hall| |].
    + intros b (? & ? & Hb). split; [done|]. split; [done|]. destruct (at_phase b); set_solver.
    + intros (? & ? & _). split; [done|]. split; [done|]. simpl. rewrite Ea, m_p. apply ensured_in.
  - right. split; [by apply watched_ensure|]. split; [eapply moved_committed; [done|by rewrite Hph]|].
    eapply moved_elem; [exact Hall|done|]. intros (? & ? & _). done.
Qed.

Lemma race_stage c now before after a : at_phase a = Ensured →
  race_inv {| rc_catalog := c; rc_fence_writes := now; rc_attempts := before ++ a :: after |} →
  race_inv {| rc_catalog := c; rc_fence_writes := now;
              rc_attempts := before ++ in_phase a (staged_phase config calm c now a) :: after |}.
Proof.
  intros Hph [(Ew & Em & Hall)|(Hw & Hc & Hall)]; simpl in *.
  - left. split; [done|]. split; [done|]. eapply moved_elem; [exact Hall|done|].
    intros (Ea & Es & Hf). rewrite Hph in Hf. split; [done|]. split; [done|]. simpl. unfold staged_phase.
    cbn [Ducklake.exec calm]. rewrite Ea, Es.
    assert (watched p q c None []) as Hw by (destruct fresh; split; by rewrite ?Ew, ?Em).
    destruct (stage_fresh p q c None [] m part [suite_watermark p ms] (Some ms) Hw pq m_p m_part)
      as (writes & -> & Hin & Honly & Hland); [apply not_elem_of_nil|right; by eexists|].
    split; [done|]. unfold fence_updated. split_and!.
    + rewrite (bool_decide_true (p ∈ _)), andb_true_r by done. apply existsb_exists.
      eexists. split; [by apply list_elem_of_In|]. by apply bool_decide_true.
    + intros p' [Hx _]%andb_prop. apply existsb_exists in Hx as (w & Hw' & Hk). apply list_elem_of_In in Hw'.
      destruct w; try done. apply bool_decide_eq_true in Hk as <-. by eapply Honly.
    + intros c' Ew' Em'. apply Hland; congruence.
  - right. split; [done|]. split; [eapply moved_committed; [done|by rewrite Hph]|].
    eapply moved_elem; [exact Hall|done|]. intros (Ea & Es & _). split; [done|]. split; [done|]. simpl.
    unfold staged_phase. cbn [Ducklake.exec calm]. rewrite Ea. erewrite stage_again; [by left|done..|by left].
Qed.

Lemma race_commit c now before after a base seen writes :
  at_phase a = Pending base seen writes → admitted base seen now writes →
  race_inv {| rc_catalog := c; rc_fence_writes := now; rc_attempts := before ++ a :: after |} →
  race_inv {| rc_catalog := apply_writes c writes; rc_fence_writes := bump base writes now;
              rc_attempts := before ++ in_phase a (Answered (Ok Committed)) :: after |}.
Proof.
  intros Hph Hadm [(Ew & Em & Hall)|(Hw & Hc & Hall)]; simpl in *.
  - right. assert (early c now a) as (_ & _ & Ha) by (apply Hall; set_solver). rewrite Hph in Ha.
    destruct Ha as (_ & Hfu & _ & Hland). split; [by apply Hland|].
    split; [exists (in_phase a (Answered (Ok Committed))); split; [set_solver|done]|].
    eapply moved_elem; [exact Hall| |].
    + intros b (? & ? & Hb). split; [done|]. split; [done|]. destruct (at_phase b); try done.
      destruct Hb as (Hs & Hfb & _). split; [done|]. simpl. unfold bump. rewrite Hfu, Hs. lia.
    + intros (? & ? & _). split; [done|]. split; [done|]. by left.
  - exfalso. assert (late now a) as (_ & _ & Ha) by (apply Hall; set_solver). rewrite Hph in Ha.
    destruct Ha as [Hfu Hne]. apply Hne. symmetry. by apply Hadm.
Qed.

Lemma race_conflict c now before after a base seen writes msg :
  at_phase a = Pending base seen writes → ¬ admitted base seen now writes →
  str_contains "conflict" (lowercase msg) = true →
  race_inv {| rc_catalog := c; rc_fence_writes := now; rc_attempts := before ++ a :: after |} →
  race_inv {| rc_catalog := c; rc_fence_writes := now;
              rc_attempts := before ++ in_phase a (Answered (Ok (commit_error_outcome
                (catalog_kind (catalog_uri config)) msg))) :: after |}.
Proof.
  intros Hph Hadm Hmsg [(Ew & Em & Hall)|(Hw & Hc & Hall)]; simpl in *.
  - exfalso. assert (early c now a) as (_ & _ & Ha) by (apply Hall; set_solver). rewrite Hph in Ha.
    destruct Ha as (Hs & _ & Honly & _). apply Hadm. intros p' Hp'. by rewrite (Honly p' Hp').
  - right. split; [done|]. split; [eapply moved_committed; [done|by rewrite Hph]|].
    eapply moved_elem; [exact Hall|done|]. intros (? & ? & _). split; [done|]. split; [done|]. right.
    unfold commit_error_outcome. by rewrite Hmsg.
Qed.

Lemma race_inv_steps s s' : rtc calm_step s s' → race_inv s → race_inv s'.
Proof.
  induction 1 as [|s s1 s2 Hstep _ IH]; [done|]. intros Hinv. apply IH. clear IH. revert Hinv.
  destruct Hstep; [by apply race_ensure|by apply race_stage|by eapply race_commit|by eapply race_conflict].
Qed.

(** One drain wins, the other commits nothing or finds the window committed. *)
Lemma raced_outcomes ra rb c : raced c0 m [suite_watermark p ms] (ra, rb, c) →
  watched p q c (Some ms) [key] ∧
  (ra = Ok Committed ∧ (rb = Ok Committed ∨ rb = Ok Aborted) ∨ rb = Ok Committed ∧ ra = Ok Aborted).
Proof.
  intros (now & now' & Hsteps). apply race_inv_steps in Hsteps.
  - unfold race_inv in Hsteps. simpl in Hsteps. destruct Hsteps as [(_ & _ & Hall)|(Hw & (a & Ha & Hc) & Hall)].
    + exfalso. destruct (Hall (attempt m [suite_watermark p ms] (Answered ra))) as (_ & _ & []). by left.
    + split; [done|]. destruct (Hall (attempt m [suite_watermark p ms] (Answered ra))) as (_ & _ & Ea); [by left|].
      destruct (Hall (attempt m [suite_watermark p ms] (Answered rb))) as (_ & _ & Eb); [right; by left|].
      simpl in *. apply elem_of_cons in Ha as [->|Ha%list_elem_of_singleton]; [|subst a]; simpl in Hc; naive_solver.
  - left. simpl. split; [done|]. split; [done|]. intros a Ha.
    assert (a = attempt m [suite_watermark p ms] Arrived) as -> by set_solver. done.
Qed.
End racing.

Lemma racing_passes race p c (h : W) : unknown c p → (∀ c m ws, raced c m ws (race c m ws)) →
  ∃ s', racing_drains race p (c, h) = (Ok tt, s').
Proof.
  intros Hu Hrace. set (q := fresh (p :: (cat_watermarks c).*1)).
  assert (q ∉ p :: (cat_watermarks c).*1) as [Hq Hqs]%not_elem_of_cons by apply infinite_is_fresh.
  pose proof (unknown_watched c p q Hu Hqs) as Hw.
  apply evolve_watched in Hw as (c1 & E1 & Hw). apply evolve_watched in Hw as (c2 & E2 & Hw).
  set (m := suite_manifest p 0 1 10). destruct (materialize_made (m_parts m) (c2, h)) as [h' Eh]. simpl in Eh.
  destruct (race c2 m [suite_watermark p 1000]) as [[ra rb] c3] eqn:Er.
  pose proof (Hrace c2 m [suite_watermark p 1000]) as Hr. rewrite Er in Hr.
  apply (raced_outcomes p q ltac:(congruence) m (suite_part p 0) 1000 eq_refl eq_refl c2 Hw) in Hr as [Hw3 Hout].
  exists (c3, h'). unfold racing_drains.
  erewrite then_ok by (by apply ask_ok). erewrite then_ok by (by apply ask_ok). erewrite then_ok by exact Eh.
  pose proof (read_watched _ _ _ _ _ "racing_drains_single_winner" h' Hw3) as Hread.
  assert (read_back p "racing_drains_single_winner" (c3, h') = (Ok tt, (c3, h'))) as Hback.
  { unfold read_one, then_, ask in Hread. unfold read_back, then_, ask.
    cbn [lc_read_watermarks ducklake_committer] in *.
    destruct (read_watermarks_blocking calm c3 [p]) as [rows|]; [|done]. simpl in *. simplify_eq.
    unfold pure in Hread. injection Hread as ->. by apply require_ok, bool_decide_true. }
  assert (∃ n, count_committed "racing_drains_single_winner" [ra; rb] = Ok (S n)) as [n Hn].
  { destruct Hout as [[-> [-> | ->]]|[-> ->]]; simpl; eauto. }
  unfold m in Er. erewrite then_ok by (cbv beta iota; rewrite Er, Hn; reflexivity). erewrite then_ok by (by apply require_ok).
  erewrite then_ok by exact Hback. exact Hback.
Qed.

(** One commit after the other is a race. *)
Definition in_turn (c : Catalog) (m : WindowManifest) (ws : list WatermarkRow) :
    result CommitOutcome LakeError * result CommitOutcome LakeError * Catalog :=
  let '(ra, c) := commit_files_blocking config calm false c m ws in
  let '(rb, c) := commit_files_blocking config calm false c m ws in (ra, rb, c).

Lemma commit_calm c now before after m ws r c' :
  commit_files_blocking config calm false c m ws = (r, c') →
  ∃ now', rtc calm_step
    {| rc_catalog := c; rc_fence_writes := now; rc_attempts := before ++ attempt m ws Arrived :: after |}
    {| rc_catalog := c'; rc_fence_writes := now'; rc_attempts := before ++ attempt m ws (Answered r) :: after |}.
Proof.
  unfold commit_files_blocking. cbn [Ducklake.exec calm]. intros E.
  assert (∀ s, rtc calm_step {| rc_catalog := ensure_fence c (m_partition m); rc_fence_writes := now;
    rc_attempts := before ++ attempt m ws (staged_phase config calm (ensure_fence c (m_partition m)) now (attempt m ws Ensured)) :: after |} s →
    rtc calm_step {| rc_catalog := c; rc_fence_writes := now; rc_attempts := before ++ attempt m ws Arrived :: after |} s) as Hgo.
  { intros s Hs. eapply rtc_l; [by apply CalmEnsure|]. eapply rtc_l; [by apply CalmStage|]. exact Hs. }
  unfold staged_phase in Hgo. cbn [Ducklake.exec calm attempt at_manifest at_watermarks] in Hgo.
  destruct (stage_commit_writes calm config _ m ws) as [[writes|]|error]; simplify_eq.
  - eexists. apply Hgo. eapply rtc_l; [by eapply CalmCommit|]. apply rtc_refl.
  - exists now. apply Hgo, rtc_refl.
  - exists now. apply Hgo, rtc_refl.
Qed.

Lemma in_turn_raced c m ws : raced c m ws (in_turn c m ws).
Proof.
  unfold in_turn. destruct (commit_files_blocking config calm false c m ws) as [ra c1] eqn:E1.
  destruct (commit_files_blocking config calm false c1 m ws) as [rb c2] eqn:E2.
  destruct (commit_calm c (λ _, 0) [] [attempt m ws Arrived] _ _ _ _ E1) as [now1 H1].
  destruct (commit_calm c1 now1 [attempt m ws (Answered ra)] [] _ _ _ _ E2) as [now2 H2].
  exists (λ _, 0), now2. by etrans.
Qed.

(** C7: DuckLake passes the conformance suite of the lake port.  On any catalog in which
    the suite's partitions have left no trace, when no statement fails and the harness
    makes the parts, [run] passes all eight checks: schema evolution is idempotent, a
    commit advances the watermark, a repeated commit changes nothing, the watermark is
    monotone, a commit without a row leaves it, an expired window is not admitted
    again, an unknown partition has no row, and the attach information is there.  And
    [racing_drains] passes however the statements of the two drains interleave. *)
Theorem ducklake_conforms (c : Catalog) (h : W) :
  (unknown c p0 → "conf.absent" ∉ (cat_watermarks c).*1 →
   ∃ s', run (c, h) = (Ok ["evolve_idempotent"; "commit_advances_watermark"; "re_registration_short_circuits";
        "watermark_monotone"; "commit_without_watermark_row"; "expire_keeps_fence";
        "unknown_partition_has_no_row"; "attach_info_answers"], s')) ∧
  (∀ p race, unknown c p → (∀ c m ws, raced c m ws (race c m ws)) →
   ∃ s', racing_drains race p (c, h) = (Ok tt, s')).
Proof.
  split.
  - intros Hu Hq. destruct (run_passes c h Hu Hq) as (c' & h' & E). eauto.
  - intros p race. apply racing_passes.
Qed.
End ducklake.
