(* ===== verification/Hrw.v ===== *)
(** * Rendezvous placement

    Models [crates/duckspout-replication/src/hrw.rs]: the FNV-1a score of a
    (partition, node) pair, the owner with the highest score, and the ranking
    of all nodes; proves the minimal-disruption property. *)

From Stdlib Require Import Ascii.
From S2P Require Import Prelude Types.

Definition FNV_OFFSET_BASIS : N := 0xcbf29ce484222325.
Definition FNV_PRIME : N := 0x00000100000001b3.

(** The bytes of a string, each below 256. *)
Fixpoint as_bytes (s : string) : list N :=
  match s with
  | EmptyString => []
  | String c s => N_of_ascii c :: as_bytes s
  end.

(** [u64::wrapping_mul] *)
Definition wrapping_mul (x y : N) : N := (x * y) mod (u64_max + 1).

(** [fnv1a] *)
Definition fnv1a (state : N) (bytes : list N) : N :=
  foldl (λ state byte, wrapping_mul (N.lxor state byte) FNV_PRIME) state bytes.

(** [hrw_score] *)
Definition hrw_score (partition : PartitionId) (node : NodeId) : N :=
  let state := fnv1a FNV_OFFSET_BASIS (as_bytes partition) in
  let state := fnv1a state [0xff%N] in
  fnv1a state (as_bytes node).

(** The order of the keys [(hrw_score(partition, node), node)]. *)
Definition rank_le (partition : PartitionId) (a b : NodeId) : Prop :=
  (hrw_score partition a < hrw_score partition b)%N ∨
  (hrw_score partition a = hrw_score partition b ∧ String.le a b).

#[global] Instance rank_le_dec partition : RelDecision (rank_le partition).
Proof. unfold rank_le. intros a b. apply _. Defined.

(** [hrw_owner] *)
Definition hrw_owner (partition : PartitionId) (nodes : list NodeId) : option NodeId :=
  max_by (λ a b, bool_decide (rank_le partition a b)) nodes.

(** [hrw_ranked]: sorted by [Reverse] of the key; equal keys are equal
    nodes. *)
Definition hrw_ranked (partition : PartitionId) (nodes : list NodeId) : list NodeId :=
  merge_sort (flip (rank_le partition)) nodes.

(** ** The hash *)

Lemma wrapping_mul_u64 x y : is_u64 (wrapping_mul x y).
Proof.
  unfold wrapping_mul, is_u64, u64_max.
  pose proof (N.mod_lt (x * y) (18446744073709551615 + 1)). lia.
Qed.

Lemma fnv1a_u64 state bytes : is_u64 state → is_u64 (fnv1a state bytes).
Proof.
  revert state. induction bytes as [|b bytes IH]; intros state Hs; [done|]. apply IH, wrapping_mul_u64.
Qed.

Lemma fnv1a_app state b1 b2 : fnv1a state (b1 ++ b2) = fnv1a (fnv1a state b1) b2.
Proof. apply foldl_app. Qed.

(** The byte string the score hashes. *)
Definition score_input (partition : PartitionId) (node : NodeId) : list N :=
  as_bytes partition ++ 0xff%N :: as_bytes node.

Lemma as_bytes_inj s1 s2 : as_bytes s1 = as_bytes s2 → s1 = s2.
Proof.
  revert s2. induction s1 as [|c s1 IH]; intros [|d s2] E; simplify_eq/=; [done|].
  rewrite <-(ascii_N_embedding c), <-(ascii_N_embedding d). f_equal; [congruence|auto].
Qed.

Lemma split_at_byte (b : N) (l1 l2 k1 k2 : list N) :
  b ∉ l1 → b ∉ l2 → l1 ++ b :: k1 = l2 ++ b :: k2 → l1 = l2 ∧ k1 = k2.
Proof.
  revert l2. induction l1 as [|x l1 IH]; intros [|y l2] H1 H2 E; simplify_eq/=; [done|..].
  - destruct H2. by left.
  - destruct H1. by left.
  - destruct (IH l2) as [-> ->]; [set_solver..|done|done].
Qed.

(** The score is a [u64], the FNV-1a hash of the partition's bytes, a
    separator and the node's bytes; identifiers hold no [0xff] byte (they are
    UTF-8), so two different pairs never hash the same bytes. *)
Theorem hrw_score_input (p p' : PartitionId) (n n' : NodeId) :
  is_u64 (hrw_score p n) ∧ hrw_score p n = fnv1a FNV_OFFSET_BASIS (score_input p n) ∧
  (0xff%N ∉ as_bytes p → 0xff%N ∉ as_bytes p' →
   score_input p n = score_input p' n' → p = p' ∧ n = n').
Proof.
  split; [|split].
  - apply fnv1a_u64, fnv1a_u64, fnv1a_u64. unfold is_u64, FNV_OFFSET_BASIS, u64_max. lia.
  - unfold score_input. by rewrite (cons_middle 0xff%N), !fnv1a_app.
  - intros Hp Hp' E. apply split_at_byte in E as [E1 E2]; [|done..].
    split; by apply as_bytes_inj.
Qed.

(** ** The order of ranks *)

Section order.
Context (p : PartitionId).

#[global] Instance rank_le_total : Total (rank_le p).
Proof.
  intros a b. unfold rank_le.
  destruct (N.lt_total (hrw_score p a) (hrw_score p b)) as [?|[E|?]]; [by left; left| |by right; left].
  destruct (total String.le a b); [left|right]; right; done.
Qed.

#[global] Instance rank_le_trans : Transitive (rank_le p).
Proof.
  intros a b c [?|[E1 ?]] [?|[E2 ?]]; unfold rank_le; [left; lia|left; lia|left; lia|].
  right. split; [congruence|]. by etrans.
Qed.

#[global] Instance rank_le_anti : AntiSymm eq (rank_le p).
Proof.
  intros a b [?|[E1 ?]] [?|[E2 ?]]; [lia..|]. by apply (anti_symm String.le).
Qed.

#[global] Instance flip_rank_total : Total (flip (rank_le p)).
Proof. intros a b. destruct (total (rank_le p) a b); [by right|by left]. Qed.

#[global] Instance flip_rank_trans : Transitive (flip (rank_le p)).
Proof. intros a b c ??. by eapply (rank_le_trans c b a). Qed.

#[global] Instance flip_rank_anti : AntiSymm eq (flip (rank_le p)).
Proof. intros a b ??. by apply (anti_symm (rank_le p)). Qed.

(** The owner is the greatest node. *)
Lemma hrw_owner_Some ns o :
  hrw_owner p ns = Some o ↔ o ∈ ns ∧ ∀ n, n ∈ ns → rank_le p n o.
Proof.
  unfold hrw_owner. split.
  - intros H. apply max_by_Some in H as [Hin Hmax].
    + split; [done|]. intros n Hn. by apply Hmax, bool_decide_eq_true in Hn.
    + intros x y. rewrite !bool_decide_eq_true. apply total, _.
    + intros x y z. rewrite !bool_decide_eq_true. apply transitivity.
  - intros [Hin Hmax]. destruct (max_by _ ns) as [o'|] eqn:E.
    + f_equal. apply max_by_Some in E as [Hin' Hmax'].
      * apply (anti_symm (rank_le p)); [auto|]. by apply Hmax', bool_decide_eq_true in Hin.
      * intros x y. rewrite !bool_decide_eq_true. apply total, _.
      * intros x y z. rewrite !bool_decide_eq_true. apply transitivity.
    + apply max_by_None in E. subst. by apply elem_of_nil in Hin.
Qed.

Lemma hrw_owner_None ns : hrw_owner p ns = None ↔ ns = [].
Proof. apply max_by_None. Qed.

Lemma hrw_ranked_perm ns : hrw_ranked p ns ≡ₚ ns.
Proof. apply merge_sort_Permutation. Qed.

Lemma hrw_ranked_sorted ns : StronglySorted (flip (rank_le p)) (hrw_ranked p ns).
Proof. apply StronglySorted_merge_sort; apply _. Qed.

(** The ranking is the only descending order of the nodes. *)
Lemma hrw_ranked_unique ns l :
  l ≡ₚ ns → StronglySorted (flip (rank_le p)) l → hrw_ranked p ns = l.
Proof.
  intros Hp Hs. apply (StronglySorted_unique (flip (rank_le p))); [apply hrw_ranked_sorted|done|].
  by rewrite hrw_ranked_perm.
Qed.

#[global] Instance hrw_ranked_proper : Proper ((≡ₚ) ==> eq) (hrw_ranked p).
Proof.
  intros ns ms Hp. apply hrw_ranked_unique; [|apply hrw_ranked_sorted].
  by rewrite hrw_ranked_perm.
Qed.

#[global] Instance hrw_owner_proper : Proper ((≡ₚ) ==> eq) (hrw_owner p).
Proof.
  intros ns ms Hp. apply option_eq. intros o. rewrite !hrw_owner_Some. by setoid_rewrite Hp.
Qed.

Lemma StronglySorted_filter {A} (R : relation A) (P : A → Prop) `{∀ x, Decision (P x)} l :
  StronglySorted R l → StronglySorted R (filter P l).
Proof.
  induction 1 as [|x l Hl IH HF]; [constructor|]. rewrite filter_cons. case_decide; [|done].
  constructor; [done|]. rewrite Forall_forall in HF |- *. intros y [_ ?]%list_elem_of_filter. auto.
Qed.

Lemma hrw_ranked_filter (P : NodeId → Prop) `{∀ n, Decision (P n)} ns :
  hrw_ranked p (filter P ns) = filter P (hrw_ranked p ns).
Proof.
  apply hrw_ranked_unique; [by rewrite hrw_ranked_perm|].
  apply StronglySorted_filter, hrw_ranked_sorted.
Qed.

Lemma hrw_owner_head ns : hrw_owner p ns = head (hrw_ranked p ns).
Proof.
  pose proof (hrw_ranked_sorted ns) as Hs. pose proof (hrw_ranked_perm ns) as Hp.
  destruct (hrw_ranked p ns) as [|o l]; simpl.
  - apply hrw_owner_None. by apply Permutation_nil in Hp.
  - apply hrw_owner_Some. setoid_rewrite <-Hp. split; [by left|].
    apply StronglySorted_inv in Hs as [_ HF]. rewrite Forall_forall in HF.
    intros n [->|Hn]%elem_of_cons; [|by apply HF]. by destruct (total (rank_le p) o o).
Qed.

End order.

(** The owner is the first of the ranking, whatever the nodes. *)
Theorem owner_is_rank_zero (p : PartitionId) (ns : list NodeId) :
  hrw_owner p ns = head (hrw_ranked p ns).
Proof. apply hrw_owner_head. Qed.

(** Placement ignores the order of the membership list, and whatever nodes
    leave, the ranking of the ones that stay is the old ranking without the
    ones that left: no replica moves between surviving nodes. *)
Theorem removal_projects_ranking (p : PartitionId) (ns ms : list NodeId)
    (stays : NodeId → bool) :
  ms ≡ₚ List.filter stays ns →
  hrw_ranked p ms = List.filter stays (hrw_ranked p ns).
Proof.
  intros Hp. rewrite (hrw_ranked_proper p _ _ Hp).
  assert (∀ l, List.filter stays l = filter (λ n, stays n = true) l) as E.
  { induction l as [|n l IH]; [done|]. rewrite filter_cons. simpl.
    destruct (stays n); simpl; by rewrite IH. }
  rewrite !E. apply hrw_ranked_filter.
Qed.

(** Minimal disruption.  A node that joins takes over exactly the
    partitions it wins; every other partition keeps its owner.  A node that
    leaves changes the owner only of the partitions it owned. *)
Theorem minimal_disruption (p : PartitionId) (ns ms : list NodeId) (n : NodeId) :
  ms ≡ₚ n :: ns →
  (hrw_owner p ms = Some n ∨ hrw_owner p ms = hrw_owner p ns) ∧
  (hrw_owner p ms ≠ Some n → hrw_owner p ns = hrw_owner p ms).
Proof.
  intros Hp. rewrite (hrw_owner_proper p _ _ Hp).
  assert (hrw_owner p (n :: ns) = Some n ∨ hrw_owner p (n :: ns) = hrw_owner p ns) as Hor;
    [|split; [done|intros; naive_solver]].
  destruct (hrw_owner p (n :: ns)) as [o|] eqn:E; [|by apply hrw_owner_None in E].
  apply hrw_owner_Some in E as [[->|Ho]%elem_of_cons Hmax]; [by left|]. right. symmetry.
  apply hrw_owner_Some. split; [done|]. intros m Hm. apply Hmax. by right.
Qed.
