(* ===== verification/Routing.v ===== *)
(** * Ownership routing

    Models [crates/duckspout-replication/src/routing.rs]: the membership view,
    the routing plan of a write (owner, replica set) and the peers a batch is
    forwarded to. *)

From S2P Require Import Prelude Types Hrw.

(** [MembershipView]: its field [candidates]. *)
Record MembershipView := { candidates : list NodeId }.

(** [candidates.into_iter().filter(|node| seen.insert(node.clone()))] *)
Fixpoint dedup (seen : gset string) (l : list NodeId) : list NodeId :=
  match l with
  | [] => []
  | n :: l => if decide (n ∈ seen) then dedup seen l else n :: dedup ({[n]} ∪ seen) l
  end.

(** [MembershipView::new] *)
Definition membership_new (cs : list NodeId) : MembershipView := {| candidates := dedup ∅ cs |}.

(** [RoutingPlan] *)
Record RoutingPlan := {
  rp_owner : NodeId;
  rp_replicas : list NodeId;
  rp_is_local_owner : bool;
  rp_rf : N;
}.

(** [RoutingPlan::forward_targets] *)
Definition forward_targets (plan : RoutingPlan) (self_node : NodeId) : list NodeId :=
  let needed := N.to_nat (N.pred (rp_rf plan)) in
  take needed (filter (λ node, node ≠ self_node) (rp_replicas plan)).

(** [RoutingPlan::is_below_floor] *)
Definition is_below_floor (plan : RoutingPlan) : bool :=
  (length (rp_replicas plan) <? N.to_nat (rp_rf plan))%nat.

(** [route_write] *)
Definition route_write (partition : PartitionId) (self_node : NodeId)
    (membership : MembershipView) (rf : N) : option RoutingPlan :=
  let ranked := hrw_ranked partition (candidates membership) in
  match ranked with
  | [] => None
  | owner :: _ =>
      let rf := N.max rf 1 in
      Some {| rp_owner := owner;
              rp_is_local_owner := bool_decide (owner = self_node);
              rp_rf := rf;
              rp_replicas := take (N.to_nat rf) ranked |}
  end.

(** ** Deduplication *)

Lemma elem_of_dedup seen l n : n ∈ dedup seen l ↔ n ∈ l ∧ n ∉ seen.
Proof.
  revert seen. induction l as [|m l IH]; intros seen; simpl; [set_solver|].
  case_decide; rewrite ?elem_of_cons, ?IH; [|destruct (decide (n = m))]; set_solver.
Qed.

Lemma NoDup_dedup seen l : NoDup (dedup seen l).
Proof.
  revert seen. induction l as [|m l IH]; intros seen; simpl; [constructor|].
  case_decide; [done|]. constructor; [|done]. rewrite elem_of_dedup. set_solver.
Qed.

(** Duplicates do not change the owner. *)
Lemma hrw_owner_dedup p cs : hrw_owner p (dedup ∅ cs) = hrw_owner p cs.
Proof.
  apply option_eq. intros o. rewrite !hrw_owner_Some. setoid_rewrite elem_of_dedup.
  assert (∀ n, n ∈ cs ∧ n ∉ (∅ : gset string) ↔ n ∈ cs) as E by set_solver.
  by setoid_rewrite E.
Qed.

Lemma candidates_perm cs cs' :
  (∀ n, n ∈ cs ↔ n ∈ cs') →
  candidates (membership_new cs) ≡ₚ candidates (membership_new cs').
Proof.
  intros Hs. apply NoDup_Permutation; [apply NoDup_dedup..|]. intros n. simpl.
  by rewrite !elem_of_dedup, Hs.
Qed.

(** ** Plans *)

Lemma route_write_Some p self cs rf plan :
  route_write p self cs rf = Some plan →
  let ranked := hrw_ranked p (candidates cs) in
  head ranked = Some (rp_owner plan) ∧ rp_rf plan = N.max rf 1 ∧
  rp_replicas plan = take (N.to_nat (rp_rf plan)) ranked ∧
  rp_is_local_owner plan = bool_decide (rp_owner plan = self).
Proof. unfold route_write. case_match; [done|]. by intros [= <-]. Qed.

Lemma route_write_None p self mv rf :
  route_write p self mv rf = None ↔ candidates mv = [].
Proof.
  unfold route_write. pose proof (hrw_ranked_perm p (candidates mv)) as Hp. split.
  - destruct (hrw_ranked p (candidates mv)); [|done]. intros _. by apply Permutation_nil in Hp.
  - intros E. rewrite E in *. symmetry in Hp. apply Permutation_nil in Hp. by rewrite Hp.
Qed.

Lemma dedup_nil cs : dedup ∅ cs = [] ↔ cs = [].
Proof.
  split; [|by intros ->]. destruct cs as [|c cs]; [done|]. simpl.
  by rewrite decide_False by set_solver.
Qed.

Lemma NoDup_take {A} n (l : list A) : NoDup l → NoDup (take n l).
Proof. intros Hl. rewrite <-(take_drop n l), NoDup_app in Hl. tauto. Qed.

Section plan.
Context (p : PartitionId) (self : NodeId) (cs : list NodeId) (rf : N) (plan : RoutingPlan).
Context (Hplan : route_write p self (membership_new cs) rf = Some plan).

Lemma plan_replicas :
  rp_replicas plan = take (N.to_nat (N.max rf 1)) (hrw_ranked p (dedup ∅ cs)) ∧
  rp_rf plan = N.max rf 1 ∧ NoDup (rp_replicas plan) ∧
  (∀ n, n ∈ rp_replicas plan → n ∈ cs) ∧
  head (rp_replicas plan) = Some (rp_owner plan).
Proof.
  destruct (route_write_Some _ _ _ _ _ Hplan) as (Ho & Hrf & Hr & _). simpl in *. rewrite Hrf in Hr.
  assert (NoDup (hrw_ranked p (dedup ∅ cs))) as Hnd by (rewrite hrw_ranked_perm; apply NoDup_dedup).
  split; [done|]. split; [done|]. rewrite Hr. split; [by apply NoDup_take|]. split.
  - intros n Hn. assert (n ∈ hrw_ranked p (dedup ∅ cs)) as Hn'.
    { apply elem_of_take in Hn as (i & ? & _). by eapply list_elem_of_lookup_2. }
    rewrite hrw_ranked_perm, elem_of_dedup in Hn'. tauto.
  - destruct (N.to_nat (N.max rf 1)) eqn:E; [lia|]. by destruct (hrw_ranked p _).
Qed.

Lemma plan_not_below :
  is_below_floor plan = false → length (rp_replicas plan) = N.to_nat (rp_rf plan).
Proof.
  destruct plan_replicas as (Hr & Hrf & _). unfold is_below_floor. rewrite Nat.ltb_ge.
  rewrite Hr, Hrf, length_take. lia.
Qed.

End plan.

Lemma filter_ne_all (self : string) (l : list string) : self ∉ l → filter (λ n, n ≠ self) l = l.
Proof.
  induction l as [|n l IH]; intros Hn; [done|].
  rewrite filter_cons, decide_True by set_solver. by rewrite IH by set_solver.
Qed.

Lemma filter_ne_length (self : string) (l : list string) :
  NoDup l → (length l ≤ S (length (filter (λ n, n ≠ self) l)))%nat.
Proof.
  induction 1 as [|n l Hn Hl IH]; simpl; [lia|]. rewrite filter_cons. case_decide as E; simpl; [lia|].
  subst. by rewrite filter_ne_all.
Qed.

(** The routing plan.  Whatever the membership list (duplicates and order
    do not matter), a write is routed exactly when there is a candidate; its
    replica set holds distinct candidates, the ring owner first, the owner
    being the highest-scoring candidate, and has [rf] members unless the plan
    reports itself below the floor. *)
Theorem route_write_plan (p : PartitionId) (self : NodeId) (cs : list NodeId) (rf : N) :
  (route_write p self (membership_new cs) rf = None ↔ cs = []) ∧
  ∀ plan, route_write p self (membership_new cs) rf = Some plan →
    hrw_owner p cs = Some (rp_owner plan) ∧ head (rp_replicas plan) = Some (rp_owner plan) ∧
    NoDup (rp_replicas plan) ∧ (∀ n, n ∈ rp_replicas plan → n ∈ cs) ∧
    (rp_is_local_owner plan = true ↔ rp_owner plan = self) ∧
    (is_below_floor plan = false ↔ length (rp_replicas plan) = N.to_nat (N.max rf 1)).
Proof.
  split.
  - rewrite route_write_None. apply dedup_nil.
  - intros plan Hplan. destruct (plan_replicas _ _ _ _ _ Hplan) as (Hr & Hrf & Hnd & Hin & Hh).
    destruct (route_write_Some _ _ _ _ _ Hplan) as (Ho & _ & _ & Hl). simpl in Ho.
    split; [|split; [done|split; [done|split; [done|split]]]].
    + rewrite <-(hrw_owner_dedup p cs), hrw_owner_head. done.
    + by rewrite Hl, bool_decide_eq_true.
    + rewrite <-Hrf. split; [by eapply plan_not_below|].
      intros E. unfold is_below_floor. rewrite E. apply Nat.ltb_ge. lia.
Qed.

(** A plan depends on the set of candidates only. *)
Theorem route_write_order (p : PartitionId) (self : NodeId) (cs cs' : list NodeId) (rf : N) :
  (∀ n, n ∈ cs ↔ n ∈ cs') →
  route_write p self (membership_new cs) rf = route_write p self (membership_new cs') rf.
Proof.
  intros Hs. unfold route_write.
  by rewrite (hrw_ranked_proper p _ _ (candidates_perm cs cs' Hs)).
Qed.

(** The forward targets.  They are distinct members of the replica set,
    never the accepting node itself; at or above the floor they are exactly
    [rf - 1], so that with the local copy there are [rf] copies; and for
    [rf >= 2] they include the ring owner whenever another node accepted the
    write. *)
Theorem forward_targets_spec (p : PartitionId) (self : NodeId) (cs : list NodeId) (rf : N)
    (plan : RoutingPlan) :
  route_write p self (membership_new cs) rf = Some plan →
  let targets := forward_targets plan self in
  NoDup targets ∧ self ∉ targets ∧ (∀ n, n ∈ targets → n ∈ rp_replicas plan) ∧
  (is_below_floor plan = false → S (length targets) = N.to_nat (N.max rf 1)) ∧
  ((2 ≤ rf)%N → rp_owner plan ≠ self → rp_owner plan ∈ targets).
Proof.
  intros Hplan targets. destruct (plan_replicas _ _ _ _ _ Hplan) as (Hr & Hrf & Hnd & Hin & Hh).
  unfold targets, forward_targets.
  assert (∀ n, n ∈ take (N.to_nat (N.pred (rp_rf plan))) (filter (λ n, n ≠ self) (rp_replicas plan)) →
    n ≠ self ∧ n ∈ rp_replicas plan) as Hmem.
  { intros n Hn. apply elem_of_take in Hn as (i & Hi & _). apply list_elem_of_lookup_2 in Hi.
    by apply list_elem_of_filter in Hi. }
  split; [by apply NoDup_take, NoDup_filter|]. split; [intros Hs; by apply Hmem in Hs as [? _]|].
  split; [intros n Hn; by apply Hmem|]. split.
  - intros Hb. pose proof (plan_not_below _ _ _ _ _ Hplan Hb) as Hlen.
    pose proof (filter_ne_length self _ Hnd). rewrite length_take. rewrite Hrf in *. lia.
  - intros H2 Hne. destruct (rp_replicas plan) as [|o rs]; [done|]. injection Hh as ->.
    rewrite filter_cons, decide_True by done.
    destruct (N.to_nat (N.pred (rp_rf plan))) eqn:E; [rewrite Hrf in E; lia|by left].
Qed.

(** At [rf = 1] a write is forwarded to no one, so a node that is not the
    owner keeps the only copy. *)
Theorem forward_targets_rf1 (p : PartitionId) (self : NodeId) (cs : list NodeId) (rf : N)
    (plan : RoutingPlan) :
  (rf ≤ 1)%N → route_write p self (membership_new cs) rf = Some plan →
  forward_targets plan self = [].
Proof.
  intros Hrf Hplan. destruct (route_write_Some _ _ _ _ _ Hplan) as (_ & E & _).
  unfold forward_targets. rewrite E. by replace (N.pred (N.max rf 1)) with 0%N by lia.
Qed.
