(* ===== verification/Fencing.v ===== *)
(** * Incarnation fencing and claim bookkeeping

    Models [crates/duckspout-replication/src/fencing.rs] (the receiver-held
    table of the highest incarnation seen per sender) and [claims.rs] (which
    registry claims were already advertised). *)

From S2P Require Import Prelude Types.

Abbreviation Incarnation := N (only parsing).

(** [Incarnation::next] *)
Definition incarnation_next (i : Incarnation) : Incarnation := u64_succ i.

(** [FenceIdentity] *)
Record FenceIdentity := { fi_node : NodeId; fi_incarnation : Incarnation }.

(** [FenceOutcome] *)
Inductive FenceOutcome :=
| FAdmitted
| Zombie (highest_seen : Incarnation).

#[global] Instance FenceOutcome_eq_dec : EqDecision FenceOutcome.
Proof. solve_decision. Defined.

(** [FenceTable]: its field [highest_seen]. *)
Abbreviation FenceTable := (gmap string N) (only parsing).

(** [FenceTable::highest_seen] *)
Definition highest_seen (t : FenceTable) (node : NodeId) : Incarnation := default 0%N (t !! node).

(** [FenceTable::admit] *)
Definition admit_identity (t : FenceTable) (identity : FenceIdentity) : FenceOutcome * FenceTable :=
  let highest := default 0%N (t !! fi_node identity) in
  if (fi_incarnation identity <? highest)%N then (Zombie highest, t)
  else (FAdmitted, <[fi_node identity := fi_incarnation identity]> t).

(** The table after a sequence of messages, and their outcomes. *)
Fixpoint admit_all (t : FenceTable) (ids : list FenceIdentity) :
    list FenceOutcome * FenceTable :=
  match ids with
  | [] => ([], t)
  | i :: ids =>
      let '(o, t) := admit_identity t i in
      let '(os, t) := admit_all t ids in (o :: os, t)
  end.

Lemma admit_highest t i n :
  highest_seen (snd (admit_identity t i)) n
  = if decide (fi_node i = n) then N.max (highest_seen t n) (fi_incarnation i) else highest_seen t n.
Proof.
  unfold admit_identity, highest_seen. case_decide as E; [subst n|];
    case_if; simpl; rewrite ?lookup_insert_eq, ?lookup_insert_ne by done; simpl; try done; lia.
Qed.

Lemma admit_outcome t i :
  fst (admit_identity t i) =
    if (fi_incarnation i <? highest_seen t (fi_node i))%N
    then Zombie (highest_seen t (fi_node i)) else FAdmitted.
Proof. unfold admit_identity, highest_seen. by case_if. Qed.

(** The highest incarnation of [n] among messages. *)
Definition max_incarnation (n : NodeId) (ids : list FenceIdentity) : N :=
  foldr (λ i acc, if decide (fi_node i = n) then N.max (fi_incarnation i) acc else acc) 0%N ids.

Lemma admit_all_highest t ids n :
  highest_seen (snd (admit_all t ids)) n = N.max (highest_seen t n) (max_incarnation n ids).
Proof.
  revert t. induction ids as [|i ids IH]; intros t; simpl; [lia|].
  pose proof (admit_highest t i n) as Hh. destruct (admit_identity t i) as [o t1]. simpl in Hh.
  specialize (IH t1). destruct (admit_all t1 ids) as [os t2]. simpl in *. rewrite IH, Hh.
  case_decide; lia.
Qed.

Lemma admit_all_snoc t ids i :
  admit_all t (ids ++ [i]) =
    (fst (admit_all t ids) ++ [fst (admit_identity (snd (admit_all t ids)) i)],
     snd (admit_identity (snd (admit_all t ids)) i)).
Proof.
  revert t. induction ids as [|j ids IH]; intros t; simpl.
  - by destruct (admit_identity t i).
  - destruct (admit_identity t j) as [o t1]. rewrite IH. by destruct (admit_all t1 ids).
Qed.

(** Zombies are fenced.  After any messages, whatever their order, the
    table holds per sender the highest incarnation any of them carried, and a
    further message is refused exactly when its incarnation is below that; a
    refused message leaves the table alone. *)
Theorem fence_spec (ids : list FenceIdentity) (i : FenceIdentity) :
  let t := snd (admit_all ∅ ids) in
  (∀ n, highest_seen t n = max_incarnation n ids) ∧
  (fst (admit_identity t i) = FAdmitted ↔ (max_incarnation (fi_node i) ids ≤ fi_incarnation i)%N) ∧
  (fst (admit_identity t i) ≠ FAdmitted →
     fst (admit_identity t i) = Zombie (max_incarnation (fi_node i) ids) ∧
     snd (admit_identity t i) = t).
Proof.
  intros t. assert (∀ n, highest_seen t n = max_incarnation n ids) as Hh.
  { intros n. unfold t. rewrite admit_all_highest. unfold highest_seen. rewrite lookup_empty. apply N.max_0_l. }
  split; [done|]. rewrite admit_outcome, Hh. split.
  - case_if; split; done || lia.
  - unfold admit_identity. fold (highest_seen t (fi_node i)). rewrite Hh. by case_if.
Qed.

(** The order of delivery does not matter to the table: any two deliveries
    of the same messages leave the same incarnation on file for every
    sender. *)
Theorem fence_order_irrelevant (ids ids' : list FenceIdentity) (n : NodeId) :
  ids ≡ₚ ids' → highest_seen (snd (admit_all ∅ ids)) n = highest_seen (snd (admit_all ∅ ids')) n.
Proof.
  intros Hp. rewrite !admit_all_highest. f_equal.
  induction Hp as [|i ids ids' _ IH|i j ids|ids1 ids2 ids3 _ IH1 _ IH2]; simpl; [done|..].
  - by rewrite IH.
  - repeat case_decide; lia.
  - congruence.
Qed.

(** ** claims.rs *)

(** [ClaimRole] *)
Inductive ClaimRole := Owner | Replica.

#[global] Instance ClaimRole_eq_dec : EqDecision ClaimRole.
Proof. solve_decision. Defined.

(** [ClaimTracker]: its field [claims]. *)
Abbreviation ClaimTracker := (gmap string ClaimRole) (only parsing).

(** [ClaimTracker::should_advertise] *)
Definition should_advertise (t : ClaimTracker) (partition : PartitionId) (role : ClaimRole) : bool :=
  negb (bool_decide (t !! partition = Some role)).

(** [ClaimTracker::mark_advertised] *)
Definition mark_advertised (t : ClaimTracker) (partition : PartitionId) (role : ClaimRole) :
    ClaimTracker :=
  <[partition := role]> t.

(** [ClaimTracker::current_role] *)
Definition current_role (t : ClaimTracker) (partition : PartitionId) : option ClaimRole :=
  t !! partition.

(** The caller's obligation: advertise when asked to, and mark only when the
    registry call succeeded.  The result says whether the registry was
    called. *)
Definition on_apply (t : ClaimTracker) (partition : PartitionId) (role : ClaimRole)
    (registry_ok : bool) : bool * ClaimTracker :=
  if should_advertise t partition role then
    (true, if registry_ok then mark_advertised t partition role else t)
  else (false, t).

(** The applies of one tracker's lifetime, with the registry's answers. *)
Fixpoint claim_calls (t : ClaimTracker) (applies : list (PartitionId * ClaimRole * bool)) :
    list bool :=
  match applies with
  | [] => []
  | (p, role, ok) :: applies =>
      let '(called, t) := on_apply t p role ok in called :: claim_calls t applies
  end.

Fixpoint claims_after (t : ClaimTracker) (applies : list (PartitionId * ClaimRole * bool)) :
    ClaimTracker :=
  match applies with
  | [] => t
  | (p, role, ok) :: applies => claims_after (snd (on_apply t p role ok)) applies
  end.

Lemma claims_after_other t applies p role :
  t !! p = Some role → Forall (λ a, a.1.1 = p → a.1.2 = role) applies →
  claims_after t applies !! p = Some role.
Proof.
  revert t. induction applies as [|[[q r] ok] applies IH]; intros t Ht Hall; [done|].
  apply Forall_cons in Hall as [Hq Hall]. simpl in *. apply IH; [|done].
  unfold on_apply, mark_advertised. case_if; simpl; [|done]. destruct ok; [|done].
  destruct (decide (q = p)) as [->|Hne]; [rewrite lookup_insert_eq; f_equal; auto|].
  by rewrite lookup_insert_ne.
Qed.

(** A claim is advertised once.  After a successful advertisement of a
    partition under a role, no later apply of the partition under the same
    role calls the registry again, until one under the other role does; a
    failed call is retried at the next apply. *)
Theorem claim_advertised_once (t : ClaimTracker) (p : PartitionId) (role : ClaimRole)
    (applies : list (PartitionId * ClaimRole * bool)) :
  Forall (λ a, a.1.1 = p → a.1.2 = role) applies →
  should_advertise (claims_after (snd (on_apply t p role true)) applies) p role = false ∧
  (should_advertise t p role = true → on_apply t p role false = (true, t)).
Proof.
  intros Hall. split; [|by unfold on_apply; intros ->].
  unfold should_advertise. rewrite (claims_after_other _ _ p role); [by rewrite bool_decide_eq_true_2| |done].
  unfold on_apply, should_advertise, mark_advertised. case_if; simpl; [by rewrite lookup_insert_eq|done].
Qed.
