(* ===== verification/Wire.v ===== *)
(** * The replication wire envelope

    Models [crates/duckspout-replication/src/wire.rs]: the two messages, the
    shape they take on the wire and the conversions.  The byte encoding itself
    is [serde_json]'s, a parameter. *)

From S2P Require Import Prelude Types Fencing.

(** [ForwardMessage] *)
Record ForwardMessage := {
  fm_incarnation : Incarnation;
  fm_partition : PartitionId;
  fm_range : OriginSeqRange;
  fm_window : WindowId;
  fm_dataset : DatasetId;
  fm_records : Bytes;
}.

(** [ReceiptMessage] *)
Record ReceiptMessage := {
  rm_incarnation : Incarnation;
  rm_holder : NodeId;
  rm_origin : NodeId;
  rm_partition : PartitionId;
  rm_applied_thru : N;
}.

(** [Envelope] *)
Inductive Envelope :=
| EForward (msg : ForwardMessage)
| EReceipt (msg : ReceiptMessage).

(** [WireDecodeError] *)
Inductive WireDecodeError := MalformedEnvelope (msg : string).

(** [WireEnvelope] *)
Inductive WireEnvelope :=
| WForward (incarnation : Incarnation) (partition : PartitionId) (origin : NodeId)
    (first_seq last_seq : N) (window : WindowId) (dataset : DatasetId) (records : Bytes)
| WReceipt (incarnation : Incarnation) (holder origin : NodeId) (partition : PartitionId)
    (applied_thru : N).

(** [serde_json] on the wire shape: [to_vec] and [from_slice], with the error
    already rendered. *)
Class Json := {
  to_vec : WireEnvelope → Bytes;
  from_slice : Bytes → result WireEnvelope string;
}.

(** A document [to_vec] wrote is read back. *)
Class JsonLaws `{Json} := {
  json_roundtrip w : from_slice (to_vec w) = Ok w;
}.

(** The conversion at the head of [Envelope::to_bytes]. *)
Definition to_wire (e : Envelope) : WireEnvelope :=
  match e with
  | EForward m =>
      WForward (fm_incarnation m) (fm_partition m) (origin (fm_range m)) (first_seq (fm_range m))
        (last_seq (fm_range m)) (fm_window m) (fm_dataset m) (fm_records m)
  | EReceipt m =>
      WReceipt (rm_incarnation m) (rm_holder m) (rm_origin m) (rm_partition m) (rm_applied_thru m)
  end.

(** The conversion at the end of [Envelope::from_bytes]. *)
Definition of_wire (w : WireEnvelope) : Envelope :=
  match w with
  | WForward incarnation partition origin first last window dataset records =>
      EForward {| fm_incarnation := incarnation; fm_partition := partition;
                  fm_range := {| origin := origin; first_seq := first; last_seq := last |};
                  fm_window := window; fm_dataset := dataset; fm_records := records |}
  | WReceipt incarnation holder origin partition applied_thru =>
      EReceipt {| rm_incarnation := incarnation; rm_holder := holder; rm_origin := origin;
                  rm_partition := partition; rm_applied_thru := applied_thru |}
  end.

Section wire.
Context `{Json}.

(** [Envelope::to_bytes] *)
Definition to_bytes (e : Envelope) : Bytes := to_vec (to_wire e).

(** [Envelope::from_bytes] *)
Definition from_bytes (payload : Bytes) : result Envelope WireDecodeError :=
  let? wire := map_err MalformedEnvelope (from_slice payload) in
  Ok (of_wire wire).

Context `{!JsonLaws}.

Lemma from_to_bytes e : from_bytes (to_bytes e) = Ok e.
Proof.
  unfold from_bytes, to_bytes. rewrite json_roundtrip.
  by destruct e as [[i p [o f l] w d r]|[i h o p t]].
Qed.

(** The envelope survives the wire: decoding what was encoded gives the
    message back, and two different messages never share an encoding. *)
Theorem envelope_roundtrip (e e' : Envelope) :
  from_bytes (to_bytes e) = Ok e ∧ (to_bytes e = to_bytes e' → e = e').
Proof.
  split; [apply from_to_bytes|]. intros E. pose proof (from_to_bytes e) as He.
  rewrite E, from_to_bytes in He. by injection He.
Qed.

End wire.
