(* ===== verification/Receipt.v ===== *)
(** * Receipts and the client acknowledgment

    Models [crates/duckspout-replication/src/receipt.rs]: the origin-side
    record of how far each holder has applied, and the total-inclusive
    acknowledgment test. *)

From S2P Require Import Prelude Types Fencing Wire.

(** [ReceiptOutcome] *)
Inductive ReceiptOutcome := Recorded | RFenced | SelfReceiptRejected.

(** [ReceiptTracker]: its field [watermarks], by (holder, origin,
    partition). *)
Abbreviation ReceiptTracker := (gmap (string * string * string) N) (only parsing).

(** [ReceiptTracker::new] *)
Definition tracker_new : ReceiptTracker := ∅.

(** [ReceiptTracker::record] *)
Definition record (t : ReceiptTracker) (fence : FenceTable) (receipt : ReceiptMessage) :
    ReceiptOutcome * ReceiptTracker * FenceTable :=
  if bool_decide (rm_holder receipt = rm_origin receipt) then (SelfReceiptRejected, t, fence)
  else
    let '(admitted, fence) :=
      admit_identity fence
        {| fi_node := rm_holder receipt; fi_incarnation := rm_incarnation receipt |} in
    match admitted with
    | Zombie _ => (RFenced, t, fence)
    | FAdmitted =>
        let key := (rm_holder receipt, rm_origin receipt, rm_partition receipt) in
        let watermark := default 0%N (t !! key) in
        (Recorded, <[key := N.max watermark (rm_applied_thru receipt)]> t, fence)
    end.

(** [ReceiptTracker::holder_applied_thru] *)
Definition holder_applied_thru (t : ReceiptTracker) (holder origin : NodeId)
    (partition : PartitionId) : N :=
  default 0%N (t !! (holder, origin, partition)).

(** [ReceiptTracker::receipted_peer_count] *)
Definition receipted_peer_count (t : ReceiptTracker) (origin : NodeId) (partition : PartitionId)
    (thru_seq : N) : nat :=
  length (List.filter (λ e, bool_decide (e.1.1.2 = origin) && bool_decide (e.1.2 = partition)
                          && (thru_seq <=? e.2)%N) (map_to_list t)).

(** [client_ack_ready] *)
Definition client_ack_ready (t : ReceiptTracker) (origin : NodeId) (partition : PartitionId)
    (last_seq rf : N) : bool :=
  (N.pred rf <=? N.of_nat (receipted_peer_count t origin partition last_seq))%N.

(** ** Properties *)

(** The holders counted. *)
Definition receipted_holders (t : ReceiptTracker) (origin : NodeId) (partition : PartitionId)
    (thru_seq : N) : list NodeId :=
  (λ e, e.1.1.1) <$>
  List.filter (λ e, bool_decide (e.1.1.2 = origin) && bool_decide (e.1.2 = partition)
                    && (thru_seq <=? e.2)%N) (map_to_list t).

Lemma length_receipted_holders t o p x :
  length (receipted_holders t o p x) = receipted_peer_count t o p x.
Proof. apply length_fmap. Qed.

Lemma elem_of_receipted_holders t o p x h :
  h ∈ receipted_holders t o p x ↔ ∃ w, t !! (h, o, p) = Some w ∧ (x ≤ w)%N.
Proof.
  unfold receipted_holders. rewrite list_elem_of_fmap. split.
  - intros ([[[h' o'] p'] w] & -> & Hin). rewrite list_elem_of_In, filter_In, <-list_elem_of_In in Hin.
    destruct Hin as [Hin Hb]. simpl in *. bool_tests. subst. exists w.
    split; [by apply elem_of_map_to_list|done].
  - intros (w & Hw & Hx). exists (h, o, p, w). split; [done|].
    rewrite list_elem_of_In, filter_In, <-list_elem_of_In, elem_of_map_to_list. split; [done|]. simpl.
    rewrite !bool_decide_eq_true_2 by done. by apply N.leb_le.
Qed.

(** Each holder is counted once. *)
Lemma NoDup_receipted_holders t o p x : NoDup (receipted_holders t o p x).
Proof.
  unfold receipted_holders. pose proof (NoDup_fst_map_to_list t) as Hnd.
  induction (map_to_list t) as [|[[[h' o'] p'] w] l IH]; simpl; [constructor|].
  apply NoDup_cons in Hnd as [Hn Hnd]. case_if; [|auto]. bool_tests. simpl. constructor; [|auto].
  intros ([[[h2 o2] p2] w2] & E & Hin)%list_elem_of_fmap. simpl in E. subst h2.
  rewrite list_elem_of_In, filter_In, <-list_elem_of_In in Hin. destruct Hin as [Hin Hb].
  simpl in Hb. bool_tests. subst. apply Hn. apply list_elem_of_fmap. eexists. split; [|exact Hin]. done.
Qed.

(** The watermark after recording a receipt. *)
Lemma record_watermark t fence r k :
  let t' := snd (fst (record t fence r)) in
  t' !! k = t !! k ∨
  (fst (fst (record t fence r)) = Recorded ∧ rm_holder r ≠ rm_origin r ∧
   k = (rm_holder r, rm_origin r, rm_partition r) ∧
   t' !! k = Some (N.max (default 0%N (t !! k)) (rm_applied_thru r))).
Proof.
  unfold record. case_if; [by left|].
  destruct (admit_identity _ _) as [[|z] fence']; [|by left]. simpl.
  destruct (decide (k = (rm_holder r, rm_origin r, rm_partition r))) as [->|Hne].
  - right. by rewrite lookup_insert_eq.
  - left. by rewrite lookup_insert_ne.
Qed.

(** Cumulative acknowledgments only advance: no receipt, in whatever order
    it arrives, lowers a holder's recorded watermark; a recorded receipt is
    reflected, and a rejected one changes nothing. *)
Theorem receipt_monotone (t : ReceiptTracker) (fence : FenceTable) (r : ReceiptMessage)
    (h o : NodeId) (p : PartitionId) :
  let '(outcome, t', _) := record t fence r in
  (holder_applied_thru t h o p ≤ holder_applied_thru t' h o p)%N ∧
  (outcome = Recorded →
     (rm_applied_thru r ≤ holder_applied_thru t' (rm_holder r) (rm_origin r) (rm_partition r))%N) ∧
  (outcome ≠ Recorded → t' = t).
Proof.
  unfold record, holder_applied_thru. case_if; [by split; [lia|]|].
  destruct (admit_identity _ _) as [[|z] fence']; [|by split; [lia|]]. split; [|split; [|done]].
  - destruct (decide ((h, o, p) = (rm_holder r, rm_origin r, rm_partition r))) as [E|Hne].
    + rewrite E, lookup_insert_eq. simpl. lia.
    + rewrite lookup_insert_ne by done. lia.
  - intros _. rewrite lookup_insert_eq. simpl. lia.
Qed.

(** The tracker after a sequence of receipts, all against one fence table. *)
Fixpoint record_all (t : ReceiptTracker) (fence : FenceTable) (rs : list ReceiptMessage) :
    ReceiptTracker * FenceTable :=
  match rs with
  | [] => (t, fence)
  | r :: rs => let '(_, t, fence) := record t fence r in record_all t fence rs
  end.

(** What a tracker may hold: a watermark vouched for by a receipt of that
    holder, for a write not its own. *)
Definition vouched (rs : list ReceiptMessage) (t : ReceiptTracker) : Prop :=
  ∀ h o p w, t !! (h, o, p) = Some w →
    h ≠ o ∧ ∃ r, r ∈ rs ∧ rm_holder r = h ∧ rm_origin r = o ∧ rm_partition r = p ∧
      (w ≤ rm_applied_thru r)%N.

Lemma record_vouched rs t fence r :
  vouched rs t → r ∈ rs → vouched rs (snd (fst (record t fence r))).
Proof.
  intros Hv Hr h o p w Hw. pose proof (record_watermark t fence r (h, o, p)) as Hk. simpl in Hk.
  destruct Hk as [Hk|(_ & Hne & E & Hk)]; rewrite Hk in Hw; [by apply Hv|].
  simplify_eq. split; [done|]. destruct (t !! _) as [w0|] eqn:Et; simpl in *.
  - destruct (Hv _ _ _ _ Et) as (_ & r0 & Hr0 & E1 & E2 & E3 & Hle).
    destruct (N.max_spec w0 (rm_applied_thru r)) as [[_ ->]|[_ ->]]; eauto 10.
  - exists r. repeat (split; [done|]). lia.
Qed.

Lemma record_all_vouched rs rs' t fence :
  vouched rs t → rs' ⊆ rs → vouched rs (fst (record_all t fence rs')).
Proof.
  revert t fence. induction rs' as [|r rs' IH]; intros t fence Hv Hsub; simpl; [done|].
  pose proof (record_vouched rs t fence r Hv) as Hv'. destruct (record t fence r) as [[o t'] f'].
  apply IH; [|set_solver]. apply Hv'. set_solver.
Qed.

(** An acknowledgment counts distinct peers.  When a batch is ready at
    [rf], there are at least [rf - 1] distinct nodes, none of them the origin,
    each of which sent a receipt at or past the batch's last sequence number:
    with the origin's own copy, [rf] copies. *)
Theorem client_ack_distinct (rs : list ReceiptMessage) (fence : FenceTable) (o : NodeId)
    (p : PartitionId) (last_seq rf : N) :
  let t := fst (record_all tracker_new fence rs) in
  client_ack_ready t o p last_seq rf = true →
  ∃ holders, NoDup holders ∧ o ∉ holders ∧ (rf ≤ N.of_nat (length holders) + 1)%N ∧
    ∀ h, h ∈ holders → ∃ r, r ∈ rs ∧ rm_holder r = h ∧ rm_origin r = o ∧ rm_partition r = p ∧
      (last_seq ≤ rm_applied_thru r)%N.
Proof.
  intros t Hready. exists (receipted_holders t o p last_seq).
  assert (vouched rs t) as Hv.
  { apply record_all_vouched; [|done]. intros h o' p' w Hw. unfold tracker_new in Hw. by rewrite lookup_empty in Hw. }
  split; [apply NoDup_receipted_holders|]. split; [|split].
  - intros (w & Hw & _)%elem_of_receipted_holders. by destruct (Hv _ _ _ _ Hw).
  - unfold client_ack_ready in Hready. bool_tests. rewrite length_receipted_holders. lia.
  - intros h (w & Hw & Hle)%elem_of_receipted_holders.
    destruct (Hv _ _ _ _ Hw) as (_ & r & Hr & E1 & E2 & E3 & ?). exists r.
    repeat (split; [done|]). lia.
Qed.
