(* ===== verification/Cluster.v ===== *)
(** * Forwarding, and the cluster as a whole

    Models [crates/duckspout-replication/src/forward.rs], then puts
    [apply_forward] and [ReceiptTracker::record] together as a network of nodes
    whose messages may be lost, repeated and reordered and whose nodes may
    reboot, and proves that an acknowledgment is durable. *)

From S2P Require Import Prelude Types Ports Hrw Routing Fencing Wire PeerApply Receipt.

(** ** forward.rs *)

(** [TransportError] *)
Inductive TransportError := UnknownPeer (peer : NodeId) | Closed.

(** [ForwardBatch] *)
Record ForwardBatch := {
  fb_coverage : StagedCoverage;
  fb_window : WindowId;
  fb_dataset : DatasetId;
  fb_records : Bytes;
}.

(** [Transport::send], one step on the transport's state. *)
Class Transport (T : Type) := {
  tr_send : T → NodeId → Bytes → result unit TransportError * T;
}.

Section forward.
Context `{Json} `{Transport T}.

(** The message [forward_to_peers] ships. *)
Definition forward_message (self_incarnation : Incarnation) (batch : ForwardBatch) :
    ForwardMessage :=
  {| fm_incarnation := self_incarnation; fm_partition := sc_partition (fb_coverage batch);
     fm_range := sc_range (fb_coverage batch); fm_window := fb_window batch;
     fm_dataset := fb_dataset batch; fm_records := fb_records batch |}.

(** The loop of [forward_to_peers]: the results, the transport after the sends
    and the events journaled. *)
Fixpoint send_loop (transport : T) (self_node : NodeId) (payload : Bytes) (peers : list NodeId) :
    list (NodeId * result unit TransportError) * T * list TraceEvent :=
  match peers with
  | [] => ([], transport, [])
  | peer :: peers =>
      if bool_decide (peer = self_node) then send_loop transport self_node payload peers
      else
        let '(result, transport) := tr_send transport peer payload in
        let '(results, transport, trace) := send_loop transport self_node payload peers in
        ((peer, result) :: results, transport, EvForward :: trace)
  end.

(** [forward_to_peers] *)
Definition forward_to_peers (transport : T) (self_node : NodeId) (self_incarnation : Incarnation)
    (peers : list NodeId) (batch : ForwardBatch) :
    list (NodeId * result unit TransportError) * T * list TraceEvent :=
  send_loop transport self_node (to_bytes (EForward (forward_message self_incarnation batch))) peers.

End forward.

(** A transport that keeps what it was handed and answers as [script] says. *)
Record Outbox := {
  ob_sent : list (NodeId * Bytes);
  ob_script : NodeId → Bytes → result unit TransportError;
}.

#[global] Instance Outbox_Transport : Transport Outbox := {|
  tr_send t peer payload :=
    (ob_script t peer payload,
     {| ob_sent := ob_sent t ++ [(peer, payload)]; ob_script := ob_script t |});
|}.

Lemma send_loop_spec (t : Outbox) self payload peers :
  let others := filter (λ n, n ≠ self) peers in
  send_loop t self payload peers =
    ((λ n, (n, ob_script t n payload)) <$> others,
     {| ob_sent := ob_sent t ++ ((λ n, (n, payload)) <$> others); ob_script := ob_script t |},
     replicate (length others) EvForward).
Proof.
  revert t. induction peers as [|n peers IH]; intros t; simpl.
  { rewrite app_nil_r. by destruct t. }
  rewrite filter_cons. case_if; bool_tests.
  - by rewrite decide_False by auto.
  - rewrite decide_True by done. simpl. rewrite IH. simpl. by rewrite <-app_assoc.
Qed.

(** A batch reaches the replica set.  Forwarding along a routing plan that
    is not below the floor hands the transport one and the same message, which
    decodes to the batch stamped with the sender's incarnation, for [rf - 1]
    distinct peers, never the sender, in the order of their rank, with one
    event each; whatever the sends answer. *)
Theorem forward_reaches_rf `{Json, !JsonLaws} (p : PartitionId) (self : NodeId)
    (cs : list NodeId) (rf inc : N) (plan : RoutingPlan) (batch : ForwardBatch)
    (script : NodeId → Bytes → result unit TransportError) :
  route_write p self (membership_new cs) rf = Some plan → is_below_floor plan = false →
  let targets := forward_targets plan self in
  let '(results, t', trace) :=
    forward_to_peers {| ob_sent := []; ob_script := script |} self inc targets batch in
  (ob_sent t').*1 = targets ∧ results.*1 = targets ∧ NoDup targets ∧ self ∉ targets ∧
  S (length targets) = N.to_nat (N.max rf 1) ∧ trace = replicate (length targets) EvForward ∧
  ∀ n payload, (n, payload) ∈ ob_sent t' →
    from_bytes payload = Ok (EForward (forward_message inc batch)).
Proof.
  intros Hplan Hfloor targets. destruct (plan_replicas _ _ _ _ _ Hplan) as (Hr & Hrf & Hnd & _).
  pose proof (plan_not_below _ _ _ _ _ Hplan Hfloor) as Hlen.
  assert (NoDup targets ∧ self ∉ targets) as [Hndt Hself].
  { unfold targets, forward_targets. split; [by apply NoDup_take, NoDup_filter|].
    intros (i & Hi & _)%elem_of_take. apply list_elem_of_lookup_2, list_elem_of_filter in Hi. naive_solver. }
  unfold forward_to_peers. rewrite send_loop_spec. simpl. rewrite filter_ne_all by done.
  rewrite <-!list_fmap_compose.
  assert (∀ A (f : NodeId → A), (fst ∘ λ n : NodeId, (n, f n)) <$> targets = targets) as Hfst.
  { intros A f. apply list_fmap_id. }
  split; [by apply (Hfst _ (λ _, _))|]. split; [apply (Hfst _ (λ n, script n _))|].
  repeat (split; [done|]). split; [|split; [done|]].
  - unfold targets, forward_targets. pose proof (filter_ne_length self _ Hnd).
    rewrite length_take. rewrite Hrf in *. lia.
  - intros n payload (n' & E & _)%list_elem_of_fmap. simplify_eq. apply from_to_bytes.
Qed.

(** ** The cluster *)

Section cluster.
Context `{ReplicaLog G, !ReplicaLogLaws G}.

(** A node: its incarnation, its fence table and receipt tracker (volatile),
    and its log (durable). *)
Record Node := {
  n_incarnation : Incarnation;
  n_fence : FenceTable;
  n_tracker : ReceiptTracker;
  n_log : G;
}.

(** The nodes, and every message ever sent: a message in the network may be
    delivered any number of times, in any order, or never. *)
Record Network := {
  node : NodeId → Node;
  forwards : list (NodeId * ForwardMessage);
  receipts : list ReceiptMessage;
}.

Definition set_node (c : Network) (n : NodeId) (s : Node) : NodeId → Node :=
  λ m, if decide (m = n) then s else node c m.

(** Node [n] handles the forward [m]: [apply_forward], and its receipt sent. *)
Definition handle_forward (c : Network) (n : NodeId) (m : ForwardMessage) : Network :=
  let s := node c n in
  let '(outcome, ps) := apply_forward (n_fence s) (n_log s) n (n_incarnation s) m in
  {| node := set_node c n {| n_incarnation := n_incarnation s; n_fence := ps_fence ps;
                             n_tracker := n_tracker s; n_log := ps_log ps |};
     forwards := forwards c;
     receipts := receipts c ++ option_list (receipt_of outcome) |}.

(** Node [n] handles the receipt [r]. *)
Definition handle_receipt (c : Network) (n : NodeId) (r : ReceiptMessage) : Network :=
  let s := node c n in
  let '(_, tracker, fence) := record (n_tracker s) (n_fence s) r in
  {| node := set_node c n {| n_incarnation := n_incarnation s; n_fence := fence;
                             n_tracker := tracker; n_log := n_log s |};
     forwards := forwards c; receipts := receipts c |}.

(** Node [n] reboots under another incarnation: only its log survives. *)
Definition reboot (c : Network) (n : NodeId) (i : Incarnation) : Network :=
  {| node := set_node c n {| n_incarnation := i; n_fence := ∅; n_tracker := tracker_new;
                             n_log := n_log (node c n) |};
     forwards := forwards c; receipts := receipts c |}.

(** The steps of the network.  Forwards are arbitrary (any sender, any claimed
    origin, any range): only receipts are produced by the nodes alone. *)
Inductive net_step : Network → Network → Prop :=
| StepSend c n m :
    forward_typed m →
    net_step c {| node := node c; forwards := (n, m) :: forwards c; receipts := receipts c |}
| StepForward c n m : (n, m) ∈ forwards c → net_step c (handle_forward c n m)
| StepReceipt c n r : r ∈ receipts c → net_step c (handle_receipt c n r)
| StepReboot c n i : net_step c (reboot c n i).

(** A network at its start: nothing sent, nothing tracked. *)
Record net_init (c : Network) : Prop := {
  ni_forwards : forwards c = [];
  ni_receipts : receipts c = [];
  ni_trackers : ∀ n, n_tracker (node c n) = tracker_new;
}.

Inductive reachable : Network → Prop :=
| reach_init c : net_init c → reachable c
| reach_step c c' : reachable c → net_step c c' → reachable c'.

(** How far node [h] has durably applied. *)
Definition durable_thru (c : Network) (h o : NodeId) (p : PartitionId) : N :=
  rl_applied_thru (n_log (node c h)) o p.

(** The invariant: every receipt in the network, and every watermark on file
    anywhere, is covered by its holder's log. *)
Record net_inv (c : Network) : Prop := {
  inv_forwards : Forall (λ nm, forward_typed nm.2) (forwards c);
  inv_receipts : ∀ r, r ∈ receipts c →
    rm_holder r ≠ rm_origin r ∧
    (rm_applied_thru r ≤ durable_thru c (rm_holder r) (rm_origin r) (rm_partition r))%N;
  inv_trackers : ∀ n h o p w, n_tracker (node c n) !! (h, o, p) = Some w →
    h ≠ o ∧ (w ≤ durable_thru c h o p)%N;
}.

(** A step never shortens a durable prefix. *)
Lemma handle_forward_durable c n m h o p :
  forward_typed m → (durable_thru c h o p ≤ durable_thru (handle_forward c n m) h o p)%N.
Proof.
  intros Hty. unfold durable_thru, handle_forward.
  pose proof (apply_forward_thru (n_fence (node c n)) (n_log (node c n)) n
    (n_incarnation (node c n)) m o p Hty) as Ht.
  pose proof (apply_forward_grows (n_fence (node c n)) (n_log (node c n)) n
    (n_incarnation (node c n)) m Hty) as Hgr.
  destruct (apply_forward _ _ _ _ _) as [out ps]. simpl in *. unfold set_node.
  destruct (decide (h = n)) as [->|]; simpl; [|lia]. rewrite Ht.
  destruct (is_applied out); simpl; [|lia]. case_if; bool_tests; [|lia].
  destruct Heqb as [-> ->]. by apply Hgr.
Qed.

Lemma set_node_log c n s h :
  n_log s = n_log (node c n) → n_log (set_node c n s h) = n_log (node c h).
Proof. intros E. unfold set_node. by destruct (decide (h = n)) as [->|]. Qed.

Lemma handle_receipt_durable c n r h o p :
  durable_thru (handle_receipt c n r) h o p = durable_thru c h o p.
Proof.
  unfold durable_thru, handle_receipt. destruct (record _ _ _) as [[out t] f]. simpl.
  by rewrite set_node_log.
Qed.

Lemma reboot_durable c n i h o p : durable_thru (reboot c n i) h o p = durable_thru c h o p.
Proof. unfold durable_thru, reboot. simpl. by rewrite set_node_log. Qed.

Lemma handle_forward_inv c n m : net_inv c → forward_typed m → net_inv (handle_forward c n m).
Proof.
  intros [Hf Hr Ht] Hty. pose proof (λ h o p, handle_forward_durable c n m h o p Hty) as Hd. split.
  - unfold handle_forward. by destruct (apply_forward _ _ _ _ _).
  - intros r Hin.
    assert (r ∈ receipts c ∨ receipt_of (fst (apply_forward (n_fence (node c n)) (n_log (node c n)) n
      (n_incarnation (node c n)) m)) = Some r) as [Hold|Hnew].
    { revert Hin. unfold handle_forward. destruct (apply_forward _ _ _ _ _) as [out ps]. simpl.
      destruct (receipt_of out); simpl; rewrite ?app_nil_r; [|tauto].
      intros [?| ->%list_elem_of_singleton]%elem_of_app; tauto. }
    + destruct (Hr r Hold) as [Hne Hle]. split; [done|]. etrans; [exact Hle|apply Hd].
    + destruct (receipt_of_spec _ _ _ _ _ _ Hty Hnew) as [Hne ->]. simpl. split; [done|].
      unfold durable_thru, handle_forward. destruct (apply_forward _ _ _ _ _) as [out ps]. simpl.
      unfold set_node. by rewrite decide_True.
  - intros n' h o p w Hw. assert (n_tracker (node c n') !! (h, o, p) = Some w) as Hw'.
    { revert Hw. unfold handle_forward. destruct (apply_forward _ _ _ _ _) as [out ps]. simpl.
      unfold set_node. by destruct (decide (n' = n)) as [->|]. }
    destruct (Ht _ _ _ _ _ Hw') as [Hne Hle]. split; [done|]. etrans; [exact Hle|apply Hd].
Qed.

Lemma handle_receipt_inv c n r : net_inv c → r ∈ receipts c → net_inv (handle_receipt c n r).
Proof.
  intros [Hf Hr Ht] Hin. pose proof (handle_receipt_durable c n r) as Hd. split.
  - unfold handle_receipt. by destruct (record _ _ _) as [[out t] f].
  - intros r' Hin'. rewrite Hd. apply Hr. revert Hin'. unfold handle_receipt.
    by destruct (record _ _ _) as [[out t] f].
  - intros n' h o p w. rewrite Hd. unfold handle_receipt.
    pose proof (record_watermark (n_tracker (node c n)) (n_fence (node c n)) r (h, o, p)) as Hk.
    destruct (record _ _ _) as [[out t] f]. simpl in *. unfold set_node.
    destruct (decide (n' = n)) as [->|]; [simpl|apply Ht]. intros Hw.
    destruct Hk as [Hk|(_ & Hne & E & Hk)]; rewrite Hk in Hw; [by eapply Ht|].
    simplify_eq. destruct (Hr r Hin) as [_ Hle]. split; [done|].
    destruct (n_tracker (node c n) !! _) as [w0|] eqn:Ew; simpl; [|lia].
    destruct (Ht _ _ _ _ _ Ew) as [_ ?]. lia.
Qed.

Lemma reachable_inv c : reachable c → net_inv c.
Proof.
  induction 1 as [c [Hf Hr Ht]|c c' _ IH Hstep].
  - split; [by rewrite Hf|by intros r; rewrite Hr; intros ?%elem_of_nil|].
    intros n h o p w. rewrite Ht. unfold tracker_new. by rewrite lookup_empty.
  - destruct Hstep as [c n m Hty|c n m Hin|c n r Hin|c n i].
    + destruct IH as [Hf Hr Ht]. split; [by constructor|done|done].
    + apply handle_forward_inv; [done|]. pose proof (inv_forwards _ IH) as HF.
      rewrite Forall_forall in HF. exact (HF _ Hin).
    + by apply handle_receipt_inv.
    + pose proof (reboot_durable c n i) as Hd. destruct IH as [Hf Hr Ht]. split; [done| |].
      * intros r Hin. rewrite Hd. by apply Hr.
      * intros n' h o p w. rewrite Hd. unfold reboot, set_node. simpl.
        destruct (decide (n' = n)) as [->|]; [simpl|apply Ht].
        unfold tracker_new. by rewrite lookup_empty.
Qed.

(** C10: an acknowledgment is durable.  In every state the network can reach,
    whatever was lost, repeated, reordered or forged among the forwards and
    whichever nodes rebooted, if the origin's node finds a batch ready for its
    client at [rf], then at least [rf - 1] distinct other nodes hold every
    sequence number of the origin up to the batch's last one in their durable
    logs. *)
Theorem client_ack_durable (c : Network) (o : NodeId) (p : PartitionId) (last_seq rf : N) :
  reachable c → client_ack_ready (n_tracker (node c o)) o p last_seq rf = true →
  ∃ holders, NoDup holders ∧ o ∉ holders ∧ (rf ≤ N.of_nat (length holders) + 1)%N ∧
    ∀ h x, h ∈ holders → (1 ≤ x ≤ last_seq)%N →
      rl_has_applied (n_log (node c h)) o p x = true.
Proof.
  intros Hc%reachable_inv Hready. set (t := n_tracker (node c o)) in *.
  exists (receipted_holders t o p last_seq).
  split; [apply NoDup_receipted_holders|]. split; [|split].
  - intros (w & Hw & _)%elem_of_receipted_holders. by destruct (inv_trackers _ Hc _ _ _ _ _ Hw).
  - unfold client_ack_ready in Hready. bool_tests. rewrite length_receipted_holders. lia.
  - intros h x (w & Hw & Hle)%elem_of_receipted_holders Hx.
    destruct (inv_trackers _ Hc _ _ _ _ _ Hw) as [_ Hd]. apply rl_conformant.
    unfold durable_thru in Hd. lia.
Qed.

(** Durable prefixes only grow: no step of the network shortens what a node
    has applied. *)
Theorem durable_monotone (c c' : Network) (h o : NodeId) (p : PartitionId) :
  reachable c → net_step c c' → (durable_thru c h o p ≤ durable_thru c' h o p)%N.
Proof.
  intros Hc%reachable_inv Hstep. destruct Hstep as [c n m Hty|c n m Hin|c n r Hin|c n i].
  - done.
  - apply handle_forward_durable. pose proof (inv_forwards _ Hc) as HF.
    rewrite Forall_forall in HF. exact (HF _ Hin).
  - by rewrite handle_receipt_durable.
  - by rewrite reboot_durable.
Qed.

End cluster.
