(* ===== verification/Boot.v ===== *)
(** * The boot ceremony

    Models [crates/duckspout-replication/src/boot.rs] over the [Storage] and
    [Registry] ports of [crates/duckspout-types/src/ports.rs]: reading the
    persisted incarnation, drawing a fresh one, persisting it.  What the source
    renders into [PersistedIncarnationCorrupt]'s message is kept as its
    cause. *)

From S2P Require Import Prelude RustStd Types Ports Fencing.

(** ** The ports *)

(** [RegistryError] *)
Inductive RegistryError := Unreachable (msg : string) | RegistryBackendError (msg : string).

(** [Registry::next_incarnation], one step on the registry's state. *)
Class Registry (R : Type) := {
  rg_next_incarnation : R → NodeId → result N RegistryError * R;
}.

(** The part of [Storage] the ceremony uses. *)
Class Storage (D : Type) := {
  st_get : D → StoragePath → result Bytes StorageError;
  st_put : D → StoragePath → Bytes → result unit StorageError * D;
  st_fsync_file : D → StoragePath → result unit StorageError * D;
  st_fsync_dir : D → StoragePath → result unit StorageError * D;
}.

(** A stored object is read back, and an fsync changes no content. *)
Class StorageLaws (D : Type) `{Storage D} := {
  st_get_put s p d :
    fst (st_put s p d) = Ok tt → st_get (snd (st_put s p d)) p = Ok d;
  st_get_fsync_file s p q : st_get (snd (st_fsync_file s p)) q = st_get s q;
  st_get_fsync_dir s p q : st_get (snd (st_fsync_dir s p)) q = st_get s q;
}.

(** ** fence_boot *)

(** [BootOutcome] *)
Inductive BootOutcome :=
| Active (incarnation : Incarnation)
| Degraded (incarnation : Incarnation)
| Waiting.

(** [BootOutcome::permits_ownership_actions] *)
Definition permits_ownership_actions (o : BootOutcome) : bool :=
  match o with Active _ => true | _ => false end.

(** The causes of a corrupt incarnation file. *)
Inductive Corruption := NotUtf8 | NotANumber (kind : IntErrorKind).

(** [BootError] *)
Inductive BootError :=
| PersistedIncarnationUnreadable (e : StorageError)
| PersistedIncarnationCorrupt (why : Corruption)
| RegistryBackend (e : RegistryError)
| RegistryIncarnationRegressed (drawn : N) (persisted : option N)
| PersistFailed (e : StorageError).

Section boot.
Context `{Storage D, Registry R}.

(** [read_persisted_incarnation] *)
Definition read_persisted_incarnation (storage : D) (path : StoragePath) :
    result (option N) BootError :=
  match st_get storage path with
  | Ok bytes =>
      if is_utf8 bytes then
        match parse_u64 (trim bytes) with
        | Ok value => Ok (Some value)
        | Err kind => Err (PersistedIncarnationCorrupt (NotANumber kind))
        end
      else Err (PersistedIncarnationCorrupt NotUtf8)
  | Err (NotFound _) => Ok None
  | Err e => Err (PersistedIncarnationUnreadable e)
  end.

(** [persist_incarnation] *)
Definition persist_incarnation (storage : D) (path dir : StoragePath) (incarnation : N) :
    result unit BootError * D :=
  match st_put storage path (pretty incarnation) with
  | (Err e, storage) => (Err (PersistFailed e), storage)
  | (Ok _, storage) =>
      match st_fsync_file storage path with
      | (Err e, storage) => (Err (PersistFailed e), storage)
      | (Ok _, storage) =>
          match st_fsync_dir storage dir with
          | (Err e, storage) => (Err (PersistFailed e), storage)
          | (Ok _, storage) => (Ok tt, storage)
          end
      end
  end.

(** [fence_boot] *)
Definition fence_boot (storage : D) (registry : R) (self_node : NodeId)
    (incarnation_path incarnation_dir : StoragePath) : result BootOutcome BootError * D * R :=
  match read_persisted_incarnation storage incarnation_path with
  | Err e => (Err e, storage, registry)
  | Ok persisted =>
      match rg_next_incarnation registry self_node with
      | (Ok fresh, registry) =>
          if (fresh =? 0)%N ||
             match persisted with Some prior => (fresh <=? prior)%N | None => false end then
            (Err (RegistryIncarnationRegressed fresh persisted), storage, registry)
          else
            match persist_incarnation storage incarnation_path incarnation_dir fresh with
            | (Ok _, storage) => (Ok (Active fresh), storage, registry)
            | (Err e, storage) => (Err e, storage, registry)
            end
      | (Err (Unreachable _), registry) =>
          (Ok (match persisted with Some i => Degraded i | None => Waiting end), storage, registry)
      | (Err (RegistryBackendError msg), registry) =>
          (Err (RegistryBackend (RegistryBackendError msg)), storage, registry)
      end
  end.

End boot.

(** ** The ceremony *)

Section props.
Context `{StorageLaws D, Registry R}.

Lemma persist_reads s path dir i :
  is_u64 i → fst (persist_incarnation s path dir i) = Ok tt →
  read_persisted_incarnation (snd (persist_incarnation s path dir i)) path = Ok (Some i).
Proof.
  intros Hi. unfold persist_incarnation.
  destruct (st_put s path (pretty i)) as [[[]|e] s1] eqn:E1; simpl; [|done].
  destruct (st_fsync_file s1 path) as [[[]|e] s2] eqn:E2; simpl; [|done].
  destruct (st_fsync_dir s2 dir) as [[[]|e] s3] eqn:E3; simpl; [|done]. intros _.
  pose proof (st_get_put s path (pretty i)) as Hg. rewrite E1 in Hg. simpl in Hg.
  pose proof (st_get_fsync_file s1 path path) as Hf. rewrite E2 in Hf. simpl in Hf.
  pose proof (st_get_fsync_dir s2 dir path) as Hd. rewrite E3 in Hd. simpl in Hd.
  unfold read_persisted_incarnation. rewrite Hd, Hf, Hg by done.
  rewrite (utf8_digits _ (pretty_digits i)), (trim_digits _ (pretty_digits i)).
  by rewrite parse_pretty.
Qed.

(** The boot outcome.  An active boot has drawn a non-zero incarnation above
    the persisted one and left it persisted; a degraded boot goes on under the
    persisted incarnation, and a waiting one has none, both with the storage
    untouched and only when the registry was unreachable; and ownership
    actions are permitted by an active boot only. *)
Theorem fence_boot_outcome (s s' : D) (r r' : R) (n : NodeId) (path dir : StoragePath)
    (o : BootOutcome) :
  fence_boot s r n path dir = (Ok o, s', r') →
  (∀ i, fst (rg_next_incarnation r n) = Ok i → is_u64 i) →
  match o with
  | Active i =>
      fst (rg_next_incarnation r n) = Ok i ∧ (0 < i)%N ∧
      (∀ prior, read_persisted_incarnation s path = Ok (Some prior) → (prior < i)%N) ∧
      read_persisted_incarnation s' path = Ok (Some i)
  | Degraded i =>
      read_persisted_incarnation s path = Ok (Some i) ∧ s' = s ∧
      ∃ msg, fst (rg_next_incarnation r n) = Err (Unreachable msg)
  | Waiting =>
      read_persisted_incarnation s path = Ok None ∧ s' = s ∧
      ∃ msg, fst (rg_next_incarnation r n) = Err (Unreachable msg)
  end ∧ (permits_ownership_actions o = true ↔ ∃ i, o = Active i).
Proof.
  intros Hb Hty. split; [|destruct o; naive_solver]. unfold fence_boot in Hb.
  destruct (read_persisted_incarnation s path) as [persisted|e]; [|done].
  destruct (rg_next_incarnation r n) as [[fresh|[msg|msg]] r1]; simpl in *; [| |done].
  - destruct (_ || _)%bool eqn:Ereg; [done|]. bool_tests.
    pose proof (persist_reads s path dir fresh (Hty fresh eq_refl)) as Hp.
    destruct (persist_incarnation s path dir fresh) as [[[]|e] s1]; simpl in *; [|done].
    simplify_eq. split; [done|]. split; [lia|]. split; [|by apply Hp].
    intros prior [= ->]. simpl in *. bool_tests. lia.
  - destruct persisted; simplify_eq; split_and!; eauto.
Qed.

(** Boots of one node in a row, the storage kept between them; the incarnations
    of the active ones. *)
Inductive boots (n : NodeId) (path dir : StoragePath) : D → R → list N → D → R → Prop :=
| boots_nil s r : boots n path dir s r [] s r
| boots_active s r i s1 r1 drawn s2 r2 :
    fst (rg_next_incarnation r n) = Ok i → is_u64 i →
    fence_boot s r n path dir = (Ok (Active i), s1, r1) →
    boots n path dir s1 r1 drawn s2 r2 → boots n path dir s r (i :: drawn) s2 r2
| boots_other s r o s1 r1 drawn s2 r2 :
    permits_ownership_actions o = false →
    fence_boot s r n path dir = (Ok o, s1, r1) →
    boots n path dir s1 r1 drawn s2 r2 → boots n path dir s r drawn s2 r2.

Lemma fence_boot_other s r n path dir o s1 r1 :
  permits_ownership_actions o = false → fence_boot s r n path dir = (Ok o, s1, r1) → s1 = s.
Proof.
  unfold fence_boot. intros Ho. destruct (read_persisted_incarnation s path); [|done].
  destruct (rg_next_incarnation r n) as [[fresh|[msg|msg]] r2]; [| |done].
  - case_if; [done|]. destruct (persist_incarnation _ _ _ _) as [[u|e] s2]; [|done].
    intros. by simplify_eq.
  - intros. by simplify_eq.
Qed.

Lemma boots_above n path dir s r drawn s' r' :
  boots n path dir s r drawn s' r' →
  ∀ i, read_persisted_incarnation s path = Ok (Some i) → Forall (λ j, i < j)%N drawn.
Proof.
  induction 1 as [|s r j s1 r1 js s2 r2 Hd Hty Hb _ IH|s r o s1 r1 js s2 r2 Ho Hb _ IH];
    intros i Hi; [constructor|..].
  - unfold fence_boot in Hb. rewrite Hi in Hb. rewrite (surjective_pairing (rg_next_incarnation r n)), Hd in Hb.
    destruct (_ || _)%bool eqn:Ereg; [done|]. bool_tests.
    pose proof (persist_reads s path dir j Hty) as Hp.
    destruct (persist_incarnation s path dir j) as [[[]|e] s3]; simpl in *; [|done]. simplify_eq.
    constructor; [done|]. eapply Forall_impl; [by apply IH, Hp|]. simpl. intros. lia.
  - apply IH. by rewrite (fence_boot_other _ _ _ _ _ _ _ _ Ho Hb).
Qed.

(** Incarnations never regress.  Over any sequence of boots that reach an
    outcome, degraded and waiting ones included, and whatever the registry
    answers, the incarnations of the active boots are strictly increasing. *)
Theorem incarnations_increase (n : NodeId) (path dir : StoragePath) (s s' : D) (r r' : R)
    (drawn : list N) :
  boots n path dir s r drawn s' r' → StronglySorted (λ i j, i < j)%N drawn.
Proof.
  induction 1 as [|s r j s1 r1 js s2 r2 Hd Hty Hb Hbs IH|]; [constructor| |done].
  constructor; [done|]. eapply boots_above; [exact Hbs|]. unfold fence_boot in Hb.
  destruct (read_persisted_incarnation s path) as [persisted|e]; [|done].
  rewrite (surjective_pairing (rg_next_incarnation r n)), Hd in Hb. case_if; [done|].
  pose proof (persist_reads s path dir j Hty) as Hp.
  destruct (persist_incarnation s path dir j) as [[[]|e] s3]; simpl in *; [|done]. simplify_eq.
  by apply Hp.
Qed.

End props.
