(* ===== verification/Takeover.v ===== *)
(** * Takeover of a dead node's partitions

    Models [crates/duckspout-replication/src/takeover.rs]: the ownership
    transition once a node is excluded, the idempotent trigger, and the residue
    of a window once the winner's coverage is cut out. *)

From S2P Require Import Prelude RustStd Types Hrw Routing Boot.

(** [TakeoverDrainSignal] *)
Record TakeoverDrainSignal := {
  ts_partition : PartitionId;
  ts_dead_owner : NodeId;
  ts_new_owner : NodeId;
}.

(** [TakeoverDecision] *)
Record TakeoverDecision := {
  td_partition : PartitionId;
  td_dead_owner : NodeId;
  td_old_owner : NodeId;
  td_new_plan : RoutingPlan;
  td_self_is_new_owner : bool;
  td_self_was_replica_before : bool;
}.

(** [TakeoverDecision::is_genuine_takeover] *)
Definition is_genuine_takeover (d : TakeoverDecision) : bool :=
  bool_decide (td_old_owner d = td_dead_owner d).

(** [TakeoverDecision::requires_declare_loss] *)
Definition requires_declare_loss (d : TakeoverDecision) : bool :=
  is_genuine_takeover d && td_self_is_new_owner d && negb (td_self_was_replica_before d).

(** [TakeoverDecision::signal] *)
Definition signal (d : TakeoverDecision) : TakeoverDrainSignal :=
  {| ts_partition := td_partition d; ts_dead_owner := td_dead_owner d;
     ts_new_owner := rp_owner (td_new_plan d) |}.

(** [resolve_takeover] *)
Definition resolve_takeover (partition : PartitionId) (dead_node self_node : NodeId)
    (membership : MembershipView) (rf : N) : option TakeoverDecision :=
  match route_write partition self_node membership rf with
  | None => None
  | Some old_plan =>
      let survivors := filter (λ node, node ≠ dead_node) (candidates membership) in
      let new_membership := membership_new survivors in
      match route_write partition self_node new_membership rf with
      | None => None
      | Some new_plan =>
          Some {| td_partition := partition; td_dead_owner := dead_node;
                  td_old_owner := rp_owner old_plan;
                  td_self_is_new_owner := rp_is_local_owner new_plan;
                  td_self_was_replica_before := bool_decide (self_node ∈ rp_replicas old_plan);
                  td_new_plan := new_plan |}
      end
  end.

(** [TakeoverTracker]: its field [triggered]. *)
Abbreviation TakeoverTracker := (gset (string * string)) (only parsing).

(** [TakeoverTracker::should_trigger] *)
Definition should_trigger (t : TakeoverTracker) (d : TakeoverDecision) (boot : BootOutcome) : bool :=
  is_genuine_takeover d && td_self_is_new_owner d && td_self_was_replica_before d &&
  permits_ownership_actions boot &&
  negb (bool_decide ((td_partition d, td_dead_owner d) ∈ t)).

(** [TakeoverTracker::mark_triggered] *)
Definition mark_triggered (t : TakeoverTracker) (partition : PartitionId) (dead_owner : NodeId) :
    TakeoverTracker :=
  {[(partition, dead_owner)]} ∪ t.

(** ** compute_residue *)

(** The winner ranges that cut [range], clipped to it. *)
Definition cuts_of (range : OriginSeqRange) (winner_coverage : list OriginSeqRange) :
    list (N * N) :=
  (λ w, (N.max (first_seq w) (first_seq range), N.min (last_seq w) (last_seq range))) <$>
  List.filter (λ w, bool_decide (origin w = origin range) && (first_seq w <=? last_seq range)%N
                    && (first_seq range <=? last_seq w)%N) winner_coverage.

(** The inner loop and what follows it, from [cursor] on. *)
Fixpoint cut_loop (o : NodeId) (last : N) (cursor : N) (cuts : list (N * N)) :
    list OriginSeqRange :=
  match cuts with
  | [] =>
      if (cursor <=? last)%N
      then [{| origin := o; first_seq := cursor; last_seq := last |}] else []
  | (cut_first, cut_last) :: cuts =>
      (if (cursor <? cut_first)%N
       then [{| origin := o; first_seq := cursor; last_seq := (cut_first - 1)%N |}] else []) ++
      cut_loop o last (N.max cursor (sat_succ cut_last)) cuts
  end.

(** [compute_residue] *)
Definition compute_residue (window_coverage winner_coverage : list OriginSeqRange) :
    list OriginSeqRange :=
  window_coverage ≫= λ range,
    cut_loop (origin range) (last_seq range) (first_seq range)
      (sort_pairs (cuts_of range winner_coverage)).

(** ** The ownership transition *)

Lemma dedup_NoDup_id seen l : NoDup l → (∀ n, n ∈ l → n ∉ seen) → dedup seen l = l.
Proof.
  intros Hnd. revert seen. induction Hnd as [|n l Hn Hl IH]; intros seen Hs; simpl; [done|].
  rewrite decide_False by (apply Hs; by left). f_equal. apply IH. set_solver.
Qed.

(** The ranking of the survivors is the old one without the dead node. *)
Lemma survivors_ranked p cs dead :
  hrw_ranked p (candidates (membership_new (filter (λ n, n ≠ dead) (candidates (membership_new cs)))))
  = filter (λ n, n ≠ dead) (hrw_ranked p (candidates (membership_new cs))).
Proof.
  simpl. rewrite dedup_NoDup_id; [|apply NoDup_filter, NoDup_dedup|set_solver].
  by rewrite hrw_ranked_filter.
Qed.

Lemma hrw_owner_dedup_filter p cs dead :
  hrw_owner p (filter (λ n, n ≠ dead) (dedup ∅ cs)) = hrw_owner p (filter (λ n, n ≠ dead) cs).
Proof.
  apply option_eq. intros o. rewrite !hrw_owner_Some. setoid_rewrite list_elem_of_filter.
  setoid_rewrite elem_of_dedup.
  assert (∀ n, n ∈ cs ∧ n ∉ (∅ : gset string) ↔ n ∈ cs) as E by set_solver.
  by setoid_rewrite E.
Qed.

Lemma resolve_takeover_Some p dead self cs rf d :
  resolve_takeover p dead self (membership_new cs) rf = Some d →
  let ranked := hrw_ranked p (candidates (membership_new cs)) in
  td_partition d = p ∧ td_dead_owner d = dead ∧
  head ranked = Some (td_old_owner d) ∧
  head (filter (λ n, n ≠ dead) ranked) = Some (rp_owner (td_new_plan d)) ∧
  td_self_is_new_owner d = bool_decide (rp_owner (td_new_plan d) = self) ∧
  td_self_was_replica_before d = bool_decide (self ∈ take (N.to_nat (N.max rf 1)) ranked).
Proof.
  unfold resolve_takeover. destruct (route_write p self (membership_new cs) rf) as [old|] eqn:Eo; [|done].
  destruct (route_write _ _ (membership_new (filter _ _)) rf) as [new|] eqn:En; [|done].
  intros [= <-]. simpl.
  destruct (route_write_Some _ _ _ _ _ Eo) as (Ho & Hrf & Hr & _).
  destruct (route_write_Some _ _ _ _ _ En) as (Hn & _ & _ & Hl).
  rewrite survivors_ranked in Hn. rewrite Hr, Hrf. done.
Qed.

(** The new owner.  A takeover is resolved exactly when a candidate other
    than the dead node remains; its new owner is a live candidate, ranked above
    every other survivor, and it was the second-ranked node when the dead node
    was the owner. *)
Theorem takeover_new_owner (p : PartitionId) (dead self : NodeId) (cs : list NodeId) (rf : N) :
  (resolve_takeover p dead self (membership_new cs) rf = None ↔ ∀ n, n ∈ cs → n = dead) ∧
  ∀ d, resolve_takeover p dead self (membership_new cs) rf = Some d →
    hrw_owner p (filter (λ n, n ≠ dead) cs) = Some (rp_owner (td_new_plan d)) ∧
    (is_genuine_takeover d = true →
       hrw_ranked p (candidates (membership_new cs)) !! 1%nat = Some (rp_owner (td_new_plan d))).
Proof.
  split.
  - unfold resolve_takeover.
    assert (route_write p self (membership_new (filter (λ n, n ≠ dead)
      (candidates (membership_new cs)))) rf = None ↔ ∀ n, n ∈ cs → n = dead) as Hnew.
    { rewrite route_write_None. simpl. rewrite dedup_nil. split.
      - intros E n Hn. destruct (decide (n = dead)) as [|Hne]; [done|]. exfalso.
        assert (n ∈ filter (λ n, n ≠ dead) (dedup ∅ cs)) as Hf.
        { apply list_elem_of_filter. rewrite elem_of_dedup. set_solver. }
        rewrite E in Hf. by apply elem_of_nil in Hf.
      - intros Hall. destruct (filter _ _) as [|n l] eqn:E; [done|]. exfalso.
        assert (n ∈ filter (λ n, n ≠ dead) (dedup ∅ cs)) as Hf by (rewrite E; by left).
        apply list_elem_of_filter in Hf as [Hne Hn]. rewrite elem_of_dedup in Hn. naive_solver. }
    rewrite <-Hnew. destruct (route_write p self (membership_new cs) rf) eqn:Eo.
    + by destruct (route_write _ _ (membership_new (filter _ _)) rf).
    + split; [|done]. intros _. apply Hnew. apply route_write_None in Eo. simpl in Eo.
      apply dedup_nil in Eo as ->. by intros n ?%elem_of_nil.
  - intros d Hd. destruct (resolve_takeover_Some _ _ _ _ _ _ Hd) as (_ & Hdead & Ho & Hn & _). split.
    + rewrite <-hrw_owner_dedup_filter, hrw_owner_head, hrw_ranked_filter. exact Hn.
    + unfold is_genuine_takeover. rewrite bool_decide_eq_true, Hdead. intros Hold.
      rewrite Hold in Ho. destruct (hrw_ranked p _) as [|o l] eqn:E; [done|]. injection Ho as ->.
      assert (NoDup (dead :: l)) as Hnd.
      { rewrite <-E, hrw_ranked_perm. apply NoDup_dedup. }
      apply NoDup_cons in Hnd as [Hnin _]. rewrite filter_cons, decide_False in Hn by auto.
      rewrite filter_ne_all in Hn by done. simpl. by destruct l.
Qed.

(** Declaring loss is for [rf = 1] only.  At [rf >= 2] the node that takes
    over a dead owner's partition already was a replica, so the decision never
    asks for a loss declaration. *)
Theorem declare_loss_only_rf1 (p : PartitionId) (dead self : NodeId) (cs : list NodeId) (rf : N)
    (d : TakeoverDecision) :
  resolve_takeover p dead self (membership_new cs) rf = Some d → (2 ≤ rf)%N →
  requires_declare_loss d = false.
Proof.
  intros Hd Hrf. destruct (resolve_takeover_Some _ _ _ _ _ _ Hd) as (_ & Hdead & Ho & Hn & Hs & Hw).
  unfold requires_declare_loss, is_genuine_takeover. rewrite Hs, Hw, Hdead.
  destruct (decide (td_old_owner d = dead)) as [Eo|]; [|by rewrite bool_decide_eq_false_2].
  destruct (decide (rp_owner (td_new_plan d) = self)) as [<-|Hne];
    [|by rewrite (bool_decide_eq_false_2 _ Hne), andb_false_r].
  rewrite (bool_decide_eq_true_2 (_ ∈ _)); [by rewrite andb_false_r|].
  rewrite Eo in Ho. destruct (hrw_ranked p _) as [|o l] eqn:E; [done|]. injection Ho as ->.
  rewrite filter_cons, decide_False in Hn by auto.
  assert (dead ∉ l) as Hnin.
  { assert (NoDup (dead :: l)) as Hnd by (rewrite <-E, hrw_ranked_perm; apply NoDup_dedup).
    by apply NoDup_cons in Hnd as [? _]. }
  rewrite filter_ne_all in Hn by done. destruct l as [|o2 l]; [done|]. injection Hn as ->.
  replace (N.to_nat (N.max rf 1)) with (S (S (N.to_nat rf - 2)))%nat by lia. right. by left.
Qed.

(** A takeover is triggered at most once.  A trigger requires a genuine
    takeover won by this node, a copy it already held, and an active boot; and
    once marked, whatever else is marked later, the same dead owner of the same
    partition never triggers again. *)
Theorem takeover_triggers_once (t : TakeoverTracker) (d : TakeoverDecision) (boot : BootOutcome)
    (marks : list (PartitionId * NodeId)) :
  (should_trigger t d boot = true →
     td_old_owner d = td_dead_owner d ∧ td_self_is_new_owner d = true ∧
     td_self_was_replica_before d = true ∧ requires_declare_loss d = false ∧
     ∃ i, boot = Active i) ∧
  should_trigger
    (foldl (λ t m, mark_triggered t m.1 m.2) (mark_triggered t (td_partition d) (td_dead_owner d)) marks)
    d boot = false.
Proof.
  unfold should_trigger, requires_declare_loss, is_genuine_takeover. split.
  - intros Ht. bool_tests. split_and!; [done..| |destruct boot; naive_solver].
    match goal with Hr : td_self_was_replica_before d = true |- _ => rewrite Hr end.
    by rewrite andb_false_r.
  - rewrite (bool_decide_eq_true_2 (_ ∈ foldl _ _ _)); [by rewrite andb_false_r|].
    assert (∀ t', (td_partition d, td_dead_owner d) ∈ t' →
      (td_partition d, td_dead_owner d) ∈ foldl (λ t m, mark_triggered t m.1 m.2) t' marks) as Hkeep.
    { induction marks as [|m marks IH]; intros t' Ht; simpl; [done|]. apply IH.
      unfold mark_triggered. set_solver. }
    apply Hkeep. unfold mark_triggered. set_solver.
Qed.

(** ** The residue *)

Lemma elem_of_cuts_of range ws c :
  c ∈ cuts_of range ws ↔
  ∃ w, w ∈ ws ∧ origin w = origin range ∧ (first_seq w ≤ last_seq range)%N ∧
       (first_seq range ≤ last_seq w)%N ∧
       c = (N.max (first_seq w) (first_seq range), N.min (last_seq w) (last_seq range)).
Proof.
  unfold cuts_of. rewrite list_elem_of_fmap. split.
  - intros (w & -> & Hw). rewrite list_elem_of_In, filter_In, <-list_elem_of_In in Hw.
    destruct Hw as [Hw Hb]. bool_tests. eauto 10.
  - intros (w & Hw & Ho & H1 & H2 & ->). exists w. split; [done|].
    rewrite list_elem_of_In, filter_In, <-list_elem_of_In. split; [done|].
    rewrite bool_decide_eq_true_2 by done. by rewrite (proj2 (N.leb_le _ _) H1), (proj2 (N.leb_le _ _) H2).
Qed.

(** The loop emits exactly what lies outside the cuts. *)
Lemma cut_loop_spec o last cursor cuts x :
  (last < u64_max)%N → StronglySorted pair_le cuts → Forall (λ c, c.1 ≤ last ∧ c.2 ≤ last)%N cuts →
  (∃ r, r ∈ cut_loop o last cursor cuts ∧ (first_seq r ≤ x ≤ last_seq r)%N) ↔
    (cursor ≤ x ≤ last)%N ∧ ∀ c, c ∈ cuts → ¬ (c.1 ≤ x ≤ c.2)%N.
Proof.
  intros Hl. revert cursor. induction cuts as [|[a b] cuts IH]; intros cursor Hs HF; simpl.
  - case_if.
    + setoid_rewrite list_elem_of_singleton. split.
      * intros (r & -> & Hx). simpl in Hx. split; [done|]. by intros c ?%elem_of_nil.
      * intros [Hx _]. by eexists.
    + split; [by intros (r & ?%elem_of_nil & _)|lia].
  - apply StronglySorted_inv in Hs as [Hs Ha]. apply Forall_cons in HF as [[Ha1 Hb1] HF].
    simpl in Ha1, Hb1. specialize (IH (N.max cursor (sat_succ b)) Hs HF).
    rewrite sat_succ_small in * by lia. setoid_rewrite elem_of_app. setoid_rewrite elem_of_cons.
    rewrite Forall_forall in Ha. split.
    + intros (r & [Hr|Hr] & Hx).
      * case_if; [|by apply elem_of_nil in Hr]. apply list_elem_of_singleton in Hr as ->.
        simpl in Hx. split; [lia|]. intros c [->|Hc]; simpl; [lia|].
        specialize (Ha c Hc). unfold pair_le in Ha. simpl in Ha. lia.
      * destruct IH as [IH _]. destruct IH as [Hc Hn]; [by exists r|]. split; [lia|].
        intros c [->|Hin]; simpl; [lia|auto].
    + intros [Hx Hn]. destruct (decide (x < a)%N).
      * exists {| origin := o; first_seq := cursor; last_seq := (a - 1)%N |}.
        split; [left|simpl; lia]. rewrite (proj2 (N.ltb_lt cursor a)) by lia. by left.
      * destruct IH as [_ IH]. destruct IH as (r & Hr & Hxr).
        { pose proof (Hn (a, b) (or_introl eq_refl)) as Hab. simpl in Hab. split; [lia|]. auto. }
        exists r. split; [by right|done].
Qed.

Lemma cut_loop_origin o last cursor cuts r : r ∈ cut_loop o last cursor cuts → origin r = o.
Proof.
  revert cursor. induction cuts as [|[a b] cuts IH]; intros cursor; simpl.
  - case_if; [by intros ->%list_elem_of_singleton|by intros ?%elem_of_nil].
  - intros [Hr|Hr]%elem_of_app; [|by eapply IH].
    case_if; [by apply list_elem_of_singleton in Hr as ->|by apply elem_of_nil in Hr].
Qed.

Definition osr_mem (rs : list OriginSeqRange) (o : NodeId) (x : N) : Prop :=
  ∃ r, r ∈ rs ∧ origin r = o ∧ (first_seq r ≤ x ≤ last_seq r)%N.

(** The residue is exact.  A sequence number of an origin is in the residue
    exactly when the window covers it and the winner does not, for well-formed
    window ranges that end below the last [u64]; whatever the winner's
    ranges. *)
Theorem compute_residue_exact (window winner : list OriginSeqRange) (o : NodeId) (x : N) :
  Forall (λ r, first_seq r ≤ last_seq r ∧ last_seq r < u64_max)%N window →
  osr_mem (compute_residue window winner) o x ↔ osr_mem window o x ∧ ¬ osr_mem winner o x.
Proof.
  intros Hw. rewrite Forall_forall in Hw.
  assert (∀ range, range ∈ window → (∃ r, r ∈ cut_loop (origin range) (last_seq range) (first_seq range)
      (sort_pairs (cuts_of range winner)) ∧ (first_seq r ≤ x ≤ last_seq r)%N) ↔
    (first_seq range ≤ x ≤ last_seq range)%N ∧ ¬ osr_mem winner (origin range) x) as Hrange.
  { intros range Hr. destruct (Hw range Hr) as [Hle Hmax].
    rewrite cut_loop_spec; [|done|apply sort_pairs_sorted|].
    - setoid_rewrite elem_of_sort_pairs. setoid_rewrite elem_of_cuts_of. split.
      + intros [Hx Hn]. split; [done|]. intros (w & Hin & Ho & Hxw).
        apply (Hn (N.max (first_seq w) (first_seq range), N.min (last_seq w) (last_seq range))).
        * exists w. repeat (split; [done || lia|]). done.
        * simpl. lia.
      + intros [Hx Hn]. split; [done|]. intros c (w & Hin & Ho & H1 & H2 & ->) Hxc. simpl in Hxc.
        apply Hn. exists w. repeat (split; [done|]). lia.
    - apply Forall_forall. intros c (w & Hin & Ho & H1 & H2 & ->)%elem_of_sort_pairs%elem_of_cuts_of.
      simpl. lia. }
  unfold osr_mem at 1, compute_residue. setoid_rewrite list_elem_of_bind. split.
  - intros (r & (range & Hin & Hrw) & Ho & Hx). pose proof (cut_loop_origin _ _ _ _ _ Hin) as Eo.
    destruct (proj1 (Hrange range Hrw)) as [Hxr Hn]; [by exists r|]. subst o. rewrite Eo.
    split; [by exists range|]. done.
  - intros [(range & Hrw & <- & Hx) Hn]. destruct (proj2 (Hrange range Hrw)) as (r & Hr & Hxr); [done|].
    exists r. split; [by exists range|]. split; [by eapply cut_loop_origin|done].
Qed.

(** At the last [u64] the saturating cursor leaves one number behind: a window
    that the winner covers entirely still has a residue. *)
Lemma compute_residue_saturates (o : NodeId) :
  let r := {| origin := o; first_seq := 1; last_seq := u64_max |} in
  compute_residue [r] [r] = [{| origin := o; first_seq := u64_max; last_seq := u64_max |}].
Proof.
  simpl. unfold compute_residue, cuts_of. simpl. rewrite bool_decide_eq_true_2 by done.
  by vm_compute.
Qed.
