(* ===== verification/Wiring.v ===== *)
(** * The daemon's composition

    Models [crates/duckspout-daemon/src/wiring.rs] around the drain loop of
    [Daemon.v]: the peers of the configuration as a membership view, the lake's
    storage settings, the log table's schema, the recovery of the watermark ledger
    and the boot sequence.  What the operating system, DuckDB, DuckLake and the
    object store answer during a boot is the record [BootWorld]; listeners are
    their ports; texts of errors are their causes. *)

From Stdlib Require Import Ascii.
From S2P Require Import Prelude RustStd Types System Ports Overload Hrw Routing.
From S2P Require Import Ledger Reconstruct Naming Engine Stager Otlp Accept Ducklake Daemon.

Open Scope N_scope.

(** ** Membership *)

(** [u8::is_ascii_digit] on all bytes *)
Definition all_ascii_digits (s : string) : bool := all_digits s.

(** [strip_seed_peer_port] *)
Definition strip_seed_peer_port (raw : string) : string :=
  match strip_prefix "[" raw with
  | Some rest =>
      match split_once "]" rest with
      | Some (host, _) => host
      | None => raw
      end
  | None =>
      match rsplit_once ":" raw with
      | Some (host, port) =>
          if negb (is_empty_string port) && all_ascii_digits port && negb (contains_char ":" host)
          then host else raw
      | None => raw
      end
  end.

(** [seed_peer_node_id] *)
Definition seed_peer_node_id (raw : string) : NodeId :=
  strip_seed_peer_port raw +:+ "/" +:+ V01_FIXED_INCARNATION.

(** [build_membership_view] *)
Definition build_membership_view (config : DaemonConfig) (self_node : NodeId) : MembershipView :=
  membership_new (self_node :: (seed_peer_node_id <$> cc_seed_peers (dc_cluster config))).

(** ** The lake's storage *)

Record S3Access := {
  s3_endpoint : string;
  s3_region : string;
  s3_access_key_id : string;
  s3_secret_access_key : string;
  s3_url_style_path : bool;
  s3_use_ssl : bool;
}.

(** The causes of [LakeStorageConfig]. *)
Inductive StorageConfigFault :=
| EndpointMissing | UriNotS3 | AccessKeyMissing | SecretFileMissing | NotAnS3Uri (uri : string).

(** [BootError] *)
Inductive BootError `{Arrow} :=
| BootStorage (e : io_error)
| BootStaging (e : StagingError)
| BootLake (e : LakeError)
| BootObjectStore (msg : string)
| BootConfig (e : DurationParseError)
| BootBind (what : string) (port : N)
| UnsupportedSchemaColumn (t : DataType)
| WatermarkReconstruction (e : ReconstructError)
| LakeStorageConfig (fault : StorageConfigFault).

Section wiring.
Context `{DuckDb, !LakeLibs}.

(** [Option::ok_or_else] with the error [e]. *)
Definition ok_or {A} (o : option A) (e : BootError) : result A BootError :=
  match o with Some a => Ok a | None => Err e end.

(** [build_s3_access] *)
Definition build_s3_access (fs : FileSystem) (lake : LakeConfig) : result (option S3Access) BootError :=
  let is_s3_uri := starts_with "s3://" (lk_uri lake) in
  match lk_s3_endpoint lake with
  | None => if is_s3_uri then Err (LakeStorageConfig EndpointMissing) else Ok None
  | Some endpoint =>
      if negb is_s3_uri then Err (LakeStorageConfig UriNotS3)
      else
        let? access_key_id := ok_or (lk_s3_access_key_id lake) (LakeStorageConfig AccessKeyMissing) in
        let? secret_file := ok_or (lk_s3_secret_access_key_file lake) (LakeStorageConfig SecretFileMissing) in
        let? secret := map_err BootStorage (fs secret_file) in
        Ok (Some {| s3_endpoint := endpoint; s3_region := lk_s3_region lake;
                    s3_access_key_id := access_key_id; s3_secret_access_key := trim secret;
                    s3_url_style_path := true; s3_use_ssl := false |})
  end.

(** [parse_s3_uri] *)
Definition parse_s3_uri (uri : string) : result (string * string) BootError :=
  let? rest := ok_or (strip_prefix "s3://" uri) (LakeStorageConfig (NotAnS3Uri uri)) in
  match split_once "/" rest with
  | Some (bucket, prefix) => Ok (bucket, prefix)
  | None => Ok (rest, "")
  end.

(** The object store the parts are PUT in. *)
Inductive PartsStore :=
| LocalParts (prefix : string)
| S3Parts (endpoint bucket prefix access_key_id secret_access_key region : string)
    (allow_http virtual_hosted : bool).

(** [build_parts_store]; [mkdir] and [built] are the answers of the file system and
    of the object store's constructor. *)
Definition build_parts_store (mkdir : result unit io_error) (built : result unit string)
    (lake_uri : string) (s3 : option S3Access) : result PartsStore BootError :=
  match s3 with
  | None =>
      let? _ := map_err BootStorage mkdir in
      let? _ := map_err BootObjectStore built in
      Ok (LocalParts lake_uri)
  | Some s3 =>
      let? root := parse_s3_uri lake_uri in
      let? _ := map_err BootObjectStore built in
      Ok (S3Parts ((if s3_use_ssl s3 then "https" else "http") +:+ "://" +:+ s3_endpoint s3) root.1 root.2
            (s3_access_key_id s3) (s3_secret_access_key s3) (s3_region s3)
            (negb (s3_use_ssl s3)) (negb (s3_url_style_path s3)))
  end.

(** [catalog_uri_with_secret] *)
Definition catalog_uri_with_secret (fs : FileSystem) (dsn password_file : string) : result string BootError :=
  if negb (starts_with "postgres:" dsn || starts_with "postgresql:" dsn) then Ok dsn
  else
    let? password := map_err BootStorage (fs password_file) in
    if is_empty_string (trim password) then Ok dsn
    else Ok (dsn +:+ " password=" +:+ trim password).

(** ** The log table *)

(** [arrow_logical_type] *)
Definition arrow_logical_type (t : DataType) : result string BootError :=
  match t with
  | TBoolean => Ok "boolean"
  | TInt8 => Ok "int8" | TInt16 => Ok "int16" | TInt32 => Ok "int32" | TInt64 => Ok "int64"
  | TUInt8 => Ok "uint8" | TUInt16 => Ok "uint16" | TUInt32 => Ok "uint32" | TUInt64 => Ok "uint64"
  | TFloat32 => Ok "float32" | TFloat64 => Ok "float64"
  | TUtf8 => Ok "utf8" | TBinary => Ok "binary"
  | TTimestamp Microsecond None => Ok "timestamp_micros"
  | TTimestamp _ _ | TOther _ => Err (UnsupportedSchemaColumn t)
  end.

(** The columns of the log table, in order. *)
Fixpoint lake_columns (fields : list Field) : result (list ColumnSpec) BootError :=
  match fields with
  | [] => Ok []
  | f :: fields =>
      let? ty := arrow_logical_type (f_type f) in
      let? rest := lake_columns fields in
      Ok ({| col_name := f_name f; col_logical_type := ty |} :: rest)
  end.

(** [ensure_otlp_logs_table] *)
Definition ensure_otlp_logs_table (faults : Faults) (c : Catalog) : result unit BootError * Catalog :=
  match lake_columns logs_schema with
  | Err e => (Err e, c)
  | Ok columns =>
      let columns := columns ++ [ {| col_name := "origin"; col_logical_type := "utf8" |};
                                  {| col_name := "seq"; col_logical_type := "uint64" |} ] in
      let '(r, c) := evolve_schema_blocking faults c
                       {| ev_dataset := OTLP_LOGS_DATASET; ev_columns := columns |} in
      (map_err BootLake r, c)
  end.

(** ** Recovery *)

(** [reconstruct_watermark_ledger] *)
Definition reconstruct_watermark_ledger (faults : Faults) (c : Catalog) : result WatermarkLedger BootError :=
  let? manifests := map_err BootLake (read_manifests faults c) in
  let? reconstruction := map_err WatermarkReconstruction (reconstruct manifests [] []) in
  Ok (re_ledger reconstruction).

(** ** Boot *)

(** [ServingConfig] *)
Record ServingConfig := {
  max_hot_bytes_per_query : N;
  hot_scan_deadline_ms : N;
  max_concurrent_hot_scans : N;
  sc_hot_max_bytes : N;
}.

(** What the environment answers during a boot. *)
Record BootWorld := {
  bw_env : string → option string;
  bw_fs : FileSystem;
  bw_create_hot : result unit io_error;
  bw_engine_mkdir : result unit string;
  bw_engine_fsync : result unit StorageError;
  bw_total_space : result N io_error;
  bw_open_step : OpenStep → option LakeError;
  bw_faults : Faults;
  bw_parts_mkdir : result unit io_error;
  bw_parts_built : result unit string;
  bw_create_scratch : result unit io_error;
  bw_reader : result unit StagingError;
  bw_bind : string → N → result N unit;
}.

(** [DaemonCore] *)
Record DaemonCore := {
  core_node_id : NodeId;
  core_stager : Stager;
  core_stager_config : StagerConfig;
  core_drain_config : Naming.DrainConfig;
  core_ledger : WatermarkLedger;
  core_drain_stalled : bool;
  core_ready : bool;
  core_membership : MembershipView;
  core_rf : N;
}.

(** [Daemon] *)
Record Daemon := {
  dm_core : DaemonCore;
  dm_lake : DuckLakeConfig;
  dm_parts : PartsStore;
  dm_otlp_addr : N;
  dm_status_addr : N;
  dm_flight_addr : N;
  dm_serving : ServingConfig;
  dm_admission : Accept.AdmissionConfig;
}.

(** The steps of [DuckLakeCommitter::open], up to the first that fails. *)
Fixpoint open_committer (answers : OpenStep → option LakeError) (steps : list OpenStep) :
    result unit LakeError :=
  match steps with
  | [] => Ok tt
  | step :: steps => match answers step with Some e => Err e | None => open_committer answers steps end
  end.

(** [open_lake] *)
Definition open_lake (w : BootWorld) (config : DaemonConfig) (c : Catalog) :
    result (DuckLakeConfig * PartsStore) BootError * Catalog :=
  match build_s3_access (bw_fs w) (dc_lake config) with
  | Err e => (Err e, c)
  | Ok s3 =>
      match catalog_uri_with_secret (bw_fs w) (ca_dsn (dc_catalog config)) (ca_password_file (dc_catalog config)) with
      | Err e => (Err e, c)
      | Ok catalog_uri =>
          let lake := {| catalog_uri := catalog_uri; data_path := lk_uri (dc_lake config);
                         multi_process := false;
                         has_s3 := match s3 with Some _ => true | None => false end |} in
          match (let? steps := open_plan lake in open_committer (bw_open_step w) steps) with
          | Err e => (Err (BootLake e), c)
          | Ok _ =>
              let '(r, c) := ensure_otlp_logs_table (bw_faults w) c in
              (let? _ := r in
               let? parts := build_parts_store (bw_parts_mkdir w) (bw_parts_built w) (lk_uri (dc_lake config)) s3 in
               Ok (lake, parts), c)
          end
      end
  end.

(** [usize::try_from(n).unwrap_or(usize::MAX)], on 64 bits *)
Definition usize_of (n : N) : N := if n <=? u64_max then n else u64_max.

(** A duration setting, or the boot's failure. *)
Definition duration_setting (raw : string) : result Duration BootError :=
  map_err BootConfig (parse_duration raw).

(** The stager's settings. *)
Definition stager_config (config : DaemonConfig) (hot_max_bytes : N) : result StagerConfig BootError :=
  let? window := duration_setting (hc_window (dc_hot config)) in
  let? ttl := duration_setting (dd_window_ttl (dc_dedup config)) in
  Ok {| window_nanos := duration_nanos_saturating window;
        dedup_ttl_ms := duration_millis_saturating ttl;
        dedup_max_entries := dd_window_max_entries (dc_dedup config);
        hot_max_bytes := hot_max_bytes |}.

(** The serving settings. *)
Definition serving_config (config : DaemonConfig) (hot_max_bytes : N) : result ServingConfig BootError :=
  let? deadline := duration_setting (qc_hot_scan_deadline (dc_query config)) in
  Ok {| max_hot_bytes_per_query :=
          default defaults.max_hot_bytes_per_query (qc_max_hot_bytes_per_query (dc_query config));
        hot_scan_deadline_ms := duration_nanos_saturating deadline / 1000000;
        max_concurrent_hot_scans := usize_of (qc_max_concurrent_hot_scans (dc_query config));
        sc_hot_max_bytes := hot_max_bytes |}.

(** [bind_listener] *)
Definition bind_listener (w : BootWorld) (what : string) (port : N) : result N BootError :=
  map_err (λ _, BootBind what port) (bw_bind w what port).

(** The boot after the lake is open. *)
Definition boot_rest (w : BootWorld) (config : DaemonConfig) (status_port : N) (node_id : NodeId)
    (stager : Stager) (scfg : StagerConfig) (lake : DuckLakeConfig) (parts : PartsStore) (c : Catalog) :
    result Daemon BootError :=
  let? ledger := reconstruct_watermark_ledger (bw_faults w) c in
  let? _ := map_err BootStorage (bw_create_scratch w) in
  let? lateness := duration_setting (dr_allowed_lateness (dc_drain config)) in
  let? serving := serving_config config (hot_max_bytes scfg) in
  let? _ := if max_concurrent_hot_scans serving =? 0 then Ok tt else map_err BootStaging (bw_reader w) in
  let? otlp := bind_listener w "otlp" (nc_otlp_listen (dc_node config)) in
  let? status := bind_listener w "status" status_port in
  let? flight := bind_listener w "flight" (nc_flight_listen (dc_node config)) in
  let? inflight :=
    match ad_max_inflight_bytes (dc_admission config) with
    | Some bytes => Ok bytes
    | None => map_err BootStorage (detect_memory_budget (bw_fs w))
    end in
  Ok {| dm_core := {| core_node_id := node_id; core_stager := stager; core_stager_config := scfg;
                      core_drain_config := {| allowed_lateness_ms := duration_millis_saturating lateness |};
                      core_ledger := ledger; core_drain_stalled := false; core_ready := false;
                      core_membership := build_membership_view config node_id;
                      core_rf := cc_rf (dc_cluster config) |};
        dm_lake := lake; dm_parts := parts;
        dm_otlp_addr := otlp; dm_status_addr := status; dm_flight_addr := flight;
        dm_serving := serving;
        dm_admission := {| max_payload_bytes := usize_of (dc_max_payload_bytes config);
                           max_inflight_bytes := inflight |} |}.

(** [Daemon::boot], on the hot database and the catalog it finds; with them as the
    boot leaves them. *)
Definition boot (w : BootWorld) (config : DaemonConfig) (status_port : N) (db : Db) (c : Catalog) :
    result Daemon BootError * Db * Catalog :=
  let node_id := detect_node_id (bw_env w) (bw_fs w) V01_FIXED_INCARNATION in
  match bw_create_hot w with
  | Err e => (Err (BootStorage e), db, c)
  | Ok _ =>
      match open (bw_engine_mkdir w) (bw_engine_fsync w) node_id db with
      | (Err e, db) => (Err (BootStaging e), db, c)
      | (Ok engine, db) =>
          match (let? hot_max :=
                   match hc_max_bytes (dc_hot config) with
                   | Some bytes => Ok bytes
                   | None => map_err BootStorage (detect_hot_max_bytes (bw_total_space w))
                   end in stager_config config hot_max) with
          | Err e => (Err e, db, c)
          | Ok scfg =>
              let '(r, c) := open_lake w config c in
              (let? lake := r in
               boot_rest w config status_port node_id (stager_new engine) scfg lake.1 lake.2 c, db, c)
          end
      end
  end.

(** ** A running daemon *)

(** [DaemonHandle::routing_plan] *)
Definition routing_plan (core : DaemonCore) (partition : PartitionId) : option RoutingPlan :=
  route_write partition (core_node_id core) (core_membership core) (core_rf core).

(** [StatusSnapshot] *)
Record StatusSnapshot := {
  sn_node_id : NodeId;
  sn_ready : bool;
  sn_status : NodeStatus;
  sn_drain_stalled : bool;
  sn_watermarks : list WatermarkRow;
}.

(** [DaemonCore::status_snapshot] *)
Definition status_snapshot (core : DaemonCore) : StatusSnapshot :=
  {| sn_node_id := core_node_id core;
     sn_ready := core_ready core;
     sn_status := status (core_stager_config core) (core_stager core) (core_drain_stalled core);
     sn_drain_stalled := core_drain_stalled core;
     sn_watermarks := rows (core_ledger core) |}.

End wiring.
