(* ===== verification/Serving.v ===== *)
(** * The Flight server over the hot store

    Models [crates/duckspout-daemon/src/serving.rs].  A handler is a program over
    the state the handlers share: the scan permits, the pool of read connections,
    the blocking scans and the watchdog flag.  The [None] answer of an awaited
    scan is a handler whose future was dropped at the [await]; the scan itself
    runs on, since a blocking task is not cancelled with the handle that awaits
    it.  Texts of statuses are their causes. *)

From Stdlib Require Import Ascii.
From stdpp Require Import relations.
From S2P Require Import Prelude RustStd Types Overload Engine EngineProps HotStore System.
From S2P Require Import Wiring.

(** ** Statuses *)

Inductive FlightCode :=
| FlightInvalidArgument | FlightResourceExhausted | FlightDeadlineExceeded | FlightInternal
| FlightUnimplemented.

Inductive FlightCause `{Arrow} :=
| NotSelect | NotUtf8Sql | NotCmd | ScansInFlight (max : N) | ReaderFailed (e : StagingError)
| ScanTaskFailed | ScanFailed (e : StagingError) | Interrupted (deadline_ms : N)
| EncodeFailed | NoSuchVerb.

Record FlightStatus `{Arrow} := { fs_code : FlightCode; fs_cause : FlightCause }.

(** ** The shape guard *)

(** [str::is_char_boundary], on UTF-8 *)
Definition is_char_boundary (n : nat) (s : string) : bool :=
  match String.get n s with
  | Some c => negb (is_continuation c)
  | None => bool_decide (String.length s = n)
  end.

(** [str::get] with [..n] *)
Definition get_to (n : nat) (s : string) : option string :=
  if is_char_boundary n s then Some (String.substring 0 n s) else None.

(** [str::to_ascii_uppercase] *)
Definition ascii_upper (c : ascii) : ascii :=
  if byte_between 97 122 c then ascii_of_N (N_of_ascii c - 32) else c.

Fixpoint uppercase (s : string) : string :=
  match s with EmptyString => "" | String c s => String (ascii_upper c) (uppercase s) end.

Section serving.
Context `{DuckDb}.

Definition refuse (code : FlightCode) (cause : FlightCause) : FlightStatus :=
  {| fs_code := code; fs_cause := cause |}.

(** [require_select_shape] *)
Definition require_select_shape (sql : string) : result unit FlightStatus :=
  let head := uppercase (default "" (get_to 6 (trim_start (String.length sql) sql))) in
  if starts_with "SELECT" head || starts_with "WITH" head then Ok tt
  else Err (refuse FlightInvalidArgument NotSelect).

(** [sql_utf8] *)
Definition sql_utf8 (bytes : string) : result string FlightStatus :=
  if is_utf8 bytes then Ok bytes else Err (refuse FlightInvalidArgument NotUtf8Sql).

(** ** Programs *)

(** A read connection. *)
Definition Reader : Type := nat.

(** What a scan yields: the schema's text and the batches. *)
Definition ScanOut : Type := string * list RecordBatch.

Inductive flight_call :=
| TryAcquire
| Release
| StagedBytes
| PopReader
| NewReader
| StartScan (reader : Reader) (sql : string) (guards : ScanGuards)
| AwaitScan
| WatchdogFired
| PushReader (reader : Reader).

Definition flight_answer (c : flight_call) : Type :=
  match c with
  | TryAcquire | WatchdogFired => bool
  | StagedBytes => N
  | PopReader => option Reader
  | NewReader => result Reader StagingError
  | AwaitScan => option (option (result ScanOut StagingError))
  | Release | StartScan _ _ _ | PushReader _ => unit
  end.

Inductive handler (A : Type) : Type :=
| Done (a : A)
| Call (c : flight_call) (k : flight_answer c → handler A).
Arguments Done {A} a.
Arguments Call {A} c k.

Fixpoint and_then {A B : Type} (p : handler A) (f : A → handler B) : handler B :=
  match p with
  | Done a => f a
  | Call c k => Call c (λ r, and_then (k r) f)
  end.

(** The end of [run_guarded]: the permit is dropped as the function returns, or as
    its future is dropped. *)
Definition released {A} (a : A) : handler A := Call Release (λ _, Done a).

(** The status of a finished scan. *)
Definition scan_status (deadline_ms : N) (result : result ScanOut StagingError) :
    handler (option (Prelude.result ScanOut FlightStatus)) :=
  match result with
  | Ok out => Done (Some (Ok out))
  | Err (ScanBudgetExceeded scanned budget) =>
      Done (Some (Err (refuse FlightResourceExhausted (ScanFailed (ScanBudgetExceeded scanned budget)))))
  | Err (ScanDeadlineExceeded ms) =>
      Done (Some (Err (refuse FlightDeadlineExceeded (ScanFailed (ScanDeadlineExceeded ms)))))
  | Err error =>
      Call WatchdogFired (λ fired,
        Done (Some (Err (if fired then refuse FlightDeadlineExceeded (Interrupted deadline_ms)
                         else refuse FlightInvalidArgument (ScanFailed error)))))
  end.

(** Return the connection, or replace an interrupted one, best effort. *)
Definition return_reader {A} (reader : Reader) (k : handler A) : handler A :=
  Call WatchdogFired (λ fired,
    if fired then
      Call NewReader (λ fresh,
        match fresh with Ok reader => Call (PushReader reader) (λ _, k) | Err _ => k end)
    else Call (PushReader reader) (λ _, k)).

(** The scan on a checked-out connection. *)
Definition scan_on (config : ServingConfig) (sql : string) (guards : ScanGuards) (reader : Reader) :
    handler (option (result ScanOut FlightStatus)) :=
  Call (StartScan reader sql guards) (λ _,
    Call AwaitScan (λ finished,
      match finished with
      | None => Done None
      | Some None => Done (Some (Err (refuse FlightInternal ScanTaskFailed)))
      | Some (Some result) => return_reader reader (scan_status (hot_scan_deadline_ms config) result)
      end)).

(** The guards of a scan. *)
Definition guards_at (config : ServingConfig) (staged_bytes : N) : ScanGuards :=
  {| sg_max_bytes := fill_scaled_budget (max_hot_bytes_per_query config) staged_bytes
                       (sc_hot_max_bytes config);
     sg_deadline_nanos := System.u64_sat_mul (hot_scan_deadline_ms config) 1000000 |}.

(** [HotFlightService::run_guarded] *)
Definition run_guarded (config : ServingConfig) (sql : string) :
    handler (option (result ScanOut FlightStatus)) :=
  match require_select_shape sql with
  | Err status => Done (Some (Err status))
  | Ok _ =>
      Call TryAcquire (λ acquired,
        if acquired then
          Call StagedBytes (λ staged,
            let guards := guards_at config staged in
            Call PopReader (λ pooled,
              match pooled with
              | Some reader => and_then (scan_on config sql guards reader) released
              | None =>
                  Call NewReader (λ fresh,
                    match fresh with
                    | Ok reader => and_then (scan_on config sql guards reader) released
                    | Err e => released (Some (Err (refuse FlightInternal (ReaderFailed e))))
                    end)
              end))
        else Done (Some (Err (refuse FlightResourceExhausted
                                (ScansInFlight (max_concurrent_hot_scans config))))))
  end.

(** ** The endpoints *)

(** [HotFlightService::schema_of], up to the schema of the result. *)
Definition schema_query (sql : string) : string := "SELECT * FROM (" +:+ sql +:+ ") AS q LIMIT 0".

Definition schema_of (config : ServingConfig) (sql : string) :
    handler (option (result string FlightStatus)) :=
  and_then (run_guarded config (schema_query sql)) (λ out,
    Done (match out with
          | None => None
          | Some (Ok (schema, _)) => Some (Ok schema)
          | Some (Err status) => Some (Err status)
          end)).

(** [get_flight_info]: the schema, and a ticket that carries the SQL; [encodes] is
    whether Flight encodes the schema. *)
Definition get_flight_info (config : ServingConfig) (is_cmd : bool) (cmd : string)
    (encodes : string → bool) : handler (option (result (string * string) FlightStatus)) :=
  if is_cmd then
    match sql_utf8 cmd with
    | Err status => Done (Some (Err status))
    | Ok sql =>
        and_then (schema_of config sql) (λ out,
          Done (match out with
                | None => None
                | Some (Err status) => Some (Err status)
                | Some (Ok schema) =>
                    Some (if encodes schema then Ok (schema, sql) else Err (refuse FlightInternal EncodeFailed))
                end))
    end
  else Done (Some (Err (refuse FlightInvalidArgument NotCmd))).

(** [get_schema] *)
Definition get_schema (config : ServingConfig) (cmd : string) (encodes : string → bool) :
    handler (option (result string FlightStatus)) :=
  match sql_utf8 cmd with
  | Err status => Done (Some (Err status))
  | Ok sql =>
      and_then (schema_of config sql) (λ out,
        Done (match out with
              | Some (Ok schema) =>
                  Some (if encodes schema then Ok schema else Err (refuse FlightInternal EncodeFailed))
              | out => out
              end))
  end.

(** [do_get], up to the stream that encodes the collected batches. *)
Definition do_get (config : ServingConfig) (ticket : string) :
    handler (option (result ScanOut FlightStatus)) :=
  match sql_utf8 ticket with
  | Err status => Done (Some (Err status))
  | Ok sql => run_guarded config sql
  end.

(** The endpoints of the missing vocabulary. *)
Definition unimplemented {A} : handler (option (result A FlightStatus)) :=
  Done (Some (Err (refuse FlightUnimplemented NoSuchVerb))).

(** ** Handlers running concurrently *)

(** A request of the service's vocabulary, and what its handler returns; [None]
    is a handler that was dropped. *)
Inductive Request :=
| DoGet (ticket : string)
| GetSchema (cmd : string) (encodes : string → bool)
| GetFlightInfo (is_cmd : bool) (cmd : string) (encodes : string → bool)
| OtherVerb.

Inductive Response :=
| Batches (r : option (result ScanOut FlightStatus))
| Schema (r : option (result string FlightStatus))
| Info (r : option (result (string * string) FlightStatus)).

(** The handler the service runs for a request. *)
Definition serve (config : ServingConfig) (request : Request) : handler Response :=
  match request with
  | DoGet ticket => and_then (do_get config ticket) (λ r, Done (Batches r))
  | GetSchema cmd encodes => and_then (get_schema config cmd encodes) (λ r, Done (Schema r))
  | GetFlightInfo is_cmd cmd encodes =>
      and_then (get_flight_info config is_cmd cmd encodes) (λ r, Done (Info r))
  | OtherVerb => and_then unimplemented (λ r, Done (Batches r))
  end.

Record Flight := {
  fl_permits : nat;
  fl_readers : list Reader;
  fl_running : nat;
  fl_orphans : nat;
  fl_handlers : list (handler Response);
}.

(** [HotFlightService::new], when every connection could be cloned. *)
Definition flight_new (config : ServingConfig) : Flight :=
  let n := N.to_nat (max_concurrent_hot_scans config) in
  {| fl_permits := n; fl_readers := seq 0 n; fl_running := 0; fl_orphans := 0; fl_handlers := [] |}.

(** How the shared state answers a call and changes. *)
Definition flight_step (s : Flight) (c : flight_call) : flight_answer c → Flight → Prop :=
  let with_state permits readers running orphans :=
    {| fl_permits := permits; fl_readers := readers; fl_running := running; fl_orphans := orphans;
       fl_handlers := fl_handlers s |} in
  match c with
  | TryAcquire => λ acquired s',
      match fl_permits s with
      | O => acquired = false ∧ s' = s
      | S n => acquired = true ∧ s' = with_state n (fl_readers s) (fl_running s) (fl_orphans s)
      end
  | Release => λ _ s', s' = with_state (S (fl_permits s)) (fl_readers s) (fl_running s) (fl_orphans s)
  | PopReader => λ r s',
      r = head (fl_readers s) ∧
      s' = with_state (fl_permits s) (tail (fl_readers s)) (fl_running s) (fl_orphans s)
  | PushReader reader => λ _ s',
      s' = with_state (fl_permits s) (reader :: fl_readers s) (fl_running s) (fl_orphans s)
  | StartScan _ _ _ => λ _ s',
      s' = with_state (fl_permits s) (fl_readers s) (S (fl_running s)) (fl_orphans s)
  | AwaitScan => λ finished s',
      match finished with
      | Some _ => s' = with_state (fl_permits s) (fl_readers s) (pred (fl_running s)) (fl_orphans s)
      | None => s' = with_state (fl_permits s) (fl_readers s) (fl_running s) (S (fl_orphans s))
      end
  | StagedBytes | NewReader | WatchdogFired => λ _ s', s' = s
  end.

Definition with_handlers (s : Flight) (hs : list (handler Response)) : Flight :=
  {| fl_permits := fl_permits s; fl_readers := fl_readers s; fl_running := fl_running s;
     fl_orphans := fl_orphans s; fl_handlers := hs |}.

(** Requests arrive, handlers make their calls in any order, a handler that has
    its response leaves, and a scan nobody awaits any more ends. *)
Inductive serve_step (config : ServingConfig) : Flight → Flight → Prop :=
| ServeArrive s request :
    serve_step config s (with_handlers s (serve config request :: fl_handlers s))
| ServeCall s before c k after r s' :
    fl_handlers s = before ++ Call c k :: after →
    flight_step s c r s' →
    serve_step config s (with_handlers s' (before ++ k r :: after))
| ServeRespond s before response after :
    fl_handlers s = before ++ Done response :: after →
    serve_step config s (with_handlers s (before ++ after))
| ServeOrphanEnds s n :
    fl_orphans s = S n →
    serve_step config s
      {| fl_permits := fl_permits s; fl_readers := fl_readers s; fl_running := pred (fl_running s);
         fl_orphans := n; fl_handlers := fl_handlers s |}.

End serving.
Arguments Done {_ _} a.
Arguments Call {_ _} c k.

(** * Properties of the Flight server

    The permits bound the scans that are awaited, whatever the interleaving; an
    answer is the whole result of the query within its guards, or an error. *)

Section props.
Context `{DuckDb}.

(** ** Admission *)

(** What a handler holds. *)
Inductive phase := Idle | Holding | Scanning.

#[global] Instance phase_eq_dec : EqDecision phase.
Proof. solve_decision. Defined.

(** When a handler in phase [ph] may make the call, and its phase after. *)
Definition may_call (ph : phase) (c : flight_call) : Prop :=
  match c with
  | TryAcquire => ph = Idle
  | Release | StartScan _ _ _ => ph = Holding
  | AwaitScan => ph = Scanning
  | StagedBytes | PopReader | NewReader | WatchdogFired | PushReader _ => ph = Holding
  end.

Definition phase_after (ph : phase) (c : flight_call) : flight_answer c → phase :=
  match c with
  | TryAcquire => λ acquired : bool, if acquired then Holding else Idle
  | Release => λ _, Idle
  | StartScan _ _ _ => λ _, Scanning
  | AwaitScan => λ _, Holding
  | _ => λ _, ph
  end.

(** The rest of the handler keeps to the phases and ends without a permit. *)
Fixpoint orderly {A} (ph : phase) (p : handler A) : Prop :=
  match p with
  | Done _ => ph = Idle
  | Call c k => may_call ph c ∧ ∀ r, orderly (phase_after ph c r) (k r)
  end.

(** A handler that is to be followed by the drop of the permit. *)
Fixpoint keeps {A} (ph : phase) (p : handler A) : Prop :=
  match p with
  | Done _ => ph = Holding
  | Call c k => may_call ph c ∧ ∀ r, keeps (phase_after ph c r) (k r)
  end.

Lemma keeps_released {A} ph (p : handler A) : keeps ph p → orderly ph (and_then p released).
Proof. revert ph. induction p as [a|c k IH]; simpl; intros ph; [intros ->; done|]. intros [? Hk]. split; auto. Qed.

Lemma scan_on_keeps config sql guards reader : keeps Holding (scan_on config sql guards reader).
Proof.
  unfold scan_on. simpl. split; [done|]. intros _. split; [done|].
  intros [[r|]|]; simpl; [|done..]. unfold return_reader, scan_status. simpl.
  assert (keeps Holding (scan_status (hot_scan_deadline_ms config) r)) as Hs.
  { destruct r as [out|[]]; simpl; repeat split; done. }
  unfold scan_status in Hs. split; [done|]. intros []; simpl; (split; [done|]).
  - intros [reader'|]; [split; [done|]|]; done.
  - done.
Qed.

Lemma run_guarded_orderly config sql : orderly Idle (run_guarded config sql).
Proof.
  unfold run_guarded.
  assert (∀ staged reader, orderly Holding
    (and_then (scan_on config sql (guards_at config staged) reader) released)) as Hscan
    by (intros; apply keeps_released, scan_on_keeps).
  destruct (require_select_shape sql); [|done]. split; [done|]. intros []; [|done].
  split; [done|]. intros staged. split; [done|]. intros [reader|]; [exact (Hscan staged reader)|].
  split; [done|]. intros [reader|e]; [exact (Hscan staged reader)|done].
Qed.

(** What follows without a call keeps the order. *)
Lemma orderly_map {A B} ph (p : handler A) (f : A → B) :
  orderly ph p → orderly ph (and_then p (λ a, Done (f a))).
Proof. revert ph. induction p as [a|c k IH]; simpl; intros ph; [done|]. intros [? Hk]. split; auto. Qed.

Lemma schema_of_orderly config sql : orderly Idle (schema_of config sql).
Proof. apply orderly_map, run_guarded_orderly. Qed.

Lemma serve_orderly config request : orderly Idle (serve config request).
Proof.
  destruct request as [ticket|cmd encodes|is_cmd cmd encodes|]; [| | |done].
  all: cbn [serve]; unfold do_get, get_schema, get_flight_info; apply orderly_map.
  - destruct (sql_utf8 ticket); [apply run_guarded_orderly|done].
  - destruct (sql_utf8 cmd); [|done]. apply orderly_map, schema_of_orderly.
  - destruct is_cmd; [|done]. destruct (sql_utf8 cmd); [|done]. apply orderly_map, schema_of_orderly.
Qed.

(** A handler holds a permit, a handler awaits a scan. *)
Definition holds (ph : phase) : nat := match ph with Idle => 0 | _ => 1 end.
Definition awaits (ph : phase) : nat := match ph with Scanning => 1 | _ => 0 end.

Abbreviation total f l := (list_sum (f <$> l)).

(** The phases of the handlers add up to the shared counts. *)
Definition flight_ok (config : ServingConfig) (s : Flight) : Prop :=
  ∃ phs, Forall2 orderly phs (fl_handlers s) ∧
    (fl_permits s + total holds phs = N.to_nat (max_concurrent_hot_scans config))%nat ∧
    fl_running s = (total awaits phs + fl_orphans s)%nat.

Lemma total_app f (l k : list phase) : total f (l ++ k) = (total f l + total f k)%nat.
Proof. by rewrite fmap_app, list_sum_app. Qed.

Lemma serve_step_ok config s s' : flight_ok config s → serve_step config s s' → flight_ok config s'.
Proof.
  intros (phs & Hf & Hp & Hr) Hstep. destruct Hstep as
    [s request|s before c k after r s' Eh Hc|s before response after Eh|s n Eo].
  - exists (Idle :: phs). split_and!; [|done..]. constructor; [apply serve_orderly|done].
  - rewrite Eh in Hf. apply Forall2_app_inv_r in Hf as (phb & pha & Hb & Ha & ->).
    inversion Ha as [|ph ? pha' ? Ho Ha']; subst. destruct Ho as [Hmay Hk]. exists (phb ++ phase_after ph c r :: pha').
    rewrite !total_app in Hp, Hr. rewrite !total_app. csimpl in Hp. csimpl in Hr. csimpl.
    split; [apply Forall2_app; [done|by constructor]|].
    destruct c; cbn [may_call flight_step phase_after with_handlers fl_permits fl_running fl_orphans] in *; subst ph.
    + destruct (fl_permits s) eqn:Ep; destruct Hc as [-> ->]; cbn in *; lia.
    + subst s'. cbn in *. lia.
    + subst s'. cbn in *. lia.
    + destruct Hc as [_ ->]. cbn in *. lia.
    + subst s'. cbn in *. lia.
    + subst s'. cbn in *. lia.
    + destruct r; subst s'; cbn in *; lia.
    + subst s'. cbn in *. lia.
    + subst s'. cbn in *. lia.
  - rewrite Eh in Hf. apply Forall2_app_inv_r in Hf as (phb & pha & Hb & Ha & ->).
    inversion Ha as [|ph ? pha' ? Ho Ha']; subst. simpl in Ho. subst ph.
    exists (phb ++ pha'). rewrite !total_app in Hp, Hr. rewrite !total_app.
    csimpl in Hp. csimpl in Hr. split_and!; [by apply Forall2_app|done|done].
  - exists phs. rewrite Eo in Hr. split_and!; [done..|]. simpl. lia.
Qed.

Lemma flight_new_ok config : flight_ok config (flight_new config).
Proof. exists []. split_and!; [constructor|simpl; lia|done]. Qed.

Lemma served_ok config s : rtc (serve_step config) (flight_new config) s → flight_ok config s.
Proof.
  intros Hs. pose proof (flight_new_ok config) as Hn. induction Hs as [|s1 s2 s3 H12 _ IH]; [done|].
  apply IH. by eapply serve_step_ok.
Qed.

(** The scans some handler awaits. *)
Definition awaiting {A} (p : handler A) : nat := match p with Call AwaitScan _ => 1 | _ => 0 end.

Definition awaited (s : Flight) : nat := total awaiting (fl_handlers s).

Lemma awaits_awaiting {A} ph (p : handler A) : orderly ph p → awaits ph = awaiting p.
Proof. destruct p as [a|[]]; simpl; [by intros ->|..]; intros [-> _]; done. Qed.

(** A handler that has its response. *)
Definition responded {A} (p : handler A) : Prop := match p with Done _ => True | Call _ _ => False end.

#[global] Instance responded_dec {A} (p : handler A) : Decision (responded p).
Proof. destruct p; simpl; apply _. Defined.

(** The permits taken are taken by handlers that have not responded. *)
Lemma holds_open phs (ps : list (handler Response)) :
  Forall2 orderly phs ps → (total holds phs ≤ length (filter (λ p, ¬ responded p) ps))%nat.
Proof.
  induction 1 as [|ph p phs ps Ho _ IH]; [done|]. csimpl. destruct p as [a|c k].
  - simpl in Ho. subst ph. rewrite filter_cons_False by (intros Hn; by apply Hn). simpl. lia.
  - rewrite filter_cons_True by (by intros []). simpl. destruct ph; simpl; lia.
Qed.

(** C26: The permits bound the scans, and come back.  Whatever requests arrive
    ([do_get], [get_schema], [get_flight_info] or an unserved verb) and however
    their handlers interleave, finish and leave, cancelled ones included: the
    permits taken are at most [max_concurrent_hot_scans], so at most that many
    scans are awaited; every scan that runs is awaited or was left behind by a
    cancelled handler; a scan is refused for concurrency only when every permit is
    taken by a handler that has not responded yet; and whenever every handler still
    there has its response, every permit is back. *)
Theorem scan_permits_bounded (config : ServingConfig) (s : Flight) :
  rtc (serve_step config) (flight_new config) s →
  let cap := N.to_nat (max_concurrent_hot_scans config) in
  (fl_permits s ≤ cap)%nat ∧ (awaited s ≤ cap - fl_permits s)%nat ∧
  fl_running s = (awaited s + fl_orphans s)%nat ∧
  (cap - fl_permits s ≤ length (filter (λ p, ¬ responded p) (fl_handlers s)))%nat ∧
  (Forall responded (fl_handlers s) → fl_permits s = cap).
Proof.
  intros (phs & Hf & Hp & Hr)%served_ok cap. fold cap in Hp.
  assert (total awaits phs = awaited s ∧ (total awaits phs ≤ total holds phs)%nat) as [E Hle].
  { unfold awaited. clear -Hf. induction Hf as [|ph p phs ps Ho _ [IH1 IH2]]; [done|]. csimpl.
    rewrite (awaits_awaiting ph p Ho), IH1 in *. split; [done|].
    rewrite <-(awaits_awaiting ph p Ho). destruct ph; simpl; lia. }
  pose proof (holds_open _ _ Hf) as Hopen.
  split_and!; [lia..|]. intros Hall.
  assert (filter (λ p, ¬ responded p) (fl_handlers s) = []) as Ef; [|rewrite Ef in Hopen; simpl in Hopen; lia].
  clear -Hall. induction Hall as [|p ps Hd _ IH]; [done|]. by rewrite filter_cons_False by (intros Hn; by apply Hn).
Qed.

(** ** Answers *)

(** What a scan meets: what DuckDB yields for a statement (the schema and the
    batches, or its error), the clock when the scan starts and after each batch,
    and the bytes staged when the guards are computed. *)
Record ScanWorld := {
  sw_query : string → result (string * list RecordBatch) DuckdbError;
  sw_started : N;
  sw_clock : nat → N;
  sw_staged : N;
}.

(** Each batch of the query with the clock's reading after it. *)
Definition clocked (w : ScanWorld) (batches : list RecordBatch) : list (RecordBatch * N) :=
  imap (λ i b, (b, sw_clock w i)) batches.

(** [query_arrow_guarded] on the statement. *)
Definition engine_scan (w : ScanWorld) (sql : string) (guards : ScanGuards) :
    result ScanOut StagingError :=
  match sw_query w sql with
  | Err e => Err (EngineError e)
  | Ok (schema, batches) =>
      let? out := query_arrow_guarded guards (sw_started w) (Ok (clocked w batches)) in
      Ok (schema, out)
  end.

(** The statement and the guards of the scan that runs. *)
Definition scan_after (g : option (string * ScanGuards)) (c : flight_call) :
    option (string * ScanGuards) :=
  match c with StartScan _ sql guards => Some (sql, guards) | _ => g end.

(** The answers a handler can get: the scan's is that of the statement with the
    guards it was started with, unless the handler is dropped or the blocking task
    dies; a permit, a connection and the watchdog may go either way. *)
Definition scan_allows (w : ScanWorld) (g : option (string * ScanGuards)) (c : flight_call) :
    flight_answer c → Prop :=
  match c with
  | StagedBytes => λ staged, staged = sw_staged w
  | AwaitScan => λ finished, ∀ out, finished = Some (Some out) →
      ∃ sql guards, g = Some (sql, guards) ∧ out = engine_scan w sql guards
  | _ => λ _, True
  end.

Fixpoint runs_with {A} (w : ScanWorld) (g : option (string * ScanGuards)) (p : handler A) (a : A) : Prop :=
  match p with
  | Done b => a = b
  | Call c k => ∃ r, scan_allows w g c r ∧ runs_with w (scan_after g c) (k r) a
  end.

Lemma runs_released {A} w g (p : handler A) a :
  runs_with w g (and_then p released) a → runs_with w g p a.
Proof.
  revert g. induction p as [b|c k IH]; simpl; intros g.
  - by intros (_ & _ & ->).
  - intros (r & Hr & Hk). eauto.
Qed.

(** The code a cause is reported with. *)
Definition code_of (cause : FlightCause) : FlightCode :=
  match cause with
  | ScansInFlight _ | ScanFailed (ScanBudgetExceeded _ _) => FlightResourceExhausted
  | ScanFailed (ScanDeadlineExceeded _) | Interrupted _ => FlightDeadlineExceeded
  | ReaderFailed _ | ScanTaskFailed | EncodeFailed => FlightInternal
  | NoSuchVerb => FlightUnimplemented
  | NotSelect | NotUtf8Sql | NotCmd | ScanFailed _ => FlightInvalidArgument
  end.

(** The query's result is within the guards: every batch arrived before the
    deadline, and the content of all of them, counted as the engine counts it,
    fits the fill-scaled budget. *)
Definition within (config : ServingConfig) (w : ScanWorld) (batches : list RecordBatch) : Prop :=
  (∀ i, (i < length batches)%nat →
     (sw_clock w i - sw_started w ≤ u64_sat_mul (hot_scan_deadline_ms config) 1000000)%N) ∧
  ∃ sizes, Forall2 (λ b s, record_batch_content_bytes b = Ok s) batches sizes ∧
    (N.min (sum_N sizes) u64_max ≤
      fill_scaled_budget (max_hot_bytes_per_query config) (sw_staged w) (sc_hot_max_bytes config))%N.

(** The failures that are the scan's own. *)
Definition scan_failure (cause : FlightCause) : Prop :=
  match cause with ScanFailed _ | Interrupted _ => True | _ => False end.

Lemma clocked_fst w batches : (clocked w batches).*1 = batches.
Proof.
  unfold clocked. apply list_eq. intros i. rewrite list_lookup_fmap, list_lookup_imap.
  by destruct (batches !! i).
Qed.

(** The loop of the engine succeeds exactly within the guards. *)
Lemma clocked_within config w batches :
  Forall (λ bn : RecordBatch * N, bn.2 - sw_started w ≤ u64_sat_mul (hot_scan_deadline_ms config) 1000000)%N
    (clocked w batches) ↔
  ∀ i, (i < length batches)%nat →
    (sw_clock w i - sw_started w ≤ u64_sat_mul (hot_scan_deadline_ms config) 1000000)%N.
Proof.
  unfold clocked. rewrite Forall_lookup. split.
  - intros Hall i [b Hb]%lookup_lt_is_Some_2. apply (Hall i (b, sw_clock w i)).
    by rewrite list_lookup_imap, Hb.
  - intros Hall i [b n]. rewrite list_lookup_imap. destruct (batches !! i) as [b'|] eqn:E; [|done].
    intros [= <- <-]. simpl. by eapply Hall, lookup_lt_Some.
Qed.

Lemma sizes_clocked w batches sizes :
  Forall2 (λ (bn : RecordBatch * N) s, record_batch_content_bytes bn.1 = Ok s) (clocked w batches) sizes ↔
  Forall2 (λ b s, record_batch_content_bytes b = Ok s) batches sizes.
Proof. rewrite <-(clocked_fst w batches) at 2. by rewrite Forall2_fmap_l. Qed.

(** What the engine answers: the whole result within the guards, or an error. *)
Lemma engine_scan_spec config w sql :
  match engine_scan w sql (guards_at config (sw_staged w)) with
  | Ok (schema, batches) => sw_query w sql = Ok (schema, batches) ∧ within config w batches
  | Err _ => ∀ schema batches, sw_query w sql = Ok (schema, batches) → ¬ within config w batches
  end.
Proof.
  unfold engine_scan. destruct (sw_query w sql) as [[schema batches]|e]; [|done].
  unfold query_arrow_guarded. simpl.
  destruct (scan_loop _ _ _ _) as [out|e] eqn:E.
  - apply scan_loop_ok in E as (-> & Hdl & sizes & Hsz & Hsum); [|lia..]. rewrite clocked_fst.
    split; [done|]. rewrite N.add_0_l in Hsum. split; [by apply clocked_within|].
    exists sizes. split; [by eapply sizes_clocked|done].
  - intros ? ? [= <- <-] [Hdl (sizes & Hsz & Hsum)]. apply clocked_within in Hdl.
    rewrite <-(sizes_clocked w) in Hsz.
    destruct (scan_loop_succeeds (guards_at config (sw_staged w)) (sw_started w) 0 _ _ Hsz Hdl)
      as [out Hout]; [lia|by rewrite N.add_0_l|]. by rewrite E in Hout.
Qed.

(** What a client may be told of a scan. *)
Definition told (config : ServingConfig) (w : ScanWorld) (sql : string)
    (a : option (result ScanOut FlightStatus)) : Prop :=
  match a with
  | Some (Ok (schema, batches)) => sw_query w sql = Ok (schema, batches) ∧ within config w batches
  | Some (Err status) =>
      fs_code status = code_of (fs_cause status) ∧
      (scan_failure (fs_cause status) →
       ∀ schema batches, sw_query w sql = Ok (schema, batches) → ¬ within config w batches)
  | None => True
  end.

Lemma scan_on_told config w sql reader a g :
  runs_with w g (scan_on config sql (guards_at config (sw_staged w)) reader) a → told config w sql a.
Proof.
  unfold scan_on. intros (_ & _ & finished & Hfin & Hrun). cbn [scan_after scan_allows] in Hfin.
  destruct finished as [[r|]|]; [|by rewrite Hrun..].
  destruct (Hfin r eq_refl) as (sql' & guards' & [= <- <-] & Hscan).
  pose proof (engine_scan_spec config w sql) as Hspec. rewrite <-Hscan in Hspec.
  assert (∀ g', runs_with w g' (scan_status (hot_scan_deadline_ms config) r) a → told config w sql a) as Hstat.
  { intros g'. destruct r as [[schema out]|e]; [by intros ->|].
    destruct e; try (intros (fired & _ & ->); by destruct fired); by intros ->. }
  destruct Hrun as (fired & _ & Hrun). destruct fired.
  - destruct Hrun as (fresh & _ & Hrun). destruct fresh as [reader'|e]; [|by eapply Hstat].
    destruct Hrun as (_ & _ & Hrun). by eapply Hstat.
  - destruct Hrun as (_ & _ & Hrun). by eapply Hstat.
Qed.

(** C25: A scan is answered whole or not at all.  Fix what DuckDB yields for each
    statement, the clock after each batch and the bytes staged, and let permits,
    connections, the watchdog and cancellation go any way: a ticket answered with
    batches gets the schema and all the batches its query yields, in order, every
    one of them produced within the deadline and their content together within the
    fill-scaled byte budget; any error has the code of its cause (a tripped budget
    and a refused admission are [RESOURCE_EXHAUSTED], a deadline, cooperative or by
    interrupt, is [DEADLINE_EXCEEDED]), and a scan is failed only when DuckDB
    failed the query or its result is not within the guards. *)
Theorem scan_answered_whole (config : ServingConfig) (w : ScanWorld) (ticket : string)
    (a : option (result ScanOut FlightStatus)) :
  runs_with w None (do_get config ticket) a →
  match a with
  | Some (Ok (schema, batches)) => sw_query w ticket = Ok (schema, batches) ∧ within config w batches
  | Some (Err status) =>
      fs_code status = code_of (fs_cause status) ∧
      (scan_failure (fs_cause status) →
       ∀ schema batches, sw_query w ticket = Ok (schema, batches) → ¬ within config w batches)
  | None => True
  end.
Proof.
  intros Hrun. change (told config w ticket a).
  unfold do_get, run_guarded, sql_utf8 in Hrun. destruct (is_utf8 ticket); [|by rewrite Hrun].
  destruct (require_select_shape ticket) as [|status] eqn:Eq.
  2: { rewrite Hrun. unfold require_select_shape in Eq. case_match; simplify_eq. done. }
  destruct Hrun as ([] & _ & Hrun); [|by rewrite Hrun].
  destruct Hrun as (staged & -> & pooled & _ & Hrun).
  destruct pooled as [reader|]; [by eapply scan_on_told, runs_released|].
  destruct Hrun as ([reader|e] & _ & Hrun); [by eapply scan_on_told, runs_released|].
  by destruct Hrun as (_ & _ & ->).
Qed.

(** ** The shape guard *)

(** The wrapped query of the schema endpoints passes the guard whatever SQL it
    wraps. *)
Theorem schema_guard_vacuous (sql : string) : require_select_shape (schema_query sql) = Ok tt.
Proof. done. Qed.

(** A statement that writes passes the guard of a ticket. *)
Theorem select_guard_admits_writes :
  require_select_shape "WITH gone AS (SELECT 1) DELETE FROM s_logs" = Ok tt ∧
  require_select_shape "SELECT 1; DROP TABLE s_logs" = Ok tt.
Proof. by vm_compute. Qed.

(** ** Cancelled scans

    A handler that is cancelled gives its permit back while its scan runs on: with
    one permit, two scans run. *)

Definition one_scan : ServingConfig :=
  {| max_hot_bytes_per_query := 1; hot_scan_deadline_ms := 1; max_concurrent_hot_scans := 1;
     sc_hot_max_bytes := 1 |}.

(** A service whose clients cancel every scan they await. *)
Definition quick (s : Flight) (c : flight_call) : flight_answer c * Flight :=
  let with_state permits readers running orphans :=
    {| fl_permits := permits; fl_readers := readers; fl_running := running; fl_orphans := orphans;
       fl_handlers := fl_handlers s |} in
  match c return flight_answer c * Flight with
  | TryAcquire =>
      match fl_permits s with
      | O => (false, s)
      | S n => (true, with_state n (fl_readers s) (fl_running s) (fl_orphans s))
      end
  | Release => (tt, with_state (S (fl_permits s)) (fl_readers s) (fl_running s) (fl_orphans s))
  | PopReader => (head (fl_readers s), with_state (fl_permits s) (tail (fl_readers s)) (fl_running s) (fl_orphans s))
  | PushReader reader => (tt, with_state (fl_permits s) (reader :: fl_readers s) (fl_running s) (fl_orphans s))
  | StartScan _ _ _ => (tt, with_state (fl_permits s) (fl_readers s) (S (fl_running s)) (fl_orphans s))
  | AwaitScan => (None, with_state (fl_permits s) (fl_readers s) (fl_running s) (S (fl_orphans s)))
  | StagedBytes => (0%N, s)
  | NewReader => (Ok 0%nat, s)
  | WatchdogFired => (false, s)
  end.

Definition poll (s : Flight) : Flight :=
  match fl_handlers s with
  | Call c k :: rest => with_handlers (quick s c).2 (k (quick s c).1 :: rest)
  | _ => s
  end.

Lemma poll_steps config s : rtc (serve_step config) s (poll s).
Proof.
  unfold poll. destruct (fl_handlers s) as [|[a|c k] rest] eqn:Eh; [apply rtc_refl..|].
  apply rtc_once. eapply (ServeCall config s [] c k rest); [done|].
  destruct c; simpl; try done. by destruct (fl_permits s).
Qed.

Lemma polls_steps config n s : rtc (serve_step config) s (Nat.iter n poll s).
Proof. induction n as [|n IH]; [apply rtc_refl|]. etrans; [exact IH|apply poll_steps]. Qed.

Definition arrive (config : ServingConfig) (s : Flight) : Flight :=
  with_handlers s (serve config (DoGet "SELECT 1") :: fl_handlers s).

(** The permit bounds the handlers, not the scans. *)
Theorem cancelled_scans_exceed_cap :
  ∃ s, rtc (serve_step one_scan) (flight_new one_scan) s ∧
    max_concurrent_hot_scans one_scan = 1%N ∧ fl_running s = 2%nat.
Proof.
  exists (Nat.iter 5 poll (arrive one_scan (Nat.iter 6 poll (arrive one_scan (flight_new one_scan))))).
  split; [|by vm_compute].
  etrans; [|apply polls_steps]. eapply rtc_r; [|apply (ServeArrive one_scan _ (DoGet "SELECT 1"))].
  etrans; [|apply polls_steps]. apply rtc_once, (ServeArrive one_scan _ (DoGet "SELECT 1")).
Qed.

End props.
