(* ===== verification/WiringProps.v ===== *)
(** * Properties of the daemon's composition

    Seed addresses and ring agreement, the log table's schema, and boot: it is a
    step of the pipeline, and the ledger it recovers agrees with the lake. *)

From Stdlib Require Import Ascii.
From S2P Require Import Prelude RustStd Types System Ports Overload Hrw Routing.
From S2P Require Import Ledger Reconstruct ReconstructProps SharedLedger Naming Coordinator DrainSystem.
From S2P Require Import Engine Stager Seal SealProps StagerProps HotStore Rolling Daemon.
From S2P Require Import Pipeline PipelineProps Otlp Accept Ducklake DucklakeProps Wiring.

(** ** Seed addresses *)

#[local] Arguments Ascii.eqb : simpl never.

Lemma split_once_app c a b : contains_char c a = false → split_once c (a +:+ String c b) = Some (a, b).
Proof.
  unfold contains_char. induction a as [|d a IH]; simpl; [by rewrite Ascii.eqb_refl|].
  destruct (Ascii.eqb c d); [done|]. change (String.append a (String c b)) with (a +:+ String c b).
  destruct (split_once c a) as [[]|] eqn:E; simpl; [done|]. intros _. by rewrite IH.
Qed.

Lemma rsplit_once_None c b : contains_char c b = false → rsplit_once c b = None.
Proof.
  unfold contains_char. induction b as [|d b IH]; simpl; [done|]. destruct (Ascii.eqb c d); [done|].
  destruct (split_once c b); simpl in *; [done|]. by rewrite IH.
Qed.

Lemma rsplit_once_app c a b : contains_char c b = false → rsplit_once c (a +:+ String c b) = Some (a, b).
Proof.
  intros Hb. induction a as [|d a IH]; simpl.
  - by rewrite rsplit_once_None, Ascii.eqb_refl.
  - change (String.append a (String c b)) with (a +:+ String c b). by rewrite IH.
Qed.

Lemma rsplit_once_Some c s a b : rsplit_once c s = Some (a, b) → s = a +:+ String c b.
Proof.
  revert a. induction s as [|d s IH]; simpl; intros a; [done|].
  destruct (rsplit_once c s) as [[a' b']|].
  - intros [= <- <-]. by rewrite (IH a').
  - destruct (Ascii.eqb_spec c d); [|done]. by intros [= <- <-]; subst.
Qed.

Lemma digits_no_colon s : all_digits s = true → contains_char ":" s = false.
Proof.
  unfold contains_char. induction s as [|c s IH]; [done|]. simpl. rewrite andb_true_iff. intros [Hc Hs].
  destruct (Ascii.eqb_spec ":" c) as [<-|]; [done|]. specialize (IH Hs). by destruct (split_once ":" s).
Qed.

(** A host a port can be told apart from: no colon, no opening bracket. *)
Definition plain_host (h : string) : Prop := contains_char ":" h = false ∧ strip_prefix "[" h = None.

Lemma plain_host_prefix h rest : plain_host h → (h = "" → strip_prefix "[" rest = None) →
  strip_prefix "[" (h +:+ rest) = None.
Proof. intros [_ Hp] Hr. destruct h as [|c h]; [by apply Hr|]. simpl in *. by destruct (Ascii.eqb "[" c). Qed.

(** The documented seed forms.  A host or IPv4 address loses its port; a bracketed
    address loses its brackets and whatever follows; a bare address of more than
    one colon, and a bare host, are untouched. *)
Theorem seed_peer_forms (h port addr rest a b : string) :
  (plain_host h → port ≠ "" → all_digits port = true →
    strip_seed_peer_port (h +:+ ":" +:+ port) = h) ∧
  (contains_char "]" addr = false → strip_seed_peer_port ("[" +:+ addr +:+ "]" +:+ rest) = addr) ∧
  (strip_prefix "[" (a +:+ ":" +:+ b) = None → contains_char ":" a = true → contains_char ":" b = false →
    strip_seed_peer_port (a +:+ ":" +:+ b) = a +:+ ":" +:+ b) ∧
  (plain_host h → strip_seed_peer_port h = h).
Proof.
  unfold strip_seed_peer_port. split_and!.
  - intros Hh Hne Hd. change (":" +:+ port) with (String ":" port).
    rewrite plain_host_prefix by done. rewrite rsplit_once_app by by apply digits_no_colon.
    destruct Hh as [Hc _]. unfold all_ascii_digits. rewrite Hd, Hc. by destruct port.
  - intros Ha. change (strip_prefix "[" ("[" +:+ addr +:+ "]" +:+ rest)) with (Some (addr +:+ String "]" rest)).
    cbv iota beta. by rewrite split_once_app.
  - intros -> Ha Hb. change (":" +:+ b) with (String ":" b). rewrite rsplit_once_app by done.
    by rewrite Ha, andb_false_r.
  - intros [Hc ->]. by rewrite rsplit_once_None.
Qed.

(** ** The ring *)

Lemma string_app_length a b : String.length (a +:+ b) = (String.length a + String.length b)%nat.
Proof. induction a as [|c a IH]; simpl; [done|]. by f_equal. Qed.

Lemma append_inj_r (s a b : string) : a +:+ s = b +:+ s → a = b.
Proof.
  intros E. assert (String.length a = String.length b) as Hl.
  { apply (f_equal String.length) in E. rewrite !string_app_length in E. lia. }
  revert b Hl E. induction a as [|c a IH]; intros [|d b] Hl E; simplify_eq/=; [done|]. f_equal. by apply IH.
Qed.

(** The node's seeds, with itself, name the hosts. *)
Definition names_hosts (config : DaemonConfig) (self : string) (hosts : list string) : Prop :=
  ∀ h, h ∈ hosts ↔ h = self ∨ ∃ raw, raw ∈ cc_seed_peers (dc_cluster config) ∧ strip_seed_peer_port raw = h.

Definition host_id (h : string) : NodeId := h +:+ "/" +:+ V01_FIXED_INCARNATION.

Lemma membership_hosts config self hosts n :
  names_hosts config self hosts →
  n ∈ host_id self :: (seed_peer_node_id <$> cc_seed_peers (dc_cluster config)) ↔ n ∈ host_id <$> hosts.
Proof.
  intros Hn. rewrite elem_of_cons, !list_elem_of_fmap. split.
  - intros [->|(raw & -> & Hr)].
    + exists self. split; [done|]. apply Hn. by left.
    + exists (strip_seed_peer_port raw). split; [done|]. apply Hn. right. by exists raw.
  - intros (h & -> & [->|(raw & Hr & <-)]%Hn); [by left|]. right. by exists raw.
Qed.

(** C24: Ring agreement.  Two nodes whose seed lists, each with the node itself,
    name the same hosts route every partition alike: both have a plan, with the
    same owner and the same replica set, drawn from those hosts, and exactly the
    owner takes itself for the owner. *)
Theorem ring_agreement (config config' : DaemonConfig) (self self' : string) (hosts : list string)
    (p : PartitionId) (rf : N) :
  names_hosts config self hosts → names_hosts config' self' hosts →
  ∃ plan plan',
    route_write p (host_id self) (build_membership_view config (host_id self)) rf = Some plan ∧
    route_write p (host_id self') (build_membership_view config' (host_id self')) rf = Some plan' ∧
    rp_owner plan = rp_owner plan' ∧ rp_replicas plan = rp_replicas plan' ∧
    (∀ n, n ∈ rp_replicas plan → n ∈ host_id <$> hosts) ∧
    (rp_is_local_owner plan = true ↔ rp_owner plan = host_id self) ∧
    (rp_is_local_owner plan = true → rp_is_local_owner plan' = true → self = self').
Proof.
  intros Hn Hn'. unfold build_membership_view.
  set (cs := host_id self :: _). set (cs' := host_id self' :: _).
  assert (∀ n, n ∈ cs ↔ n ∈ cs') as Hcs.
  { intros n. unfold cs, cs'. rewrite (membership_hosts _ _ _ _ Hn), (membership_hosts _ _ _ _ Hn'). done. }
  assert (hrw_ranked p (candidates (membership_new cs)) = hrw_ranked p (candidates (membership_new cs'))) as Hr
    by by rewrite (hrw_ranked_proper p _ _ (candidates_perm cs cs' Hcs)).
  destruct (route_write p (host_id self) (membership_new cs) rf) as [plan|] eqn:E.
  2: { apply route_write_None, dedup_nil in E. done. }
  unfold route_write in E |- *. rewrite <-Hr.
  destruct (hrw_ranked p (candidates (membership_new cs))) as [|o ranked] eqn:Ek; [done|].
  injection E as <-. eexists _, _. split_and!; try done; simpl.
  - intros n Hn1%subseteq_take. rewrite <-(membership_hosts _ _ _ _ Hn). fold cs.
    assert (n ∈ hrw_ranked p (candidates (membership_new cs))) as Hin by by rewrite Ek.
    rewrite hrw_ranked_perm in Hin. by apply elem_of_dedup in Hin as [? _].
  - by rewrite bool_decide_eq_true.
  - rewrite !bool_decide_eq_true. intros -> E. by eapply append_inj_r.
Qed.

(** ** The log table *)

(** The columns of a sealed part of the log dataset, with the SQL types the engine
    stages them as. *)
Definition staged_columns : list (string * string) :=
  ((λ f, (f_name f, default "" (staging_sql_type (f_type f)))) <$> logs_schema)
  ++ [("origin", "VARCHAR"); ("seq", "UBIGINT")].

Abbreviation log_table c := (cat_tables c !! dataset_table OTLP_LOGS_DATASET).

(** The columns of [wanted] that a table has not, by name and without case. *)
Definition missing (cols wanted : list (string * string)) : list (string * string) :=
  filter (λ col, existsb (λ have, eq_ignore_ascii_case have.1 col.1) cols = false) wanted.

(** The columns of the log table, none when it is absent. *)
Abbreviation log_columns c := (default [] (log_table c)).

(** The log table is as it was, or has gained some of the columns it missed, in order;
    its own columns keep their types. *)
Definition log_table_grown (c c' : Catalog) : Prop :=
  log_table c' = log_table c ∨
  ∃ k, log_table c' = Some (log_columns c ++ take k (missing (log_columns c) staged_columns)).

(** It has gained all of them. *)
Definition log_table_whole (c c' : Catalog) : Prop :=
  log_table c' = Some (log_columns c ++ missing (log_columns c) staged_columns).

Lemma log_table_whole_grown c c' : log_table_whole c c' → log_table_grown c c'.
Proof.
  intros E. right. exists (length (missing (log_columns c) staged_columns)). by rewrite firstn_all.
Qed.

Section table.
Context `{DuckDb, !LakeLibs}.

(** A column type reaches the lake exactly when it can be staged, as the same SQL
    type. *)
Lemma logical_type_staged (t : DataType) :
  match arrow_logical_type t with
  | Ok logical => ∃ ty, sql_type logical = Ok ty ∧ staging_sql_type t = Some ty
  | Err e => e = UnsupportedSchemaColumn t ∧ staging_sql_type t = None
  end.
Proof. destruct t as [| | | | | | | | | | | | |[] []|]; simpl; eauto. Qed.

Lemma evolve_same_data faults c change : same_data c (evolve_schema_blocking faults c change).2.
Proof.
  unfold evolve_schema_blocking. destruct (exec faults StTableExists); [|done].
  destruct (cat_tables c !! _) as [cols|] eqn:Hc.
  - destruct (add_columns faults c _ _) as [r c'] eqn:E.
    by apply add_columns_spec in E as (? & _ & ? & _); [|by rewrite Hc].
  - destruct (column_types _) as [[|]|]; try done. by destruct (exec faults StCreateTable).
Qed.

Lemma missing_cons cols col wanted :
  missing cols (col :: wanted) =
  if existsb (λ have, eq_ignore_ascii_case have.1 col.1) cols then missing cols wanted
  else col :: missing cols wanted.
Proof.
  unfold missing. rewrite filter_cons.
  destruct (existsb _ _); [by rewrite decide_False|by rewrite decide_True].
Qed.

(** No two columns have the same name. *)
Fixpoint distinct_names (cols : list (string * string)) : bool :=
  match cols with
  | [] => true
  | col :: cols => forallb (λ later, negb (eq_ignore_ascii_case col.1 later.1)) cols && distinct_names cols
  end.

Lemma missing_snoc cols col wanted :
  forallb (λ later, negb (eq_ignore_ascii_case col.1 later.1)) wanted = true →
  missing (cols ++ [col]) wanted = missing cols wanted.
Proof.
  induction wanted as [|later wanted IH]; [done|]. simpl. intros [Hd%negb_true_iff Hr]%andb_prop.
  rewrite !missing_cons, (IH Hr), existsb_app. simpl. by rewrite Hd, !orb_false_r.
Qed.

(** The [ALTER TABLE] loop appends the missing columns in order, up to where it fails. *)
Lemma add_columns_missing faults c table columns tys cols r c' :
  cat_tables c !! table = Some cols → column_types columns = Ok tys →
  distinct_names tys = true →
  add_columns faults c table columns = (r, c') →
  ∃ k, cat_tables c' !! table = Some (cols ++ take k (missing cols tys)) ∧
    (r = Ok tt → take k (missing cols tys) = missing cols tys).
Proof.
  revert c cols tys. induction columns as [|col columns IH]; intros c cols tys Hc Ht Hd; simpl in *.
  { injection Ht as <-. intros [= <- <-]. exists 0%nat. simpl. by rewrite app_nil_r. }
  destruct (sql_type (col_logical_type col)) as [ty|]; simpl in Ht; [|done].
  destruct (column_types columns) as [rest|] eqn:Er; simpl in Ht; [|done]. injection Ht as <-.
  simpl in Hd. apply andb_prop in Hd as [Hnew Hd'].
  destruct (exec faults _) as [[]|].
  2: { intros [= <- <-]. exists 0%nat. simpl. by rewrite app_nil_r. }
  rewrite Hc. simpl. intros Ha. rewrite missing_cons. cbn [fst].
  specialize (IH (set_table c table (add_column cols (col_name col) ty)) (add_column cols (col_name col) ty) rest).
  unfold add_column in *. destruct (existsb _ cols) eqn:Ex.
  - apply IH; [apply lookup_insert_eq|done..].
  - destruct IH as (k & Hk & Hok); [apply lookup_insert_eq|done..|].
    rewrite missing_snoc in Hk, Hok by done. exists (S k). simpl. rewrite Hk, <-app_assoc. split; [done|].
    intros E. by rewrite Hok.
Qed.

Lemma staged_distinct : distinct_names staged_columns = true.
Proof. by vm_compute. Qed.

(** Ensuring the log table leaves committed data alone and only adds columns; when it
    succeeds the table has every column of a sealed part. *)
Lemma ensure_log_table faults c r c' :
  ensure_otlp_logs_table faults c = (r, c') →
  same_data c c' ∧ log_table_grown c c' ∧ (r = Ok tt → log_table_whole c c').
Proof.
  unfold ensure_otlp_logs_table. cbn [lake_columns logs_schema arrow_logical_type f_type f_name app].
  set (change := {| ev_dataset := _; ev_columns := _ |}). intros E.
  pose proof (evolve_same_data faults c change) as Hsame.
  destruct (evolve_schema_blocking faults c change) as [r0 c0] eqn:Ev. injection E as <- <-.
  split; [done|]. unfold evolve_schema_blocking in Ev.
  change (ev_dataset change) with OTLP_LOGS_DATASET in Ev.
  assert (column_types (ev_columns change) = Ok staged_columns) as Htys by reflexivity.
  destruct (exec faults StTableExists) as [[]|]; [|injection Ev as <- <-; by split; [left|]].
  destruct (log_table c) as [cols|] eqn:Ec.
  - destruct (add_columns_missing _ _ _ _ _ _ _ _ Ec Htys staged_distinct Ev) as (k & Hk & Hok).
    unfold log_table_grown, log_table_whole. rewrite Ec. simpl. split; [right; by exists k|].
    intros E. rewrite Hk. destruct r0 as [[]|]; [|done]. by rewrite Hok.
  - rewrite Htys in Ev. cbv iota in Ev. unfold staged_columns at 1 in Ev.
    cbn [fmap list_fmap logs_schema app] in Ev. fold staged_columns in Ev.
    destruct (exec faults StCreateTable) as [[]|]; injection Ev as <- <-; [|by split; [left|]].
    assert (log_table_whole c (set_table c (dataset_table OTLP_LOGS_DATASET) staged_columns)) as Hw.
    { unfold log_table_whole. rewrite Ec. etrans; [apply lookup_insert_eq|]. reflexivity. }
    split; [by apply log_table_whole_grown|done].
Qed.

End table.

(** ** Boot *)

Section boot.
Context `{ObjectStore, !PartPaths, DuckDb, !StagerLibs, !SealLibs, !SealLibsLaws, !Parquet, !ParquetLaws}.
Context `{!LakeLibs, !LakeLibsLaws}.
Context (cfg : StagerConfig) (config : Naming.DrainConfig).

Abbreviation LNode := (Node (L := gmap string PartitionState)).

(** The boot does not refuse the lake's record. *)
Definition not_refused {A} (r : result A BootError) : Prop := ∀ x, r ≠ Err (WatermarkReconstruction x).

Lemma not_refused_map {A E} (f : E → BootError) (r : result A E) :
  (∀ e x, f e ≠ WatermarkReconstruction x) → not_refused (map_err f r).
Proof. intros Hf x. destruct r; simpl; [done|]. intros [= E1]. by apply (Hf e x). Qed.

Lemma not_refused_bind {A B} (r : result A BootError) (k : A → result B BootError) :
  not_refused r → (∀ a, r = Ok a → not_refused (k a)) →
  not_refused (match r with Ok a => k a | Err e => Err e end).
Proof. intros Hr Hk. destruct r as [a|e]; [by apply Hk|]. intros x [= ->]. by apply (Hr x). Qed.

Lemma not_refused_ok {A} (a : A) : not_refused (Ok a).
Proof. done. Qed.

Lemma not_refused_err {A} e : (∀ x, e ≠ WatermarkReconstruction x) → not_refused (Err (A:=A) e).
Proof. intros He x [= E]. by apply (He x). Qed.

Ltac not_refused :=
  repeat first
    [ apply not_refused_ok
    | apply not_refused_map; done
    | apply not_refused_err; done
    | apply not_refused_bind; [|intros ? ?]
    | case_match ].

Lemma storage_not_refused fs lake dsn file mkdir built uri s3 :
  not_refused (build_s3_access fs lake) ∧ not_refused (catalog_uri_with_secret fs dsn file) ∧
  not_refused (build_parts_store mkdir built uri s3).
Proof.
  unfold build_s3_access, catalog_uri_with_secret, build_parts_store, parse_s3_uri, ok_or.
  split_and!; not_refused.
Qed.

Lemma ensure_not_refused faults c : not_refused (ensure_otlp_logs_table faults c).1.
Proof.
  unfold ensure_otlp_logs_table. cbn [lake_columns logs_schema arrow_logical_type f_type f_name app].
  destruct (evolve_schema_blocking _ _ _). not_refused.
Qed.

Lemma not_refused_Err {A B} (r : result A BootError) e : not_refused r → r = Err e → not_refused (Err (A:=B) e).
Proof. intros Hr -> x [= ->]. by apply (Hr x). Qed.

Lemma open_lake_spec w dconfig c r c' :
  open_lake w dconfig c = (r, c') →
  same_data c c' ∧ log_table_grown c c' ∧ not_refused r ∧ (is_ok r = true → log_table_whole c c').
Proof.
  intros E. assert (log_table_grown c c) as Hsame by by left. unfold open_lake in E.
  destruct (build_s3_access _ _) as [s3|e] eqn:Es.
  2: { injection E as <- <-. split_and!; try done. eapply not_refused_Err; [|exact Es].
       apply (storage_not_refused _ _ "" "" (Ok tt) (Ok tt) "" None). }
  destruct (catalog_uri_with_secret _ _ _) as [uri|e] eqn:Eu.
  2: { injection E as <- <-. split_and!; try done. eapply not_refused_Err; [|exact Eu].
       apply (storage_not_refused _ (dc_lake dconfig) _ _ (Ok tt) (Ok tt) "" None). }
  case_match; [|by injection E as <- <-; split_and!].
  destruct (ensure_otlp_logs_table (bw_faults w) c) as [r0 c0] eqn:Ee. injection E as <- <-.
  pose proof (ensure_not_refused (bw_faults w) c) as Hn. rewrite Ee in Hn. simpl in Hn.
  destruct (ensure_log_table _ _ _ _ Ee) as (? & ? & Hok). split_and!; try done.
  - apply not_refused_bind; [done|]. intros _ _. apply not_refused_bind; [|by not_refused].
    apply (storage_not_refused (bw_fs w) (dc_lake dconfig) "" "").
  - destruct r0 as [[]|]; [|done]. by intros _; apply Hok.
Qed.

(** The node after the boot. *)
Definition booted (s : LNode) (d : Daemon) : LNode :=
  set_world (set_hot s (HotUp (core_stager (dm_core d)) ∅))
    (with_ledger (nd_world s) (core_ledger (dm_core d))).

(** From a catalog that represents the lake of a node, the recovered ledger is
    rebuilt from exactly the lake's manifests, and agrees with the lake. *)
Lemma recover_spec lake (s : LNode) faults c :
  base config s → lake_of lake c s →
  match reconstruct_watermark_ledger faults c with
  | Ok l => ∃ ms, ms ≡ₚ w_lake (nd_world s) ∧ wb_rebuild ms = Some l ∧ synced (with_ledger (nd_world s) l)
  | Err e => ∃ msg, e = BootLake (LakeBackend msg) ∧ faults StSelectManifests = Some msg
  end.
Proof.
  intros Hb Hlake. unfold reconstruct_watermark_ledger.
  destruct (ba_history _ _ Hb) as (l0 & Hh & _). destruct (history_once _ _ Hh) as [Hnd _].
  pose proof (read_manifests_spec lake c _ _ faults Hlake Hnd) as Hr.
  destruct (faults StSelectManifests) as [msg|]; [rewrite Hr; simpl; by eexists|].
  destruct Hr as (ms & -> & Hms). simpl. destruct (rebuild_synced config s ms Hb Hms) as (l & Hl & Hsy).
  pose proof Hl as Hre. simpl in Hre. destruct (reconstruct ms [] []) as [re|]; [|done].
  injection Hre as <-. simpl. by exists ms.
Qed.

Lemma boot_rest_spec lake (s : LNode) w dconfig port node st scfg lk parts c r :
  base config s → lake_of lake c s → boot_rest w dconfig port node st scfg lk parts c = r →
  not_refused r ∧
  ∀ d, r = Ok d → core_stager (dm_core d) = st ∧
    ∃ ms, ms ≡ₚ w_lake (nd_world s) ∧ wb_rebuild ms = Some (core_ledger (dm_core d)) ∧
          synced (with_ledger (nd_world s) (core_ledger (dm_core d))).
Proof.
  intros Hb Hlake <-. pose proof (recover_spec lake s (bw_faults w) c Hb Hlake) as Hrec.
  unfold boot_rest. destruct (reconstruct_watermark_ledger _ _) as [l|e].
  2: { destruct Hrec as (msg & -> & _). split; [by not_refused|done]. }
  split.
  - unfold duration_setting, serving_config, bind_listener. not_refused.
  - intros d Hd. repeat (case_match; [|done]). by injection Hd as <-.
Qed.

Lemma same_data_lake lake (s : LNode) c c' : same_data c c' → lake_of lake c s → lake_of lake c' s.
Proof. intros [E1 E2 E3] []. split; by rewrite ?E1, ?E2, ?E3. Qed.

(** C2: A boot recovers what the lake holds.  Take any node that is down after any
    sequence of stages, drains, crashes and boots in which the wall clock does not go back
    and no staging call outlasts the lateness hold, and any catalog that represents its lake.  Whatever fails during the boot, it never refuses the lake's record,
    and the catalog's committed data is as it was.  A boot that succeeds is the
    pipeline's boot: the hot store is open, and the ledger, rebuilt from the
    manifests read back, agrees with the lake.  The log table is created with exactly
    the columns of the sealed parts and the types they are staged with, or, if the
    catalog has it already, keeps its columns, types included, and gains those it
    misses by name, appended in order: all of them when the boot succeeds, a first part of
    them, or none, when it fails.  A boot that fails leaves the node down. *)
Theorem boot_recovers (s0 s : LNode) (lake : DuckLakeConfig) (w : BootWorld) (dconfig : DaemonConfig)
    (status_port : N) (db db' : Db) (c c' : Catalog) (r : result Daemon BootError) :
  initial s0 → rtc (prompt_step cfg config) (s0, None) (s, None) → nd_hot s = HotDown db →
  lake_of lake c s →
  boot w dconfig status_port db c = (r, db', c') →
  not_refused r ∧ lake_of lake c' s ∧ log_table_grown c c' ∧
  match r with
  | Ok d =>
      node_step cfg config (s, None) (booted s d, None) ∧ synced (nd_world (booted s d)) ∧
      log_table_whole c c' ∧ core_ready (dm_core d) = false
  | Err _ => rtc (node_step cfg config) (s, None) (set_down s db', None)
  end.
Proof.
  intros Hini Hs Hd Hlake Hboot. assert (log_table_grown c c) as Hsame0 by by left.
  destruct (node_steps_ok cfg config _ _ (initial_ok cfg config s0 Hini) Hs) as [[Hb _] _]. simpl in Hb.
  assert (rtc (node_step cfg config) (s, None) (set_down s db, None)) as Hstay.
  { pose proof (fv_down _ _ (ba_front _ _ Hb) db Hd) as Ec. destruct s as [[h calls now] wd sc ob].
    unfold set_down, nd_hot in *. simpl in *. subst. apply rtc_refl. }
  unfold boot in Hboot. destruct (bw_create_hot w) as [[]|e]; [|by injection Hboot as <- <- <-; split_and!].
  destruct (open _ _ _ db) as [[engine|e] db1] eqn:Ho.
  2: { injection Hboot as <- <- <-. split_and!; try done. apply rtc_once. by eapply StepBootFailed. }
  assert (rtc (node_step cfg config) (s, None) (set_down s db1, None)) as Hdown
    by (apply rtc_once; by eapply StepBootFailed).
  set (settings := (match (match hc_max_bytes (dc_hot dconfig) with Some _ => _ | None => _ end) with
                    | Ok _ => _ | Err _ => _ end : result StagerConfig BootError)) in Hboot.
  assert (not_refused settings) as Hset
    by (unfold settings, stager_config, duration_setting; not_refused).
  clearbody settings. destruct settings as [scfg|e].
  2: { injection Hboot as <- <- <-. by split_and!; [eapply not_refused_Err|..]. }
  destruct (open_lake w dconfig c) as [r1 c1] eqn:El. injection Hboot as <- <- <-.
  destruct (open_lake_spec _ _ _ _ _ El) as (Hsame & Hgrown & Hn & Htab).
  pose proof (same_data_lake _ _ _ _ Hsame Hlake) as Hlake'.
  destruct r1 as [lk|e]; [|by split_and!; [eapply not_refused_Err|..]].
  destruct (boot_rest_spec lake s w dconfig status_port (detect_node_id (bw_env w) (bw_fs w) V01_FIXED_INCARNATION)
    (stager_new engine) scfg lk.1 lk.2 c1 _ Hb Hlake' eq_refl) as [Hnr Hrest].
  split_and!; try done.
  destruct (boot_rest _ _ _ _ _ _ _ _ _) as [d|e] eqn:Er; [|done].
  destruct (Hrest d eq_refl) as (Est & ms & Hms & Hre & Hsy). split_and!; [|done|by apply Htab|].
  - unfold booted. rewrite Est. by eapply StepBoot.
  - unfold boot_rest in Er. repeat (case_match; [|done]). by injection Er as <-.
Qed.
End boot.
