(* ===== verification/BTree.v ===== *)
(** * Ordered maps with compound keys

    The judge keys its [BTreeMap]s by tuples of identifiers and numbers.  A
    [BTreeMap<K, V>] is a [gmap]; iterating it visits the entries in the
    derived [Ord] of [K], which is lexicographic on tuples. *)

From Stdlib Require Import Ascii.
From S2P Require Import Prelude.

(** [K: Ord], as the relation [<=]. *)
Class KeyOrd (K : Type) := ord_le : relation K.

Class KeyOrdLaws (K : Type) `{KeyOrd K} := {
  ord_partial :: PartialOrder (ord_le (K:=K));
  ord_total :: Total (ord_le (K:=K));
  ord_dec :: RelDecision (ord_le (K:=K));
}.

#[global] Instance string_ord : KeyOrd string := String.le.
#[global] Instance N_ord : KeyOrd N := N.le.
#[global] Instance Z_ord : KeyOrd Z := Z.le.

#[global] Instance string_ord_laws : KeyOrdLaws string.
Proof. split; unfold ord_le, string_ord; apply _. Defined.

#[global] Instance N_ord_laws : KeyOrdLaws N.
Proof. split; unfold ord_le, N_ord; apply _. Defined.

#[global] Instance Z_ord_laws : KeyOrdLaws Z.
Proof. split; unfold ord_le, Z_ord; apply _. Defined.

Section lexicographic.
Context {A B : Type} `{EqDecision A, KeyOrdLaws A, KeyOrdLaws B}.

(** The derived [Ord] of a pair. *)
#[global] Instance prod_ord : KeyOrd (A * B) :=
  λ x y, (x.1 ≠ y.1 ∧ ord_le x.1 y.1) ∨ (x.1 = y.1 ∧ ord_le x.2 y.2).

#[global] Instance prod_ord_laws : KeyOrdLaws (A * B).
Proof.
  split.
  - split; [split|].
    + intros x. right. split; [done|]. reflexivity.
    + intros x y z [[Hn Hl]|[He Hl]] [[Hn' Hl']|[He' Hl']].
      * left. split; [|by trans y.1]. intros He. rewrite <-He in Hl'. apply Hn.
        by apply (anti_symm ord_le).
      * left. by rewrite <-He'.
      * left. by rewrite He.
      * right. split; [congruence|]. by trans y.2.
    + intros [x1 x2] [y1 y2] [[Hn Hl]|[He Hl]] [[Hn' Hl']|[He' Hl']]; simpl in *; subst; try done.
      * destruct Hn. by apply (anti_symm ord_le).
      * f_equal. by apply (anti_symm ord_le).
  - intros x y. destruct (decide (x.1 = y.1)) as [E|E].
    + destruct (total ord_le x.2 y.2); [left; by right|right; by right].
    + destruct (total ord_le x.1 y.1); [left; by left|right; left; by split].
  - intros x y. unfold ord_le, prod_ord. apply _.
Defined.
End lexicographic.

Section btree.
Context {K : Type} `{KeyOrdLaws K, Countable K}.

Definition entry_le {V : Type} (x y : K * V) : Prop := ord_le x.1 y.1.

#[global] Instance entry_le_dec {V} : RelDecision (entry_le (V:=V)).
Proof. unfold entry_le. intros ??. apply _. Defined.

(** [BTreeMap::iter] *)
Definition btree_iter {V : Type} (m : gmap K V) : list (K * V) :=
  merge_sort entry_le (map_to_list m).

Lemma btree_iter_perm {V} (m : gmap K V) : btree_iter m ≡ₚ map_to_list m.
Proof. apply merge_sort_Permutation. Qed.

Lemma elem_of_btree_iter {V} (m : gmap K V) k v : (k, v) ∈ btree_iter m ↔ m !! k = Some v.
Proof. by rewrite btree_iter_perm, elem_of_map_to_list. Qed.

Lemma btree_iter_keys {V} (m : gmap K V) : NoDup (btree_iter m).*1.
Proof. rewrite btree_iter_perm. apply NoDup_fst_map_to_list. Qed.

Lemma btree_iter_nil {V} (m : gmap K V) : btree_iter m = [] ↔ m = ∅.
Proof.
  split; [|intros ->; done]. intros E. apply map_to_list_empty_iff, Permutation_nil_r.
  by rewrite <-btree_iter_perm, E.
Qed.

(** [BTreeSet::iter] *)
Definition btree_elements (s : gset K) : list K := merge_sort ord_le (elements s).

Lemma btree_elements_perm (s : gset K) : btree_elements s ≡ₚ elements s.
Proof. apply merge_sort_Permutation. Qed.

Lemma elem_of_btree_elements (s : gset K) k : k ∈ btree_elements s ↔ k ∈ s.
Proof. by rewrite btree_elements_perm, elem_of_elements. Qed.
End btree.

(** A [for] loop that pushes onto the vector stored under a key:
    [map.entry(k).or_default().push(v)]. *)
Definition push_under {K V} `{Countable K} (m : gmap K (list V)) (k : K) (v : V) :
    gmap K (list V) :=
  <[k := default [] (m !! k) ++ [v]]> m.

Section grouping.
Context {A K V : Type} `{Countable K} (key : A → K) (val : A → V).

Definition group_by (l : list A) : gmap K (list V) :=
  foldl (λ m a, push_under m (key a) (val a)) ∅ l.

(** The vector under a key is what the loop met for that key, in order. *)
Lemma group_by_lookup l k :
  default [] (group_by l !! k) = val <$> filter (λ a, key a = k) l.
Proof.
  unfold group_by. induction l as [|a l IH] using rev_ind; [done|].
  rewrite foldl_app, filter_app, fmap_app, <-IH. simpl. unfold push_under.
  destruct (decide (key a = k)) as [<-|Hk].
  - rewrite lookup_insert_eq. rewrite filter_cons_True by done. done.
  - rewrite lookup_insert_ne by done. rewrite filter_cons_False by done. simpl.
    by rewrite app_nil_r.
Qed.

(** No vector is created empty. *)
Lemma group_by_Some l k vs :
  group_by l !! k = Some vs → vs ≠ [] ∧ vs = val <$> filter (λ a, key a = k) l.
Proof.
  intros E. pose proof (group_by_lookup l k) as Hl. rewrite E in Hl. simpl in Hl.
  split; [|done]. clear Hl. revert vs E. unfold group_by.
  induction l as [|a l IH] using rev_ind; intros vs; [done|]. rewrite foldl_app. simpl.
  unfold push_under at 1. destruct (decide (key a = k)) as [<-|Hk].
  - rewrite lookup_insert_eq. intros [= <-]. by destruct (default [] _).
  - rewrite lookup_insert_ne by done. apply IH.
Qed.

Lemma group_by_elem l a : a ∈ l → is_Some (group_by l !! key a).
Proof.
  intros Ha. destruct (group_by l !! key a) eqn:E; [done|].
  pose proof (group_by_lookup l (key a)) as Hl. rewrite E in Hl. simpl in Hl.
  symmetry in Hl. apply fmap_nil_inv in Hl.
  assert (a ∈ filter (λ a', key a' = key a) l) as Hin by (by apply list_elem_of_filter).
  rewrite Hl in Hin. by apply not_elem_of_nil in Hin.
Qed.
End grouping.

(** * A bit-string codec

    A number as the string of its binary digits: the concrete encoding with
    which the witnesses instantiate the JSON libraries. *)

Fixpoint bits (p : positive) : string :=
  match p with
  | xH => "1"
  | xO p => String "0" (bits p)
  | xI p => String "1" (bits p)
  end.

Fixpoint unbits (s : string) : option positive :=
  match s with
  | EmptyString => None
  | String c EmptyString => if Ascii.eqb c "1" then Some xH else None
  | String c s =>
      (λ p, if Ascii.eqb c "1" then xI p else xO p) <$> unbits s
  end.

Lemma unbits_bits p : unbits (bits p) = Some p.
Proof.
  induction p as [p IH|p IH|]; simpl; [| |done]; rewrite IH; by destruct (bits p).
Qed.
