(* ===== verification/Verdict.v ===== *)
(** * The judge's three-valued verdict

    Models [crates/duckspout-judge/src/verdict.rs].  The text of a [NoVerdict]
    reason and of a finding is represented by the case that produces it and the
    values it names; [erase] renders both through [Display]. *)

From S2P Require Import Prelude.

Definition EXIT_PASS : Z := 0.
Definition EXIT_VIOLATION : Z := 2.
Definition EXIT_NO_VERDICT : Z := 3.

(** [Verdict<F>], with the reasons of its [NoVerdict] in [R]. *)
Inductive Verdict (F R : Type) :=
| Pass (checked : nat)
| Violation (findings : list F)
| NoVerdict (reason : R).
Arguments Pass {F R} checked.
Arguments Violation {F R} findings.
Arguments NoVerdict {F R} reason.

(** [Verdict::pass] *)
Definition pass {F R} (checked : nat) (no_evidence : R) : Verdict F R :=
  if (checked =? 0)%nat then NoVerdict no_evidence else Pass checked.

(** [Verdict::exit_code] *)
Definition exit_code {F R} (v : Verdict F R) : Z :=
  match v with
  | Pass _ => EXIT_PASS
  | Violation _ => EXIT_VIOLATION
  | NoVerdict _ => EXIT_NO_VERDICT
  end.

(** [std::fmt::Display] *)
Class Display (A : Type) := to_string : A → string.

#[global] Instance string_display : Display string := λ s, s.

(** [Verdict::erase] *)
Definition erase {F R} `{Display F, Display R} (v : Verdict F R) : Verdict string string :=
  match v with
  | Pass checked => Pass checked
  | Violation findings => Violation (to_string <$> findings)
  | NoVerdict reason => NoVerdict (to_string reason)
  end.

(** [matches!(v, Verdict::Violation(_))] and [matches!(v, Verdict::NoVerdict(_))] *)
Definition is_violation {F R} (v : Verdict F R) : bool :=
  match v with Violation _ => true | _ => false end.
Definition is_no_verdict {F R} (v : Verdict F R) : bool :=
  match v with NoVerdict _ => true | _ => false end.

(** [combined_exit_code] *)
Definition combined_exit_code (verdicts : list (Verdict string string)) : Z :=
  match verdicts with
  | [] => EXIT_NO_VERDICT
  | _ =>
      if existsb is_violation verdicts then EXIT_VIOLATION
      else if existsb is_no_verdict verdicts then EXIT_NO_VERDICT
      else EXIT_PASS
  end.

(** ** What the exit code says *)

Definition passed {F R} (v : Verdict F R) : Prop := ∃ checked, v = Pass checked.

Lemma pass_passed {F R} (n : nat) (r : R) :
  (0 < n)%nat → @pass F R n r = Pass n.
Proof. unfold pass. destruct n; [lia|done]. Qed.

Lemma erase_passed {F R} `{Display F, Display R} (v : Verdict F R) : passed (erase v) ↔ passed v.
Proof. unfold passed. destruct v; simpl; naive_solver. Qed.

Lemma erase_violation {F R} `{Display F, Display R} (v : Verdict F R) :
  is_violation (erase v) = is_violation v.
Proof. by destruct v. Qed.

Lemma existsb_false_Forall {A} (f : A → bool) l :
  existsb f l = false ↔ Forall (λ x, f x = false) l.
Proof.
  induction l as [|x l IH]; simpl; [done|].
  rewrite orb_false_iff, Forall_cons, IH. done.
Qed.

Lemma combined_violation vs :
  combined_exit_code vs = EXIT_VIOLATION ↔ ∃ v, v ∈ vs ∧ is_violation v = true.
Proof.
  transitivity (existsb is_violation vs = true).
  - unfold combined_exit_code. destruct vs as [|v vs]; [done|].
    destruct (existsb is_violation (v :: vs)); [done|].
    by destruct (existsb is_no_verdict (v :: vs)).
  - rewrite existsb_exists. by setoid_rewrite list_elem_of_In.
Qed.

Lemma combined_pass vs :
  combined_exit_code vs = EXIT_PASS ↔ vs ≠ [] ∧ ∀ v, v ∈ vs → passed v.
Proof.
  transitivity (vs ≠ [] ∧ existsb is_violation vs = false ∧ existsb is_no_verdict vs = false).
  - unfold combined_exit_code. destruct vs as [|v vs]; [naive_solver|].
    destruct (existsb is_violation (v :: vs)), (existsb is_no_verdict (v :: vs)); naive_solver.
  - rewrite !existsb_false_Forall, !Forall_forall. split; intros [Hn H]; (split; [done|]).
    + intros v Hv. destruct H as [H1 H2]. specialize (H1 v Hv). specialize (H2 v Hv).
      destruct v; [by eexists|done|done].
    + split; intros v Hv; by destruct (H v Hv) as [n ->].
Qed.
