(* ===== verification/Evidence.v ===== *)
(** * The evidence a judge run reads

    The payload and file formats of [crates/duckspout-judge/src]: journal.rs,
    read_log.rs, fault_ledger.rs, run_manifest.rs, summary.rs and
    final_state.rs.  Decoding JSON text is the work of serde_json and of the
    deserializers serde derives for these types: the class [Serde] has one
    function per [from_str] and [from_value] the judge calls. *)

From S2P Require Import Prelude RustStd Types Ports.

(** ** journal.rs *)

Record RequestIdentity := {
  ri_request_id : string;
  ri_tenant : string;
  ri_record_count : N;
  ri_first_index : N;
  ri_source_incarnation : string;
  ri_partition : option PartitionId;
  ri_max_event_time_ms : option Z;
}.

Record WatermarkClaim := {
  wc_partition : PartitionId;
  wc_complete_through_ms : Z;
}.

Record ChangelogEntry := {
  ce_dataset : DatasetId;
  ce_partition : PartitionId;
  ce_tenant : TenantId;
  ce_changelog_key : string;
  ce_origin : NodeId;
  ce_changelog_seq : N;
  ce_tombstone : bool;
  ce_value : option string;
}.

#[global] Instance ChangelogEntry_eq_dec : EqDecision ChangelogEntry.
Proof. solve_decision. Defined.

#[global] Instance DatasetKind_eq_dec : EqDecision DatasetKind.
Proof. solve_decision. Defined.

Record PartRetention := {
  pr_dataset : DatasetId;
  pr_partition : PartitionId;
  pr_part : PartName;
  pr_part_kind : PartKind;
  pr_dataset_kind : DatasetKind;
  pr_origin_coverage : list OriginSeqRange;
}.

Record JournalLine := {
  jl_source : string;
  jl_line_no : N;
  jl_node : NodeId;
  jl_seq : N;
  jl_event : TraceEvent;
  jl_identity : option RequestIdentity;
  jl_watermark : option WatermarkClaim;
  jl_changelog : option ChangelogEntry;
  jl_part : option PartRetention;
}.

(** [Envelope]: [rest] is whatever the line carries beside the frozen triple. *)
Record Envelope (Value : Type) := {
  env_node : NodeId;
  env_seq : N;
  env_event : TraceEvent;
  env_rest : Value;
}.
Arguments env_node {_} _.
Arguments env_seq {_} _.
Arguments env_event {_} _.
Arguments env_rest {_} _.

(** ** read_log.rs *)

Inductive ReadConcern := Complete | Available.

#[global] Instance ReadConcern_eq_dec : EqDecision ReadConcern.
Proof. solve_decision. Defined.

Inductive ReadOutcome :=
| Served (complete_through_ms : Z) (record_keys : gset string)
| Refused (reason : string).

Record CacheProbe := {
  cp_query : string;
  cp_serving_node : NodeId;
  cp_residency_ops_before : N;
  cp_residency_ops_after : N;
  cp_latency_ms : N;
}.

Record ReadRecord := {
  rr_tenant : string;
  rr_partition : PartitionId;
  rr_concern : ReadConcern;
  rr_outcome : ReadOutcome;
  rr_cache : option CacheProbe;
}.

(** ** fault_ledger.rs *)

Inductive FaultPhase := Armed | Started | Ended.

Record FaultLine := {
  fl_fault_id : string;
  fl_kind : string;
  fl_target_node : string;
  fl_phase : FaultPhase;
  fl_at_ms : N;
}.

(** ** run_manifest.rs *)

Record NodeRun := {
  nr_name : string;
  nr_journal_path : string;
  nr_journal_lines : N;
  nr_last_progress_at_ms : option N;
  nr_exited_early : bool;
}.

Record RunManifest := {
  rm_started_at_ms : N;
  rm_ended_at_ms : N;
  rm_sample_interval_ms : N;
  rm_nodes : list NodeRun;
}.

(** ** summary.rs *)

Record RunSummary := {
  rs_sent : N;
  rs_acked : N;
  rs_timed_out : N;
  rs_rejected : N;
  rs_ambiguous : N;
}.

(** ** final_state.rs *)

Record FixtureRange := {
  fr_tenant : string;
  fr_source_incarnation : string;
  fr_first_index : N;
  fr_count : N;
}.

(** [ServedView]: per tenant, the key-value rows of a [<dataset>_latest] view. *)
Abbreviation ServedView := (gmap string (gmap string string)) (only parsing).

Record CommittedSnapshot := {
  cs_dataset : DatasetId;
  cs_partition : PartitionId;
  cs_part : PartName;
  cs_origin_coverage : list OriginSeqRange;
}.

(** ** serde_json

    [map_access raw] is what a [MapAccess] over the text yields: the top-level
    keys in the order they are written, duplicates included, and the error the
    parse ends in, if it does.  [contains_key] is false of a value that is not
    an object.  An error is its text. *)

Class Serde := {
  Value : Type;
  map_access : string → list string * option string;
  contains_key : Value → string → bool;
  value_from_str : string → result Value string;
  envelope_from_str : string → result (Envelope Value) string;
  identity_from_value : Value → result RequestIdentity string;
  watermark_from_value : Value → result WatermarkClaim string;
  changelog_from_value : Value → result ChangelogEntry string;
  part_from_value : Value → result PartRetention string;
  read_record_from_str : string → result ReadRecord string;
  probe_from_value : Value → result CacheProbe string;
  fault_line_from_str : string → result FaultLine string;
  manifest_from_str : string → result RunManifest string;
  summary_from_str : string → result RunSummary string;
  final_state_from_str : string → result (list FixtureRange) string;
  latest_view_from_str : string → result (gmap DatasetId ServedView) string;
  committed_parts_from_str : string → result (list CommittedSnapshot) string;
}.

(** A decode failure: the library's, or one of those the judge raises itself
    ([serde::de::Error::custom]). *)
Inductive JsonError :=
| Library (text : string)
| DuplicateKey (key : string)
| RangeOverflow (identity : RequestIdentity)
| TombstoneWithValue (entry : ChangelogEntry)
| NoValue (entry : ChangelogEntry)
| NoOriginCoverage (part : PartRetention)
| InvertedRange (part : PartRetention) (bad : OriginSeqRange)
| ProbeBackwards (probe : CacheProbe).

(** A file system: [std::fs::read_to_string]. *)
Definition FileSystem : Type := string → result string string.

(** ** Duplicate keys *)

(** [reject_duplicate_keys]: the visitor's loop over the keys. *)
Fixpoint visit_keys (seen : gset string) (keys : list string) (parse : option string) :
    result unit JsonError :=
  match keys with
  | [] => match parse with None => Ok tt | Some e => Err (Library e) end
  | key :: keys =>
      if decide (key ∈ seen) then Err (DuplicateKey key)
      else visit_keys ({[key]} ∪ seen) keys parse
  end.

Definition reject_duplicate_keys `{Serde} (raw : string) : result unit JsonError :=
  let (keys, parse) := map_access raw in visit_keys ∅ keys parse.

Lemma visit_keys_ok seen keys parse :
  visit_keys seen keys parse = Ok tt ↔
  parse = None ∧ NoDup keys ∧ ∀ k, k ∈ keys → k ∉ seen.
Proof.
  revert seen. induction keys as [|k keys IH]; intros seen; simpl.
  - destruct parse; split; try naive_solver. intros _.
    split_and!; [done|constructor|set_solver].
  - case_decide as Hk; [set_solver|]. rewrite IH, NoDup_cons. split.
    + intros (-> & Hnd & Hs). split_and!; [done| |done|].
      * intros Hin. specialize (Hs k Hin). set_solver.
      * intros k' [->|Hk']%elem_of_cons; [done|]. specialize (Hs k' Hk'). set_solver.
    + intros (-> & [Hin Hnd] & Hs). split_and!; [done..|]. intros k' Hk'.
      assert (k' ≠ k) by (by intros ->). specialize (Hs k'). set_solver.
Qed.

(** A line passes exactly when it parses to its end and no key repeats. *)
Lemma reject_duplicate_keys_ok `{Serde} raw :
  reject_duplicate_keys raw = Ok tt ↔ (map_access raw).2 = None ∧ NoDup (map_access raw).1.
Proof.
  unfold reject_duplicate_keys. destruct (map_access raw) as [keys parse].
  rewrite visit_keys_ok. set_solver.
Qed.
