(* ===== verification/Journal.v ===== *)
(** * Journal ingestion

    Models [crates/duckspout-judge/src/journal.rs]: the payload decoders, the
    per-file parse with its seq-density check, the cross-file check, and the
    accessors the predicates read evidence through. *)

From S2P Require Import Prelude RustStd Types Ports Evidence.

(** [JournalSet]: every decoded line, in ingestion order. *)
Record JournalSet := { js_lines : list JournalLine }.

(** ** Accessors *)

(** [JournalSet::identity_events] *)
Definition identity_events (journals : JournalSet) (event : TraceEvent) :
    list (JournalLine * RequestIdentity) :=
  omap (λ line, if decide (jl_event line = event)
                then (λ identity, (line, identity)) <$> jl_identity line else None)
    (js_lines journals).

(** [JournalSet::watermark_claims] *)
Definition watermark_claims (journals : JournalSet) : list (JournalLine * WatermarkClaim) :=
  omap (λ line, (λ claim, (line, claim)) <$> jl_watermark line) (js_lines journals).

(** [JournalSet::part_events] *)
Definition part_events (journals : JournalSet) (event : TraceEvent) :
    list (JournalLine * PartRetention) :=
  omap (λ line, if decide (jl_event line = event)
                then (λ part, (line, part)) <$> jl_part line else None)
    (js_lines journals).

(** [JournalSet::changelog_events] *)
Definition changelog_events (journals : JournalSet) (event : TraceEvent) :
    list (JournalLine * ChangelogEntry) :=
  omap (λ line, if decide (jl_event line = event)
                then (λ entry, (line, entry)) <$> jl_changelog line else None)
    (js_lines journals).

(** [JournalSet::residency_action_count] *)
Definition residency_action_count (journals : JournalSet) : nat :=
  length (filter (λ line, jl_event line = EvDemote ∨ jl_event line = EvEvict ∨
                          jl_event line = EvDropWindow) (js_lines journals)).

(** ** Decoding *)

Inductive JournalError :=
| JournalIo (path : string) (source : string)
| JournalDecode (path : string) (line_no : N) (source : JsonError)
| NonDenseSeq (path : string) (line_no : N) (node : NodeId) (expected got : N).

Section decoding.
Context `{Serde}.

Definition library {A} (r : result A string) : result A JsonError := map_err Library r.

(** [identity_from_rest] *)
Definition identity_from_rest (rest : Value) : result (option RequestIdentity) JsonError :=
  if contains_key rest "request_id" then
    let? identity := library (identity_from_value rest) in
    if (ri_first_index identity + ri_record_count identity <=? u64_max)%N
    then Ok (Some identity) else Err (RangeOverflow identity)
  else Ok None.

(** [watermark_from_rest] *)
Definition watermark_from_rest (rest : Value) : result (option WatermarkClaim) JsonError :=
  if contains_key rest "complete_through_ms" then
    let? claim := library (watermark_from_value rest) in Ok (Some claim)
  else Ok None.

(** [changelog_from_rest] *)
Definition changelog_from_rest (rest : Value) : result (option ChangelogEntry) JsonError :=
  if contains_key rest "changelog_key" then
    let? entry := library (changelog_from_value rest) in
    match ce_tombstone entry, ce_value entry with
    | true, Some _ => Err (TombstoneWithValue entry)
    | false, None => Err (NoValue entry)
    | _, _ => Ok (Some entry)
    end
  else Ok None.

(** [part_from_rest] *)
Definition part_from_rest (rest : Value) : result (option PartRetention) JsonError :=
  if contains_key rest "part" then
    let? part := library (part_from_value rest) in
    match pr_origin_coverage part with
    | [] => Err (NoOriginCoverage part)
    | coverage =>
        match find (λ range, last_seq range <? first_seq range)%N coverage with
        | Some bad => Err (InvertedRange part bad)
        | None => Ok (Some part)
        end
    end
  else Ok None.

(** The payloads of one line, after its seq was accepted. *)
Definition line_of (path : string) (line_no : N) (envelope : Envelope Value) :
    result JournalLine JsonError :=
  let? identity := identity_from_rest (env_rest envelope) in
  let? watermark := watermark_from_rest (env_rest envelope) in
  let? changelog := changelog_from_rest (env_rest envelope) in
  let? part := part_from_rest (env_rest envelope) in
  Ok {| jl_source := path; jl_line_no := line_no; jl_node := env_node envelope;
        jl_seq := env_seq envelope; jl_event := env_event envelope; jl_identity := identity;
        jl_watermark := watermark; jl_changelog := changelog; jl_part := part |}.

(** The duplicate-key pass and the envelope of one line. *)
Definition envelope_of (raw : string) : result (Envelope Value) JsonError :=
  let? _ := reject_duplicate_keys raw in library (envelope_from_str raw).

(** The loop of [parse_journal_file]. *)
Fixpoint parse_lines (path : string) (line_no : N) (next_seq : gmap NodeId N)
    (raws : list string) : result (list JournalLine) JournalError :=
  match raws with
  | [] => Ok []
  | raw :: raws =>
      let? envelope := map_err (JournalDecode path line_no) (envelope_of raw) in
      let expected := default 0%N (next_seq !! env_node envelope) in
      if (env_seq envelope =? expected)%N then
        let? line := map_err (JournalDecode path line_no) (line_of path line_no envelope) in
        let? lines := parse_lines path (line_no + 1)
                        (<[env_node envelope := u64_succ expected]> next_seq) raws in
        Ok (line :: lines)
      else Err (NonDenseSeq path line_no (env_node envelope) expected (env_seq envelope))
  end.

(** [parse_journal_file] *)
Definition parse_journal_file (fs : FileSystem) (path : string) :
    result (list JournalLine) JournalError :=
  let? text := map_err (JournalIo path) (fs path) in
  parse_lines path 1 ∅ (str_lines text).

(** [check_cross_file_density] *)
Fixpoint check_density (next_seq : gmap NodeId N) (lines : list JournalLine) :
    result unit JournalError :=
  match lines with
  | [] => Ok tt
  | line :: lines =>
      let expected := default 0%N (next_seq !! jl_node line) in
      if (jl_seq line =? expected)%N then
        check_density (<[jl_node line := u64_succ expected]> next_seq) lines
      else Err (NonDenseSeq (jl_source line) (jl_line_no line) (jl_node line) expected
                  (jl_seq line))
  end.

Definition check_cross_file_density (lines : list JournalLine) : result unit JournalError :=
  check_density ∅ lines.

(** The file loop of [ingest_journals]. *)
Fixpoint parse_files (fs : FileSystem) (paths : list string) :
    result (list JournalLine) JournalError :=
  match paths with
  | [] => Ok []
  | path :: paths =>
      let? lines := parse_journal_file fs path in
      let? rest := parse_files fs paths in
      Ok (lines ++ rest)
  end.

(** [ingest_journals] *)
Definition ingest_journals (fs : FileSystem) (paths : list string) :
    result JournalSet JournalError :=
  let? lines := parse_files fs paths in
  let? _ := check_cross_file_density lines in
  Ok {| js_lines := lines |}.
End decoding.

(** ** What ingestion establishes *)

(** The lines a node journaled. *)
Definition of_node (node : NodeId) (lines : list JournalLine) : list JournalLine :=
  filter (λ line, jl_node line = node) lines.

(** Each line continues its node's dense, zero-based sequence of [u64]s. *)
Definition dense (lines : list JournalLine) : Prop :=
  ∀ i line, lines !! i = Some line →
    jl_seq line = (N.of_nat (length (of_node (jl_node line) (take i lines))) mod 2 ^ 64)%N.

(** A journal line decoded by the rules of the format. *)
Record line_wf (line : JournalLine) : Prop := {
  lwf_identity identity : jl_identity line = Some identity →
    (ri_first_index identity + ri_record_count identity ≤ u64_max)%N;
  lwf_changelog entry : jl_changelog line = Some entry →
    ce_tombstone entry = true ↔ ce_value entry = None;
  lwf_part part : jl_part line = Some part →
    pr_origin_coverage part ≠ [] ∧
    ∀ range, range ∈ pr_origin_coverage part → (first_seq range ≤ last_seq range)%N;
}.

Lemma map_err_ok {A E F} (f : E → F) (r : result A E) a : map_err f r = Ok a ↔ r = Ok a.
Proof. destruct r; naive_solver. Qed.

(** Peels one [let?] off a computation known to succeed. *)
Ltac let_ok H :=
  match type of H with
  | match ?r with Ok _ => _ | Err _ => _ end = Ok _ =>
      let E := fresh "E" in destruct r eqn:E in H; [|done]
  end.

(** The sequence map after some lines: each node's next seq. *)
Definition seqs_after (lines : list JournalLine) (next_seq : gmap NodeId N) : Prop :=
  ∀ node, default 0%N (next_seq !! node) =
    (N.of_nat (length (of_node node lines)) mod 2 ^ 64)%N.

Lemma seqs_after_nil : seqs_after [] ∅.
Proof. intros node. by rewrite lookup_empty. Qed.

Lemma of_node_snoc node lines line :
  length (of_node node (lines ++ [line])) =
  (length (of_node node lines) + if decide (jl_node line = node) then 1 else 0)%nat.
Proof.
  unfold of_node. rewrite filter_app, length_app. f_equal. rewrite filter_cons. by case_decide.
Qed.

Lemma seqs_after_snoc lines line next_seq :
  seqs_after lines next_seq →
  seqs_after (lines ++ [line])
    (<[jl_node line := u64_succ (default 0%N (next_seq !! jl_node line))]> next_seq).
Proof.
  intros Hs node. rewrite of_node_snoc. case_decide as E.
  - subst. rewrite lookup_insert_eq, Hs. simpl. rewrite u64_succ_mod. do 2 f_equal. lia.
  - rewrite lookup_insert_ne, Hs by done. do 2 f_equal. lia.
Qed.

Lemma dense_snoc lines line :
  dense (lines ++ [line]) ↔
  dense lines ∧ jl_seq line = (N.of_nat (length (of_node (jl_node line) lines)) mod 2 ^ 64)%N.
Proof.
  unfold dense. split.
  - intros Hd. split.
    + intros i l Hi. rewrite (Hd i l) by (by apply lookup_app_l_Some).
      rewrite take_app_le; [done|]. apply lookup_lt_Some in Hi. lia.
    + rewrite (Hd (length lines) line) by (by rewrite list_lookup_middle).
      by rewrite take_app_length.
  - intros [Hd Hl] i l [Hi|[Hge Hi]]%lookup_app_Some.
    + rewrite (Hd i l Hi). rewrite take_app_le; [done|]. apply lookup_lt_Some in Hi. lia.
    + apply list_lookup_singleton_Some in Hi as [Hz <-].
      assert (i = length lines) as -> by lia. by rewrite take_app_length.
Qed.

Lemma dense_prefix lines lines' : dense (lines ++ lines') → dense lines.
Proof.
  induction lines' as [|l lines' IH] using rev_ind; [by rewrite app_nil_r|].
  rewrite app_assoc, dense_snoc. intros [Hd _]. auto.
Qed.

Lemma check_density_spec lines0 next_seq lines :
  dense lines0 → seqs_after lines0 next_seq →
  check_density next_seq lines = Ok tt ↔ dense (lines0 ++ lines).
Proof.
  revert lines0 next_seq. induction lines as [|line lines IH]; intros lines0 next_seq Hd Hs; simpl.
  - by rewrite app_nil_r.
  - rewrite (Hs (jl_node line)). rewrite (cons_middle line), app_assoc.
    destruct (N.eqb_spec (jl_seq line)
      (N.of_nat (length (of_node (jl_node line) lines0)) mod 2 ^ 64)) as [E|E].
    + rewrite <-(Hs (jl_node line)). apply IH; [by apply dense_snoc|by apply seqs_after_snoc].
    + split; [done|]. intros Hdd. apply dense_prefix, dense_snoc in Hdd. naive_solver.
Qed.

Lemma of_node_all node lines : (∀ l, l ∈ lines → jl_node l = node) → of_node node lines = lines.
Proof.
  unfold of_node. induction lines as [|l lines IH]; [done|]. intros Hn.
  rewrite filter_cons_True by (apply Hn; by left). f_equal. apply IH. intros. apply Hn. by right.
Qed.

Lemma of_node_none node lines : (∀ l, l ∈ lines → jl_node l ≠ node) → of_node node lines = [].
Proof.
  unfold of_node. induction lines as [|l lines IH]; [done|]. intros Hn.
  rewrite filter_cons_False by (apply Hn; by left). apply IH. intros. apply Hn. by right.
Qed.

(** The journal of one node, numbered from 0. *)
Lemma dense_numbered node lines :
  (∀ i line, lines !! i = Some line → jl_node line = node ∧ jl_seq line = (N.of_nat i mod 2 ^ 64)%N) →
  dense lines.
Proof.
  intros Hn i line Hi. destruct (Hn _ _ Hi) as [-> ->]. do 2 f_equal.
  assert (of_node node (take i lines) = take i lines) as ->.
  { apply of_node_all. intros l (j & Hj)%list_elem_of_lookup.
    apply lookup_take_Some in Hj as [Hj _]. by apply (Hn j). }
  rewrite length_take. apply lookup_lt_Some in Hi. lia.
Qed.

(** Journals of nodes of their own. *)
Lemma dense_app_apart lines lines' :
  dense lines → dense lines' → (∀ l, l ∈ lines' → of_node (jl_node l) lines = []) →
  dense (lines ++ lines').
Proof.
  intros Hd Hd' Hap i line [Hi|[Hge Hi]]%lookup_app_Some.
  - rewrite (Hd i line Hi), take_app_le; [done|]. apply lookup_lt_Some in Hi. lia.
  - rewrite (Hd' _ _ Hi), take_app_ge by lia. unfold of_node in *. rewrite filter_app.
    by rewrite Hap by (by eapply list_elem_of_lookup_2).
Qed.

Lemma dense_concat nodes files :
  Forall2 (λ node lines, dense lines ∧ ∀ l, l ∈ lines → jl_node l = node) nodes files → NoDup nodes →
  dense (concat files).
Proof.
  induction 1 as [|node lines nodes files [Hd Hn] Hf IH]; simpl; [by intros _ i ? ?|].
  intros [Hni Hnd]%NoDup_cons. apply dense_app_apart; [done|by apply IH|].
  intros l (ls & Hls & Hl)%list_elem_of_In%in_concat.
  apply list_elem_of_In in Hls, Hl. apply of_node_none. intros l' Hl' E.
  apply Hni. rewrite <-(Hn _ Hl'), E. apply list_elem_of_lookup in Hls as (i & Hi).
  destruct (Forall2_lookup_r _ _ _ _ _ Hf Hi) as (node' & Hi' & _ & Hn'). rewrite (Hn' _ Hl).
  by eapply list_elem_of_lookup_2.
Qed.

Section ingestion.
Context `{Serde}.

Lemma identity_from_rest_wf rest identity :
  identity_from_rest rest = Ok (Some identity) →
  (ri_first_index identity + ri_record_count identity ≤ u64_max)%N.
Proof.
  unfold identity_from_rest. intros E. case_if; [|done]. let_ok E. case_if; naive_solver.
Qed.

Lemma changelog_from_rest_wf rest entry :
  changelog_from_rest rest = Ok (Some entry) → ce_tombstone entry = true ↔ ce_value entry = None.
Proof.
  unfold changelog_from_rest. intros E. case_if; [|done]. let_ok E.
  destruct (ce_tombstone a) eqn:Et, (ce_value a) eqn:Ev; simplify_eq; rewrite ?Et, ?Ev; naive_solver.
Qed.

Lemma part_from_rest_wf rest part :
  part_from_rest rest = Ok (Some part) →
  pr_origin_coverage part ≠ [] ∧
  ∀ range, range ∈ pr_origin_coverage part → (first_seq range ≤ last_seq range)%N.
Proof.
  unfold part_from_rest. intros E. case_if; [|done]. let_ok E.
  destruct (pr_origin_coverage a) as [|r l] eqn:Ec; [done|]. rewrite <-Ec in E.
  destruct (find _ _) eqn:Ef; [done|]. simplify_eq. split; [by rewrite Ec|].
  intros range Hr%list_elem_of_In. pose proof (find_none _ _ Ef range Hr) as Hn.
  by apply N.ltb_ge in Hn.
Qed.

Lemma line_of_wf path n envelope line :
  line_of path n envelope = Ok line →
  line_wf line ∧ jl_source line = path ∧ jl_line_no line = n ∧
  jl_node line = env_node envelope ∧ jl_seq line = env_seq envelope.
Proof.
  unfold line_of. intros E. repeat let_ok E. simplify_eq. simpl. split_and!; [|done..].
  split; simpl; intros ? ->.
  - by eapply identity_from_rest_wf.
  - by eapply changelog_from_rest_wf.
  - by eapply part_from_rest_wf.
Qed.

(** The payload a line has under [key]: what the library decodes, where it is valid;
    without the key, none. *)
Definition payload {A} (rest : Value) (key : string) (decode : Value → result A string)
    (valid : A → Prop) (o : option A) : Prop :=
  if contains_key rest key then ∃ a, decode rest = Ok a ∧ valid a ∧ o = Some a else o = None.

Definition identity_valid (identity : RequestIdentity) : Prop :=
  (ri_first_index identity + ri_record_count identity ≤ u64_max)%N.

Definition changelog_valid (entry : ChangelogEntry) : Prop :=
  ce_tombstone entry = true ↔ ce_value entry = None.

Definition part_valid (part : PartRetention) : Prop :=
  pr_origin_coverage part ≠ [] ∧
  ∀ range, range ∈ pr_origin_coverage part → (first_seq range ≤ last_seq range)%N.

(** One line of text and the line it decodes to: the text is one JSON object, whose
    keys are all different, with the fields of an envelope; the line is the envelope
    and its valid payloads. *)
Definition decodes (path : string) (n : N) (raw : string) (line : JournalLine) : Prop :=
  (map_access raw).2 = None ∧ NoDup (map_access raw).1 ∧
  ∃ envelope, envelope_from_str raw = Ok envelope ∧
    jl_source line = path ∧ jl_line_no line = n ∧ jl_node line = env_node envelope ∧
    jl_seq line = env_seq envelope ∧ jl_event line = env_event envelope ∧
    payload (env_rest envelope) "request_id" identity_from_value identity_valid (jl_identity line) ∧
    payload (env_rest envelope) "complete_through_ms" watermark_from_value (λ _, True) (jl_watermark line) ∧
    payload (env_rest envelope) "changelog_key" changelog_from_value changelog_valid (jl_changelog line) ∧
    payload (env_rest envelope) "part" part_from_value part_valid (jl_part line).

(** The decoders accept exactly the valid payloads. *)
Lemma identity_payload rest o :
  identity_from_rest rest = Ok o ↔ payload rest "request_id" identity_from_value identity_valid o.
Proof.
  unfold identity_from_rest, payload, identity_valid. case_match; [|naive_solver].
  destruct (identity_from_value rest) as [a|]; simpl; [|naive_solver].
  destruct (N.leb_spec (ri_first_index a + ri_record_count a) u64_max); naive_solver lia.
Qed.

Lemma watermark_payload rest o :
  watermark_from_rest rest = Ok o ↔
  payload rest "complete_through_ms" watermark_from_value (λ _, True) o.
Proof.
  unfold watermark_from_rest, payload. case_match; [|naive_solver].
  destruct (watermark_from_value rest); simpl; naive_solver.
Qed.

Lemma changelog_payload rest o :
  changelog_from_rest rest = Ok o ↔ payload rest "changelog_key" changelog_from_value changelog_valid o.
Proof.
  split.
  - intros E. pose proof (changelog_from_rest_wf rest) as Hwf. unfold payload, changelog_from_rest in *.
    case_match; [|naive_solver]. destruct (changelog_from_value rest) as [a|]; simpl in *; [|done].
    destruct (ce_tombstone a) eqn:Et, (ce_value a) eqn:Ev; simplify_eq; exists a;
      unfold changelog_valid; rewrite Et, Ev; naive_solver.
  - unfold payload, changelog_from_rest, changelog_valid. case_match; [|naive_solver].
    intros (a & -> & Hv & ->). simpl. destruct (ce_tombstone a), (ce_value a); naive_solver.
Qed.

Lemma part_payload rest o :
  part_from_rest rest = Ok o ↔ payload rest "part" part_from_value part_valid o.
Proof.
  split.
  - intros E. assert (∀ part, o = Some part → part_valid part) as Hwf
      by (intros part ->; by eapply part_from_rest_wf).
    unfold payload. unfold part_from_rest in E. case_match; [|naive_solver].
    destruct (part_from_value rest) as [a|]; simpl in *; [|done].
    repeat (case_match; try done); simplify_eq; eauto.
  - unfold payload, part_from_rest. case_match; [|naive_solver].
    intros (a & -> & [Hne Hall] & ->). simpl.
    assert (find (λ range, last_seq range <? first_seq range)%N (pr_origin_coverage a) = None) as Ef.
    { destruct (find _ _) as [bad|] eqn:Ef; [|done]. apply find_some in Ef as [Hin Hlt].
      apply list_elem_of_In, Hall in Hin. apply N.ltb_lt in Hlt. lia. }
    destruct (pr_origin_coverage a) as [|r l]; [done|]. simpl in Ef. by rewrite Ef.
Qed.

(** The code's two passes over a line accept exactly what it specifies. *)
Lemma decodes_spec path n raw line :
  decodes path n raw line ↔
  ∃ envelope, envelope_of raw = Ok envelope ∧ line_of path n envelope = Ok line.
Proof.
  assert (∀ envelope, envelope_of raw = Ok envelope ↔
    (map_access raw).2 = None ∧ NoDup (map_access raw).1 ∧ envelope_from_str raw = Ok envelope) as Henv.
  { intros envelope. unfold envelope_of.
    destruct (reject_duplicate_keys raw) as [[]|e] eqn:Er.
    - apply reject_duplicate_keys_ok in Er as [? ?]. simpl.
      destruct (envelope_from_str raw); simpl; naive_solver.
    - split; [done|]. intros (? & ? & _). assert (reject_duplicate_keys raw = Ok tt) as E'
        by (by apply reject_duplicate_keys_ok). congruence. }
  setoid_rewrite Henv. unfold decodes, line_of. split.
  - intros (Hp & Hk & envelope & He & <- & <- & Hn & Hq & Hev & Hi%identity_payload & Hw%watermark_payload
      & Hc%changelog_payload & Hpt%part_payload).
    exists envelope. split; [done|]. rewrite Hi, Hw, Hc, Hpt. simpl. rewrite <-Hn, <-Hq, <-Hev. by destruct line.
  - intros (envelope & (Hp & Hk & He) & E). repeat let_ok E. simplify_eq. split_and!; [done..|].
    exists envelope. simpl. split_and!; [done..| | | |];
      [by apply identity_payload|by apply watermark_payload|by apply changelog_payload|by apply part_payload].
Qed.

(** The lines of one file, numbered from [n]. *)
Definition decodes_from (path : string) (n : N) (raws : list string)
    (lines : list JournalLine) : Prop :=
  length raws = length lines ∧
  ∀ i raw line, raws !! i = Some raw → lines !! i = Some line →
    decodes path (n + N.of_nat i) raw line.

Lemma decodes_from_cons path n raw raws line lines :
  decodes_from path n (raw :: raws) (line :: lines) ↔
  decodes path n raw line ∧ decodes_from path (n + 1) raws lines.
Proof.
  unfold decodes_from. simpl. split.
  - intros [Hl Hd]. split; [|split; [lia|]].
    + specialize (Hd 0%nat raw line). rewrite N.add_0_r in Hd. auto.
    + intros i r l Hr Hli. specialize (Hd (S i) r l Hr Hli).
      by replace (n + 1 + N.of_nat i)%N with (n + N.of_nat (S i))%N by lia.
  - intros [Hd [Hl Hr]]. split; [lia|]. intros [|i] r l; simpl.
    + intros [= <-] [= <-]. by rewrite N.add_0_r.
    + intros Hi Hli. specialize (Hr i r l Hi Hli).
      by replace (n + N.of_nat (S i))%N with (n + 1 + N.of_nat i)%N by lia.
Qed.

Lemma parse_lines_spec path n lines0 next_seq raws lines :
  dense lines0 → seqs_after lines0 next_seq →
  parse_lines path n next_seq raws = Ok lines ↔
  decodes_from path n raws lines ∧ dense (lines0 ++ lines).
Proof.
  revert n lines0 next_seq lines.
  induction raws as [|raw raws IH]; intros n lines0 next_seq lines Hd Hs; simpl.
  - split.
    + intros [= <-]. rewrite app_nil_r. by split.
    + intros [[Hl _] _]. symmetry in Hl. apply nil_length_inv in Hl. by subst.
  - destruct lines as [|line lines].
    + split; [|by intros [[? _] _]]. intros E. let_ok E. case_if; [|done]. by repeat let_ok E.
    + rewrite decodes_from_cons, (cons_middle line), app_assoc, decodes_spec.
      destruct (envelope_of raw) as [envelope|] eqn:Ee; simpl; [|naive_solver].
      destruct (line_of path n envelope) as [line'|] eqn:El; simpl.
      2:{ case_if; (split; [done|]); intros [[(? & [= <-] & El') _] _]; congruence. }
      pose proof (line_of_wf _ _ _ _ El) as (_ & _ & _ & Hn & Hq). rewrite <-Hn, <-Hq.
      rewrite (Hs (jl_node line')).
      destruct (N.eqb_spec (jl_seq line')
        (N.of_nat (length (of_node (jl_node line') lines0)) mod 2 ^ 64)) as [E|E].
      * rewrite <-(Hs (jl_node line')).
        specialize (IH (n + 1)%N (lines0 ++ [line']) _ lines
          ltac:(by apply dense_snoc) (seqs_after_snoc _ line' _ Hs)).
        split.
        -- intros Hp. let_ok Hp. simplify_eq. apply IH in E0 as [??].
           split; [split; [|done]|done]. eauto.
        -- intros [[(? & [= <-] & El') Hdf] Hdd]. rewrite El in El'. simplify_eq.
           destruct IH as [_ IH]. by rewrite IH.
      * split; [done|]. intros [[(? & [= <-] & El') _] Hdd]. rewrite El in El'. simplify_eq.
        apply dense_prefix, dense_snoc in Hdd. naive_solver.
Qed.

Lemma dense_nil : dense [].
Proof. intros i line Hi. by rewrite lookup_nil in Hi. Qed.

(** One file: readable, every line decodes, and the file is dense on its own. *)
Definition file_ok (fs : FileSystem) (path : string) (lines : list JournalLine) : Prop :=
  (∃ text, fs path = Ok text ∧ decodes_from path 1 (str_lines text) lines) ∧ dense lines.

Lemma parse_journal_file_spec fs path lines :
  parse_journal_file fs path = Ok lines ↔ file_ok fs path lines.
Proof.
  unfold parse_journal_file, file_ok. destruct (fs path) as [text|] eqn:Ef; simpl; [|naive_solver].
  rewrite (parse_lines_spec _ _ [] ∅) by (apply dense_nil || apply seqs_after_nil).
  naive_solver.
Qed.

Lemma parse_files_spec fs paths lines :
  parse_files fs paths = Ok lines ↔
  ∃ files, Forall2 (file_ok fs) paths files ∧ lines = concat files.
Proof.
  revert lines. induction paths as [|path paths IH]; intros lines; simpl.
  - split; [intros [= <-]; by exists []|]. by intros (files & ->%Forall2_nil_inv_l & ->).
  - destruct (parse_journal_file fs path) as [ls|] eqn:E.
    + apply parse_journal_file_spec in E as Hok. split.
      * intros Hp. let_ok Hp. simplify_eq. apply IH in E0 as (files & Hf & ->).
        exists (ls :: files). split; [by constructor|done].
      * intros (files & Hf & ->). apply Forall2_cons_inv_l in Hf as (ls' & files' & Hl & Hf & ->).
        apply parse_journal_file_spec in Hl. rewrite Hl in E. simplify_eq.
        destruct (IH (concat files')) as [_ ->]; [done|eauto].
    + split; [done|]. intros (files & Hf & ->).
      apply Forall2_cons_inv_l in Hf as (ls' & files' & Hl & Hf & ->).
      apply parse_journal_file_spec in Hl. congruence.
Qed.

Lemma ingest_spec fs paths journals :
  ingest_journals fs paths = Ok journals ↔
  ∃ files, Forall2 (file_ok fs) paths files ∧ js_lines journals = concat files ∧
           dense (js_lines journals).
Proof.
  unfold ingest_journals. split.
  - intros E. let_ok E. let_ok E. simplify_eq. apply parse_files_spec in E0 as (files & Hf & ->).
    destruct a0. apply (check_density_spec [] ∅) in E1; [|apply dense_nil|apply seqs_after_nil].
    by exists files.
  - intros (files & Hf & Hl & Hd).
    destruct (parse_files_spec fs paths (js_lines journals)) as [_ ->]; [|eauto].
    unfold check_cross_file_density.
    destruct (check_density_spec [] ∅ (js_lines journals) dense_nil seqs_after_nil) as [_ ->]; [|done].
    by destruct journals.
Qed.

(** ** One journal per node *)

Lemma first_of_node node lines :
  of_node node lines ≠ [] →
  ∃ before line after, lines = before ++ line :: after ∧ jl_node line = node ∧
    of_node node before = [].
Proof.
  induction lines as [|l lines IH]; [done|]. unfold of_node in *. rewrite filter_cons.
  case_decide as Hl.
  - intros _. by exists [], l, lines.
  - intros (before & line & after & -> & Hn & Hb)%IH. exists (l :: before), line, after.
    split_and!; [done..|]. by rewrite filter_cons_False.
Qed.

Lemma dense_apart node lines lines' :
  dense (lines ++ lines') → dense lines' → (N.of_nat (length lines) < 2 ^ 64)%N →
  of_node node lines ≠ [] → of_node node lines' = [].
Proof.
  intros Hd Hd' Hlen Hn. destruct (decide (of_node node lines' = [])) as [|Hn']; [done|].
  apply first_of_node in Hn' as (before & line & after & -> & Hl & Hb). exfalso.
  pose proof (Hd' (length before) line) as H0. rewrite list_lookup_middle in H0 by done.
  pose proof (Hd (length (lines ++ before)) line) as H1.
  rewrite app_assoc, list_lookup_middle in H1 by done.
  rewrite H0 in H1 by done. specialize (H1 eq_refl). revert H1. rewrite !take_app_length, Hl, Hb.
  assert (length (of_node node (lines ++ before)) = length (of_node node lines)) as ->.
  { unfold of_node in *. by rewrite filter_app, Hb, app_nil_r. }
  pose proof (length_filter (λ line, jl_node line = node) lines) as Hf.
  destruct (of_node node lines) eqn:E; [done|]. unfold of_node in E. rewrite E in Hf.
  simpl length in *. rewrite N.mod_small, N.mod_small by lia. lia.
Qed.

Lemma dense_concat_apart node files i j f g :
  dense (concat files) → Forall dense files → (N.of_nat (length (concat files)) < 2 ^ 64)%N →
  files !! i = Some f → files !! j = Some g → (i < j)%nat →
  of_node node f ≠ [] → of_node node g = [].
Proof.
  intros Hd Hall Hlen Hi Hj Hij Hf.
  assert (dense g) as Hg by (by eapply Forall_lookup_1).
  pose proof (take_drop_middle files j g Hj) as Es. rewrite <-Es, concat_app in Hd, Hlen.
  simpl in *. rewrite app_assoc in Hd, Hlen. apply dense_prefix in Hd.
  rewrite !length_app in Hlen.
  apply (dense_apart node (concat (take j files))); [done..|lia|].
  assert (take j files !! i = Some f) as Hi' by (by rewrite lookup_take_lt).
  apply take_drop_middle in Hi'. rewrite <-Hi', concat_app. simpl. unfold of_node in *.
  rewrite !filter_app. intros [_ [? _]%app_nil]%app_nil. done.
Qed.

(** A journal file is evidence once: when ingestion accepts a run of fewer
    than [2^64] lines, no node has lines in two of the ingested files, so a
    file passed twice, or a journal split over two files, is refused. *)
Theorem ingest_one_journal_per_node fs paths journals :
  ingest_journals fs paths = Ok journals →
  (N.of_nat (length (js_lines journals)) < 2 ^ 64)%N →
  ∃ files, Forall2 (file_ok fs) paths files ∧ js_lines journals = concat files ∧
    ∀ i j f g node, files !! i = Some f → files !! j = Some g →
      of_node node f ≠ [] → of_node node g ≠ [] → i = j.
Proof.
  intros (files & Hf & Hl & Hd)%ingest_spec Hlen. exists files. split_and!; [done..|].
  rewrite Hl in Hd, Hlen.
  assert (Forall dense files) as Hall.
  { apply Forall_lookup_2. intros k x Hk. destruct (Forall2_lookup_r _ _ _ _ _ Hf Hk) as (? & _ & H1).
    apply H1. }
  intros i j f g node Hi Hj Hnf Hng. destruct (lt_eq_lt_dec i j) as [[Hlt|]|Hlt]; [|done|].
  - destruct Hng. by eapply (dense_concat_apart node files i j f g).
  - destruct Hnf. by eapply (dense_concat_apart node files j i g f).
Qed.

(** C38: Ingestion fails closed and skips nothing: it succeeds exactly when every
    file is readable, every line of text of every file decodes to one journal
    line, in order and numbered from 1, each file's seqs are dense from 0 per node,
    and so are the seqs of all the files together.  That a line decodes says that
    its text is one JSON object to the end, that no key is written twice in it, that
    it has the envelope's fields, which are the line's, and that each payload whose
    key it has is decoded and valid: an identity whose record range does not
    overflow, a changelog entry that is a tombstone exactly when it has no value, a
    part with at least one arrival range and no inverted one. *)
Theorem ingest_exact fs paths journals :
  ingest_journals fs paths = Ok journals ↔
  ∃ files, Forall2 (file_ok fs) paths files ∧ js_lines journals = concat files ∧
           dense (js_lines journals).
Proof. apply ingest_spec. Qed.

Lemma ingested_line_wf fs paths journals line :
  ingest_journals fs paths = Ok journals → line ∈ js_lines journals → line_wf line.
Proof.
  intros (files & Hf & Hl & Hd)%ingest_spec. rewrite Hl.
  rewrite list_elem_of_In, in_concat. intros (lines & Hin%list_elem_of_In & Hline%list_elem_of_In).
  apply list_elem_of_lookup in Hin as [k Hk].
  destruct (Forall2_lookup_r _ _ _ _ _ Hf Hk) as (path & _ & (text & _ & Hlen & Hdec) & _).
  apply list_elem_of_lookup in Hline as [i Hi].
  destruct (lookup_lt_is_Some_2 (str_lines text) i) as [raw Hraw].
  { rewrite Hlen. by eapply lookup_lt_Some. }
  destruct (proj1 (decodes_spec _ _ _ _) (Hdec i raw line Hraw Hi)) as (envelope & _ & Hline'). by destruct (line_of_wf _ _ _ _ Hline').
Qed.

(** C39: Every ingested line is well formed, whatever the text held: the record
    range of an identity does not overflow, a changelog entry is a tombstone
    exactly when it has no value, and a part names at least one arrival range
    and no inverted one. *)
Theorem ingested_well_formed fs paths journals :
  ingest_journals fs paths = Ok journals → Forall line_wf (js_lines journals).
Proof. intros Hi. apply Forall_forall. intros line. by eapply ingested_line_wf. Qed.

End ingestion.
