(* ===== verification/RunManifest.v ===== *)
(** * The fleet run's manifest

    Models [crates/duckspout-judge/src/run_manifest.rs]. *)

From S2P Require Import Prelude RustStd Types Evidence Journal.

(** [Iterator::max] and [Iterator::min] on [u64]s. *)
Definition max_of (l : list N) : option N :=
  match l with [] => None | x :: l => Some (foldl N.max x l) end.
Definition min_of (l : list N) : option N :=
  match l with [] => None | x :: l => Some (foldl N.min x l) end.

(** [RunManifest::last_progress_at_ms] *)
Definition last_progress_at_ms (manifest : RunManifest) : option N :=
  max_of (omap nr_last_progress_at_ms (rm_nodes manifest)).

Definition slash : Ascii.ascii := Ascii.ascii_of_nat 47.

(** [node_host]: everything before the first slash. *)
Fixpoint node_host (node_id : string) : string :=
  match node_id with
  | EmptyString => EmptyString
  | String c rest => if Ascii.eqb c slash then EmptyString else String c (node_host rest)
  end.

Inductive ManifestError :=
| ManifestIo (path : string) (source : string)
| ManifestDecode (path : string) (source : JsonError).

Section parsing.
Context `{Serde}.

(** [RunManifest::from_json] *)
Definition manifest_from_json (text : string) : result RunManifest JsonError :=
  let? _ := reject_duplicate_keys text in library (manifest_from_str text).

(** [parse_run_manifest] *)
Definition parse_run_manifest (fs : FileSystem) (path : string) : result RunManifest ManifestError :=
  let? text := map_err (ManifestIo path) (fs path) in
  map_err (ManifestDecode path) (manifest_from_json text).
End parsing.

(** ** Facts *)

Lemma max_of_spec l m : max_of l = Some m ↔ m ∈ l ∧ ∀ x, x ∈ l → (x ≤ m)%N.
Proof.
  assert (∀ l x, foldl N.max x l ∈ x :: l ∧ ∀ y, y ∈ x :: l → (y ≤ foldl N.max x l)%N) as Hf.
  { clear. induction l as [|z l IH]; intros x; simpl; [set_solver by lia|].
    destruct (IH (N.max x z)) as [H1 H2]. split.
    - apply elem_of_cons in H1 as [->|H1]; [|set_solver].
      destruct (N.max_spec x z) as [[_ ->]|[_ ->]]; set_solver.
    - intros y Hy. specialize (H2 (N.max x z) ltac:(by left)) as Hm.
      rewrite !elem_of_cons in Hy. destruct Hy as [->|[->|Hy]]; [lia..|]. apply H2. by right. }
  destruct l as [|x l]; simpl; [set_solver|]. destruct (Hf l x) as [H1 H2]. split.
  - intros [= <-]. done.
  - intros [Hm Hle]. f_equal. apply N.le_antisymm; [by apply Hle|by apply H2].
Qed.

Lemma min_of_spec l m : min_of l = Some m ↔ m ∈ l ∧ ∀ x, x ∈ l → (m ≤ x)%N.
Proof.
  assert (∀ l x, foldl N.min x l ∈ x :: l ∧ ∀ y, y ∈ x :: l → (foldl N.min x l ≤ y)%N) as Hf.
  { clear. induction l as [|z l IH]; intros x; simpl; [set_solver by lia|].
    destruct (IH (N.min x z)) as [H1 H2]. split.
    - apply elem_of_cons in H1 as [->|H1]; [|set_solver].
      destruct (N.min_spec x z) as [[_ ->]|[_ ->]]; set_solver.
    - intros y Hy. specialize (H2 (N.min x z) ltac:(by left)) as Hm.
      rewrite !elem_of_cons in Hy. destruct Hy as [->|[->|Hy]]; [lia..|]. apply H2. by right. }
  destruct l as [|x l]; simpl; [set_solver|]. destruct (Hf l x) as [H1 H2]. split.
  - intros [= <-]. done.
  - intros [Hm Hle]. f_equal. apply N.le_antisymm; [by apply H2|by apply Hle].
Qed.

Lemma min_of_None l : min_of l = None ↔ l = [].
Proof. by destruct l. Qed.

Lemma max_of_None l : max_of l = None ↔ l = [].
Proof. by destruct l. Qed.

(** The host of a rendered id is the name it was rendered from. *)
Lemma node_host_rendered name rest :
  node_host name = name → node_host (name +:+ String slash rest) = name.
Proof.
  induction name as [|c name IH]; simpl; [done|]. destruct (Ascii.eqb c slash); [done|].
  intros [= E]. by rewrite IH.
Qed.

(** * The served-read log

    Models [crates/duckspout-judge/src/read_log.rs]. *)

(** [CacheProbe::raced_residency_action] *)
Definition raced_residency_action (probe : CacheProbe) : bool :=
  (cp_residency_ops_before probe <? cp_residency_ops_after probe)%N.

Inductive ReadLogError :=
| ReadLogIo (path : string) (source : string)
| ReadLogDecode (path : string) (line_no : N) (source : JsonError).

Section parsing.
Context `{Serde}.

(** [probe_from_line] *)
Definition probe_from_line (line : Value) : result (option CacheProbe) JsonError :=
  if contains_key line "residency_ops_before" then
    let? probe := library (probe_from_value line) in
    if (cp_residency_ops_after probe <? cp_residency_ops_before probe)%N
    then Err (ProbeBackwards probe) else Ok (Some probe)
  else Ok None.

(** The decoding of one line. *)
Definition read_of (raw : string) : result ReadRecord JsonError :=
  let? _ := reject_duplicate_keys raw in
  let? record := library (read_record_from_str raw) in
  let? line := library (value_from_str raw) in
  let? cache := probe_from_line line in
  Ok {| rr_tenant := rr_tenant record; rr_partition := rr_partition record;
        rr_concern := rr_concern record; rr_outcome := rr_outcome record; rr_cache := cache |}.

(** The loop of [parse_read_log]. *)
Fixpoint parse_reads (path : string) (line_no : N) (raws : list string) :
    result (list ReadRecord) ReadLogError :=
  match raws with
  | [] => Ok []
  | raw :: raws =>
      let? record := map_err (ReadLogDecode path line_no) (read_of raw) in
      let? records := parse_reads path (line_no + 1) raws in
      Ok (record :: records)
  end.

(** [parse_read_log] *)
Definition parse_read_log (fs : FileSystem) (path : string) :
    result (list ReadRecord) ReadLogError :=
  let? text := map_err (ReadLogIo path) (fs path) in
  parse_reads path 1 (str_lines text).

(** ** What a parsed log holds *)

Lemma parse_reads_ok path n raws records :
  parse_reads path n raws = Ok records ↔ Forall2 (λ raw record, read_of raw = Ok record) raws records.
Proof.
  revert n records. induction raws as [|raw raws IH]; intros n records; simpl.
  - split; [intros [= <-]; constructor|by intros ->%Forall2_nil_inv_l].
  - split.
    + intros E. repeat let_ok E. simplify_eq. apply map_err_ok in E0. constructor; [done|].
      by apply IH in E1.
    + intros Hf. apply Forall2_cons_inv_l in Hf as (r & rs & Hr & Hrs & ->). rewrite Hr. simpl.
      by rewrite (proj2 (IH _ _) Hrs).
Qed.

(** Every line becomes one read record, in order, or the log is refused. *)
Lemma parse_read_log_ok fs path records :
  parse_read_log fs path = Ok records ↔
  ∃ text, fs path = Ok text ∧
    Forall2 (λ raw record, read_of raw = Ok record) (str_lines text) records.
Proof.
  unfold parse_read_log. destruct (fs path) as [text|]; simpl; [|naive_solver].
  rewrite parse_reads_ok. naive_solver.
Qed.

(** A probe's counter never runs backwards. *)
Lemma read_of_probe raw record probe :
  read_of raw = Ok record → rr_cache record = Some probe →
  (cp_residency_ops_before probe ≤ cp_residency_ops_after probe)%N.
Proof.
  unfold read_of. intros E. repeat let_ok E. simplify_eq. simpl. intros ->.
  unfold probe_from_line in E3. case_if; [|done]. let_ok E3. case_if; naive_solver.
Qed.
End parsing.
