(* ===== verification/FinalState.v ===== *)
(** * Read-back of the final system

    Models [crates/duckspout-judge/src/final_state.rs]: the three read-back
    interfaces as type classes and their in-memory implementations. *)

From S2P Require Import Prelude Types Evidence BTree.

Record QueryError := { qe_tenant : string; qe_record_key : string; qe_reason : string }.
Record ViewQueryError := { ve_dataset : DatasetId; ve_reason : string }.
Record PartsQueryError := {
  pe_dataset : DatasetId; pe_partition : PartitionId; pe_reason : string }.

(** [trait FinalSystemState] *)
Class FinalSystemState (S : Type) :=
  contains : S → string → string → result bool QueryError.

(** [trait LatestView] *)
Class LatestView (V : Type) := view : V → DatasetId → result ServedView ViewQueryError.

(** [trait CommittedParts] *)
Class CommittedParts (P : Type) :=
  snapshots : P → DatasetId → PartitionId → result (list CommittedSnapshot) PartsQueryError.

(** [format!("{source_incarnation}-{index}")] *)
Definition record_key (source_incarnation : string) (index : N) : string :=
  source_incarnation +:+ "-" +:+ pretty index.

(** ** [InMemoryFinalState] *)

Definition InMemoryFinalState : Type := gset (string * string).

(** The offsets [0..count]. *)
Definition offsets (count : N) : list N := N.of_nat <$> seq 0 (N.to_nat count).

(** [InMemoryFinalState::with_present_range]; [first_index + offset] wraps. *)
Definition with_present_range (present : InMemoryFinalState) (tenant source_incarnation : string)
    (first_index count : N) : InMemoryFinalState :=
  foldl (λ present offset,
           {[(tenant, record_key source_incarnation ((first_index + offset) mod 2 ^ 64))]} ∪ present)
    present (offsets count).

(** [InMemoryFinalState::from_fixture_json] *)
Definition final_state_from_fixture `{Serde} (text : string) : result InMemoryFinalState string :=
  let? fixture := final_state_from_str text in
  Ok (foldl (λ state range,
               with_present_range state (fr_tenant range) (fr_source_incarnation range)
                 (fr_first_index range) (fr_count range)) ∅ fixture).

#[global] Instance in_memory_final_state : FinalSystemState InMemoryFinalState :=
  λ present tenant record_key, Ok (bool_decide ((tenant, record_key) ∈ present)).

(** ** [InMemoryLatestView] *)

Definition InMemoryLatestView : Type := gmap DatasetId ServedView.

(** [InMemoryLatestView::with_view] *)
Definition with_view (views : InMemoryLatestView) (dataset tenant : string)
    (rows : list (string * string)) : InMemoryLatestView :=
  <[dataset := <[tenant := list_to_map (reverse rows)]> (default ∅ (views !! dataset))]> views.

(** [InMemoryLatestView::from_fixture_json] *)
Definition latest_view_from_fixture `{Serde} (text : string) : result InMemoryLatestView string :=
  latest_view_from_str text.

#[global] Instance in_memory_latest_view : LatestView InMemoryLatestView :=
  λ views dataset, Ok (default ∅ (views !! dataset)).

(** ** [InMemoryCommittedParts] *)

Definition InMemoryCommittedParts : Type := list CommittedSnapshot.

(** [InMemoryCommittedParts::with_snapshot] *)
Definition with_snapshot (parts : InMemoryCommittedParts) (snapshot : CommittedSnapshot) :
    InMemoryCommittedParts := parts ++ [snapshot].

(** [InMemoryCommittedParts::from_fixture_json] *)
Definition committed_parts_from_fixture `{Serde} (text : string) :
    result InMemoryCommittedParts string :=
  committed_parts_from_str text.

#[global] Instance in_memory_committed_parts : CommittedParts InMemoryCommittedParts :=
  λ parts dataset partition,
    Ok (filter (λ snapshot, cs_dataset snapshot = dataset ∧ cs_partition snapshot = partition) parts).

(** ** Facts *)

Lemma elem_of_offsets count i : i ∈ offsets count ↔ (i < count)%N.
Proof.
  unfold offsets. rewrite list_elem_of_fmap. setoid_rewrite elem_of_seq. split.
  - intros (k & -> & Hk). lia.
  - intros Hi. exists (N.to_nat i). lia.
Qed.

Lemma with_present_range_spec present t inc first count x :
  x ∈ with_present_range present t inc first count ↔
  x ∈ present ∨ ∃ i, (i < count)%N ∧ x = (t, record_key inc ((first + i) mod 2 ^ 64)).
Proof.
  unfold with_present_range. setoid_rewrite <-elem_of_offsets.
  induction (offsets count) as [|o os IH] using rev_ind; simpl; [set_solver|].
  rewrite foldl_app. simpl. rewrite elem_of_union, IH, elem_of_singleton.
  setoid_rewrite elem_of_app. setoid_rewrite list_elem_of_singleton. naive_solver.
Qed.
