(* ===== verification/ZeroAckedLost.v ===== *)
(** * The zero-acked-lost predicate

    Models [crates/duckspout-judge/src/predicates/zero_acked_lost.rs]: every
    record whose [ClientAck] was journaled must be present in the final
    system. *)

From S2P Require Import Prelude RustStd Types Ports Evidence Verdict Journal BTree FinalState Naming.

Definition SYSTEM_TENANT_PREFIX : Ascii.ascii := Ascii.ascii_of_nat 95.

(** [tenant.starts_with(SYSTEM_TENANT_PREFIX)] *)
Definition is_system_tenant (tenant : string) : bool :=
  match tenant with
  | String c _ => Ascii.eqb c SYSTEM_TENANT_PREFIX
  | EmptyString => false
  end.

Record AckedLostFinding := {
  al_request_id : string;
  al_tenant : string;
  al_missing_indices : gset N;
}.

(** Why no verdict was reached. *)
Inductive AckedLostReason :=
| NothingAcked
| AckRangeOverflow (identity : RequestIdentity)
| QueryFailed (identity : RequestIdentity) (err : QueryError)
| NothingRemained.

(** [is_checkable] *)
Definition is_checkable (identity : RequestIdentity) : bool :=
  negb (is_system_tenant (ri_tenant identity)) && (0 <? ri_record_count identity)%N.

(** The indices [first..end] of an acked range. *)
Definition index_range (first end_ : N) : list N :=
  (λ i, first + N.of_nat i)%N <$> seq 0 (N.to_nat (end_ - first)).

Section check.
Context {S : Type} `{FinalSystemState S}.

(** The index loop of [check]: the missing indices, or the first failed query. *)
Fixpoint missing_indices (final_state : S) (identity : RequestIdentity) (missing : gset N)
    (indices : list N) : result (gset N) QueryError :=
  match indices with
  | [] => Ok missing
  | index :: indices =>
      match contains final_state (ri_tenant identity)
              (record_key (ri_source_incarnation identity) index) with
      | Ok true => missing_indices final_state identity missing indices
      | Ok false => missing_indices final_state identity ({[index]} ∪ missing) indices
      | Err err => Err err
      end
  end.

(** The body of the ack loop: the finding of one ack, if any. *)
Definition check_ack (final_state : S) (identity : RequestIdentity) :
    result (list AckedLostFinding) AckedLostReason :=
  let end_ := (ri_first_index identity + ri_record_count identity)%N in
  if (end_ <=? u64_max)%N then
    let? missing := map_err (QueryFailed identity)
      (missing_indices final_state identity ∅ (index_range (ri_first_index identity) end_)) in
    Ok (if decide (missing = ∅) then []
        else [{| al_request_id := ri_request_id identity; al_tenant := ri_tenant identity;
                 al_missing_indices := missing |}])
  else Err (AckRangeOverflow identity).

(** The ack loop of [check]. *)
Fixpoint check_acks (final_state : S) (acks : list RequestIdentity) :
    result (list AckedLostFinding) AckedLostReason :=
  match acks with
  | [] => Ok []
  | identity :: acks =>
      let? found := check_ack final_state identity in
      let? findings := check_acks final_state acks in
      Ok (found ++ findings)
  end.

(** The acks the predicate checks. *)
Definition checkable_acks (journals : JournalSet) : list RequestIdentity :=
  filter is_checkable (identity_events journals EvClientAck).*2.

(** [check] *)
Definition check (journals : JournalSet) (final_state : S) :
    Verdict AckedLostFinding AckedLostReason :=
  let acks := checkable_acks journals in
  match acks with
  | [] => NoVerdict NothingAcked
  | _ =>
      match check_acks final_state acks with
      | Err reason => NoVerdict reason
      | Ok [] => pass (length acks) NothingRemained
      | Ok findings => Violation findings
      end
  end.

(** ** What the verdict says *)

(** The records an ack promised. *)
Definition acked_index (identity : RequestIdentity) (i : N) : Prop :=
  (ri_first_index identity ≤ i < ri_first_index identity + ri_record_count identity)%N.

(** The answer of the final system for one acked record. *)
Definition read_back (final_state : S) (identity : RequestIdentity) (i : N) :
    result bool QueryError :=
  contains final_state (ri_tenant identity) (record_key (ri_source_incarnation identity) i).

(** The finding one ack deserves, given the missing indices. *)
Definition lost (final_state : S) (identity : RequestIdentity) (f : AckedLostFinding) : Prop :=
  al_request_id f = ri_request_id identity ∧ al_tenant f = ri_tenant identity ∧
  al_missing_indices f ≠ ∅ ∧
  ∀ i, i ∈ al_missing_indices f ↔ acked_index identity i ∧ read_back final_state identity i = Ok false.

Lemma elem_of_index_range first end_ i :
  i ∈ index_range first end_ ↔ (first ≤ i < end_)%N.
Proof.
  unfold index_range. rewrite list_elem_of_fmap. setoid_rewrite elem_of_seq. split.
  - intros (k & -> & Hk). lia.
  - intros Hi. exists (N.to_nat (i - first)). lia.
Qed.

Lemma missing_indices_spec final_state identity missing indices :
  match missing_indices final_state identity missing indices with
  | Ok out =>
      (∀ i, i ∈ indices → ∃ b, read_back final_state identity i = Ok b) ∧
      ∀ i, i ∈ out ↔ i ∈ missing ∨ i ∈ indices ∧ read_back final_state identity i = Ok false
  | Err err => ∃ i, i ∈ indices ∧ read_back final_state identity i = Err err
  end.
Proof.
  revert missing. induction indices as [|i indices IH]; intros missing; simpl; [set_solver|].
  change (contains _ _ _) with (read_back final_state identity i).
  destruct (read_back final_state identity i) as [[]|err] eqn:Hr.
  - specialize (IH missing). destruct (missing_indices _ _ _ _) as [out|].
    + destruct IH as [Ha Ho]. split; [set_solver|]. intros j. rewrite Ho, elem_of_cons.
      split; [naive_solver|]. intros [?|[[->|?] ?]]; [by left|congruence|naive_solver].
    + set_solver.
  - specialize (IH ({[i]} ∪ missing)). destruct (missing_indices _ _ _ _) as [out|].
    + destruct IH as [Ha Ho]. split; [set_solver|]. intros j. rewrite Ho, elem_of_cons. set_solver.
    + set_solver.
  - exists i. by split; [left|].
Qed.

Lemma check_ack_spec final_state identity :
  match check_ack final_state identity with
  | Ok found =>
      (∀ i, acked_index identity i → ∃ b, read_back final_state identity i = Ok b) ∧
      (found = [] ↔ ∀ i, acked_index identity i → read_back final_state identity i = Ok true) ∧
      (∀ f, f ∈ found ↔ found ≠ [] ∧ lost final_state identity f)
  | Err (AckRangeOverflow id) =>
      id = identity ∧ (u64_max < ri_first_index identity + ri_record_count identity)%N
  | Err (QueryFailed id err) =>
      id = identity ∧ ∃ i, acked_index identity i ∧ read_back final_state identity i = Err err
  | Err _ => False
  end.
Proof.
  unfold check_ack. case_if; [|done].
  pose proof (missing_indices_spec final_state identity ∅ (index_range (ri_first_index identity)
    (ri_first_index identity + ri_record_count identity))) as Hm.
  destruct (missing_indices _ _ _ _) as [out|err]; setoid_rewrite elem_of_index_range in Hm;
    simpl; [|done].
  destruct Hm as [Hans Hout]. split; [done|]. case_decide as Ho.
  - split; [|set_solver]. split; [|done]. intros _ i Hi. destruct (Hans i Hi) as [[] Hb]; [done|].
    assert (i ∈ out) as Hin by (apply Hout; auto). set_solver.
  - split.
    + split; [done|]. intros Hall. destruct Ho. apply set_eq. intros i. split; [|set_solver].
      intros [?|[Hi Hf]]%Hout; [done|]. specialize (Hall i Hi). congruence.
    + intros f. rewrite list_elem_of_singleton. split.
      * intros ->. split; [done|]. split_and!; [done..|]. simpl. intros i. rewrite Hout. set_solver.
      * intros (_ & H1 & H2 & H3 & H4). destruct f; simpl in *. f_equal; [done..|].
        apply set_eq. intros i. rewrite H4, Hout. set_solver.
Qed.

Lemma check_acks_spec final_state acks :
  match check_acks final_state acks with
  | Ok findings =>
      (∀ identity i, identity ∈ acks → acked_index identity i →
         ∃ b, read_back final_state identity i = Ok b) ∧
      (findings = [] ↔ ∀ identity i, identity ∈ acks → acked_index identity i →
         read_back final_state identity i = Ok true) ∧
      (∀ f, f ∈ findings ↔ ∃ identity, identity ∈ acks ∧ lost final_state identity f)
  | Err (AckRangeOverflow identity) =>
      identity ∈ acks ∧ (u64_max < ri_first_index identity + ri_record_count identity)%N
  | Err (QueryFailed identity err) =>
      identity ∈ acks ∧ ∃ i, acked_index identity i ∧ read_back final_state identity i = Err err
  | Err _ => False
  end.
Proof.
  induction acks as [|identity acks IH]; simpl; [set_solver|].
  pose proof (check_ack_spec final_state identity) as Ha.
  destruct (check_ack final_state identity) as [found|r].
  2:{ destruct r; try done; destruct Ha as [-> Ha]; (split; [by left|done]). }
  destruct (check_acks final_state acks) as [findings|r].
  2:{ destruct r; try done; destruct IH as [Hin IH]; (split; [by right|done]). }
  destruct Ha as (Ha1 & Ha2 & Ha3), IH as (H1 & H2 & H3). split_and!.
  - setoid_rewrite elem_of_cons. naive_solver.
  - rewrite app_nil, Ha2, H2. setoid_rewrite elem_of_cons. naive_solver.
  - intros f. rewrite elem_of_app, Ha3, H3. setoid_rewrite elem_of_cons. split; [naive_solver|].
    intros (id & [->|Hin] & Hl); [|by right; eauto]. left. split; [|done].
    intros Hn. destruct Hl as (_ & _ & Hne & Hl). apply set_choose_L in Hne as [i Hi].
    apply Hl in Hi as [Hi Hf]. pose proof (proj1 Ha2 Hn i Hi). congruence.
Qed.

(** Which acks a verdict is about. *)
Lemma elem_of_checkable_acks journals identity :
  identity ∈ checkable_acks journals ↔
  (∃ line, line ∈ js_lines journals ∧ jl_event line = EvClientAck ∧
           jl_identity line = Some identity) ∧
  is_system_tenant (ri_tenant identity) = false ∧ (0 < ri_record_count identity)%N.
Proof.
  unfold checkable_acks, identity_events. rewrite list_elem_of_filter, list_elem_of_fmap.
  assert (is_checkable identity ↔
    is_system_tenant (ri_tenant identity) = false ∧ (0 < ri_record_count identity)%N) as ->.
  { unfold is_checkable. rewrite Is_true_true, andb_true_iff, negb_true_iff, N.ltb_lt. done. }
  split.
  - intros [Hc ([line id] & -> & Hl)]. split; [|done].
    apply list_elem_of_omap in Hl as (line' & Hin & E). case_decide; [|done].
    apply fmap_Some in E as (? & Hid & [= -> <-]). eauto.
  - intros [(line & Hin & He & Hid) Hc]. split; [done|]. exists (line, identity).
    split; [done|]. apply list_elem_of_omap. exists line. split; [done|].
    rewrite decide_True by done. by rewrite Hid.
Qed.

Lemma zero_acked_lost_spec journals final_state :
  match check journals final_state with
  | Pass checked =>
      checked = length (checkable_acks journals) ∧ (0 < checked)%nat ∧
      ∀ identity i, identity ∈ checkable_acks journals → acked_index identity i →
        read_back final_state identity i = Ok true
  | Violation findings =>
      findings ≠ [] ∧
      (∀ identity i, identity ∈ checkable_acks journals → acked_index identity i →
         ∃ b, read_back final_state identity i = Ok b) ∧
      ∀ f, f ∈ findings ↔ ∃ identity, identity ∈ checkable_acks journals ∧ lost final_state identity f
  | NoVerdict reason =>
      checkable_acks journals = [] ∨
      ∃ identity, identity ∈ checkable_acks journals ∧
        ((u64_max < ri_first_index identity + ri_record_count identity)%N ∨
         ∃ i err, acked_index identity i ∧ read_back final_state identity i = Err err)
  end.
Proof.
  unfold check. destruct (checkable_acks journals) as [|a acks] eqn:E; [by left|]. rewrite <-E.
  pose proof (check_acks_spec final_state (checkable_acks journals)) as Hs.
  destruct (check_acks final_state (checkable_acks journals)) as [[|f fs]|r].
  - rewrite pass_passed by (rewrite E; simpl; lia). split_and!; [done|rewrite E; simpl; lia|].
    by apply Hs.
  - naive_solver.
  - right. destruct r; naive_solver.
Qed.

(** The verdict on acked records is exact.  A pass means that some checkable
    ack was journaled and that the final system answered "present" for every
    record of every one of them; a violation means that every query was answered
    and lists, for the acks with absent records and for no others, precisely the
    absent indices; and no verdict is given only when there was nothing to
    check, an acked range overflows, or a query failed. *)
Theorem zero_acked_lost_exact journals final_state :
  match check journals final_state with
  | Pass checked =>
      checked = length (checkable_acks journals) ∧ (0 < checked)%nat ∧
      ∀ identity i, identity ∈ checkable_acks journals → acked_index identity i →
        read_back final_state identity i = Ok true
  | Violation findings =>
      findings ≠ [] ∧
      (∀ identity i, identity ∈ checkable_acks journals → acked_index identity i →
         ∃ b, read_back final_state identity i = Ok b) ∧
      ∀ f, f ∈ findings ↔ ∃ identity, identity ∈ checkable_acks journals ∧ lost final_state identity f
  | NoVerdict reason =>
      checkable_acks journals = [] ∨
      ∃ identity, identity ∈ checkable_acks journals ∧
        ((u64_max < ri_first_index identity + ri_record_count identity)%N ∨
         ∃ i err, acked_index identity i ∧ read_back final_state identity i = Err err)
  end.
Proof. apply zero_acked_lost_spec. Qed.
End check.

(** ** The correlation identity *)

Lemma split_at_last_sep c a1 a2 b1 b2 :
  free_of c b1 = true → free_of c b2 = true →
  a1 +:+ String c b1 = a2 +:+ String c b2 → a1 = a2 ∧ b1 = b2.
Proof.
  assert (∀ a b, free_of c (a +:+ String c b) = false) as Hnf.
  { induction a as [|d a IH]; intros b; simpl; [by rewrite bool_decide_eq_true_2|].
    rewrite IH. by rewrite andb_false_r. }
  intros H1 H2. revert a2. induction a1 as [|d a1 IH]; intros [|e a2] E; simpl in *; injection E.
  - by intros ->.
  - intros -> ->. by rewrite Hnf in H1.
  - intros <- ->. by rewrite Hnf in H2.
  - intros E' ->. by destruct (IH a2 E') as [-> ->].
Qed.

(** The key of a record determines the process that sent it and its index. *)
Lemma record_key_inj inc1 inc2 i1 i2 :
  record_key inc1 i1 = record_key inc2 i2 → inc1 = inc2 ∧ i1 = i2.
Proof.
  unfold record_key. intros E. apply split_at_last_sep in E as [-> E]; [|by apply pretty_free..].
  by apply (inj pretty) in E as ->.
Qed.
