(* ===== verification/WatermarkHonesty.v ===== *)
(** * The watermark-honesty predicate

    Models [crates/duckspout-judge/src/predicates/watermark_honesty.rs]: every
    advertised watermark is replayed against the coverage the journals show, and
    every served [complete] read against that coverage and the acks it owes. *)

From S2P Require Import Prelude Types Ports BTree Verdict Evidence Journal FinalState.
From S2P Require Import ZeroAckedLost RunManifest.

Definition COVERAGE_SOURCES : list TraceEvent :=
  [EvLakeCommitOk; EvDeclareLoss; EvLakeCommitIndeterminate; EvReconcile].

Inductive WatermarkFinding :=
| UnbackedAdvertisement (node : NodeId) (partition : PartitionId)
    (advertised_ms coverage_bound_ms : Z)
| UnprovenCoverage (partition : PartitionId) (served_at_ms coverage_bound_ms : Z)
| MissingUnderWatermark (partition : PartitionId) (served_at_ms : Z)
    (request_id tenant : string) (missing_keys : gset string).

(** Why no verdict was reached. *)
Inductive WatermarkReason :=
| NoWatermarkValue
| NothingAdvertised (reads : nat)
| NothingServed (advertisements : nat)
| MissingRuleNeverRan (advertisements reads : nat)
| NothingChecked.

(** [OwedBatch] *)
Record OwedBatch := {
  ob_identity : RequestIdentity;
  ob_partition : PartitionId;
  ob_max_event_time_ms : Z;
}.

(** [OwedBatch::record_keys]; [first_index + offset] is a [u64] sum. *)
Definition record_keys (batch : OwedBatch) : gset string :=
  list_to_set ((λ offset, record_key (ri_source_incarnation (ob_identity batch))
                            ((ri_first_index (ob_identity batch) + offset) mod 2 ^ 64)%N)
               <$> offsets (ri_record_count (ob_identity batch))).

(** [Claim] *)
Record Claim := {
  c_node : NodeId;
  c_seq : N;
  c_event : TraceEvent;
  c_watermark : WatermarkClaim;
}.

Definition c_partition (c : Claim) : PartitionId := wc_partition (c_watermark c).
Definition c_ms (c : Claim) : Z := wc_complete_through_ms (c_watermark c).

(** [COVERAGE_SOURCES.contains(&event)] *)
Definition is_coverage_source (event : TraceEvent) : bool :=
  bool_decide (event ∈ COVERAGE_SOURCES).

(** [Claim::is_advertisement] *)
Definition is_advertisement (c : Claim) : bool :=
  negb (is_coverage_source (c_event c)) && negb (bool_decide (c_event c = EvLakeCommitAbort)).

(** [Tally] *)
Record Tally := {
  t_advertisements : nat;
  t_reads : nat;
  t_missing_rule_reads : nat;
}.

(** [Tally::vacuity] *)
Definition vacuity (t : Tally) : option WatermarkReason :=
  if (t_advertisements t =? 0)%nat then Some (NothingAdvertised (t_reads t))
  else if (t_reads t =? 0)%nat then Some (NothingServed (t_advertisements t))
  else if (t_missing_rule_reads t =? 0)%nat
  then Some (MissingRuleNeverRan (t_advertisements t) (t_reads t))
  else None.

Definition INITIAL_WATERMARK_MS : Z := 0.

(** ** [Coverage] *)

(** Partition, then node, then that node's coverage lines by seq, each with the
    running maximum up to it. *)
Abbreviation Coverage := (gmap PartitionId (gmap NodeId (list (N * Z)))) (only parsing).

(** [per_node.entry(partition).or_default().entry(node).or_default().push(..)] *)
Definition push_claim (per_node : Coverage) (c : Claim) : Coverage :=
  <[c_partition c :=
      push_under (default ∅ (per_node !! c_partition c)) (c_node c) (c_seq c, c_ms c)]> per_node.

(** The running maximum over one node's lines. *)
Fixpoint running_max (running : Z) (lines : list (N * Z)) : list (N * Z) :=
  match lines with
  | [] => []
  | (seq, ms) :: lines =>
      let running := Z.max running ms in (seq, running) :: running_max running lines
  end.

(** [sort_unstable_by_key(|(seq, _)| *seq)], then the running maximum. *)
Definition seal_lines (lines : list (N * Z)) : list (N * Z) :=
  running_max INITIAL_WATERMARK_MS (sort_by_key fst lines).

(** [Coverage::of] *)
Definition coverage_of (claims : list Claim) : Coverage :=
  fmap (M:=gmap PartitionId) (fmap (M:=gmap NodeId) seal_lines)
    (foldl push_claim ∅ (filter (λ c, is_coverage_source (c_event c)) claims)).

(** [lines.last().map(|(_, ms)| *ms)] *)
Definition last_ms (lines : list (N * Z)) : option Z := snd <$> last lines.

(** [.max().unwrap_or(INITIAL_WATERMARK_MS)] *)
Definition max_or_initial (values : list Z) : Z :=
  match values with
  | [] => INITIAL_WATERMARK_MS
  | v :: values => foldl Z.max v values
  end.

(** [Coverage::run_wide_bound] *)
Definition run_wide_bound (coverage : Coverage) (partition : PartitionId) : Z :=
  match coverage !! partition with
  | None => INITIAL_WATERMARK_MS
  | Some by_node => max_or_initial (omap last_ms (btree_entries by_node).*2)
  end.

(** [lines.partition_point(|(line_seq, _)| *line_seq < seq)]: on a slice
    partitioned by the test, the number of elements that satisfy it. *)
Definition partition_point (seq : N) (lines : list (N * Z)) : nat :=
  length (filter (λ l, l.1 < seq)%N lines).

(** What [node] itself had committed strictly before its line at [seq]. *)
Definition own_prefix (by_node : gmap NodeId (list (N * Z))) (node : NodeId) (seq : N) : Z :=
  match by_node !! node with
  | None => INITIAL_WATERMARK_MS
  | Some lines =>
      match partition_point seq lines with
      | 0%nat => INITIAL_WATERMARK_MS
      | S before => from_option snd INITIAL_WATERMARK_MS (lines !! before)
      end
  end.

(** [Coverage::bound_for_advertisement] *)
Definition bound_for_advertisement (coverage : Coverage) (partition : PartitionId)
    (node : NodeId) (seq : N) : Z :=
  match coverage !! partition with
  | None => INITIAL_WATERMARK_MS
  | Some by_node =>
      let others := max_or_initial
        (omap last_ms (filter (λ e, e.1 ≠ node) (btree_entries by_node)).*2) in
      Z.max others (own_prefix by_node node seq)
  end.

(** ** [LossScope] *)

Record LossScope := {
  ls_partitions : gset PartitionId;
  ls_unknown : bool;
}.

(** The loop body of [LossScope::of]. *)
Definition loss_step (scope : LossScope) (line : JournalLine) : LossScope :=
  if decide (jl_event line = EvDeclareLoss) then
    match jl_watermark line with
    | Some claim => {| ls_partitions := {[wc_partition claim]} ∪ ls_partitions scope;
                       ls_unknown := ls_unknown scope |}
    | None => {| ls_partitions := ls_partitions scope; ls_unknown := true |}
    end
  else scope.

(** [LossScope::of] *)
Definition loss_scope_of (journals : JournalSet) : LossScope :=
  foldl loss_step {| ls_partitions := ∅; ls_unknown := false |} (js_lines journals).

(** [LossScope::excuses] *)
Definition excuses (scope : LossScope) (partition : PartitionId) : bool :=
  ls_unknown scope || bool_decide (partition ∈ ls_partitions scope).

(** ** The rules *)

(** The filter-map of [owed_batches]. *)
Definition owed_batch (e : JournalLine * RequestIdentity) : option OwedBatch :=
  let (line, identity) := e in
  partition ← ri_partition identity;
  max_event_time_ms ← ri_max_event_time_ms identity;
  disclosed ← jl_watermark line;
  if (max_event_time_ms <=? wc_complete_through_ms disclosed)%Z
     || (ri_record_count identity =? 0)%N || is_system_tenant (ri_tenant identity)
  then None
  else Some {| ob_identity := identity; ob_partition := partition;
               ob_max_event_time_ms := max_event_time_ms |}.

(** [owed_batches] *)
Definition owed_batches (journals : JournalSet) : list OwedBatch :=
  omap owed_batch (identity_events journals EvClientAck).

(** The batches one served answer owes. *)
Definition owes (read : ReadRecord) (complete_through_ms : Z) (batch : OwedBatch) : bool :=
  bool_decide (ob_partition batch = rr_partition read) &&
  bool_decide (ri_tenant (ob_identity batch) = rr_tenant read) &&
  (ob_max_event_time_ms batch <=? complete_through_ms)%Z.

(** The finding of one owed batch, if any of its records is missing. *)
Definition missing_of (read : ReadRecord) (complete_through_ms : Z) (keys : gset string)
    (batch : OwedBatch) : option WatermarkFinding :=
  let missing := filter (λ key, key ∉ keys) (record_keys batch) in
  if decide (missing = ∅) then None
  else Some (MissingUnderWatermark (rr_partition read) complete_through_ms
               (ri_request_id (ob_identity batch)) (ri_tenant (ob_identity batch)) missing).

(** [missing_under_watermark] *)
Definition missing_under_watermark (read : ReadRecord) (complete_through_ms : Z)
    (keys : gset string) (owed : list OwedBatch) : list WatermarkFinding :=
  omap (missing_of read complete_through_ms keys) (filter (owes read complete_through_ms) owed).

(** The advertisement loop of [check]. *)
Definition check_advertisement (coverage : Coverage) (c : Claim) : list WatermarkFinding :=
  let bound := bound_for_advertisement coverage (c_partition c) (c_node c) (c_seq c) in
  if (bound <? c_ms c)%Z
  then [UnbackedAdvertisement (c_node c) (c_partition c) (c_ms c) bound] else [].

(** The body of the read loop of [check]: the tally it adds to and what it finds. *)
Definition check_read (coverage : Coverage) (loss : LossScope) (owed : list OwedBatch)
    (acc : Tally * list WatermarkFinding) (read : ReadRecord) : Tally * list WatermarkFinding :=
  let (tally, findings) := acc in
  match rr_concern read, rr_outcome read with
  | Complete, Served complete_through_ms keys =>
      let bound := run_wide_bound coverage (rr_partition read) in
      let unproven := if (bound <? complete_through_ms)%Z
                      then [UnprovenCoverage (rr_partition read) complete_through_ms bound] else [] in
      if excuses loss (rr_partition read) then
        ({| t_advertisements := t_advertisements tally; t_reads := S (t_reads tally);
            t_missing_rule_reads := t_missing_rule_reads tally |}, findings ++ unproven)
      else
        ({| t_advertisements := t_advertisements tally; t_reads := S (t_reads tally);
            t_missing_rule_reads := S (t_missing_rule_reads tally) |},
         findings ++ unproven ++ missing_under_watermark read complete_through_ms keys owed)
  | _, _ => acc
  end.

Definition claims_of (journals : JournalSet) : list Claim :=
  (λ e, {| c_node := jl_node e.1; c_seq := jl_seq e.1; c_event := jl_event e.1;
           c_watermark := e.2 |}) <$> watermark_claims journals.

(** [check] *)
Definition check (journals : JournalSet) (reads : list ReadRecord) :
    Verdict WatermarkFinding WatermarkReason :=
  let claims := claims_of journals in
  match claims with
  | [] => NoVerdict NoWatermarkValue
  | _ =>
      let coverage := coverage_of claims in
      let loss := loss_scope_of journals in
      let owed := owed_batches journals in
      let advertisements := filter is_advertisement claims in
      let claimed := advertisements ≫= check_advertisement coverage in
      let (tally, findings) :=
        foldl (check_read coverage loss owed)
          ({| t_advertisements := length advertisements; t_reads := 0; t_missing_rule_reads := 0 |},
           claimed) reads in
      match findings with
      | _ :: _ => Violation findings
      | [] =>
          match vacuity tally with
          | Some reason => NoVerdict reason
          | None => pass (t_advertisements tally + t_reads tally) NothingChecked
          end
      end
  end.

(** * What a watermark-honesty verdict means *)

(** ** The greatest of a list of watermark values *)

Lemma foldl_max_spec l r :
  (r ≤ foldl Z.max r l)%Z ∧ (∀ x, x ∈ l → x ≤ foldl Z.max r l)%Z ∧
  (foldl Z.max r l = r ∨ foldl Z.max r l ∈ l).
Proof.
  revert r. induction l as [|y l IH]; intros r; simpl; [set_solver by lia|].
  destruct (IH (Z.max r y)) as (H1 & H2 & H3). split_and!; [lia| |].
  - intros x [->|Hx]%elem_of_cons; [lia|by apply H2].
  - destruct H3 as [->|H3]; [|set_solver]. destruct (Z.max_spec r y) as [[_ ->]|[_ ->]]; set_solver.
Qed.

Lemma max_or_initial_spec values :
  Forall (λ v, 0 ≤ v)%Z values → max_or_initial values = foldl Z.max 0%Z values.
Proof. intros [|v vs Hv _]; simpl; [done|]. by rewrite Z.max_r. Qed.

Lemma max_or_initial_nonneg values :
  Forall (λ v, 0 ≤ v)%Z values → (0 ≤ max_or_initial values)%Z.
Proof. intros Hv. rewrite max_or_initial_spec by done. by destruct (foldl_max_spec values 0%Z). Qed.

Lemma running_max_lookup r lines i :
  running_max r lines !! i =
  (λ l, (l.1, foldl Z.max r (take (S i) lines).*2)) <$> lines !! i.
Proof.
  revert r i. induction lines as [|[s m] lines IH]; intros r [|i]; simpl; [done..|].
  rewrite IH. by destruct (lines !! i).
Qed.

Lemma running_max_length r lines : length (running_max r lines) = length lines.
Proof. revert r. induction lines as [|[s m] lines IH]; intros r; simpl; auto. Qed.

Lemma running_max_fst r lines : (running_max r lines).*1 = lines.*1.
Proof. revert r. induction lines as [|[s m] lines IH]; intros r; simpl; f_equal; auto. Qed.

Lemma last_running_max r lines :
  lines ≠ [] → last_ms (running_max r lines) = Some (foldl Z.max r lines.*2).
Proof.
  intros Hn. unfold last_ms. rewrite last_lookup, running_max_length, running_max_lookup.
  rewrite <-last_lookup. destruct (last lines) as [l|] eqn:El; [|by apply last_None in El].
  simpl. do 2 f_equal. destruct lines; [done|]. simpl pred. by rewrite take_ge.
Qed.

Lemma sorted_filter_take (lines : list (N * Z)) s :
  StronglySorted (λ x y, x.1 ≤ y.1)%N lines →
  filter (λ l, l.1 < s)%N lines = take (length (filter (λ l, l.1 < s)%N lines)) lines.
Proof.
  induction 1 as [|l lines Hs IH Hl]; [done|]. rewrite filter_cons. case_decide; simpl.
  - by rewrite <-IH.
  - destruct (filter _ lines) as [|x xs] eqn:E; [done|].
    assert (x ∈ filter (λ l, l.1 < s)%N lines) as Hx by (rewrite E; by left).
    apply list_elem_of_filter in Hx as [Hx Hin]. rewrite Forall_forall in Hl. specialize (Hl x Hin). lia.
Qed.

Lemma partition_point_running r lines s :
  partition_point s (running_max r lines) = partition_point s lines.
Proof.
  unfold partition_point. revert r. induction lines as [|[q m] lines IH]; intros r; [done|].
  cbn [running_max]. rewrite !filter_cons. simpl. case_decide; simpl; by rewrite IH.
Qed.

(** A node's own coverage before a line of its journal. *)
Lemma own_prefix_spec lines s :
  match partition_point s (seal_lines lines) with
  | 0%nat => INITIAL_WATERMARK_MS
  | S before => from_option snd INITIAL_WATERMARK_MS (seal_lines lines !! before)
  end = foldl Z.max 0%Z (filter (λ l, l.1 < s)%N (sort_by_key fst lines)).*2.
Proof.
  unfold seal_lines. rewrite partition_point_running.
  pose proof (sorted_filter_take _ s (sort_by_key_sorted fst lines)) as Ef.
  unfold partition_point. rewrite Ef at 2.
  destruct (length (filter _ (sort_by_key fst lines))) as [|before] eqn:El; [done|].
  rewrite running_max_lookup.
  destruct (sort_by_key fst lines !! before) as [l|] eqn:Eb; [done|]. exfalso.
  apply lookup_ge_None in Eb.
  pose proof (length_filter (λ l, l.1 < s)%N (sort_by_key fst lines)). lia.
Qed.

(** ** The bounds *)

(** [b] is the greatest value of the claims in [P], or 0 when all are below it. *)
Definition bound_of (claims : list Claim) (P : Claim → Prop) (b : Z) : Prop :=
  (0 ≤ b)%Z ∧ (∀ c, c ∈ claims → P c → (c_ms c ≤ b)%Z) ∧
  (b = 0%Z ∨ ∃ c, c ∈ claims ∧ P c ∧ c_ms c = b).

(** A coverage line about [partition]. *)
Definition covers_part (partition : PartitionId) (c : Claim) : Prop :=
  is_coverage_source (c_event c) = true ∧ c_partition c = partition.

#[global] Instance covers_part_dec p c : Decision (covers_part p c).
Proof. unfold covers_part. apply _. Defined.

Lemma bound_below claims P b ms :
  bound_of claims P b → (ms ≤ b)%Z ↔ (ms ≤ 0)%Z ∨ ∃ c, c ∈ claims ∧ P c ∧ (ms ≤ c_ms c)%Z.
Proof.
  intros (H0 & Hub & Hat). split.
  - intros Hms. destruct Hat as [->|(c & Hc & HP & <-)]; [by left|right; eauto].
  - intros [?|(c & Hc & HP & Hle)]; [lia|]. specialize (Hub c Hc HP). lia.
Qed.

(** The vector the loop of [Coverage::of] gathers for a partition and a node. *)
Definition gathered (claims : list Claim) (p : PartitionId) (n : NodeId) : list (N * Z) :=
  (λ c, (c_seq c, c_ms c)) <$> filter (λ c, covers_part p c ∧ c_node c = n) claims.

Lemma push_claims_lookup cs p n :
  (default ∅ (foldl push_claim ∅ cs !! p)) !! n =
  match (λ c, (c_seq c, c_ms c)) <$> filter (λ c, c_partition c = p ∧ c_node c = n) cs with
  | [] => None
  | l => Some l
  end.
Proof.
  induction cs as [|c cs IH] using rev_ind; [done|]. rewrite foldl_app, filter_app, fmap_app. simpl.
  unfold push_claim at 1. destruct (decide (c_partition c = p)) as [<-|Hp].
  - rewrite lookup_insert_eq. simpl. unfold push_under.
    destruct (decide (c_node c = n)) as [<-|Hn].
    + rewrite lookup_insert_eq, IH, filter_cons_True by done. simpl.
      by destruct ((λ c, (c_seq c, c_ms c)) <$> filter _ cs).
    + rewrite lookup_insert_ne, IH, filter_cons_False by naive_solver. simpl. by rewrite app_nil_r.
  - rewrite lookup_insert_ne, IH, filter_cons_False by naive_solver. simpl. by rewrite app_nil_r.
Qed.

Lemma filter_sources (claims : list Claim) p n :
  filter (λ c, c_partition c = p ∧ c_node c = n) (filter (λ c, is_coverage_source (c_event c)) claims)
  = filter (λ c, covers_part p c ∧ c_node c = n) claims.
Proof.
  rewrite list_filter_filter. apply list_filter_iff. intros c. unfold covers_part.
  rewrite Is_true_true. naive_solver.
Qed.

Lemma coverage_lookup claims p n :
  (default ∅ (coverage_of claims !! p)) !! n =
  match gathered claims p n with [] => None | l => Some (seal_lines l) end.
Proof.
  unfold coverage_of, gathered. rewrite lookup_fmap.
  pose proof (push_claims_lookup (filter (λ c, is_coverage_source (c_event c)) claims) p n) as Hl.
  rewrite filter_sources in Hl. destruct (foldl push_claim ∅ _ !! p) as [by_node|]; simpl in *.
  - rewrite lookup_fmap, Hl. by destruct ((λ c, (c_seq c, c_ms c)) <$> _).
  - rewrite lookup_empty in *. by destruct ((λ c, (c_seq c, c_ms c)) <$> _).
Qed.

Lemma elem_of_gathered claims p n x :
  x ∈ gathered claims p n ↔
  ∃ c, c ∈ claims ∧ covers_part p c ∧ c_node c = n ∧ x = (c_seq c, c_ms c).
Proof.
  unfold gathered. rewrite list_elem_of_fmap. setoid_rewrite list_elem_of_filter. naive_solver.
Qed.

(** Each node's last value, over the nodes satisfying [Q], is the greatest of
    their coverage lines. *)
Lemma last_covered_spec claims p by_node (Q : NodeId → Prop) `{∀ n, Decision (Q n)} :
  coverage_of claims !! p = Some by_node →
  bound_of claims (λ c, covers_part p c ∧ Q (c_node c))
    (max_or_initial (omap last_ms (filter (λ e, Q e.1) (btree_entries by_node)).*2)).
Proof.
  intros Hp. pose proof (coverage_lookup claims p) as Hl. rewrite Hp in Hl. simpl in Hl.
  set (values := omap last_ms _).
  assert (∀ v, v ∈ values ↔ ∃ n, Q n ∧ gathered claims p n ≠ [] ∧
            v = foldl Z.max 0%Z (sort_by_key fst (gathered claims p n)).*2) as Hv.
  { intros v. unfold values. rewrite list_elem_of_omap. setoid_rewrite list_elem_of_fmap. split.
    - intros (ls & ([n ls'] & -> & [Hq Hin]%list_elem_of_filter) & Hlast).
      apply elem_of_btree_entries in Hin. rewrite Hl in Hin.
      destruct (gathered claims p n) as [|x xs] eqn:Eg; [done|]. injection Hin as <-.
      exists n. rewrite Eg. split_and!; [done..|]. simpl in Hlast. unfold seal_lines in Hlast.
      rewrite last_running_max in Hlast; [naive_solver|].
      intros Hs. apply (f_equal length) in Hs. rewrite sort_by_key_perm in Hs. done.
    - intros (n & Hq & Hg & ->). exists (seal_lines (gathered claims p n)). split.
      + exists (n, seal_lines (gathered claims p n)). split; [done|].
        apply list_elem_of_filter. split; [done|]. apply elem_of_btree_entries. rewrite Hl.
        by destruct (gathered claims p n).
      + unfold seal_lines. rewrite last_running_max; [done|].
        intros Hs. apply (f_equal length) in Hs. rewrite sort_by_key_perm in Hs.
        by destruct (gathered claims p n). }
  assert (Forall (λ v, 0 ≤ v)%Z values) as Hnn.
  { apply Forall_forall. intros v (n & _ & _ & ->)%Hv. by destruct (foldl_max_spec (sort_by_key fst (gathered claims p n)).*2 0%Z). }
  rewrite max_or_initial_spec by done. destruct (foldl_max_spec values 0%Z) as (H1 & H2 & H3).
  split_and!; [done| |].
  - intros c Hc [Hcov HQ]. assert ((c_seq c, c_ms c) ∈ gathered claims p (c_node c)) as Hin.
    { apply elem_of_gathered. eauto. }
    trans (foldl Z.max 0%Z (sort_by_key fst (gathered claims p (c_node c))).*2).
    + apply foldl_max_spec. apply list_elem_of_fmap. exists (c_seq c, c_ms c). split; [done|].
      by rewrite sort_by_key_perm.
    + apply H2, Hv. exists (c_node c). split_and!; [done| |done]. intros E. rewrite E in Hin.
      by apply not_elem_of_nil in Hin.
  - destruct H3 as [?|(n & HQ & Hg & E)%Hv]; [by left|]. rewrite E.
    destruct (foldl_max_spec (sort_by_key fst (gathered claims p n)).*2 0%Z) as (_ & _ & [->|Hin]);
      [by left|]. right. apply list_elem_of_fmap in Hin as (x & Hx & Hin).
    rewrite sort_by_key_perm in Hin. apply elem_of_gathered in Hin as (c & Hc & Hcov & <- & ->).
    exists c. by rewrite Hx.
Qed.

Lemma no_coverage claims p c :
  coverage_of claims !! p = None → c ∈ claims → ¬ covers_part p c.
Proof.
  intros Hp Hc Hcov. pose proof (coverage_lookup claims p (c_node c)) as Hl. rewrite Hp in Hl.
  simpl in Hl. rewrite lookup_empty in Hl.
  assert ((c_seq c, c_ms c) ∈ gathered claims p (c_node c)) as Hin.
  { apply elem_of_gathered. eauto. }
  destruct (gathered claims p (c_node c)); [by apply not_elem_of_nil in Hin|done].
Qed.

(** The run-wide bound is the greatest coverage any line shows for the
    partition. *)
Lemma run_wide_bound_spec claims p :
  bound_of claims (covers_part p) (run_wide_bound (coverage_of claims) p).
Proof.
  unfold run_wide_bound. destruct (coverage_of claims !! p) as [by_node|] eqn:Hp.
  - pose proof (last_covered_spec claims p by_node (λ _, True) Hp) as Hb.
    assert (∀ l : list (string * list (N * Z)), filter (λ _, True) l = l) as Hid.
    { induction l as [|x l IH]; [done|]. by rewrite filter_cons_True, IH. }
    rewrite Hid in Hb. destruct Hb as (H1 & H2 & H3). split_and!; [done|naive_solver|naive_solver].
  - split_and!; [done| |by left]. intros c Hc Hcov. by destruct (no_coverage claims p c).
Qed.

(** The bound of an advertisement: every other node's coverage, and the node's
    own strictly before the line. *)
Definition could_back (p : PartitionId) (n : NodeId) (s : N) (c : Claim) : Prop :=
  covers_part p c ∧ (c_node c ≠ n ∨ (c_seq c < s)%N).

Lemma own_prefix_bound claims p n s by_node :
  coverage_of claims !! p = Some by_node →
  bound_of claims (λ c, covers_part p c ∧ c_node c = n ∧ (c_seq c < s)%N) (own_prefix by_node n s).
Proof.
  intros Hp. pose proof (coverage_lookup claims p n) as Hl. rewrite Hp in Hl. simpl in Hl.
  unfold own_prefix. rewrite Hl. destruct (gathered claims p n) as [|x xs] eqn:Eg.
  - split_and!; [done| |by left]. intros c Hc (Hcov & <- & _).
    assert ((c_seq c, c_ms c) ∈ gathered claims p (c_node c)) as Hin by (apply elem_of_gathered; eauto).
    rewrite Eg in Hin. by apply not_elem_of_nil in Hin.
  - rewrite <-Eg, own_prefix_spec. set (l := filter _ _).
    assert (∀ y, y ∈ l ↔ (y.1 < s)%N ∧ y ∈ gathered claims p n) as Hin.
    { intros y. unfold l. by rewrite list_elem_of_filter, sort_by_key_perm. }
    destruct (foldl_max_spec l.*2 0%Z) as (H1 & H2 & H3). split_and!; [done| |].
    + intros c Hc (Hcov & Hn & Hs). apply H2, list_elem_of_fmap. exists (c_seq c, c_ms c).
      split; [done|]. apply Hin. split; [done|]. apply elem_of_gathered. eauto.
    + destruct H3 as [->|H3]; [by left|]. right. apply list_elem_of_fmap in H3 as (y & Hy & Hyl).
      apply Hin in Hyl as [Hlt (c & Hc & Hcov & Hn & ->)%elem_of_gathered]. exists c. by rewrite Hy.
Qed.

Lemma bound_for_advertisement_spec claims p n s :
  bound_of claims (could_back p n s) (bound_for_advertisement (coverage_of claims) p n s).
Proof.
  unfold bound_for_advertisement. destruct (coverage_of claims !! p) as [by_node|] eqn:Hp.
  2:{ split_and!; [done| |by left]. intros c Hc [Hcov _]. by destruct (no_coverage claims p c). }
  pose proof (last_covered_spec claims p by_node (λ m, m ≠ n) Hp) as (O1 & O2 & O3).
  destruct (own_prefix_bound claims p n s by_node Hp) as (W1 & W2 & W3).
  simpl. set (others := max_or_initial _) in *. set (own := own_prefix by_node n s) in *.
  split_and!; [lia| |].
  - intros c Hc [Hcov Hor]. destruct (decide (c_node c = n)) as [E|E].
    + assert (c_ms c ≤ own)%Z; [|lia]. apply W2; naive_solver.
    + assert (c_ms c ≤ others)%Z; [|lia]. apply O2; naive_solver.
  - unfold could_back. destruct (Z.max_spec others own) as [[_ ->]|[_ ->]].
    + destruct W3 as [?|(c & Hc & (? & ? & ?) & ?)]; [by left|right; exists c; auto].
    + destruct O3 as [?|(c & Hc & (? & ?) & ?)]; [by left|right; exists c; auto].
Qed.

(** ** Honesty *)

(** An advertisement some coverage line could back, or that claims nothing. *)
Definition backed (claims : list Claim) (c : Claim) : Prop :=
  (c_ms c ≤ 0)%Z ∨
  ∃ c', c' ∈ claims ∧ could_back (c_partition c) (c_node c) (c_seq c) c' ∧ (c_ms c ≤ c_ms c')%Z.

(** A [complete] read that was answered. *)
Definition answered (read : ReadRecord) (ms : Z) (keys : gset string) : Prop :=
  rr_concern read = Complete ∧ rr_outcome read = Served ms keys.

(** Coverage up to [ms] is shown somewhere in the run. *)
Definition proven (claims : list Claim) (p : PartitionId) (ms : Z) : Prop :=
  (ms ≤ 0)%Z ∨ ∃ c, c ∈ claims ∧ covers_part p c ∧ (ms ≤ c_ms c)%Z.

(** The records of an owed batch. *)
Definition owed_key (batch : OwedBatch) (key : string) : Prop :=
  ∃ o, (o < ri_record_count (ob_identity batch))%N ∧
    key = record_key (ri_source_incarnation (ob_identity batch))
            ((ri_first_index (ob_identity batch) + o) mod 2 ^ 64).

(** The answer contains every record it owes. *)
Definition complete_answer (journals : JournalSet) (read : ReadRecord) (ms : Z)
    (keys : gset string) : Prop :=
  ∀ batch key, batch ∈ owed_batches journals →
    ob_partition batch = rr_partition read → ri_tenant (ob_identity batch) = rr_tenant read →
    (ob_max_event_time_ms batch ≤ ms)%Z → owed_key batch key → key ∈ keys.

(** A loss was declared for the partition, or for one no line names. *)
Definition loss_declared (journals : JournalSet) (p : PartitionId) : Prop :=
  ∃ line, line ∈ js_lines journals ∧ jl_event line = EvDeclareLoss ∧
    match jl_watermark line with Some claim => wc_partition claim = p | None => True end.

Record honest (journals : JournalSet) (reads : list ReadRecord) : Prop := {
  h_claims c : c ∈ claims_of journals → is_advertisement c = true → backed (claims_of journals) c;
  h_reads read ms keys : read ∈ reads → answered read ms keys →
    proven (claims_of journals) (rr_partition read) ms ∧
    (loss_declared journals (rr_partition read) ∨ complete_answer journals read ms keys);
}.

(** Every rule was exercised. *)
Definition exercised (journals : JournalSet) (reads : list ReadRecord) : Prop :=
  (∃ c, c ∈ claims_of journals ∧ is_advertisement c = true) ∧
  ∃ read ms keys, read ∈ reads ∧ answered read ms keys ∧ ¬ loss_declared journals (rr_partition read).

Lemma loss_fold scope lines p :
  excuses (foldl loss_step scope lines) p = true ↔
  excuses scope p = true ∨ ∃ line, line ∈ lines ∧ jl_event line = EvDeclareLoss ∧
    match jl_watermark line with Some claim => wc_partition claim = p | None => True end.
Proof.
  revert scope. induction lines as [|l lines IH]; intros scope; simpl; [set_solver|].
  rewrite IH. setoid_rewrite elem_of_cons.
  assert (excuses (loss_step scope l) p = true ↔ excuses scope p = true ∨ jl_event l = EvDeclareLoss ∧
    match jl_watermark l with Some claim => wc_partition claim = p | None => True end) as ->.
  { unfold loss_step. case_decide; [|naive_solver]. unfold excuses.
    destruct (jl_watermark l); simpl; rewrite ?orb_true_iff, ?bool_decide_eq_true; set_solver. }
  naive_solver.
Qed.

Lemma excuses_spec journals p :
  excuses (loss_scope_of journals) p = true ↔ loss_declared journals p.
Proof. unfold loss_scope_of. rewrite loss_fold. unfold excuses, loss_declared. simpl. set_solver. Qed.

Lemma check_advertisement_nil claims c :
  check_advertisement (coverage_of claims) c = [] ↔ backed claims c.
Proof.
  unfold check_advertisement, backed.
  rewrite <-(bound_below _ _ _ _ (bound_for_advertisement_spec _ _ _ _)). case_if; naive_solver lia.
Qed.

Lemma elem_of_record_keys batch key : key ∈ record_keys batch ↔ owed_key batch key.
Proof.
  unfold record_keys, owed_key. rewrite elem_of_list_to_set, list_elem_of_fmap.
  setoid_rewrite elem_of_offsets. naive_solver.
Qed.

Lemma missing_nil journals read ms keys :
  missing_under_watermark read ms keys (owed_batches journals) = [] ↔
  complete_answer journals read ms keys.
Proof.
  unfold missing_under_watermark, complete_answer.
  assert (∀ l, omap (missing_of read ms keys) l = [] ↔
            ∀ b, b ∈ l → ∀ key, owed_key b key → key ∈ keys) as ->.
  { intros l. induction l as [|b l IH]; simpl; [set_solver|].
    assert (missing_of read ms keys b = None ↔ ∀ key, owed_key b key → key ∈ keys) as Hb.
    { unfold missing_of. setoid_rewrite <-elem_of_record_keys. case_decide as E; split; try done.
      - intros _ key Hk. destruct (decide (key ∈ keys)); [done|]. set_solver.
      - intros Hall. destruct E. set_solver. }
    setoid_rewrite elem_of_cons. destruct (missing_of read ms keys b); [|naive_solver].
    split; [done|]. intros Hall. assert (Some w = None) by naive_solver. done. }
  setoid_rewrite list_elem_of_filter. unfold owes.
  setoid_rewrite Is_true_true. setoid_rewrite andb_true_iff. setoid_rewrite andb_true_iff.
  setoid_rewrite bool_decide_eq_true. setoid_rewrite Z.leb_le. naive_solver.
Qed.

(** ** The read loop *)

Definition is_answered (read : ReadRecord) : bool :=
  match rr_concern read, rr_outcome read with Complete, Served _ _ => true | _, _ => false end.

Definition read_findings (coverage : Coverage) (loss : LossScope) (owed : list OwedBatch)
    (read : ReadRecord) : list WatermarkFinding :=
  (check_read coverage loss owed
     ({| t_advertisements := 0; t_reads := 0; t_missing_rule_reads := 0 |}, []) read).2.

Definition count (b : bool) : nat := if b then 1 else 0.

Lemma check_read_acc coverage loss owed tally findings read :
  check_read coverage loss owed (tally, findings) read =
  ({| t_advertisements := t_advertisements tally;
      t_reads := t_reads tally + count (is_answered read);
      t_missing_rule_reads := t_missing_rule_reads tally +
        count (is_answered read && negb (excuses loss (rr_partition read))) |},
   findings ++ read_findings coverage loss owed read).
Proof.
  destruct tally as [a n m]. unfold read_findings, check_read, is_answered.
  destruct (rr_concern read); [destruct (rr_outcome read)|]; simpl;
    rewrite ?app_nil_r, ?Nat.add_0_r, ?Nat.add_1_r; [|done..].
  by destruct (excuses loss (rr_partition read)); simpl; rewrite ?Nat.add_0_r, ?Nat.add_1_r.
Qed.

Lemma length_filter_cons {A} (f : A → bool) x l :
  length (filter f (x :: l)) = (count (f x) + length (filter f l))%nat.
Proof. rewrite filter_cons. by destruct (f x). Qed.

Lemma check_reads_fold coverage loss owed tally findings reads :
  foldl (check_read coverage loss owed) (tally, findings) reads =
  ({| t_advertisements := t_advertisements tally;
      t_reads := t_reads tally + length (filter is_answered reads);
      t_missing_rule_reads := t_missing_rule_reads tally +
        length (filter (λ r, is_answered r && negb (excuses loss (rr_partition r))) reads) |},
   findings ++ (reads ≫= read_findings coverage loss owed)).
Proof.
  revert tally findings. induction reads as [|r reads IH]; intros [a n m] findings.
  - simpl. by rewrite app_nil_r, !Nat.add_0_r.
  - cbn [foldl]. rewrite check_read_acc, IH, bind_cons. cbn [t_advertisements t_reads t_missing_rule_reads].
    by rewrite !length_filter_cons, !Nat.add_assoc, app_assoc.
Qed.

Lemma read_findings_nil journals read :
  read_findings (coverage_of (claims_of journals)) (loss_scope_of journals) (owed_batches journals) read
    = [] ↔
  ∀ ms keys, answered read ms keys →
    proven (claims_of journals) (rr_partition read) ms ∧
    (loss_declared journals (rr_partition read) ∨ complete_answer journals read ms keys).
Proof.
  unfold read_findings, check_read, answered.
  destruct (rr_concern read); simpl; [|naive_solver].
  destruct (rr_outcome read) as [ms keys|]; simpl; [|naive_solver].
  pose proof (bound_below _ _ _ ms (run_wide_bound_spec (claims_of journals) (rr_partition read))) as Hb.
  fold (proven (claims_of journals) (rr_partition read) ms) in Hb.
  pose proof (excuses_spec journals (rr_partition read)) as Hx.
  pose proof (missing_nil journals read ms keys) as Hm.
  destruct (Z.ltb_spec (run_wide_bound (coverage_of (claims_of journals)) (rr_partition read)) ms).
  - assert (¬ proven (claims_of journals) (rr_partition read) ms) by (rewrite <-Hb; lia).
    destruct (excuses _ _); naive_solver.
  - assert (proven (claims_of journals) (rr_partition read) ms) by (rewrite <-Hb; lia).
    destruct (excuses _ _); simpl; [naive_solver|]. rewrite Hm.
    assert (¬ loss_declared journals (rr_partition read)) by (rewrite <-Hx; done). naive_solver.
Qed.

Lemma honest_findings journals reads :
  (filter is_advertisement (claims_of journals) ≫= check_advertisement (coverage_of (claims_of journals)))
  ++ (reads ≫= read_findings (coverage_of (claims_of journals)) (loss_scope_of journals)
                 (owed_batches journals)) = [] ↔ honest journals reads.
Proof.
  rewrite app_nil, !bind_nil. setoid_rewrite check_advertisement_nil.
  setoid_rewrite read_findings_nil. setoid_rewrite list_elem_of_filter. setoid_rewrite Is_true_true.
  split; [intros []; split; eauto|intros []; split; eauto]. naive_solver.
Qed.

Lemma filter_length_zero {A} (P : A → Prop) `{∀ x, Decision (P x)} (l : list A) :
  (length (filter P l) =? 0)%nat = false ↔ ∃ x, x ∈ l ∧ P x.
Proof.
  rewrite Nat.eqb_neq. split.
  - intros Hn. destruct (filter P l) as [|x xs] eqn:E; [done|].
    assert (x ∈ filter P l) as Hx by (rewrite E; by left). apply list_elem_of_filter in Hx. naive_solver.
  - intros (x & Hx & HP) E%nil_length_inv.
    assert (x ∈ filter P l) as Hin by (by apply list_elem_of_filter). rewrite E in Hin. set_solver.
Qed.

Lemma exercised_counts journals reads :
  exercised journals reads ↔
  (length (filter is_advertisement (claims_of journals)) =? 0)%nat = false ∧
  (length (filter (λ r, is_answered r && negb (excuses (loss_scope_of journals) (rr_partition r)))
     reads) =? 0)%nat = false.
Proof.
  rewrite !filter_length_zero. unfold exercised. setoid_rewrite Is_true_true.
  setoid_rewrite andb_true_iff. setoid_rewrite negb_true_iff.
  assert (∀ r, excuses (loss_scope_of journals) (rr_partition r) = false ↔
               ¬ loss_declared journals (rr_partition r)) as Hx.
  { intros r. rewrite <-excuses_spec. by destruct (excuses _ _). }
  setoid_rewrite Hx.
  assert (∀ r, is_answered r = true ↔ ∃ ms keys, answered r ms keys) as Ha.
  { intros r. unfold is_answered, answered. destruct (rr_concern r), (rr_outcome r); naive_solver. }
  setoid_rewrite Ha. naive_solver.
Qed.

Lemma watermark_honesty_spec journals reads :
  (passed (check journals reads) ↔ honest journals reads ∧ exercised journals reads) ∧
  (is_violation (check journals reads) = true ↔
     claims_of journals ≠ [] ∧ ¬ honest journals reads).
Proof.
  rewrite exercised_counts, <-honest_findings. unfold check.
  destruct (claims_of journals) as [|c cs] eqn:E.
  { split; [split; [by intros [? [=]]|naive_solver]|naive_solver]. }
  rewrite <-E in *. rewrite check_reads_fold. simpl t_advertisements. simpl t_reads.
  simpl t_missing_rule_reads. set (findings := _ ++ _).
  assert (claims_of journals ≠ []) as Hne by (by rewrite E).
  destruct findings as [|f fs]; [|split; [split; [by intros [? [=]]|naive_solver]|naive_solver]].
  unfold vacuity; cbn [t_advertisements t_reads t_missing_rule_reads].
  set (a := length (filter is_advertisement _)). set (m := length (filter (λ r, _ && _) _)).
  set (n := length (filter is_answered reads)).
  assert (m ≤ n)%nat as Hmn.
  { unfold m, n. clear. induction reads as [|r reads IH]; [done|].
    rewrite !length_filter_cons. destruct (is_answered r), (excuses _ _); simpl; lia. }
  destruct (Nat.eqb_spec a 0); simpl; [split; [split; [by intros [? [=]]|naive_solver]|naive_solver]|].
  destruct (Nat.eqb_spec n 0); simpl.
  { split; [split; [by intros [? [=]]|]|naive_solver]. intros (_ & _ & Hm).
    apply Nat.eqb_neq in Hm. lia. }
  destruct (Nat.eqb_spec m 0); simpl; [split; [split; [by intros [? [=]]|naive_solver]|naive_solver]|].
  rewrite pass_passed by lia. split; [split; [done|intros _; by eexists]|naive_solver].
Qed.

(** The watermark verdict is exact.  The run is convicted exactly when some
    watermark value was journaled and the run is not honest: an advertisement
    above everything other nodes committed and everything its own node had
    committed before it, a [complete] read served above all coverage the
    journals show, or an answer that lacks a record acked ahead of the
    watermark.  It passes exactly when it is honest, something was advertised,
    and an answered read was held to the missing-record rule. *)
Theorem watermark_honesty_exact journals reads :
  (passed (check journals reads) ↔ honest journals reads ∧ exercised journals reads) ∧
  (is_violation (check journals reads) = true ↔
     claims_of journals ≠ [] ∧ ¬ honest journals reads).
Proof. apply watermark_honesty_spec. Qed.
