(* ===== verification/LatestView.v ===== *)
(** * The latest-view predicate

    Models [crates/duckspout-judge/src/predicates/latest_view.rs]: the served
    [<dataset>_latest] view must equal the fold of the acked changelog in
    [(origin, seq)] order. *)

From S2P Require Import Prelude Types Ports Evidence Verdict Journal BTree FinalState.

Record LatestViewFinding := {
  lf_dataset : DatasetId;
  lf_tenant : TenantId;
  lf_key : string;
  lf_expected : option string;
  lf_served : option string;
}.

(** Why no verdict was reached. *)
Inductive LatestViewReason :=
| NoAckedChangelog
| AckedTwice (previous entry : ChangelogEntry)
| ViewFailed (err : ViewQueryError)
| NoRowKnowable.

(** [FoldOrder], [RecordSlot], [RowKey] *)
Definition fold_order (entry : ChangelogEntry) : NodeId * N :=
  (ce_origin entry, ce_changelog_seq entry).
Definition record_slot (entry : ChangelogEntry) : DatasetId * PartitionId * NodeId * N :=
  (ce_dataset entry, ce_partition entry, ce_origin entry, ce_changelog_seq entry).
Definition row_key (entry : ChangelogEntry) : DatasetId * TenantId * string :=
  (ce_dataset entry, ce_tenant entry, ce_changelog_key entry).

Abbreviation RecordMap := (gmap (string * string * string * N) ChangelogEntry) (only parsing).
Abbreviation RowMap := (gmap (string * string * string) ChangelogEntry) (only parsing).

(** The loop of [dedup_records]. *)
Fixpoint dedup_loop (by_record : RecordMap) (acked : list ChangelogEntry) :
    result RecordMap (ChangelogEntry * ChangelogEntry) :=
  match acked with
  | [] => Ok by_record
  | entry :: acked =>
      match by_record !! record_slot entry with
      | Some previous =>
          if decide (previous = entry)
          then dedup_loop (<[record_slot entry := entry]> by_record) acked
          else Err (previous, entry)
      | None => dedup_loop (<[record_slot entry := entry]> by_record) acked
      end
  end.

(** [dedup_records] *)
Definition dedup_records (acked : list ChangelogEntry) :
    result RecordMap (ChangelogEntry * ChangelogEntry) :=
  dedup_loop ∅ acked.

(** The body of the loop of [fold_winners]. *)
Definition winner_step (winners : RowMap) (entry : ChangelogEntry) : RowMap :=
  match winners !! row_key entry with
  | Some seen =>
      if decide (ord_le (fold_order entry) (fold_order seen)) then winners
      else <[row_key entry := entry]> winners
  | None => <[row_key entry := entry]> winners
  end.

(** [fold_winners] *)
Definition fold_winners (by_record : RecordMap) : RowMap :=
  foldl winner_step ∅ (btree_iter by_record).*2.

(** [winning_value] *)
Definition winning_value (entry : ChangelogEntry) : option string :=
  if ce_tombstone entry then None else ce_value entry.

(** [unresolved_rows] *)
Definition unresolved_rows (journals : JournalSet) : gset (string * string * string) :=
  list_to_set (row_key <$> (changelog_events journals EvClientTimeout).*2).

(** The acked changelog. *)
Definition acked_entries (journals : JournalSet) : list ChangelogEntry :=
  (changelog_events journals EvClientAck).*2.

(** [served_views.get(dataset).and_then(..).and_then(..).cloned()] *)
Definition served_value (served_views : gmap DatasetId ServedView)
    (row : DatasetId * TenantId * string) : option string :=
  let '(dataset, tenant, key) := row in
  view ← served_views !! dataset;
  rows ← (view : gmap string (gmap string string)) !! tenant;
  (rows : gmap string string) !! key.

Section check.
Context {V : Type} `{LatestView V}.

(** The read-back loop of [check]. *)
Fixpoint read_views (v : V) (served_views : gmap DatasetId ServedView)
    (datasets : list DatasetId) : result (gmap DatasetId ServedView) ViewQueryError :=
  match datasets with
  | [] => Ok served_views
  | dataset :: datasets =>
      let? rows := view v dataset in
      read_views v (<[dataset := rows]> served_views) datasets
  end.

(** The finding of one row, if the view disagrees. *)
Definition check_row (served_views : gmap DatasetId ServedView)
    (e : (DatasetId * TenantId * string) * ChangelogEntry) : list LatestViewFinding :=
  let '((dataset, tenant, key), winner) := e in
  let expected := winning_value winner in
  let served := served_value served_views (dataset, tenant, key) in
  if decide (served = expected) then []
  else [{| lf_dataset := dataset; lf_tenant := tenant; lf_key := key;
           lf_expected := expected; lf_served := served |}].

(** The rows [check] judges. *)
Definition judged_rows (unresolved : gset (string * string * string)) (winners : RowMap) :
    list ((DatasetId * TenantId * string) * ChangelogEntry) :=
  filter (λ e, e.1 ∉ unresolved) (btree_iter winners).

(** [check] *)
Definition check (journals : JournalSet) (v : V) : Verdict LatestViewFinding LatestViewReason :=
  let acked := acked_entries journals in
  match acked with
  | [] => NoVerdict NoAckedChangelog
  | _ =>
      match dedup_records acked with
      | Err (previous, entry) => NoVerdict (AckedTwice previous entry)
      | Ok by_record =>
          let unresolved := unresolved_rows journals in
          let winners := fold_winners by_record in
          let datasets : gset DatasetId := list_to_set ((λ e, e.1.1.1) <$> map_to_list winners) in
          match read_views v ∅ (btree_elements datasets) with
          | Err err => NoVerdict (ViewFailed err)
          | Ok served_views =>
              let judged := judged_rows unresolved winners in
              match judged ≫= check_row served_views with
              | [] => pass (length judged) NoRowKnowable
              | findings => Violation findings
              end
          end
      end
  end.
End check.

(** ** The fold *)

Definition consistent (acked : list ChangelogEntry) : Prop :=
  ∀ e1 e2, e1 ∈ acked → e2 ∈ acked → record_slot e1 = record_slot e2 → e1 = e2.

(** The map of the acked records. *)
Definition records_of (acked : list ChangelogEntry) (by_record : RecordMap) : Prop :=
  ∀ slot e, by_record !! slot = Some e ↔ e ∈ acked ∧ record_slot e = slot.

Lemma records_of_snoc acked m e :
  records_of acked m → consistent (acked ++ [e]) →
  records_of (acked ++ [e]) (<[record_slot e := e]> m).
Proof.
  intros Hr Hc slot e'. rewrite lookup_insert_Some, elem_of_app, list_elem_of_singleton, (Hr slot e').
  split.
  - intros [[<- ->]|[_ [? ?]]]; auto.
  - intros [[Hin| ->] <-]; [|by left]. destruct (decide (record_slot e = record_slot e')) as [E|E]; [|auto].
    left. split; [done|]. apply Hc; [| |done]; apply elem_of_app; [right; by left|by left].
Qed.

Lemma consistent_app l1 l2 : consistent (l1 ++ l2) → consistent l1.
Proof. intros Hc e1 e2 H1 H2. apply Hc; apply elem_of_app; auto. Qed.

Lemma dedup_loop_spec acked0 m acked :
  records_of acked0 m → consistent acked0 →
  match dedup_loop m acked with
  | Ok m' => consistent (acked0 ++ acked) ∧ records_of (acked0 ++ acked) m'
  | Err _ => ¬ consistent (acked0 ++ acked)
  end.
Proof.
  revert acked0 m. induction acked as [|e acked IH]; intros acked0 m Hr Hc; simpl.
  { by rewrite app_nil_r. }
  assert (∀ prev, m !! record_slot e = Some prev → prev ∈ acked0 ∧ record_slot prev = record_slot e)
    as Hm by (intros prev; apply Hr).
  rewrite (cons_middle e), app_assoc.
  assert (m !! record_slot e = None ∨ m !! record_slot e = Some e → consistent (acked0 ++ [e])) as Hok.
  { intros Hor e1 e2. rewrite !elem_of_app, !list_elem_of_singleton.
    assert (∀ e', e' ∈ acked0 → record_slot e' = record_slot e → e' = e) as Hx.
    { intros e' Hin Hs. destruct (Hr (record_slot e) e') as [_ Hl].
      specialize (Hl (conj Hin Hs)). destruct Hor; congruence. }
    intros [H1| ->] [H2| ->] Hs; [by apply Hc|by apply Hx|symmetry; by apply Hx|done]. }
  destruct (m !! record_slot e) as [prev|] eqn:E.
  - case_decide as Hp.
    + subst. apply IH; [apply records_of_snoc; auto|auto].
    + intros Hcc%consistent_app. apply Hp. destruct (Hm prev eq_refl) as [Hin Hs].
      apply Hcc; [| |done]; apply elem_of_app; [by left|right; by left].
  - apply IH; [apply records_of_snoc; auto|auto].
Qed.

Lemma dedup_records_spec acked :
  match dedup_records acked with
  | Ok m => consistent acked ∧ records_of acked m
  | Err _ => ¬ consistent acked
  end.
Proof.
  apply (dedup_loop_spec [] ∅ acked).
  - intros slot e. rewrite lookup_empty. set_solver.
  - intros e1 e2 Hin. set_solver.
Qed.

(** [e] is the newest entry of its row: the greatest [(origin, seq)], and of
    several partitions with that pair, the first. *)
Record newest (acked : list ChangelogEntry) (e : ChangelogEntry) : Prop := {
  nw_acked : e ∈ acked;
  nw_order e' : e' ∈ acked → row_key e' = row_key e → ord_le (fold_order e') (fold_order e);
  nw_tie e' : e' ∈ acked → row_key e' = row_key e → fold_order e' = fold_order e →
    ord_le (ce_partition e) (ce_partition e');
}.

Lemma newest_unique acked e e' :
  consistent acked → newest acked e → newest acked e' → row_key e = row_key e' → e = e'.
Proof.
  intros Hc [H1 H2 H3] [H1' H2' H3'] Hk.
  assert (fold_order e = fold_order e') as Ho.
  { apply (anti_symm ord_le); [apply H2'|apply H2]; done. }
  assert (ce_partition e = ce_partition e') as Hp.
  { apply (anti_symm ord_le); [apply H3|apply H3']; done. }
  apply Hc; [done..|]. unfold record_slot, fold_order, row_key in *. congruence.
Qed.

Lemma slot_le_partition e e' :
  ord_le (record_slot e) (record_slot e') → ce_dataset e = ce_dataset e' →
  ord_le (ce_partition e) (ce_partition e').
Proof.
  unfold record_slot. intros Hs Hd.
  destruct Hs as [[_ Hs]|[Hs _]]; simpl in Hs; [|injection Hs as _ -> _; reflexivity].
  destruct Hs as [[_ Hs]|[Hs _]]; simpl in Hs; [|injection Hs as _ ->; reflexivity].
  by destruct Hs as [[Hne _]|[_ Hs]].
Qed.

Definition winners_of (l : list ChangelogEntry) (w : RowMap) : Prop :=
  ∀ row, match w !! row with
         | Some e => row_key e = row ∧ newest l e
         | None => ∀ e, e ∈ l → row_key e ≠ row
         end.

Lemma newest_snoc_other l e x :
  newest l e → row_key x ≠ row_key e → newest (l ++ [x]) e.
Proof.
  intros [H1 H2 H3] Hx. split; [apply elem_of_app; by left|..];
    intros e' [Hin| ->%list_elem_of_singleton]%elem_of_app Hk; auto; done.
Qed.

Lemma winner_step_spec l w x :
  winners_of l w → (∀ y, y ∈ l → ord_le (record_slot y) (record_slot x)) →
  winners_of (l ++ [x]) (winner_step w x).
Proof.
  intros Hw Hs row. pose proof (Hw (row_key x)) as Hx. pose proof (Hw row) as Hrow.
  assert (∀ e, w !! row = Some e → row ≠ row_key x → row_key e = row ∧ newest (l ++ [x]) e) as Hkeep.
  { intros e He Hne. rewrite He in Hrow. destruct Hrow as [<- Hn]. split; [done|].
    by apply newest_snoc_other. }
  assert (w !! row = None → row ≠ row_key x → ∀ e, e ∈ l ++ [x] → row_key e ≠ row) as Hnone.
  { intros He Hne e [Hin| ->%list_elem_of_singleton]%elem_of_app; [|done]. rewrite He in Hrow. auto. }
  unfold winner_step. destruct (w !! row_key x) as [seen|] eqn:Es.
  - destruct Hx as [Hk Hn]. case_decide as Ho.
    + destruct (decide (row = row_key x)) as [->|Hne]; [|case_match; eauto].
      rewrite Es. split; [done|]. destruct Hn as [H1 H2 H3].
      split; [apply elem_of_app; by left|..]; intros e' [Hin| ->%list_elem_of_singleton]%elem_of_app Hk';
        auto. intros _. apply slot_le_partition; [by apply Hs|]. unfold row_key in Hk. congruence.
    + destruct (decide (row = row_key x)) as [->|Hne];
        [rewrite lookup_insert_eq|rewrite lookup_insert_ne by done; case_match; eauto].
      split; [done|]. assert (ord_le (fold_order seen) (fold_order x)) as Hle.
      { by destruct (total ord_le (fold_order seen) (fold_order x)). }
      destruct Hn as [H1 H2 H3].
      split; [apply elem_of_app; right; by left|..];
        intros e' [Hin| ->%list_elem_of_singleton]%elem_of_app Hk'; try reflexivity.
      * trans (fold_order seen); [apply H2; congruence|done].
      * intros He. destruct Ho. rewrite <-He. apply H2; congruence.
  - destruct (decide (row = row_key x)) as [->|Hne];
      [rewrite lookup_insert_eq|rewrite lookup_insert_ne by done; case_match; eauto].
    split; [done|]. split; [apply elem_of_app; right; by left|..];
      intros e' [Hin| ->%list_elem_of_singleton]%elem_of_app Hk'; try reflexivity;
      by destruct (Hx e' Hin).
Qed.

Lemma winner_fold l :
  StronglySorted (λ e e', ord_le (record_slot e) (record_slot e')) l →
  winners_of l (foldl winner_step ∅ l).
Proof.
  induction l as [|x l IH] using rev_ind; intros Hs.
  - intros row. simpl. rewrite lookup_empty. set_solver.
  - apply StronglySorted_snoc_inv in Hs as [Hs Hx]. rewrite foldl_app. by apply winner_step_spec; auto.
Qed.

Lemma records_iter acked m :
  records_of acked m →
  (∀ e, e ∈ (btree_iter m).*2 ↔ e ∈ acked) ∧
  StronglySorted (λ e e', ord_le (record_slot e) (record_slot e')) (btree_iter m).*2.
Proof.
  intros Hr. assert (∀ k e, (k, e) ∈ btree_iter m ↔ e ∈ acked ∧ record_slot e = k) as Hin.
  { intros k e. by rewrite elem_of_btree_iter, (Hr k e). }
  split.
  - intros e. rewrite list_elem_of_fmap. split.
    + intros ([k e'] & -> & [? _]%Hin). done.
    + intros He. exists (record_slot e, e). split; [done|]. by apply Hin.
  - assert (StronglySorted entry_le (btree_iter m)) as Hs.
    { apply StronglySorted_merge_sort; unfold entry_le; [|intros x y; apply (total ord_le)].
      intros x y z. apply transitivity. }
    assert (∀ k e, (k, e) ∈ btree_iter m → record_slot e = k) as Hk by naive_solver.
    clear -Hs Hk. induction Hs as [|[k e] l Hs IH Hf]; simpl; [constructor|]. constructor.
    + apply IH. intros k' e' Hin. apply Hk. by right.
    + apply Forall_forall. intros e' ([k' e''] & -> & Hin)%list_elem_of_fmap.
      pose proof (proj1 (Forall_forall _ _) Hf _ Hin) as Hle. clear Hf. rename Hle into Hf. unfold entry_le in Hf. simpl in *.
      rewrite (Hk k e), (Hk k' e''); [done|by right|by left].
Qed.

(** The fold of the records is the newest entry of each row. *)
Lemma fold_winners_spec acked m :
  records_of acked m → winners_of acked (fold_winners m).
Proof.
  intros Hr. destruct (records_iter acked m Hr) as [Hin Hs].
  pose proof (winner_fold _ Hs) as Hw. intros row. specialize (Hw row). unfold fold_winners.
  destruct (foldl winner_step ∅ _ !! row).
  - destruct Hw as [Hk [H1 H2 H3]]. split; [done|]. split; [by apply Hin|..];
      intros e' He'; apply Hin in He'; auto.
  - intros e He. apply Hw. by apply Hin.
Qed.

Lemma fold_winners_newest acked m row e :
  consistent acked → records_of acked m →
  fold_winners m !! row = Some e ↔ row_key e = row ∧ newest acked e.
Proof.
  intros Hc Hr. pose proof (fold_winners_spec acked m Hr row) as Hw. split.
  - intros He. by rewrite He in Hw.
  - intros [<- Hn]. destruct (fold_winners m !! row_key e) as [e'|].
    + destruct Hw as [Hk Hn']. f_equal. by apply (newest_unique acked).
    + by destruct (Hw e (nw_acked _ _ Hn)).
Qed.

(** ** What the verdict says *)

Section verdict.
Context {V : Type} `{LatestView V}.

(** What the view serves for the row of [e], once read back. *)
Definition agrees (v : V) (e : ChangelogEntry) : Prop :=
  ∃ rows, view v (ce_dataset e) = Ok rows ∧
    (rows !! ce_tenant e ≫= λ r : gmap string string, r !! ce_changelog_key e) = winning_value e.

(** The newest entry of a row whose outcome the run knows. *)
Definition judged (journals : JournalSet) (e : ChangelogEntry) : Prop :=
  newest (acked_entries journals) e ∧ row_key e ∉ unresolved_rows journals.

(** The view of every acked dataset can be read back. *)
Definition readable (journals : JournalSet) (v : V) : Prop :=
  ∀ e, e ∈ acked_entries journals → ∃ rows, view v (ce_dataset e) = Ok rows.

Lemma read_views_spec v served datasets :
  match read_views v served datasets with
  | Ok served' => ∀ d, (d ∈ datasets → ∃ rows, view v d = Ok rows ∧ served' !! d = Some rows) ∧
                       (d ∉ datasets → served' !! d = served !! d)
  | Err err => ∃ d, d ∈ datasets ∧ view v d = Err err
  end.
Proof.
  revert served. induction datasets as [|d datasets IH]; intros served; simpl.
  { intros d. split; [set_solver|done]. }
  destruct (view v d) as [rows|err] eqn:Ed; [|exists d; by split; [left|]].
  specialize (IH (<[d := rows]> served)). destruct (read_views _ _ _) as [served'|err].
  - intros d'. destruct (IH d') as [H1 H2]. destruct (decide (d' ∈ datasets)) as [Hin|Hin].
    + split; [by auto|]. rewrite not_elem_of_cons. naive_solver.
    + specialize (H2 Hin). rewrite H2. split.
      * intros [->|?]%elem_of_cons; [|done]. exists rows. by rewrite lookup_insert_eq.
      * rewrite not_elem_of_cons. intros [? _]. by rewrite lookup_insert_ne.
  - destruct IH as (d' & Hd' & He). exists d'. by split; [right|].
Qed.

Lemma elem_of_datasets journals m d :
  records_of (acked_entries journals) m →
  d ∈ btree_elements (list_to_set ((λ e, e.1.1.1) <$> map_to_list (fold_winners m)) : gset DatasetId)
  ↔ ∃ e, e ∈ acked_entries journals ∧ ce_dataset e = d.
Proof.
  intros Hr. rewrite elem_of_btree_elements, elem_of_list_to_set, list_elem_of_fmap.
  pose proof (fold_winners_spec _ _ Hr) as Hw. split.
  - intros ([[[d' t] k] e] & -> & Hin). apply elem_of_map_to_list in Hin.
    specialize (Hw (d', t, k)). rewrite Hin in Hw. destruct Hw as [Hk Hn]. exists e.
    split; [apply Hn|]. by injection Hk.
  - intros (e & He & <-). specialize (Hw (row_key e)). destruct (fold_winners m !! row_key e) as [e'|] eqn:E.
    + exists (row_key e, e'). split; [done|]. by apply elem_of_map_to_list.
    + by destruct (Hw e He).
Qed.

Lemma elem_of_judged_rows journals m row e :
  consistent (acked_entries journals) → records_of (acked_entries journals) m →
  (row, e) ∈ judged_rows (unresolved_rows journals) (fold_winners m) ↔
  row = row_key e ∧ judged journals e.
Proof.
  intros Hc Hr. unfold judged_rows, judged. rewrite list_elem_of_filter, elem_of_btree_iter. simpl.
  rewrite (fold_winners_newest _ _ row e Hc Hr). naive_solver.
Qed.

Lemma check_row_nil v served e :
  (∃ rows, view v (ce_dataset e) = Ok rows ∧ served !! ce_dataset e = Some rows) →
  check_row served (row_key e, e) = [] ↔ agrees v e.
Proof.
  intros (rows & Hv & Hs). unfold check_row, agrees, row_key, served_value. rewrite Hs. simpl.
  case_decide as E.
  - split; [|done]. intros _. by exists rows.
  - split; [done|]. intros (rows' & Hv' & Heq). rewrite Hv in Hv'. by simplify_eq.
Qed.

(** The views read back for the acked datasets. *)
Definition views_read (journals : JournalSet) (v : V) (served : gmap DatasetId ServedView) : Prop :=
  ∀ e, e ∈ acked_entries journals →
    ∃ rows, view v (ce_dataset e) = Ok rows ∧ served !! ce_dataset e = Some rows.

Lemma read_views_acked journals v m :
  records_of (acked_entries journals) m →
  match read_views v ∅ (btree_elements
          (list_to_set ((λ e, e.1.1.1) <$> map_to_list (fold_winners m)) : gset DatasetId)) with
  | Ok served => views_read journals v served
  | Err err => ¬ readable journals v
  end.
Proof.
  intros Hr. set (ds := btree_elements _). pose proof (read_views_spec v ∅ ds) as Hv.
  assert (∀ d, d ∈ ds ↔ ∃ e, e ∈ acked_entries journals ∧ ce_dataset e = d) as Hds.
  { intros d. by apply elem_of_datasets. }
  destruct (read_views v ∅ ds) as [served|err].
  - intros e He. apply Hv, Hds. eauto.
  - destruct Hv as (d & Hin & He). apply Hds in Hin as (e & Hin & <-). intros Hrd.
    destruct (Hrd e Hin). congruence.
Qed.

Section rows.
Context (journals : JournalSet) (v : V) (m : RecordMap) (served : gmap DatasetId ServedView).
Context (Hc : consistent (acked_entries journals)) (Hr : records_of (acked_entries journals) m)
  (Hs : views_read journals v served).

Let rows := judged_rows (unresolved_rows journals) (fold_winners m).

Lemma judged_some : (0 < length rows)%nat ↔ ∃ e, judged journals e.
Proof.
  unfold rows. pose proof (elem_of_judged_rows journals m) as Hrows.
  destruct (judged_rows _ _) as [|[row e] rows'].
  - split; [simpl; lia|]. intros [e He]. specialize (Hrows (row_key e) e Hc Hr).
    set_solver.
  - split; [|simpl; lia]. intros _. exists e. apply (Hrows row e Hc Hr). by left.
Qed.

Lemma judged_row_nil e : judged journals e → check_row served (row_key e, e) = [] ↔ agrees v e.
Proof. intros [Hn _]. apply check_row_nil, Hs, Hn. Qed.

Lemma judged_findings_nil :
  rows ≫= check_row served = [] ↔ ∀ e, judged journals e → agrees v e.
Proof.
  rewrite bind_nil. split.
  - intros Hn e He. apply judged_row_nil; [done|]. apply Hn. by apply elem_of_judged_rows.
  - intros Ha [row e] Hin. apply elem_of_judged_rows in Hin as [-> He]; [|done..].
    apply judged_row_nil; auto.
Qed.

Lemma judged_findings_cons f fs :
  rows ≫= check_row served = f :: fs → ∃ e, judged journals e ∧ ¬ agrees v e.
Proof.
  intros Ef. assert (f ∈ rows ≫= check_row served) as Hin by (rewrite Ef; by left).
  apply list_elem_of_bind in Hin as ([row e] & Hf & Hin).
  apply elem_of_judged_rows in Hin as [-> He]; [|done..].
  exists e. split; [done|]. intros Hag. apply judged_row_nil in Hag; [|done]. rewrite Hag in Hf. set_solver.
Qed.
End rows.

Lemma latest_view_spec journals (v : V) :
  (passed (check journals v) ↔
     consistent (acked_entries journals) ∧ readable journals v ∧
     (∃ e, judged journals e) ∧ ∀ e, judged journals e → agrees v e) ∧
  (is_violation (check journals v) = true ↔
     consistent (acked_entries journals) ∧ readable journals v ∧
     ∃ e, judged journals e ∧ ¬ agrees v e).
Proof.
  unfold check. destruct (acked_entries journals) as [|a acked] eqn:Ea.
  { assert (∀ e, ¬ judged journals e) as Hj.
    { intros e [[Hin _ _] _]. rewrite Ea in Hin. set_solver. }
    split; [split; [by intros [? [=]]|naive_solver]|naive_solver]. }
  rewrite <-Ea. pose proof (dedup_records_spec (acked_entries journals)) as Hd.
  destruct (dedup_records _) as [m|[]].
  2:{ split; [split; [by intros [? [=]]|naive_solver]|naive_solver]. }
  destruct Hd as [Hc Hr]. pose proof (read_views_acked journals v m Hr) as Hv.
  destruct (read_views _ _ _) as [served|err].
  2:{ split; [split; [by intros [? [=]]|naive_solver]|naive_solver]. }
  assert (readable journals v) as Hrd by (intros e He; destruct (Hv e He) as (? & ? & _); eauto).
  pose proof (judged_some journals v m served Hc Hr Hv) as Hlen.
  pose proof (judged_findings_nil journals v m served Hc Hr Hv) as Hall.
  pose proof (judged_findings_cons journals v m served Hc Hr Hv) as Hex.
  destruct (judged_rows _ _ ≫= check_row served) as [|f fs].
  - unfold pass. destruct (Nat.eqb_spec (length (judged_rows (unresolved_rows journals) (fold_winners m))) 0).
    + split; [|naive_solver]. split; [by intros [? [=]]|]. intros (_ & _ & He%Hlen & _). lia.
    + split; [|naive_solver]. split; [|intros _; by eexists]. intros _. split_and!; [done..| |by apply Hall].
      apply Hlen. lia.
  - split; [split; [by intros [? [=]]|naive_solver]|]. simpl. naive_solver.
Qed.
(** The latest-view verdict is exact, and depends only on what was acked: the
    served view is held to the newest entry of every acked row, by [(origin,
    seq)], whose outcome no timed-out write leaves open.  The run passes exactly
    when no record was acked with two contents, every view was read back, some
    row is judged, and every judged row is served as its newest entry says (a
    tombstone: not at all); it is convicted exactly when some judged row is
    not. *)
Theorem latest_view_exact journals (v : V) :
  (passed (check journals v) ↔
     consistent (acked_entries journals) ∧ readable journals v ∧
     (∃ e, judged journals e) ∧ ∀ e, judged journals e → agrees v e) ∧
  (is_violation (check journals v) = true ↔
     consistent (acked_entries journals) ∧ readable journals v ∧
     ∃ e, judged journals e ∧ ¬ agrees v e).
Proof. apply latest_view_spec. Qed.

Lemma acked_same_entries journals journals' :
  js_lines journals ≡ₚ js_lines journals' →
  (∀ e, e ∈ acked_entries journals ↔ e ∈ acked_entries journals') ∧
  unresolved_rows journals = unresolved_rows journals'.
Proof.
  intros Hp. assert (∀ ev, changelog_events journals ev ≡ₚ changelog_events journals' ev) as Hev.
  { intros ev. unfold changelog_events. by rewrite Hp. }
  split.
  - intros e. unfold acked_entries. by rewrite Hev.
  - apply set_eq. intros row. unfold unresolved_rows. by rewrite !elem_of_list_to_set, Hev.
Qed.

(** The latest-view verdict does not depend on who journaled an entry or when:
    two runs whose journals hold the same lines in any order, whatever the
    takeovers and snapshot rollovers between them, pass together and are
    convicted together. *)
Theorem latest_view_order_irrelevant journals journals' (v : V) :
  js_lines journals ≡ₚ js_lines journals' →
  (passed (check journals v) ↔ passed (check journals' v)) ∧
  is_violation (check journals v) = is_violation (check journals' v).
Proof.
  intros [Hin Hun]%acked_same_entries.
  destruct (latest_view_spec journals v) as [Hp Hv], (latest_view_spec journals' v) as [Hp' Hv'].
  assert (consistent (acked_entries journals) ↔ consistent (acked_entries journals')) as Hc.
  { unfold consistent. by setoid_rewrite Hin. }
  assert (readable journals v ↔ readable journals' v) as Hr.
  { unfold readable. by setoid_rewrite Hin. }
  assert (∀ e, judged journals e ↔ judged journals' e) as Hj.
  { intros e. unfold judged. rewrite Hun.
    split; intros [[H1 H2 H3] Hu]; (split; [|done]); split; try (by apply Hin);
      intros e' He'; apply Hin in He'; auto. }
  split; [rewrite Hp, Hp', Hc, Hr; by setoid_rewrite Hj|].
  apply eq_true_iff_eq. rewrite Hv, Hv', Hc, Hr. by setoid_rewrite Hj.
Qed.
End verdict.
