(* ===== verification/RetentionHonesty.v ===== *)
(** * The retention-honesty predicate

    Models [crates/duckspout-judge/src/predicates/retention_honesty.rs]: every
    expired changelog part must be covered by one committed snapshot, and no
    acked row whose newest entry an expired part held may have lost its value. *)

From S2P Require Import Prelude Types Ports Evidence Verdict Journal BTree FinalState LatestView.

Inductive RetentionFinding :=
| UncoveredExpiry (dataset : DatasetId) (partition : PartitionId) (part : PartName)
    (coverage : list OriginSeqRange) (snapshots_considered : nat)
| LastValueUnreachable (dataset : DatasetId) (tenant : TenantId) (key : string)
    (expected served : option string) (expired_part : PartName).

(** Why no verdict was reached. *)
Inductive RetentionReason :=
| NoExpiry
| PartsFailed (err : PartsQueryError)
| ChangelogAckedTwice (previous entry : ChangelogEntry)
| LastValueViewFailed (err : ViewQueryError)
| NoGuardedExpiry
| NoHeldRow
| RetentionNothingChecked.

(** [covers_arrival] *)
Definition covers_arrival (snapshot : CommittedSnapshot) (expired : list OriginSeqRange) : bool :=
  forallb (λ range,
    existsb (λ covering,
      bool_decide (origin covering = origin range) &&
      (first_seq covering <=? first_seq range)%N && (last_seq range <=? last_seq covering)%N)
      (cs_origin_coverage snapshot)) expired.

(** [coverage_contains] *)
Definition coverage_contains (coverage : list OriginSeqRange) (entry : ChangelogEntry) : bool :=
  existsb (λ range,
    bool_decide (origin range = ce_origin entry) &&
    (first_seq range <=? ce_changelog_seq entry)%N &&
    (ce_changelog_seq entry <=? last_seq range)%N) coverage.

(** The parts Keep Rule 10 guards. *)
Definition is_guarded (part : PartRetention) : bool :=
  bool_decide (pr_dataset_kind part = Changelog) && negb (bool_decide (pr_part_kind part = Snapshot)).

Definition expired_parts (journals : JournalSet) : list PartRetention :=
  (part_events journals EvExpire).*2.

(** The expired part that held a row's newest entry. *)
Definition holds (entry : ChangelogEntry) (part : PartRetention) : bool :=
  bool_decide (pr_dataset part = ce_dataset entry) &&
  bool_decide (pr_partition part = ce_partition entry) &&
  coverage_contains (pr_origin_coverage part) entry.

Section check.
Context {P V : Type} `{CommittedParts P, LatestView V}.

(** The read-back loop of obligation (A). *)
Fixpoint read_snapshots (parts : P) (covering : gmap (DatasetId * PartitionId) (list CommittedSnapshot))
    (scopes : list (DatasetId * PartitionId)) :
    result (gmap (DatasetId * PartitionId) (list CommittedSnapshot)) PartsQueryError :=
  match scopes with
  | [] => Ok covering
  | (dataset, partition) :: scopes =>
      let? found := snapshots parts dataset partition in
      read_snapshots parts (<[(dataset, partition) := found]> covering) scopes
  end.

(** The body of the expiry loop. *)
Definition check_expiry (covering : gmap (DatasetId * PartitionId) (list CommittedSnapshot))
    (part : PartRetention) : list RetentionFinding :=
  let found := default [] (covering !! (pr_dataset part, pr_partition part)) in
  if existsb (λ snapshot, covers_arrival snapshot (pr_origin_coverage part)) found then []
  else [UncoveredExpiry (pr_dataset part) (pr_partition part) (pr_part part)
          (pr_origin_coverage part) (length found)].

(** The row loop of [check_last_values]; [served_views] caches the read-backs. *)
Fixpoint last_values (v : V) (expired : list PartRetention) (served_views : gmap DatasetId ServedView)
    (rows : list ((DatasetId * TenantId * string) * ChangelogEntry)) :
    result (nat * list RetentionFinding) ViewQueryError :=
  match rows with
  | [] => Ok (0, [])
  | ((dataset, tenant, key), winner) :: rows =>
      match find (holds winner) expired with
      | None => last_values v expired served_views rows
      | Some holder =>
          let? served_views :=
            match served_views !! dataset with
            | Some _ => Ok served_views
            | None => let? found := view v dataset in Ok (<[dataset := found]> served_views)
            end in
          let expected := winning_value winner in
          let served := served_value served_views (dataset, tenant, key) in
          let finding := if decide (served = expected) then []
                         else [LastValueUnreachable dataset tenant key expected served (pr_part holder)] in
          let? (checked, findings) := last_values v expired served_views rows in
          Ok (S checked, finding ++ findings)
      end
  end.

(** [check_last_values] *)
Definition check_last_values (journals : JournalSet) (expired : list PartRetention) (v : V) :
    result (nat * list RetentionFinding) RetentionReason :=
  match acked_entries journals with
  | [] => Ok (0, [])
  | acked =>
      match dedup_records acked with
      | Err (previous, entry) => Err (ChangelogAckedTwice previous entry)
      | Ok by_record =>
          map_err LastValueViewFailed
            (last_values v expired ∅ (judged_rows (unresolved_rows journals) (fold_winners by_record)))
      end
  end.

(** [check] *)
Definition check (journals : JournalSet) (parts : P) (v : V) :
    Verdict RetentionFinding RetentionReason :=
  let expired := expired_parts journals in
  match expired with
  | [] => NoVerdict NoExpiry
  | _ =>
      let guarded := filter is_guarded expired in
      let scopes : gset (DatasetId * PartitionId) :=
        list_to_set ((λ part, (pr_dataset part, pr_partition part)) <$> guarded) in
      match read_snapshots parts ∅ (btree_elements scopes) with
      | Err err => NoVerdict (PartsFailed err)
      | Ok covering =>
          let uncovered := guarded ≫= check_expiry covering in
          match check_last_values journals expired v with
          | Err reason => NoVerdict reason
          | Ok (rows_checked, unreachable) =>
              match uncovered ++ unreachable with
              | [] =>
                  if (length guarded =? 0)%nat then NoVerdict NoGuardedExpiry
                  else if (rows_checked =? 0)%nat then NoVerdict NoHeldRow
                  else pass (length guarded + rows_checked) RetentionNothingChecked
              | findings => Violation findings
              end
          end
      end
  end.

(** ** What the verdict says *)

(** A committed snapshot of the part's own partition covers its arrival range. *)
Definition covered (parts : P) (part : PartRetention) : Prop :=
  ∃ found snapshot, snapshots parts (pr_dataset part) (pr_partition part) = Ok found ∧
    snapshot ∈ found ∧
    ∀ range, range ∈ pr_origin_coverage part →
      ∃ covering, covering ∈ cs_origin_coverage snapshot ∧ origin covering = origin range ∧
        (first_seq covering ≤ first_seq range)%N ∧ (last_seq range ≤ last_seq covering)%N.

(** A guarded expiry of the run. *)
Definition guarded_expiry (journals : JournalSet) (part : PartRetention) : Prop :=
  part ∈ expired_parts journals ∧ pr_dataset_kind part = Changelog ∧ pr_part_kind part ≠ Snapshot.

(** A judged row whose newest entry an expired part held. *)
Definition held (journals : JournalSet) (e : ChangelogEntry) : Prop :=
  judged journals e ∧
  ∃ part range, part ∈ expired_parts journals ∧ pr_dataset part = ce_dataset e ∧
    pr_partition part = ce_partition e ∧ range ∈ pr_origin_coverage part ∧
    origin range = ce_origin e ∧ (first_seq range ≤ ce_changelog_seq e ≤ last_seq range)%N.

(** Every read-back the two obligations need was answered. *)
Record answered (journals : JournalSet) (parts : P) (v : V) : Prop := {
  an_parts part : guarded_expiry journals part →
    ∃ found, snapshots parts (pr_dataset part) (pr_partition part) = Ok found;
  an_consistent : consistent (acked_entries journals);
  an_views e : held journals e → ∃ rows, view v (ce_dataset e) = Ok rows;
}.

Lemma existsb_elem {A} (f : A → bool) l : existsb f l = true ↔ ∃ x, x ∈ l ∧ f x = true.
Proof. rewrite existsb_exists. by setoid_rewrite list_elem_of_In. Qed.

Lemma covers_arrival_spec snapshot expired :
  covers_arrival snapshot expired = true ↔
  ∀ range, range ∈ expired →
    ∃ covering, covering ∈ cs_origin_coverage snapshot ∧ origin covering = origin range ∧
      (first_seq covering ≤ first_seq range)%N ∧ (last_seq range ≤ last_seq covering)%N.
Proof.
  unfold covers_arrival. rewrite forallb_forall. setoid_rewrite <-list_elem_of_In.
  setoid_rewrite existsb_elem. repeat setoid_rewrite andb_true_iff.
  setoid_rewrite bool_decide_eq_true. setoid_rewrite N.leb_le. naive_solver.
Qed.

Lemma coverage_contains_spec coverage e :
  coverage_contains coverage e = true ↔
  ∃ range, range ∈ coverage ∧ origin range = ce_origin e ∧
    (first_seq range ≤ ce_changelog_seq e ≤ last_seq range)%N.
Proof.
  unfold coverage_contains. rewrite existsb_elem. repeat setoid_rewrite andb_true_iff.
  setoid_rewrite bool_decide_eq_true. setoid_rewrite N.leb_le. naive_solver.
Qed.

Lemma elem_of_guarded journals part :
  part ∈ filter is_guarded (expired_parts journals) ↔ guarded_expiry journals part.
Proof.
  rewrite list_elem_of_filter. unfold guarded_expiry, is_guarded.
  rewrite Is_true_true, andb_true_iff, negb_true_iff, bool_decide_eq_true, bool_decide_eq_false.
  naive_solver.
Qed.

Lemma read_snapshots_spec parts covering scopes :
  match read_snapshots parts covering scopes with
  | Ok covering' => ∀ s, (s ∈ scopes → ∃ found, snapshots parts s.1 s.2 = Ok found ∧ covering' !! s = Some found) ∧
                         (s ∉ scopes → covering' !! s = covering !! s)
  | Err err => ∃ s, s ∈ scopes ∧ snapshots parts s.1 s.2 = Err err
  end.
Proof.
  revert covering. induction scopes as [|[d p] scopes IH]; intros covering; simpl.
  { intros s. split; [set_solver|done]. }
  destruct (snapshots parts d p) as [found|err] eqn:Ed; [|exists (d, p); by split; [left|]].
  specialize (IH (<[(d, p) := found]> covering)). destruct (read_snapshots _ _ _) as [covering'|err].
  - intros s. destruct (IH s) as [H1 H2]. destruct (decide (s ∈ scopes)) as [Hin|Hin].
    + split; [by auto|]. rewrite not_elem_of_cons. naive_solver.
    + specialize (H2 Hin). rewrite H2. split.
      * intros [->|?]%elem_of_cons; [|done]. exists found. by rewrite lookup_insert_eq.
      * rewrite not_elem_of_cons. intros [? _]. by rewrite lookup_insert_ne.
  - destruct IH as (s & Hs & He). exists s. by split; [right|].
Qed.

(** Obligation (A), for the scopes of the guarded expiries. *)
Lemma snapshots_read journals parts :
  match read_snapshots parts ∅ (btree_elements (list_to_set
          ((λ part, (pr_dataset part, pr_partition part)) <$> filter is_guarded (expired_parts journals))
          : gset (DatasetId * PartitionId))) with
  | Ok covering => ∀ part, guarded_expiry journals part →
      (∃ found, snapshots parts (pr_dataset part) (pr_partition part) = Ok found) ∧
      (check_expiry covering part = [] ↔ covered parts part)
  | Err err => ¬ ∀ part, guarded_expiry journals part →
      ∃ found, snapshots parts (pr_dataset part) (pr_partition part) = Ok found
  end.
Proof.
  set (scopes := btree_elements _).
  assert (∀ s, s ∈ scopes ↔ ∃ part, guarded_expiry journals part ∧ s = (pr_dataset part, pr_partition part)) as Hs.
  { intros s. unfold scopes. rewrite elem_of_btree_elements, elem_of_list_to_set, list_elem_of_fmap.
    setoid_rewrite elem_of_guarded. naive_solver. }
  pose proof (read_snapshots_spec parts ∅ scopes) as Hr.
  destruct (read_snapshots parts ∅ scopes) as [covering|err].
  - intros part Hg. destruct (Hr (pr_dataset part, pr_partition part)) as [Hin _].
    destruct Hin as (found & Hf & Hl); [apply Hs; eauto|]. simpl in Hf. split; [eauto|].
    unfold check_expiry, covered. rewrite Hl. simpl.
    transitivity (existsb (λ snapshot, covers_arrival snapshot (pr_origin_coverage part)) found = true).
    { by destruct (existsb _ _). }
    rewrite existsb_elem. setoid_rewrite covers_arrival_spec. rewrite Hf. naive_solver.
  - destruct Hr as ([d p] & Hin & He). apply Hs in Hin as (part & Hg & [= -> ->]). intros Hall.
    destruct (Hall part Hg). simpl in He. congruence.
Qed.

Lemma find_holder journals e :
  judged journals e → is_Some (find (holds e) (expired_parts journals)) ↔ held journals e.
Proof.
  intros Hj. unfold held, is_Some. split.
  - intros [part [Hin Hh]%find_some]. split; [done|]. unfold holds in Hh.
    rewrite !andb_true_iff, !bool_decide_eq_true, coverage_contains_spec in Hh.
    apply list_elem_of_In in Hin. naive_solver.
  - intros [_ (part & range & Hin & Hd & Hp & Hr & Ho & Hs)].
    destruct (find (holds e) (expired_parts journals)) as [x|] eqn:E; [eauto|]. exfalso.
    apply list_elem_of_In in Hin. pose proof (find_none _ _ E part Hin) as Hf. unfold holds in Hf.
    rewrite (proj2 (coverage_contains_spec (pr_origin_coverage part) e)) in Hf by eauto.
    by rewrite !bool_decide_eq_true_2 in Hf.
Qed.

Lemma served_agrees v served e found :
  view v (ce_dataset e) = Ok found → served !! ce_dataset e = Some found →
  served_value served (row_key e) = winning_value e ↔ agrees v e.
Proof.
  intros Hv Hs. unfold agrees, served_value, row_key. rewrite Hs. simpl. split; [by exists found|].
  intros (found' & Hv' & Heq). rewrite Hv in Hv'. by simplify_eq.
Qed.

Lemma last_values_spec journals v served rows :
  (∀ d found, served !! d = Some found → view v d = Ok found) →
  (∀ row e, (row, e) ∈ rows → row = row_key e ∧ judged journals e) →
  match last_values v (expired_parts journals) served rows with
  | Ok (n, findings) =>
      (∀ row e, (row, e) ∈ rows → held journals e → ∃ found, view v (ce_dataset e) = Ok found) ∧
      (n ≠ 0%nat ↔ ∃ row e, (row, e) ∈ rows ∧ held journals e) ∧
      (findings = [] ↔ ∀ row e, (row, e) ∈ rows → held journals e → agrees v e)
  | Err err => ∃ row e, (row, e) ∈ rows ∧ held journals e ∧ view v (ce_dataset e) = Err err
  end.
Proof.
  revert served. induction rows as [|[row e] rows IH]; intros served Hserved Hrows.
  { simpl. set_solver. }
  destruct (Hrows row e) as [-> Hj]; [by left|].
  assert (∀ r x, (r, x) ∈ rows → r = row_key x ∧ judged journals x) as Hrows' by (intros; apply Hrows; by right).
  pose proof (find_holder journals e Hj) as Hh. cbn [last_values]. unfold row_key at 1.
  destruct (find (holds e) (expired_parts journals)) as [holder|].
  2:{ assert (¬ held journals e) as Hnh by (rewrite <-Hh; by intros [? [=]]).
      specialize (IH served Hserved Hrows').
      destruct (last_values _ _ _ rows) as [[n fs]|]; setoid_rewrite elem_of_cons; naive_solver. }
  assert (held journals e) as He by (apply Hh; eauto).
  set (cache := match served !! ce_dataset e with Some _ => _ | None => _ end).
  assert (match cache with
          | Ok served' => (∀ d found, served' !! d = Some found → view v d = Ok found) ∧
              ∃ found, view v (ce_dataset e) = Ok found ∧ served' !! ce_dataset e = Some found
          | Err err => view v (ce_dataset e) = Err err end) as Hcache.
  { unfold cache. destruct (served !! ce_dataset e) as [found|] eqn:Ed; [by eauto|].
    destruct (view v (ce_dataset e)) as [found|err] eqn:Ev; [|done]. split.
    - intros d f. rewrite lookup_insert_Some. naive_solver.
    - exists found. by rewrite lookup_insert_eq. }
  destruct cache as [served'|err]; [|exists (row_key e), e; split_and!; [by left|done|done]].
  destruct Hcache as [Hserved' (found & Hv & Hl)].
  pose proof (served_agrees v served' e found Hv Hl) as Hag. unfold row_key in Hag.
  specialize (IH served' Hserved' Hrows').
  destruct (last_values _ _ _ rows) as [[n fs]|]; setoid_rewrite elem_of_cons; [|naive_solver].
  destruct IH as (H1 & H2 & H3). split_and!; [naive_solver|naive_solver|].
  rewrite app_nil, H3. case_decide; naive_solver.
Qed.

Lemma check_last_values_spec journals v :
  match check_last_values journals (expired_parts journals) v with
  | Ok (n, findings) =>
      consistent (acked_entries journals) ∧
      (∀ e, held journals e → ∃ found, view v (ce_dataset e) = Ok found) ∧
      (n ≠ 0%nat ↔ ∃ e, held journals e) ∧
      (findings = [] ↔ ∀ e, held journals e → agrees v e)
  | Err _ => ¬ (consistent (acked_entries journals) ∧
                ∀ e, held journals e → ∃ found, view v (ce_dataset e) = Ok found)
  end.
Proof.
  unfold check_last_values. destruct (acked_entries journals) as [|a acked] eqn:Ea.
  { assert (∀ e, ¬ held journals e) as Hn.
    { intros e [[[Hin _ _] _] _]. rewrite Ea in Hin. set_solver. }
    split_and!; [intros ???; set_solver|naive_solver|naive_solver|naive_solver]. }
  rewrite <-Ea. pose proof (dedup_records_spec (acked_entries journals)) as Hd.
  destruct (dedup_records _) as [m|[]]; [|naive_solver]. destruct Hd as [Hc Hr].
  pose proof (last_values_spec journals v ∅ (judged_rows (unresolved_rows journals) (fold_winners m))) as Hl.
  destruct (last_values _ _ _ _) as [[n fs]|err]; simpl; destruct_and?.
  all: assert (∀ row e, (row, e) ∈ judged_rows (unresolved_rows journals) (fold_winners m) ↔
         row = row_key e ∧ judged journals e) as Hrows by (intros; by apply elem_of_judged_rows).
  all: assert (∀ e, held journals e → judged journals e) as Hhj by (by intros e [? _]).
  - destruct Hl as (H1 & H2 & H3); [intros ??; by rewrite lookup_empty|intros row e; apply Hrows|].
    setoid_rewrite Hrows in H1. setoid_rewrite Hrows in H2. setoid_rewrite Hrows in H3. naive_solver.
  - destruct Hl as (row & e & Hin & Hh & He); [intros ??; by rewrite lookup_empty|intros row e; apply Hrows|].
    intros [_ Hall]. destruct (Hall e Hh). congruence.
Qed.

Lemma retention_honesty_spec journals (parts : P) (v : V) :
  let honest := (∀ part, guarded_expiry journals part → covered parts part) ∧
                (∀ e, held journals e → agrees v e) in
  (passed (check journals parts v) ↔
     answered journals parts v ∧ (∃ part, guarded_expiry journals part) ∧
     (∃ e, held journals e) ∧ honest) ∧
  (is_violation (check journals parts v) = true ↔ answered journals parts v ∧ ¬ honest).
Proof.
  intros honest. unfold check. destruct (expired_parts journals) as [|x xs] eqn:Ex.
  { assert (∀ part, ¬ guarded_expiry journals part) as Hg.
    { intros part [Hin _]. rewrite Ex in Hin. set_solver. }
    assert (∀ e, ¬ held journals e) as Hh.
    { intros e [_ (part & _ & Hin & _)]. rewrite Ex in Hin. set_solver. }
    split; [split; [by intros [? [=]]|naive_solver]|]. split; [done|]. intros [_ Hn]. destruct Hn.
    unfold honest. naive_solver. }
  rewrite <-Ex. pose proof (snapshots_read journals parts) as Hs.
  destruct (read_snapshots _ _ _) as [covering|err].
  2:{ assert (¬ answered journals parts v) as Hna by (intros [??]; naive_solver).
      split; [split; [by intros [? [=]]|naive_solver]|naive_solver]. }
  pose proof (check_last_values_spec journals v) as Hl.
  destruct (check_last_values _ _ _) as [[n fs]|reason].
  2:{ assert (¬ answered journals parts v) as Hna by (intros [??]; naive_solver).
      split; [split; [by intros [? [=]]|naive_solver]|naive_solver]. }
  destruct Hl as (Hc & Hv & Hn & Hfs).
  assert (answered journals parts v) as Han by (split; [naive_solver|done|done]).
  assert (filter is_guarded (expired_parts journals) ≫= check_expiry covering = [] ↔
          ∀ part, guarded_expiry journals part → covered parts part) as Hunc.
  { rewrite bind_nil. setoid_rewrite elem_of_guarded. naive_solver. }
  assert (length (filter is_guarded (expired_parts journals)) ≠ 0%nat ↔
          ∃ part, guarded_expiry journals part) as Hg.
  { setoid_rewrite <-elem_of_guarded. destruct (filter _ _); set_solver. }
  pose proof (app_nil (filter is_guarded (expired_parts journals) ≫= check_expiry covering) fs) as Happ.
  rewrite Hunc, Hfs in Happ. fold honest in Happ.
  destruct (_ ++ fs) as [|f l].
  - destruct (Nat.eqb_spec (length (filter is_guarded (expired_parts journals))) 0);
      [split; [split; [by intros [? [=]]|naive_solver]|naive_solver]|].
    destruct (Nat.eqb_spec n 0); [split; [split; [by intros [? [=]]|naive_solver]|naive_solver]|].
    rewrite pass_passed by lia. split; [split; [naive_solver|intros _; by eexists]|naive_solver].
  - split; [split; [by intros [? [=]]|naive_solver]|]. simpl. naive_solver.
Qed.

(** The retention verdict is exact.  Both obligations are held to the
    read-back alone: the run passes exactly when every read-back it needs was
    answered, some guarded changelog part was expired and some acked row's
    newest entry was in an expired part, every guarded expiry is covered by one
    committed snapshot of its own partition, and every such row is still served
    with its last value; with the read-backs answered it is convicted exactly
    when one of the two fails. *)
Theorem retention_honesty_exact journals (parts : P) (v : V) :
  let honest := (∀ part, guarded_expiry journals part → covered parts part) ∧
                (∀ e, held journals e → agrees v e) in
  (passed (check journals parts v) ↔
     answered journals parts v ∧ (∃ part, guarded_expiry journals part) ∧
     (∃ e, held journals e) ∧ honest) ∧
  (is_violation (check journals parts v) = true ↔ answered journals parts v ∧ ¬ honest).
Proof. apply retention_honesty_spec. Qed.
End check.
