(* ===== verification/CacheTransparency.v ===== *)
(** * The cache-transparency predicate

    Models [crates/duckspout-judge/src/predicates/cache_transparency.rs]: two
    [complete] answers to one question at one pinned coverage must be the same
    row set whatever the cache state, and no residency action may hold up or
    fail-close a read that raced it. *)

From S2P Require Import Prelude Types Ports Evidence Verdict Journal BTree RunManifest.

Definition DEFAULT_MAX_RACING_READ_MS : N := 1000.
Definition MIN_UNRACED_BASELINE_SAMPLES : nat := 3.

Inductive CacheTransparencyFinding :=
| RowSetDiffers (tenant : string) (partition : PartitionId) (query : string)
    (complete_through_ms : Z) (reference_ops other_ops : N)
    (only_in_reference only_in_other : list string)
| BlockedRead (serving_node : NodeId) (tenant : string) (partition : PartitionId)
    (query : string) (concern : ReadConcern) (latency_ms baseline_ms : N)
    (baseline_samples : nat) (ceiling_ms : N)
| RefusedWhileRacing (serving_node : NodeId) (tenant : string) (partition : PartitionId)
    (query : string) (concern : ReadConcern) (reason : string).

(** Why no verdict was reached. *)
Inductive CacheReason :=
| NoProbe
| NoResidencyEvidence
| NoTwoStates
| NoRace
| CacheNothingChecked.

(** A read and the probe of the cache state that served it. *)
Abbreviation Probed := (ReadRecord * CacheProbe)%type (only parsing).

#[global] Instance ReadConcern_countable : Countable ReadConcern.
Proof.
  refine (inj_countable' (λ c, match c with Complete => true | Available => false end)
            (λ b : bool, if b then Complete else Available) _). by intros [].
Defined.

(** [lock_question] *)
Definition lock_question (e : Probed) : NodeId * string * PartitionId * string * ReadConcern :=
  (cp_serving_node e.2, rr_tenant e.1, rr_partition e.1, cp_query e.2, rr_concern e.1).

(** [unraced_baseline] *)
Definition unraced_baseline (latencies : list N) : option N :=
  if (length latencies <? MIN_UNRACED_BASELINE_SAMPLES)%nat then None
  else sort_by_key id latencies !! (length latencies / 2)%nat.

(** ** Read-answer equivalence *)

(** The question a [complete] answer belongs to, with the answer. *)
Definition answer_of (e : Probed) :
    option ((string * PartitionId * string * Z) * (N * gset string)) :=
  match rr_concern e.1, rr_outcome e.1 with
  | Complete, Served complete_through_ms keys =>
      Some ((rr_tenant e.1, rr_partition e.1, cp_query e.2, complete_through_ms),
            (cp_residency_ops_before e.2, keys))
  | _, _ => None
  end.

(** One group of answers: how many were compared across cache states, and which
    differ from the reference. *)
Definition check_group (g : (string * PartitionId * string * Z) * list (N * gset string)) :
    nat * list CacheTransparencyFinding :=
  let '((tenant, partition, query, complete_through_ms), group) := g in
  match sort_by_key fst group with
  | [] => (0, [])
  | (reference_ops, reference_keys) :: rest =>
      (length (filter (λ other, other.1 ≠ reference_ops) rest),
       rest ≫= λ other,
         if decide (other.2 = reference_keys) then []
         else [RowSetDiffers tenant partition query complete_through_ms reference_ops other.1
                 (btree_elements (reference_keys ∖ other.2))
                 (btree_elements (other.2 ∖ reference_keys))])
  end.

(** [check_equivalence] *)
Definition check_equivalence (probed : list Probed) : nat * list CacheTransparencyFinding :=
  let answers := group_by fst snd (omap answer_of probed) in
  let results := check_group <$> btree_iter answers in
  (sum_list results.*1, results ≫= snd).

(** ** Obligation (c) *)

Definition is_served (read : ReadRecord) : bool :=
  match rr_outcome read with Served _ _ => true | Refused _ => false end.

(** The reads the baselines are drawn from. *)
Definition unraced_served (probed : list Probed) : list Probed :=
  filter (λ e, negb (raced_residency_action e.2) && is_served e.1) probed.

(** The outcome of one racing read: [None] when no statement can be made of it,
    otherwise its findings. *)
Definition judge_race
    (baselines : gmap (string * string * string * string * ReadConcern) (N * nat))
    (served_unraced_ops : gmap (string * string * string * string * ReadConcern) (list N))
    (ceiling_ms : N) (e : Probed) : option (list CacheTransparencyFinding) :=
  if raced_residency_action e.2 then
    match rr_outcome e.1 with
    | Served _ _ =>
        '(baseline_ms, baseline_samples) ← baselines !! lock_question e;
        Some (if (ceiling_ms <? cp_latency_ms e.2)%N && (baseline_ms <? cp_latency_ms e.2)%N
              then [BlockedRead (cp_serving_node e.2) (rr_tenant e.1) (rr_partition e.1)
                      (cp_query e.2) (rr_concern e.1) (cp_latency_ms e.2) baseline_ms
                      baseline_samples ceiling_ms]
              else [])
    | Refused reason =>
        ops ← served_unraced_ops !! lock_question e;
        if existsb (λ o, o <=? cp_residency_ops_before e.2)%N ops
           && existsb (λ o, cp_residency_ops_after e.2 <=? o)%N ops
        then Some [RefusedWhileRacing (cp_serving_node e.2) (rr_tenant e.1) (rr_partition e.1)
                     (cp_query e.2) (rr_concern e.1) reason]
        else None
    end
  else None.

(** The medians of the unraced served reads, by lock question. *)
Definition baselines_of (probed : list Probed) :
    gmap (string * string * string * string * ReadConcern) (N * nat) :=
  omap (λ latencies : list N, (λ median, (median, length latencies)) <$> unraced_baseline latencies)
    (group_by lock_question (λ e, cp_latency_ms e.2) (unraced_served probed)).

(** [check_no_blocking] *)
Definition check_no_blocking (probed : list Probed) (ceiling_ms : N) :
    nat * list CacheTransparencyFinding :=
  let served_unraced_ops :=
    group_by lock_question (λ e, cp_residency_ops_before e.2) (unraced_served probed) in
  let results := omap (judge_race (baselines_of probed) served_unraced_ops ceiling_ms) probed in
  (length results, concat results).

(** The reads that carried a probe. *)
Definition probed_reads (reads : list ReadRecord) : list Probed :=
  omap (λ read, (λ probe, (read, probe)) <$> rr_cache read) reads.

(** [check] *)
Definition check (journals : JournalSet) (reads : list ReadRecord) (max_racing_read_ms : N) :
    Verdict CacheTransparencyFinding CacheReason :=
  let probed := probed_reads reads in
  let residency_evidence := (0 <? residency_action_count journals)%nat in
  let (equivalence_checked, equivalence_findings) := check_equivalence probed in
  let (lock_checked, lock_findings) :=
    if residency_evidence then check_no_blocking probed max_racing_read_ms else (0%nat, []) in
  match equivalence_findings ++ lock_findings with
  | [] =>
      match probed with
      | [] => NoVerdict NoProbe
      | _ =>
          if negb residency_evidence then NoVerdict NoResidencyEvidence
          else if (equivalence_checked =? 0)%nat then NoVerdict NoTwoStates
          else if (lock_checked =? 0)%nat then NoVerdict NoRace
          else pass (equivalence_checked + lock_checked) CacheNothingChecked
      end
  | findings => Violation findings
  end.

(** ** The median *)

(** The bar is one of the samples, and more than one sample of three or more is
    at or above it. *)
Lemma unraced_baseline_spec l m :
  unraced_baseline l = Some m →
  m ∈ l ∧ (3 ≤ length l)%nat ∧ (2 ≤ length (filter (λ x, m ≤ x)%N l))%nat.
Proof.
  unfold unraced_baseline. destruct (Nat.ltb_spec (length l) MIN_UNRACED_BASELINE_SAMPLES) as [|Hlen]; [done|].
  unfold MIN_UNRACED_BASELINE_SAMPLES in Hlen. intros Hm. split_and!; [|done|].
  - apply list_elem_of_lookup_2 in Hm. by rewrite sort_by_key_perm in Hm.
  - pose proof (sort_by_key_sorted id l) as Hs. rewrite <-(sort_by_key_perm id l).
    pose proof (take_drop_middle _ _ _ Hm) as E. rewrite <-E in Hs |- *.
    assert (length (drop (S (length l / 2)) (sort_by_key id l)) ≠ 0%nat) as Hne.
    { rewrite length_drop, (Permutation_length (sort_by_key_perm id l)).
      pose proof (Nat.div_lt (length l) 2 ltac:(lia) ltac:(lia)).
      pose proof (Nat.mul_div_le (length l) 2 ltac:(lia)). lia. }
    destruct (drop _ _) as [|y ys] eqn:Ed; [done|].
    assert (m ≤ y)%N as Hy.
    { rewrite cons_middle, app_assoc in Hs. eapply (StronglySorted_app_before _ _ y ys m) in Hs; [done|].
      apply elem_of_app. right. by left. }
    rewrite filter_app, filter_cons_True, filter_cons_True by done. rewrite length_app. simpl. lia.
Qed.

(** One slow outlier never sets the bar: some other sample reaches it. *)
Lemma unraced_baseline_robust l x l' m :
  unraced_baseline l = Some m → l ≡ₚ x :: l' → ∃ y, y ∈ l' ∧ (m ≤ y)%N.
Proof.
  intros (_ & _ & Hlen)%unraced_baseline_spec Hp. rewrite Hp in Hlen. rewrite filter_cons in Hlen.
  assert (filter (λ y, m ≤ y)%N l' ≠ []) as Hne by (intros E; case_decide; rewrite E in Hlen; simpl in *; lia).
  destruct (filter _ l') as [|y ys] eqn:E; [done|].
  assert (y ∈ filter (λ y, m ≤ y)%N l') as Hy by (rewrite E; by left).
  apply list_elem_of_filter in Hy as [? ?]. eauto.
Qed.

(** ** Equivalence *)

(** [keys] was answered to question [q] at cache state [ops]. *)
Definition answer (probed : list Probed) (q : string * PartitionId * string * Z) (ops : N)
    (keys : gset string) : Prop :=
  ∃ e, e ∈ probed ∧ answer_of e = Some (q, (ops, keys)).

(** Any two answers to one question are the same row set. *)
Definition transparent (probed : list Probed) : Prop :=
  ∀ q ops keys ops' keys', answer probed q ops keys → answer probed q ops' keys' → keys = keys'.

(** Some question was answered at two cache states. *)
Definition compared (probed : list Probed) : Prop :=
  ∃ q ops keys ops' keys', answer probed q ops keys ∧ answer probed q ops' keys' ∧ ops ≠ ops'.

Lemma check_group_spec q group :
  ((check_group (q, group)).1 ≠ 0%nat ↔ ∃ a b, a ∈ group ∧ b ∈ group ∧ a.1 ≠ b.1) ∧
  ((check_group (q, group)).2 = [] ↔ ∀ a b, a ∈ group → b ∈ group → a.2 = b.2).
Proof.
  destruct q as [[[t p] query] ms]. unfold check_group.
  assert (∀ x, x ∈ group ↔ x ∈ sort_by_key fst group) as Hin.
  { intros x. by rewrite sort_by_key_perm. }
  setoid_rewrite Hin. clear Hin. destruct (sort_by_key fst group) as [|[ro rk] rest]; simpl.
  { split; [split; [done|]; set_solver|]. split; [set_solver|done]. }
  split.
  - split.
    + intros Hn. destruct (filter (λ o : N * gset string, o.1 ≠ ro) rest) as [|x xs] eqn:E; [done|].
      assert (x ∈ filter (λ o : N * gset string, o.1 ≠ ro) rest) as Hx by (rewrite E; by left).
      apply list_elem_of_filter in Hx as [Hx Hr]. exists x, (ro, rk). set_solver.
    + intros (a & b & Ha & Hb & Hab) E%nil_length_inv.
      assert (∀ x, x ∈ (ro, rk) :: rest → x.1 = ro) as Hall.
      { intros x [->|Hx]%elem_of_cons; [done|]. destruct (decide (x.1 = ro)); [done|].
        assert (x ∈ filter (λ o : N * gset string, o.1 ≠ ro) rest) as Hf by (by apply list_elem_of_filter).
        rewrite E in Hf. set_solver. }
      rewrite (Hall a), (Hall b) in Hab by done. done.
  - rewrite bind_nil. split.
    + intros Hall. assert (∀ x, x ∈ (ro, rk) :: rest → x.2 = rk) as Hk.
      { intros x [->|Hx]%elem_of_cons; [done|]. specialize (Hall x Hx). by case_decide. }
      intros a b Ha Hb. by rewrite (Hk a), (Hk b).
    + intros Hall x Hx. rewrite decide_True; [done|]. apply (Hall x (ro, rk)); [by right|by left].
Qed.

Lemma sum_list_nonzero l : sum_list l ≠ 0%nat ↔ ∃ n, n ∈ l ∧ n ≠ 0%nat.
Proof.
  induction l as [|n l IH]; simpl; [set_solver|]. setoid_rewrite elem_of_cons.
  destruct (decide (n = 0%nat)); [|split; [eauto|lia]]. subst. simpl. rewrite IH. naive_solver.
Qed.

Lemma answers_group probed q group :
  group_by fst snd (omap answer_of probed) !! q = Some group →
  ∀ x, x ∈ group ↔ answer probed q x.1 x.2.
Proof.
  intros [_ ->]%group_by_Some x. rewrite list_elem_of_fmap. unfold answer. split.
  - intros ([q' y] & -> & [<- Hin]%list_elem_of_filter). apply list_elem_of_omap in Hin as (e & He & Ha).
    exists e. split; [done|]. simpl. by destruct y.
  - intros (e & He & Ha). exists (q, x). split; [done|]. apply list_elem_of_filter. split; [done|].
    apply list_elem_of_omap. exists e. split; [done|]. by destruct x.
Qed.

Lemma answers_some probed q ops keys :
  answer probed q ops keys → is_Some (group_by fst snd (omap answer_of probed) !! q).
Proof.
  intros (e & He & Ha). apply (group_by_elem fst snd _ (q, (ops, keys))).
  apply list_elem_of_omap. eauto.
Qed.

Lemma check_equivalence_spec probed :
  ((check_equivalence probed).1 ≠ 0%nat ↔ compared probed) ∧
  ((check_equivalence probed).2 = [] ↔ transparent probed).
Proof.
  unfold check_equivalence. simpl. rewrite sum_list_nonzero, bind_nil.
  repeat setoid_rewrite list_elem_of_fmap.
  set (answers := group_by fst snd (omap answer_of probed)). split.
  - split.
    + intros (n & (r & -> & ([q group] & -> & Hg)) & Hn). apply elem_of_btree_iter in Hg.
      apply check_group_spec in Hn as (a & b & Ha & Hb & Hab).
      apply (answers_group _ _ _ Hg) in Ha, Hb. by exists q, a.1, a.2, b.1, b.2.
    + intros (q & o & k & o' & k' & Ha & Hb & Hab). destruct (answers_some _ _ _ _ Ha) as [group Hg].
      exists (check_group (q, group)).1. split.
      * exists (check_group (q, group)). split; [done|]. exists (q, group). split; [done|].
        by apply elem_of_btree_iter.
      * apply check_group_spec. exists (o, k), (o', k').
        split_and!; [by apply (answers_group _ _ _ Hg)..|done].
  - split.
    + intros Hall q o k o' k' Ha Hb. destruct (answers_some _ _ _ _ Ha) as [group Hg].
      assert ((check_group (q, group)).2 = []) as Hn.
      { apply Hall. exists (q, group). split; [done|]. by apply elem_of_btree_iter. }
      destruct (check_group_spec q group) as [_ Hs]. apply (proj1 Hs Hn (o, k) (o', k'));
        by apply (answers_group _ _ _ Hg).
    + intros Ht r ([q group] & -> & Hg). apply elem_of_btree_iter in Hg.
      apply check_group_spec. intros a b Ha Hb. apply (answers_group _ _ _ Hg) in Ha, Hb. by eapply Ht.
Qed.

(** ** Obligation (c) *)

(** The unraced, served reads of one lock question. *)
Definition siblings (probed : list Probed) (e : Probed) : list Probed :=
  filter (λ e', lock_question e' = lock_question e) (unraced_served probed).

(** The latencies a racing read is held to. *)
Definition baseline (probed : list Probed) (e : Probed) : option N :=
  unraced_baseline ((λ e', cp_latency_ms e'.2) <$> siblings probed e).

(** A question answered before and after the storm the read raced. *)
Definition bracketed (probed : list Probed) (e : Probed) : Prop :=
  (∃ e', e' ∈ siblings probed e ∧ (cp_residency_ops_before e'.2 ≤ cp_residency_ops_before e.2)%N) ∧
  (∃ e', e' ∈ siblings probed e ∧ (cp_residency_ops_after e.2 ≤ cp_residency_ops_before e'.2)%N).

(** A racing read that can be judged, and one that is obstructed. *)
Definition judged_race (probed : list Probed) (e : Probed) : Prop :=
  raced_residency_action e.2 = true ∧
  if is_served e.1 then is_Some (baseline probed e) else bracketed probed e.

Definition obstructed (probed : list Probed) (ceiling : N) (e : Probed) : Prop :=
  raced_residency_action e.2 = true ∧
  if is_served e.1
  then ∃ m, baseline probed e = Some m ∧ (ceiling < cp_latency_ms e.2 ∧ m < cp_latency_ms e.2)%N
  else bracketed probed e.

Lemma baselines_lookup probed e :
  baselines_of probed !! lock_question e =
  (λ m, (m, length (siblings probed e))) <$> baseline probed e.
Proof.
  unfold baselines_of, baseline. rewrite lookup_omap.
  pose proof (group_by_lookup lock_question (λ e, cp_latency_ms e.2) (unraced_served probed)
    (lock_question e)) as Hl. fold (siblings probed e) in Hl.
  destruct (group_by _ _ _ !! _) as [ls|] eqn:E; simpl in *.
  - rewrite Hl. by rewrite length_fmap.
  - by rewrite <-Hl.
Qed.

(** The bracket test of a refused read. *)
Definition bracket_test (ops : list N) (probe : CacheProbe) : bool :=
  existsb (λ o, o <=? cp_residency_ops_before probe)%N ops
  && existsb (λ o, cp_residency_ops_after probe <=? o)%N ops.

Lemma existsb_fmap {A B} (f : B → bool) (g : A → B) l :
  existsb f (g <$> l) = true ↔ ∃ x, x ∈ l ∧ f (g x) = true.
Proof.
  rewrite existsb_exists. setoid_rewrite <-list_elem_of_In. setoid_rewrite list_elem_of_fmap.
  naive_solver.
Qed.

Lemma bracket_test_spec probed e :
  bracket_test ((λ e', cp_residency_ops_before e'.2) <$> siblings probed e) e.2 = true ↔
  bracketed probed e.
Proof.
  unfold bracket_test, bracketed. rewrite andb_true_iff, !existsb_fmap. cbn beta.
  by setoid_rewrite N.leb_le.
Qed.

Lemma ops_lookup probed e :
  match group_by lock_question (λ e, cp_residency_ops_before e.2) (unraced_served probed)
          !! lock_question e with
  | Some ops => bracket_test ops e.2 = true ↔ bracketed probed e
  | None => ¬ bracketed probed e
  end.
Proof.
  pose proof (group_by_lookup lock_question (λ e, cp_residency_ops_before e.2) (unraced_served probed)
    (lock_question e)) as Hl. fold (siblings probed e) in Hl.
  pose proof (bracket_test_spec probed e) as Hb. rewrite <-Hl in Hb.
  destruct (group_by _ _ _ !! _); simpl in Hb; [done|]. rewrite <-Hb. done.
Qed.

Lemma judge_race_spec probed ceiling e :
  let r := judge_race (baselines_of probed)
    (group_by lock_question (λ e, cp_residency_ops_before e.2) (unraced_served probed)) ceiling e in
  (is_Some r ↔ judged_race probed e) ∧
  (default [] r = [] ↔ ¬ obstructed probed ceiling e).
Proof.
  unfold judge_race, judged_race, obstructed, is_served.
  destruct (raced_residency_action e.2); [|split; [split; [by intros []|naive_solver]|naive_solver]].
  destruct (rr_outcome e.1) as [ms keys|reason]; simpl.
  - rewrite baselines_lookup. destruct (baseline probed e) as [m|]; simpl.
    + split; [split; intros _; [split; [done|]|]; eauto|].
      destruct (_ && _) eqn:Eb; simpl; split; try done.
      * intros Hn. destruct Hn. split; [done|]. exists m. bool_tests. done.
      * intros _ [_ (m' & [= <-] & H1 & H2)]. apply N.ltb_lt in H1, H2. by rewrite H1, H2 in Eb.
    + split; [split; [by intros []|by intros [_ []]]|naive_solver].
  - pose proof (ops_lookup probed e) as Ho. destruct (group_by _ _ _ !! _) as [ops|]; simpl.
    + change (existsb _ ops && existsb _ ops) with (bracket_test ops e.2).
      destruct (bracket_test ops e.2); simpl.
      * split; [split; [naive_solver|eauto]|naive_solver].
      * split; [split; [by intros []|naive_solver]|naive_solver].
    + split; [split; [by intros []|naive_solver]|naive_solver].
Qed.

Lemma check_no_blocking_spec probed ceiling :
  ((check_no_blocking probed ceiling).1 ≠ 0%nat ↔ ∃ e, e ∈ probed ∧ judged_race probed e) ∧
  ((check_no_blocking probed ceiling).2 = [] ↔ ∀ e, e ∈ probed → ¬ obstructed probed ceiling e).
Proof.
  unfold check_no_blocking. simpl. pose proof (judge_race_spec probed ceiling) as Hj.
  revert Hj. generalize (judge_race (baselines_of probed) (group_by lock_question
    (λ e, cp_residency_ops_before e.2) (unraced_served probed)) ceiling). intros judge Hj.
  assert (∀ l, (length (omap judge l) ≠ 0%nat ↔ ∃ e, e ∈ l ∧ judged_race probed e) ∧
               (concat (omap judge l) = [] ↔ ∀ e, e ∈ l → ¬ obstructed probed ceiling e)) as Hl;
    [|apply Hl].
  induction l as [|e l [IH1 IH2]]; simpl; [set_solver|]. setoid_rewrite elem_of_cons.
  destruct (Hj e) as [Hs Hd]. destruct (judge e) as [found|]; simpl in *.
  - split; [|rewrite app_nil; naive_solver]. split; [|done]. intros _. exists e. split; [by left|].
    apply Hs. eauto.
  - assert (¬ judged_race probed e) by (rewrite <-Hs; by intros [? [=]]). naive_solver.
Qed.

Lemma cache_transparency_spec journals reads ceiling :
  let probed := probed_reads reads in
  let residency := (0 < residency_action_count journals)%nat in
  (passed (check journals reads ceiling) ↔
     residency ∧ transparent probed ∧ compared probed ∧
     (∀ e, e ∈ probed → ¬ obstructed probed ceiling e) ∧ ∃ e, e ∈ probed ∧ judged_race probed e) ∧
  (is_violation (check journals reads ceiling) = true ↔
     ¬ (transparent probed ∧
        (residency → ∀ e, e ∈ probed → ¬ obstructed probed ceiling e))).
Proof.
  intros probed residency. unfold check. fold probed.
  destruct (check_equivalence_spec probed) as [Hcmp Htr].
  destruct (check_equivalence probed) as [ec ef]; simpl in Hcmp, Htr.
  destruct (check_no_blocking_spec probed ceiling) as [Hjd Hob].
  destruct (check_no_blocking probed ceiling) as [lc lf]; simpl in Hjd, Hob.
  assert (probed = [] → ¬ compared probed) as Hnil.
  { intros -> (q & o & k & o' & k' & (e & He & _) & _). set_solver. }
  destruct (Nat.ltb_spec 0 (residency_action_count journals)) as [Hr|Hr]; simpl.
  - pose proof (app_nil ef lf) as Happ. rewrite Htr, Hob in Happ.
    destruct (ef ++ lf) as [|f fs].
    + destruct probed as [|e0 es] eqn:Ep; [split; [split; [by intros [? [=]]|naive_solver]|naive_solver]|].
      rewrite <-Ep in *.
      destruct (Nat.eqb_spec ec 0); [split; [split; [by intros [? [=]]|naive_solver]|naive_solver]|].
      destruct (Nat.eqb_spec lc 0); [split; [split; [by intros [? [=]]|naive_solver]|naive_solver]|].
      rewrite pass_passed by lia. split; [split; [naive_solver|intros _; by eexists]|naive_solver].
    + split; [split; [by intros [? [=]]|naive_solver]|]. simpl. naive_solver.
  - assert (¬ residency) as Hnr by (unfold residency; lia). rewrite app_nil_r.
    destruct ef as [|f fs].
    + destruct probed; (split; [split; [by intros [? [=]]|naive_solver]|naive_solver]).
    + split; [split; [by intros [? [=]]|naive_solver]|]. simpl. naive_solver.
Qed.

(** The cache-transparency verdict is exact.  The run is convicted exactly
    when two [complete] answers to one question at one pinned coverage differ,
    or, in a run that journaled residency actions, a read that raced one was
    obstructed: slower than both the ceiling and the median of its own lock
    question, or refused on a question answered before and after.  It passes
    exactly when neither happened, residency actions were journaled, some
    question was answered at two cache states, and some racing read could be
    judged. *)
Theorem cache_transparency_exact journals reads ceiling :
  let probed := probed_reads reads in
  let residency := (0 < residency_action_count journals)%nat in
  (passed (check journals reads ceiling) ↔
     residency ∧ transparent probed ∧ compared probed ∧
     (∀ e, e ∈ probed → ¬ obstructed probed ceiling e) ∧ ∃ e, e ∈ probed ∧ judged_race probed e) ∧
  (is_violation (check journals reads ceiling) = true ↔
     ¬ (transparent probed ∧
        (residency → ∀ e, e ∈ probed → ¬ obstructed probed ceiling e))).
Proof. apply cache_transparency_spec. Qed.
