(* ===== verification/FaultLedger.v ===== *)
(** * The fault injectors' ledger

    Models [crates/duckspout-judge/src/fault_ledger.rs]: windows reassembled by
    fault id, the alibi test, and the terminal horizon of a node. *)

From S2P Require Import Prelude RustStd Types Evidence Journal RunManifest.

Definition TERMINAL_FAULT_KINDS : list string :=
  ["node_kill"; "membership_leave"; "flight_kill_mid_stream"].

Record FaultWindow := {
  fw_fault_id : string;
  fw_kind : string;
  fw_target_node : string;
  fw_armed_at_ms : option N;
  fw_started_at_ms : option N;
  fw_ended_at_ms : option N;
}.

Record AlibiTolerance := {
  at_start_slack_ms : N;
  at_end_slack_ms : N;
}.

(** [FaultWindow::is_terminal] *)
Definition is_terminal (w : FaultWindow) : bool :=
  bool_decide (fw_kind w ∈ TERMINAL_FAULT_KINDS).

(** [FaultWindow::target_host] *)
Definition target_host (w : FaultWindow) : string := node_host (fw_target_node w).

(** [FaultWindow::covers] *)
Definition covers (w : FaultWindow) (from_ms until_ms : N) (tolerance : AlibiTolerance) : bool :=
  match fw_started_at_ms w with
  | None => false
  | Some started =>
      if (u64_sat_add from_ms (at_start_slack_ms tolerance) <? started)%N then false
      else
        match fw_ended_at_ms w with
        | None => true
        | Some ended => (until_ms <=? u64_sat_add ended (at_end_slack_ms tolerance))%N
        end
  end.

Record FaultLedger := { fl_windows : list FaultWindow }.

(** [FaultLedger::windows_targeting] *)
Definition windows_targeting (ledger : FaultLedger) (node : string) : list FaultWindow :=
  filter (λ w, target_host w = node_host node) (fl_windows ledger).

(** [FaultLedger::terminal_horizon] *)
Definition terminal_horizon (ledger : FaultLedger) (node : string) : option N :=
  min_of (omap fw_started_at_ms (filter is_terminal (windows_targeting ledger node))).

Inductive FaultLedgerError :=
| FaultIo (path : string) (source : string)
| FaultDecode (path : string) (line_no : N) (source : JsonError)
| RepeatedPhase (path : string) (line_no : N) (fault_id : string) (phase : FaultPhase)
| InconsistentWindow (path : string) (line_no : N) (fault_id : string)
    (found known : string * string).

(** The slot of a phase. *)
Definition slot (phase : FaultPhase) (w : FaultWindow) : option N :=
  match phase with
  | Armed => fw_armed_at_ms w
  | Started => fw_started_at_ms w
  | Ended => fw_ended_at_ms w
  end.

Definition set_slot (phase : FaultPhase) (at_ms : N) (w : FaultWindow) : FaultWindow :=
  {| fw_fault_id := fw_fault_id w; fw_kind := fw_kind w; fw_target_node := fw_target_node w;
     fw_armed_at_ms := match phase with Armed => Some at_ms | _ => fw_armed_at_ms w end;
     fw_started_at_ms := match phase with Started => Some at_ms | _ => fw_started_at_ms w end;
     fw_ended_at_ms := match phase with Ended => Some at_ms | _ => fw_ended_at_ms w end |}.

(** The window an id starts from. *)
Definition fresh_window (line : FaultLine) : FaultWindow :=
  {| fw_fault_id := fl_fault_id line; fw_kind := fl_kind line;
     fw_target_node := fl_target_node line; fw_armed_at_ms := None; fw_started_at_ms := None;
     fw_ended_at_ms := None |}.

(** The body of the loop of [parse_fault_ledger], on a decoded line. *)
Definition add_line (path : string) (line_no : N) (windows : gmap string FaultWindow)
    (line : FaultLine) : result (gmap string FaultWindow) FaultLedgerError :=
  let window := default (fresh_window line) (windows !! fl_fault_id line) in
  if bool_decide (fw_kind window = fl_kind line) && bool_decide (fw_target_node window = fl_target_node line)
  then
    match slot (fl_phase line) window with
    | Some _ => Err (RepeatedPhase path line_no (fl_fault_id line) (fl_phase line))
    | None => Ok (<[fl_fault_id line := set_slot (fl_phase line) (fl_at_ms line) window]> windows)
    end
  else Err (InconsistentWindow path line_no (fl_fault_id line)
              (fl_kind line, fl_target_node line) (fw_kind window, fw_target_node window)).

Section parsing.
Context `{Serde}.

(** The decoding of one line. *)
Definition fault_line_of (raw : string) : result FaultLine JsonError :=
  let? _ := reject_duplicate_keys raw in library (fault_line_from_str raw).

(** The loop of [parse_fault_ledger]. *)
Fixpoint parse_fault_lines (path : string) (line_no : N) (windows : gmap string FaultWindow)
    (raws : list string) : result (gmap string FaultWindow) FaultLedgerError :=
  match raws with
  | [] => Ok windows
  | raw :: raws =>
      let? line := map_err (FaultDecode path line_no) (fault_line_of raw) in
      let? windows := add_line path line_no windows line in
      parse_fault_lines path (line_no + 1) windows raws
  end.

(** [parse_fault_ledger] *)
Definition parse_fault_ledger (fs : FileSystem) (path : string) :
    result FaultLedger FaultLedgerError :=
  let? text := map_err (FaultIo path) (fs path) in
  let? windows := parse_fault_lines path 1 ∅ (str_lines text) in
  Ok {| fl_windows := (btree_entries windows).*2 |}.
End parsing.

(** ** What a parsed ledger holds *)

(** The windows hold exactly what the lines say, phase by phase. *)
Record ledger_of (lines : list FaultLine) (windows : gmap string FaultWindow) : Prop := {
  lo_id id w : windows !! id = Some w → fw_fault_id w = id;
  lo_line line : line ∈ lines → ∃ w, windows !! fl_fault_id line = Some w ∧
    fw_kind w = fl_kind line ∧ fw_target_node w = fl_target_node line ∧
    slot (fl_phase line) w = Some (fl_at_ms line);
  lo_slot id w phase t : windows !! id = Some w → slot phase w = Some t →
    ∃ line, line ∈ lines ∧ fl_fault_id line = id ∧ fl_phase line = phase ∧ fl_at_ms line = t;
  lo_some id w : windows !! id = Some w → ∃ line, line ∈ lines ∧ fl_fault_id line = id;
}.

#[global] Instance FaultPhase_eq_dec : EqDecision FaultPhase.
Proof. solve_decision. Defined.

Lemma slot_set phase phase' t w :
  slot phase (set_slot phase' t w) = if decide (phase = phase') then Some t else slot phase w.
Proof. by destruct phase, phase'. Qed.

Lemma add_line_ok path n windows lines line windows' :
  ledger_of lines windows → add_line path n windows line = Ok windows' →
  ledger_of (lines ++ [line]) windows'.
Proof.
  intros [Hid Hline Hslot Hsome] E. unfold add_line in E. case_if; [|done]. bool_tests.
  destruct (slot _ _) eqn:Es; [done|]. simplify_eq.
  set (w0 := default (fresh_window line) (windows !! fl_fault_id line)) in *.
  assert (fw_fault_id w0 = fl_fault_id line) as Hw0.
  { unfold w0. destruct (windows !! fl_fault_id line) eqn:El; simpl; [by eapply Hid|done]. }
  split.
  - intros id w. rewrite lookup_insert_Some. intros [[<- <-]|[_ Hl]]; [done|by eapply Hid].
  - intros l [Hin| ->%list_elem_of_singleton]%elem_of_app.
    + destruct (Hline l Hin) as (w & Hw & Hk & Ht & Hs).
      destruct (decide (fl_fault_id line = fl_fault_id l)) as [Ei|Ei].
      * unfold w0 in *. rewrite Ei, Hw in *. simpl in *. eexists. rewrite lookup_insert_eq.
        split_and!; [done..|]. rewrite slot_set. case_decide as Ep; [|done]. congruence.
      * exists w. by rewrite lookup_insert_ne.
    + eexists. rewrite lookup_insert_eq. split_and!; [done..|]. by rewrite slot_set, decide_True.
  - intros id w phase t. rewrite lookup_insert_Some. intros [[<- <-]|[Hne Hl]].
    + rewrite slot_set. case_decide as Ep.
      * intros [= <-]. exists line. split; [apply elem_of_app; right; by left|done].
      * unfold w0. destruct (windows !! fl_fault_id line) as [w|] eqn:El; simpl; [|by destruct phase].
        intros (l & Hl & ?)%(Hslot _ _ _ _ El). exists l. split; [apply elem_of_app; by left|done].
    + intros (l & Hin & ?)%(Hslot _ _ _ _ Hl). exists l. split; [apply elem_of_app; by left|done].
  - intros id w. rewrite lookup_insert_Some. intros [[<- <-]|[_ Hl]].
    + exists line. split; [apply elem_of_app; right; by left|done].
    + apply Hsome in Hl as (l & ? & ?). exists l. split; [apply elem_of_app; by left|done].
Qed.

Section parsed.
Context `{Serde}.

Lemma parse_fault_lines_ok path n windows lines raws windows' :
  ledger_of lines windows → parse_fault_lines path n windows raws = Ok windows' →
  ∃ lines', Forall2 (λ raw line, fault_line_of raw = Ok line) raws lines' ∧
            ledger_of (lines ++ lines') windows'.
Proof.
  revert n windows lines. induction raws as [|raw raws IH]; intros n windows lines Hl; simpl.
  - intros [= <-]. exists []. rewrite app_nil_r. by split.
  - intros E. let_ok E. let_ok E. apply map_err_ok in E0.
    apply (add_line_ok _ _ _ lines) in E1; [|done].
    apply (IH _ _ _ E1) in E as (lines' & Hf & Hlo). exists (a :: lines'). split; [by constructor|].
    by rewrite (cons_middle a), app_assoc.
Qed.

(** Every line of the ledger file is one line of some window, and every phase
    of a window is one line of the file. *)
Lemma parse_fault_ledger_ok fs path ledger :
  parse_fault_ledger fs path = Ok ledger →
  ∃ text lines windows, fs path = Ok text ∧
    Forall2 (λ raw line, fault_line_of raw = Ok line) (str_lines text) lines ∧
    ledger_of lines windows ∧ ∀ w, w ∈ fl_windows ledger ↔ windows !! fw_fault_id w = Some w.
Proof.
  unfold parse_fault_ledger. intros E. let_ok E. let_ok E. simplify_eq. apply map_err_ok in E0.
  apply (parse_fault_lines_ok _ _ _ []) in E1 as (lines & Hf & Hlo).
  2:{ split; [intros ??; by rewrite lookup_empty|set_solver|intros ????; by rewrite lookup_empty|
        intros ??; by rewrite lookup_empty]. }
  exists a, lines, a0. split_and!; [done..|]. intros w. simpl. rewrite list_elem_of_fmap. split.
  - intros ([id w'] & -> & Hin). apply elem_of_btree_entries in Hin. simpl.
    by rewrite (lo_id _ _ Hlo _ _ Hin).
  - intros Hw. exists (fw_fault_id w, w). split; [done|]. by apply elem_of_btree_entries.
Qed.
End parsed.
