(* ===== verification/RunSummary.v ===== *)
(** * The load generator's run summary

    Models [crates/duckspout-judge/src/summary.rs].  An [f64] is a
    [spec_float]: the binary64 of the standard, rounded to nearest even. *)

From S2P Require Import Prelude RustStd Types Evidence Journal BTree.
From Stdlib Require Import SpecFloat.

(** [DEFAULT_MAX_AMBIGUOUS_FRACTION]: the [f64] nearest [0.05] *)
Definition DEFAULT_MAX_AMBIGUOUS_FRACTION : spec_float := f64_div (f64_of_u64 5) (f64_of_u64 100).

(** [RunSummary::resolved_total]; the [u64] sum wraps. *)
Definition resolved_total (s : RunSummary) : N :=
  ((rs_acked s + rs_timed_out s + rs_rejected s + rs_ambiguous s) mod 2 ^ 64)%N.

(** [fraction_of] *)
Definition fraction_of (numerator denominator : N) : spec_float :=
  if (denominator =? 0)%N then S754_zero false
  else f64_div (f64_of_u64 numerator) (f64_of_u64 denominator).

(** Why a sidecar could not be used. *)
Inductive SummaryUnreadable :=
| SummaryMissing (source : string)
| SummaryUndecodable (source : string).

Inductive SummaryFinding :=
| Unreadable (journal_path : string) (reason : SummaryUnreadable)
| UnresolvedInFlight (journal_path : string) (sent resolved : N)
| AmbiguousFractionExceeded (journal_path : string) (ambiguous resolved : N)
    (ceiling : spec_float).

(** [summary_path_for] *)
Definition summary_path_for (journal_path : string) : string := journal_path +:+ ".summary.json".

(** [loadgen_journal_sources] *)
Definition loadgen_journal_sources (journals : JournalSet) : gset string :=
  list_to_set (jl_source <$> filter (λ line, is_Some (jl_identity line)) (js_lines journals)).

Section check.
Context `{Serde}.

(** The checks on a decoded summary. *)
Definition check_decoded (journal_path : string) (max_ambiguous_fraction : spec_float)
    (summary : RunSummary) : list SummaryFinding :=
  let resolved := resolved_total summary in
  (if (resolved <? rs_sent summary)%N
   then [UnresolvedInFlight journal_path (rs_sent summary) resolved] else []) ++
  (if (0 <? resolved)%N then
     if f64_gt (fraction_of (rs_ambiguous summary) resolved) max_ambiguous_fraction
     then [AmbiguousFractionExceeded journal_path (rs_ambiguous summary) resolved
             max_ambiguous_fraction]
     else []
   else []).

(** The body of the loop of [check_summaries]. *)
Definition check_summary (fs : FileSystem) (max_ambiguous_fraction : spec_float)
    (journal_path : string) : list SummaryFinding :=
  match fs (summary_path_for journal_path) with
  | Err err => [Unreadable journal_path (SummaryMissing err)]
  | Ok text =>
      match summary_from_str text with
      | Err err => [Unreadable journal_path (SummaryUndecodable err)]
      | Ok summary => check_decoded journal_path max_ambiguous_fraction summary
      end
  end.

(** [check_summaries] *)
Definition check_summaries (fs : FileSystem) (journals : JournalSet)
    (max_ambiguous_fraction : spec_float) : result unit (list SummaryFinding) :=
  match btree_elements (loadgen_journal_sources journals) ≫= check_summary fs max_ambiguous_fraction with
  | [] => Ok tt
  | findings => Err findings
  end.

(** ** What a clean summary says *)

(** A summary that shows the end of its run: everything sent was resolved, and
    not too much of it ambiguously. *)
Definition settled (ceiling : spec_float) (summary : RunSummary) : Prop :=
  (rs_sent summary ≤ resolved_total summary)%N ∧
  ((0 < resolved_total summary)%N →
   f64_gt (fraction_of (rs_ambiguous summary) (resolved_total summary)) ceiling = false).

Lemma check_decoded_nil path ceiling summary :
  check_decoded path ceiling summary = [] ↔ settled ceiling summary.
Proof.
  unfold check_decoded, settled. rewrite app_nil.
  destruct (N.ltb_spec (resolved_total summary) (rs_sent summary)),
    (N.ltb_spec 0 (resolved_total summary)); simpl; try (destruct (f64_gt _ _));
    split; naive_solver lia.
Qed.

(** The loadgen journals of the run all have a readable, settled summary. *)
Lemma check_summaries_ok fs journals ceiling :
  check_summaries fs journals ceiling = Ok tt ↔
  ∀ line, line ∈ js_lines journals → is_Some (jl_identity line) →
    ∃ text summary, fs (summary_path_for (jl_source line)) = Ok text ∧
      summary_from_str text = Ok summary ∧ settled ceiling summary.
Proof.
  unfold check_summaries.
  assert (btree_elements (loadgen_journal_sources journals) ≫= check_summary fs ceiling = [] ↔
    ∀ line, line ∈ js_lines journals → is_Some (jl_identity line) →
      check_summary fs ceiling (jl_source line) = []) as Hn.
  { rewrite bind_nil. unfold loadgen_journal_sources. setoid_rewrite elem_of_btree_elements.
    setoid_rewrite elem_of_list_to_set. setoid_rewrite list_elem_of_fmap.
    setoid_rewrite list_elem_of_filter. naive_solver. }
  transitivity (btree_elements (loadgen_journal_sources journals) ≫= check_summary fs ceiling = []).
  { by destruct (_ ≫= _). }
  rewrite Hn. apply forall_proper. intros line. apply forall_proper. intros _. apply forall_proper.
  intros _. unfold check_summary.
  destruct (fs _) as [text|]; [|split; [done|]; by intros (? & ? & [=] & _)].
  destruct (summary_from_str text) as [summary|] eqn:Es.
  - rewrite check_decoded_nil. split; [by exists text, summary|].
    intros (? & ? & [= <-] & Es' & ?). rewrite Es in Es'. by simplify_eq.
  - split; [done|]. intros (? & ? & [= <-] & Es' & ?). congruence.
Qed.
End check.
