(* ===== verification/Loadgen.v ===== *)
(** * The load generator

    Models [crates/duckspout-loadgen/src]: outcome.rs (how a settled or timed-out
    call is read), client.rs (identities and synthetic batches), journal.rs (the
    NDJSON journal under its mutex) and main.rs (the loop that spawns one task per
    batch, the tasks, and the run's counts).  The loop and the tasks interleave, so
    a run is a step relation; the answers of the calls and the passing of time are
    the environment's. *)

From Stdlib Require Import Ascii.
From S2P Require Import Prelude RustStd Types Overload Ports Naming Engine Stager StagerProps.
From S2P Require Import EngineProps Seal HotStore Daemon Otlp Accept.
From S2P Require Import Evidence Journal FinalState ZeroAckedLost RunSummary.

(** ** outcome.rs *)

(** [tonic::Code] *)
Inductive TonicCode :=
| COk | CCancelled | CUnknown | CInvalidArgument | CDeadlineExceeded | CNotFound | CAlreadyExists
| CPermissionDenied | CResourceExhausted | CFailedPrecondition | CAborted | COutOfRange
| CUnimplemented | CInternal | CUnavailable | CDataLoss | CUnauthenticated.

(** A [tonic::Status] as the client sees it: its code and its [RetryInfo]. *)
Record ClientStatus := { cl_code : TonicCode; cl_retry_info : option N }.

(** [RaceOutcome] *)
Inductive RaceOutcome :=
| Settled (settled : result Response ClientStatus)
| DeadlineFirst.

(** [RequestResolution] *)
Inductive RequestResolution := Acked | TimedOut | Rejected | Ambiguous.

#[global] Instance RequestResolution_eq_dec : EqDecision RequestResolution.
Proof. solve_decision. Defined.

(** [classify_error] *)
Definition classify_error (status : ClientStatus) : RequestResolution :=
  let explicit_rejection :=
    bool_decide (is_Some (cl_retry_info status)) ||
    match cl_code status with CInvalidArgument | CResourceExhausted => true | _ => false end in
  if explicit_rejection then Rejected else TimedOut.

(** [resolve] *)
Definition resolve (raced : RaceOutcome) : RequestResolution :=
  match raced with
  | Settled (Ok response) =>
      let rejected :=
        from_option (λ p, (0 <? ps_rejected_log_records p)%N) false (rs_partial_success response) in
      if rejected then Rejected else Acked
  | Settled (Err status) => classify_error status
  | DeadlineFirst => Ambiguous
  end.

(** ** client.rs *)

(** [journal::RequestIdentity] *)
Record LoadIdentity := {
  li_request_id : string;
  li_tenant : string;
  li_record_count : N;
  li_first_index : N;
  li_source_incarnation : string;
}.

#[global] Instance LoadIdentity_eq_dec : EqDecision LoadIdentity.
Proof. solve_decision. Defined.

(** [source_incarnation] *)
Definition source_incarnation (node : NodeId) (start_nonce : N) : string :=
  node +:+ "-" +:+ pretty start_nonce.

(** [request_id] *)
Definition request_id (node : NodeId) (start_nonce sequence : N) : string :=
  node +:+ "-" +:+ pretty start_nonce +:+ "-" +:+ pretty sequence.

(** The record of [synthetic_batch] for one index. *)
Definition synthetic_record (source_incarnation : string) (index : N) : LogRecord :=
  {| lr_time_unix_nano := index; lr_observed_time_unix_nano := 0; lr_severity_number := 9;
     lr_severity_text := "INFO";
     lr_body := Some (MkAnyValue (Some (StringValue ("loadgen record " +:+ pretty index))));
     lr_attributes :=
       [MkKeyValue "loadgen.index"
          (Some (MkAnyValue (Some (StringValue (source_incarnation +:+ "-" +:+ pretty index))))) 0];
     lr_dropped_attributes_count := 0; lr_flags := 0; lr_trace_id := ""; lr_span_id := "";
     lr_event_name := "" |}.

(** [synthetic_batch]; [first_index + i] wraps. *)
Definition synthetic_batch (source_incarnation : string) (record_count first_index : N) :
    ExportLogsServiceRequest :=
  let records :=
    (λ i, synthetic_record source_incarnation (u64_add first_index i)) <$> offsets record_count in
  [{| rl_resource := None;
      rl_scope_logs := [{| sl_scope := None; sl_log_records := records |}] |}].

(** The request [send_and_journal] builds: the batch and its two metadata keys. *)
Definition request_of (identity : LoadIdentity) : Request :=
  {| rq_metadata key :=
       if decide (key = IDEMPOTENCY_METADATA_KEY) then Some (Some (li_request_id identity))
       else if decide (key = TENANT_METADATA_KEY) then Some (Some (li_tenant identity))
       else None;
     rq_message := synthetic_batch (li_source_incarnation identity) (li_record_count identity)
                     (li_first_index identity) |}.

(** ** journal.rs *)

(** [JournalLine] *)
Record LoadLine := { ll_node : NodeId; ll_seq : N; ll_event : TraceEvent; ll_identity : LoadIdentity }.

(** [serde_json::to_string] of a line. *)
Class LoadgenSerde := line_to_string : LoadLine → string.

(** [LoadgenJournal]: the counter and the file, both under the mutex, and whether a
    call panicked while it held the mutex. *)
Record LoadgenJournal := {
  lj_node : NodeId;
  lj_next_seq : N;
  lj_out : string;
  lj_poisoned : bool;
}.

(** [LoadgenJournal::new] *)
Definition journal_new (node : NodeId) : LoadgenJournal :=
  {| lj_node := node; lj_next_seq := 0; lj_out := ""; lj_poisoned := false |}.

(** [LoadgenJournal::record]; [false] when it panics. *)
Definition journal_record `{LoadgenSerde} (journal : LoadgenJournal) (event : TraceEvent)
    (identity : LoadIdentity) (write : WriteOutcome) : LoadgenJournal * bool :=
  if lj_poisoned journal then (journal, false)
  else
    let text := line_to_string {| ll_node := lj_node journal; ll_seq := lj_next_seq journal;
                                  ll_event := event; ll_identity := identity |} in
    let bytes := text +:+ String newline "" in
    match write with
    | Written =>
        ({| lj_node := lj_node journal; lj_next_seq := u64_succ (lj_next_seq journal);
            lj_out := lj_out journal +:+ bytes; lj_poisoned := false |}, true)
    | WriteFailed reached =>
        ({| lj_node := lj_node journal; lj_next_seq := u64_succ (lj_next_seq journal);
            lj_out := lj_out journal +:+ String.substring 0 reached bytes;
            lj_poisoned := true |}, false)
    end.

(** ** main.rs *)

(** [Stats], and its snapshot *)
Record Stats := { st_acked : N; st_timed_out : N; st_rejected : N; st_ambiguous : N }.

Definition stats_default : Stats :=
  {| st_acked := 0; st_timed_out := 0; st_rejected := 0; st_ambiguous := 0 |}.

(** [Stats::record] *)
Definition stats_record (stats : Stats) (resolution : RequestResolution) : Stats :=
  match resolution with
  | Acked => {| st_acked := u64_succ (st_acked stats); st_timed_out := st_timed_out stats;
                st_rejected := st_rejected stats; st_ambiguous := st_ambiguous stats |}
  | TimedOut => {| st_acked := st_acked stats; st_timed_out := u64_succ (st_timed_out stats);
                   st_rejected := st_rejected stats; st_ambiguous := st_ambiguous stats |}
  | Rejected => {| st_acked := st_acked stats; st_timed_out := st_timed_out stats;
                   st_rejected := u64_succ (st_rejected stats); st_ambiguous := st_ambiguous stats |}
  | Ambiguous => {| st_acked := st_acked stats; st_timed_out := st_timed_out stats;
                    st_rejected := st_rejected stats; st_ambiguous := u64_succ (st_ambiguous stats) |}
  end.

(** [StatsSnapshot::total] *)
Definition stats_total (stats : Stats) : N :=
  u64_add (u64_add (u64_add (st_acked stats) (st_timed_out stats)) (st_rejected stats))
    (st_ambiguous stats).

(** [Cli], without its target and paths *)
Record Cli := {
  cli_node_id : string;
  cli_tenant : string;
  cli_batch_size : N;
  cli_concurrency : nat;
  cli_requests : option N;
  cli_duration_secs : option N;
}.

(** [duration_secs], as [run] defaults it *)
Definition duration_secs (cli : Cli) : option N :=
  match cli_duration_secs cli with
  | Some s => Some s
  | None => match cli_requests cli with None => Some 60%N | Some _ => None end
  end.

(** Where a spawned task is. *)
Inductive Phase :=
| Sending
| Raced (raced : RaceOutcome)
| Journaled (resolution : RequestResolution)
| Recorded (resolution : RequestResolution)
| Panicked.

(** A spawned task; [tk_joined] once [join_next] returned it. *)
Record Task := { tk_identity : LoadIdentity; tk_phase : Phase; tk_joined : bool }.

Inductive Loop := Spawning | Joining | Exited.

(** A run: the tasks in the order they were spawned. *)
Record Run := {
  rn_sent : N;
  rn_tasks : list Task;
  rn_stats : Stats;
  rn_journal : LoadgenJournal;
  rn_loop : Loop;
}.

(** The identity of the task spawned when [sent] batches were sent. *)
Definition identity_at (cli : Cli) (start_nonce sent : N) : LoadIdentity :=
  {| li_request_id := request_id (cli_node_id cli) start_nonce sent;
     li_tenant := cli_tenant cli;
     li_record_count := cli_batch_size cli;
     li_first_index := u64_mul sent (cli_batch_size cli);
     li_source_incarnation := source_incarnation (cli_node_id cli) start_nonce |}.

(** [tasks.len()] *)
Definition joinset_len (tasks : list Task) : nat := length (filter (λ t, tk_joined t = false) tasks).

(** The task has returned or panicked. *)
Definition task_done (t : Task) : bool :=
  match tk_phase t with Recorded _ | Panicked => true | _ => false end.

(** [requests.is_some_and(|limit| sent >= limit)] *)
Definition hit_request_limit (cli : Cli) (sent : N) : bool :=
  from_option (λ limit, (limit <=? sent)%N) false (cli_requests cli).

(** The match of [send_and_journal] on the resolution; the phase after it. *)
Definition journal_resolution `{LoadgenSerde} (journal : LoadgenJournal) (identity : LoadIdentity)
    (resolution : RequestResolution) (write : WriteOutcome) : LoadgenJournal * Phase :=
  let record event :=
    let (journal, ok) := journal_record journal event identity write in
    (journal, if ok then Journaled resolution else Panicked) in
  match resolution with
  | Acked => record EvClientAck
  | TimedOut => record EvClientTimeout
  | Rejected | Ambiguous => (journal, Journaled resolution)
  end.

Section run.
Context `{LoadgenSerde}.
(** [MetadataValue::from_str] accepts the text. *)
Context (metadata_ascii : string → bool).
Context (cli : Cli) (start_nonce : N).

Definition run_start : Run :=
  {| rn_sent := 0; rn_tasks := []; rn_stats := stats_default;
     rn_journal := journal_new (cli_node_id cli); rn_loop := Spawning |}.

(** One step of a task: the metadata and the race, the journal, the counts. *)
Inductive task_step : Phase * LoadgenJournal * Stats → LoadIdentity →
    Phase * LoadgenJournal * Stats → Prop :=
| TaskBadMetadata identity journal stats :
    metadata_ascii (li_tenant identity) && metadata_ascii (li_request_id identity) = false →
    task_step (Sending, journal, stats) identity (Panicked, journal, stats)
| TaskRace identity journal stats raced :
    metadata_ascii (li_tenant identity) && metadata_ascii (li_request_id identity) = true →
    task_step (Sending, journal, stats) identity (Raced raced, journal, stats)
| TaskJournal identity journal stats raced write journal' phase :
    journal_resolution journal identity (resolve raced) write = (journal', phase) →
    task_step (Raced raced, journal, stats) identity (phase, journal', stats)
| TaskRecord identity journal stats resolution :
    task_step (Journaled resolution, journal, stats) identity
      (Recorded resolution, journal, stats_record stats resolution).

(** [run]: the loop spawns a task while neither limit is hit and a slot is free, or
    waits for a task to end; then it joins what is left. *)
Inductive run_step : Run → Run → Prop :=
| StepSpawn r :
    rn_loop r = Spawning → hit_request_limit cli (rn_sent r) = false →
    joinset_len (rn_tasks r) < Nat.max (cli_concurrency cli) 1 →
    run_step r
      {| rn_sent := u64_succ (rn_sent r);
         rn_tasks := rn_tasks r ++ [{| tk_identity := identity_at cli start_nonce (rn_sent r);
                                       tk_phase := Sending; tk_joined := false |}];
         rn_stats := rn_stats r; rn_journal := rn_journal r; rn_loop := Spawning |}
| StepJoin r before t after :
    rn_loop r = Joining ∨
    rn_loop r = Spawning ∧ hit_request_limit cli (rn_sent r) = false ∧
      Nat.max (cli_concurrency cli) 1 ≤ joinset_len (rn_tasks r) →
    rn_tasks r = before ++ t :: after → task_done t = true → tk_joined t = false →
    run_step r
      {| rn_sent := rn_sent r;
         rn_tasks := before ++ {| tk_identity := tk_identity t; tk_phase := tk_phase t;
                                  tk_joined := true |} :: after;
         rn_stats := rn_stats r; rn_journal := rn_journal r; rn_loop := rn_loop r |}
| StepStop r :
    rn_loop r = Spawning →
    hit_request_limit cli (rn_sent r) = true ∨ is_Some (duration_secs cli) →
    run_step r {| rn_sent := rn_sent r; rn_tasks := rn_tasks r; rn_stats := rn_stats r;
                  rn_journal := rn_journal r; rn_loop := Joining |}
| StepExit r :
    rn_loop r = Joining → joinset_len (rn_tasks r) = 0 →
    run_step r {| rn_sent := rn_sent r; rn_tasks := rn_tasks r; rn_stats := rn_stats r;
                  rn_journal := rn_journal r; rn_loop := Exited |}
| StepTask r before t after phase journal stats :
    rn_tasks r = before ++ t :: after →
    task_step (tk_phase t, rn_journal r, rn_stats r) (tk_identity t) (phase, journal, stats) →
    run_step r
      {| rn_sent := rn_sent r;
         rn_tasks := before ++ {| tk_identity := tk_identity t; tk_phase := phase;
                                  tk_joined := tk_joined t |} :: after;
         rn_stats := stats; rn_journal := journal; rn_loop := rn_loop r |}.

Inductive run_reachable : Run → Prop :=
| run_initial : run_reachable run_start
| run_next r r' : run_reachable r → run_step r r' → run_reachable r'.

End run.

(** [sent.saturating_sub(snapshot.total())] *)
Definition unresolved (r : Run) : N := rn_sent r - stats_total (rn_stats r).

(** What [write_summary] writes beside the journal, as the judge reads it. *)
Definition summary_of (r : Run) : RunSummary :=
  {| rs_sent := rn_sent r; rs_acked := st_acked (rn_stats r);
     rs_timed_out := st_timed_out (rn_stats r); rs_rejected := st_rejected (rn_stats r);
     rs_ambiguous := st_ambiguous (rn_stats r) |}.
