(* ===== verification/LoadgenProps.v ===== *)
(** * Properties of the load generator

    Identities name one record across the fleet; the service's answers, read by the
    client, mean what the store did; a run accounts for every request, and the judge
    reads its journal back as the run was. *)

From Stdlib Require Import Ascii.
From S2P Require Import Prelude RustStd Types Overload Ports Naming Engine Stager StagerProps.
From S2P Require Import EngineProps Seal HotStore Daemon Otlp Accept.
From S2P Require Import Evidence Journal FinalState ZeroAckedLost RunSummary Loadgen.

(** ** Identities *)

Lemma source_incarnation_inj node node' nonce nonce' :
  source_incarnation node nonce = source_incarnation node' nonce' → node = node' ∧ nonce = nonce'.
Proof. apply record_key_inj. Qed.

(** A request is named like a record of its incarnation. *)
Lemma request_id_key node nonce sequence :
  request_id node nonce sequence = record_key (source_incarnation node nonce) sequence.
Proof.
  unfold request_id, record_key, source_incarnation.
  induction node as [|c node IH]; [done|]. by apply (f_equal (String c)) in IH.
Qed.

(** ** What the service answers, on the wire *)

Definition code_on_wire (c : GrpcCode) : TonicCode :=
  match c with
  | InvalidArgument => CInvalidArgument
  | ResourceExhausted => CResourceExhausted
  | Unavailable => CUnavailable
  end.

Definition on_wire (answer : result Response Status) : result Response ClientStatus :=
  map_err (λ status, {| cl_code := code_on_wire (s_code status);
                        cl_retry_info := s_retry_info status |}) answer.

(** Every row of the service's error table is read as a rejection. *)
Lemma class_rejected class ms :
  resolve (Settled (on_wire (Err (to_tonic_status class ms)))) = Rejected.
Proof. destruct class; reflexivity. Qed.

Section service.
Context `{OtlpLibs}.

(** What [export] answers: a status of the error table, or a response that rejects
    no record. *)
Definition answer_sound (a : option (result Response Status)) : Prop :=
  match a with
  | None => True
  | Some (Ok response) => ∃ n, rs_partial_success response = strindex_warning n
  | Some (Err status) => ∃ class ms, status = to_tonic_status class ms
  end.

Lemma decode_request_status admission request status :
  decode_request admission request = Err status → ∃ class ms, status = to_tonic_status class ms.
Proof.
  unfold decode_request, metadata_str. intros E.
  destruct (rq_metadata request TENANT_METADATA_KEY) as [[]|]; simplify_eq/=; eauto;
    (destruct (rq_metadata request IDEMPOTENCY_METADATA_KEY) as [[]|]; simplify_eq/=; eauto;
     case_match; simplify_eq/=; eauto; destruct (decode_logs _ _ _); simplify_eq/=; unfold reject; eauto).
Qed.

Lemma export_answers admission traced previous port request :
  answer_sound (snd (run_prog previous port (export admission traced request))).
Proof.
  unfold export. destruct (decode_request admission request) as [d|] eqn:Ed.
  2:{ simpl. by eapply decode_request_status. }
  destruct (_ <? _)%nat; [|simpl; eauto]. unfold admit_inflight. simpl.
  destruct (_ <? _)%N; simpl; [eauto|]. destruct (port (dl_batch d)) as [[[]|[]]|]; simpl; unfold journal; destruct traced; simpl; eauto.
Qed.

(** An answer is read as what it is. *)
Lemma resolve_answer answer : answer_sound (Some answer) →
  resolve (Settled (on_wire answer)) = if is_ok answer then Acked else Rejected.
Proof.
  destruct answer as [response|status]; simpl.
  - intros [n ->]. unfold strindex_warning. by destruct (0 <? n)%N.
  - intros (class & ms & ->). apply class_rejected.
Qed.

Lemma synthetic_typed inc count first : request_typed (synthetic_batch inc count first).
Proof.
  unfold request_typed, synthetic_batch. repeat constructor. apply Forall_fmap, Forall_forall.
  intros i _. split; simpl; [|done]. unfold is_u64, u64_add. pose proof (N.mod_lt (first + i) (u64_max + 1)).
  lia.
Qed.

Lemma synthetic_rows inc count first : (first + count ≤ u64_max)%N →
  request_rows (synthetic_batch inc count first) =
  (λ index, row_of "{}" None None (synthetic_record inc index)) <$> index_range first (first + count).
Proof.
  intros Hfit. unfold request_rows, synthetic_batch. simpl. rewrite app_nil_r.
  unfold resource_rows. simpl. rewrite app_nil_r. unfold scope_rows, index_range. simpl.
  replace (first + count - first)%N with count by lia. unfold offsets.
  rewrite <-!list_fmap_compose. apply list_fmap_ext. intros i x Hx. simpl. do 2 f_equal.
  apply lookup_seq in Hx as [-> Hx]. unfold u64_add. rewrite N.mod_small; [done|lia].
Qed.

(** The attributes of a synthetic row name the record the judge looks for. *)
Lemma synthetic_attrs inc index :
  row_attrs (row_of "{}" None None (synthetic_record inc index)) =
  json_to_string (JObject {[ "loadgen.index" := JString (record_key inc index) ]}).
Proof. reflexivity. Qed.

End service.

Section durable.
Context `{DuckDb, !OtlpLibs, !StagerLibs, !SealLibs, !IpcRoundtrip}.

(** C4: A client's ack is the store's commit.  When the load generator's request is
    served by [export] over the stager of any reachable hot store, the resolution
    the client journals is the service's answer: [Acked] exactly when the service
    acknowledged, and then either the store gained one row per record of the
    request, in order, in a window of the tenant's partition, each carrying the key
    the judge will look for, or it held the same request's entry already; and
    [Rejected] whenever the service refused, so an answered request is never
    journaled as a timeout. *)
Theorem loadgen_ack_durable (cfg : StagerConfig) (ops : list hot_op) (st : Stager)
    (closes : gmap WindowKey Z) (mono : N) (wall : Z) (admission : AdmissionConfig) (traced : bool)
    (previous : N) (identity : LoadIdentity) (answer : result Response Status) :
  hot_run cfg hot_empty ops = HotUp st closes →
  (0 < li_record_count identity)%N →
  (li_first_index identity + li_record_count identity ≤ u64_max)%N →
  let port batch := Some (fst (fst (stage_blocking cfg st mono wall batch))) in
  snd (run_prog previous port (export admission traced (request_of identity))) = Some answer →
  match resolve (Settled (on_wire answer)) with
  | Acked =>
      ∃ batch outcome rows st' evs,
        bt_tenant batch = li_tenant identity ∧
        bt_idempotency_key batch = Some (li_request_id identity) ∧
        stage_blocking cfg st mono wall batch = (Ok outcome, st', evs) ∧
        Forall2 (λ index row,
            row_attrs row = json_to_string (JObject
              {[ "loadgen.index" := JString (record_key (li_source_incarnation identity) index) ]}))
          (index_range (li_first_index identity)
             (li_first_index identity + li_record_count identity)) rows ∧
        staged_as cfg st st' mono batch rows outcome
  | Rejected => ∃ status, answer = Err status
  | TimedOut | Ambiguous => False
  end.
Proof.
  intros Hrun Hpos Hfit port Hex.
  pose proof (export_answers admission traced previous port (request_of identity)) as Hs.
  rewrite Hex in Hs. rewrite (resolve_answer _ Hs). destruct answer as [response|status]; simpl; [|eauto].
  set (m := rq_message (request_of identity)).
  assert (request_rows m = _) as Hrows by (by apply synthetic_rows).
  destruct (export_ok_staged cfg ops st closes mono wall admission traced previous
    (request_of identity) response) as (header & batch & outcome & st' & evs & Hh & Ht & Hk & _ & Hst & Has).
  { done. }
  { apply synthetic_typed. }
  { fold m. rewrite Hrows. intros Hnil%fmap_nil_inv.
    assert (li_first_index identity ∈ index_range (li_first_index identity)
      (li_first_index identity + li_record_count identity)) as Hin
      by (apply elem_of_index_range; lia). rewrite Hnil in Hin. by apply not_elem_of_nil in Hin. }
  { done. }
  injection Hh as <-. injection Hk as Hk.
  assert (bt_tenant batch = li_tenant identity) as Hten.
  { unfold tenant_from_header in Ht. by repeat case_match; simplify_eq. }
  exists batch, outcome, (request_rows m), st', evs. split_and!; [done|by symmetry|done| |done].
  rewrite Hrows. apply Forall2_fmap_r, Forall_Forall2_diag, Forall_forall. intros. apply synthetic_attrs.
Qed.

End durable.

(** ** The journal, as the judge reads it *)

(** The identity a line carries, as the judge's type has it. *)
Definition judge_identity (identity : LoadIdentity) : RequestIdentity :=
  {| ri_request_id := li_request_id identity; ri_tenant := li_tenant identity;
     ri_record_count := li_record_count identity; ri_first_index := li_first_index identity;
     ri_source_incarnation := li_source_incarnation identity;
     ri_partition := None; ri_max_event_time_ms := None |}.

Definition identity_keys : list string :=
  ["request_id"; "tenant"; "record_count"; "first_index"; "source_incarnation"].

(** The numbers of a line fit their type. *)
Definition line_typed (line : LoadLine) : Prop :=
  is_u64 (ll_seq line) ∧ is_u64 (li_record_count (ll_identity line)) ∧
  is_u64 (li_first_index (ll_identity line)).

(** What serde documents of the two derived formats: the text is one line, its keys
    are the fields in order, the flattened rest of the envelope has the fields of
    the identity, and it decodes to the identity. *)
Class LoadgenLaws `{Serde, LoadgenSerde} := {
  rest_of : LoadLine → Value;
  line_one_line line :
    free_of newline (line_to_string line) = true ∧ free_of carriage_return (line_to_string line) = true;
  line_keys line :
    map_access (line_to_string line) = (["node"; "seq"; "event"] ++ identity_keys, None);
  line_envelope line : line_typed line →
    envelope_from_str (line_to_string line) =
    Ok {| env_node := ll_node line; env_seq := ll_seq line; env_event := ll_event line;
          env_rest := rest_of line |};
  rest_keys line key : contains_key (rest_of line) key = bool_decide (key ∈ identity_keys);
  rest_identity line : line_typed line →
    identity_from_value (rest_of line) = Ok (judge_identity (ll_identity line));
}.

(** The lines of the entries a journal recorded, numbered from 0. *)
Definition load_lines (node : NodeId) (entries : list (TraceEvent * LoadIdentity)) : list LoadLine :=
  imap (λ i e, {| ll_node := node; ll_seq := (N.of_nat i mod 2 ^ 64)%N; ll_event := e.1;
                  ll_identity := e.2 |}) entries.

(** The judge's lines for them. *)
Definition judge_lines (path : string) (node : NodeId) (entries : list (TraceEvent * LoadIdentity)) :
    list JournalLine :=
  imap (λ i e, {| jl_source := path; jl_line_no := 1 + N.of_nat i; jl_node := node;
                  jl_seq := (N.of_nat i mod 2 ^ 64)%N; jl_event := e.1;
                  jl_identity := Some (judge_identity e.2); jl_watermark := None;
                  jl_changelog := None; jl_part := None |}) entries.

Lemma judge_lines_dense path node entries : dense (judge_lines path node entries).
Proof.
  apply (dense_numbered node). intros i line. unfold judge_lines. rewrite list_lookup_imap.
  destruct (entries !! i); [|done]. by intros [= <-].
Qed.

Section judged.
Context `{LoadgenLaws}.

(** A line of the journal decodes to the judge's line. *)
Lemma line_decodes path n line : line_typed line →
  (li_first_index (ll_identity line) + li_record_count (ll_identity line) ≤ u64_max)%N →
  decodes path n (line_to_string line)
    {| jl_source := path; jl_line_no := n; jl_node := ll_node line; jl_seq := ll_seq line;
       jl_event := ll_event line; jl_identity := Some (judge_identity (ll_identity line));
       jl_watermark := None; jl_changelog := None; jl_part := None |}.
Proof.
  intros Hty Hfit. apply decodes_spec. eexists. split.
  - unfold envelope_of. assert (reject_duplicate_keys (line_to_string line) = Ok tt) as ->.
    { apply reject_duplicate_keys_ok. rewrite line_keys. split; [done|].
      apply (bool_decide_unpack _). vm_compute. exact I. }
    rewrite line_envelope by done. reflexivity.
  - unfold line_of, identity_from_rest, watermark_from_rest, changelog_from_rest, part_from_rest.
    cbn [env_rest env_node env_seq env_event]. rewrite !rest_keys.
    change (bool_decide ("request_id" ∈ identity_keys)) with true.
    change (bool_decide ("complete_through_ms" ∈ identity_keys)) with false.
    change (bool_decide ("changelog_key" ∈ identity_keys)) with false.
    change (bool_decide ("part" ∈ identity_keys)) with false. cbv iota.
    rewrite rest_identity by done. simpl. apply N.leb_le in Hfit. by rewrite Hfit.
Qed.

Definition entry_fits (e : TraceEvent * LoadIdentity) : Prop :=
  (li_first_index e.2 + li_record_count e.2 ≤ u64_max)%N.

Lemma entries_decode path node entries : Forall entry_fits entries →
  decodes_from path 1 (line_to_string <$> load_lines node entries) (judge_lines path node entries).
Proof.
  intros Hfit. unfold load_lines, judge_lines. split; [by rewrite length_fmap, !length_imap|].
  intros i raw line. rewrite list_lookup_fmap, !list_lookup_imap.
  destruct (entries !! i) as [e|] eqn:Ee; [|done]. simpl. intros [= <-] [= <-].
  pose proof (Forall_lookup_1 _ _ _ _ Hfit Ee) as He. unfold entry_fits in He.
  apply line_decodes; [|done]. unfold line_typed, is_u64; simpl.
  split_and!; [|lia..]. pose proof (N.mod_lt (N.of_nat i) (2 ^ 64)). unfold u64_max. lia.
Qed.

(** The judge ingests the file of a journal as the entries recorded. *)
Lemma journal_ingested fs path node entries :
  fs path = Ok (text_of (line_to_string <$> load_lines node entries)) → Forall entry_fits entries →
  ingest_journals fs [path] = Ok {| js_lines := judge_lines path node entries |}.
Proof.
  intros Hfs Hfit. apply ingest_spec. exists [judge_lines path node entries]. split_and!.
  - constructor; [|constructor]. split; [|apply judge_lines_dense].
    eexists. split; [exact Hfs|]. rewrite str_lines_text; [by apply entries_decode|].
    apply Forall_fmap, Forall_forall. intros line _. apply line_one_line.
  - simpl. by rewrite app_nil_r.
  - apply judge_lines_dense.
Qed.

End judged.

(** ** The invariant of a run *)

(** The resolution a task has counted, the line it has journaled, and whether it
    panicked. *)
Definition recorded (t : Task) : option RequestResolution :=
  match tk_phase t with Recorded resolution => Some resolution | _ => None end.

Definition entry_of (t : Task) : option (TraceEvent * LoadIdentity) :=
  match tk_phase t with
  | Journaled Acked | Recorded Acked => Some (EvClientAck, tk_identity t)
  | Journaled TimedOut | Recorded TimedOut => Some (EvClientTimeout, tk_identity t)
  | _ => None
  end.

Definition panicked (t : Task) : bool := match tk_phase t with Panicked => true | _ => false end.

(** How many tasks counted a resolution. *)
Definition counted (tasks : list Task) (resolution : RequestResolution) : N :=
  N.of_nat (length (filter (λ t, recorded t = Some resolution) tasks)).

Definition stat (stats : Stats) (resolution : RequestResolution) : N :=
  match resolution with
  | Acked => st_acked stats | TimedOut => st_timed_out stats
  | Rejected => st_rejected stats | Ambiguous => st_ambiguous stats
  end.

Lemma stat_record stats resolution resolution' :
  stat (stats_record stats resolution) resolution' =
  if decide (resolution = resolution') then u64_succ (stat stats resolution')
  else stat stats resolution'.
Proof. by destruct resolution, resolution'. Qed.

Lemma counted_middle before t after resolution :
  counted (before ++ t :: after) resolution =
  (counted (before ++ after) resolution +
   if decide (recorded t = Some resolution) then 1 else 0)%N.
Proof.
  unfold counted. rewrite !filter_app, filter_cons, !length_app. case_decide; simpl; lia.
Qed.

Lemma joinset_middle before t after :
  joinset_len (before ++ t :: after) =
  (joinset_len (before ++ after) + if tk_joined t then 0 else 1)%nat.
Proof.
  unfold joinset_len. rewrite !filter_app, filter_cons, !length_app.
  destruct (tk_joined t); [rewrite decide_False by done|rewrite decide_True by done]; simpl; lia.
Qed.

Lemma omap_middle {A B} (f : A → option B) before t after :
  omap f (before ++ t :: after) ≡ₚ option_list (f t) ++ omap f (before ++ after).
Proof.
  rewrite !omap_app. simpl. destruct (f t); simpl; [|done]. by rewrite Permutation_middle.
Qed.

Section invariant.
Context `{LoadgenSerde} (metadata_ascii : string → bool) (cli : Cli) (start_nonce : N).

(** The file of a journal holds the lines of its entries, and a torn one after a
    failed write. *)
Definition journal_holds (journal : LoadgenJournal) (entries : list (TraceEvent * LoadIdentity)) :
    Prop :=
  lj_node journal = cli_node_id cli ∧
  ∃ torn, lj_out journal =
      text_of (line_to_string <$> load_lines (cli_node_id cli) entries) +:+ torn ∧
    (lj_poisoned journal = false →
     torn = "" ∧ lj_next_seq journal = (N.of_nat (length entries) mod 2 ^ 64)%N).

Lemma journal_record_holds journal entries event identity write journal' ok :
  journal_holds journal entries →
  journal_record journal event identity write = (journal', ok) →
  if ok then journal_holds journal' (entries ++ [(event, identity)])
  else journal_holds journal' entries ∧ lj_poisoned journal' = true.
Proof.
  intros (Hn & torn & Ho & Hp) Hr. unfold journal_record in Hr.
  destruct (lj_poisoned journal) eqn:Hpo; [by simplify_eq; repeat split; eauto|].
  destruct (Hp eq_refl) as [-> Hs]. rewrite string_app_nil in Ho.
  destruct write as [|reached]; simplify_eq/=.
  - split; [done|]. exists "". simpl. split; [|intros _; split; [done|]].
    + rewrite string_app_nil, Ho, Hs, Hn. unfold load_lines. rewrite imap_app, fmap_app.
      simpl. rewrite text_of_snoc. rewrite Nat.add_0_r. done.
    + rewrite Hs, u64_succ_mod, length_app. do 2 f_equal. simpl. lia.
  - split; [|done]. split; [done|]. eexists. split; [by rewrite Ho|done].
Qed.

Record run_ok (r : Run) : Prop := {
  ro_sent : rn_sent r = (N.of_nat (length (rn_tasks r)) mod 2 ^ 64)%N;
  ro_identity i t : rn_tasks r !! i = Some t →
    tk_identity t = identity_at cli start_nonce (N.of_nat i mod 2 ^ 64)%N;
  ro_live : joinset_len (rn_tasks r) ≤ Nat.max (cli_concurrency cli) 1;
  ro_joined : Forall (λ t, tk_joined t = true → task_done t = true) (rn_tasks r);
  ro_exited : rn_loop r = Exited → joinset_len (rn_tasks r) = 0;
  ro_stats resolution :
    stat (rn_stats r) resolution = (counted (rn_tasks r) resolution mod 2 ^ 64)%N;
  ro_journal : ∃ entries, journal_holds (rn_journal r) entries ∧
    entries ≡ₚ omap entry_of (rn_tasks r);
}.

Lemma run_start_ok : run_ok (run_start cli).
Proof.
  split; try done; simpl.
  - unfold joinset_len. rewrite filter_nil. simpl. lia.
  - intros []; done.
  - exists []. split; [|done]. split; [done|]. by exists "".
Qed.

(** Replacing a task by one with the same identity keeps who is who. *)
Lemma identities_middle before t t' after :
  tk_identity t' = tk_identity t →
  (∀ i u, (before ++ t :: after) !! i = Some u →
     tk_identity u = identity_at cli start_nonce (N.of_nat i mod 2 ^ 64)%N) →
  ∀ i u, (before ++ t' :: after) !! i = Some u →
     tk_identity u = identity_at cli start_nonce (N.of_nat i mod 2 ^ 64)%N.
Proof.
  intros Hid Hall i u Hi. destruct (decide (i = length before)) as [->|Hne].
  - rewrite list_lookup_middle in Hi by done. simplify_eq. rewrite Hid. apply Hall.
    by rewrite list_lookup_middle.
  - apply Hall. rewrite lookup_app in Hi |- *. destruct (before !! i) eqn:Eb; [done|].
    apply lookup_ge_None in Eb. destruct (i - length before)%nat as [|k] eqn:Ek; [lia|done].
Qed.

Definition with_phase (t : Task) (phase : Phase) : Task :=
  {| tk_identity := tk_identity t; tk_phase := phase; tk_joined := tk_joined t |}.

(** What one step of a task does to the counts and the journal. *)
Lemma task_step_effect t journal stats phase journal' stats' entries :
  task_step metadata_ascii (tk_phase t, journal, stats) (tk_identity t) (phase, journal', stats') →
  journal_holds journal entries →
  task_done t = false ∧ recorded t = None ∧
  (∀ resolution, stat stats' resolution =
     if decide (recorded (with_phase t phase) = Some resolution)
     then u64_succ (stat stats resolution) else stat stats resolution) ∧
  ∃ entries', journal_holds journal' entries' ∧
    option_list (entry_of t) ++ entries' ≡ₚ option_list (entry_of (with_phase t phase)) ++ entries.
Proof.
  unfold task_done, recorded, entry_of, with_phase. simpl.
  intros Hstep Hj. inversion Hstep as [| |identity j st raced write j' ph Hjr|]; subst; simpl.
  - split_and!; [done|done|done|]. by exists entries.
  - split_and!; [done|done|done|]. by exists entries.
  - split_and!; [done|done|..].
    + unfold journal_resolution in Hjr. destruct (resolve raced); repeat case_match; by simplify_eq.
    + unfold journal_resolution in Hjr. destruct (resolve raced); simpl in Hjr.
      1-2: match type of Hjr with context [journal_record ?a ?b ?c ?d] =>
             destruct (journal_record a b c d) as [j' ok] eqn:Er end;
           apply journal_record_holds with (1 := Hj) in Er; destruct ok; simplify_eq; simpl;
           [eexists; split; [exact Er|]; by rewrite Permutation_app_comm|exists entries; naive_solver].
      all: simplify_eq; simpl; by exists entries.
  - split_and!; [done|done| |].
    + intros resolution'. rewrite stat_record. repeat case_decide; naive_solver.
    + exists entries. split; [done|]. by destruct resolution.
Qed.

Lemma run_step_ok r r' : run_ok r → run_step metadata_ascii cli start_nonce r r' → run_ok r'.
Proof.
  intros [Hsent Hid Hlive Hjoined Hexit Hstats (entries & Hj & Hperm)] Hstep.
  destruct Hstep as [r Hloop Hlim Hslot|r before t after Hloop Ht Hdone Hnj|r Hloop Hstop|r Hloop Hz|
    r before t after phase journal stats Ht Htask].
  - split; simpl.
    + rewrite Hsent, u64_succ_mod, length_app. do 2 f_equal. simpl. lia.
    + intros i t [Hi|[Hge Hi]]%lookup_app_Some; [by apply Hid|].
      apply list_lookup_singleton_Some in Hi as [Hz <-]. simpl. rewrite Hsent. do 3 f_equal. lia.
    + rewrite joinset_middle, app_nil_r. simpl. lia.
    + apply Forall_app. split; [done|]. by constructor.
    + done.
    + intros resolution. rewrite counted_middle, app_nil_r, Hstats. simpl. do 2 f_equal. lia.
    + exists entries. split; [done|]. rewrite Hperm, omap_app. simpl. by rewrite app_nil_r.
  - rewrite Ht in *. rewrite joinset_middle, Hnj in Hlive. split; simpl.
    + rewrite Hsent, !length_app. done.
    + by eapply identities_middle; [|exact Hid].
    + rewrite joinset_middle. simpl. lia.
    + apply Forall_app in Hjoined as [Hb Ha%Forall_cons]. apply Forall_app. split; [done|].
      constructor; [done|naive_solver].
    + intros E. rewrite E in Hloop. naive_solver.
    + intros resolution. rewrite Hstats, !counted_middle. done.
    + exists entries. split; [done|]. rewrite Hperm, !omap_middle. done.
  - split; try done. by exists entries.
  - split; try done. by exists entries.
  - destruct (task_step_effect t _ _ _ _ _ entries Htask Hj) as (Hnd & Hnr & Hst & entries' & Hj' & Hp).
    rewrite Ht in *. split; simpl.
    + rewrite Hsent, !length_app. done.
    + by eapply identities_middle; [|exact Hid].
    + by rewrite joinset_middle in Hlive |- *.
    + apply Forall_app in Hjoined as [Hb Ha%Forall_cons]. apply Forall_app. split; [done|].
      constructor; [|naive_solver]. destruct Ha as [Ha _]. simpl. intros E%Ha. congruence.
    + intros E%Hexit. by rewrite joinset_middle in E |- *.
    + intros resolution. rewrite Hst, Hstats. rewrite !counted_middle, Hnr.
      rewrite (decide_False (P := None = Some resolution)) by done. rewrite N.add_0_r.
      unfold with_phase. case_decide; [by rewrite u64_succ_mod|by rewrite N.add_0_r].
    + exists entries'. split; [done|]. rewrite omap_middle.
      apply (Permutation_app_inv_l (option_list (entry_of t))).
      rewrite Hp, Hperm, omap_middle. fold (with_phase t phase).
      rewrite !(assoc_L (++)). f_equiv. apply Permutation_app_comm.
Qed.

Lemma run_reachable_ok r : run_reachable metadata_ascii cli start_nonce r → run_ok r.
Proof. induction 1; [apply run_start_ok|by eapply run_step_ok]. Qed.

End invariant.

(** ** What a run leaves behind *)

Definition panics (tasks : list Task) : N :=
  N.of_nat (length (filter (λ t, panicked t = true) tasks)).

(** The keys of the records a task's request carries. *)
Definition task_keys (t : Task) : list string :=
  record_key (li_source_incarnation (tk_identity t)) <$>
    index_range (li_first_index (tk_identity t))
      (li_first_index (tk_identity t) + li_record_count (tk_identity t)).

(** Every resolution counted so far. *)
Definition resolved_count (tasks : list Task) : N :=
  (counted tasks Acked + counted tasks TimedOut + counted tasks Rejected +
   counted tasks Ambiguous)%N.

Lemma resolved_le tasks : (resolved_count tasks ≤ N.of_nat (length tasks))%N.
Proof.
  induction tasks as [|t tasks IH] using rev_ind; [done|]. unfold resolved_count in *.
  rewrite !counted_middle, app_nil_r, length_app. simpl.
  destruct (recorded t) as [[]|]; repeat case_decide; try done; lia.
Qed.

Lemma settled_tasks tasks : Forall (λ t, task_done t = true) tasks →
  N.of_nat (length tasks) = (resolved_count tasks + panics tasks)%N.
Proof.
  induction tasks as [|t tasks IH] using rev_ind; [done|].
  intros [Hts [Ht _]%Forall_cons]%Forall_app. specialize (IH Hts). unfold resolved_count, panics in *.
  rewrite !counted_middle, app_nil_r, filter_app, filter_cons, filter_nil, !length_app.
  unfold task_done in Ht. destruct (recorded t) eqn:Er, (panicked t) eqn:Ep; unfold recorded in Er;
    unfold panicked in Ep; destruct (tk_phase t) as [| | |[]|]; simplify_eq; repeat case_decide; try done; simpl; lia.
Qed.

Lemma joined_all tasks : joinset_len tasks = 0 → Forall (λ t, tk_joined t = true) tasks.
Proof.
  unfold joinset_len. intros Hz%nil_length_inv. apply Forall_forall. intros t Ht.
  destruct (tk_joined t) eqn:E; [done|]. assert (t ∈ filter (λ t, tk_joined t = false) tasks) as Hin
    by (by apply list_elem_of_filter). rewrite Hz in Hin. by apply not_elem_of_nil in Hin.
Qed.

Section claims.
Context `{LoadgenSerde} (metadata_ascii : string → bool) (cli : Cli) (start_nonce : N).

(** The indices of two requests of one run do not meet. *)
Lemma task_keys_disjoint r i j t u : run_ok cli start_nonce r → i < j →
  (N.of_nat (length (rn_tasks r)) ≤ u64_max)%N →
  (N.of_nat (length (rn_tasks r)) * cli_batch_size cli ≤ u64_max)%N →
  rn_tasks r !! i = Some t → rn_tasks r !! j = Some u → ∀ k, k ∈ task_keys t → k ∉ task_keys u.
Proof.
  intros Hok Hij Hlen Hfit Ht Hu k. pose proof (lookup_lt_Some _ _ _ Ht).
  pose proof (lookup_lt_Some _ _ _ Hu).
  pose proof (ro_identity _ _ _ Hok _ _ Ht) as Eit. pose proof (ro_identity _ _ _ Hok _ _ Hu) as Eiu.
  unfold u64_max in *. rewrite N.mod_small in Eit, Eiu by lia.
  unfold task_keys. rewrite Eit, Eiu. cbn [li_source_incarnation li_first_index li_record_count identity_at].
  unfold u64_mul, u64_max. rewrite !N.mod_small by nia.
  intros (a & -> & Ha)%list_elem_of_fmap (b & [_ ->]%record_key_inj & Hb)%list_elem_of_fmap.
  rewrite elem_of_index_range in Ha, Hb. nia.
Qed.

Lemma request_ids_nodup r : run_ok cli start_nonce r →
  (N.of_nat (length (rn_tasks r)) ≤ u64_max)%N →
  NoDup ((λ t, li_request_id (tk_identity t)) <$> rn_tasks r).
Proof.
  intros Hok Hlen. apply NoDup_alt. intros i j id. rewrite !list_lookup_fmap.
  destruct (rn_tasks r !! i) as [t|] eqn:Ht; [|done].
  destruct (rn_tasks r !! j) as [u|] eqn:Hu; [|done].
  pose proof (lookup_lt_Some _ _ _ Ht). pose proof (lookup_lt_Some _ _ _ Hu).
  simpl. rewrite (ro_identity _ _ _ Hok _ _ Ht), (ro_identity _ _ _ Hok _ _ Hu).
  cbn [li_request_id identity_at]. intros [= <-] [= E]. rewrite !request_id_key in E.
  apply record_key_inj in E as [_ E]. unfold u64_max in *. rewrite !N.mod_small in E by lia. lia.
Qed.

Lemma stats_total_counted r : run_ok cli start_nonce r →
  (N.of_nat (length (rn_tasks r)) ≤ u64_max)%N →
  (∀ resolution, stat (rn_stats r) resolution = counted (rn_tasks r) resolution) ∧
  stats_total (rn_stats r) = resolved_count (rn_tasks r) ∧
  resolved_total (summary_of r) = resolved_count (rn_tasks r).
Proof.
  intros Hok Hlen. pose proof (resolved_le (rn_tasks r)) as Hle.
  assert (∀ resolution, stat (rn_stats r) resolution = counted (rn_tasks r) resolution) as Hst.
  { intros resolution. rewrite (ro_stats _ _ _ Hok). apply N.mod_small.
    unfold resolved_count, u64_max in *. destruct resolution; lia. }
  split; [done|]. pose proof (Hst Acked). pose proof (Hst TimedOut). pose proof (Hst Rejected).
  pose proof (Hst Ambiguous). unfold resolved_count in *. simpl in *.
  unfold stats_total, resolved_total, u64_add, summary_of; simpl. unfold u64_max in *.
  rewrite (N.mod_small (st_acked _ + st_timed_out _)) by lia.
  rewrite (N.mod_small (_ + st_rejected _)) by lia. rewrite !N.mod_small by lia. split; lia.
Qed.

(** C28: A load generator accounts for everything it sends.  In every state of a run,
    however the loop and the tasks interleave, whatever the calls answer and
    whichever writes fail: [sent] is the number of tasks spawned, at most the
    configured concurrency of them are unjoined, each count is exactly the number of
    tasks with that resolution, and no two requests share an id or a record.  When
    the run ends, what the summary leaves unresolved is exactly the tasks that
    panicked, and the judge's check of the summary reports it exactly when one
    did. *)
Theorem loadgen_accounted (r : Run) (path : string) (ceiling : SpecFloat.spec_float) :
  run_reachable metadata_ascii cli start_nonce r →
  (N.of_nat (length (rn_tasks r)) ≤ u64_max)%N →
  rn_sent r = N.of_nat (length (rn_tasks r)) ∧
  joinset_len (rn_tasks r) ≤ Nat.max (cli_concurrency cli) 1 ∧
  (∀ resolution, stat (rn_stats r) resolution = counted (rn_tasks r) resolution) ∧
  NoDup ((λ t, li_request_id (tk_identity t)) <$> rn_tasks r) ∧
  ((N.of_nat (length (rn_tasks r)) * cli_batch_size cli ≤ u64_max)%N →
   ∀ i j t u k, rn_tasks r !! i = Some t → rn_tasks r !! j = Some u → i ≠ j →
     k ∈ task_keys t → k ∉ task_keys u) ∧
  (rn_loop r = Exited →
   unresolved r = panics (rn_tasks r) ∧
   ((∃ sent resolved, UnresolvedInFlight path sent resolved ∈
       check_decoded path ceiling (summary_of r)) ↔
    ∃ t, t ∈ rn_tasks r ∧ tk_phase t = Panicked)).
Proof.
  intros Hok%run_reachable_ok Hlen. destruct (stats_total_counted r Hok Hlen) as (Hst & Htot & Hres).
  assert (rn_sent r = N.of_nat (length (rn_tasks r))) as Hsent.
  { rewrite (ro_sent _ _ _ Hok). unfold u64_max in *. apply N.mod_small. lia. }
  split_and!; [done|by apply ro_live in Hok|done|by apply request_ids_nodup| |].
  - intros Hfit i j t u k Hi Hj Hne Hk Hk'. destruct (decide (i < j)).
    + by eapply (task_keys_disjoint r i j t u).
    + eapply (task_keys_disjoint r j i u t); [done|lia|done..].
  - intros Hx. pose proof (joined_all _ (ro_exited _ _ _ Hok Hx)) as Hall.
    pose proof (settled_tasks (rn_tasks r)) as Hset.
    rewrite Hset in Hsent; [|apply Forall_forall; intros t Ht; eapply Forall_forall in Hall; [|done];
      pose proof (ro_joined _ _ _ Hok) as Hj; eapply Forall_forall in Hj; [|done]; auto].
    split; [unfold unresolved; lia|]. unfold check_decoded. rewrite Hres. simpl. rewrite Hsent.
    assert ((0 < panics (rn_tasks r))%N ↔ ∃ t, t ∈ rn_tasks r ∧ tk_phase t = Panicked) as <-.
    { unfold panics. split.
      - intros Hp. destruct (filter _ (rn_tasks r)) as [|t l] eqn:Ef; [done|].
        assert (t ∈ filter (λ t, panicked t = true) (rn_tasks r)) as Ht by (rewrite Ef; left).
        apply list_elem_of_filter in Ht as [Hp' Ht]. exists t. split; [done|].
        unfold panicked in Hp'. by destruct (tk_phase t).
      - intros (t & Ht & Hp). assert (t ∈ filter (λ t, panicked t = true) (rn_tasks r)) as Hin
          by (apply list_elem_of_filter; unfold panicked; by rewrite Hp).
        destruct (filter _ _); [by apply not_elem_of_nil in Hin|simpl; lia]. }
    destruct (N.ltb_spec (resolved_count (rn_tasks r))
      (resolved_count (rn_tasks r) + panics (rn_tasks r))); split; [lia| | |lia].
    + intros _. eexists _, _. apply elem_of_app. left. by apply list_elem_of_singleton.
    + intros (s & n & Hin). simpl in Hin. repeat case_match; try by apply not_elem_of_nil in Hin.
      by apply list_elem_of_singleton in Hin.
Qed.

End claims.

(** The tasks that journaled the event of a resolution. *)
Definition journaled_as (resolution : RequestResolution) (t : Task) : bool :=
  match tk_phase t with
  | Journaled resolution' | Recorded resolution' => bool_decide (resolution' = resolution)
  | _ => false
  end.

Lemma entries_of_event (tasks : list Task) event resolution :
  (event, resolution) ∈ [(EvClientAck, Acked); (EvClientTimeout, TimedOut)] →
  omap (λ e : TraceEvent * LoadIdentity, if decide (e.1 = event) then Some (judge_identity e.2) else None)
    (omap entry_of tasks) =
  (λ t, judge_identity (tk_identity t)) <$> filter (λ t, journaled_as resolution t = true) tasks.
Proof.
  intros Hev. induction tasks as [|t tasks IH]; [done|]. rewrite filter_cons. simpl.
  destruct (entry_of t) eqn:Ee, (journaled_as resolution t) eqn:Ej; simpl;
    unfold entry_of in Ee; unfold journaled_as in Ej;
    apply elem_of_cons in Hev as [[= -> ->]|[= -> ->]%list_elem_of_singleton];
    destruct (tk_phase t) as [| |[]|[]|]; simplify_eq/=; auto; by f_equal.
Qed.

Section judged.
Context `{LoadgenLaws} (metadata_ascii : string → bool) (cli : Cli) (start_nonce : N).

Lemma judge_lines_events path node entries event :
  (identity_events {| js_lines := judge_lines path node entries |} event).*2 =
  omap (λ e : TraceEvent * LoadIdentity, if decide (e.1 = event) then Some (judge_identity e.2) else None)
    entries.
Proof.
  unfold identity_events, judge_lines. simpl. generalize 0 as n.
  assert (∀ (f : nat → TraceEvent * LoadIdentity → JournalLine),
    (∀ i e, jl_event (f i e) = e.1 ∧ jl_identity (f i e) = Some (judge_identity e.2)) →
    (omap (λ line, if decide (jl_event line = event)
                   then (λ identity, (line, identity)) <$> jl_identity line else None)
       (imap f entries)).*2 =
    omap (λ e : TraceEvent * LoadIdentity,
            if decide (e.1 = event) then Some (judge_identity e.2) else None) entries) as Hgen.
  { induction entries as [|e entries IH]; intros f Hf; [done|]. simpl.
    destruct (Hf 0 e) as [-> ->]. case_decide; simpl; [f_equal|]; apply IH; intros; apply Hf. }
  intros _. apply Hgen. done.
Qed.

(** C27: The judge reads a load generator's journal back as the run was.  For every
    state of a run whose journal writes have succeeded, whatever the interleaving of
    the tasks, the judge ingests the journal file (its lines are dense and decode),
    and the acks and the timeouts it finds there are exactly the requests that
    resolved that way, each once, with the identity it was sent with. *)
Theorem loadgen_journal_judged (r : Run) (fs : FileSystem) (path : string) :
  run_reachable metadata_ascii cli start_nonce r →
  lj_poisoned (rn_journal r) = false →
  (N.of_nat (length (rn_tasks r)) ≤ u64_max)%N →
  (N.of_nat (length (rn_tasks r)) * cli_batch_size cli ≤ u64_max)%N →
  fs path = Ok (lj_out (rn_journal r)) →
  ∃ journals, ingest_journals fs [path] = Ok journals ∧
    (identity_events journals EvClientAck).*2 ≡ₚ
      (λ t, judge_identity (tk_identity t)) <$> filter (λ t, journaled_as Acked t = true) (rn_tasks r) ∧
    (identity_events journals EvClientTimeout).*2 ≡ₚ
      (λ t, judge_identity (tk_identity t)) <$>
        filter (λ t, journaled_as TimedOut t = true) (rn_tasks r) ∧
    length (js_lines journals) = length (omap entry_of (rn_tasks r)).
Proof.
  intros Hok%run_reachable_ok Hp Hlen Hfit Hfs.
  destruct (ro_journal _ _ _ Hok) as (entries & (_ & torn & Ho & Hnp) & Hperm).
  destruct (Hnp Hp) as [-> _]. rewrite string_app_nil in Ho. rewrite Ho in Hfs.
  eexists. split; [apply (journal_ingested _ _ (cli_node_id cli) entries Hfs)|].
  - rewrite Hperm. apply Forall_forall. intros e (t & Ht & He)%list_elem_of_omap.
    apply list_elem_of_lookup in Ht as [i Hi]. pose proof (lookup_lt_Some _ _ _ Hi).
    unfold entry_fits. assert (e.2 = tk_identity t) as ->.
    { unfold entry_of in He. destruct (tk_phase t) as [| |[]|[]|]; by simplify_eq/=. }
    rewrite (ro_identity _ _ _ Hok _ _ Hi). cbn [li_first_index li_record_count identity_at].
    unfold u64_mul, u64_max in *. rewrite (N.mod_small (N.of_nat i)) by lia.
    rewrite N.mod_small by nia. nia.
  - rewrite !judge_lines_events. rewrite <-(entries_of_event _ EvClientAck Acked) by (left).
    rewrite <-(entries_of_event _ EvClientTimeout TimedOut) by (right; left).
    split_and!; [by apply omap_Permutation|by apply omap_Permutation|]. simpl. unfold judge_lines.
    rewrite length_imap. by apply Permutation_length.
Qed.

End judged.
