(* ===== verification/Vacuity.v ===== *)
(** * The run-level vacuity rules

    Models [crates/duckspout-judge/src/vacuity.rs]: the four rules that ask
    whether there was a run worth checking anything against. *)

From Stdlib Require Import SpecFloat.
From S2P Require Import Prelude Types Ports BTree Verdict Evidence Journal RunManifest.
From S2P Require Import FaultLedger RunSummary.

Definition RULE_FAULT_SCHEDULE : string := "vacuity/fault-schedule-fired".
Definition RULE_CROSS_NODE_CONTENTION : string := "vacuity/cross-node-contention".
Definition RULE_NODE_CONTINUITY : string := "vacuity/node-journal-continuity".
Definition RULE_LOADGEN_OUTCOMES : string := "vacuity/loadgen-outcome-quality".

Definition DEFAULT_MAX_JOURNAL_SILENCE_MS : N := 30000.

(** [VacuityInputs] *)
Record VacuityInputs := {
  vi_journals : JournalSet;
  vi_ledger : option FaultLedger;
  vi_manifest : option RunManifest;
  vi_max_ambiguous_fraction : spec_float;
  vi_max_journal_silence_ms : N;
}.

(** Why a rule could not be applied. *)
Inductive Inapplicable :=
| NoFaultLog | NoFaultWindow
| ContentionNoManifest | RosterTooSmall (nodes : nat)
| ContinuityNoManifest | EmptyRoster | NoJournalActivity
| NoLoadgenJournal.

Inductive VacuityFinding :=
| NotApplicable (reason : Inapplicable)
| ArmedButUnfired (fault_id kind target_node : string)
| NoCrossNodeContention (roster_nodes : nat)
| NodeNeverJournaled (node : string)
| NodeJournalNotIngested (node : string) (journal_lines : N)
| NodeExitedEarly (node : string)
| NodeJournalStopped (node : string) (silent_ms budget_ms : N)
| LoadgenSummary (finding : SummaryFinding).

(** The reasons of a rule's [NoVerdict]: its findings, joined. *)
Inductive VacuityReason :=
| RuleCheckedNothing
| RuleFindings (findings : list VacuityFinding).

(** [to_verdict] *)
Definition to_verdict (r : result nat (list VacuityFinding)) : Verdict VacuityFinding VacuityReason :=
  match r with
  | Ok checked => pass checked RuleCheckedNothing
  | Err findings => NoVerdict (RuleFindings findings)
  end.

(** ** Rule 1 *)

(** [check_fault_schedule] *)
Definition check_fault_schedule (ledger : option FaultLedger) : result nat (list VacuityFinding) :=
  match ledger with
  | None => Err [NotApplicable NoFaultLog]
  | Some ledger =>
      match fl_windows ledger with
      | [] => Err [NotApplicable NoFaultWindow]
      | windows =>
          match filter (λ w, fw_started_at_ms w = None) windows with
          | [] => Ok (length windows)
          | unfired => Err ((λ w, ArmedButUnfired (fw_fault_id w) (fw_kind w) (fw_target_node w))
                            <$> unfired)
          end
      end
  end.

(** ** Rule 2 *)

(** [hosts_journaling] *)
Definition hosts_journaling (journals : JournalSet) (roster : gset string) (event : TraceEvent) :
    gset string :=
  filter (λ host, host ∈ roster)
    (list_to_set ((λ line, node_host (jl_node line))
                  <$> filter (λ line, jl_event line = event) (js_lines journals))).

(** [cross_pairs]: the distinct pairs; the relation is a tag. *)
Definition cross_pairs (relation : string) (from to : gset string) :
    gset (string * string * string) :=
  list_to_set (a ← elements from; b ← elements to; if decide (a = b) then [] else [(relation, a, b)]).

(** The roster names of a manifest. *)
Definition roster_of (manifest : RunManifest) : gset string :=
  list_to_set (nr_name <$> rm_nodes manifest).

(** [check_cross_node_contention] *)
Definition check_cross_node_contention (journals : JournalSet) (manifest : option RunManifest) :
    result nat (list VacuityFinding) :=
  match manifest with
  | None => Err [NotApplicable ContentionNoManifest]
  | Some manifest =>
      let roster := roster_of manifest in
      if (size roster <? 2)%nat then Err [NotApplicable (RosterTooSmall (size roster))]
      else
        let forwarders := hosts_journaling journals roster EvForward in
        let appliers := hosts_journaling journals roster EvPeerApply in
        let takers := hosts_journaling journals roster EvTakeoverDrain in
        let holders := hosts_journaling journals roster EvClaimAdvertise ∪
                       hosts_journaling journals roster EvLakeCommitOk in
        let pairs := cross_pairs "replication" forwarders appliers ∪
                     cross_pairs "ownership" takers holders in
        let attesters := hosts_journaling journals roster EvReceipt in
        let evidence := (size pairs + size attesters)%nat in
        if (evidence =? 0)%nat then Err [NoCrossNodeContention (size roster)] else Ok evidence
  end.

(** ** Rule 4 *)

Section continuity.
Context (manifest : RunManifest) (ledger : option FaultLedger) (budget_ms run_last_progress : N)
  (ingested : gset string).

Definition tolerance : AlibiTolerance :=
  {| at_start_slack_ms := u64_sat_add budget_ms (rm_sample_interval_ms manifest);
     at_end_slack_ms := rm_sample_interval_ms manifest |}.

(** The closure [covered]. *)
Definition covered (node : string) (from until : N) : bool :=
  match ledger with
  | None => false
  | Some ledger => existsb (λ w, covers w from until tolerance) (windows_targeting ledger node)
  end.

(** The closure [terminal_at]. *)
Definition terminal_at (node : string) : option N :=
  ledger ≫= λ ledger, terminal_horizon ledger node.

(** How long a node is expected to journal. *)
Definition horizon_of (node : NodeRun) : N :=
  N.min (default run_last_progress (terminal_at (nr_name node))) run_last_progress.

(** The body of the loop of [check_node_continuity]. *)
Definition check_node (node : NodeRun) : list VacuityFinding :=
  let horizon := horizon_of node in
  match nr_last_progress_at_ms node with
  | None =>
      if covered (nr_name node) (rm_started_at_ms manifest) horizon then []
      else [NodeNeverJournaled (nr_name node)]
  | Some last_progress =>
      if negb (bool_decide (nr_name node ∈ ingested))
      then [NodeJournalNotIngested (nr_name node) (nr_journal_lines node)]
      else if nr_exited_early node && bool_decide (terminal_at (nr_name node) = None)
      then [NodeExitedEarly (nr_name node)]
      else
        let silent_ms := (horizon - last_progress)%N in
        if (budget_ms <? silent_ms)%N && negb (covered (nr_name node) last_progress horizon)
        then [NodeJournalStopped (nr_name node) silent_ms budget_ms]
        else []
  end.
End continuity.

(** [check_node_continuity] *)
Definition check_node_continuity (journals : JournalSet) (manifest : option RunManifest)
    (ledger : option FaultLedger) (budget_ms : N) : result nat (list VacuityFinding) :=
  match manifest with
  | None => Err [NotApplicable ContinuityNoManifest]
  | Some manifest =>
      match rm_nodes manifest with
      | [] => Err [NotApplicable EmptyRoster]
      | nodes =>
          match last_progress_at_ms manifest with
          | None => Err [NotApplicable NoJournalActivity]
          | Some run_last_progress =>
              let ingested : gset string :=
                list_to_set ((λ line, node_host (jl_node line)) <$> js_lines journals) in
              match nodes ≫= check_node manifest ledger budget_ms run_last_progress ingested with
              | [] => Ok (length nodes)
              | findings => Err findings
              end
          end
      end
  end.

(** ** Rule 3 *)

(** [check_loadgen_outcomes] *)
Definition check_loadgen_outcomes `{Serde} (fs : FileSystem) (journals : JournalSet)
    (max_ambiguous_fraction : spec_float) : result nat (list VacuityFinding) :=
  let sources := loadgen_journal_sources journals in
  if (size sources =? 0)%nat then Err [NotApplicable NoLoadgenJournal]
  else
    match check_summaries fs journals max_ambiguous_fraction with
    | Ok _ => Ok (size sources)
    | Err findings => Err (LoadgenSummary <$> findings)
    end.

(** [check_all] *)
Definition check_all `{Serde} (fs : FileSystem) (inputs : VacuityInputs) :
    list (string * Verdict VacuityFinding VacuityReason) :=
  [(RULE_FAULT_SCHEDULE, to_verdict (check_fault_schedule (vi_ledger inputs)));
   (RULE_CROSS_NODE_CONTENTION,
     to_verdict (check_cross_node_contention (vi_journals inputs) (vi_manifest inputs)));
   (RULE_NODE_CONTINUITY,
     to_verdict (check_node_continuity (vi_journals inputs) (vi_manifest inputs) (vi_ledger inputs)
       (vi_max_journal_silence_ms inputs)));
   (RULE_LOADGEN_OUTCOMES,
     to_verdict (check_loadgen_outcomes fs (vi_journals inputs) (vi_max_ambiguous_fraction inputs)))].

(** ** What each rule certifies *)

(** Every fault the injectors armed also started. *)
Definition schedule_fired (ledger : option FaultLedger) : Prop :=
  ∃ l, ledger = Some l ∧ fl_windows l ≠ [] ∧
    ∀ w, w ∈ fl_windows l → is_Some (fw_started_at_ms w).

(** A roster host journaled [event]. *)
Definition host_journaled (journals : JournalSet) (manifest : RunManifest) (event : TraceEvent)
    (host : string) : Prop :=
  (∃ node, node ∈ rm_nodes manifest ∧ nr_name node = host) ∧
  ∃ line, line ∈ js_lines journals ∧ jl_event line = event ∧ node_host (jl_node line) = host.

(** Two roster hosts met. *)
Definition contended (journals : JournalSet) (manifest : option RunManifest) : Prop :=
  ∃ m, manifest = Some m ∧
    (∃ n1 n2, n1 ∈ rm_nodes m ∧ n2 ∈ rm_nodes m ∧ nr_name n1 ≠ nr_name n2) ∧
    ((∃ a b, a ≠ b ∧ host_journaled journals m EvForward a ∧ host_journaled journals m EvPeerApply b) ∨
     (∃ a b, a ≠ b ∧ host_journaled journals m EvTakeoverDrain a ∧
        (host_journaled journals m EvClaimAdvertise b ∨ host_journaled journals m EvLakeCommitOk b)) ∨
     ∃ a, host_journaled journals m EvReceipt a).

(** A fired fault window on the node's own host spans [from, until], up to the
    tolerance. *)
Definition alibi (manifest : RunManifest) (ledger : option FaultLedger) (budget : N)
    (node : NodeRun) (from until : N) : Prop :=
  ∃ l w started, ledger = Some l ∧ w ∈ fl_windows l ∧
    node_host (fw_target_node w) = node_host (nr_name node) ∧
    fw_started_at_ms w = Some started ∧
    (started ≤ u64_sat_add from (u64_sat_add budget (rm_sample_interval_ms manifest)))%N ∧
    ∀ ended, fw_ended_at_ms w = Some ended →
      (until ≤ u64_sat_add ended (rm_sample_interval_ms manifest))%N.

(** When a terminal fault took the node out of the run. *)
Definition taken_out (ledger : option FaultLedger) (node : NodeRun) (t : N) : Prop :=
  ∃ l, ledger = Some l ∧
    (∃ w, w ∈ fl_windows l ∧ node_host (fw_target_node w) = node_host (nr_name node) ∧
       fw_kind w ∈ TERMINAL_FAULT_KINDS ∧ fw_started_at_ms w = Some t) ∧
    ∀ w t', w ∈ fl_windows l → node_host (fw_target_node w) = node_host (nr_name node) →
       fw_kind w ∈ TERMINAL_FAULT_KINDS → fw_started_at_ms w = Some t' → (t ≤ t')%N.

(** The node's evidence is all there: it journaled until its horizon, within the
    budget, or a fault accounts for the silence. *)
Definition accounted (journals : JournalSet) (manifest : RunManifest) (ledger : option FaultLedger)
    (budget last : N) (node : NodeRun) : Prop :=
  ∃ horizon, (taken_out ledger node horizon ∧ (horizon ≤ last)%N ∨
              horizon = last ∧ ∀ t, taken_out ledger node t → (last ≤ t)%N) ∧
  match nr_last_progress_at_ms node with
  | None => alibi manifest ledger budget node (rm_started_at_ms manifest) horizon
  | Some t =>
      (∃ line, line ∈ js_lines journals ∧ node_host (jl_node line) = nr_name node) ∧
      (nr_exited_early node = true → ∃ t', taken_out ledger node t') ∧
      ((horizon - t ≤ budget)%N ∨ alibi manifest ledger budget node t horizon)
  end.

(** No roster node's journal simply stopped. *)
Definition continuous (journals : JournalSet) (manifest : option RunManifest)
    (ledger : option FaultLedger) (budget : N) : Prop :=
  ∃ m last, manifest = Some m ∧ last_progress_at_ms m = Some last ∧
    ∀ node, node ∈ rm_nodes m → accounted journals m ledger budget last node.

(** * What the run-level vacuity rules certify *)

(** A rule never convicts: absence of evidence is no finding against anybody. *)
Lemma rules_never_convict `{Serde} fs inputs rule v :
  (rule, v) ∈ check_all fs inputs → is_violation v = false.
Proof.
  assert (∀ r, is_violation (to_verdict r) = false) as Hr.
  { intros [n|fs']; [|done]. unfold to_verdict, pass. by destruct (n =? 0)%nat. }
  unfold check_all. rewrite !elem_of_cons. intros [E|[E|[E|[E|E]]]]; try (simplify_eq; apply Hr).
  by apply not_elem_of_nil in E.
Qed.

Lemma to_verdict_passed r :
  passed (to_verdict r) ↔ ∃ n, r = Ok (S n).
Proof.
  unfold to_verdict, pass, passed. destruct r as [[|n]|]; simpl; naive_solver.
Qed.

(** ** Rule 1 *)

Lemma fault_schedule_passed ledger :
  passed (to_verdict (check_fault_schedule ledger)) ↔ schedule_fired ledger.
Proof.
  rewrite to_verdict_passed. unfold check_fault_schedule, schedule_fired.
  destruct ledger as [l|]; [|naive_solver].
  destruct (fl_windows l) as [|w ws] eqn:Ew; [naive_solver|]. rewrite <-Ew.
  assert (filter (λ w, fw_started_at_ms w = None) (fl_windows l) = [] ↔
          ∀ w, w ∈ fl_windows l → is_Some (fw_started_at_ms w)) as Hf.
  { clear Ew. induction (fl_windows l) as [|x xs IH]; [set_solver|]. setoid_rewrite elem_of_cons.
    rewrite filter_cons. case_decide as Hx.
    - split; [done|]. intros Hall. specialize (Hall x ltac:(by left)). rewrite Hx in Hall. by destruct Hall.
    - apply not_eq_None_Some in Hx. naive_solver. }
  destruct (filter _ _).
  - split; [|intros _; exists (length ws); by rewrite Ew]. intros _. exists l.
    split_and!; [done|by rewrite Ew|by apply Hf].
  - split; [by intros [? ?]|]. intros (? & [= <-] & _ & Hall%Hf). done.
Qed.

(** ** Rule 2 *)

Lemma elem_of_hosts journals m event host :
  host ∈ hosts_journaling journals (roster_of m) event ↔ host_journaled journals m event host.
Proof.
  unfold hosts_journaling, host_journaled, roster_of.
  rewrite elem_of_filter, !elem_of_list_to_set, !list_elem_of_fmap.
  setoid_rewrite list_elem_of_filter. naive_solver.
Qed.

Lemma elem_of_cross_pairs rel from to x :
  x ∈ cross_pairs rel from to ↔ ∃ a b, a ∈ from ∧ b ∈ to ∧ a ≠ b ∧ x = (rel, a, b).
Proof.
  unfold cross_pairs. rewrite elem_of_list_to_set, list_elem_of_bind.
  setoid_rewrite list_elem_of_bind. setoid_rewrite elem_of_elements. split.
  - intros (a & (b & Hx & Hb) & Ha). case_decide; [by apply not_elem_of_nil in Hx|].
    apply list_elem_of_singleton in Hx. eauto 10.
  - intros (a & b & Ha & Hb & Hne & ->). exists a. split; [|done]. exists b. split; [|done].
    rewrite decide_False by done. by left.
Qed.

Lemma cross_pairs_empty rel from to :
  cross_pairs rel from to ≠ ∅ ↔ ∃ a b, a ≠ b ∧ a ∈ from ∧ b ∈ to.
Proof.
  split.
  - intros [x Hx]%set_choose_L. apply elem_of_cross_pairs in Hx. naive_solver.
  - intros (a & b & Hne & Ha & Hb) E. assert ((rel, a, b) ∈ cross_pairs rel from to) as Hin.
    { apply elem_of_cross_pairs. eauto 10. } rewrite E in Hin. set_solver.
Qed.

Lemma size_two (X : gset string) : (2 ≤ size X)%nat ↔ ∃ a b, a ∈ X ∧ b ∈ X ∧ a ≠ b.
Proof.
  split.
  - intros Hs. destruct (elements X) as [|a [|b l]] eqn:E.
    + unfold size, set_size in Hs. simpl in Hs. rewrite E in Hs. simpl in Hs. lia.
    + unfold size, set_size in Hs. simpl in Hs. rewrite E in Hs. simpl in Hs. lia.
    + exists a, b. rewrite <-!elem_of_elements, E. pose proof (NoDup_elements X) as Hn. rewrite E in Hn.
      apply NoDup_cons in Hn as [Hn _]. set_solver.
  - intros (a & b & Ha & Hb & Hab). assert ({[a]} ∪ {[b]} ⊆ X) as Hsub by set_solver.
    apply subseteq_size in Hsub. rewrite size_union, !size_singleton in Hsub by set_solver. lia.
Qed.

Lemma size_nonzero {A} `{Countable A} (X : gset A) : size X ≠ 0%nat ↔ X ≠ ∅.
Proof. rewrite size_non_empty_iff. by rewrite leibniz_equiv_iff. Qed.

Lemma contention_passed journals manifest :
  passed (to_verdict (check_cross_node_contention journals manifest)) ↔ contended journals manifest.
Proof.
  rewrite to_verdict_passed. unfold check_cross_node_contention, contended.
  destruct manifest as [m|]; [|split; [by intros [? ?]|by intros (? & [=] & _)]].
  assert ((∃ n1 n2, n1 ∈ rm_nodes m ∧ n2 ∈ rm_nodes m ∧ nr_name n1 ≠ nr_name n2) ↔
          (2 ≤ size (roster_of m))%nat) as Hr.
  { rewrite size_two. unfold roster_of. setoid_rewrite elem_of_list_to_set.
    setoid_rewrite list_elem_of_fmap. split.
    - intros (n1 & n2 & H1 & H2 & Hne). exists (nr_name n1), (nr_name n2). eauto 10.
    - intros (a & b & (n1 & -> & H1) & (n2 & -> & H2) & Hne). eauto. }
  destruct (Nat.ltb_spec (size (roster_of m)) 2) as [Hlt|Hge].
  { split; [by intros [? ?]|]. intros (? & [= <-] & H2%Hr & _). lia. }
  set (pairs := cross_pairs _ _ _ ∪ cross_pairs _ _ _). set (attesters := hosts_journaling journals (roster_of m) EvReceipt).
  assert (size pairs ≠ 0%nat ∨ size attesters ≠ 0%nat ↔
    (∃ a b, a ≠ b ∧ host_journaled journals m EvForward a ∧ host_journaled journals m EvPeerApply b) ∨
    (∃ a b, a ≠ b ∧ host_journaled journals m EvTakeoverDrain a ∧
      (host_journaled journals m EvClaimAdvertise b ∨ host_journaled journals m EvLakeCommitOk b)) ∨
    ∃ a, host_journaled journals m EvReceipt a) as Hev.
  { rewrite !size_nonzero. setoid_rewrite <-elem_of_hosts. setoid_rewrite <-elem_of_union.
    rewrite <-(cross_pairs_empty "replication"), <-(cross_pairs_empty "ownership"). fold attesters.
    assert (attesters ≠ ∅ ↔ ∃ a, a ∈ attesters) as ->.
    { split; [apply set_choose_L|set_solver]. }
    assert (pairs ≠ ∅ ↔ cross_pairs "replication" (hosts_journaling journals (roster_of m) EvForward)
       (hosts_journaling journals (roster_of m) EvPeerApply) ≠ ∅ ∨
      cross_pairs "ownership" (hosts_journaling journals (roster_of m) EvTakeoverDrain)
        (hosts_journaling journals (roster_of m) EvClaimAdvertise ∪
         hosts_journaling journals (roster_of m) EvLakeCommitOk) ≠ ∅) as ->.
    { unfold pairs. rewrite empty_union_L.
      destruct (decide (cross_pairs "replication" (hosts_journaling journals (roster_of m) EvForward)
       (hosts_journaling journals (roster_of m) EvPeerApply) = ∅)); naive_solver. }
    tauto. }
  destruct (Nat.eqb_spec (size pairs + size attesters) 0) as [E|E].
  - split; [by intros [? ?]|]. intros (? & [= <-] & _ & Hor%Hev). lia.
  - split.
    + intros _. exists m. split_and!; [done|by apply Hr|]. apply Hev. lia.
    + intros _. exists (pred (size pairs + size attesters)). f_equal. lia.
Qed.

(** ** Rule 4 *)

Section continuity.
Context (manifest : RunManifest) (ledger : option FaultLedger) (budget last : N).

Lemma covered_spec node from until :
  covered manifest ledger budget (nr_name node) from until = true ↔
  alibi manifest ledger budget node from until.
Proof.
  unfold covered, alibi. destruct ledger as [l|]; [|naive_solver].
  rewrite existsb_exists. setoid_rewrite <-list_elem_of_In. unfold windows_targeting.
  setoid_rewrite list_elem_of_filter. unfold covers, target_host, tolerance. simpl. split.
  - intros (w & [Hh Hw] & Hc). destruct (fw_started_at_ms w) as [started|] eqn:Es; [|done].
    exists l, w, started. case_if; [done|]. split_and!; [done..|lia|]. intros ended He.
    rewrite He in Hc. by apply N.leb_le.
  - intros (? & w & started & [= <-] & Hw & Hh & Es & Hs & He). exists w. split; [done|]. rewrite Es.
    case_if; [lia|]. destruct (fw_ended_at_ms w) as [ended|]; [|done]. apply N.leb_le. by apply He.
Qed.

Lemma terminal_at_spec node t :
  terminal_at ledger (nr_name node) = Some t ↔ taken_out ledger node t.
Proof.
  unfold terminal_at, taken_out. destruct ledger as [l|]; simpl; [|naive_solver].
  unfold terminal_horizon. rewrite min_of_spec.
  assert (∀ x, x ∈ omap fw_started_at_ms (filter is_terminal (windows_targeting l (nr_name node))) ↔
    ∃ w, w ∈ fl_windows l ∧ node_host (fw_target_node w) = node_host (nr_name node) ∧
         fw_kind w ∈ TERMINAL_FAULT_KINDS ∧ fw_started_at_ms w = Some x) as Hx.
  { intros x. rewrite list_elem_of_omap. setoid_rewrite list_elem_of_filter. unfold windows_targeting.
    setoid_rewrite list_elem_of_filter. unfold is_terminal, target_host.
    setoid_rewrite bool_decide_spec. naive_solver. }
  setoid_rewrite Hx. naive_solver.
Qed.

Lemma horizon_spec node horizon :
  horizon = horizon_of ledger last node ↔
  (taken_out ledger node horizon ∧ (horizon ≤ last)%N ∨
   horizon = last ∧ ∀ t, taken_out ledger node t → (last ≤ t)%N).
Proof.
  unfold horizon_of. setoid_rewrite <-terminal_at_spec.
  destruct (terminal_at ledger (nr_name node)) as [t|]; simpl.
  - split.
    + intros ->. destruct (N.min_spec t last) as [[? ->]|[? ->]];
        [left; split; [done|lia]|right; split; [done|]]. intros ? [= <-]. done.
    + intros [[[= ->] Hle]|[-> Hall]]; [lia|]. specialize (Hall t eq_refl). lia.
  - rewrite N.min_id. naive_solver.
Qed.

Lemma check_node_nil journals node :
  check_node manifest ledger budget last
    (list_to_set ((λ line, node_host (jl_node line)) <$> js_lines journals)) node = [] ↔
  accounted journals manifest ledger budget last node.
Proof.
  unfold accounted. setoid_rewrite <-horizon_spec.
  assert (∀ P : N → Prop, (∃ h, h = horizon_of ledger last node ∧ P h) ↔ P (horizon_of ledger last node))
    as -> by naive_solver.
  unfold check_node. destruct (nr_last_progress_at_ms node) as [t|].
  2:{ rewrite <-covered_spec. by destruct (covered _ _ _ _ _). }
  assert (nr_name node ∈ (list_to_set ((λ line, node_host (jl_node line)) <$> js_lines journals) : gset string)
    ↔ ∃ line, line ∈ js_lines journals ∧ node_host (jl_node line) = nr_name node) as <-.
  { rewrite elem_of_list_to_set, list_elem_of_fmap. naive_solver. }
  rewrite <-covered_spec. case_bool_decide as Hin; simpl; [|naive_solver].
  assert ((∃ t', taken_out ledger node t') ↔ terminal_at ledger (nr_name node) ≠ None) as ->.
  { setoid_rewrite <-terminal_at_spec. destruct (terminal_at _ _); naive_solver. }
  destruct (nr_exited_early node); simpl; [case_bool_decide; [naive_solver|]|];
    destruct (N.ltb_spec budget (horizon_of ledger last node - t)), (covered _ _ _ _ _); simpl;
    naive_solver lia.
Qed.
End continuity.

Lemma continuity_passed journals manifest ledger budget :
  passed (to_verdict (check_node_continuity journals manifest ledger budget)) ↔
  continuous journals manifest ledger budget.
Proof.
  rewrite to_verdict_passed. unfold check_node_continuity, continuous.
  destruct manifest as [m|]; [|split; [by intros [? ?]|by intros (? & ? & [=] & _)]].
  destruct (rm_nodes m) as [|n ns] eqn:En.
  { split; [by intros [? ?]|]. intros (? & last & [= <-] & Hl & _). unfold last_progress_at_ms in Hl.
    by rewrite En in Hl. }
  rewrite <-En. destruct (last_progress_at_ms m) as [last|] eqn:El; [|naive_solver].
  pose proof (bind_nil (check_node m ledger budget last
    (list_to_set ((λ line, node_host (jl_node line)) <$> js_lines journals))) (rm_nodes m)) as Hb.
  setoid_rewrite check_node_nil in Hb. destruct (rm_nodes m ≫= _).
  - split; [|intros _; exists (length ns); by rewrite En]. intros _. exists m, last.
    split_and!; [done..|]. by apply Hb.
  - split; [by intros [? ?]|]. intros (m' & last' & [= <-] & El' & Hall).
    rewrite El in El'. injection El' as <-. by apply Hb in Hall.
Qed.

(** ** Rule 3 *)

(** Every loadgen journal of the run, and there is one, ends in a readable
    summary that resolves what it sent. *)
Definition outcomes_settled `{Serde} (fs : FileSystem) (journals : JournalSet)
    (ceiling : spec_float) : Prop :=
  (∃ line, line ∈ js_lines journals ∧ is_Some (jl_identity line)) ∧
  ∀ line, line ∈ js_lines journals → is_Some (jl_identity line) →
    ∃ text summary, fs (summary_path_for (jl_source line)) = Ok text ∧
      summary_from_str text = Ok summary ∧ settled ceiling summary.

Lemma outcomes_passed `{Serde} fs journals ceiling :
  passed (to_verdict (check_loadgen_outcomes fs journals ceiling)) ↔
  outcomes_settled fs journals ceiling.
Proof.
  rewrite to_verdict_passed. unfold check_loadgen_outcomes, outcomes_settled.
  rewrite <-check_summaries_ok.
  assert (size (loadgen_journal_sources journals) ≠ 0%nat ↔
          ∃ line, line ∈ js_lines journals ∧ is_Some (jl_identity line)) as Hs.
  { rewrite size_nonzero. unfold loadgen_journal_sources. split.
    - intros [x Hx]%set_choose_L. apply elem_of_list_to_set, list_elem_of_fmap in Hx as (l & _ & Hl).
      apply list_elem_of_filter in Hl. naive_solver.
    - intros (l & Hl & Hi) E. assert (jl_source l ∈ (∅ : gset string)) as Hin; [|set_solver].
      rewrite <-E. apply elem_of_list_to_set, list_elem_of_fmap. exists l. split; [done|].
      by apply list_elem_of_filter. }
  destruct (Nat.eqb_spec (size (loadgen_journal_sources journals)) 0) as [E|E].
  { split; [by intros [? ?]|]. intros [He%Hs _]. done. }
  destruct (check_summaries fs journals ceiling) as [[]|]; [|naive_solver].
  split; [|intros _; exists (pred (size (loadgen_journal_sources journals))); f_equal; lia].
  intros _. split; [by apply Hs|done].
Qed.
