(* ===== verification/Runner.v ===== *)
(** * The judge's pipeline

    Models [crates/duckspout-judge/src/runner.rs]: ingest the evidence, run every
    predicate and every run-level rule, and combine their verdicts into one exit
    code.  The rendering of findings and reasons is the [Display] of their
    types, which nothing depends on. *)

From Stdlib Require Import SpecFloat.
From S2P Require Import Prelude Types Ports BTree Verdict Evidence Journal FinalState.
From S2P Require Import ZeroAckedLost RunManifest WatermarkHonesty.
From S2P Require Import LatestView RetentionHonesty CacheTransparency FaultLedger.
From S2P Require Import RunSummary Vacuity.

Record RunArgs := {
  ra_journals : list string;
  ra_final_state_fixture : option string;
  ra_read_log : option string;
  ra_latest_view_fixture : option string;
  ra_committed_parts_fixture : option string;
  ra_fault_log : option string;
  ra_run_manifest : option string;
  ra_max_ambiguous_fraction : spec_float;
  ra_max_journal_silence_ms : N;
  ra_max_racing_read_ms : N;
}.

Record PredicateReport := {
  pr_predicate : string;
  pr_verdict : Verdict string string;
}.

(** Why evidence could not be ingested. *)
Inductive IngestionError :=
| JournalsFailed (err : JournalError)
| ReadsFailed (err : ReadLogError)
| LedgerFailed (err : FaultLedgerError)
| ManifestFailed (err : ManifestError).

Inductive RunOutcome :=
| IngestionFailed (err : IngestionError)
| Judged (journal_count line_count : nat) (reports : list PredicateReport).

(** [RunOutcome::exit_code] *)
Definition outcome_exit_code (outcome : RunOutcome) : Z :=
  match outcome with
  | IngestionFailed _ => EXIT_NO_VERDICT
  | Judged _ _ reports => combined_exit_code (pr_verdict <$> reports)
  end.

(** Why a fixture could not be used. *)
Inductive FixtureError :=
| FixtureAbsent (flag : string)
| FixtureUnreadable (path source : string)
| FixtureUndecodable (path source : string).

(** [load_fixture] *)
Definition load_fixture {T} (fs : FileSystem) (path : option string) (absent : string)
    (decode : string → result T string) : result T FixtureError :=
  match path with
  | None => Err (FixtureAbsent absent)
  | Some path =>
      let? text := map_err (FixtureUnreadable path) (fs path) in
      map_err (FixtureUndecodable path) (decode text)
  end.

(** A file that may have been supplied: its absence is no failure. *)
Definition supplied {T E} (parse : FileSystem → string → result T E) (wrap : E → IngestionError)
    (fs : FileSystem) (path : option string) : result (option T) IngestionError :=
  match path with
  | None => Ok None
  | Some path => let? x := map_err wrap (parse fs path) in Ok (Some x)
  end.

Section run.
Context `{Serde} (fs : FileSystem).
Context `{Display FixtureError}
  `{Display ZeroAckedLost.AckedLostFinding, Display ZeroAckedLost.AckedLostReason}
  `{Display WatermarkHonesty.WatermarkFinding, Display WatermarkHonesty.WatermarkReason}
  `{Display LatestView.LatestViewFinding, Display LatestView.LatestViewReason}
  `{Display RetentionHonesty.RetentionFinding, Display RetentionHonesty.RetentionReason}
  `{Display CacheTransparency.CacheTransparencyFinding, Display CacheTransparency.CacheReason}
  `{Display VacuityFinding, Display VacuityReason}.

(** The fixtures the reports load. *)
Definition final_state_fixture (args : RunArgs) : result InMemoryFinalState FixtureError :=
  load_fixture fs (ra_final_state_fixture args) "--final-state-fixture" final_state_from_fixture.
Definition latest_view_fixture (args : RunArgs) : result InMemoryLatestView FixtureError :=
  load_fixture fs (ra_latest_view_fixture args) "--latest-view-fixture" latest_view_from_fixture.
Definition committed_parts_fixture (args : RunArgs) : result InMemoryCommittedParts FixtureError :=
  load_fixture fs (ra_committed_parts_fixture args) "--committed-parts-fixture"
    committed_parts_from_fixture.

(** [zero_acked_lost_report] *)
Definition zero_acked_lost_report (args : RunArgs) (journals : JournalSet) : PredicateReport :=
  {| pr_predicate := "zero-acked-lost";
     pr_verdict :=
       match final_state_fixture args with
       | Ok final_state => erase (ZeroAckedLost.check journals final_state)
       | Err reason => NoVerdict (to_string reason)
       end |}.

(** [watermark_honesty_report] *)
Definition watermark_honesty_report (journals : JournalSet) (reads : list ReadRecord) :
    PredicateReport :=
  {| pr_predicate := "watermark-honesty";
     pr_verdict := erase (WatermarkHonesty.check journals reads) |}.

(** [latest_view_report] *)
Definition latest_view_report (args : RunArgs) (journals : JournalSet) : PredicateReport :=
  {| pr_predicate := "latest-view";
     pr_verdict :=
       match latest_view_fixture args with
       | Ok view => erase (LatestView.check journals view)
       | Err reason => NoVerdict (to_string reason)
       end |}.

(** [retention_honesty_report] *)
Definition retention_honesty_report (args : RunArgs) (journals : JournalSet) : PredicateReport :=
  {| pr_predicate := "retention-honesty";
     pr_verdict :=
       match committed_parts_fixture args, latest_view_fixture args with
       | Ok parts, Ok view => erase (RetentionHonesty.check journals parts view)
       | Err reason, _ => NoVerdict (to_string reason)
       | Ok _, Err reason => NoVerdict (to_string reason)
       end |}.

(** [cache_transparency_report] *)
Definition cache_transparency_report (args : RunArgs) (journals : JournalSet)
    (reads : list ReadRecord) : PredicateReport :=
  {| pr_predicate := "cache-transparency";
     pr_verdict := erase (CacheTransparency.check journals reads (ra_max_racing_read_ms args)) |}.

(** [vacuity_reports] *)
Definition vacuity_reports (args : RunArgs) (journals : JournalSet) (ledger : option FaultLedger)
    (manifest : option RunManifest) : list PredicateReport :=
  (λ e, {| pr_predicate := e.1; pr_verdict := erase e.2 |})
  <$> check_all fs {| vi_journals := journals; vi_ledger := ledger; vi_manifest := manifest;
                      vi_max_ambiguous_fraction := ra_max_ambiguous_fraction args;
                      vi_max_journal_silence_ms := ra_max_journal_silence_ms args |}.

(** [run] *)
Definition run (args : RunArgs) : RunOutcome :=
  match
    (let? journals := map_err JournalsFailed (ingest_journals fs (ra_journals args)) in
     let? reads := supplied parse_read_log ReadsFailed fs (ra_read_log args) in
     let? ledger := supplied parse_fault_ledger LedgerFailed fs (ra_fault_log args) in
     let? manifest := supplied parse_run_manifest ManifestFailed fs (ra_run_manifest args) in
     Ok (journals, default [] reads, ledger, manifest))
  with
  | Err err => IngestionFailed err
  | Ok (journals, reads, ledger, manifest) =>
      Judged (length (ra_journals args)) (length (js_lines journals))
        ([zero_acked_lost_report args journals; watermark_honesty_report journals reads;
          latest_view_report args journals; retention_honesty_report args journals;
          cache_transparency_report args journals reads]
         ++ vacuity_reports args journals ledger manifest)
  end.
End run.

(** * What the judge's exit code certifies *)

(** ** Acked records, in an ingested run *)

Section acked.
Context `{Serde} (fs : FileSystem).

Lemma ingested_range paths journals identity :
  ingest_journals fs paths = Ok journals → identity ∈ checkable_acks journals →
  (ri_first_index identity + ri_record_count identity ≤ u64_max)%N.
Proof.
  intros Hi [(line & Hin & _ & Hid) _]%elem_of_checkable_acks.
  by eapply (lwf_identity line); [eapply ingested_line_wf|].
Qed.

(** Some ack was journaled, and every record of every checkable ack is present. *)
Definition acked_present (journals : JournalSet) (present : InMemoryFinalState) : Prop :=
  checkable_acks journals ≠ [] ∧
  ∀ identity i, identity ∈ checkable_acks journals → acked_index identity i →
    (ri_tenant identity, record_key (ri_source_incarnation identity) i) ∈ present.

(** Some acked record is absent. *)
Definition acked_lost (journals : JournalSet) (present : InMemoryFinalState) : Prop :=
  ∃ identity i, identity ∈ checkable_acks journals ∧ acked_index identity i ∧
    (ri_tenant identity, record_key (ri_source_incarnation identity) i) ∉ present.

Lemma read_back_in_memory (present : InMemoryFinalState) identity i :
  read_back present identity i = Ok (bool_decide
    ((ri_tenant identity, record_key (ri_source_incarnation identity) i) ∈ present)).
Proof. done. Qed.

Lemma acked_verdict paths journals (present : InMemoryFinalState) :
  ingest_journals fs paths = Ok journals →
  (passed (ZeroAckedLost.check journals present) ↔ acked_present journals present) ∧
  (is_violation (ZeroAckedLost.check journals present) = true ↔ acked_lost journals present).
Proof.
  intros Hi. pose proof (zero_acked_lost_spec journals present) as Hs.
  assert (∀ identity, identity ∈ checkable_acks journals →
    (ri_first_index identity + ri_record_count identity ≤ u64_max)%N) as Hr.
  { intros identity. by apply (ingested_range paths). }
  unfold acked_present, acked_lost.
  destruct (ZeroAckedLost.check journals present) as [n|findings|reason]; simpl.
  - destruct Hs as (-> & Hn & Hall). split.
    + split; [|intros _; by eexists]. intros _.
      split; [by destruct (checkable_acks journals); [simpl in Hn; lia|]|].
      intros identity i Hid Hidx. specialize (Hall identity i Hid Hidx).
      rewrite read_back_in_memory in Hall. injection Hall as Hall. by apply bool_decide_eq_true in Hall.
    + split; [done|]. intros (identity & i & Hid & Hidx & Hn'). specialize (Hall identity i Hid Hidx).
      rewrite read_back_in_memory, bool_decide_eq_false_2 in Hall by done. done.
  - destruct Hs as (Hne & _ & Hf). destruct findings as [|f fs']; [done|].
    destruct (proj1 (Hf f)) as (identity & Hid & _ & _ & Hm & Hlost); [by left|].
    apply set_choose_L in Hm as [i Hmi]. apply Hlost in Hmi as [Hidx Hrb].
    rewrite read_back_in_memory in Hrb. injection Hrb as Hrb. apply bool_decide_eq_false in Hrb. split.
    + split; [by intros [? [=]]|]. intros [_ Hall]. destruct Hrb. auto.
    + split; [|done]. intros _. by exists identity, i.
  - destruct Hs as [Hnil|(identity & Hid & [Hover|(i & err & _ & Herr)])].
    + rewrite Hnil. split; [split; [by intros [? [=]]|naive_solver]|]. split; [done|].
      intros (? & ? & Hin & _). set_solver.
    + specialize (Hr identity Hid). lia.
    + by rewrite read_back_in_memory in Herr.
Qed.
End acked.

(** ** The run *)

Section exit.
Context `{Serde} (fs : FileSystem).
Context `{Display FixtureError}
  `{Display ZeroAckedLost.AckedLostFinding, Display ZeroAckedLost.AckedLostReason}
  `{Display WatermarkHonesty.WatermarkFinding, Display WatermarkHonesty.WatermarkReason}
  `{Display LatestView.LatestViewFinding, Display LatestView.LatestViewReason}
  `{Display RetentionHonesty.RetentionFinding, Display RetentionHonesty.RetentionReason}
  `{Display CacheTransparency.CacheTransparencyFinding, Display CacheTransparency.CacheReason}
  `{Display VacuityFinding, Display VacuityReason}.

(** The evidence [args] names, ingested. *)
Record ingested (args : RunArgs) (journals : JournalSet) (reads : list ReadRecord)
    (ledger : option FaultLedger) (manifest : option RunManifest) : Prop := {
  in_journals : ingest_journals fs (ra_journals args) = Ok journals;
  in_reads : match ra_read_log args with
             | None => reads = [] | Some path => parse_read_log fs path = Ok reads end;
  in_ledger : match ra_fault_log args with
              | None => ledger = None
              | Some path => ∃ l, ledger = Some l ∧ parse_fault_ledger fs path = Ok l end;
  in_manifest : match ra_run_manifest args with
                | None => manifest = None
                | Some path => ∃ m, manifest = Some m ∧ parse_run_manifest fs path = Ok m end;
}.

Definition reports_of (args : RunArgs) (journals : JournalSet) (reads : list ReadRecord)
    (ledger : option FaultLedger) (manifest : option RunManifest) : list PredicateReport :=
  [zero_acked_lost_report fs args journals; watermark_honesty_report journals reads;
   latest_view_report fs args journals; retention_honesty_report fs args journals;
   cache_transparency_report args journals reads]
  ++ vacuity_reports fs args journals ledger manifest.

Lemma run_judged args n m reports :
  run fs args = Judged n m reports ↔
  ∃ journals reads ledger manifest, ingested args journals reads ledger manifest ∧
    n = length (ra_journals args) ∧ m = length (js_lines journals) ∧
    reports = reports_of args journals reads ledger manifest.
Proof.
  unfold run, supplied. split.
  - intros E.
    destruct (ingest_journals fs (ra_journals args)) as [journals|] eqn:Ej; simpl in E; [|done].
    destruct (ra_read_log args) as [rp|] eqn:Er; [destruct (parse_read_log fs rp) as [reads|] eqn:Ep; simpl in E; [|done]|];
    (destruct (ra_fault_log args) as [fp|] eqn:Ef; [destruct (parse_fault_ledger fs fp) as [l|] eqn:El; simpl in E; [|done]|]);
    (destruct (ra_run_manifest args) as [mp|] eqn:Em; [destruct (parse_run_manifest fs mp) as [mf|] eqn:Emf; simpl in E; [|done]|]);
    injection E as <- <- <-; do 4 eexists; (split; [split; rewrite ?Er, ?Ef, ?Em; eauto|done]).
  - intros (journals & reads & ledger & manifest & [Ej Er El Em] & -> & -> & ->). rewrite Ej. simpl.
    destruct (ra_read_log args) as [rp|]; [rewrite Er; simpl|subst reads];
    (destruct (ra_fault_log args) as [fp|]; [destruct El as (l & -> & ->); simpl|subst ledger]);
    (destruct (ra_run_manifest args) as [mp|]; [destruct Em as (mf & -> & ->); simpl|subst manifest]); done.
Qed.

Lemma ingested_unique args j r l m j' r' l' m' :
  ingested args j r l m → ingested args j' r' l' m' → j = j' ∧ r = r' ∧ l = l' ∧ m = m'.
Proof.
  intros [A1 A2 A3 A4] [B1 B2 B3 B4].
  destruct (ra_read_log args), (ra_fault_log args), (ra_run_manifest args);
    repeat match goal with H : ∃ _, _ |- _ => destruct H as (? & ? & ?) end; split_and!; congruence.
Qed.

Lemma exit_code_spec args z :
  z ≠ EXIT_NO_VERDICT →
  outcome_exit_code (run fs args) = z ↔
  ∃ journals reads ledger manifest, ingested args journals reads ledger manifest ∧
    combined_exit_code (pr_verdict <$> reports_of args journals reads ledger manifest) = z.
Proof.
  intros Hz. split.
  - destruct (run fs args) as [err|n m reports] eqn:E; simpl; [done|].
    apply run_judged in E as (j & r & l & mf & Hi & -> & -> & ->). eauto 10.
  - intros (j & r & l & mf & Hi & Hc).
    rewrite (proj2 (run_judged args _ _ _)) by eauto 10. done.
Qed.

(** ** Certification *)

(** The fixtures the predicates read back from. *)
Definition fixture {T} (path : option string) (decode : string → result T string) (x : T) : Prop :=
  ∃ p text, path = Some p ∧ fs p = Ok text ∧ decode text = Ok x.

Lemma load_fixture_ok {T} (path : option string) absent (decode : string → result T string) x :
  load_fixture fs path absent decode = Ok x ↔ fixture path decode x.
Proof.
  unfold load_fixture, fixture. destruct path as [p|]; [|naive_solver].
  destruct (fs p) as [text|] eqn:E; simpl.
  - rewrite map_err_ok. split; [by exists p, text|].
    intros (? & ? & [= <-] & E' & ?). rewrite E in E'. by injection E' as <-.
  - split; [done|]. intros (? & ? & [= <-] & ? & _). congruence.
Qed.

(** Everything a pass stands for, about the ingested evidence. *)
Record certified (args : RunArgs) (journals : JournalSet) (reads : list ReadRecord)
    (ledger : option FaultLedger) (manifest : option RunManifest)
    (present : InMemoryFinalState) (view : InMemoryLatestView) (parts : InMemoryCommittedParts) :
    Prop := {
  ct_acked : acked_present journals present;
  ct_watermarks : honest journals reads ∧ exercised journals reads;
  ct_latest : consistent (acked_entries journals) ∧ (∃ e, judged journals e) ∧
    ∀ e, judged journals e → agrees view e;
  ct_retention : (∃ part, guarded_expiry journals part) ∧ (∃ e, held journals e) ∧
    (∀ part, guarded_expiry journals part → RetentionHonesty.covered parts part) ∧
    (∀ e, held journals e → agrees view e);
  ct_cache : (0 < residency_action_count journals)%nat ∧ transparent (probed_reads reads) ∧
    compared (probed_reads reads) ∧
    (∀ e, e ∈ probed_reads reads → ¬ obstructed (probed_reads reads) (ra_max_racing_read_ms args) e) ∧
    ∃ e, e ∈ probed_reads reads ∧ judged_race (probed_reads reads) e;
  ct_schedule : schedule_fired ledger;
  ct_contention : contended journals manifest;
  ct_continuity : continuous journals manifest ledger (ra_max_journal_silence_ms args);
  ct_outcomes : outcomes_settled fs journals (ra_max_ambiguous_fraction args);
}.

Lemma in_memory_readable journals (view : InMemoryLatestView) : readable journals view.
Proof. intros e _. by eexists. Qed.

Lemma in_memory_answered journals (parts : InMemoryCommittedParts) (view : InMemoryLatestView) :
  RetentionHonesty.answered journals parts view ↔ consistent (acked_entries journals).
Proof. split; [by intros []|]. intros Hc. split; [by eexists|done|by eexists]. Qed.

(** The verdict of a fixture-backed report. *)
Lemma fixture_passed {T F R} `{Display F, Display R} (r : result T FixtureError) (check : T → Verdict F R) :
  passed (match r with Ok x => erase (check x) | Err reason => NoVerdict (to_string reason) end) ↔
  ∃ x, r = Ok x ∧ passed (check x).
Proof.
  destruct r as [x|err].
  - rewrite erase_passed. split; [by exists x|]. by intros (? & [= <-] & ?).
  - split; [by intros [? [=]]|]. by intros (? & [=] & _).
Qed.

Lemma fixture_violation {T F R} `{Display F, Display R} (r : result T FixtureError) (check : T → Verdict F R) :
  is_violation (match r with Ok x => erase (check x) | Err reason => NoVerdict (to_string reason) end) = true ↔
  ∃ x, r = Ok x ∧ is_violation (check x) = true.
Proof.
  destruct r as [x|err].
  - rewrite erase_violation. split; [by exists x|]. by intros (? & [= <-] & ?).
  - split; [done|]. by intros (? & [=] & _).
Qed.

Section reports.
Context (args : RunArgs) (journals : JournalSet) (reads : list ReadRecord)
  (ledger : option FaultLedger) (manifest : option RunManifest).
Context (Hin : ingested args journals reads ledger manifest).

Lemma zero_report :
  (passed (pr_verdict (zero_acked_lost_report fs args journals)) ↔
     ∃ present, fixture (ra_final_state_fixture args) final_state_from_fixture present ∧
       acked_present journals present) ∧
  (is_violation (pr_verdict (zero_acked_lost_report fs args journals)) = true ↔
     ∃ present, fixture (ra_final_state_fixture args) final_state_from_fixture present ∧
       acked_lost journals present).
Proof.
  unfold zero_acked_lost_report, final_state_fixture. cbn [pr_verdict].
  rewrite fixture_passed, fixture_violation. setoid_rewrite load_fixture_ok.
  pose proof (λ present, acked_verdict fs _ _ present (in_journals _ _ _ _ _ Hin)) as Hv.
  split; apply exist_proper; intros present; by rewrite (proj1 (Hv present)) || rewrite (proj2 (Hv present)).
Qed.

Lemma latest_report :
  (passed (pr_verdict (latest_view_report fs args journals)) ↔
     ∃ view, fixture (ra_latest_view_fixture args) latest_view_from_fixture view ∧
       consistent (acked_entries journals) ∧ (∃ e, judged journals e) ∧
       ∀ e, judged journals e → agrees view e) ∧
  (is_violation (pr_verdict (latest_view_report fs args journals)) = true ↔
     ∃ view, fixture (ra_latest_view_fixture args) latest_view_from_fixture view ∧
       consistent (acked_entries journals) ∧ ∃ e, judged journals e ∧ ¬ agrees view e).
Proof.
  unfold latest_view_report, latest_view_fixture. cbn [pr_verdict].
  rewrite fixture_passed, fixture_violation. setoid_rewrite load_fixture_ok.
  split; apply exist_proper; intros view; destruct (latest_view_spec journals view) as [Hp Hv];
    pose proof (in_memory_readable journals view); [rewrite Hp|rewrite Hv]; naive_solver.
Qed.

Lemma retention_report :
  (passed (pr_verdict (retention_honesty_report fs args journals)) ↔
     ∃ parts view, fixture (ra_committed_parts_fixture args) committed_parts_from_fixture parts ∧
       fixture (ra_latest_view_fixture args) latest_view_from_fixture view ∧
       passed (RetentionHonesty.check journals parts view)) ∧
  (is_violation (pr_verdict (retention_honesty_report fs args journals)) = true ↔
     ∃ parts view, fixture (ra_committed_parts_fixture args) committed_parts_from_fixture parts ∧
       fixture (ra_latest_view_fixture args) latest_view_from_fixture view ∧
       is_violation (RetentionHonesty.check journals parts view) = true).
Proof.
  unfold retention_honesty_report. cbn [pr_verdict].
  assert (∀ parts, fixture (ra_committed_parts_fixture args) committed_parts_from_fixture parts ↔
            committed_parts_fixture fs args = Ok parts) as Hp by (intros; symmetry; apply load_fixture_ok).
  assert (∀ view, fixture (ra_latest_view_fixture args) latest_view_from_fixture view ↔
            latest_view_fixture fs args = Ok view) as Hl by (intros; symmetry; apply load_fixture_ok).
  setoid_rewrite Hp. setoid_rewrite Hl. clear Hp Hl.
  destruct (committed_parts_fixture fs args) as [parts|], (latest_view_fixture fs args) as [view|].
  - rewrite erase_passed, erase_violation. split; (split; [by exists parts, view|]);
      by intros (? & ? & [= <-] & [= <-] & ?).
  - split; (split; [by intros [? [=]] || done|]); by intros (? & ? & _ & [=] & _).
  - split; (split; [by intros [? [=]] || done|]); by intros (? & ? & [=] & _).
  - split; (split; [by intros [? [=]] || done|]); by intros (? & ? & [=] & _).
Qed.

(** Every report of the run, one by one. *)
Lemma reports_passed :
  (∀ v, v ∈ pr_verdict <$> reports_of args journals reads ledger manifest → passed v) ↔
  passed (pr_verdict (zero_acked_lost_report fs args journals)) ∧
  passed (WatermarkHonesty.check journals reads) ∧
  passed (pr_verdict (latest_view_report fs args journals)) ∧
  passed (pr_verdict (retention_honesty_report fs args journals)) ∧
  passed (CacheTransparency.check journals reads (ra_max_racing_read_ms args)) ∧
  schedule_fired ledger ∧ contended journals manifest ∧
  continuous journals manifest ledger (ra_max_journal_silence_ms args) ∧
  outcomes_settled fs journals (ra_max_ambiguous_fraction args).
Proof.
  rewrite <-Forall_forall. unfold reports_of, vacuity_reports, check_all. simpl.
  rewrite !Forall_cons, Forall_nil. simpl. rewrite !erase_passed.
  rewrite fault_schedule_passed, contention_passed, continuity_passed, outcomes_passed. tauto.
Qed.

Lemma reports_violation :
  (∃ v, v ∈ pr_verdict <$> reports_of args journals reads ledger manifest ∧ is_violation v = true) ↔
  is_violation (pr_verdict (zero_acked_lost_report fs args journals)) = true ∨
  is_violation (WatermarkHonesty.check journals reads) = true ∨
  is_violation (pr_verdict (latest_view_report fs args journals)) = true ∨
  is_violation (pr_verdict (retention_honesty_report fs args journals)) = true ∨
  is_violation (CacheTransparency.check journals reads (ra_max_racing_read_ms args)) = true.
Proof.
  rewrite <-Exists_exists. unfold reports_of. rewrite fmap_app, Exists_app.
  assert (¬ Exists (λ v, is_violation v = true)
            (pr_verdict <$> vacuity_reports fs args journals ledger manifest)) as Hnv.
  { rewrite Exists_exists. intros (v & (r & -> & (e & -> & He)%list_elem_of_fmap)%list_elem_of_fmap & Hv).
    destruct e as [rule v]. apply rules_never_convict in He. simpl in Hv.
    rewrite erase_violation in Hv. congruence. }
  revert Hnv. generalize (pr_verdict <$> vacuity_reports fs args journals ledger manifest).
  intros vs Hnv. simpl. rewrite !Exists_cons, Exists_nil. simpl. rewrite !erase_violation. tauto.
Qed.
End reports.

Lemma fixture_unique {T} path (decode : string → result T string) x y :
  fixture path decode x → fixture path decode y → x = y.
Proof. intros (p & t & -> & Hp & Hd) (p' & t' & [= <-] & Hp' & Hd'). congruence. Qed.

(** C13: Exit code 0 certifies the run, and only a certified run exits 0: every
    piece of evidence was ingested whole, every record of every checkable ack is
    present, every advertised watermark and served read is honest, every judged
    row is served as its newest acked entry says, every guarded expiry is covered
    and loses no last value, no answer depends on the cache and no racing read
    is obstructed, every armed fault fired, the nodes met, no journal simply
    stops, and the load generators resolved what they sent; and each of these
    had something to check. *)
Theorem judge_pass_exact args :
  outcome_exit_code (run fs args) = EXIT_PASS ↔
  ∃ journals reads ledger manifest present view parts,
    ingested args journals reads ledger manifest ∧
    fixture (ra_final_state_fixture args) final_state_from_fixture present ∧
    fixture (ra_latest_view_fixture args) latest_view_from_fixture view ∧
    fixture (ra_committed_parts_fixture args) committed_parts_from_fixture parts ∧
    certified args journals reads ledger manifest present view parts.
Proof.
  rewrite exit_code_spec by done. setoid_rewrite combined_pass. setoid_rewrite reports_passed. split.
  - intros (j & r & l & m & Hin & _ & Hz & Hw & Hl & Hr & Hc & Hv).
    apply (zero_report _ _ _ _ _ Hin) in Hz as (present & Hfz & Hz).
    apply latest_report in Hl as (view & Hfl & Hl).
    apply retention_report in Hr as (parts & view' & Hfp & Hfl' & Hr).
    rewrite (fixture_unique _ _ _ _ Hfl' Hfl) in Hr.
    apply retention_honesty_spec in Hr as (_ & ? & ? & ? & ?).
    apply watermark_honesty_spec in Hw. apply cache_transparency_spec in Hc.
    exists j, r, l, m, present, view, parts. split_and!; [done..|]. split; tauto.
  - intros (j & r & l & m & present & view & parts & Hin & Hfz & Hfl & Hfp & Hc).
    destruct Hc as [Hz Hw Hl Hr Hc Hs Hct Hcn Ho].
    exists j, r, l, m. split; [done|]. split; [done|]. split_and!; try done.
    + apply (zero_report _ _ _ _ _ Hin). eauto.
    + by apply watermark_honesty_spec.
    + apply latest_report. eauto.
    + apply retention_report. exists parts, view. split_and!; [done..|].
      apply retention_honesty_spec. rewrite in_memory_answered. tauto.
    + apply cache_transparency_spec. tauto.
Qed.

(** Exit code 2 is a conviction backed by evidence, whatever the run-level
    rules say: it is given exactly when the evidence was ingested and a record
    acked is absent, a watermark claim or answer is dishonest, a judged row is
    served wrong, an expiry is uncovered or lost a last value, or an answer
    depended on the cache or a racing read was obstructed. *)
Theorem judge_violation_exact args :
  outcome_exit_code (run fs args) = EXIT_VIOLATION ↔
  ∃ journals reads ledger manifest, ingested args journals reads ledger manifest ∧
    ((∃ present, fixture (ra_final_state_fixture args) final_state_from_fixture present ∧
        acked_lost journals present) ∨
     (claims_of journals ≠ [] ∧ ¬ honest journals reads) ∨
     (∃ view, fixture (ra_latest_view_fixture args) latest_view_from_fixture view ∧
        consistent (acked_entries journals) ∧ ∃ e, judged journals e ∧ ¬ agrees view e) ∨
     (∃ parts view, fixture (ra_committed_parts_fixture args) committed_parts_from_fixture parts ∧
        fixture (ra_latest_view_fixture args) latest_view_from_fixture view ∧
        consistent (acked_entries journals) ∧
        ¬ ((∀ part, guarded_expiry journals part → RetentionHonesty.covered parts part) ∧
           ∀ e, held journals e → agrees view e)) ∨
     ¬ (transparent (probed_reads reads) ∧
        ((0 < residency_action_count journals)%nat → ∀ e, e ∈ probed_reads reads →
           ¬ obstructed (probed_reads reads) (ra_max_racing_read_ms args) e))).
Proof.
  rewrite exit_code_spec by done. setoid_rewrite combined_violation. setoid_rewrite reports_violation.
  do 4 (apply exist_proper; intros ?).
  split; intros [Hin Hor]; (split; [done|]); revert Hor.
  all: rewrite (proj2 (zero_report _ _ _ _ _ Hin)), (proj2 (watermark_honesty_spec _ _)),
    (proj2 (latest_report _ _)), (proj2 (retention_report _ _)), (proj2 (cache_transparency_spec _ _ _)).
  all: setoid_rewrite (λ j p v, proj2 (retention_honesty_spec (P:=InMemoryCommittedParts) j p v)).
  all: setoid_rewrite in_memory_answered; tauto.
Qed.
End exit.
