(* ===== verification/WatermarkWitness.v ===== *)
(** * Witnesses for the watermark claims

    A concrete history of one partition (three windows of two origins, with a
    hole that a loss row excuses) at which the claims' hypotheses hold. *)

From S2P Require Import Prelude Types Coverage Ledger LedgerSpec LedgerHistory Loss.
From S2P Require Import Reconstruct ReconstructProps Ports SharedLedger Naming Coordinator.
From S2P Require Import CoordinatorProps DrainSystem.

Definition range (o : NodeId) (first last : N) : OriginSeqRange :=
  {| origin := o; first_seq := first; last_seq := last |}.

Definition manifest (p : PartitionId) (w : WindowId) (cov : list OriginSeqRange) (ms : Z) :
    WindowManifest :=
  {| m_dataset := "logs"; m_partition := p; m_window_id := w; m_origin_coverage := cov;
     m_rows := 0; m_event_time_min_ms := 0; m_event_time_max_ms := ms; m_dedup_removed := 0;
     m_parts := [] |}.

Definition loss_row (p : PartitionId) (o : NodeId) (first last : N) : LossLedgerRow :=
  {| ll_range := {| lr_partition := p; lr_origin := o; lr_first_seq := first; lr_last_seq := last |};
     ll_declared_at_ms := 0 |}.

Definition m0 := manifest "p" 0 [range "o1" 1 5] 1000.
Definition m1 := manifest "p" 1 [range "o1" 8 9; range "o2" 1 4] 2000.
Definition m2 := manifest "p" 2 [range "o2" 5 8] 1500.
Definition gap67 := loss_row "p" "o1" 6 7.

(** Windows 0 and 1 leave 6 and 7 of [o1] open. *)
Definition stalled : list ledger_op := [OpCommit m0; OpCommit m1].
(** The loss row excuses them, and window 2 follows. *)
Definition history : list ledger_op := [OpCommit m0; OpCommit m1; OpLoss gap67; OpCommit m2].

(** Inputs that fit their machine types. *)
Ltac typed :=
  unfold history, stalled;
  repeat match goal with
  | |- Forall _ _ => first [apply Forall_cons; split | apply Forall_nil]
  | |- op_typed _ => simpl
  | |- manifest_typed _ => split; simpl
  | |- range_typed _ => split; simpl
  | |- _ => unfold loss_typed, is_u64, u64_max; simpl; lia
  end.

Lemma history_typed : Forall op_typed history.
Proof. typed. Defined.

Lemma stalled_typed : Forall op_typed stalled.
Proof. typed. Defined.

Lemma history_accepted : all_accepted new_ledger history.
Proof. unfold all_accepted. vm_compute. repeat constructor. Defined.

Lemma watermark_honest_witness :
  advanced_through (run new_ledger history) "p" = Some 2%N ∧
  ledger_complete_through (run new_ledger history) "p" = Some 2000%Z ∧
  (∀ o x y, recorded (run new_ledger history) "p" 2 o y → (1 ≤ x ≤ y)%N →
     recorded (run new_ledger history) "p" 2 o x ∨ excused history "p" o x).
Proof.
  split; [vm_compute; reflexivity|]. split; [vm_compute; reflexivity|].
  apply (watermark_honest history history_typed "p" 2 2000); vm_compute; reflexivity.
Defined.

Lemma watermark_not_parked_witness :
  is_Some (window_record (run new_ledger stalled) "p" 1) ∧
  ¬ (∀ o x y, recorded (run new_ledger stalled) "p" 1 o y → (1 ≤ x ≤ y)%N →
       recorded (run new_ledger stalled) "p" 1 o x ∨ lost (sp_losses (reached stalled "p")) o x).
Proof.
  assert (is_Some (window_record (run new_ledger stalled) "p" 1)) as Hs
    by (vm_compute; eexists; reflexivity).
  split; [exact Hs|]. apply (watermark_not_parked stalled stalled_typed "p" 1 Hs).
  intros i Hi. assert (Some i = Some 0%N) as E by (rewrite <-Hi; vm_compute; reflexivity).
  injection E as ->. reflexivity.
Defined.

Lemma ledger_refines_spec_witness :
  Forall op_typed history ∧ outputs new_ledger history = spec_outputs ∅ history.
Proof. split; [apply history_typed|]. apply (ledger_refines_spec history history_typed). Defined.

Lemma watermark_monotone_witness :
  ledger_complete_through (run new_ledger stalled) "p" = Some 1000%Z ∧
  ∃ ms', ledger_complete_through (run new_ledger (stalled ++ [OpLoss gap67])) "p" = Some ms' ∧
         (1000 ≤ ms')%Z.
Proof.
  split; [vm_compute; reflexivity|].
  apply (watermark_monotone stalled (OpLoss gap67) "p"); [typed|vm_compute; reflexivity].
Defined.

Lemma windows_dense_witness :
  Forall op_typed history ∧
  (is_Some (window_record (run new_ledger history) "p" 2) ↔
   (2 < next_window (run new_ledger history) "p")%N).
Proof. split; [apply history_typed|]. apply (windows_dense history "p" 2 history_typed). Defined.

Lemma single_commit_witness :
  window_record (run new_ledger history) "p" 1 = Some (record_of m1) ∧ 1%N = 1%N ∧ 0%nat = 0%nat.
Proof.
  assert (window_record (run new_ledger history) "p" 1 = Some (record_of m1)) as Hw
    by (vm_compute; reflexivity).
  split; [exact Hw|].
  apply (single_commit history "p" 1 1 (record_of m1) (record_of m1) 0 0 (range "o1" 8 9)
    (range "o1" 8 9) "o1" 8 history_typed Hw Hw); try reflexivity; split; simpl; [done|lia|done|lia].
Defined.

Lemma rejected_unchanged_witness :
  is_ok (fst (step (run new_ledger history) (OpCommit m0))) = false ∧
  snd (step (run new_ledger history) (OpCommit m0)) = run new_ledger history.
Proof.
  split; [vm_compute; reflexivity|].
  apply (rejected_unchanged (run new_ledger history) (OpCommit m0)). vm_compute. reflexivity.
Defined.

Lemma commit_accepted_iff_witness :
  is_ok (fst (record_commit (run new_ledger stalled) m2)) = true ∧
  m_window_id m2 = next_window (run new_ledger stalled) (m_partition m2).
Proof.
  assert (is_ok (fst (record_commit (run new_ledger stalled) m2)) = true) as Hok
    by (vm_compute; reflexivity).
  split; [exact Hok|].
  apply (commit_accepted_iff stalled m2 stalled_typed) in Hok; [apply Hok|typed].
Defined.

(** ** Reconstruction *)

Lemma reconstruct_matches_live_witness :
  all_accepted new_ledger history ∧
  ∃ re, reconstruct [m2; m0; m1] [gap67] [] = Ok re ∧
        re_ledger re = run new_ledger history ∧ re_deferred re = [].
Proof.
  split; [apply history_accepted|].
  apply (reconstruct_matches_live history [m2; m0; m1] [gap67] [] history_typed history_accepted).
  - vm_compute. apply Permutation_cons_append.
  - reflexivity.
Defined.

Definition rebuilt : Reconstruction :=
  match reconstruct [m2; m0] [] [] with
  | Ok re => re
  | Err _ => {| re_ledger := ∅; re_stalls := []; re_deferred := [] |}
  end.

Lemma reconstruct_nothing_dropped_witness :
  reconstruct [m2; m0] [] [] = Ok rebuilt ∧
  (window_record (re_ledger rebuilt) "p" 2 = Some (record_of m2) ∨
   (m2 ∈ re_deferred rebuilt ∧ (next_window (re_ledger rebuilt) "p" < 2)%N ∧
    {| s_partition := "p"; s_reason := MissingWindow (next_window (re_ledger rebuilt) "p") |}
      ∈ re_stalls rebuilt)).
Proof.
  assert (reconstruct [m2; m0] [] [] = Ok rebuilt) as Hr by (vm_compute; reflexivity).
  split; [exact Hr|].
  apply (reconstruct_nothing_dropped [m2; m0] [] [] rebuilt m2); [typed|constructor|exact Hr|by left].
Defined.

Lemma reconstruct_conservative_witness :
  all_accepted new_ledger history ∧
  ∃ re, reconstruct [m2; m0] [gap67] [] = Ok re ∧
    ∀ p ms, ledger_complete_through (re_ledger re) p = Some ms →
      ∃ ms', ledger_complete_through (run new_ledger history) p = Some ms' ∧ (ms ≤ ms')%Z.
Proof.
  split; [apply history_accepted|].
  apply (reconstruct_conservative history [m2; m0] [gap67] [] history_typed history_accepted).
  - apply (bool_decide_unpack _). vm_compute. exact I.
  - intros m Hm. vm_compute. set_solver.
  - intros r Hr. exact Hr.
Defined.

(** ** Loss declarations *)

Definition request : DeclareLossRequest :=
  {| dl_ranges := [ll_range gap67]; dl_accept_data_loss := true |}.

Definition replica : ReplicaCoverage :=
  {| rc_node := "n2"; rc_partition := "p"; rc_origin := "o1"; rc_replicated_thru := 6 |}.

Lemma declare_loss_refusal_witness :
  check_declare_loss request [replica]
    = Err (StillRecoverable 0 "p" "o1" 6 7 "n2" 6) ∧
  ∃ k r, dl_ranges request !! k = Some r ∧ ¬ declarable [replica] r.
Proof.
  assert (check_declare_loss request [replica] = Err (StillRecoverable 0 "p" "o1" 6 7 "n2" 6)) as He
    by (vm_compute; reflexivity).
  split; [exact He|].
  destruct (declare_loss_refusal request [replica] _ He) as [[E _]|[[E _]|(k & r & Hk & _ & Hd & _)]];
    [discriminate E|discriminate E|]. by exists k, r.
Defined.

(** Windows at both ends of [u64], the cursor just before the last one. *)
Definition wrapping : PartitionState :=
  let w := {| w_origin_coverage := [range "o1" 1 2]; w_event_time_max_ms := 1000;
              w_dedup_removed := 0 |} in
  {| dataset := Some "logs"; windows := {[ u64_max := w; 0%N := w ]}; committed := ∅; losses := ∅;
     done_cov := ∅; done_through := Some (u64_max - 1)%N; complete_through_ms := None |}.

Lemma extend_terminates_witness :
  (N.of_nat (size (windows wrapping)) < 2 ^ 64)%N ∧ done_through (extend wrapping) = Some 0%N ∧
  ∃ k, (k ≤ 2)%nat ∧ extend_run wrapping ∅ None u64_max k (extend wrapping).
Proof.
  split; [vm_compute; reflexivity|]. split; [vm_compute; reflexivity|].
  apply (extend_terminates wrapping); [vm_compute; reflexivity|].
  intros d Hd. injection Hd as <-. vm_compute. reflexivity.
Defined.

(** * Witnesses for the drain claims

    Concrete answers of the ports, the runs of the coordinator they give, and
    the claims applied to those runs. *)

(** An object store whose paths are the part names. *)
#[local] Instance plain_store : ObjectStore :=
  {| store_error := string; object_path := string; path_from := λ s, s |}.

(** ** Runs under fixed answers *)

Section scripted.
Context (h : ∀ c : call, answer c).

Fixpoint play {A} (p : prog A) : list event * A :=
  match p with
  | Ret a => ([], a)
  | Do c k => let '(t, a) := play (k (h c)) in (Ev c (h c) :: t, a)
  end.

Lemma play_exec {A} (p : prog A) : exec p (play p).1 (play p).2.
Proof.
  induction p as [a|c k IH]; simpl; [done|]. specialize (IH (h c)).
  destruct (play (k (h c))) as [t a]. by exists (h c), t.
Defined.

End scripted.

Definition sealed0 : SealedPart :=
  {| sl_path := "scratch/0"; sl_rows := 5; sl_event_time_min_ms := 0; sl_event_time_max_ms := 1000;
     sl_dedup_removed := 0; sl_origin_coverage := [range "o1" 1 5] |}.

Definition row0 : WatermarkRow := {| wr_partition := "p"; wr_complete_through_ms := 1000 |}.

(** Ports that answer as a healthy node's do; the lake commit and the read-back
    answer as given. *)
Definition ports (o : result CommitOutcome LakeError) (rb : result (list WatermarkRow) LakeError) :
    ∀ c, answer c :=
  λ c, match c return answer c with
       | NextWindow _ => 0%N
       | CompleteThroughMs _ => None
       | AdvanceFor _ => Ok (Some row0)
       | RecordCommit _ => Ok (Some row0)
       | RecordedCoverage _ _ => None
       | DrainableWindows => Ok []
       | SealWindow _ => Ok sealed0
       | DropWindow _ _ _ _ => Ok Dropped
       | ScratchGet _ => Ok "bytes"
       | ScratchDelete _ => Ok tt
       | PutObject _ _ => Ok tt
       | CommitFiles _ _ => o
       | ReadWatermarks _ => rb
       | WallUnixMs => 0%Z
       | Journal _ => tt
       end.

Definition plan : DatasetDrainPlan :=
  from_declaration {| dd_dataset := "logs"; dd_kind := Event; dd_key_cols := []; dd_sort_key := None |}
    "ts".

Definition attempt0 : prog (result DrainOutcome DrainError) := drain_window "logs" "p" 0 plan.

(** The commit is reported indeterminate, and the read-back shows it landed. *)
Definition landed_run := play (ports (Ok Indeterminate) (Ok [row0])) attempt0.
(** The commit is aborted, and the read-back shows nothing. *)
Definition lost_run := play (ports (Ok Aborted) (Ok [])) attempt0.

Lemma landed_exec : exec attempt0 landed_run.1 landed_run.2.
Proof. apply play_exec. Defined.

Lemma lost_exec : exec attempt0 lost_run.1 lost_run.2.
Proof. apply play_exec. Defined.

Lemma drain_single_commit_witness :
  exec attempt0 landed_run.1 landed_run.2 ∧ (length (commits_in landed_run.1) ≤ 1)%nat.
Proof.
  split; [apply landed_exec|].
  apply (drain_single_commit "logs" "p" 0 plan _ _ landed_exec).
Defined.

Lemma drain_drop_authority_witness :
  ("logs", "p", 0%N, [range "o1" 1 5]) ∈ drops_in landed_run.1 ∧
  (("logs", "p", 0%N) = ("logs", "p", 0%N) ∧
   ((∃ m, [range "o1" 1 5] = m_origin_coverage m ∧ m_partition m = "p" ∧ m_window_id m = 0%N ∧
      landed_evidence landed_run.1 m) ∨
    (commits_in landed_run.1 = [] ∧
     ∃ r, Ev (RecordedCoverage "p" 0) r ∈ landed_run.1 ∧ [range "o1" 1 5] = default [] r))).
Proof.
  assert (("logs", "p", 0%N, [range "o1" 1 5]) ∈ drops_in landed_run.1) as Hin
    by (vm_compute; by left).
  split; [exact Hin|].
  apply (drain_drop_authority "logs" "p" 0 plan _ _ landed_exec _ _ _ _ Hin).
Defined.

Definition m0' : WindowManifest := manifest_of "logs" "p" 0 sealed0.

Lemma drain_record_landed_witness :
  m0' ∈ records_in landed_run.1 ∧ landed_evidence landed_run.1 m0'.
Proof.
  assert (m0' ∈ records_in landed_run.1) as Hin by (vm_compute; by left).
  split; [exact Hin|]. apply (drain_record_landed "logs" "p" 0 plan _ _ landed_exec _ Hin).
Defined.

Lemma drain_requeue_untouched_witness :
  lost_run.2 = Ok (ORequeue RejectedByBackend) ∧ drops_in lost_run.1 = [].
Proof.
  assert (lost_run.2 = Ok (ORequeue RejectedByBackend)) as Hr by (vm_compute; reflexivity).
  split; [exact Hr|]. apply (drain_requeue_untouched "logs" "p" 0 plan _ _ lost_exec _ Hr).
Defined.

Lemma drain_commits_sealed_witness :
  (m0', [row0], Ok Indeterminate) ∈ commits_in landed_run.1 ∧
  ∃ sealed, m0' = manifest_of "logs" "p" 0 sealed.
Proof.
  assert ((m0', [row0], Ok Indeterminate) ∈ commits_in landed_run.1) as Hin
    by (vm_compute; by left).
  split; [exact Hin|].
  destruct (drain_commits_sealed "logs" "p" 0 plan _ _ landed_exec _ _ _ Hin)
    as (sealed & data & previewed & req & E & _). by exists sealed.
Defined.

Lemma drain_fence_witness :
  exec attempt0 landed_run.1 landed_run.2 ∧
  ∃ expected t', landed_run.1 = Ev (NextWindow "p") expected :: t'.
Proof.
  split; [apply landed_exec|].
  destruct (drain_fence "logs" "p" 0 plan _ _ landed_exec) as (expected & t' & E & _).
  by exists expected, t'.
Defined.

Lemma drain_bounded_witness :
  exec attempt0 landed_run.1 landed_run.2 ∧ (length landed_run.1 ≤ 17)%nat.
Proof. split; [apply landed_exec|]. apply (drain_bounded "logs" "p" 0 plan _ _ landed_exec). Defined.

(** ** The system *)

Abbreviation ledger_world := (World (L := gmap string PartitionState)).

Definition world0 : ledger_world := {| w_ledger := new_ledger; w_lake := []; w_rows := ∅ |}.

Lemma world0_synced : synced world0.
Proof.
  split.
  - by exists [].
  - intros p. reflexivity.
  - by intros m ?%elem_of_nil.
  - intros p k Hk. unfold world0 in Hk. simpl in Hk. unfold next_window, new_ledger in Hk.
    rewrite lookup_empty in Hk. lia.
  - constructor.
Qed.

(** The answers of the world [w]: its ledger, a lake whose commits land but
    whose outcome is lost, a read-back of the stored row. *)
Definition serve (w : ledger_world) (c : call) : answer c * ledger_world :=
  match c return answer c * ledger_world with
  | NextWindow p => (wb_next_window (w_ledger w) p, w)
  | CompleteThroughMs p => (wb_complete_through_ms (w_ledger w) p, w)
  | AdvanceFor m => (wb_advance_for (w_ledger w) m, w)
  | RecordCommit m =>
      (fst (wb_record_commit (w_ledger w) m),
       with_ledger w (snd (wb_record_commit (w_ledger w) m)))
  | RecordedCoverage p k => (wb_recorded_coverage (w_ledger w) p k, w)
  | CommitFiles m ws => (Ok Indeterminate, land w m ws)
  | ReadWatermarks ps =>
      (Ok (omap (λ p, row_of p <$> w_rows w !! p) ps), w)
  | c => (ports (Ok Committed) (Ok []) c, w)
  end.

Fixpoint serve_all {A} (w : ledger_world) (p : prog A) : ledger_world * A :=
  match p with
  | Ret a => (w, a)
  | Do c k => let '(r, w1) := serve w c in serve_all w1 (k r)
  end.

Definition end0 := serve_all world0 attempt0.

(** The calls at which [serve] keeps to what [answers] allows. *)
Definition call_ok (c : call) : Prop :=
  match c with
  | SealWindow q => (sr_window q < u64_max)%N
  | ReadWatermarks ps => length ps = 1%nat
  | _ => True
  end.

Fixpoint calls_ok {A} (w : ledger_world) (p : prog A) : Prop :=
  match p with
  | Ret a => True
  | Do c k => call_ok c ∧ calls_ok (serve w c).2 (k (serve w c).1)
  end.

Lemma serve_answers w c : call_ok c → answers w c (serve w c).1 (serve w c).2.
Proof.
  destruct c; simpl; intros Hc; try done.
  - split; [done|]. split; simpl; [done|]. repeat constructor; unfold is_u64, u64_max; simpl; lia.
  - by right.
  - split; [done|]. destruct partitions as [|q [|q' ps]]; try done.
    intros p ->%list_elem_of_singleton. simpl. destruct (w_rows w !! q) as [ms|]; simpl; [|done].
    unfold read_back_of. simpl. by rewrite bool_decide_eq_true_2.
Qed.

Lemma serve_all_runs {A} (p : prog A) w :
  calls_ok w p → runs w p (serve_all w p).1 (serve_all w p).2.
Proof.
  revert w. induction p as [a|c k IH]; intros w; simpl; [done|].
  intros [Hc Hk]. exists (serve w c).1, (serve w c).2. split; [by apply serve_answers|].
  specialize (IH _ _ Hk). by destruct (serve w c).
Qed.

Lemma end0_runs : runs world0 attempt0 end0.1 end0.2.
Proof. apply serve_all_runs. vm_compute. repeat split. Qed.

Lemma drain_decides_witness :
  end0.2 = Ok (OCommitted (Some row0)) ∧ synced end0.1 ∧
  ∃ m, w_lake end0.1 = [m] ∧ m_partition m = "p" ∧ m_window_id m = 0%N.
Proof.
  assert (end0.2 = Ok (OCommitted (Some row0))) as Hr by (vm_compute; reflexivity).
  split; [exact Hr|].
  pose proof (drain_decides world0 end0.1 "logs" "p" 0 plan end0.2 world0_synced end0_runs) as Hd.
  rewrite Hr in Hd. destruct Hd as (Hs & _ & m & Hm). split; [exact Hs|]. by exists m.
Defined.

(** ** Names and scheduling *)

Lemma part_name_injective_witness :
  part_name "logs" "t1.0" 7 (DSnapshot 3) = part_name "logs" "t1.0" 7 (DSnapshot 3) ∧
  DSnapshot 3 = DSnapshot 3.
Proof.
  split; [reflexivity|].
  apply (part_name_injective "logs" "logs" "t1.0" "t1.0" 7 7 (DSnapshot 3) (DSnapshot 3)).
  reflexivity.
Defined.

Definition window0 : DrainableWindow :=
  {| dw_dataset := "logs"; dw_partition := "p"; dw_window := 0; dw_closed_at_ms := 1000 |}.

Lemma eligible_spec_witness :
  is_i64 901000 ∧
  (window0 ∈ eligible 901000 DrainConfig_default [window0] ↔
   window0 ∈ [window0] ∧ ((1000 + 900000 ≤ 901000)%Z ∨ 901000%Z = i64_max)).
Proof.
  split; [unfold is_i64, i64_min, i64_max; lia|].
  apply (eligible_spec 901000 DrainConfig_default [window0]).
  unfold is_i64, i64_min, i64_max; lia.
Defined.
