(* ===== verification/ReplicationWitness.v ===== *)
(** * Witnesses for the replication claims

    Concrete instances of the ports (a log, a disk, a registry, a byte
    encoding) and a three-node cluster that forwards, applies, receipts and
    acknowledges one batch. *)

From Stdlib Require Import Ascii.
From S2P Require Import BTree.
From S2P Require Import Prelude RustStd Types Ports Hrw Routing Fencing Wire PeerApply Receipt Cluster.
From S2P Require Import Boot Takeover.

(** ** The ports *)

(** A log that keeps the applied prefix of each (origin, partition). *)
#[local] Instance prefix_log : ReplicaLog (gmap (string * string) N) := {|
  rl_applied_thru g o p := default 0%N (g !! (o, p));
  rl_has_applied g o p x := ((1 <=? x) && (x <=? default 0%N (g !! (o, p))))%N;
  rl_apply g r :=
    (Ok tt, <[(origin (fr_range r), fr_partition r) := last_seq (fr_range r)]> g);
|}.

#[local] Instance prefix_log_laws : ReplicaLogLaws (gmap (string * string) N).
Proof.
  split.
  - intros g o p x. simpl. by rewrite andb_true_iff, !N.leb_le.
  - intros g r _ _ _ o p. simpl. case_decide as E.
    + destruct E as [-> ->]. by rewrite lookup_insert_eq.
    + rewrite lookup_insert_ne; [done|]. naive_solver.
  - done.
Defined.

(** A byte encoding: the binary digits of a number that codes the message. *)
Definition wire_code (w : WireEnvelope) : (N * string * string * N * N * N * string * string)
                                         + (N * string * string * string * N) :=
  match w with
  | WForward i p o f l k d r => inl (i, p, o, f, l, k, d, r)
  | WReceipt i h o p t => inr (i, h, o, p, t)
  end.

Definition wire_decode (c : (N * string * string * N * N * N * string * string)
                            + (N * string * string * string * N)) : WireEnvelope :=
  match c with
  | inl (i, p, o, f, l, k, d, r) => WForward i p o f l k d r
  | inr (i, h, o, p, t) => WReceipt i h o p t
  end.

#[local] Instance bit_json : Json := {|
  to_vec w := bits (encode (wire_code w));
  from_slice b :=
    match unbits b ≫= decode with
    | Some c => Ok (wire_decode c)
    | None => Err "not a message"
    end;
|}.

#[local] Instance bit_json_laws : JsonLaws.
Proof.
  split. intros w. simpl. rewrite unbits_bits. simpl. rewrite decode_encode. by destruct w.
Defined.

(** A disk and a registry that counts. *)
#[local] Instance map_disk : Storage (gmap string string) := {|
  st_get s p := match s !! p with Some d => Ok d | None => Err (NotFound p) end;
  st_put s p d := (Ok tt, <[p := d]> s);
  st_fsync_file s p := (Ok tt, s);
  st_fsync_dir s p := (Ok tt, s);
|}.

#[local] Instance map_disk_laws : StorageLaws (gmap string string).
Proof. split; [|done|done]. intros s p d _. simpl. by rewrite lookup_insert_eq. Defined.

#[local] Instance counter : Registry N := {|
  rg_next_incarnation n _ := (Ok (n + 1)%N, (n + 1)%N);
|}.

(** ** Placement and routing *)

Lemma minimal_disruption_witness :
  ["a"; "b"; "c"] ≡ₚ "c" :: ["a"; "b"] ∧
  (hrw_owner "p" ["a"; "b"; "c"] = Some "c" ∨
   hrw_owner "p" ["a"; "b"; "c"] = hrw_owner "p" ["a"; "b"]).
Proof.
  assert (["a"; "b"; "c"] ≡ₚ "c" :: ["a"; "b"]) as Hp by (symmetry; apply Permutation_cons_append).
  split; [exact Hp|]. apply (minimal_disruption "p" ["a"; "b"] ["a"; "b"; "c"] "c" Hp).
Defined.

Lemma removal_projects_ranking_witness :
  hrw_ranked "p" ["a"; "c"]
  = List.filter (λ n, negb (bool_decide (n = "b"))) (hrw_ranked "p" ["a"; "b"; "c"]).
Proof.
  apply (removal_projects_ranking "p" ["a"; "b"; "c"] ["a"; "c"]
    (λ n, negb (bool_decide (n = "b")))). reflexivity.
Defined.

Definition plan0 : RoutingPlan :=
  match route_write "p" "a" (membership_new ["a"; "b"; "c"]) 2 with
  | Some plan => plan
  | None => {| rp_owner := ""; rp_replicas := []; rp_is_local_owner := false; rp_rf := 0 |}
  end.

Lemma forward_targets_spec_witness :
  route_write "p" "a" (membership_new ["a"; "b"; "c"]) 2 = Some plan0 ∧
  NoDup (forward_targets plan0 "a") ∧ S (length (forward_targets plan0 "a")) = 2%nat.
Proof.
  assert (route_write "p" "a" (membership_new ["a"; "b"; "c"]) 2 = Some plan0) as Hp
    by (vm_compute; reflexivity).
  split; [exact Hp|].
  destruct (forward_targets_spec "p" "a" ["a"; "b"; "c"] 2 plan0 Hp) as (Hnd & _ & _ & Hlen & _).
  split; [exact Hnd|]. apply Hlen. vm_compute. reflexivity.
Defined.

Definition batch0 : ForwardBatch :=
  {| fb_coverage := {| sc_partition := "p";
                       sc_range := {| origin := "a"; first_seq := 1; last_seq := 3 |} |};
     fb_window := 0; fb_dataset := "logs"; fb_records := "rows" |}.

Lemma forward_reaches_rf_witness :
  is_below_floor plan0 = false ∧
  (ob_sent (forward_to_peers {| ob_sent := []; ob_script := λ _ _, Ok tt |} "a" 1
     (forward_targets plan0 "a") batch0).1.2).*1 = forward_targets plan0 "a".
Proof.
  assert (route_write "p" "a" (membership_new ["a"; "b"; "c"]) 2 = Some plan0) as Hp
    by (vm_compute; reflexivity).
  assert (is_below_floor plan0 = false) as Hf by (vm_compute; reflexivity).
  split; [exact Hf|].
  pose proof (forward_reaches_rf "p" "a" ["a"; "b"; "c"] 2 1 plan0 batch0 (λ _ _, Ok tt) Hp Hf) as Hr.
  simpl in Hr. destruct (forward_to_peers _ _ _ _ _) as [[results t'] trace]. apply Hr.
Defined.

(** ** Peers *)

Definition forward0 : ForwardMessage := forward_message 1 batch0.

Lemma forward0_typed : forward_typed forward0.
Proof. unfold forward_typed, is_u64, u64_max. simpl. lia. Defined.

Definition receipt0 : ReceiptMessage := build_receipt "b" 1 "a" "p" 3.

Abbreviation log0 := (∅ : gmap (string * string) N).

Lemma peer_apply_gap_free_witness :
  fst (apply_forward ∅ log0 "b" 1 forward0) = Applied receipt0 ∧
  rl_applied_thru (ps_log (snd (apply_forward ∅ log0 "b" 1 forward0))) "a" "p" = 3%N.
Proof.
  assert (fst (apply_forward ∅ log0 "b" 1 forward0) = Applied receipt0) as Ha
    by (vm_compute; reflexivity).
  split; [exact Ha|]. pose proof (peer_apply_gap_free ∅ log0 "b" 1 forward0 forward0_typed) as Hg.
  rewrite Ha in Hg. apply Hg.
Defined.

Lemma peer_receipt_honest_witness :
  receipt_of (fst (apply_forward ∅ log0 "b" 1 forward0)) = Some receipt0 ∧
  rm_holder receipt0 = "b".
Proof.
  assert (receipt_of (fst (apply_forward ∅ log0 "b" 1 forward0)) = Some receipt0) as Hr
    by (vm_compute; reflexivity).
  split; [exact Hr|]. apply (peer_receipt_honest ∅ log0 "b" 1 forward0 receipt0 forward0_typed Hr).
Defined.

Lemma peer_apply_fenced_witness :
  (1 ≤ 3)%N ∧
  (fst (apply_forward {["a" := 2%N]} log0 "b" 1 forward0) = Fenced ↔
   (1 < highest_seen {["a" := 2%N]} "a")%N).
Proof.
  split; [lia|]. apply (peer_apply_fenced {["a" := 2%N]} log0 "b" 1 forward0); simpl; [lia|done].
Defined.

Lemma suspect_duplicate_iff_witness :
  let m := {| fm_incarnation := 1; fm_partition := "p";
              fm_range := {| origin := "a"; first_seq := 0; last_seq := 0 |};
              fm_window := 0; fm_dataset := "logs"; fm_records := "" |} in
  fst (apply_forward ∅ log0 "b" 1 m) = SuspectDuplicate.
Proof.
  simpl. apply (suspect_duplicate_iff ∅ log0 "b" 1). simpl. repeat split; try done.
Defined.

Lemma peer_apply_redelivery_witness :
  fst (apply_forward ∅ log0 "b" 1 forward0) = Applied receipt0 ∧
  let s := snd (apply_forward ∅ log0 "b" 1 forward0) in
  fst (apply_forward (ps_fence s) (ps_log s) "b" 1 forward0) = DuplicateAcked receipt0.
Proof.
  assert (fst (apply_forward ∅ log0 "b" 1 forward0) = Applied receipt0) as Ha
    by (vm_compute; reflexivity).
  split; [exact Ha|].
  apply (peer_apply_redelivery ∅ log0 "b" 1 forward0 receipt0 forward0_typed Ha).
Defined.

(** ** Acknowledgments *)

Lemma client_ack_distinct_witness :
  client_ack_ready (fst (record_all tracker_new ∅ [receipt0])) "a" "p" 3 2 = true ∧
  ∃ holders, NoDup holders ∧ "a" ∉ holders ∧ (2 ≤ N.of_nat (length holders) + 1)%N.
Proof.
  assert (client_ack_ready (fst (record_all tracker_new ∅ [receipt0])) "a" "p" 3 2 = true) as Hr
    by (vm_compute; reflexivity).
  split; [exact Hr|].
  destruct (client_ack_distinct [receipt0] ∅ "a" "p" 3 2 Hr) as (hs & Hnd & Ha & Hlen & _).
  exact (ex_intro _ hs (conj Hnd (conj Ha Hlen))).
Defined.

(** The cluster: [a] sends its batch to [b], [b] applies it, [a] records the
    receipt. *)
Abbreviation network := (Network (G := gmap (string * string) N)).

Definition net0 : network :=
  {| node := λ _, {| n_incarnation := 1; n_fence := ∅; n_tracker := tracker_new; n_log := ∅ |};
     forwards := []; receipts := [] |}.

Definition net1 : network :=
  {| node := node net0; forwards := [("b", forward0)]; receipts := [] |}.

Definition net2 : network := handle_forward net1 "b" forward0.
Definition net3 : network := handle_receipt net2 "a" receipt0.

Lemma net3_reachable : reachable net3.
Proof.
  apply (reach_step net2); [apply (reach_step net1); [apply (reach_step net0)|]|].
  - by apply reach_init.
  - apply (StepSend net0). apply forward0_typed.
  - apply StepForward. by left.
  - apply StepReceipt. vm_compute. by left.
Qed.

Lemma client_ack_durable_witness :
  client_ack_ready (n_tracker (node net3 "a")) "a" "p" 3 2 = true ∧
  ∃ holders, NoDup holders ∧ "a" ∉ holders ∧ (2 ≤ N.of_nat (length holders) + 1)%N.
Proof.
  assert (client_ack_ready (n_tracker (node net3 "a")) "a" "p" 3 2 = true) as Hr
    by (vm_compute; reflexivity).
  split; [exact Hr|].
  destruct (client_ack_durable net3 "a" "p" 3 2 net3_reachable Hr) as (hs & Hnd & Ha & Hlen & _).
  exact (ex_intro _ hs (conj Hnd (conj Ha Hlen))).
Defined.

Lemma envelope_roundtrip_witness : from_bytes (to_bytes (EReceipt receipt0)) = Ok (EReceipt receipt0).
Proof. apply (envelope_roundtrip (EReceipt receipt0) (EReceipt receipt0)). Defined.

(** ** Boot and takeover *)

Lemma fence_boot_outcome_witness :
  fence_boot ∅ 0%N "a" "inc" "dir" = (Ok (Active 1), {["inc" := "1"]}, 1%N) ∧ (0 < 1)%N.
Proof.
  assert (fence_boot ∅ 0%N "a" "inc" "dir" = (Ok (Active 1), {["inc" := "1"]}, 1%N)) as Hb
    by (vm_compute; reflexivity).
  split; [exact Hb|].
  destruct (fence_boot_outcome ∅ {["inc" := "1"]} 0%N 1%N "a" "inc" "dir" (Active 1) Hb)
    as [(_ & Hpos & _) _]; [|exact Hpos].
  intros i [= <-]. unfold is_u64, u64_max. lia.
Defined.

Definition boot1 := fence_boot (∅ : gmap string string) 0%N "a" "inc" "dir".
Definition boot2 := fence_boot boot1.1.2 boot1.2 "a" "inc" "dir".

Lemma two_boots : boots "a" "inc" "dir" ∅ 0%N [1; 2]%N boot2.1.2 boot2.2.
Proof.
  eapply (boots_active "a" "inc" "dir" ∅ 0%N 1%N boot1.1.2 boot1.2);
    [vm_compute; reflexivity|unfold is_u64, u64_max; lia|vm_compute; reflexivity|].
  eapply (boots_active "a" "inc" "dir" boot1.1.2 boot1.2 2%N boot2.1.2 boot2.2);
    [vm_compute; reflexivity|unfold is_u64, u64_max; lia|vm_compute; reflexivity|].
  apply boots_nil.
Qed.

Lemma incarnations_increase_witness :
  boots "a" "inc" "dir" ∅ 0%N [1; 2]%N boot2.1.2 boot2.2 ∧
  StronglySorted (λ i j, i < j)%N [1; 2]%N.
Proof.
  split; [apply two_boots|]. apply (incarnations_increase "a" "inc" "dir" _ _ _ _ _ two_boots).
Defined.

Definition decision0 : TakeoverDecision :=
  match resolve_takeover "p" "c" "a" (membership_new ["a"; "b"; "c"]) 2 with
  | Some d => d
  | None => {| td_partition := ""; td_dead_owner := ""; td_old_owner := ""; td_new_plan := plan0;
               td_self_is_new_owner := false; td_self_was_replica_before := false |}
  end.

Lemma declare_loss_only_rf1_witness :
  resolve_takeover "p" "c" "a" (membership_new ["a"; "b"; "c"]) 2 = Some decision0 ∧
  requires_declare_loss decision0 = false.
Proof.
  assert (resolve_takeover "p" "c" "a" (membership_new ["a"; "b"; "c"]) 2 = Some decision0) as Hd
    by (vm_compute; reflexivity).
  split; [exact Hd|].
  apply (declare_loss_only_rf1 "p" "c" "a" ["a"; "b"; "c"] 2 decision0 Hd). lia.
Defined.

Definition window1 : list OriginSeqRange := [{| origin := "a"; first_seq := 1; last_seq := 9 |}].
Definition winner1 : list OriginSeqRange := [{| origin := "a"; first_seq := 3; last_seq := 5 |}].

Lemma compute_residue_exact_witness :
  compute_residue window1 winner1
    = [{| origin := "a"; first_seq := 1; last_seq := 2 |};
       {| origin := "a"; first_seq := 6; last_seq := 9 |}] ∧
  (osr_mem (compute_residue window1 winner1) "a" 4 ↔
   osr_mem window1 "a" 4 ∧ ¬ osr_mem winner1 "a" 4).
Proof.
  split; [vm_compute; reflexivity|].
  apply (compute_residue_exact window1 winner1 "a" 4).
  apply Forall_singleton. unfold u64_max. simpl. lia.
Defined.

Lemma forward_targets_rf1_witness :
  (1 ≤ 1)%N ∧ ∃ plan, route_write "p" "a" (membership_new ["a"; "b"; "c"]) 1 = Some plan ∧
    forward_targets plan "a" = [].
Proof.
  split; [lia|].
  assert (is_Some (route_write "p" "a" (membership_new ["a"; "b"; "c"]) 1)) as [plan Hp]
    by (vm_compute; eexists; reflexivity).
  exists plan. split; [exact Hp|]. apply (forward_targets_rf1 "p" "a" ["a"; "b"; "c"] 1 plan); [lia|exact Hp].
Defined.
