(* ===== verification/StagingWitness.v ===== *)
(** * Witnesses for the staging claims

    Concrete libraries (batches of keyed rows, a database that never fails, a
    stream reader of one-row batches, a bit-string codec) and runs of the hot
    store on them. *)

From stdpp Require Import relations.
From S2P Require Import Prelude Types Overload Ledger LedgerHistory Ports SharedLedger Naming.
From S2P Require Import Coordinator DrainSystem Engine EngineProps Seal.
From S2P Require Import SealProps Stager StagerProps HotStore Daemon Rolling Pipeline.
From S2P Require Import PipelineProps BTree.

(** ** The libraries *)

#[local] Instance keyed_rows : Arrow := {|
  RecordBatch := list (string * Z);
  Payload := string * Z;
  arrow_error := unit;
  rb_schema _ := [];
  rb_rows b := b;
  rb_column_sizes b := [Ok (10 * N.of_nat (length b))%N];
  rb_try_new _ := Ok tt;
|}.

Definition by_age (a b : string * string * DedupRow) : Prop :=
  (de_created_wall_ms a.2 ≤ de_created_wall_ms b.2)%Z.

#[local] Instance by_age_dec : RelDecision by_age.
Proof. unfold by_age. intros ??. apply _. Defined.
#[local] Instance by_age_total : Total by_age.
Proof. intros a b. unfold by_age. lia. Qed.
#[local] Instance by_age_trans : Transitive by_age.
Proof. intros a b c. unfold by_age. lia. Qed.

(** A database without faults. *)
#[local] Instance sound_db : DuckDb := {|
  fault _ _ := None;
  oldest m n := (take (N.to_nat n) (merge_sort by_age (map_to_list m))).*1;
|}.

#[local] Instance sound_db_laws : DuckDbLaws.
Proof.
  assert (∀ m, NoDup (merge_sort by_age (map_to_list m)).*1) as Hnd.
  { intros m. rewrite merge_sort_Permutation. apply NoDup_fst_map_to_list. }
  split; simpl.
  - intros m n. eapply sublist_NoDup; [apply (Hnd m)|]. apply fmap_sublist, sublist_take.
  - intros m n k ([k' r] & -> & Hin)%list_elem_of_fmap. apply elem_of_take in Hin as (i & Hi & _).
    apply list_elem_of_lookup_2 in Hi. rewrite merge_sort_Permutation in Hi.
    apply elem_of_map_to_list in Hi. simpl. by rewrite Hi.
  - intros m n. rewrite length_fmap, length_take. f_equal.
    rewrite merge_sort_Permutation. apply length_map_to_list.
  - intros m n k r k' r' Hk Hk' Hin Hnin. set (l := merge_sort by_age (map_to_list m)) in *.
    assert (∀ q s, m !! q = Some s → (q, s) ∈ l) as Hl.
    { intros q s Hq. unfold l. rewrite merge_sort_Permutation. by apply elem_of_map_to_list. }
    pose proof (StronglySorted_merge_sort by_age (map_to_list m)) as Hsort. fold l in Hsort.
    apply list_elem_of_fmap in Hin as ([k0 r0] & -> & Hin).
    assert (r0 = r) as ->.
    { apply elem_of_take in Hin as (i & Hi & _). apply list_elem_of_lookup_2 in Hi. unfold l in Hi.
      rewrite merge_sort_Permutation in Hi. apply elem_of_map_to_list in Hi. simpl in Hk. congruence. }
    specialize (Hl k' r' Hk'). rewrite <-(take_drop (N.to_nat n) l) in Hl, Hsort.
    apply elem_of_app in Hl as [Hl|Hl].
    + exfalso. apply Hnin, list_elem_of_fmap. by exists (k', r').
    + apply (StronglySorted_app_1_elem_of _ _ _ _ _ Hsort Hin Hl).
Qed.

Definition cov_code (c : StagedCoverage) : string * string * N * N :=
  (sc_partition c, origin (sc_range c), first_seq (sc_range c), last_seq (sc_range c)).
Definition cov_decode (c : string * string * N * N) : StagedCoverage :=
  let '(p, o, f, l) := c in
  {| sc_partition := p; sc_range := {| origin := o; first_seq := f; last_seq := l |} |}.

(** One row per stream: the bytes as its key. *)
#[local] Instance row_streams : StagerLibs := {|
  stream_reader b := Ok [Ok [(b, 5%Z)]];
  sha256 b := b;
  coverage_to_json cov := Ok (bits (encode (cov_code <$> cov)));
  coverage_of_json s :=
    match unbits s ≫= decode with Some l => Ok (cov_decode <$> l) | None => Err "not a coverage" end;
  staging_error_text _ := "";
|}.

#[local] Instance row_streams_laws : StagerLibsLaws.
Proof.
  split. intros cov text [= <-]. simpl. rewrite unbits_bits. simpl. rewrite decode_encode.
  f_equal. rewrite <-list_fmap_compose. rewrite <-(list_fmap_id cov) at 2.
  apply list_fmap_ext. intros i c _. by destruct c as [? []].
Qed.

#[local] Instance plain_seal : SealLibs := {|
  Key := string;
  row_key _ x := x.1;
  event_ms _ x := Some x.2;
  order_rows _ l := l;
  duckdb_text _ := "";
  staging_text _ := "";
|}.

#[local] Instance plain_seal_laws : SealLibsLaws.
Proof. by split. Qed.

(** ** A run of the hot store *)

Definition cfg0 : StagerConfig :=
  {| window_nanos := 60; dedup_ttl_ms := 1000; dedup_max_entries := 10; hot_max_bytes := 1000 |}.

Definition batch_of (token : option string) (records : string) : DecodedBatch :=
  {| bt_dataset := "logs"; bt_kind := Event; bt_tenant := "t"; bt_idempotency_key := token;
     bt_records := records |}.

Definition batch0 : DecodedBatch := batch_of None "x".
Definition batch1 : DecodedBatch := batch_of None "y".

Definition stager_of (s : Hot) : Stager :=
  match s with
  | HotUp st _ => st
  | HotDown db => stager_new {| en_db := db; en_origin := ""; en_applied := ∅; en_windows := ∅;
                                en_window_hw := ∅; en_staged_bytes := 0 |}
  end.

Definition ops0 : list hot_op := [OpOpen (Ok tt) (Ok tt) "n1"].
Definition st0 : Stager := stager_of (hot_run cfg0 hot_empty ops0).
Definition answer0 := stage_blocking cfg0 st0 7 100 batch0.
Definition cov0 : list StagedCoverage :=
  [{| sc_partition := "t.0"; sc_range := {| origin := "n1"; first_seq := 1; last_seq := 1 |} |}].

Lemma run0 : hot_run cfg0 hot_empty ops0 = HotUp st0 ∅.
Proof. vm_compute. reflexivity. Qed.

Lemma answer0_committed :
  stage_blocking cfg0 st0 7 100 batch0 = (Ok (StageCommitted cov0), answer0.1.2, [EvAccept; EvStageCommit]).
Proof. vm_compute. reflexivity. Qed.

Lemma stage_all_or_nothing_witness :
  hot_run cfg0 hot_empty ops0 = HotUp st0 ∅ ∧
  stage_blocking cfg0 st0 7 100 batch0 = (Ok (StageCommitted cov0), answer0.1.2, [EvAccept; EvStageCommit]) ∧
  ∃ bs, decode_records (bt_records batch0) = Ok bs.
Proof.
  split; [exact run0|]. split; [exact answer0_committed|].
  destruct (stage_all_or_nothing cfg0 ops0 st0 answer0.1.2 ∅ 7 100 batch0 _ _ run0 answer0_committed)
    as (bs & Hbs & _).
  exists bs. exact Hbs.
Defined.

(** Another call, a crash and a reopen under a new identity, then the retry. *)
Definition later0 : list hot_op := [OpStage 8 200 batch1; OpCrash; OpOpen (Ok tt) (Ok tt) "n2"].
Definition st2 : Stager := stager_of (hot_run cfg0 (HotUp answer0.1.2 ∅) later0).
Definition answer2 := stage_blocking cfg0 st2 9 300 batch0.

Lemma run2 : hot_run cfg0 (HotUp answer0.1.2 ∅) later0 = HotUp st2 ∅.
Proof. vm_compute. reflexivity. Qed.

Lemma answer2_duplicate :
  stage_blocking cfg0 st2 9 300 batch0
    = (Ok (StageDuplicateAcked cov0), answer2.1.2, [EvAccept; EvDedupCheck]).
Proof. vm_compute. reflexivity. Qed.

Lemma later0_within : within_window cfg0 100 (HotUp answer0.1.2 ∅) later0.
Proof.
  cbn [within_window later0]. split_and!; try exact I;
    try (vm_compute; reflexivity); vm_compute; discriminate.
Qed.

Lemma stage_exactly_once_witness :
  within_window cfg0 100 (HotUp answer0.1.2 ∅) later0 ∧
  StageDuplicateAcked cov0 = StageDuplicateAcked cov0 ∧
  ∀ k, rows_of (en_db (st_engine answer2.1.2)) k = rows_of (en_db (st_engine st2)) k.
Proof.
  split; [exact later0_within|].
  apply (stage_exactly_once cfg0 ops0 later0 st0 answer0.1.2 st2 answer2.1.2 ∅ ∅ 7 9 100 300 batch0 batch0
           cov0 (StageDuplicateAcked cov0) [EvAccept; EvStageCommit] [EvAccept; EvDedupCheck] [[("x", 5%Z)]]).
  - vm_compute. discriminate.
  - split; vm_compute; discriminate.
  - exact run0.
  - exact answer0_committed.
  - discriminate.
  - exact run2.
  - exact later0_within.
  - reflexivity.
  - reflexivity.
  - vm_compute. discriminate.
  - reflexivity.
  - discriminate.
  - exact answer2_duplicate.
Defined.

Lemma st0_ok : engine_ok (st_engine st0).
Proof.
  pose proof (hot_run_ok cfg0 hot_empty ops0 hot_empty_ok) as [Hok _]. rewrite run0 in Hok. exact Hok.
Qed.

Lemma st2_ok : engine_ok (st_engine st2).
Proof.
  assert (hot_ok (HotUp answer0.1.2 ∅)) as Hok
    by apply (stage_step_ok _ _ _ _ _ _ _ _ st0_ok answer0_committed).
  pose proof (hot_run_ok cfg0 _ later0 Hok) as [Hok2 _]. rewrite run2 in Hok2. exact Hok2.
Qed.

Lemma crash_keeps_committed_witness :
  let s := HotUp st2 ∅ in
  let ops := [OpCrash; OpOpen (Err "full") (Ok tt) "n3"; OpOpen (Ok tt) (Ok tt) "n3"] in
  hot_ok s ∧ ∀ k, rows_of (hot_db (hot_run cfg0 s ops)) k = rows_of (hot_db s) k.
Proof.
  cbv zeta. split; [exact st2_ok|].
  apply (crash_keeps_committed cfg0 (HotUp st2 ∅)
           [OpCrash; OpOpen (Err "full") (Ok tt) "n3"; OpOpen (Ok tt) (Ok tt) "n3"]);
    [repeat constructor|exact st2_ok].
Defined.

(** ** Sealing and dropping the window *)

Definition request0 : SealRequest :=
  {| sr_dataset := "logs"; sr_partition := "t.0"; sr_window := 0; sr_order_by := ["time"];
     sr_event_time_column := "time"; sr_dedup_key := Some ["key"] |}.
Definition db2 : Db := en_db (st_engine st2).
Definition snaps0 : SealSnapshots :=
  {| ss_total := db2; ss_coverage := db2; ss_times := db2; ss_count := db2; ss_copy := db2 |}.
Definition range0 : OriginSeqRange := {| origin := "n1"; first_seq := 1; last_seq := 2 |}.
Definition part0 : SealedPart :=
  {| sl_path := "seal/s_logs__t_2e0__w0.parquet"; sl_rows := 2; sl_event_time_min_ms := 5;
     sl_event_time_max_ms := 5; sl_dedup_removed := 0; sl_origin_coverage := [range0] |}.
Definition file0 : list Row := rows_of db2 ("logs", "t.0", 0%N).

Lemma sealed0 : seal_blocking (st_engine st2) snaps0 (Ok tt) request0 = Ok (part0, file0).
Proof. vm_compute. reflexivity. Qed.


(** The commit covered the first row only: the second is kept. *)
Definition covered0 : list OriginSeqRange := [{| origin := "n1"; first_seq := 1; last_seq := 1 |}].
Definition dropped0 := drop_blocking (st_engine st2) (st_engine st2) ∅ db2 "logs" "t.0" 0 covered0.

Lemma dropped0_kept :
  drop_blocking (st_engine st2) (st_engine st2) ∅ db2 "logs" "t.0" 0 covered0 = (Ok (ResidueKept 1), dropped0.1.2, ∅).
Proof. vm_compute. reflexivity. Qed.

Lemma drop_covered_only_witness :
  drop_blocking (st_engine st2) (st_engine st2) ∅ db2 "logs" "t.0" 0 covered0 = (Ok (ResidueKept 1), dropped0.1.2, ∅) ∧
  1%N = count_rows (rows_of (en_db dropped0.1.2) ("logs", "t.0", 0%N)).
Proof.
  split; [exact dropped0_kept|].
  destruct (drop_covered_only (st_engine st2) (st_engine st2) ∅ db2 "logs" "t.0" 0 covered0 (Ok (ResidueKept 1))
              dropped0.1.2 ∅ st2_ok st2_ok eq_refl dropped0_kept) as (_ & _ & _ & Hn & _).
  exact Hn.
Defined.

Definition scan_guards0 : ScanGuards := {| sg_max_bytes := 25; sg_deadline_nanos := 9 |}.
Definition scan_batch0 : RecordBatch := [("x", 5%Z)].
Definition scan_batch1 : RecordBatch := [("y", 6%Z)].
Definition scan_stream0 : list (RecordBatch * N) := [(scan_batch0, 103%N); (scan_batch1, 109%N)].

Lemma scan_never_truncates_witness :
  query_arrow_guarded scan_guards0 100 (Ok scan_stream0) = Ok [scan_batch0; scan_batch1] ∧
  [scan_batch0; scan_batch1] = scan_stream0.*1.
Proof.
  split; [vm_compute; reflexivity|].
  apply (scan_never_truncates scan_guards0 100 scan_stream0).
  vm_compute. reflexivity.
Defined.

(** * A witness for the pipeline claim

    A node on the concrete libraries of [StagingWitness.v] and the watermark
    ledger, with ports that answer as healthy ones do: a batch is staged, a later
    one rolls the window, and a drain pass seals, commits and drops the first
    window.  The staged row is then in the lake only. *)

#[local] Existing Instance keyed_rows.
#[local] Existing Instance sound_db.
#[local] Existing Instance row_streams.
#[local] Existing Instance plain_seal.
#[local] Existing Instance plain_seal_laws.

(** An object store whose paths are the part names, and parquet files as
    bit strings. *)
#[local] Instance name_store : ObjectStore :=
  {| store_error := string; object_path := string; path_from := λ s, s |}.
#[local] Instance name_paths : PartPaths.
Proof. by split. Qed.

Definition row_code (r : Row) : string * N * (string * Z) := (r_origin r, r_seq r, r_payload r).
Definition row_decode (c : string * N * (string * Z)) : Row :=
  {| r_origin := c.1.1; r_seq := c.1.2; r_payload := c.2 : Payload |}.

#[local] Instance bit_parquet : Parquet := {|
  parquet_bytes rows := bits (encode (List.map row_code rows));
  parquet_rows data :=
    match unbits data ≫= decode with Some l => Some (List.map row_decode l) | None => None end;
|}.

#[local] Instance bit_parquet_laws : ParquetLaws.
Proof.
  split. intros rows. simpl. rewrite unbits_bits. simpl. rewrite decode_encode. simpl. f_equal.
  rewrite List.map_map. rewrite <-(List.map_id rows) at 2. apply List.map_ext. by intros [].
Qed.

Abbreviation LNode := (Node (L := gmap string PartitionState)).

(** ** Healthy ports *)

Definition registered_dec (w : World (L := gmap string PartitionState)) (m : WindowManifest) : bool :=
  existsb (λ m', bool_decide (m_partition m' = m_partition m) && bool_decide (m_window_id m' = m_window_id m)
                 && bool_decide (m_parts m' = m_parts m)) (w_lake w).

Definition healthy (s : LNode) (c : call) : answer c * LNode :=
  match c return answer c * LNode with
  | NextWindow p => (wb_next_window (w_ledger (nd_world s)) p, s)
  | CompleteThroughMs p => (wb_complete_through_ms (w_ledger (nd_world s)) p, s)
  | AdvanceFor m => (wb_advance_for (w_ledger (nd_world s)) m, s)
  | RecordCommit m =>
      ((wb_record_commit (w_ledger (nd_world s)) m).1,
       set_world s (with_ledger (nd_world s) (wb_record_commit (w_ledger (nd_world s)) m).2))
  | RecordedCoverage p w => (wb_recorded_coverage (w_ledger (nd_world s)) p w, s)
  | DrainableWindows =>
      match nd_hot s with
      | HotUp st closes => (Ok (drainable_blocking (st_engine st) closes), s)
      | HotDown _ => (Ok [], s)
      end
  | SealWindow request =>
      match nd_hot s with
      | HotUp st closes =>
          let e := st_engine st in
          match seal_blocking e (snapshots e e e e e) (Ok tt) request with
          | Ok (part, file) =>
              (Ok part, set_scratch s (<[sl_path part := parquet_bytes file]> (nd_scratch s)))
          | Err e => (Err e, s)
          end
      | HotDown _ => (Err (SealBackend ""), s)
      end
  | DropWindow d p w covered =>
      match nd_hot s with
      | HotUp st closes =>
          let e := st_engine st in
          let '(r, e', closes') := drop_blocking e e closes (en_db e) d p w covered in
          (r, set_hot s (HotUp (with_engine st e') closes'))
      | HotDown _ => (Err (SealBackend ""), s)
      end
  | ScratchGet path =>
      (match nd_scratch s !! path with Some data => Ok data | None => Err (NotFound path) end, s)
  | ScratchDelete path => (Ok tt, set_scratch s (delete path (nd_scratch s)))
  | PutObject loc data =>
      (Ok tt, set_objects s (λ l, if bool_decide ((l : string) = loc) then Some data else nd_objects s l))
  | CommitFiles m ws =>
      (Ok Committed, if registered_dec (nd_world s) m then s else set_world s (land (nd_world s) m ws))
  | ReadWatermarks _ => (Err (LakeBackend ""), s)
  | WallUnixMs => (fr_clock (nd_front s), s)
  | Journal _ => (tt, s)
  end.

Definition is_up (s : LNode) : Prop := match nd_hot s with HotUp _ _ => True | HotDown _ => False end.

Lemma registered_dec_spec w m : registered_dec w m = true ↔ registered (L := gmap string PartitionState) w m.
Proof.
  unfold registered_dec, registered. rewrite existsb_exists. setoid_rewrite <-list_elem_of_In.
  setoid_rewrite andb_true_iff. setoid_rewrite andb_true_iff. setoid_rewrite bool_decide_eq_true. naive_solver.
Qed.

(** What the statements of a call see when nothing comes between them. *)
Definition seen_by (s : LNode) (c : call) : list Engine :=
  match nd_hot s with
  | HotUp st _ =>
      match c with
      | SealWindow _ => repeat (st_engine st) 6
      | DropWindow _ _ _ _ => repeat (st_engine st) 2
      | _ => []
      end
  | HotDown _ => []
  end.

Lemma healthy_answers s c :
  is_up s → node_answers s (seen_by s c) c (healthy s c).1 (healthy s c).2 ∧ is_up (healthy s c).2.
Proof.
  intros Hup. unfold is_up in Hup.
  destruct c; cbn [healthy node_answers answers fst snd]; unfold is_up, seen_by.
  all: destruct (nd_hot s) as [st closes|] eqn:Eh; [|done].
  all: try (split; [eexists; split; [by split|by rewrite set_world_id]|done]); try done.
  all: cbn [fst snd]; rewrite ?Eh.
  - split; [|simpl; change (nd_hot (set_world s _)) with (nd_hot s); by rewrite Eh]. eexists. split; [by split|]. done.
  - done.
  - set (e := st_engine st). destruct (seal_blocking e _ (Ok tt) _) as [[part file]|err] eqn:Hs; simpl.
    all: change (nd_hot (set_scratch s _)) with (nd_hot s); rewrite Eh; (split; [|done]).
    all: exists e, e, e, e, e, e, (Ok tt); split; [done|]; by rewrite Hs.
  - set (e := st_engine st). destruct (drop_blocking e e _ _ _ _ _ _) as [[r e'] closes'] eqn:Hd. simpl.
    split; [|done]. by exists e, e, e', closes'.
  - split; [|done]. split; [done|]. by destruct (nd_scratch s !! path).
  - split; [by right|simpl; change (nd_hot (set_scratch s _)) with (nd_hot s); by rewrite Eh].
  - split; [|simpl; change (nd_hot (set_objects s _)) with (nd_hot s); by rewrite Eh]. left. eexists. split; [|done].
    split; [by rewrite bool_decide_eq_true_2|]. intros l Hl. by rewrite bool_decide_eq_false_2.
  - destruct (registered_dec _ _) eqn:Hr.
    + apply registered_dec_spec in Hr. rewrite Eh. split; [by left|done].
    + simpl. change (nd_hot (set_world s _)) with (nd_hot s). rewrite Eh. split; [|done]. right.
      split; [|done]. rewrite <-registered_dec_spec. by rewrite Hr.
Qed.

(** The calls in flight, and the time, are not the drain's. *)
Lemma healthy_calls s c :
  fr_calls (nd_front (healthy s c).2) = fr_calls (nd_front s) ∧
  fr_clock (nd_front (healthy s c).2) = fr_clock (nd_front s).
Proof.
  destruct c; cbn [healthy snd]; try done; repeat case_match; done.
Qed.

(** A step that leaves the calls in flight, and the time. *)
Definition steady_step cfg config (a b : LNode * task) : Prop :=
  node_step cfg config a b ∧ prompt config (nd_front b.1) = prompt config (nd_front a.1).

Lemma steady_prompt cfg config a b :
  prompt config (nd_front a.1) = true → rtc (steady_step cfg config) a b →
  rtc (prompt_step cfg config) a b ∧ prompt config (nd_front b.1) = true.
Proof.
  intros Hp Hs. induction Hs as [a|a b c [Hab E] _ IH]; [by split; [apply rtc_refl|]|].
  rewrite Hp in E. destruct (IH E). split; [|done]. by eapply rtc_l.
Qed.

(** A call on healthy ports, its statements one by one. *)
Lemma healthy_steps cfg config s c (k : answer c → prog (DrainTickReport * bool)) :
  is_up s → rtc (steady_step cfg config) (s, Some (Do c k, [])) ((healthy s c).2, Some (k (healthy s c).1, [])).
Proof.
  intros Hup. destruct (healthy_answers s c Hup) as [Ha _]. destruct (healthy_calls s c) as [Ec Et].
  eapply rtc_r; [|split; [apply StepCall, Ha|unfold prompt; simpl; by rewrite Ec, Et]]. unfold is_up in Hup.
  assert (∀ seen n, looks c → match nd_hot s with
    | HotUp st _ => rtc (steady_step cfg config) (s, Some (Do c k, seen)) (s, Some (Do c k, seen ++ repeat (st_engine st) n))
    | HotDown _ => True end) as Hlooks.
  { intros seen n Hc. destruct (nd_hot s) as [st closes|] eqn:Eh; [|done]. revert seen. induction n as [|n IH]; intros seen.
    - simpl. rewrite app_nil_r. apply rtc_refl.
    - eapply rtc_l; [split; [by eapply StepLook|done]|]. specialize (IH (seen ++ [st_engine st])). by rewrite <-app_assoc in IH. }
  unfold seen_by. destruct (nd_hot s) as [st closes|] eqn:Eh; [|done].
  destruct c; try apply rtc_refl; [apply (Hlooks [] 6 I)|apply (Hlooks [] 2 I)].
Qed.

(** A pass on healthy ports. *)
Fixpoint pass {A} (s : LNode) (p : prog A) : LNode :=
  match p with
  | Ret _ => s
  | Do c k => pass (healthy s c).2 (k (healthy s c).1)
  end.

Lemma pass_steps cfg config s (p : prog (DrainTickReport * bool)) :
  is_up s → rtc (steady_step cfg config) (s, Some (p, [])) (pass s p, None).
Proof.
  revert s. induction p as [a|c k IH]; intros s Hup; simpl; [apply rtc_once; split; [apply StepDone|done]|].
  etrans; [by apply healthy_steps|]. by apply IH, healthy_answers.
Qed.

(** ** A node that stages, rolls and drains *)

Definition log_batch (records : string) : DecodedBatch :=
  {| bt_dataset := OTLP_LOGS_DATASET; bt_kind := Event; bt_tenant := "t"; bt_idempotency_key := None;
     bt_records := records |}.

Definition world0 : World (L := gmap string PartitionState) :=
  {| w_ledger := new_ledger; w_lake := []; w_rows := ∅ |}.

Definition node0 : LNode :=
  {| nd_front := {| fr_hot := hot_empty; fr_calls := []; fr_clock := 0 |};
     nd_world := world0; nd_scratch := ∅; nd_objects _ := None |}.

Definition engine0 : Engine := st_engine (stager_of (hot_run cfg0 hot_empty ops0)).
Definition node1 : LNode := set_world (set_hot node0 (HotUp (stager_new engine0) ∅)) (with_ledger world0 new_ledger).

(** The node later. *)
Definition later (s : LNode) (now : Z) : LNode :=
  set_front s {| fr_hot := nd_hot s; fr_calls := fr_calls (nd_front s); fr_clock := now |}.

(** The node after a call run alone, at the clock reading [mono]. *)
Definition staged_node (s : LNode) (mono : N) (wall : Z) (b : DecodedBatch) : LNode :=
  match nd_hot s with
  | HotUp st closes => set_hot s (HotUp (stage_blocking cfg0 st mono wall b).1.2 closes)
  | HotDown _ => s
  end.

Definition noted_node (s : LNode) : LNode :=
  match nd_hot s with
  | HotUp st closes =>
      set_hot s (HotUp st (note_closed_windows (st_engine st) (fr_clock (nd_front s)) closes))
  | HotDown _ => s
  end.

Definition node2 : LNode := staged_node (later node1 100) 7 100 (log_batch "x").
Definition node3 : LNode := staged_node (later node2 200) 99 200 (log_batch "y").
Definition node4 : LNode := later (noted_node (later node3 300)) 400.
Definition drain0 : DrainConfig := {| allowed_lateness_ms := 50 |}.
Definition node5 : LNode := pass node4 (drain_once drain0).

Definition window_x : string * string * N := (OTLP_LOGS_DATASET, "t.0", 0%N).
Definition row_x : Row := {| r_origin := "n1"; r_seq := 1; r_payload := ("x", 5%Z) : Payload |}.

Lemma initial0 : initial node0.
Proof. by split. Qed.

(** High-water marks as a list, for checking [ids_left]. *)
Lemma ids_left_list d : forallb (λ kh : string * string * N, (kh.2 <? u64_max)%N) (map_to_list (db_window_hw d)) = true →
  ids_left d.
Proof.
  intros Hall dp h Hh. apply elem_of_map_to_list, list_elem_of_In in Hh.
  rewrite forallb_forall in Hall. specialize (Hall _ Hh). by apply N.ltb_lt in Hall.
Qed.

Lemma env_steps s f t :
  rtc (λ f1 f2, env_step cfg0 f1 f2 ∧ prompt drain0 f2 = prompt drain0 (nd_front s)) (nd_front s) f →
  rtc (steady_step cfg0 drain0) (s, t) (set_front s f, t).
Proof.
  intros Hs. cut (∀ s1 b, rtc (λ f1 f2, env_step cfg0 f1 f2 ∧ prompt drain0 f2 = b) (nd_front s1) f →
    prompt drain0 (nd_front s1) = b → rtc (steady_step cfg0 drain0) (s1, t) (set_front s1 f, t)).
  { intros Hc. by eapply Hc. }
  clear s Hs. intros s b. remember (nd_front s) as f0 eqn:E. intros Hs. revert s E.
  induction Hs as [f0|f0 f1 f2 [H1 Hp] _ IH]; intros s -> Hb; [destruct s; apply rtc_refl|].
  eapply rtc_l; [split; [apply StepEnv, H1|simpl; congruence]|]. by apply (IH (set_front s f1) eq_refl).
Qed.

Lemma stage_node_steps s st closes mono wall b t :
  nd_hot s = HotUp st closes → ids_left (en_db (st_engine st)) →
  hold_elapsed (fr_clock (nd_front s)) 50 (fr_clock (nd_front s)) = false →
  rtc (steady_step cfg0 drain0) (s, t) (staged_node s mono wall b, t).
Proof.
  intros Eh Hids Hh. unfold staged_node. rewrite Eh.
  destruct (stage_blocking cfg0 st mono wall b) as [[r st'] evs] eqn:E. apply env_steps.
  by eapply stage_blocking_steps.
Qed.

Lemma later_step s now t :
  fr_calls (nd_front s) = [] → (fr_clock (nd_front s) ≤ now)%Z →
  prompt_step cfg0 drain0 (s, t) (later s now, t).
Proof. intros Ec Hle. split; [by apply StepEnv, EnvTime|]. unfold prompt. simpl. by rewrite Ec. Qed.

Lemma note_step s st closes t :
  nd_hot s = HotUp st closes → node_step cfg0 drain0 (s, t) (noted_node s, t).
Proof. intros Eh. unfold noted_node. rewrite Eh. by apply StepEnv, EnvNote. Qed.

Lemma node_run1 : rtc (prompt_step cfg0 drain0) (node0, None) (node2, None).
Proof.
  apply (rtc_l _ _ (node1, None)); [split; [|by vm_compute]|eapply rtc_l].
  - apply (StepBoot cfg0 drain0 node0 empty_db (Ok tt) (Ok tt) "n1" engine0 (en_db engine0) [] new_ledger);
      [done|by vm_compute|done|by vm_compute].
  - apply (later_step node1 100); by vm_compute.
  - apply steady_prompt; [by vm_compute|].
    eapply stage_node_steps; [done| |by vm_compute]. apply ids_left_list. by vm_compute.
Qed.

Lemma second_staged : rtc (prompt_step cfg0 drain0) (later node2 200, None) (node3, None).
Proof.
  unfold node3. destruct (nd_hot (later node2 200)) as [st closes|db] eqn:E; [|by vm_compute in E].
  apply steady_prompt; [by vm_compute|].
  apply (stage_node_steps _ st closes); [done| |by vm_compute].
  apply ids_left_list. change (en_db (st_engine st)) with (hot_db (HotUp st closes)). rewrite <-E. by vm_compute.
Qed.

Lemma node_run2 : rtc (prompt_step cfg0 drain0) (node2, None) (node5, None).
Proof.
  apply (rtc_l _ _ (later node2 200, None)); [apply later_step; by vm_compute|].
  etrans; [exact second_staged|].
  apply (rtc_l _ _ (later node3 300, None)); [apply later_step; by vm_compute|].
  apply (rtc_l _ _ (noted_node (later node3 300), None)).
  { destruct (nd_hot (later node3 300)) as [st closes|db] eqn:E; [|by vm_compute in E].
    split; [by apply (note_step _ st closes)|by vm_compute]. }
  apply (rtc_l _ _ (node4, None)); [apply later_step; by vm_compute|].
  apply (rtc_l _ _ (node4, Some (drain_once drain0, []))); [split; [|by vm_compute]|].
  { destruct (nd_hot node4) as [st closes|db] eqn:E; [|by vm_compute in E]. by apply (StepTick _ _ _ st closes). }
  apply steady_prompt; [by vm_compute|]. apply (pass_steps cfg0 drain0 node4). by vm_compute.
Qed.

Lemma no_staged_row_lost_witness :
  row_x ∈ window_rows node2 window_x ∧ window_rows node5 window_x = [] ∧ in_lake node5 window_x row_x.
Proof.
  assert (row_x ∈ window_rows node2 window_x) as Hx by (vm_compute; left).
  assert (window_rows node5 window_x = []) as Hgone by (vm_compute; reflexivity).
  split; [exact Hx|]. split; [exact Hgone|].
  destruct (no_staged_row_lost cfg0 drain0 node0 node2 node5 None None window_x row_x
              initial0 node_run1 Hx node_run2) as [Hin|Hl]; [|exact Hl].
  exfalso. rewrite Hgone in Hin. by apply elem_of_nil in Hin.
Defined.

(** ** A call that outlasts the hold

    A third call chooses the first window before the second one rolls it, and commits
    only between the two statements of the drop: its row is in neither place.  The run is
    the one above with that call in flight; it is not prompt. *)

Definition straggler : DecodedBatch := log_batch "z".

(** The straggler admitted, and its window chosen. *)
Definition placed_node : LNode :=
  match nd_hot node2 with
  | HotUp st closes =>
      let '(w, st') := current_window cfg0 st (lane straggler).1 (lane straggler).2 8 in
      set_front node2
        {| fr_hot := HotUp st' closes;
           fr_calls := [CallPlaced straggler (match decode_records "z" with Ok bs => bs | Err _ => [] end) w 100];
           fr_clock := 100 |}
  | HotDown _ => node2
  end.

Definition late3 : LNode := staged_node (later placed_node 200) 99 200 (log_batch "y").
Definition late4 : LNode := later (noted_node (later late3 300)) 400.

(** A pass on healthy ports, up to its drop. *)
Fixpoint to_drop {A} (s : LNode) (p : prog A) : LNode * prog A :=
  match p with
  | Ret _ | Do (DropWindow _ _ _ _) _ => (s, p)
  | Do c k => to_drop (healthy s c).2 (k (healthy s c).1)
  end.

Lemma to_drop_steps s (p : prog (DrainTickReport * bool)) :
  is_up s → rtc (steady_step cfg0 drain0) (s, Some (p, [])) ((to_drop s p).1, Some ((to_drop s p).2, [])).
Proof.
  revert s. induction p as [a|c k IH]; intros s Hup; [apply rtc_refl|].
  assert (rtc (steady_step cfg0 drain0) (s, Some (Do c k, []))
    ((to_drop (healthy s c).2 (k (healthy s c).1)).1, Some ((to_drop (healthy s c).2 (k (healthy s c).1)).2, []))) as Hgo.
  { etrans; [by apply healthy_steps|]. by apply IH, healthy_answers. }
  by destruct c; try exact Hgo; apply rtc_refl.
Qed.

Definition late5 : LNode * prog (DrainTickReport * bool) := to_drop late4 (drain_once drain0).

(** The straggler's transaction. *)
Definition late_commit (s : LNode) : LNode :=
  match nd_hot s, fr_calls (nd_front s) with
  | HotUp st closes, [CallPlaced batch batches w _] =>
      set_front s {| fr_hot := HotUp (stage_txn cfg0 st batch batches w 400).1.2 closes; fr_calls := [];
                     fr_clock := fr_clock (nd_front s) |}
  | _, _ => s
  end.

Definition late6 : LNode := late_commit late5.1.

(** The drop, its residue counted before that transaction. *)
Definition late_drop (before after : LNode) (p : prog (DrainTickReport * bool)) :
    LNode * prog (DrainTickReport * bool) :=
  match nd_hot before, nd_hot after, p with
  | HotUp st0 _, HotUp st closes, Do (DropWindow d p w covered) k =>
      let e := st_engine st0 in
      let '(r, e', closes') := drop_blocking e (st_engine st) closes (en_db e) d p w covered in
      (set_hot after (HotUp (with_engine st e') closes'), k r)
  | _, _, _ => (after, p)
  end.

Definition late7 : LNode * prog (DrainTickReport * bool) := late_drop late5.1 late6 late5.2.

Definition row_z : Row := {| r_origin := "n1"; r_seq := 3; r_payload := ("z", 5%Z) : Payload |}.

Lemma late_drop_steps before p d q w covered k :
  is_up before → (∃ batch batches v at_ms, fr_calls (nd_front before) = [CallPlaced batch batches v at_ms]) →
  p = Do (DropWindow d q w covered) k →
  let seen := match nd_hot before with HotUp st _ => repeat (st_engine st) 2 | HotDown _ => [] end in
  rtc (node_step cfg0 drain0) (before, Some (p, [])) (late_commit before, Some (p, seen)) ∧
  node_step cfg0 drain0 (late_commit before, Some (p, seen))
    ((late_drop before (late_commit before) p).1, Some ((late_drop before (late_commit before) p).2, [])).
Proof.
  intros Hup (batch & batches & v & at_ms & Ec) -> seen. subst seen. unfold is_up in Hup.
  unfold late_commit, late_drop. rewrite Ec. destruct (nd_hot before) as [st closes|] eqn:Eh; [|done]. split.
  - eapply rtc_l; [by eapply StepLook|]. eapply rtc_l; [by eapply StepLook|]. apply rtc_once, StepEnv.
    destruct (stage_txn cfg0 st batch batches v 400) as [[r st'] evs] eqn:E.
    by apply (EnvStage cfg0 (nd_front before) st closes [] batch batches v at_ms [] 400 r st' evs).
  - simpl. destruct (drop_blocking _ _ _ _ _ _ _ _) as [[r e'] closes'] eqn:E. cbn [fst snd].
    apply (StepCall cfg0 drain0 _ (DropWindow d q w covered) k). simpl. by exists (st_engine st), (st_engine st), e', closes'.
Qed.

Lemma steady_steps a b : rtc (steady_step cfg0 drain0) a b → rtc (node_step cfg0 drain0) a b.
Proof. intros Hs. induction Hs as [|a b c [? _] _ IH]; [apply rtc_refl|by eapply rtc_l]. Qed.

Lemma prompt_steps a b : rtc (prompt_step cfg0 drain0) a b → rtc (node_step cfg0 drain0) a b.
Proof. intros Hs. induction Hs as [|a b c [? _] _ IH]; [apply rtc_refl|by eapply rtc_l]. Qed.

Lemma straggler_placed : rtc (node_step cfg0 drain0) (node2, None) (placed_node, None).
Proof.
  unfold placed_node. destruct (nd_hot node2) as [st closes|db] eqn:Eh; [|by vm_compute in Eh].
  assert (admit_stage cfg0 (st_engine st) = Ok tt) as Ha.
  { change (st_engine st) with (st_engine (stager_of (HotUp st closes))). rewrite <-Eh. by vm_compute. }
  destruct (current_window cfg0 st (lane straggler).1 (lane straggler).2 8) as [w st'] eqn:Ew.
  eapply rtc_l; [by apply StepEnv, (EnvAdmit cfg0 (nd_front node2) st closes straggler)|].
  apply rtc_once. set (s1 := set_front node2 _).
  assert (fr_calls (nd_front s1) = [CallAdmitted straggler]) as Ec by by vm_compute.
  assert (fr_clock (nd_front s1) = 100%Z) as Et by by vm_compute.
  assert (ids_left (en_db (st_engine st))) as Hids.
  { apply ids_left_list. change (en_db (st_engine st)) with (hot_db (HotUp st closes)). rewrite <-Eh. by vm_compute. }
  assert (decode_records (bt_records straggler) = Ok [[("z", 5%Z)] : RecordBatch]) as Ed by by vm_compute.
  pose proof (EnvPlace cfg0 (nd_front s1) st closes [] straggler [] _ 8 w st' Eh Ec Hids Ed
                (Nat.neq_succ_0 0) Ew) as Hplace.
  rewrite Et in Hplace. exact (StepEnv cfg0 drain0 s1 _ None Hplace).
Qed.

Lemma late_staged : rtc (node_step cfg0 drain0) (later placed_node 200, None) (late3, None).
Proof.
  unfold late3. destruct (nd_hot (later placed_node 200)) as [st closes|db] eqn:E; [|by vm_compute in E].
  apply steady_steps, (stage_node_steps _ st closes); [done| |by vm_compute].
  apply ids_left_list. change (en_db (st_engine st)) with (hot_db (HotUp st closes)). rewrite <-E. by vm_compute.
Qed.

Lemma late_time s now t : (fr_clock (nd_front s) ≤ now)%Z → node_step cfg0 drain0 (s, t) (later s now, t).
Proof. intros Hle. by apply StepEnv, EnvTime. Qed.

Lemma late_coverage :
  m_origin_coverage <$> w_lake (nd_world late7.1) = [[{| origin := "n1"; first_seq := 1; last_seq := 1 |}]].
Proof. vm_compute. reflexivity. Qed.

(** Without promptness a staged row can be lost. *)
Lemma straggler_lost :
  ∃ t t', rtc (node_step cfg0 drain0) (node0, None) (late6, t) ∧ row_z ∈ window_rows late6 window_x ∧
    node_step cfg0 drain0 (late6, t) (late7.1, t') ∧
    row_z ∉ window_rows late7.1 window_x ∧ ¬ in_lake late7.1 window_x row_z.
Proof.
  destruct late5.2 as [|c k] eqn:Ep; [by vm_compute in Ep|].
  assert (∃ d q w covered k', late5.2 = Do (DropWindow d q w covered) k') as (d & q & w & covered & k' & Ed).
  { rewrite Ep. destruct c; try by vm_compute in Ep. by eexists _, _, _, _, _. }
  destruct (late_drop_steps late5.1 late5.2 d q w covered k') as [Hto Hdrop];
    [by vm_compute|by vm_compute; eauto|done|].
  eexists _, _. split_and!; [|by vm_compute; right; left|exact Hdrop| |].
  - etrans; [apply prompt_steps, node_run1|]. etrans; [apply straggler_placed|].
    eapply rtc_l; [apply (late_time placed_node 200); by vm_compute|]. etrans; [apply late_staged|].
    eapply rtc_l; [apply (late_time late3 300); by vm_compute|].
    apply (rtc_l _ _ (noted_node (later late3 300), None)).
    { destruct (nd_hot (later late3 300)) as [st closes|db] eqn:E; [|by vm_compute in E].
      by apply (note_step _ st closes). }
    apply (rtc_l _ _ (late4, None)); [apply late_time; by vm_compute|].
    apply (rtc_l _ _ (late4, Some (drain_once drain0, []))).
    { destruct (nd_hot late4) as [st closes|db] eqn:E; [|by vm_compute in E]. by apply (StepTick _ _ _ st closes). }
    etrans; [apply steady_steps, to_drop_steps; by vm_compute|]. exact Hto.
  - assert (window_rows late7.1 window_x = []) as -> by (vm_compute; reflexivity). by intros ?%elem_of_nil.
  - intros [(m & Hm & _ & _ & _ & _ & Hc) _]. apply (list_elem_of_fmap_2 m_origin_coverage) in Hm.
    rewrite late_coverage in Hm. apply list_elem_of_singleton in Hm. rewrite Hm in Hc.
    destruct Hc as (c' & ->%list_elem_of_singleton & _ & Hle). simpl in Hle. lia.
Qed.
