(* ===== verification/LakeWitness.v ===== *)
(** * Witnesses for the DuckLake claims

    A JSON codec on bit strings; the node of [PipelineWitness.v] over an empty
    catalog; and two committers that race the same window. *)

From stdpp Require Import relations.
From S2P Require Import Prelude RustStd Types Overload Ledger LedgerHistory Ports SharedLedger.
From S2P Require Import Naming Coordinator DrainSystem Engine Seal SealProps.
From S2P Require Import Stager HotStore Daemon Rolling Pipeline PipelineProps System Otlp.
From S2P Require Import Accept Ducklake DucklakeProps DucklakeRace Conformance Hrw Routing Wiring Serving.
From S2P Require Import WiringProps BTree StagingWitness.

#[local] Existing Instance keyed_rows.
#[local] Existing Instance sound_db.
#[local] Existing Instance row_streams.
#[local] Existing Instance plain_seal.
#[local] Existing Instance name_store.
#[local] Existing Instance bit_parquet.

Definition range_code (r : OriginSeqRange) : string * N * N := (origin r, first_seq r, last_seq r).
Definition range_decode (c : string * N * N) : OriginSeqRange :=
  {| origin := c.1.1; first_seq := c.1.2; last_seq := c.2 |}.

#[local] Instance bit_lake : LakeLibs := {|
  ranges_to_json ranges := Ok (bits (encode (range_code <$> ranges)));
  ranges_of_json text :=
    match unbits text ≫= decode with Some l => Ok (range_decode <$> l) | None => Err "not ranges" end;
  order_manifests rows := rows;
|}.

#[local] Instance bit_lake_laws : LakeLibsLaws.
Proof.
  split; [|done]. intros ranges text [= <-]. simpl. rewrite unbits_bits. simpl. rewrite decode_encode.
  f_equal. rewrite <-list_fmap_compose. rewrite <-(list_fmap_id ranges) at 2.
  apply list_fmap_ext. intros i r _. by destruct r.
Qed.

Definition pg_config : DuckLakeConfig :=
  {| catalog_uri := "postgres:dbname=lake"; data_path := "s3://lake"; multi_process := true;
     has_s3 := false |}.

Definition lake_manifest : WindowManifest :=
  {| m_dataset := "otlp_logs"; m_partition := "t.0"; m_window_id := 0;
     m_origin_coverage := [{| origin := "n1"; first_seq := 1; last_seq := 2 |}]; m_rows := 2;
     m_event_time_min_ms := 5; m_event_time_max_ms := 9; m_dedup_removed := 0; m_parts := ["part0"] |}.

Definition lake_row : WatermarkRow := {| wr_partition := "t.0"; wr_complete_through_ms := 9 |}.

Lemma lake_manifest_drains : drain_manifest lake_manifest.
Proof. split; [by exists "part0"|]. split; vm_compute; discriminate. Qed.

(** No statement fails. *)
Definition calm : Stmt → option string := λ _, None.
(** The connection is lost at [COMMIT]. *)
Definition reset : Stmt → option string :=
  λ s, match s with StCommit => Some "connection reset by peer" | _ => None end.

Lemma empty_represents config : represents config empty_catalog [] ∅.
Proof. split; try done; [|constructor]. intros m Hm. by apply elem_of_nil in Hm. Qed.

Lemma ducklake_implements_port_witness :
  lake_of pg_config empty_catalog node0 ∧
  fst (commit_files_blocking pg_config reset true empty_catalog lake_manifest [lake_row])
    = Ok Indeterminate ∧
  ∃ s', node_answers node0 [] (CommitFiles lake_manifest [lake_row]) (Ok Indeterminate) s' ∧
    lake_of pg_config
      (snd (commit_files_blocking pg_config reset true empty_catalog lake_manifest [lake_row])) s'.
Proof.
  assert (lake_of pg_config empty_catalog node0) as Hl by exact (empty_represents pg_config).
  split; [exact Hl|]. split; [vm_compute; reflexivity|].
  assert (answer_lost pg_config reset) as Hlost.
  { split; [vm_compute; reflexivity|]. intros msg [= <-]. vm_compute. reflexivity. }
  exact (proj1 (ducklake_implements_port pg_config empty_catalog node0 reset true lake_manifest
           [lake_row] [] Hl lake_manifest_drains (λ _, Hlost))).
Defined.

Definition committed_catalog : Catalog :=
  snd (commit_files_blocking pg_config calm false empty_catalog lake_manifest [lake_row]).

Lemma committed_represents :
  represents pg_config committed_catalog [lake_manifest] {[ "t.0" := 9%Z ]}.
Proof.
  destruct (commit_spec pg_config calm false empty_catalog [] ∅ lake_manifest [lake_row]
              (empty_represents pg_config) lake_manifest_drains ltac:(discriminate))
    as [[(m & Hm & _) _]|[_ Hre]]; [by apply elem_of_nil in Hm|exact Hre].
Qed.

Lemma read_manifests_roundtrip_witness :
  represents pg_config committed_catalog [lake_manifest] {[ "t.0" := 9%Z ]} ∧
  ∃ ms, read_manifests calm committed_catalog = Ok ms ∧ ms ≡ₚ [lake_manifest].
Proof.
  split; [exact committed_represents|].
  apply (read_manifests_roundtrip pg_config committed_catalog [lake_manifest] {[ "t.0" := 9%Z ]} calm
           committed_represents).
  apply NoDup_singleton.
Defined.

(** ** A race *)

Definition racer (ph : Phase) : Attempt :=
  {| at_manifest := lake_manifest; at_watermarks := [lake_row]; at_phase := ph |}.

Definition fenced : Catalog := ensure_fence empty_catalog "t.0".
Definition staged_writes : list Write :=
  match stage_commit_writes calm pg_config fenced lake_manifest [lake_row] with
  | Ok (Wrote writes) => writes
  | _ => []
  end.
Definition pending : Phase := Pending fenced (λ _, O) staged_writes.

(** Both committers staged on the same snapshot; the first landed, the second was
    told of the conflict. *)
Definition raced : Race :=
  {| rc_catalog := apply_writes fenced staged_writes;
     rc_fence_writes := bump fenced staged_writes (λ _, O);
     rc_attempts := [racer (Answered (Ok Committed)); racer (Answered (Ok Aborted))] |}.

Lemma raced_reachable : race_reachable pg_config raced.
Proof.
  assert (NoDup (m_parts lake_manifest)) as Hnd by apply NoDup_singleton.
  eapply race_next; [eapply race_next; [eapply race_next; [eapply race_next; [eapply race_next;
    [eapply race_next; [eapply race_next; [eapply race_next; [apply race_start|]|]|]|]|]|]|]|].
  - by apply (RaceArrive pg_config _ _ [] lake_manifest [lake_row]).
  - by apply (RaceArrive pg_config _ _ _ lake_manifest [lake_row]).
  - by apply (RaceEnsure pg_config _ _ [] [racer Arrived] (racer Arrived)).
  - by apply (RaceEnsure pg_config _ _ [racer Ensured] [] (racer Arrived)).
  - by apply (RaceStage pg_config fenced _ [] [racer Ensured] (racer Ensured) calm).
  - by apply (RaceStage pg_config fenced _ [racer pending] [] (racer Ensured) calm).
  - apply (RaceCommit pg_config fenced (λ _, O) [] [racer pending] (racer pending) fenced (λ _, O)
             staged_writes); done.
  - apply (RaceCommitFailed pg_config _ _ [racer (Answered (Ok Committed))] [] (racer pending) fenced
             (λ _, O) staged_writes "Transaction conflict"); done.
Qed.

Lemma single_drain_commit_witness :
  race_reachable pg_config raced ∧
  keys (rc_catalog raced) = [("t.0", 0%Z, "part0")] ∧ NoDup (keys (rc_catalog raced)).
Proof.
  split; [exact raced_reachable|]. split; [vm_compute; reflexivity|].
  exact (proj1 (single_drain_commit pg_config raced raced_reachable)).
Defined.

(** * Witnesses for the claims about the composition

    Two nodes that name each other; and the node of [PipelineWitness.v], crashed
    after its drain and booted again over the catalog it committed to. *)

#[local] Existing Instance keyed_rows.
#[local] Existing Instance sound_db.
#[local] Existing Instance row_streams.
#[local] Existing Instance plain_seal.
#[local] Existing Instance plain_seal_laws.
#[local] Existing Instance name_store.
#[local] Existing Instance name_paths.
#[local] Existing Instance bit_parquet.
#[local] Existing Instance bit_parquet_laws.
#[local] Existing Instance bit_lake.
#[local] Existing Instance bit_lake_laws.

Definition config_of (peers : list string) : DaemonConfig :=
  {| dc_node := {| nc_data_dir := "/hot"; nc_otlp_listen := defaults.otlp_listen;
                   nc_flight_listen := defaults.flight_listen; nc_peer_listen := defaults.peer_listen;
                   nc_advertise_addr := None; nc_failure_domain := None |};
     dc_cluster := {| cc_rf := defaults.rf; cc_zone_aware := Auto; cc_seed_peers := peers |};
     dc_catalog := {| ca_dsn := "sqlite:catalog"; ca_password_file := "/secret" |};
     dc_tls := {| tc_mode := Disabled; tc_cert := ""; tc_key := ""; tc_ca := "" |};
     dc_lake := {| lk_committer := defaults.lake_committer; lk_uri := "/lake"; lk_s3_endpoint := None;
                   lk_s3_region := defaults.lake_s3_region; lk_s3_access_key_id := None;
                   lk_s3_secret_access_key_file := None |};
     dc_hot := {| hc_window := defaults.hot_window; hc_max_bytes := Some 1000000%N |};
     dc_drain := System.DrainConfig_default;
     dc_replication := ReplicationConfig_default;
     dc_admission := {| ad_max_inflight_bytes := Some 1000%N |};
     dc_dedup := DedupConfig_default;
     dc_query := QueryConfig_default;
     dc_max_payload_bytes := defaults.max_payload_bytes;
     dc_max_auto_columns := defaults.max_auto_columns |}.

(** ** Two nodes *)

Lemma names_ab : names_hosts (config_of ["b:7946"]) "a" ["a"; "b"].
Proof.
  intros h. rewrite !elem_of_cons, elem_of_nil. split.
  - intros [->|[->|[]]]; [by left|]. right. exists "b:7946". split; [by left|done].
  - intros [->|(raw & Hr & <-)]; [by left|]. simpl in Hr.
    apply list_elem_of_singleton in Hr as ->. right. by left.
Qed.

Lemma names_ba : names_hosts (config_of ["[a]:7946"]) "b" ["a"; "b"].
Proof.
  intros h. rewrite !elem_of_cons, elem_of_nil. split.
  - intros [->|[->|[]]]; [|by left]. right. exists "[a]:7946". split; [by left|done].
  - intros [->|(raw & Hr & <-)]; [right; by left|]. simpl in Hr.
    apply list_elem_of_singleton in Hr as ->. by left.
Qed.

Lemma ring_agreement_witness :
  names_hosts (config_of ["b:7946"]) "a" ["a"; "b"] ∧
  ∃ plan plan',
    route_write "t.0" "a/1" (build_membership_view (config_of ["b:7946"]) "a/1") 2 = Some plan ∧
    route_write "t.0" "b/1" (build_membership_view (config_of ["[a]:7946"]) "b/1") 2 = Some plan' ∧
    rp_owner plan = rp_owner plan'.
Proof.
  split; [exact names_ab|].
  destruct (ring_agreement (config_of ["b:7946"]) (config_of ["[a]:7946"]) "a" "b" ["a"; "b"] "t.0" 2
              names_ab names_ba) as (plan & plan' & H1 & H2 & H3 & _).
  exists plan, plan'. split; [exact H1|]. split; [exact H2|exact H3].
Defined.

(** ** A boot after a crash *)

Definition quiet_world : BootWorld :=
  {| bw_env key := if decide (key = DUCKSPOUT_NODE_HOSTNAME_OVERRIDE) then Some "n1" else None;
     bw_fs path := Err (System.Unavailable path);
     bw_create_hot := Ok tt; bw_engine_mkdir := Ok tt; bw_engine_fsync := Ok tt;
     bw_total_space := Ok 0%N; bw_open_step _ := None; bw_faults := calm;
     bw_parts_mkdir := Ok tt; bw_parts_built := Ok tt; bw_create_scratch := Ok tt;
     bw_reader := Ok tt; bw_bind _ port := Ok port |}.

Definition lake_config : DuckLakeConfig :=
  {| catalog_uri := "sqlite:catalog"; data_path := "/lake"; multi_process := false; has_s3 := false |}.

Definition table_catalog : Catalog := (ensure_otlp_logs_table calm empty_catalog).2.

Definition drained : WindowManifest := hd lake_manifest (w_lake (nd_world node5)).
Definition drained_row : WatermarkRow :=
  {| wr_partition := "t.0"; wr_complete_through_ms := default 0%Z (w_rows (nd_world node5) !! "t.0") |}.
Definition drained_catalog : Catalog :=
  snd (commit_files_blocking lake_config calm false table_catalog drained [drained_row]).

Definition crashed : LNode := set_down node5 (hot_db (nd_hot node5)).

Lemma crashed_lake : lake_of lake_config drained_catalog crashed.
Proof.
  assert (represents lake_config table_catalog [] ∅) as Ht.
  { split; try done; [|constructor]. intros m Hm. by apply elem_of_nil in Hm. }
  assert (drain_manifest drained) as Hd.
  { split; [vm_compute; eauto|]. split; vm_compute; discriminate. }
  pose proof (commit_spec lake_config calm false table_catalog [] ∅ drained [drained_row] Ht Hd) as Hc.
  assert (commit_files_blocking lake_config calm false table_catalog drained [drained_row]
          = (Ok Committed, drained_catalog)) as Eq by (vm_compute; reflexivity).
  rewrite Eq in Hc. specialize (Hc (λ H, match diff_false_true H with end)).
  clear Eq. destruct Hc as [[(m & Hm & _) _]|[_ Hre]]; [destruct (not_elem_of_nil m Hm)|].
  assert (w_lake (nd_world crashed) = [drained] ∧ w_rows (nd_world crashed) = store_rows ∅ [drained_row])
    as [El Er] by (vm_compute; by split).
  unfold lake_of. rewrite El, Er. exact Hre.
Qed.

Lemma crashed_reached : rtc (prompt_step cfg0 drain0) (node0, None) (crashed, None).
Proof.
  etrans; [apply node_run1|]. etrans; [apply node_run2|]. apply rtc_once.
  split; [|done]. unfold crashed. destruct (nd_hot node5) as [st closes|db] eqn:E; [|by vm_compute in E].
  by apply (StepCrash cfg0 drain0 node5 None st closes).
Qed.

Definition rebooted : result Daemon BootError * Db * Catalog :=
  boot quiet_world (config_of []) 9095 (hot_db (nd_hot node5)) drained_catalog.

Lemma boot_recovers_witness :
  is_ok rebooted.1.1 = true ∧ not_refused rebooted.1.1 ∧ lake_of lake_config rebooted.2 crashed.
Proof.
  split; [vm_compute; reflexivity|].
  destruct (boot_recovers cfg0 drain0 node0 crashed lake_config quiet_world (config_of []) 9095
              (hot_db (nd_hot node5)) rebooted.1.2 drained_catalog rebooted.2 rebooted.1.1
              initial0 crashed_reached eq_refl crashed_lake) as (H1 & H2 & _).
  - unfold rebooted. destruct (boot _ _ _ _ _) as [[r d] c]. reflexivity.
  - split; [exact H1|exact H2].
Defined.

(** ** Scans *)

Definition small_serving : ServingConfig :=
  {| max_hot_bytes_per_query := 1000; hot_scan_deadline_ms := 5; max_concurrent_hot_scans := 2;
     sc_hot_max_bytes := 1000 |}.

Definition two_handlers : Flight :=
  Nat.iter 4 poll (arrive small_serving (Nat.iter 4 poll (arrive small_serving (flight_new small_serving)))).

Lemma two_handlers_reached : rtc (serve_step small_serving) (flight_new small_serving) two_handlers.
Proof.
  etrans; [|apply polls_steps]. eapply rtc_r; [|apply (ServeArrive small_serving _ (DoGet "SELECT 1"))].
  etrans; [|apply polls_steps]. apply rtc_once, (ServeArrive small_serving _ (DoGet "SELECT 1")).
Qed.

(** The first handler is cancelled, ends and leaves. *)
Definition one_leaves (s : Flight) : Flight :=
  with_handlers (Nat.iter 2 poll s) (tail (fl_handlers (Nat.iter 2 poll s))).

Lemma one_leaves_steps s h rest :
  fl_handlers (Nat.iter 2 poll s) = Done h :: rest → rtc (serve_step small_serving) s (one_leaves s).
Proof.
  intros E. etrans; [apply (polls_steps _ 2)|]. apply rtc_once. unfold one_leaves. rewrite E.
  by apply (ServeRespond small_serving _ [] h rest).
Qed.

(** Both handlers gone. *)
Definition all_gone : Flight := one_leaves (one_leaves two_handlers).

Lemma all_gone_reached : rtc (serve_step small_serving) (flight_new small_serving) all_gone.
Proof.
  etrans; [apply two_handlers_reached|]. etrans; [by eapply one_leaves_steps|by eapply one_leaves_steps].
Qed.

Lemma scan_permits_bounded_witness :
  awaited two_handlers = 2%nat ∧ fl_permits two_handlers = 0%nat ∧
  fl_running two_handlers = (awaited two_handlers + fl_orphans two_handlers)%nat ∧
  fl_handlers all_gone = [] ∧ fl_permits all_gone = 2%nat.
Proof.
  split; [vm_compute; reflexivity|]. split; [vm_compute; reflexivity|].
  destruct (scan_permits_bounded small_serving two_handlers two_handlers_reached) as (_ & _ & H3 & _).
  split; [exact H3|]. split; [vm_compute; reflexivity|].
  destruct (scan_permits_bounded small_serving all_gone all_gone_reached) as (_ & _ & _ & _ & H5).
  apply H5. vm_compute. constructor.
Defined.

Definition served_batch : RecordBatch := [("x", 5%Z)].

(** One batch, a nanosecond after the start. *)
Definition served_world : ScanWorld :=
  {| sw_query := λ _, Ok ("schema", [served_batch]); sw_started := 7; sw_clock := λ _, 8%N;
     sw_staged := 0 |}.

Lemma served_run :
  runs_with served_world None (do_get small_serving "SELECT 1") (Some (Ok ("schema", [served_batch]))).
Proof.
  exists true. split; [done|]. exists 0%N. split; [done|]. exists (Some 0%nat). split; [done|].
  exists tt. split; [done|]. exists (Some (Some (Ok ("schema", [served_batch])))). split.
  - intros out [= <-]. do 2 eexists. split; [done|]. vm_compute. reflexivity.
  - exists false. split; [done|]. exists tt. split; [done|]. exists tt. by split.
Qed.

Lemma scan_answered_whole_witness :
  runs_with served_world None (do_get small_serving "SELECT 1") (Some (Ok ("schema", [served_batch]))) ∧
  within small_serving served_world [served_batch].
Proof.
  split; [exact served_run|].
  destruct (scan_answered_whole small_serving served_world "SELECT 1" _ served_run) as (_ & Hw).
  exact Hw.
Defined.

(** * A witness for the conformance suite

    A harness that counts the parts it makes, over a catalog that holds another
    partition's watermark. *)

#[local] Instance counting : PartMaterializer nat := λ made part, (Ok tt, S made).

Definition used_catalog : Catalog :=
  {| cat_watermarks := [("acme", 77%Z)]; cat_manifests := []; cat_fence := [("acme", 0%Z)];
     cat_files := []; cat_hidden := []; cat_tables := ∅ |}.

Lemma unused p : p ≠ "acme" → unknown used_catalog p.
Proof.
  intros Hp. split; [|intros row ?%not_elem_of_nil; done]. simpl. intros [?|?%not_elem_of_nil]%elem_of_cons; done.
Qed.

Lemma ducklake_conforms_witness :
  (∃ s', run (H := ducklake_committer pg_config) (used_catalog, 0%nat) =
     (Ok ["evolve_idempotent"; "commit_advances_watermark"; "re_registration_short_circuits";
          "watermark_monotone"; "commit_without_watermark_row"; "expire_keeps_fence";
          "unknown_partition_has_no_row"; "attach_info_answers"], s')) ∧
  ∃ s', racing_drains (H := ducklake_committer pg_config) (in_turn pg_config) "conf.race" (used_catalog, 0%nat) = (Ok tt, s').
Proof.
  assert (∀ ranges, ∃ text, ranges_to_json ranges = Ok text) as Hencodes by (intros ranges; eexists; reflexivity).
  assert (∀ (h : nat) part, (materialize h part).1 = Ok tt) as Hmade by reflexivity.
  destruct (ducklake_conforms pg_config Hencodes Hmade used_catalog 0%nat) as [Hr Hd].
  split.
  - apply Hr; [by apply unused|]. intros [?|?%not_elem_of_nil]%elem_of_cons; done.
  - apply Hd; [by apply unused|]. apply in_turn_raced.
Defined.
