(* ===== verification/AcceptWitness.v ===== *)
(** * Witnesses for the accept claims

    Concrete libraries (a stream carries the event times of its rows, in the
    bit-string codec) and a service with two requests in flight. *)

From Stdlib Require Import SpecFloat.
From Stdlib Require Import Ascii SpecFloat.
From S2P Require Import Prelude RustStd Types Overload Ports Naming Engine EngineProps Seal.
From S2P Require Import Stager StagerProps HotStore Daemon Otlp Accept BTree Evidence.
From S2P Require Import Journal FinalState ZeroAckedLost RunSummary Loadgen LoadgenProps.

#[local] Instance time_rows : Arrow := {|
  RecordBatch := list Z;
  Payload := Z;
  arrow_error := unit;
  rb_schema _ := [];
  rb_rows b := b;
  rb_column_sizes b := [Ok (8 * N.of_nat (length b))%N];
  rb_try_new _ := Ok tt;
|}.

#[local] Instance calm_db : DuckDb := {|
  fault _ _ := None;
  oldest m n := take (N.to_nat n) (map_to_list m).*1;
|}.

#[local] Instance time_streams : StagerLibs := {|
  stream_reader b :=
    match unbits b ≫= decode with Some l => Ok [Ok l] | None => Err "not a stream" end;
  sha256 b := b;
  coverage_to_json _ := Ok "[]";
  coverage_of_json _ := Ok [];
  staging_error_text _ := "";
|}.

#[local] Instance time_seal : SealLibs := {|
  Key := string;
  row_key _ x := "";
  event_ms _ x := Some x;
  order_rows _ l := l;
  duckdb_text _ := "";
  staging_text _ := "";
|}.

#[local] Instance time_otlp : OtlpLibs := {|
  json_to_string j := match j with JObject m => if decide (m = ∅) then "{}" else "{..}" | _ => "?" end;
  ipc_stream _ columns := Ok (bits (encode (lc_ts columns)));
  proto_decode _ := Err "no wire";
  encoded_len request := N.of_nat (length request);
|}.

#[local] Instance time_roundtrip : IpcRoundtrip.
Proof.
  refine {| row_payload := row_ts |}. intros rows bytes [= <-]. exists (row_ts <$> rows).
  split; [|done]. simpl. rewrite unbits_bits. simpl. by rewrite decode_encode.
Defined.

(** ** A request *)

Definition record_at (nanos : N) (attributes : list KeyValue) : LogRecord :=
  {| lr_time_unix_nano := nanos; lr_observed_time_unix_nano := 7000; lr_severity_number := 9;
     lr_severity_text := ""; lr_body := Some (MkAnyValue (Some (StringValue "hello")));
     lr_attributes := attributes; lr_dropped_attributes_count := 0; lr_flags := 0;
     lr_trace_id := ""; lr_span_id := ""; lr_event_name := "" |}.

(** An array that holds one interning reference, under a key of its own. *)
Definition nested : KeyValue :=
  MkKeyValue "k" (Some (MkAnyValue (Some (ArrayValue
    [MkAnyValue (Some (StringValueStrindex 3)); MkAnyValue (Some (IntValue 1))])))) 0.

Definition message : ExportLogsServiceRequest :=
  [{| rl_resource := Some [MkKeyValue "host" None 0];
      rl_scope_logs :=
        [{| sl_scope := None; sl_log_records := [record_at 5000 [nested]; record_at 0 []] |}] |}].

Definition headers (key : string) : option (option string) :=
  if decide (key = TENANT_METADATA_KEY) then Some (Some "acme") else None.

Definition request0 : Request := {| rq_metadata := headers; rq_message := message |}.

Lemma message_typed : request_typed message.
Proof.
  unfold request_typed, message. repeat constructor; unfold is_u64, u64_max; simpl; lia.
Qed.

Lemma decode_flattens_witness :
  row_ts <$> request_rows message = [5; 7]%Z ∧ request_refs message = 1%N ∧
  ∃ d, decode_logs message (Some "acme") None = Ok d ∧ dl_rows d = 2%nat ∧
    dl_strindex_ignored d = 1%N.
Proof.
  split; [vm_compute; reflexivity|]. split; [vm_compute; reflexivity|].
  destruct (decode_flattens message (Some "acme") None message_typed) as [Hok _].
  eexists. split; [apply Hok; eexists _, _; repeat split; vm_compute; reflexivity|].
  split; vm_compute; reflexivity.
Defined.

(** ** An acknowledged export *)

Definition cfg1 : StagerConfig :=
  {| window_nanos := 60; dedup_ttl_ms := 1000; dedup_max_entries := 10; hot_max_bytes := 1000 |}.

Definition caps : AdmissionConfig := {| max_payload_bytes := 10; max_inflight_bytes := 30 |}.

Definition opened : list hot_op := [OpOpen (Ok tt) (Ok tt) "n1"].

Definition stager1 : Stager :=
  match hot_run cfg1 hot_empty opened with
  | HotUp st _ => st
  | HotDown db => stager_new {| en_db := db; en_origin := ""; en_applied := ∅; en_windows := ∅;
                                en_window_hw := ∅; en_staged_bytes := 0 |}
  end.

Lemma opened_up : hot_run cfg1 hot_empty opened = HotUp stager1 ∅.
Proof. vm_compute. reflexivity. Qed.

Definition acked : Response :=
  {| rs_partial_success := Some {| ps_rejected_log_records := 0; ps_warned := 1 |} |}.

Definition port1 (batch : DecodedBatch) : option (result StageOutcome StageError) :=
  Some (fst (fst (stage_blocking cfg1 stager1 7 100 batch))).

Lemma export_ack_durable_witness :
  hot_run cfg1 hot_empty opened = HotUp stager1 ∅ ∧
  snd (run_prog 0 port1 (export caps true request0)) = Some (Ok acked) ∧
  ∃ batch outcome st' evs, stage_blocking cfg1 stager1 7 100 batch = (Ok outcome, st', evs) ∧
    bt_dataset batch = OTLP_LOGS_DATASET.
Proof.
  split; [exact opened_up|].
  assert (snd (run_prog 0 port1 (export caps true request0)) = Some (Ok acked)) as Hrun
    by (vm_compute; reflexivity).
  split; [exact Hrun|].
  destruct (export_ack_durable cfg1 opened stager1 ∅ 7 100 caps true 0 request0 acked opened_up
              message_typed ltac:(vm_compute; discriminate) Hrun)
    as (header & batch & outcome & st' & evs & _ & _ & Hd & Hs & _).
  exists batch, outcome, st', evs. split; [exact Hs|exact Hd].
Defined.

(** ** Two requests in flight

    The second is turned away: both batches together exceed the cap, although
    its own increment is visible to the others until it is taken back. *)

Definition thread_of (p : prog (option (result Response Status))) : Thread :=
  {| th_bytes := request_bytes caps request0; th_prog := p |}.

(** The program after its next call is answered [r]. *)
Definition next_prog {A} (p : prog A) (r : ∀ c, answer c) : prog A :=
  match p with Ret a => Ret a | Do c k => k (r c) end.

Definition counter_at (n : N) (c : call) : answer c :=
  match c with
  | FetchAdd _ => n
  | FetchSub _ | TraceRecord _ => tt
  | StageCommit _ => None
  end.

(** The pool with these requests in progress, nothing left behind. *)
Definition busy (counter : N) (threads : list Thread) : Pool :=
  {| pl_counter := counter; pl_threads := threads; pl_orphans := []; pl_cancelled := 0 |}.

Lemma pool_call s counter' before after p (r : ∀ c, answer c) :
  pl_threads s = before ++ thread_of p :: after →
  match p with Ret _ => False | Do c _ => counter_step (pl_counter s) c (r c) counter' end →
  let left := match p with Ret _ => [] | Do c _ => left_behind c (r c) end in
  pool_step caps true s
    {| pl_counter := counter'; pl_threads := before ++ thread_of (next_prog p r) :: after;
       pl_orphans := left ++ pl_orphans s; pl_cancelled := length left + pl_cancelled s |}.
Proof. destruct p as [|c k]; [done|]. intros Hth Hr.
  exact (StepCall caps true s counter' before after _ c k (r c) Hth Hr).
Qed.

Definition start : prog (option (result Response Status)) := export caps true request0.
Definition first_in := next_prog start (counter_at 0).
Definition second_out := next_prog start (counter_at (request_bytes caps request0)).

Definition crowded : Pool :=
  busy (2 * request_bytes caps request0) [thread_of first_in; thread_of second_out].

Lemma two_arrived : pool_reachable caps true (busy 0 [thread_of start; thread_of start]).
Proof.
  eapply pool_next; [eapply pool_next; [apply pool_idle|]|].
  - apply (StepArrive caps true pool_new request0). vm_compute. discriminate.
  - apply (StepArrive caps true (busy 0 [thread_of start]) request0). vm_compute. discriminate.
Qed.

Lemma crowded_reachable : pool_reachable caps true crowded.
Proof.
  set (b := request_bytes caps request0).
  eapply pool_next; [eapply pool_next; [exact two_arrived|]|].
  - apply (pool_call (busy 0 [thread_of start; thread_of start]) b [] [thread_of start] start
             (counter_at 0)); [done|split; reflexivity].
  - apply (pool_call (busy b [thread_of first_in; thread_of start]) (2 * b) [thread_of first_in] []
             start (counter_at b)); [done|split; reflexivity].
Qed.

(** The first request dropped at the port, its bytes given back while its task stages on,
    and the second one let in. *)
Definition dropped := next_prog first_in (counter_at 0).

Definition overrun : Pool :=
  {| pl_counter := request_bytes caps request0;
     pl_threads := [thread_of (next_prog dropped (counter_at 0)); thread_of first_in];
     pl_orphans := match first_in with Do c _ => left_behind c (counter_at 0 c) | Ret _ => [] end;
     pl_cancelled := 1 |}.

(** With a request dropped at the port, what is being staged can exceed the cap. *)
Lemma overrun_reachable :
  pool_reachable caps true overrun ∧
  (max_inflight_bytes caps <
   sum_N (staging_bytes <$> pl_threads overrun) + sum_N (batch_bytes <$> pl_orphans overrun))%N.
Proof.
  split; [|vm_compute; reflexivity]. set (b := request_bytes caps request0).
  eapply pool_next; [eapply pool_next; [eapply pool_next; [eapply pool_next;
    [exact two_arrived|]|]|]|].
  - apply (pool_call (busy 0 [thread_of start; thread_of start]) b [] [thread_of start] start
             (counter_at 0)); [done|split; reflexivity].
  - apply (pool_call (busy b [thread_of first_in; thread_of start]) b [] [thread_of start] first_in
             (counter_at 0)); [done|reflexivity].
  - apply (pool_call {| pl_counter := b; pl_threads := [thread_of dropped; thread_of start];
                        pl_orphans := pl_orphans overrun; pl_cancelled := 1 |}
             0 [] [thread_of start] dropped (counter_at 0)); [done|reflexivity].
  - apply (pool_call {| pl_counter := 0;
                        pl_threads := [thread_of (next_prog dropped (counter_at 0)); thread_of start];
                        pl_orphans := pl_orphans overrun; pl_cancelled := 1 |}
             b [thread_of (next_prog dropped (counter_at 0))] [] start (counter_at 0));
      [done|split; reflexivity].
Qed.

Lemma inflight_bounded_witness :
  pool_reachable caps true crowded ∧
  sum_N (staging_bytes <$> pl_threads crowded) = request_bytes caps request0 ∧
  (max_inflight_bytes caps < pl_counter crowded)%N ∧
  (sum_N (staging_bytes <$> pl_threads crowded) ≤ max_inflight_bytes caps)%N.
Proof.
  split; [exact crowded_reachable|]. split; [vm_compute; reflexivity|].
  split; [vm_compute; reflexivity|].
  exact (proj1 (inflight_bounded caps true crowded crowded_reachable)).
Defined.

(** * Witnesses for the load generator's claims

    A run of two requests against concrete libraries: a line of the journal is the
    bit string of its fields. *)

(** ** The text of a line *)

Definition events : list TraceEvent :=
  [EvAccept; EvDedupCheck; EvStageCommit; EvClientAck; EvThrottle; EvRefuse; EvForward;
   EvPeerApply; EvReceipt; EvSealPart; EvPutPart; EvLakeCommitOk; EvLakeCommitAbort;
   EvLakeCommitIndeterminate; EvReconcile; EvExpire; EvDemote; EvEvict; EvDropWindow;
   EvSnapshotSeal; EvClaimAdvertise; EvHeartbeat; EvFenceBoot; EvDegradedBoot;
   EvTakeoverDrain; EvDeclareLoss; EvEvolveSchema; EvClientTimeout].

Definition event_code (event : TraceEvent) : nat :=
  from_option fst 0 (list_find (λ e, e = event) events).

Lemma event_code_lookup event : events !! event_code event = Some event.
Proof. by destruct event. Qed.

Definition fields (line : LoadLine) : string * N * nat * (string * string * N * N * string) :=
  let i := ll_identity line in
  (ll_node line, ll_seq line, event_code (ll_event line),
   (li_request_id i, li_tenant i, li_record_count i, li_first_index i, li_source_incarnation i)).

Definition unfields (f : string * N * nat * (string * string * N * N * string)) : option LoadLine :=
  let '(node, seq, code, (id, tenant, count, first, incarnation)) := f in
  (λ event, {| ll_node := node; ll_seq := seq; ll_event := event;
               ll_identity := {| li_request_id := id; li_tenant := tenant; li_record_count := count;
                                 li_first_index := first; li_source_incarnation := incarnation |} |})
    <$> events !! code.

Lemma unfields_fields line : unfields (fields line) = Some line.
Proof. unfold unfields, fields. rewrite event_code_lookup. by destruct line as [??? []]. Qed.

#[local] Instance bit_lines : LoadgenSerde := λ line, bits (encode (fields line)).

Definition line_of_text (text : string) : option LoadLine :=
  match unbits text with Some p => decode p ≫= unfields | None => None end.

Lemma line_of_text_line line : line_of_text (line_to_string line) = Some line.
Proof.
  unfold line_of_text, line_to_string, bit_lines. rewrite unbits_bits. simpl.
  rewrite decode_encode. apply unfields_fields.
Qed.

#[local] Instance bit_serde : Serde := {|
  Value := LoadLine;
  map_access raw := (["node"; "seq"; "event"] ++ identity_keys, None);
  contains_key _ key := bool_decide (key ∈ identity_keys);
  value_from_str _ := Err "";
  envelope_from_str raw :=
    match line_of_text raw with
    | Some line => Ok {| env_node := ll_node line; env_seq := ll_seq line;
                         env_event := ll_event line; env_rest := line |}
    | None => Err "not a line"
    end;
  identity_from_value line := Ok (judge_identity (ll_identity line));
  watermark_from_value _ := Err "";
  changelog_from_value _ := Err "";
  part_from_value _ := Err "";
  read_record_from_str _ := Err "";
  probe_from_value _ := Err "";
  fault_line_from_str _ := Err "";
  manifest_from_str _ := Err "";
  summary_from_str _ := Err "";
  final_state_from_str _ := Err "";
  latest_view_from_str _ := Err "";
  committed_parts_from_str _ := Err "";
|}.

Lemma bits_free c p : c ≠ "0"%char → c ≠ "1"%char → free_of c (bits p) = true.
Proof.
  intros H0 H1. induction p as [p IH|p IH|]; simpl; rewrite bool_decide_false by done; simpl; done.
Qed.

#[local] Instance bit_laws : LoadgenLaws.
Proof.
  refine {| rest_of := λ line, line |}.
  - intros line. split; by apply bits_free.
  - done.
  - intros line _. simpl. by rewrite line_of_text_line.
  - done.
  - done.
Defined.

(** ** A run: one request acked, one whose journal write fails *)

Definition cli0 : Cli :=
  {| cli_node_id := "loadgen-0"; cli_tenant := "acme"; cli_batch_size := 2; cli_concurrency := 2;
     cli_requests := Some 2%N; cli_duration_secs := None |}.

Definition ascii_ok (s : string) : bool := true.

Definition acked_race : RaceOutcome := Settled (Ok {| rs_partial_success := None |}).
Definition reset_race : RaceOutcome :=
  Settled (Err {| cl_code := CUnavailable; cl_retry_info := None |}).

(** What the environment decides next. *)
Inductive action :=
| ASpawn | AStop | AExit | AJoin (i : nat)
| ATask (i : nat) (raced : RaceOutcome) (write : WriteOutcome).

Definition set_task (r : Run) (i : nat) (t : Task) (stats : Stats) (journal : LoadgenJournal) : Run :=
  {| rn_sent := rn_sent r; rn_tasks := take i (rn_tasks r) ++ t :: drop (S i) (rn_tasks r);
     rn_stats := stats; rn_journal := journal; rn_loop := rn_loop r |}.

Definition set_loop (r : Run) (loop : Loop) : Run :=
  {| rn_sent := rn_sent r; rn_tasks := rn_tasks r; rn_stats := rn_stats r;
     rn_journal := rn_journal r; rn_loop := loop |}.

Definition exec_task (t : Task) (journal : LoadgenJournal) (stats : Stats) (raced : RaceOutcome)
    (write : WriteOutcome) : option (Phase * LoadgenJournal * Stats) :=
  match tk_phase t with
  | Sending => Some (Raced raced, journal, stats)
  | Raced raced =>
      let (journal', phase) := journal_resolution journal (tk_identity t) (resolve raced) write in
      Some (phase, journal', stats)
  | Journaled resolution => Some (Recorded resolution, journal, stats_record stats resolution)
  | Recorded _ | Panicked => None
  end.

Definition exec (r : Run) (a : action) : option Run :=
  match a, rn_loop r with
  | ASpawn, Spawning =>
      if negb (hit_request_limit cli0 (rn_sent r)) &&
         bool_decide (joinset_len (rn_tasks r) < Nat.max (cli_concurrency cli0) 1)
      then Some {| rn_sent := u64_succ (rn_sent r);
                   rn_tasks := rn_tasks r ++ [{| tk_identity := identity_at cli0 7 (rn_sent r);
                                                 tk_phase := Sending; tk_joined := false |}];
                   rn_stats := rn_stats r; rn_journal := rn_journal r; rn_loop := Spawning |}
      else None
  | AStop, Spawning => if hit_request_limit cli0 (rn_sent r) then Some (set_loop r Joining) else None
  | AExit, Joining => if bool_decide (joinset_len (rn_tasks r) = 0) then Some (set_loop r Exited) else None
  | AJoin i, Joining =>
      t ← rn_tasks r !! i;
      if task_done t && negb (tk_joined t)
      then Some (set_task r i {| tk_identity := tk_identity t; tk_phase := tk_phase t; tk_joined := true |}
                   (rn_stats r) (rn_journal r))
      else None
  | ATask i raced write, _ =>
      t ← rn_tasks r !! i;
      '(phase, journal, stats) ← exec_task t (rn_journal r) (rn_stats r) raced write;
      Some (set_task r i {| tk_identity := tk_identity t; tk_phase := phase; tk_joined := tk_joined t |}
              stats journal)
  | _, _ => None
  end.

Lemma exec_task_sound t journal stats raced write phase journal' stats' :
  exec_task t journal stats raced write = Some (phase, journal', stats') →
  task_step ascii_ok (tk_phase t, journal, stats) (tk_identity t) (phase, journal', stats').
Proof.
  unfold exec_task. destruct (tk_phase t); intros; simplify_eq; try by constructor.
  destruct (journal_resolution _ _ _ _) eqn:E; simplify_eq. by eapply TaskJournal.
Qed.

Lemma exec_task_step r i raced write r' :
  (t ← rn_tasks r !! i;
   '(phase, journal, stats) ← exec_task t (rn_journal r) (rn_stats r) raced write;
   Some (set_task r i {| tk_identity := tk_identity t; tk_phase := phase; tk_joined := tk_joined t |}
           stats journal)) = Some r' →
  run_step ascii_ok cli0 7 r r'.
Proof.
  destruct (rn_tasks r !! i) as [t|] eqn:Et; [|done]. simpl.
  destruct (exec_task _ _ _ _ _) as [[[phase journal] stats]|] eqn:Ex; [|done]. simpl. intros [= <-].
  unfold set_task. apply (StepTask _ _ _ r _ t); [by rewrite take_drop_middle|by eapply exec_task_sound].
Qed.

Lemma exec_sound r a r' : exec r a = Some r' → run_step ascii_ok cli0 7 r r'.
Proof.
  intros E. unfold exec in E. destruct a as [| | |i|i raced write]; destruct (rn_loop r) eqn:El;
    try discriminate.
  - destruct (_ && _) eqn:Eg; [|done]. apply andb_prop in Eg as [Eg1 Eg2].
    apply negb_true_iff in Eg1. apply bool_decide_eq_true in Eg2. simplify_eq. by apply StepSpawn.
  - destruct (hit_request_limit _ _) eqn:Eg; simplify_eq. apply StepStop; auto.
  - case_bool_decide; simplify_eq. by apply StepExit.
  - destruct (rn_tasks r !! i) as [t|] eqn:Et; [|done]. simpl in E.
    destruct (_ && _) eqn:Eg; simplify_eq. apply andb_prop in Eg as [Eg1 Eg2%negb_true_iff].
    unfold set_task. apply (StepJoin _ _ _ r _ t); [by left|by rewrite take_drop_middle|done..].
  - apply (exec_task_step _ _ _ _ _ E).
  - apply (exec_task_step _ _ _ _ _ E).
  - apply (exec_task_step _ _ _ _ _ E).
Qed.

Fixpoint script (r : Run) (actions : list action) : option Run :=
  match actions with [] => Some r | a :: actions => exec r a ≫= λ r, script r actions end.

Lemma script_reachable r actions r' :
  run_reachable ascii_ok cli0 7 r → script r actions = Some r' → run_reachable ascii_ok cli0 7 r'.
Proof.
  revert r. induction actions as [|a actions IH]; intros r Hr E; simplify_eq/=; [done|].
  destruct (exec r a) as [r1|] eqn:Ea; [|done]. apply (IH r1); [|exact E].
  eapply run_next; [exact Hr|by apply (exec_sound _ a)].
Qed.

Definition whole_run (write : WriteOutcome) : list action :=
  [ASpawn; ASpawn; ATask 1 reset_race Written; ATask 0 acked_race Written;
   ATask 0 acked_race Written; ATask 1 reset_race write; ATask 0 acked_race Written].

Definition after_run (actions : list action) : Run :=
  default (run_start cli0) (script (run_start cli0) actions).

Lemma after_run_reachable actions :
  is_Some (script (run_start cli0) actions) → run_reachable ascii_ok cli0 7 (after_run actions).
Proof.
  intros [r Hr]. unfold after_run. rewrite Hr. eapply script_reachable; [apply run_initial|exact Hr].
Qed.

(** The second request's line is torn: it panics, and the summary shows it. *)
Definition torn_run : Run := after_run (whole_run (WriteFailed 3) ++ [AStop; AJoin 1; AJoin 0; AExit]).

Lemma loadgen_accounted_witness :
  panics (rn_tasks torn_run) = 1%N ∧ unresolved torn_run = panics (rn_tasks torn_run) ∧
  stat (rn_stats torn_run) Acked = 1%N ∧ rn_sent torn_run = 2%N.
Proof.
  split; [vm_compute; reflexivity|].
  destruct (loadgen_accounted ascii_ok cli0 7 torn_run "l.ndjson" (S754_zero false))
    as (_ & _ & Hst & _ & _ & Hx).
  - apply after_run_reachable. vm_compute. by eexists.
  - vm_compute. discriminate.
  - split; [apply Hx; vm_compute; reflexivity|]. split; vm_compute; reflexivity.
Defined.

(** Both lines written: the judge finds one ack and one timeout. *)
Definition clean_run : Run := after_run (whole_run Written).

Lemma loadgen_journal_judged_witness :
  ∃ journals, ingest_journals (λ _, Ok (lj_out (rn_journal clean_run))) ["l.ndjson"] = Ok journals ∧
    length (js_lines journals) = 2.
Proof.
  destruct (loadgen_journal_judged ascii_ok cli0 7 clean_run
    (λ _, Ok (lj_out (rn_journal clean_run))) "l.ndjson") as (journals & Hj & _ & _ & Hl).
  - apply after_run_reachable. vm_compute. by eexists.
  - vm_compute. reflexivity.
  - vm_compute. discriminate.
  - vm_compute. discriminate.
  - reflexivity.
  - exists journals. split; [exact Hj|]. rewrite Hl. vm_compute. reflexivity.
Defined.

(** ** A request served by the accept side *)

#[local] Existing Instances time_rows calm_db time_streams time_seal time_otlp time_roundtrip.

Definition identity0 : LoadIdentity := identity_at cli0 7 1.

Lemma loadgen_ack_durable_witness :
  ∃ batch outcome st' evs, bt_tenant batch = "acme" ∧
    bt_idempotency_key batch = Some "loadgen-0-7-1" ∧
    stage_blocking cfg1 stager1 7 100 batch = (Ok outcome, st', evs).
Proof.
  assert (snd (run_prog 0 port1 (export caps true (request_of identity0))) =
    Some (Ok {| rs_partial_success := None |})) as Hrun by (vm_compute; reflexivity).
  pose proof (loadgen_ack_durable cfg1 opened stager1 ∅ 7 100 caps true 0 identity0 _ opened_up
    ltac:(vm_compute; reflexivity) ltac:(vm_compute; discriminate) Hrun) as Hacked.
  destruct Hacked as (batch & outcome & rows & st' & evs & Ht & Hk & Hs & _).
  exists batch, outcome, st', evs. split; [exact Ht|]. split; [exact Hk|exact Hs].
Defined.
