(* ===== verification/JudgeWitness.v ===== *)
(** * Concrete judge runs

    A small fleet run judged end to end: two nodes, one load generator, a read
    log, a fault ledger, a manifest and the three read-back fixtures.  Each line
    of text is a token and the decoders are tables. *)

From S2P Require Import Prelude RustStd Types Ports Evidence Verdict Journal BTree FinalState RunManifest.
From S2P Require Import FaultLedger RunSummary Vacuity.
From S2P Require Import ZeroAckedLost WatermarkHonesty LatestView.
From S2P Require Import RetentionHonesty CacheTransparency Runner.
From Stdlib Require Import SpecFloat.

(** ** The text *)

Definition nl : string := String newline EmptyString.
Definition ndjson_of (tokens : list string) : string := foldr (λ t acc, t +:+ nl +:+ acc) "" tokens.

Definition table {A} (entries : list (string * A)) (key : string) : result A string :=
  match find (λ e, bool_decide (e.1 = key)) entries with
  | Some e => Ok e.2
  | None => Err "unknown token"
  end.

(** ** The evidence *)

Definition claim (ms : Z) : WatermarkClaim := {| wc_partition := "p"; wc_complete_through_ms := ms |}.

Definition ack : RequestIdentity := {|
  ri_request_id := "r1"; ri_tenant := "t"; ri_record_count := 2; ri_first_index := 0;
  ri_source_incarnation := "L-1"; ri_partition := Some "p"; ri_max_event_time_ms := Some 50%Z |}.

Definition entry : ChangelogEntry := {|
  ce_dataset := "ds"; ce_partition := "p"; ce_tenant := "t"; ce_changelog_key := "k";
  ce_origin := "A/1"; ce_changelog_seq := 3; ce_tombstone := false; ce_value := Some "v" |}.

Definition expired_part : PartRetention := {|
  pr_dataset := "ds"; pr_partition := "p"; pr_part := "part-1"; pr_part_kind := Primary;
  pr_dataset_kind := Changelog;
  pr_origin_coverage := [{| origin := "A/1"; first_seq := 1; last_seq := 5 |}] |}.

Definition snapshot0 : CommittedSnapshot := {|
  cs_dataset := "ds"; cs_partition := "p"; cs_part := "snap-1";
  cs_origin_coverage := [{| origin := "A/1"; first_seq := 1; last_seq := 9 |}] |}.

Definition envelope (node : string) (seq : N) (event : TraceEvent) (token : string) :
    string * Envelope string :=
  (token, {| env_node := node; env_seq := seq; env_event := event; env_rest := token |}).

Definition envelopes : list (string * Envelope string) :=
  [envelope "A/1" 0 EvLakeCommitOk "a0"; envelope "A/1" 1 EvClaimAdvertise "a1";
   envelope "A/1" 2 EvForward "a2"; envelope "A/1" 3 EvDropWindow "a3";
   envelope "A/1" 4 EvExpire "a4"; envelope "B/1" 0 EvPeerApply "b0";
   envelope "B/1" 1 EvReceipt "b1"; envelope "L" 0 EvClientAck "l0"].

Definition payload_keys : list (string * string) :=
  [("a0", "complete_through_ms"); ("a1", "complete_through_ms"); ("a4", "part");
   ("l0", "request_id"); ("l0", "complete_through_ms"); ("l0", "changelog_key");
   ("r0", "residency_ops_before"); ("r1", "residency_ops_before"); ("r2", "residency_ops_before")].

Definition keys0 : gset string := {["L-1-0"; "L-1-1"]}.

Definition read0 : ReadRecord := {|
  rr_tenant := "t"; rr_partition := "p"; rr_concern := Complete;
  rr_outcome := Served 60 keys0; rr_cache := None |}.

Definition probe (before after latency : N) : CacheProbe := {|
  cp_query := "q"; cp_serving_node := "A/1"; cp_residency_ops_before := before;
  cp_residency_ops_after := after; cp_latency_ms := latency |}.

Definition fault (phase : FaultPhase) (at_ms : N) : FaultLine := {|
  fl_fault_id := "f1"; fl_kind := "network_partition"; fl_target_node := "A/1";
  fl_phase := phase; fl_at_ms := at_ms |}.

Definition node_run (name : string) : NodeRun := {|
  nr_name := name; nr_journal_path := name; nr_journal_lines := 5;
  nr_last_progress_at_ms := Some 1000%N; nr_exited_early := false |}.

Definition manifest0 : RunManifest := {|
  rm_started_at_ms := 0; rm_ended_at_ms := 2000; rm_sample_interval_ms := 500;
  rm_nodes := [node_run "A"; node_run "B"] |}.

#[global] Instance tokens : Serde := {|
  Value := string;
  map_access := λ raw, ([raw], None);
  contains_key := λ v key, bool_decide ((v, key) ∈ payload_keys);
  value_from_str := λ raw, Ok raw;
  envelope_from_str := table envelopes;
  identity_from_value := table [("l0", ack)];
  watermark_from_value := table [("a0", claim 100); ("a1", claim 100); ("l0", claim 10)];
  changelog_from_value := table [("l0", entry)];
  part_from_value := table [("a4", expired_part)];
  read_record_from_str := table [("r0", read0); ("r1", read0); ("r2", read0)];
  probe_from_value := table [("r0", probe 0 0 5); ("r1", probe 1 1 5); ("r2", probe 0 1 6)];
  fault_line_from_str := table [("f0", fault Armed 100); ("f1", fault Started 110); ("f2", fault Ended 120)];
  manifest_from_str := table [("m0", manifest0)];
  summary_from_str := table [("s0", {| rs_sent := 1; rs_acked := 1; rs_timed_out := 0;
                                       rs_rejected := 0; rs_ambiguous := 0 |})];
  final_state_from_str := table
    [("p0", [{| fr_tenant := "t"; fr_source_incarnation := "L-1"; fr_first_index := 0; fr_count := 2 |}]);
     ("p1", [{| fr_tenant := "t"; fr_source_incarnation := "L-1"; fr_first_index := 0; fr_count := 1 |}])];
  latest_view_from_str := table [("v0", {["ds" := {["t" := {["k" := "v"]}]}]})];
  committed_parts_from_str := table [("c0", [snapshot0])];
|}.

Definition files : list (string * string) :=
  [("a.ndjson", ndjson_of ["a0"; "a1"; "a2"; "a3"; "a4"]); ("b.ndjson", ndjson_of ["b0"; "b1"]);
   ("l.ndjson", ndjson_of ["l0"]); ("l.ndjson.summary.json", "s0");
   ("reads", ndjson_of ["r0"; "r0"; "r1"; "r2"]); ("faults", ndjson_of ["f0"; "f1"; "f2"]);
   ("run", "m0"); ("present", "p0"); ("half", "p1"); ("view", "v0"); ("parts", "c0")].

Definition fs0 : FileSystem := table files.

Definition journal_paths : list string := ["a.ndjson"; "b.ndjson"; "l.ndjson"].

Definition args (final_state : string) : RunArgs := {|
  ra_journals := journal_paths; ra_final_state_fixture := Some final_state;
  ra_read_log := Some "reads"; ra_latest_view_fixture := Some "view";
  ra_committed_parts_fixture := Some "parts"; ra_fault_log := Some "faults";
  ra_run_manifest := Some "run"; ra_max_ambiguous_fraction := DEFAULT_MAX_AMBIGUOUS_FRACTION;
  ra_max_journal_silence_ms := DEFAULT_MAX_JOURNAL_SILENCE_MS;
  ra_max_racing_read_ms := DEFAULT_MAX_RACING_READ_MS |}.

(** Rendering does not matter here. *)
#[local] Instance any_display {A} : Display A := λ _, "".

(** The run is certified: exit code 0. *)
Lemma judge_run_passes : outcome_exit_code (run fs0 (args "present")) = EXIT_PASS.
Proof. vm_compute. reflexivity. Qed.

(** With the second record of the ack absent, the run is convicted: exit code 2. *)
Lemma judge_run_convicts : outcome_exit_code (run fs0 (args "half")) = EXIT_VIOLATION.
Proof. vm_compute. reflexivity. Qed.

(** Without its final state the run certifies nothing: exit code 3. *)
Lemma judge_run_inconclusive : outcome_exit_code (run fs0 (args "absent")) = EXIT_NO_VERDICT.
Proof. vm_compute. reflexivity. Qed.

(** A journal passed twice is refused. *)
Lemma journal_twice_refused :
  match ingest_journals fs0 ["a.ndjson"; "a.ndjson"] with Ok _ => False | Err _ => True end.
Proof. vm_compute. exact I. Qed.

(** ** Witnesses *)

Definition journals0 : JournalSet :=
  match ingest_journals fs0 journal_paths with Ok j => j | Err _ => {| js_lines := [] |} end.

Lemma ingest0 : ingest_journals fs0 journal_paths = Ok journals0.
Proof. vm_compute. reflexivity. Qed.

Lemma ingest_one_journal_per_node_witness :
  ∃ files, Forall2 (file_ok fs0) journal_paths files ∧ js_lines journals0 = concat files ∧
    ∀ i j f g node, files !! i = Some f → files !! j = Some g →
      of_node node f ≠ [] → of_node node g ≠ [] → i = j.
Proof. apply (ingest_one_journal_per_node fs0 journal_paths journals0 ingest0). vm_compute. reflexivity. Defined.

Lemma ingested_well_formed_witness : Forall line_wf (js_lines journals0) ∧ length (js_lines journals0) = 8%nat.
Proof.
  split; [|vm_compute; reflexivity].
  exact (ingested_well_formed fs0 journal_paths journals0 ingest0).
Defined.

Definition view0 : InMemoryLatestView := {["ds" := {["t" := {["k" := "v"]}]}]}.

Lemma latest_view_order_irrelevant_witness :
  passed (LatestView.check journals0 view0) ∧
  passed (LatestView.check {| js_lines := reverse (js_lines journals0) |} view0).
Proof.
  assert (passed (LatestView.check journals0 view0)) as Hp by (exists 1%nat; vm_compute; reflexivity).
  split; [exact Hp|].
  apply (latest_view_order_irrelevant {| js_lines := reverse (js_lines journals0) |} journals0 view0);
    [apply reverse_Permutation|exact Hp].
Defined.
