(* ===== verification/Link.v ===== *)
(** * The fault link

    Models [crates/duckspout-fleet/src/link.rs]: a proxy on the byte path whose
    forwarding condition is held by fault windows.  The table of holds is under a
    mutex, so its operations are single steps; the accept loop, the connections and
    their two pumps run concurrently and are a step relation.  A [select!] polls
    its branches one after the other: that the cut was not ready and that the read
    was are two steps.  A watch channel is its version; the value sent through it is
    the number of cuts, at 64 bits.  Dialing, reading and writing are the network's. *)

From S2P Require Import Prelude Types Overload BTree.

(** ** Conditions *)

(** [CHUNK] *)
Definition CHUNK : N := 16 * 1024.

(** [LinkCondition] *)
Inductive LinkCondition := Pass | Drop | Delay (ms : N) | BandwidthCap (bytes_per_sec : N).

#[global] Instance LinkCondition_eq_dec : EqDecision LinkCondition.
Proof. solve_decision. Defined.

(** [LinkCondition::pace], in nanoseconds *)
Definition pace (condition : LinkCondition) (bytes : N) : N :=
  match condition with
  | Pass | Drop => 0
  | Delay ms => ms * 1000000
  | BandwidthCap bytes_per_sec =>
      if (bytes_per_sec =? 0)%N then 0
      else u64_try_from (u64_try_from bytes * 1000000000 / bytes_per_sec)
  end%N.

(** [LinkCondition::most_restrictive] *)
Definition most_restrictive (self other : LinkCondition) : LinkCondition :=
  match self, other with
  | Drop, _ | _, Drop => Drop
  | _, _ => if (pace self CHUNK <? pace other CHUNK)%N then other else self
  end.

(** [LinkConditions] *)
Record LinkConditions := { client_to_server : LinkCondition; server_to_client : LinkCondition }.

#[global] Instance LinkConditions_eq_dec : EqDecision LinkConditions.
Proof. solve_decision. Defined.

(** [LinkConditions::pass] *)
Definition conditions_pass : LinkConditions :=
  {| client_to_server := Pass; server_to_client := Pass |}.

(** [LinkConditions::dropped] *)
Definition conditions_dropped : LinkConditions :=
  {| client_to_server := Drop; server_to_client := Drop |}.

(** [LinkConditions::either_dropped] *)
Definition either_dropped (c : LinkConditions) : bool :=
  bool_decide (client_to_server c = Drop) || bool_decide (server_to_client c = Drop).

(** [LinkConditions::most_restrictive] *)
Definition conditions_most_restrictive (self other : LinkConditions) : LinkConditions :=
  {| client_to_server := most_restrictive (client_to_server self) (client_to_server other);
     server_to_client := most_restrictive (server_to_client self) (server_to_client other) |}.

(** [Direction], and the condition it selects *)
Inductive Direction := ClientToServer | ServerToClient.

#[global] Instance Direction_eq_dec : EqDecision Direction.
Proof. solve_decision. Defined.

Definition condition_of (c : LinkConditions) (direction : Direction) : LinkCondition :=
  match direction with
  | ClientToServer => client_to_server c
  | ServerToClient => server_to_client c
  end.

(** ** Statistics *)

(** [LinkStats] *)
Record LinkStats := {
  conns_accepted : N;
  conns_refused : N;
  conns_cut : N;
  bytes_client_to_server : N;
  bytes_server_to_client : N;
}.

(** [LinkStats::since]; truncated subtraction is [saturating_sub]. *)
Definition since (self earlier : LinkStats) : LinkStats :=
  {| conns_accepted := conns_accepted self - conns_accepted earlier;
     conns_refused := conns_refused self - conns_refused earlier;
     conns_cut := conns_cut self - conns_cut earlier;
     bytes_client_to_server := bytes_client_to_server self - bytes_client_to_server earlier;
     bytes_server_to_client := bytes_server_to_client self - bytes_server_to_client earlier |}.

Definition stats_zero : LinkStats :=
  {| conns_accepted := 0; conns_refused := 0; conns_cut := 0; bytes_client_to_server := 0;
     bytes_server_to_client := 0 |}.

(** ** The table of holds *)

(** [HoldTable] *)
Record HoldTable := { next_id : N; active : gmap N LinkConditions }.

(** [HoldTable::effective]: the values of the [BTreeMap], folded in key order. *)
Definition effective (table : HoldTable) : LinkConditions :=
  foldl conditions_most_restrictive conditions_pass (btree_iter (active table)).*2.

(** [FaultLink::hold], under the mutex: the new table, the hold's id, and whether
    the epoch is to be bumped. *)
Definition hold (table : HoldTable) (conditions : LinkConditions) : HoldTable * N * bool :=
  let id := next_id table in
  let was_dropped := either_dropped (effective table) in
  let table := {| next_id := u64_succ (next_id table);
                  active := <[id := conditions]> (active table) |} in
  let now_dropped := either_dropped (effective table) in
  (table, id, now_dropped && negb was_dropped).

(** [LinkHold::drop] *)
Definition release (table : HoldTable) (id : N) : HoldTable :=
  {| next_id := next_id table; active := delete id (active table) |}.

(** ** Pumps *)

(** Where a [pump] is; one that returned did so at the end of its stream, because the
    link was cut, or on a dropped chunk or an error.  [Waiting] polls the cut of the first [select!], [Polled] has
    found it not ready; [Pacing] and [PacePolled] are the same for the second. *)
Inductive PumpPhase :=
| Unsubscribed
| Waiting
| Polled
| Have (chunk : list Byte.byte)
| Pacing (chunk : list Byte.byte)
| PacePolled (chunk : list Byte.byte)
| Writing (chunk : list Byte.byte)
| Counting (chunk : list Byte.byte)
| EndedEof
| EndedCut
| Ended.

(** A pump: the version it subscribed at, and what it has read from one peer,
    written to the other, and counted. *)
Record Pump := {
  pm_phase : PumpPhase;
  pm_seen : N;
  pm_read : list Byte.byte;
  pm_written : list Byte.byte;
  pm_counted : N;
}.

Definition pump_new : Pump :=
  {| pm_phase := Unsubscribed; pm_seen := 0; pm_read := []; pm_written := []; pm_counted := 0 |}.

Definition at_phase (p : Pump) (phase : PumpPhase) : Pump :=
  {| pm_phase := phase; pm_seen := pm_seen p; pm_read := pm_read p; pm_written := pm_written p;
     pm_counted := pm_counted p |}.

Definition len (chunk : list Byte.byte) : N := N.of_nat (length chunk).

(** [pump], one direction: a step, given the version of the watch channel and the
    condition in force for the direction; the bytes it adds to the link's counter. *)
Inductive pump_step (version : N) (condition : LinkCondition) : Pump → Pump → N → Prop :=
| PumpSubscribe p :
    pm_phase p = Unsubscribed →
    pump_step version condition p
      {| pm_phase := Waiting; pm_seen := version; pm_read := pm_read p; pm_written := pm_written p;
         pm_counted := pm_counted p |} 0
| PumpCut p :
    pm_phase p = Waiting → pm_seen p ≠ version → pump_step version condition p (at_phase p EndedCut) 0
| PumpPoll p :
    pm_phase p = Waiting → pm_seen p = version → pump_step version condition p (at_phase p Polled) 0
| PumpPark p :
    pm_phase p = Polled → pump_step version condition p (at_phase p Waiting) 0
| PumpRead p chunk :
    pm_phase p = Polled → chunk ≠ [] → (len chunk ≤ CHUNK)%N →
    pump_step version condition p
      {| pm_phase := Have chunk; pm_seen := pm_seen p; pm_read := pm_read p ++ chunk;
         pm_written := pm_written p; pm_counted := pm_counted p |} 0
| PumpEof p :
    pm_phase p = Polled → pump_step version condition p (at_phase p EndedEof) 0
| PumpReadError p :
    pm_phase p = Polled → pump_step version condition p (at_phase p Ended) 0
| PumpDropped p chunk :
    pm_phase p = Have chunk → condition = Drop → pump_step version condition p (at_phase p Ended) 0
| PumpPaced p chunk :
    pm_phase p = Have chunk → condition ≠ Drop →
    pump_step version condition p
      (at_phase p (if (pace condition (len chunk) =? 0)%N then Writing chunk else Pacing chunk)) 0
| PumpPaceCut p chunk :
    pm_phase p = Pacing chunk → pm_seen p ≠ version →
    pump_step version condition p (at_phase p EndedCut) 0
| PumpPacePoll p chunk :
    pm_phase p = Pacing chunk → pm_seen p = version →
    pump_step version condition p (at_phase p (PacePolled chunk)) 0
| PumpPacePark p chunk :
    pm_phase p = PacePolled chunk → pump_step version condition p (at_phase p (Pacing chunk)) 0
| PumpSlept p chunk :
    pm_phase p = PacePolled chunk → pump_step version condition p (at_phase p (Writing chunk)) 0
| PumpWrite p chunk :
    pm_phase p = Writing chunk →
    pump_step version condition p
      {| pm_phase := Counting chunk; pm_seen := pm_seen p; pm_read := pm_read p;
         pm_written := pm_written p ++ chunk; pm_counted := pm_counted p |} 0
| PumpWriteError p chunk reached rest :
    pm_phase p = Writing chunk → chunk = reached ++ rest →
    pump_step version condition p
      {| pm_phase := Ended; pm_seen := pm_seen p; pm_read := pm_read p;
         pm_written := pm_written p ++ reached; pm_counted := pm_counted p |} 0
| PumpCount p chunk :
    pm_phase p = Counting chunk →
    pump_step version condition p
      {| pm_phase := Waiting; pm_seen := pm_seen p; pm_read := pm_read p;
         pm_written := pm_written p; pm_counted := pm_counted p + len chunk |} (len chunk).

Definition pump_over (p : Pump) : bool :=
  match pm_phase p with EndedEof | EndedCut | Ended => true | _ => false end.

(** ** Connections and the accept loop *)

(** [proxy_connection] *)
Inductive ConnPhase :=
| Spawned
| Dialing (epoch_at_start : N)
| Pumping (epoch_at_start : N)
| Closed
| DialFailed.

#[global] Instance conn_phase_eq_dec : EqDecision ConnPhase.
Proof. solve_decision. Defined.

(** A connection; [cn_cuts], which the code does not keep, is how often the link was
    cut from where [proxy_connection] reads the epoch until both pumps have returned. *)
Record Conn := { cn_phase : ConnPhase; cn_to_server : Pump; cn_to_client : Pump; cn_cuts : N }.

Definition conn_at (c : Conn) (phase : ConnPhase) : Conn :=
  {| cn_phase := phase; cn_to_server := cn_to_server c; cn_to_client := cn_to_client c;
     cn_cuts := cn_cuts c |}.

(** A connection that lives through a cut. *)
Definition conn_cut (c : Conn) : Conn :=
  match cn_phase c with
  | Dialing _ | Pumping _ =>
      {| cn_phase := cn_phase c; cn_to_server := cn_to_server c; cn_to_client := cn_to_client c;
         cn_cuts := cn_cuts c + 1 |}
  | Spawned | Closed | DialFailed => c
  end.

(** [accept_loop] *)
Inductive AcceptPhase := Listening | Accepted | Refusing | Stopped.

(** A link; [lk_bumps] is the number of [hold] calls that have released the mutex and
    not yet bumped the epoch, [lk_version] the version of the watch channel. *)
Record Link := {
  lk_table : HoldTable;
  lk_bumps : nat;
  lk_version : N;
  lk_stats : LinkStats;
  lk_accept : AcceptPhase;
  lk_conns : list Conn;
}.

(** The value sent through the channel. *)
Definition cut_epoch (s : Link) : N := (lk_version s mod 2 ^ 64)%N.

(** [LinkState::conditions] *)
Definition conditions (s : Link) : LinkConditions := effective (lk_table s).

(** [FaultLink::bind] *)
Definition link_new : Link :=
  {| lk_table := {| next_id := 0; active := ∅ |}; lk_bumps := 0; lk_version := 0;
     lk_stats := stats_zero; lk_accept := Listening; lk_conns := [] |}.

Definition set_accept (s : Link) (phase : AcceptPhase) (stats : LinkStats) (conns : list Conn) : Link :=
  {| lk_table := lk_table s; lk_bumps := lk_bumps s; lk_version := lk_version s; lk_stats := stats;
     lk_accept := phase; lk_conns := conns |}.

Definition set_conns (s : Link) (stats : LinkStats) (conns : list Conn) : Link :=
  set_accept s (lk_accept s) stats conns.

Definition set_table (s : Link) (table : HoldTable) (bumps : nat) : Link :=
  {| lk_table := table; lk_bumps := bumps; lk_version := lk_version s; lk_stats := lk_stats s;
     lk_accept := lk_accept s; lk_conns := lk_conns s |}.

(** The epoch is bumped: the link is cut. *)
Definition bump (s : Link) (bumps : nat) : Link :=
  {| lk_table := lk_table s; lk_bumps := bumps; lk_version := lk_version s + 1; lk_stats := lk_stats s;
     lk_accept := lk_accept s; lk_conns := conn_cut <$> lk_conns s |}.

(** [fetch_add] on the counters *)
Definition add_accepted (st : LinkStats) : LinkStats :=
  {| conns_accepted := u64_succ (conns_accepted st); conns_refused := conns_refused st;
     conns_cut := conns_cut st; bytes_client_to_server := bytes_client_to_server st;
     bytes_server_to_client := bytes_server_to_client st |}.

Definition add_refused (st : LinkStats) : LinkStats :=
  {| conns_accepted := conns_accepted st; conns_refused := u64_succ (conns_refused st);
     conns_cut := conns_cut st; bytes_client_to_server := bytes_client_to_server st;
     bytes_server_to_client := bytes_server_to_client st |}.

Definition add_cut (st : LinkStats) : LinkStats :=
  {| conns_accepted := conns_accepted st; conns_refused := conns_refused st;
     conns_cut := u64_succ (conns_cut st); bytes_client_to_server := bytes_client_to_server st;
     bytes_server_to_client := bytes_server_to_client st |}.

Definition add_bytes (st : LinkStats) (direction : Direction) (n : N) : LinkStats :=
  {| conns_accepted := conns_accepted st; conns_refused := conns_refused st;
     conns_cut := conns_cut st;
     bytes_client_to_server :=
       match direction with
       | ClientToServer => u64_add (bytes_client_to_server st) n
       | ServerToClient => bytes_client_to_server st
       end;
     bytes_server_to_client :=
       match direction with
       | ClientToServer => bytes_server_to_client st
       | ServerToClient => u64_add (bytes_server_to_client st) n
       end |}.

Definition pump_of (c : Conn) (direction : Direction) : Pump :=
  match direction with ClientToServer => cn_to_server c | ServerToClient => cn_to_client c end.

Definition set_pump (c : Conn) (direction : Direction) (p : Pump) : Conn :=
  match direction with
  | ClientToServer => {| cn_phase := cn_phase c; cn_to_server := p; cn_to_client := cn_to_client c;
                         cn_cuts := cn_cuts c |}
  | ServerToClient => {| cn_phase := cn_phase c; cn_to_server := cn_to_server c; cn_to_client := p;
                         cn_cuts := cn_cuts c |}
  end.

(** One step of a link.  Fewer than 2^64 holds are ever taken, so ids do not repeat. *)
Inductive link_step : Link → Link → Prop :=
| LinkHold s conditions table id bump :
    (next_id (lk_table s) < u64_max)%N →
    hold (lk_table s) conditions = (table, id, bump) →
    link_step s (set_table s table (lk_bumps s + if bump then 1 else 0))
| LinkBump s n :
    lk_bumps s = S n → link_step s (bump s n)
| LinkRelease s id :
    link_step s (set_table s (release (lk_table s) id) (lk_bumps s))
| LinkAccept s :
    lk_accept s = Listening →
    link_step s (set_accept s Accepted (add_accepted (lk_stats s)) (lk_conns s))
| LinkAcceptError s :
    lk_accept s = Listening → link_step s (set_accept s Stopped (lk_stats s) (lk_conns s))
| LinkCheckDropped s :
    lk_accept s = Accepted → either_dropped (conditions s) = true →
    link_step s (set_accept s Refusing (lk_stats s) (lk_conns s))
| LinkRefuse s :
    lk_accept s = Refusing →
    link_step s (set_accept s Listening (add_refused (lk_stats s)) (lk_conns s))
| LinkSpawn s :
    lk_accept s = Accepted → either_dropped (conditions s) = false →
    link_step s (set_accept s Listening (lk_stats s)
      (lk_conns s ++ [{| cn_phase := Spawned; cn_to_server := pump_new; cn_to_client := pump_new; cn_cuts := 0 |}]))
| LinkReadEpoch s before c after :
    lk_conns s = before ++ c :: after → cn_phase c = Spawned →
    link_step s (set_conns s (lk_stats s) (before ++ conn_at c (Dialing (cut_epoch s)) :: after))
| LinkDial s before c after epoch_at_start dialed :
    lk_conns s = before ++ c :: after → cn_phase c = Dialing epoch_at_start →
    link_step s (set_conns s (lk_stats s)
      (before ++ conn_at c (if (dialed : bool) then Pumping epoch_at_start else DialFailed) :: after))
| LinkPump s before c after epoch_at_start direction p n :
    lk_conns s = before ++ c :: after → cn_phase c = Pumping epoch_at_start →
    pump_step (lk_version s) (condition_of (conditions s) direction) (pump_of c direction) p n →
    link_step s (set_conns s (add_bytes (lk_stats s) direction n)
      (before ++ set_pump c direction p :: after))
| LinkJoin s before c after epoch_at_start :
    lk_conns s = before ++ c :: after → cn_phase c = Pumping epoch_at_start →
    pump_over (cn_to_server c) = true → pump_over (cn_to_client c) = true →
    let was_cut := negb (cut_epoch s =? epoch_at_start)%N in
    link_step s (set_conns s (if was_cut then add_cut (lk_stats s) else lk_stats s)
      (before ++ conn_at c Closed :: after)).

Inductive link_reachable : Link → Prop :=
| link_bound : link_reachable link_new
| link_next s s' : link_reachable s → link_step s s' → link_reachable s'.

Definition link_steps : relation Link := rtc link_step.

(** ** What the holds enforce *)

Lemma most_restrictive_drop a b : most_restrictive a b = Drop ↔ a = Drop ∨ b = Drop.
Proof.
  unfold most_restrictive. destruct a, b; simpl; try (split; naive_solver);
    destruct (_ <? _)%N; naive_solver.
Qed.

Lemma most_restrictive_pace a b : most_restrictive a b ≠ Drop →
  pace (most_restrictive a b) CHUNK = N.max (pace a CHUNK) (pace b CHUNK) ∧
  (most_restrictive a b = a ∨ most_restrictive a b = b).
Proof.
  intros Hd. assert (most_restrictive a b = if (pace a CHUNK <? pace b CHUNK)%N then b else a) as ->.
  { unfold most_restrictive in *. by destruct a, b. }
  destruct (N.ltb_spec (pace a CHUNK) (pace b CHUNK)); split; auto; lia.
Qed.

Lemma condition_most_restrictive a b direction :
  condition_of (conditions_most_restrictive a b) direction =
  most_restrictive (condition_of a direction) (condition_of b direction).
Proof. by destruct direction. Qed.

Lemma fold_restrictive init l direction :
  let result := condition_of (foldl conditions_most_restrictive init l) direction in
  (result = Drop ↔ condition_of init direction = Drop ∨ ∃ c, c ∈ l ∧ condition_of c direction = Drop) ∧
  (result ≠ Drop →
     (pace (condition_of init direction) CHUNK ≤ pace result CHUNK)%N ∧
     (∀ c, c ∈ l → (pace (condition_of c direction) CHUNK ≤ pace result CHUNK)%N) ∧
     (result = condition_of init direction ∨ ∃ c, c ∈ l ∧ condition_of c direction = result)).
Proof.
  revert init. induction l as [|c l IH]; intros init; simpl.
  - split; [set_solver|]. intros _. split_and!; [done|set_solver|by left].
  - destruct (IH (conditions_most_restrictive init c)) as [IHd IHp].
    rewrite condition_most_restrictive in IHd, IHp. split.
    + rewrite IHd, most_restrictive_drop. set_solver.
    + intros Hne. destruct (IHp Hne) as (Hi & Hl & Hr).
      assert (most_restrictive (condition_of init direction) (condition_of c direction) ≠ Drop) as Hm.
      { intros E. apply Hne, IHd. by left. }
      destruct (most_restrictive_pace _ _ Hm) as [Hpm Hor]. rewrite Hpm in Hi. split_and!; [lia| |].
      * intros c' [->|Hc']%elem_of_cons; [lia|by apply Hl].
      * destruct Hr as [->|(c' & Hc' & Hr)]; [|right; set_solver].
        destruct Hor as [->| ->]; [by left|right; set_solver].
Qed.

(** The condition of a direction is [Drop] when some hold drops it, and else the
    slowest of those held. *)
Lemma effective_spec table direction :
  let result := condition_of (effective table) direction in
  (result = Drop ↔
     ∃ id c, active table !! id = Some c ∧ condition_of c direction = Drop) ∧
  (result ≠ Drop →
     (∀ id c, active table !! id = Some c →
        (pace (condition_of c direction) CHUNK ≤ pace result CHUNK)%N) ∧
     (result = Pass ∨ ∃ id c, active table !! id = Some c ∧ condition_of c direction = result)).
Proof.
  destruct (fold_restrictive conditions_pass (btree_iter (active table)).*2 direction) as [Hd Hp].
  assert (∀ c, c ∈ (btree_iter (active table)).*2 ↔ ∃ id, active table !! id = Some c) as Hin.
  { intros c. rewrite list_elem_of_fmap. split.
    - intros ([id c'] & -> & Hc). exists id. by apply elem_of_btree_iter.
    - intros [id Hc]. exists (id, c). split; [done|]. by apply elem_of_btree_iter. }
  fold (effective table) in Hd, Hp. split.
  - rewrite Hd. setoid_rewrite Hin. destruct direction; naive_solver.
  - intros Hne. destruct (Hp Hne) as (_ & Hall & Hor). split; [naive_solver|].
    destruct Hor as [E|(c & [id Hc]%Hin & Hr)]; [left; by destruct direction|right; eauto].
Qed.

Lemma either_dropped_spec table :
  either_dropped (effective table) = true ↔
  ∃ id c, active table !! id = Some c ∧ either_dropped c = true.
Proof.
  unfold either_dropped. rewrite orb_true_iff, !bool_decide_eq_true.
  pose proof (proj1 (effective_spec table ClientToServer)) as H1.
  pose proof (proj1 (effective_spec table ServerToClient)) as H2. simpl in H1, H2.
  rewrite H1, H2. setoid_rewrite orb_true_iff. setoid_rewrite bool_decide_eq_true. naive_solver.
Qed.

(** ** The invariant of a link *)

(** What a pump has done so far. *)
Definition pump_content (p : Pump) : Prop :=
  match pm_phase p with
  | Unsubscribed | Waiting | Polled | EndedEof =>
      pm_written p = pm_read p ∧ pm_counted p = len (pm_written p)
  | Have chunk | Pacing chunk | PacePolled chunk | Writing chunk =>
      pm_read p = pm_written p ++ chunk ∧ pm_counted p = len (pm_written p) ∧ (len chunk ≤ CHUNK)%N
  | Counting chunk =>
      pm_written p = pm_read p ∧ (pm_counted p + len chunk)%N = len (pm_written p) ∧
      (len chunk ≤ CHUNK)%N
  | EndedCut | Ended => pm_written p `prefix_of` pm_read p ∧ (pm_counted p ≤ len (pm_written p))%N
  end.

Definition pump_ok (version : N) (p : Pump) : Prop :=
  (pm_seen p ≤ version)%N ∧ pump_content p.

Lemma len_app a b : len (a ++ b) = (len a + len b)%N.
Proof. unfold len. rewrite length_app. lia. Qed.

Lemma pump_new_ok version : pump_ok version pump_new.
Proof. split; [simpl; lia|done]. Qed.

(** Whatever its phase, a pump has written a prefix of what it read. *)
Lemma content_prefix p : pump_content p →
  pm_written p `prefix_of` pm_read p ∧ (pm_counted p ≤ len (pm_written p))%N.
Proof.
  unfold pump_content. destruct (pm_phase p); try done; try (intros [-> ->]; split; [done|lia]).
  all: try (intros (-> & -> & _); split; [by apply prefix_app_r|lia]).
  intros (-> & ? & _). split; [done|lia].
Qed.

Lemma pump_step_ok version condition p p' n :
  pump_ok version p → pump_step version condition p p' n →
  pump_ok version p' ∧ pm_counted p' = (pm_counted p + n)%N.
Proof.
  intros [Hs Hc] Hstep. pose proof (content_prefix p Hc) as Hp. unfold pump_content in Hc.
  destruct Hstep; simpl; match goal with E : pm_phase _ = _ |- _ => rewrite E in Hc end;
    (split; [split|]; simpl; [lia| |lia]); unfold pump_content; simpl; auto.
  - destruct Hc as [-> ->]. done.
  - by destruct (_ =? _)%N.
  - destruct Hc as (-> & -> & ?). rewrite len_app. done.
  - subst. destruct Hc as (-> & -> & _). rewrite (assoc_L (++)).
    split; [by apply prefix_app_r|rewrite len_app; lia].
  - destruct Hc as (-> & <- & _). done.
Qed.

(** *** After a cut *)

(** The bytes a pump that was cut may still write. *)
Definition allowance (p : Pump) : N :=
  match pm_phase p with
  | Polled => CHUNK
  | Have chunk | PacePolled chunk | Writing chunk => len chunk
  | _ => 0
  end.

Lemma pump_step_spends version condition p p' n :
  pump_step version condition p p' n → (pm_seen p < version)%N → pm_phase p ≠ Unsubscribed →
  pm_seen p' = pm_seen p ∧ pm_phase p' ≠ Unsubscribed ∧
  ∃ more, pm_written p' = pm_written p ++ more ∧ (len more + allowance p' ≤ allowance p)%N.
Proof.
  intros Hstep Hseen Hsub. unfold allowance.
  destruct Hstep; simpl; match goal with E : pm_phase _ = _ |- _ => rewrite E end; try done; try lia;
    (split; [done|]); try (destruct (_ =? _)%N); (split; [done|]);
    try (exists []; rewrite app_nil_r; split; [done|change (len []) with 0%N; lia]).
  - exists chunk. split; [done|lia].
  - subst. exists reached. rewrite len_app. split; [done|lia].
Qed.

(** *** The whole link *)

(** The epoch a connection read is the version less the cuts it has lived through; its
    pumps subscribe after that, so one that a cut ended has seen one. *)
Definition epoch_ok (version : N) (c : Conn) : Prop :=
  (cn_cuts c ≤ version)%N ∧
  match cn_phase c with
  | Spawned => cn_cuts c = 0%N ∧ ∀ direction, pump_of c direction = pump_new
  | Dialing epoch => epoch = (version - cn_cuts c)%N ∧ ∀ direction, pump_of c direction = pump_new
  | Pumping epoch => epoch = (version - cn_cuts c)%N ∧
      ∀ direction, pm_phase (pump_of c direction) ≠ Unsubscribed → (epoch ≤ pm_seen (pump_of c direction))%N
  | Closed | DialFailed => True
  end ∧
  ∀ direction, pm_phase (pump_of c direction) = EndedCut → (0 < cn_cuts c)%N.

Definition conn_ok (version : N) (c : Conn) : Prop :=
  (∀ direction, pump_ok version (pump_of c direction)) ∧ epoch_ok version c.

Definition counted_bytes (conns : list Conn) (direction : Direction) : N :=
  sum_N ((λ c, pm_counted (pump_of c direction)) <$> conns).

Definition stat_bytes (stats : LinkStats) (direction : Direction) : N :=
  match direction with
  | ClientToServer => bytes_client_to_server stats
  | ServerToClient => bytes_server_to_client stats
  end.

(** A closed connection during which the link was cut. *)
Definition is_cut (c : Conn) : bool := match cn_phase c with Closed => (0 <? cn_cuts c)%N | _ => false end.

Definition cuts (conns : list Conn) : N :=
  N.of_nat (length (filter (λ c, is_cut c = true) conns)).

(** The connections the accept loop holds in its hands. *)
Definition in_hand (phase : AcceptPhase) : N :=
  match phase with Accepted | Refusing => 1 | Listening | Stopped => 0 end.

(** The connections refused or taken on: what was accepted and is not in hand. *)
Record link_ok (s : Link) : Prop := {
  lo_ids id : is_Some (active (lk_table s) !! id) → (id < next_id (lk_table s))%N;
  lo_version : (lk_version s + N.of_nat (lk_bumps s) ≤ next_id (lk_table s) ≤ u64_max)%N;
  lo_conns : Forall (conn_ok (lk_version s)) (lk_conns s);
  lo_refused : ∃ refused,
    conns_refused (lk_stats s) = (refused mod 2 ^ 64)%N ∧
    conns_accepted (lk_stats s) =
      ((refused + N.of_nat (length (lk_conns s)) + in_hand (lk_accept s)) mod 2 ^ 64)%N;
  lo_cut : conns_cut (lk_stats s) = (cuts (lk_conns s) mod 2 ^ 64)%N;
  lo_bytes direction :
    stat_bytes (lk_stats s) direction = (counted_bytes (lk_conns s) direction mod 2 ^ 64)%N;
}.

(** What holds of the pumps of a connection holds of another with the same pumps. *)
Ltac by_direction H :=
  let d := fresh in intros d; generalize (H d); by destruct d.

Lemma pump_of_cut c direction : pump_of (conn_cut c) direction = pump_of c direction.
Proof. unfold conn_cut. by destruct (cn_phase c), direction. Qed.

Lemma conn_cut_ok version c : conn_ok version c → conn_ok (version + 1) (conn_cut c).
Proof.
  intros (Hp & Hle & Hph & Hcut). split; [|split_and!].
  - intros direction. rewrite pump_of_cut. destruct (Hp direction). split; [lia|done].
  - unfold conn_cut. destruct (cn_phase c); simpl; lia.
  - unfold conn_cut. destruct (cn_phase c) as [|e|e| |] eqn:E; simpl; rewrite ?E; try done.
    + split; [lia|]. by_direction (proj2 Hph).
    + split; [lia|]. by_direction (proj2 Hph).
  - intros direction. rewrite pump_of_cut. intros Hd. specialize (Hcut _ Hd).
    unfold conn_cut. destruct (cn_phase c); simpl; lia.
Qed.

Lemma counted_bytes_cut conns direction : counted_bytes (conn_cut <$> conns) direction = counted_bytes conns direction.
Proof.
  unfold counted_bytes. rewrite <-list_fmap_compose. f_equal. apply list_fmap_ext.
  intros _ c _. simpl. by rewrite pump_of_cut.
Qed.

Lemma cuts_cut conns : cuts (conn_cut <$> conns) = cuts conns.
Proof.
  unfold cuts. f_equal. induction conns as [|c conns IH]; [done|]. csimpl. rewrite !filter_cons.
  assert (is_cut (conn_cut c) = is_cut c) as ->.
  { unfold is_cut, conn_cut. destruct (cn_phase c) eqn:E; simpl; by rewrite ?E. }
  destruct (is_cut c); [rewrite !decide_True by done|rewrite !decide_False by done]; simpl; by rewrite IH.
Qed.

Lemma pump_of_set c direction p direction' :
  pump_of (set_pump c direction p) direction' =
  if decide (direction = direction') then p else pump_of c direction'.
Proof. by destruct direction, direction'. Qed.

(** A step of a pump keeps what the epoch says of its connection. *)
Lemma pump_step_epoch version condition c epoch direction p n :
  cn_phase c = Pumping epoch → (∀ d, pump_ok version (pump_of c d)) → epoch_ok version c →
  pump_step version condition (pump_of c direction) p n → epoch_ok version (set_pump c direction p).
Proof.
  intros Hph Hp (Hle & He & Hcut) Hstep. rewrite Hph in He. destruct He as [He Hseen].
  assert (cn_phase (set_pump c direction p) = Pumping epoch ∧ cn_cuts (set_pump c direction p) = cn_cuts c)
    as [Eph Ec] by (by destruct direction).
  assert ((pm_phase p ≠ Unsubscribed → (epoch ≤ pm_seen p)%N) ∧ (pm_phase p = EndedCut → (0 < cn_cuts c)%N))
    as [Hs Hc].
  { pose proof (proj1 (Hp direction)) as Hv. specialize (Hseen direction). specialize (Hcut direction).
    destruct Hstep; simpl; match goal with E : pm_phase _ = _ |- _ => rewrite E in * end;
      try (split; [intros _; (lia || by apply Hseen)|done]).
    - split; [intros _; by apply Hseen|]. intros _. specialize (Hseen ltac:(done)). lia.
    - split; [intros _; by apply Hseen|]. by destruct (_ =? _)%N.
    - split; [intros _; by apply Hseen|]. intros _. specialize (Hseen ltac:(done)). lia. }
  unfold epoch_ok. rewrite Eph, Ec. split_and!; [done|done| |];
    intros d; rewrite pump_of_set; case_decide; subst; (done || apply Hcut || apply Hseen).
Qed.

Lemma counted_bytes_middle before c after direction :
  counted_bytes (before ++ c :: after) direction =
  (counted_bytes (before ++ after) direction + pm_counted (pump_of c direction))%N.
Proof. unfold counted_bytes. rewrite !fmap_app, !sum_N_app. csimpl. lia. Qed.

Lemma cuts_middle before c after :
  cuts (before ++ c :: after) = (cuts (before ++ after) + if is_cut c then 1 else 0)%N.
Proof.
  unfold cuts. rewrite !filter_app, filter_cons, !length_app.
  destruct (is_cut c); [rewrite decide_True by done|rewrite decide_False by done]; simpl; lia.
Qed.

Lemma hold_spec table conditions table' id bump :
  hold table conditions = (table', id, bump) →
  id = next_id table ∧ active table' = <[id := conditions]> (active table) ∧
  next_id table' = u64_succ (next_id table) ∧
  bump = either_dropped (effective table') && negb (either_dropped (effective table)).
Proof. unfold hold. intros [= <- <- <-]. done. Qed.

(** Rewriting the middle connection keeps the others. *)
Lemma link_ok_middle s before c c' after stats :
  link_ok s → lk_conns s = before ++ c :: after →
  conn_ok (lk_version s) c' →
  conns_refused stats = conns_refused (lk_stats s) →
  conns_accepted stats = conns_accepted (lk_stats s) →
  conns_cut stats = ((cuts (before ++ after) + if is_cut c' then 1 else 0) mod 2 ^ 64)%N →
  (∀ direction, stat_bytes stats direction =
     ((counted_bytes (before ++ after) direction + pm_counted (pump_of c' direction)) mod 2 ^ 64)%N) →
  link_ok (set_conns s stats (before ++ c' :: after)).
Proof.
  intros [Hids Hver Hconns Href Hcut Hbytes] Hl Hc' Er Ea Ec Eb. rewrite Hl in *. split; simpl; [done|done| | | |].
  - apply Forall_app in Hconns as [? [_ ?]%Forall_cons]. apply Forall_app. split; [done|by constructor].
  - rewrite Er, Ea. destruct Href as (r & ? & ?). exists r. split; [done|].
    rewrite !length_app in *. done.
  - by rewrite cuts_middle.
  - intros direction. by rewrite counted_bytes_middle.
Qed.

Lemma u64_add_mod a b : u64_add (a mod 2 ^ 64) b = ((a + b) mod 2 ^ 64)%N.
Proof. unfold u64_add. change (u64_max + 1)%N with (2 ^ 64)%N. apply N.Div0.add_mod_idemp_l. Qed.

Lemma stat_add_bytes stats direction n direction' :
  stat_bytes (add_bytes stats direction n) direction' =
  if decide (direction = direction') then u64_add (stat_bytes stats direction') n
  else stat_bytes stats direction'.
Proof. by destruct direction, direction'. Qed.

(** The connection whose step it is. *)
Lemma conns_middle s before c after : link_ok s → lk_conns s = before ++ c :: after → conn_ok (lk_version s) c.
Proof. intros [_ _ Hc _ _ _] Hl. rewrite Hl in Hc. by apply Forall_app in Hc as [_ [? _]%Forall_cons]. Qed.

(** Fewer cuts than holds: the epoch does not wrap around. *)
Lemma epoch_version s : link_ok s → cut_epoch s = lk_version s.
Proof. intros [_ Hv _ _ _ _]. unfold cut_epoch. apply N.mod_small. unfold u64_max in Hv. lia. Qed.

(** The test at the end of a connection: it was cut while it lived. *)
Lemma join_cut s c epoch : link_ok s → conn_ok (lk_version s) c → cn_phase c = Pumping epoch →
  negb (cut_epoch s =? epoch)%N = (0 <? cn_cuts c)%N.
Proof.
  intros Hok (_ & Hle & He & _) Hph. rewrite (epoch_version s Hok). rewrite Hph in He. destruct He as [-> _].
  destruct (N.eqb_spec (lk_version s) (lk_version s - cn_cuts c)), (N.ltb_spec 0 (cn_cuts c)); simpl; lia || done.
Qed.

Lemma link_step_ok s s' : link_ok s → link_step s s' → link_ok s'.
Proof.
  intros Hok Hstep. pose proof Hok as [Hids Hver Hconns (refused & Hr & Ha) Hcut Hbytes].
  destruct Hstep as [s conditions table id bump Hlt Hh|s n Hn|s id|s Hph|s Hph|s Hph Hd|s Hph|s Hph Hd|
    s before c after Hl Hph|s before c after e dialed Hl Hph|s before c after e direction p n Hl Hph Hp|
    s before c after e Hl Hph H1 H2 was_cut].
  - apply hold_spec in Hh as (-> & Hact & Hnext & _).
    assert (next_id table = next_id (lk_table s) + 1)%N as Hn.
    { rewrite Hnext. unfold u64_succ, u64_max in *.
      by destruct (N.eqb_spec (next_id (lk_table s)) 18446744073709551615); [lia|]. }
    split; simpl; [|rewrite Hn; destruct bump; lia|done|eauto|done|done].
    rewrite Hact, Hn. intros id.
    destruct (decide (id = next_id (lk_table s))) as [->|]; [lia|].
    rewrite lookup_insert_ne by done. intros ?%Hids. lia.
  - split; simpl; [done|lia| |rewrite length_fmap; eauto|by rewrite cuts_cut|].
    + apply Forall_fmap. eapply Forall_impl; [exact Hconns|]. intros c. apply conn_cut_ok.
    + intros direction. by rewrite counted_bytes_cut.
  - split; simpl; [|done|done|eauto|done|done]. intros id'. rewrite lookup_delete_is_Some. naive_solver.
  - split; simpl; [done|done|done| |done|done]. exists refused. split; [done|].
    rewrite Ha, Hph, u64_succ_mod. simpl. f_equal. lia.
  - split; simpl; [done|done|done| |done|done]. exists refused. by rewrite Hph in Ha.
  - split; simpl; [done|done|done| |done|done]. exists refused. by rewrite Hph in Ha.
  - split; simpl; [done|done|done| |done|done]. exists (refused + 1)%N. rewrite Hr, Ha, Hph, u64_succ_mod.
    simpl. split; f_equal; lia.
  - split; simpl; [done|done| | | |].
    + apply Forall_app. split; [done|]. constructor; [|constructor]. split; [|split_and!; simpl; [lia|..]].
      * intros []; apply pump_new_ok.
      * split; [done|by intros []].
      * by intros [].
    + exists refused. rewrite Ha, Hph, length_app. split; [done|]. simpl. f_equal. lia.
    + rewrite cuts_middle, app_nil_r, Hcut. simpl. f_equal. lia.
    + intros direction. rewrite counted_bytes_middle, app_nil_r, Hbytes. f_equal. destruct direction; simpl; lia.
  - pose proof (conns_middle _ _ _ _ Hok Hl) as (Hp & Hle & He & Hec). rewrite Hph in He. destruct He as [Hz Hnew].
    eapply link_ok_middle; try done.
    + split; [by_direction Hp|]. unfold epoch_ok. rewrite (epoch_version s Hok). simpl.
      split_and!; [done|lia|by_direction Hnew|by_direction Hec].
    + rewrite Hcut, Hl, cuts_middle. unfold is_cut. by rewrite Hph.
    + intros direction. rewrite Hbytes, Hl, counted_bytes_middle. by destruct direction.
  - pose proof (conns_middle _ _ _ _ Hok Hl) as (Hp & Hle & He & Hec). rewrite Hph in He. destruct He as [He Hnew].
    eapply link_ok_middle; try done.
    + split; [by_direction Hp|]. unfold epoch_ok. destruct dialed; simpl.
      * split_and!; [done|done| |by_direction Hec].
        intros direction Hd. exfalso. apply Hd. specialize (Hnew direction). by destruct direction; simpl in *; rewrite Hnew.
      * split_and!; [done|done|by_direction Hec].
    + rewrite Hcut, Hl, cuts_middle. unfold is_cut. rewrite Hph. by destruct dialed.
    + intros direction. rewrite Hbytes, Hl, counted_bytes_middle. by destruct direction.
  - pose proof (conns_middle _ _ _ _ Hok Hl) as [Hc Hec].
    destruct (pump_step_ok _ _ _ _ _ (Hc direction) Hp) as [Hp' Hn].
    eapply link_ok_middle; try done.
    + split; [|by eapply pump_step_epoch]. intros d. rewrite pump_of_set. case_decide; [done|apply Hc].
    + simpl. rewrite Hcut, Hl, cuts_middle. unfold is_cut. by destruct direction; simpl; rewrite Hph.
    + intros d. rewrite stat_add_bytes, pump_of_set, Hbytes, Hl, counted_bytes_middle.
      case_decide; [subst|done]. rewrite u64_add_mod, Hn. f_equal. lia.
  - pose proof (conns_middle _ _ _ _ Hok Hl) as Hc. pose proof (join_cut s c e Hok Hc Hph) as Ecut.
    destruct Hc as (Hp & Hle & _ & Hec). subst was_cut. rewrite Ecut.
    eapply link_ok_middle; [done|done|..].
    + split; [by_direction Hp|]. split_and!; [done|done|by_direction Hec].
    + by destruct (_ <? _)%N.
    + by destruct (_ <? _)%N.
    + rewrite Hl, cuts_middle in Hcut. unfold is_cut in Hcut. rewrite Hph in Hcut. unfold is_cut.
      simpl. destruct (_ <? _)%N; simpl; rewrite Hcut; [|done]. rewrite u64_succ_mod. f_equal. lia.
    + intros direction. specialize (Hbytes direction). rewrite Hl, counted_bytes_middle in Hbytes.
      destruct direction; simpl in *; rewrite <-Hbytes; by destruct (_ <? _)%N.
Qed.

Lemma link_reachable_ok s : link_reachable s → link_ok s.
Proof.
  induction 1 as [|s s' _ IH Hs]; [|by eapply link_step_ok].
  split; simpl; try done.
  - intros id. rewrite lookup_empty. by intros [? [=]].
  - by exists 0%N.
  - by intros [].
Qed.

(** While a fault window holds a link, the link enforces it, whatever other
    windows begin or end.  In every state of a link, a direction is dropped exactly
    when some outstanding hold drops it; otherwise a full chunk is paced at least as
    long as every hold asks, by a condition that one of them (or none, when it
    passes) set.  A new hold takes an id no outstanding hold has, and ending one
    window leaves the conditions of all others in force. *)
Theorem link_holds_enforced (s : Link) (direction : Direction) :
  link_reachable s →
  let in_force := condition_of (conditions s) direction in
  (in_force = Drop ↔
     ∃ id c, active (lk_table s) !! id = Some c ∧ condition_of c direction = Drop) ∧
  (in_force ≠ Drop →
     (∀ id c, active (lk_table s) !! id = Some c →
        (pace (condition_of c direction) CHUNK ≤ pace in_force CHUNK)%N) ∧
     (in_force = Pass ∨
      ∃ id c, active (lk_table s) !! id = Some c ∧ condition_of c direction = in_force)) ∧
  (∀ c table id bump, hold (lk_table s) c = (table, id, bump) →
     active (lk_table s) !! id = None ∧ active table !! id = Some c ∧
     (∀ id', id' ≠ id → active table !! id' = active (lk_table s) !! id') ∧
     (bump = true ↔ either_dropped (conditions s) = false ∧ either_dropped c = true)) ∧
  (∀ id id', id' ≠ id →
     active (release (lk_table s) id) !! id' = active (lk_table s) !! id').
Proof.
  intros Hok%link_reachable_ok in_force. destruct (effective_spec (lk_table s) direction) as [Hd Hp].
  split_and!; [exact Hd|exact Hp| |].
  - intros c table id bump (-> & Hact & _ & ->)%hold_spec. split_and!.
    + apply eq_None_not_Some. intros Hs. pose proof (lo_ids s Hok _ Hs). lia.
    + by rewrite Hact, lookup_insert_eq.
    + intros id' Hne. by rewrite Hact, lookup_insert_ne.
    + unfold conditions. rewrite andb_true_iff, negb_true_iff.
      pose proof (either_dropped_spec table) as Ht. pose proof (either_dropped_spec (lk_table s)) as Hs.
      rewrite Hact in Ht. split.
      * intros [Hdt Hnd]. split; [done|]. apply Ht in Hdt as (id & c' & Hl & Hdc).
        apply lookup_insert_Some in Hl as [[_ ->]|[_ Hl]]; [done|].
        rewrite (proj2 Hs) in Hnd; [done|eauto].
      * intros [Hnd Hdc]. split; [|done]. apply Ht. exists (next_id (lk_table s)), c.
        by rewrite lookup_insert_eq.
  - intros id id' Hne. simpl. by rewrite lookup_delete_ne.
Qed.

(** *** What happens to a pump over any further run *)

Lemma link_step_version s s' : link_step s s' → (lk_version s ≤ lk_version s')%N.
Proof. destruct 1; simpl; lia. Qed.

(** What one step does to one pump of one connection. *)
Lemma link_step_conn s s' i c direction :
  link_step s s' → lk_conns s !! i = Some c →
  ∃ c', lk_conns s' !! i = Some c' ∧
    (pump_of c' direction = pump_of c direction ∨
     ∃ n, pump_step (lk_version s) (condition_of (conditions s) direction)
            (pump_of c direction) (pump_of c' direction) n).
Proof.
  intros Hstep Hi.
  assert (∀ stats before d d' after, lk_conns s = before ++ d :: after →
    (pump_of d' direction = pump_of d direction ∨
     ∃ n, pump_step (lk_version s) (condition_of (conditions s) direction)
            (pump_of d direction) (pump_of d' direction) n) →
    ∃ c', lk_conns (set_conns s stats (before ++ d' :: after)) !! i = Some c' ∧
      (pump_of c' direction = pump_of c direction ∨
       ∃ n, pump_step (lk_version s) (condition_of (conditions s) direction)
              (pump_of c direction) (pump_of c' direction) n)) as Hmid.
  { intros stats before d d' after Hl Hd. rewrite Hl in Hi. simpl.
    destruct (decide (i = length before)) as [->|Hne].
    - rewrite list_lookup_middle in Hi by done. simplify_eq. exists d'.
      by rewrite list_lookup_middle.
    - exists c. split; [|by left]. rewrite lookup_app in Hi |- *. destruct (before !! i) eqn:Eb; [done|].
      apply lookup_ge_None in Eb. destruct (i - length before)%nat as [|k] eqn:Ek; [lia|done]. }
  destruct Hstep; simpl; try (exists c; split; [done|by left]).
  - exists (conn_cut c). rewrite list_lookup_fmap, Hi. split; [done|]. left. apply pump_of_cut.
  - exists c. split; [by apply lookup_app_l_Some|by left].
  - eapply (Hmid (lk_stats s)); [done|]. left. by destruct direction.
  - eapply (Hmid (lk_stats s)); [done|]. left. by destruct direction.
  - eapply (Hmid (lk_stats s)); [done|]. rewrite pump_of_set. case_decide; [subst; eauto|by left].
  - eapply (Hmid (lk_stats s)); [done|]. left. by destruct direction.
Qed.

(** C35: A cut takes effect at once, up to the chunk in hand.  From any state in which
    the link was cut after a pump subscribed, over any further run of the link
    (whatever is held or released, and whatever the peers send), that pump writes to
    its peer at most the rest of one chunk. *)
Theorem link_cut_bounded (s s' : Link) (i : nat) (c : Conn) (direction : Direction) :
  link_reachable s → link_steps s s' →
  lk_conns s !! i = Some c →
  pm_phase (pump_of c direction) ≠ Unsubscribed →
  (pm_seen (pump_of c direction) < lk_version s)%N →
  ∃ c' more, lk_conns s' !! i = Some c' ∧
    pm_written (pump_of c' direction) = pm_written (pump_of c direction) ++ more ∧
    (len more ≤ CHUNK)%N.
Proof.
  intros Hr%link_reachable_ok Hsteps Hi Hsub Hseen.
  assert (allowance (pump_of c direction) ≤ CHUNK)%N as Hallow.
  { pose proof (Forall_lookup_1 _ _ _ _ (lo_conns s Hr) Hi) as [Hp _]. destruct (Hp direction) as [_ Hc].
    unfold pump_content in Hc. unfold allowance. destruct (pm_phase _); lia. }
  cut (∃ c' more, lk_conns s' !! i = Some c' ∧
    pm_written (pump_of c' direction) = pm_written (pump_of c direction) ++ more ∧
    (len more ≤ allowance (pump_of c direction))%N); [intros (c' & more & ? & ? & ?); exists c', more;
    split_and!; [done..|lia]|].
  clear Hr Hallow. induction Hsteps as [s|s s1 s' Hstep _ IH] in c, Hi, Hsub, Hseen |- *.
  - exists c, []. rewrite app_nil_r. split_and!; [done..|]. change (len []) with 0%N. lia.
  - destruct (link_step_conn s s1 i c direction Hstep Hi) as (c1 & Hi1 & Hp).
    pose proof (link_step_version _ _ Hstep) as Hv. destruct Hp as [E|[n Hp]].
    + destruct (IH c1 Hi1) as (c' & more & ? & Hw & ?); [by rewrite E|rewrite E; lia|].
      rewrite E in *. eauto.
    + destruct (pump_step_spends _ _ _ _ _ Hp Hseen Hsub) as (Es & Hsub' & more1 & Hw1 & Hle).
      destruct (IH c1 Hi1) as (c' & more & Hi' & Hw & ?); [done|rewrite Es; lia|].
      exists c', (more1 ++ more). rewrite Hw, Hw1, (assoc_L (++)), len_app. split_and!; [done..|lia].
Qed.


(** ** Where the link does less than it says *)

(** Two windows are compared on a full chunk only: with a delay and a cap held
    together, a short chunk is forwarded sooner than the delay alone asks. *)
Lemma short_chunk_relaxed :
  most_restrictive (Delay 100) (BandwidthCap 100000) = BandwidthCap 100000 ∧
  (pace (most_restrictive (Delay 100) (BandwidthCap 100000)) 100 < pace (Delay 100) 100)%N.
Proof. vm_compute. done. Qed.

Definition upstream_dropped : LinkConditions := {| client_to_server := Drop; server_to_client := Pass |}.

(** The link with one connection that was accepted before the hold dropped it. *)
Definition racing (to_client : Pump) (bytes : N) : Link :=
  {| lk_table := {| next_id := 1; active := {[0%N := upstream_dropped]} |}; lk_bumps := 0;
     lk_version := 1;
     lk_stats := {| conns_accepted := 1; conns_refused := 0; conns_cut := 0;
                    bytes_client_to_server := 0; bytes_server_to_client := bytes |};
     lk_accept := Listening;
     lk_conns := [{| cn_phase := Pumping 1; cn_to_server := pump_new; cn_to_client := to_client;
                     cn_cuts := 0 |}] |}.

Lemma racing_reachable : link_reachable (racing pump_new 0).
Proof.
  pose proof link_bound as H.
  eapply link_next in H; [|eapply LinkAccept; reflexivity].
  eapply link_next in H; [|apply LinkSpawn; reflexivity].
  eapply link_next in H; [|eapply (LinkHold _ upstream_dropped); reflexivity].
  eapply link_next in H; [|apply (LinkBump _ 0); reflexivity].
  eapply link_next in H; [|eapply (LinkReadEpoch _ []); reflexivity].
  eapply link_next in H; [|eapply (LinkDial _ [] _ [] 1 true); reflexivity]. exact H.
Qed.

Definition late_pump (phase : PumpPhase) (read written : list Byte.byte) (counted : N) : Pump :=
  {| pm_phase := phase; pm_seen := 1; pm_read := read; pm_written := written; pm_counted := counted |}.

Lemma racing_step p p' b n b' :
  pump_step 1 Pass p p' n → b' = u64_add b n → link_reachable (racing p b) →
  link_reachable (racing p' b').
Proof.
  intros Hs -> Hr. eapply link_next; [exact Hr|].
  by apply (LinkPump (racing p b) [] {| cn_phase := Pumping 1; cn_to_server := pump_new;
    cn_to_client := p; cn_cuts := 0 |} [] 1 ServerToClient p' n).
Qed.

(** A connection that was accepted before a hold dropped the link and subscribes
    after the cut is not cut: it goes on forwarding in the direction the hold
    passes, while new connections are refused. *)
Lemma late_subscriber_uncut :
  ∃ s, link_reachable s ∧ either_dropped (conditions s) = true ∧ lk_bumps s = 0 ∧
    bytes_server_to_client (lk_stats s) = 1%N.
Proof.
  set (c := [Byte.x00]). exists (racing (late_pump Waiting c c 1) 1). split; [|vm_compute; done].
  apply (racing_step (late_pump (Counting c) c c 0) (late_pump Waiting c c 1) 0 1);
    [exact (PumpCount 1 Pass (late_pump (Counting c) c c 0) c eq_refl)|done|].
  apply (racing_step (late_pump (Writing c) c [] 0) (late_pump (Counting c) c c 0) 0 0);
    [exact (PumpWrite 1 Pass (late_pump (Writing c) c [] 0) c eq_refl)|done|].
  apply (racing_step (late_pump (Have c) c [] 0) (late_pump (Writing c) c [] 0) 0 0);
    [by apply (PumpPaced 1 Pass (late_pump (Have c) c [] 0) c)|done|].
  apply (racing_step (late_pump Polled [] [] 0) (late_pump (Have c) c [] 0) 0 0);
    [by apply (PumpRead 1 Pass (late_pump Polled [] [] 0) c)|done|].
  apply (racing_step (late_pump Waiting [] [] 0) (late_pump Polled [] [] 0) 0 0);
    [by apply (PumpPoll 1 Pass (late_pump Waiting [] [] 0))|done|].
  apply (racing_step pump_new (late_pump Waiting [] [] 0) 0 0);
    [by apply (PumpSubscribe 1 Pass pump_new)|done|apply racing_reachable].
Qed.
