(* ===== verification/Fleet.v ===== *)
(** * The fleet runner: topology, catalog addresses and fault links

    Models of [crates/duckspout-fleet/src]: topology.rs (the nodes and their seed
    lists), dsn.rs (reading and rewriting the catalog's address), backend_check.rs
    (the lake's address) and, of main.rs, the command line and what is computed from
    it before the fleet runs: which links are needed, how they are bound and how a
    node's configuration deviates.  Creating a directory and binding a listener are
    the operating system's; a port is a [u16]. *)

From Stdlib Require Import Ascii.
From S2P Require Import Prelude RustStd Types System Hrw Routing Wiring WiringProps.

(** ** Strings *)

(** [str::split_once] with a string: at its first occurrence. *)
Fixpoint split_once_str (pat s : string) : option (string * string) :=
  match strip_prefix pat s with
  | Some rest => Some ("", rest)
  | None =>
      match s with
      | EmptyString => None
      | String c s => (λ '(a, b), (String c a, b)) <$> split_once_str pat s
      end
  end.

(** [str::split_at] the first character that satisfies [stop]; all of it when none
    does. *)
Fixpoint split_at_char (stop : ascii → bool) (s : string) : string * string :=
  match s with
  | EmptyString => ("", "")
  | String c s =>
      if stop c then ("", String c s)
      else let '(a, b) := split_at_char stop s in (String c a, b)
  end.

(** [str::matches(c).count()] *)
Fixpoint count_char (c : ascii) (s : string) : nat :=
  match s with
  | EmptyString => 0
  | String d s => (if Ascii.eqb c d then 1 else 0) + count_char c s
  end.

(** [str::split_whitespace]: the words of [acc ++ s], where [acc] holds no white
    space.  Each round takes a byte or a white space of [s]. *)
Fixpoint words_from (fuel : nat) (acc s : string) : list string :=
  let flush := if is_empty_string acc then [] else [acc] in
  match fuel with
  | O => flush
  | S fuel =>
      match strip_space s with
      | Some rest => flush ++ words_from fuel "" rest
      | None =>
          match s with
          | EmptyString => flush
          | String c s => words_from fuel (acc +:+ String c "") s
          end
      end
  end.

Definition split_whitespace (s : string) : list string := words_from (S (String.length s)) "" s.

(** [[String]::join] *)
Fixpoint str_join (sep : string) (l : list string) : string :=
  match l with
  | [] => ""
  | [s] => s
  | s :: l => s +:+ sep +:+ str_join sep l
  end.

Definition u16_max : N := 65535.

(** [str::parse::<u16>], without the kind of the error. *)
Definition parse_u16 (s : string) : option N :=
  match parse_u64 s with
  | Ok n => if (n <=? u16_max)%N then Some n else None
  | Err _ => None
  end.

(** [u16] addition, which wraps in a release build. *)
Definition u16_add (a b : N) : N := ((a + b) mod 2 ^ 16)%N.

(** ** dsn.rs and backend_check.rs *)

Inductive AddressError :=
| Ipv6Host (dsn : string)
| NonNumericPort (port : string)
| NoHost (dsn : string)
| NotKeyValue (token : string)
| EmptyDsn (dsn : string)
| MissingPort (endpoint : string).

(** [DEFAULT_PORT] *)
Definition DEFAULT_PORT : N := 5432.

(** The end of a URI's authority. *)
Definition ends_authority (c : ascii) : bool := Ascii.eqb c "/" || Ascii.eqb c "?".

Definition read_port (port : string) : result N AddressError :=
  match parse_u16 port with Some n => Ok n | None => Err (NonNumericPort port) end.

(** [keyword_prefix] *)
Definition keyword_prefix (dsn : string) : string :=
  if starts_with "postgresql:" dsn then "postgresql:"
  else if starts_with "postgres:" dsn then "postgres:"
  else "".

(** The pairs of some tokens. *)
Fixpoint key_values (tokens : list string) : result (list (string * string)) AddressError :=
  match tokens with
  | [] => Ok []
  | token :: tokens =>
      match split_once "=" token with
      | None => Err (NotKeyValue token)
      | Some kv => let? pairs := key_values tokens in Ok (kv :: pairs)
      end
  end.

(** [keyword_tokens] *)
Definition keyword_tokens (dsn : string) : result (list (string * string)) AddressError :=
  let body := default dsn (strip_prefix (keyword_prefix dsn) dsn) in
  let? pairs := key_values (split_whitespace body) in
  match pairs with [] => Err (EmptyDsn dsn) | _ => Ok pairs end.

(** [find_map] for a key *)
Definition value_of (key : string) (pairs : list (string * string)) : option string :=
  snd <$> List.find (λ kv, bool_decide (kv.1 = key)) pairs.

(** [postgres_host_port] *)
Definition postgres_host_port (dsn : string) : result (string * N) AddressError :=
  match split_once_str "://" dsn with
  | Some (_, rest) =>
      let authority := (split_at_char ends_authority rest).1 in
      let host_port := match rsplit_once "@" authority with Some (_, h) => h | None => authority end in
      if starts_with "[" host_port || (1 <? count_char ":" host_port)%nat then Err (Ipv6Host dsn)
      else
        match rsplit_once ":" host_port with
        | Some (host, port) => let? port := read_port port in Ok (host, port)
        | None => Ok (host_port, DEFAULT_PORT)
        end
  | None =>
      let? keywords := keyword_tokens dsn in
      match value_of "host" keywords with
      | None => Err (NoHost dsn)
      | Some host =>
          match value_of "port" keywords with
          | Some port => let? port := read_port port in Ok (host, port)
          | None => Ok (host, DEFAULT_PORT)
          end
      end
  end.

(** [rewrite_postgres_host_port] *)
Definition rewrite_postgres_host_port (dsn host : string) (port : N) : result string AddressError :=
  match split_once_str "://" dsn with
  | Some (scheme, rest) =>
      let '(authority, tail) := split_at_char ends_authority rest in
      let userinfo := match rsplit_once "@" authority with Some (u, _) => u +:+ "@" | None => "" end in
      Ok (scheme +:+ "://" +:+ userinfo +:+ host +:+ ":" +:+ pretty port +:+ tail)
  | None =>
      let prefix := keyword_prefix dsn in
      let? keywords := keyword_tokens dsn in
      let rendered := (λ kv, kv.1 +:+ "=" +:+ kv.2) <$>
        filter (λ kv : string * string, kv.1 ≠ "host" ∧ kv.1 ≠ "port") keywords in
      Ok (prefix +:+ str_join " " (("host=" +:+ host) :: ("port=" +:+ pretty port) :: rendered))
  end.

(** [s3_host_port] *)
Definition s3_host_port (endpoint : string) : result (string * N) AddressError :=
  match rsplit_once ":" endpoint with
  | None => Err (MissingPort endpoint)
  | Some (host, port) => let? port := read_port port in Ok (host, port)
  end.

(** ** topology.rs *)

(** [NodeSpec] *)
Record NodeSpec := {
  ns_index : N;
  ns_name : string;
  ns_otlp_port : N;
  ns_flight_port : N;
  ns_peer_port : N;
  ns_status_port : N;
  ns_data_dir : string;
  ns_config_path : string;
  ns_journal_path : string;
  ns_stdout_path : string;
  ns_stderr_path : string;
}.

(** [node_name] *)
Definition node_name (seed index : N) : string := "fleet-" +:+ pretty seed +:+ "-" +:+ pretty index.

(** The base ports of a fleet. *)
Record BasePorts := { bp_otlp : N; bp_flight : N; bp_peer : N; bp_status : N }.

(** One round of [provision_nodes]. *)
Definition provision_node (work_dir : string) (seed : N) (ports : BasePorts) (index : N) : NodeSpec :=
  let node_dir := path_join work_dir ("node-" +:+ pretty index) in
  {| ns_index := index; ns_name := node_name seed index;
     ns_otlp_port := u16_add (bp_otlp ports) index; ns_flight_port := u16_add (bp_flight ports) index;
     ns_peer_port := u16_add (bp_peer ports) index; ns_status_port := u16_add (bp_status ports) index;
     ns_data_dir := path_join node_dir "data"; ns_config_path := path_join node_dir "config.toml";
     ns_journal_path := path_join node_dir "journal.ndjson";
     ns_stdout_path := path_join node_dir "stdout.log";
     ns_stderr_path := path_join node_dir "stderr.log" |}.

(** [provision_nodes]; [create_dir_all] is the operating system's answer for a
    directory. *)
Fixpoint provision_from (create_dir_all : string → result unit string) (work_dir : string) (seed : N)
    (ports : BasePorts) (indices : list N) : result (list NodeSpec) string :=
  match indices with
  | [] => Ok []
  | index :: indices =>
      let node := provision_node work_dir seed ports index in
      let? _ := create_dir_all (ns_data_dir node) in
      let? nodes := provision_from create_dir_all work_dir seed ports indices in
      Ok (node :: nodes)
  end.

Definition provision_nodes (create_dir_all : string → result unit string) (work_dir : string)
    (seed count : N) (ports : BasePorts) : result (list NodeSpec) string :=
  provision_from create_dir_all work_dir seed ports (N.of_nat <$> seq 0 (N.to_nat count)).

(** The entries of [cluster.seed_peers] that [render_node_config] writes, without
    the quotes. *)
Definition seed_peers (node : NodeSpec) (all_nodes : list NodeSpec) : list string :=
  (λ peer, ns_name peer +:+ ":" +:+ pretty (ns_peer_port peer)) <$>
    filter (λ peer, ns_index peer ≠ ns_index node) all_nodes.

(** [NodeOverrides] *)
Record NodeOverrides := {
  no_postgres_dsn : option string;
  no_s3_endpoint : option string;
  no_hot_window : option string;
}.

(** ** The command line *)

(** [Cli]; a path is a string, the seconds and milliseconds are read as such. *)
Record Cli := {
  cli_seed : N;
  cli_nodes : N;
  cli_work_dir : option string;
  cli_daemon_bin : option string;
  cli_loadgen_bin : option string;
  cli_rf : N;
  cli_otlp_base_port : N;
  cli_flight_base_port : N;
  cli_peer_base_port : N;
  cli_status_base_port : N;
  cli_postgres_dsn : string;
  cli_postgres_password : string;
  cli_local_lake : bool;
  cli_s3_endpoint : string;
  cli_s3_bucket : string;
  cli_s3_prefix : string;
  cli_s3_region : string;
  cli_s3_access_key_id : string;
  cli_s3_secret_access_key : string;
  cli_skip_backend_check : bool;
  cli_backend_check_timeout_secs : N;
  cli_hot_window : string;
  cli_allowed_lateness : string;
  cli_boot_timeout_secs : N;
  cli_load_batches : N;
  cli_load_batch_size : N;
  cli_load_interval_ms : N;
  cli_tenant : option string;
  cli_settle_timeout_secs : N;
  cli_shutdown_grace_secs : N;
  cli_journal_sample_interval_ms : N;
  cli_fault_kill_node : option N;
  cli_fault_kill_mid_drain : bool;
  cli_fault_kill_delay_secs : N;
  cli_fault_kill_drain_stall_ms : N;
  cli_fault_kill_mid_drain_timeout_secs : N;
  cli_fault_sigstop_node : option N;
  cli_fault_sigstop_delay_secs : N;
  cli_fault_sigstop_duration_secs : N;
  cli_fault_partition_node : option N;
  cli_fault_partition_delay_secs : N;
  cli_fault_partition_duration_secs : N;
  cli_fault_degrade_node : option N;
  cli_fault_degrade_delay_secs : N;
  cli_fault_degrade_duration_secs : N;
  cli_fault_degrade_request_delay_ms : N;
  cli_fault_degrade_response_bytes_per_sec : N;
  cli_fault_churn_leave_node : option N;
  cli_fault_churn_leave_delay_secs : N;
  cli_fault_churn_join : bool;
  cli_fault_churn_join_delay_secs : N;
  cli_fault_flight_kill_node : option N;
  cli_fault_flight_kill_delay_secs : N;
  cli_fault_flight_kill_query : string;
  cli_fault_flight_kill_first_message_timeout_secs : N;
  cli_fault_catalog_outage_node : option N;
  cli_fault_catalog_outage_delay_secs : N;
  cli_fault_catalog_outage_duration_secs : N;
  cli_fault_discovery_flap_node : option N;
  cli_fault_discovery_flap_delay_secs : N;
  cli_fault_discovery_flap_cycles : N;
  cli_fault_discovery_flap_down_ms : N;
  cli_fault_discovery_flap_up_ms : N;
  cli_fault_cache_churn_node : option N;
  cli_fault_cache_churn_delay_secs : N;
  cli_fault_cache_churn_duration_secs : N;
  cli_fault_cache_churn_hot_window : string;
  cli_fault_cache_churn_query : string;
  cli_fault_cache_churn_read_interval_ms : N;
}.

(** [ingest_faulted_nodes] *)
Definition ingest_faulted_nodes (cli : Cli) : gset N :=
  list_to_set (omap id
    [cli_fault_kill_node cli; cli_fault_sigstop_node cli; cli_fault_partition_node cli;
     cli_fault_degrade_node cli; cli_fault_churn_leave_node cli; cli_fault_flight_kill_node cli]).

(** [load::LoadResult] and its [fully_accepted] *)
Record LoadResult := { lr_batches_attempted : N; lr_batches_accepted : N; lr_records_accepted : N }.

Definition fully_accepted (r : LoadResult) : bool :=
  (0 <? lr_batches_attempted r)%N && (lr_batches_accepted r =? lr_batches_attempted r)%N.

(** [all_batches_accepted] *)
Definition all_batches_accepted (cli : Cli) (load_results : list LoadResult) : bool :=
  let exempt := ingest_faulted_nodes cli in
  forallb id (imap (λ index result,
    (bool_decide (N.of_nat index ≤ u16_max)%N && bool_decide (N.of_nat index ∈ exempt)) ||
    fully_accepted result) load_results).

(** [churn_hot_window_forces_something] *)
Definition churn_hot_window_forces_something (cli : Cli) : bool :=
  bool_decide (cli_fault_cache_churn_hot_window cli ≠ cli_hot_window cli).

(** ** Fault links *)

(** A [FaultLink] as its clients name it: its label, its upstream, the port it
    listens on. *)
Record FaultLink := { fk_label : string; fk_upstream : string; fk_listen_port : N }.

(** [NodeLinks] *)
Record NodeLinks := {
  nl_ingress : option FaultLink;
  nl_catalog : option FaultLink;
  nl_lake : option FaultLink;
}.

(** [NodeLinks::all] *)
Definition all_links (links : NodeLinks) : list FaultLink :=
  omap id [nl_ingress links; nl_catalog links; nl_lake links].

Abbreviation FleetLinks := (gmap N NodeLinks).

(** [LinkNeeds] *)
Record LinkNeeds := { need_ingress : bool; need_catalog : bool; need_lake : bool }.

(** [LinkNeeds::none] *)
Definition needs_none (needs : LinkNeeds) : bool :=
  negb (need_ingress needs) && negb (need_catalog needs) && negb (need_lake needs).

(** [link_needs] *)
Definition link_needs (cli : Cli) (index : N) : LinkNeeds :=
  let targets (flag : option N) := bool_decide (flag = Some index) in
  let partitioned := targets (cli_fault_partition_node cli) in
  {| need_ingress := partitioned || targets (cli_fault_degrade_node cli);
     need_catalog := partitioned || targets (cli_fault_catalog_outage_node cli)
                     || targets (cli_fault_discovery_flap_node cli);
     need_lake := partitioned && negb (cli_local_lake cli) |}.

Inductive LinkError := BindFailed (label : string) | BadAddress (e : AddressError).

Section links.
(** [FaultLink::bind]'s listener: the port the operating system gives it. *)
Context (listen : string → result N string).

Definition bind_link (label host : string) (port : N) : result FaultLink LinkError :=
  let? listen_port := map_err (λ _, BindFailed label) (listen label) in
  Ok {| fk_label := label; fk_upstream := host +:+ ":" +:+ pretty port;
        fk_listen_port := listen_port |}.

Definition when_needed (needed : bool) (built : result FaultLink LinkError) :
    result (option FaultLink) LinkError :=
  if needed then let? link := built in Ok (Some link) else Ok None.

(** One round of [build_fault_links]. *)
Definition build_node_links (cli : Cli) (node : NodeSpec) (needs : LinkNeeds) :
    result NodeLinks LinkError :=
  let? ingress := when_needed (need_ingress needs)
    (bind_link (ns_name node +:+ "-ingest") "127.0.0.1" (ns_otlp_port node)) in
  let? catalog := when_needed (need_catalog needs)
    (let? at_ := map_err BadAddress (postgres_host_port (cli_postgres_dsn cli)) in
     bind_link (ns_name node +:+ "-catalog") at_.1 at_.2) in
  let? lake := when_needed (need_lake needs)
    (let? at_ := map_err BadAddress (s3_host_port (cli_s3_endpoint cli)) in
     bind_link (ns_name node +:+ "-lake") at_.1 at_.2) in
  Ok {| nl_ingress := ingress; nl_catalog := catalog; nl_lake := lake |}.

(** [build_fault_links] *)
Fixpoint build_links_from (cli : Cli) (links : FleetLinks) (nodes : list NodeSpec) :
    result FleetLinks LinkError :=
  match nodes with
  | [] => Ok links
  | node :: nodes =>
      let needs := link_needs cli (ns_index node) in
      if needs_none needs then build_links_from cli links nodes
      else
        let? node_links := build_node_links cli node needs in
        build_links_from cli (<[ns_index node := node_links]> links) nodes
  end.

Definition build_fault_links (cli : Cli) (nodes : list NodeSpec) : result FleetLinks LinkError :=
  build_links_from cli ∅ nodes.
End links.

(** [node_overrides] *)
Definition node_overrides (cli : Cli) (index : N) (links : option NodeLinks) :
    result NodeOverrides AddressError :=
  let hot_window := if bool_decide (cli_fault_cache_churn_node cli = Some index)
                    then Some (cli_fault_cache_churn_hot_window cli) else None in
  match links with
  | None => Ok {| no_postgres_dsn := None; no_s3_endpoint := None; no_hot_window := hot_window |}
  | Some links =>
      let? postgres_dsn :=
        match nl_catalog links with
        | None => Ok None
        | Some link =>
            let? dsn := rewrite_postgres_host_port (cli_postgres_dsn cli) "127.0.0.1"
                          (fk_listen_port link) in
            Ok (Some dsn)
        end in
      Ok {| no_postgres_dsn := postgres_dsn;
            no_s3_endpoint := (λ link, "127.0.0.1:" +:+ pretty (fk_listen_port link)) <$> nl_lake links;
            no_hot_window := hot_window |}
  end.

(** [load_target_addr] *)
Definition load_target_addr (node : NodeSpec) (links : FleetLinks) : string :=
  match links !! ns_index node ≫= nl_ingress with
  | Some link => "http://127.0.0.1:" +:+ pretty (fk_listen_port link)
  | None => "http://127.0.0.1:" +:+ pretty (ns_otlp_port node)
  end.

(** Errors the fault groups raise before a window is armed. *)
Inductive LinkKind := Ingress | Catalog.

Inductive SetupError :=
| NoSuchNode (flag : string) (index : N)
| NoLinkBuilt (flag : string) (index : N) (kind : LinkKind)
| NoLinksToCut (index : N)
| NoJoiner.

(** [node_spec] *)
Definition node_spec (nodes : list NodeSpec) (index : N) (flag : string) : result NodeSpec SetupError :=
  match nodes !! N.to_nat index with Some node => Ok node | None => Err (NoSuchNode flag index) end.

(** [require_link] *)
Definition require_link (links : FleetLinks) (index : N) (kind : LinkKind) (flag : string) :
    result FaultLink SetupError :=
  match links !! index ≫= (match kind with Ingress => nl_ingress | Catalog => nl_catalog end) with
  | Some link => Ok link
  | None => Err (NoLinkBuilt flag index kind)
  end.

(** ** Reading a rewritten address *)

Lemma app_assoc_str (a b c : string) : (a +:+ b) +:+ c = a +:+ b +:+ c.
Proof. apply string_app_assoc. Qed.

Lemma strip_prefix_app w s : strip_prefix w (w +:+ s) = Some s.
Proof. induction w as [|c w IH]; [done|]. change (String c w +:+ s) with (String c (w +:+ s)). simpl. by rewrite Ascii.eqb_refl. Qed.

Lemma strip_prefix_Some w s rest : strip_prefix w s = Some rest → s = w +:+ rest.
Proof.
  revert s. induction w as [|c w IH]; intros s; simpl; [by intros [= ->]|]. destruct s as [|d s]; [done|].
  destruct (Ascii.eqb_spec c d) as [->|]; [|done]. intros ->%IH. done.
Qed.

(** Whether a prefix matches depends on its own length only. *)
Lemma strip_prefix_ext w u b b' : (String.length w ≤ String.length u)%nat →
  strip_prefix w (u +:+ b) = None → strip_prefix w (u +:+ b') = None.
Proof.
  revert w. induction u as [|d u IH]; intros [|c w]; simpl; try lia; try done.
  intros Hl. change (String d u +:+ b) with (String d (u +:+ b)). change (String d u +:+ b') with (String d (u +:+ b')).
  simpl. destruct (Ascii.eqb c d); [|done]. apply IH. lia.
Qed.

Lemma split_once_str_Some pat s a b :
  split_once_str pat s = Some (a, b) → s = a +:+ pat +:+ b ∧ ∀ b', split_once_str pat (a +:+ pat +:+ b') = Some (a, b').
Proof.
  revert a. induction s as [|c s IH]; intros a; simpl.
  - destruct (strip_prefix pat "") as [rest|] eqn:E; [|done]. intros [= <- <-]. apply strip_prefix_Some in E as E'.
    split; [done|]. intros b'. change ("" +:+ pat +:+ b') with (pat +:+ b').
    destruct pat; [by destruct b'|done].
  - destruct (strip_prefix pat (String c s)) as [rest|] eqn:E.
    + intros [= <- <-]. apply strip_prefix_Some in E. split; [done|]. intros b'.
      change ("" +:+ pat +:+ b') with (pat +:+ b'). pose proof (strip_prefix_app pat b') as Hs.
      destruct (pat +:+ b'); simpl; by rewrite Hs.
    + destruct (split_once_str pat s) as [[a0 b0]|] eqn:Es; [|done]. simpl. intros [= <- <-].
      destruct (IH a0 eq_refl) as [-> Hb]. split; [done|]. intros b'.
      change (String c a0 +:+ pat +:+ b') with (String c (a0 +:+ pat +:+ b')). simpl.
      assert (strip_prefix pat (String c (a0 +:+ pat +:+ b')) = None) as ->; [|by rewrite Hb].
      change (String c (a0 +:+ pat +:+ b0)) with (String c a0 +:+ pat +:+ b0) in E.
      change (String c (a0 +:+ pat +:+ b')) with (String c a0 +:+ pat +:+ b').
      rewrite <-app_assoc_str in E |- *. eapply strip_prefix_ext; [|exact E].
      clear. generalize (String c a0). intros a. induction a as [|d a IHa]; [done|].
      change (String.length (String d a +:+ pat)) with (S (String.length (a +:+ pat))). lia.
Qed.

(** No character of the string satisfies [stop]. *)
Fixpoint none_of (stop : ascii → bool) (s : string) : bool :=
  match s with EmptyString => true | String c s => negb (stop c) && none_of stop s end.

Lemma none_of_app stop a b : none_of stop (a +:+ b) = none_of stop a && none_of stop b.
Proof.
  induction a as [|c a IH]; [done|]. change (String c a +:+ b) with (String c (a +:+ b)). simpl.
  by rewrite IH, andb_assoc.
Qed.

Lemma split_at_char_spec stop s a b : split_at_char stop s = (a, b) →
  s = a +:+ b ∧ none_of stop a = true ∧ ∀ a', none_of stop a' = true → split_at_char stop (a' +:+ b) = (a', b).
Proof.
  revert a. induction s as [|c s IH]; intros a; simpl.
  - intros [= <- <-]. split_and!; [done..|]. intros a' Ha. induction a' as [|d a' IHa]; [done|]. simpl in Ha.
    apply andb_true_iff in Ha as [Hd Ha]. change (String d a' +:+ "") with (String d (a' +:+ "")). simpl.
    apply negb_true_iff in Hd. by rewrite Hd, IHa.
  - destruct (stop c) eqn:Ec.
    + intros [= <- <-]. split_and!; [done..|]. intros a' Ha. induction a' as [|d a' IHa].
      * change ("" +:+ String c s) with (String c s). simpl. by rewrite Ec.
      * simpl in Ha. apply andb_true_iff in Ha as [Hd Ha].
        change (String d a' +:+ String c s) with (String d (a' +:+ String c s)). simpl.
        apply negb_true_iff in Hd. by rewrite Hd, IHa.
    + destruct (split_at_char stop s) as [a0 b0] eqn:E. intros [= <- <-]. destruct (IH a0 eq_refl) as (-> & Ha & Hb).
      split_and!; [done|simpl; by rewrite Ec|done].
Qed.

(** A host without a character that any form gives a meaning: letters, digits, a dot,
    a dash or an underscore. *)
Definition plain_char (c : ascii) : bool :=
  byte_between 48 57 c || byte_between 65 90 c || byte_between 97 122 c ||
  Ascii.eqb c "." || Ascii.eqb c "-" || Ascii.eqb c "_".

Fixpoint plain (s : string) : bool :=
  match s with EmptyString => true | String c s => plain_char c && plain s end.

Lemma plain_none stop s : (∀ c, plain_char c = true → stop c = false) → plain s = true → none_of stop s = true.
Proof.
  intros Hs. induction s as [|c s IH]; [done|]. simpl. intros [Hc Hp]%andb_true_iff. rewrite (Hs c Hc). auto.
Qed.

Lemma plain_digits s : all_digits s = true → plain s = true.
Proof.
  induction s as [|c s IH]; [done|]. simpl. intros [Hc Hs]%andb_true_iff. unfold plain_char. rewrite Hc. simpl. auto.
Qed.

Lemma none_of_contains d s : none_of (Ascii.eqb d) s = true → contains_char d s = false.
Proof.
  induction s as [|c s IH]; [done|]. simpl. intros [Hc Hs]%andb_true_iff. apply negb_true_iff in Hc.
  unfold contains_char in *. simpl. rewrite Hc. specialize (IH Hs). by destruct (split_once d s).
Qed.

Lemma none_of_count d s : none_of (Ascii.eqb d) s = true → count_char d s = 0%nat.
Proof.
  induction s as [|c s IH]; [done|]. simpl. intros [Hc Hs]%andb_true_iff. apply negb_true_iff in Hc. rewrite Hc. auto.
Qed.

Lemma count_char_app d a b : count_char d (a +:+ b) = (count_char d a + count_char d b)%nat.
Proof.
  induction a as [|c a IH]; [done|]. change (String c a +:+ b) with (String c (a +:+ b)). simpl. rewrite IH. lia.
Qed.

Lemma plain_no d s : plain_char d = false → plain s = true → none_of (Ascii.eqb d) s = true.
Proof. intros Hd. apply plain_none. intros c Hc. by destruct (Ascii.eqb_spec d c) as [->|]; [congruence|]. Qed.

Lemma read_port_pretty port : (port ≤ u16_max)%N → read_port (pretty port) = Ok port.
Proof.
  intros Hp. unfold read_port, parse_u16. rewrite parse_pretty by (unfold is_u64, u64_max, u16_max in *; lia).
  apply N.leb_le in Hp. by rewrite Hp.
Qed.

(** The host and port that [postgres_host_port] reads off an authority. *)
Lemma host_port_read host port userinfo :
  plain host = true → (port ≤ u16_max)%N →
  let host_port := host +:+ ":" +:+ pretty port in
  (∀ authority, authority = match userinfo with Some u => u +:+ "@" +:+ host_port | None => host_port end →
     match rsplit_once "@" authority with Some (_, h) => h | None => authority end = host_port) ∧
  starts_with "[" host_port || (1 <? count_char ":" host_port)%nat = false ∧
  rsplit_once ":" host_port = Some (host, pretty port).
Proof.
  intros Hh Hp host_port. pose proof (plain_digits _ (pretty_digits port)) as Hd.
  assert (contains_char "@" host_port = false) as Hat.
  { apply none_of_contains. unfold host_port. rewrite !none_of_app, (plain_no _ host), (plain_no _ (pretty port)) by done. done. }
  split_and!.
  - intros authority ->. destruct userinfo as [u|]; [|by rewrite rsplit_once_None].
    change ("@" +:+ host_port) with (String "@" host_port). by rewrite rsplit_once_app.
  - apply orb_false_iff. split.
    + unfold starts_with, host_port. destruct host as [|c host]; [done|].
      change (String c host +:+ ":" +:+ pretty port) with (String c (host +:+ ":" +:+ pretty port)).
      cbn [strip_prefix]. simpl in Hh. apply andb_true_iff in Hh as [Hc _].
      destruct (Ascii.eqb_spec "[" c) as [<-|]; done.
    + unfold host_port. rewrite !count_char_app, (none_of_count _ host), (none_of_count _ (pretty port)) by by apply plain_no.
      done.
  - change host_port with (host +:+ String ":" (pretty port)). apply rsplit_once_app.
    apply digits_no_colon, pretty_digits.
Qed.

Lemma rsplit_once_rest c s :
  match rsplit_once c s with Some (_, b) => none_of (Ascii.eqb c) b | None => none_of (Ascii.eqb c) s end = true.
Proof.
  induction s as [|d s IH]; simpl; [done|]. destruct (rsplit_once c s) as [[a b]|]; [done|].
  destruct (Ascii.eqb c d); simpl; done.
Qed.

Lemma plain_no_authority c : plain_char c = true → ends_authority c = false.
Proof.
  unfold ends_authority. intros Hc. destruct (Ascii.eqb_spec c "/") as [->|]; [done|].
  by destruct (Ascii.eqb_spec c "?") as [->|].
Qed.

(** The URI form. *)
Lemma rewrite_uri dsn host port scheme rest :
  plain host = true → (port ≤ u16_max)%N → split_once_str "://" dsn = Some (scheme, rest) →
  ∃ dsn' userinfo tail, rewrite_postgres_host_port dsn host port = Ok dsn' ∧
    dsn' = scheme +:+ "://" +:+ userinfo +:+ host +:+ ":" +:+ pretty port +:+ tail ∧
    (∃ old, none_of (Ascii.eqb "@") old = true ∧ dsn = scheme +:+ "://" +:+ userinfo +:+ old +:+ tail) ∧
    postgres_host_port dsn' = Ok (host, port).
Proof.
  intros Hh Hp Hs. unfold rewrite_postgres_host_port. rewrite Hs.
  destruct (split_once_str_Some _ _ _ _ Hs) as [Hdsn Hs'].
  destruct (split_at_char ends_authority rest) as [authority tail] eqn:Ea.
  destruct (split_at_char_spec _ _ _ _ Ea) as (-> & Hauth & Hsplit).
  destruct (rsplit_once "@" authority) as [[u old]|] eqn:Er.
  - apply rsplit_once_Some in Er as Hau. pose proof (rsplit_once_rest "@" authority) as Hrest.
    rewrite Er in Hrest. subst authority.
    rewrite none_of_app in Hauth. apply andb_true_iff in Hauth as [Hu Ho].
    destruct (host_port_read host port (Some u) Hh Hp) as (Hat & Hb & Hc). eexists _, (u +:+ "@"), tail.
    split_and!; [done|done|exists old; split; [done|rewrite Hdsn, !app_assoc_str; done]|].
    unfold postgres_host_port. rewrite Hs'.
    assert (split_at_char ends_authority ((u +:+ "@") +:+ host +:+ ":" +:+ pretty port +:+ tail) =
      (u +:+ "@" +:+ host +:+ ":" +:+ pretty port, tail)) as ->.
    { rewrite <-Hsplit; [by rewrite !app_assoc_str|]. rewrite !none_of_app, Hu.
      by rewrite (plain_none _ host), (plain_none _ (pretty port)) by
        first [done|apply plain_digits, pretty_digits|apply plain_no_authority]. }
    simpl. rewrite (Hat _ eq_refl), Hb, Hc, read_port_pretty by done. done.
  - pose proof (rsplit_once_rest "@" authority) as Hrest. rewrite Er in Hrest.
    destruct (host_port_read host port None Hh Hp) as (Hat & Hb & Hc).
    eexists _, "", tail. split_and!; [done|done|by exists authority|]. unfold postgres_host_port. rewrite Hs'.
    assert (split_at_char ends_authority ("" +:+ host +:+ ":" +:+ pretty port +:+ tail) =
      (host +:+ ":" +:+ pretty port, tail)) as ->.
    { rewrite <-Hsplit; [by rewrite !app_assoc_str|]. rewrite !none_of_app.
      by rewrite (plain_none _ host), (plain_none _ (pretty port)) by
        first [done|apply plain_digits, pretty_digits|apply plain_no_authority]. }
    simpl. rewrite (Hat _ eq_refl), Hb, Hc, read_port_pretty by done. done.
Qed.

(** *** The keyword form *)

Lemma strip_prefix_mono w y r : is_Some (strip_prefix w y) → is_Some (strip_prefix w (y +:+ r)).
Proof.
  intros [rest ->%strip_prefix_Some]. rewrite app_assoc_str, strip_prefix_app. by eexists.
Qed.

(** A pattern without a character cannot match across it. *)
Lemma strip_prefix_before w y d r :
  none_of (Ascii.eqb d) w = true → is_Some (strip_prefix w (y +:+ String d r)) → is_Some (strip_prefix w y).
Proof.
  revert w. induction y as [|c y IH]; intros [|e w]; simpl; try done.
  - intros [Hd _]%andb_true_iff. change ("" +:+ String d r) with (String d r). simpl.
    destruct (Ascii.eqb_spec e d) as [->|]; [|by intros [? [=]]]. by rewrite Ascii.eqb_refl in Hd.
  - intros [_ Hw]%andb_true_iff. change (String c y +:+ String d r) with (String c (y +:+ String d r)). simpl.
    destruct (Ascii.eqb e c); [|by intros [? [=]]]. by apply IH.
Qed.

Lemma strip_space_None s : strip_space s = None ↔ ∀ w, w ∈ white_spaces → strip_prefix w s = None.
Proof.
  unfold strip_space. generalize white_spaces. intros l. induction l as [|w l IH]; simpl.
  - split; [|done]. intros _ w []%not_elem_of_nil.
  - destruct (strip_prefix w s) as [rest|] eqn:E.
    + split; [done|]. intros Hw. rewrite Hw in E by by left. done.
    + rewrite IH. split; [|set_solver]. intros Hl w' [->|Hw]%elem_of_cons; auto.
Qed.

Lemma strip_space_cut y r : strip_space (y +:+ r) = None → strip_space y = None.
Proof.
  rewrite !strip_space_None. intros Hn w Hw. destruct (strip_prefix w y) as [z|] eqn:E; [|done].
  destruct (strip_prefix_mono w y r) as [z' E']; [by rewrite E|]. by rewrite Hn in E'.
Qed.

(** No white space has a blank after its first byte. *)
Lemma white_space_tails w : w ∈ white_spaces →
  match w with EmptyString => False | String _ w => none_of (Ascii.eqb " ") w = true end.
Proof.
  assert (Forall (λ w, match w with EmptyString => False | String _ w => none_of (Ascii.eqb " ") w = true end)
    white_spaces) as Hf by (vm_compute; repeat constructor). rewrite Forall_forall in Hf. apply Hf.
Qed.

Lemma strip_space_blank y r : y ≠ "" → strip_space y = None → strip_space (y +:+ String " " r) = None.
Proof.
  rewrite !strip_space_None. intros Hy Hn w Hw. specialize (Hn w Hw). pose proof (white_space_tails w Hw) as Ht.
  destruct w as [|c w]; [done|]. destruct y as [|d y]; [done|].
  change (String d y +:+ String " " r) with (String d (y +:+ String " " r)). simpl in *.
  destruct (Ascii.eqb c d); [|done]. destruct (strip_prefix w (y +:+ String " " r)) eqn:E; [|done].
  destruct (strip_prefix_before w y " " r Ht) as [? E']; [by rewrite E|congruence].
Qed.

(** A word: no white space starts in it. *)
Definition clean (s : string) : Prop := ∀ x y, s = x +:+ y → y ≠ "" → strip_space y = None.

Lemma clean_tail c s : clean (String c s) → clean s.
Proof. intros Hc x y -> Hy. by apply (Hc (String c x) y). Qed.

Lemma words_blank fuel acc s r : clean s → (String.length s < fuel)%nat →
  words_from fuel acc (s +:+ String " " r) =
  (if is_empty_string (acc +:+ s) then [] else [acc +:+ s]) ++ words_from (fuel - S (String.length s)) "" r.
Proof.
  revert fuel acc. induction s as [|c s IH]; intros [|fuel] acc Hc Hl; simpl in Hl; try lia.
  - change ("" +:+ String " " r) with (String " " r). simpl. rewrite string_app_nil, Nat.sub_0_r. done.
  - change (String c s +:+ String " " r) with (String c (s +:+ String " " r)). cbn [words_from].
    assert (strip_space (String c (s +:+ String " " r)) = None) as ->.
    { apply (strip_space_blank (String c s)); [done|]. by apply (Hc ""). }
    rewrite IH; [|by eapply clean_tail|lia]. rewrite !app_assoc_str. done.
Qed.

Lemma words_end fuel acc s : clean s → (String.length s < fuel)%nat →
  words_from fuel acc s = if is_empty_string (acc +:+ s) then [] else [acc +:+ s].
Proof.
  revert fuel acc. induction s as [|c s IH]; intros [|fuel] acc Hc Hl; simpl in Hl; try lia.
  - simpl. by rewrite string_app_nil.
  - cbn [words_from]. assert (strip_space (String c s) = None) as -> by by apply (Hc "").
    rewrite IH; [|by eapply clean_tail|lia]. by rewrite app_assoc_str.
Qed.

Lemma words_join fuel ts : Forall (λ s, s ≠ "" ∧ clean s) ts → (String.length (str_join " " ts) < fuel)%nat →
  words_from fuel "" (str_join " " ts) = ts.
Proof.
  intros Hts. revert fuel. induction Hts as [|s ts [Hne Hc] Hts IH]; intros fuel Hl; [by destruct fuel|].
  destruct ts as [|s' ts].
  - simpl in *. rewrite words_end by done. by destruct s.
  - change (str_join " " (s :: s' :: ts)) with (s +:+ String " " (str_join " " (s' :: ts))) in Hl |- *.
    rewrite string_app_length in Hl. cbn [String.length] in Hl. rewrite words_blank by (done || lia).
    rewrite IH by lia. by destruct s.
Qed.

Lemma split_join ts : Forall (λ s, s ≠ "" ∧ clean s) ts → split_whitespace (str_join " " ts) = ts.
Proof. intros Hts. apply words_join; [done|lia]. Qed.

(** The words of a string are words, and parts of it. *)
Lemma words_from_spec fuel acc s :
  (∀ x y, acc = x +:+ y → y ≠ "" → strip_space (y +:+ s) = None) →
  ∀ w, w ∈ words_from fuel acc s → w ≠ "" ∧ clean w ∧ ∃ x y, acc +:+ s = x +:+ w +:+ y.
Proof.
  revert acc s. induction fuel as [|fuel IH]; intros acc s Hacc w.
  all: assert (w ∈ (if is_empty_string acc then [] else [acc]) → w ≠ "" ∧ clean w ∧
         ∃ x y, acc +:+ s = x +:+ w +:+ y) as Hflush by
    (intros Hw; destruct acc as [|c acc]; simpl in Hw; [by apply not_elem_of_nil in Hw|];
     apply list_elem_of_singleton in Hw as ->; split_and!; [done| |by exists "", s];
     intros x y Hxy Hy; eapply strip_space_cut, Hacc; done).
  { done. }
  cbn [words_from]. destruct (strip_space s) as [rest|] eqn:Es.
  - intros [Hw|Hw]%elem_of_app; [by apply Hflush|]. apply IH in Hw as (Hn & Hc & x & y & E).
    2:{ intros x y E Hy. by destruct x, y. }
    split_and!; [done..|]. assert (∃ z, s = z +:+ rest) as [z ->].
    { clear -Es. unfold strip_space in Es. revert Es. generalize white_spaces. intros l.
      induction l as [|w l IH]; simpl; [done|]. destruct (strip_prefix w s) as [r|] eqn:E; [|exact IH].
      intros [= ->]. exists w. by apply strip_prefix_Some. }
    change ("" +:+ rest) with rest in E. exists (acc +:+ z +:+ x), y. rewrite E. by rewrite !app_assoc_str.
  - destruct s as [|c s]; [by apply Hflush|]. intros Hw. apply IH in Hw as (Hn & Hc & x & y & E).
    + split_and!; [done..|]. exists x, y. rewrite <-E, app_assoc_str. done.
    + intros x y Hxy Hy. assert (y = String c "" ∨ ∃ y0, y0 ≠ "" ∧ y = y0 +:+ String c "" ∧ acc = x +:+ y0) as Hcase.
      { clear -Hxy Hy. revert acc Hxy. induction x as [|d x IHx]; intros acc Hxy.
        - change ("" +:+ y) with y in Hxy. destruct acc as [|d acc]; [by left|]. right. by exists (String d acc).
        - change (String d x +:+ y) with (String d (x +:+ y)) in Hxy. destruct acc as [|e acc].
          + change ("" +:+ String c "") with (String c "") in Hxy. injection Hxy as _ Hxy. by destruct x, y.
          + change (String e acc +:+ String c "") with (String e (acc +:+ String c "")) in Hxy.
            injection Hxy as -> Hxy. destruct (IHx acc Hxy) as [?|(y0 & ? & ? & ->)]; [by left|].
            right. by exists y0. }
      destruct Hcase as [->|(y0 & Hy0 & -> & ->)]; [done|]. rewrite app_assoc_str. by apply (Hacc x y0).
Qed.

Lemma split_whitespace_words s w : w ∈ split_whitespace s → w ≠ "" ∧ clean w ∧ ∃ x y, s = x +:+ w +:+ y.
Proof. apply words_from_spec. intros x y E Hy. by destruct x, y. Qed.

(** A pattern that does not occur. *)
Definition lacks (pat s : string) : Prop := ∀ x y, s = x +:+ y → strip_prefix pat y = None.

Lemma lacks_split pat s : lacks pat s ↔ split_once_str pat s = None.
Proof.
  split.
  - induction s as [|c s IH]; intros Hl; simpl.
    + pose proof (Hl "" "" eq_refl) as E. by rewrite E.
    + pose proof (Hl "" _ eq_refl) as E. rewrite E. rewrite IH; [done|]. intros x y ->. by apply (Hl (String c x)).
  - induction s as [|c s IH]; simpl; intros Hs x y E.
    + destruct x, y; try done. destruct (strip_prefix pat ""); done.
    + destruct (strip_prefix pat (String c s)) eqn:Ep; [done|]. destruct x as [|d x].
      * change ("" +:+ y) with y in E. by subst.
      * change (String d x +:+ y) with (String d (x +:+ y)) in E. injection E as -> E.
        eapply IH, E. by destruct (split_once_str pat s).
Qed.

Lemma lacks_part pat x w y : lacks pat (x +:+ w +:+ y) → lacks pat w.
Proof.
  intros Hl u v ->. destruct (strip_prefix pat v) eqn:E; [|done].
  destruct (strip_prefix_mono pat v y) as [? E']; [by rewrite E|].
  rewrite (Hl (x +:+ u) (v +:+ y)) in E'; [done|]. by rewrite !app_assoc_str.
Qed.

Lemma app_split (a b x y : string) : a +:+ b = x +:+ y →
  (∃ z, a = x +:+ z ∧ y = z +:+ b) ∨ (∃ z, x = a +:+ z ∧ b = z +:+ y).
Proof.
  revert x. induction a as [|c a IH]; intros x E.
  - right. by exists x.
  - destruct x as [|d x]; [left; by exists (String c a)|].
    change (String c (a +:+ b) = String d (x +:+ y)) in E. injection E as -> E.
    destruct (IH x E) as [(z & -> & ->)|(z & -> & ->)]; [left|right]; by exists z.
Qed.

Lemma lacks_join pat d a b : none_of (Ascii.eqb d) pat = true → pat ≠ "" → lacks pat a → lacks pat b →
  lacks pat (a +:+ String d b).
Proof.
  intros Hd Hp Ha Hb x y E. destruct (strip_prefix pat y) as [r|] eqn:Es; [|done]. exfalso.
  destruct (app_split _ _ _ _ E) as [(z & -> & ->)|(z & -> & E2)].
  - destruct (strip_prefix_before pat z d b Hd) as [? E']; [by rewrite Es|]. by rewrite (Ha x z) in E'.
  - destruct z as [|e z].
    + change ("" +:+ y) with y in E2. subst y. destruct pat as [|p pat]; [done|]. simpl in Es, Hd.
      destruct (Ascii.eqb_spec p d) as [->|]; [|done]. by rewrite Ascii.eqb_refl in Hd.
    + change (String e z +:+ y) with (String e (z +:+ y)) in E2. injection E2 as -> ->. by rewrite (Hb z y) in Es.
Qed.

Lemma lacks_strs pat d ts : none_of (Ascii.eqb d) pat = true → pat ≠ "" → Forall (lacks pat) ts →
  lacks pat (str_join (String d "") ts).
Proof.
  intros Hd Hp. induction 1 as [|s ts Hs Hts IH].
  - intros [] []; try done. intros _. by destruct pat.
  - destruct ts as [|s' ts]; [done|].
    change (str_join (String d "") (s :: s' :: ts)) with (s +:+ String d (str_join (String d "") (s' :: ts))).
    by apply lacks_join.
Qed.

Lemma lacks_free c pat s : none_of (Ascii.eqb c) s = true → lacks (String c pat) s.
Proof.
  intros Hn x y ->. rewrite none_of_app in Hn. apply andb_true_iff in Hn as [_ Hy]. destruct y as [|d y]; [done|].
  simpl in *. by destruct (Ascii.eqb c d).
Qed.

(** The bytes a white space starts with. *)
Definition starts_space (c : ascii) : bool :=
  existsb (λ w, match w with String d _ => Ascii.eqb d c | EmptyString => true end) white_spaces.

Lemma clean_none s : none_of starts_space s = true → clean s.
Proof.
  intros Hn x y -> Hy. rewrite none_of_app in Hn. apply andb_true_iff in Hn as [_ Hn].
  destruct y as [|c y]; [done|]. simpl in Hn. apply andb_true_iff in Hn as [Hc _]. apply negb_true_iff in Hc.
  apply strip_space_None. intros w Hw. destruct (strip_prefix w (String c y)) eqn:E; [|done]. exfalso.
  apply not_true_iff_false in Hc. apply Hc. unfold starts_space. apply existsb_exists. exists w.
  split; [by apply list_elem_of_In|]. destruct w as [|d w]; [done|]. simpl in E. by destruct (Ascii.eqb d c).
Qed.

Lemma plain_no_space c : plain_char c = true → starts_space c = false.
Proof.
  intros Hc. apply not_true_iff_false. unfold starts_space. rewrite existsb_exists. intros (w & Hw & E).
  apply list_elem_of_In in Hw.
  assert (Forall (λ w, match w with String d _ => plain_char d = false | EmptyString => False end) white_spaces)
    as Hf by (vm_compute; repeat constructor). rewrite Forall_forall in Hf. specialize (Hf w Hw).
  destruct w as [|d w]; [done|]. apply Ascii.eqb_eq in E as ->. congruence.
Qed.

Lemma split_once_Some c s a b : split_once c s = Some (a, b) → s = a +:+ String c b ∧ contains_char c a = false.
Proof.
  revert a. induction s as [|d s IH]; intros a; simpl; [done|]. destruct (Ascii.eqb c d) eqn:E.
  - intros [= <- <-]. apply Ascii.eqb_eq in E as ->. done.
  - destruct (split_once c s) as [[a0 b0]|]; [|done]. simpl. intros [= <- <-]. destruct (IH a0 eq_refl) as [-> Hc].
    split; [done|]. unfold contains_char in *. simpl. rewrite E. by destruct (split_once c a0).
Qed.

Definition render (kv : string * string) : string := kv.1 +:+ "=" +:+ kv.2.

Lemma key_values_spec tokens pairs : key_values tokens = Ok pairs →
  tokens = render <$> pairs ∧ Forall (λ kv, contains_char "=" kv.1 = false) pairs.
Proof.
  revert pairs. induction tokens as [|token tokens IH]; intros pairs; simpl; [by intros [= <-]|].
  destruct (split_once "=" token) as [[k v]|] eqn:E; [|done].
  destruct (key_values tokens) as [ps|] eqn:Ek; [|done]. intros [= <-].
  destruct (IH ps eq_refl) as [-> Hf]. apply split_once_Some in E as [-> Hk]. split; [done|]. by constructor.
Qed.

Lemma key_values_render pairs : Forall (λ kv, contains_char "=" kv.1 = false) pairs →
  key_values (render <$> pairs) = Ok pairs.
Proof.
  induction 1 as [|[k v] pairs Hk _ IH]; [done|]. rewrite fmap_cons. cbn [key_values fst snd].
  change (render (k, v)) with (k +:+ String "=" v). by rewrite split_once_app, IH.
Qed.

(** The fields other than the address. *)
Definition other_fields (pairs : list (string * string)) : list (string * string) :=
  filter (λ kv : string * string, kv.1 ≠ "host" ∧ kv.1 ≠ "port") pairs.

Lemma split_once_str_cons pat c s :
  strip_prefix pat (String c s) = None → split_once_str pat s = None → split_once_str pat (String c s) = None.
Proof. simpl. by intros -> ->. Qed.

(** The keyword form. *)
Lemma rewrite_keywords dsn host port pairs :
  plain host = true → (port ≤ u16_max)%N → split_once_str "://" dsn = None → keyword_tokens dsn = Ok pairs →
  ∃ dsn', rewrite_postgres_host_port dsn host port = Ok dsn' ∧ split_once_str "://" dsn' = None ∧
    keyword_prefix dsn' = keyword_prefix dsn ∧
    keyword_tokens dsn' = Ok (("host", host) :: ("port", pretty port) :: other_fields pairs) ∧
    postgres_host_port dsn' = Ok (host, port).
Proof.
  intros Hh Hp Hs Hk. unfold rewrite_postgres_host_port. rewrite Hs, Hk.
  set (rendered := ("host=" +:+ host) :: ("port=" +:+ pretty port) :: (render <$> other_fields pairs)).
  pose proof (plain_digits _ (pretty_digits port)) as Hd.
  assert (Forall (λ s, s ≠ "" ∧ clean s ∧ lacks "://" s) rendered) as Hall.
  { constructor; [|constructor]; [split_and!..|].
    - done.
    - apply clean_none. rewrite none_of_app. rewrite (plain_none _ host); [done|apply plain_no_space|done].
    - apply lacks_free. rewrite none_of_app. by rewrite (plain_no _ host).
    - done.
    - apply clean_none. rewrite none_of_app. rewrite (plain_none _ (pretty port)); [done|apply plain_no_space|done].
    - apply lacks_free. rewrite none_of_app. by rewrite (plain_no _ (pretty port)).
    - unfold keyword_tokens in Hk. destruct (key_values _) as [ps|] eqn:Ek; [|done].
      assert (ps = pairs) as -> by by destruct ps; simplify_eq. apply key_values_spec in Ek as [Et _].
      apply Forall_forall. intros s (kv & -> & Hin)%list_elem_of_fmap. unfold other_fields in Hin.
      apply list_elem_of_filter in Hin as [_ Hin]. apply (list_elem_of_fmap_2 render) in Hin. rewrite <-Et in Hin.
      apply split_whitespace_words in Hin as (Hne & Hc & x & y & E). split_and!; [done..|].
      assert (∃ z, dsn = z +:+ default dsn (strip_prefix (keyword_prefix dsn) dsn)) as [z Hz].
      { destruct (strip_prefix (keyword_prefix dsn) dsn) as [r|] eqn:Ez; [|by exists ""].
        exists (keyword_prefix dsn). by apply strip_prefix_Some. }
      apply lacks_split in Hs. eapply (lacks_part _ (z +:+ x) _ y). by rewrite app_assoc_str, <-E, <-Hz. }
  set (body := str_join " " rendered).
  assert (lacks "://" body) as Hbody.
  { apply lacks_strs; [done..|]. eapply Forall_impl; [exact Hall|]. by intros s (_ & _ & ?). }
  assert (split_whitespace body = rendered) as Hwords.
  { apply split_join. eapply Forall_impl; [exact Hall|]. by intros s (? & ? & _). }
  assert (∃ r, body = "host=" +:+ r) as [r Hr].
  { unfold body, rendered. eexists. cbn [str_join]. rewrite app_assoc_str. done. }
  assert (split_once_str "://" r = None) as Er.
  { apply lacks_split. apply (lacks_part _ "host=" r ""). by rewrite string_app_nil, <-Hr. }
  assert (keyword_prefix dsn = "postgresql:" ∨ keyword_prefix dsn = "postgres:" ∨ keyword_prefix dsn = "") as Hpre.
  { unfold keyword_prefix. repeat case_match; auto. }
  assert (split_once_str "://" (keyword_prefix dsn +:+ body) = None) as H1.
  { rewrite Hr. destruct Hpre as [->|[->| ->]]; repeat (apply split_once_str_cons; [reflexivity|]); exact Er. }
  assert (keyword_prefix (keyword_prefix dsn +:+ body) = keyword_prefix dsn) as H2.
  { rewrite Hr. by destruct Hpre as [->|[->| ->]]. }
  assert (keyword_tokens (keyword_prefix dsn +:+ body) =
      Ok (("host", host) :: ("port", pretty port) :: other_fields pairs)) as H3.
  { unfold keyword_tokens. rewrite H2, strip_prefix_app. change (default _ (Some body)) with body. rewrite Hwords.
    change rendered with (render <$> (("host", host) :: ("port", pretty port) :: other_fields pairs)).
    rewrite key_values_render; [done|]. constructor; [done|]. constructor; [done|].
    apply Forall_forall. intros kv [_ Hin]%list_elem_of_filter.
    unfold keyword_tokens in Hk. destruct (key_values _) as [ps|] eqn:Ek; [|done].
    assert (ps = pairs) as -> by by destruct ps; simplify_eq. apply key_values_spec in Ek as [_ Hf].
    rewrite Forall_forall in Hf. by apply Hf. }
  exists (keyword_prefix dsn +:+ body). split_and!; [done..|]. unfold postgres_host_port. rewrite H1, H3.
  unfold value_of. cbn [List.find fst]. rewrite !bool_decide_eq_true_2 by done. simpl.
  by rewrite read_port_pretty.
Qed.

(** A rewritten catalog address is read back.  For a host of plain characters and
    any port, rewriting succeeds exactly on the addresses that have a form, the
    address that results names that host and port, and all the rest is kept: of a
    URI the scheme, the user and what follows the authority, of the keyword form the
    prefix and the other fields in their order. *)
Theorem dsn_rewrite_roundtrip (dsn host : string) (port : N) :
  plain host = true → (port ≤ u16_max)%N →
  match rewrite_postgres_host_port dsn host port with
  | Ok dsn' =>
      postgres_host_port dsn' = Ok (host, port) ∧
      match split_once_str "://" dsn with
      | Some (scheme, _) => ∃ userinfo old tail, none_of (Ascii.eqb "@") old = true ∧
          dsn = scheme +:+ "://" +:+ userinfo +:+ old +:+ tail ∧
          dsn' = scheme +:+ "://" +:+ userinfo +:+ host +:+ ":" +:+ pretty port +:+ tail
      | None => split_once_str "://" dsn' = None ∧ keyword_prefix dsn' = keyword_prefix dsn ∧
          ∃ pairs, keyword_tokens dsn = Ok pairs ∧
            keyword_tokens dsn' = Ok (("host", host) :: ("port", pretty port) :: other_fields pairs)
      end
  | Err e => split_once_str "://" dsn = None ∧ keyword_tokens dsn = Err e
  end.
Proof.
  intros Hh Hp. destruct (split_once_str "://" dsn) as [[scheme rest]|] eqn:Es.
  - destruct (rewrite_uri dsn host port scheme rest Hh Hp Es) as (dsn' & u & tail & -> & -> & (old & Ho & Hd) & Hr).
    split; [done|]. by exists u, old, tail.
  - destruct (keyword_tokens dsn) as [pairs|e] eqn:Ek.
    + destruct (rewrite_keywords dsn host port pairs Hh Hp Es Ek) as (dsn' & -> & H1 & H2 & H3 & H4).
      split_and!; [done..|]. by exists pairs.
    + unfold rewrite_postgres_host_port. by rewrite Es, Ek.
Qed.

(** ** Fault links are on the nodes' byte paths *)

Lemma rewrite_ok dsn host port at_ :
  plain host = true → (port ≤ u16_max)%N → postgres_host_port dsn = Ok at_ →
  ∃ dsn', rewrite_postgres_host_port dsn host port = Ok dsn' ∧ postgres_host_port dsn' = Ok (host, port).
Proof.
  intros Hh Hp Hok. destruct (split_once_str "://" dsn) as [[scheme rest]|] eqn:Es.
  - destruct (rewrite_uri dsn host port scheme rest Hh Hp Es) as (dsn' & u & tail & E & _ & _ & Hr). eauto.
  - unfold postgres_host_port in Hok. rewrite Es in Hok. destruct (keyword_tokens dsn) as [pairs|] eqn:Ek; [|done].
    destruct (rewrite_keywords dsn host port pairs Hh Hp Es Ek) as (dsn' & E & _ & _ & _ & Hr). eauto.
Qed.

(** What a round of [build_fault_links] leaves for its node. *)
Definition links_for (listen : string → result N string) (cli : Cli) (node : NodeSpec) (links : FleetLinks) : Prop :=
  let needs := link_needs cli (ns_index node) in
  if needs_none needs then links !! ns_index node = None
  else ∃ nl, build_node_links listen cli node needs = Ok nl ∧ links !! ns_index node = Some nl.

Lemma build_links_for listen cli nodes links0 links :
  build_links_from listen cli links0 nodes = Ok links → NoDup (ns_index <$> nodes) →
  (∀ node, node ∈ nodes → links0 !! ns_index node = None) →
  (∀ index, index ∉ ns_index <$> nodes → links !! index = links0 !! index) ∧
  ∀ node, node ∈ nodes → links_for listen cli node links.
Proof.
  revert links0. induction nodes as [|node nodes IH]; intros links0; simpl.
  - intros [= <-] _ _. split; [done|]. intros node []%not_elem_of_nil.
  - intros E [Hni Hnd]%NoDup_cons H0.
    assert (∀ n, n ∈ nodes → ns_index n ≠ ns_index node) as Hne.
    { intros n Hn En. apply Hni. rewrite <-En. by apply list_elem_of_fmap_2. }
    destruct (needs_none (link_needs cli (ns_index node))) eqn:En.
    + destruct (IH links0 E Hnd) as [Ho Hf]; [intros n Hn; apply H0; by right|]. split.
      * intros index [_ Hi]%not_elem_of_cons. by apply Ho.
      * intros n [->|Hn]%elem_of_cons; [|by apply Hf]. unfold links_for. rewrite En, Ho by done. apply H0. by left.
    + destruct (build_node_links listen cli node _) as [nl|] eqn:Eb; [|done].
      destruct (IH _ E Hnd) as [Ho Hf].
      { intros n Hn. rewrite lookup_insert_ne by (by apply not_eq_sym, Hne). apply H0. by right. }
      split.
      * intros index [Hi1 Hi2]%not_elem_of_cons. rewrite Ho by done. by rewrite lookup_insert_ne.
      * intros n [->|Hn]%elem_of_cons; [|by apply Hf]. unfold links_for. rewrite En, Ho by done.
        exists nl. by rewrite lookup_insert_eq.
Qed.

(** A link that was bound where one was needed. *)
Definition bound (needed : bool) (address : result (string * N) AddressError) (link : option FaultLink) : Prop :=
  match link with
  | None => needed = false
  | Some link => needed = true ∧ ∃ host port, address = Ok (host, port) ∧
      fk_upstream link = host +:+ ":" +:+ pretty port ∧ (fk_listen_port link ≤ u16_max)%N
  end.

Lemma bound_is_some needed address link : bound needed address link → is_Some link ↔ needed = true.
Proof. destruct link; simpl; [intros [-> _]; split; eauto|intros ->; by split; [intros [? [=]]|]]. Qed.

Lemma when_needed_bound listen needed address label link :
  (∀ label port, listen label = Ok port → (port ≤ u16_max)%N) →
  when_needed needed (let? at_ := map_err BadAddress address in bind_link listen label at_.1 at_.2) = Ok link →
  bound needed address link.
Proof.
  intros Hport. unfold when_needed. destruct needed; [|by intros [= <-]].
  destruct address as [[host port]|]; simpl; [|done]. unfold bind_link.
  destruct (listen label) as [p|] eqn:El; simpl; [|done]. intros [= <-]. split; [done|]. exists host, port.
  split_and!; [done..|]. by eapply Hport.
Qed.

(** What the flags ask of a node. *)
Lemma need_ingress_iff cli index : need_ingress (link_needs cli index) = true ↔
  cli_fault_partition_node cli = Some index ∨ cli_fault_degrade_node cli = Some index.
Proof. simpl. rewrite orb_true_iff, !bool_decide_eq_true. tauto. Qed.

Lemma need_catalog_iff cli index : need_catalog (link_needs cli index) = true ↔
  cli_fault_partition_node cli = Some index ∨ cli_fault_catalog_outage_node cli = Some index ∨
  cli_fault_discovery_flap_node cli = Some index.
Proof. simpl. rewrite !orb_true_iff, !bool_decide_eq_true. tauto. Qed.

Lemma need_lake_iff cli index : need_lake (link_needs cli index) = true ↔
  cli_fault_partition_node cli = Some index ∧ cli_local_lake cli = false.
Proof. simpl. rewrite andb_true_iff, bool_decide_eq_true, negb_true_iff. tauto. Qed.

Lemma build_node_links_spec listen cli node needs nl :
  (∀ label port, listen label = Ok port → (port ≤ u16_max)%N) →
  build_node_links listen cli node needs = Ok nl →
  bound (need_ingress needs) (Ok ("127.0.0.1", ns_otlp_port node)) (nl_ingress nl) ∧
  bound (need_catalog needs) (postgres_host_port (cli_postgres_dsn cli)) (nl_catalog nl) ∧
  bound (need_lake needs) (s3_host_port (cli_s3_endpoint cli)) (nl_lake nl).
Proof.
  intros Hport. unfold build_node_links. destruct (when_needed _ _) as [i|] eqn:Ei; [|done].
  destruct (when_needed (need_catalog needs) _) as [c|] eqn:Ec; [|done].
  destruct (when_needed (need_lake needs) _) as [l|] eqn:El; [|done]. intros [= <-]. simpl.
  split_and!; [|by eapply when_needed_bound..].
  by apply (when_needed_bound listen _ (Ok ("127.0.0.1", ns_otlp_port node)) (ns_name node +:+ "-ingest")).
Qed.

(** C37: An armed fault sits on the real path.  For every node, a link is bound exactly
    where an armed fault needs one, so no fault finds its link missing; the load
    dials the ingress link, which forwards to the node's own port; and the node is
    configured with addresses that are read back as the catalog's and the lake's
    links, which forward to where the command line points. *)
Theorem fault_links_on_path (listen : string → result N string) (cli : Cli) (nodes : list NodeSpec)
    (links : FleetLinks) (node : NodeSpec) :
  (∀ label port, listen label = Ok port → (port ≤ u16_max)%N) →
  build_fault_links listen cli nodes = Ok links → NoDup (ns_index <$> nodes) → node ∈ nodes →
  let here (flag : option N) := flag = Some (ns_index node) in
  let node_links := links !! ns_index node in
  (is_Some (node_links ≫= nl_ingress) ↔
     here (cli_fault_partition_node cli) ∨ here (cli_fault_degrade_node cli)) ∧
  (is_Some (node_links ≫= nl_catalog) ↔
     here (cli_fault_partition_node cli) ∨ here (cli_fault_catalog_outage_node cli) ∨
     here (cli_fault_discovery_flap_node cli)) ∧
  (is_Some (node_links ≫= nl_lake) ↔ here (cli_fault_partition_node cli) ∧ cli_local_lake cli = false) ∧
  ∃ overrides, node_overrides cli (ns_index node) node_links = Ok overrides ∧
    (∀ link, node_links ≫= nl_ingress = Some link →
       load_target_addr node links = "http://127.0.0.1:" +:+ pretty (fk_listen_port link) ∧
       fk_upstream link = "127.0.0.1:" +:+ pretty (ns_otlp_port node)) ∧
    (∀ link, node_links ≫= nl_catalog = Some link → ∃ dsn host port,
       no_postgres_dsn overrides = Some dsn ∧ postgres_host_port dsn = Ok ("127.0.0.1", fk_listen_port link) ∧
       postgres_host_port (cli_postgres_dsn cli) = Ok (host, port) ∧
       fk_upstream link = host +:+ ":" +:+ pretty port) ∧
    (∀ link, node_links ≫= nl_lake = Some link → ∃ endpoint host port,
       no_s3_endpoint overrides = Some endpoint ∧ s3_host_port endpoint = Ok ("127.0.0.1", fk_listen_port link) ∧
       s3_host_port (cli_s3_endpoint cli) = Ok (host, port) ∧
       fk_upstream link = host +:+ ":" +:+ pretty port) ∧
    (node_links ≫= nl_catalog = None → no_postgres_dsn overrides = None) ∧
    (node_links ≫= nl_lake = None → no_s3_endpoint overrides = None).
Proof.
  intros Hport Hb Hnd Hin here node_links. set (needs := link_needs cli (ns_index node)).
  unfold here. rewrite <-need_ingress_iff, <-need_catalog_iff, <-need_lake_iff. fold needs.
  destruct (build_links_for _ _ _ _ _ Hb Hnd ltac:(intros; apply lookup_empty)) as [_ Hf]. specialize (Hf node Hin).
  unfold links_for in Hf. fold needs in Hf. unfold load_target_addr. fold node_links in Hf |- *. clearbody node_links.
  destruct (needs_none needs) eqn:En.
  - subst node_links. unfold needs_none in En. destruct (need_ingress needs), (need_catalog needs), (need_lake needs); try done.
    split_and!; try (split; [by intros [? [=]]|done]). eexists. split; [done|]. by split_and!.
  - destruct Hf as (nl & Hnl & ->). clear En. simpl.
    destruct (build_node_links_spec _ _ _ _ _ Hport Hnl) as (Hi & Hc & Hl).
    split_and!; [by eapply bound_is_some..|].
    assert (∃ dsn', match nl_catalog nl with
        | None => Ok None
        | Some link => let? dsn := rewrite_postgres_host_port (cli_postgres_dsn cli) "127.0.0.1" (fk_listen_port link) in
                       Ok (Some dsn)
        end = Ok dsn' ∧ (nl_catalog nl = None → dsn' = None) ∧
        ∀ link, nl_catalog nl = Some link → ∃ dsn, dsn' = Some dsn ∧
          postgres_host_port dsn = Ok ("127.0.0.1", fk_listen_port link)) as (dsn' & Ed & Hd0 & Hd).
    { destruct (nl_catalog nl) as [link|]; [|by exists None]. destruct Hc as (_ & host & port & Hr & _ & Hp).
      destruct (rewrite_ok (cli_postgres_dsn cli) "127.0.0.1" _ _ eq_refl Hp Hr) as (dsn & -> & Hdsn).
      exists (Some dsn). split_and!; [done..|]. intros ? [= <-]. by exists dsn. }
    unfold node_overrides. rewrite Ed. eexists. split; [done|]. cbn [no_postgres_dsn no_s3_endpoint]. split_and!.
    + intros link Hlink. rewrite Hlink in *. split; [done|]. by destruct Hi as (_ & host & port & [= <- <-] & -> & _).
    + intros link Hlink. destruct (Hd link Hlink) as (dsn & -> & Hdsn). rewrite Hlink in Hc.
      destruct Hc as (_ & host & port & Hr & Hup & _). by exists dsn, host, port.
    + intros link Hlink. rewrite Hlink in *. destruct Hl as (_ & host & port & Hr & Hup & Hp).
      eexists _, host, port. split_and!; [done| |done|done]. unfold s3_host_port.
      change ("127.0.0.1:" +:+ pretty (fk_listen_port link)) with ("127.0.0.1" +:+ String ":" (pretty (fk_listen_port link))).
      rewrite rsplit_once_app by apply digits_no_colon, pretty_digits. by rewrite read_port_pretty.
    + done.
    + by intros ->.
Qed.

(** ** The nodes of a fleet *)

Lemma provision_from_spec create_dir_all work_dir seed ports indices nodes :
  provision_from create_dir_all work_dir seed ports indices = Ok nodes →
  nodes = provision_node work_dir seed ports <$> indices.
Proof.
  revert nodes. induction indices as [|index indices IH]; intros nodes; simpl; [by intros [= <-]|].
  destruct (create_dir_all _); [|done]. destruct (provision_from _ _ _ _ _) as [ns|]; [|done].
  intros [= <-]. by rewrite (IH ns eq_refl).
Qed.

Lemma node_name_plain seed index : plain (node_name seed index) = true.
Proof.
  unfold node_name. assert (∀ a b, plain (a +:+ b) = plain a && plain b) as Happ.
  { intros a b. induction a as [|c a IH]; [done|]. change (String c a +:+ b) with (String c (a +:+ b)). simpl.
    by rewrite IH, andb_assoc. }
  rewrite !Happ, (plain_digits (pretty seed)), (plain_digits (pretty index)) by apply pretty_digits. done.
Qed.

Lemma seed_name work_dir seed ports (indices : list N) n :
  n ∈ provision_node work_dir seed ports <$> indices →
  strip_seed_peer_port (ns_name n +:+ ":" +:+ pretty (ns_peer_port n)) = ns_name n.
Proof.
  intros (i & -> & _)%list_elem_of_fmap. simpl. pose proof (node_name_plain seed i) as Hpl.
  eapply (seed_peer_forms _ _ "" "" "" ""); [split|intros E|apply pretty_digits].
  - apply none_of_contains. by apply plain_no.
  - done.
  - pose proof (parse_pretty ((bp_peer ports + i) mod 2 ^ 16)) as Hpp. unfold u16_add in E. rewrite E in Hpp. simpl in Hpp.
    assert ((bp_peer ports + i) mod 2 ^ 16 < 2 ^ 16)%N by (apply N.mod_lt; lia).
    discriminate Hpp. unfold is_u64, u64_max. lia.
Qed.

(** No two nodes share a name. *)
Lemma provisioned_names work_dir seed ports (n : nat) :
  NoDup (ns_name <$> (provision_node work_dir seed ports <$> (N.of_nat <$> seq 0 n))).
Proof.
  rewrite <-list_fmap_compose. apply NoDup_fmap_2; [|apply NoDup_fmap_2; [apply _|apply NoDup_seq]].
  intros i j. simpl. unfold node_name. intros E. by apply (inj _), (inj _), (inj _), (inj _) in E.
Qed.

(** The seed lists of a provisioned fleet.  Every node is given its own index and
    name, the seed list rendered for a node names, with the node itself, exactly the
    hosts of the fleet, and the id a fault is journaled under is the id the node
    has in the ring: all nodes route alike. *)
Theorem fleet_hosts (create_dir_all : string → result unit string) (work_dir : string) (seed count : N)
    (ports : BasePorts) (nodes : list NodeSpec) (node : NodeSpec) (config : DaemonConfig) :
  provision_nodes create_dir_all work_dir seed count ports = Ok nodes → node ∈ nodes →
  cc_seed_peers (dc_cluster config) = seed_peers node nodes →
  NoDup (ns_index <$> nodes) ∧ NoDup (ns_name <$> nodes) ∧
  names_hosts config (ns_name node) (ns_name <$> nodes).
Proof.
  intros Hp Hin Hc. apply provision_from_spec in Hp. subst nodes.
  assert (NoDup (ns_index <$> (provision_node work_dir seed ports <$> (N.of_nat <$> seq 0 (N.to_nat count))))) as Hnd.
  { rewrite <-list_fmap_compose. apply NoDup_fmap_2; [by intros ???|]. apply NoDup_fmap_2; [apply _|apply NoDup_seq]. }
  split_and!; [done|apply provisioned_names|].
  - intros h. rewrite Hc. unfold seed_peers. split.
    + intros (n & -> & Hn)%list_elem_of_fmap. destruct (decide (ns_index n = ns_index node)) as [Ei|Ei].
      * left. f_equal. clear -Hnd Ei Hn Hin. apply list_elem_of_lookup_1 in Hn as (i & Hi), Hin as (j & Hj).
        assert (i = j) as ->; [|congruence]. eapply NoDup_lookup; [exact Hnd|..]; rewrite list_lookup_fmap;
          [rewrite Hi|rewrite Hj]; simpl; by f_equal.
      * right. eexists. split.
        -- apply list_elem_of_fmap_2, list_elem_of_filter. by split.
        -- by eapply seed_name.
    + intros [->|(raw & (n & -> & [_ Hn]%list_elem_of_filter)%list_elem_of_fmap & <-)];
        [by apply list_elem_of_fmap_2|]. erewrite seed_name by done. by apply list_elem_of_fmap_2.
Qed.
