(* ===== verification/Fault.v ===== *)
(** * The fault injectors

    Models of [crates/duckspout-fleet/src]: faultlog.rs (the lines of a fault
    window), process.rs (signals and what they are confirmed by), fault.rs (one
    program per injector) and, of main.rs, how the armed faults are composed.  An
    injector is a program over the calls it makes to its surroundings: the fault log,
    the clock, the files and processes of the operating system, the fault links, and
    Flight.  A program can [Panic].  Loops take fuel and are [Stuck] without it: what
    holds of a program for every fuel holds of every finite run.  Durations are milliseconds. *)

From Stdlib Require Import Ascii.
From S2P Require Import Prelude RustStd Types Overload Ports System Otlp Evidence Link Fleet.

(** ** faultlog.rs *)

(** [FaultKind] *)
Inductive FaultKind :=
| NodeKill | SigstopPause | NetworkPartition | NetworkDegradation | MembershipLeave
| MembershipJoin | FlightKillMidStream | CatalogOutage | DiscoveryFlap | CacheChurn.

#[global] Instance FaultKind_eq_dec : EqDecision FaultKind.
Proof. solve_decision. Defined.

(** [#[serde(rename_all = "snake_case")]] *)
Definition kind_token (kind : FaultKind) : string :=
  match kind with
  | NodeKill => "node_kill"
  | SigstopPause => "sigstop_pause"
  | NetworkPartition => "network_partition"
  | NetworkDegradation => "network_degradation"
  | MembershipLeave => "membership_leave"
  | MembershipJoin => "membership_join"
  | FlightKillMidStream => "flight_kill_mid_stream"
  | CatalogOutage => "catalog_outage"
  | DiscoveryFlap => "discovery_flap"
  | CacheChurn => "cache_churn"
  end.

(** [FaultPhase], as the fleet has it *)
Inductive WindowPhase := PArmed | PStarted | PEnded.

#[global] Instance WindowPhase_eq_dec : EqDecision WindowPhase.
Proof. solve_decision. Defined.

(** [FaultWindowLine], without the time it is stamped with *)
Record WindowLine := {
  wl_fault_id : string;
  wl_kind : FaultKind;
  wl_target_node : string;
  wl_phase : WindowPhase;
  wl_detail : option Json;
}.

(** [serde_json::to_string] of a line stamped with a time, and the [event] member of
    a line of a node's journal when the line is an object that has one. *)
Class FleetSerde := {
  window_line_to_string : WindowLine → N → string;
  event_field : string → option string;
}.

(** ** Programs *)

(** A [tonic::Status]. *)
Record FlightStatus := { fs_code : string; fs_message : string }.

(** The answer to a call that is bounded by [tokio::time::timeout]. *)
Definition timed (timeout : option N) (A : Type) : Type :=
  match timeout with None => A | Some _ => option A end.

(** The calls of the fleet runner and of its injectors.  [RecordLine] is
    [FaultLog::record]; [Hold] is [FaultLink::hold] up to the release of the mutex and
    answers with the hold and whether the epoch is to be bumped, [Bump] bumps it, and
    [Release] drops a hold; [Spawn] is [spawn_node]; [Kill] is the [kill] utility;
    [StartKill] and [WaitChild] are [start_kill] and [wait] of a child; [CreateLog] is
    [FaultLog::create]; [OtlpExport] is the [export] of a client, answered with whether
    the response reports no partial success. *)
Inductive fcall :=
| RecordLine (line : WindowLine)
| Sleep (ms : N)
| SleepUntil (deadline : N)
| Now
| ReadFile (path : string)
| Pid (node : string)
| Kill (signal : string) (pid : N)
| TryWait (node : string)
| Spawn (node : NodeSpec) (fault_drain_commit_delay_ms : option N)
| StartKill (node : string)
| WaitChild (node : string)
| DropNode (node : string)
| UnixMs
| UnixNanos
| IsFile (path : string)
| CurrentExe
| SearchPath
| TempDir
| CreateDirAll (path : string)
| WriteFile (path contents : string)
| CreateLog (path : string)
| TcpConnect (host : string) (port timeout : N)
| Loadgen (bin target : string)
| OtlpConnect (addr : string)
| OtlpExport (tenant : option string) (message : ExportLogsServiceRequest)
| FetchStatus (port : N) (timeout : option N)
| FlightConnect (endpoint : string) (timeout : option N)
| DoGet (query : string) (timeout : option N)
| NextMessage (timeout : option N)
| Hold (link : string) (conditions : LinkConditions)
| Bump (link : string)
| Release (link : string) (id : N)
| Stats (link : string).

Definition fanswer (c : fcall) : Type :=
  match c with
  | RecordLine _ | Sleep _ | SleepUntil _ | DropNode _ | Bump _ | Release _ _ => unit
  | Now => N
  | ReadFile _ => result string string
  | Pid _ => option N
  | Kill _ _ => result bool string
  | TryWait _ => result (option string) string
  | Spawn _ _ | CreateDirAll _ | WriteFile _ _ | CreateLog _ | OtlpConnect _ => result unit string
  | StartKill _ => result unit string
  | WaitChild _ => result string string
  | UnixMs => N
  | UnixNanos => option N
  | IsFile _ => bool
  | CurrentExe => result string string
  | SearchPath => option (list string)
  | TempDir => string
  | TcpConnect _ _ _ => option (result unit string)
  | Loadgen _ _ | OtlpExport _ _ => result bool string
  | FetchStatus _ timeout => timed timeout (result Json string)
  | FlightConnect _ timeout => timed timeout (result unit string)
  | DoGet _ timeout => timed timeout (result unit FlightStatus)
  | NextMessage timeout => timed timeout (result bool FlightStatus)
  | Hold _ _ => N * bool
  | Stats _ => LinkStats
  end.

(** A call and its answer; a history has the newest event first. *)
Abbreviation event := {c : fcall & fanswer c}.

Inductive inj (A : Type) : Type :=
| Done (a : A)
| Call (c : fcall) (k : fanswer c → inj A)
| Panic
| Stuck.
Arguments Done {A} a.
Arguments Call {A} c k.
Arguments Panic {A}.
Arguments Stuck {A}.

Fixpoint ibind {A B : Type} (p : inj A) (f : A → inj B) : inj B :=
  match p with
  | Done a => f a
  | Call c k => Call c (λ r, ibind (k r) f)
  | Panic => Panic
  | Stuck => Stuck
  end.

Notation "'do!' x ':=' c 'in' k" := (Call c (λ x, k))
  (at level 10, x name, k at level 200) : rust_scope.
Notation "'let!' x ':=' p 'in' k" := (ibind p (λ x, k))
  (at level 10, x name, k at level 200) : rust_scope.
Notation "'let!?' x ':=' p 'in' k" :=
  (ibind p (λ r, match r with Ok x => k | Err e => Done (Err e) end))
  (at level 10, x name, k at level 200) : rust_scope.

(** ** JSON details *)

Definition jnum (n : N) : Json := JInt (Z.of_N n).

Definition jobject (fields : list (string * Json)) : Json := JObject (list_to_map fields).

Definition jopt {A} (f : A → Json) (o : option A) : Json := from_option f JNull o.

Definition condition_json (c : LinkCondition) : Json :=
  match c with
  | Pass => jobject [("condition", JString "pass")]
  | Drop => jobject [("condition", JString "drop")]
  | Delay ms => jobject [("condition", JString "delay"); ("ms", jnum ms)]
  | BandwidthCap b => jobject [("condition", JString "bandwidth_cap"); ("bytes_per_sec", jnum b)]
  end.

Definition conditions_json (c : LinkConditions) : Json :=
  jobject [("client_to_server", condition_json (client_to_server c));
           ("server_to_client", condition_json (server_to_client c))].

Definition stats_json (s : LinkStats) : Json :=
  jobject [("conns_accepted", jnum (conns_accepted s)); ("conns_refused", jnum (conns_refused s));
           ("conns_cut", jnum (conns_cut s));
           ("bytes_client_to_server", jnum (bytes_client_to_server s));
           ("bytes_server_to_client", jnum (bytes_server_to_client s))].

(** [link_descriptions] *)
Definition link_descriptions (links : list FaultLink) : Json :=
  JArray ((λ link, jobject [("label", JString (fk_label link));
                            ("upstream", JString (fk_upstream link))]) <$> links).

(** ** Calls the injectors share *)

Inductive ReadPathFailure :=
| ConnectRefused (error : string) | ConnectTimedOut | TicketRefusedBy (status : FlightStatus).

Inductive FaultError :=
| Reaped (signal : string)
| KillNotRun (signal : string)
| KillExited (signal : string)
| JournalTimeout (event : string) (skip_lines : N)
| ExitUnconfirmed
| StopUnconfirmed
| ResumeUnconfirmed
| SpawnFailed (error : string)
| WaitFailed (error : string)
| ExitedEarly (status tail : string)
| NotReady (tail : string)
| FlightUnreachable (error : string)
| FlightRefused (status : FlightStatus)
| NoFirstMessage
| StreamErrored (status : FlightStatus)
| StreamEmpty
| ReadPathFailed (failure : ReadPathFailure)
| ChurnedNothing
| Setup (error : SetupError).

Abbreviation attempt A := (inj (result A FaultError)) (only parsing).

(** [FaultLog::record] and its three wrappers *)
Definition record (phase : WindowPhase) (fault_id : string) (kind : FaultKind) (target_node : string)
    (detail : option Json) : inj unit :=
  do! _ := RecordLine {| wl_fault_id := fault_id; wl_kind := kind; wl_target_node := target_node;
                         wl_phase := phase; wl_detail := detail |} in
  Done tt.

Definition armed := record PArmed.
Definition started := record PStarted.
Definition ended := record PEnded.

(** [rendered_node_id] *)
Definition rendered_node_id (spec : NodeSpec) : string :=
  ns_name spec +:+ "/" +:+ V01_FIXED_INCARNATION.

Definition line_count (contents : string) : N := N.of_nat (length (str_lines contents)).

(** [node_journal_line_count] *)
Definition node_journal_line_count (journal_path : string) : inj N :=
  do! read := ReadFile journal_path in
  Done (match read with Ok contents => line_count contents | Err _ => 0%N end).

(** [process::send_signal] *)
Definition send_signal (node : NodeSpec) (signal : string) : attempt unit :=
  do! pid := Pid (ns_name node) in
  match pid with
  | None => Done (Err (Reaped signal))
  | Some pid =>
      do! status := Kill signal pid in
      Done (match status with
            | Err _ => Err (KillNotRun signal)
            | Ok true => Ok tt
            | Ok false => Err (KillExited signal)
            end)
  end.

(** The loop of [confirm], [wait_exited] and [wait_for_journal_event]: poll [check]
    until it holds or the deadline has passed, sleeping [period] in between. *)
Fixpoint poll_until (fuel : nat) (check : inj bool) (deadline period : N) : inj bool :=
  match fuel with
  | O => Stuck
  | S fuel =>
      let! holds := check in
      if holds then Done true
      else
        do! now := Now in
        if (deadline <=? now)%N then Done false
        else do! _ := Sleep period in poll_until fuel check deadline period
  end.

(** [process::process_state] *)
Definition state_of_stat (stat : string) : option ascii :=
  let after_comm := match rsplit_once ")" stat with Some (_, rest) => rest | None => stat end in
  match split_whitespace after_comm with
  | String c _ :: _ => Some c
  | _ => None
  end.

Definition process_state (pid : N) : inj (option ascii) :=
  do! read := ReadFile ("/proc/" +:+ pretty pid +:+ "/stat") in
  Done (match read with Ok stat => state_of_stat stat | Err _ => None end).

(** [process::is_stopped] and [process::is_live_running], an error read as [false]
    ([unwrap_or(false)] in [confirm]) *)
Definition stopped_state (c : ascii) : bool := Ascii.eqb c "T" || Ascii.eqb c "t".
Definition running_state (c : ascii) : bool := Ascii.eqb c "R" || Ascii.eqb c "S" || Ascii.eqb c "D".

Definition in_state (states : ascii → bool) (pid : N) : inj bool :=
  let! state := process_state pid in Done (from_option states false state).

Definition is_stopped : N → inj bool := in_state stopped_state.
Definition is_live_running : N → inj bool := in_state running_state.

(** [confirm] *)
Definition confirm (fuel : nat) (pid : option N) (timeout : N) (check : N → inj bool) : inj bool :=
  match pid with
  | None => Done false
  | Some pid => do! now := Now in poll_until fuel (check pid) (now + timeout) 20
  end.

(** [process::wait_exited] *)
Definition wait_exited (fuel : nat) (node : NodeSpec) (timeout : N) : inj bool :=
  do! now := Now in
  poll_until fuel
    (do! waited := TryWait (ns_name node) in
     Done (match waited with Ok (Some _) => true | _ => false end))
    (now + timeout) 100.

(** [process::stderr_tail]: [None] is the panic of slicing inside a character. *)
Definition stderr_tail (path : string) (read : result string string) : option string :=
  match read with
  | Ok contents =>
      let start := (String.length contents - 4096)%nat in
      if from_option is_continuation false (String.get start contents) && (4096 <? String.length contents)%nat
      then None
      else Some (String.substring start (String.length contents - start) contents)
  | Err e => Some ("(could not read " +:+ path +:+ ": " +:+ e +:+ ")")
  end.

(** The error of a node with the tail of its stderr; a panic ends the run. *)
Definition with_tail (node : NodeSpec) (error : string → FaultError) : attempt unit :=
  do! read := ReadFile (ns_stderr_path node) in
  match stderr_tail (ns_stderr_path node) read with
  | Some tail => Done (Err (error tail))
  | None => Panic
  end.

(** [process::wait_until_ready] *)
Fixpoint poll_ready (fuel : nat) (node : NodeSpec) (deadline : N) : attempt unit :=
  match fuel with
  | O => Stuck
  | S fuel =>
      do! waited := TryWait (ns_name node) in
      match waited with
      | Err e => Done (Err (WaitFailed e))
      | Ok (Some status) =>
          with_tail node (ExitedEarly status)
      | Ok None =>
          do! fetched := FetchStatus (ns_status_port node) None in
          let ready := match fetched with
                       | Ok (JObject fields) =>
                           match fields !! "ready" with Some (JBool b) => b | _ => false end
                       | _ => false
                       end in
          if ready then Done (Ok tt)
          else
            do! now := Now in
            if (deadline <=? now)%N then
              with_tail node NotReady
            else do! _ := Sleep 250 in poll_ready fuel node deadline
      end
  end.

Definition wait_until_ready (fuel : nat) (node : NodeSpec) (timeout : N) : attempt unit :=
  do! now := Now in poll_ready fuel node (now + timeout).

Section injectors.
Context `{FleetSerde}.

(** [journal_contains_event_after], on what was read *)
Definition contents_event_after (contents event : string) (skip_lines : N) : bool :=
  existsb (λ line, match event_field line with Some e => bool_decide (e = event) | None => false end)
    (drop (N.to_nat skip_lines) (str_lines contents)).

Definition journal_contains_event_after (journal_path event : string) (skip_lines : N) : inj bool :=
  do! read := ReadFile journal_path in
  Done (match read with Ok contents => contents_event_after contents event skip_lines | Err _ => false end).

(** [wait_for_journal_event] *)
Definition wait_for_journal_event (fuel : nat) (journal_path event : string) (skip_lines timeout : N) :
    attempt unit :=
  do! now := Now in
  let! found := poll_until fuel (journal_contains_event_after journal_path event skip_lines)
                  (now + timeout) 50 in
  Done (if found then Ok tt else Err (JournalTimeout event skip_lines)).

(** ** Process faults *)

(** [KillTiming] *)
Inductive KillTiming := AfterDelay (delay : N) | MidDrainCommit (journal_poll_timeout : N).

(** [run_node_kill] *)
Definition run_node_kill (fuel : nat) (fault_id : string) (target : NodeSpec) (timing : KillTiming) :
    attempt unit :=
  let target_node := rendered_node_id target in
  let! journal_anchor := node_journal_line_count (ns_journal_path target) in
  let! _ := armed fault_id NodeKill target_node
    (Some (jobject [("node_journal_lines", jnum journal_anchor)])) in
  let!? _ := match timing with
             | AfterDelay delay => do! _ := Sleep delay in Done (Ok tt)
             | MidDrainCommit journal_poll_timeout =>
                 wait_for_journal_event fuel (ns_journal_path target) "PutPart" journal_anchor
                   journal_poll_timeout
             end in
  do! pid := Pid (ns_name target) in
  let!? _ := send_signal target "-KILL" in
  let! lines := node_journal_line_count (ns_journal_path target) in
  let! _ := started fault_id NodeKill target_node
    (Some (jobject [("pid", jopt jnum pid); ("node_journal_lines", jnum lines)])) in
  let! confirmed_exited := wait_exited fuel target 10000 in
  let! lines := node_journal_line_count (ns_journal_path target) in
  let! _ := ended fault_id NodeKill target_node
    (Some (jobject [("confirmed_exited", JBool confirmed_exited); ("node_journal_lines", jnum lines)])) in
  Done (if confirmed_exited then Ok tt else Err ExitUnconfirmed).

(** [run_sigstop_pause] *)
Definition run_sigstop_pause (fuel : nat) (fault_id : string) (target : NodeSpec)
    (delay pause_duration : N) : attempt unit :=
  let target_node := rendered_node_id target in
  let! lines := node_journal_line_count (ns_journal_path target) in
  let! _ := armed fault_id SigstopPause target_node
    (Some (jobject [("node_journal_lines", jnum lines)])) in
  do! _ := Sleep delay in
  do! pid := Pid (ns_name target) in
  let!? _ := send_signal target "-STOP" in
  let! confirmed_stopped := confirm fuel pid 2000 is_stopped in
  if negb confirmed_stopped then Done (Err StopUnconfirmed)
  else
    let! lines := node_journal_line_count (ns_journal_path target) in
    let! _ := started fault_id SigstopPause target_node
      (Some (jobject [("pid", jopt jnum pid); ("confirmed_stopped", JBool true);
                      ("planned_pause_ms", jnum pause_duration); ("node_journal_lines", jnum lines)])) in
    do! _ := Sleep pause_duration in
    let!? _ := send_signal target "-CONT" in
    let! confirmed_resumed := confirm fuel pid 2000 is_live_running in
    let! lines := node_journal_line_count (ns_journal_path target) in
    let! _ := ended fault_id SigstopPause target_node
      (Some (jobject [("confirmed_resumed", JBool confirmed_resumed); ("node_journal_lines", jnum lines)])) in
    Done (if confirmed_resumed then Ok tt else Err ResumeUnconfirmed).

(** [run_membership_leave] *)
Definition run_membership_leave (fuel : nat) (fault_id : string) (target : NodeSpec) (delay grace : N) :
    attempt unit :=
  let target_node := rendered_node_id target in
  let! lines := node_journal_line_count (ns_journal_path target) in
  let! _ := armed fault_id MembershipLeave target_node
    (Some (jobject [("grace_ms", jnum grace); ("node_journal_lines", jnum lines)])) in
  do! _ := Sleep delay in
  do! pid := Pid (ns_name target) in
  let!? _ := send_signal target "-TERM" in
  let! lines := node_journal_line_count (ns_journal_path target) in
  let! _ := started fault_id MembershipLeave target_node
    (Some (jobject [("pid", jopt jnum pid); ("signal", JString "SIGTERM");
                    ("node_journal_lines", jnum lines)])) in
  let! confirmed_exited := wait_exited fuel target grace in
  let! lines := node_journal_line_count (ns_journal_path target) in
  let! _ := ended fault_id MembershipLeave target_node
    (Some (jobject [("confirmed_exited", JBool confirmed_exited); ("node_journal_lines", jnum lines)])) in
  Done (if confirmed_exited then Ok tt else Err ExitUnconfirmed).

(** [run_membership_join]; it answers with the node that joined. *)
Definition run_membership_join (fuel : nat) (fault_id : string) (joiner : NodeSpec)
    (delay boot_timeout : N) : attempt NodeSpec :=
  let target_node := rendered_node_id joiner in
  let! _ := armed fault_id MembershipJoin target_node
    (Some (jobject [("boot_timeout_ms", jnum boot_timeout); ("otlp_port", jnum (ns_otlp_port joiner));
                    ("status_port", jnum (ns_status_port joiner))])) in
  do! _ := Sleep delay in
  do! spawned := Spawn joiner None in
  match spawned with
  | Err e => Done (Err (SpawnFailed e))
  | Ok _ =>
      do! pid := Pid (ns_name joiner) in
      let! _ := started fault_id MembershipJoin target_node (Some (jobject [("pid", jopt jnum pid)])) in
      let! ready := wait_until_ready fuel joiner boot_timeout in
      let! lines := node_journal_line_count (ns_journal_path joiner) in
      let! _ := ended fault_id MembershipJoin target_node
        (Some (jobject [("confirmed_ready", JBool (is_ok ready)); ("node_journal_lines", jnum lines)])) in
      match ready with
      | Ok _ => Done (Ok joiner)
      | Err error => do! _ := DropNode (ns_name joiner) in Done (Err error)
      end
  end.

(** The loop of [run_flight_kill_mid_stream] after the kill: the client's outcome and
    the messages that still arrived. *)
Fixpoint read_to_end (fuel : nat) (messages_after_kill : N) : inj (Json * N) :=
  match fuel with
  | O => Stuck
  | S fuel =>
      do! message := NextMessage None in
      match message with
      | Ok true => read_to_end fuel (messages_after_kill + 1)
      | Ok false =>
          Done (jobject [("terminal_outcome", JString "clean_end_of_stream")], messages_after_kill)
      | Err status =>
          Done (jobject [("terminal_outcome", JString "typed_error"); ("grpc_code", JString (fs_code status));
                         ("grpc_message", JString (fs_message status))], messages_after_kill)
      end
  end.

Definition flight_endpoint (node : NodeSpec) : string :=
  "http://127.0.0.1:" +:+ pretty (ns_flight_port node).

(** [run_flight_kill_mid_stream] *)
Definition run_flight_kill_mid_stream (fuel : nat) (fault_id : string) (target : NodeSpec)
    (query : string) (delay first_message_timeout : N) : attempt unit :=
  let target_node := rendered_node_id target in
  let endpoint := flight_endpoint target in
  let! lines := node_journal_line_count (ns_journal_path target) in
  let! _ := armed fault_id FlightKillMidStream target_node
    (Some (jobject [("flight_endpoint", JString endpoint); ("query", JString query);
                    ("node_journal_lines", jnum lines)])) in
  do! _ := Sleep delay in
  do! connected := FlightConnect endpoint None in
  match connected with
  | Err e => Done (Err (FlightUnreachable e))
  | Ok _ =>
      do! response := DoGet query None in
      match response with
      | Err status => Done (Err (FlightRefused status))
      | Ok _ =>
          do! first := NextMessage (Some first_message_timeout) in
          match first with
          | None => Done (Err NoFirstMessage)
          | Some (Err status) => Done (Err (StreamErrored status))
          | Some (Ok false) => Done (Err StreamEmpty)
          | Some (Ok true) =>
              do! pid := Pid (ns_name target) in
              let!? _ := send_signal target "-KILL" in
              let! lines := node_journal_line_count (ns_journal_path target) in
              let! _ := started fault_id FlightKillMidStream target_node
                (Some (jobject [("pid", jopt jnum pid); ("messages_before_kill", jnum 1);
                                ("node_journal_lines", jnum lines)])) in
              let! seen := read_to_end fuel 0 in
              let! confirmed_exited := wait_exited fuel target 10000 in
              let! lines := node_journal_line_count (ns_journal_path target) in
              let! _ := ended fault_id FlightKillMidStream target_node
                (Some (jobject [("client_outcome", seen.1); ("messages_after_kill", jnum seen.2);
                                ("confirmed_exited", JBool confirmed_exited);
                                ("node_journal_lines", jnum lines)])) in
              Done (if confirmed_exited then Ok tt else Err ExitUnconfirmed)
          end
      end
  end.

(** ** Network faults *)

(** [FaultLink::hold] and [FaultLink::stats] *)
Definition hold_link (link : FaultLink) (conditions : LinkConditions) : inj N :=
  do! held := Hold (fk_label link) conditions in
  if held.2 then do! _ := Bump (fk_label link) in Done held.1 else Done held.1.

Definition link_stats (link : FaultLink) : inj LinkStats :=
  do! stats := Stats (fk_label link) in Done stats.

Definition release_link (link : FaultLink) (hold_id : N) : inj unit :=
  do! _ := Release (fk_label link) hold_id in Done tt.

(** [iter().map(f).collect()] *)
Fixpoint imapM {A B} (f : A → inj B) (l : list A) : inj (list B) :=
  match l with
  | [] => Done []
  | a :: l => let! b := f a in let! bs := imapM f l in Done (b :: bs)
  end.

(** [link_deltas] *)
Definition link_deltas (links : list FaultLink) (before : list LinkStats) : inj Json :=
  let! deltas := imapM (λ lb : FaultLink * LinkStats,
    let! stats := link_stats lb.1 in Done (fk_label lb.1, stats_json (since stats lb.2)))
    (zip links before) in
  Done (JObject (foldl (λ out kv, <[kv.1 := kv.2]> out) ∅ deltas)).

(** [run_network_partition]; a vector of holds is dropped in its order. *)
Definition run_network_partition (fault_id : string) (target : NodeSpec) (links : list FaultLink)
    (delay duration : N) : attempt unit :=
  let target_node := rendered_node_id target in
  let! lines := node_journal_line_count (ns_journal_path target) in
  let! _ := armed fault_id NetworkPartition target_node
    (Some (jobject [("links", link_descriptions links); ("planned_duration_ms", jnum duration);
                    ("node_journal_lines", jnum lines)])) in
  do! _ := Sleep delay in
  let! before := imapM link_stats links in
  let! holds := imapM (λ link, hold_link link conditions_dropped) links in
  let! lines := node_journal_line_count (ns_journal_path target) in
  let! _ := started fault_id NetworkPartition target_node
    (Some (jobject [("links", link_descriptions links); ("node_journal_lines", jnum lines)])) in
  do! _ := Sleep duration in
  let! during := link_deltas links before in
  let! _ := imapM (λ lh : FaultLink * N, release_link lh.1 lh.2) (zip links holds) in
  let! lines := node_journal_line_count (ns_journal_path target) in
  let! _ := ended fault_id NetworkPartition target_node
    (Some (jobject [("link_traffic_during_window", during); ("node_journal_lines", jnum lines)])) in
  Done (Ok tt).

(** [run_network_degradation] *)
Definition run_network_degradation (fault_id : string) (target : NodeSpec) (link : FaultLink)
    (conditions : LinkConditions) (delay duration : N) : attempt unit :=
  let target_node := rendered_node_id target in
  let! lines := node_journal_line_count (ns_journal_path target) in
  let! _ := armed fault_id NetworkDegradation target_node
    (Some (jobject [("link", JString (fk_label link)); ("conditions", conditions_json conditions);
                    ("planned_duration_ms", jnum duration); ("node_journal_lines", jnum lines)])) in
  do! _ := Sleep delay in
  let! before := link_stats link in
  let! held := hold_link link conditions in
  let! lines := node_journal_line_count (ns_journal_path target) in
  let! _ := started fault_id NetworkDegradation target_node
    (Some (jobject [("link", JString (fk_label link)); ("conditions", conditions_json conditions);
                    ("node_journal_lines", jnum lines)])) in
  do! _ := Sleep duration in
  let! now := link_stats link in
  let! _ := release_link link held in
  let! lines := node_journal_line_count (ns_journal_path target) in
  let! _ := ended fault_id NetworkDegradation target_node
    (Some (jobject [("link", JString (fk_label link));
                    ("link_traffic_during_window", stats_json (since now before));
                    ("node_journal_lines", jnum lines)])) in
  Done (Ok tt).

(** [observed_drain_stalled] *)
Definition observed_drain_stalled (target : NodeSpec) : inj Json :=
  do! fetched := FetchStatus (ns_status_port target) (Some 2000%N) in
  Done (match fetched with
        | Some (Ok (JObject fields)) => default JNull (fields !! "drain_stalled")
        | _ => JNull
        end).

(** [run_catalog_outage] *)
Definition run_catalog_outage (fault_id : string) (target : NodeSpec) (catalog_link : FaultLink)
    (delay duration : N) : attempt unit :=
  let target_node := rendered_node_id target in
  let! lines := node_journal_line_count (ns_journal_path target) in
  let! _ := armed fault_id CatalogOutage target_node
    (Some (jobject [("link", JString (fk_label catalog_link));
                    ("catalog_upstream", JString (fk_upstream catalog_link));
                    ("planned_duration_ms", jnum duration); ("node_journal_lines", jnum lines)])) in
  do! _ := Sleep delay in
  let! before := link_stats catalog_link in
  let! drain_stalled_at_start := observed_drain_stalled target in
  let! held := hold_link catalog_link conditions_dropped in
  let! lines := node_journal_line_count (ns_journal_path target) in
  let! _ := started fault_id CatalogOutage target_node
    (Some (jobject [("link", JString (fk_label catalog_link)); ("drain_stalled", drain_stalled_at_start);
                    ("node_journal_lines", jnum lines)])) in
  do! _ := Sleep duration in
  let! drain_stalled := observed_drain_stalled target in
  let! now := link_stats catalog_link in
  let! _ := release_link catalog_link held in
  let! lines := node_journal_line_count (ns_journal_path target) in
  let! _ := ended fault_id CatalogOutage target_node
    (Some (jobject [("link", JString (fk_label catalog_link));
                    ("link_traffic_during_window", stats_json (since now before));
                    ("drain_stalled", drain_stalled); ("node_journal_lines", jnum lines)])) in
  Done (Ok tt).

(** [FlapSchedule] *)
Record FlapSchedule := { fp_cycles : N; fp_down : N; fp_up : N }.

(** The loop of [run_discovery_flap]: the cycles completed. *)
Fixpoint flap (cycles : nat) (link : FaultLink) (down up cycles_completed : N) : inj N :=
  match cycles with
  | O => Done cycles_completed
  | S cycles =>
      let! held := hold_link link conditions_dropped in
      do! _ := Sleep down in
      let! _ := release_link link held in
      do! _ := Sleep up in
      flap cycles link down up (cycles_completed + 1)
  end.

(** [run_discovery_flap] *)
Definition run_discovery_flap (fault_id : string) (target : NodeSpec) (catalog_link : FaultLink)
    (delay : N) (schedule : FlapSchedule) : attempt unit :=
  let target_node := rendered_node_id target in
  let! lines := node_journal_line_count (ns_journal_path target) in
  let! _ := armed fault_id DiscoveryFlap target_node
    (Some (jobject [("link", JString (fk_label catalog_link)); ("planned_cycles", jnum (fp_cycles schedule));
                    ("down_ms", jnum (fp_down schedule)); ("up_ms", jnum (fp_up schedule));
                    ("node_journal_lines", jnum lines)])) in
  do! _ := Sleep delay in
  let! before := link_stats catalog_link in
  let! lines := node_journal_line_count (ns_journal_path target) in
  let! _ := started fault_id DiscoveryFlap target_node
    (Some (jobject [("link", JString (fk_label catalog_link)); ("node_journal_lines", jnum lines)])) in
  let! cycles_completed := flap (N.to_nat (fp_cycles schedule)) catalog_link (fp_down schedule)
                             (fp_up schedule) 0 in
  let! now := link_stats catalog_link in
  let! lines := node_journal_line_count (ns_journal_path target) in
  let! _ := ended fault_id DiscoveryFlap target_node
    (Some (jobject [("link", JString (fk_label catalog_link)); ("cycles_completed", jnum cycles_completed);
                    ("link_traffic_during_window", stats_json (since now before));
                    ("node_journal_lines", jnum lines)])) in
  Done (Ok tt).

(** ** Cache churn *)

(** [event_token]: [TraceEvent] serializes as its variant's name. *)
Definition event_token (event : TraceEvent) : string :=
  match event with
  | EvAccept => "Accept" | EvDedupCheck => "DedupCheck" | EvStageCommit => "StageCommit"
  | EvClientAck => "ClientAck" | EvThrottle => "Throttle" | EvRefuse => "Refuse"
  | EvForward => "Forward" | EvPeerApply => "PeerApply" | EvReceipt => "Receipt"
  | EvSealPart => "SealPart" | EvPutPart => "PutPart" | EvLakeCommitOk => "LakeCommitOk"
  | EvLakeCommitAbort => "LakeCommitAbort" | EvLakeCommitIndeterminate => "LakeCommitIndeterminate"
  | EvReconcile => "Reconcile" | EvExpire => "Expire" | EvDemote => "Demote" | EvEvict => "Evict"
  | EvDropWindow => "DropWindow" | EvSnapshotSeal => "SnapshotSeal"
  | EvClaimAdvertise => "ClaimAdvertise" | EvHeartbeat => "Heartbeat" | EvFenceBoot => "FenceBoot"
  | EvDegradedBoot => "DegradedBoot" | EvTakeoverDrain => "TakeoverDrain"
  | EvDeclareLoss => "DeclareLoss" | EvEvolveSchema => "EvolveSchema"
  | EvClientTimeout => "ClientTimeout"
  end.

(** [RESIDENCY_EVENTS] *)
Definition RESIDENCY_EVENTS : list (TraceEvent * string) :=
  [(EvDemote, "demote"); (EvEvict, "evict"); (EvDropWindow, "drop_window")].

(** One line's effect on the counts. *)
Definition count_line (counts : list N) (line : string) : list N :=
  match event_field line with
  | None => counts
  | Some event =>
      match list_find (λ e : TraceEvent * string, event_token e.1 = event) RESIDENCY_EVENTS with
      | Some (index, _) => alter (λ n, n + 1)%N index counts
      | None => counts
      end
  end.

(** [ResidencyCounts::since_with_line_count] *)
Definition residency_of (read : result string string) (skip_lines : N) : list N * N :=
  match read with
  | Err _ => ([0; 0; 0], 0)%N
  | Ok contents =>
      (foldl count_line [0; 0; 0]%N (drop (N.to_nat skip_lines) (str_lines contents)),
       line_count contents)
  end.

Definition since_with_line_count (journal_path : string) (skip_lines : N) : inj (list N * N) :=
  do! read := ReadFile journal_path in Done (residency_of read skip_lines).

(** [ResidencyCounts::total] *)
Definition residency_total (counts : list N) : N := foldr N.add 0%N counts.

(** [ResidencyCounts::to_json] *)
Definition residency_json (counts : list N) : Json :=
  jobject (zip_with (λ (e : TraceEvent * string) (count : N), (e.2, jnum count)) RESIDENCY_EVENTS counts
           ++ [("total", jnum (residency_total counts))]).

(** [ReadOutcome], of a racing read *)
Inductive RacingOutcome := RServed | RStreamError | RTimedOut | RTicketRefused.

#[global] Instance RacingOutcome_eq_dec : EqDecision RacingOutcome.
Proof. solve_decision. Defined.

(** [ReadOutcome::as_str] *)
Definition outcome_token (o : RacingOutcome) : string :=
  match o with
  | RServed => "served"
  | RStreamError => "stream_error"
  | RTimedOut => "timed_out"
  | RTicketRefused => "ticket_refused"
  end.

(** [ReadObservation] *)
Record ReadObservation := {
  ro_residency_ops_before : N;
  ro_residency_ops_after : N;
  ro_latency_ms : N;
  ro_outcome : RacingOutcome;
}.

(** [ReadObservation::raced] *)
Definition observation_raced (r : ReadObservation) : bool :=
  (ro_residency_ops_before r <? ro_residency_ops_after r)%N.

Definition observation_json (r : ReadObservation) : Json :=
  jobject [("residency_ops_before", jnum (ro_residency_ops_before r));
           ("residency_ops_after", jnum (ro_residency_ops_after r));
           ("latency_ms", jnum (ro_latency_ms r)); ("outcome", JString (outcome_token (ro_outcome r)))].

(** [ReadTally]: [count], [raced], [max_latency_ms] and [to_json] *)
Definition tally_count (reads : list ReadObservation) (outcome : RacingOutcome) : nat :=
  length (filter (λ r, ro_outcome r = outcome) reads).

Definition tally_raced (reads : list ReadObservation) : nat :=
  length (filter (λ r, ro_outcome r = RServed ∧ observation_raced r = true) reads).

Definition tally_max_latency_ms (reads : list ReadObservation) : N :=
  foldr (λ r, N.max (ro_latency_ms r)) 0%N reads.

Definition tally_json (reads : list ReadObservation) : Json :=
  let jnat (n : nat) := JInt (Z.of_nat n) in
  jobject [("issued", jnat (length reads)); ("served", jnat (tally_count reads RServed));
           ("failed", jnat (length reads - tally_count reads RServed)%nat);
           ("stream_errors", jnat (tally_count reads RStreamError));
           ("timed_out", jnat (tally_count reads RTimedOut));
           ("raced_residency_action", jnat (tally_raced reads));
           ("max_latency_ms", jnum (tally_max_latency_ms reads));
           ("reads", JArray (observation_json <$> reads))].

Definition READ_TIMEOUT : N := 10000.
Definition CONNECT_TIMEOUT : N := 5000.

(** [read_once]: its loop over the messages, and the whole *)
Fixpoint drain_stream (fuel : nat) (timeout : N) : inj RacingOutcome :=
  match fuel with
  | O => Stuck
  | S fuel =>
      do! message := NextMessage (Some timeout) in
      match message with
      | Some (Ok true) => drain_stream fuel timeout
      | Some (Ok false) => Done RServed
      | Some (Err _) => Done RStreamError
      | None => Done RTimedOut
      end
  end.

Definition read_once (fuel : nat) (query : string) (timeout : N) : inj (result RacingOutcome FlightStatus) :=
  do! response := DoGet query (Some timeout) in
  match response with
  | None => Done (Ok RTimedOut)
  | Some (Err status) => Done (Err status)
  | Some (Ok _) => let! outcome := drain_stream fuel timeout in Done (Ok outcome)
  end.

(** The loop of [drive_racing_reads]; [inner] is the fuel of each read. *)
Fixpoint race_reads (fuel inner : nat) (target : NodeSpec) (query : string) (deadline read_interval : N)
    (reads : list ReadObservation) : inj (list ReadObservation * option ReadPathFailure) :=
  match fuel with
  | O => Stuck
  | S fuel =>
      do! now := Now in
      if (deadline <=? now)%N then Done (reads, None)
      else
        let! before := since_with_line_count (ns_journal_path target) 0 in
        do! began := Now in
        let! read := read_once inner query READ_TIMEOUT in
        do! finished := Now in
        let! after := since_with_line_count (ns_journal_path target) 0 in
        let observation outcome :=
          {| ro_residency_ops_before := residency_total before.1;
             ro_residency_ops_after := residency_total after.1;
             ro_latency_ms := u64_try_from (finished - began); ro_outcome := outcome |} in
        match read with
        | Err status =>
            do! _ := SleepUntil deadline in
            Done (reads ++ [observation RTicketRefused], Some (TicketRefusedBy status))
        | Ok outcome =>
            do! _ := Sleep read_interval in
            race_reads fuel inner target query deadline read_interval (reads ++ [observation outcome])
        end
  end.

(** [drive_racing_reads]; the endpoint is a well-formed URI, so [from_shared] succeeds. *)
Definition drive_racing_reads (fuel : nat) (endpoint : string) (target : NodeSpec)
    (query : string) (duration read_interval : N) :
    inj (list ReadObservation * option ReadPathFailure) :=
  do! now := Now in
  let deadline := (now + duration)%N in
  let bail (failure : ReadPathFailure) : inj (list ReadObservation * option ReadPathFailure) :=
    do! _ := SleepUntil deadline in Done ([], Some failure) in
  do! connected := FlightConnect endpoint (Some CONNECT_TIMEOUT) in
  match connected with
  | Some (Ok _) => race_reads fuel fuel target query deadline read_interval []
  | Some (Err error) => bail (ConnectRefused error)
  | None => bail ConnectTimedOut
  end.

Definition failure_json (failure : ReadPathFailure) : Json :=
  JString (match failure with
           | ConnectRefused error => "connecting to Flight: " +:+ error
           | ConnectTimedOut => "connecting to Flight did not complete"
           | TicketRefusedBy status => "DoGet was refused: " +:+ fs_code status +:+ " " +:+ fs_message status
           end).

(** [run_cache_churn] *)
Definition run_cache_churn (fuel : nat) (fault_id : string) (target : NodeSpec) (query : string)
    (delay duration read_interval : N) : attempt unit :=
  let target_node := rendered_node_id target in
  let endpoint := flight_endpoint target in
  let! anchor := node_journal_line_count (ns_journal_path target) in
  let! _ := armed fault_id CacheChurn target_node
    (Some (jobject [("flight_endpoint", JString endpoint); ("query", JString query);
                    ("planned_duration_ms", jnum duration);
                    ("residency_events_watched",
                       JArray ((λ e : TraceEvent * string, JString (event_token e.1)) <$> RESIDENCY_EVENTS));
                    ("node_journal_lines", jnum anchor)])) in
  do! _ := Sleep delay in
  let! before_window := since_with_line_count (ns_journal_path target) anchor in
  let window_start := before_window.2 in
  let! _ := started fault_id CacheChurn target_node
    (Some (jobject [("node_journal_lines", jnum window_start);
                    ("residency_actions_before_window", residency_json before_window.1)])) in
  let! driven := drive_racing_reads fuel endpoint target query duration read_interval in
  let! observed := since_with_line_count (ns_journal_path target) window_start in
  let! _ := ended fault_id CacheChurn target_node
    (Some (jobject [("residency_actions_during_window", residency_json observed.1);
                    ("reads_during_window", tally_json driven.1);
                    ("read_path_failure", jopt failure_json driven.2);
                    ("node_journal_lines", jnum observed.2)])) in
  Done (match driven.2 with
        | Some failure => Err (ReadPathFailed failure)
        | None => if (0 <? residency_total observed.1)%N then Ok tt else Err ChurnedNothing
        end).

(** ** main.rs: the armed faults *)

Definition secs (n : N) : N := (n * 1000)%N.

(** One window of [run_network_faults], when its flag is set. *)
Definition when_armed {A} (flag : option N) (window : N → result A SetupError) :
    result (list A) SetupError :=
  match flag with
  | None => Ok []
  | Some index => let? w := window index in Ok [w]
  end.

Definition partition_window (cli : Cli) (nodes : list NodeSpec) (links : FleetLinks) (index : N) :
    result (attempt unit) SetupError :=
  let? target := node_spec nodes index "--fault-partition-node" in
  let cut := from_option all_links [] (links !! index) in
  match cut with
  | [] => Err (NoLinksToCut index)
  | _ => Ok (run_network_partition "network-partition-0" target cut
               (secs (cli_fault_partition_delay_secs cli)) (secs (cli_fault_partition_duration_secs cli)))
  end.

Definition degrade_conditions (cli : Cli) : LinkConditions :=
  {| client_to_server := Delay (cli_fault_degrade_request_delay_ms cli);
     server_to_client := BandwidthCap (cli_fault_degrade_response_bytes_per_sec cli) |}.

Definition degrade_window (cli : Cli) (nodes : list NodeSpec) (links : FleetLinks) (index : N) :
    result (attempt unit) SetupError :=
  let? target := node_spec nodes index "--fault-degrade-node" in
  let? link := require_link links index Ingress "--fault-degrade-node" in
  Ok (run_network_degradation "network-degradation-0" target link (degrade_conditions cli)
        (secs (cli_fault_degrade_delay_secs cli)) (secs (cli_fault_degrade_duration_secs cli))).

Definition outage_window (cli : Cli) (nodes : list NodeSpec) (links : FleetLinks) (index : N) :
    result (attempt unit) SetupError :=
  let? target := node_spec nodes index "--fault-catalog-outage-node" in
  let? link := require_link links index Catalog "--fault-catalog-outage-node" in
  Ok (run_catalog_outage "catalog-outage-0" target link
        (secs (cli_fault_catalog_outage_delay_secs cli)) (secs (cli_fault_catalog_outage_duration_secs cli))).

Definition flap_window (cli : Cli) (nodes : list NodeSpec) (links : FleetLinks) (index : N) :
    result (attempt unit) SetupError :=
  let? target := node_spec nodes index "--fault-discovery-flap-node" in
  let? link := require_link links index Catalog "--fault-discovery-flap-node" in
  Ok (run_discovery_flap "discovery-flap-0" target link
        (secs (cli_fault_discovery_flap_delay_secs cli))
        {| fp_cycles := cli_fault_discovery_flap_cycles cli;
           fp_down := cli_fault_discovery_flap_down_ms cli;
           fp_up := cli_fault_discovery_flap_up_ms cli |}).

(** [run_network_faults], up to the join: an error of the setup is returned before
    any window has run. *)
Definition network_windows (cli : Cli) (nodes : list NodeSpec) (links : FleetLinks) :
    result (list (attempt unit)) SetupError :=
  let? w1 := when_armed (cli_fault_partition_node cli) (partition_window cli nodes links) in
  let? w2 := when_armed (cli_fault_degrade_node cli) (degrade_window cli nodes links) in
  let? w3 := when_armed (cli_fault_catalog_outage_node cli) (outage_window cli nodes links) in
  let? w4 := when_armed (cli_fault_discovery_flap_node cli) (flap_window cli nodes links) in
  Ok (w1 ++ w2 ++ w3 ++ w4).

Definition run_network_faults (cli : Cli) (nodes : list NodeSpec) (links : FleetLinks) :
    list (attempt unit) :=
  match network_windows cli nodes links with
  | Ok windows => windows
  | Err e => [Done (Err (Setup e))]
  end.

(** [run_cache_churn_fault] *)
Definition run_cache_churn_fault (fuel : nat) (cli : Cli) (nodes : list NodeSpec) : attempt unit :=
  match cli_fault_cache_churn_node cli with
  | None => Done (Ok tt)
  | Some index =>
      match node_spec nodes index "--fault-cache-churn-node" with
      | Err e => Done (Err (Setup e))
      | Ok target =>
          run_cache_churn fuel "cache-churn-0" target (cli_fault_cache_churn_query cli)
            (secs (cli_fault_cache_churn_delay_secs cli)) (secs (cli_fault_cache_churn_duration_secs cli))
            (cli_fault_cache_churn_read_interval_ms cli)
      end
  end.

(** A process fault whose flag may be set: [running.get_mut(index)] and the
    injector. *)
Definition process_fault (flag : option N) (name : string) (running : list NodeSpec)
    (window : NodeSpec → attempt unit) : attempt unit :=
  match flag with
  | None => Done (Ok tt)
  | Some index =>
      match node_spec running index name with
      | Err e => Done (Err (Setup e))
      | Ok target => window target
      end
  end.

(** [run_process_faults]; it answers with the nodes that joined. *)
Definition run_process_faults (fuel : nat) (cli : Cli) (running : list NodeSpec)
    (joiner : option NodeSpec) : attempt (list NodeSpec) :=
  let!? _ := process_fault (cli_fault_kill_node cli) "--fault-kill-node" running (λ target,
    run_node_kill fuel "node-kill-0" target
      (if cli_fault_kill_mid_drain cli
       then MidDrainCommit (secs (cli_fault_kill_mid_drain_timeout_secs cli))
       else AfterDelay (secs (cli_fault_kill_delay_secs cli)))) in
  let!? _ := process_fault (cli_fault_sigstop_node cli) "--fault-sigstop-node" running (λ target,
    run_sigstop_pause fuel "sigstop-pause-0" target (secs (cli_fault_sigstop_delay_secs cli))
      (secs (cli_fault_sigstop_duration_secs cli))) in
  let!? _ := process_fault (cli_fault_churn_leave_node cli) "--fault-churn-leave-node" running (λ target,
    run_membership_leave fuel "membership-leave-0" target (secs (cli_fault_churn_leave_delay_secs cli))
      (secs (cli_shutdown_grace_secs cli))) in
  let!? _ := process_fault (cli_fault_flight_kill_node cli) "--fault-flight-kill-node" running (λ target,
    run_flight_kill_mid_stream fuel "flight-kill-mid-stream-0" target (cli_fault_flight_kill_query cli)
      (secs (cli_fault_flight_kill_delay_secs cli))
      (secs (cli_fault_flight_kill_first_message_timeout_secs cli))) in
  if cli_fault_churn_join cli then
    match joiner with
    | None => Done (Err (Setup NoJoiner))
    | Some joiner =>
        let!? joined := run_membership_join fuel "membership-join-0" joiner
          (secs (cli_fault_churn_join_delay_secs cli)) (secs (cli_boot_timeout_secs cli)) in
        Done (Ok [joined])
    end
  else Done (Ok []).

End injectors.

(** ** A run of the armed faults *)

(** What the windows share: the links by label and the file of the fault log, its
    lines with their times and, after a failed write, a torn tail. *)
Record World := {
  wd_links : gmap string Link;
  wd_log : list (WindowLine * N);
  wd_torn : option string;
}.

Definition set_link (w : World) (label : string) (link : Link) : World :=
  {| wd_links := <[label := link]> (wd_links w); wd_log := wd_log w; wd_torn := wd_torn w |}.

(** What a call may answer, and what it does.  The log and the links are the
    fleet's own; all the rest is answered by the operating system, the nodes and the
    clock.  The counters of a link are read one by one while its pumps run. *)
Definition serve (w : World) (c : fcall) : fanswer c → World → Prop :=
  match c with
  | RecordLine line => λ _ w', ∃ at_ms, is_u64 at_ms ∧
      w' = {| wd_links := wd_links w; wd_log := wd_log w ++ [(line, at_ms)]; wd_torn := wd_torn w |}
  | Hold label conditions => λ held w', ∃ link table,
      wd_links w !! label = Some link ∧ (next_id (lk_table link) < u64_max)%N ∧
      hold (lk_table link) conditions = (table, held.1, held.2) ∧
      w' = set_link w label
             (set_table link table (lk_bumps link + if held.2 then 1 else 0))
  | Bump label => λ _ w', ∃ link n,
      wd_links w !! label = Some link ∧ lk_bumps link = S n ∧
      w' = set_link w label (bump link n)
  | Release label id => λ _ w', ∃ link,
      wd_links w !! label = Some link ∧
      w' = set_link w label (set_table link (release (lk_table link) id) (lk_bumps link))
  | _ => λ _ w', w' = w
  end.

(** A future of the run: what it has done and what is left of it. *)
Record Thread (A : Type) := { th_history : list event; th_prog : inj A }.
Arguments th_history {A} t : rename.
Arguments th_prog {A} t : rename.
Arguments Build_Thread {A} _ _.

Inductive thread_step {A} (w : World) : Thread A → World → Thread A → Prop :=
| ThreadCall h c k a w' :
    serve w c a w' →
    thread_step w (Build_Thread h (Call c k)) w' (Build_Thread (existT c a :: h) (k a)).

(** The three groups [run_armed_faults] joins. *)
Record FaultRun := {
  fr_world : World;
  fr_network : list (Thread (result unit FaultError));
  fr_churn : Thread (result unit FaultError);
  fr_process : Thread (result (list NodeSpec) FaultError);
}.

(** [run_armed_faults], where it starts *)
Definition run_armed_faults `{FleetSerde} (fuel : nat) (cli : Cli) (nodes : list NodeSpec) (joiner : option NodeSpec)
    (links : FleetLinks) (w : World) : FaultRun :=
  {| fr_world := w;
     fr_network := Build_Thread [] <$> run_network_faults cli nodes links;
     fr_churn := Build_Thread [] (run_cache_churn_fault fuel cli nodes);
     fr_process := Build_Thread [] (run_process_faults fuel cli nodes joiner) |}.

(** A step of a run: of one of the futures, or of a link on its own.  A write to the
    log that fails panics and ends the run after some bytes of the line.  Of the
    windows [try_join_all] joins none fails once it runs, so it drops none. *)
Inductive run_step : FaultRun → FaultRun → Prop :=
| RunNetwork s before t after w' t' :
    wd_torn (fr_world s) = None → fr_network s = before ++ t :: after →
    thread_step (fr_world s) t w' t' →
    run_step s {| fr_world := w'; fr_network := before ++ t' :: after; fr_churn := fr_churn s;
                  fr_process := fr_process s |}
| RunChurn s w' t' :
    wd_torn (fr_world s) = None → thread_step (fr_world s) (fr_churn s) w' t' →
    run_step s {| fr_world := w'; fr_network := fr_network s; fr_churn := t';
                  fr_process := fr_process s |}
| RunProcess s w' t' :
    wd_torn (fr_world s) = None → thread_step (fr_world s) (fr_process s) w' t' →
    run_step s {| fr_world := w'; fr_network := fr_network s; fr_churn := fr_churn s;
                  fr_process := t' |}
| RunLink s label link link' :
    wd_torn (fr_world s) = None → wd_links (fr_world s) !! label = Some link → link_step link link' →
    lk_table link' = lk_table link → lk_bumps link' = lk_bumps link →
    run_step s {| fr_world := set_link (fr_world s) label link'; fr_network := fr_network s;
                  fr_churn := fr_churn s; fr_process := fr_process s |}
| RunTorn s reached :
    wd_torn (fr_world s) = None →
    run_step s {| fr_world := {| wd_links := wd_links (fr_world s); wd_log := wd_log (fr_world s);
                                 wd_torn := Some reached |};
                  fr_network := fr_network s; fr_churn := fr_churn s; fr_process := fr_process s |}.

Definition outcome_of {A} (t : Thread A) : option A :=
  match th_prog t with Done a => Some a | _ => None end.

(** What [run_armed_faults] returns, once its groups have. *)
Definition network_result (outcomes : list (result unit FaultError)) : result unit FaultError :=
  foldr (λ r rest, match r with Ok _ => rest | Err e => Err e end) (Ok tt) outcomes.

Definition armed_result (s : FaultRun) : option (result (list NodeSpec) FaultError) :=
  match mapM outcome_of (fr_network s), outcome_of (fr_churn s), outcome_of (fr_process s) with
  | Some network, Some churn, Some process =>
      Some (let? _ := network_result network in let? _ := churn in process)
  | _, _, _ => None
  end.

(** The lines of the fault log, and its file. *)
Definition log_text `{FleetSerde} (log : list (WindowLine * N)) : string :=
  text_of ((λ entry, window_line_to_string entry.1 entry.2) <$> log).

Definition log_file `{FleetSerde} (w : World) : string := log_text (wd_log w) +:+ default "" (wd_torn w).
