(* ===== verification/FaultProps.v ===== *)
(** * What the fault injectors guarantee

    A run of an injector follows a protocol when every call it makes is allowed by
    what it has done; [wp] is that by recursion on the program.  One protocol covers
    all injectors: the lines of a window come in order, a window that promises
    conditions on links holds them when it says it started, and holds nothing when
    it says it ended. *)

From Stdlib Require Import Ascii.
From S2P Require Import Prelude RustStd Types Overload Ports BTree Otlp Evidence Journal RunManifest.
From S2P Require Import FaultLedger Link Fleet Fault.

(** ** Weakest preconditions *)

Abbreviation Hist := (list event).

Fixpoint wp {A} (ok : Hist → fcall → Prop) (h : Hist) (p : inj A) (Q : Hist → A → Prop) : Prop :=
  match p with
  | Done a => Q h a
  | Panic | Stuck => True
  | Call c k => ok h c ∧ ∀ a, wp ok (existT c a :: h) (k a) Q
  end.

Section wp.
Context (ok : Hist → fcall → Prop).

Lemma wp_ret {A} h (a : A) (Q : Hist → A → Prop) : Q h a → wp ok h (Done a) Q.
Proof. done. Qed.

Lemma wp_bind {A B} h (p : inj A) (f : A → inj B) Q :
  wp ok h p (λ h' a, wp ok h' (f a) Q) → wp ok h (ibind p f) Q.
Proof.
  revert h. induction p as [a|c k IH| |]; intros h; simpl; [done| |done..].
  intros [Hok Hk]. split; [done|]. intros a. by apply IH.
Qed.

Lemma wp_mono {A} h (p : inj A) (Q Q' : Hist → A → Prop) :
  wp ok h p Q → (∀ h' a, Q h' a → Q' h' a) → wp ok h p Q'.
Proof.
  intros Hwp HQ. revert h Hwp. induction p as [a|c k IH| |]; intros h; simpl; [by apply HQ| |done..].
  intros [Hok Hk]. split; [done|]. eauto.
Qed.

(** Calls that neither write the log nor touch a link. *)
Definition quiet_call (c : fcall) : Prop :=
  match c with RecordLine _ | Hold _ _ | Bump _ | Release _ _ => False | _ => True end.

Definition quiet_event (e : event) : Prop := quiet_call (projT1 e).

Fixpoint quiet {A} (p : inj A) : Prop :=
  match p with
  | Done _ | Panic | Stuck => True
  | Call c k => quiet_call c ∧ ∀ a, quiet (k a)
  end.

Lemma quiet_bind {A B} (p : inj A) (f : A → inj B) : quiet p → (∀ a, quiet (f a)) → quiet (ibind p f).
Proof. intros Hp Hf. induction p; simpl in *; naive_solver. Qed.

Lemma wp_quiet {A} h (p : inj A) Q :
  quiet p → (∀ h c, quiet_call c → ok h c) → (∀ t a, Forall quiet_event t → Q (t ++ h) a) → wp ok h p Q.
Proof.
  intros Hp Hok. revert h Hp. induction p as [a|c k IH| |]; intros h Hp HQ; simpl; [|destruct Hp as [Hc Hk]|done..].
  - by apply (HQ []).
  - split; [by apply Hok|]. intros a. apply IH; [done|]. intros t b Ht.
    specialize (HQ (t ++ [existT c a]) b). rewrite <-app_assoc in HQ. apply HQ.
    apply Forall_app. split; [done|]. by constructor.
Qed.
End wp.

Create HintDb quiet.

Ltac quiet_go := repeat first [done | progress simpl | split | intros ? | case_match].

Lemma quiet_poll fuel check deadline period : quiet check → quiet (poll_until fuel check deadline period).
Proof.
  intros Hc. induction fuel as [|fuel IH]; simpl; [done|]. apply quiet_bind; [done|].
  intros []; simpl; [done|]. split; [done|]. intros now. case_match; simpl; auto.
Qed.

Lemma quiet_wait_exited fuel node timeout : quiet (wait_exited fuel node timeout).
Proof. simpl. split; [done|]. intros now. apply quiet_poll. by split. Qed.

Lemma quiet_in_state states pid : quiet (in_state states pid).
Proof. split; [exact I|]. intros []; exact I. Qed.

Lemma quiet_confirm fuel pid timeout states : quiet (confirm fuel pid timeout (in_state states)).
Proof.
  destruct pid; simpl; [|done]. split; [done|]. intros now. apply quiet_poll, quiet_in_state.
Qed.

Lemma quiet_with_tail node error : quiet (with_tail node error).
Proof. split; [done|]. intros read. by destruct (stderr_tail _ read). Qed.

(** The tail of a log of more than 4096 bytes is cut at a byte, and the cut may fall
    inside a character. *)
Lemma stderr_tail_panics :
  stderr_tail "stderr.log" (Ok (String.concat "" (replicate 2048 "é") +:+ "a")) = None.
Proof. vm_compute. reflexivity. Qed.

Lemma quiet_ready fuel node timeout : quiet (wait_until_ready fuel node timeout).
Proof.
  simpl. split; [done|]. intros now. set (deadline := (now + timeout)%N). clearbody deadline.
  induction fuel as [|fuel IH]; simpl; [done|]. split; [done|]. intros [[status|]|]; [|quiet_go..].
  - apply quiet_with_tail.
Qed.

Lemma quiet_read_to_end fuel n : quiet (read_to_end fuel n).
Proof. revert n. induction fuel as [|fuel IH]; intros n; simpl; [done|]. split; [done|]. by intros [[]|]. Qed.

Section quiet.
Context `{FleetSerde}.

Lemma quiet_wait_event fuel path event skip timeout : quiet (wait_for_journal_event fuel path event skip timeout).
Proof. simpl. split; [done|]. intros now. apply quiet_bind; [|done]. apply quiet_poll. by split. Qed.

Lemma quiet_drain fuel timeout : quiet (drain_stream fuel timeout).
Proof. induction fuel as [|fuel IH]; simpl; [done|]. split; [done|]. by intros [[[]|]|]. Qed.

Lemma quiet_race fuel inner target query deadline interval reads :
  quiet (race_reads fuel inner target query deadline interval reads).
Proof.
  revert reads. induction fuel as [|fuel IH]; intros reads; simpl; [done|]. split; [done|]. intros now.
  case_match; simpl; [done|]. split; [done|]. intros before. split; [done|]. intros began.
  split; [done|]. intros response. apply quiet_bind.
  - destruct response as [[]|]; simpl; [|done..]. apply quiet_bind; [apply quiet_drain|done].
  - intros [outcome|status]; simpl; (split; [done|]); intros; (split; [done|]); intros;
      (split; [done|]); intros; by auto.
Qed.

Lemma quiet_drive fuel endpoint target query duration interval :
  quiet (drive_racing_reads fuel endpoint target query duration interval).
Proof.
  simpl. split; [done|]. intros now. split; [done|]. intros [[]|]; simpl; [apply quiet_race|by split..].
Qed.
End quiet.

#[export] Hint Resolve quiet_wait_exited quiet_confirm quiet_ready quiet_read_to_end quiet_wait_event
  quiet_drive : quiet.

(** ** The protocol of a fault window *)

(** A window: its id, its kind, its target. *)
Record WindowSpec := { ws_id : string; ws_kind : FaultKind; ws_target : string }.

Definition window_of (line : WindowLine) : WindowSpec :=
  {| ws_id := wl_fault_id line; ws_kind := wl_kind line; ws_target := wl_target_node line |}.

(** The lines of a window in a history, the newest first. *)
Fixpoint lines_of (id : string) (h : Hist) : list WindowLine :=
  match h with
  | [] => []
  | e :: h =>
      match projT1 e with
      | RecordLine line => if decide (wl_fault_id line = id) then line :: lines_of id h else lines_of id h
      | _ => lines_of id h
      end
  end.

(** The conditions a history holds. *)
Fixpoint held (h : Hist) : list (string * N * LinkConditions) :=
  match h with
  | [] => []
  | existT c a :: h =>
      match c return fanswer c → list (string * N * LinkConditions) with
      | Hold label conditions => λ a, (label, a.1, conditions) :: held h
      | Release label id => λ _, filter (λ x, x.1 ≠ (label, id)) (held h)
      | _ => λ _, held h
      end a
  end.

(** The phase that comes after so many lines. *)
Definition next_phase (n : nat) : option WindowPhase :=
  match n with O => Some PArmed | 1 => Some PStarted | 2 => Some PEnded | _ => None end.

(** What a window promises to hold from its start on. *)
Definition Promises : Type := string → list (string * LinkConditions).

Definition follows (specs : list WindowSpec) (promised : Promises) (h : Hist) (c : fcall) : Prop :=
  match c with
  | RecordLine line =>
      window_of line ∈ specs ∧
      next_phase (length (lines_of (wl_fault_id line) h)) = Some (wl_phase line) ∧
      (wl_phase line = PStarted → ∀ label conditions, (label, conditions) ∈ promised (wl_fault_id line) →
         ∃ i, (label, i, conditions) ∈ held h) ∧
      (wl_phase line = PEnded → held h = [])
  | Release label id => ∃ conditions, (label, id, conditions) ∈ held h
  | _ => True
  end.

Lemma follows_quiet specs promised h c : quiet_call c → follows specs promised h c.
Proof. by destruct c. Qed.

Lemma lines_of_quiet id t h : Forall quiet_event t → lines_of id (t ++ h) = lines_of id h.
Proof. induction 1 as [|[c a] t Hc _ IH]; [done|]. by destruct c. Qed.

Lemma held_quiet t h : Forall quiet_event t → held (t ++ h) = held h.
Proof. induction 1 as [|[c a] t Hc _ IH]; [done|]. by destruct c. Qed.

(** An injector journals its own window, all of it when it succeeds, and ends with
    nothing held. *)
Definition injects {A} (promised : Promises) (spec : WindowSpec) (p : inj (result A FaultError)) : Prop :=
  ∀ specs h, spec ∈ specs → lines_of (ws_id spec) h = [] → held h = [] →
    wp (follows specs promised) h p (λ h' r,
      (∀ id, id ≠ ws_id spec → lines_of id h' = lines_of id h) ∧
      (∀ a, r = Ok a → length (lines_of (ws_id spec) h') = 3) ∧ held h' = []).

(** Where a window of a program is: so many lines of it are journaled, these
    conditions are held, and the lines of other windows are those of [h0]. *)
Definition in_window (id : string) (h0 : Hist) (n : nat) (hs : list (string * N * LinkConditions))
    (h : Hist) : Prop :=
  length (lines_of id h) = n ∧ held h = hs ∧ ∀ id', id' ≠ id → lines_of id' h = lines_of id' h0.

Section steps.
Context (specs : list WindowSpec) (promised : Promises) (h0 : Hist).

Abbreviation wpf := (wp (follows specs promised)).

Lemma st_quiet {A} id n hs h (p : inj A) Q :
  in_window id h0 n hs h → quiet p → (∀ h' a, in_window id h0 n hs h' → Q h' a) → wpf h p Q.
Proof.
  intros (Hn & Hh & Ho) Hp HQ. apply wp_quiet; [done|apply follows_quiet|]. intros t a Ht. apply HQ.
  split_and!; [by rewrite lines_of_quiet|by rewrite held_quiet|]. intros id' ?. rewrite lines_of_quiet; auto.
Qed.

Lemma st_call {A} id n hs h c (k : fanswer c → inj A) Q :
  in_window id h0 n hs h → quiet_call c → (∀ h' a, in_window id h0 n hs h' → wpf h' (k a) Q) →
  wpf h (Call c k) Q.
Proof.
  intros Hw Hc HQ. split; [by apply follows_quiet|]. intros a. apply HQ.
  destruct Hw as (Hn & Hh & Ho). assert (Forall quiet_event [existT c a : event]) as He by by constructor.
  split_and!; [rewrite <-Hn; f_equal; by apply (lines_of_quiet _ [_])|rewrite <-Hh; by apply (held_quiet [_])|].
  intros id' Hid. rewrite <-(Ho id' Hid). by apply (lines_of_quiet _ [_]).
Qed.

Lemma st_record id n hs h phase kind target detail Q :
  in_window id h0 n hs h → {| ws_id := id; ws_kind := kind; ws_target := target |} ∈ specs →
  next_phase n = Some phase →
  (phase = PStarted → ∀ label conditions, (label, conditions) ∈ promised id →
     ∃ i, (label, i, conditions) ∈ hs) →
  (phase = PEnded → hs = []) →
  (∀ h' a, in_window id h0 (S n) hs h' → Q h' a) → wpf h (record phase id kind target detail) Q.
Proof.
  intros (Hn & Hh & Ho) Hin Hph Hst Hend HQ. split.
  - cbn. rewrite Hn, Hh. split_and!; [done|done|exact Hst|exact Hend].
  - intros a. apply HQ. split_and!.
    + cbn. rewrite decide_True by done. cbn. by rewrite Hn.
    + exact Hh.
    + intros id' Hid. cbn. rewrite decide_False by done. by apply Ho.
Qed.

Lemma st_hold id n hs h link conditions Q :
  in_window id h0 n hs h →
  (∀ h' i, in_window id h0 n ((fk_label link, i, conditions) :: hs) h' → Q h' i) →
  wpf h (hold_link link conditions) Q.
Proof.
  intros (Hn & Hh & Ho) HQ. unfold hold_link. split; [exact I|]. intros [i []]; cbn [fst snd].
  - split; [exact I|]. intros []. apply HQ. split_and!; [exact Hn|cbn; by rewrite Hh|exact Ho].
  - apply HQ. split_and!; [exact Hn|cbn; by rewrite Hh|exact Ho].
Qed.

Lemma st_release id n hs h link i Q :
  in_window id h0 n hs h → (∃ conditions, (fk_label link, i, conditions) ∈ hs) →
  (∀ h' a, in_window id h0 n (filter (λ x, x.1 ≠ (fk_label link, i)) hs) h' → Q h' a) →
  wpf h (release_link link i) Q.
Proof.
  intros (Hn & Hh & Ho) Hin HQ. split; [cbn; by rewrite Hh|]. intros a. apply HQ.
  split_and!; [exact Hn|cbn; by rewrite Hh|exact Ho].
Qed.
End steps.

Lemma released_only (label : string) (i : N) (conditions : LinkConditions) :
  filter (λ y : string * N * LinkConditions, y.1 ≠ (label, i)) [(label, i, conditions)] = [].
Proof. rewrite filter_cons_False by (simpl; tauto). done. Qed.

(** The promises of a window that starts, with what it holds. *)
Ltac promise :=
  intros _ ? ?; match goal with Hp : _ = _ |- (_ ∈ _) → _ => rewrite Hp end; set_solver.

(** Run a program up to the next line, hold or release. *)
Ltac wp_go :=
  repeat first
    [ match goal with |- wp _ _ (ibind _ _) _ => apply wp_bind end
    | match goal with |- wp _ _ (Done _) _ => apply wp_ret end; cbv beta
    | match goal with |- wp _ _ (match ?x with _ => _ end) _ => destruct x end
    | match goal with Hw : in_window _ _ _ _ ?h |- wp _ ?h (Call _ _) _ =>
        eapply st_call; [exact Hw|exact I|]; clear Hw; intros ?h ? Hw end
    | match goal with Hw : in_window _ _ _ _ ?h |- wp _ ?h (record _ _ _ _ _) _ =>
        eapply st_record; [exact Hw|done|reflexivity|first [by intros|promise]|by intros|]; clear Hw; intros ?h ? Hw end
    | match goal with Hw : in_window _ _ _ _ ?h |- wp _ ?h (hold_link _ _) _ =>
        eapply st_hold; [exact Hw|]; clear Hw; intros ?h ? Hw end
    | match goal with Hw : in_window _ _ _ _ ?h |- wp _ ?h (release_link _ _) _ =>
        eapply st_release; [exact Hw|eexists; left|]; clear Hw; intros ?h ? Hw;
        rewrite released_only in Hw end
    | match goal with Hw : in_window _ _ _ _ ?h |- wp _ ?h _ _ =>
        eapply st_quiet; [exact Hw|by eauto with quiet|]; clear Hw; intros ?h ? Hw end ].

Ltac wp_done := match goal with Hw : in_window _ _ _ _ _ |- _ =>
  destruct Hw as (? & ? & ?); split_and!; [done| |done]; (by intros) end.

Section lifecycle.
Context `{FleetSerde}.
Context (promised : Promises).

Lemma injects_enter {A} spec (p : inj (result A FaultError)) :
  (∀ specs h0 h, spec ∈ specs → in_window (ws_id spec) h0 0 [] h →
    wp (follows specs promised) h p (λ h' r,
      (∀ id, id ≠ ws_id spec → lines_of id h' = lines_of id h0) ∧
      (∀ a, r = Ok a → length (lines_of (ws_id spec) h') = 3) ∧ held h' = [])) →
  injects promised spec p.
Proof. intros Hp specs h Hin Hl Hh. apply Hp; [done|]. by split_and!; [rewrite Hl| |]. Qed.

Lemma node_kill_injects fuel fault_id target timing :
  promised fault_id = [] →
  injects promised {| ws_id := fault_id; ws_kind := NodeKill; ws_target := rendered_node_id target |}
    (run_node_kill fuel fault_id target timing).
Proof.
  intros Hp. apply injects_enter. intros specs h0 h Hin Hw. cbn [ws_id] in *.
  unfold run_node_kill, node_journal_line_count, armed, started, ended, send_signal. wp_go; wp_done.
Qed.

Lemma sigstop_injects fuel fault_id target delay pause :
  promised fault_id = [] →
  injects promised {| ws_id := fault_id; ws_kind := SigstopPause; ws_target := rendered_node_id target |}
    (run_sigstop_pause fuel fault_id target delay pause).
Proof.
  intros Hp. apply injects_enter. intros specs h0 h Hin Hw. cbn [ws_id] in *.
  unfold run_sigstop_pause, node_journal_line_count, armed, started, ended, send_signal, is_stopped,
    is_live_running. wp_go; wp_done.
Qed.

Lemma leave_injects fuel fault_id target delay grace :
  promised fault_id = [] →
  injects promised {| ws_id := fault_id; ws_kind := MembershipLeave; ws_target := rendered_node_id target |}
    (run_membership_leave fuel fault_id target delay grace).
Proof.
  intros Hp. apply injects_enter. intros specs h0 h Hin Hw. cbn [ws_id] in *.
  unfold run_membership_leave, node_journal_line_count, armed, started, ended, send_signal. wp_go; wp_done.
Qed.

Lemma join_injects fuel fault_id target delay timeout :
  promised fault_id = [] →
  injects promised {| ws_id := fault_id; ws_kind := MembershipJoin; ws_target := rendered_node_id target |}
    (run_membership_join fuel fault_id target delay timeout).
Proof.
  intros Hp. apply injects_enter. intros specs h0 h Hin Hw. cbn [ws_id] in *.
  unfold run_membership_join, node_journal_line_count, armed, started, ended. wp_go; wp_done.
Qed.

Lemma flight_kill_injects fuel fault_id target query delay timeout :
  promised fault_id = [] →
  injects promised {| ws_id := fault_id; ws_kind := FlightKillMidStream; ws_target := rendered_node_id target |}
    (run_flight_kill_mid_stream fuel fault_id target query delay timeout).
Proof.
  intros Hp. apply injects_enter. intros specs h0 h Hin Hw. cbn [ws_id] in *.
  unfold run_flight_kill_mid_stream, node_journal_line_count, armed, started, ended, send_signal.
  wp_go; wp_done.
Qed.

Lemma churn_injects fuel fault_id target query delay duration interval :
  promised fault_id = [] →
  injects promised {| ws_id := fault_id; ws_kind := CacheChurn; ws_target := rendered_node_id target |}
    (run_cache_churn fuel fault_id target query delay duration interval).
Proof.
  intros Hp. apply injects_enter. intros specs h0 h Hin Hw. cbn [ws_id] in *.
  unfold run_cache_churn, node_journal_line_count, since_with_line_count, armed, started, ended.
  wp_go; wp_done.
Qed.

Lemma degradation_injects fault_id target link conditions delay duration :
  promised fault_id = [(fk_label link, conditions)] →
  injects promised {| ws_id := fault_id; ws_kind := NetworkDegradation; ws_target := rendered_node_id target |}
    (run_network_degradation fault_id target link conditions delay duration).
Proof.
  intros Hp. apply injects_enter. intros specs h0 h Hin Hw. cbn [ws_id] in *.
  unfold run_network_degradation, node_journal_line_count, link_stats, armed, started, ended.
  wp_go; wp_done.
Qed.

Lemma outage_injects fault_id target link delay duration :
  promised fault_id = [(fk_label link, conditions_dropped)] →
  injects promised {| ws_id := fault_id; ws_kind := CatalogOutage; ws_target := rendered_node_id target |}
    (run_catalog_outage fault_id target link delay duration).
Proof.
  intros Hp. apply injects_enter. intros specs h0 h Hin Hw. cbn [ws_id] in *.
  unfold run_catalog_outage, node_journal_line_count, link_stats, observed_drain_stalled, armed, started,
    ended. wp_go; wp_done.
Qed.

Lemma wp_flap specs id h0 n cycles link down up done_ h Q :
  in_window id h0 n [] h → (∀ h' m, in_window id h0 n [] h' → Q h' m) →
  wp (follows specs promised) h (flap cycles link down up done_) Q.
Proof.
  revert done_ h. induction cycles as [|cycles IH]; intros done_ h Hw HQ; cbn [flap]; [by apply HQ|]. wp_go.
  by apply IH.
Qed.

Lemma flap_injects fault_id target link delay schedule :
  promised fault_id = [] →
  injects promised {| ws_id := fault_id; ws_kind := DiscoveryFlap; ws_target := rendered_node_id target |}
    (run_discovery_flap fault_id target link delay schedule).
Proof.
  intros Hp. apply injects_enter. intros specs h0 h Hin Hw. cbn [ws_id] in *.
  unfold run_discovery_flap, node_journal_line_count, link_stats, armed, started, ended. wp_go.
  eapply wp_flap; [exact Hw|]. clear Hw. intros h' m Hw. wp_go; wp_done.
Qed.

Lemma filter_keep {A} (P : A → Prop) `{∀ x, Decision (P x)} (l : list A) : Forall P l → filter P l = l.
Proof. induction 1 as [|x l Hx _ IH]; [done|]. rewrite filter_cons_True by done. by f_equal. Qed.

(** The holds of a partition, as they are taken. *)
Definition holds_of (links : list FaultLink) (ids : list N) : list (string * N * LinkConditions) :=
  zip_with (λ link i, (fk_label link, i, conditions_dropped)) links ids.

Lemma wp_hold_all specs id h0 n links hs h Q :
  in_window id h0 n hs h →
  (∀ h' ids, length ids = length links → in_window id h0 n (reverse (holds_of links ids) ++ hs) h' → Q h' ids) →
  wp (follows specs promised) h (imapM (λ link, hold_link link conditions_dropped) links) Q.
Proof.
  revert hs h Q. induction links as [|link links IH]; intros hs h Q Hw HQ; cbn [imapM]; [by apply HQ|].
  wp_go. eapply IH; [exact Hw|]. intros h2 ids Hl Hw2. apply wp_ret, HQ; [by simpl; f_equal|].
  unfold holds_of in *. simpl. by rewrite reverse_cons, <-app_assoc.
Qed.

Lemma wp_release_all specs id h0 n links ids hs h Q :
  NoDup (fk_label <$> links) → length ids = length links → hs ≡ₚ holds_of links ids →
  in_window id h0 n hs h → (∀ h' a, in_window id h0 n [] h' → Q h' a) →
  wp (follows specs promised) h (imapM (λ lh : FaultLink * N, release_link lh.1 lh.2) (zip links ids)) Q.
Proof.
  revert ids hs h Q. induction links as [|link links IH]; intros ids hs h Q Hnd Hl Hhs Hw HQ.
  - destruct ids; [|done]. simpl in *. apply Permutation_nil_r in Hhs as ->. by apply HQ.
  - destruct ids as [|i ids]; [done|]. cbn [zip zip_with imapM fst snd] in *. apply NoDup_cons in Hnd as [Hni Hnd]. apply wp_bind.
    eapply st_release; [exact Hw|exists conditions_dropped; rewrite Hhs; left|]. clear Hw. intros h1 [] Hw.
    apply wp_bind. eapply IH; [done|by simplify_eq/=| |exact Hw|].
    + rewrite Hhs. unfold holds_of. cbn [zip_with]. rewrite filter_cons_False by (simpl; tauto). rewrite filter_keep; [done|].
      apply Forall_forall. intros x Hx.
      apply elem_of_lookup_zip_with in Hx as (k & l & j & -> & Hk & _). simpl. intros [= E _]. apply Hni.
      rewrite <-E. by eapply list_elem_of_fmap_2, list_elem_of_lookup_2.
    + intros h2 a Hw2. apply wp_ret. by apply HQ.
Qed.

Lemma quiet_mapM {A B} (f : A → inj B) l : (∀ a, quiet (f a)) → quiet (imapM f l).
Proof.
  intros Hf. induction l as [|a l IH]; simpl; [done|]. apply quiet_bind; [done|]. intros b.
  by apply quiet_bind.
Qed.

Lemma quiet_stats links : quiet (imapM link_stats links).
Proof. apply quiet_mapM. by split. Qed.

Lemma quiet_deltas links before : quiet (link_deltas links before).
Proof. apply quiet_bind; [|done]. apply quiet_mapM. by split. Qed.

Lemma holds_cover links ids label conditions :
  length ids = length links → (label, conditions) ∈ (λ link, (fk_label link, conditions_dropped)) <$> links →
  ∃ i, (label, i, conditions) ∈ reverse (holds_of links ids) ++ [].
Proof.
  intros Hl (link & [= -> ->] & (k & Hk)%list_elem_of_lookup_1)%list_elem_of_fmap.
  assert (is_Some (ids !! k)) as [i Hi].
  { apply lookup_lt_is_Some. rewrite Hl. by eapply lookup_lt_Some. }
  exists i. rewrite app_nil_r, elem_of_reverse. apply (list_elem_of_lookup_2 _ k). unfold holds_of.
  by rewrite lookup_zip_with, Hk, Hi.
Qed.

Lemma partition_injects fault_id target links delay duration :
  NoDup (fk_label <$> links) →
  promised fault_id = (λ link, (fk_label link, conditions_dropped)) <$> links →
  injects promised {| ws_id := fault_id; ws_kind := NetworkPartition; ws_target := rendered_node_id target |}
    (run_network_partition fault_id target links delay duration).
Proof.
  intros Hnd Hp. apply injects_enter. intros specs h0 h Hin Hw. cbn [ws_id] in *.
  unfold run_network_partition, node_journal_line_count, armed, started, ended. wp_go.
  eapply st_quiet; [exact Hw|apply quiet_stats|]. clear Hw. intros h4 before Hw. wp_go.
  eapply wp_hold_all; [exact Hw|]. clear Hw. intros h5 ids Hl Hw. wp_go.
  eapply st_record; [exact Hw|done|done| |done|].
  { intros _ label conditions. rewrite Hp. by apply holds_cover. }
  clear Hw. intros hs [] Hw. wp_go. eapply st_quiet; [exact Hw|apply quiet_deltas|]. clear Hw.
  intros hd during Hw. wp_go. eapply wp_release_all; [done|done| |exact Hw|].
  { by rewrite app_nil_r, reverse_Permutation. }
  clear Hw. intros hr ? Hw. wp_go; wp_done.
Qed.
End lifecycle.

(** ** Runs *)

(** A log in which the lines of every window come in order and agree. *)
Inductive log_ok : list WindowLine → Prop :=
| log_nil : log_ok []
| log_snoc log line :
    log_ok log →
    next_phase (length (filter (λ l, wl_fault_id l = wl_fault_id line) log)) = Some (wl_phase line) →
    (∀ l, l ∈ log → wl_fault_id l = wl_fault_id line → window_of l = window_of line) →
    log_ok (log ++ [line]).

(** What the shared state of a run has to do with the histories [hs] of its futures,
    each of which may journal the windows [aspecs] gives it. *)
Record world_ok (aspecs : list (list WindowSpec)) (hs : list Hist) (w : World) : Prop := {
  wo_length : length hs = length aspecs;
  wo_log : log_ok (wd_log w).*1;
  wo_lines i specs h spec : aspecs !! i = Some specs → hs !! i = Some h → spec ∈ specs →
    filter (λ l, wl_fault_id l = ws_id spec) (wd_log w).*1 = reverse (lines_of (ws_id spec) h);
  wo_known line : line ∈ (wd_log w).*1 → ∃ i specs, aspecs !! i = Some specs ∧ window_of line ∈ specs;
  wo_times line at_ms : (line, at_ms) ∈ wd_log w → is_u64 at_ms;
  wo_active label link i conditions : wd_links w !! label = Some link →
    active (lk_table link) !! i = Some conditions ↔
    ∃ t h, hs !! t = Some h ∧ (label, i, conditions) ∈ held h;
  wo_owner t h t' h' label i c c' : hs !! t = Some h → hs !! t' = Some h' →
    (label, i, c) ∈ held h → (label, i, c') ∈ held h' → t = t' ∧ c = c';
  wo_fresh t h label i c : hs !! t = Some h → (label, i, c) ∈ held h →
    ∃ link, wd_links w !! label = Some link ∧ (i < next_id (lk_table link))%N;
}.

(** Windows have ids of their own. *)
Definition own_ids (aspecs : list (list WindowSpec)) : Prop :=
  ∀ i j specs specs' spec spec', aspecs !! i = Some specs → aspecs !! j = Some specs' →
    spec ∈ specs → spec' ∈ specs' → ws_id spec = ws_id spec' → i = j ∧ spec = spec'.

Section world.
Context (promised : Promises) (aspecs : list (list WindowSpec)).
Context (Hids : own_ids aspecs).

Lemma lines_of_same id h e : (∀ line, projT1 e = RecordLine line → wl_fault_id line ≠ id) →
  lines_of id (e :: h) = lines_of id h.
Proof. intros Hne. simpl. destruct (projT1 e) eqn:E; try done. by rewrite decide_False by eauto. Qed.

(** A call that changes nothing the invariant speaks of. *)
Lemma world_quiet hs w t h e :
  world_ok aspecs hs w → hs !! t = Some h → (∀ id, lines_of id (e :: h) = lines_of id h) →
  held (e :: h) = held h → world_ok aspecs (<[t := e :: h]> hs) w.
Proof.
  intros [Hlen Hlog Hlines Hknown Htimes Hact Hown Hfresh] Ht Hl Hh.
  assert (∀ t' h', <[t := e :: h]> hs !! t' = Some h' → ∃ h0, hs !! t' = Some h0 ∧ held h' = held h0 ∧
            ∀ id, lines_of id h' = lines_of id h0) as Hback.
  { intros t' h'. rewrite list_lookup_insert_Some. intros [(<- & <- & _)|[_ ?]]; eauto. }
  assert (∀ t' h', hs !! t' = Some h' → ∃ h1, <[t := e :: h]> hs !! t' = Some h1 ∧ held h1 = held h') as Hforth.
  { intros t' h' Ht'. destruct (decide (t' = t)) as [->|Hne].
    - exists (e :: h). rewrite list_lookup_insert_eq by by eapply lookup_lt_Some. split; [done|].
      rewrite Ht in Ht'. injection Ht' as <-. exact Hh.
    - exists h'. by rewrite list_lookup_insert_ne. }
  split.
  - by rewrite length_insert.
  - done.
  - intros i specs h' spec Hi (h0 & Hh0 & _ & ->)%Hback Hin. eauto.
  - done.
  - done.
  - intros label link i c Hlk. rewrite (Hact _ _ _ _ Hlk). split.
    + intros (t' & h' & (h1 & ? & ?)%Hforth & ?). exists t', h1. split; [done|]. congruence.
    + intros (t' & h' & (h0 & ? & ? & _)%Hback & ?). exists t', h0. split; [done|]. congruence.
  - intros t1 h1 t2 h2 label i c c' (h1' & ? & -> & _)%Hback (h2' & ? & -> & _)%Hback. eauto.
  - intros t1 h1 label i c (h1' & ? & -> & _)%Hback. eauto.
Qed.

(** A line is journaled. *)
Lemma world_record hs w t h specs line at_ms a :
  world_ok aspecs hs w → hs !! t = Some h → aspecs !! t = Some specs →
  follows specs promised h (RecordLine line) → is_u64 at_ms →
  world_ok aspecs (<[t := existT (RecordLine line) a :: h]> hs)
    {| wd_links := wd_links w; wd_log := wd_log w ++ [(line, at_ms)]; wd_torn := wd_torn w |}.
Proof.
  intros [Hlen Hlog Hlines Hknown Htimes Hact Hown Hfresh] Ht Hs (Hin & Hph & _) Hat.
  assert (∀ id h0, id ≠ wl_fault_id line → lines_of id (existT (RecordLine line) a :: h0) = lines_of id h0)
    as Hother by by intros id h0 Hne; simpl; rewrite decide_False by done.
  assert (filter (λ l, wl_fault_id l = wl_fault_id line) (wd_log w).*1 = reverse (lines_of (wl_fault_id line) h))
    as Hmine by by apply (Hlines t specs h (window_of line)).
  assert (∀ t' h', <[t := existT (RecordLine line) a :: h]> hs !! t' = Some h' →
    ∃ h0, hs !! t' = Some h0 ∧ held h' = held h0) as Hback.
  { intros t' h'. rewrite list_lookup_insert_Some. intros [(<- & <- & _)|[_ ?]]; eauto. }
  split; cbn [wd_log wd_links].
  - by rewrite length_insert.
  - rewrite fmap_app. apply (log_snoc _ line); [done| |].
    + by rewrite Hmine, length_reverse.
    + intros l Hl El. destruct (Hknown l Hl) as (j & specs' & Hj & Hin').
      by destruct (Hids j t specs' specs (window_of l) (window_of line) Hj Hs Hin' Hin El).
  - intros i specs' h' spec Hi. rewrite list_lookup_insert_Some, fmap_app, filter_app. cbn [fmap list_fmap fst].
    intros [(<- & <- & _)|[Hne Hi']] Hsp.
    + simplify_eq. destruct (decide (wl_fault_id line = ws_id spec)) as [E|E].
      * rewrite filter_cons_True by done. cbn [lines_of projT1]. rewrite decide_True, reverse_cons, <-(Hlines _ _ _ _ Hs Ht Hsp) by done.
        done.
      * rewrite filter_cons_False by done. cbn [lines_of projT1]. rewrite decide_False, app_nil_r by done. eauto.
    + rewrite filter_cons_False, app_nil_r by (intros E; by destruct (Hids _ _ _ _ _ _ Hi Hs Hsp Hin)). eauto.
  - intros l. rewrite fmap_app. intros [Hl|Hl%list_elem_of_singleton]%elem_of_app; [eauto|]. subst l. eauto.
  - intros l n [Hl|[= -> ->]%list_elem_of_singleton]%elem_of_app; [eauto|done].
  - intros label link i c Hlk. rewrite (Hact _ _ _ _ Hlk). split; intros (t' & h' & Hh & Hheld).
    + destruct (decide (t' = t)) as [->|Hne].
      * exists t, (existT (RecordLine line) a :: h). rewrite list_lookup_insert_eq by by eapply lookup_lt_Some.
        by simplify_eq.
      * exists t', h'. by rewrite list_lookup_insert_ne.
    + apply Hback in Hh as (h0 & ? & E). exists t', h0. by rewrite <-E.
  - intros t1 h1 t2 h2 label i c c' (h1' & ? & ->)%Hback (h2' & ? & ->)%Hback. eauto.
  - intros t1 h1 label i c (h1' & ? & ->)%Hback. eauto.
Qed.

Lemma world_hold hs w t h label link conditions table i bump :
  world_ok aspecs hs w → hs !! t = Some h → wd_links w !! label = Some link →
  (next_id (lk_table link) < u64_max)%N → hold (lk_table link) conditions = (table, i, bump) →
  ∀ bumps a, a.1 = i → world_ok aspecs (<[t := existT (Hold label conditions) a :: h]> hs)
    (set_link w label (set_table link table bumps)).
Proof.
  intros [Hlen Hlog Hlines Hknown Htimes Hact Hown Hfresh] Ht Hlk Hmax Hhold bumps a <-.
  unfold hold in Hhold. injection Hhold as <- Ha _. remember (next_id (lk_table link)) as i eqn:Hi.
  assert (u64_succ i = i + 1)%N as Hsucc by (by apply u64_succ_small).
  assert (∀ t' h' x, <[t := existT (Hold label conditions) a :: h]> hs !! t' = Some h' → x ∈ held h' →
    (t' = t ∧ x = (label, i, conditions)) ∨ ∃ h0, hs !! t' = Some h0 ∧ x ∈ held h0) as Hback.
  { intros t' h' x. rewrite list_lookup_insert_Some. intros [(<- & <- & _)|[_ ?]]; [|eauto]. cbn [held].
    rewrite <-Ha. intros [->|?]%elem_of_cons; [by left|eauto]. }
  assert (∀ t' h' x, hs !! t' = Some h' → x ∈ held h' → ∃ h1,
    <[t := existT (Hold label conditions) a :: h]> hs !! t' = Some h1 ∧ x ∈ held h1) as Hforth.
  { intros t' h' x Ht' Hx. destruct (decide (t' = t)) as [->|Hne].
    - eexists. rewrite list_lookup_insert_eq by by eapply lookup_lt_Some. split; [done|]. cbn [held].
      simplify_eq. apply elem_of_cons. by right.
    - exists h'. by rewrite list_lookup_insert_ne. }
  assert (∀ t' h' c, hs !! t' = Some h' → (label, i, c) ∉ held h') as Hnew.
  { intros t' h' c Ht' Hx. destruct (Hfresh _ _ _ _ _ Ht' Hx) as (link' & Hlk' & Hlt).
    assert (link' = link) as -> by congruence. lia. }
  split; cbn [wd_log wd_links set_link].
  - by rewrite length_insert.
  - done.
  - intros j specs h' spec Hj. rewrite list_lookup_insert_Some. intros [(<- & <- & _)|[_ ?]] Hsp; eauto.
    rewrite (Hlines _ _ _ _ Hj Ht Hsp). done.
  - done.
  - done.
  - intros label' link' j c. rewrite lookup_insert_Some. intros [[<- <-]|[Hne Hlk']].
    + cbn [lk_table set_table active]. rewrite lookup_insert_Some, (Hact _ _ _ _ Hlk). split.
      * intros [[<- <-]|[_ (t' & h' & Ht' & Hx)]].
        -- exists t, (existT (Hold label conditions) a :: h).
           rewrite list_lookup_insert_eq by by eapply lookup_lt_Some. split; [done|]. cbn [held]. rewrite Ha. by left.
        -- destruct (Hforth _ _ _ Ht' Hx) as (h1 & ? & ?). eauto.
      * intros (t' & h' & Ht' & Hx). destruct (Hback _ _ _ Ht' Hx) as [(-> & [= -> ->])|(h0 & Hh0 & Hx0)];
          [by left|]. right. split; [|eauto]. intros <-. by eapply Hnew.
    + rewrite (Hact _ _ _ _ Hlk'). split; intros (t' & h' & Ht' & Hx).
      * destruct (Hforth _ _ _ Ht' Hx) as (h1 & ? & ?). eauto.
      * destruct (Hback _ _ _ Ht' Hx) as [(-> & [= -> _ _])|(h0 & ? & ?)]; [done|eauto].
  - intros t1 h1 t2 h2 label' j c c' H1 H2 Hx1 Hx2.
    destruct (Hback _ _ _ H1 Hx1) as [(-> & [= -> -> ->])|(h1' & H1' & Hx1')],
      (Hback _ _ _ H2 Hx2) as [(-> & E)|(h2' & H2' & Hx2')].
    + by simplify_eq.
    + exfalso. by eapply Hnew.
    + simplify_eq. exfalso. by eapply Hnew.
    + eauto.
  - intros t' h' label' j c H1 Hx. destruct (Hback _ _ _ H1 Hx) as [(-> & [= -> -> ->])|(h0 & H0 & Hx0)].
    + eexists. rewrite lookup_insert_eq. split; [done|]. cbn. rewrite Hsucc. lia.
    + destruct (Hfresh _ _ _ _ _ H0 Hx0) as (link' & Hlk' & Hlt). destruct (decide (label' = label)) as [->|Hne].
      * eexists. rewrite lookup_insert_eq. split; [done|]. assert (link' = link) as -> by congruence. cbn. rewrite Hsucc, Hi. lia.
      * exists link'. by rewrite lookup_insert_ne.
Qed.

Lemma world_release hs w t h specs label link i a :
  world_ok aspecs hs w → hs !! t = Some h → wd_links w !! label = Some link →
  follows specs promised h (Release label i) →
  world_ok aspecs (<[t := existT (Release label i) a :: h]> hs)
    (set_link w label (set_table link (release (lk_table link) i) (lk_bumps link))).
Proof.
  intros [Hlen Hlog Hlines Hknown Htimes Hact Hown Hfresh] Ht Hlk [c0 Hc0].
  set (hs' := <[t := existT (Release label i) a :: h]> hs).
  assert (∀ t' x, (∃ h', hs' !! t' = Some h' ∧ x ∈ held h') ↔
    x.1 ≠ (label, i) ∧ ∃ h0, hs !! t' = Some h0 ∧ x ∈ held h0) as Hmem.
  { intros t' [[label' j] c]. unfold hs'. destruct (decide (t' = t)) as [->|Hne].
    - rewrite list_lookup_insert_eq by by eapply lookup_lt_Some. split.
      + intros (h' & [= <-] & Hx). cbn [held] in Hx. apply list_elem_of_filter in Hx as [? ?]. eauto.
      + intros (Hx1 & h0 & Hh0 & Hx). eexists. split; [done|]. cbn [held]. simplify_eq.
        by apply list_elem_of_filter.
    - rewrite list_lookup_insert_ne by done. split; [|naive_solver]. intros (h' & Hh' & Hx). split; [|eauto].
      simpl. intros [= -> ->]. by destruct (Hown _ _ _ _ _ _ _ _ Ht Hh' Hc0 Hx). }
  split; cbn [wd_log wd_links set_link].
  - unfold hs'. by rewrite length_insert.
  - done.
  - intros j specs' h' spec Hj. unfold hs'. rewrite list_lookup_insert_Some.
    intros [(<- & <- & _)|[_ ?]] Hsp; eauto. rewrite (Hlines _ _ _ _ Hj Ht Hsp). done.
  - done.
  - done.
  - intros label' link' j c Hl. transitivity (∃ t', (label', j) ≠ (label, i) ∧
      ∃ h0, hs !! t' = Some h0 ∧ (label', j, c) ∈ held h0).
    + apply lookup_insert_Some in Hl as [[<- <-]|[Hne Hl]].
      * cbn [lk_table set_table release active]. rewrite lookup_delete_Some, (Hact _ _ _ _ Hlk). naive_solver.
      * rewrite (Hact _ _ _ _ Hl). naive_solver.
    + split; intros (t' & Hx); exists t'; by apply (Hmem t' (label', j, c)).
  - intros t1 h1 t2 h2 label' j c c' H1 H2 Hx1 Hx2.
    destruct (proj1 (Hmem t1 (label', j, c)) ltac:(eauto)) as (_ & h1' & ? & ?).
    destruct (proj1 (Hmem t2 (label', j, c')) ltac:(eauto)) as (_ & h2' & ? & ?). eauto.
  - intros t' h' label' j c H1 Hx. destruct (proj1 (Hmem t' (label', j, c)) ltac:(eauto)) as (_ & h0 & H0 & Hx0).
    destruct (Hfresh _ _ _ _ _ H0 Hx0) as (link' & Hlk' & Hlt). destruct (decide (label' = label)) as [->|Hne].
    + eexists. rewrite lookup_insert_eq. split; [done|]. by simplify_eq.
    + exists link'. by rewrite lookup_insert_ne.
Qed.
End world.

Section runs.
Context (promised : Promises).

(** A link moves, its holds as they were. *)
Lemma world_relink aspecs hs w label link link' :
  world_ok aspecs hs w → wd_links w !! label = Some link → lk_table link' = lk_table link →
  world_ok aspecs hs (set_link w label link').
Proof.
  intros [Hlen Hlog Hlines Hknown Htimes Hact Hown Hfresh] Hlk Htab.
  split; cbn [wd_log wd_links set_link]; try done.
  - intros label' l i c [[<- <-]|[_ Hl]]%lookup_insert_Some; [rewrite Htab|]; by apply Hact.
  - intros t h label' i c Ht Hx. destruct (Hfresh _ _ _ _ _ Ht Hx) as (l & Hl & Hlt).
    destruct (decide (label' = label)) as [->|Hne].
    + exists link'. rewrite lookup_insert_eq, Htab. split; [done|]. by simplify_eq.
    + exists l. by rewrite lookup_insert_ne.
Qed.

Lemma world_serve aspecs hs w t h specs c a w' :
  own_ids aspecs → world_ok aspecs hs w → hs !! t = Some h → aspecs !! t = Some specs →
  follows specs promised h c → serve w c a w' → world_ok aspecs (<[t := existT c a :: h]> hs) w'.
Proof.
  intros Hids Hw Ht Hs Hf Hserve.
  assert (quiet_call c → w' = w → world_ok aspecs (<[t := existT c a :: h]> hs) w') as Hquiet.
  { intros Hq ->. apply world_quiet; [done..| |]; by destruct c. }
  destruct c; simpl in Hserve; try (by apply Hquiet).
  - destruct Hserve as (at_ms & Hat & ->). by eapply world_record.
  - destruct Hserve as (lk & table & Hlk & Hmax & Hhold & ->). by eapply world_hold.
  - destruct Hserve as (lk & n & Hlk & _ & ->). eapply world_relink; [|done|done]. by apply world_quiet.
  - destruct Hserve as (lk & Hlk & ->). by eapply world_release.
Qed.

(** A history in which every call was allowed. *)
Fixpoint hist_ok (specs : list WindowSpec) (h : Hist) : Prop :=
  match h with
  | [] => True
  | e :: h => follows specs promised h (projT1 e) ∧ hist_ok specs h
  end.

(** A future that has followed the protocol for its windows and will, and has
    journaled all of them when it returns without an error. *)
Definition thread_ok {A} (specs : list WindowSpec) (t : Thread (result A FaultError)) : Prop :=
  hist_ok specs (th_history t) ∧
  wp (follows specs promised) (th_history t) (th_prog t) (λ h r,
    (∀ a, r = Ok a → ∀ spec, spec ∈ specs → length (lines_of (ws_id spec) h) = 3) ∧ held h = []).

Definition histories (s : FaultRun) : list Hist :=
  (th_history <$> fr_network s) ++ [th_history (fr_churn s); th_history (fr_process s)].

Record run_ok (nspecs : list (list WindowSpec)) (cspecs pspecs : list WindowSpec) (s : FaultRun) : Prop := {
  rn_world : world_ok (nspecs ++ [cspecs; pspecs]) (histories s) (fr_world s);
  rn_network : Forall2 thread_ok nspecs (fr_network s);
  rn_churn : thread_ok cspecs (fr_churn s);
  rn_process : thread_ok pspecs (fr_process s);
}.

Lemma thread_step_ok {A} specs w (t : Thread (result A FaultError)) w' t' :
  thread_ok specs t → thread_step w t w' t' →
  thread_ok specs t' ∧ ∃ c a, th_history t' = existT c a :: th_history t ∧
    follows specs promised (th_history t) c ∧ serve w c a w'.
Proof.
  intros Hok Ht. revert Hok. destruct Ht as [h c k a w1 Hs]. intros [Hh [Hf Hk]].
  split; [split; [done|apply Hk]|].
  by exists c, a.
Qed.

Lemma insert_middle {A} (l1 l2 : list A) x y : <[length l1 := y]> (l1 ++ x :: l2) = l1 ++ y :: l2.
Proof. induction l1; simpl; [done|]. by f_equal. Qed.

Lemma fault_step_ok nspecs cspecs pspecs s s' :
  own_ids (nspecs ++ [cspecs; pspecs]) →
  run_ok nspecs cspecs pspecs s → run_step s s' → run_ok nspecs cspecs pspecs s'.
Proof.
  intros Hids [Hw Hn Hc Hp] Hstep.
  destruct Hstep as [s before t after w' t' _ Hl Ht|s w' t' _ Ht|s w' t' _ Ht|s label link link' _ Hlk _ Htab _|].
  - rewrite Hl in Hn. apply Forall2_app_inv_r in Hn as (n1 & n2 & Hn1 & Hn2 & ->).
    inversion Hn2 as [|spec ? n3 ? Ht0 Hn3]; subst. destruct (thread_step_ok _ _ _ _ _ Ht0 Ht) as
      (Ht' & c & a & Hh & Hf & Hs). split; simpl; [|by apply Forall2_app; [|constructor]|done|done].
    assert (length n1 = length before) as Hlen by by eapply Forall2_length.
    assert (histories s = (th_history <$> before) ++ th_history t ::
      (th_history <$> after) ++ [th_history (fr_churn s); th_history (fr_process s)]) as E.
    { unfold histories. by rewrite Hl, fmap_app, fmap_cons, <-app_assoc. }
    assert (histories s !! length before = Some (th_history t)) as Hlook.
    { rewrite E, lookup_app_r, length_fmap, Nat.sub_diag by by rewrite length_fmap. done. }
    eapply world_serve in Hw; [|done|exact Hlook| |exact Hf|exact Hs].
    + rewrite E, <-(length_fmap th_history), insert_middle in Hw. unfold histories. simpl.
      by rewrite (fmap_app th_history), (fmap_cons th_history), <-(app_assoc (th_history <$> _)), Hh.
    + rewrite <-app_assoc, lookup_app_r by lia. by rewrite Hlen, Nat.sub_diag.
  - destruct (thread_step_ok _ _ _ _ _ Hc Ht) as (Ht' & c & a & Hh & Hf & Hs). split; simpl; [|done..].
    assert (length nspecs = length (fr_network s)) as Hlen by by eapply Forall2_length.
    eapply (world_serve _ _ _ (length (fr_network s))) in Hw; [|done| | |exact Hf|exact Hs].
    + unfold histories in *. rewrite <-(length_fmap th_history), insert_middle in Hw. simpl. by rewrite Hh.
    + unfold histories. rewrite lookup_app_r, length_fmap, Nat.sub_diag by by rewrite length_fmap. done.
    + rewrite lookup_app_r by lia. by rewrite Hlen, Nat.sub_diag.
  - destruct (thread_step_ok _ _ _ _ _ Hp Ht) as (Ht' & c & a & Hh & Hf & Hs). split; simpl; [|done..].
    assert (length nspecs = length (fr_network s)) as Hlen by by eapply Forall2_length.
    eapply (world_serve _ _ _ (S (length (fr_network s)))) in Hw; [|done| | |exact Hf|exact Hs].
    + unfold histories in *. simpl. rewrite Hh. revert Hw.
      rewrite insert_app_r_alt, length_fmap by (rewrite length_fmap; lia).
      by replace (S (length (fr_network s)) - length (fr_network s))%nat with 1%nat by lia.
    + unfold histories. rewrite lookup_app_r, length_fmap by (rewrite length_fmap; lia).
      by replace (S (length (fr_network s)) - length (fr_network s))%nat with 1%nat by lia.
    + rewrite lookup_app_r by lia. by replace (S (length (fr_network s)) - length nspecs)%nat with 1%nat by lia.
  - split; [|done..]. by eapply world_relink.
  - split; [|done..]. by destruct Hw.
Qed.
End runs.

(** ** The armed windows *)

(** The window a flag arms, when its node exists. *)
Definition window_for (flag : option N) (nodes : list NodeSpec) (id : string) (kind : FaultKind) :
    list WindowSpec :=
  match flag ≫= λ index, nodes !! N.to_nat index with
  | Some node => [{| ws_id := id; ws_kind := kind; ws_target := rendered_node_id node |}]
  | None => []
  end.

Definition network_specs (cli : Cli) (nodes : list NodeSpec) : list (list WindowSpec) :=
  [window_for (cli_fault_partition_node cli) nodes "network-partition-0" NetworkPartition;
   window_for (cli_fault_degrade_node cli) nodes "network-degradation-0" NetworkDegradation;
   window_for (cli_fault_catalog_outage_node cli) nodes "catalog-outage-0" CatalogOutage;
   window_for (cli_fault_discovery_flap_node cli) nodes "discovery-flap-0" DiscoveryFlap].

Definition churn_specs (cli : Cli) (nodes : list NodeSpec) : list WindowSpec :=
  window_for (cli_fault_cache_churn_node cli) nodes "cache-churn-0" CacheChurn.

Definition join_specs (cli : Cli) (joiner : option NodeSpec) : list WindowSpec :=
  match joiner with
  | Some node =>
      if cli_fault_churn_join cli
      then [{| ws_id := "membership-join-0"; ws_kind := MembershipJoin; ws_target := rendered_node_id node |}]
      else []
  | None => []
  end.

Definition process_specs (cli : Cli) (nodes : list NodeSpec) (joiner : option NodeSpec) : list WindowSpec :=
  window_for (cli_fault_kill_node cli) nodes "node-kill-0" NodeKill ++
  window_for (cli_fault_sigstop_node cli) nodes "sigstop-pause-0" SigstopPause ++
  window_for (cli_fault_churn_leave_node cli) nodes "membership-leave-0" MembershipLeave ++
  window_for (cli_fault_flight_kill_node cli) nodes "flight-kill-mid-stream-0" FlightKillMidStream ++
  join_specs cli joiner.

(** The windows a command line arms. *)
Definition armed_windows (cli : Cli) (nodes : list NodeSpec) (joiner : option NodeSpec) : list WindowSpec :=
  mjoin (network_specs cli nodes) ++ churn_specs cli nodes ++ process_specs cli nodes joiner.

(** What the windows on links promise. *)
Definition promises (cli : Cli) (links : FleetLinks) : Promises := λ id,
  if decide (id = "network-partition-0") then
    (λ link, (fk_label link, conditions_dropped)) <$>
      from_option all_links [] (cli_fault_partition_node cli ≫= (links !!.))
  else if decide (id = "network-degradation-0") then
    option_list ((λ link, (fk_label link, degrade_conditions cli)) <$>
      (cli_fault_degrade_node cli ≫= λ index, links !! index ≫= nl_ingress))
  else if decide (id = "catalog-outage-0") then
    option_list ((λ link, (fk_label link, conditions_dropped)) <$>
      (cli_fault_catalog_outage_node cli ≫= λ index, links !! index ≫= nl_catalog))
  else [].

Definition fault_ids : list string :=
  ["network-partition-0"; "network-degradation-0"; "catalog-outage-0"; "discovery-flap-0";
   "cache-churn-0"; "node-kill-0"; "sigstop-pause-0"; "membership-leave-0";
   "flight-kill-mid-stream-0"; "membership-join-0"].

Lemma nodup_fmap_inj {A B} (f : A → B) l x y : NoDup (f <$> l) → x ∈ l → y ∈ l → f x = f y → x = y.
Proof.
  intros Hnd (i & Hi)%list_elem_of_lookup_1 (j & Hj)%list_elem_of_lookup_1 E.
  assert (i = j) as ->; [|congruence]. eapply NoDup_lookup; [exact Hnd| |]; rewrite list_lookup_fmap;
    [rewrite Hi|rewrite Hj]; simpl; by f_equal.
Qed.

Lemma own_ids_nodup aspecs : NoDup (ws_id <$> mjoin aspecs) → own_ids aspecs.
Proof.
  induction aspecs as [|specs0 aspecs IH]; intros Hnd i j specs specs' spec spec' Hi Hj Hin Hin' E; [done|].
  simpl in Hnd. rewrite fmap_app in Hnd. apply NoDup_app in Hnd as (Hnd0 & Hdis & Hnd).
  assert (∀ k specs spec, aspecs !! k = Some specs → spec ∈ specs → ws_id spec ∈ ws_id <$> mjoin aspecs) as Hall.
  { intros k sp s Hk Hs. apply list_elem_of_fmap_2, list_elem_of_join. exists sp. split; [done|].
    by eapply list_elem_of_lookup_2. }
  destruct i as [|i], j as [|j]; simplify_eq/=.
  - split; [done|]. eapply nodup_fmap_inj; [exact Hnd0|done..].
  - exfalso. eapply (Hdis (ws_id spec)); [by apply list_elem_of_fmap_2|]. rewrite E. eauto.
  - exfalso. eapply (Hdis (ws_id spec')); [by apply list_elem_of_fmap_2|]. rewrite <-E. eauto.
  - destruct (IH Hnd i j specs specs' spec spec') as [-> ->]; done.
Qed.

Lemma window_for_ids flag nodes id kind : (ws_id <$> window_for flag nodes id kind) `sublist_of` [id].
Proof. unfold window_for. case_match; simpl; [done|]. apply sublist_nil_l. Qed.

Lemma join_ids cli joiner : (ws_id <$> join_specs cli joiner) `sublist_of` ["membership-join-0"].
Proof. unfold join_specs. repeat case_match; simpl; [done|apply sublist_nil_l..]. Qed.

Lemma process_ids cli nodes joiner :
  (ws_id <$> churn_specs cli nodes ++ process_specs cli nodes joiner) `sublist_of` drop 4 fault_ids.
Proof.
  unfold churn_specs, process_specs. rewrite !fmap_app.
  change (drop 4 fault_ids) with (["cache-churn-0"] ++ ["node-kill-0"] ++ ["sigstop-pause-0"] ++
    ["membership-leave-0"] ++ ["flight-kill-mid-stream-0"] ++ ["membership-join-0"]).
  repeat apply sublist_app; first [apply window_for_ids|apply join_ids].
Qed.

Lemma network_ids cli nodes : (ws_id <$> mjoin (network_specs cli nodes)) `sublist_of` take 4 fault_ids.
Proof.
  unfold network_specs. cbn [mjoin list_join]. rewrite !fmap_app. change (take 4 fault_ids) with
    (["network-partition-0"] ++ ["network-degradation-0"] ++ ["catalog-outage-0"] ++ ["discovery-flap-0"] ++ []).
  repeat apply sublist_app; first [apply window_for_ids|apply sublist_nil_l].
Qed.

Lemma armed_own_ids cli nodes joiner nspecs :
  mjoin nspecs `sublist_of` mjoin (network_specs cli nodes) →
  own_ids (nspecs ++ [churn_specs cli nodes; process_specs cli nodes joiner]).
Proof.
  intros Hs. apply own_ids_nodup. apply (sublist_NoDup _ fault_ids);
    [apply (bool_decide_unpack _); vm_compute; exact I|].
  assert (mjoin (nspecs ++ [churn_specs cli nodes; process_specs cli nodes joiner]) =
    mjoin nspecs ++ churn_specs cli nodes ++ process_specs cli nodes joiner) as ->.
  { clear Hs. induction nspecs as [|x l IH]; simpl; [by rewrite app_nil_r|]. by rewrite <-app_assoc, <-IH. }
  rewrite <-(take_drop 4 fault_ids), fmap_app. apply sublist_app; [|apply process_ids].
  etransitivity; [|apply network_ids]. by apply fmap_sublist.
Qed.

Lemma window_for_id flag nodes id kind spec : spec ∈ window_for flag nodes id kind → ws_id spec = id.
Proof. unfold window_for. case_match; [intros ->%list_elem_of_singleton; done|intros []%not_elem_of_nil]. Qed.

(** ** The groups start as they should *)

Section start.
Context `{FleetSerde}.
Context (promised : Promises).

Lemma injects_start {A} spec (p : inj (result A FaultError)) :
  injects promised spec p → thread_ok promised [spec] (Build_Thread [] p).
Proof.
  intros Hp. split; [done|]. eapply wp_mono; [apply (Hp [spec] []); [by left|done..]|]. simpl. intros h r (_ & H3 & Hh).
  split; [|done]. intros a Hr spec' ->%list_elem_of_singleton. eauto.
Qed.

(** A process fault of the sequence. *)
Lemma process_fault_ok specs h flag name nodes id kind window Q :
  (∀ target, injects promised {| ws_id := id; ws_kind := kind; ws_target := rendered_node_id target |} (window target)) →
  (∀ spec, spec ∈ window_for flag nodes id kind → spec ∈ specs) →
  lines_of id h = [] → held h = [] →
  (∀ h' r, (∀ id', id' ≠ id → lines_of id' h' = lines_of id' h) → held h' = [] →
     (∀ a, r = Ok a → ∀ spec, spec ∈ window_for flag nodes id kind → length (lines_of (ws_id spec) h') = 3) →
     Q h' r) →
  wp (follows specs promised) h (process_fault flag name nodes window) Q.
Proof.
  intros Hw Hin Hl Hh HQ. unfold process_fault. destruct flag as [index|].
  - unfold node_spec. unfold window_for in Hin, HQ. simpl in Hin, HQ.
    destruct (nodes !! N.to_nat index) as [target|]; [|by apply HQ].
    eapply wp_mono; [apply (Hw target specs h); [apply Hin; by left|done..]|].
    intros h' r (Ho & H3 & Hh'). apply HQ; [done..|]. intros a Ha spec ->%list_elem_of_singleton. eauto.
  - apply HQ; [done..|]. intros a _ spec Hs. unfold window_for in Hs. simpl in Hs. by apply not_elem_of_nil in Hs.
Qed.

Lemma churn_start fuel cli nodes :
  promised "cache-churn-0" = [] →
  thread_ok promised (churn_specs cli nodes) (Build_Thread [] (run_cache_churn_fault fuel cli nodes)).
Proof.
  intros Hp. split; [done|]. cbn [th_history th_prog]. unfold run_cache_churn_fault, churn_specs. pose proof (process_fault_ok
    (churn_specs cli nodes) [] (cli_fault_cache_churn_node cli) "--fault-cache-churn-node" nodes "cache-churn-0"
    CacheChurn (λ target, run_cache_churn fuel "cache-churn-0" target (cli_fault_cache_churn_query cli)
            (secs (cli_fault_cache_churn_delay_secs cli)) (secs (cli_fault_cache_churn_duration_secs cli))
            (cli_fault_cache_churn_read_interval_ms cli))) as Hf.
  unfold process_fault in Hf. apply Hf; [|done|done|done|by intros; split; eauto]. intros target. by apply churn_injects.
Qed.

Lemma process_start fuel cli nodes joiner :
  promised "node-kill-0" = [] → promised "sigstop-pause-0" = [] → promised "membership-leave-0" = [] →
  promised "flight-kill-mid-stream-0" = [] → promised "membership-join-0" = [] →
  thread_ok promised (process_specs cli nodes joiner)
    (Build_Thread [] (run_process_faults fuel cli nodes joiner)).
Proof.
  intros P1 P2 P3 P4 P5. split; [done|]. cbn [th_history th_prog]. unfold run_process_faults.
  apply wp_bind. apply (process_fault_ok _ _ _ _ _ "node-kill-0" NodeKill);
    [intros; by apply node_kill_injects|unfold process_specs; set_solver|done|done|].
  intros h1 [[]|e] O1 H1 C1; [|by split]. specialize (C1 tt eq_refl).
  apply wp_bind. apply (process_fault_ok _ _ _ _ _ "sigstop-pause-0" SigstopPause);
    [intros; by apply sigstop_injects|unfold process_specs; set_solver|by rewrite O1|done|].
  intros h2 [[]|e] O2 H2 C2; [|by split]. specialize (C2 tt eq_refl).
  apply wp_bind. apply (process_fault_ok _ _ _ _ _ "membership-leave-0" MembershipLeave);
    [intros; by apply leave_injects|unfold process_specs; set_solver|by rewrite O2, O1|done|].
  intros h3 [[]|e] O3 H3 C3; [|by split]. specialize (C3 tt eq_refl).
  apply wp_bind. apply (process_fault_ok _ _ _ _ _ "flight-kill-mid-stream-0" FlightKillMidStream);
    [intros; by apply flight_kill_injects|unfold process_specs; set_solver|by rewrite O3, O2, O1|done|].
  intros h4 [[]|e] O4 H4 C4; [|by split]. specialize (C4 tt eq_refl).
  assert (∀ h5, (∀ id', id' ≠ "membership-join-0" → lines_of id' h5 = lines_of id' h4) →
    (∀ spec, spec ∈ join_specs cli joiner → length (lines_of (ws_id spec) h5) = 3) →
    ∀ spec, spec ∈ process_specs cli nodes joiner → length (lines_of (ws_id spec) h5) = 3) as Hclosed.
  { intros h5 O5 C5 spec. unfold process_specs. rewrite !elem_of_app.
    intros [Hs|[Hs|[Hs|[Hs|Hs]]]]; [| | | |by apply C5];
      first [pose proof (C1 _ Hs) as Hc|pose proof (C2 _ Hs) as Hc|pose proof (C3 _ Hs) as Hc|pose proof (C4 _ Hs) as Hc];
      apply window_for_id in Hs as Ei; rewrite Ei in Hc |- *; rewrite O5, ?O4, ?O3, ?O2 by done; exact Hc. }
  unfold join_specs in *. destruct (cli_fault_churn_join cli) eqn:Ej.
  - destruct joiner as [joiner|]; [|by split]. apply wp_bind.
    eapply wp_mono; [eapply (join_injects promised fuel "membership-join-0" joiner _ _ P5 _ h4);
      [|cbn [ws_id]; by rewrite O4, O3, O2, O1|done]|].
    { unfold process_specs, join_specs. rewrite Ej. set_solver. }
    intros h5 [joined|e] (O5 & C5 & H5); (split; [|done]); [|done]. intros a _. apply Hclosed; [done|].
    intros spec ->%list_elem_of_singleton. by eapply C5.
  - split; [|done]. intros a _. apply Hclosed; [done|]. destruct joiner; intros spec Hs; by apply not_elem_of_nil in Hs.
Qed.

Lemma armed_start flag nodes id kind (window : N → result (inj (result unit FaultError)) SetupError) ws :
  when_armed flag window = Ok ws →
  (∀ index w, flag = Some index → window index = Ok w → ∃ node, nodes !! N.to_nat index = Some node ∧
     injects promised {| ws_id := id; ws_kind := kind; ws_target := rendered_node_id node |} w) →
  ∃ nspecs, mjoin nspecs = window_for flag nodes id kind ∧
    Forall2 (thread_ok promised) nspecs (Build_Thread [] <$> ws).
Proof.
  intros Ha Hw. unfold when_armed in Ha. destruct flag as [index|]; simplify_eq/=.
  - destruct (window index) as [w|] eqn:E; simplify_eq/=. destruct (Hw _ _ eq_refl E) as (node & Hn & Hi).
    eexists [[_]]. unfold window_for. simpl. rewrite Hn. split; [done|]. constructor; [|constructor].
    by apply injects_start.
  - by exists [].
Qed.
End start.

(** Labels of a node's links are distinct. *)
Definition distinct_labels (links : FleetLinks) : Prop :=
  ∀ index node_links, links !! index = Some node_links → NoDup (fk_label <$> all_links node_links).

Section network.
Context `{FleetSerde}.
Context (cli : Cli) (nodes : list NodeSpec) (links : FleetLinks).
Context (Hdistinct : distinct_labels links).

Lemma node_spec_ok index flag node : node_spec nodes index flag = Ok node → nodes !! N.to_nat index = Some node.
Proof. unfold node_spec. by case_match; intros [= ->]. Qed.

Lemma require_link_ok index kind flag link : require_link links index kind flag = Ok link →
  links !! index ≫= match kind with Ingress => nl_ingress | Catalog => nl_catalog end = Some link.
Proof. unfold require_link. by case_match; intros [= ->]. Qed.

Definition window_injects (id : string) (kind : FaultKind) (index : N) (w : inj (result unit FaultError)) : Prop :=
  ∃ node, nodes !! N.to_nat index = Some node ∧ injects (promises cli links)
    {| ws_id := id; ws_kind := kind; ws_target := rendered_node_id node |} w.

Lemma partition_window_ok index w :
  cli_fault_partition_node cli = Some index → partition_window cli nodes links index = Ok w →
  window_injects "network-partition-0" NetworkPartition index w.
Proof.
  unfold partition_window. intros Hf E. let_ok E. apply node_spec_ok in E0. eexists. split; [done|].
  destruct (from_option all_links [] (links !! index)) as [|l ls] eqn:El; [done|]. simplify_eq.
  apply partition_injects.
  - destruct (links !! index) as [nl|] eqn:Enl; [|done]. simpl in El. rewrite <-El. eauto.
  - unfold promises. rewrite Hf. simpl. by rewrite El.
Qed.

Lemma degrade_window_ok index w :
  cli_fault_degrade_node cli = Some index → degrade_window cli nodes links index = Ok w →
  window_injects "network-degradation-0" NetworkDegradation index w.
Proof.
  unfold degrade_window. intros Hf E. let_ok E. let_ok E. apply node_spec_ok in E0. apply require_link_ok in E1.
  simplify_eq. eexists. split; [done|]. apply degradation_injects. unfold promises. rewrite Hf. simpl. by rewrite E1.
Qed.

Lemma outage_window_ok index w :
  cli_fault_catalog_outage_node cli = Some index → outage_window cli nodes links index = Ok w →
  window_injects "catalog-outage-0" CatalogOutage index w.
Proof.
  unfold outage_window. intros Hf E. let_ok E. let_ok E. apply node_spec_ok in E0. apply require_link_ok in E1.
  simplify_eq. eexists. split; [done|]. apply outage_injects. unfold promises. rewrite Hf. simpl. by rewrite E1.
Qed.

Lemma flap_window_ok index w :
  flap_window cli nodes links index = Ok w → window_injects "discovery-flap-0" DiscoveryFlap index w.
Proof.
  unfold flap_window. intros E. let_ok E. let_ok E. apply node_spec_ok in E0. simplify_eq.
  eexists. split; [done|]. by apply flap_injects.
Qed.

(** The windows that run are those of the flags, each as it was promised; without
    an error of the setup they are all there. *)
Lemma network_start :
  ∃ nspecs, mjoin nspecs `sublist_of` mjoin (network_specs cli nodes) ∧
    Forall2 (thread_ok (promises cli links)) nspecs (Build_Thread [] <$> run_network_faults cli nodes links) ∧
    (is_ok (network_windows cli nodes links) = true → mjoin nspecs = mjoin (network_specs cli nodes)).
Proof.
  unfold run_network_faults. destruct (network_windows cli nodes links) as [ws|e] eqn:E.
  2:{ exists [[]]. split_and!; [apply sublist_nil_l| |done]. constructor; [|constructor]. by split_and!. }
  unfold network_windows in E. do 4 let_ok E. simplify_eq.
  apply (armed_start (promises cli links) _ nodes "network-partition-0" NetworkPartition) in E0
    as (n1 & M1 & F1); [|by apply partition_window_ok].
  apply (armed_start (promises cli links) _ nodes "network-degradation-0" NetworkDegradation) in E1
    as (n2 & M2 & F2); [|by apply degrade_window_ok].
  apply (armed_start (promises cli links) _ nodes "catalog-outage-0" CatalogOutage) in E2
    as (n3 & M3 & F3); [|by apply outage_window_ok].
  apply (armed_start (promises cli links) _ nodes "discovery-flap-0" DiscoveryFlap) in E3
    as (n4 & M4 & F4); [|intros index w _; by apply flap_window_ok].
  assert (mjoin (n1 ++ n2 ++ n3 ++ n4) = mjoin (network_specs cli nodes)) as Hj.
  { unfold network_specs. cbn [mjoin list_join]. rewrite <-M1, <-M2, <-M3, <-M4, app_nil_r. by rewrite !join_app. }
  exists (n1 ++ n2 ++ n3 ++ n4). rewrite Hj. split_and!; [done| |done]. rewrite !fmap_app.
  by repeat apply Forall2_app.
Qed.
End network.

(** ** Reachable runs *)

Lemma build_links_distinct listen cli links0 nodes links :
  distinct_labels links0 → build_links_from listen cli links0 nodes = Ok links → distinct_labels links.
Proof.
  revert links0. induction nodes as [|node nodes IH]; intros links0 H0; simpl; [by intros [= ->]|].
  case_match; [by apply IH|]. intros E. let_ok E. eapply IH; [|exact E].
  intros index nl [[<- <-]|[_ Hl]]%lookup_insert_Some; [|by eapply H0].
  unfold build_node_links, when_needed, bind_link in E0. clear E IH.
  repeat (case_match; simplify_eq/=); repeat constructor; set_solver.
Qed.

(** The state a run starts in: an empty log, and links that nothing holds. *)
Definition fresh_world (w : World) : Prop :=
  wd_log w = [] ∧ ∀ label link, wd_links w !! label = Some link → active (lk_table link) = ∅.

(** The runs of the faults a command line arms, over the links the fleet binds. *)
Inductive run_reachable `{FleetSerde} (cli : Cli) (nodes : list NodeSpec) (joiner : option NodeSpec)
    (links : FleetLinks) : FaultRun → Prop :=
| run_start fuel listen all_nodes w :
    build_fault_links listen cli all_nodes = Ok links → fresh_world w →
    run_reachable cli nodes joiner links (run_armed_faults fuel cli nodes joiner links w)
| run_next s s' : run_reachable cli nodes joiner links s → run_step s s' → run_reachable cli nodes joiner links s'.

Section reachable.
Context `{FleetSerde}.
Context (cli : Cli) (nodes : list NodeSpec) (joiner : option NodeSpec) (links : FleetLinks).

Abbreviation reach := (run_reachable cli nodes joiner links).

(** The invariant of the runs: which windows a future may journal is fixed, and all
    of the armed ones have a future unless the setup failed. *)
Definition reach_ok (nspecs : list (list WindowSpec)) (s : FaultRun) : Prop :=
  mjoin nspecs `sublist_of` mjoin (network_specs cli nodes) ∧
  run_ok (promises cli links) nspecs (churn_specs cli nodes) (process_specs cli nodes joiner) s ∧
  match network_windows cli nodes links with
  | Ok _ => mjoin nspecs = mjoin (network_specs cli nodes)
  | Err e => fr_network s = [Build_Thread [] (Done (Err (Setup e)))]
  end.

Lemma reachable_ok s : reach s → ∃ nspecs, reach_ok nspecs s.
Proof.
  induction 1 as [fuel listen all_nodes w Hb [Hlog Hact]|s s' _ (nspecs & Hsub & Hok & Hnet) Hstep].
  - destruct (network_start cli nodes links) as (nspecs & Hsub & Hf & Hall).
    { eapply build_links_distinct; [|exact Hb]. intros index nl. by rewrite lookup_empty. }
    exists nspecs. split_and!; [done| |].
    + split; cbn [run_armed_faults fr_world fr_network fr_churn fr_process]; [|done|by apply churn_start|by apply process_start].
      pose proof (Forall2_length _ _ _ Hf) as Hlen. rewrite length_fmap in Hlen.
      assert (∀ t h, histories (run_armed_faults fuel cli nodes joiner links w) !! t = Some h → h = []) as Hnil.
      { intros t h. unfold histories. cbn [run_armed_faults fr_network fr_churn fr_process th_history].
        rewrite <-list_fmap_compose. intros [(p & -> & _)%list_lookup_fmap_Some|[_ Hx]]%lookup_app_Some; [done|].
        destruct (_ - _)%nat as [|[|]]; simplify_eq/=; done. }
      split; rewrite ?Hlog.
      * unfold histories. rewrite !length_app, length_fmap. simpl. rewrite length_fmap. lia.
      * constructor.
      * intros i specs h spec _ ->%Hnil _. done.
      * intros line []%not_elem_of_nil.
      * intros line at_ms []%not_elem_of_nil.
      * intros label link i c Hlk. rewrite (Hact _ _ Hlk), lookup_empty. split; [done|].
        intros (t & h & ->%Hnil & []%not_elem_of_nil).
      * intros t h t' h' label i c c' ->%Hnil _ []%not_elem_of_nil.
      * intros t h label i c ->%Hnil []%not_elem_of_nil.
    + unfold run_network_faults in *. cbn [run_armed_faults fr_network]. unfold run_network_faults.
      destruct (network_windows cli nodes links) eqn:E; [|done]. by apply Hall.
  - exists nspecs. split_and!; [done| |].
    + eapply fault_step_ok; [|done|done]. by apply armed_own_ids.
    + destruct (network_windows cli nodes links); [done|].
      destruct Hstep as [s before t after w' t' _ Hl Ht| | | |]; try done. rewrite Hnet in Hl.
      destruct before as [|? []]; simplify_eq/=. inversion Ht.
Qed.
End reachable.

(** ** The log, as the judge reads it *)

(** The life of a window. *)
Definition phases : list WindowPhase := [PArmed; PStarted; PEnded].

Lemma next_phase_lookup n : next_phase n = phases !! n.
Proof. by destruct n as [|[|[|]]]. Qed.

Lemma log_phases log id : log_ok log →
  (wl_phase <$> filter (λ l, wl_fault_id l = id) log) `prefix_of` phases.
Proof.
  induction 1 as [|log line _ IH Hph _]; [apply prefix_nil|]. rewrite filter_app.
  destruct (decide (wl_fault_id line = id)) as [<-|Hne].
  - rewrite filter_cons_True by done. rewrite fmap_app. cbn. rewrite next_phase_lookup in Hph.
    destruct IH as [rest E]. rewrite E, lookup_app_r, length_fmap, Nat.sub_diag in Hph by by rewrite length_fmap.
    destruct rest as [|p rest]; [done|]. injection Hph as ->. exists rest. by rewrite <-app_assoc.
  - by rewrite filter_cons_False, app_nil_r.
Qed.

Definition judge_phase (p : WindowPhase) : FaultPhase :=
  match p with PArmed => Armed | PStarted => Started | PEnded => Evidence.Ended end.

(** A line, as the judge's type has it. *)
Definition judge_line (entry : WindowLine * N) : FaultLine :=
  {| fl_fault_id := wl_fault_id entry.1; fl_kind := kind_token (wl_kind entry.1);
     fl_target_node := wl_target_node entry.1; fl_phase := judge_phase (wl_phase entry.1);
     fl_at_ms := entry.2 |}.

Definition window_keys (line : WindowLine) : list string :=
  ["fault_id"; "kind"; "target_node"; "phase"; "at_ms"] ++
  match wl_detail line with Some _ => ["detail"] | None => [] end.

(** What serde documents of the two derived formats: the text is one line, its keys
    are the fields in order, and it decodes to the same fields, the detail ignored. *)
Class FleetLaws `{Serde, FleetSerde} := {
  window_line_one_line line at_ms :
    free_of newline (window_line_to_string line at_ms) = true ∧
    free_of carriage_return (window_line_to_string line at_ms) = true;
  window_line_keys line at_ms : map_access (window_line_to_string line at_ms) = (window_keys line, None);
  window_line_decodes line at_ms : is_u64 at_ms →
    fault_line_from_str (window_line_to_string line at_ms) = Ok (judge_line (line, at_ms));
}.

Section judged.
Context `{FleetLaws}.

Lemma window_line_of line at_ms : is_u64 at_ms →
  fault_line_of (window_line_to_string line at_ms) = Ok (judge_line (line, at_ms)).
Proof.
  intros Hat. unfold fault_line_of.
  assert (reject_duplicate_keys (window_line_to_string line at_ms) = Ok tt) as ->.
  { apply reject_duplicate_keys_ok. rewrite window_line_keys. split; [done|]. unfold window_keys.
    destruct (wl_detail line); apply (bool_decide_unpack _); vm_compute; exact I. }
  by rewrite window_line_decodes.
Qed.

Lemma parse_fault_lines_app path n ws raws raws' :
  parse_fault_lines path n ws (raws ++ raws') =
  (let? ws := parse_fault_lines path n ws raws in
   parse_fault_lines path (n + N.of_nat (length raws)) ws raws').
Proof.
  revert n ws. induction raws as [|raw raws IH]; intros n ws; simpl; [by rewrite N.add_0_r|].
  destruct (map_err _ _); [|done]. destruct (add_line _ _ _ _); [|done]. rewrite IH.
  by replace (n + 1 + N.of_nat (length raws))%N with (n + N.of_nat (S (length raws)))%N by lia.
Qed.

(** A line that comes next in its window is accepted. *)
Lemma add_line_next path n ws log line at_ms :
  ledger_of (judge_line <$> log) ws →
  next_phase (length (filter (λ l, wl_fault_id l = wl_fault_id line) log.*1)) = Some (wl_phase line) →
  log_ok log.*1 →
  (∀ l, l ∈ log.*1 → wl_fault_id l = wl_fault_id line → window_of l = window_of line) →
  ∃ ws', add_line path n ws (judge_line (line, at_ms)) = Ok ws'.
Proof.
  intros Hlo Hph Hlog Hsame. unfold add_line. cbn [judge_line fl_fault_id fl_kind fl_target_node fl_phase fst snd].
  destruct (ws !! wl_fault_id line) as [w|] eqn:Ew; simpl.
  - destruct (lo_some _ _ Hlo _ _ Ew) as (l & (e & -> & He)%list_elem_of_fmap & Hid).
    destruct (lo_line _ _ Hlo (judge_line e)) as (w' & Hw' & Hk & Ht & _); [by apply list_elem_of_fmap_2|].
    rewrite Hid in Hw'. simplify_eq. assert (window_of e.1 = window_of line) as Hwin
      by (apply Hsame; [by apply list_elem_of_fmap_2|done]). unfold window_of in Hwin. injection Hwin as _ Ek Et.
    rewrite Hk, Ht. cbn [judge_line fl_kind fl_target_node]. rewrite Ek, Et, !bool_decide_eq_true_2 by done. simpl.
    destruct (slot _ w) as [t|] eqn:Es; [|eauto]. exfalso.
    destruct (lo_slot _ _ Hlo _ _ _ _ Ew Es) as (l2 & (e2 & -> & He2)%list_elem_of_fmap & Hid2 & Hp2 & _).
    cbn [judge_line fl_fault_id fl_phase] in Hid2, Hp2.
    assert (wl_phase e2.1 = wl_phase line) as Hp3 by by destruct (wl_phase e2.1), (wl_phase line).
    assert (wl_phase line ∈ wl_phase <$> filter (λ l, wl_fault_id l = wl_fault_id line) log.*1) as Hin.
    { rewrite <-Hp3. apply list_elem_of_fmap_2, list_elem_of_filter. split; [done|]. by apply list_elem_of_fmap_2. }
    apply list_elem_of_lookup_1 in Hin as (k & Hk2). pose proof (lookup_lt_Some _ _ _ Hk2) as Hlt.
    rewrite length_fmap in Hlt. eapply prefix_lookup_Some in Hk2; [|by apply log_phases].
    rewrite next_phase_lookup in Hph. assert (NoDup phases) as Hnd by (apply (bool_decide_unpack _); vm_compute; exact I).
    pose proof (NoDup_lookup _ _ _ _ Hnd Hk2 Hph). lia.
  - rewrite !bool_decide_eq_true_2 by done. simpl. destruct (wl_phase line); simpl; eauto.
Qed.

Lemma parse_log path n log :
  log_ok log.*1 → (∀ line at_ms, (line, at_ms) ∈ log → is_u64 at_ms) →
  ∃ ws, parse_fault_lines path n ∅ ((λ entry, window_line_to_string entry.1 entry.2) <$> log) = Ok ws ∧
    ledger_of (judge_line <$> log) ws.
Proof.
  induction log as [|[line at_ms] log IH] using rev_ind; intros Hlog Hat.
  - exists ∅. split; [done|]. split; intros *; rewrite ?lookup_empty; try done. intros []%not_elem_of_nil.
  - rewrite fmap_app in Hlog. inversion Hlog as [E|log' line' Hl Hph Hsame E]; [by destruct (log.*1)|].
    apply app_inj_tail in E as [-> ->]. cbn [fst] in *.
    destruct IH as (ws & Hws & Hlo); [done|intros; eapply Hat; by apply elem_of_app; left|].
    rewrite !fmap_app, parse_fault_lines_app, Hws. cbn [fmap list_fmap fst snd].
    destruct (add_line_next path (n + N.of_nat (length ((λ entry, window_line_to_string entry.1 entry.2) <$> log)))
      ws log line at_ms Hlo Hph Hl Hsame) as [ws' Hadd].
    exists ws'. simpl. rewrite window_line_of by (eapply Hat; apply elem_of_app; right; by left). simpl.
    rewrite Hadd. split; [done|]. by eapply add_line_ok.
Qed.

(** A window of the ledger has so many phases as it has lines. *)
Lemma slot_iff log ws id w k p :
  ledger_of (judge_line <$> log) ws → log_ok log.*1 → ws !! id = Some w → phases !! k = Some p →
  is_Some (slot (judge_phase p) w) ↔ (k < length (filter (λ l, wl_fault_id l = id) log.*1))%nat.
Proof.
  intros Hlo Hlog Hw Hk. pose proof (log_phases _ id Hlog) as Hpre. split.
  - intros [t Ht]. destruct (lo_slot _ _ Hlo _ _ _ _ Hw Ht) as (l & (e & -> & He)%list_elem_of_fmap & Hid & Hp & _).
    cbn [judge_line fl_fault_id fl_phase] in Hid, Hp.
    assert (wl_phase e.1 = p) as <- by by destruct (wl_phase e.1), p.
    assert (wl_phase e.1 ∈ wl_phase <$> filter (λ l, wl_fault_id l = id) log.*1) as Hin.
    { apply list_elem_of_fmap_2, list_elem_of_filter. split; [done|]. by apply list_elem_of_fmap_2. }
    apply list_elem_of_lookup_1 in Hin as (j & Hj). pose proof (lookup_lt_Some _ _ _ Hj) as Hlt.
    rewrite length_fmap in Hlt. eapply prefix_lookup_Some in Hj; [|exact Hpre].
    assert (NoDup phases) as Hnd by (apply (bool_decide_unpack _); vm_compute; exact I).
    by rewrite (NoDup_lookup _ _ _ _ Hnd Hk Hj).
  - intros [l Hl]%lookup_lt_is_Some. assert (wl_phase l = p) as <-.
    { assert ((wl_phase <$> filter (λ l, wl_fault_id l = id) log.*1) !! k = Some (wl_phase l)) as Hx
        by by rewrite list_lookup_fmap, Hl. eapply prefix_lookup_Some in Hx; [|exact Hpre]. congruence. }
    apply list_elem_of_lookup_2, list_elem_of_filter in Hl as [Hid (e & -> & He)%list_elem_of_fmap].
    destruct (lo_line _ _ Hlo (judge_line e)) as (w' & Hw' & _ & _ & Hs); [by apply list_elem_of_fmap_2|].
    cbn [judge_line fl_fault_id fl_phase] in Hw', Hs. rewrite Hid in Hw'. simplify_eq. eauto.
Qed.

(** The ledger of a log. *)
Lemma ledger_of_log fs path log :
  fs path = Ok (log_text log) → log_ok log.*1 → (∀ line at_ms, (line, at_ms) ∈ log → is_u64 at_ms) →
  ∃ ledger ws, parse_fault_ledger fs path = Ok ledger ∧ ledger_of (judge_line <$> log) ws ∧
    ∀ w, w ∈ fl_windows ledger ↔ ws !! fw_fault_id w = Some w.
Proof.
  intros Hfs Hlog Hat. destruct (parse_log path 1 log Hlog Hat) as (ws & Hws & Hlo).
  unfold parse_fault_ledger. rewrite Hfs. simpl. unfold log_text. rewrite str_lines_text.
  2:{ apply Forall_fmap, Forall_forall. intros e _. apply window_line_one_line. }
  rewrite Hws. eexists _, ws. split_and!; [done..|]. intros w. simpl. rewrite list_elem_of_fmap. split.
  - intros ([id w'] & -> & Hin). apply elem_of_btree_entries in Hin. simpl. by rewrite (lo_id _ _ Hlo _ _ Hin).
  - intros Hw. exists (fw_fault_id w, w). split; [done|]. by apply elem_of_btree_entries.
Qed.

(** A window of the ledger is the one that was armed. *)
Definition judged (spec : WindowSpec) (w : FaultWindow) : Prop :=
  fw_fault_id w = ws_id spec ∧ fw_kind w = kind_token (ws_kind spec) ∧ fw_target_node w = ws_target spec.

Lemma judged_line log ws e w :
  ledger_of (judge_line <$> log) ws → e ∈ log → ws !! wl_fault_id e.1 = Some w → judged (window_of e.1) w.
Proof.
  intros Hlo He Hw. destruct (lo_line _ _ Hlo (judge_line e)) as (w' & Hw' & Hk & Ht & _);
    [by apply list_elem_of_fmap_2|]. cbn [judge_line fl_fault_id] in Hw'. simplify_eq.
  split_and!; [by eapply lo_id|done..].
Qed.

Section run.
Context (cli : Cli) (nodes : list NodeSpec) (joiner : option NodeSpec) (links : FleetLinks).

(** The windows the futures may journal are armed ones. *)
Lemma known_armed nspecs i specs spec :
  mjoin nspecs `sublist_of` mjoin (network_specs cli nodes) →
  (nspecs ++ [churn_specs cli nodes; process_specs cli nodes joiner]) !! i = Some specs → spec ∈ specs →
  spec ∈ armed_windows cli nodes joiner.
Proof.
  intros Hsub Hi Hs. unfold armed_windows. rewrite !elem_of_app. apply lookup_app_Some in Hi as [Hi|[_ Hi]].
  - left. eapply sublist_subseteq; [exact Hsub|]. apply list_elem_of_join. exists specs. split; [done|].
    by eapply list_elem_of_lookup_2.
  - destruct (i - length nspecs)%nat as [|[|]]; simplify_eq/=; by auto.
Qed.

Lemma outcome_closed {A} promised specs (t : Thread (result A FaultError)) a spec :
  thread_ok promised specs t → outcome_of t = Some (Ok a) → spec ∈ specs →
  length (lines_of (ws_id spec) (th_history t)) = 3.
Proof.
  unfold thread_ok, outcome_of. destruct (th_prog t) as [r| | |]; [|done..]. intros [_ [Hc _]] [= ->]. by eapply Hc.
Qed.

Lemma network_result_ok outcomes :
  network_result outcomes = Ok tt → ∀ i r, outcomes !! i = Some r → r = Ok tt.
Proof.
  induction outcomes as [|[[]|e] outcomes IH]; simpl; [done| |done]. intros Hr [|i] r; simpl; [congruence|eauto].
Qed.

Lemma armed_result_ok s joined : armed_result s = Some (Ok joined) →
  (∀ i t, fr_network s !! i = Some t → outcome_of t = Some (Ok tt)) ∧
  outcome_of (fr_churn s) = Some (Ok tt) ∧ outcome_of (fr_process s) = Some (Ok joined).
Proof.
  unfold armed_result. destruct (mapM outcome_of (fr_network s)) as [net|] eqn:En; [|done].
  destruct (outcome_of (fr_churn s)) as [[[]|]|], (outcome_of (fr_process s)) as [p|]; try done.
  2: by destruct (network_result net). destruct (network_result net) as [[]|] eqn:Er; [|done]. intros [= ->].
  split_and!; [|done..]. intros i t Ht. apply mapM_Some in En. destruct (Forall2_lookup_l _ _ _ _ _ En Ht) as (r & Hr & Ho).
  by rewrite Ho, (network_result_ok _ Er _ _ Hr).
Qed.

(** A run without an error has closed every armed window. *)
Lemma armed_closed nspecs s joined spec :
  reach_ok cli nodes joiner links nspecs s → armed_result s = Some (Ok joined) →
  spec ∈ armed_windows cli nodes joiner →
  (∃ i specs, (nspecs ++ [churn_specs cli nodes; process_specs cli nodes joiner]) !! i = Some specs ∧ spec ∈ specs) ∧
  length (filter (λ l, wl_fault_id l = ws_id spec) (wd_log (fr_world s)).*1) = 3.
Proof.
  intros (Hsub & [Hw Hn Hc Hp] & Hnet) (Rn & Rc & Rp)%armed_result_ok Hin.
  pose proof (Forall2_length _ _ _ Hn) as Hlen.
  cut (∃ i specs h, (nspecs ++ [churn_specs cli nodes; process_specs cli nodes joiner]) !! i = Some specs ∧
    spec ∈ specs ∧ histories s !! i = Some h ∧ length (lines_of (ws_id spec) h) = 3).
  { intros (i & specs & h & Hi & Hs & Hh & H3). split; [eauto|].
    by rewrite (wo_lines _ _ _ Hw _ _ _ _ Hi Hh Hs), length_reverse. }
  unfold armed_windows in Hin. rewrite !elem_of_app in Hin. unfold histories. destruct Hin as [Hin|[Hin|Hin]].
  - destruct (network_windows cli nodes links) as [ws|e].
    2:{ specialize (Rn 0%nat). rewrite Hnet in Rn. by specialize (Rn _ eq_refl). }
    rewrite <-Hnet in Hin. apply list_elem_of_join in Hin as (specs & Hs & (i & Hi)%list_elem_of_lookup_1).
    destruct (Forall2_lookup_l _ _ _ _ _ Hn Hi) as (t & Ht & Hok). exists i, specs, (th_history t).
    split_and!; [by apply lookup_app_l_Some|done| |].
    + apply lookup_app_l_Some. by rewrite list_lookup_fmap, Ht.
    + by eapply outcome_closed, Hs; [exact Hok|apply (Rn i)].
  - exists (length nspecs), (churn_specs cli nodes), (th_history (fr_churn s)).
    rewrite !lookup_app_r, length_fmap, <-Hlen, Nat.sub_diag by (rewrite ?length_fmap; lia).
    split_and!; [done..|]. by eapply outcome_closed, Hin.
  - exists (S (length nspecs)), (process_specs cli nodes joiner), (th_history (fr_process s)).
    rewrite !lookup_app_r, length_fmap, <-Hlen by (rewrite ?length_fmap; lia).
    replace (S (length nspecs) - length nspecs)%nat with 1%nat by lia.
    split_and!; [done..|]. by eapply outcome_closed, Hin.
Qed.
End run.
End judged.

(** C29: The judge reads the fault log as the faults were.  Whatever faults a command
    line arms, however their futures interleave and whatever the nodes, the links
    and the operating system answer, as long as no write of the log failed the judge
    parses its file: each window of its ledger is an armed one, under its own id,
    kind and target, with the phases in order; and when the faults end without an
    error the ledger has every armed window, armed, started and ended. *)
Theorem fault_log_judged `{FleetLaws} (cli : Cli) (nodes : list NodeSpec) (joiner : option NodeSpec)
    (links : FleetLinks) (s : FaultRun) (fs : FileSystem) (path : string) :
  run_reachable cli nodes joiner links s → wd_torn (fr_world s) = None →
  fs path = Ok (log_file (fr_world s)) →
  ∃ ledger, parse_fault_ledger fs path = Ok ledger ∧
    (∀ w, w ∈ fl_windows ledger → is_Some (fw_armed_at_ms w) ∧
       (is_Some (fw_ended_at_ms w) → is_Some (fw_started_at_ms w)) ∧
       (∀ w', w' ∈ fl_windows ledger → fw_fault_id w' = fw_fault_id w → w' = w) ∧
       ∃ spec, spec ∈ armed_windows cli nodes joiner ∧ judged spec w) ∧
    (∀ joined spec, armed_result s = Some (Ok joined) → spec ∈ armed_windows cli nodes joiner →
       ∃ w, w ∈ fl_windows ledger ∧ judged spec w ∧
         is_Some (fw_armed_at_ms w) ∧ is_Some (fw_started_at_ms w) ∧ is_Some (fw_ended_at_ms w)).
Proof.
  intros (nspecs & Hr)%reachable_ok Ht Hfs. unfold log_file in Hfs. rewrite Ht in Hfs.
  change (default "" None) with "" in Hfs. rewrite string_app_nil in Hfs. pose proof Hr as (Hsub & [Hw _ _ _] & _).
  pose proof (wo_log _ _ _ Hw) as Hlog.
  destruct (ledger_of_log fs path _ Hfs Hlog (wo_times _ _ _ Hw)) as (ledger & ws & Hparse & Hlo & Hmem).
  exists ledger. split_and!; [done| |].
  - intros w Hin%Hmem. destruct (lo_some _ _ Hlo _ _ Hin) as (l & (e & -> & He)%list_elem_of_fmap & Hid).
    cbn [judge_line fl_fault_id] in Hid. assert (0 < length (filter (λ l, wl_fault_id l = fw_fault_id w)
      (wd_log (fr_world s)).*1))%nat as Hpos.
    { destruct (filter _ _) eqn:Ef; [|simpl; lia]. exfalso. eapply (not_elem_of_nil e.1). rewrite <-Ef.
      apply list_elem_of_filter. split; [done|]. by apply list_elem_of_fmap_2. }
    split_and!.
    + by apply (slot_iff _ _ _ _ 0 PArmed Hlo Hlog Hin).
    + intros He3. apply (slot_iff _ _ _ _ 1 PStarted Hlo Hlog Hin); [done|].
      apply (slot_iff _ _ _ _ 2 PEnded Hlo Hlog Hin) in He3; [lia|done].
    + intros w' Hw'%Hmem E. congruence.
    + destruct (wo_known _ _ _ Hw e.1) as (i & specs & Hi & Hs); [by apply list_elem_of_fmap_2|].
      exists (window_of e.1). split; [by eapply known_armed|]. eapply judged_line; [done..|]. by rewrite Hid.
  - intros joined spec Hres Hin. destruct (armed_closed _ _ _ _ _ _ _ _ Hr Hres Hin) as ((i & specs & Hi & Hs) & H3).
    destruct (filter (λ l, wl_fault_id l = ws_id spec) (wd_log (fr_world s)).*1) as [|l ls] eqn:Ef; [done|].
    assert (l ∈ filter (λ l, wl_fault_id l = ws_id spec) (wd_log (fr_world s)).*1) as Hl by (rewrite Ef; by left).
    apply list_elem_of_filter in Hl as [Hid Hl]. pose proof Hl as (e & -> & He)%list_elem_of_fmap.
    destruct (lo_line _ _ Hlo (judge_line e)) as (w & Hlk & _); [by apply list_elem_of_fmap_2|].
    cbn [judge_line fl_fault_id] in Hlk. pose proof (judged_line _ _ _ _ Hlo He Hlk) as Hj.
    destruct (wo_known _ _ _ Hw e.1 Hl) as (i' & specs' & Hi' & Hs').
    destruct (armed_own_ids cli nodes joiner nspecs Hsub _ _ _ _ _ _ Hi' Hi Hs' Hs Hid) as [_ E]. rewrite E in Hj.
    rewrite <-Ef in H3. rewrite Hid in Hlk. exists w. split_and!; [|done|..].
    + apply Hmem. by rewrite (lo_id _ _ Hlo _ _ Hlk).
    + apply (slot_iff _ _ _ _ 0 PArmed Hlo Hlog Hlk); [done|lia].
    + apply (slot_iff _ _ _ _ 1 PStarted Hlo Hlog Hlk); [done|lia].
    + apply (slot_iff _ _ _ _ 2 PEnded Hlo Hlog Hlk); [done|lia].
Qed.

(** A link enforces a condition: what the condition drops is dropped, what it paces
    is paced at least as long. *)
Definition enforces (link : Link) (c : LinkConditions) : Prop :=
  ∀ direction, condition_of (conditions link) direction = Drop ∨
    (condition_of c direction ≠ Drop ∧
     (pace (condition_of c direction) CHUNK ≤ pace (condition_of (conditions link) direction) CHUNK)%N).

Lemma active_enforced link i c : active (lk_table link) !! i = Some c → enforces link c.
Proof.
  intros Hi direction. destruct (effective_spec (lk_table link) direction) as [Hd Hp].
  fold (conditions link) in Hd, Hp. destruct (decide (condition_of (conditions link) direction = Drop)) as [|Hn]; [by left|].
  right. split; [|by apply (Hp Hn) in Hi]. intros E. apply Hn, Hd. eauto.
Qed.

Definition no_release (h : Hist) : Prop :=
  Forall (λ e, match projT1 e with Release _ _ => False | _ => True end) h.

Lemma held_since h1 h0 x : no_release h1 → x ∈ held h0 → x ∈ held (h1 ++ h0).
Proof.
  induction 1 as [|[c a] h1 Hc _ IH]; intros Hx; [done|]. specialize (IH Hx).
  destruct c; simpl in *; try done. by right.
Qed.

Lemma hist_ok_app promised specs h1 e h0 : hist_ok promised specs (h1 ++ e :: h0) → follows specs promised h0 (projT1 e).
Proof. induction h1 as [|e1 h1 IH]; simpl; intros [? ?]; auto. Qed.

(** A future of a run has followed the protocol, and holds nothing once it ended. *)
Lemma future_ok `{FleetSerde} cli nodes joiner links nspecs s t h :
  reach_ok cli nodes joiner links nspecs s → histories s !! t = Some h →
  ∃ specs, hist_ok (promises cli links) specs h ∧ (is_Some (armed_result s) → held h = []).
Proof.
  intros (_ & [_ Hn Hc Hp] & _) Ht.
  assert (∀ A specs (th : Thread (result A FaultError)), thread_ok (promises cli links) specs th →
    (is_Some (armed_result s) → is_Some (outcome_of th)) → th_history th = h →
    ∃ specs, hist_ok (promises cli links) specs h ∧ (is_Some (armed_result s) → held h = [])) as Hth.
  { intros A specs th [Hh Hwp] Ho <-. exists specs. split; [done|]. intros [r Hr]%Ho. unfold outcome_of in Hr.
    destruct (th_prog th); [|done..]. by destruct Hwp. }
  assert (is_Some (armed_result s) → (∀ i th, fr_network s !! i = Some th → is_Some (outcome_of th)) ∧
    is_Some (outcome_of (fr_churn s)) ∧ is_Some (outcome_of (fr_process s))) as Hout.
  { unfold armed_result. intros [r Hr]. destruct (mapM outcome_of (fr_network s)) as [net|] eqn:En; [|done].
    destruct (outcome_of (fr_churn s)), (outcome_of (fr_process s)); try done. split_and!; [|done..].
    intros i th Hi. apply mapM_Some in En. destruct (Forall2_lookup_l _ _ _ _ _ En Hi) as (o & _ & Ho). eauto. }
  unfold histories in Ht. apply lookup_app_Some in Ht as [Ht|[_ Ht]].
  - apply list_lookup_fmap_Some in Ht as (th & -> & Ht).
    destruct (Forall2_lookup_r _ _ _ _ _ Hn Ht) as (specs & _ & Hok). eapply Hth; [exact Hok| |done].
    intros Hs. by eapply Hout.
  - destruct (t - _)%nat as [|[|]]; simplify_eq/=; eapply Hth; [exact Hc| |done|exact Hp| |done]; intros Hs; by apply Hout.
Qed.

(** C30: A fault window on links is in force from its start on.  In every state of a
    run, a window that has journaled its start and released nothing since has its
    links under the conditions it promised (a partition all links of its node, an
    outage the catalog's, both dropped; a degradation the ingress as configured),
    whatever other windows on the same links begin or end; and once the faults have
    ended, without an error or with one, every link passes. *)
Theorem fault_windows_hold `{FleetSerde} (cli : Cli) (nodes : list NodeSpec) (joiner : option NodeSpec)
    (links : FleetLinks) (s : FaultRun) :
  run_reachable cli nodes joiner links s →
  (∀ h h1 line a h0 label c, h ∈ histories s → h = h1 ++ existT (RecordLine line) a :: h0 →
     wl_phase line = PStarted → no_release h1 → (label, c) ∈ promises cli links (wl_fault_id line) →
     ∃ link, wd_links (fr_world s) !! label = Some link ∧ enforces link c) ∧
  (is_Some (armed_result s) → ∀ label link, wd_links (fr_world s) !! label = Some link →
     conditions link = conditions_pass).
Proof.
  intros (nspecs & Hr)%reachable_ok. pose proof Hr as (_ & [Hw _ _ _] & _).
  assert (∀ t h, histories s !! t = Some h → ∃ specs, hist_ok (promises cli links) specs h ∧
    (is_Some (armed_result s) → held h = [])) as Hfut by eauto using future_ok. split.
  - intros h h1 line a h0 label c Hin Eh Hph Hnr Hpr. apply list_elem_of_lookup_1 in Hin as (t & Ht).
    destruct (Hfut _ _ Ht) as (specs & Hh & _). subst h. apply hist_ok_app in Hh as (_ & _ & Hst & _). destruct (Hst Hph _ _ Hpr) as [i Hi].
    assert ((label, i, c) ∈ held (h1 ++ existT (RecordLine line) a :: h0)) as Hheld by by apply held_since.
    destruct (wo_fresh _ _ _ Hw _ _ _ _ _ Ht Hheld) as (link & Hlk & _). exists link. split; [done|].
    eapply active_enforced. apply (wo_active _ _ _ Hw _ _ _ _ Hlk). eauto.
  - intros Hdone label link Hlk. assert (active (lk_table link) = ∅) as Ha.
    { apply map_empty. intros i. destruct (active (lk_table link) !! i) as [c|] eqn:Ei; [|done]. exfalso.
      apply (wo_active _ _ _ Hw _ _ _ _ Hlk) in Ei as (t & h & Ht & Hx).
      destruct (Hfut _ _ Ht) as (_ & _ & E). rewrite E in Hx by done. by apply not_elem_of_nil in Hx. }
    unfold conditions, effective. by rewrite Ha.
Qed.
