(* ===== verification/FaultEnds.v ===== *)
(** * The injectors end

    Every future of [run_armed_faults] ([crates/duckspout-fleet/src/main.rs] and
    [fault.rs]) ends: over a clock that keeps time and streams that are finite, none
    of the polling and reading loops runs out of the fuel given here. *)

From S2P Require Import Prelude RustStd Types Ports Otlp Link Fleet Fault.

(** ** Keeping time *)

Section ends.
(** The logs failing boots are reported from. *)
Context (logs : string → Prop).

(** A call begins at [t], with at most [n] messages still to come on the streams, and
    returns at [t'] with [n']: time does not go back, a clock read is the time, a sleep
    takes at least what it was given, a message comes out of those to come; and the
    logs failing boots are reported from are not cut inside a character. *)
Definition keeps (t : N) (n : nat) (c : fcall) (a : fanswer c) (t' : N) (n' : nat) : Prop :=
  (t ≤ t')%N ∧ (n' ≤ n)%nat ∧
  match c return fanswer c → Prop with
  | Now => λ now, now = t'
  | Sleep d => λ _, (t + d ≤ t')%N
  | SleepUntil d => λ _, (d ≤ t')%N
  | NextMessage None => λ m, m = Ok true → (n' < n)%nat
  | NextMessage (Some _) => λ m, m = Some (Ok true) → (n' < n)%nat
  | ReadFile path => λ read, logs path → is_Some (stderr_tail path read)
  | _ => λ _, True
  end a.

(** However the calls are answered in time, the program returns. *)
Inductive ends {A} : N → nat → inj A → Prop :=
| EndsDone t n a : ends t n (Done a)
| EndsCall t n c k : (∀ a t' n', keeps t n c a t' n' → ends t' n' (k a)) → ends t n (Call c k).

Lemma ends_bind {A B} t n (p : inj A) (f : A → inj B) :
  ends t n p → (∀ a t' n', (t ≤ t')%N → (n' ≤ n)%nat → ends t' n' (f a)) → ends t n (ibind p f).
Proof.
  induction 1 as [t n a|t n c k _ IH]; intros Hf; simpl; [apply Hf; lia|].
  constructor. intros a t' n' (Ht & Hn & Hk). apply (IH a t' n'); [done|]. intros b t'' n'' Ht' Hn'. apply Hf; lia.
Qed.

Lemma ends_call {A} t n c (k : fanswer c → inj A) :
  (∀ a t' n', (t ≤ t')%N → (n' ≤ n)%nat → ends t' n' (k a)) → ends t n (Call c k).
Proof. intros Hk. constructor. intros a t' n' (? & ? & _). by apply Hk. Qed.

(** A program that makes no loop ends by going through its calls. *)
Ltac ends_go :=
  repeat first
    [ apply EndsDone
    | apply ends_call; intros ? ? ? ? ?
    | apply ends_bind; [solve [ends_go]|intros ? ? ? ? ?]
    | case_match | progress simpl ].

Lemma poll_until_ends fuel check deadline period t n :
  (∀ t n, ends t n check) → (deadline < t + (N.of_nat fuel - 1) * period)%N → (0 < fuel)%nat →
  ends t n (poll_until fuel check deadline period).
Proof.
  intros Hc. revert t n. induction fuel as [|fuel IH]; intros t n Hd Hf; [lia|]. simpl.
  apply ends_bind; [done|]. intros holds t1 n1 Ht1 Hn1. destruct holds; [constructor|].
  constructor. intros now t2 n2 (Ht2 & Hn2 & ->). destruct (N.leb_spec deadline t2); [constructor|].
  constructor. intros [] t3 n3 (Ht3 & Hn3 & Hsl). simpl in *. apply IH; nia.
Qed.

Lemma poll_ready_ends fuel node deadline t n :
  logs (ns_stderr_path node) → (deadline < t + (N.of_nat fuel - 1) * 250)%N → (0 < fuel)%nat →
  ends t n (poll_ready fuel node deadline).
Proof.
  intros Hp. assert (∀ t n error, ends t n (with_tail node error)) as Htail.
  { intros t' n' error. unfold with_tail. constructor. intros read t'' n'' (_ & _ & [tail ->]%(λ f, f Hp)). constructor. }
  revert t n. induction fuel as [|fuel IH]; intros t n Hd Hf; [lia|]. simpl.
  apply ends_call. intros [[status|]|e] t1 n1 Ht1 Hn1; [done| |constructor].
  apply ends_call. intros fetched t2 n2 Ht2 Hn2.
  match goal with |- ends _ _ (if ?b then _ else _) => destruct b end; [constructor|].
  constructor. intros now t3 n3 (Ht3 & Hn3 & ->). destruct (N.leb_spec deadline t3); [done|].
  constructor. intros [] t4 n4 (Ht4 & Hn4 & Hsl). simpl in *. apply IH; nia.
Qed.

Lemma read_to_end_ends fuel messages t n : (n < fuel)%nat → ends t n (read_to_end fuel messages).
Proof.
  revert messages t n. induction fuel as [|fuel IH]; intros messages t n Hn; [lia|]. simpl.
  constructor. intros m t' n' (_ & _ & Hm). simpl in Hm. destruct m as [[]|]; [|constructor..].
  apply IH. specialize (Hm eq_refl). lia.
Qed.

Lemma drain_stream_ends fuel timeout t n : (n < fuel)%nat → ends t n (drain_stream fuel timeout).
Proof.
  revert t n. induction fuel as [|fuel IH]; intros t n Hn; [lia|]. simpl.
  constructor. intros m t' n' (_ & _ & Hm). simpl in Hm. destruct m as [[[]|]|]; [|constructor..].
  apply IH. specialize (Hm eq_refl). lia.
Qed.

Lemma read_once_ends fuel query timeout t n : (n < fuel)%nat → ends t n (read_once fuel query timeout).
Proof.
  intros Hn. unfold read_once. apply ends_call. intros [[[]|status]|] t' n' Ht Hn'; [|constructor..].
  apply ends_bind; [apply drain_stream_ends; lia|]. intros. constructor.
Qed.

Section serde.
Context `{FleetSerde}.

Lemma race_reads_ends fuel inner target query deadline read_interval reads t n :
  (n < inner)%nat → (deadline < t + (N.of_nat fuel - 1) * read_interval)%N → (0 < fuel)%nat →
  ends t n (race_reads fuel inner target query deadline read_interval reads).
Proof.
  revert reads t n. induction fuel as [|fuel IH]; intros reads t n Hn Hd Hf; [lia|].
  cbn [race_reads].
  constructor. intros now t1 n1 (Ht1 & Hn1 & ->). destruct (N.leb_spec deadline t1); [constructor|].
  apply ends_bind; [ends_go|]. intros before t2 n2 Ht2 Hn2. apply ends_call. intros began t3 n3 Ht3 Hn3.
  apply ends_bind; [apply read_once_ends; lia|]. intros read t4 n4 Ht4 Hn4.
  apply ends_call. intros finished t5 n5 Ht5 Hn5. apply ends_bind; [ends_go|]. intros after t6 n6 Ht6 Hn6.
  destruct read as [outcome|status]; [|ends_go].
  constructor. intros [] t7 n7 (Ht7 & Hn7 & Hsl). simpl in *. apply IH; [lia|nia|nia].
Qed.

Lemma imapM_ends {A B} (f : A → inj B) l t n : (∀ a t n, ends t n (f a)) → ends t n (imapM f l).
Proof.
  intros Hf. revert t n. induction l as [|a l IH]; intros t n; simpl; [constructor|].
  apply ends_bind; [done|]. intros b t' n' _ _. apply ends_bind; [done|]. intros. constructor.
Qed.

Lemma flap_ends cycles link down up completed t n : ends t n (flap cycles link down up completed).
Proof.
  revert completed t n. induction cycles as [|cycles IH]; intros completed t n; [constructor|]. simpl.
  apply ends_call. intros [id []] t' n' _ _; simpl; repeat (apply ends_call; intros ? ? ? ? ?); apply IH.
Qed.

(** ** The injectors *)

Lemma link_deltas_ends links before t n : ends t n (link_deltas links before).
Proof.
  apply ends_bind; [apply imapM_ends; intros; simpl; ends_go|]. intros. constructor.
Qed.

Lemma in_state_ends states pid t n : ends t n (in_state states pid).
Proof. apply ends_bind; [ends_go|]. intros. constructor. Qed.

Lemma confirm_ends fuel pid timeout states t n : (timeout < (N.of_nat fuel - 1) * 20)%N →
  ends t n (confirm fuel pid timeout (in_state states)).
Proof.
  intros Hf. destruct pid as [pid|]; [|constructor]. constructor. intros now t' n' (_ & _ & ->).
  apply poll_until_ends; [intros; apply in_state_ends|nia|nia].
Qed.

Lemma wait_exited_ends fuel node timeout t n : (timeout < (N.of_nat fuel - 1) * 100)%N →
  ends t n (wait_exited fuel node timeout).
Proof.
  intros Hf. constructor. intros now t' n' (_ & _ & ->). apply poll_until_ends; [intros; ends_go|nia|nia].
Qed.

Lemma wait_until_ready_ends fuel node timeout t n :
  logs (ns_stderr_path node) → (timeout < (N.of_nat fuel - 1) * 250)%N →
  ends t n (wait_until_ready fuel node timeout).
Proof.
  intros Hp Hf. constructor. intros now t' n' (_ & _ & ->). apply poll_ready_ends; [done|nia|nia].
Qed.

Lemma wait_for_journal_event_ends fuel path event skip timeout t n : (timeout < (N.of_nat fuel - 1) * 50)%N →
  ends t n (wait_for_journal_event fuel path event skip timeout).
Proof.
  intros Hf. constructor. intros now t' n' (_ & _ & ->).
  apply ends_bind; [|intros; constructor]. apply poll_until_ends; [intros; ends_go|nia|nia].
Qed.

Lemma hold_link_ends link conditions t n : ends t n (hold_link link conditions).
Proof. apply ends_call. intros held t' n' _ _. ends_go. Qed.

(** One statement of an injector. *)
Ltac ends_step :=
  lazymatch goal with
  | |- ends _ _ (ibind _ _) =>
      apply ends_bind;
        [first [ solve [apply wait_exited_ends; lia] | solve [apply confirm_ends; lia]
               | apply hold_link_ends | apply link_deltas_ends | apply flap_ends
               | solve [apply imapM_ends; intros; first [apply hold_link_ends|ends_go]]
               | solve [ends_go] ]
        | intros ? ? ? ? ? ]
  | |- ends _ _ (Call _ _) => apply ends_call; intros ? ? ? ? ?
  | |- ends _ _ (Done _) => apply EndsDone
  | |- _ => case_match
  end.

Lemma run_node_kill_ends fuel fault_id target timing t n :
  (10000 < (N.of_nat fuel - 1) * 100)%N →
  (∀ timeout, timing = MidDrainCommit timeout → (timeout < (N.of_nat fuel - 1) * 50)%N) →
  ends t n (run_node_kill fuel fault_id target timing).
Proof.
  intros Hf Ht. unfold run_node_kill. do 2 ends_step. apply ends_bind.
  - destruct timing as [delay|timeout]; [ends_go|]. apply wait_for_journal_event_ends. by apply Ht.
  - intros. repeat ends_step.
Qed.

Lemma run_sigstop_pause_ends fuel fault_id target delay pause t n :
  (2000 < (N.of_nat fuel - 1) * 20)%N → ends t n (run_sigstop_pause fuel fault_id target delay pause).
Proof. intros Hf. unfold run_sigstop_pause. repeat ends_step. Qed.

Lemma run_membership_leave_ends fuel fault_id target delay grace t n :
  (grace < (N.of_nat fuel - 1) * 100)%N → ends t n (run_membership_leave fuel fault_id target delay grace).
Proof. intros Hf. unfold run_membership_leave. repeat ends_step. Qed.

Lemma run_membership_join_ends fuel fault_id joiner delay timeout t n :
  logs (ns_stderr_path joiner) → (timeout < (N.of_nat fuel - 1) * 250)%N →
  ends t n (run_membership_join fuel fault_id joiner delay timeout).
Proof.
  intros Hp Hf. unfold run_membership_join. do 2 ends_step. apply ends_call. intros [[]|] ? ? ? ?; [|constructor].
  do 2 ends_step. apply ends_bind; [by apply wait_until_ready_ends|]. intros. repeat ends_step.
Qed.

Lemma run_flight_kill_ends fuel fault_id target query delay timeout t n :
  (10000 < (N.of_nat fuel - 1) * 100)%N → (n < fuel)%nat →
  ends t n (run_flight_kill_mid_stream fuel fault_id target query delay timeout).
Proof.
  intros Hf Hn. unfold run_flight_kill_mid_stream. do 3 ends_step.
  apply ends_call. intros [[]|] ? ? ? ?; [|constructor]. apply ends_call. intros [[]|] ? ? ? ?; [|constructor].
  apply ends_call. intros [[[]|]|] ? ? ? ?; [|constructor..]. do 2 ends_step. case_match; [|constructor].
  do 2 ends_step. apply ends_bind; [apply read_to_end_ends; lia|]. intros. repeat ends_step.
Qed.

Lemma run_network_partition_ends fault_id target links delay duration t n :
  ends t n (run_network_partition fault_id target links delay duration).
Proof. unfold run_network_partition. repeat ends_step. Qed.

Lemma run_network_degradation_ends fault_id target link conditions delay duration t n :
  ends t n (run_network_degradation fault_id target link conditions delay duration).
Proof. unfold run_network_degradation. repeat ends_step. Qed.

Lemma run_catalog_outage_ends fault_id target link delay duration t n :
  ends t n (run_catalog_outage fault_id target link delay duration).
Proof. unfold run_catalog_outage. repeat ends_step. Qed.

Lemma run_discovery_flap_ends fault_id target link delay schedule t n :
  ends t n (run_discovery_flap fault_id target link delay schedule).
Proof. unfold run_discovery_flap. repeat ends_step. Qed.

Lemma run_cache_churn_ends fuel fault_id target query delay duration read_interval t n :
  (n < fuel)%nat → (duration < (N.of_nat fuel - 1) * read_interval)%N →
  ends t n (run_cache_churn fuel fault_id target query delay duration read_interval).
Proof.
  intros Hn Hd. unfold run_cache_churn. do 5 ends_step. apply ends_bind; [|intros; repeat ends_step].
  constructor. intros now u i (Hu & Hi & ->). apply ends_call. intros [[[]|]|] v j Hv Hj; [|ends_go..].
  apply race_reads_ends; [lia|nia|nia].
Qed.

(** ** The armed faults *)

(** Enough fuel for what a run was asked to wait for. *)
Record enough (cli : Cli) (messages fuel : nat) : Prop := {
  en_messages : (messages < fuel)%nat;
  en_exit : (10000 < (N.of_nat fuel - 1) * 100)%N;
  en_confirm : (2000 < (N.of_nat fuel - 1) * 20)%N;
  en_mid_drain : (secs (cli_fault_kill_mid_drain_timeout_secs cli) < (N.of_nat fuel - 1) * 50)%N;
  en_grace : (secs (cli_shutdown_grace_secs cli) < (N.of_nat fuel - 1) * 100)%N;
  en_boot : (secs (cli_boot_timeout_secs cli) < (N.of_nat fuel - 1) * 250)%N;
  en_churn : (secs (cli_fault_cache_churn_duration_secs cli)
              < (N.of_nat fuel - 1) * cli_fault_cache_churn_read_interval_ms cli)%N;
}.

Lemma process_fault_ends flag name running window t n :
  (∀ target t' n', (n' ≤ n)%nat → ends t' n' (window target)) → ends t n (process_fault flag name running window).
Proof. intros Hw. unfold process_fault. repeat case_match; [auto|constructor..]. Qed.

Lemma run_process_faults_ends fuel cli running joiner t n :
  enough cli n fuel → (∀ node, joiner = Some node → logs (ns_stderr_path node)) →
  ends t n (run_process_faults fuel cli running joiner).
Proof.
  intros [] Hj. unfold run_process_faults.
  assert (∀ (p : inj (result unit FaultError)) (k : inj (result (list NodeSpec) FaultError)) t n' ,
    (n' ≤ n)%nat → ends t n' p → (∀ t' n'', (n'' ≤ n)%nat → ends t' n'' k) →
    ends t n' (let!? _ := p in k)) as Hseq.
  { intros p k t0 n0 Hn0 Hp Hk. apply ends_bind; [done|]. intros [[]|] t1 n1 _ Hn1; [|constructor]. apply Hk. lia. }
  apply Hseq; [done|apply process_fault_ends; intros; apply run_node_kill_ends; [done|]|intros t1 n1 Hn1].
  { intros timeout. case_match; [|done]. by intros [= <-]. }
  apply Hseq; [done|apply process_fault_ends; intros; by apply run_sigstop_pause_ends|intros t2 n2 Hn2].
  apply Hseq; [done|apply process_fault_ends; intros; by apply run_membership_leave_ends|intros t3 n3 Hn3].
  apply Hseq; [done|apply process_fault_ends; intros; apply run_flight_kill_ends; [done|lia]|intros t4 n4 Hn4].
  destruct (cli_fault_churn_join cli); [|constructor]. destruct joiner as [joiner|]; [|constructor].
  apply ends_bind; [apply run_membership_join_ends; [by apply Hj|done]|]. intros [joined|] ? ? ? ?; constructor.
Qed.

Lemma network_windows_end cli nodes links t n :
  Forall (ends t n) (run_network_faults cli nodes links).
Proof.
  unfold run_network_faults. destruct (network_windows cli nodes links) as [ws|e] eqn:E; [|repeat constructor].
  assert (∀ flag (window : N → result (inj (result unit FaultError)) SetupError) l,
    when_armed flag window = Ok l → (∀ index w, window index = Ok w → ends t n w) → Forall (ends t n) l) as Hwhen.
  { intros flag window l. unfold when_armed. destruct flag as [index|]; [|by intros [= <-]].
    destruct (window index) as [w|] eqn:Ew; [|done]. intros [= <-] Hw. repeat constructor. by eapply Hw. }
  unfold network_windows in E. do 4 (case_match; [|done]). injection E as <-. rewrite !Forall_app.
  split_and!; (eapply Hwhen; [eassumption|]); intros index w;
    unfold partition_window, degrade_window, outage_window, flap_window; intros Hw; repeat (case_match; try done);
    simplify_eq; eauto using run_network_partition_ends, run_network_degradation_ends, run_catalog_outage_ends,
      run_discovery_flap_ends.
Qed.

(** The armed faults end.  Every future [run_armed_faults] joins returns, whatever the
    nodes, the links, the operating system and the other futures answer: over a clock
    that does not go back and sleeps as long as it is told, streams with finitely many
    messages, and the fuel their timeouts ask for, no loop of an injector is cut short. *)
Theorem armed_faults_end (fuel messages : nat) (cli : Cli) (nodes : list NodeSpec)
    (joiner : option NodeSpec) (links : FleetLinks) (w : World) (t : N) :
  enough cli messages fuel → (∀ node, joiner = Some node → logs (ns_stderr_path node)) →
  let run := run_armed_faults fuel cli nodes joiner links w in
  Forall (λ thread, ends t messages (th_prog thread)) (fr_network run) ∧
  ends t messages (th_prog (fr_churn run)) ∧ ends t messages (th_prog (fr_process run)).
Proof.
  intros He Hj. simpl. split_and!.
  - apply Forall_fmap. apply network_windows_end.
  - unfold run_cache_churn_fault. destruct He. repeat case_match; [by apply run_cache_churn_ends|constructor..].
  - by apply run_process_faults_ends.
Qed.
End serde.
End ends.
