(* ===== verification/RunLog.v ===== *)
(** * What a fleet run leaves for the judge

    Models the journal writer of a node ([crates/duckspout-ctk/src/trace_writer.rs],
    [crates/duckspout-types/src/trace.rs]) and the run manifest of the fleet
    ([crates/duckspout-fleet/src/runlog.rs], [capture_run_manifest] of [main.rs]), and
    proves what the judge makes of them. *)

From Stdlib Require Import Ascii.
From S2P Require Import Prelude RustStd Types System Ports Evidence Journal RunManifest FaultLedger.
From S2P Require Import Vacuity Verdict Fleet Fault.

(** ** The journal of a node *)

(** [TraceRecord] *)
Record TraceRecord := { tr_node : NodeId; tr_seq : N; tr_event : TraceEvent }.

(** [TraceRecord::to_ndjson_line] *)
Class TraceSerde := to_ndjson_line : TraceRecord → string.

(** [NdjsonTraceWriter]: the counter and the file, under one mutex, and whether a call
    panicked while it held the mutex. *)
Record TraceWriter := {
  tw_node : NodeId;
  tw_next_seq : N;
  tw_out : string;
  tw_poisoned : bool;
}.

(** [NdjsonTraceWriter::new], on a file just created. *)
Definition writer_new (node : NodeId) : TraceWriter :=
  {| tw_node := node; tw_next_seq := 0; tw_out := ""; tw_poisoned := false |}.

(** [NdjsonTraceWriter::record]; [false] when it panics. *)
Definition writer_record `{TraceSerde} (writer : TraceWriter) (event : TraceEvent)
    (write : WriteOutcome) : TraceWriter * bool :=
  if tw_poisoned writer then (writer, false)
  else
    let line := to_ndjson_line {| tr_node := tw_node writer; tr_seq := tw_next_seq writer;
                                  tr_event := event |} in
    let bytes := line +:+ String newline "" in
    match write with
    | Written =>
        ({| tw_node := tw_node writer; tw_next_seq := u64_succ (tw_next_seq writer);
            tw_out := tw_out writer +:+ bytes; tw_poisoned := false |}, true)
    | WriteFailed reached =>
        ({| tw_node := tw_node writer; tw_next_seq := u64_succ (tw_next_seq writer);
            tw_out := tw_out writer +:+ String.substring 0 reached bytes; tw_poisoned := true |}, false)
    end.

(** A node's life as its journal sees it: the events, and what became of each write;
    a write that a kill interrupts is one that failed. *)
Abbreviation Life := (list (TraceEvent * WriteOutcome)).

Definition writer_run `{TraceSerde} (node : NodeId) (life : Life) : TraceWriter :=
  foldl (λ writer step, (writer_record writer step.1 step.2).1) (writer_new node) life.

(** ** The run manifest *)

(** [Progress] *)
Record Progress := { pg_lines : N; pg_last_progress_at_ms : option N }.

Definition progress_default : Progress := {| pg_lines := 0; pg_last_progress_at_ms := None |}.

(** [JournalProgress] *)
Abbreviation JournalProgress := (gmap string Progress).

(** [fault::node_journal_line_count], on the files of one moment. *)
Definition journal_line_count (fs : FileSystem) (journal_path : string) : N :=
  match fs journal_path with Ok contents => line_count contents | Err _ => 0%N end.

(** The body of the loop of [sample]. *)
Definition sample_node (fs : FileSystem) (at_ms : N) (seen : JournalProgress) (node : NodeSpec) :
    JournalProgress :=
  let lines := journal_line_count fs (ns_journal_path node) in
  let entry := default progress_default (seen !! ns_name node) in
  <[ns_name node :=
      if decide (lines = pg_lines entry) then entry
      else {| pg_lines := lines;
              pg_last_progress_at_ms :=
                if (0 <? lines)%N then Some at_ms else pg_last_progress_at_ms entry |}]> seen.

(** [JournalProgress::sample] *)
Definition sample (fs : FileSystem) (nodes : list NodeSpec) (at_ms : N) (seen : JournalProgress) :
    JournalProgress :=
  foldl (sample_node fs at_ms) seen nodes.

(** [JournalProgress::roster] *)
Definition roster (seen : JournalProgress) (nodes : list NodeSpec) (exited_early : gset string) :
    list NodeRun :=
  (λ node,
    let progress := default progress_default (seen !! ns_name node) in
    {| nr_name := ns_name node; nr_journal_path := ns_journal_path node;
       nr_journal_lines := pg_lines progress;
       nr_last_progress_at_ms := pg_last_progress_at_ms progress;
       nr_exited_early := bool_decide (ns_name node ∈ exited_early) |}) <$> nodes.

(** [process::has_exited], on the answer of [try_wait]. *)
Definition has_exited (try_wait : result (option string) string) : bool :=
  match try_wait with Ok (Some _) => true | _ => false end.

(** [capture_run_manifest]: the running nodes with what [try_wait] answers, and the
    files at [ended_at_ms]. *)
Definition capture_run_manifest (running : list (NodeSpec * result (option string) string))
    (progress : JournalProgress) (nodes : list NodeSpec) (started_at_ms ended_at_ms : N)
    (cli : Cli) (fs : FileSystem) : RunManifest :=
  let progress := sample fs nodes ended_at_ms progress in
  let exited_early : gset string :=
    list_to_set (omap (λ r, if has_exited r.2 then Some (ns_name r.1) else None) running) in
  {| rm_started_at_ms := started_at_ms; rm_ended_at_ms := ended_at_ms;
     rm_sample_interval_ms := cli_journal_sample_interval_ms cli;
     rm_nodes := roster progress running.*1 exited_early |}.

(** [sample_forever], up to the moment it is aborted: what every pass has seen. *)
Definition sampled (nodes : list NodeSpec) (passes : list (N * FileSystem)) : JournalProgress :=
  foldl (λ seen pass, sample pass.2 nodes pass.1 seen) ∅ passes.

(** [runlog::write]: the text of the file. *)
Class ManifestSerde := to_string_pretty : RunManifest → string.

(** ** What the journal holds *)

Section journal.
Context `{TraceSerde}.

Definition record_text (node : NodeId) (i : nat) (event : TraceEvent) : string :=
  to_ndjson_line {| tr_node := node; tr_seq := (N.of_nat i mod 2 ^ 64)%N; tr_event := event |}.

(** The events written before a write failed, and that write. *)
Fixpoint written (life : Life) : list TraceEvent :=
  match life with (event, Written) :: life => event :: written life | _ => [] end.

Fixpoint failed (life : Life) : option (TraceEvent * nat) :=
  match life with
  | [] => None
  | (_, Written) :: life => failed life
  | (event, WriteFailed reached) :: _ => Some (event, reached)
  end.

(** The text of the record whose write failed. *)
Definition failed_text (node : NodeId) (life : Life) (event : TraceEvent) : string :=
  record_text node (length (written life)) event.

(** The events the file has a line of: a line without its newline counts. *)
Definition journaled (node : NodeId) (life : Life) : list TraceEvent :=
  written life ++
  match failed life with
  | Some (event, reached) =>
      if (String.length (failed_text node life event) <=? reached)%nat then [event] else []
  | None => []
  end.

(** No line is cut in two: the kill struck between the writes of [writeln!], which
    are the text and the newline. *)
Definition intact (node : NodeId) (life : Life) : Prop :=
  match failed life with
  | Some (event, reached) => reached = 0%nat ∨ (String.length (failed_text node life event) ≤ reached)%nat
  | None => True
  end.

Definition texts (node : NodeId) (events : list TraceEvent) : list string :=
  imap (record_text node) events.

Lemma written_app life life' :
  written (life ++ life') = written life ++ (if failed life then [] else written life') ∧
  failed (life ++ life') = match failed life with Some f => Some f | None => failed life' end.
Proof.
  induction life as [|[event []] life [IHw IHf]]; simpl; [done| |done].
  rewrite IHw, IHf. by destruct (failed life).
Qed.

Lemma writer_run_spec node life :
  writer_run node life =
  {| tw_node := node;
     tw_next_seq := (N.of_nat (length (written life) + if failed life then 1 else 0) mod 2 ^ 64)%N;
     tw_out := text_of (texts node (written life)) +:+
               match failed life with
               | Some (event, reached) =>
                   String.substring 0 reached (failed_text node life event +:+ String newline "")
               | None => ""
               end;
     tw_poisoned := bool_decide (is_Some (failed life)) |}.
Proof.
  unfold failed_text. induction life as [|[event write] life IH] using rev_ind; [done|].
  unfold writer_run in *. rewrite foldl_app. simpl. rewrite IH. clear IH.
  destruct (written_app life [(event, write)]) as [-> ->]. unfold writer_record. cbn [tw_poisoned fst snd].
  destruct (failed life) as [[e r]|]; simpl; [by rewrite app_nil_r|].
  rewrite Nat.add_0_r. destruct write as [|reached]; simpl.
  - f_equal.
    + rewrite u64_succ_mod, length_app. do 2 f_equal. simpl. lia.
    + rewrite !string_app_nil. unfold texts. rewrite imap_app. simpl. by rewrite text_of_snoc, Nat.add_0_r.
  - rewrite app_nil_r. f_equal; [|by rewrite string_app_nil].
    rewrite u64_succ_mod. do 2 f_equal. lia.
Qed.
End journal.

Lemma substring_app (t u : string) (n : nat) : (String.length t ≤ n)%nat →
  String.substring 0 n (t +:+ u) = t +:+ String.substring 0 (n - String.length t) u.
Proof.
  revert n. induction t as [|c t IH]; intros n Hn; simpl in *; [by rewrite Nat.sub_0_r|].
  destruct n as [|n]; [lia|]. change (String c t +:+ u) with (String c (t +:+ u)).
  change (String c t +:+ String.substring 0 (S n - S (String.length t)) u)
    with (String c (t +:+ String.substring 0 (n - String.length t) u)).
  simpl. by rewrite IH by lia.
Qed.

Lemma substring_short (t u : string) (n : nat) : (n ≤ String.length t)%nat →
  String.substring 0 n (t +:+ u) = String.substring 0 n t.
Proof.
  revert n. induction t as [|c t IH]; intros n Hn; simpl in *.
  - assert (n = 0%nat) as -> by lia. by destruct u.
  - destruct n as [|n]; [done|]. change (String c t +:+ u) with (String c (t +:+ u)). simpl.
    by rewrite IH by lia.
Qed.

Lemma free_of_substring c (t : string) (n : nat) :
  free_of c t = true → free_of c (String.substring 0 n t) = true.
Proof.
  revert n. induction t as [|d t IH]; intros n; simpl; [by destruct n|].
  intros [Hd Ht]%andb_prop. destruct n as [|n]; [done|]. simpl. rewrite Hd. by apply IH.
Qed.

(** What serde documents of the derived format: the text is one line and not empty, its
    keys are the fields in order, the envelope of the judge takes all three, and
    nothing is left for its flattened rest; the text is one JSON object, so what is
    left of it when it is cut short does not parse to its end. *)
Class TraceLaws `{Serde, TraceSerde} := {
  trace_rest : TraceRecord → Value;
  trace_one_line record :
    to_ndjson_line record ≠ "" ∧ free_of newline (to_ndjson_line record) = true ∧
    free_of carriage_return (to_ndjson_line record) = true;
  trace_keys record : map_access (to_ndjson_line record) = (["node"; "seq"; "event"], None);
  trace_envelope record : is_u64 (tr_seq record) →
    envelope_from_str (to_ndjson_line record) =
    Ok {| env_node := tr_node record; env_seq := tr_seq record; env_event := tr_event record;
          env_rest := trace_rest record |};
  trace_rest_keys record key : contains_key (trace_rest record) key = false;
  trace_torn record n : (0 < n < String.length (to_ndjson_line record))%nat →
    (map_access (String.substring 0 n (to_ndjson_line record))).2 ≠ None;
}.

Section judged.
Context `{TraceLaws}.

(** The lines of a file are the records journaled. *)
Lemma file_lines node life : intact node life →
  str_lines (tw_out (writer_run node life)) = texts node (journaled node life).
Proof.
  rewrite writer_run_spec. cbn [tw_out]. unfold intact, journaled.
  assert (∀ events, Forall (λ l, free_of newline l = true ∧ free_of carriage_return l = true) (texts node events))
    as Hfree.
  { intros events. apply Forall_forall. intros l (i & Hi)%list_elem_of_lookup. unfold texts in Hi.
    rewrite list_lookup_imap in Hi. destruct (events !! i); simplify_eq/=. apply trace_one_line. }
  assert (∀ events event, texts node (events ++ [event]) =
    texts node events ++ [record_text node (length events) event]) as Hsnoc.
  { intros events event. unfold texts. rewrite imap_app. simpl. by rewrite Nat.add_0_r. }
  destruct (failed life) as [[event reached]|].
  2:{ intros _. rewrite string_app_nil, app_nil_r. by apply str_lines_text. }
  unfold failed_text. set (t := record_text node (length (written life)) event).
  assert (t ≠ "" ∧ free_of newline t = true) as [Hne Hn] by (split; apply trace_one_line).
  intros Hr. destruct (Nat.leb_spec (String.length t) reached) as [Hle|Hlt].
  - rewrite Hsnoc, substring_app by done. fold t. destruct (reached - String.length t)%nat as [|k].
    + change (String.substring 0 0 (String newline "")) with "". rewrite string_app_nil.
      by apply str_lines_unterminated.
    + assert (String.substring 0 (S k) (String newline "") = String newline "") as -> by by destruct k.
      rewrite <-text_of_snoc. unfold t. rewrite <-Hsnoc. by apply str_lines_text.
  - destruct Hr as [->|]; [|lia]. rewrite app_nil_r.
    replace (String.substring 0 0 (t +:+ String newline "")) with "" by by destruct t.
    rewrite string_app_nil. by apply str_lines_text.
Qed.

(** A line that was cut short is the last line of the file. *)
Lemma torn_line node life : ¬ intact node life →
  ∃ event n, (0 < n < String.length (failed_text node life event))%nat ∧
    String.substring 0 n (failed_text node life event) ∈ str_lines (tw_out (writer_run node life)).
Proof.
  rewrite writer_run_spec. cbn [tw_out]. unfold intact.
  destruct (failed life) as [[event n]|]; [|by intros []]. intros Hr. exists event, n.
  assert (0 < n < String.length (failed_text node life event))%nat as Hn by lia. split; [done|].
  rewrite substring_short by lia. unfold failed_text in *. rewrite str_lines_unterminated.
  - apply elem_of_app. right. by left.
  - apply Forall_forall. intros l (i & Hi)%list_elem_of_lookup. unfold texts in Hi.
    rewrite list_lookup_imap in Hi. destruct (_ !! i); simplify_eq/=. apply trace_one_line.
  - apply free_of_substring, trace_one_line.
  - destruct (record_text _ _ _) as [|c t]; simpl in *; [lia|]. by destruct n; [lia|].
Qed.

(** The judge's lines for the events of a node. *)
Definition judge_lines (path : string) (node : NodeId) (events : list TraceEvent) : list JournalLine :=
  imap (λ i event, {| jl_source := path; jl_line_no := 1 + N.of_nat i; jl_node := node;
                      jl_seq := (N.of_nat i mod 2 ^ 64)%N; jl_event := event; jl_identity := None;
                      jl_watermark := None; jl_changelog := None; jl_part := None |}) events.

Lemma judge_lines_lookup path node events i line : judge_lines path node events !! i = Some line →
  jl_node line = node ∧ jl_seq line = (N.of_nat i mod 2 ^ 64)%N.
Proof. unfold judge_lines. rewrite list_lookup_imap. destruct (events !! i); [|done]. by intros [= <-]. Qed.

Lemma node_lines_events path node events : jl_event <$> judge_lines path node events = events.
Proof.
  unfold judge_lines. rewrite fmap_imap. rewrite (imap_const id). apply list_fmap_id.
Qed.

Lemma judge_lines_node path node events l : l ∈ judge_lines path node events → jl_node l = node.
Proof. intros (i & Hi)%list_elem_of_lookup. by apply judge_lines_lookup in Hi as [? _]. Qed.

Lemma record_decodes path n node i event :
  decodes path n (record_text node i event)
    {| jl_source := path; jl_line_no := n; jl_node := node; jl_seq := (N.of_nat i mod 2 ^ 64)%N;
       jl_event := event; jl_identity := None; jl_watermark := None; jl_changelog := None;
       jl_part := None |}.
Proof.
  unfold record_text. set (record := {| tr_node := _; tr_seq := _; tr_event := _ |}). apply decodes_spec. eexists. split.
  - unfold envelope_of. assert (reject_duplicate_keys (to_ndjson_line record) = Ok tt) as ->.
    { apply reject_duplicate_keys_ok. rewrite trace_keys. split; [done|].
      apply (bool_decide_unpack _). vm_compute. exact I. }
    rewrite trace_envelope; [reflexivity|]. unfold is_u64, u64_max, record; simpl.
    pose proof (N.mod_lt (N.of_nat i) (2 ^ 64)). lia.
  - unfold line_of, identity_from_rest, watermark_from_rest, changelog_from_rest, part_from_rest.
    cbn [env_rest env_node env_seq env_event]. rewrite !trace_rest_keys. reflexivity.
Qed.

(** A node's file is read as its events, whole and in order. *)
Lemma journal_file_ok fs path node life :
  fs path = Ok (tw_out (writer_run node life)) → intact node life →
  file_ok fs path (judge_lines path node (journaled node life)).
Proof.
  intros Hfs Hin. split.
  - eexists. split; [exact Hfs|]. rewrite file_lines by done. unfold texts, judge_lines.
    split; [by rewrite !length_imap|]. intros i raw line. rewrite !list_lookup_imap.
    destruct (_ !! i) as [event|]; [|done]. simpl. intros [= <-] [= <-]. apply record_decodes.
  - eapply dense_numbered, judge_lines_lookup.
Qed.

(** A file whose last line was cut short is not read. *)
Lemma torn_file fs path node life lines :
  fs path = Ok (tw_out (writer_run node life)) → ¬ intact node life → ¬ file_ok fs path lines.
Proof.
  intros Hfs Hin [(text & Htext & Hlen & Hdec) _]. rewrite Hfs in Htext. injection Htext as <-.
  destruct (torn_line node life Hin) as (event & n & Hn & Hraw). apply list_elem_of_lookup in Hraw as [i Hi].
  destruct (lookup_lt_is_Some_2 lines i) as [line Hline]; [rewrite <-Hlen; by eapply lookup_lt_Some|].
  destruct (Hdec i _ line Hi Hline) as [Hp _]. exact (trace_torn _ n Hn Hp).
Qed.
End judged.

(** ** What the sampler measures *)

(** The moments at which a pass saw a journal of another length than before, and not
    an empty one. *)
Fixpoint moves (before : N) (node : NodeSpec) (passes : list (N * FileSystem)) : list N :=
  match passes with
  | [] => []
  | (at_ms, fs) :: passes =>
      let lines := journal_line_count fs (ns_journal_path node) in
      (if (0 <? lines)%N && negb (lines =? before)%N then [at_ms] else []) ++ moves lines node passes
  end.

(** The length the last pass saw. *)
Definition last_lines (before : N) (node : NodeSpec) (passes : list (N * FileSystem)) : N :=
  match last passes with Some (_, fs) => journal_line_count fs (ns_journal_path node) | None => before end.

Lemma last_lines_cons before node at_ms fs passes :
  last_lines before node ((at_ms, fs) :: passes) =
  last_lines (journal_line_count fs (ns_journal_path node)) node passes.
Proof. unfold last_lines. rewrite last_cons. by destruct (last passes) as [[]|]. Qed.

Lemma last_app_default {A} (l l' : list A) (x : option A) :
  match last (l ++ l') with Some y => Some y | None => x end =
  match last l' with Some y => Some y | None => match last l with Some y => Some y | None => x end end.
Proof. rewrite last_app. by destruct (last l'). Qed.

(** Other nodes' journals do not count. *)
Lemma sample_other fs at_ms nodes seen name : name ∉ ns_name <$> nodes →
  sample fs nodes at_ms seen !! name = seen !! name.
Proof.
  unfold sample. revert seen. induction nodes as [|n nodes IH]; intros seen; simpl; [done|].
  intros [Hn Hns]%not_elem_of_cons. rewrite IH by done. unfold sample_node. by rewrite lookup_insert_ne.
Qed.

Lemma sample_own fs at_ms nodes seen node : NoDup (ns_name <$> nodes) → node ∈ nodes →
  sample fs nodes at_ms seen !! ns_name node = sample_node fs at_ms seen node !! ns_name node.
Proof.
  unfold sample. revert seen. induction nodes as [|n nodes IH]; intros seen; simpl; [by intros _ ?%not_elem_of_nil|].
  intros [Hn Hnd]%NoDup_cons [->|Hin]%elem_of_cons.
  - by apply (sample_other fs at_ms nodes).
  - rewrite IH by done. unfold sample_node. rewrite !lookup_insert_eq. rewrite lookup_insert_ne; [done|].
    intros E. apply Hn. rewrite E. by apply list_elem_of_fmap_2.
Qed.

(** The entry of a node after some passes. *)
Lemma sampled_from nodes node passes seen entry :
  NoDup (ns_name <$> nodes) → node ∈ nodes → default progress_default (seen !! ns_name node) = entry →
  default progress_default
    (foldl (λ seen pass, sample pass.2 nodes pass.1 seen) seen passes !! ns_name node) =
  {| pg_lines := last_lines (pg_lines entry) node passes;
     pg_last_progress_at_ms :=
       match last (moves (pg_lines entry) node passes) with
       | Some t => Some t
       | None => pg_last_progress_at_ms entry
       end |}.
Proof.
  intros Hnd Hin. revert seen entry. induction passes as [|[at_ms fs] passes IH]; intros seen entry Hs; simpl.
  - rewrite Hs. by destruct entry.
  - erewrite IH; [|reflexivity]. rewrite sample_own by done. unfold sample_node. rewrite lookup_insert_eq, Hs. simpl.
    rewrite last_lines_cons, last_app_default.
    destruct (decide (_ = _)) as [<-|Hne]; simpl.
    + rewrite N.eqb_refl, andb_false_r. by destruct (last (moves _ _ _)).
    + apply N.eqb_neq in Hne. rewrite Hne, andb_true_r. f_equal.
      destruct (last (moves _ _ _)); [done|]. by destruct (0 <? _)%N.
Qed.

(** [JournalProgress] is exact. *)
Lemma sampled_exact nodes node passes : NoDup (ns_name <$> nodes) → node ∈ nodes →
  default progress_default (sampled nodes passes !! ns_name node) =
  {| pg_lines := last_lines 0 node passes; pg_last_progress_at_ms := last (moves 0 node passes) |}.
Proof.
  intros Hnd Hin. unfold sampled. rewrite (sampled_from nodes node passes ∅ progress_default); [|done..].
  simpl. f_equal. by destruct (last _).
Qed.

(** ** The evidence of a run, as the judge reads it *)

(** The numbers of a manifest fit their type. *)
Definition manifest_typed (m : RunManifest) : Prop :=
  is_u64 (rm_started_at_ms m) ∧ is_u64 (rm_ended_at_ms m) ∧ is_u64 (rm_sample_interval_ms m) ∧
  ∀ node, node ∈ rm_nodes m → is_u64 (nr_journal_lines node) ∧
    ∀ t, nr_last_progress_at_ms node = Some t → is_u64 t.

(** What serde documents of the manifest's derived formats. *)
Class ManifestLaws `{Serde, ManifestSerde} := {
  manifest_keys m : map_access (to_string_pretty m) =
    (["started_at_ms"; "ended_at_ms"; "sample_interval_ms"; "nodes"], None);
  manifest_decodes m : manifest_typed m → manifest_from_str (to_string_pretty m) = Ok m;
}.

Lemma node_host_plain s : plain s = true → node_host s = s.
Proof.
  induction s as [|c s IH]; simpl; [done|]. intros [Hc Hs]%andb_prop.
  destruct (Ascii.eqb_spec c slash) as [->|]; [done|]. by rewrite IH.
Qed.

Lemma rendered_host node : plain (ns_name node) = true → node_host (rendered_node_id node) = ns_name node.
Proof.
  intros Hp. unfold rendered_node_id. apply (node_host_rendered (ns_name node) V01_FIXED_INCARNATION).
  by apply node_host_plain.
Qed.

Lemma provisioned_plain create_dir_all work_dir seed count ports nodes node :
  provision_nodes create_dir_all work_dir seed count ports = Ok nodes → node ∈ nodes →
  plain (ns_name node) = true.
Proof.
  intros ->%provision_from_spec (i & -> & _)%list_elem_of_fmap. apply node_name_plain.
Qed.

Section evidence.
Context `{Serde} `{!TraceSerde} `{!TraceLaws} `{!ManifestSerde} `{!ManifestLaws}.

(** A row of the roster. *)
Definition row_of (all : list (N * FileSystem)) (r : NodeSpec * result (option string) string)
    (row : NodeRun) : Prop :=
  nr_name row = ns_name r.1 ∧ nr_journal_path row = ns_journal_path r.1 ∧
  nr_journal_lines row = last_lines 0 r.1 all ∧ nr_last_progress_at_ms row = last (moves 0 r.1 all) ∧
  nr_exited_early row = has_exited r.2.

Lemma roster_rows nodes running passes started ended cli final :
  NoDup (ns_name <$> nodes) → (∀ r, r ∈ running → r.1 ∈ nodes) → NoDup (ns_name <$> running.*1) →
  Forall2 (row_of (passes ++ [(ended, final)])) running
    (rm_nodes (capture_run_manifest running (sampled nodes passes) nodes started ended cli final)).
Proof.
  intros Hnd Hsub Hndr. simpl. unfold roster. rewrite <-list_fmap_compose.
  apply Forall2_fmap_r, Forall_Forall2_diag, Forall_forall. intros r Hr.
  assert (sample final nodes ended (sampled nodes passes) = sampled nodes (passes ++ [(ended, final)])) as ->.
  { unfold sampled. by rewrite foldl_app. }
  unfold row_of, compose. cbn [nr_name nr_journal_path nr_journal_lines nr_last_progress_at_ms nr_exited_early].
  rewrite (sampled_exact nodes r.1) by auto. simpl. split_and!; [done..|].
  apply eq_true_iff_eq. rewrite bool_decide_eq_true, elem_of_list_to_set, list_elem_of_omap. split.
  - intros (r' & Hr' & E). destruct (has_exited r'.2) eqn:Ex; [|done]. injection E as E.
    assert (r' = r) as <-; [|done]. apply list_elem_of_lookup in Hr as (i & Hi), Hr' as (j & Hj).
    assert (i = j) as <-; [|congruence]. eapply NoDup_lookup; [exact Hndr|..];
      rewrite !list_lookup_fmap, ?Hi, ?Hj; simpl; by rewrite ?E.
  - intros Ex. exists r. by rewrite Ex.
Qed.

(** The journals of the running nodes, read together. *)
Lemma journals_ingested fs (running : list NodeSpec) (life : NodeSpec → Life) :
  (∀ node, node ∈ running → plain (ns_name node) = true) → NoDup (ns_name <$> running) →
  (∀ node, node ∈ running → intact (rendered_node_id node) (life node) ∧
     fs (ns_journal_path node) = Ok (tw_out (writer_run (rendered_node_id node) (life node)))) →
  let lines node := judge_lines (ns_journal_path node) (rendered_node_id node)
                      (journaled (rendered_node_id node) (life node)) in
  ingest_journals fs (ns_journal_path <$> running) = Ok {| js_lines := concat (lines <$> running) |}.
Proof.
  intros Hp Hnd Hj lines. apply ingest_spec. exists (lines <$> running). split_and!; [|done|].
  - apply Forall2_fmap, Forall_Forall2_diag, Forall_forall. intros node Hin.
    destruct (Hj node Hin). by apply journal_file_ok.
  - apply (dense_concat (rendered_node_id <$> running)).
    + apply Forall2_fmap, Forall_Forall2_diag, Forall_forall. intros node Hin. split.
      * eapply dense_numbered, judge_lines_lookup.
      * intros l. apply judge_lines_node.
    + apply (NoDup_fmap_1 node_host). rewrite <-list_fmap_compose.
      rewrite (list_fmap_ext (node_host ∘ rendered_node_id) ns_name running); [done|].
      intros i node Hi. simpl. apply rendered_host, Hp. by eapply list_elem_of_lookup_2.
Qed.

(** One journal cut short in a line fails the whole ingestion. *)
Lemma torn_refused fs (running : list NodeSpec) (life : NodeSpec → Life) node :
  node ∈ running → fs (ns_journal_path node) = Ok (tw_out (writer_run (rendered_node_id node) (life node))) →
  ¬ intact (rendered_node_id node) (life node) →
  is_ok (ingest_journals fs (ns_journal_path <$> running)) = false.
Proof.
  intros (i & Hi)%list_elem_of_lookup Hfs Hin. destruct (ingest_journals _ _) as [journals|] eqn:E; [|done].
  exfalso. apply ingest_spec in E as (files & Hf & _).
  assert ((ns_journal_path <$> running) !! i = Some (ns_journal_path node)) as Hp by by rewrite list_lookup_fmap, Hi.
  destruct (Forall2_lookup_l _ _ _ _ _ Hf Hp) as (lines & _ & Hok). by eapply torn_file.
Qed.

(** What a node journaled is found under its id. *)
Lemma lines_of_node (running : list NodeSpec) (lines : NodeSpec → list JournalLine) node :
  (∀ node, node ∈ running → plain (ns_name node) = true) → NoDup (ns_name <$> running) → node ∈ running →
  (∀ node l, l ∈ lines node → jl_node l = rendered_node_id node) →
  of_node (rendered_node_id node) (concat (lines <$> running)) = lines node.
Proof.
  intros Hp Hnd Hin Hl. assert (∀ n, n ∈ running → rendered_node_id n = rendered_node_id node →
    ns_name n = ns_name node) as Hinj.
  { intros n Hn E. by rewrite <-(rendered_host n), <-(rendered_host node), E by auto. }
  clear Hp. unfold of_node. induction running as [|n running IH]; [by apply not_elem_of_nil in Hin|].
  rewrite fmap_cons in Hnd. apply NoDup_cons in Hnd as [Hn Hnd].
  rewrite fmap_cons. cbn [concat]. rewrite filter_app.
  assert (∀ n', n' ∈ running → rendered_node_id n' = rendered_node_id node → ns_name n' = ns_name node)
    as Hinj' by (intros; apply Hinj; [by right|done]).
  apply elem_of_cons in Hin as [->|Hr]; [clear IH|].
  2:{ rewrite IH by done. change (filter _ (lines n)) with (of_node (rendered_node_id node) (lines n)).
    rewrite of_node_none; [done|]. intros l Hl' E. rewrite (Hl n l Hl') in E. apply Hinj in E; [|by left].
    apply Hn. rewrite E. by apply list_elem_of_fmap_2. }
  change (of_node (rendered_node_id n) (lines n) ++ of_node (rendered_node_id n) (concat (lines <$> running)) = lines n).
  rewrite of_node_all by (intros l; apply Hl). rewrite of_node_none; [apply app_nil_r|].
  intros l Hc E. apply list_elem_of_In, in_concat in Hc as (ls & Hls & Hl').
  apply list_elem_of_In in Hls, Hl'. apply list_elem_of_fmap in Hls as (n' & -> & Hn').
  rewrite (Hl n' l Hl') in E. apply Hinj' in E; [|done]. apply Hn. rewrite <-E. by apply list_elem_of_fmap_2.
Qed.

(** A node that journaled is among the hosts ingested. *)
Lemma journaled_ingested (running : list NodeSpec) (lines : NodeSpec → list JournalLine) node :
  plain (ns_name node) = true → node ∈ running → lines node ≠ [] →
  (∀ l, l ∈ lines node → jl_node l = rendered_node_id node) →
  ns_name node ∈ (list_to_set ((λ line, node_host (jl_node line)) <$> concat (lines <$> running)) : gset string).
Proof.
  intros Hp Hin Hne Hl. destruct (lines node) as [|l ls] eqn:E; [done|].
  apply elem_of_list_to_set, list_elem_of_fmap. exists l. split.
  - by rewrite Hl, rendered_host by (by left || done).
  - apply list_elem_of_In, in_concat. exists (lines node). rewrite E. split; [|by left].
    apply list_elem_of_In. rewrite <-E. by apply list_elem_of_fmap_2.
Qed.

(** The latest progress of the run is a node's. *)
Lemma run_progress all running manifest last_at :
  Forall2 (row_of all) running (rm_nodes manifest) → last_progress_at_ms manifest = Some last_at →
  ∃ r, r ∈ running ∧ last (moves 0 r.1 all) = Some last_at.
Proof.
  intros Hrows (Hin & _)%max_of_spec. apply list_elem_of_omap in Hin as (row & Hrow & Hl).
  apply list_elem_of_lookup in Hrow as (i & Hi). destruct (Forall2_lookup_r _ _ _ _ _ Hrows Hi) as (r & Hr & Hrow).
  exists r. split; [by eapply list_elem_of_lookup_2|]. destruct Hrow as (_ & _ & _ & <- & _). done.
Qed.

Definition steady (all : list (N * FileSystem)) (running : list (NodeSpec * result (option string) string))
    (budget : N) (r : NodeSpec * result (option string) string) : Prop :=
  has_exited r.2 = false ∧ ∃ t, last (moves 0 r.1 all) = Some t ∧
    ∀ r' t', r' ∈ running → last (moves 0 r'.1 all) = Some t' → (t' ≤ t + budget)%N.

Lemma steady_continuous all running manifest journals ledger budget :
  Forall2 (row_of all) running (rm_nodes manifest) → running ≠ [] →
  (∀ r, r ∈ running → steady all running budget r ∧
     ns_name r.1 ∈ (list_to_set ((λ line, node_host (jl_node line)) <$> js_lines journals) : gset string)) →
  passed (to_verdict (check_node_continuity journals (Some manifest) ledger budget)).
Proof.
  intros Hrows Hne Hok. apply to_verdict_passed. unfold check_node_continuity.
  destruct running as [|r0 running'] eqn:Er; [done|]. rewrite <-Er in *. clear Hne.
  destruct (rm_nodes manifest) as [|row rows] eqn:En; [subst; by apply Forall2_nil_inv_r in Hrows|].
  rewrite <-En in *. destruct (last_progress_at_ms manifest) as [last_at|] eqn:El.
  2:{ exfalso. apply max_of_None in El. destruct (Hok r0) as [(_ & t & Ht & _) _]; [subst; by left|].
      assert (row ∈ rm_nodes manifest) as Hrow by (rewrite En; by left).
      subst. rewrite En in Hrows. apply Forall2_cons in Hrows as [(_ & _ & _ & Hl & _) _].
      eapply (not_elem_of_nil t). rewrite <-El. apply list_elem_of_omap. exists row. by rewrite Hl. }
  assert (rm_nodes manifest ≫= check_node manifest ledger budget last_at
    (list_to_set ((λ line, node_host (jl_node line)) <$> js_lines journals)) = []) as ->;
    [|exists (length rows); by rewrite En].
  apply bind_nil. intros row' (i & Hi)%list_elem_of_lookup.
  destruct (Forall2_lookup_r _ _ _ _ _ Hrows Hi) as (r & Hr & Hname & _ & _ & Hl & Hex).
  assert (r ∈ running) as Hin by by eapply list_elem_of_lookup_2.
  destruct (Hok r Hin) as [(Hexit & t & Ht & Hle) Hing]. unfold check_node. rewrite Hl, Ht, Hname, Hex, Hexit.
  rewrite bool_decide_eq_true_2 by done. cbn [negb andb].
  destruct (run_progress _ _ _ _ Hrows El) as (r' & Hr' & Hl'). specialize (Hle _ _ Hr' Hl').
  assert (horizon_of ledger last_at row' ≤ last_at)%N as Hh by (unfold horizon_of; lia).
  assert ((budget <? horizon_of ledger last_at row' - t)%N = false) as -> by (apply N.ltb_ge; lia). done.
Qed.

Lemma stopped_silent all running manifest journals ledger budget findings name silent :
  Forall2 (row_of all) running (rm_nodes manifest) →
  check_node_continuity journals (Some manifest) ledger budget = Err findings →
  NodeJournalStopped name silent budget ∈ findings →
  ∃ r r' t t', r ∈ running ∧ r' ∈ running ∧ ns_name r.1 = name ∧ last (moves 0 r.1 all) = Some t ∧
    last (moves 0 r'.1 all) = Some t' ∧ (budget < silent)%N ∧ (t + silent ≤ t')%N.
Proof.
  intros Hrows. unfold check_node_continuity. destruct (rm_nodes manifest) as [|row rows] eqn:En.
  { intros [= <-] ?%list_elem_of_singleton. done. }
  rewrite <-En in *. destruct (last_progress_at_ms manifest) as [last_at|] eqn:El.
  2:{ intros [= <-] ?%list_elem_of_singleton. done. }
  intros E Hin. assert (NodeJournalStopped name silent budget ∈ rm_nodes manifest ≫=
    check_node manifest ledger budget last_at
      (list_to_set ((λ line, node_host (jl_node line)) <$> js_lines journals))) as Hf.
  { destruct (rm_nodes manifest ≫= _); by simplify_eq. }
  apply list_elem_of_bind in Hf as (row' & Hf & (i & Hi)%list_elem_of_lookup).
  destruct (Forall2_lookup_r _ _ _ _ _ Hrows Hi) as (r & Hr & Hname & _ & _ & Hl & _).
  destruct (run_progress _ _ _ _ Hrows El) as (r' & Hr' & Hl').
  unfold check_node in Hf. destruct (nr_last_progress_at_ms row') as [t|] eqn:Ep.
  2:{ case_match; [by apply not_elem_of_nil in Hf|]. by apply list_elem_of_singleton in Hf. }
  case_match; [by apply list_elem_of_singleton in Hf|]. case_match; [by apply list_elem_of_singleton in Hf|].
  case_match eqn:Eb; [|by apply not_elem_of_nil in Hf]. apply list_elem_of_singleton in Hf as [= -> ->].
  apply andb_prop in Eb as [Hb%N.ltb_lt _].
  exists r, r', t, last_at. rewrite Hl'. split_and!; [by eapply list_elem_of_lookup_2|done|done|done|done|done|].
  assert (horizon_of ledger last_at row' ≤ last_at)%N as Hh by (unfold horizon_of; lia). lia.
Qed.

(** C34: A run's evidence is what the run was.  The judge parses the manifest the run
    captured.  If no journal of a node that ran stops inside a line (a kill or a failed
    write may still have left a line without its newline), the judge ingests them all,
    killed nodes' too, as the events each has journaled, in order; when every node's
    journal moved within the budget before the last progress of the run and no process
    ended by itself, its continuity rule passes; and when the rule reports a node as
    stopped, the samples show it: the node's journal last moved that much earlier than
    another's.  If the last write of one journal stopped inside a line, the ingestion
    fails as a whole. *)
Theorem run_evidence_judged (create_dir_all : string → result unit string) (work_dir : string)
    (seed count : N) (ports : BasePorts) (nodes : list NodeSpec)
    (running : list (NodeSpec * result (option string) string)) (life : NodeSpec → Life)
    (passes : list (N * FileSystem)) (started ended : N) (cli : Cli) (final fs : FileSystem)
    (path : string) :
  provision_nodes create_dir_all work_dir seed count ports = Ok nodes →
  (∀ r, r ∈ running → r.1 ∈ nodes) → NoDup (ns_name <$> running.*1) →
  (∀ node, node ∈ running.*1 →
     fs (ns_journal_path node) = Ok (tw_out (writer_run (rendered_node_id node) (life node)))) →
  let manifest := capture_run_manifest running (sampled nodes passes) nodes started ended cli final in
  manifest_typed manifest → fs path = Ok (to_string_pretty manifest) →
  let all := passes ++ [(ended, final)] in
  parse_run_manifest fs path = Ok manifest ∧
  (∀ node, node ∈ running.*1 → ¬ intact (rendered_node_id node) (life node) →
     is_ok (ingest_journals fs (ns_journal_path <$> running.*1)) = false) ∧
  ((∀ node, node ∈ running.*1 → intact (rendered_node_id node) (life node)) →
   ∃ journals, ingest_journals fs (ns_journal_path <$> running.*1) = Ok journals ∧
    (∀ node, node ∈ running.*1 →
       jl_event <$> of_node (rendered_node_id node) (js_lines journals) =
       journaled (rendered_node_id node) (life node)) ∧
    ∀ ledger budget,
      (running ≠ [] → (∀ r, r ∈ running → steady all running budget r ∧
          journaled (rendered_node_id r.1) (life r.1) ≠ []) →
       passed (to_verdict (check_node_continuity journals (Some manifest) ledger budget))) ∧
      (∀ findings name silent,
       check_node_continuity journals (Some manifest) ledger budget = Err findings →
       NodeJournalStopped name silent budget ∈ findings →
       ∃ r r' t t', r ∈ running ∧ r' ∈ running ∧ ns_name r.1 = name ∧
         last (moves 0 r.1 all) = Some t ∧ last (moves 0 r'.1 all) = Some t' ∧
         (budget < silent)%N ∧ (t + silent ≤ t')%N)).
Proof.
  intros Hprov Hsub Hnd Hj manifest Hty Hfs all.
  assert (NoDup (ns_name <$> nodes)) as Hndn.
  { pose proof (provision_from_spec _ _ _ _ _ _ Hprov) as ->. apply provisioned_names. }
  assert (∀ node, node ∈ running.*1 → plain (ns_name node) = true) as Hp.
  { intros node (r & -> & Hr)%list_elem_of_fmap. eapply provisioned_plain; eauto. }
  pose proof (roster_rows nodes running passes started ended cli final Hndn Hsub Hnd) as Hrows.
  fold manifest all in Hrows. split; [|split; [intros node Hin Hcut; by eapply torn_refused; eauto|intros Hint]].
  - unfold parse_run_manifest. rewrite Hfs. simpl. unfold manifest_from_json.
    assert (reject_duplicate_keys (to_string_pretty manifest) = Ok tt) as ->.
    { apply reject_duplicate_keys_ok. rewrite manifest_keys. split; [done|].
      apply (bool_decide_unpack _). vm_compute. exact I. }
    by rewrite manifest_decodes.
  - eexists. split; [by apply (journals_ingested fs running.*1 life); eauto|]. cbn [js_lines]. split_and!.
    + intros node Hin. rewrite lines_of_node by (done || intros ??; apply judge_lines_node).
      apply node_lines_events.
    + intros ledger budget. split.
      * intros Hne Hok. eapply steady_continuous; [exact Hrows|done|]. intros r Hr.
        destruct (Hok r Hr) as [Hs Hjn]. split; [done|].
        assert (r.1 ∈ running.*1) as Hr1 by by apply list_elem_of_fmap_2.
        apply (journaled_ingested running.*1 (λ node, judge_lines (ns_journal_path node) (rendered_node_id node)
          (journaled (rendered_node_id node) (life node)))); [by apply Hp|done| |intros ?; apply judge_lines_node].
        intros E. apply Hjn. by apply (f_equal (fmap jl_event)) in E; rewrite node_lines_events in E.
      * intros findings name silent. by eapply stopped_silent.
Qed.
End evidence.
