(* ===== verification/FleetSetup.v ===== *)
(** * The parts of a fleet run

    Models the drive-load driver ([crates/duckspout-fleet/src/load.rs]), the
    configuration a node is booted with ([topology.rs]), the supervision of a child
    ([process.rs]) and the steps of [run] before and after the faults ([main.rs],
    [backend_check.rs]), as programs over the calls of [Fault]. *)

From Stdlib Require Import Ascii.
From S2P Require Import Prelude RustStd Types Ports Otlp Evidence RunManifest Link Fleet Fault RunLog.

(** ** load.rs *)

(** [LoadPlan] *)
Record LoadPlan := {
  lp_batches : N;
  lp_batch_size : N;
  lp_interval : N;
  lp_tenant : option string;
}.

Definition SECOND_NANOS : N := 1000000000.

(** [run_base_nanos], on what the clock says: the nanoseconds since the epoch, a [u128],
    or that it is before it. *)
Definition base_nanos_of (since_epoch : option N) (batches : N) : N :=
  let now := match since_epoch with None => 0%N | Some nanos => N.min nanos u64_max end in
  let span_nanos := u64_mul (u64_sat_add batches 1) SECOND_NANOS in
  (now - span_nanos)%N.

Definition run_base_nanos (batches : N) : inj N :=
  do! since_epoch := UnixNanos in Done (base_nanos_of since_epoch batches).

(** The closure [str_attr] of [synthetic_request]. *)
Definition str_attr (k v : string) : KeyValue := MkKeyValue k (Some (MkAnyValue (Some (StringValue v)))) 0.

(** A record of [synthetic_request]. *)
Definition synthetic_record (node_label : string) (batch_nanos batch_index i : N) : LogRecord :=
  {| lr_time_unix_nano := u64_add batch_nanos i; lr_observed_time_unix_nano := 0; lr_severity_number := 9;
     lr_severity_text := "INFO";
     lr_body := Some (MkAnyValue (Some (StringValue
       ("duckspout-fleet smoke load: " +:+ node_label +:+ " batch " +:+ pretty batch_index
        +:+ " record " +:+ pretty i))));
     lr_attributes := [str_attr "duckspout.fleet.node" node_label]; lr_dropped_attributes_count := 0;
     lr_flags := 0; lr_trace_id := ""; lr_span_id := ""; lr_event_name := "" |}.

(** [synthetic_request] *)
Definition synthetic_request (node_label : string) (base_nanos batch_index count : N) :
    ExportLogsServiceRequest :=
  let batch_nanos := u64_sat_add base_nanos (u64_mul batch_index SECOND_NANOS) in
  let records := (λ i, synthetic_record node_label batch_nanos batch_index (N.of_nat i))
                   <$> seq 0 (N.to_nat count) in
  [{| rl_resource := Some [str_attr "service.name" "duckspout-fleet-smoke"];
      rl_scope_logs := [{| sl_scope := None; sl_log_records := records |}] |}].

(** Why a drive-load pass fails as a whole. *)
Inductive LoadError := ConnectFailed (error : string) | BadTenant (tenant : string).

(** Whether tonic takes a string for an ASCII metadata value. *)
Class AsciiMetadata := ascii_metadata : string → bool.

Section load.
Context `{AsciiMetadata}.

(** [tenanted_request]: the tenant that is sent along, if any. *)
Definition tenanted_request (tenant : option string) : result (option string) LoadError :=
  match tenant with
  | None => Ok None
  | Some tenant => if ascii_metadata tenant then Ok (Some tenant) else Err (BadTenant tenant)
  end.

(** What a batch counts for. *)
Definition count_batch (r : LoadResult) (batch_size : N) (answer : result bool string) : LoadResult :=
  match answer with
  | Ok true => {| lr_batches_attempted := lr_batches_attempted r;
                  lr_batches_accepted := lr_batches_accepted r + 1;
                  lr_records_accepted := u64_add (lr_records_accepted r) batch_size |}
  | _ => r
  end.

Definition attempted (r : LoadResult) : LoadResult :=
  {| lr_batches_attempted := lr_batches_attempted r + 1; lr_batches_accepted := lr_batches_accepted r;
     lr_records_accepted := lr_records_accepted r |}.

(** The loop of [drive_load], with so many batches to go. *)
Fixpoint send_batches (togo : nat) (node_label : string) (plan : LoadPlan) (base_nanos batch_index : N)
    (r : LoadResult) : inj (result LoadResult LoadError) :=
  match togo with
  | O => Done (Ok r)
  | S togo =>
      let r := attempted r in
      let payload := synthetic_request node_label base_nanos batch_index (lp_batch_size plan) in
      match tenanted_request (lp_tenant plan) with
      | Err e => Done (Err e)
      | Ok tenant =>
          do! answer := OtlpExport tenant payload in
          let r := count_batch r (lp_batch_size plan) answer in
          if (batch_index + 1 <? lp_batches plan)%N then
            do! _ := Sleep (lp_interval plan) in
            send_batches togo node_label plan base_nanos (batch_index + 1) r
          else send_batches togo node_label plan base_nanos (batch_index + 1) r
      end
  end.

Definition load_default : LoadResult :=
  {| lr_batches_attempted := 0; lr_batches_accepted := 0; lr_records_accepted := 0 |}.

(** [drive_load] *)
Definition drive_load (otlp_addr node_label : string) (plan : LoadPlan) :
    inj (result LoadResult LoadError) :=
  do! connected := OtlpConnect otlp_addr in
  match connected with
  | Err e => Done (Err (ConnectFailed e))
  | Ok _ =>
      let! base_nanos := run_base_nanos (lp_batches plan) in
      send_batches (N.to_nat (lp_batches plan)) node_label plan base_nanos 0 load_default
  end.

(** The future [drive_load_all] makes of a node. *)
Definition drive_node (cli : Cli) (links : FleetLinks) (node : NodeSpec) : inj LoadResult :=
  let plan := {| lp_batches := cli_load_batches cli; lp_batch_size := cli_load_batch_size cli;
                 lp_interval := cli_load_interval_ms cli; lp_tenant := cli_tenant cli |} in
  let! driven := drive_load (load_target_addr node links) (ns_name node) plan in
  Done (match driven with Ok r => r | Err _ => load_default end).
End load.

(** ** topology.rs: the configuration of a node *)

(** [LakeStorage] *)
Inductive LakeStorage :=
| LocalLake (dir : string)
| S3Lake (endpoint bucket prefix region access_key_id secret_access_key_file : string).

(** [FleetPlan] *)
Record FleetPlan := {
  fp_postgres_dsn : string;
  fp_postgres_password_file : string;
  fp_lake : LakeStorage;
  fp_rf : N;
  fp_hot_window : string;
  fp_allowed_lateness : string;
}.

Definition quote_char : ascii := "034".
Definition backslash : ascii := "\".

(** A digit of [\u{..}]. *)
Definition hex_digit (n : N) : ascii :=
  if (n <? 10)%N then ascii_of_N (48 + n) else ascii_of_N (87 + n).

(** How [Debug] writes a byte of a string: a control character as its escape, and any
    character beyond ASCII as it is. *)
Definition debug_char (c : ascii) : string :=
  let n := N_of_ascii c in
  if Ascii.eqb c quote_char || Ascii.eqb c backslash then String backslash (String c "")
  else if (n =? 0)%N then String backslash "0"
  else if (n =? 9)%N then String backslash "t"
  else if (n =? 10)%N then String backslash "n"
  else if (n =? 13)%N then String backslash "r"
  else if ((n <? 32) || (n =? 127))%N then
    String backslash ("u{" +:+ (if (n <? 16)%N then "" else String (hex_digit (n / 16)) "")
                      +:+ String (hex_digit (n mod 16)) "}")
  else String c "".

Fixpoint debug_chars (s : string) : string :=
  match s with EmptyString => "" | String c s => debug_char c +:+ debug_chars s end.

(** [{:?}] of a string or a path *)
Definition debug_str (s : string) : string := String quote_char (debug_chars s +:+ String quote_char "").

(** A plain string between quotes. *)
Definition quoted (s : string) : string := String quote_char (s +:+ String quote_char "").

(** The lines [render_node_config] writes. *)
Definition config_lines (plan : FleetPlan) (node : NodeSpec) (all_nodes : list NodeSpec)
    (overrides : NodeOverrides) : list string :=
  let peers := quoted <$> seed_peers node all_nodes in
  let tls_placeholder := path_join (ns_data_dir node) "tls-unused.pem" in
  ["[node]";
   "data_dir = " +:+ debug_str (ns_data_dir node);
   "otlp_listen = " +:+ pretty (ns_otlp_port node);
   "flight_listen = " +:+ pretty (ns_flight_port node);
   "peer_listen = " +:+ pretty (ns_peer_port node);
   "";
   "[cluster]";
   "rf = " +:+ pretty (fp_rf plan);
   "seed_peers = [" +:+ str_join ", " peers +:+ "]";
   "";
   "[catalog]";
   "dsn = " +:+ debug_str (default (fp_postgres_dsn plan) (no_postgres_dsn overrides));
   "password_file = " +:+ debug_str (fp_postgres_password_file plan);
   "";
   "[tls]";
   "mode = " +:+ quoted "disabled";
   "cert = " +:+ debug_str tls_placeholder;
   "key = " +:+ debug_str tls_placeholder;
   "ca = " +:+ debug_str tls_placeholder;
   "";
   "[hot]";
   "window = " +:+ debug_str (default (fp_hot_window plan) (no_hot_window overrides));
   "";
   "[drain]";
   "allowed_lateness = " +:+ debug_str (fp_allowed_lateness plan);
   "";
   "[lake]"] ++
  match fp_lake plan with
  | LocalLake dir => ["uri = " +:+ debug_str dir]
  | S3Lake endpoint bucket prefix region access_key_id secret_access_key_file =>
      ["uri = " +:+ debug_str ("s3://" +:+ bucket +:+ "/" +:+ prefix);
       "s3_endpoint = " +:+ debug_str (default endpoint (no_s3_endpoint overrides));
       "s3_region = " +:+ debug_str region;
       "s3_access_key_id = " +:+ debug_str access_key_id;
       "s3_secret_access_key_file = " +:+ debug_str secret_access_key_file]
  end.

(** [render_node_config] *)
Definition render_node_config (plan : FleetPlan) (node : NodeSpec) (all_nodes : list NodeSpec)
    (overrides : NodeOverrides) : string :=
  text_of (config_lines plan node all_nodes overrides).

(** ** process.rs *)

(** The loop of [shutdown] *)
Fixpoint poll_shutdown (fuel : nat) (node : NodeSpec) (deadline : N) : inj unit :=
  match fuel with
  | O => Stuck
  | S fuel =>
      do! waited := TryWait (ns_name node) in
      match waited with
      | Ok (Some _) | Err _ => Done tt
      | Ok None =>
          do! now := Now in
          if (deadline <=? now)%N then
            do! _ := StartKill (ns_name node) in
            do! _ := WaitChild (ns_name node) in
            Done tt
          else do! _ := Sleep 200 in poll_shutdown fuel node deadline
      end
  end.

(** [shutdown] *)
Definition shutdown (fuel : nat) (node : NodeSpec) (grace : N) : inj unit :=
  do! pid := Pid (ns_name node) in
  let! _ := match pid with
            | Some pid => do! _ := Kill "-TERM" pid in Done tt
            | None => Done tt
            end in
  do! now := Now in
  poll_shutdown fuel node (now + grace).

(** ** main.rs and backend_check.rs *)

(** Why [run] fails. *)
Inductive RunError :=
| DaemonBinMissing (path : string)
| DaemonBinNotFound
| WorkDirFailed (error : string)
| BackendUnreachable (label host : string) (port : N) (source : option string)
| BadBackend (error : AddressError)
| NotWritten (path error : string)
| NoNodes
| ForcesNothing
| ProvisionFailed (error : string)
| LinkFailed (error : LinkError)
| OverridesFailed (error : AddressError)
| BootFailed (error : FaultError)
| LogFailed (error : string)
| FaultsFailed (error : FaultError)
| NotAllAccepted.

Abbreviation run_attempt A := (inj (result A RunError)) (only parsing).

(** [Path::parent], of a path that does not end in a separator *)
Definition path_parent (path : string) : option string :=
  match rsplit_once "/" path with
  | Some (_, "") => None
  | Some ("", _) => Some "/"
  | Some (dir, _) => Some dir
  | None => if is_empty_string path then None else Some ""
  end.

Definition DAEMON_EXE : string := "duckspout-daemon".

(** The search of [resolve_daemon_bin] on [PATH] *)
Fixpoint search_dirs (dirs : list string) : run_attempt string :=
  match dirs with
  | [] => Done (Err DaemonBinNotFound)
  | dir :: dirs =>
      let candidate := path_join dir DAEMON_EXE in
      do! is_file := IsFile candidate in
      if (is_file : bool) then Done (Ok candidate) else search_dirs dirs
  end.

Definition search_path : run_attempt string :=
  do! path_var := SearchPath in search_dirs (default [] path_var).

(** [resolve_daemon_bin] *)
Definition resolve_daemon_bin (explicit : option string) : run_attempt string :=
  match explicit with
  | Some path =>
      do! is_file := IsFile path in
      Done (if (is_file : bool) then Ok path else Err (DaemonBinMissing path))
  | None =>
      do! current_exe := CurrentExe in
      match current_exe with
      | Ok exe =>
          match path_parent exe with
          | Some dir =>
              let sibling := path_join dir DAEMON_EXE in
              do! is_file := IsFile sibling in
              if (is_file : bool) then Done (Ok sibling) else search_path
          | None => search_path
          end
      | Err _ => search_path
      end
  end.

(** [check_reachable] *)
Definition check_reachable (label host : string) (port timeout : N) : run_attempt unit :=
  do! attempt := TcpConnect host port timeout in
  Done (match attempt with
        | Some (Ok _) => Ok tt
        | Some (Err source) => Err (BackendUnreachable label host port (Some source))
        | None => Err (BackendUnreachable label host port None)
        end).

(** [check_backends] *)
Definition check_backends (cli : Cli) : run_attempt unit :=
  let timeout := secs (cli_backend_check_timeout_secs cli) in
  match postgres_host_port (cli_postgres_dsn cli) with
  | Err e => Done (Err (BadBackend e))
  | Ok (pg_host, pg_port) =>
      let!? _ := check_reachable "Postgres" pg_host pg_port timeout in
      if cli_local_lake cli then Done (Ok tt)
      else
        match s3_host_port (cli_s3_endpoint cli) with
        | Err e => Done (Err (BadBackend e))
        | Ok (s3_host, s3_port) => check_reachable "MinIO/S3" s3_host s3_port timeout
        end
  end.

(** [std::fs::write], with its error in context *)
Definition write_file (path contents : string) : run_attempt unit :=
  do! written := WriteFile path contents in
  Done (match written with Ok _ => Ok tt | Err e => Err (NotWritten path e) end).

(** [build_plan] *)
Definition build_plan (cli : Cli) (work_dir : string) : run_attempt FleetPlan :=
  let postgres_password_file := path_join work_dir "postgres-password" in
  let!? _ := write_file postgres_password_file (cli_postgres_password cli) in
  let!? lake :=
    if cli_local_lake cli then Done (Ok (LocalLake (path_join work_dir "lake")))
    else
      let secret_file := path_join work_dir "s3-secret" in
      let!? _ := write_file secret_file (cli_s3_secret_access_key cli) in
      Done (Ok (S3Lake (cli_s3_endpoint cli) (cli_s3_bucket cli) (cli_s3_prefix cli) (cli_s3_region cli)
                  (cli_s3_access_key_id cli) secret_file)) in
  Done (Ok {| fp_postgres_dsn := cli_postgres_dsn cli; fp_postgres_password_file := postgres_password_file;
              fp_lake := lake; fp_rf := cli_rf cli; fp_hot_window := cli_hot_window cli;
              fp_allowed_lateness := cli_allowed_lateness cli |}).

(** The loop of [run] that writes the configurations *)
Fixpoint write_configs (cli : Cli) (plan : FleetPlan) (all_nodes : list NodeSpec) (links : FleetLinks)
    (nodes : list NodeSpec) : run_attempt unit :=
  match nodes with
  | [] => Done (Ok tt)
  | node :: nodes =>
      match node_overrides cli (ns_index node) (links !! ns_index node) with
      | Err e => Done (Err (OverridesFailed e))
      | Ok overrides =>
          let!? _ := write_file (ns_config_path node) (render_node_config plan node all_nodes overrides) in
          write_configs cli plan all_nodes links nodes
      end
  end.

(** The stall [boot_fleet] boots a node with *)
Definition boot_stall (cli : Cli) (node : NodeSpec) : option N :=
  if cli_fault_kill_mid_drain cli && bool_decide (cli_fault_kill_node cli = Some (ns_index node))
  then Some (cli_fault_kill_drain_stall_ms cli) else None.

(** The two loops of [boot_fleet]; the first answers with the nodes that were spawned. *)
Fixpoint spawn_nodes (cli : Cli) (running nodes : list NodeSpec) : inj (list NodeSpec * result unit FaultError) :=
  match nodes with
  | [] => Done (running, Ok tt)
  | node :: nodes =>
      do! spawned := Spawn node (boot_stall cli node) in
      match spawned with
      | Err e => Done (running, Err (SpawnFailed e))
      | Ok _ => spawn_nodes cli (running ++ [node]) nodes
      end
  end.

Fixpoint await_nodes (fuel : nat) (timeout : N) (running : list NodeSpec) : attempt unit :=
  match running with
  | [] => Done (Ok tt)
  | node :: running =>
      let!? _ := wait_until_ready fuel node timeout in await_nodes fuel timeout running
  end.

(** [boot_fleet]: the nodes it spawned, and its result *)
Definition boot_fleet (fuel : nat) (cli : Cli) (nodes : list NodeSpec) :
    inj (list NodeSpec * result unit FaultError) :=
  let! spawned := spawn_nodes cli [] nodes in
  match spawned.2 with
  | Err e => Done (spawned.1, Err e)
  | Ok _ =>
      let! ready := await_nodes fuel (secs (cli_boot_timeout_secs cli)) spawned.1 in
      Done (spawned.1, ready)
  end.

(** The nodes of a status with a watermark *)
Definition has_watermarks (fetched : result Json string) : bool :=
  match fetched with
  | Ok (JObject fields) =>
      match fields !! "watermarks" with Some (JArray (_ :: _)) => true | _ => false end
  | _ => false
  end.

Fixpoint any_watermark (nodes : list NodeSpec) : inj bool :=
  match nodes with
  | [] => Done false
  | node :: nodes =>
      do! fetched := FetchStatus (ns_status_port node) None in
      if has_watermarks fetched then Done true else any_watermark nodes
  end.

(** [wait_for_any_watermark] *)
Definition wait_for_any_watermark (fuel : nat) (nodes : list NodeSpec) (timeout : N) : inj bool :=
  do! now := Now in poll_until fuel (any_watermark nodes) (now + timeout) 500.

(** [spawn_loadgen_best_effort] *)
Definition spawn_loadgen_best_effort (loadgen_bin : string) (target_node : NodeSpec) : inj unit :=
  do! _ := Loadgen loadgen_bin ("http://127.0.0.1:" +:+ pretty (ns_otlp_port target_node)) in Done tt.

(** The reads of a pass of [JournalProgress::sample] *)
Fixpoint read_journals (nodes : list NodeSpec) : inj (list (string * result string string)) :=
  match nodes with
  | [] => Done []
  | node :: nodes =>
      do! read := ReadFile (ns_journal_path node) in
      let! rest := read_journals nodes in
      Done ((ns_journal_path node, read) :: rest)
  end.

(** The files as a pass has read them. *)
Definition files_read (reads : list (string * result string string)) : FileSystem :=
  λ path, match list_find (λ r, r.1 = path) reads with Some (_, r) => r.2 | None => Err "" end.

(** [has_exited] of every running node, as [capture_run_manifest] asks *)
Fixpoint try_waits (running : list NodeSpec) : inj (list (NodeSpec * result (option string) string)) :=
  match running with
  | [] => Done []
  | node :: running =>
      do! waited := TryWait (ns_name node) in
      let! rest := try_waits running in
      Done ((node, waited) :: rest)
  end.

(** [capture_run_manifest], with what it asks of the clock, the files and the nodes *)
Definition capture_manifest (running : list NodeSpec) (progress : JournalProgress) (nodes : list NodeSpec)
    (started_at_ms : N) (cli : Cli) : inj RunManifest :=
  do! ended_at_ms := UnixMs in
  let! reads := read_journals nodes in
  let! waited := try_waits running in
  Done (capture_run_manifest waited progress nodes started_at_ms ended_at_ms cli (files_read reads)).

(** ** The load's event times *)

(** The event time of a record of the load. *)
Definition load_time (base_nanos batch_index i : N) : N := (base_nanos + batch_index * SECOND_NANOS + i)%N.

(** The load of a run that starts at [now]: [batches] fit before it. *)
Record load_fits (now batches size : N) : Prop := {
  lf_now : (now ≤ u64_max)%N;
  lf_batches : (batches < 2 ^ 32)%N;
  lf_span : ((batches + 1) * SECOND_NANOS ≤ now)%N;
  lf_size : (size ≤ SECOND_NANOS)%N;
}.

Lemma base_nanos_fits now batches size : load_fits now batches size →
  base_nanos_of (Some now) batches = (now - (batches + 1) * SECOND_NANOS)%N.
Proof.
  intros [Hnow Hb Hs _]. unfold base_nanos_of, u64_sat_add, u64_mul. unfold u64_max in *.
  rewrite (N.min_l now) by lia. rewrite (N.min_l (batches + 1)) by lia. by rewrite N.mod_small by lia.
Qed.

(** The records of a load, in order: none wraps around. *)
Lemma synthetic_times label now batches size batch_index : load_fits now batches size → (batch_index < batches)%N →
  (mjoin ((λ rl, mjoin (sl_log_records <$> rl_scope_logs rl)) <$>
     synthetic_request label (base_nanos_of (Some now) batches) batch_index size)) =
  (λ i, synthetic_record label (load_time (base_nanos_of (Some now) batches) batch_index 0) batch_index (N.of_nat i))
    <$> seq 0 (N.to_nat size) ∧
  ∀ i, (i < size)%N →
    u64_add (load_time (base_nanos_of (Some now) batches) batch_index 0) i =
    load_time (base_nanos_of (Some now) batches) batch_index i.
Proof.
  intros Hfits Hi. pose proof (base_nanos_fits _ _ _ Hfits) as Hb. destruct Hfits as [Hnow Hbs Hspan Hsize].
  unfold load_time, SECOND_NANOS, u64_max in *. split.
  - unfold synthetic_request. simpl. rewrite !(right_id_L [] (++)). f_equal.
    unfold u64_sat_add, u64_mul, SECOND_NANOS, u64_max. rewrite N.mod_small by lia. rewrite N.min_l by lia.
    by rewrite N.add_0_r.
  - intros i Hlt. unfold u64_add, u64_max. rewrite N.mod_small by lia. lia.
Qed.

(** The event times lie in the past, and no two records of a run share one. *)
Lemma load_times_apart now batches size k i : load_fits now batches size → (k < batches)%N → (i < size)%N →
  (load_time (base_nanos_of (Some now) batches) k i < now)%N ∧
  ∀ k' i', (i' < size)%N →
    load_time (base_nanos_of (Some now) batches) k i = load_time (base_nanos_of (Some now) batches) k' i' →
    k' = k ∧ i' = i.
Proof.
  intros Hfits Hk Hi. rewrite (base_nanos_fits _ _ _ Hfits). destruct Hfits as [Hnow Hbs Hspan Hsize].
  unfold load_time, SECOND_NANOS in *. split; [nia|]. intros k' i' Hi' E. assert (k' = k) as -> by nia. lia.
Qed.

Section decoded.
Context `{OtlpLibs}.

(** What the daemon's adapter makes of a batch: a row per record, in order, stamped with
    its event time, with nothing left out. *)
Lemma smoke_rows label now batches size batch_index : load_fits now batches size → (batch_index < batches)%N →
  row_ts <$> request_rows (synthetic_request label (base_nanos_of (Some now) batches) batch_index size) =
    (λ i, Z.of_N (load_time (base_nanos_of (Some now) batches) batch_index (N.of_nat i) / 1000)) <$> seq 0 (N.to_nat size) ∧
  request_refs (synthetic_request label (base_nanos_of (Some now) batches) batch_index size) = 0%N.
Proof.
  intros Hfits Hk. destruct (synthetic_times label _ _ _ _ Hfits Hk) as [Hrec Htime].
  revert Hrec. unfold synthetic_request. cbn [fmap list_fmap rl_scope_logs sl_log_records mjoin list_join].
  rewrite !(right_id_L [] (++)). intros Hrec. split.
  - unfold request_rows, resource_rows, scope_rows. cbn [mbind list_bind rl_scope_logs sl_log_records].
    rewrite !(right_id_L [] (++)), Hrec, <-!list_fmap_compose. apply list_fmap_ext. intros j i [-> Hj]%lookup_seq.
    cbn. unfold event_nanos. cbn. rewrite Htime by lia. case_match eqn:E; [|done].
    apply N.eqb_eq in E. by rewrite E.
  - unfold request_refs, resource_refs, scope_refs. cbn. rewrite Hrec, <-list_fmap_compose.
    match goal with |- context [sum_N (?f <$> ?l)] => assert (∀ l', sum_N (f <$> l') = 0%N) as -> end; [|done].
    intros l. induction l as [|i l IH]; [done|]. cbn [fmap list_fmap]. unfold sum_N in *. cbn [foldr]. by rewrite IH.
Qed.
End decoded.

(** ** The lines of a configuration *)

Definition one_line (s : string) : Prop := free_of newline s = true ∧ free_of carriage_return s = true.

Lemma one_line_app s1 s2 : one_line s1 → one_line s2 → one_line (s1 +:+ s2).
Proof. unfold one_line. rewrite !free_of_app. intros [-> ->] [-> ->]. done. Qed.

Definition all_bytes : list ascii := ascii_of_N ∘ N.of_nat <$> seq 0 256.

Lemma all_bytes_all c : c ∈ all_bytes.
Proof.
  apply list_elem_of_fmap. exists (N.to_nat (N_of_ascii c)). unfold compose. rewrite N2Nat.id, ascii_N_embedding.
  split; [done|]. apply elem_of_seq. pose proof (N_ascii_bounded c). lia.
Qed.

Lemma on_all_bytes (f : ascii → bool) c : forallb f all_bytes = true → f c = true.
Proof. rewrite forallb_forall. intros Hf. apply Hf, list_elem_of_In, all_bytes_all. Qed.

Lemma debug_char_line c : one_line (debug_char c).
Proof.
  apply andb_prop.
  apply (on_all_bytes (λ c, free_of newline (debug_char c) && free_of carriage_return (debug_char c)) c).
  vm_compute. reflexivity.
Qed.

Lemma debug_str_line s : one_line (debug_str s).
Proof.
  unfold debug_str. change (String quote_char ?x) with (String quote_char "" +:+ x).
  apply one_line_app; [done|]. apply one_line_app; [|done].
  induction s as [|c s IH]; [done|]. cbn [debug_chars]. apply one_line_app; [apply debug_char_line|done].
Qed.

(** What [Debug] writes for different characters differs before either ends. *)
Lemma debug_char_prefix c d rest : debug_char c = debug_char d +:+ rest → c = d.
Proof.
  assert (Ascii.eqb c d || negb (starts_with (debug_char d) (debug_char c)) = true) as Hcd.
  { apply (on_all_bytes (λ d, Ascii.eqb c d || negb (starts_with (debug_char d) (debug_char c))) d).
    apply (on_all_bytes (λ c, forallb (λ d, Ascii.eqb c d || negb (starts_with (debug_char d) (debug_char c))) all_bytes) c).
    vm_compute. reflexivity. }
  intros E. apply orb_prop in Hcd as [Hc|Hc]; [by apply Ascii.eqb_eq|]. exfalso.
  unfold starts_with in Hc. by rewrite E, strip_prefix_app in Hc.
Qed.

Lemma str_app_split (a b x y : string) : a +:+ x = b +:+ y →
  (∃ z, a = b +:+ z ∧ y = z +:+ x) ∨ ∃ z, b = a +:+ z ∧ x = z +:+ y.
Proof.
  revert b. induction a as [|c a IH]; intros b E; [right; by exists b|]. destruct b as [|d b]; [left; by exists (String c a)|].
  injection E as <- E. destruct (IH _ E) as [(z & -> & ->)|(z & -> & ->)]; [left|right]; by exists z.
Qed.

Lemma debug_char_some c : debug_char c ≠ "".
Proof.
  pose proof (on_all_bytes (λ c, negb (is_empty_string (debug_char c))) c ltac:(vm_compute; reflexivity)) as Hc.
  intros E. cbv beta in Hc. by rewrite E in Hc.
Qed.

(** Different values are written differently. *)
Lemma debug_chars_inj s1 s2 : debug_chars s1 = debug_chars s2 → s1 = s2.
Proof.
  revert s2. induction s1 as [|c s1 IH]; intros [|d s2]; cbn [debug_chars]; [done|..].
  - intros E. exfalso. by destruct (debug_char d) eqn:Ed; [apply debug_char_some in Ed|].
  - intros E. exfalso. by destruct (debug_char c) eqn:Ec; [apply debug_char_some in Ec|].
  - intros E. assert (c = d) as ->.
    { destruct (str_app_split _ _ _ _ E) as [(z & Hz & _)|(z & Hz & _)]; [by eapply debug_char_prefix|].
      symmetry. by eapply debug_char_prefix. }
    f_equal. apply IH. induction (debug_char d) as [|x l IHl]; [done|]. injection E as E. auto.
Qed.

Lemma digits_line s : all_digits s = true → one_line s.
Proof.
  induction s as [|c s IH]; [done|]. cbn. intros [Hc Hs]%andb_prop. destruct (IH Hs) as [Hn Hr].
  unfold one_line. cbn. rewrite Hn, Hr. split; rewrite andb_true_r; (case_bool_decide as E; [by subst c|done]).
Qed.

Lemma pretty_line (n : N) : one_line (pretty n).
Proof. apply digits_line, pretty_digits. Qed.

Lemma quoted_line s : one_line s → one_line (quoted s).
Proof.
  intros Hs. unfold quoted. change (String quote_char ?x) with (String quote_char "" +:+ x).
  apply one_line_app; [done|]. by apply one_line_app.
Qed.

Lemma join_line sep l : one_line sep → Forall one_line l → one_line (str_join sep l).
Proof.
  intros Hsep. induction 1 as [|s l Hs Hl IH]; [done|]. cbn [str_join]. destruct l; [done|].
  apply one_line_app; [done|]. by apply one_line_app.
Qed.

(** The loader sees a configuration line by line: whatever the addresses, paths and
    secrets hold, no value reaches past the end of its line. *)
Lemma node_config_lines plan node all_nodes overrides :
  (∀ peer, peer ∈ all_nodes → one_line (ns_name peer)) →
  str_lines (render_node_config plan node all_nodes overrides) = config_lines plan node all_nodes overrides.
Proof.
  intros Hn. apply str_lines_text. change (Forall one_line (config_lines plan node all_nodes overrides)).
  assert (one_line (str_join ", " (quoted <$> seed_peers node all_nodes))) as Hpeers.
  { apply join_line; [done|]. unfold seed_peers. rewrite <-list_fmap_compose. apply Forall_fmap, Forall_forall.
    intros peer [_ Hin]%list_elem_of_filter. apply quoted_line, one_line_app; [by apply Hn|].
    apply one_line_app; [done|apply pretty_line]. }
  unfold config_lines. apply Forall_app. split.
  - repeat apply Forall_cons_2; [..|constructor]; try done;
      (apply one_line_app; [done|]; first [apply debug_str_line|apply pretty_line|by apply one_line_app|done]).
  - destruct (fp_lake plan); repeat (apply Forall_cons_2; [apply one_line_app; [done|apply debug_str_line]|]); constructor.
Qed.
