(* ===== verification/FleetRun.v ===== *)
(** * A fleet run, from its command line to its exit code

    Models [run] and [main] of [crates/duckspout-fleet/src/main.rs]: the fleet is set up
    and booted, the armed faults, the load and the watch for a drained window run side
    by side, the manifest is captured, the nodes are shut down side by side, and the
    exit code is what the three have shown. *)

From Stdlib Require Import Ascii.
From S2P Require Import Prelude RustStd Types Ports Otlp Evidence RunManifest Link Fleet Fault.
From S2P Require Import FaultProps FaultEnds RunLog FleetSetup.

(** ** Up to the boot of the fleet *)

(** What [run] has set up when the faults begin. *)
Record Booted := {
  bo_started_at_ms : N;
  bo_work_dir : string;
  bo_nodes : list NodeSpec;
  bo_booted : list NodeSpec;
  bo_joiner : option NodeSpec;
  bo_links : FleetLinks;
}.

(** How the first part of [run] ends: with an error before a node was spawned, with an
    error of the boot that leaves some nodes to shut down, with an error after the boot
    that returns at once, or ready for the faults. *)
Inductive Start :=
| Refused (error : RunError)
| Aborted (running : list NodeSpec) (error : RunError)
| Returned (running : list NodeSpec) (error : RunError)
| Underway (booted : Booted).

Definition EXIT_OK : Z := 0.
Definition EXIT_HARD_FAILURE : Z := 1.
Definition EXIT_DRAIN_UNCONFIRMED : Z := 2.

Definition base_ports (cli : Cli) : BasePorts :=
  {| bp_otlp := cli_otlp_base_port cli; bp_flight := cli_flight_base_port cli;
     bp_peer := cli_peer_base_port cli; bp_status := cli_status_base_port cli |}.

(** What [run] is given by its libraries. *)
Class RunLibs := {
  #[global] run_fleet_serde :: FleetSerde;
  #[global] run_manifest_serde :: ManifestSerde;
  #[global] run_ascii_metadata :: AsciiMetadata;
}.

Section run.
Context `{RunLibs}.
(** The operating system's answers for a directory and for a listener. *)
Context (create_dir_all : string → result unit string) (listen : string → result N string).
Context (fuel : nat) (cli : Cli).

(** [run] up to [split_at], which panics when the indices have wrapped around *)
Definition set_up : run_attempt Booted :=
  do! started_at_ms := UnixMs in
  let!? _ := resolve_daemon_bin (cli_daemon_bin cli) in
  let! work_dir :=
    match cli_work_dir cli with
    | Some dir => Done dir
    | None => do! temp := TempDir in Done (path_join temp ("duckspout-fleet-" +:+ pretty (cli_seed cli)))
    end in
  do! created := CreateDirAll work_dir in
  match created with
  | Err e => Done (Err (WorkDirFailed e))
  | Ok _ =>
      let!? _ := if cli_skip_backend_check cli then Done (Ok tt) else check_backends cli in
      let!? plan := build_plan cli work_dir in
      if (cli_nodes cli =? 0)%N then Done (Err NoNodes)
      else if bool_decide (is_Some (cli_fault_cache_churn_node cli)) &&
              negb (churn_hot_window_forces_something cli)
      then Done (Err ForcesNothing)
      else
        match provision_nodes create_dir_all work_dir (cli_seed cli)
                (u16_add (cli_nodes cli) (if cli_fault_churn_join cli then 1 else 0))
                (base_ports cli) with
        | Err e => Done (Err (ProvisionFailed e))
        | Ok nodes =>
            match build_fault_links listen cli nodes with
            | Err e => Done (Err (LinkFailed e))
            | Ok links =>
                let!? _ := write_configs cli plan nodes links nodes in
                if (length nodes <? N.to_nat (cli_nodes cli))%nat then Panic
                else Done (Ok {| bo_started_at_ms := started_at_ms; bo_work_dir := work_dir;
                                 bo_nodes := nodes; bo_booted := take (N.to_nat (cli_nodes cli)) nodes;
                                 bo_joiner := nodes !! N.to_nat (cli_nodes cli); bo_links := links |})
            end
        end
  end.

(** [run] up to the [join!] *)
Definition start : inj Start :=
  let! ready := set_up in
  match ready with
  | Err e => Done (Refused e)
  | Ok b =>
      let! boot := boot_fleet fuel cli (bo_booted b) in
      match boot.2 with
      | Err e => Done (Aborted boot.1 (BootFailed e))
      | Ok _ =>
          let! _ := match cli_loadgen_bin cli, bo_nodes b with
                    | Some bin, node :: _ => spawn_loadgen_best_effort bin node
                    | _, _ => Done tt
                    end in
          do! log := CreateLog (path_join (bo_work_dir b) "faults.ndjson") in
          Done (match log with Ok _ => Underway b | Err e => Returned boot.1 (LogFailed e) end)
      end
  end.

(** ** From the manifest on *)

(** What [run] returns once every node is down *)
Definition run_result (loads : list LoadResult) (drain_confirmed : bool) : result Z RunError :=
  if negb (all_batches_accepted cli loads) then Err NotAllAccepted
  else if negb drain_confirmed then Ok EXIT_DRAIN_UNCONFIRMED
  else Ok EXIT_OK.

(** [write_run_manifest], whose failure is only logged, and the return *)
Definition finish (work_dir : string) (manifest : RunManifest) (loads : list LoadResult)
    (drain_confirmed : bool) : run_attempt Z :=
  do! _ := WriteFile (path_join work_dir "run.json") (to_string_pretty manifest) in
  Done (run_result loads drain_confirmed).

(** [shutdown_all] *)
Definition shutdown_all (running : list NodeSpec) : list (Thread unit) :=
  (λ node, Build_Thread [] (shutdown fuel node (secs (cli_shutdown_grace_secs cli)))) <$> running.

(** ** The run *)

(** How the process ends: [run] returns, or a panic unwinds it. *)
Inductive Ending :=
| RunReturned (r : result Z RunError)
| RunPanicked.

Inductive Phase :=
| Starting (t : Thread Start)
| Injecting (b : Booted) (faults : FaultRun) (load : list (Thread LoadResult)) (settle : Thread bool)
    (progress : JournalProgress)
| Capturing (b : Booted) (running : list NodeSpec) (loads : list LoadResult) (drain_confirmed : bool)
    (t : Thread RunManifest)
| Stopping (running : list NodeSpec) (nodes : list (Thread unit)) (rest : run_attempt Z)
| Closing (running : list NodeSpec) (t : Thread (result Z RunError))
| Exited (ending : Ending).

(** A run: what its finished parts have done, the newest first and the futures of a
    part one after the other, and where it is. *)
Record Run := { ru_past : Hist; ru_phase : Phase }.

Definition run : Run := {| ru_past := []; ru_phase := Starting (Build_Thread [] start) |}.

(** A child that is dropped is killed, by [kill_on_drop]. *)
Definition drops (running : list NodeSpec) : Hist :=
  (λ node, existT (DropNode (ns_name node)) tt) <$> running.

(** The nodes a history has spawned. *)
Definition spawned_by (e : event) : option NodeSpec :=
  let 'existT c a := e in
  match c return fanswer c → option NodeSpec with
  | Spawn node _ => λ a, if is_ok a then Some node else None
  | _ => λ _, None
  end a.

Definition spawned (h : list event) : list NodeSpec := omap spawned_by h.

(** A panic unwinds the futures of [run] and drops every child they have spawned (for
    one that was already dropped or reaped, a second drop changes nothing). *)
Definition unwound (h : Hist) : Run :=
  {| ru_past := drops (spawned h) ++ h; ru_phase := Exited RunPanicked |}.

Definition panicked {A} (t : Thread A) : Prop := th_prog t = Panic.

(** One of the faults has panicked: a future, or the write of a line of the fault log,
    whose error is not handled. *)
Definition faults_panic (faults : FaultRun) : Prop :=
  panicked (fr_process faults) ∨ panicked (fr_churn faults) ∨ Exists panicked (fr_network faults) ∨
  is_Some (wd_torn (fr_world faults)).

(** A call, answered by the operating system, the nodes and the clock. *)
Inductive free_step {A} : Thread A → Thread A → Prop :=
| FreeCall h c k a : free_step (Build_Thread h (Call c k)) (Build_Thread (existT c a :: h) (k a)).

(** What the futures of [join!] have done; only the process faults handle children. *)
Definition joined_history (faults : FaultRun) (load : list (Thread LoadResult)) (settle : Thread bool) : Hist :=
  th_history settle ++ mjoin (th_history <$> load) ++ th_history (fr_churn faults)
  ++ mjoin (th_history <$> fr_network faults) ++ th_history (fr_process faults).

(** The node that joined although the faults failed: its handle is dropped with the
    result of the process faults. *)
Definition orphans (faults : FaultRun) : list NodeSpec :=
  match outcome_of (fr_process faults) with Some (Ok joined) => joined | _ => [] end.

Inductive phase_step : Run → Run → Prop :=
| StepStart past t t' :
    free_step t t' →
    phase_step {| ru_past := past; ru_phase := Starting t |} {| ru_past := past; ru_phase := Starting t' |}
| StartRefused past t e :
    outcome_of t = Some (Refused e) →
    phase_step {| ru_past := past; ru_phase := Starting t |}
      {| ru_past := th_history t ++ past; ru_phase := Exited (RunReturned (Err e)) |}
| StartPanics past t :
    panicked t →
    phase_step {| ru_past := past; ru_phase := Starting t |} (unwound (th_history t ++ past))
| StartAborted past t running e :
    outcome_of t = Some (Aborted running e) →
    phase_step {| ru_past := past; ru_phase := Starting t |}
      {| ru_past := th_history t ++ past; ru_phase := Stopping running (shutdown_all running) (Done (Err e)) |}
| StartReturned past t running e :
    outcome_of t = Some (Returned running e) →
    phase_step {| ru_past := past; ru_phase := Starting t |}
      {| ru_past := th_history t ++ past; ru_phase := Closing running (Build_Thread [] (Done (Err e))) |}
| StartUnderway past t b w :
    outcome_of t = Some (Underway b) → fresh_world w →
    phase_step {| ru_past := past; ru_phase := Starting t |}
      {| ru_past := th_history t ++ past;
         ru_phase := Injecting b (run_armed_faults fuel cli (bo_booted b) (bo_joiner b) (bo_links b) w)
           (Build_Thread [] ∘ drive_node cli (bo_links b) <$> bo_booted b)
           (Build_Thread [] (wait_for_any_watermark fuel (bo_booted b) (secs (cli_settle_timeout_secs cli))))
           ∅ |}
| StepFaults past b faults faults' load settle progress :
    run_step faults faults' →
    phase_step {| ru_past := past; ru_phase := Injecting b faults load settle progress |}
      {| ru_past := past; ru_phase := Injecting b faults' load settle progress |}
| StepLoad past b faults before t t' after settle progress :
    wd_torn (fr_world faults) = None → free_step t t' →
    phase_step {| ru_past := past; ru_phase := Injecting b faults (before ++ t :: after) settle progress |}
      {| ru_past := past; ru_phase := Injecting b faults (before ++ t' :: after) settle progress |}
| StepSettle past b faults load t t' progress :
    wd_torn (fr_world faults) = None → free_step t t' →
    phase_step {| ru_past := past; ru_phase := Injecting b faults load t progress |}
      {| ru_past := past; ru_phase := Injecting b faults load t' progress |}
| StepSampler past b faults load settle progress at_ms fs :
    wd_torn (fr_world faults) = None →
    phase_step {| ru_past := past; ru_phase := Injecting b faults load settle progress |}
      {| ru_past := past; ru_phase := Injecting b faults load settle (sample fs (bo_nodes b) at_ms progress) |}
| FaultsPanic past b faults load settle progress :
    faults_panic faults →
    phase_step {| ru_past := past; ru_phase := Injecting b faults load settle progress |}
      (unwound (joined_history faults load settle ++ past))
| FaultsFail past b faults load settle progress loads drain_confirmed e :
    wd_torn (fr_world faults) = None → armed_result faults = Some (Err e) →
    mapM outcome_of load = Some loads → outcome_of settle = Some drain_confirmed →
    phase_step {| ru_past := past; ru_phase := Injecting b faults load settle progress |}
      {| ru_past := drops (orphans faults) ++ joined_history faults load settle ++ past;
         ru_phase := Stopping (bo_booted b) (shutdown_all (bo_booted b)) (Done (Err (FaultsFailed e))) |}
| FaultsEnd past b faults load settle progress loads drain_confirmed joined :
    wd_torn (fr_world faults) = None → armed_result faults = Some (Ok joined) →
    mapM outcome_of load = Some loads → outcome_of settle = Some drain_confirmed →
    phase_step {| ru_past := past; ru_phase := Injecting b faults load settle progress |}
      {| ru_past := joined_history faults load settle ++ past;
         ru_phase := Capturing b (bo_booted b ++ joined) loads drain_confirmed
           (Build_Thread [] (capture_manifest (bo_booted b ++ joined) progress (bo_nodes b)
              (bo_started_at_ms b) cli)) |}
| StepCapture past b running loads drain_confirmed t t' :
    free_step t t' →
    phase_step {| ru_past := past; ru_phase := Capturing b running loads drain_confirmed t |}
      {| ru_past := past; ru_phase := Capturing b running loads drain_confirmed t' |}
| Captured past b running loads drain_confirmed t manifest :
    outcome_of t = Some manifest →
    phase_step {| ru_past := past; ru_phase := Capturing b running loads drain_confirmed t |}
      {| ru_past := th_history t ++ past;
         ru_phase := Stopping running (shutdown_all running)
           (finish (bo_work_dir b) manifest loads drain_confirmed) |}
| StepStop past running before t t' after rest :
    free_step t t' →
    phase_step {| ru_past := past; ru_phase := Stopping running (before ++ t :: after) rest |}
      {| ru_past := past; ru_phase := Stopping running (before ++ t' :: after) rest |}
| Stopped past running nodes rest down :
    mapM outcome_of nodes = Some down →
    phase_step {| ru_past := past; ru_phase := Stopping running nodes rest |}
      {| ru_past := mjoin (th_history <$> nodes) ++ past; ru_phase := Closing running (Build_Thread [] rest) |}
| StepClose past running t t' :
    free_step t t' →
    phase_step {| ru_past := past; ru_phase := Closing running t |}
      {| ru_past := past; ru_phase := Closing running t' |}
| Closed past running t r :
    outcome_of t = Some r →
    phase_step {| ru_past := past; ru_phase := Closing running t |}
      {| ru_past := drops running ++ th_history t ++ past; ru_phase := Exited (RunReturned r) |}.

(** [main]: the exit code; a process whose main thread panics exits with 101 *)
Definition EXIT_PANICKED : Z := 101.

Definition exit_code (ending : Ending) : Z :=
  match ending with
  | RunReturned (Ok code) => if bool_decide (0 ≤ code ≤ 255)%Z then code else 255%Z
  | RunReturned (Err _) => EXIT_HARD_FAILURE
  | RunPanicked => EXIT_PANICKED
  end.

End run.

(** ** What a program has done *)

(** A program has come from [p] to [p'] with the calls [h]. *)
Inductive yields {A} (p : inj A) : Hist → inj A → Prop :=
| YieldsNil : yields p [] p
| YieldsCall h c k a : yields p h (Call c k) → yields p (existT c a :: h) (k a).

(** A thread of the program [p]. *)
Definition runs_prog {A} (p : inj A) (t : Thread A) : Prop := yields p (th_history t) (th_prog t).

(** A complete run of a program. *)
Definition completes {A} (p : inj A) (h : Hist) (a : A) : Prop := yields p h (Done a).

Lemma yields_wp {A} ok h0 (p p' : inj A) h Q : yields p h p' → wp ok h0 p Q → wp ok (h ++ h0) p' Q.
Proof. induction 1 as [|h c k a _ IH]; [done|]. intros [_ Hk]%IH. apply Hk. Qed.

Lemma completes_wp {A} (p : inj A) h a Q : completes p h a → wp (λ _ _, True) [] p Q → Q h a.
Proof. intros Hy Hwp. pose proof (yields_wp _ _ _ _ _ _ Hy Hwp) as HQ. by rewrite (right_id_L [] (++)) in HQ. Qed.

Lemma runs_free {A} (p : inj A) t t' : free_step t t' → runs_prog p t → runs_prog p t'.
Proof. destruct 1. unfold runs_prog. simpl. apply YieldsCall. Qed.

Lemma runs_thread {A} (p : inj A) w w' t t' : thread_step w t w' t' → runs_prog p t → runs_prog p t'.
Proof. destruct 1. unfold runs_prog. simpl. apply YieldsCall. Qed.

Lemma runs_outcome {A} (p : inj A) t a : runs_prog p t → outcome_of t = Some a → completes p (th_history t) a.
Proof. unfold runs_prog, outcome_of, completes. destruct (th_prog t); [by intros ? [= ->]|done..]. Qed.

Lemma runs_init {A} (p : inj A) : runs_prog p (Build_Thread [] p).
Proof. constructor. Qed.

Lemma Forall2_init {A B} (f : A → inj B) l : Forall2 (λ x t, runs_prog (f x) t) l (Build_Thread [] ∘ f <$> l).
Proof. induction l; constructor; [apply runs_init|done]. Qed.

Lemma Forall2_step {A B} (R : A → B → Prop) l before t t' after :
  (∀ x, R x t → R x t') → Forall2 R l (before ++ t :: after) → Forall2 R l (before ++ t' :: after).
Proof.
  intros Ht (l1 & l2 & H1 & H2 & ->)%Forall2_app_inv_r. apply Forall2_app; [done|].
  inversion H2; subst; constructor; auto.
Qed.

(** ** Programs that spawn nothing *)

Fixpoint spawnless {A} (p : inj A) : Prop :=
  match p with
  | Done _ | Panic | Stuck => True
  | Call c k => (match c with Spawn _ _ => False | _ => True end) ∧ ∀ a, spawnless (k a)
  end.

Lemma spawnless_bind {A B} (p : inj A) (f : A → inj B) :
  spawnless p → (∀ a, spawnless (f a)) → spawnless (ibind p f).
Proof. intros Hp Hf. induction p; simpl in *; naive_solver. Qed.

(** The nodes a history has spawned and not seen exit, reaped or dropped. *)
Fixpoint alive (h : Hist) : gset string :=
  match h with
  | [] => ∅
  | existT c a :: h =>
      match c return fanswer c → gset string with
      | Spawn node _ => λ a, if is_ok a then {[ns_name node]} ∪ alive h else alive h
      | TryWait node => λ a, match a with Ok (Some _) => alive h ∖ {[node]} | _ => alive h end
      | WaitChild node => λ a, if is_ok a then alive h ∖ {[node]} else alive h
      | DropNode node => λ _, alive h ∖ {[node]}
      | _ => λ _, alive h
      end a
  end.

Lemma alive_app h1 h2 : alive (h1 ++ h2) ⊆ alive h1 ∪ alive h2.
Proof.
  induction h1 as [|[c a] h1 IH]; simpl; [set_solver|].
  destruct c; simpl; try done; repeat case_match; set_solver.
Qed.

Lemma alive_drops running h : alive (drops running ++ h) = alive h ∖ list_to_set (ns_name <$> running).
Proof. induction running as [|node running IH]; simpl; [set_solver|]. rewrite IH. set_solver. Qed.

Lemma alive_spawnless {A} (p p' : inj A) h : spawnless p → yields p h p' → alive h = ∅ ∧ spawnless p'.
Proof.
  intros Hp. induction 1 as [|h c k a _ [IH Hc]]; [done|]. destruct Hc as [Hc Hk]. split; [|done].
  destruct c; simpl in *; try done; repeat case_match; set_solver.
Qed.

Lemma alive_join hs : Forall (λ h, alive h = ∅) hs → alive (mjoin hs) = ∅.
Proof.
  induction 1 as [|h hs Hh _ IH]; [done|]. simpl. pose proof (alive_app h (mjoin hs)). set_solver.
Qed.

Create HintDb spawnless.

(** Go through a program. *)
Ltac spawnless_go :=
  repeat first
    [ progress (eauto with spawnless nocore)
    | done
    | apply spawnless_bind
    | match goal with |- spawnless (match ?x with _ => _ end) => destruct x end
    | match goal with |- spawnless (Call _ _) => split; [exact I|] end
    | progress intros
    | exact I ].

Lemma spawnless_poll n check deadline period : spawnless check → spawnless (poll_until n check deadline period).
Proof. intros Hc. induction n as [|n IH]; cbn [poll_until]; spawnless_go. Qed.

Lemma spawnless_tail node error : spawnless (with_tail node error).
Proof. unfold with_tail. spawnless_go. Qed.
#[local] Hint Resolve spawnless_poll spawnless_tail : spawnless.

Lemma spawnless_ready n node timeout : spawnless (wait_until_ready n node timeout).
Proof.
  unfold wait_until_ready. split; [done|]. intros now. generalize (now + timeout)%N. intros deadline.
  induction n as [|n IH]; cbn [poll_ready]; spawnless_go.
Qed.

Lemma spawnless_imapM {A B} (f : A → inj B) l : (∀ a, spawnless (f a)) → spawnless (imapM f l).
Proof. intros Hf. induction l as [|a l IH]; cbn [imapM]; spawnless_go. Qed.

Lemma spawnless_flap n link down up completed : spawnless (flap n link down up completed).
Proof. revert completed. induction n as [|n IH]; intros completed; cbn [flap]; unfold hold_link, release_link; spawnless_go. Qed.

Lemma spawnless_to_end n messages : spawnless (read_to_end n messages).
Proof. revert messages. induction n as [|n IH]; intros messages; cbn [read_to_end]; spawnless_go. Qed.

Lemma spawnless_drain n timeout : spawnless (drain_stream n timeout).
Proof. induction n as [|n IH]; cbn [drain_stream]; spawnless_go. Qed.
#[local] Hint Resolve spawnless_ready spawnless_flap spawnless_to_end spawnless_drain : spawnless.

(** Unfold the parts of an injector and go through it. *)
Ltac spawnless_all :=
  unfold armed, started, ended, record, node_journal_line_count, send_signal, wait_exited, confirm, is_stopped,
    is_live_running, in_state, process_state, hold_link, release_link, link_stats, wait_for_journal_event,
    journal_contains_event_after, since_with_line_count, observed_drain_stalled, link_deltas;
  repeat first [apply spawnless_poll | apply spawnless_imapM; intros | spawnless_go].

Section injectors.
Context `{FleetSerde}.

Lemma spawnless_race n inner target query deadline interval reads :
  spawnless (race_reads n inner target query deadline interval reads).
Proof.
  revert reads. induction n as [|n IH]; intros reads; cbn [race_reads]; unfold read_once; spawnless_all.
Qed.
#[local] Hint Resolve spawnless_race : spawnless.

Lemma spawnless_partition fault_id target links delay duration :
  spawnless (run_network_partition fault_id target links delay duration).
Proof. unfold run_network_partition. spawnless_all. Qed.

Lemma spawnless_degradation fault_id target link conditions delay duration :
  spawnless (run_network_degradation fault_id target link conditions delay duration).
Proof. unfold run_network_degradation. spawnless_all. Qed.

Lemma spawnless_outage fault_id target link delay duration :
  spawnless (run_catalog_outage fault_id target link delay duration).
Proof. unfold run_catalog_outage. spawnless_all. Qed.

Lemma spawnless_discovery fault_id target link delay schedule :
  spawnless (run_discovery_flap fault_id target link delay schedule).
Proof. unfold run_discovery_flap. spawnless_all. Qed.

Lemma spawnless_churn n fault_id target query delay duration interval :
  spawnless (run_cache_churn n fault_id target query delay duration interval).
Proof. unfold run_cache_churn, drive_racing_reads. spawnless_all. Qed.

Lemma spawnless_kill n fault_id target timing : spawnless (run_node_kill n fault_id target timing).
Proof. unfold run_node_kill. spawnless_all. Qed.

Lemma spawnless_sigstop n fault_id target delay pause : spawnless (run_sigstop_pause n fault_id target delay pause).
Proof. unfold run_sigstop_pause. spawnless_all. Qed.

Lemma spawnless_leave n fault_id target delay grace : spawnless (run_membership_leave n fault_id target delay grace).
Proof. unfold run_membership_leave. spawnless_all. Qed.

Lemma spawnless_flight n fault_id target query delay timeout :
  spawnless (run_flight_kill_mid_stream n fault_id target query delay timeout).
Proof. unfold run_flight_kill_mid_stream. spawnless_all. Qed.
End injectors.

(** ** Complete runs, part by part *)

Lemma yields_inv {A} (p : inj A) h q : yields p h q →
  (h = [] ∧ q = p) ∨
  match p with
  | Call c k => ∃ a h', h = h' ++ [existT c a] ∧ yields (k a) h' q
  | _ => False
  end.
Proof.
  induction 1 as [|h c k a _ IH]; [by left|]. right. destruct IH as [[-> <-]|IH]; [exists a, []; by repeat constructor|].
  destruct p as [|c' k'| |]; [done| |done..]. destruct IH as (a' & h' & -> & Hy). exists a', (existT c a :: h').
  split; [done|by constructor].
Qed.

Lemma completes_done {A} (a b : A) h : completes (Done a) h b → h = [] ∧ a = b.
Proof. intros [[-> [= ->]]|[]]%yields_inv. done. Qed.

Lemma completes_call {A} c (k : fanswer c → inj A) h b :
  completes (Call c k) h b → ∃ a h', h = h' ++ [existT c a] ∧ completes (k a) h' b.
Proof. by intros [[-> ?]|?]%yields_inv. Qed.

(** ** The children of a run *)

Lemma spawned_app h1 h2 : spawned (h1 ++ h2) = spawned h1 ++ spawned h2.
Proof. apply omap_app. Qed.

Lemma spawned_spawnless {A} (p p' : inj A) h : spawnless p → yields p h p' → spawned h = [] ∧ spawnless p'.
Proof.
  intros Hp. induction 1 as [|h c k a _ [IH Hc]]; [done|]. destruct Hc as [Hc Hk]. split; [|done].
  destruct c; simpl in *; done.
Qed.

Definition names (nodes : list NodeSpec) : gset string := list_to_set (ns_name <$> nodes).

Lemma names_app l1 l2 : names (l1 ++ l2) = names l1 ∪ names l2.
Proof. unfold names. by rewrite fmap_app, list_to_set_app_L. Qed.

(** Only what was spawned is alive. *)
Lemma alive_spawned h : alive h ⊆ names (spawned h).
Proof.
  induction h as [|[c a] h IH]; [set_solver|]. unfold names, spawned in *.
  destruct c; csimpl; try done; repeat case_match; csimpl; set_solver.
Qed.

Lemma spawned_drops running : spawned (drops running) = [].
Proof. induction running; done. Qed.

Lemma spawned_join hs : Forall (λ h, spawned h = []) hs → spawned (mjoin hs) = [].
Proof. induction 1 as [|h hs Hh _ IH]; [done|]. simpl. by rewrite spawned_app, Hh, IH. Qed.

Lemma wp_idle {A} (S : gset string) (l : list NodeSpec) h (p : inj A) (Q : Hist → A → Prop) :
  spawnless p → alive h ⊆ S → spawned h ⊆ l →
  (∀ h' a, alive h' ⊆ S → spawned h' ⊆ l → Q h' a) → wp (λ _ _, True) h p Q.
Proof.
  intros Hp Hh Hl HQ. revert h Hh Hl. induction p as [a|c k IH| |]; intros h Hh Hl; simpl; [by apply HQ| |done..].
  destruct Hp as [Hc Hk]. split; [done|]. intros a. apply IH; [done|..];
  destruct c; simpl in *; try done; repeat case_match; set_solver.
Qed.

Section groups.
Context `{FleetSerde}.

Lemma spawnless_network cli nodes links : Forall spawnless (run_network_faults cli nodes links).
Proof.
  unfold run_network_faults. destruct (network_windows cli nodes links) as [ws|e] eqn:E; [|repeat constructor].
  assert (∀ flag (window : N → result (inj (result unit FaultError)) SetupError) l,
    when_armed flag window = Ok l → (∀ index w, window index = Ok w → spawnless w) → Forall spawnless l) as Hwhen.
  { intros flag window l. unfold when_armed. destruct flag as [index|]; [|by intros [= <-]].
    destruct (window index) as [w|] eqn:Ew; [|done]. intros [= <-] Hw. repeat constructor. by eapply Hw. }
  unfold network_windows in E. do 4 (case_match; [|done]). injection E as <-. rewrite !Forall_app.
  split_and!; (eapply Hwhen; [eassumption|]); intros index w;
    unfold partition_window, degrade_window, outage_window, flap_window; intros Hw; repeat (case_match; try done);
    simplify_eq; eauto using spawnless_partition, spawnless_degradation, spawnless_outage, spawnless_discovery.
Qed.

Lemma spawnless_churn_fault n cli nodes : spawnless (run_cache_churn_fault n cli nodes).
Proof. unfold run_cache_churn_fault. repeat case_match; [apply spawnless_churn|done..]. Qed.

Lemma spawnless_process flag name running window :
  (∀ target, spawnless (window target)) → spawnless (process_fault flag name running window).
Proof. intros Hw. unfold process_fault. repeat case_match; [apply Hw|done..]. Qed.

(** A joining node is the caller's when it is ready, and dropped when it is not. *)
Lemma join_leaves n fault_id joiner delay timeout h :
  alive h ⊆ ∅ → spawned h ⊆ [] →
  wp (λ _ _, True) h (run_membership_join n fault_id joiner delay timeout) (λ h' r,
    alive h' ⊆ match r with Ok node => {[ns_name node]} | Err _ => ∅ end ∧
    spawned h' ⊆ [joiner] ∧ ∀ node, r = Ok node → node = joiner).
Proof.
  intros Ha Hs. unfold run_membership_join. apply wp_bind.
  eapply (wp_idle ∅ []); [spawnless_all|done..|]. intros h1 [] H1 S1. split; [done|]. intros [].
  split; [done|]. intros [[]|e]; [|apply wp_ret; split_and!; [exact H1|cbn; set_solver|done]].
  split; [done|]. intros pid. apply wp_bind.
  eapply (wp_idle {[ns_name joiner]} [joiner]); [spawnless_all|simpl; set_solver|simpl; set_solver|]. intros h2 [] H2 S2.
  apply wp_bind. eapply (wp_idle _ _ _ _ _ (spawnless_ready _ _ _) H2 S2). intros h3 ready H3 S3. apply wp_bind.
  eapply (wp_idle _ [joiner]); [spawnless_all|exact H3|done|]. intros h4 lines H4 S4. apply wp_bind.
  eapply (wp_idle _ [joiner]); [spawnless_all|exact H4|done|]. intros h5 [] H5 S5.
  destruct ready; [apply wp_ret; split_and!; [done..|congruence]|]. split; [done|]. intros []. simpl.
  split_and!; [set_solver|done|done].
Qed.

(** What the process faults leave: the node that joined. *)
Definition group_leaves (joiner : option NodeSpec) (h : Hist) (r : result (list NodeSpec) FaultError) : Prop :=
  alive h ⊆ match r with Ok joined => names joined | Err _ => ∅ end ∧
  spawned h ⊆ match r with Ok joined => joined | Err _ => option_list joiner end ∧
  ∀ joined, r = Ok joined → joined ⊆ option_list joiner.

Lemma wp_group {A} joiner h (p : inj (result A FaultError)) (k : inj (result (list NodeSpec) FaultError)) :
  spawnless p → alive h ⊆ ∅ → spawned h ⊆ [] →
  (∀ h, alive h ⊆ ∅ → spawned h ⊆ [] → wp (λ _ _, True) h k (group_leaves joiner)) →
  wp (λ _ _, True) h (let!? _ := p in k) (group_leaves joiner).
Proof.
  intros Hp Ha Hs Hk. apply wp_bind. eapply (wp_idle ∅ []); [done..|].
  intros h' [a|e] H' S'; [by apply Hk|]. split_and!; [done|set_solver|done].
Qed.

Lemma process_leaves n cli running joiner h r :
  completes (run_process_faults n cli running joiner) h r → group_leaves joiner h r.
Proof.
  intros Hc. eapply completes_wp; [exact Hc|]. clear Hc. unfold run_process_faults.
  apply wp_group; [apply spawnless_process; intros; apply spawnless_kill|done..|intros h1 H1 S1].
  apply wp_group; [apply spawnless_process; intros; apply spawnless_sigstop|done..|intros h2 H2 S2].
  apply wp_group; [apply spawnless_process; intros; apply spawnless_leave|done..|intros h3 H3 S3].
  apply wp_group; [apply spawnless_process; intros; apply spawnless_flight|done..|intros h4 H4 S4].
  destruct (cli_fault_churn_join cli); [|apply wp_ret; split_and!; [done..|]; intros ? [= <-]; set_solver].
  destruct joiner as [joiner|]; [|apply wp_ret; split_and!; [done|set_solver|done]].
  apply wp_bind. eapply wp_mono; [by apply join_leaves|]. intros h' [node|e] (Ha & Hs & Hn); apply wp_ret.
  - specialize (Hn node eq_refl) as ->. split_and!; [unfold names; set_solver|done|]. by intros ? [= <-].
  - split_and!; [done|done|done].
Qed.
End groups.

(** ** What the parts of a run leave *)

Lemma wp_spawn_nodes cli running nodes h (Q : Hist → _ → Prop) :
  alive h ⊆ names running → spawned h ⊆ running →
  (∀ h' running' r, alive h' ⊆ names running' → spawned h' ⊆ running' → (r = Ok tt → running' = running ++ nodes) →
     Q h' (running', r)) →
  wp (λ _ _, True) h (spawn_nodes cli running nodes) Q.
Proof.
  revert running h. induction nodes as [|node nodes IH]; intros running h Ha Hs HQ; cbn [spawn_nodes].
  - apply HQ; [done..|]. by rewrite (right_id_L [] (++)).
  - split; [done|]. intros [[]|e]; [|by apply HQ]. apply IH.
    + simpl. rewrite names_app. unfold names at 2. set_solver.
    + simpl. set_solver.
    + intros h' running' r Ha' Hs' Hr. apply HQ; [done..|]. intros E. rewrite (Hr E), <-(assoc_L (++)). done.
Qed.

Section parts.
Context `{RunLibs}.
Context (create_dir_all : string → result unit string) (listen : string → result N string).
Context (n : nat) (cli : Cli).

Lemma spawnless_drive links node : spawnless (drive_node cli links node).
Proof.
  unfold drive_node, drive_load, run_base_nanos. apply spawnless_bind; [|intros; exact I].
  split; [done|]. intros [[]|e]; [|exact I]. apply spawnless_bind; [spawnless_go|]. intros base.
  match goal with |- spawnless (send_batches ?m _ _ _ ?i ?r) => generalize m, i, r end.
  intros m. induction m as [|m IH]; intros i r; cbn [send_batches]; spawnless_go.
Qed.

Lemma spawnless_settle nodes timeout : spawnless (wait_for_any_watermark n nodes timeout).
Proof.
  unfold wait_for_any_watermark. split; [done|]. intros now. apply spawnless_poll.
  induction nodes as [|node nodes IH]; cbn [any_watermark]; spawnless_go.
Qed.

Lemma spawnless_shutdown node grace : spawnless (shutdown n node grace).
Proof.
  unfold shutdown. split; [done|]. intros pid. apply spawnless_bind; [spawnless_go|]. intros _. split; [done|].
  intros now. generalize (now + grace)%N. intros deadline.
  induction n as [|m IH]; cbn [poll_shutdown]; spawnless_go.
Qed.

Lemma spawnless_capture running progress nodes started_at_ms :
  spawnless (capture_manifest running progress nodes started_at_ms cli).
Proof.
  unfold capture_manifest. split; [done|]. intros now. apply spawnless_bind.
  - induction nodes as [|node nodes IH]; cbn [read_journals]; spawnless_go.
  - intros reads. apply spawnless_bind; [|intros; exact I].
    induction running as [|node running IH]; cbn [try_waits]; spawnless_go.
Qed.

Lemma spawnless_set_up : spawnless (set_up create_dir_all listen cli).
Proof.
  assert (spawnless search_path) as Hs.
  { unfold search_path. split; [done|]. intros dirs. induction (default [] dirs) as [|dir l IH]; cbn [search_dirs]; spawnless_go. }
  assert (∀ plan all links nodes, spawnless (write_configs cli plan all links nodes)) as Hw.
  { intros plan all links nodes. induction nodes as [|node nodes IH]; cbn [write_configs]; unfold write_file; spawnless_go. }
  unfold set_up, resolve_daemon_bin, check_backends, check_reachable, build_plan, write_file. spawnless_go.
Qed.

(** What a set up fleet looks like. *)
Definition set_up_ok (b : Booted) : Prop :=
  build_fault_links listen cli (bo_nodes b) = Ok (bo_links b) ∧
  length (bo_booted b) = N.to_nat (cli_nodes cli) ∧ (0 < cli_nodes cli)%N ∧
  bo_nodes b = provision_node (bo_work_dir b) (cli_seed cli) (base_ports cli) <$>
    (N.of_nat <$> seq 0 (length (bo_nodes b))) ∧
  bo_booted b = take (N.to_nat (cli_nodes cli)) (bo_nodes b) ∧ bo_joiner b = bo_nodes b !! N.to_nat (cli_nodes cli).

(** What the first part of a run leaves. *)
Definition start_leaves (h : Hist) (s : Start) : Prop :=
  match s with
  | Refused _ => alive h = ∅ ∧ spawned h = []
  | Aborted running e => alive h ⊆ names running ∧ spawned h ⊆ running ∧ ∃ e', e = BootFailed e'
  | Returned running e => alive h ⊆ names running ∧ spawned h ⊆ running ∧ ∃ e', e = LogFailed e'
  | Underway b =>
      alive h ⊆ names (bo_booted b) ∧ spawned h ⊆ bo_booted b ∧ set_up_ok b
  end.

Lemma set_up_index b i node : set_up_ok b → bo_nodes b !! i = Some node → ns_index node = N.of_nat i.
Proof.
  intros (_ & _ & _ & -> & _). rewrite !list_lookup_fmap. destruct (seq _ _ !! i) as [j|] eqn:Ej; [|done].
  apply lookup_seq in Ej as [-> _]. by intros [= <-].
Qed.

Lemma wp_any {A} h (p : inj A) (Q : Hist → A → Prop) : (∀ h' a, Q h' a) → wp (λ _ _, True) h p Q.
Proof. intros HQ. revert h. induction p; intros h; simpl; eauto. Qed.

Lemma wp_and {A} h (p : inj A) (Q Q' : Hist → A → Prop) :
  wp (λ _ _, True) h p Q → wp (λ _ _, True) h p Q' → wp (λ _ _, True) h p (λ h' a, Q h' a ∧ Q' h' a).
Proof. revert h. induction p as [a|c k IH| |]; intros h; simpl; [done| |done..]. intros [_ H1] [_ H2]. split; eauto. Qed.

Lemma set_up_underway h :
  wp (λ _ _, True) h (set_up create_dir_all listen cli) (λ _ r, ∀ b, r = Ok b → set_up_ok b).
Proof.
  unfold set_up. split; [done|]. intros started_at_ms. apply wp_bind, wp_any. intros h1 [bin|e]; [|done].
  apply wp_bind, wp_any. intros h2 work_dir. split; [done|]. intros [[]|e]; [|done].
  apply wp_bind, wp_any. intros h3 [[]|e]; [|done]. apply wp_bind, wp_any. intros h4 [plan|e]; [|done].
  destruct (N.eqb_spec (cli_nodes cli) 0) as [|Hn]; [done|]. case_match; [done|].
  destruct (provision_nodes _ _ _ _ _) as [nodes|e] eqn:Ep; [|done].
  destruct (build_fault_links listen cli nodes) as [links|e] eqn:El; [|done].
  apply wp_bind, wp_any. intros h5 [[]|e]; [|done]. destruct (Nat.ltb_spec (length nodes) (N.to_nat (cli_nodes cli))) as [_|Elen]; [exact I|]. apply wp_ret. intros b [= <-].
  split_and!; simpl; [done|rewrite length_take; lia|lia| |done..].
  apply provision_from_spec in Ep. subst nodes. by rewrite !length_fmap, length_seq.
Qed.

Lemma start_leaves_ok h s : completes (start create_dir_all listen n cli) h s → start_leaves h s.
Proof.
  intros Hc. eapply completes_wp; [exact Hc|]. clear Hc. unfold start. apply wp_bind.
  eapply wp_mono; [apply wp_and; [apply set_up_underway|]|].
  - eapply (wp_idle ∅ []); [apply spawnless_set_up|done|done|]. intros h1 r Ha Hs. exact (conj Ha Hs).
  - intros h1 [b|e] (Hb & Ha & Hs); [|split; [set_solver|by destruct (spawned h1); [|set_solver]]].
    specialize (Hb b eq_refl). unfold boot_fleet. apply wp_bind, wp_bind.
    apply wp_spawn_nodes; [done..|]. intros h2 running r Ha2 Hs2 Hr. cbn [fst snd].
    destruct r as [[]|e]; [|apply wp_ret; split_and!; eauto]. apply wp_bind.
    eapply (wp_idle (names running) running); [|done..|].
    { generalize (secs (cli_boot_timeout_secs cli)). intros timeout. clear.
      induction running as [|node running IH]; cbn [await_nodes]; spawnless_go. }
    intros h3 [[]|e] Ha3 Hs3; [|split_and!; eauto]. cbn [fst snd]. apply wp_ret. apply wp_bind.
    eapply (wp_idle (names running) running); [unfold spawn_loadgen_best_effort; spawnless_go|done..|].
    intros h4 [] Ha4 Hs4. split; [done|]. intros [[]|e]; simpl; [|split_and!; eauto]. specialize (Hr eq_refl) as ->.
    by split_and!.
Qed.

(** ** What the load and the watch have seen *)

(** The answers to the batches that were exported, the newest first. *)
Definition export_answer (e : event) : option (result bool string) :=
  let 'existT c a := e in
  match c return fanswer c → option (result bool string) with
  | OtlpExport _ _ => λ a, Some a
  | _ => λ _, None
  end a.

Definition exports (h : Hist) : list (result bool string) := omap export_answer h.

Definition accepted (answers : list (result bool string)) : nat := length (filter (λ a, a = Ok true) answers).

Lemma accepted_all answers : accepted answers = length answers → answers = replicate (length answers) (Ok true).
Proof.
  unfold accepted. induction answers as [|a answers IH]; [done|]. rewrite filter_cons. simpl.
  pose proof (length_filter (λ a, a = Ok true) answers). destruct (decide (a = Ok true)) as [->|]; simpl; [|lia].
  intros E. f_equal. apply IH. lia.
Qed.

Lemma count_batch_fields r size a :
  lr_batches_attempted (count_batch r size a) = lr_batches_attempted r ∧
  lr_batches_accepted (count_batch r size a) = (lr_batches_accepted r + N.of_nat (accepted [a]))%N.
Proof. unfold accepted. rewrite filter_cons. case_decide as E; [subst; cbn; lia|]. destruct a as [[]|]; [done|cbn; lia..]. Qed.

Lemma wp_send_batches m label plan base i r h :
  wp (λ _ _, True) h (send_batches m label plan base i r) (λ h' out, ∀ r', out = Ok r' →
    ∃ answers, exports h' = answers ++ exports h ∧ length answers = m ∧
      lr_batches_attempted r' = (lr_batches_attempted r + N.of_nat m)%N ∧
      lr_batches_accepted r' = (lr_batches_accepted r + N.of_nat (accepted answers))%N).
Proof.
  revert i r h. induction m as [|m IH]; intros i r h; cbn [send_batches].
  - intros r' [= <-]. exists []. split_and!; [done..|cbn; lia|cbn; lia].
  - destruct (tenanted_request (lp_tenant plan)) as [tenant|e]; [|done]. split; [done|]. intros a. simpl in a.
    destruct (count_batch_fields (attempted r) (lp_batch_size plan) a) as [Hatt Hacc].
    assert (∀ h', exports h' = a :: exports h →
      wp (λ _ _, True) h' (send_batches m label plan base (i + 1) (count_batch (attempted r) (lp_batch_size plan) a))
        (λ h' out, ∀ r', out = Ok r' → ∃ answers, exports h' = answers ++ exports h ∧ length answers = S m ∧
          lr_batches_attempted r' = (lr_batches_attempted r + N.of_nat (S m))%N ∧
          lr_batches_accepted r' = (lr_batches_accepted r + N.of_nat (accepted answers))%N)) as Hrest.
    { intros h' Hh'. eapply wp_mono; [apply IH|]. intros h'' out Hout r' Hr'.
      destruct (Hout r' Hr') as (answers & He & Hl & Ha & Hb). exists (answers ++ [a]).
      rewrite He, Hh', <-(assoc_L (++)), length_app, Ha, Hb, Hatt, Hacc. change (lr_batches_attempted (attempted r)) with (lr_batches_attempted r + 1)%N.
      change (lr_batches_accepted (attempted r)) with (lr_batches_accepted r).
      replace (accepted (answers ++ [a])) with (accepted answers + accepted [a])%nat
        by (unfold accepted; by rewrite filter_app, length_app).
      split_and!; [done|simpl; lia|lia|lia]. }
    case_match; [split; [done|]; intros []; by apply Hrest|by apply Hrest].
Qed.

(** A node whose load counts as fully accepted took every batch. *)
Lemma drive_node_accepted links node h r :
  completes (drive_node cli links node) h r → fully_accepted r = true →
  (0 < cli_load_batches cli)%N ∧ exports h = replicate (N.to_nat (cli_load_batches cli)) (Ok true).
Proof.
  intros Hc. eapply (completes_wp _ _ _ (λ h r, fully_accepted r = true →
    (0 < cli_load_batches cli)%N ∧ exports h = replicate (N.to_nat (cli_load_batches cli)) (Ok true))); [exact Hc|].
  clear Hc. unfold drive_node, drive_load, run_base_nanos. apply wp_bind. split; [done|].
  intros [[]|e]; [|done]. apply wp_bind. split; [done|]. intros since. apply wp_ret.
  eapply wp_mono; [apply wp_send_batches|]. intros h' [r'|e] Hr'; [|done]. apply wp_ret.
  destruct (Hr' r' eq_refl) as (answers & He & Hl & Ha & Hb). cbn [lp_batches] in *.
  unfold fully_accepted. rewrite Ha, Hb. cbn [load_default lr_batches_attempted lr_batches_accepted].
  intros [Hpos%N.ltb_lt Heq%N.eqb_eq]%andb_prop. split; [lia|].
  rewrite He. cbn. rewrite (right_id_L [] (++)), <-Hl. apply accepted_all. lia.
Qed.

(** A node has shown a watermark. *)
Definition drained (nodes : list NodeSpec) (h : Hist) : Prop :=
  ∃ node fetched, node ∈ nodes ∧ existT (FetchStatus (ns_status_port node) None) fetched ∈ h ∧
    has_watermarks fetched = true.

Lemma wp_any_watermark nodes h :
  wp (λ _ _, True) h (any_watermark nodes) (λ h' b, b = true → drained nodes h').
Proof.
  revert h. induction nodes as [|node nodes IH]; intros h; cbn [any_watermark]; [done|]. split; [done|].
  intros fetched. destruct (has_watermarks fetched) eqn:Ef.
  - apply wp_ret. intros _. exists node, fetched. split_and!; [by left|by left|done].
  - eapply wp_mono; [apply IH|]. intros h' b Hb E. destruct (Hb E) as (x & f & Hx & Hf). exists x, f. split; [by right|done].
Qed.

Lemma settle_drained nodes timeout h :
  completes (wait_for_any_watermark n nodes timeout) h true → drained nodes h.
Proof.
  intros Hc. refine (completes_wp _ _ _ (λ h b, b = true → drained nodes h) Hc _ eq_refl). clear Hc.
  split; [done|]. intros now. generalize (now + timeout)%N. intros deadline.
  match goal with |- wp _ ?h0 _ _ => generalize h0 end.
  induction n as [|m IH]; intros h'; cbn [poll_until]; [done|]. apply wp_bind.
  eapply wp_mono; [apply wp_any_watermark|]. intros h1 [] Hb; [by apply wp_ret|]. split; [done|]. intros t.
  case_match; [by apply wp_ret|]. split; [done|]. intros []. apply IH.
Qed.

(** A poll of all the nodes, the newest event first, in which none has a watermark. *)
Definition vain_poll (nodes : list NodeSpec) (poll : Hist) : Prop :=
  Forall2 (λ node e, ∃ fetched, e = existT (FetchStatus (ns_status_port node) None) fetched ∧
    has_watermarks fetched = false) (reverse nodes) poll.

(** A status that was fetched has a watermark. *)
Definition shows_watermark (e : event) : bool :=
  let 'existT c a := e in
  match c return fanswer c → bool with
  | FetchStatus _ timeout =>
      match timeout return timed timeout (result Json string) → bool with
      | None => has_watermarks
      | Some _ => λ _, false
      end
  | _ => λ _, false
  end a.

(** No answer of the history has a watermark. *)
Definition no_watermark (h : Hist) : Prop := Forall (λ e, shows_watermark e = false) h.

(** A watch that began at some reading of the clock, polled without seeing a watermark,
    and gave up after a poll of all the nodes at a reading at least [timeout] later. *)
Definition waited_in_vain (nodes : list NodeSpec) (timeout : N) (h : Hist) : Prop :=
  ∃ began ended poll older,
    h = existT Now ended :: poll ++ older ++ [existT Now began] ∧ (began + timeout ≤ ended)%N ∧
    vain_poll nodes poll ∧ no_watermark h.

Lemma wp_vain_poll nodes h :
  no_watermark h →
  wp (λ _ _, True) h (any_watermark nodes) (λ h' b, b = false →
    ∃ poll, h' = poll ++ h ∧ vain_poll nodes poll ∧ no_watermark h').
Proof.
  revert h. induction nodes as [|node nodes IH]; intros h Hno; cbn [any_watermark].
  { intros _. exists []. split_and!; [done|constructor|done]. }
  split; [done|]. intros fetched. destruct (has_watermarks fetched) eqn:Ef; [done|].
  eapply wp_mono; [apply IH; by constructor|].
  - intros h' b Hb E. destruct (Hb E) as (poll & -> & Hp & Hn).
    exists (poll ++ [existT (FetchStatus (ns_status_port node) None) fetched]).
    rewrite <-(assoc_L (++)). split_and!; [done| |done]. unfold vain_poll. rewrite reverse_cons.
    apply Forall2_app; [done|]. constructor; [|constructor]. eauto.
Qed.

(** The watch gives up only when its time is over. *)
Lemma settle_in_vain nodes timeout h :
  completes (wait_for_any_watermark n nodes timeout) h false → waited_in_vain nodes timeout h.
Proof.
  intros Hc. refine (completes_wp _ _ _ (λ h b, b = false → waited_in_vain nodes timeout h) Hc _ eq_refl).
  clear Hc. split; [done|]. intros began.
  assert (∀ m older, no_watermark (older ++ [existT Now began]) →
    wp (λ _ _, True) (older ++ [existT Now began]) (poll_until m (any_watermark nodes) (began + timeout) 500)
      (λ h b, b = false → waited_in_vain nodes timeout h)) as Hpoll.
  { intros m. induction m as [|m IH]; intros older Hno; cbn [poll_until]; [done|]. apply wp_bind.
    eapply wp_mono; [by apply wp_vain_poll|]. intros h1 [] Hb; [by apply wp_ret|].
    destruct (Hb eq_refl) as (poll & -> & Hp & Hn). split; [done|]. intros now.
    assert (no_watermark (existT Now now :: poll ++ older ++ [existT Now began])) as Hn1
      by by constructor.
    destruct (N.leb_spec (began + timeout) now) as [Hle|_].
    - apply wp_ret. intros _. exists began, now, poll, older. by split_and!.
    - split; [done|]. intros []. specialize (IH (existT (Sleep 500) tt :: existT Now now :: poll ++ older)).
      simpl in IH. rewrite <-(assoc_L (++)) in IH. apply IH. by constructor. }
  apply (Hpoll n []). by repeat constructor.
Qed.
End parts.

(** ** The run as a whole *)

(** A part of what was done, on its own. *)
Definition within (h past : Hist) : Prop := ∃ newer older, past = newer ++ h ++ older.

Lemma within_refl h : within h h.
Proof. exists [], []. by rewrite (right_id_L [] (++)). Qed.

Lemma within_newer h t past : within h past → within h (t ++ past).
Proof. intros (newer & older & ->). exists (t ++ newer), older. by rewrite (assoc_L (++)). Qed.

Lemma within_older h past t : within h past → within h (past ++ t).
Proof. intros (newer & older & ->). exists newer, (older ++ t). by rewrite <-!(assoc_L (++)). Qed.

Lemma within_join h hs : h ∈ hs → within h (mjoin hs).
Proof.
  induction 1 as [h hs|h x hs _ IH]; simpl; [apply within_older, within_refl|by apply within_newer].
Qed.

Section whole.
Context `{RunLibs}.
Context (create_dir_all : string → result unit string) (listen : string → result N string).
Context (n : nat) (cli : Cli).

Inductive reachable : Run → Prop :=
| ReachStart : reachable (run create_dir_all listen n cli)
| ReachStep s s' : reachable s → phase_step n cli s s' → reachable s'.

(** A node was shut down: the whole of [shutdown] was carried out on it. *)
Definition shut_down (node : NodeSpec) (past : Hist) : Prop :=
  ∃ h, within h past ∧ completes (shutdown n node (secs (cli_shutdown_grace_secs cli))) h tt.

(** The child of a node was dropped. *)
Definition child_dropped (node : NodeSpec) (past : Hist) : Prop := existT (DropNode (ns_name node)) tt ∈ past.

(** What a run has observed when its faults have ended without an error. *)
Record observed (b : Booted) (loads : list LoadResult) (drain_confirmed : bool) (past : Hist) : Prop := {
  ob_set_up : set_up_ok listen cli b;
  ob_load : Forall2 (λ node r, ∃ h, within h past ∧ completes (drive_node cli (bo_links b) node) h r)
              (bo_booted b) loads;
  ob_settle : ∃ h, within h past ∧
    completes (wait_for_any_watermark n (bo_booted b) (secs (cli_settle_timeout_secs cli))) h drain_confirmed;
  ob_faults : ∃ faults joined, run_reachable cli (bo_booted b) (bo_joiner b) (bo_links b) faults ∧
    armed_result faults = Some (Ok joined);
}.

Lemma observed_newer b loads drain_confirmed t past :
  observed b loads drain_confirmed past → observed b loads drain_confirmed (t ++ past).
Proof.
  intros [Hs Hl (h & Hw & Hc) Hf]. split; [done| |exists h; eauto using within_newer|done].
  eapply Forall2_impl; [exact Hl|]. intros node r (h' & Hw' & Hc'). eauto using within_newer.
Qed.

(** Whose error leaves a node without a [shutdown]: the log's, and for the node that
    joins the faults'. *)
Definition excused (node : NodeSpec) (r : result Z RunError) : Prop :=
  match r with
  | Err (LogFailed _) => True
  | Err (FaultsFailed _) => ns_index node = cli_nodes cli
  | _ => False
  end.

(** A panic leaves every node without one. *)
Definition excused_at (node : NodeSpec) (ending : Ending) : Prop :=
  match ending with RunReturned r => excused node r | RunPanicked => True end.

(** Where the rest of a run comes from. *)
Inductive rest_of (past : Hist) : inj (result Z RunError) → Prop :=
| RestError e : rest_of past (Done (Err e))
| RestFinish b manifest loads drain_confirmed :
    observed b loads drain_confirmed past →
    rest_of past (finish cli (bo_work_dir b) manifest loads drain_confirmed).

Definition excused_by (node : NodeSpec) (rest : inj (result Z RunError)) : Prop :=
  match rest with Done r => excused node r | _ => False end.

(** The fault futures, each of its own program. *)
Definition faults_run (b : Booted) (faults : FaultRun) : Prop :=
  Forall2 runs_prog (run_network_faults cli (bo_booted b) (bo_links b)) (fr_network faults) ∧
  runs_prog (run_cache_churn_fault n cli (bo_booted b)) (fr_churn faults) ∧
  runs_prog (run_process_faults n cli (bo_booted b) (bo_joiner b)) (fr_process faults).

(** The invariant of a run. *)
Definition phase_ok (s : Run) : Prop :=
  let past := ru_past s in
  match ru_phase s with
  | Starting t => past = [] ∧ runs_prog (start create_dir_all listen n cli) t
  | Injecting b faults load settle progress =>
      alive past ⊆ names (bo_booted b) ∧ spawned past ⊆ bo_booted b ∧ set_up_ok listen cli b ∧
      run_reachable cli (bo_booted b) (bo_joiner b) (bo_links b) faults ∧ faults_run b faults ∧
      Forall2 (λ node t, runs_prog (drive_node cli (bo_links b) node) t) (bo_booted b) load ∧
      runs_prog (wait_for_any_watermark n (bo_booted b) (secs (cli_settle_timeout_secs cli))) settle
  | Capturing b running loads drain_confirmed t =>
      alive past ⊆ names running ∧ spawned past ⊆ running ∧ observed b loads drain_confirmed past ∧
      ∃ p, spawnless p ∧ runs_prog p t
  | Stopping running nodes rest =>
      alive past ⊆ names running ∧
      (∀ node, node ∈ spawned past → node ∈ running ∨ excused_by node rest) ∧
      rest_of past rest ∧
      Forall2 (λ node t, runs_prog (shutdown n node (secs (cli_shutdown_grace_secs cli))) t) running nodes
  | Closing running t =>
      alive past ⊆ names running ∧
      ∃ rest, rest_of past rest ∧ runs_prog rest t ∧
        ∀ node, node ∈ spawned past → (node ∈ running ∧ shut_down node past) ∨ excused_by node rest
  | Exited ending =>
      alive past = ∅ ∧
      (∀ node, node ∈ spawned past → (child_dropped node past ∧ shut_down node past) ∨ excused_at node ending) ∧
      (ending = RunPanicked ∨ (∃ e, ending = RunReturned (Err e)) ∨
       ∃ b loads drain_confirmed, observed b loads drain_confirmed past ∧
         ending = RunReturned (run_result cli loads drain_confirmed))
  end.

(** A panic leaves no node. *)
Lemma unwound_ok h : phase_ok (unwound h).
Proof.
  unfold phase_ok, unwound. cbn [ru_past ru_phase]. split_and!; [|by right|by left].
  rewrite alive_drops. pose proof (alive_spawned h). unfold names in *. set_solver.
Qed.

Lemma faults_run_step b s s' : run_step s s' → faults_run b s → faults_run b s'.
Proof.
  unfold faults_run. destruct 1 as [s before t after w' t' _ En Ht|s w' t' _ Ht|s w' t' _ Ht| |]; simpl;
    intros (Hn & Hc & Hp); split_and!; eauto using runs_thread.
  rewrite En in Hn. eapply Forall2_step; [|exact Hn]. intros p. by eapply runs_thread.
Qed.

Definition idle (h : Hist) : Prop := alive h = ∅ ∧ spawned h = [].

Lemma idle_thread {A} (p : inj A) t : spawnless p → runs_prog p t → idle (th_history t).
Proof. intros Hp Ht. split; [by eapply alive_spawnless|by eapply spawned_spawnless]. Qed.

Lemma idle_threads {A B} (R : A → Thread B → Prop) l ts :
  (∀ x t, x ∈ l → R x t → idle (th_history t)) → Forall2 R l ts → idle (mjoin (th_history <$> ts)).
Proof.
  intros Hidle Hl. assert (Forall idle (th_history <$> ts)) as Hts.
  { apply Forall_fmap. induction Hl as [|x t l ts Hx _ IH]; constructor; [eapply Hidle; [by left|done]|].
    apply IH. intros y u Hy. apply Hidle. by right. }
  split; [apply alive_join|apply spawned_join]; (eapply Forall_impl; [exact Hts|]); by intros h [].
Qed.

Lemma idle_app h1 h2 : idle h1 → alive (h1 ++ h2) ⊆ alive h2 ∧ spawned (h1 ++ h2) = spawned h2.
Proof. intros [Ha Hs]. rewrite spawned_app, Hs. split; [|done]. pose proof (alive_app h1 h2). set_solver. Qed.

(** What the futures of [join!] leave is what the process faults leave. *)
Lemma joined_leaves b faults load settle :
  faults_run b faults →
  Forall2 (λ node t, runs_prog (drive_node cli (bo_links b) node) t) (bo_booted b) load →
  runs_prog (wait_for_any_watermark n (bo_booted b) (secs (cli_settle_timeout_secs cli))) settle →
  alive (joined_history faults load settle) ⊆ alive (th_history (fr_process faults)) ∧
  spawned (joined_history faults load settle) = spawned (th_history (fr_process faults)).
Proof.
  intros (Hn & Hc & Hp) Hl Hs. unfold joined_history.
  apply (idle_thread _ _ (spawnless_settle _ _ _)) in Hs.
  apply (idle_thread _ _ (spawnless_churn_fault _ _ _)) in Hc.
  apply (idle_threads _ _ _ (λ node t _, idle_thread _ _ (spawnless_drive cli _ node))) in Hl.
  pose proof (proj1 (Forall_forall _ _) (spawnless_network cli (bo_booted b) (bo_links b))) as Hnet.
  apply (idle_threads _ _ _ (λ p t Hin, idle_thread p t (Hnet p Hin))) in Hn.
  destruct (idle_app _ (th_history (fr_process faults)) Hn) as [A1 S1].
  destruct (idle_app _ (mjoin (th_history <$> fr_network faults) ++ th_history (fr_process faults)) Hc) as [A2 S2].
  destruct (idle_app _ (th_history (fr_churn faults) ++ mjoin (th_history <$> fr_network faults)
    ++ th_history (fr_process faults)) Hl) as [A3 S3].
  destruct (idle_app _ (mjoin (th_history <$> load) ++ th_history (fr_churn faults)
    ++ mjoin (th_history <$> fr_network faults) ++ th_history (fr_process faults)) Hs) as [A4 S4].
  rewrite S4, S3, S2, S1. split; [|done]. etrans; [exact A4|]. etrans; [exact A3|]. by etrans.
Qed.

Lemma process_outcome faults r :
  armed_result faults = Some r → ∃ rp, outcome_of (fr_process faults) = Some rp ∧ ∀ joined, r = Ok joined → rp = Ok joined.
Proof.
  intros Hr. assert (∃ rp, outcome_of (fr_process faults) = Some rp) as [rp Hrp].
  { unfold armed_result in Hr. repeat case_match; eauto; done. }
  exists rp. split; [done|]. intros joined ->. apply armed_result_ok in Hr as (_ & _ & E). congruence.
Qed.

Lemma started_ok t o : runs_prog (start create_dir_all listen n cli) t → outcome_of t = Some o →
  start_leaves listen cli (th_history t) o.
Proof. intros Ht Ho. eapply start_leaves_ok, runs_outcome; done. Qed.

Lemma shutting_down running :
  Forall2 (λ node t, runs_prog (shutdown n node (secs (cli_shutdown_grace_secs cli))) t) running
    (shutdown_all n cli running).
Proof. apply (Forall2_init (λ node, shutdown n node (secs (cli_shutdown_grace_secs cli)))). Qed.

(** The faults have ended with an error. *)
Lemma faults_fail_ok past b faults load settle progress e :
  phase_ok {| ru_past := past; ru_phase := Injecting b faults load settle progress |} →
  armed_result faults = Some (Err e) →
  phase_ok {| ru_past := drops (orphans faults) ++ joined_history faults load settle ++ past;
    ru_phase := Stopping (bo_booted b) (shutdown_all n cli (bo_booted b)) (Done (Err (FaultsFailed e))) |}.
Proof.
  intros (Ha & Hs & Hb & _ & Hf & Hl & Ht) Hr. cbn [ru_past ru_phase] in *.
  destruct (joined_leaves _ _ _ _ Hf Hl Ht) as [Ja Js]. destruct (process_outcome _ _ Hr) as (rp & Hrp & _).
  destruct Hf as (_ & _ & Hp). pose proof (process_leaves _ _ _ _ _ _ (runs_outcome _ _ _ Hp Hrp)) as (Pa & Ps & Pj).
  unfold phase_ok. cbn [ru_past ru_phase]. split_and!; [| |apply RestError|apply shutting_down].
  - rewrite alive_drops. pose proof (alive_app (joined_history faults load settle) past) as Happ.
    unfold orphans. rewrite Hrp. fold (names match rp with Ok joined => joined | Err _ => [] end).
    destruct rp; set_solver.
  - intros node. rewrite !spawned_app, Js, spawned_drops, (left_id_L [] (++)). intros [Hin|Hin]%elem_of_app; [|left; by apply Hs]. right. simpl.
    assert (node ∈ option_list (bo_joiner b)) as Hj by (destruct rp as [joined|]; [eapply Pj; [done|]|]; by apply Ps).
    pose proof Hb as (_ & _ & _ & _ & _ & Ej). destruct (bo_joiner b) as [joiner|]; [|by apply not_elem_of_nil in Hj].
    apply list_elem_of_singleton in Hj as ->. rewrite (set_up_index _ _ _ _ _ Hb (eq_sym Ej)). lia.
Qed.

(** The faults have ended without an error. *)
Lemma faults_end_ok past b faults load settle progress loads drain_confirmed joined :
  phase_ok {| ru_past := past; ru_phase := Injecting b faults load settle progress |} →
  armed_result faults = Some (Ok joined) → mapM outcome_of load = Some loads →
  outcome_of settle = Some drain_confirmed →
  phase_ok {| ru_past := joined_history faults load settle ++ past;
    ru_phase := Capturing b (bo_booted b ++ joined) loads drain_confirmed
      (Build_Thread [] (capture_manifest (bo_booted b ++ joined) progress (bo_nodes b) (bo_started_at_ms b) cli)) |}.
Proof.
  intros (Ha & Hs & Hb & Hreach & Hf & Hl & Ht) Hr Hloads Hdrain. cbn [ru_past ru_phase] in *.
  destruct (joined_leaves _ _ _ _ Hf Hl Ht) as [Ja Js]. destruct (process_outcome _ _ Hr) as (rp & Hrp & Erp).
  specialize (Erp _ eq_refl) as ->. destruct Hf as (_ & _ & Hp).
  pose proof (process_leaves _ _ _ _ _ _ (runs_outcome _ _ _ Hp Hrp)) as (Pa & Ps & Pj).
  unfold phase_ok. cbn [ru_past ru_phase]. split_and!.
  - pose proof (alive_app (joined_history faults load settle) past). rewrite names_app. set_solver.
  - rewrite spawned_app, Js. set_solver.
  - split; [done| |exists (th_history settle); split; [|by apply runs_outcome]|eauto].
    + apply mapM_Some in Hloads. unfold joined_history. revert Hl Hloads.
      generalize (th_history settle), (th_history (fr_churn faults) ++ mjoin (th_history <$> fr_network faults)
        ++ th_history (fr_process faults)).
      intros hs rest Hl Hloads. assert (Forall2 (λ node r, ∃ h, h ∈ th_history <$> load ∧
        completes (drive_node cli (bo_links b) node) h r) (bo_booted b) loads) as Hc.
      { clear -Hl Hloads. revert loads Hloads. induction Hl as [|node t l ts Ht _ IH]; intros loads Hloads;
          inversion Hloads; subst; constructor.
        - exists (th_history t). split; [by left|by apply runs_outcome].
        - eapply Forall2_impl; [by apply IH|]. intros node' r (h & Hh & Hc). exists h. split; [by right|done]. }
      eapply Forall2_impl; [exact Hc|]. intros node r (h & Hh & Hcompl). exists h. split; [|done].
      rewrite <-!(assoc_L (++)). apply within_newer, within_older, within_join. done.
    + unfold joined_history. rewrite <-!(assoc_L (++)). apply within_older, within_refl.
  - eexists. split; [apply spawnless_capture|apply runs_init].
Qed.

(** Every node has been shut down. *)
Lemma stopped_ok past running nodes rest down :
  phase_ok {| ru_past := past; ru_phase := Stopping running nodes rest |} →
  mapM outcome_of nodes = Some down →
  phase_ok {| ru_past := mjoin (th_history <$> nodes) ++ past; ru_phase := Closing running (Build_Thread [] rest) |}.
Proof.
  intros (Ha & Hs & Hrest & Hn) Hd%mapM_Some. cbn [ru_past ru_phase] in *.
  pose proof (idle_threads _ _ _ (λ node t _, idle_thread _ t (spawnless_shutdown n node _)) Hn) as Hidle.
  destruct (idle_app _ past Hidle) as [Ja Js]. unfold phase_ok. cbn [ru_past ru_phase].
  split; [by etrans|]. exists rest. split_and!; [|apply runs_init|].
  - destruct Hrest; constructor. by apply observed_newer.
  - rewrite Js. intros node [Hin|He]%Hs; [left; split; [done|]|by right]. apply list_elem_of_lookup_1 in Hin as [i Hi].
    destruct (Forall2_lookup_l _ _ _ _ _ Hn Hi) as (t & Ht & Hrun).
    destruct (Forall2_lookup_l _ _ _ _ _ Hd Ht) as ([] & _ & Ho). exists (th_history t). split; [|by apply runs_outcome].
    apply within_older, within_join, list_elem_of_fmap_2. by eapply list_elem_of_lookup_2.
Qed.

Lemma rest_spawnless past rest : rest_of past rest → spawnless rest.
Proof. destruct 1; simpl; [done|]. by split. Qed.

(** [run] returns. *)
Lemma closed_ok past running t r :
  phase_ok {| ru_past := past; ru_phase := Closing running t |} → outcome_of t = Some r →
  phase_ok {| ru_past := drops running ++ th_history t ++ past; ru_phase := Exited (RunReturned r) |}.
Proof.
  intros (Ha & rest & Hrest & Hrun & Hs) Ho. cbn [ru_past ru_phase] in *.
  pose proof (idle_thread _ _ (rest_spawnless _ _ Hrest) Hrun) as Hidle.
  destruct (idle_app _ past Hidle) as [Ja Js]. pose proof (runs_outcome _ _ _ Hrun Ho) as Hc.
  unfold phase_ok. cbn [ru_past ru_phase]. split_and!.
  - rewrite alive_drops. fold (names running). set_solver.
  - intros node. rewrite spawned_app, Js, spawned_drops, (left_id_L [] (++)).
    intros [(Hin & h & Hw & Hd)|He]%Hs; [left; split; [|exists h; eauto using within_newer]|right].
    { apply elem_of_app. left. unfold drops. apply list_elem_of_fmap. by exists node. }
    destruct rest; try done. apply completes_done in Hc as [_ ->]. done.
  - right. destruct Hrest as [e|b manifest loads drain_confirmed Hob].
    + left. apply completes_done in Hc as [_ <-]. eauto.
    + right. exists b, loads, drain_confirmed. split; [by do 2 apply observed_newer|].
      unfold finish in Hc. apply completes_call in Hc as (a & h' & _ & [_ E]%completes_done). by rewrite E.
Qed.

Lemma phase_step_ok s s' : phase_step n cli s s' → phase_ok s → phase_ok s'.
Proof.
  destruct 1 as [past t t' Ht|past t e Ho|past t Hpan|past t running e Ho|past t running e Ho|past t b w Ho Hw
    |past b faults faults' load settle progress Hs|past b faults before t t' after settle progress _ Ht
    |past b faults load t t' progress _ Ht|past b faults load settle progress at_ms fs _
    |past b faults load settle progress Hpan|past b faults load settle progress loads dc e _ Hr _ _|past b faults load settle progress loads dc joined _ Hr Hl Hd
    |past b running loads dc t t' Ht|past b running loads dc t manifest Ho|past running before t t' after rest Ht
    |past running nodes rest down Hd|past running t t' Ht|past running t r Ho];
    [..|intros Hok; by eapply stopped_ok| |intros Hok; by eapply closed_ok]; intros Hok; unfold phase_ok in *; cbn [ru_past ru_phase] in *.
  - destruct Hok as [-> Hok]. eauto using runs_free.
  - destruct Hok as [-> Hok]. rewrite (right_id_L [] (++)). destruct (started_ok _ _ Hok Ho) as [Ha Hs].
    split_and!; [done|rewrite Hs; set_solver|eauto].
  - apply unwound_ok.
  - destruct Hok as [-> Hok]. rewrite (right_id_L [] (++)). destruct (started_ok _ _ Hok Ho) as (Ha & Hs & _).
    split_and!; [done|intros node Hn; left; by apply Hs|constructor|apply shutting_down].
  - destruct Hok as [-> Hok]. rewrite (right_id_L [] (++)). destruct (started_ok _ _ Hok Ho) as (Ha & Hs & e' & ->).
    split; [done|]. exists (Done (Err (LogFailed e'))). split_and!; [constructor|apply runs_init|intros; by right].
  - destruct Hok as [-> Hok]. rewrite (right_id_L [] (++)). destruct (started_ok _ _ Hok Ho) as (Ha & Hs & Hb).
    split_and!; [done..| | |apply Forall2_init|apply runs_init].
    + eapply run_start; [by apply Hb|done].
    + unfold faults_run, run_armed_faults. cbn. split_and!; [|apply runs_init..].
      rewrite <-(list_fmap_id (run_network_faults _ _ _)) at 1. apply Forall2_fmap_l.
      eapply Forall2_impl; [apply (Forall2_init id)|]. done.
  - destruct Hok as (Ha & Hsp & Hb & Hr & Hf & Hl & Ht). split_and!; try done.
    + by eapply run_next.
    + by eapply faults_run_step.
  - destruct Hok as (Ha & Hsp & Hb & Hr & Hf & Hl & Hs). split_and!; try done.
    eapply Forall2_step; [|exact Hl]. intros node. by apply runs_free.
  - destruct Hok as (Ha & Hsp & Hb & Hr & Hf & Hl & Hs). split_and!; try done. by eapply runs_free.
  - done.
  - apply unwound_ok.
  - by apply (faults_fail_ok _ _ _ _ _ progress).
  - by eapply faults_end_ok.
  - destruct Hok as (Ha & Hsp & Hob & p & Hp & Ht0). split_and!; try done. exists p. eauto using runs_free.
  - destruct Hok as (Ha & Hsp & Hob & p & Hp & Ht). destruct (idle_app _ past (idle_thread _ _ Hp Ht)) as [Ja Js].
    split_and!; [by etrans|rewrite Js; intros node Hn; left; by apply Hsp| |apply shutting_down].
    constructor. by apply observed_newer.
  - destruct Hok as (Ha & Hsp & Hrest & Hn). split_and!; try done.
    eapply Forall2_step; [|exact Hn]. intros node. by apply runs_free.
  - destruct Hok as (Ha & rest & Hrest & Hrun & Hs). split; [done|]. exists rest. eauto using runs_free.
Qed.

Lemma run_phase_ok s : reachable s → phase_ok s.
Proof.
  induction 1 as [|s s' _ IH Hs]; [|by eapply phase_step_ok]. split; [done|apply runs_init].
Qed.

(** The calls asked the node to end, by a SIGTERM if it had a pid. *)
Definition child_asked (node : NodeSpec) (h : Hist) : Prop :=
  ∃ pid, existT (Pid (ns_name node)) pid ∈ h ∧
    ∀ p, pid = Some p → ∃ status, existT (Kill "-TERM" p) status ∈ h.

(** They saw it to have exited, or killed it and waited for it. *)
Definition child_ended (node : NodeSpec) (h : Hist) : Prop :=
  (∃ status, existT (TryWait (ns_name node)) (Ok (Some status)) ∈ h) ∨
  ∃ killed waited, existT (StartKill (ns_name node)) killed ∈ h ∧
    existT (WaitChild (ns_name node)) waited ∈ h.

(** They could not tell: [shutdown] returns on an error of [try_wait]. *)
Definition gave_up (node : NodeSpec) (h : Hist) : Prop :=
  ∃ e, existT (TryWait (ns_name node)) (Err e) ∈ h.

Lemma wp_poll_shutdown m node deadline h :
  wp (λ _ _, True) h (poll_shutdown m node deadline) (λ h' _, h ⊆ h' ∧ (child_ended node h' ∨ gave_up node h')).
Proof.
  revert h. induction m as [|m IH]; intros h; cbn [poll_shutdown]; [done|]. split; [done|]. intros waited.
  destruct waited as [[status|]|e] eqn:Ew.
  - split; [set_solver|]. left. left. eexists. by left.
  - split; [done|]. intros now. case_match.
    + split; [done|]. intros killed. split; [done|]. intros reaped. apply wp_ret. split; [set_solver|].
      left. right. exists killed, reaped. split; [right|]; by left.
    + split; [done|]. intros []. eapply wp_mono; [apply IH|]. intros h' _ [Hsub Hend]. split; [set_solver|done].
  - split; [set_solver|]. right. eexists. by left.
Qed.

(** What a [shutdown] has done when it returns. *)
Lemma shutdown_asks node h :
  completes (shutdown n node (secs (cli_shutdown_grace_secs cli))) h tt →
  child_asked node h ∧ (child_ended node h ∨ gave_up node h).
Proof.
  intros Hc. eapply (completes_wp _ _ _ (λ h _, child_asked node h ∧ (child_ended node h ∨ gave_up node h))); [exact Hc|].
  clear Hc. unfold shutdown. split; [done|]. intros pid. apply wp_bind.
  apply (wp_mono _ _ _ (λ h _, existT (Pid (ns_name node)) pid ∈ h ∧
    ∀ p, pid = Some p → ∃ status, existT (Kill "-TERM" p) status ∈ h)).
  - destruct pid as [p|]; [|split; [by left|done]]. split; [done|]. intros status. apply wp_ret.
    split; [by right; left|]. intros ? [= <-]. exists status. by left.
  - intros h' [] [Hp Hk]. split; [done|]. intros now. eapply wp_mono; [apply wp_poll_shutdown|].
    intros h'' _ [Hsub Hend]. split; [|done]. exists pid. split; [set_solver|]. intros p Ep.
    destruct (Hk p Ep) as [status Hst]. exists status. set_solver.
Qed.

(** C31: A fleet run leaves no node behind.  However the process ends, by the return of
    [run] or by a panic, no node it spawned, at the boot or by the membership join, is
    left without having exited, been reaped or been dropped, which kills it.  And each was
    given its chance: one whole [shutdown] was carried out on it, which sent it a SIGTERM
    if it had a pid and either saw it exit, or killed it and waited for it, or gave up on
    an error of [try_wait], and then its handle was dropped.  Only three endings leave a
    node without that [shutdown], dropped alone: a panic, a fault log that could not be
    created and, for the node that joined, faults that failed. *)
Theorem run_leaves_no_node (past : Hist) (ending : Ending) :
  reachable {| ru_past := past; ru_phase := Exited ending |} →
  alive past = ∅ ∧
  ∀ node, node ∈ spawned past →
    (child_dropped node past ∧ ∃ h, within h past ∧
       completes (shutdown n node (secs (cli_shutdown_grace_secs cli))) h tt ∧
       child_asked node h ∧ (child_ended node h ∨ gave_up node h)) ∨
    excused_at node ending.
Proof.
  intros (Ha & Hs & _)%run_phase_ok. split; [done|].
  intros node [(Hdrop & h & Hw & Hc)|He]%Hs; [left|by right].
  split; [done|]. exists h. split_and!; [done|done|by apply shutdown_asks..].
Qed.

(** What a run with a verdict on the load has seen: every node that is not exempt has
    taken every batch in full. *)
Definition load_taken (b : Booted) (past : Hist) : Prop :=
  ∀ i node, bo_booted b !! i = Some node → N.of_nat i ∉ ingest_faulted_nodes cli →
    (0 < cli_load_batches cli)%N ∧
    ∃ h r, within h past ∧ completes (drive_node cli (bo_links b) node) h r ∧
      exports h = replicate (N.to_nat (cli_load_batches cli)) (Ok true).

Lemma accepted_taken b loads drain_confirmed past :
  observed b loads drain_confirmed past → all_batches_accepted cli loads = true → load_taken b past.
Proof.
  intros [_ Hl _ _] Hall i node Hi Hex. destruct (Forall2_lookup_l _ _ _ _ _ Hl Hi) as (r & Hr & h & Hw & Hc).
  unfold all_batches_accepted in Hall. rewrite forallb_forall in Hall.
  assert (fully_accepted r = true) as Hf.
  { match type of Hall with ∀ x, In x (imap ?f _) → _ => specialize (Hall (f i r)) end. cbv beta in Hall.
    rewrite (bool_decide_eq_false_2 (N.of_nat i ∈ _)), andb_false_r in Hall by done. simpl in Hall. apply Hall.
    apply list_elem_of_In, elem_of_lookup_imap. eexists i, r. split; [|done].
    rewrite (bool_decide_eq_false_2 (N.of_nat i ∈ _)), andb_false_r by done. done. }
  destruct (drive_node_accepted cli _ _ _ _ Hc Hf) as [Hpos He]. split; [done|]. eauto.
Qed.

(** C32: The exit code says what the run has seen.  A run exits with 0, 1 or 2, or with
    101, when and only when it panicked.  With 0 and with 2 the faults ended without an
    error and every booted node that no armed fault exempts took every batch of its load
    in full; with 0 some node has shown a watermark.  With 2 none did until the time to
    settle was over: the watch read the clock, and polled until it read the clock again at
    least [--settle-timeout-secs] later; no poll saw a watermark, and the last thing before that
    reading was a poll of every booted node. *)
Theorem exit_code_honest (past : Hist) (ending : Ending) :
  reachable {| ru_past := past; ru_phase := Exited ending |} →
  exit_code ending ∈ [EXIT_OK; EXIT_HARD_FAILURE; EXIT_DRAIN_UNCONFIRMED; EXIT_PANICKED] ∧
  (exit_code ending = EXIT_PANICKED ↔ ending = RunPanicked) ∧
  (exit_code ending = EXIT_OK ∨ exit_code ending = EXIT_DRAIN_UNCONFIRMED → ∃ b, set_up_ok listen cli b ∧ load_taken b past ∧
     (∃ faults joined, run_reachable cli (bo_booted b) (bo_joiner b) (bo_links b) faults ∧
        armed_result faults = Some (Ok joined)) ∧
     (exit_code ending = EXIT_OK → drained (bo_booted b) past) ∧
     (exit_code ending = EXIT_DRAIN_UNCONFIRMED → ∃ h, within h past ∧
        waited_in_vain (bo_booted b) (secs (cli_settle_timeout_secs cli)) h)).
Proof.
  intros (_ & _ & Hr)%run_phase_ok. cbn [ru_past] in Hr.
  destruct Hr as [->|[[e ->]|(b & loads & dc & Hob & ->)]].
  { split_and!; [set_solver|done|by intros []]. }
  { split_and!; [set_solver|done|by intros []]. }
  unfold run_result. destruct (all_batches_accepted cli loads) eqn:Eall; simpl; [|split_and!; [set_solver|done|by intros []]].
  pose proof (accepted_taken _ _ _ _ Hob Eall) as Ht. destruct Hob as [Hs _ (h & Hw & Hc) Hf].
  destruct dc; (split_and!; [set_solver|done|]); intros _; exists b; split_and!; try done;
    [|intros _; exists h; split; [done|by eapply settle_in_vain]].
  intros _. destruct (settle_drained _ _ _ _ Hc) as (node & f & Hn & Hin & Hwm). exists node, f.
  split_and!; [done| |done]. destruct Hw as (newer & older & ->). set_solver.
Qed.
End whole.

(** ** Every part of a run ends *)

Section ends.
Context `{RunLibs}.
Context (create_dir_all : string → result unit string) (listen : string → result N string).
Context (fuel messages : nat) (cli : Cli).
Context (logs : string → Prop).

(** Enough fuel for what a run waits for besides its faults. *)
Record enough_run : Prop := {
  er_faults : enough cli messages fuel;
  er_settle : (secs (cli_settle_timeout_secs cli) < (N.of_nat fuel - 1) * 500)%N;
}.

Lemma ends_bind_wp {A B} (R : A → Prop) t m h (p : inj A) (f : A → inj B) :
  wp (λ _ _, True) h p (λ _ a, R a) → ends logs t m p →
  (∀ a t' m', R a → (t ≤ t')%N → (m' ≤ m)%nat → ends logs t' m' (f a)) → ends logs t m (ibind p f).
Proof.
  intros Hwp Hp. revert h Hwp. induction Hp as [t m a|t m c k _ IH]; intros h Hwp Hf; simpl.
  - apply Hf; [exact Hwp|lia|lia].
  - constructor. intros a t' m' Hk. pose proof Hk as (Ht & Hm & _). eapply IH; [exact Hk|by apply Hwp|].
    intros b t'' m'' Hb ??. apply Hf; [done|lia..].
Qed.

Ltac run_ends :=
  repeat first
    [ assumption
    | apply EndsDone
    | match goal with |- ends _ _ _ (ibind _ _) => apply ends_bind; [|intros] end
    | match goal with |- ends _ _ _ (Call _ _) => apply ends_call; intros end
    | match goal with |- ends _ _ _ (match ?x with _ => _ end) => destruct x eqn:? end
    | match goal with IH : ∀ _, _ |- _ => apply IH end ].

Lemma set_up_ends t : (cli_nodes cli + (if cli_fault_churn_join cli then 1 else 0) ≤ u16_max)%N →
  ends logs t messages (set_up create_dir_all listen cli).
Proof.
  intros Hcount.
  assert (∀ dirs t m, ends logs t m (search_dirs dirs)) as Hdirs.
  { intros dirs. induction dirs as [|dir dirs IH]; intros; cbn [search_dirs]; run_ends. }
  assert (∀ plan all links nodes t m, ends logs t m (write_configs cli plan all links nodes)) as Hconf.
  { intros plan all links nodes. induction nodes as [|node nodes IH]; intros; cbn [write_configs]; unfold write_file; run_ends. }
  unfold set_up, resolve_daemon_bin, search_path, check_backends, check_reachable, build_plan, write_file. run_ends.
  exfalso. match goal with Hp : provision_nodes _ _ _ _ _ = Ok _ |- _ => apply provision_from_spec in Hp; subst end.
  match goal with Hl : (_ <? _)%nat = true |- _ => apply Nat.ltb_lt in Hl; rewrite !length_fmap, length_seq in Hl end.
  unfold u16_add, u16_max in *. destruct (cli_fault_churn_join cli); rewrite N.mod_small in * by lia; lia.
Qed.

Lemma await_ends nodes t m : (∀ node, node ∈ nodes → logs (ns_stderr_path node)) →
  (secs (cli_boot_timeout_secs cli) < (N.of_nat fuel - 1) * 250)%N →
  ends logs t m (await_nodes fuel (secs (cli_boot_timeout_secs cli)) nodes).
Proof.
  intros Hlogs Hf. revert t m Hlogs. induction nodes as [|node nodes IH]; intros t m Hlogs; cbn [await_nodes]; [constructor|].
  apply ends_bind; [apply wait_until_ready_ends; [apply Hlogs; by left|done]|]. intros [[]|e] t' m' _ _; [|constructor].
  apply IH. intros node' Hin. apply Hlogs. by right.
Qed.

Lemma spawn_nodes_ends running nodes t m : ends logs t m (spawn_nodes cli running nodes).
Proof. revert running t m. induction nodes as [|node nodes IH]; intros; cbn [spawn_nodes]; run_ends. Qed.

(** The logs of the nodes of a fleet. *)
Lemma provisioned_logs b node : (∀ dir, logs (path_join dir "stderr.log")) →
  set_up_ok listen cli b → node ∈ bo_nodes b → logs (ns_stderr_path node).
Proof. intros Hlogs (_ & _ & _ & -> & _) (i & -> & _)%list_elem_of_fmap. apply Hlogs. Qed.

Lemma start_ends t : enough_run → (∀ dir, logs (path_join dir "stderr.log")) →
  (cli_nodes cli + (if cli_fault_churn_join cli then 1 else 0) ≤ u16_max)%N →
  ends logs t messages (start create_dir_all listen fuel cli).
Proof.
  intros [[] _] Hlogs Hcount. unfold start.
  eapply ends_bind_wp; [apply (set_up_underway create_dir_all listen cli [])|by apply set_up_ends|].
  intros [b|e] t1 m1 Hb _ _; [|constructor]. specialize (Hb b eq_refl). unfold boot_fleet. apply ends_bind.
  - eapply (ends_bind_wp (λ r, r.2 = Ok tt → r.1 = bo_booted b)); [|apply spawn_nodes_ends|].
    + eapply wp_spawn_nodes with (h := []); [done..|]. intros h' running r _ _ Hr. exact Hr.
    + intros [running [[]|e]] t2 m2 Hr _ _; [|constructor]. specialize (Hr eq_refl) as ->. cbn [fst snd].
      apply ends_bind; [|intros; constructor]. apply await_ends; [|done]. intros node Hin.
      eapply provisioned_logs; [done..|]. pose proof Hb as (_ & _ & _ & _ & E & _). rewrite E in Hin.
      eapply sublist_subseteq, Hin. apply sublist_take.
  - intros boot t2 m2 _ _. unfold spawn_loadgen_best_effort. run_ends.
Qed.

Lemma drive_node_ends links node t m : ends logs t m (drive_node cli links node).
Proof.
  unfold drive_node, drive_load, run_base_nanos. apply ends_bind; [|intros; constructor].
  apply ends_call. intros [[]|e] t' m' _ _; [|constructor]. apply ends_bind; [run_ends|]. intros base t2 m2 _ _.
  match goal with |- ends _ _ _ (send_batches ?k _ _ _ ?i ?r) => generalize k, i, r end.
  intros k. revert t2 m2. induction k as [|k IH]; intros; cbn [send_batches]; run_ends.
Qed.

Lemma settle_ends nodes timeout t m : (timeout < (N.of_nat fuel - 1) * 500)%N →
  ends logs t m (wait_for_any_watermark fuel nodes timeout).
Proof.
  intros Hf. constructor. intros now t' m' (_ & _ & ->). apply poll_until_ends; [|nia|nia].
  intros t2 m2. revert t2 m2. induction nodes as [|node nodes IH]; intros; cbn [any_watermark]; run_ends.
Qed.

Lemma poll_shutdown_ends k node deadline t m :
  (deadline < t + (N.of_nat k - 1) * 200)%N → (0 < k)%nat → ends logs t m (poll_shutdown k node deadline).
Proof.
  revert t m. induction k as [|k IH]; intros t m Hd Hk; [lia|]. cbn [poll_shutdown].
  apply ends_call. intros [[status|]|e] t1 m1 Ht1 Hm1; [constructor| |constructor].
  constructor. intros now t2 m2 (Ht2 & Hm2 & ->). destruct (N.leb_spec deadline t2); [run_ends|].
  constructor. intros [] t3 m3 (Ht3 & Hm3 & Hsl). simpl in *. apply IH; nia.
Qed.

Lemma shutdown_ends node grace t m : (grace < (N.of_nat fuel - 1) * 200)%N → ends logs t m (shutdown fuel node grace).
Proof.
  intros Hf. unfold shutdown. apply ends_call. intros pid t1 m1 _ _. apply ends_bind; [run_ends|]. intros _ t2 m2 _ _.
  constructor. intros now t3 m3 (_ & _ & ->). apply poll_shutdown_ends; nia.
Qed.

Lemma capture_ends running progress nodes started_at_ms t m :
  ends logs t m (capture_manifest running progress nodes started_at_ms cli).
Proof.
  unfold capture_manifest. apply ends_call. intros now t1 m1 _ _. apply ends_bind.
  - clear. revert t1 m1. induction nodes as [|node nodes IH]; intros; cbn [read_journals]; run_ends.
  - intros reads t2 m2 _ _. apply ends_bind; [|intros; constructor]. clear. revert t2 m2.
    induction running as [|node running IH]; intros; cbn [try_waits]; run_ends.
Qed.

(** C33: A fleet run ends.  With the fuel its timeouts ask for, over a clock that does not
    go back and sleeps as long as it is told, surroundings that answer every call (the
    source waits for a status, an export, a connection and an exit without a timeout of
    its own), finite streams, logs that are not cut inside a character and a number of
    nodes that fits its 16 bits, every program of a run returns, whatever it is answered:
    the set up and boot; then every future of the faults, of the load and of the watch for
    a drained window; the capture of the manifest, the shutdown of every node and the
    return. *)
Theorem fleet_run_ends (t : N) :
  enough_run → (∀ dir, logs (path_join dir "stderr.log")) →
  (cli_nodes cli + (if cli_fault_churn_join cli then 1 else 0) ≤ u16_max)%N →
  ends logs t messages (start create_dir_all listen fuel cli) ∧
  (∀ h b w t', completes (start create_dir_all listen fuel cli) h (Underway b) →
     let faults := run_armed_faults fuel cli (bo_booted b) (bo_joiner b) (bo_links b) w in
     Forall (λ thread, ends logs t' messages (th_prog thread)) (fr_network faults) ∧
     ends logs t' messages (th_prog (fr_churn faults)) ∧ ends logs t' messages (th_prog (fr_process faults)) ∧
     Forall (λ node, ends logs t' messages (drive_node cli (bo_links b) node)) (bo_booted b) ∧
     ends logs t' messages (wait_for_any_watermark fuel (bo_booted b) (secs (cli_settle_timeout_secs cli)))) ∧
  ∀ t' running progress nodes started_at_ms work_dir manifest loads drain_confirmed,
    ends logs t' messages (capture_manifest running progress nodes started_at_ms cli) ∧
    Forall (λ thread, ends logs t' messages (th_prog thread)) (shutdown_all fuel cli running) ∧
    ends logs t' messages (finish cli work_dir manifest loads drain_confirmed).
Proof.
  intros He Hlogs Hcount. split; [by apply start_ends|]. pose proof He as [Hfaults Hsettle]. split.
  - intros h b w t' Hc. apply start_leaves_ok in Hc as (_ & _ & Hb).
    destruct (armed_faults_end logs fuel messages cli (bo_booted b) (bo_joiner b) (bo_links b) w t') as (Hn & Hch & Hp);
      [done| |].
    { intros node Hj. eapply provisioned_logs; [done..|]. pose proof Hb as (_ & _ & _ & _ & _ & E). rewrite E in Hj.
      by eapply list_elem_of_lookup_2. }
    split_and!; [exact Hn|exact Hch|exact Hp| |by apply settle_ends]. apply Forall_forall. intros. apply drive_node_ends.
  - intros. split_and!; [apply capture_ends| |unfold finish; run_ends]. apply Forall_fmap, Forall_forall.
    intros node _. simpl. apply shutdown_ends. destruct Hfaults. lia.
Qed.
End ends.
