(* ===== verification/Ctk.v ===== *)
(** * The deterministic test kit

    Models [crates/duckspout-ctk/src/]: the injector ledger, the virtual clock, the
    seeded strategy and scheduler, the in-memory storage and network; and the storage
    port of the daemon ([FsStorage] of [crates/duckspout-daemon/src/system.rs]).  The
    boot ceremony is run over both storages. *)

From Stdlib Require Import Ascii.
From S2P Require Import Prelude RustStd Types Ports Fencing Hrw Boot Cluster BTree.

(** ** ledger.rs *)

(** [FaultCount] *)
Record FaultCount := { fc_armed : N; fc_fired : N }.

Definition count_default : FaultCount := {| fc_armed := 0; fc_fired := 0 |}.

(** [InjectorLedger] *)
Abbreviation InjectorLedger := (gmap string FaultCount).

(** [InjectorLedger::arm] *)
Definition arm (ledger : InjectorLedger) (id : string) : InjectorLedger :=
  let count := default count_default (ledger !! id) in
  <[id := {| fc_armed := u64_succ (fc_armed count); fc_fired := fc_fired count |}]> ledger.

(** [InjectorLedger::fired] *)
Definition fired (ledger : InjectorLedger) (id : string) : InjectorLedger :=
  let count := default count_default (ledger !! id) in
  <[id := {| fc_armed := fc_armed count; fc_fired := u64_succ (fc_fired count) |}]> ledger.

(** [InjectorLedger::count] *)
Definition count (ledger : InjectorLedger) (id : string) : FaultCount :=
  default count_default (ledger !! id).

(** [InjectorLedger::vacuously_armed] *)
Definition vacuously_armed (ledger : InjectorLedger) : list string :=
  (filter (λ entry : string * FaultCount, (0 < fc_armed entry.2)%N ∧ fc_fired entry.2 = 0%N)
     (btree_iter ledger)).*1.

(** ** clock.rs *)

(** [VirtualClock]: the nanoseconds. *)
Record VirtualClock := { vc_nanos : N }.

(** [VirtualClock::new] *)
Definition clock_new : VirtualClock := {| vc_nanos := 0 |}.

(** [VirtualClock::advance_nanos] *)
Definition advance_nanos (clock : VirtualClock) (delta : N) : VirtualClock :=
  {| vc_nanos := u64_add (vc_nanos clock) delta |}.

(** [VirtualClock::advance_to_nanos] *)
Definition advance_to_nanos (clock : VirtualClock) (deadline : N) : VirtualClock :=
  {| vc_nanos := N.max (vc_nanos clock) deadline |}.

(** [VirtualClock::wall_unix_ms] *)
Definition wall_unix_ms (clock : VirtualClock) : Z :=
  Z.min (Z.of_N (vc_nanos clock / 1000000)) i64_max.

(** ** strategy.rs *)

(** [ScheduleStrategy] *)
Class ScheduleStrategy (G : Type) := next_index : G → nat → nat * G.

(** [SeededRandom] *)
Record SeededRandom := { sr_state : N }.

(** [SeededRandom::new] *)
Definition seeded_new (seed : N) : SeededRandom := {| sr_state := seed |}.

(** [SeededRandom::next_random] *)
Definition next_random (g : SeededRandom) : N * SeededRandom :=
  let state := u64_add (sr_state g) 11400714819323198485 in
  let z := state in
  let z := wrapping_mul (N.lxor z (N.shiftr z 30)) 13787848793156543929 in
  let z := wrapping_mul (N.lxor z (N.shiftr z 27)) 10723151780598845931 in
  (N.lxor z (N.shiftr z 31), {| sr_state := state |}).

#[global] Instance SeededRandom_strategy : ScheduleStrategy SeededRandom := λ g pending,
  let '(r, g) := next_random g in (N.to_nat (r mod N.of_nat pending), g).

(** ** storage.rs *)

Definition FSYNC_FAIL_FAULT : string := "storage:fail-next-fsync".
Definition TORN_WRITE_FAULT : string := "storage:tear-next-put".

(** [FileState] *)
Record FileState := {
  fi_content : Bytes;
  fi_content_durable : bool;
  fi_name_durable : bool;
  fi_torn : bool;
}.

(** [InMemStorage]: the fields of [StoreInner], and the ledger. *)
Record InMemStorage := {
  im_files : gmap StoragePath FileState;
  im_fail_next_fsync : bool;
  im_tear_next_put : bool;
  im_ledger : InjectorLedger;
}.

Definition set_files (s : InMemStorage) (files : gmap StoragePath FileState) : InMemStorage :=
  {| im_files := files; im_fail_next_fsync := im_fail_next_fsync s;
     im_tear_next_put := im_tear_next_put s; im_ledger := im_ledger s |}.

(** [parent_dir] *)
Definition parent_dir (path : StoragePath) : string :=
  match rsplit_once "/" path with Some (dir, _) => dir | None => "" end.

(** [InMemStorage::new] *)
Definition storage_new (ledger : InjectorLedger) : InMemStorage :=
  {| im_files := ∅; im_fail_next_fsync := false; im_tear_next_put := false; im_ledger := ledger |}.

(** [InMemStorage::arm_fsync_failure] *)
Definition arm_fsync_failure (s : InMemStorage) : InMemStorage :=
  {| im_files := im_files s; im_fail_next_fsync := true; im_tear_next_put := im_tear_next_put s;
     im_ledger := arm (im_ledger s) FSYNC_FAIL_FAULT |}.

(** [InMemStorage::arm_torn_write] *)
Definition arm_torn_write (s : InMemStorage) : InMemStorage :=
  {| im_files := im_files s; im_fail_next_fsync := im_fail_next_fsync s; im_tear_next_put := true;
     im_ledger := arm (im_ledger s) TORN_WRITE_FAULT |}.

(** [InMemStorage::crash] *)
Definition crash (s : InMemStorage) : InMemStorage :=
  {| im_files := filter (λ entry : StoragePath * FileState,
                    fi_content_durable entry.2 && fi_name_durable entry.2 = true) (im_files s);
     im_fail_next_fsync := false; im_tear_next_put := false; im_ledger := im_ledger s |}.

(** [InMemStorage::paths] *)
Definition paths (s : InMemStorage) : list StoragePath := (btree_iter (im_files s)).*1.

(** [Storage::put] *)
Definition put (s : InMemStorage) (path : StoragePath) (data : Bytes) :
    result unit StorageError * InMemStorage :=
  let torn := im_tear_next_put s in
  let stored := if torn then String.substring 0 (String.length data / 2) data else data in
  let name_durable := match im_files s !! path with Some f => fi_name_durable f | None => false end in
  (Ok tt,
   {| im_files := <[path := {| fi_content := stored; fi_content_durable := false;
                               fi_name_durable := name_durable; fi_torn := torn |}]> (im_files s);
      im_fail_next_fsync := im_fail_next_fsync s; im_tear_next_put := false;
      im_ledger := if torn then fired (im_ledger s) TORN_WRITE_FAULT else im_ledger s |}).

(** [Storage::get] *)
Definition get (s : InMemStorage) (path : StoragePath) : result Bytes StorageError :=
  match im_files s !! path with
  | Some f => if fi_torn f then Err (TornWrite path) else Ok (fi_content f)
  | None => Err (NotFound path)
  end.

(** [Storage::delete] *)
Definition delete_file (s : InMemStorage) (path : StoragePath) :
    result unit StorageError * InMemStorage :=
  match im_files s !! path with
  | Some _ => (Ok tt, set_files s (delete path (im_files s)))
  | None => (Err (NotFound path), s)
  end.

(** [Storage::fsync_file] *)
Definition fsync_file (s : InMemStorage) (path : StoragePath) :
    result unit StorageError * InMemStorage :=
  if im_fail_next_fsync s then
    (Err (FsyncFailed path),
     {| im_files := im_files s; im_fail_next_fsync := false; im_tear_next_put := im_tear_next_put s;
        im_ledger := fired (im_ledger s) FSYNC_FAIL_FAULT |})
  else
    match im_files s !! path with
    | Some f =>
        (Ok tt, set_files s (<[path := {| fi_content := fi_content f; fi_content_durable := true;
                                          fi_name_durable := fi_name_durable f;
                                          fi_torn := fi_torn f |}]> (im_files s)))
    | None => (Err (NotFound path), s)
    end.

(** [Storage::fsync_dir] *)
Definition fsync_dir (s : InMemStorage) (dir : StoragePath) :
    result unit StorageError * InMemStorage :=
  (Ok tt, set_files s (map_imap (λ path f, Some
     (if decide (parent_dir path = dir)
      then {| fi_content := fi_content f; fi_content_durable := fi_content_durable f;
              fi_name_durable := true; fi_torn := fi_torn f |}
      else f)) (im_files s))).

#[global] Instance InMemStorage_storage : Storage InMemStorage :=
  {| st_get := get; st_put := put; st_fsync_file := fsync_file; st_fsync_dir := fsync_dir |}.

(** ** [FsStorage] *)

(** [std::fs]: an error is its text. *)
Class OsFiles (F : Type) := {
  os_write : F → string → Bytes → result unit string * F;
  os_read : F → string → result Bytes string;
  os_remove : F → string → result unit string * F;
  os_sync : F → string → result unit string;
}.

(** [FsStorage]: the root, and the file system. *)
Record FsStorage (F : Type) := { fs_root : string; fs_files : F }.
Arguments fs_root {F} f : rename.
Arguments fs_files {F} f : rename.

Section fs.
Context `{OsFiles F}.

(** [FsStorage::resolve] *)
Definition fs_resolve (s : FsStorage F) (path : StoragePath) : string :=
  if bool_decide (path = "") then fs_root s else path_join (fs_root s) path.

Definition fs_get (s : FsStorage F) (path : StoragePath) : result Bytes StorageError :=
  map_err StorageBackend (os_read (fs_files s) (fs_resolve s path)).

Definition fs_put (s : FsStorage F) (path : StoragePath) (data : Bytes) :
    result unit StorageError * FsStorage F :=
  let '(r, files) := os_write (fs_files s) (fs_resolve s path) data in
  (map_err StorageBackend r, {| fs_root := fs_root s; fs_files := files |}).

Definition fs_delete (s : FsStorage F) (path : StoragePath) : result unit StorageError * FsStorage F :=
  let '(r, files) := os_remove (fs_files s) (fs_resolve s path) in
  (map_err StorageBackend r, {| fs_root := fs_root s; fs_files := files |}).

(** [fsync_file] and [fsync_dir] open the path and call [sync_all]. *)
Definition fs_fsync (s : FsStorage F) (path : StoragePath) : result unit StorageError * FsStorage F :=
  (map_err (λ _, FsyncFailed path) (os_sync (fs_files s) (fs_resolve s path)), s).

#[global] Instance FsStorage_storage : Storage (FsStorage F) :=
  {| st_get := fs_get; st_put := fs_put; st_fsync_file := fs_fsync; st_fsync_dir := fs_fsync |}.

(** The daemon's storage reports a missing file as a backend error, so the boot
    ceremony of a node that has never booted refuses. *)
Lemma fs_fresh_boot_refused `{Registry R} (s : FsStorage F) (r : R) n path dir text :
  os_read (fs_files s) (fs_resolve s path) = Err text →
  fence_boot s r n path dir = (Err (PersistedIncarnationUnreadable (StorageBackend text)), s, r).
Proof.
  intros E. unfold fence_boot, read_persisted_incarnation. simpl. unfold fs_get. by rewrite E.
Qed.
End fs.

(** ** The boot ceremony over a storage that crashes *)

(** A registry that gives one answer, whatever it is. *)
#[global] Instance answering : Registry (result N RegistryError) :=
  {| rg_next_incarnation answer _ := (answer, answer) |}.

Definition active_of (outcome : result BootOutcome BootError) : list N :=
  match outcome with Ok (Active i) => [i] | _ => [] end.

(** The incarnation file, if there is one, survives a crash. *)
Definition durable_at (s : InMemStorage) (path : StoragePath) : Prop :=
  ∀ f, im_files s !! path = Some f → fi_content_durable f && fi_name_durable f = true.

(** How far a boot that is killed has come with [persist_incarnation]: it has put the
    file, or synced it too. *)
Definition persist_killed (s : InMemStorage) (path : StoragePath) (fresh : N) (synced : bool) : InMemStorage :=
  let s := (put s path (pretty fresh)).2 in if synced then (fsync_file s path).2 else s.

(** The life of a node's storage: boots of the node, which any registry may answer,
    processes killed inside a boot, torn writes, failing syncs, any use of other files,
    and crashes that find the incarnation file durable; with the incarnations of the
    active boots so far. *)
Inductive boot_history (n : NodeId) (path : StoragePath) : InMemStorage → list N → Prop :=
| bh_new ledger : boot_history n path (storage_new ledger) []
| bh_crash s drawn :
    boot_history n path s drawn → durable_at s path → boot_history n path (crash s) drawn
| bh_tear s drawn : boot_history n path s drawn → boot_history n path (arm_torn_write s) drawn
| bh_fail s drawn : boot_history n path s drawn → boot_history n path (arm_fsync_failure s) drawn
| bh_put s drawn other data :
    boot_history n path s drawn → other ≠ path → boot_history n path (put s other data).2 drawn
| bh_delete s drawn other :
    boot_history n path s drawn → other ≠ path → boot_history n path (delete_file s other).2 drawn
| bh_fsync_file s drawn other :
    boot_history n path s drawn → boot_history n path (fsync_file s other).2 drawn
| bh_fsync_dir s drawn dir :
    boot_history n path s drawn → boot_history n path (fsync_dir s dir).2 drawn
| bh_killed s drawn prior fresh synced :
    boot_history n path s drawn → is_u64 fresh →
    read_persisted_incarnation s path = Ok prior → (∀ i, prior = Some i → (i < fresh)%N) →
    boot_history n path (persist_killed s path fresh synced) drawn
| bh_boot s drawn answer outcome s' answer' :
    boot_history n path s drawn → (∀ i, answer = Ok i → is_u64 i) →
    fence_boot s answer n path (parent_dir path) = (outcome, s', answer') →
    boot_history n path s' (drawn ++ active_of outcome).

(** A file that is known to be torn, or holds an incarnation not below [i]. *)
Definition holds_from (i : N) (f : FileState) : Prop :=
  fi_torn f = true ∨ fi_torn f = false ∧ ∃ h, is_u64 h ∧ (i ≤ h)%N ∧ fi_content f = pretty h.

(** After an active boot there is a file, and it does not go back. *)
Definition incarnation_file (s : InMemStorage) (path : StoragePath) (drawn : list N) : Prop :=
  ∀ i, last drawn = Some i → ∃ f, im_files s !! path = Some f ∧ holds_from i f.

Definition history_ok (s : InMemStorage) (path : StoragePath) (drawn : list N) : Prop :=
  incarnation_file s path drawn ∧ StronglySorted (λ i j, i < j)%N drawn.

(** The contents of the file are kept. *)
Definition same_contents (s s' : InMemStorage) (path : StoragePath) : Prop :=
  ∀ f, im_files s !! path = Some f →
    ∃ f', im_files s' !! path = Some f' ∧ fi_torn f' = fi_torn f ∧ fi_content f' = fi_content f.

Lemma history_ok_same s s' path drawn :
  same_contents s s' path → history_ok s path drawn → history_ok s' path drawn.
Proof.
  intros Hs [Hi Hso]. split; [|done]. intros i Hl. destruct (Hi i Hl) as (f & Hf & Hh).
  destruct (Hs f Hf) as (f' & Hf' & Et & Ec). exists f'. split; [done|]. unfold holds_from in *. by rewrite Et, Ec.
Qed.

Lemma same_contents_eq s s' path : im_files s' !! path = im_files s !! path → same_contents s s' path.
Proof. intros E f Hf. exists f. by rewrite E. Qed.

Lemma crash_same s path : durable_at s path → same_contents s (crash s) path.
Proof.
  intros Hd f Hf. exists f. split; [|done]. apply map_lookup_filter_Some. split; [done|]. by apply Hd.
Qed.

Lemma fsync_file_same s path other : same_contents s (fsync_file s other).2 path.
Proof.
  unfold fsync_file. destruct (im_fail_next_fsync s); [by apply same_contents_eq|].
  destruct (im_files s !! other) as [g|] eqn:E; [|by apply same_contents_eq]. simpl. intros f Hf. simpl.
  destruct (decide (other = path)) as [->|]; [|rewrite lookup_insert_ne by done; eauto].
  rewrite lookup_insert_eq. eexists. split; [done|]. simpl. by simplify_eq.
Qed.

Lemma fsync_dir_same s path dir : same_contents s (fsync_dir s dir).2 path.
Proof.
  intros f Hf. simpl. rewrite map_lookup_imap, Hf. simpl. eexists. split; [done|]. by case_decide.
Qed.

(** What a boot reads. *)
Lemma read_holds s path f i : im_files s !! path = Some f → holds_from i f →
  (∃ h, (i ≤ h)%N ∧ read_persisted_incarnation s path = Ok (Some h)) ∨
  read_persisted_incarnation s path = Err (PersistedIncarnationUnreadable (TornWrite path)).
Proof.
  intros Hf [Ht|(Ht & h & Hty & Hle & Hc)]; unfold read_persisted_incarnation; simpl; unfold get;
    rewrite Hf, Ht; [by right|left]. exists h. split; [done|].
  by rewrite Hc, (utf8_digits _ (pretty_digits h)), (trim_digits _ (pretty_digits h)), parse_pretty.
Qed.

(** What it leaves: whatever becomes of the syncs, the file holds the fresh incarnation. *)
Lemma put_holds s path fresh : is_u64 fresh →
  ∃ f, im_files (put s path (pretty fresh)).2 !! path = Some f ∧ holds_from fresh f.
Proof.
  intros Hty. simpl. rewrite lookup_insert_eq. eexists. split; [done|]. unfold holds_from. simpl.
  destruct (im_tear_next_put s); [by left|right]. split; [done|]. by exists fresh.
Qed.

Lemma killed_holds s path fresh synced : is_u64 fresh →
  ∃ f, im_files (persist_killed s path fresh synced) !! path = Some f ∧ holds_from fresh f.
Proof.
  intros Hty. destruct (put_holds s path fresh Hty) as (f & Hf & Hh). unfold persist_killed.
  destruct synced; [|by eauto]. destruct (fsync_file_same _ path path f Hf) as (f' & Hf' & Et & Ec).
  exists f'. split; [done|]. unfold holds_from in *. by rewrite Et, Ec.
Qed.

(** [persist_incarnation] succeeds or fails in its first sync; a success is durable. *)
Lemma persist_cases s path fresh r s' :
  persist_incarnation s path (parent_dir path) fresh = (r, s') →
  (∃ e, r = Err e ∧ s' = persist_killed s path fresh true) ∨
  r = Ok tt ∧ same_contents (persist_killed s path fresh true) s' path ∧
  ∃ f, im_files s' !! path = Some f ∧ fi_content_durable f && fi_name_durable f = true.
Proof.
  unfold persist_incarnation, persist_killed. cbn [st_put st_fsync_file st_fsync_dir InMemStorage_storage].
  destruct (put s path (pretty fresh)) as [rp s1] eqn:Ep. pose proof Ep as [= <- _].
  cbn [snd]. destruct (fsync_file s1 path) as [[[]|e] s2] eqn:Ef; [|intros [= <- <-]; left; by eexists].
  cbn [fsync_dir snd]. intros [= <- <-]. right. split; [done|]. split; [apply (fsync_dir_same s2 path)|].
  unfold fsync_file in Ef. destruct (im_fail_next_fsync s1); [done|].
  destruct (im_files s1 !! path) as [f|] eqn:E1; [|done]. injection Ef as <-. simpl.
  rewrite map_lookup_imap, lookup_insert_eq. simpl. eexists. split; [done|]. by rewrite decide_True.
Qed.

Lemma holds_from_le i j f : (i ≤ j)%N → holds_from j f → holds_from i f.
Proof. intros Hij [?|(? & h & ? & ? & ?)]; [by left|right]. split; [done|]. exists h. split_and!; [done|lia|done]. Qed.

Lemma sorted_snoc (l : list N) (x : N) :
  StronglySorted (λ i j, i < j)%N l → (∀ y, last l = Some y → (y < x)%N) →
  StronglySorted (λ i j, i < j)%N (l ++ [x]).
Proof.
  intros Hs Hx. apply StronglySorted_app_2; [|done|repeat constructor].
  intros y ? Hy ->%list_elem_of_singleton. destruct l as [|z l] using rev_ind; [by apply not_elem_of_nil in Hy|].
  specialize (Hx z). rewrite last_snoc in Hx. specialize (Hx eq_refl).
  apply elem_of_app in Hy as [Hy|Hy]; [|by apply list_elem_of_singleton in Hy as ->].
  apply StronglySorted_app in Hs as (Hlt & _ & _). specialize (Hlt y z Hy ltac:(by left)). lia.
Qed.

(** The incarnations of active boots stay below what a boot persists over them. *)
Lemma fresh_above s path drawn prior fresh :
  incarnation_file s path drawn → read_persisted_incarnation s path = Ok prior →
  (∀ i, prior = Some i → (i < fresh)%N) → ∀ i, last drawn = Some i → (i < fresh)%N.
Proof.
  intros Hi Hr Hlt i Hl. destruct (Hi i Hl) as (f & Hf & Hh).
  destruct (read_holds s path f i Hf Hh) as [(h & Hle & E)|E]; rewrite E in Hr; [|done].
  injection Hr as <-. specialize (Hlt h eq_refl). lia.
Qed.

Lemma killed_ok s path drawn prior fresh synced :
  history_ok s path drawn → is_u64 fresh → read_persisted_incarnation s path = Ok prior →
  (∀ i, prior = Some i → (i < fresh)%N) → history_ok (persist_killed s path fresh synced) path drawn.
Proof.
  intros [Hi Hs] Hty Hr Hlt. split; [|done]. intros i Hl.
  destruct (killed_holds s path fresh synced Hty) as (f & Hf & Hh). exists f. split; [done|].
  eapply holds_from_le; [|exact Hh]. pose proof (fresh_above _ _ _ _ _ Hi Hr Hlt i Hl). lia.
Qed.

(** A boot keeps the invariant; an active one leaves the file durable, and draws an
    incarnation above all before. *)
Lemma boot_ok n s path drawn (answer : result N RegistryError) outcome s' answer' :
  history_ok s path drawn → (∀ i, answer = Ok i → is_u64 i) →
  fence_boot s answer n path (parent_dir path) = (outcome, s', answer') →
  history_ok s' path (drawn ++ active_of outcome) ∧
  (active_of outcome ≠ [] → ∃ f, im_files s' !! path = Some f ∧ fi_content_durable f && fi_name_durable f = true).
Proof.
  intros Hok Hty Hb. unfold fence_boot in Hb. simpl in Hb.
  destruct (read_persisted_incarnation s path) as [prior|e] eqn:Er; [|simplify_eq/=; by rewrite app_nil_r].
  destruct answer as [fresh|[msg|msg]]; [|destruct prior; simplify_eq/=; by rewrite app_nil_r..].
  destruct (_ || _)%bool eqn:Hreg; [simplify_eq/=; by rewrite app_nil_r|].
  apply orb_false_iff in Hreg as [_ Hreg].
  assert (∀ i, prior = Some i → (i < fresh)%N) as Hlt by (intros i ->; by apply N.leb_gt in Hreg).
  specialize (Hty fresh eq_refl). pose proof (killed_ok _ _ _ _ _ true Hok Hty Er Hlt) as Hk.
  destruct (persist_incarnation _ _ _ _) as [r s1] eqn:Ep. apply persist_cases in Ep as [(e & -> & ->)|(-> & Hsame & Hd)].
  { simplify_eq/=. by rewrite app_nil_r. }
  simplify_eq/=. split; [|done]. split.
  - intros i. rewrite last_snoc. intros [= <-].
    destruct (killed_holds s path fresh true Hty) as (f & Hf & Hh).
    destruct (Hsame f Hf) as (f' & Hf' & Et & Ec). exists f'. split; [done|]. unfold holds_from in *. by rewrite Et, Ec.
  - apply sorted_snoc; [apply Hok|]. eapply fresh_above; [apply Hok|done|done].
Qed.

Lemma boot_history_ok n path s drawn : boot_history n path s drawn → history_ok s path drawn.
Proof.
  induction 1 as [ledger|s drawn _ IH Hd|s drawn _ IH|s drawn _ IH|s drawn other data _ IH Hne
    |s drawn other _ IH Hne|s drawn other _ IH|s drawn dir _ IH|s drawn prior fresh synced _ IH Hty Hr Hlt
    |s drawn answer outcome s' answer' _ IH Hty Hb].
  - split; [done|constructor].
  - eapply history_ok_same; [by apply crash_same|done].
  - eapply history_ok_same; [by apply same_contents_eq|done].
  - eapply history_ok_same; [by apply same_contents_eq|done].
  - eapply history_ok_same; [apply same_contents_eq; by apply lookup_insert_ne|done].
  - unfold delete_file. destruct (im_files s !! other); [|done].
    eapply history_ok_same; [apply same_contents_eq; by apply lookup_delete_ne|done].
  - eapply history_ok_same; [apply fsync_file_same|done].
  - eapply history_ok_same; [apply fsync_dir_same|done].
  - by eapply killed_ok.
  - by eapply boot_ok.
Qed.

(** A crash forgets a file that is not durable. *)
Lemma unsynced_forgotten s path f :
  im_files s !! path = Some f → fi_content_durable f && fi_name_durable f = false →
  read_persisted_incarnation (crash s) path = Ok None.
Proof.
  intros Hf Hd. unfold read_persisted_incarnation. simpl. unfold get, crash. cbn [im_files].
  rewrite map_lookup_filter, Hf. simpl. rewrite Hd. done.
Qed.

(** C11: How far the boot ceremony is safe over crashes.  A node boots any number of
    times over a storage that loses at a crash what was not made durable, tears writes and
    fails syncs; its registry may answer anything and its process may be killed inside a
    boot; every crash so far found the incarnation file durable.  Then the incarnations
    of its active boots increase, and every active boot leaves the file durable.  If the file
    is durable when the next crash strikes, the ceremony afterwards reads back the last incarnation
    or a later one, or refuses because the write was torn: it never starts over from an
    older one.  If it is not, because a boot since then had its sync fail or was killed
    before it, the crash forgets it altogether, and the next boot takes itself for
    the first: the file is overwritten in place. *)
Theorem boot_crash_safe (n : NodeId) (path : StoragePath) (s : InMemStorage) (drawn : list N) (i : N) :
  boot_history n path s drawn → last drawn = Some i →
  StronglySorted (λ i j, i < j)%N drawn ∧
  (∀ answer j s' answer', (∀ k, answer = Ok k → is_u64 k) →
     fence_boot s answer n path (parent_dir path) = (Ok (Active j), s', answer') →
     (i < j)%N ∧ ∃ f, im_files s' !! path = Some f ∧ fi_content_durable f && fi_name_durable f = true) ∧
  ∃ f, im_files s !! path = Some f ∧
    if fi_content_durable f && fi_name_durable f then
      ((∃ h, (i ≤ h)%N ∧ read_persisted_incarnation (crash s) path = Ok (Some h)) ∨
       read_persisted_incarnation (crash s) path = Err (PersistedIncarnationUnreadable (TornWrite path))) ∧
      (∀ answer outcome s' answer',
         fence_boot (crash s) answer n path (parent_dir path) = (outcome, s', answer') →
         match outcome with
         | Ok (Active j) => (i < j)%N
         | Ok (Degraded j) => (i ≤ j)%N
         | Ok Waiting => False
         | Err _ => True
         end)
    else read_persisted_incarnation (crash s) path = Ok None.
Proof.
  intros Hh Hl. pose proof (boot_history_ok _ _ _ _ Hh) as Hok. pose proof Hok as [Hi Hs]. split; [done|]. split.
  - intros answer j s' answer' Hty Hb. destruct (boot_ok _ _ _ _ _ _ _ _ Hok Hty Hb) as [[_ Hs'] Hd].
    simpl in *. split; [|by apply Hd]. apply StronglySorted_app in Hs' as (Hlt & _ & _).
    apply Hlt; [by apply last_Some_elem_of|by left].
  - destruct (Hi i Hl) as (f & Hf & Hholds). exists f. split; [done|].
    destruct (fi_content_durable f && fi_name_durable f) eqn:Hd; [|by eapply unsynced_forgotten].
    destruct (crash_same s path) with (f := f) as (f' & Hf' & Et & Ec); [intros ??; congruence|done|].
    assert (holds_from i f') as Hh' by (unfold holds_from in *; by rewrite Et, Ec).
    pose proof (read_holds (crash s) path f' i Hf' Hh') as Hr. split; [done|].
    intros answer outcome s' answer' Hb. unfold fence_boot in Hb. simpl in Hb.
    destruct Hr as [(h & Hle & Hr)|Hr]; rewrite Hr in Hb; [|by simplify_eq].
    destruct answer as [fresh|[msg|msg]]; [|by simplify_eq..]. destruct (_ || _)%bool eqn:Hreg; [by simplify_eq|].
    apply orb_false_iff in Hreg as [_ Hreg%N.leb_gt].
    destruct (persist_incarnation _ _ _ _) as [[] ?]; simplify_eq; [lia|done].
Qed.

(** ** transport.rs *)

(** [InMemNetwork]: the fields of [NetInner], the blackhole of a link, and the ledger. *)
Record InMemNetwork := {
  nt_mailboxes : gmap NodeId (list (NodeId * Bytes));
  nt_links : gmap (NodeId * NodeId) bool;
  nt_ledger : InjectorLedger;
}.

(** [blackhole_fault_id] *)
Definition blackhole_fault_id (from to : NodeId) : string :=
  "net:blackhole:" +:+ from +:+ "->" +:+ to.

(** [InMemNetwork::new] *)
Definition network_new (ledger : InjectorLedger) : InMemNetwork :=
  {| nt_mailboxes := ∅; nt_links := ∅; nt_ledger := ledger |}.

Definition set_mailbox (net : InMemNetwork) (node : NodeId) (box : list (NodeId * Bytes)) : InMemNetwork :=
  {| nt_mailboxes := <[node := box]> (nt_mailboxes net); nt_links := nt_links net; nt_ledger := nt_ledger net |}.

(** [InMemNetwork::endpoint] *)
Definition endpoint (net : InMemNetwork) (node : NodeId) : InMemNetwork :=
  set_mailbox net node (default [] (nt_mailboxes net !! node)).

(** [InMemNetwork::blackhole] *)
Definition blackhole (net : InMemNetwork) (from to : NodeId) : InMemNetwork :=
  {| nt_mailboxes := nt_mailboxes net; nt_links := <[(from, to) := true]> (nt_links net);
     nt_ledger := arm (nt_ledger net) (blackhole_fault_id from to) |}.

(** [InMemNetwork::heal] *)
Definition heal (net : InMemNetwork) (from to : NodeId) : InMemNetwork :=
  match nt_links net !! (from, to) with
  | Some _ => {| nt_mailboxes := nt_mailboxes net; nt_links := <[(from, to) := false]> (nt_links net);
                 nt_ledger := nt_ledger net |}
  | None => net
  end.

(** [InMemTransport::send] *)
Definition send (net : InMemNetwork) (self to : NodeId) (payload : Bytes) :
    result unit TransportError * InMemNetwork :=
  if default false (nt_links net !! (self, to)) then
    (Ok tt, {| nt_mailboxes := nt_mailboxes net; nt_links := nt_links net;
               nt_ledger := fired (nt_ledger net) (blackhole_fault_id self to) |})
  else
    match nt_mailboxes net !! to with
    | Some box => (Ok tt, set_mailbox net to (box ++ [(self, payload)]))
    | None => (Err (UnknownPeer to), net)
    end.

(** [RecvFuture::poll]: [None] is pending. *)
Definition recv_poll (net : InMemNetwork) (self : NodeId) :
    option (result (NodeId * Bytes) TransportError) * InMemNetwork :=
  match nt_mailboxes net !! self with
  | Some (message :: box) => (Some (Ok message), set_mailbox net self box)
  | Some [] => (None, net)
  | None => (Some (Err Closed), net)
  end.

(** What happened on a network: the calls that changed it. *)
Inductive NetEvent :=
| NetEndpoint (node : NodeId)
| NetBlackhole (from to : NodeId)
| NetHeal (from to : NodeId)
| NetSend (from to : NodeId) (payload : Bytes)
| NetRecv (node : NodeId).

Definition net_step (net : InMemNetwork) (event : NetEvent) : InMemNetwork :=
  match event with
  | NetEndpoint node => endpoint net node
  | NetBlackhole from to => blackhole net from to
  | NetHeal from to => heal net from to
  | NetSend from to payload => (send net from to payload).2
  | NetRecv node => (recv_poll net node).2
  end.

Definition net_run (events : list NetEvent) : InMemNetwork := foldl net_step (network_new ∅) events.

(** What a step delivers to a node, hands to its receiver, and drops on a link. *)
Definition delivers (net : InMemNetwork) (event : NetEvent) (node : NodeId) : list (NodeId * Bytes) :=
  match event with
  | NetSend from to payload =>
      if decide (to = node) then
        if default false (nt_links net !! (from, to)) then []
        else match nt_mailboxes net !! to with Some _ => [(from, payload)] | None => [] end
      else []
  | _ => []
  end.

Definition hands (net : InMemNetwork) (event : NetEvent) (node : NodeId) : list (NodeId * Bytes) :=
  match event with
  | NetRecv self =>
      if decide (self = node) then
        match (recv_poll net self).1 with Some (Ok message) => [message] | _ => [] end
      else []
  | _ => []
  end.

Definition drops (net : InMemNetwork) (event : NetEvent) (id : string) : nat :=
  match event with
  | NetSend from to _ =>
      if default false (nt_links net !! (from, to)) && bool_decide (blackhole_fault_id from to = id)
      then 1 else 0
  | _ => 0
  end.

(** The same over a run. *)
Fixpoint over {A} (f : InMemNetwork → NetEvent → list A) (net : InMemNetwork) (events : list NetEvent) : list A :=
  match events with
  | [] => []
  | event :: events => f net event ++ over f (net_step net event) events
  end.

Fixpoint dropped (net : InMemNetwork) (events : list NetEvent) (id : string) : nat :=
  match events with
  | [] => 0
  | event :: events => drops net event id + dropped (net_step net event) events id
  end.

Definition mailbox (net : InMemNetwork) (node : NodeId) : list (NodeId * Bytes) :=
  default [] (nt_mailboxes net !! node).

Lemma mailbox_set net node box node' :
  mailbox (set_mailbox net node box) node' = if decide (node = node') then box else mailbox net node'.
Proof.
  unfold mailbox. simpl. case_decide as E; [subst; by rewrite lookup_insert_eq|by rewrite lookup_insert_ne].
Qed.

Lemma net_step_mailbox net event node :
  hands net event node ++ mailbox (net_step net event) node = mailbox net node ++ delivers net event node.
Proof.
  destruct event as [self|from to|from to|from to payload|self]; simpl.
  - unfold endpoint. rewrite mailbox_set, app_nil_r. by case_decide as E; [rewrite <-E|].
  - by rewrite app_nil_r.
  - rewrite app_nil_r. unfold heal. by destruct (nt_links net !! _).
  - unfold send. destruct (default false _); [by case_decide; rewrite app_nil_r|].
    destruct (nt_mailboxes net !! to) as [box|] eqn:E; simpl; [|by case_decide; rewrite app_nil_r].
    rewrite mailbox_set. case_decide as Ed; [|by rewrite app_nil_r]. subst. unfold mailbox. by rewrite E.
  - rewrite app_nil_r. unfold recv_poll. destruct (nt_mailboxes net !! self) as [[|message box]|] eqn:E; simpl;
      [by case_decide| |by case_decide]. rewrite mailbox_set. case_decide as Ed; [|done]. subst. unfold mailbox. by rewrite E.
Qed.

Lemma fired_count ledger id id' :
  fc_fired (count (fired ledger id) id') =
  if decide (id = id') then u64_succ (fc_fired (count ledger id')) else fc_fired (count ledger id').
Proof.
  unfold count, fired. case_decide as E; [subst; by rewrite lookup_insert_eq|by rewrite lookup_insert_ne].
Qed.

Lemma arm_fired ledger id id' : fc_fired (count (arm ledger id) id') = fc_fired (count ledger id').
Proof.
  unfold count, arm. destruct (decide (id = id')) as [->|]; [by rewrite lookup_insert_eq|by rewrite lookup_insert_ne].
Qed.

Lemma net_step_fired net event id k :
  fc_fired (count (nt_ledger net) id) = (N.of_nat k mod 2 ^ 64)%N →
  fc_fired (count (nt_ledger (net_step net event)) id) = (N.of_nat (k + drops net event id) mod 2 ^ 64)%N.
Proof.
  destruct event as [self|from to|from to|from to payload|self]; simpl; rewrite ?Nat.add_0_r; try done.
  - by rewrite arm_fired.
  - unfold heal. by destruct (nt_links net !! _).
  - unfold send. destruct (default false _); simpl.
    + rewrite fired_count. case_bool_decide as E; simpl.
      * rewrite decide_True by done. intros ->. rewrite u64_succ_mod. do 2 f_equal. lia.
      * rewrite decide_False by done. by rewrite Nat.add_0_r.
    + rewrite Nat.add_0_r. by destruct (nt_mailboxes net !! to).
  - unfold recv_poll. by destruct (nt_mailboxes net !! self) as [[]|].
Qed.

(** The network double: a node receives what was delivered to it, in order, once, the
    rest waits in its mailbox; and the ledger counts each message a blackhole took. *)
Theorem network_faithful (events : list NetEvent) (node : NodeId) (id : string) :
  over (λ net event, hands net event node) (network_new ∅) events ++ mailbox (net_run events) node =
    over (λ net event, delivers net event node) (network_new ∅) events ∧
  fc_fired (count (nt_ledger (net_run events)) id) =
    (N.of_nat (dropped (network_new ∅) events id) mod 2 ^ 64)%N.
Proof.
  assert (∀ events net k, fc_fired (count (nt_ledger net) id) = (N.of_nat k mod 2 ^ 64)%N →
    over (λ net event, hands net event node) net events ++ mailbox (foldl net_step net events) node =
      mailbox net node ++ over (λ net event, delivers net event node) net events ∧
    fc_fired (count (nt_ledger (foldl net_step net events)) id) =
      (N.of_nat (k + dropped net events id) mod 2 ^ 64)%N) as Hgen.
  { clear events. induction events as [|event evs IH]; intros net k Hk; simpl; [by rewrite app_nil_r, Nat.add_0_r|].
    destruct (IH (net_step net event) (k + drops net event id)%nat) as [Hm Hd]; [by apply net_step_fired|].
    rewrite Hd, <-app_assoc, Hm, app_assoc, net_step_mailbox, <-app_assoc. split; [done|]. do 2 f_equal. lia. }
  by apply (Hgen events (network_new ∅) 0%nat).
Qed.

Lemma vacuously_armed_spec ledger id :
  id ∈ vacuously_armed ledger ↔ (0 < fc_armed (count ledger id))%N ∧ fc_fired (count ledger id) = 0%N.
Proof.
  unfold vacuously_armed, count. rewrite list_elem_of_fmap. split.
  - intros ([id' c] & -> & [[Ha Hf] Hin]%list_elem_of_filter). apply elem_of_btree_iter in Hin. simpl in *.
    by rewrite Hin.
  - intros [Ha Hf]. destruct (ledger !! id) as [c|] eqn:E; simpl in *; [|lia]. exists (id, c).
    split; [done|]. apply list_elem_of_filter. split; [done|]. by apply elem_of_btree_iter.
Qed.

(** ** scheduler.rs *)

(** [Vec::swap_remove]: [None] when it panics. *)
Definition swap_remove {A} (i : nat) (l : list A) : option (A * list A) :=
  match l !! i, last l with
  | Some x, Some y => Some (x, take (length l - 1) (<[i := y]> l))
  | _, _ => None
  end.

(** One poll of a task: what is left of it ([None] when it is ready), whether it woke
    its waker, the tasks it spawned, the nanoseconds of the sleeps it began, and the
    state it shares with the other tasks. *)
Record Polled (Task Shared : Type) := {
  po_task : option Task;
  po_woke : bool;
  po_spawned : list Task;
  po_sleeps : list N;
  po_shared : Shared;
}.
Arguments po_task {Task Shared} p : rename.
Arguments po_woke {Task Shared} p : rename.
Arguments po_spawned {Task Shared} p : rename.
Arguments po_sleeps {Task Shared} p : rename.
Arguments po_shared {Task Shared} p : rename.

(** [SeededScheduler], and what its tasks share. *)
Record Sched (G Task Shared : Type) := {
  sd_clock : VirtualClock;
  sd_strategy : G;
  sd_tasks : list Task;
  sd_deadlines : gset N;
  sd_shared : Shared;
}.
Arguments sd_clock {G Task Shared} s : rename.
Arguments sd_strategy {G Task Shared} s : rename.
Arguments sd_tasks {G Task Shared} s : rename.
Arguments sd_deadlines {G Task Shared} s : rename.
Arguments sd_shared {G Task Shared} s : rename.

(** How [run_until_idle] ends: with the number of stuck tasks, or by the assertion on
    the strategy; the loop has a fuel. *)
Inductive RunEnd (St : Type) := Idle (stuck : nat) (st : St) | IndexPanic | Fuel (st : St).
Arguments Idle {St} stuck st.
Arguments IndexPanic {St}.
Arguments Fuel {St} st.

Section scheduler.
Context {G Task Shared : Type} `{ScheduleStrategy G} (poll : N → Shared → Task → Polled Task Shared).

Abbreviation State := (Sched G Task Shared).

(** [SeededScheduler::with_strategy] *)
Definition scheduler_new (g : G) (clock : VirtualClock) (shared : Shared) : State :=
  {| sd_clock := clock; sd_strategy := g; sd_tasks := []; sd_deadlines := ∅; sd_shared := shared |}.

(** [Scheduler::spawn] *)
Definition spawn (st : State) (task : Task) : State :=
  {| sd_clock := sd_clock st; sd_strategy := sd_strategy st; sd_tasks := sd_tasks st ++ [task];
     sd_deadlines := sd_deadlines st; sd_shared := sd_shared st |}.

(** [Scheduler::sleep]: the deadline it registers. *)
Definition sleep (st : State) (nanos : N) : State :=
  {| sd_clock := sd_clock st; sd_strategy := sd_strategy st; sd_tasks := sd_tasks st;
     sd_deadlines := {[u64_sat_add (vc_nanos (sd_clock st)) nanos]} ∪ sd_deadlines st;
     sd_shared := sd_shared st |}.

(** The effect of one poll on the scheduler. *)
Definition after_poll (st : State) (p : Polled Task Shared) : State :=
  let st := foldl spawn (foldl sleep st (po_sleeps p)) (po_spawned p) in
  {| sd_clock := sd_clock st; sd_strategy := sd_strategy st; sd_tasks := sd_tasks st;
     sd_deadlines := sd_deadlines st; sd_shared := po_shared p |}.

Definition set_strategy (st : State) (g : G) : State :=
  {| sd_clock := sd_clock st; sd_strategy := g; sd_tasks := sd_tasks st;
     sd_deadlines := sd_deadlines st; sd_shared := sd_shared st |}.

(** The inner loop of [run_until_idle], [n] tasks before it ends: the scheduler, whether
    a task was ready or woke, and the tasks still pending; [None] is the assertion. *)
Fixpoint poll_round (n : nat) (round : list Task) (st : State) (progressed : bool) (still : list Task) :
    option (State * bool * list Task) :=
  match n with
  | O => Some (st, progressed, still)
  | S n =>
      let '(index, g) := next_index (sd_strategy st) (length round) in
      match swap_remove index round with
      | None => None
      | Some (task, round) =>
          let p := poll (vc_nanos (sd_clock st)) (sd_shared st) task in
          let st := after_poll (set_strategy st g) p in
          match po_task p with
          | None => poll_round n round st true still
          | Some task => poll_round n round st (progressed || po_woke p) (still ++ [task])
          end
      end
  end.

(** [BTreeSet::first] *)
Definition first_deadline (deadlines : gset N) : option N := head (btree_elements deadlines).

(** The end of a round: the spawned and the pending tasks, and the deadlines after now
    ([now + 1] wraps in a release build). *)
Definition end_round (st : State) (still : list Task) : State :=
  {| sd_clock := sd_clock st; sd_strategy := sd_strategy st; sd_tasks := sd_tasks st ++ still;
     sd_deadlines := filter (λ d, u64_succ (vc_nanos (sd_clock st)) ≤ d)%N (sd_deadlines st);
     sd_shared := sd_shared st |}.

Definition set_clock (st : State) (clock : VirtualClock) : State :=
  {| sd_clock := clock; sd_strategy := sd_strategy st; sd_tasks := sd_tasks st;
     sd_deadlines := sd_deadlines st; sd_shared := sd_shared st |}.

(** [std::mem::take] of the tasks. *)
Definition take_tasks (st : State) : State :=
  {| sd_clock := sd_clock st; sd_strategy := sd_strategy st; sd_tasks := [];
     sd_deadlines := sd_deadlines st; sd_shared := sd_shared st |}.

(** [SeededScheduler::run_until_idle] *)
Fixpoint run_until_idle (fuel : nat) (st : State) : RunEnd State :=
  match fuel with
  | O => Fuel st
  | S fuel =>
      match sd_tasks st with
      | [] => Idle 0 st
      | round =>
          match poll_round (length round) round (take_tasks st) false [] with
          | None => IndexPanic
          | Some (st, progressed, still) =>
              let progressed := progressed || negb (bool_decide (sd_tasks st = [])) in
              let st := end_round st still in
              if progressed then run_until_idle fuel st
              else
                match first_deadline (sd_deadlines st) with
                | None => Idle (length (sd_tasks st)) st
                | Some deadline => run_until_idle fuel (set_clock st (advance_to_nanos (sd_clock st) deadline))
                end
          end
      end
  end.

(** *** Rounds *)

Lemma swap_remove_perm {A} i (l l' : list A) x : swap_remove i l = Some (x, l') → l ≡ₚ x :: l'.
Proof.
  unfold swap_remove. destruct (l !! i) as [z|] eqn:Ei; [|done]. destruct (last l) as [y|] eqn:El; [|done].
  intros [= -> <-]. apply last_Some in El as (l0 & ->). rewrite length_app. simpl.
  replace (length l0 + 1 - 1)%nat with (length l0) by lia. destruct (decide (i < length l0)%nat) as [Hlt|Hge].
  - rewrite lookup_app_l in Ei by done. rewrite insert_app_l by done.
    rewrite take_app_le, take_ge by (by rewrite length_insert).
    rewrite <-(take_drop_middle l0 i x Ei) at 1. rewrite insert_take_drop by done.
    rewrite (Permutation_app_comm _ [y]). simpl. rewrite <-!(Permutation_middle (take i l0)). apply Permutation_swap.
  - assert (i = length l0) as -> by (apply lookup_lt_Some in Ei; rewrite length_app in Ei; simpl in Ei; lia).
    rewrite lookup_app_r, Nat.sub_diag in Ei by lia. injection Ei as ->.
    rewrite insert_app_r_alt, Nat.sub_diag by lia. simpl. rewrite take_app_length. by rewrite Permutation_app_comm.
Qed.

Lemma swap_remove_some {A} i (l : list A) : (i < length l)%nat → is_Some (swap_remove i l).
Proof.
  intros [x Hx]%lookup_lt_is_Some. unfold swap_remove. rewrite Hx.
  destruct (last l) eqn:El; [eauto|]. by apply last_None in El as ->.
Qed.

(** A poll that moves the round on. *)
Definition moved (p : Polled Task Shared) : bool :=
  match po_task p with None => true | Some _ => po_woke p end || negb (bool_decide (po_spawned p = [])).

Lemma after_poll_spec st p :
  sd_clock (after_poll st p) = sd_clock st ∧ sd_strategy (after_poll st p) = sd_strategy st ∧
  sd_tasks (after_poll st p) = sd_tasks st ++ po_spawned p ∧
  sd_deadlines st ⊆ sd_deadlines (after_poll st p) ∧
  (∀ d, d ∈ sd_deadlines (after_poll st p) → d ∈ sd_deadlines st ∨ is_u64 d) ∧
  (size (sd_deadlines (after_poll st p)) ≤ size (sd_deadlines st) + length (po_sleeps p))%nat.
Proof.
  assert (∀ ts st, foldl spawn st ts =
    {| sd_clock := sd_clock st; sd_strategy := sd_strategy st; sd_tasks := sd_tasks st ++ ts;
       sd_deadlines := sd_deadlines st; sd_shared := sd_shared st |}) as Hs.
  { clear. induction ts as [|t ts IH]; intros st; simpl; [by rewrite app_nil_r; destruct st|].
    rewrite IH. simpl. by rewrite <-app_assoc. }
  assert (∀ ns st, sd_clock (foldl sleep st ns) = sd_clock st ∧ sd_strategy (foldl sleep st ns) = sd_strategy st ∧
    sd_tasks (foldl sleep st ns) = sd_tasks st ∧ sd_deadlines st ⊆ sd_deadlines (foldl sleep st ns) ∧
    (∀ d, d ∈ sd_deadlines (foldl sleep st ns) → d ∈ sd_deadlines st ∨ is_u64 d) ∧
    (size (sd_deadlines (foldl sleep st ns)) ≤ size (sd_deadlines st) + length ns)%nat) as Hd.
  { clear. induction ns as [|n ns IH]; intros st; simpl; [split_and!; auto; lia|].
    destruct (IH (sleep st n)) as (-> & -> & -> & Hsub & Hty & Hsz). simpl in *. split_and!; [done..|set_solver| |].
    { intros d [Hd|?]%Hty; [|by right]. apply elem_of_union in Hd as [->%elem_of_singleton|?]; [right|by left].
      unfold is_u64, u64_sat_add. lia. }
    assert (size ({[u64_sat_add (vc_nanos (sd_clock st)) n]} ∪ sd_deadlines st) ≤ S (size (sd_deadlines st)))%nat; [|lia].
    rewrite size_union_alt, size_singleton.
    pose proof (subseteq_size (sd_deadlines st ∖ {[u64_sat_add (vc_nanos (sd_clock st)) n]}) (sd_deadlines st)). set_solver by lia. }
  unfold after_poll. cbv zeta. rewrite Hs. simpl. destruct (Hd (po_sleeps p) st) as (-> & -> & -> & ? & ? & ?). done.
Qed.

Section ending.
Context (in_range : ∀ (g : G) n, (0 < n)%nat → (fst (next_index g n) < n)%nat).
Context (cost : Task → nat).
Context (finite : ∀ now shared task, let p := poll now shared task in
  (match po_task p with Some task => cost task | None => 0 end + sum_list_with cost (po_spawned p) +
   length (po_sleeps p) + (if moved p then 1 else 0) ≤ cost task)%nat).

(** What a scheduler has left to do. *)
Definition left_over (st : State) : nat := sum_list_with cost (sd_tasks st) + size (sd_deadlines st).

Definition going (progressed : bool) (st : State) : nat :=
  if progressed || negb (bool_decide (sd_tasks st = [])) then 1 else 0.

(** A poll that makes the round go on has moved. *)
Lemma going_poll progressed b st st1 p :
  sd_tasks st1 = sd_tasks st ++ po_spawned p → (b = true → moved p = true) →
  (going (progressed || b) st1 ≤ going progressed st + if moved p then 1 else 0)%nat.
Proof.
  intros Ht Hb. unfold going. rewrite Ht. unfold moved in *. destruct progressed; simpl; [lia|].
  destruct (bool_decide (sd_tasks st = [])) eqn:E0; simpl.
  - apply bool_decide_eq_true in E0. rewrite E0. simpl. destruct b; simpl; [by rewrite Hb|].
    destruct (bool_decide (po_spawned p = [])); simpl; [lia|]. rewrite orb_true_r. lia.
  - repeat case_match; lia.
Qed.

Lemma poll_round_spec n round st progressed still :
  length round = n → ∃ st' progressed' still',
    poll_round n round st progressed still = Some (st', progressed', still') ∧
    sd_clock st' = sd_clock st ∧ sd_deadlines st ⊆ sd_deadlines st' ∧
    (∀ d, d ∈ sd_deadlines st' → d ∈ sd_deadlines st ∨ is_u64 d) ∧
    (left_over st' + sum_list_with cost still' + going progressed' st' ≤
     left_over st + sum_list_with cost round + sum_list_with cost still + going progressed st)%nat.
Proof.
  revert round st progressed still. induction n as [|n IH]; intros round st progressed still Hlen; simpl.
  - apply nil_length_inv in Hlen as ->. exists st, progressed, still. split_and!; [done..|auto|simpl; lia].
  - pose proof (in_range (sd_strategy st) (length round) ltac:(lia)) as Hr.
    destruct (next_index (sd_strategy st) (length round)) as [index g]. simpl in Hr.
    destruct (swap_remove_some index round Hr) as [[task rest] Es]. rewrite Es. apply swap_remove_perm in Es.
    assert (length rest = n) as Hn by (apply Permutation_length in Es; simpl in Es; lia).
    pose proof (finite (vc_nanos (sd_clock st)) (sd_shared st) task) as Hc. simpl in Hc.
    set (p := poll _ _ task) in *. destruct (after_poll_spec (set_strategy st g) p) as (Hck & _ & Ht & Hsub & Hty & Hsz).
    assert (sum_list_with cost round = sum_list_with cost (task :: rest)) as -> by by rewrite Es.
    set (st1 := after_poll (set_strategy st g) p) in *.
    assert (∀ progressed1 still1, (going progressed1 st1 ≤ going progressed st + if moved p then 1 else 0)%nat →
      (sum_list_with cost still1 = sum_list_with cost still + match po_task p with Some t => cost t | None => 0 end)%nat →
      ∃ st' progressed' still', poll_round n rest st1 progressed1 still1 = Some (st', progressed', still') ∧
        sd_clock st' = sd_clock st ∧ sd_deadlines st ⊆ sd_deadlines st' ∧
        (∀ d, d ∈ sd_deadlines st' → d ∈ sd_deadlines st ∨ is_u64 d) ∧
        (left_over st' + sum_list_with cost still' + going progressed' st' ≤
         left_over st + sum_list_with cost (task :: rest) + sum_list_with cost still + going progressed st)%nat) as Hgo.
    { intros progressed1 still1 Hp1 Hs1. destruct (IH rest st1 progressed1 still1 Hn) as (st' & pr' & still' & -> & Hck' & Hsub' & Hty' & Hle).
      exists st', pr', still'. split_and!; [done|by rewrite Hck', Hck|set_solver| |].
      { intros d [[?|?]%Hty|?]%Hty'; auto. }
       unfold left_over in *. rewrite Ht in Hle.
      rewrite sum_list_with_app in Hle. simpl in *. lia. }
    destruct (po_task p) as [t|] eqn:Et.
    + apply Hgo; [|rewrite sum_list_with_app; simpl; lia]. apply going_poll; [done|]. unfold moved. rewrite Et. by intros ->.
    + apply Hgo; [|lia]. rewrite <-(orb_true_r progressed). apply going_poll; [done|]. unfold moved. by rewrite Et.
Qed.

Lemma first_deadline_spec (deadlines : gset N) :
  match first_deadline deadlines with Some d => d ∈ deadlines | None => deadlines = ∅ end.
Proof.
  unfold first_deadline. destruct (btree_elements deadlines) as [|d l] eqn:E; simpl.
  - apply set_eq. intros d. rewrite <-elem_of_btree_elements, E. set_solver.
  - apply elem_of_btree_elements. rewrite E. by left.
Qed.

(** The clock and the deadlines are [u64]s, and at the end of the clock's range a
    deadline is there that no round removes. *)
Definition clock_ok (st : State) : Prop :=
  is_u64 (vc_nanos (sd_clock st)) ∧ (∀ d, d ∈ sd_deadlines st → is_u64 d) ∧
  (vc_nanos (sd_clock st) = u64_max → u64_max ∈ sd_deadlines st).

Definition expired (st : State) : gset N := filter (λ d, d ≤ vc_nanos (sd_clock st))%N (sd_deadlines st).

(** The rounds left: every other one at least does something. *)
Definition rounds_left (st : State) : nat := 2 * left_over st + if decide (expired st = ∅) then 1 else 0.

(** One round: nothing is lost, deadlines that have passed are gone. *)
Lemma round_once st : clock_ok st → ∃ st1 progressed still,
  poll_round (length (sd_tasks st)) (sd_tasks st) (take_tasks st) false [] = Some (st1, progressed, still) ∧
  sd_clock st1 = sd_clock st ∧ clock_ok (end_round st1 still) ∧
  (u64_max ∈ sd_deadlines st → u64_max ∈ sd_deadlines (end_round st1 still)) ∧
  (left_over (end_round st1 still) + going progressed st1 +
   (if decide (expired st = ∅ ∨ vc_nanos (sd_clock st) = u64_max) then 0 else 1) ≤ left_over st)%nat.
Proof.
  intros (Hck & Hd & Hmax).
  destruct (poll_round_spec (length (sd_tasks st)) (sd_tasks st) (take_tasks st) false [] eq_refl)
    as (st1 & progressed & still & -> & Hc & Hsub & Hty & Hle).
  exists st1, progressed, still. simpl in *. split_and!; [done..| | |].
  - unfold clock_ok. simpl. rewrite Hc. split_and!; [done| |].
    + intros d [_ [?|?]%Hty]%elem_of_filter; auto.
    + intros E. apply elem_of_filter. rewrite E. unfold u64_succ. rewrite N.eqb_refl. split; [lia|]. auto.
  - intros Hin. apply elem_of_filter. rewrite Hc. split; [|auto]. unfold u64_succ.
    destruct (N.eqb_spec (vc_nanos (sd_clock st)) u64_max); unfold is_u64 in *; lia.
  - unfold left_over in *. simpl in *. rewrite sum_list_with_app. change (going false (take_tasks st)) with 0%nat in Hle.
    set (kept := filter _ (sd_deadlines st1)).
    assert (size kept ≤ size (sd_deadlines st1))%nat as Hsz by (apply subseteq_size; set_solver).
    case_decide as Hx; [lia|]. apply Decidable.not_or in Hx as [Hex Hnm].
    apply set_choose_L in Hex as [d [Hdn Hdin]%elem_of_filter].
    assert (kept ⊂ sd_deadlines st1) as Hss.
    { split; [set_solver|]. intros Hk. specialize (Hk d (Hsub d Hdin)). apply elem_of_filter in Hk as [Hk _].
      rewrite Hc in Hk. unfold u64_succ in Hk. destruct (N.eqb_spec (vc_nanos (sd_clock st)) u64_max); [done|lia]. }
    apply subset_size in Hss. lia.
Qed.

(** One turn of the loop. *)
Lemma run_until_idle_S fuel st st1 progressed still : sd_tasks st ≠ [] →
  poll_round (length (sd_tasks st)) (sd_tasks st) (take_tasks st) false [] = Some (st1, progressed, still) →
  run_until_idle (S fuel) st =
  if progressed || negb (bool_decide (sd_tasks st1 = [])) then run_until_idle fuel (end_round st1 still)
  else
    match first_deadline (sd_deadlines (end_round st1 still)) with
    | None => Idle (length (sd_tasks (end_round st1 still))) (end_round st1 still)
    | Some deadline =>
        run_until_idle fuel (set_clock (end_round st1 still) (advance_to_nanos (sd_clock st1) deadline))
    end.
Proof.
  cbn [run_until_idle]. intros Hne Hr. destruct (sd_tasks st) as [|t ts]; [done|]. by rewrite Hr.
Qed.

(** The clock moves to a deadline that is there. *)
Lemma clock_ok_advance st d : clock_ok st → d ∈ sd_deadlines st →
  clock_ok (set_clock st (advance_to_nanos (sd_clock st) d)).
Proof.
  intros (Hck & Hds & Hmx) Hd. unfold clock_ok, is_u64 in *. simpl. specialize (Hds _ Hd) as Hd'.
  split_and!; [lia|done|]. intros E. destruct (N.max_spec (vc_nanos (sd_clock st)) d) as [[_ Em]|[_ Em]];
    rewrite Em in E; [by subst|auto].
Qed.

Lemma run_keeps_max fuel st st' : clock_ok st → u64_max ∈ sd_deadlines st →
  run_until_idle fuel st = Fuel st' → u64_max ∈ sd_deadlines st'.
Proof.
  revert st. induction fuel as [|fuel IH]; intros st Hok Hm; [by intros [= <-]|].
  destruct (decide (sd_tasks st = [])) as [E|Hne]; [simpl; by rewrite E|].
  destruct (round_once st Hok) as (st1 & pr & still & Er & Hc & Hok' & Hm' & _). specialize (Hm' Hm).
  rewrite (run_until_idle_S _ _ _ _ _ Hne Er). case_match; [by apply IH|].
  pose proof (first_deadline_spec (sd_deadlines (end_round st1 still))) as Hd.
  destruct (first_deadline _) as [d|]; [|done]. apply IH; [|done]. by apply (clock_ok_advance (end_round st1 still)).
Qed.

(** How the loop ends when it ends. *)
Definition ended_well (end_ : RunEnd State) : Prop :=
  match end_ with
  | Idle stuck st' =>
      stuck = length (sd_tasks st') ∧
      (stuck ≠ 0%nat → sd_deadlines st' = ∅ ∧ ∃ round st0 st1,
         poll_round (length round) round st0 false [] = Some (st1, false, sd_tasks st') ∧ sd_tasks st1 = [])
  | IndexPanic => False
  | Fuel _ => True
  end.

Lemma run_ended_well fuel st : clock_ok st → ended_well (run_until_idle fuel st).
Proof.
  revert st. induction fuel as [|fuel IH]; intros st Hok; [done|].
  destruct (decide (sd_tasks st = [])) as [E|Hne]; [simpl; rewrite E; simpl; by rewrite E|].
  destruct (round_once st Hok) as (st1 & pr & still & Er & Hc & Hok' & _).
  rewrite (run_until_idle_S _ _ _ _ _ Hne Er). case_match eqn:Ep; [by apply IH|].
  pose proof (first_deadline_spec (sd_deadlines (end_round st1 still))) as Hd.
  destruct (first_deadline _) as [d|]; [by apply IH, (clock_ok_advance (end_round st1 still))|].
  split; [done|]. intros _. split; [done|]. apply orb_false_iff in Ep as [-> Et%negb_false_iff%bool_decide_eq_true].
  exists (sd_tasks st), (take_tasks st), st1. simpl. rewrite Et. done.
Qed.

Lemma run_within fuel st st' : clock_ok st → (rounds_left st < fuel)%nat →
  run_until_idle fuel st = Fuel st' → u64_max ∈ sd_deadlines st'.
Proof.
  revert st. induction fuel as [|fuel IH]; intros st Hok Hlt; [lia|].
  destruct (decide (vc_nanos (sd_clock st) = u64_max)) as [Hx|Hx].
  { apply run_keeps_max; [done|]. by apply Hok. }
  destruct (decide (sd_tasks st = [])) as [E|Hne]; [simpl; by rewrite E|].
  destruct (round_once st Hok) as (st1 & pr & still & Er & Hc & Hok' & _ & Hle).
  rewrite (run_until_idle_S _ _ _ _ _ Hne Er). unfold going in Hle. unfold rounds_left in *.
  case_match; [apply IH; [done|]; destruct (decide (expired st = ∅ ∨ _)), (decide (expired (end_round _ _) = ∅)); lia|].
  pose proof (first_deadline_spec (sd_deadlines (end_round st1 still))) as Hd.
  destruct (first_deadline _) as [d|]; [|done]. apply IH; [by apply (clock_ok_advance (end_round st1 still))|].
  rewrite decide_False.
  - change (left_over (set_clock (end_round st1 still) (advance_to_nanos (sd_clock st1) d)))
      with (left_over (end_round st1 still)). destruct (decide (expired st = ∅)); case_decide; naive_solver lia.
  - intros He. apply (not_elem_of_empty (C:=gset N) d). rewrite <-He. apply elem_of_filter. simpl. split; [lia|done].
Qed.

(** C40: [run_until_idle] ends.  For tasks that are finite (a cost bounds what a task
    and those it spawns can still do, every sleep, wake and spawn counted) and any
    strategy that keeps its contract, the loop ends within the fuel given: either all
    tasks have completed, or it reports how many are stuck, which were all polled in a
    last round that moved nothing, with no deadline left.  The exception is a sleep to
    the very end of the clock, whose deadline is never removed. *)
Theorem run_until_idle_ends (fuel : nat) (st : State) :
  clock_ok st → (rounds_left st < fuel)%nat →
  match run_until_idle fuel st with
  | Idle stuck st' =>
      stuck = length (sd_tasks st') ∧
      (stuck ≠ 0%nat → sd_deadlines st' = ∅ ∧ ∃ round st0 st1,
         poll_round (length round) round st0 false [] = Some (st1, false, sd_tasks st') ∧ sd_tasks st1 = [])
  | IndexPanic => False
  | Fuel st' => u64_max ∈ sd_deadlines st'
  end.
Proof.
  intros Hok Hlt. pose proof (run_ended_well fuel st Hok) as Hw. pose proof (run_within fuel st) as Hf.
  destruct (run_until_idle fuel st); [done..|]. by apply Hf.
Qed.
End ending.
End scheduler.

(** The seeded strategy keeps the contract. *)
Lemma seeded_in_range (g : SeededRandom) n : (0 < n)%nat → (fst (next_index g n) < n)%nat.
Proof.
  intros Hn. unfold next_index, SeededRandom_strategy. destruct (next_random g) as [r g']. simpl.
  pose proof (N.mod_lt r (N.of_nat n) ltac:(lia)). lia.
Qed.

(** A deadline at the end of the clock and a task that waits for nothing: in a release
    build [now + 1] wraps to zero, the deadline stays, and the loop never returns,
    where it should report one stuck task. *)
Definition front : ScheduleStrategy unit := λ _ _, (0%nat, tt).

Definition waits (_ : N) (_ _ : unit) : Polled unit unit :=
  {| po_task := Some tt; po_woke := false; po_spawned := []; po_sleeps := []; po_shared := tt |}.

Definition end_of_time : Sched unit unit unit :=
  {| sd_clock := {| vc_nanos := u64_max |}; sd_strategy := tt; sd_tasks := [tt];
     sd_deadlines := {[u64_max]}; sd_shared := tt |}.

Lemma end_of_time_livelock fuel : @run_until_idle _ _ _ front waits fuel end_of_time = Fuel end_of_time.
Proof.
  induction fuel as [|fuel IH]; [done|].
  assert (@poll_round _ _ _ front waits 1 [tt] (take_tasks end_of_time) false [] =
    Some (take_tasks end_of_time, false, [tt])) as Hr by reflexivity.
  rewrite (@run_until_idle_S _ _ _ front waits fuel end_of_time _ _ _ ltac:(done) Hr).
  change (false || negb (bool_decide (sd_tasks (take_tasks end_of_time) = []))) with false. cbv iota.
  assert (end_round (take_tasks end_of_time) [tt] = end_of_time) as -> by (vm_compute; reflexivity).
  assert (first_deadline (sd_deadlines end_of_time) = Some u64_max) as -> by (vm_compute; reflexivity).
  exact IH.
Qed.
