(* ===== verification/FleetWitness.v ===== *)
(** * Witnesses for the fleet's claims

    A link with one connection, two overlapping windows and a cut; and a run that
    partitions a node, cuts its catalog and kills another node, under a schedule. *)

From Stdlib Require Import Ascii.
From S2P Require Import Prelude RustStd Types Overload Ports Otlp Fencing Boot BTree.
From S2P Require Import Verdict Evidence Journal RunManifest FaultLedger Vacuity AcceptWitness.
From S2P Require Import Link Fleet Fault FaultProps FaultEnds RunLog FleetSetup FleetRun Ctk.

(** One pump step of the only connection of a link. *)
Lemma only_pump s p p' e direction n :
  link_reachable s → lk_conns s = [p] → cn_phase p = Pumping e →
  pump_step (lk_version s) (condition_of (conditions s) direction) (pump_of p direction) p' n →
  link_reachable (set_conns s (add_bytes (lk_stats s) direction n) [set_pump p direction p']).
Proof.
  intros Hr Hc Hp Hs. eapply link_next; [exact Hr|]. by eapply (LinkPump _ [] _ []).
Qed.

Definition slow : LinkConditions := {| client_to_server := Delay 5; server_to_client := Pass |}.

(** A connection is up and its response pump is polling; a delay is held. *)
Definition polling : Link :=
  {| lk_table := {| next_id := 1; active := {[0%N := slow]} |}; lk_bumps := 0; lk_version := 0;
     lk_stats := {| conns_accepted := 1; conns_refused := 0; conns_cut := 0;
                    bytes_client_to_server := 0; bytes_server_to_client := 0 |};
     lk_accept := Listening;
     lk_conns := [{| cn_phase := Pumping 0; cn_to_server := pump_new;
                     cn_to_client := {| pm_phase := Link.Polled; pm_seen := 0; pm_read := [];
                                        pm_written := []; pm_counted := 0 |};
                     cn_cuts := 0 |}] |}.

Lemma polling_reachable : link_reachable polling.
Proof.
  pose proof link_bound as H.
  eapply link_next in H; [|eapply LinkAccept; reflexivity].
  eapply link_next in H; [|apply LinkSpawn; reflexivity].
  eapply link_next in H; [|eapply (LinkReadEpoch _ []); reflexivity].
  eapply link_next in H; [|eapply (LinkDial _ [] _ [] 0 true); reflexivity].
  eapply (only_pump _ _ _ 0 ServerToClient) in H; [|reflexivity..|eapply PumpSubscribe; reflexivity].
  eapply (only_pump _ _ _ 0 ServerToClient) in H; [|reflexivity..|eapply PumpPoll; reflexivity].
  eapply link_next in H; [|eapply (LinkHold _ slow); reflexivity].
  exact H.
Qed.

Definition conn0 : Conn :=
  {| cn_phase := Pumping 0; cn_to_server := pump_new;
     cn_to_client := {| pm_phase := Link.Polled; pm_seen := 0; pm_read := []; pm_written := [];
                        pm_counted := 0 |};
     cn_cuts := 1 |}.

(** The link is dropped and the cut sent. *)
Definition cut_link : Link :=
  bump (set_table polling {| next_id := 2; active := {[0%N := slow; 1%N := conditions_dropped]} |} 1) 0.

Lemma cut_link_steps : link_steps polling cut_link.
Proof.
  eapply rtc_l; [eapply (LinkHold _ conditions_dropped); reflexivity|].
  eapply rtc_l; [apply (LinkBump _ 0); reflexivity|]. apply rtc_refl.
Qed.

Lemma reachable_steps s s' : link_reachable s → link_steps s s' → link_reachable s'.
Proof. induction 2; [done|]. eauto using link_next. Qed.

Lemma link_holds_enforced_witness :
  condition_of (conditions polling) ClientToServer = Delay 5 ∧
  condition_of (conditions cut_link) ClientToServer = Drop ∧
  ∃ id c, active (lk_table cut_link) !! id = Some c ∧ condition_of c ClientToServer = Drop.
Proof.
  split; [vm_compute; reflexivity|].
  assert (condition_of (conditions cut_link) ClientToServer = Drop) as Hd by (vm_compute; reflexivity).
  split; [exact Hd|]. apply (link_holds_enforced cut_link ClientToServer); [|exact Hd].
  eapply reachable_steps; [exact polling_reachable|exact cut_link_steps].
Defined.

(** The read that was ready is finished after the cut, and dropped. *)
Definition after_cut : Link :=
  set_conns cut_link (lk_stats cut_link)
    [{| cn_phase := Pumping 0; cn_to_server := pump_new;
        cn_to_client := {| pm_phase := Ended; pm_seen := 0; pm_read := [Byte.x00];
                           pm_written := []; pm_counted := 0 |};
        cn_cuts := 1 |}].

Lemma after_cut_steps : link_steps cut_link after_cut.
Proof.
  eapply rtc_l; [eapply (LinkPump _ [] _ [] 0 ServerToClient); [reflexivity..|]|].
  { apply (PumpRead _ _ _ [Byte.x00]); [reflexivity|done|vm_compute; discriminate]. }
  eapply rtc_l; [eapply (LinkPump _ [] _ [] 0 ServerToClient); [reflexivity..|]|].
  { eapply PumpDropped; [reflexivity|vm_compute; reflexivity]. }
  apply rtc_refl.
Qed.

Lemma link_cut_bounded_witness :
  link_steps cut_link after_cut ∧
  ∃ c' more, lk_conns after_cut !! 0 = Some c' ∧
    pm_written (pump_of c' ServerToClient) = [] ++ more ∧ (len more ≤ CHUNK)%N.
Proof.
  split; [exact after_cut_steps|].
  apply (link_cut_bounded cut_link after_cut 0 conn0 ServerToClient).
  - eapply reachable_steps; [exact polling_reachable|exact cut_link_steps].
  - exact after_cut_steps.
  - reflexivity.
  - simpl. discriminate.
  - simpl. reflexivity.
Defined.

(** The request pump subscribes late and meets the end of its stream; the connection is
    closed, and counted. *)
Definition closed_after_cut : Link :=
  set_conns after_cut (add_cut (lk_stats after_cut))
    [{| cn_phase := Link.Closed;
        cn_to_server := {| pm_phase := EndedEof; pm_seen := 1; pm_read := []; pm_written := [];
                           pm_counted := 0 |};
        cn_to_client := {| pm_phase := Link.Ended; pm_seen := 0; pm_read := [Byte.x00];
                           pm_written := []; pm_counted := 0 |};
        cn_cuts := 1 |}].

Lemma closed_after_cut_steps : link_steps after_cut closed_after_cut.
Proof.
  eapply rtc_l; [eapply (LinkPump _ [] _ [] 0 ClientToServer); [reflexivity..|by eapply PumpSubscribe]|].
  eapply rtc_l; [eapply (LinkPump _ [] _ [] 0 ClientToServer); [reflexivity..|by eapply PumpPoll]|].
  eapply rtc_l; [eapply (LinkPump _ [] _ [] 0 ClientToServer); [reflexivity..|by eapply PumpEof]|].
  eapply rtc_l; [eapply (LinkJoin _ [] _ [] 0); reflexivity|]. apply rtc_refl.
Qed.


(** ** The text of a fault line: the bit string of its fields *)

Definition phase_code (p : WindowPhase) : nat :=
  match p with PArmed => 0 | PStarted => 1 | PEnded => 2 end.

Definition line_code (line : WindowLine) (at_ms : N) : string * string * string * nat * N * bool :=
  (wl_fault_id line, kind_token (wl_kind line), wl_target_node line, phase_code (wl_phase line), at_ms,
   match wl_detail line with Some _ => true | None => false end).

Definition decoded (raw : string) : option (string * string * string * nat * N * bool) :=
  match unbits raw with Some p => decode p | None => None end.

#[local] Instance bit_fleet : FleetSerde := {|
  window_line_to_string line at_ms := bits (encode (line_code line at_ms));
  event_field _ := None;
|}.

#[local] Instance bit_faults : Serde := {|
  Value := unit;
  map_access raw :=
    match decoded raw with
    | Some (_, _, _, _, _, detail) =>
        (["fault_id"; "kind"; "target_node"; "phase"; "at_ms"] ++ (if detail then ["detail"] else []), None)
    | None => ([], Some "not a line")
    end;
  contains_key _ _ := false;
  value_from_str _ := Err "";
  envelope_from_str _ := Err "";
  identity_from_value _ := Err "";
  watermark_from_value _ := Err "";
  changelog_from_value _ := Err "";
  part_from_value _ := Err "";
  read_record_from_str _ := Err "";
  probe_from_value _ := Err "";
  fault_line_from_str raw :=
    match decoded raw with
    | Some (id, kind, target, code, at_ms, _) =>
        Ok {| fl_fault_id := id; fl_kind := kind; fl_target_node := target;
              fl_phase := match code with O => Armed | 1 => Started | _ => Evidence.Ended end;
              fl_at_ms := at_ms |}
    | None => Err "not a line"
    end;
  manifest_from_str _ := Err "";
  summary_from_str _ := Err "";
  final_state_from_str _ := Err "";
  latest_view_from_str _ := Err "";
  committed_parts_from_str _ := Err "";
|}.

Lemma decoded_line line at_ms : decoded (window_line_to_string line at_ms) = Some (line_code line at_ms).
Proof. unfold decoded. simpl. rewrite unbits_bits. apply decode_encode. Qed.

Lemma fault_bits_free c p : c ≠ "0"%char → c ≠ "1"%char → free_of c (bits p) = true.
Proof.
  intros H0 H1. induction p as [p IH|p IH|]; simpl; rewrite bool_decide_false by done; simpl; done.
Qed.

#[local] Instance bit_fault_laws : FleetLaws.
Proof.
  split.
  - intros line at_ms. split; by apply fault_bits_free.
  - intros line at_ms. cbn [map_access bit_faults]. rewrite decoded_line. unfold window_keys. simpl.
    by destruct (wl_detail line).
  - intros line at_ms _. cbn [fault_line_from_str bit_faults]. rewrite decoded_line. simpl.
    unfold judge_line. simpl. by destruct (wl_phase line).
Defined.

(** ** Playing a run *)

(** What the surroundings answer: files are journals with one line, processes are
    stopped, killed and reaped at once. *)
Definition answer (c : fcall) : fanswer c :=
  match c with
  | RecordLine _ | Sleep _ | SleepUntil _ | DropNode _ | Bump _ | Release _ _ => tt
  | Now => 0%N
  | ReadFile _ => Ok "1 (duckspout) T"
  | Pid _ => Some 41%N
  | Kill _ _ => Ok true
  | TryWait _ => Ok (Some "signal: 9")
  | Spawn _ _ | StartKill _ | CreateDirAll _ | WriteFile _ _ | CreateLog _ | OtlpConnect _ => Ok tt
  | WaitChild _ => Ok "signal: 9"
  | UnixMs => 0%N
  | UnixNanos => None
  | IsFile _ => true
  | CurrentExe => Err ""
  | SearchPath => None
  | TempDir => "/tmp"
  | TcpConnect _ _ _ => Some (Ok tt)
  | Loadgen _ _ | OtlpExport _ _ => Ok true
  | FetchStatus _ timeout => match timeout with None => Err "" | Some _ => None end
  | FlightConnect _ timeout => match timeout with None => Err "" | Some _ => None end
  | DoGet _ timeout => match timeout with None => Ok tt | Some _ => None end
  | NextMessage timeout => match timeout with None => Ok false | Some _ => None end
  | Hold _ _ => (0%N, false)
  | Stats _ => stats_zero
  end.

Definition play_call (w : World) (c : fcall) : option (fanswer c * World) :=
  match c return option (fanswer c * World) with
  | RecordLine line =>
      Some (tt, {| wd_links := wd_links w; wd_log := wd_log w ++ [(line, 7%N)]; wd_torn := wd_torn w |})
  | Hold label conditions =>
      match wd_links w !! label with
      | Some link =>
          if (next_id (lk_table link) <? u64_max)%N then
            let '(table, id, bump) := hold (lk_table link) conditions in
            Some ((id, bump), set_link w label
              (set_table link table (lk_bumps link + if bump then 1 else 0)))
          else None
      | None => None
      end
  | Bump label =>
      match wd_links w !! label with
      | Some link =>
          match lk_bumps link with
          | S n => Some (tt, set_link w label (Link.bump link n))
          | O => None
          end
      | None => None
      end
  | Release label id =>
      match wd_links w !! label with
      | Some link => Some (tt, set_link w label
          (set_table link (release (lk_table link) id) (lk_bumps link)))
      | None => None
      end
  | c => Some (answer c, w)
  end.

Lemma play_call_serve w c a w' : play_call w c = Some (a, w') → serve w c a w'.
Proof.
  destruct c; simpl; try (by intros [= <- <-]).
  - intros [= <- <-]. by exists 7%N.
  - destruct (wd_links w !! link) as [lk|] eqn:El; [|done]. destruct (N.ltb_spec (next_id (lk_table lk)) u64_max); [|done].
    destruct (hold (lk_table lk) conditions) as [[table id] bump] eqn:Eh. intros [= <- <-]. eauto 10.
  - destruct (wd_links w !! link) as [lk|] eqn:El; [|done]. destruct (lk_bumps lk) eqn:Eb; [done|].
    intros [= <- <-]. eauto 10.
  - destruct (wd_links w !! link) as [lk|] eqn:El; [|done]. intros [= <- <-]. eauto 10.
Qed.

Definition play_thread {A} (w : World) (t : Thread A) : option (World * Thread A) :=
  match th_prog t with
  | Call c k =>
      match play_call w c with
      | Some (a, w') => Some (w', Build_Thread (existT c a :: th_history t) (k a))
      | None => None
      end
  | _ => None
  end.

Lemma play_thread_step {A} w (t : Thread A) w' t' : play_thread w t = Some (w', t') → thread_step w t w' t'.
Proof.
  unfold play_thread. destruct t as [h p]; simpl. destruct p as [|c k| |]; [done| |done..].
  destruct (play_call w c) as [[a w1]|] eqn:E; [|done]. intros [= <- <-]. by apply ThreadCall, play_call_serve.
Qed.

(** The turn of a window of the network group, or of the process group. *)
Inductive turn := Window (i : nat) | Process.

Definition play (s : FaultRun) (who : turn) : FaultRun :=
  match who with
  | Window i =>
      match fr_network s !! i with
      | Some t =>
          match play_thread (fr_world s) t with
          | Some (w', t') =>
              {| fr_world := w'; fr_network := take i (fr_network s) ++ t' :: drop (S i) (fr_network s);
                 fr_churn := fr_churn s; fr_process := fr_process s |}
          | None => s
          end
      | None => s
      end
  | Process =>
      match play_thread (fr_world s) (fr_process s) with
      | Some (w', t') =>
          {| fr_world := w'; fr_network := fr_network s; fr_churn := fr_churn s; fr_process := t' |}
      | None => s
      end
  end.

Lemma play_call_torn w c a w' : play_call w c = Some (a, w') → wd_torn w' = wd_torn w.
Proof.
  destruct c; simpl; repeat case_match; try done; by intros [= <- <-].
Qed.

Lemma play_torn s who : wd_torn (fr_world (play s who)) = wd_torn (fr_world s).
Proof.
  unfold play, play_thread. destruct who; repeat (case_match; simplify_eq/=; try done);
    match goal with E : play_call _ _ = Some _ |- _ => exact (play_call_torn _ _ _ _ E) end.
Qed.

Lemma play_step s who : wd_torn (fr_world s) = None → play s who = s ∨ run_step s (play s who).
Proof.
  intros Ht. destruct who as [i|]; simpl.
  - destruct (fr_network s !! i) as [t|] eqn:Ei; [|by left].
    destruct (play_thread (fr_world s) t) as [[w' t']|] eqn:Ep; [|by left].
    right. eapply RunNetwork; [done| |by apply play_thread_step]. by rewrite take_drop_middle.
  - destruct (play_thread (fr_world s) (fr_process s)) as [[w' t']|] eqn:Ep; [|by left].
    right. by eapply RunProcess, play_thread_step.
Qed.

Lemma play_reachable cli nodes joiner links s schedule :
  run_reachable cli nodes joiner links s → wd_torn (fr_world s) = None →
  run_reachable cli nodes joiner links (foldl play s schedule).
Proof.
  revert s. induction schedule as [|who schedule IH]; intros s Hr Ht; simpl; [done|].
  apply IH; [|by rewrite play_torn]. destruct (play_step s who Ht) as [->|Hs]; [done|by eapply run_next].
Qed.

(** ** Three faults over two nodes *)

Definition fleet_of (nodes : N) : Cli := {|
  cli_seed := 0; cli_nodes := nodes; cli_work_dir := None; cli_daemon_bin := None;
  cli_loadgen_bin := None; cli_rf := 1; cli_otlp_base_port := 24317; cli_flight_base_port := 24400;
  cli_peer_base_port := 24500; cli_status_base_port := 24600;
  cli_postgres_dsn := "postgres://duckspout@127.0.0.1:5432/duckspout_catalog";
  cli_postgres_password := "duckspout"; cli_local_lake := true; cli_s3_endpoint := "127.0.0.1:9000";
  cli_s3_bucket := "duckspout"; cli_s3_prefix := "fleet"; cli_s3_region := "us-east-1";
  cli_s3_access_key_id := "duckspout"; cli_s3_secret_access_key := "duckspout-secret";
  cli_skip_backend_check := false; cli_backend_check_timeout_secs := 5; cli_hot_window := "5s";
  cli_allowed_lateness := "1s"; cli_boot_timeout_secs := 30; cli_load_batches := 20;
  cli_load_batch_size := 50; cli_load_interval_ms := 200; cli_tenant := None;
  cli_settle_timeout_secs := 30; cli_shutdown_grace_secs := 10;
  cli_journal_sample_interval_ms := 500; cli_fault_kill_node := Some 1%N;
  cli_fault_kill_mid_drain := false; cli_fault_kill_delay_secs := 5;
  cli_fault_kill_drain_stall_ms := 3000; cli_fault_kill_mid_drain_timeout_secs := 60;
  cli_fault_sigstop_node := None; cli_fault_sigstop_delay_secs := 5;
  cli_fault_sigstop_duration_secs := 20; cli_fault_partition_node := Some 0%N;
  cli_fault_partition_delay_secs := 5; cli_fault_partition_duration_secs := 10;
  cli_fault_degrade_node := None; cli_fault_degrade_delay_secs := 5;
  cli_fault_degrade_duration_secs := 10; cli_fault_degrade_request_delay_ms := 250;
  cli_fault_degrade_response_bytes_per_sec := 16384; cli_fault_churn_leave_node := None;
  cli_fault_churn_leave_delay_secs := 5; cli_fault_churn_join := false;
  cli_fault_churn_join_delay_secs := 5; cli_fault_flight_kill_node := None;
  cli_fault_flight_kill_delay_secs := 5; cli_fault_flight_kill_query := "";
  cli_fault_flight_kill_first_message_timeout_secs := 30; cli_fault_catalog_outage_node := Some 0%N;
  cli_fault_catalog_outage_delay_secs := 5; cli_fault_catalog_outage_duration_secs := 10;
  cli_fault_discovery_flap_node := None; cli_fault_discovery_flap_delay_secs := 5;
  cli_fault_discovery_flap_cycles := 5; cli_fault_discovery_flap_down_ms := 1000;
  cli_fault_discovery_flap_up_ms := 1000; cli_fault_cache_churn_node := None;
  cli_fault_cache_churn_delay_secs := 3; cli_fault_cache_churn_duration_secs := 8;
  cli_fault_cache_churn_hot_window := "1s"; cli_fault_cache_churn_query := "";
  cli_fault_cache_churn_read_interval_ms := 50 |}.

Definition chaos : Cli := fleet_of 2.

Definition base_ports : BasePorts := {| bp_otlp := 4317; bp_flight := 8815; bp_peer := 7070; bp_status := 9187 |}.

Definition two_nodes : list NodeSpec := provision_node "/tmp/fleet" 0 base_ports <$> [0%N; 1%N].

Definition chaos_links : FleetLinks :=
  match build_fault_links (λ _, Ok 40000%N) chaos two_nodes with Ok links => links | Err _ => ∅ end.

Definition calm : World :=
  {| wd_links := {["fleet-0-0-ingest" := link_new; "fleet-0-0-catalog" := link_new]}; wd_log := []; wd_torn := None |}.

Lemma calm_fresh : fresh_world calm.
Proof.
  split; [done|]. intros label link Hl. unfold calm in Hl. simpl in Hl.
  apply lookup_insert_Some in Hl as [[_ <-]|[_ Hl]]; [done|].
  by apply lookup_singleton_Some in Hl as [_ <-].
Qed.

Definition chaos_run : FaultRun := run_armed_faults 5 chaos two_nodes None chaos_links calm.

Lemma chaos_reachable schedule :
  run_reachable chaos two_nodes None chaos_links (foldl play chaos_run schedule).
Proof.
  apply play_reachable; [|done].
  eapply (run_start _ _ _ _ 5 (λ _, Ok 40000%N) two_nodes); [vm_compute; reflexivity|apply calm_fresh].
Qed.

(** All three to the end, in turns. *)
Definition chaos_over : FaultRun :=
  foldl play chaos_run (mjoin (replicate 30 [Window 0; Process; Window 1])).

Definition chaos_file : FileSystem := λ _, Ok (log_file (fr_world chaos_over)).

Lemma fault_log_judged_witness :
  armed_result chaos_over = Some (Ok []) ∧ length (armed_windows chaos two_nodes None) = 3 ∧
  ∃ ledger, parse_fault_ledger chaos_file "faults.ndjson" = Ok ledger ∧
    ∀ spec, spec ∈ armed_windows chaos two_nodes None → ∃ w, w ∈ fl_windows ledger ∧ judged spec w ∧
      is_Some (fw_started_at_ms w) ∧ is_Some (fw_ended_at_ms w).
Proof.
  assert (armed_result chaos_over = Some (Ok [])) as Hover by (vm_compute; reflexivity).
  split; [exact Hover|]. split; [vm_compute; reflexivity|].
  destruct (fault_log_judged chaos two_nodes None chaos_links chaos_over chaos_file "faults.ndjson")
    as (ledger & Hparse & _ & Hall); [apply chaos_reachable|vm_compute; reflexivity|reflexivity|].
  exists ledger. split; [exact Hparse|]. intros spec Hin.
  destruct (Hall [] spec Hover Hin) as (w & Hw & Hj & _ & Hs & He). exists w. auto.
Defined.

(** The partition has started, and the outage of its catalog link has begun and ended. *)
Definition chaos_mid : FaultRun :=
  foldl play chaos_run (replicate 11 (Window 0) ++ replicate 30 (Window 1)).

Definition mid_history : list event :=
  match fr_network chaos_mid with t :: _ => th_history t | [] => [] end.

Definition mid_line : WindowLine :=
  match mid_history with
  | existT (RecordLine line) _ :: _ => line
  | _ => {| wl_fault_id := ""; wl_kind := NodeKill; wl_target_node := ""; wl_phase := PArmed; wl_detail := None |}
  end.

Lemma fault_windows_hold_witness :
  wl_phase mid_line = PStarted ∧
  (∃ link, wd_links (fr_world chaos_mid) !! "fleet-0-0-catalog" = Some link ∧ enforces link conditions_dropped) ∧
  ∃ link, wd_links (fr_world chaos_over) !! "fleet-0-0-catalog" = Some link ∧ conditions link = conditions_pass.
Proof.
  split; [vm_compute; reflexivity|]. split.
  - destruct (fault_windows_hold chaos two_nodes None chaos_links chaos_mid) as [Hmid _]; [apply chaos_reachable|].
    apply (Hmid mid_history [] mid_line tt (tail mid_history)).
    + unfold histories, mid_history. destruct (fr_network chaos_mid) as [|t l] eqn:E; [vm_compute in E; discriminate|].
      left.
    + vm_compute. reflexivity.
    + vm_compute. reflexivity.
    + constructor.
    + apply (bool_decide_unpack _). vm_compute. exact I.
  - destruct (fault_windows_hold chaos two_nodes None chaos_links chaos_over) as [_ Hover]; [apply chaos_reachable|].
    destruct (wd_links (fr_world chaos_over) !! "fleet-0-0-catalog") as [link|] eqn:E; [|vm_compute in E; discriminate].
    exists link. split; [reflexivity|]. apply (Hover ltac:(vm_compute; eexists; reflexivity) _ _ E).
Defined.

(** The keyword form, with a prefix and other fields around the host. *)
Lemma dsn_rewrite_roundtrip_witness :
  rewrite_postgres_host_port "postgres:dbname=lake host=db port=5432 user=duck" "127.0.0.1" 40000
    = Ok "postgres:host=127.0.0.1 port=40000 dbname=lake user=duck" ∧
  postgres_host_port "postgres:host=127.0.0.1 port=40000 dbname=lake user=duck" = Ok ("127.0.0.1", 40000%N).
Proof.
  pose proof (dsn_rewrite_roundtrip "postgres:dbname=lake host=db port=5432 user=duck" "127.0.0.1" 40000
    ltac:(vm_compute; reflexivity) ltac:(vm_compute; discriminate)) as H.
  assert (rewrite_postgres_host_port "postgres:dbname=lake host=db port=5432 user=duck" "127.0.0.1" 40000
    = Ok "postgres:host=127.0.0.1 port=40000 dbname=lake user=duck") as E by (vm_compute; reflexivity).
  rewrite E in H. split; [exact E|exact (proj1 H)].
Defined.

(** Of two nodes, the first has an ingress and a catalog link. *)
Lemma fault_links_on_path_witness :
  ∃ node link overrides dsn,
    head two_nodes = Some node ∧ chaos_links !! ns_index node ≫= nl_catalog = Some link ∧
    node_overrides chaos (ns_index node) (chaos_links !! ns_index node) = Ok overrides ∧
    no_postgres_dsn overrides = Some dsn ∧ postgres_host_port dsn = Ok ("127.0.0.1", fk_listen_port link).
Proof.
  destruct two_nodes as [|node rest] eqn:En; [vm_compute in En; discriminate|].
  assert (head two_nodes = Some node) as Hh by (rewrite En; reflexivity).
  destruct (fault_links_on_path (λ _, Ok 40000%N) chaos two_nodes chaos_links node) as (_ & _ & _ & overrides & Ho & _ & Hc & _).
  - intros label port [= <-]. vm_compute. discriminate.
  - vm_compute. reflexivity.
  - apply (bool_decide_unpack _). vm_compute. exact I.
  - rewrite En. left.
  - assert (is_Some (chaos_links !! ns_index node ≫= nl_catalog)) as [link Hl].
    { vm_compute in Hh. injection Hh as <-. vm_compute. eexists. reflexivity. }
    destruct (Hc link Hl) as (dsn & host & port & Hd & Hp & _).
    exists node, link, overrides, dsn. auto.
Defined.

(** ** A run to its end

    A fleet of three: the first node is partitioned and its catalog cut, the second is
    killed, the third is the one whose load counts. *)

Definition smoke : Cli := fleet_of 3.

(** What the surroundings answer while the fleet is up. *)
Definition up (c : fcall) : fanswer c :=
  match c return fanswer c with
  | TryWait _ => Ok None
  | CurrentExe => Ok "/opt/bin/duckspout-fleet"
  | FetchStatus _ timeout =>
      match timeout with
      | None => Ok (JObject {["ready" := JBool true; "watermarks" := JArray [JNull]]})
      | Some _ => None
      end
  | c => answer c
  end.

Fixpoint play_free {A} (n : nat) (answers : ∀ c, fanswer c) (t : Thread A) : Thread A :=
  match n with
  | O => t
  | S n =>
      match th_prog t with
      | Call c k => play_free n answers (Build_Thread (existT c (answers c) :: th_history t) (k (answers c)))
      | _ => t
      end
  end.

#[local] Instance smoke_libs : RunLibs :=
  {| run_fleet_serde := bit_fleet; run_manifest_serde := λ _, ""; run_ascii_metadata := λ _, true |}.

Abbreviation smoke_reachable := (reachable (λ _, Ok tt) (λ _, Ok 40000%N) 1300 smoke).

Lemma play_free_reachable {A} (at_ : Thread A → Run) n answers t :
  (∀ t t', free_step t t' → phase_step 1300 smoke (at_ t) (at_ t')) →
  smoke_reachable (at_ t) → smoke_reachable (at_ (play_free n answers t)).
Proof.
  intros Hat. revert t. induction n as [|n IH]; intros [h p] Ht; [done|]. cbn [play_free th_prog].
  destruct p as [|c k| |]; [done| |done..]. apply IH. eapply ReachStep; [exact Ht|]. apply Hat. constructor.
Qed.

Lemma play_free_all {A} (at_ : list (Thread A) → Run) n answers ts :
  (∀ before t t' after, free_step t t' → phase_step 1300 smoke (at_ (before ++ t :: after)) (at_ (before ++ t' :: after))) →
  smoke_reachable (at_ ts) → smoke_reachable (at_ (play_free n answers <$> ts)).
Proof.
  intros Hat. change (smoke_reachable (at_ ([] ++ ts)) → smoke_reachable (at_ ([] ++ (play_free n answers <$> ts)))).
  generalize (@nil (Thread A)). induction ts as [|t ts IH]; intros before Hr; [done|]. cbn [fmap list_fmap].
  change (before ++ ?x :: ?l) with (before ++ [x] ++ l). rewrite (assoc_L (++)). apply IH. rewrite <-(assoc_L (++)).
  apply (play_free_reachable (λ t, at_ (before ++ t :: ts))); [|exact Hr]. intros u u' Hu. by apply Hat.
Qed.

Lemma play_faults past b faults load settle progress schedule :
  wd_torn (fr_world faults) = None →
  smoke_reachable {| ru_past := past; ru_phase := Injecting b faults load settle progress |} →
  smoke_reachable {| ru_past := past; ru_phase := Injecting b (foldl play faults schedule) load settle progress |}.
Proof.
  revert faults. induction schedule as [|who schedule IH]; intros faults Ht Hr; simpl; [done|].
  apply IH; [by rewrite play_torn|]. destruct (play_step faults who Ht) as [->|Hs]; [done|].
  eapply ReachStep; [exact Hr|by constructor].
Qed.

(** The parts of a run that is played. *)
Definition played_faults (b : Booted) : FaultRun :=
  foldl play (run_armed_faults 1300 smoke (bo_booted b) (bo_joiner b) (bo_links b) calm)
    (mjoin (replicate 30 [Window 0; Process; Window 1])).

Definition played_loads (b : Booted) : list (Thread LoadResult) :=
  play_free 100 up <$> (Build_Thread [] ∘ drive_node smoke (bo_links b) <$> bo_booted b).

Definition played_settle (b : Booted) : Thread bool :=
  play_free 100 up (Build_Thread [] (wait_for_any_watermark 1300 (bo_booted b) (secs (cli_settle_timeout_secs smoke)))).

Definition played_capture (b : Booted) (joined : list NodeSpec) : Thread RunManifest :=
  play_free 100 up (Build_Thread [] (capture_manifest (bo_booted b ++ joined) ∅ (bo_nodes b) (bo_started_at_ms b) smoke)).

Definition played_shutdown (running : list NodeSpec) : list (Thread unit) :=
  play_free 100 answer <$> shutdown_all 1300 smoke running.

Lemma play_injecting started b :
  smoke_reachable {| ru_past := []; ru_phase := Starting started |} → outcome_of started = Some (Underway b) →
  smoke_reachable {| ru_past := th_history started ++ [];
    ru_phase := Injecting b (played_faults b) (played_loads b) (played_settle b) ∅ |}.
Proof.
  intros Hr Ho. apply play_faults; [reflexivity|].
  apply (play_free_all (λ load, {| ru_past := th_history started ++ []; ru_phase := Injecting b
      (run_armed_faults 1300 smoke (bo_booted b) (bo_joiner b) (bo_links b) calm) load (played_settle b) ∅ |}));
    [intros before t t' after; apply StepLoad; reflexivity|].
  apply (play_free_reachable (λ settle, {| ru_past := th_history started ++ []; ru_phase := Injecting b
      (run_armed_faults 1300 smoke (bo_booted b) (bo_joiner b) (bo_links b) calm)
      (Build_Thread [] ∘ drive_node smoke (bo_links b) <$> bo_booted b) settle ∅ |}));
    [intros t t'; apply StepSettle; reflexivity|].
  refine (ReachStep _ _ _ _ _ _ Hr (StartUnderway 1300 smoke [] started b calm Ho calm_fresh)).
Qed.

Lemma play_to_exit past b joined loads drain_confirmed manifest down r :
  smoke_reachable {| ru_past := past;
    ru_phase := Injecting b (played_faults b) (played_loads b) (played_settle b) ∅ |} →
  wd_torn (fr_world (played_faults b)) = None → armed_result (played_faults b) = Some (Ok joined) →
  mapM outcome_of (played_loads b) = Some loads → outcome_of (played_settle b) = Some drain_confirmed →
  outcome_of (played_capture b joined) = Some manifest →
  mapM outcome_of (played_shutdown (bo_booted b ++ joined)) = Some down →
  run_result smoke loads drain_confirmed = r →
  ∃ past, smoke_reachable {| ru_past := past; ru_phase := Exited (RunReturned r) |}.
Proof.
  intros Hr Ht Ha Hl Hs Hc Hd <-. eapply ReachStep in Hr; [|by eapply FaultsEnd].
  apply (play_free_reachable (λ t, {| ru_past := joined_history (played_faults b) (played_loads b) (played_settle b) ++ past;
    ru_phase := Capturing b (bo_booted b ++ joined) loads drain_confirmed t |}) 100 up) in Hr; [|intros; by constructor].
  eapply ReachStep in Hr; [|by apply Captured].
  eapply (play_free_all (λ ts, {| ru_past := _; ru_phase := Stopping _ ts _ |}) 100 answer) in Hr; [|intros; by constructor].
  eapply ReachStep in Hr; [|by eapply Stopped].
  eapply (play_free_reachable (λ t, {| ru_past := _; ru_phase := Closing _ t |}) 1 up) in Hr; [|intros; by constructor].
  eapply ReachStep in Hr; [|by apply Closed]. eauto.
Qed.

Definition smoke_started : Thread Start :=
  play_free 100 up (Build_Thread [] (start (λ _, Ok tt) (λ _, Ok 40000%N) 1300 smoke)).

Lemma smoke_starts : smoke_reachable {| ru_past := []; ru_phase := Starting smoke_started |}.
Proof.
  apply (play_free_reachable (λ t, {| ru_past := []; ru_phase := Starting t |})); [intros; by constructor|]. constructor.
Qed.

Lemma smoke_exits : ∃ past, smoke_reachable {| ru_past := past; ru_phase := Exited (RunReturned (Ok EXIT_OK)) |}.
Proof.
  destruct (outcome_of smoke_started) as [[| | |b]|] eqn:Eb; [vm_compute in Eb; discriminate..| |vm_compute in Eb; discriminate].
  pose proof (play_injecting _ _ smoke_starts Eb) as Hr. vm_compute in Eb. injection Eb as Eb.
  eapply play_to_exit; [exact Hr|subst b; vm_compute; reflexivity..].
Qed.

Lemma run_leaves_no_node_witness :
  ∃ past, smoke_reachable {| ru_past := past; ru_phase := Exited (RunReturned (Ok EXIT_OK)) |} ∧ alive past = ∅ ∧
    ∀ node, node ∈ spawned past → child_dropped node past ∧
      ∃ h, child_asked node h ∧ (child_ended node h ∨ gave_up node h).
Proof.
  destruct smoke_exits as [past Hp]. exists past. split; [exact Hp|].
  destruct (run_leaves_no_node (λ _, Ok tt) (λ _, Ok 40000%N) 1300 smoke past _ Hp) as [Ha Hs].
  split; [exact Ha|]. intros node [(Hd & h & _ & _ & Hh)|[]]%Hs. split; [exact Hd|]. exists h. exact Hh.
Defined.

Lemma exit_code_honest_witness :
  ∃ past b, smoke_reachable {| ru_past := past; ru_phase := Exited (RunReturned (Ok EXIT_OK)) |} ∧
    2%N ∉ ingest_faulted_nodes smoke ∧ length (bo_booted b) = 3 ∧
    load_taken smoke b past ∧ drained (bo_booted b) past.
Proof.
  destruct smoke_exits as [past Hp]. exists past.
  destruct (exit_code_honest (λ _, Ok tt) (λ _, Ok 40000%N) 1300 smoke past _ Hp) as (_ & _ & Hb).
  destruct (Hb (or_introl eq_refl)) as (b & (_ & Hlen & _) & Ht & _ & Hd & _). exists b. split; [exact Hp|].
  split; [apply (bool_decide_unpack _); vm_compute; exact I|]. split; [exact Hlen|]. split; [exact Ht|].
  apply Hd. reflexivity.
Defined.

(** The fuel the command line of this run asks for. *)
Lemma fleet_run_ends_witness :
  enough_run 1300 1000 smoke ∧
  ends (λ _, True) 0 1000 (start (λ _, Ok tt) (λ _, Ok 40000%N) 1300 smoke) ∧
  Forall (λ thread, ends (λ _, True) 0 1000 (th_prog thread)) (shutdown_all 1300 smoke two_nodes).
Proof.
  assert (enough_run 1300 1000 smoke) as He by (split; [split; [lia|vm_compute; reflexivity..]|vm_compute; reflexivity]).
  split; [exact He|].
  destruct (fleet_run_ends (λ _, Ok tt) (λ _, Ok 40000%N) 1300 1000 smoke (λ _, True) 0 He (λ _, I) ltac:(vm_compute; discriminate))
    as (Hs & _ & Hd). split; [exact Hs|].
  destruct (Hd 0%N two_nodes ∅ [] 0%N "" {| rm_started_at_ms := 0; rm_ended_at_ms := 0; rm_sample_interval_ms := 0; rm_nodes := [] |} [] true)
    as (_ & Hdown & _). exact Hdown.
Defined.

(** * Witnesses for the claims about a run's evidence and the test kit

    Two nodes of a fleet, one of which is killed in the middle of a line's newline; a
    storage that crashes between two boots; three tasks under a seeded scheduler. *)

(** ** The text of a record and of a manifest *)

Abbreviation record_code := (string * N * nat)%type.
Abbreviation row_code := (string * string * N * option N * bool)%type.
Abbreviation text_code := (record_code + N * N * N * list row_code)%type.

Definition of_record (record : TraceRecord) : record_code :=
  (tr_node record, tr_seq record, event_code (tr_event record)).

Definition of_row (row : NodeRun) : row_code :=
  (nr_name row, nr_journal_path row, nr_journal_lines row, nr_last_progress_at_ms row, nr_exited_early row).

Definition to_row (code : row_code) : NodeRun :=
  let '(name, path, lines, at_ms, exited) := code in
  {| nr_name := name; nr_journal_path := path; nr_journal_lines := lines;
     nr_last_progress_at_ms := at_ms; nr_exited_early := exited |}.

Definition of_manifest (m : RunManifest) : N * N * N * list row_code :=
  (rm_started_at_ms m, rm_ended_at_ms m, rm_sample_interval_ms m, of_row <$> rm_nodes m).

(** The text ends with a brace, which a text that is cut short has not. *)
Definition text_bits (code : text_code) : string := bits (encode code) +:+ "}".

Fixpoint before_brace (s : string) : option string :=
  match s with
  | EmptyString => None
  | String c s => if Ascii.eqb c "}" then Some "" else String c <$> before_brace s
  end.

Definition bits_text (raw : string) : option text_code :=
  match before_brace raw ≫= unbits with Some p => decode p | None => None end.

Lemma before_brace_app s : free_of "}" s = true → before_brace (s +:+ "}") = Some s.
Proof.
  induction s as [|c s IH]; [done|]. change (String c s +:+ "}") with (String c (s +:+ "}")). simpl.
  intros [Hc Hs]%andb_prop. rewrite IH by done. apply negb_true_iff, bool_decide_eq_false in Hc.
  destruct (Ascii.eqb_spec c "}"); [by subst|done].
Qed.

Lemma before_brace_none s : free_of "}" s = true → before_brace s = None.
Proof.
  induction s as [|c s IH]; [done|]. simpl. intros [Hc Hs]%andb_prop. rewrite IH by done.
  apply negb_true_iff, bool_decide_eq_false in Hc. destruct (Ascii.eqb_spec c "}"); [by subst|done].
Qed.

Lemma bits_text_bits code : bits_text (text_bits code) = Some code.
Proof.
  unfold bits_text, text_bits. rewrite before_brace_app by by apply fault_bits_free. simpl.
  rewrite unbits_bits. apply decode_encode.
Qed.

Lemma brace_length s : String.length (s +:+ "}") = S (String.length s).
Proof.
  induction s as [|c s IH]; [done|]. change (String c s +:+ "}") with (String c (s +:+ "}")). simpl. by rewrite IH.
Qed.

Lemma text_bits_torn code n : (n < String.length (text_bits code))%nat →
  bits_text (String.substring 0 n (text_bits code)) = None.
Proof.
  unfold bits_text, text_bits. rewrite brace_length. intros Hn.
  rewrite substring_short by lia. by rewrite before_brace_none by by apply free_of_substring, fault_bits_free.
Qed.

#[local] Instance bit_trace : TraceSerde := λ record, text_bits (inl (of_record record)).
#[local] Instance bit_manifest : ManifestSerde := λ m, text_bits (inr (of_manifest m)).

#[local] Instance bit_run : Serde := {|
  Value := unit;
  map_access raw :=
    match bits_text raw with
    | Some (inl _) => (["node"; "seq"; "event"], None)
    | Some (inr _) => (["started_at_ms"; "ended_at_ms"; "sample_interval_ms"; "nodes"], None)
    | None => ([], Some "not a text")
    end;
  contains_key _ _ := false;
  value_from_str _ := Err "";
  envelope_from_str raw :=
    match bits_text raw with
    | Some (inl (node, seq, code)) =>
        match AcceptWitness.events !! code with
        | Some event => Ok {| env_node := node; env_seq := seq; env_event := event; env_rest := tt |}
        | None => Err "not an event"
        end
    | _ => Err "not a record"
    end;
  identity_from_value _ := Err "";
  watermark_from_value _ := Err "";
  changelog_from_value _ := Err "";
  part_from_value _ := Err "";
  read_record_from_str _ := Err "";
  probe_from_value _ := Err "";
  fault_line_from_str _ := Err "";
  manifest_from_str raw :=
    match bits_text raw with
    | Some (inr (started, ended, interval, rows)) =>
        Ok {| rm_started_at_ms := started; rm_ended_at_ms := ended; rm_sample_interval_ms := interval;
              rm_nodes := to_row <$> rows |}
    | _ => Err "not a manifest"
    end;
  summary_from_str _ := Err "";
  final_state_from_str _ := Err "";
  latest_view_from_str _ := Err "";
  committed_parts_from_str _ := Err "";
|}.

Lemma text_bits_line code : text_bits code ≠ "" ∧ free_of newline (text_bits code) = true ∧
  free_of carriage_return (text_bits code) = true.
Proof.
  unfold text_bits. split_and!; [by destruct (encode code)|rewrite free_of_app..];
    by rewrite fault_bits_free by done.
Qed.

#[local] Instance bit_trace_laws : TraceLaws.
Proof.
  refine {| trace_rest _ := tt |}.
  - intros record. apply text_bits_line.
  - intros record. cbn [map_access bit_run]. unfold to_ndjson_line, bit_trace. by rewrite bits_text_bits.
  - intros record _. cbn [envelope_from_str bit_run]. unfold to_ndjson_line, bit_trace. rewrite bits_text_bits.
    simpl. by rewrite event_code_lookup.
  - done.
  - intros record n [_ Hn]. cbn [map_access bit_run]. unfold to_ndjson_line, bit_trace in *.
    by rewrite text_bits_torn.
Defined.

#[local] Instance bit_manifest_laws : ManifestLaws.
Proof.
  split.
  - intros m. cbn [map_access bit_run]. unfold to_string_pretty, bit_manifest. by rewrite bits_text_bits.
  - intros m _. cbn [manifest_from_str bit_run]. unfold to_string_pretty, bit_manifest. rewrite bits_text_bits.
    simpl. destruct m as [s e i rows]. simpl. do 2 f_equal. rewrite <-list_fmap_compose.
    rewrite (list_fmap_ext _ id) by (by intros ? []). apply list_fmap_id.
Defined.

(** ** A run of two nodes *)

(** The first drains; the second is killed after the text of its second line. *)
Definition lives (node : NodeSpec) : Life :=
  if decide (ns_index node = 0%N) then [(EvFenceBoot, Written); (EvStageCommit, Written); (EvDropWindow, Written)]
  else [(EvFenceBoot, Written);
        (EvStageCommit, WriteFailed (String.length (record_text (rendered_node_id node) 1 EvStageCommit)))].

Definition journal_at (n : nat) (path : string) : result string string :=
  match list_find (λ node, ns_journal_path node = path) two_nodes with
  | Some (_, node) => Ok (tw_out (writer_run (rendered_node_id node) (take n (lives node))))
  | None => Err "no such file"
  end.

Definition both_running : list (NodeSpec * result (option string) string) :=
  (λ node, (node, Ok None)) <$> two_nodes.

Definition run_passes : list (N * FileSystem) := [(500%N, journal_at 1); (1000%N, journal_at 2)].

Definition run_manifest : RunManifest :=
  capture_run_manifest both_running (sampled two_nodes run_passes) two_nodes 0 1500 chaos (journal_at 3).

Definition run_files : FileSystem := λ path,
  if decide (path = "run.json") then Ok (to_string_pretty run_manifest) else journal_at 3 path.

Definition run_rows : list NodeRun :=
  [{| nr_name := "fleet-0-0"; nr_journal_path := "/tmp/fleet/node-0/journal.ndjson"; nr_journal_lines := 3;
        nr_last_progress_at_ms := Some 1500%N; nr_exited_early := false |};
     {| nr_name := "fleet-0-1"; nr_journal_path := "/tmp/fleet/node-1/journal.ndjson"; nr_journal_lines := 2;
        nr_last_progress_at_ms := Some 1000%N; nr_exited_early := false |}].

Definition drained : NodeSpec := provision_node "/tmp/fleet" 0 base_ports 0.
Definition killed : NodeSpec := provision_node "/tmp/fleet" 0 base_ports 1.

Lemma both_nodes (P : NodeSpec → Prop) : P drained → P killed → ∀ node, node ∈ two_nodes → P node.
Proof. intros H0 H1 node [->|[->|[]%not_elem_of_nil]%elem_of_cons]%elem_of_cons; [exact H0|exact H1]. Qed.

Lemma both_moved node : node ∈ two_nodes →
  last (moves 0 node (run_passes ++ [(1500%N, journal_at 3)])) =
    Some (if decide (ns_index node = 0%N) then 1500%N else 1000%N).
Proof. revert node. apply both_nodes; vm_compute; reflexivity. Qed.

Lemma run_evidence_judged_witness :
  rm_nodes run_manifest = run_rows ∧
  parse_run_manifest run_files "run.json" = Ok run_manifest ∧
  ∃ journals, ingest_journals run_files (ns_journal_path <$> two_nodes) = Ok journals ∧
    (∀ node, node ∈ two_nodes → jl_event <$> of_node (rendered_node_id node) (js_lines journals) =
       (lives node).*1) ∧
    ∀ ledger, passed (to_verdict (check_node_continuity journals (Some run_manifest) ledger 600)).
Proof.
  split; [vm_compute; reflexivity|].
  assert (both_running.*1 = two_nodes) as Hrun by reflexivity.
  assert (passes_typed : manifest_typed run_manifest).
  { split_and!; [vm_compute; discriminate..|]. apply Forall_forall.
    assert (rm_nodes run_manifest = run_rows) as -> by (vm_compute; reflexivity).
    apply Forall_cons. split; [|apply Forall_singleton].
    all: split; [vm_compute; discriminate|]; intros t [= <-]; vm_compute; discriminate. }
  destruct (run_evidence_judged (λ _, Ok tt) "/tmp/fleet" 0 2 base_ports two_nodes both_running lives run_passes
    0 1500 chaos (journal_at 3) run_files "run.json") as (Hm & _ & Hwhole).
  - vm_compute. reflexivity.
  - intros r (node & -> & Hn)%list_elem_of_fmap. exact Hn.
  - rewrite Hrun. apply (bool_decide_unpack _). vm_compute. exact I.
  - rewrite Hrun. apply both_nodes; vm_compute; reflexivity.
  - exact passes_typed.
  - reflexivity.
  - destruct Hwhole as (journals & Hj & He & Hc).
    { rewrite Hrun. apply both_nodes; [vm_compute; exact I|].
      right. apply Nat.leb_le. vm_compute. reflexivity. }
    split; [exact Hm|]. exists journals. rewrite Hrun in Hj. split; [exact Hj|]. split.
    + intros node Hin. rewrite (He node) by (rewrite Hrun; exact Hin).
      revert node Hin. apply both_nodes; vm_compute; reflexivity.
    + intros ledger. apply (Hc ledger 600%N); [discriminate|].
      intros r (node & -> & Hn)%list_elem_of_fmap. split.
      * split; [reflexivity|]. eexists. split; [exact (both_moved node Hn)|].
        intros r' t' (node' & -> & Hn')%list_elem_of_fmap Ht'.
        pose proof (both_moved node' Hn') as Hm'. change (last (moves 0 node' (run_passes ++ [(1500%N, journal_at 3)])) = Some t') in Ht'.
        rewrite Hm' in Ht'. injection Ht' as <-.
        destruct (decide (ns_index node = 0%N)), (decide (ns_index node' = 0%N)); vm_compute; discriminate.
      * simpl. revert node Hn. apply both_nodes; vm_compute; discriminate.
Defined.

(** ** Two boots, a crash and a torn write *)

Definition incarnation_path : StoragePath := "node/incarnation".

Definition booted (s : InMemStorage) (answer : result N RegistryError) : InMemStorage :=
  (fence_boot s answer "a" incarnation_path "node").1.2.

(** It drew 3, crashed, drew 8, and crashed again. *)
Definition twice_booted : InMemStorage := booted (crash (booted (storage_new ∅) (Ok 3%N))) (Ok 8%N).

Lemma boots_once s drawn answer outcome s' :
  boot_history "a" incarnation_path s drawn → (∀ i, answer = Ok i → is_u64 i) →
  fence_boot s answer "a" incarnation_path "node" = (outcome, s', answer) →
  boot_history "a" incarnation_path s' (drawn ++ active_of outcome).
Proof. intros Hh Ha Hb. exact (bh_boot _ _ _ _ _ _ _ _ Hh Ha Hb). Qed.

Lemma durable_after s answer outcome f :
  fence_boot s answer "a" incarnation_path "node" = (outcome, booted s answer, answer) →
  im_files (booted s answer) !! incarnation_path = Some f →
  fi_content_durable f && fi_name_durable f = true → durable_at (booted s answer) incarnation_path.
Proof. intros _ Hf Hd g Hg. congruence. Qed.

(** A third boot, whose sync fails. *)
Definition failed_boot : InMemStorage := booted (arm_fsync_failure twice_booted) (Ok 9%N).

Lemma boot_crash_safe_witness :
  read_persisted_incarnation (crash twice_booted) incarnation_path = Ok (Some 8%N) ∧
  (fence_boot (crash twice_booted) (Err (Unreachable "down")) "a" incarnation_path "node").1.1 = Ok (Degraded 8) ∧
  StronglySorted (λ i j, i < j)%N [3%N; 8%N] ∧
  (∀ i s', (fence_boot (crash twice_booted) (Ok i) "a" incarnation_path "node").1 = (Ok (Active i), s') → (8 < i)%N) ∧
  read_persisted_incarnation failed_boot incarnation_path = Ok (Some 9%N) ∧
  read_persisted_incarnation (crash failed_boot) incarnation_path = Ok None.
Proof.
  assert (boot_history "a" incarnation_path twice_booted [3%N; 8%N]) as Hh.
  { apply (boots_once (crash (booted (storage_new ∅) (Ok 3%N))) [3%N] (Ok 8%N) (Ok (Active 8))).
    - apply bh_crash; [|eapply durable_after; vm_compute; reflexivity].
      apply (boots_once (storage_new ∅) [] (Ok 3%N) (Ok (Active 3))).
      + apply bh_new.
      + intros i [= <-]. vm_compute. discriminate.
      + vm_compute. reflexivity.
    - intros i [= <-]. vm_compute. discriminate.
    - vm_compute. reflexivity. }
  assert (boot_history "a" incarnation_path failed_boot [3%N; 8%N]) as Hf.
  { apply (boots_once (arm_fsync_failure twice_booted) [3%N; 8%N] (Ok 9%N)
      (Err (PersistFailed (FsyncFailed incarnation_path)))).
    - apply bh_fail. exact Hh.
    - intros i [= <-]. vm_compute. discriminate.
    - vm_compute. reflexivity. }
  destruct (boot_crash_safe "a" incarnation_path twice_booted [3%N; 8%N] 8 Hh eq_refl) as (Hs & _ & f & Ef & Hb).
  split; [vm_compute; reflexivity|]. split; [vm_compute; reflexivity|]. split; [exact Hs|]. split.
  - assert (fi_content_durable f && fi_name_durable f = true) as Hd.
    { vm_compute in Ef. injection Ef as <-. reflexivity. }
    rewrite Hd in Hb. destruct Hb as [_ Hb].
    intros i s' E. destruct (fence_boot (crash twice_booted) (Ok i) "a" incarnation_path "node") as [[outcome s1] r] eqn:Eb.
    injection E as -> ->. exact (Hb (Ok i) (Ok (Active i)) s' r Eb).
  - split; [vm_compute; reflexivity|].
    destruct (boot_crash_safe "a" incarnation_path failed_boot [3%N; 8%N] 8 Hf eq_refl) as (_ & _ & g & Eg & Hg).
    assert (fi_content_durable g && fi_name_durable g = false) as Hd.
    { vm_compute in Eg. injection Eg as <-. reflexivity. }
    rewrite Hd in Hg. exact Hg.
Defined.

(** ** Three tasks under the seeded scheduler *)

(** A task is the sleeps it has still to do. *)
Definition sleeper (now : N) (shared : unit) (task : list N) : Polled (list N) unit :=
  match task with
  | [] => {| po_task := None; po_woke := false; po_spawned := []; po_sleeps := []; po_shared := tt |}
  | nanos :: task => {| po_task := Some task; po_woke := true; po_spawned := []; po_sleeps := [nanos]; po_shared := tt |}
  end.

Definition sleepers : Sched SeededRandom (list N) unit :=
  foldl spawn (scheduler_new (seeded_new 42) clock_new tt) [[5%N; 7%N]; [3%N]; []].

Lemma sleepers_finite now shared task : let p := sleeper now shared task in
  (match po_task p with Some task => S (2 * length task) | None => 0 end +
   sum_list_with (λ task, S (2 * length task)) (po_spawned p) +
   length (po_sleeps p) + (if moved p then 1 else 0) ≤ S (2 * length task))%nat.
Proof. destruct task; simpl; lia. Qed.

Lemma run_until_idle_ends_witness :
  rounds_left (λ task, S (2 * length task)) sleepers = 19 ∧
  match run_until_idle sleeper 20 sleepers with
  | Idle stuck st' => stuck = 0 ∧ sd_tasks st' = []
  | _ => False
  end.
Proof.
  split; [vm_compute; reflexivity|].
  assert (clock_ok sleepers) as Hok.
  { split; [vm_compute; discriminate|]. split; [|vm_compute; discriminate].
    intros d Hd. exfalso. revert Hd. apply not_elem_of_empty. }
  pose proof (run_until_idle_ends sleeper seeded_in_range (λ task, S (2 * length task)) sleepers_finite 20 sleepers
    Hok ltac:(vm_compute; lia)) as H.
  assert (∃ st', run_until_idle sleeper 20 sleepers = Idle 0 st') as [st' E] by (vm_compute; eexists; reflexivity).
  rewrite E in *. split; [reflexivity|]. destruct H as [H _]. symmetry in H. apply length_zero_iff_nil in H. exact H.
Defined.
